(* ===== verification/_CoqProject ===== *)
-Q . S2P
Prelude.v
Dict.v
DictSpec.v
DictIter.v
DictScan.v
Intset.v
Decimal.v
Sds.v
SdsText.v
Util.v
Skiplist.v
Adlist.v
MapApi.v
Zset.v
Lzf.v
Rdb.v
Networking.v
Ziplist.v
ZiplistRep.v
ZiplistEdit.v
ZiplistQuery.v
ZiplistSpec.v
ZiplistApi.v
Quicklist.v
QuicklistRep.v
QuicklistOps.v
QuicklistAccess.v
QuicklistIter.v
QuicklistInsert.v
QuicklistRange.v
QuicklistSpec.v
Keyspace.v
TList.v
TListSpec.v
TSet.v
TSetRep.v
TSetCmd.v
TSetSpec.v
THash.v
THashRep.v
THashSpec.v
Db.v
DbRep.v
TString.v
KeySpec.v
TStringSpec.v
Multi.v
MultiSpec.v
Bitops.v
BitCmd.v
BitSpec.v
HllFloat.v
Hll.v
HllRep.v
HllSparse.v
HllSpec.v
Crc.v
