(* ===== verification/Prelude.v ===== *)
(** * A verification library for the core of Redis 5.0.5

    The repository is a small blockchain application (JavaScript and Solidity
    services) that ships the sources of Redis 5.0.5, its store. The C program is
    where the algorithms are; this library models and verifies the core of it,
    under src/redis-service/redis-5.0.5/src ("the sources" below).

    ** The program

    Redis keeps a keyspace of strings, lists, sets, hashes and sorted sets in
    memory. Clients send requests ([networking.c]); a command works on the data
    structures: byte strings ([sds.c]), hash tables ([dict.c]), sets of integers
    ([intset.c]), linked lists ([adlist.c]), sequences of entries in one block
    ([ziplist.c]), lists as linked ziplists that may be compressed
    ([quicklist.c]) with their commands ([t_list.c]), sets as sets of integers or
    hash tables ([t_set.c]), sorted sets as a hash table and a skiplist with the
    same elements ([t_zset.c]); strings ([t_string.c], [object.c]) are bitmaps
    as well ([bitops.c]); keys may expire ([db.c], [expire.c]); numbers and
    patterns are parsed and printed by [util.c]; the dataset is saved in the RDB
    format ([rdb.c]), whose long strings are compressed ([lzf_c.c], [lzf_d.c]).

    ** The files

    - Prelude.v: wrap-around of machine integers, bits, memory as a list of
      bytes with checked accesses, little endian integers, arrays.
    - Dict.v: the tables of dict.c. A [dict] has its two tables; chains are
      lists of entries, a table is a list of chains. Operations return the new
      dict, the code of the C function and the keys and values that are
      destroyed. [dict_wf] is the invariant, [dict_map] the finite map a dict
      stands for.
    - DictSpec.v: any sequence of operations of a dict as a sequence on a map.
    - DictIter.v: safe and unsafe iterators with their fingerprint, random
      entries, rehashing by time.
    - DictScan.v: [dictScan] with its reversed-binary cursor over both tables.
    - Intset.v: intset.c on the bytes of the block, for the three widths.
    - Decimal.v: the decimal representation of numbers, shared by the parsers
      and printers of sds.c and util.c.
    - Sds.v, SdsText.v: sds.c. A string has its header type, length, allocation
      and buffer; [sds_rep] relates it to its bytes. SdsText.v has comparison,
      splitting, joining, quoting and formatting.
    - Util.v: [ll2string], [string2ll], [memtoll], [stringmatchlen] and helpers.
    - Skiplist.v: the skiplist of t_zset.c on a heap of nodes with levels,
      spans and backward pointers; [zsl_rep] relates it to a sorted list.
    - Adlist.v: adlist.c on a heap of nodes, iterators included.
    - MapApi.v: the interface that sorted sets need of a map (a type class with
      its laws) and its implementation by the dict.
    - Zset.v: [zsetAdd], [zsetDel], [zsetScore], [zsetRank], [zsetLength], which
      keep the map and the skiplist of a sorted set consistent; proved against
      the interface of MapApi.v.
    - Lzf.v: compression and decompression on explicit buffers.
    - Rdb.v: the lengths, integers and strings of the RDB format, on top of
      Util.v and Lzf.v, with failing writes, truncated and arbitrary files.
    - Networking.v: query buffer, both request protocols, the processing loop
      and the replication stream of a master, on top of SdsText.v and Util.v;
      the rest of the server is behind the interface [Server].

    - Ziplist.v: ziplist.c on the bytes of the block, cascading updates
      included. ZiplistRep.v relates a block to its entries, ZiplistEdit.v and
      ZiplistQuery.v treat the operations, ZiplistSpec.v has the theorems on
      sequences of strings, ZiplistApi.v the form of them that quicklists and
      hashes use.
    - Quicklist.v: quicklist.c on a heap of nodes whose payload is a ziplist or
      its compression, on top of Ziplist.v and Lzf.v. QuicklistRep.v has the
      invariant [qok], QuicklistOps.v the ends of a list, QuicklistAccess.v
      access by index, QuicklistIter.v iterators, QuicklistInsert.v splits and
      merges, QuicklistRange.v ranges and whole lists, QuicklistSpec.v the
      theorems on sequences of strings.
    - Keyspace.v: what the commands share: keys and values, replies, events,
      counted changes, and the refinement of sequences of commands.
    - TList.v: the list commands of t_list.c that do not block, on a keyspace of
      quicklists. TListSpec.v: their specification on sequences of strings and
      the refinement of any sequence of commands.
    - TSet.v: t_set.c, both encodings of a set, their iterators and conversion,
      and the commands whose result is not random, on top of Dict.v, DictIter.v
      and Intset.v. TSetRep.v has the set a set object stands for and loops over
      it, TSetCmd.v the specification of the commands on finite sets, TSetSpec.v
      the refinement of any sequence of commands.
    - THash.v: t_hash.c, both encodings of a hash, their iterators and conversion,
      and the commands, on top of Ziplist.v and Dict.v. THashRep.v has the finite
      map a hash object stands for, THashSpec.v the specification of the commands
      on finite maps and the refinement of any sequence of commands.
    - Db.v: a database with expiration times, the lookups that evict or hide
      expired keys, and the commands on keys. DbRep.v: the map of unexpired keys
      that a database stands for. TString.v: string objects and their commands.
      KeySpec.v: all these commands on maps; TStringSpec.v: the refinement of any
      sequence of commands, each at its time.
    - Multi.v: transactions (multi.c) of many clients and the gate of
      processCommand, on top of an interface [Commands] of all other commands.
      MultiSpec.v: transactions as optimistic locking with versions of keys; the
      commands of TString.v are an instance of the interface.
    - Bitops.v: the bit functions of bitops.c, BitCmd.v: its commands, BitSpec.v:
      the commands as operations on arrays of bits.
    - HllFloat.v: the arithmetic of hyperloglog.c on IEEE doubles, the estimate
      from the histogram of the registers. Hll.v: the rest of hyperloglog.c,
      hashing, both representations and the commands.
      HllRep.v: packed registers and histograms; HllSparse.v: sequences of
      opcodes, updates and promotion; HllSpec.v: the commands on registers.
    - Crc.v: crc64.c, crc16.c, and from cluster.c the slot of a key and the
      payload of DUMP.

    ** How the code is modelled

    Integers are [Z] and keep the width of the code: [u8] ... [u64] and [s8] ...
    [s64] write out conversions and unsigned arithmetic. Memory that the code
    addresses by offsets is a list of bytes; a read or write out of bounds makes
    the operation [None], so a theorem that an operation returns [Some] includes
    memory safety. Pointer structures live in finite maps from addresses to
    nodes; a dangling access is [None] as well. Allocation does not fail (the
    program aborts then) and returns memory with arbitrary contents. C loops are
    functions with fuel; the theorems show for the fuel that the operation
    itself passes (the length of the buffer, the number of buckets, elements or
    digits and the like) that it is enough, so they are about total behaviour.

    ** What is shown

    - Dict: any sequence of operations refines the finite map in any state of an
      incremental rehash, destroys what it should once, keeps the invariant; the
      rehash terminates. Iterators return every entry once, safe ones while the
      table changes under them. Random entries are entries of the table. SCAN
      returns every key that stays, across resizes in either direction, and
      terminates.
    - Intset: refinement of a sorted set of integers on the byte level,
      upgrades in place included.
    - Sds: all growth, edit and text operations on all header types; quoting
      and splitting are inverse to each other.
    - Util: exact characterisation of number parsing and printing; glob
      matching against a declarative meaning, with termination.
    - Skiplist: insertion, deletion, update, rank, range queries and range
      deletions, with exact spans. Zset: ZADD and ZREM on map and skiplist.
    - Adlist: edits and traversals, with deletion during an iteration.
    - Lzf, Rdb: round trips whatever uninitialized memory contains, safety on
      arbitrary input, behaviour on truncated input and failing writes.
    - Networking: requests are executed exactly once and in order however the
      stream is cut; the parser is safe on arbitrary bytes; a malformed request
      after any well-formed ones, in any pieces, is answered with its error,
      executes nothing and closes the connection; forwarding to sub-slaves.
    - Ziplist: insertion, deletion, merging and queries on sequences of
      strings, with every access in bounds; integers are stored as integers.
    - Quicklist: pushes, pops and reads for every depth of compression; edits,
      ranges and copies without compression. The list commands: replies,
      errors, counted changes, events and contents of the keys.
    - Sets: the commands as operations on finite sets, whatever the encodings,
      with conversions on the way, both algorithms of SDIFF, and lookups that
      move a rehash along under the iterators of other sets.
    - Hashes: the commands as operations on finite maps, whatever the encodings,
      with conversions on the way; no hash is left empty, overflow tests are exact.
    - Strings and keys: the commands as operations on the map of unexpired keys,
      whenever expired keys are evicted; encodings are not visible; overflow
      tests are exact. The clock is read once per command.
    - Transactions: for every interleaving, EXEC runs its queue exactly when no
      watched key was modified and no request was refused with a flag.
    - Bitops: counting, searching and integer fields by words and masks are the
      operations on the array of bits; what overflow checks report, in every
      case; the commands on bitmaps, as for lists.
    - HyperLogLog: the commands as operations on 16384 registers, whatever
      representation and cache; sparse updates raise one register and no other;
      the loops of the estimate end.
    - Checksums: the tables compute remainders of polynomials; the payload of
      DUMP is accepted as made and refused after a burst of up to eight bytes;
      hash tags alone decide the slot of a key.

    The properties are numbered C1, C2, ... in the comments of their theorems.
    Where the code is undefined or goes wrong on some inputs, the theorem says
    what happens there or its comment names the inputs that it leaves out; the
    specifications of commands parse their arguments with a grammar of their own.
    A theorem with hypotheses is followed by a witness with the same name and
    the suffix [_witness], an application to a concrete state.

    ** What is not modelled, and why

    - Floating point: the scores of sorted sets are an abstract ordered type
      with an addition that may fail (NaN); parsing and printing of doubles and
      long doubles is left out. The estimate of a HyperLogLog is modelled, with the
      long double that [llroundl] takes as a double.
    - Random levels, random keys and the hash function are parameters: the
      theorems hold for all of them.
    - The statistics of a table and the lookup of an entry by the address of its
      key; the ziplist encoding of sorted sets; rax, streams,
      geo; SPOP, SRANDMEMBER, SSCAN, HSCAN, the commands of sorted
      sets, and the blocking commands of lists; several databases, the active
      expiration cycle and eviction; publish and subscribe.
      These could be modelled in the same way.
    - Replication, cluster, sentinel, event loop, sockets, files, processes,
      scripting, modules and the tools: driven by the operating system.
    - deps/ is third-party code. The JavaScript, Solidity and deployment parts of
      the repository are not C code and are glue around services. *)

From stdpp Require Export prelude list gmap sorting.
From Stdlib Require Export ZArith Lia.

Open Scope Z_scope.

(** ** Machine integers

    A [w]-bit integer of the C code is a [Z]; the functions below write out
    the wrap-around of the conversions and of the unsigned arithmetic. *)

Definition uwrap (w z : Z) : Z := z `mod` 2 ^ w.
Definition swrap (w z : Z) : Z := (z + 2 ^ (w - 1)) `mod` 2 ^ w - 2 ^ (w - 1).

Abbreviation u8 := (uwrap 8).
Abbreviation u16 := (uwrap 16).
Abbreviation u32 := (uwrap 32).
Abbreviation u64 := (uwrap 64).
Abbreviation s8 := (swrap 8).
Abbreviation s16 := (swrap 16).
Abbreviation s32 := (swrap 32).
Abbreviation s64 := (swrap 64).

(** Bitwise complement of a [w]-bit unsigned integer ([~x]). *)
Definition unot (w z : Z) : Z := Z.lxor z (Z.ones w).

(** Signed and unsigned ranges, as decidable predicates. *)
Definition in_u (w z : Z) : Prop := 0 ≤ z < 2 ^ w.
Definition in_s (w z : Z) : Prop := - 2 ^ (w - 1) ≤ z < 2 ^ (w - 1).

#[global] Instance in_u_dec w z : Decision (in_u w z).
Proof. unfold in_u. apply _. Defined.
#[global] Instance in_s_dec w z : Decision (in_s w z).
Proof. unfold in_s. apply _. Defined.

Create HintDb redis.
Create HintDb wrap.

Lemma uwrap_small w z : in_u w z → uwrap w z = z.
Proof. unfold uwrap, in_u. intros. by apply Z.mod_small. Qed.

Lemma uwrap_range w z : 0 ≤ w → in_u w (uwrap w z).
Proof. intros. apply Z.mod_pos_bound. lia. Qed.

Lemma swrap_small w z : 0 < w → in_s w z → swrap w z = z.
Proof.
  unfold swrap, in_s. intros Hw Hz.
  assert (2 ^ w = 2 * 2 ^ (w - 1)) by (rewrite <- Z.pow_succ_r by lia; f_equal; lia).
  rewrite Z.mod_small; lia.
Qed.

Lemma swrap_range w z : 0 < w → in_s w (swrap w z).
Proof.
  unfold swrap, in_s. intros Hw.
  assert (2 ^ w = 2 * 2 ^ (w - 1)) by (rewrite <- Z.pow_succ_r by lia; f_equal; lia).
  pose proof (Z.mod_pos_bound (z + 2 ^ (w - 1)) (2 ^ w)). lia.
Qed.

Lemma swrap_uwrap w z : 0 < w → swrap w (uwrap w z) = swrap w z.
Proof.
  intros. unfold swrap, uwrap. f_equal. rewrite Zplus_mod_idemp_l. done.
Qed.

Lemma uwrap_swrap w z : 0 < w → uwrap w (swrap w z) = uwrap w z.
Proof.
  intros. unfold swrap, uwrap. rewrite Zminus_mod_idemp_l. f_equal. lia.
Qed.

(** ** Bits *)

(** [testbit] facts of the operations the bit tricks of the code are made of. *)
Lemma testbit_above n w i : in_u w n → 0 ≤ w ≤ i → Z.testbit n i = false.
Proof.
  intros Hn Hi. rewrite <- (Z.mod_small n (2 ^ w)) by apply Hn.
  by apply Z.mod_pow2_bits_high.
Qed.

Lemma testbit_ones_in w i : 0 ≤ i → 0 ≤ w → Z.testbit (Z.ones w) i = bool_decide (i < w).
Proof.
  intros. rewrite Z.testbit_ones_nonneg by lia. case_bool_decide.
  - by apply Z.ltb_lt.
  - by apply Z.ltb_ge; lia.
Qed.

Lemma in_u_bits w n : 0 ≤ w → 0 ≤ n → (∀ i, w ≤ i → Z.testbit n i = false) → in_u w n.
Proof.
  intros Hw Hn Hb. assert (n = n `mod` 2 ^ w) as ->.
  { apply Z.bits_inj'. intros i Hi. rewrite Z.testbit_mod_pow2 by lia.
    destruct (Z.ltb_spec i w); [done|]. by rewrite Hb by lia. }
  by apply uwrap_range.
Qed.

Lemma eq_bits64 a b : in_u 64 a → in_u 64 b →
  (∀ i, 0 ≤ i < 64 → Z.testbit a i = Z.testbit b i) → a = b.
Proof.
  intros Ha Hb H. apply Z.bits_inj'. intros i Hi.
  destruct (decide (i < 64)); [apply H; lia|].
  by rewrite (testbit_above a 64), (testbit_above b 64) by (done || lia).
Qed.

Lemma ones_range w w' : 0 ≤ w ≤ w' → in_u w' (Z.ones w).
Proof.
  intros. unfold in_u. rewrite Z.ones_equiv.
  assert (0 < 2 ^ w) by (apply Z.pow_pos_nonneg; lia).
  assert (2 ^ w ≤ 2 ^ w') by (apply Z.pow_le_mono_r; lia). lia.
Qed.

Lemma lor_range a b w : 0 ≤ w → in_u w a → in_u w b → in_u w (Z.lor a b).
Proof.
  intros Hw Ha Hb. apply in_u_bits; [done| |].
  - apply Z.lor_nonneg. split; [apply Ha|apply Hb].
  - intros i Hi. rewrite Z.lor_spec, (testbit_above a w), (testbit_above b w) by (done || lia). done.
Qed.

Lemma lxor_range a b w : 0 ≤ w → in_u w a → in_u w b → in_u w (Z.lxor a b).
Proof.
  intros Hw Ha Hb. apply in_u_bits; [done| |].
  - apply Z.lxor_nonneg. split; intros _; [apply Hb|apply Ha].
  - intros i Hi. rewrite Z.lxor_spec, (testbit_above a w), (testbit_above b w) by (done || lia). done.
Qed.

Lemma land_range_r a b w : 0 ≤ w → in_u w b → in_u w (Z.land a b).
Proof.
  intros Hw Hb. apply in_u_bits; [done| |].
  - apply Z.land_nonneg. right. apply Hb.
  - intros i Hi. rewrite Z.land_spec, (testbit_above b w) by (done || lia). by rewrite andb_false_r.
Qed.

(** ** Memory blocks

    A block of memory is the list of its bytes.  A read or a write that is not
    inside of the block is [None]. *)

Abbreviation byte_ok := (in_u 8).

Definition mread (m : list Z) (off n : Z) : option (list Z) :=
  if decide (0 ≤ off ∧ 0 ≤ n ∧ off + n ≤ Z.of_nat (length m))
  then Some (take (Z.to_nat n) (drop (Z.to_nat off) m)) else None.

Definition mwrite (m : list Z) (off : Z) (bs : list Z) : option (list Z) :=
  if decide (0 ≤ off ∧ off + Z.of_nat (length bs) ≤ Z.of_nat (length m))
  then Some (take (Z.to_nat off) m ++ bs ++ drop (Z.to_nat off + length bs) m) else None.

(** [memmove(m + dst, m + src, n)] *)
Definition mmove (m : list Z) (dst src n : Z) : option (list Z) :=
  bs ← mread m src n; mwrite m dst bs.

(** [realloc] keeps the common prefix; fresh bytes have the value [junk]. *)
Definition mresize (junk : Z) (m : list Z) (n : nat) : list Z :=
  take n m ++ replicate (n - length m) junk.

Lemma mread_app m1 bs m2 off n :
  off = Z.of_nat (length m1) → n = Z.of_nat (length bs) →
  mread (m1 ++ bs ++ m2) off n = Some bs.
Proof.
  intros -> ->. unfold mread. rewrite decide_True by (rewrite !length_app; lia).
  by rewrite !Nat2Z.id, drop_app_length, take_app_length.
Qed.

Lemma mwrite_app m1 bs bs' m2 off :
  off = Z.of_nat (length m1) → length bs' = length bs →
  mwrite (m1 ++ bs ++ m2) off bs' = Some (m1 ++ bs' ++ m2).
Proof.
  intros -> Hl. unfold mwrite. rewrite decide_True by (rewrite !length_app; lia).
  rewrite !Nat2Z.id, take_app_length, Hl. do 3 f_equal.
  rewrite <- drop_drop, drop_app_length. apply drop_app_length.
Qed.

(** ** Little-endian integers *)

Fixpoint le_bytes (n : nat) (z : Z) : list Z :=
  match n with O => [] | S n' => z `mod` 256 :: le_bytes n' (z `div` 256) end.

Fixpoint le_val (bs : list Z) : Z :=
  match bs with [] => 0 | b :: bs' => b + 256 * le_val bs' end.

Lemma length_le_bytes n z : length (le_bytes n z) = n.
Proof. revert z. induction n; intros; simpl; auto. Qed.

Lemma le_bytes_ok n z : Forall byte_ok (le_bytes n z).
Proof.
  revert z. induction n; intros z; simpl; constructor; [|done].
  apply (uwrap_range 8). lia.
Qed.

Lemma le_val_bytes n z : le_val (le_bytes n z) = z `mod` 256 ^ Z.of_nat n.
Proof.
  revert z. induction n as [|n IH]; intros z; [by rewrite Z.mod_1_r|].
  cbn [le_bytes le_val]. rewrite IH, Nat2Z.inj_succ, Z.pow_succ_r by lia.
  rewrite Z.rem_mul_r; [done|lia|]. apply Z.pow_pos_nonneg; lia.
Qed.

Lemma le_bytes_val bs : Forall byte_ok bs → le_bytes (length bs) (le_val bs) = bs.
Proof.
  induction 1 as [|b bs Hb _ IH]; [done|]. unfold in_u in Hb. cbn [length le_bytes le_val].
  rewrite (Z.mul_comm 256), Z_mod_plus_full, Z.div_add by lia.
  rewrite Z.mod_small, Z.div_small by lia. by rewrite Z.add_0_l, IH.
Qed.

Lemma le_val_range bs : Forall byte_ok bs → 0 ≤ le_val bs < 256 ^ Z.of_nat (length bs).
Proof.
  intros. rewrite <- (le_bytes_val bs) at 1 2 by done. rewrite le_val_bytes.
  apply Z.mod_pos_bound, Z.pow_pos_nonneg; lia.
Qed.

Lemma pow256 n : 256 ^ Z.of_nat n = 2 ^ (8 * Z.of_nat n).
Proof. rewrite Z.pow_mul_r by lia. done. Qed.

(** Reading back a value stored in [n] bytes, unsigned and signed. *)
Lemma le_roundtrip_u n z : in_u (8 * Z.of_nat n) z → le_val (le_bytes n z) = z.
Proof. intros. rewrite le_val_bytes, pow256. by apply Z.mod_small. Qed.

Lemma le_roundtrip_s n z : (0 < n)%nat → in_s (8 * Z.of_nat n) z →
  swrap (8 * Z.of_nat n) (le_val (le_bytes n z)) = z.
Proof.
  intros Hn Hz. rewrite le_val_bytes, pow256.
  change (swrap (8 * Z.of_nat n) (uwrap (8 * Z.of_nat n) z) = z).
  rewrite swrap_uwrap, swrap_small by (done || lia). done.
Qed.

(** ** Arrays of fixed-width integers *)

Definition arr (n : nat) (vs : list Z) : list Z := vs ≫= le_bytes n.

Lemma arr_app n vs ws : arr n (vs ++ ws) = arr n vs ++ arr n ws.
Proof. apply bind_app. Qed.

Lemma length_arr n vs : length (arr n vs) = (n * length vs)%nat.
Proof. induction vs; simpl; [lia|]. rewrite length_app, length_le_bytes. unfold arr in *. lia. Qed.

Lemma arr_read n vs i x rest off w : vs !! i = Some x →
  off = Z.of_nat (n * i) → w = Z.of_nat n → mread (arr n vs ++ rest) off w = Some (le_bytes n x).
Proof.
  intros Hi -> ->. pose proof (lookup_lt_Some _ _ _ Hi).
  rewrite <- (take_drop_middle _ _ _ Hi), arr_app. simpl. rewrite <- !app_assoc.
  apply mread_app; [rewrite length_arr, length_take; f_equal; lia|by rewrite length_le_bytes].
Qed.

Lemma arr_write n vs i x off : (i < length vs)%nat → off = Z.of_nat (n * i) →
  mwrite (arr n vs) off (le_bytes n x) = Some (arr n (<[i:=x]> vs)).
Proof.
  intros Hi ->. destruct (lookup_lt_is_Some_2 vs i Hi) as [y Hy].
  rewrite insert_take_drop by done. rewrite <- (take_drop_middle _ _ _ Hy) at 1.
  rewrite !arr_app. simpl. apply mwrite_app; [|by rewrite !length_le_bytes].
  rewrite length_arr, length_take. f_equal. lia.
Qed.

(** [memmove] of whole elements. *)
Lemma arr_move n pre mid post post' dst src w : length post' = length mid →
  src = Z.of_nat (n * length pre) → w = Z.of_nat (n * length mid) →
  ∀ a b, pre ++ mid ++ post = a ++ post' ++ b → dst = Z.of_nat (n * length a) →
  mmove (arr n (pre ++ mid ++ post)) dst src w = Some (arr n (a ++ mid ++ b)).
Proof.
  intros Hl -> -> a b E ->. unfold mmove.
  rewrite !arr_app, (mread_app (arr n pre)) by (by rewrite length_arr). simpl.
  rewrite <- !arr_app, E, !arr_app. apply mwrite_app; [by rewrite length_arr|].
  by rewrite !length_arr, Hl.
Qed.

(** ** Bytes and shifts *)

Lemma lor_shift a b k : 0 ≤ k → 0 ≤ b < 2 ^ k → Z.lor (Z.shiftl a k) b = a * 2 ^ k + b.
Proof.
  intros Hk Hb. rewrite <- Z.shiftl_mul_pow2 by done.
  assert (Z.land (Z.shiftl a k) b = 0) as E.
  { apply Z.bits_inj'. intros i Hi. rewrite Z.land_spec, Z.bits_0, Z.shiftl_spec by done.
    destruct (Z.lt_ge_cases i k); [by rewrite Z.testbit_neg_r by lia|]. by rewrite (testbit_above b k), andb_false_r. }
  rewrite Z.add_nocarry_lxor by done. by rewrite Z.lxor_lor.
Qed.

(** The two upper bits of a byte and the six lower ones. *)
Lemma byte_split t v : 0 ≤ t < 4 → 0 ≤ v < 64 →
  Z.shiftr (Z.land (64 * t + v) 192) 6 = t ∧ Z.land (64 * t + v) 63 = v.
Proof.
  intros Ht Hv. split.
  - change 192 with (Z.shiftl 3 6). rewrite Z.shiftr_land. rewrite Z.shiftr_shiftl_l by lia. change (Z.shiftl 3 (6 - 6)) with (Z.ones 2).
    rewrite Z.land_ones, Z.shiftr_div_pow2 by lia. rewrite (Z.mul_comm 64), Z.div_add_l, Z.div_small, Z.add_0_r by lia. apply Z.mod_small. lia.
  - change 63 with (Z.ones 6). rewrite Z.land_ones by lia. rewrite Z.add_comm, (Z.mul_comm 64), Z.mod_add by lia. apply Z.mod_small. lia.
Qed.

(** Bytes of a two's complement number. *)
Lemma le_bytes_land n v : le_bytes n v = (λ i, Z.land (Z.shiftr v (8 * Z.of_nat i)) 255) <$> seq 0 n.
Proof.
  revert v. induction n as [|n IH]; intros v; [done|]. simpl. f_equal.
  - rewrite Z.shiftr_0_r. change 255 with (Z.ones 8). by rewrite Z.land_ones.
  - rewrite IH, <- fmap_S_seq, <- list_fmap_compose. apply list_fmap_ext. intros i x _. simpl. f_equal.
    change (v `div` 256) with (v `div` 2 ^ 8). rewrite <- (Z.shiftr_div_pow2 v 8) by done. rewrite Z.shiftr_shiftr by lia. f_equal. lia.
Qed.

Lemma le_val_lor a b w : 0 ≤ w → 0 ≤ a < 2 ^ w → Z.lor a (Z.shiftl b w) = a + 2 ^ w * b.
Proof. intros Hw Ha. rewrite Z.lor_comm, lor_shift by done. lia. Qed.
