(* ===== verification/Dict.v ===== *)
(** * dict.c: hash tables with incremental rehashing

    The keyspace, the expires table, sets, hashes and the name side of sorted
    sets are all [dict]s.  A [dict] owns two tables; while [rehashidx] is not
    [-1] the chains of [ht0] are being moved, bucket by bucket, into [ht1].

    A chain of [dictEntry]s linked by [next] is the list of its entries, a
    table is the list of its chains ([NULL] before the first allocation), and a
    pointer to an entry is a [ref]: table, bucket and position in the chain.
    Every read or write outside of a table, and every dereference of [NULL], is
    [None]; the theorems show it never happens on a well-formed [dict].
    Key and value callbacks are the fields of [dictType]; destructor calls are
    returned as a log. *)

From S2P Require Import Prelude.

Definition DICT_OK : Z := 0.
Definition DICT_ERR : Z := 1.
Definition DICT_HT_INITIAL_SIZE : Z := 4.
Definition LONG_MAX : Z := 2 ^ 63 - 1.
Definition dict_force_resize_ratio : Z := 5.

(** ** Data *)

Section types.
Context {K V : Type}.

Record dictType := DictType {
  hashFunction : K → Z;
  keyDup : option (K → K);
  valDup : option (V → V);
  keyCompare : option (K → K → bool);
  keyDestructor : bool;
  valDestructor : bool }.

(** [v] is [None] until the caller of [dictAddRaw] fills it in. *)
Record dictEntry := DE { key : K; v : option V }.

Record dictht := HT {
  table : option (list (list dictEntry));
  size : Z;
  sizemask : Z;
  used : Z }.

Record dict := D {
  ht0 : dictht;
  ht1 : dictht;
  rehashidx : Z;
  iterators : Z }.

Inductive freed := FreeKey (k : K) | FreeVal (w : option V).
End types.

Arguments dictType : clear implicits.
Arguments dictEntry : clear implicits.
Arguments dictht : clear implicits.
Arguments dict : clear implicits.
Arguments freed : clear implicits.

Record ref := Ref { r_table : nat; r_idx : Z; r_pos : nat }.

(** ** Operations *)

Section ops.
Context {K V : Type} `{EqDecision K} (type : dictType K V).
Implicit Types (d : dict K V) (h : dictht K V) (c : list (dictEntry K V)).

Definition get_ht d (t : nat) : dictht K V :=
  match t with O => ht0 d | S _ => ht1 d end.

Definition set_ht d (t : nat) h : dict K V :=
  match t with
  | O => D h (ht1 d) (rehashidx d) (iterators d)
  | S _ => D (ht0 d) h (rehashidx d) (iterators d)
  end.

Definition set_rehashidx d i : dict K V := D (ht0 d) (ht1 d) i (iterators d).
Definition set_used h u : dictht K V := HT (table h) (size h) (sizemask h) u.

(** [h->table[idx]] as an rvalue and as an lvalue. *)
Definition bucket h (idx : Z) : option (list (dictEntry K V)) :=
  tb ← table h; if decide (0 ≤ idx) then tb !! Z.to_nat idx else None.

Definition set_bucket h (idx : Z) c : option (dictht K V) :=
  tb ← table h;
  if decide (0 ≤ idx < Z.of_nat (length tb))
  then Some (HT (Some (<[Z.to_nat idx := c]> tb)) (size h) (sizemask h) (used h))
  else None.

Definition dictCompareKeys (k1 k2 : K) : bool :=
  match keyCompare type with
  | Some cmp => cmp k1 k2
  | None => bool_decide (k1 = k2)
  end.

(** [key==he->key || dictCompareKeys(d, key, he->key)] *)
Definition key_matches (k : K) (e : dictEntry K V) : bool :=
  bool_decide (k = key e) || dictCompareKeys k (key e).

(** Walk of a chain: the position of the first matching entry. *)
Fixpoint find_chain (k : K) c : option nat :=
  match c with
  | [] => None
  | he :: c' => if key_matches k he then Some O else S <$> find_chain k c'
  end.

Definition dictHashKey (k : K) : Z := hashFunction type k.
Definition dictIsRehashing d : bool := negb (rehashidx d =? -1).
Definition dictSize d : Z := u64 (used (ht0 d) + used (ht1 d)).

Definition dup_key (k : K) : K := match keyDup type with Some f => f k | None => k end.
Definition dup_val (x : V) : V := match valDup type with Some f => f x | None => x end.

Definition deref d (r : ref) : option (dictEntry K V) :=
  c ← bucket (get_ht d (r_table r)) (r_idx r); c !! r_pos r.

(** [dictSetVal(d, entry, val)] *)
Definition dictSetVal d (r : ref) (x : V) : option (dict K V) :=
  let h := get_ht d (r_table r) in
  c ← bucket h (r_idx r);
  e ← c !! r_pos r;
  h' ← set_bucket h (r_idx r) (<[r_pos r := DE (key e) (Some (dup_val x))]> c);
  Some (set_ht d (r_table r) h').

Definition dictFreeKey (e : dictEntry K V) : list (freed K V) :=
  if keyDestructor type then [FreeKey (key e)] else [].
Definition dictFreeVal (e : dictEntry K V) : list (freed K V) :=
  if valDestructor type then [FreeVal (v e)] else [].

Definition _dictReset : dictht K V := HT None 0 0 0.

Definition dictCreate : dict K V := D _dictReset _dictReset (-1) 0.

Fixpoint nextPower_loop (fuel : nat) (i size : Z) : Z :=
  match fuel with
  | O => i
  | S f => if size <=? i then i else nextPower_loop f (u64 (i * 2)) size
  end.

Definition _dictNextPower (size : Z) : Z :=
  if LONG_MAX <=? size then u64 (LONG_MAX + 1)
  else nextPower_loop 64 DICT_HT_INITIAL_SIZE size.

Definition dictExpand d (sz : Z) : dict K V * Z :=
  if dictIsRehashing d || (sz <? used (ht0 d)) then (d, DICT_ERR) else
  let realsize := _dictNextPower sz in
  if realsize =? size (ht0 d) then (d, DICT_ERR) else
  let n := HT (Some (replicate (Z.to_nat realsize) [])) realsize (u64 (realsize - 1)) 0 in
  match table (ht0 d) with
  | None => (D n (ht1 d) (rehashidx d) (iterators d), DICT_OK)
  | Some _ => (D (ht0 d) n 0 (iterators d), DICT_OK)
  end.

(** [minimal] is an [int]: the conversion of [used] keeps 32 bits. *)
Definition dictResize (dict_can_resize : bool) d : dict K V * Z :=
  if negb dict_can_resize || dictIsRehashing d then (d, DICT_ERR) else
  let minimal := s32 (used (ht0 d)) in
  let minimal := if minimal <? DICT_HT_INITIAL_SIZE then DICT_HT_INITIAL_SIZE else minimal in
  dictExpand d (u64 minimal).

Definition _dictExpandIfNeeded (dict_can_resize : bool) d : dict K V * Z :=
  if dictIsRehashing d then (d, DICT_OK) else
  if size (ht0 d) =? 0 then dictExpand d DICT_HT_INITIAL_SIZE else
  if (size (ht0 d) <=? used (ht0 d)) &&
     (dict_can_resize || (dict_force_resize_ratio <? used (ht0 d) `div` size (ht0 d)))
  then dictExpand d (u64 (used (ht0 d) * 2))
  else (d, DICT_OK).

(** The loop over empty buckets of [dictRehash]: [inl idx] is the early
    [return 1] with [rehashidx = idx], [inr] the index of a non-empty bucket
    with the visits that are left. *)
Fixpoint skip_empty h (empty_visits : nat) (idx : Z) : option (Z + Z * nat) :=
  c ← bucket h idx;
  match c, empty_visits with
  | _ :: _, _ => Some (inr (idx, empty_visits))
  | [], O => None
  | [], S O => Some (inl (idx + 1))
  | [], S ev => skip_empty h ev (idx + 1)
  end.

(** The inner [while(de)] loop of [dictRehash]. *)
Fixpoint move_chain d c : option (dict K V) :=
  match c with
  | [] => Some d
  | de :: nextde =>
      let i := Z.land (dictHashKey (key de)) (sizemask (ht1 d)) in
      b ← bucket (ht1 d) i;
      h1 ← set_bucket (ht1 d) i (de :: b);
      move_chain
        (D (set_used (ht0 d) (u64 (used (ht0 d) - 1)))
           (set_used h1 (u64 (used h1 + 1))) (rehashidx d) (iterators d))
        nextde
  end.

Definition rehash_finish d : dict K V * Z :=
  if used (ht0 d) =? 0
  then (D (ht1 d) _dictReset (-1) (iterators d), 0)
  else (d, 1).

(** The outer loop: [n] steps, then the check for completion. *)
Fixpoint rehash_loop d (n empty_visits : nat) : option (dict K V * Z) :=
  match n with
  | O => Some (rehash_finish d)
  | S n' =>
      if used (ht0 d) =? 0 then Some (rehash_finish d) else
      if negb (rehashidx d <? size (ht0 d)) then None (* assert *) else
      s ← skip_empty (ht0 d) empty_visits (rehashidx d);
      match s with
      | inl idx => Some (set_rehashidx d idx, 1)
      | inr (idx, ev) =>
          de ← bucket (ht0 d) idx;
          d1 ← move_chain (set_rehashidx d idx) de;
          h0 ← set_bucket (ht0 d1) idx [];
          rehash_loop (set_rehashidx (set_ht d1 0 h0) (idx + 1)) n' ev
      end
  end.

(** [n] and [n*10] are [int]s; [None] when the product overflows. *)
Definition dictRehash d (n : nat) : option (dict K V * Z) :=
  if negb (bool_decide (Z.of_nat n * 10 < 2 ^ 31)) then None else
  if negb (dictIsRehashing d) then Some (d, 0) else rehash_loop d n (n * 10).

Definition _dictRehashStep d : option (dict K V) :=
  if iterators d =? 0 then fst <$> dictRehash d 1 else Some d.

Definition maybe_step d : option (dict K V) :=
  if dictIsRehashing d then _dictRehashStep d else Some d.

(** Search of the one or two tables for a key: its [ref]. *)
Definition lookup_tables d (k : K) (hash : Z) : option (option ref) :=
  let idx0 := Z.land hash (sizemask (ht0 d)) in
  c0 ← bucket (ht0 d) idx0;
  match find_chain k c0 with
  | Some p => Some (Some (Ref 0 idx0 p))
  | None =>
      if negb (dictIsRehashing d) then Some None else
      let idx1 := Z.land hash (sizemask (ht1 d)) in
      c1 ← bucket (ht1 d) idx1;
      match find_chain k c1 with
      | Some p => Some (Some (Ref 1 idx1 p))
      | None => Some None
      end
  end.

(** Returns the index ([-1] when the key exists) and [*existing]. *)
Definition _dictKeyIndex (dict_can_resize : bool) d (k : K) (hash : Z) :
    option (dict K V * Z * option ref) :=
  let (d1, rc) := _dictExpandIfNeeded dict_can_resize d in
  if rc =? DICT_ERR then Some (d1, -1, None) else
  r ← lookup_tables d1 k hash;
  match r with
  | Some existing => Some (d1, -1, Some existing)
  | None =>
      let t := if dictIsRehashing d1 then 1%nat else 0%nat in
      Some (d1, s64 (Z.land hash (sizemask (get_ht d1 t))), None)
  end.

(** Returns the new entry ([NULL] when the key exists) and [*existing]. *)
Definition dictAddRaw (dict_can_resize : bool) d (k : K) :
    option (dict K V * option ref * option ref) :=
  d1 ← maybe_step d;
  '(d2, idx, existing) ← _dictKeyIndex dict_can_resize d1 k (dictHashKey k);
  if idx =? -1 then Some (d2, None, existing) else
  let t := if dictIsRehashing d2 then 1%nat else 0%nat in
  let h := get_ht d2 t in
  c ← bucket h idx;
  h' ← set_bucket h idx (DE (dup_key k) None :: c);
  Some (set_ht d2 t (set_used h' (u64 (used h' + 1))), Some (Ref t idx 0), None).

Definition dictAdd (dict_can_resize : bool) d (k : K) (x : V) : option (dict K V * Z) :=
  '(d1, e, _) ← dictAddRaw dict_can_resize d k;
  match e with
  | None => Some (d1, DICT_ERR)
  | Some e => d2 ← dictSetVal d1 e x; Some (d2, DICT_OK)
  end.

(** Returns 1 when the key was added, 0 when its value was replaced, and the
    destructor calls on the replaced value. *)
Definition dictReplace (dict_can_resize : bool) d (k : K) (x : V) :
    option (dict K V * Z * list (freed K V)) :=
  '(d1, e, existing) ← dictAddRaw dict_can_resize d k;
  match e with
  | Some e => d2 ← dictSetVal d1 e x; Some (d2, 1, [])
  | None =>
      ex ← existing;
      auxentry ← deref d1 ex;
      d2 ← dictSetVal d1 ex x;
      Some (d2, 0, dictFreeVal auxentry)
  end.

Definition dictAddOrFind (dict_can_resize : bool) d (k : K) :
    option (dict K V * option ref) :=
  '(d1, e, existing) ← dictAddRaw dict_can_resize d k;
  Some (d1, match e with Some _ => e | None => existing end).

(** Returns the unlinked entry and the destructor calls. *)
Definition dictGenericDelete d (k : K) (nofree : bool) :
    option (dict K V * option (dictEntry K V) * list (freed K V)) :=
  if (used (ht0 d) =? 0) && (used (ht1 d) =? 0) then Some (d, None, []) else
  d1 ← maybe_step d;
  r ← lookup_tables d1 k (dictHashKey k);
  match r with
  | None => Some (d1, None, [])
  | Some (Ref t idx p) =>
      let h := get_ht d1 t in
      c ← bucket h idx;
      he ← c !! p;
      h' ← set_bucket h idx (take p c ++ drop (S p) c);
      Some (set_ht d1 t (set_used h' (u64 (used h' - 1))), Some he,
            if nofree then [] else dictFreeKey he ++ dictFreeVal he)
  end.

Definition dictDelete d (k : K) : option (dict K V * Z * list (freed K V)) :=
  '(d1, he, fr) ← dictGenericDelete d k false;
  Some (d1, match he with Some _ => DICT_OK | None => DICT_ERR end, fr).

Definition dictUnlink d (k : K) : option (dict K V * option (dictEntry K V)) :=
  '(d1, he, _) ← dictGenericDelete d k true; Some (d1, he).

Definition dictFreeUnlinkedEntry (he : option (dictEntry K V)) : list (freed K V) :=
  match he with None => [] | Some he => dictFreeKey he ++ dictFreeVal he end.

Definition dictFind d (k : K) : option (dict K V * option ref) :=
  if u64 (used (ht0 d) + used (ht1 d)) =? 0 then Some (d, None) else
  d1 ← maybe_step d;
  r ← lookup_tables d1 k (dictHashKey k);
  Some (d1, r).

Definition dictFetchValue d (k : K) : option (dict K V * option V) :=
  '(d1, r) ← dictFind d k;
  match r with
  | None => Some (d1, None)
  | Some r => he ← deref d1 r; Some (d1, v he)
  end.

(** [_dictClear]: the destructor calls, in the order of the loop, which stops
    when [used] reaches 0.  The table is then reset. *)
Fixpoint clear_loop (tb : list (list (dictEntry K V))) (u : Z) : list (freed K V) :=
  match tb with
  | [] => []
  | c :: tb' =>
      if u =? 0 then [] else
      (c ≫= λ he, dictFreeKey he ++ dictFreeVal he) ++
      clear_loop tb' (u64 (u - Z.of_nat (length c)))
  end.

Definition _dictClear h : dictht K V * list (freed K V) :=
  (_dictReset, clear_loop (default [] (table h)) (used h)).

Definition dictEmpty d : dict K V * list (freed K V) :=
  let (h0, f0) := _dictClear (ht0 d) in
  let (h1, f1) := _dictClear (ht1 d) in
  (D h0 h1 (-1) 0, f0 ++ f1).
End ops.

(** ** Invariant and abstraction *)

(** What the callbacks of a [dictType] owe to the table: hashes are 64-bit,
    [keyCompare] decides equality of keys, [keyDup] copies. *)
Class DictTypeOk {K V} (type : dictType K V) : Prop := {
  hash_range k : in_u 64 (hashFunction type k);
  compare_ok cmp : keyCompare type = Some cmp → ∀ a b, cmp a b = true ↔ a = b;
  dup_ok f : keyDup type = Some f → ∀ k, f k = k }.

(** Entries are at least 24 bytes of a 64-bit address space. *)
Definition MAX_ENTRIES : Z := 2 ^ 58.

Section wf.
Context {K V : Type} (type : dictType K V).
Implicit Types (d : dict K V) (h : dictht K V) (c : list (dictEntry K V)).

Definition ht_entries h : list (dictEntry K V) := concat (default [] (table h)).
Definition entries d : list (dictEntry K V) := ht_entries (ht0 d) ++ ht_entries (ht1 d).
Definition keys (l : list (dictEntry K V)) : list K := key <$> l.

Definition chain_ok (mask i : Z) c : Prop :=
  Forall (λ e, Z.land (hashFunction type (key e)) mask = i) c.

Record ht_alloc h (tb : list (list (dictEntry K V))) (k : Z) : Prop := HtAlloc {
  ha_table : table h = Some tb;
  ha_k : 2 ≤ k ≤ 63;
  ha_size : size h = 2 ^ k;
  ha_mask : sizemask h = Z.ones k;
  ha_len : Z.of_nat (length tb) = 2 ^ k;
  ha_used : used h = Z.of_nat (length (concat tb));
  ha_chain i c : tb !! i = Some c → chain_ok (Z.ones k) (Z.of_nat i) c }.

Definition ht_ok h : Prop := h = _dictReset ∨ ∃ tb k, ht_alloc h tb k.

Record rehashing_ok d : Prop := {
  ro_alloc0 : ∃ tb k, ht_alloc (ht0 d) tb k;
  ro_alloc1 : ∃ tb k, ht_alloc (ht1 d) tb k;
  ro_idx : 0 ≤ rehashidx d ≤ size (ht0 d);
  ro_moved i : 0 ≤ i < rehashidx d → bucket (ht0 d) i = Some [] }.

Record dict_wf d : Prop := {
  wf_ht0 : ht_ok (ht0 d);
  wf_idle : rehashidx d = -1 → ht1 d = _dictReset;
  wf_rehash : rehashidx d ≠ -1 → rehashing_ok d;
  wf_keys : NoDup (keys (entries d));
  wf_count : Z.of_nat (length (entries d)) ≤ MAX_ENTRIES }.
End wf.

(** The finite map a [dict] stands for. *)
Definition dict_map {K V} `{Countable K} (d : dict K V) : gmap K (option V) :=
  list_to_map ((λ e, (key e, v e)) <$> entries d).

#[export] Hint Resolve hash_range : redis.

(** ** Chains and buckets *)

Section buckets.
Context {K V : Type} `{EqDecision K} (type : dictType K V) `{!DictTypeOk type}.
Implicit Types (d : dict K V) (h : dictht K V) (c : list (dictEntry K V)).

Lemma key_matches_spec k (e : dictEntry K V) : key_matches type k e = true ↔ key e = k.
Proof.
  unfold key_matches, dictCompareKeys.
  destruct (keyCompare type) eqn:E;
    rewrite orb_true_iff, ?(compare_ok _ E), ?bool_decide_eq_true; intuition congruence.
Qed.

Lemma find_chain_Some k c p : find_chain type k c = Some p →
  ∃ e, c !! p = Some e ∧ key e = k.
Proof.
  revert p. induction c as [|e c IH]; intros p; simpl; [done|].
  destruct (key_matches type k e) eqn:E.
  - intros [= <-]. exists e. by apply key_matches_spec in E.
  - intros (p' & Hp & ->)%fmap_Some. simpl. by apply IH.
Qed.

Lemma find_chain_None k c : find_chain type k c = None ↔ k ∉ keys c.
Proof.
  unfold keys. induction c as [|e c IH]; csimpl; [set_solver|].
  rewrite not_elem_of_cons, <- IH. destruct (key_matches type k e) eqn:E.
  - apply key_matches_spec in E. naive_solver.
  - assert (key e ≠ k) by (intros ?%key_matches_spec; congruence).
    destruct (find_chain type k c); naive_solver.
Qed.

Lemma dup_key_eq k : dup_key type k = k.
Proof. unfold dup_key. destruct (keyDup type) eqn:E; [by eapply dup_ok|done]. Qed.

Lemma mask_range z k : 0 ≤ k → 0 ≤ Z.land z (Z.ones k) < 2 ^ k.
Proof. intros. rewrite Z.land_ones by lia. apply Z.mod_pos_bound. lia. Qed.

Lemma ht_alloc_entries h tb k : ht_alloc type h tb k → ht_entries h = concat tb.
Proof. intros []. unfold ht_entries. by simplify_option_eq. Qed.

Lemma bucket_in_range h tb k i : ht_alloc type h tb k → 0 ≤ i < size h →
  ∃ c, bucket h i = Some c ∧ tb !! Z.to_nat i = Some c ∧ chain_ok type (Z.ones k) i c.
Proof.
  intros [Ht Hk Hs Hm Hl Hu Hc] Hi. unfold bucket. rewrite Ht. simpl.
  destruct (lookup_lt_is_Some_2 tb (Z.to_nat i)) as [c E]; [lia|].
  exists c. rewrite decide_True by lia. split_and!; [done..|].
  apply Hc in E. by rewrite Z2Nat.id in E by lia.
Qed.

Lemma bucket_of_hash h tb k z : ht_alloc type h tb k →
  ∃ c, bucket h (Z.land z (sizemask h)) = Some c ∧
       tb !! Z.to_nat (Z.land z (sizemask h)) = Some c.
Proof.
  intros Ha. destruct (bucket_in_range h tb k (Z.land z (sizemask h)) Ha) as (c&?&?&?); [|eauto].
  rewrite (ha_mask _ _ _ _ Ha), (ha_size _ _ _ _ Ha). apply mask_range.
  pose proof (ha_k _ _ _ _ Ha). lia.
Qed.

(** An update of one bucket replaces one segment of the list of entries. *)
Lemma set_bucket_spec h tb k i c c' : ht_alloc type h tb k → bucket h i = Some c →
  chain_ok type (Z.ones k) i c' →
  ∃ h' l1 l2, set_bucket h i c' = Some h' ∧
    ht_entries h = l1 ++ c ++ l2 ∧ ht_entries h' = l1 ++ c' ++ l2 ∧ used h' = used h ∧
    (∀ j, j ≠ i → bucket h' j = bucket h j) ∧ bucket h' i = Some c' ∧
    ∃ tb', ∀ u, u = Z.of_nat (length (ht_entries h')) → ht_alloc type (set_used h' u) tb' k.
Proof.
  intros Ha Hb Hc'. pose proof (ht_alloc_entries _ _ _ Ha) as He.
  destruct Ha as [Ht Hk Hs Hm Hl Hu Hc].
  unfold bucket, set_bucket in *. rewrite Ht in *. simpl in *.
  case_decide; [|done]. pose proof (lookup_lt_Some _ _ _ Hb) as Hlt.
  rewrite decide_True by lia.
  eexists _, (concat (take (Z.to_nat i) tb)), (concat (drop (S (Z.to_nat i)) tb)).
  split_and!; [done| | |done| | |].
  - by rewrite He, <- (take_drop_middle _ _ _ Hb) at 1; rewrite concat_app.
  - unfold ht_entries; simpl. rewrite insert_take_drop by done. by rewrite concat_app.
  - intros j Hj. simpl. case_decide; [|done]. apply list_lookup_insert_ne. lia.
  - simpl. by apply list_lookup_insert_eq.
  - exists (<[Z.to_nat i:=c']> tb). intros u ->. split; simpl; try done.
    + by rewrite length_insert.
    + intros j c0 [(<-&<-&_)|[? ?]]%list_lookup_insert_Some; [|by apply Hc].
      by rewrite Z2Nat.id by lia.
Qed.

Lemma chain_ok_bucket h tb k i c : ht_alloc type h tb k → bucket h i = Some c →
  0 ≤ i < size h ∧ chain_ok type (Z.ones k) i c.
Proof.
  intros [Ht Hk Hs Hm Hl Hu Hc] Hb. unfold bucket in Hb. rewrite Ht in Hb. simpl in Hb.
  case_decide; [|done]. pose proof (lookup_lt_Some _ _ _ Hb). apply Hc in Hb.
  rewrite Z2Nat.id in Hb by lia. split; [lia|done].
Qed.
End buckets.

(** ** Rehashing *)

Section rehash.
Context {K V : Type} `{EqDecision K} (type : dictType K V) `{!DictTypeOk type}.
Implicit Types (d : dict K V) (h : dictht K V) (c : list (dictEntry K V)).

Lemma dictIsRehashing_spec d : dictIsRehashing d = true ↔ rehashidx d ≠ -1.
Proof. unfold dictIsRehashing. rewrite negb_true_iff. apply Z.eqb_neq. Qed.

Lemma dictIsRehashing_false d : dictIsRehashing d = false ↔ rehashidx d = -1.
Proof. unfold dictIsRehashing. rewrite negb_false_iff. apply Z.eqb_eq. Qed.

Lemma set_used_id h : set_used h (used h) = h.
Proof. by destruct h. Qed.

(** The loop over empty buckets, when some bucket [j] ahead is not empty. *)
Lemma skip_empty_spec h tb k ev idx j cj :
  ht_alloc type h tb k → (0 < ev)%nat → 0 ≤ idx ≤ j → bucket h j = Some cj → cj ≠ [] →
  ∃ s, skip_empty h ev idx = Some s ∧
    match s with
    | inl idx' => idx' = idx + Z.of_nat ev ∧ idx' ≤ j ∧
        (∀ i, idx ≤ i < idx' → bucket h i = Some [])
    | inr (idx', ev') => idx ≤ idx' ≤ j ∧ (0 < ev')%nat ∧
        Z.of_nat ev' = Z.of_nat ev - (idx' - idx) ∧
        (∀ i, idx ≤ i < idx' → bucket h i = Some []) ∧
        ∃ e c, bucket h idx' = Some (e :: c)
    end.
Proof.
  intros Ha Hev Hidx Hj Hne. revert idx Hev Hidx.
  induction ev as [|ev IH]; intros idx Hev Hidx; [lia|].
  destruct (chain_ok_bucket _ _ _ _ _ _ Ha Hj) as [? _].
  destruct (bucket_in_range _ h tb k idx Ha) as (c&Hc&_&_); [lia|].
  simpl. rewrite Hc. simpl. destruct c as [|e c].
  - assert (idx ≠ j) by congruence.
    destruct ev as [|ev].
    + eexists. split; [done|]. simpl. split_and!; [lia..|].
      intros i ?. by replace i with idx by lia.
    + destruct (IH (idx + 1)) as (s&->&Hs); [lia..|]. eexists. split; [done|].
      assert (Hgo : ∀ n, (∀ i, idx + 1 ≤ i < n → bucket h i = Some []) →
                ∀ i, idx ≤ i < n → bucket h i = Some []).
      { intros n Hn i ?. destruct (decide (i = idx)) as [->|]; [done|]. apply Hn. lia. }
      destruct s as [idx'|[idx' ev']]; naive_solver lia.
  - eexists. split; [done|]. simpl. split_and!; [lia..|naive_solver lia|eauto].
Qed.

(** The inner loop moves every entry of the chain into [ht1]. *)
Lemma move_chain_spec d c tb k :
  ht_alloc type (ht1 d) tb k →
  Z.of_nat (length c) ≤ used (ht0 d) < 2 ^ 63 → used (ht1 d) < 2 ^ 63 →
  used (ht1 d) + Z.of_nat (length c) < 2 ^ 63 →
  ∃ h1 tb', move_chain type d c =
      Some (D (set_used (ht0 d) (used (ht0 d) - Z.of_nat (length c))) h1
              (rehashidx d) (iterators d)) ∧
    ht_alloc type h1 tb' k ∧ ht_entries h1 ≡ₚ c ++ ht_entries (ht1 d).
Proof.
  revert d tb. induction c as [|e c IH]; intros d tb Ha Hu Hu1 Hb; simpl in *.
  - exists (ht1 d), tb. rewrite Z.sub_0_r, set_used_id. by destruct d.
  - destruct (bucket_of_hash _ _ _ _ (dictHashKey type (key e)) Ha) as (b&Hbk&_).
    rewrite Hbk. simpl.
    destruct (chain_ok_bucket _ _ _ _ _ _ Ha Hbk) as [_ Hok].
    destruct (set_bucket_spec _ _ _ _ _ _ (e :: b) Ha Hbk)
      as (h'&l1&l2&->&He&He'&Hus&_&_&tb'&Ha').
    { constructor; [|done]. by rewrite (ha_mask _ _ _ _ Ha). }
    simpl. pose proof (ha_used _ _ _ _ Ha) as Hua.
    rewrite <- (ht_alloc_entries _ _ _ _ Ha) in Hua.
    rewrite !uwrap_small by (unfold in_u; lia).
    assert (used h' + 1 = Z.of_nat (length (ht_entries h'))) as Hlen.
    { rewrite Hus, Hua, He, He', !length_app. simpl. lia. }
    destruct (IH (D (set_used (ht0 d) (used (ht0 d) - 1)) (set_used h' (used h' + 1))
                    (rehashidx d) (iterators d)) tb') as (h1&tb1&Hm&Ha1&Hp1);
      simpl; [by apply Ha'|lia..|].
    exists h1, tb1. split_and!; [|done|].
    + rewrite Hm. do 2 f_equal. unfold set_used; simpl. f_equal. lia.
    + rewrite Hp1. simpl. change (ht_entries (set_used h' (used h' + 1))) with (ht_entries h').
      rewrite He', He. solve_Permutation.
Qed.
End rehash.

Section rehash_loop.
Context {K V : Type} `{EqDecision K} (type : dictType K V) `{!DictTypeOk type}.
Implicit Types (d : dict K V) (h : dictht K V) (c : list (dictEntry K V)).

Lemma dict_wf_perm d d' :
  dict_wf type d → entries d' ≡ₚ entries d → ht_ok type (ht0 d') →
  (rehashidx d' = -1 → ht1 d' = _dictReset) → (rehashidx d' ≠ -1 → rehashing_ok type d') →
  dict_wf type d'.
Proof.
  intros [_ _ _ Hn Hc] Hp ???. split; try done.
  - unfold keys. by rewrite Hp.
  - by rewrite Hp.
Qed.

Lemma used_length h : ht_ok type h → used h = Z.of_nat (length (ht_entries h)).
Proof.
  intros [->|(tb&k&Ha)]; [done|]. by rewrite (ht_alloc_entries _ _ _ _ Ha), (ha_used _ _ _ _ Ha).
Qed.

Lemma ht1_ok d : dict_wf type d → ht_ok type (ht1 d).
Proof.
  intros Hwf. destruct (decide (rehashidx d = -1)) as [E|E].
  - left. by apply (wf_idle _ _ Hwf).
  - right. by apply (ro_alloc1 _ _ (wf_rehash _ _ Hwf E)).
Qed.

Lemma used_bounds d : dict_wf type d →
  used (ht0 d) = Z.of_nat (length (ht_entries (ht0 d))) ∧
  used (ht1 d) = Z.of_nat (length (ht_entries (ht1 d))) ∧
  used (ht0 d) + used (ht1 d) = Z.of_nat (length (entries d)) ∧
  used (ht0 d) + used (ht1 d) ≤ MAX_ENTRIES.
Proof.
  intros Hwf. pose proof (used_length _ (wf_ht0 _ _ Hwf)). pose proof (used_length _ (ht1_ok _ Hwf)).
  pose proof (wf_count _ _ Hwf) as Hc. unfold entries in *. rewrite length_app in *. lia.
Qed.

(** [ht[0].used != 0]: there is a populated bucket at or after [rehashidx]. *)
Lemma nonempty_ahead d : dict_wf type d → rehashidx d ≠ -1 → used (ht0 d) ≠ 0 →
  ∃ j c, rehashidx d ≤ j < size (ht0 d) ∧ bucket (ht0 d) j = Some c ∧ c ≠ [].
Proof.
  intros Hwf Hr Hu. pose proof (used_bounds _ Hwf) as (Hl&_).
  destruct (wf_rehash _ _ Hwf Hr) as [(tb&k&Ha) _ Hi Hm].
  rewrite (ht_alloc_entries _ _ _ _ Ha) in Hl.
  destruct (concat tb) as [|e l] eqn:E; [simpl in Hl; lia|].
  assert (e ∈ concat tb) as He by (rewrite E; left).
  apply list_elem_of_In, in_concat in He as (c&Hc%list_elem_of_In&Hec%list_elem_of_In).
  apply list_elem_of_lookup in Hc as [j Hj].
  pose proof (lookup_lt_Some _ _ _ Hj) as Hlt. pose proof (ha_len _ _ _ _ Ha).
  assert (bucket (ht0 d) (Z.of_nat j) = Some c) as Hb.
  { unfold bucket. rewrite (ha_table _ _ _ _ Ha). simpl.
    rewrite decide_True by lia. by rewrite Nat2Z.id. }
  assert (c ≠ []) by (destruct c; [by apply not_elem_of_nil in Hec|done]).
  exists (Z.of_nat j), c. rewrite (ha_size _ _ _ _ Ha). split_and!; [|lia|done|done].
  destruct (decide (Z.of_nat j < rehashidx d)); [|lia].
  rewrite Hm in Hb by lia. naive_solver.
Qed.

(** One iteration of the outer loop, once the populated bucket is found. *)
Lemma rehash_iter_spec d idx de :
  dict_wf type d → rehashidx d ≠ -1 → rehashidx d ≤ idx →
  (∀ i, rehashidx d ≤ i < idx → bucket (ht0 d) i = Some []) → bucket (ht0 d) idx = Some de →
  ∃ d1 h0, move_chain type (set_rehashidx d idx) de = Some d1 ∧
    set_bucket (ht0 d1) idx [] = Some h0 ∧
    let d2 := set_rehashidx (set_ht d1 0 h0) (idx + 1) in
    dict_wf type d2 ∧ entries d2 ≡ₚ entries d ∧ size (ht0 d2) = size (ht0 d) ∧
    iterators d2 = iterators d.
Proof.
  intros Hwf Hr Hle Hskip Hb. pose proof (used_bounds _ Hwf) as (Hu0&Hu1&_&Hmax).
  destruct (wf_rehash _ _ Hwf Hr) as [(tb0&k0&Ha0) (tb1&k1&Ha1) Hi Hm].
  destruct (chain_ok_bucket _ _ _ _ _ _ Ha0 Hb) as [Hidx _].
  destruct (set_bucket_spec type _ _ _ _ _ [] Ha0 Hb)
    as (h0&l1&l2&Hs&He&He'&Hus&Hother&Hsame&tb0'&Ha0'); [constructor|].
  assert (Hdl : Z.of_nat (length de) ≤ used (ht0 d)) by (rewrite Hu0, He, !length_app; lia).
  unfold MAX_ENTRIES in Hmax.
  destruct (move_chain_spec type (set_rehashidx d idx) de tb1 k1) as (h1&tb1'&Hmv&Ha1'&Hp1);
    simpl; [done|lia..|].
  set (u := used (ht0 d) - Z.of_nat (length de)) in *.
  assert (set_bucket (set_used (ht0 d) u) idx [] = Some (set_used h0 u)) as Hs'.
  { unfold set_bucket, set_used in *. destruct (table (ht0 d)); simpl in *; [|done].
    case_decide; naive_solver. }
  eexists _, _. split; [exact Hmv|]. split; [exact Hs'|]. simpl.
  assert (Ha0'' : ht_alloc type (set_used h0 u) tb0' k0).
  { apply Ha0'. unfold u. rewrite Hu0, He, He', !length_app. simpl. lia. }
  assert (Hsz : size (set_used h0 u) = size (ht0 d)).
  { by rewrite (ha_size _ _ _ _ Ha0''), (ha_size _ _ _ _ Ha0). }
  assert (Hperm : entries (set_rehashidx (D (set_used h0 u) h1 idx (iterators d)) (idx + 1))
                    ≡ₚ entries d).
  { unfold entries; simpl. change (ht_entries (set_used h0 u)) with (ht_entries h0).
    simpl in Hp1. rewrite He', Hp1, He. solve_Permutation. }
  split_and!; [|done|done|done].
  eapply dict_wf_perm; [done|done|right; by eexists _, _|simpl; intros; lia|].
  intros _. split; simpl; [by eexists _, _|by eexists _, _|simpl in Hsz; lia|].
  intros i Hii. change (bucket (set_used h0 u) i) with (bucket h0 i).
  destruct (decide (i = idx)) as [->|]; [done|]. rewrite Hother by done.
  destruct (decide (i < rehashidx d)); [by apply Hm; lia|by apply Hskip; lia].
Qed.

Lemma rehash_finish_spec d : dict_wf type d → rehashidx d ≠ -1 →
  ∃ d' rc, rehash_finish d = (d', rc) ∧ dict_wf type d' ∧ entries d' ≡ₚ entries d ∧
    iterators d' = iterators d ∧
    (used (ht0 d) = 0 ∧ rc = 0 ∧ rehashidx d' = -1 ∨ used (ht0 d) ≠ 0 ∧ rc = 1 ∧ d' = d).
Proof.
  intros Hwf Hr. unfold rehash_finish. pose proof (used_bounds _ Hwf) as (Hu0&_).
  destruct (Z.eqb_spec (used (ht0 d)) 0) as [E|E]; eexists _, _; split_and!; try done; [| |naive_solver..].
  - assert (ht_entries (ht0 d) = []) as H0 by (apply nil_length_inv; lia).
    eapply dict_wf_perm; [done| |by apply ht1_ok|done|done].
    unfold entries. simpl. rewrite H0. unfold ht_entries at 2. simpl. by rewrite app_nil_r.
  - assert (ht_entries (ht0 d) = []) as H0 by (apply nil_length_inv; lia).
    unfold entries. simpl. rewrite H0. unfold ht_entries at 2. simpl. by rewrite app_nil_r.
Qed.

(** What [n] steps of rehashing do. *)
Record rehash_post d (n ev : nat) (d' : dict K V) (rc : Z) : Prop := {
  rp_wf : dict_wf type d';
  rp_perm : entries d' ≡ₚ entries d;
  rp_iter : iterators d' = iterators d;
  rp_rc : rc = 0 ∧ rehashidx d' = -1 ∨ rc = 1 ∧ rehashidx d' ≠ -1;
  rp_progress : rc = 1 → size (ht0 d') = size (ht0 d) ∧
    rehashidx d + (if decide (n = 0%nat) then 0 else 1) ≤ rehashidx d';
  rp_done : size (ht0 d) - rehashidx d ≤ Z.of_nat n →
    size (ht0 d) - rehashidx d < Z.of_nat ev → rc = 0 }.

Lemma rehash_finish_post d n ev : dict_wf type d → rehashidx d ≠ -1 →
  n = 0%nat ∨ used (ht0 d) = 0 →
  ∃ d' rc, Some (rehash_finish d) = Some (d', rc) ∧ rehash_post d n ev d' rc.
Proof.
  intros Hwf Hr Hn. destruct (rehash_finish_spec _ Hwf Hr) as (d'&rc&->&?&?&?&Hcase).
  eexists _, _. split; [done|]. split; try done; [naive_solver..| |].
  - intros ->. destruct Hcase as [?|(?&_&->)]; [naive_solver|]. split; [done|].
    rewrite decide_True by naive_solver. lia.
  - intros Hsz _. destruct Hcase as [?|(Hu&_&_)]; [naive_solver|].
    destruct (nonempty_ahead _ Hwf Hr Hu) as (j&c&Hj&_). destruct Hn; [lia|done].
Qed.

Lemma rehash_loop_spec d n ev : dict_wf type d → rehashidx d ≠ -1 → (n ≠ 0%nat → 0 < ev)%nat →
  ∃ d' rc, rehash_loop type d n ev = Some (d', rc) ∧ rehash_post d n ev d' rc.
Proof.
  revert d ev. induction n as [|n IH]; intros d ev Hwf Hr Hev;
    [by apply rehash_finish_post; auto|].
  simpl. destruct (Z.eqb_spec (used (ht0 d)) 0) as [E|E];
    [by apply rehash_finish_post; auto|].
  destruct (nonempty_ahead _ Hwf Hr E) as (j&cj&Hj&Hbj&Hne).
  destruct (wf_rehash _ _ Hwf Hr) as [(tb0&k0&Ha0) Ha1 Hi Hm].
  rewrite (proj2 (Z.ltb_lt _ _)) by lia. simpl.
  destruct (skip_empty_spec type _ _ _ ev (rehashidx d) j cj Ha0) as (s&->&Hs);
    [auto..|lia|done|done|]. simpl.
  destruct s as [idx|[idx ev']].
  - destruct Hs as (->&Hle&Hskip). eexists _, _. split; [done|].
    split; try done; simpl; [|naive_solver lia|naive_solver lia|naive_solver lia].
    eapply dict_wf_perm; [done|done|apply (wf_ht0 _ _ Hwf)|simpl; intros; lia|].
    intros _. split; simpl; [by eauto|by eauto|lia|].
    intros i ?. change (ht0 (set_rehashidx d _)) with (ht0 d).
    destruct (decide (i < rehashidx d)); [by apply Hm; lia|by apply Hskip; lia].
  - destruct Hs as (Hle&Hev'&Heq&Hskip&e&c&Hb). rewrite Hb. simpl.
    destruct (rehash_iter_spec d idx (e :: c)) as (d1&h0&Hmv&Hsb&Hwf2&Hp2&Hsz2&Hit2);
      [done|done|lia|done|done|].
    simpl in Hmv. rewrite Hmv. simpl. rewrite Hsb. simpl.
    destruct (IH (set_rehashidx (set_ht d1 0 h0) (idx + 1)) ev') as (d'&rc&Hd'&[]);
      [done|simpl; lia|done|].
    simpl in *. eexists _, _. split; [exact Hd'|].
    split; [done|by etrans|congruence|done| |].
    + intros Hrc. destruct (rp_progress0 Hrc). split; [congruence|].
      case_decide; case_decide; lia.
    + intros. apply rp_done0; rewrite Hsz2; lia.
Qed.

Lemma dictRehash_idle d n : Z.of_nat n * 10 < 2 ^ 31 → rehashidx d = -1 → dictRehash type d n = Some (d, 0).
Proof. intros Hn Hr. unfold dictRehash. rewrite bool_decide_true by done. by rewrite (proj2 (dictIsRehashing_false d) Hr). Qed.

Lemma dictRehash_spec d n : dict_wf type d → rehashidx d ≠ -1 → Z.of_nat n * 10 < 2 ^ 31 →
  ∃ d' rc, dictRehash type d n = Some (d', rc) ∧ rehash_post d n (n * 10) d' rc.
Proof.
  intros Hwf Hr Hn. unfold dictRehash. rewrite bool_decide_true by done. rewrite (proj2 (dictIsRehashing_spec d)) by done. simpl.
  apply rehash_loop_spec; [done..|lia].
Qed.
End rehash_loop.

(** ** Growing *)

Section expand.
Context {K V : Type} `{EqDecision K} (type : dictType K V) `{!DictTypeOk type}.
Implicit Types (d : dict K V) (h : dictht K V) (c : list (dictEntry K V)).

Lemma nextPower_loop_spec fuel j size :
  2 ≤ j ≤ 63 → 64 - j ≤ Z.of_nat fuel → size ≤ 2 ^ 63 → (j = 2 ∨ 2 ^ (j - 1) < size) →
  ∃ k, nextPower_loop fuel (2 ^ j) size = 2 ^ k ∧ 2 ≤ k ≤ 63 ∧ size ≤ 2 ^ k ∧
    (k = 2 ∨ 2 ^ (k - 1) < size).
Proof.
  revert j. induction fuel as [|fuel IH]; intros j Hj Hf Hs Hlow; simpl; [lia|].
  destruct (Z.leb_spec size (2 ^ j)) as [Hle|Hgt]; [by exists j|].
  assert (j < 63) by (destruct (decide (j = 63)); [subst; lia|lia]).
  assert (2 ^ j * 2 = 2 ^ (j + 1)) as E by (rewrite Z.pow_add_r by lia; lia).
  rewrite E, uwrap_small.
  - destruct (IH (j + 1)) as (k&?&?); [lia..| |by exists k].
    right. by replace (j + 1 - 1) with j by lia.
  - split; [lia|]. apply Z.pow_lt_mono_r; lia.
Qed.

Lemma nextPower_cases sz : 0 ≤ sz →
  ∃ k, _dictNextPower sz = 2 ^ k ∧ 2 ≤ k ≤ 63 ∧ (sz ≤ 2 ^ 63 → sz ≤ 2 ^ k) ∧
    (k = 2 ∨ 2 ^ (k - 1) < sz).
Proof.
  intros Hsz. unfold _dictNextPower. destruct (Z.leb_spec LONG_MAX sz) as [Hle|Hgt].
  - exists 63. unfold LONG_MAX in *. rewrite uwrap_small by (unfold in_u; lia).
    split_and!; [lia..|]. right. simpl. lia.
  - unfold DICT_HT_INITIAL_SIZE. change 4 with (2 ^ 2). unfold LONG_MAX in Hgt.
    destruct (nextPower_loop_spec 64 2 sz) as (k&?&?&?&?); [lia..|by left|].
    exists k. split_and!; auto; lia.
Qed.

Lemma concat_replicate_nil {A} n : concat (replicate n ([] : list A)) = [].
Proof. by induction n. Qed.

Lemma fresh_table_alloc k : 2 ≤ k ≤ 63 →
  ht_alloc type (HT (Some (replicate (Z.to_nat (2 ^ k)) [])) (2 ^ k) (u64 (2 ^ k - 1)) 0)
    (replicate (Z.to_nat (2 ^ k)) []) k.
Proof.
  intros Hk. assert (0 < 2 ^ k) by (apply Z.pow_pos_nonneg; lia).
  assert (2 ^ k ≤ 2 ^ 63) by (apply Z.pow_le_mono_r; lia).
  split; simpl; try done.
  - rewrite uwrap_small by (unfold in_u; lia). rewrite Z.ones_equiv. lia.
  - rewrite length_replicate. lia.
  - by rewrite concat_replicate_nil.
  - intros i c [-> _]%lookup_replicate_1. constructor.
Qed.

Record expand_post d (d' : dict K V) : Prop := {
  ep_wf : dict_wf type d';
  ep_entries : entries d' = entries d;
  ep_iter : iterators d' = iterators d;
  ep_alloc : ∃ tb k, ht_alloc type (ht0 d') tb k }.

(** [dictExpand] refuses, leaving the [dict] as it is, or succeeds with the
    same entries and a new table of the next power of two. *)
Lemma dictExpand_cases d sz : dict_wf type d → in_u 64 sz →
  dictExpand d sz = (d, DICT_ERR) ∧
    (rehashidx d ≠ -1 ∨ sz < used (ht0 d) ∨ _dictNextPower sz = size (ht0 d)) ∨
  ∃ d', dictExpand d sz = (d', DICT_OK) ∧ rehashidx d = -1 ∧ used (ht0 d) ≤ sz ∧
    _dictNextPower sz ≠ size (ht0 d) ∧ expand_post d d' ∧
    (table (ht0 d) = None → size (ht0 d') = _dictNextPower sz ∧ rehashidx d' = -1) ∧
    (table (ht0 d) ≠ None → size (ht1 d') = _dictNextPower sz ∧ rehashidx d' = 0 ∧ ht0 d' = ht0 d).
Proof.
  intros Hwf Hsz. unfold dictExpand.
  destruct (dictIsRehashing d) eqn:Hr; simpl.
  { left. split; [done|]. left. by apply dictIsRehashing_spec. }
  apply dictIsRehashing_false in Hr. pose proof (wf_idle _ _ Hwf Hr) as H1.
  destruct (Z.ltb_spec sz (used (ht0 d))) as [?|Hu]; [left; split; [done|lia]|].
  destruct (Z.eqb_spec (_dictNextPower sz) (size (ht0 d))) as [?|Hns]; [left; split; [done|lia]|].
  right. destruct (nextPower_cases sz) as (k&Hk&Hkr&_&_); [apply Hsz|]. rewrite Hk in *.
  pose proof (fresh_table_alloc k Hkr) as Hfr.
  destruct (wf_ht0 _ _ Hwf) as [H0|(tb&k0&Ha0)].
  - set (n := HT (Some (replicate (Z.to_nat (2 ^ k)) [])) (2 ^ k) (u64 (2 ^ k - 1)) 0) in *.
    set (d' := D n (ht1 d) (rehashidx d) (iterators d)).
    assert (He : entries d' = entries d).
    { unfold entries; simpl. rewrite H0. unfold n, ht_entries at 1. simpl.
      by rewrite concat_replicate_nil. }
    assert (expand_post d d').
    { split; [|done|done|eauto].
      eapply dict_wf_perm; [done|by rewrite He|right; eauto|done|done]. }
    exists d'. rewrite H0 in Hns, Hu |- *. naive_solver.
  - set (n := HT (Some (replicate (Z.to_nat (2 ^ k)) [])) (2 ^ k) (u64 (2 ^ k - 1)) 0) in *.
    set (d' := D (ht0 d) n 0 (iterators d)).
    assert (He : entries d' = entries d).
    { unfold entries; simpl. rewrite H1. unfold n, ht_entries at 2 4. simpl.
      by rewrite concat_replicate_nil. }
    assert (expand_post d d').
    { split; [|done|done|eauto].
      eapply dict_wf_perm; [done|by rewrite He|right; eauto|done|].
      intros _. split; simpl; [eauto|eauto| |intros; lia].
      rewrite (ha_size _ _ _ _ Ha0). lia. }
    exists d'. rewrite (ha_table _ _ _ _ Ha0). naive_solver.
Qed.

Lemma expandIfNeeded_spec cr d : dict_wf type d →
  ∃ d', _dictExpandIfNeeded cr d = (d', DICT_OK) ∧ expand_post d d'.
Proof.
  intros Hwf. unfold _dictExpandIfNeeded. pose proof (used_bounds _ _ Hwf) as (Hu0&Hu1&_&Hmax).
  unfold MAX_ENTRIES in Hmax.
  destruct (dictIsRehashing d) eqn:Hr.
  { apply dictIsRehashing_spec in Hr. exists d. split; [done|]. split; try done.
    apply (ro_alloc0 _ _ (wf_rehash _ _ Hwf Hr)). }
  apply dictIsRehashing_false in Hr.
  destruct (wf_ht0 _ _ Hwf) as [H0|(tb&k0&Ha0)].
  - rewrite H0. simpl. destruct (dictExpand_cases d DICT_HT_INITIAL_SIZE Hwf) as [[_ Hx]|(d'&Hd'&?)].
    + unfold in_u, DICT_HT_INITIAL_SIZE. lia.
    + rewrite H0 in Hx. simpl in Hx. unfold DICT_HT_INITIAL_SIZE in Hx.
      change (_dictNextPower 4) with 4 in Hx. lia.
    + exists d'. naive_solver.
  - pose proof (ha_k _ _ _ _ Ha0). pose proof (ha_size _ _ _ _ Ha0) as Hs.
    assert (0 < 2 ^ k0) by (apply Z.pow_pos_nonneg; lia).
    rewrite (proj2 (Z.eqb_neq _ _)) by lia.
    destruct (size (ht0 d) <=? used (ht0 d)) eqn:Hle; simpl.
    2: { exists d. split; [done|]. split; eauto. }
    apply Z.leb_le in Hle. case_match.
    2: { exists d. split; [done|]. split; eauto. }
    rewrite uwrap_small by (unfold in_u; lia).
    destruct (dictExpand_cases d (used (ht0 d) * 2) Hwf) as [[_ Hx]|(d'&Hd'&?)].
    + unfold in_u. lia.
    + destruct (nextPower_cases (used (ht0 d) * 2)) as (k&Hk&_&Hge&_); [lia|].
      rewrite Hk in Hx. lia.
    + exists d'. naive_solver.
Qed.
End expand.

(** ** Lookup and update of one chain *)

Section chains.
Context {K V : Type} `{EqDecision K} (type : dictType K V) `{!DictTypeOk type}.
Implicit Types (d : dict K V) (h : dictht K V) (c : list (dictEntry K V)).

Lemma ht_ok_get d t : dict_wf type d → ht_ok type (get_ht d t).
Proof. intros. destruct t; simpl; [by apply wf_ht0|by apply ht1_ok]. Qed.

Lemma bucket_alloc h i c : ht_ok type h → bucket h i = Some c → ∃ tb k, ht_alloc type h tb k.
Proof. intros [->|?]; done. Qed.

(** The keys of a table with a given hash are all in one chain. *)
Lemma not_in_chain h tb k (x : K) c : ht_alloc type h tb k →
  bucket h (Z.land (hashFunction type x) (sizemask h)) = Some c →
  x ∉ keys c → x ∉ keys (ht_entries h).
Proof.
  intros Ha Hb Hx. rewrite (ht_alloc_entries _ _ _ _ Ha). unfold keys in *.
  intros (e&->&He)%list_elem_of_fmap. apply Hx. apply list_elem_of_fmap. exists e. split; [done|].
  apply list_elem_of_In, in_concat in He as (c'&Hc'%list_elem_of_In&He%list_elem_of_In).
  apply list_elem_of_lookup in Hc' as [i Hi].
  pose proof (ha_chain _ _ _ _ Ha _ _ Hi) as Hch. unfold chain_ok in Hch.
  rewrite Forall_forall in Hch. specialize (Hch _ He). unfold bucket in Hb.
  rewrite (ha_table _ _ _ _ Ha), (ha_mask _ _ _ _ Ha) in Hb. simpl in Hb.
  case_decide; [|done]. rewrite Hch, Nat2Z.id in Hb. naive_solver.
Qed.

Lemma lookup_tables_spec d k : dict_wf type d → (∃ tb n, ht_alloc type (ht0 d) tb n) →
  ∃ r, lookup_tables type d k (dictHashKey type k) = Some r ∧
    match r with
    | Some r => ∃ e, deref d r = Some e ∧ key e = k
    | None => k ∉ keys (entries d)
    end.
Proof.
  intros Hwf (tb0&k0&Ha0). unfold lookup_tables, dictHashKey.
  destruct (bucket_of_hash _ _ _ _ (hashFunction type k) Ha0) as (c0&Hb0&_). rewrite Hb0. simpl.
  destruct (find_chain type k c0) as [p|] eqn:Hf0.
  { eexists. split; [done|]. unfold deref. simpl. rewrite Hb0. simpl. by eapply find_chain_Some. }
  apply find_chain_None in Hf0; [|done]. apply (not_in_chain _ _ _ _ _ Ha0 Hb0) in Hf0.
  unfold keys in *. destruct (dictIsRehashing d) eqn:Hr; simpl.
  2: { eexists. split; [done|]. simpl. apply dictIsRehashing_false in Hr.
       unfold entries. rewrite (wf_idle _ _ Hwf Hr), fmap_app, not_elem_of_app. split; [done|].
       apply not_elem_of_nil. }
  apply dictIsRehashing_spec in Hr. destruct (wf_rehash _ _ Hwf Hr) as [_ (tb1&k1&Ha1) _ _].
  destruct (bucket_of_hash _ _ _ _ (hashFunction type k) Ha1) as (c1&Hb1&_). rewrite Hb1. simpl.
  destruct (find_chain type k c1) as [p|] eqn:Hf1; (eexists; split; [done|]).
  - unfold deref. simpl. rewrite Hb1. simpl. by eapply find_chain_Some.
  - apply find_chain_None in Hf1; [|done]. apply (not_in_chain _ _ _ _ _ Ha1 Hb1) in Hf1.
    unfold entries. rewrite fmap_app, not_elem_of_app. done.
Qed.

(** Replacing the chain of one bucket, with [used] adjusted. *)
Lemma update_chain d t i c c' :
  dict_wf type d → bucket (get_ht d t) i = Some c →
  (∀ n, sizemask (get_ht d t) = Z.ones n → chain_ok type (Z.ones n) i c → chain_ok type (Z.ones n) i c') →
  (c = [] → t = 0%nat → rehashidx d = -1) →
  ∃ h' rest, set_bucket (get_ht d t) i c' = Some h' ∧ used h' = used (get_ht d t) ∧
    entries d ≡ₚ c ++ rest ∧
    let u := used h' + Z.of_nat (length c') - Z.of_nat (length c) in
    0 ≤ u ∧
    let d' := set_ht d t (set_used h' u) in
    entries d' ≡ₚ c' ++ rest ∧ bucket (get_ht d' t) i = Some c' ∧
    (NoDup (keys (c' ++ rest)) → Z.of_nat (length (c' ++ rest)) ≤ MAX_ENTRIES → dict_wf type d').
Proof.
  intros Hwf Hb Hok Hne. destruct (bucket_alloc _ _ _ (ht_ok_get d t Hwf) Hb) as (tb&k&Ha).
  pose proof (chain_ok_bucket _ _ _ _ _ _ Ha Hb) as [Hi Hc].
  pose proof (used_length _ _ (ht_ok_get d t Hwf)) as Hu.
  destruct (set_bucket_spec type _ _ _ _ _ c' Ha Hb)
    as (h'&l1&l2&Hs&He&He'&Hus&Hother&Hsame&tb'&Ha'); [by apply (Hok k), Hc; apply Ha|].
  set (u := used h' + Z.of_nat (length c') - Z.of_nat (length c)).
  assert (Hul : u = Z.of_nat (length (ht_entries h'))).
  { unfold u. rewrite Hus, Hu, He, He', !length_app. lia. }
  specialize (Ha' u Hul).
  exists h', (l1 ++ l2 ++ ht_entries (get_ht d (1 - t))). split; [done|]. split; [done|]. cbv zeta. fold u.
  assert (Hp : entries (set_ht d t (set_used h' u)) ≡ₚ c' ++ l1 ++ l2 ++ ht_entries (get_ht d (1 - t))).
  { destruct t; unfold entries; simpl; change (ht_entries (set_used h' u)) with (ht_entries h');
      rewrite He'; solve_Permutation. }
  split.
  { destruct t; unfold entries; simpl in *; rewrite He; solve_Permutation. }
  split; [lia|]. split; [done|]. split; [by destruct t|]. intros Hnd Hct. split.
  - destruct t; simpl; [right; eauto|apply (wf_ht0 _ _ Hwf)].
  - intros Hr. assert (rehashidx d = -1) as Hr' by (by destruct t). pose proof (wf_idle _ _ Hwf Hr') as H1.
    destruct t; simpl; [done|]. simpl in Hb. by rewrite H1 in Hb.
  - intros Hr. assert (rehashidx d ≠ -1) as Hr' by (by destruct t).
    destruct (wf_rehash _ _ Hwf Hr') as [Ha0 Ha1 Hidx Hmv].
    destruct t; simpl in *.
    + split; simpl; [eauto|eauto| |].
      * pose proof (ha_size _ _ _ _ Ha'). pose proof (ha_size _ _ _ _ Ha). simpl in *. lia.
      * intros j Hj. transitivity (bucket h' j); [done|].
        rewrite Hother; [by apply Hmv|]. intros ->. rewrite Hmv in Hb by done. naive_solver.
    + split; simpl; [eauto|eauto|done|done].
  - unfold keys in *. by rewrite Hp.
  - by rewrite Hp.
Qed.

(** Stepping the rehash before an access changes nothing observable. *)
Lemma maybe_step_spec d : dict_wf type d →
  ∃ d', maybe_step type d = Some d' ∧ dict_wf type d' ∧ entries d' ≡ₚ entries d ∧
    iterators d' = iterators d.
Proof.
  intros Hwf. unfold maybe_step, _dictRehashStep.
  destruct (dictIsRehashing d) eqn:Hr; [|by exists d].
  destruct (iterators d =? 0); [|by exists d].
  apply dictIsRehashing_spec in Hr.
  destruct (dictRehash_spec type d 1 Hwf Hr ltac:(done)) as (d'&rc&->&[]). exists d'. naive_solver.
Qed.

Lemma ht0_alloc_nonempty d : dict_wf type d → entries d ≠ [] → ∃ tb k, ht_alloc type (ht0 d) tb k.
Proof.
  intros Hwf Hne. destruct (decide (rehashidx d = -1)) as [Hr|Hr].
  - destruct (wf_ht0 _ _ Hwf) as [H0|?]; [|done].
    unfold entries in Hne. by rewrite H0, (wf_idle _ _ Hwf Hr) in Hne.
  - apply (ro_alloc0 _ _ (wf_rehash _ _ Hwf Hr)).
Qed.

Lemma deref_elem d r e : dict_wf type d → deref d r = Some e →
  ∃ c, bucket (get_ht d (r_table r)) (r_idx r) = Some c ∧ c !! r_pos r = Some e ∧ c ≠ [].
Proof.
  unfold deref. intros Hwf Hd. apply bind_Some in Hd as (c&Hb&He). exists c.
  split_and!; [done..|]. by destruct c.
Qed.

Lemma dictSetVal_spec d r e x : dict_wf type d → deref d r = Some e →
  ∃ d' rest, dictSetVal type d r x = Some d' ∧ dict_wf type d' ∧ iterators d' = iterators d ∧
    entries d ≡ₚ e :: rest ∧ entries d' ≡ₚ DE (key e) (Some (dup_val type x)) :: rest.
Proof.
  intros Hwf Hd. destruct (deref_elem _ _ _ Hwf Hd) as (c&Hb&He&Hne).
  pose proof (take_drop_middle _ _ _ He) as Hsplit. pose proof (lookup_lt_Some _ _ _ He) as Hlt.
  set (e' := DE (key e) (Some (dup_val type x))).
  assert (Hins : <[r_pos r := e']> c = take (r_pos r) c ++ e' :: drop (S (r_pos r)) c)
    by (by apply insert_take_drop).
  destruct (update_chain d (r_table r) (r_idx r) c (<[r_pos r := e']> c))
    as (h'&rest&Hs&Hu&Hp&Hu0&Hp'&_&Hwf'); [done..| |done|].
  { intros n _ Hc. unfold chain_ok in *. rewrite Hins. rewrite <- Hsplit in Hc.
    rewrite Forall_app, Forall_cons in *. naive_solver. }
  rewrite length_insert, Z.add_simpl_r, set_used_id in *.
  exists (set_ht d (r_table r) h'), (take (r_pos r) c ++ drop (S (r_pos r)) c ++ rest).
  assert (E1 : entries d ≡ₚ e :: take (r_pos r) c ++ drop (S (r_pos r)) c ++ rest).
  { rewrite Hp. rewrite <- Hsplit at 1. solve_Permutation. }
  assert (E2 : entries (set_ht d (r_table r) h')
               ≡ₚ e' :: take (r_pos r) c ++ drop (S (r_pos r)) c ++ rest).
  { rewrite Hp', Hins. solve_Permutation. }
  split_and!; [| |by destruct (r_table r)|done|done].
  - unfold dictSetVal. rewrite Hb. simpl. rewrite He. simpl. fold e'. by rewrite Hs.
  - pose proof (wf_keys _ _ Hwf) as Hk. pose proof (wf_count _ _ Hwf) as Hn.
    unfold keys in *. rewrite E1 in Hk, Hn. apply Hwf'; rewrite <- Hp', E2; done.
Qed.
End chains.

(** ** The operations as updates of a finite map *)

Section refine.
Context {K V : Type} `{Countable K} (type : dictType K V) `{!DictTypeOk type}.
Implicit Types (d : dict K V) (h : dictht K V) (c : list (dictEntry K V)).

Definition assoc (e : dictEntry K V) : K * option V := (key e, v e).

Lemma keys_assoc (l : list (dictEntry K V)) : (assoc <$> l).*1 = keys l.
Proof. unfold keys. rewrite <- list_fmap_compose. done. Qed.

Lemma dict_map_perm d l : dict_wf type d → entries d ≡ₚ l → dict_map d = list_to_map (assoc <$> l).
Proof.
  intros Hwf Hp. unfold dict_map. apply list_to_map_proper; [|by rewrite Hp].
  change (NoDup ((assoc <$> entries d).*1)). rewrite keys_assoc. apply (wf_keys _ _ Hwf).
Qed.

Lemma dict_map_eq d d' : dict_wf type d → entries d' ≡ₚ entries d → dict_map d' = dict_map d.
Proof. intros Hwf Hp. symmetry. apply (dict_map_perm d (entries d')); [done|by symmetry]. Qed.

Lemma dict_map_cons d e rest : dict_wf type d → entries d ≡ₚ e :: rest →
  dict_map d = <[key e := v e]> (list_to_map (assoc <$> rest)) ∧
  (list_to_map (assoc <$> rest) : gmap K (option V)) !! key e = None.
Proof.
  intros Hwf Hp. rewrite (dict_map_perm _ _ Hwf Hp). split; [done|].
  apply not_elem_of_list_to_map_1. rewrite keys_assoc.
  pose proof (wf_keys _ _ Hwf) as Hk. unfold keys in *. rewrite Hp in Hk. by apply NoDup_cons in Hk as [].
Qed.

Lemma dict_map_None d k : k ∉ keys (entries d) ↔ dict_map d !! k = None.
Proof.
  rewrite <- keys_assoc. split; [apply not_elem_of_list_to_map_1|apply not_elem_of_list_to_map_2].
Qed.

Lemma dict_map_deref d r e : dict_wf type d → deref d r = Some e → dict_map d !! key e = Some (v e).
Proof.
  intros Hwf (c&Hb&He&Hne)%(deref_elem type); [|done].
  destruct (update_chain type d (r_table r) (r_idx r) c c) as (h'&rest&_&_&Hp&_); [done..|].
  assert (entries d ≡ₚ e :: (take (r_pos r) c ++ drop (S (r_pos r)) c) ++ rest) as Hp'.
  { rewrite Hp. rewrite <- (take_drop_middle _ _ _ He) at 1. solve_Permutation. }
  destruct (dict_map_cons _ _ _ Hwf Hp') as [-> _]. by rewrite lookup_insert_eq.
Qed.

Lemma size_dict_map d : dict_wf type d → Z.of_nat (base.size (dict_map d)) = Z.of_nat (length (entries d)).
Proof.
  intros Hwf. unfold dict_map. rewrite map_size_list_to_map.
  - by rewrite length_fmap.
  - change (NoDup ((assoc <$> entries d).*1)). rewrite keys_assoc. apply (wf_keys _ _ Hwf).
Qed.

(** [_dictKeyIndex] after the growth check. *)
Lemma keyIndex_spec cr d k : dict_wf type d →
  ∃ d' idx ex, _dictKeyIndex type cr d k (dictHashKey type k) = Some (d', idx, ex) ∧
    expand_post type d d' ∧
    (idx = -1 ∧ k ∈ keys (entries d) ∧ (∃ r e, ex = Some r ∧ deref d' r = Some e ∧ key e = k) ∨
     0 ≤ idx ∧ k ∉ keys (entries d) ∧ ex = None ∧
       let h := get_ht d' (if dictIsRehashing d' then 1%nat else 0%nat) in
       idx = Z.land (hashFunction type k) (sizemask h) ∧ ∃ c, bucket h idx = Some c).
Proof.
  intros Hwf. unfold _dictKeyIndex. destruct (expandIfNeeded_spec type cr d Hwf) as (d'&->&Hx).
  simpl. destruct (lookup_tables_spec type d' k (ep_wf _ _ _ Hx) (ep_alloc _ _ _ Hx)) as (r&->&Hr).
  simpl. destruct r as [r|]; eexists _, _, _; (split; [done|]); (split; [done|]).
  - left. destruct Hr as (e&Hd&<-). split; [done|]. split; [|eauto].
    rewrite <- (ep_entries _ _ _ Hx). apply dict_map_deref in Hd; [|apply Hx].
    destruct (decide (key e ∈ keys (entries d'))) as [|Hn]; [done|].
    apply dict_map_None in Hn. congruence.
  - right. rewrite <- (ep_entries _ _ _ Hx).
    set (h := get_ht d' _). assert (∃ tb n, ht_alloc type h tb n) as (tb&n&Ha).
    { unfold h. destruct (dictIsRehashing d') eqn:E; [|apply (ep_alloc _ _ _ Hx)].
      apply dictIsRehashing_spec in E. apply (ro_alloc1 _ _ (wf_rehash _ _ (ep_wf _ _ _ Hx) E)). }
    destruct (bucket_of_hash _ _ _ _ (hashFunction type k) Ha) as (c&Hb&_).
    destruct (chain_ok_bucket _ _ _ _ _ _ Ha Hb) as [Hrange _].
    assert (size h ≤ 2 ^ 63).
    { rewrite (ha_size _ _ _ _ Ha). apply Z.pow_le_mono_r; [lia|]. apply Ha. }
    assert (s64 (Z.land (dictHashKey type k) (sizemask h)) =
            Z.land (hashFunction type k) (sizemask h)) as ->.
    { apply swrap_small; [lia|]. unfold in_s, dictHashKey. simpl. lia. }
    split_and!; [lia|done|done|done|eauto].
Qed.

Lemma dictAddRaw_spec cr d k : dict_wf type d → Z.of_nat (length (entries d)) < MAX_ENTRIES →
  ∃ d' e ex, dictAddRaw type cr d k = Some (d', e, ex) ∧ dict_wf type d' ∧
    (is_Some (dict_map d !! k) ∧ e = None ∧ dict_map d' = dict_map d ∧
       (∃ r x, ex = Some r ∧ deref d' r = Some x ∧ key x = k) ∨
     dict_map d !! k = None ∧ ex = None ∧ dict_map d' = <[k := None]> (dict_map d) ∧
       ∃ r, e = Some r ∧ deref d' r = Some (DE k None)).
Proof.
  intros Hwf Hmax. unfold dictAddRaw.
  destruct (maybe_step_spec type d Hwf) as (d1&->&Hwf1&Hp1&_). simpl.
  destruct (keyIndex_spec cr d1 k Hwf1) as (d2&idx&ex&->&Hx&Hcase). simpl.
  pose proof (ep_wf _ _ _ Hx) as Hwf2. pose proof (ep_entries _ _ _ Hx) as He2.
  assert (Hm2 : dict_map d2 = dict_map d).
  { apply dict_map_eq; [done|]. by rewrite He2, Hp1. }
  destruct Hcase as [(->&Hk&r&x&->&Hdr&Hkx)|(Hidx&Hk&->&Heq&c&Hb)].
  - simpl. eexists _, _, _. split_and!; [done|done|]. left. split_and!; [|done..|eauto].
    rewrite <- Hm2, <- Hkx. apply dict_map_deref in Hdr; [|done]. rewrite Hdr. eauto.
  - rewrite (proj2 (Z.eqb_neq _ _)) by lia.
    set (t := if dictIsRehashing d2 then 1%nat else 0%nat) in *. rewrite Hb. simpl.
    destruct (update_chain type d2 t idx c (DE (dup_key type k) None :: c))
      as (h'&rest&->&Hu&Hp&Hu0&Hp'&Hb'&Hwf'); [done|done| | |].
    { intros n Hn Hc. constructor; [|done]. simpl. by rewrite dup_key_eq, <- Hn by done. }
    { intros _ Ht. unfold t in Ht. destruct (dictIsRehashing d2) eqn:E; [done|].
      by apply dictIsRehashing_false. }
    rewrite dup_key_eq in * by done. simpl length in *. simpl.
    assert (Hlen : Z.of_nat (length (c ++ rest)) < MAX_ENTRIES) by (by rewrite <- Hp, He2, Hp1).
    assert (Hd2 : k ∉ keys (c ++ rest)) by (unfold keys in *; by rewrite <- Hp, He2).
    assert (Hnd : NoDup (keys (c ++ rest))).
    { pose proof (wf_keys _ _ Hwf2) as Hn. unfold keys in *. by rewrite Hp in Hn. }
    replace (u64 (used h' + 1)) with (used h' + Z.of_nat (S (length c)) - Z.of_nat (length c)).
    2: { pose proof (used_bounds _ _ Hwf2) as (Hb0&Hb1&_&Hmx). unfold MAX_ENTRIES in Hmx.
         rewrite uwrap_small; [lia|]. split; [lia|]. rewrite Hu.
         destruct (dictIsRehashing d2); simpl; lia. }
    set (d3 := set_ht _ _ _) in *.
    assert (dict_wf type d3) as Hwf3.
    { apply Hwf'; [by constructor|]. simpl length. lia. }
    eexists _, _, _. split_and!; [done|done|]. right.
    assert (dict_map d !! k = None) as Hn.
    { rewrite <- Hm2. apply dict_map_None. by rewrite He2. }
    split_and!; [done|done| |].
    + by rewrite (dict_map_perm _ _ Hwf3 Hp'), <- Hm2, (dict_map_perm _ _ Hwf2 Hp).
    + exists (Ref t idx 0). split; [done|]. unfold deref. simpl. by rewrite Hb'.
Qed.

(** ** Theorems: the API refines the finite map *)

Definition map_set (m : gmap K (option V)) (k : K) (x : V) : gmap K (option V) :=
  <[k := Some (dup_val type x)]> m.

Lemma set_after d r e x : dict_wf type d → deref d r = Some e →
  ∃ d', dictSetVal type d r x = Some d' ∧ dict_wf type d' ∧
    dict_map d' = map_set (dict_map d) (key e) x.
Proof.
  intros Hwf Hd. destruct (dictSetVal_spec type d r e x Hwf Hd) as (d'&rest&?&?&_&Hp&Hp').
  exists d'. split_and!; [done..|]. unfold map_set.
  destruct (dict_map_cons _ _ _ Hwf Hp) as [-> _].
  rewrite (dict_map_perm d' _ ltac:(done) Hp'). by rewrite insert_insert_eq.
Qed.

(** [dictAdd] inserts a fresh key: [DICT_ERR] and no change when the key is
    present, whatever the rehashing state, the resize flag and the number of
    running iterators. *)
Lemma dictAdd_spec cr d k x :
  dict_wf type d → Z.of_nat (base.size (dict_map d)) < MAX_ENTRIES →
  ∃ d' rc, dictAdd type cr d k x = Some (d', rc) ∧ dict_wf type d' ∧
    (is_Some (dict_map d !! k) ∧ rc = DICT_ERR ∧ dict_map d' = dict_map d ∨
     dict_map d !! k = None ∧ rc = DICT_OK ∧ dict_map d' = map_set (dict_map d) k x).
Proof.
  intros Hwf Hmax. rewrite size_dict_map in Hmax by done. unfold dictAdd.
  destruct (dictAddRaw_spec cr d k Hwf Hmax) as (d1&e&ex&->&Hwf1&[(?&->&Hm&_)|(Hn&->&Hm&r&->&Hd)]); simpl.
  - eexists _, _. naive_solver.
  - destruct (set_after d1 r _ x Hwf1 Hd) as (d2&->&Hwf2&Hm2). simpl in *.
    eexists _, _. split_and!; [done..|]. right. split_and!; [done..|].
    rewrite Hm2, Hm. unfold map_set. by rewrite insert_insert_eq.
Qed.

(** [dictReplace] always binds the key to the new value, reports whether
    the key is new, and calls the value destructor exactly on the value that
    was replaced. *)
Lemma dictReplace_spec cr d k x :
  dict_wf type d → Z.of_nat (base.size (dict_map d)) < MAX_ENTRIES →
  ∃ d' rc fr, dictReplace type cr d k x = Some (d', rc, fr) ∧ dict_wf type d' ∧
    dict_map d' = map_set (dict_map d) k x ∧
    match dict_map d !! k with
    | None => rc = 1 ∧ fr = []
    | Some old => rc = 0 ∧ fr = if valDestructor type then [FreeVal old] else []
    end.
Proof.
  intros Hwf Hmax. rewrite size_dict_map in Hmax by done. unfold dictReplace.
  destruct (dictAddRaw_spec cr d k Hwf Hmax)
    as (d1&e&ex&->&Hwf1&[(?&->&Hm&r&y&->&Hd&<-)|(Hn&->&Hm&r&->&Hd)]); simpl.
  - rewrite Hd. simpl. destruct (set_after d1 r _ x Hwf1 Hd) as (d2&->&Hwf2&Hm2). simpl in *.
    eexists _, _, _. split_and!; [done..|by rewrite Hm2, Hm|].
    rewrite <- Hm, (dict_map_deref _ _ _ Hwf1 Hd). done.
  - destruct (set_after d1 r _ x Hwf1 Hd) as (d2&->&Hwf2&Hm2). simpl in *.
    eexists _, _, _. split_and!; [done..| |by rewrite Hn].
    rewrite Hm2, Hm. unfold map_set. by rewrite insert_insert_eq.
Qed.

Lemma find_in_nonempty d k : dict_wf type d →
  entries d = [] ∧ dict_map d !! k = None ∨
  entries d ≠ [] ∧ ∃ d' r, maybe_step type d = Some d' ∧
    lookup_tables type d' k (dictHashKey type k) = Some r ∧ dict_wf type d' ∧
    dict_map d' = dict_map d ∧
    match r with
    | Some r => ∃ e, deref d' r = Some e ∧ key e = k ∧ dict_map d !! k = Some (v e)
    | None => dict_map d !! k = None
    end.
Proof.
  intros Hwf. destruct (decide (length (entries d) = 0%nat)) as [E%nil_length_inv|E].
  { left. split; [done|]. apply dict_map_None. rewrite E. apply not_elem_of_nil. }
  right. split; [by intros E'; rewrite E' in E|].
  destruct (maybe_step_spec type d Hwf) as (d1&Hd1&Hwf1&Hp1&_).
  assert (entries d1 ≠ []) as Hne by (intros Hn; rewrite Hn in Hp1; by apply E; rewrite <- Hp1).
  destruct (lookup_tables_spec type d1 k Hwf1 (ht0_alloc_nonempty type d1 Hwf1 Hne)) as (r&Hr&Hcase).
  assert (dict_map d1 = dict_map d) as Hm by (by apply dict_map_eq).
  exists d1, r. split_and!; [done..|]. destruct r as [r|].
  - destruct Hcase as (e&Hde&<-). exists e. split_and!; [done..|].
    by rewrite <- Hm, (dict_map_deref _ _ _ Hwf1 Hde).
  - rewrite <- Hm. by apply dict_map_None.
Qed.

(** [dictFind], with the rehash step it performs, finds exactly the keys of the
    map and changes no binding. *)
Lemma dictFind_spec d k : dict_wf type d →
  ∃ d' r, dictFind type d k = Some (d', r) ∧ dict_wf type d' ∧ dict_map d' = dict_map d ∧
    match r with
    | Some r => ∃ e, deref d' r = Some e ∧ key e = k ∧ dict_map d !! k = Some (v e)
    | None => dict_map d !! k = None
    end.
Proof.
  intros Hwf. unfold dictFind. pose proof (used_bounds _ _ Hwf) as (Hu0&Hu1&Hs&Hmax).
  rewrite uwrap_small by (unfold in_u, MAX_ENTRIES in *; lia). rewrite Hs.
  destruct (find_in_nonempty d k Hwf) as [[E Hn]|(E&d'&r&Hd'&Hr&?&?&?)].
  - rewrite E. simpl. eexists _, _. naive_solver.
  - destruct (entries d) eqn:Ee; [done|]. rewrite (proj2 (Z.eqb_neq _ _)) by (simpl; lia).
    rewrite Hd'. simpl. rewrite Hr. simpl. eexists _, _. naive_solver.
Qed.

(** [dictGenericDelete] removes exactly the binding of the key, returns the
    entry it held, and runs the destructors once, on that entry, exactly when
    [nofree] is 0. *)
Lemma dictGenericDelete_spec d k nofree : dict_wf type d →
  ∃ d' he fr, dictGenericDelete type d k nofree = Some (d', he, fr) ∧ dict_wf type d' ∧
    dict_map d' = delete k (dict_map d) ∧
    match he with
    | Some he => key he = k ∧ dict_map d !! k = Some (v he) ∧
        fr = (if nofree then [] else dictFreeKey type he ++ dictFreeVal type he)
    | None => dict_map d !! k = None ∧ fr = []
    end.
Proof.
  intros Hwf. unfold dictGenericDelete. pose proof (used_bounds _ _ Hwf) as (Hu0&Hu1&Hs&Hmax).
  destruct (find_in_nonempty d k Hwf) as [[E Hn]|(E&d'&r&Hd'&Hr&Hwf'&Hm&Hcase)].
  - rewrite E in Hs. simpl in Hs. rewrite !(proj2 (Z.eqb_eq _ _)) by lia. simpl.
    eexists _, _, _. split; [done|]. split; [done|]. by rewrite delete_id.
  - replace ((_ =? 0) && (_ =? 0)) with false; cycle 1.
    { symmetry. apply andb_false_iff. rewrite !Z.eqb_neq. destruct (entries d); [done|]. simpl in Hs. lia. }
    rewrite Hd'. simpl. rewrite Hr. simpl. destruct r as [[t idx p]|]; cycle 1.
    { eexists _, _, _. split; [done|]. split; [done|]. by rewrite delete_id, Hm. }
    destruct Hcase as (e&Hde&<-&Hke). apply (deref_elem type) in Hde as (c&Hb&He&Hne); [|done].
    simpl in *. rewrite Hb. simpl. rewrite He. simpl.
    pose proof (take_drop_middle _ _ _ He) as Hsplit.
    destruct (update_chain type d' t idx c (take p c ++ drop (S p) c))
      as (h'&rest&->&Hu&Hp&Hu0'&Hp'&_&Hwf''); [done..| |done|].
    { intros n _ Hc. unfold chain_ok in *. rewrite <- Hsplit in Hc.
      rewrite Forall_app, Forall_cons in Hc. rewrite Forall_app. naive_solver. }
    simpl. assert (length c = S (length (take p c ++ drop (S p) c))) as Hlen.
    { rewrite <- Hsplit at 1. rewrite !length_app. simpl. lia. }
    replace (u64 (used h' - 1)) with
      (used h' + Z.of_nat (length (take p c ++ drop (S p) c)) - Z.of_nat (length c)).
    2: { pose proof (used_bounds _ _ Hwf') as (Hb0&Hb1&_&Hmx). unfold MAX_ENTRIES in Hmx.
         rewrite uwrap_small; [lia|]. split; [lia|]. rewrite Hu. destruct t; simpl; lia. }
    set (d3 := set_ht _ _ _) in *.
    assert (Hp2 : entries d' ≡ₚ e :: (take p c ++ drop (S p) c) ++ rest).
    { rewrite Hp. rewrite <- Hsplit at 1. solve_Permutation. }
    pose proof (wf_keys _ _ Hwf') as Hk. pose proof (wf_count _ _ Hwf') as Hct.
    unfold keys in Hk. rewrite Hp2 in Hk, Hct. apply NoDup_cons in Hk as [_ Hk]. simpl in Hct.
    assert (dict_wf type d3) as Hwf3 by (apply Hwf''; [done|lia]).
    eexists _, _, _. split; [done|]. split; [done|]. split; [|done].
    destruct (dict_map_cons _ _ _ Hwf' Hp2) as [Hd Hn]. rewrite <- Hm, Hd.
    rewrite delete_insert_id by done. by apply dict_map_perm.
Qed.

(** C3. Incremental rehashing is invisible and completes: any number [n] of steps
    for which the [int] [n*10] does not overflow keeps the invariant and every
    binding, a return value of 1 means the rehashing goes on strictly further
    (when at least one step was asked for), 0 means it is over, and as many steps
    as [ht[0]] has buckets always finish it. A larger [n] is undefined. *)
Theorem dictRehash_correct d n : dict_wf type d →
  if decide (2 ^ 31 ≤ Z.of_nat n * 10) then dictRehash type d n = None else
  ∃ d' rc, dictRehash type d n = Some (d', rc) ∧ dict_wf type d' ∧ dict_map d' = dict_map d ∧
    (rc = 0 ∧ rehashidx d' = -1 ∨
     rc = 1 ∧ rehashidx d' ≠ -1 ∧ ((0 < n)%nat → rehashidx d < rehashidx d')) ∧
    (size (ht0 d) ≤ Z.of_nat n → rc = 0).
Proof.
  intros Hwf. destruct (decide (2 ^ 31 ≤ Z.of_nat n * 10)) as [Hn|Hn].
  { unfold dictRehash. by rewrite bool_decide_false by lia. }
  destruct (decide (rehashidx d = -1)) as [Hr|Hr].
  - rewrite dictRehash_idle by (done || lia). eexists _, _. naive_solver.
  - destruct (dictRehash_spec type d n Hwf Hr ltac:(lia)) as (d'&rc&->&[]). exists d', rc.
    split_and!; [done|done|by apply dict_map_eq| |].
    + destruct rp_rc0 as [?|[-> ?]]; [by left|right]. split_and!; [done..|].
      intros. destruct (rp_progress0 eq_refl) as [_ Hp]. case_decide; lia.
    + intros. destruct (wf_rehash _ _ Hwf Hr) as [(tb&k&Ha) _ Hi _].
      assert (0 < size (ht0 d)).
      { rewrite (ha_size _ _ _ _ Ha). apply Z.pow_pos_nonneg; [lia|]. pose proof (ha_k _ _ _ _ Ha). lia. }
      apply rp_done0; lia.
Qed.
End refine.

Section refine2.
Context {K V : Type} `{Countable K} (type : dictType K V) `{!DictTypeOk type}.
Implicit Types (d : dict K V) (h : dictht K V) (c : list (dictEntry K V)).

Lemma dictCreate_wf : dict_wf type dictCreate.
Proof.
  split; simpl; [by left|done|done|constructor|]. unfold entries, MAX_ENTRIES. simpl. lia.
Qed.

Lemma dictAdd_wf cr d k x d' rc : dict_wf type d → Z.of_nat (length (entries d)) < MAX_ENTRIES →
  dictAdd type cr d k x = Some (d', rc) → dict_wf type d'.
Proof.
  unfold dictAdd. intros Hwf Hmax.
  destruct (dictAddRaw_spec type cr d k Hwf Hmax)
    as (d1&e&ex&->&Hwf1&[(_&->&_&_)|(_&_&_&r&->&Hd)]); simpl.
  - naive_solver.
  - destruct (set_after type d1 r _ x Hwf1 Hd) as (d2&->&Hwf2&_). naive_solver.
Qed.

(** A sequence of [dictAdd] calls. *)
Fixpoint dict_adds (cr : bool) d (l : list (K * V)) : option (dict K V) :=
  match l with
  | [] => Some d
  | (k, x) :: l' => '(d', _) ← dictAdd type cr d k x; dict_adds cr d' l'
  end.

Lemma dict_adds_wf cr d l d' : dict_wf type d →
  Z.of_nat (base.size (dict_map d)) + Z.of_nat (length l) ≤ MAX_ENTRIES →
  dict_adds cr d l = Some d' → dict_wf type d'.
Proof.
  revert d. induction l as [|[k x] l IH]; intros d Hwf Hmax; simpl in *; [naive_solver|].
  destruct (dictAdd type cr d k x) as [[d1 rc]|] eqn:E; simpl; [|done].
  assert (Z.of_nat (length (entries d)) < MAX_ENTRIES) as Hlt
    by (rewrite <- (size_dict_map type) by done; lia).
  apply IH; [by eapply dictAdd_wf|].
  unfold dictAdd in E.
  destruct (dictAddRaw_spec type cr d k Hwf Hlt)
    as (d2&e&ex&Hr&Hwf1&[(_&->&Hm&_)|(_&_&Hm&r&->&Hd)]); rewrite Hr in E; simpl in E.
  - simplify_eq. rewrite Hm. lia.
  - destruct (set_after type d2 r _ x Hwf1 Hd) as (d3&Hs&_&Hm3). rewrite Hs in E. simpl in E. simplify_eq.
    rewrite Hm3, Hm. unfold map_set. rewrite insert_insert_eq.
    rewrite map_size_insert. case_match; simpl in *; lia.
Qed.

(** [dictResize] of an idle table within [int] range moves to the smallest
    power of two that holds all the elements (at least 4), and refuses when
    that is the current size; the bindings do not change. *)
Theorem dictResize_correct d : dict_wf type d → rehashidx d = -1 → used (ht0 d) < 2 ^ 31 →
  let target := _dictNextPower (Z.max (used (ht0 d)) 4) in
  ∃ d' rc, dictResize true d = (d', rc) ∧ dict_wf type d' ∧ dict_map d' = dict_map d ∧
    (∃ k, target = 2 ^ k ∧ used (ht0 d) ≤ 2 ^ k ∧ (k = 2 ∨ 2 ^ (k - 1) < used (ht0 d))) ∧
    (rc = DICT_ERR ∧ d' = d ∧ target = size (ht0 d) ∨
     rc = DICT_OK ∧ target ≠ size (ht0 d) ∧
       (if decide (table (ht0 d) = None) then size (ht0 d') else size (ht1 d')) = target).
Proof.
  intros Hwf Hr Hu target. pose proof (used_bounds _ _ Hwf) as (Hu0&_).
  unfold dictResize. rewrite (proj2 (dictIsRehashing_false d) Hr). simpl.
  rewrite (swrap_small 32) by (unfold in_s; simpl; lia).
  assert ((if used (ht0 d) <? DICT_HT_INITIAL_SIZE then DICT_HT_INITIAL_SIZE else used (ht0 d))
          = Z.max (used (ht0 d)) 4) as ->.
  { unfold DICT_HT_INITIAL_SIZE. destruct (Z.ltb_spec (used (ht0 d)) 4); lia. }
  rewrite uwrap_small by (unfold in_u; lia).
  assert (Hk : ∃ k, target = 2 ^ k ∧ used (ht0 d) ≤ 2 ^ k ∧ (k = 2 ∨ 2 ^ (k - 1) < used (ht0 d))).
  { destruct (nextPower_cases (Z.max (used (ht0 d)) 4)) as (k&Hk&Hkr&Hge&Hlow); [lia|].
    exists k. split_and!; [done|lia|]. destruct Hlow as [?|Hlow]; [by left|].
    destruct (decide (k = 2)); [by left|]. right.
    assert (2 ^ 2 ≤ 2 ^ (k - 1)) by (apply Z.pow_le_mono_r; lia). lia. }
  destruct (dictExpand_cases type d (Z.max (used (ht0 d)) 4) Hwf)
    as [[-> Hc]|(d'&->&_&_&Hne&Hx&Hnull&Hsome)]; [unfold in_u; lia|..].
  - eexists _, _. split_and!; [done..|]. left. split_and!; [done..|]. fold target in Hc. lia.
  - exists d', DICT_OK. split_and!; [done|apply Hx| |done|].
    + apply (dict_map_eq type); [done|]. by rewrite (ep_entries _ _ _ Hx).
    + right. split_and!; [done|done|]. case_decide as E; [by apply Hnull|by apply Hsome].
Qed.

Lemma clear_loop_all (tb : list (list (dictEntry K V))) : Z.of_nat (length (concat tb)) < 2 ^ 64 →
  clear_loop type tb (Z.of_nat (length (concat tb))) =
  concat tb ≫= λ he, dictFreeKey type he ++ dictFreeVal type he.
Proof.
  induction tb as [|c tb IH]; simpl; [done|]. rewrite length_app. intros Hl.
  destruct (Z.eqb_spec (Z.of_nat (length c + length (concat tb))) 0) as [E|E].
  - assert (c ++ concat tb = []) as -> by (apply nil_length_inv; rewrite length_app; lia). done.
  - rewrite uwrap_small by (unfold in_u; lia).
    replace (Z.of_nat (length c + length (concat tb)) - Z.of_nat (length c))
      with (Z.of_nat (length (concat tb))) by lia.
    by rewrite IH, bind_app by lia.
Qed.

(** [dictEmpty] leaves an empty, idle [dict] and runs the destructors of
    every entry of both tables exactly once. *)
Theorem dictEmpty_correct d : dict_wf type d →
  let (d', fr) := dictEmpty type d in
  dict_wf type d' ∧ dict_map d' = ∅ ∧ rehashidx d' = -1 ∧
  fr = entries d ≫= λ he, dictFreeKey type he ++ dictFreeVal type he.
Proof.
  intros Hwf. unfold dictEmpty, _dictClear. split_and!; [apply dictCreate_wf|done|done|].
  pose proof (used_bounds _ _ Hwf) as (Hu0&Hu1&_&Hmax). unfold MAX_ENTRIES in *.
  unfold entries. rewrite bind_app, Hu0, Hu1. unfold ht_entries in *. by rewrite !clear_loop_all by lia.
Qed.
End refine2.

(** The [int] in [dictResize]: a table of 2^31 elements or more is never
    shrunk, the call always fails. *)
Theorem dictResize_int_overflow {K V} (cr : bool) (d : dict K V) :
  2 ^ 31 ≤ used (ht0 d) < 2 ^ 64 → dictResize cr d = (d, DICT_ERR).
Proof.
  intros Hu. unfold dictResize, dictExpand. case_match; [done|].
  apply orb_false_iff in H as [_ ->]. simpl.
  assert (Hs : in_s 32 (s32 (used (ht0 d)))) by (apply swrap_range; lia).
  unfold in_s in Hs. simpl in Hs. unfold DICT_HT_INITIAL_SIZE.
  rewrite (proj2 (Z.ltb_lt _ _)); [done|].
  destruct (Z.ltb_spec (s32 (used (ht0 d))) 4); rewrite uwrap_small; unfold in_u; lia.
Qed.

(** ** A concrete dictionary, in the middle of a rehash *)

Definition demoType : dictType Z Z :=
  DictType (λ k, k `mod` 2 ^ 64) None (Some (λ x, x)) (Some Z.eqb) true true.

#[export] Instance demoType_ok : DictTypeOk demoType.
Proof.
  split.
  - intros k. apply uwrap_range. lia.
  - intros cmp [= <-] a b. apply Z.eqb_eq.
  - done.
Qed.

Definition demo : dict Z Z :=
  Eval vm_compute in
    default dictCreate (dict_adds demoType true dictCreate [(1,10); (2,20); (3,30); (6,40); (5,50)]).

Lemma demo_wf : dict_wf demoType demo.
Proof.
  apply (dict_adds_wf demoType true dictCreate [(1,10); (2,20); (3,30); (6,40); (5,50)]).
  - apply dictCreate_wf.
  - vm_compute. discriminate.
  - vm_compute. reflexivity.
Qed.

Lemma demo_small : Z.of_nat (base.size (dict_map demo)) < MAX_ENTRIES.
Proof. vm_compute. reflexivity. Qed.

Lemma dictRehash_correct_witness :
  ∃ d' rc, dictRehash demoType demo 4 = Some (d', rc) ∧ dict_wf demoType d' ∧
    dict_map d' = dict_map demo ∧
    (rc = 0 ∧ rehashidx d' = -1 ∨
     rc = 1 ∧ rehashidx d' ≠ -1 ∧ ((0 < 4)%nat → rehashidx demo < rehashidx d')) ∧
    (size (ht0 demo) ≤ Z.of_nat 4 → rc = 0).
Proof. exact (dictRehash_correct demoType demo 4 demo_wf). Defined.

Lemma dictResize_correct_witness :
  let d := @dictCreate Z Z in
  ∃ d' rc, dictResize true d = (d', rc) ∧ dict_wf demoType d' ∧ dict_map d' = dict_map d ∧
    (∃ k, _dictNextPower 4 = 2 ^ k ∧ 0 ≤ 2 ^ k ∧ (k = 2 ∨ 2 ^ (k - 1) < 0)) ∧
    (rc = DICT_ERR ∧ d' = d ∧ _dictNextPower 4 = 0 ∨
     rc = DICT_OK ∧ _dictNextPower 4 ≠ 0 ∧ size (ht0 d') = _dictNextPower 4).
Proof. exact (dictResize_correct demoType dictCreate (dictCreate_wf demoType) eq_refl eq_refl). Defined.

Lemma dictEmpty_correct_witness :
  let (d', fr) := dictEmpty demoType demo in
  dict_wf demoType d' ∧ dict_map d' = ∅ ∧ rehashidx d' = -1 ∧
  fr = entries demo ≫= λ he, dictFreeKey demoType he ++ dictFreeVal demoType he.
Proof. exact (dictEmpty_correct demoType demo demo_wf). Defined.

Lemma dictResize_int_overflow_witness :
  let d : dict Z Z := D (HT (Some []) 4 3 (2 ^ 31)) _dictReset (-1) 0 in
  dictResize true d = (d, DICT_ERR).
Proof. apply dictResize_int_overflow. simpl. lia. Defined.
