(* ===== verification/DictSpec.v ===== *)
(** * dict.c: any sequence of operations is a finite map

    The operations of Dict.v one after the other, from an empty table, with the
    resizing of tables enabled or disabled at any moment and rehash steps asked
    for at any moment: what they return, the destructors they call and the
    bindings they leave are those of a finite map. *)

From S2P Require Import Prelude Dict.

Inductive dict_op (K V : Type) :=
  | OAdd (k : K) (x : V)
  | OReplace (k : K) (x : V)
  | OFind (k : K)
  | OFetchValue (k : K)
  | ODelete (k : K)
  | OUnlink (k : K)
  | OResize
  | ORehash (n : nat)
  | OSize.
Arguments OAdd {K V}.
Arguments OReplace {K V}.
Arguments OFind {K V}.
Arguments OFetchValue {K V}.
Arguments ODelete {K V}.
Arguments OUnlink {K V}.
Arguments OResize {K V}.
Arguments ORehash {K V}.
Arguments OSize {K V}.

(** What the caller sees: a status with the destructor calls, an entry, a
    value, a number.  The results of [dictResize] and [dictRehash] depend on
    the layout and are not part of the contract. *)
Inductive dict_out (K V : Type) :=
  | RStatus (rc : Z) (fr : list (freed K V))
  | REntry (e : option (dictEntry K V))
  | RValue (x : option V)
  | RSize (n : Z)
  | RNone.
Arguments RStatus {K V}.
Arguments REntry {K V}.
Arguments RValue {K V}.
Arguments RSize {K V}.
Arguments RNone {K V}.

Section run.
Context {K V : Type} `{Countable K} (type : dictType K V).
Implicit Types (d : dict K V) (m : gmap K (option V)) (op : dict_op K V).

Definition dict_exec (cr : bool) op d : option (dict K V * dict_out K V) :=
  match op with
  | OAdd k x => '(d, rc) ← dictAdd type cr d k x; Some (d, RStatus rc [])
  | OReplace k x => '(d, rc, fr) ← dictReplace type cr d k x; Some (d, RStatus rc fr)
  | OFind k =>
      '(d, r) ← dictFind type d k;
      match r with
      | None => Some (d, REntry None)
      | Some r => e ← deref d r; Some (d, REntry (Some e))
      end
  | OFetchValue k => '(d, x) ← dictFetchValue type d k; Some (d, RValue x)
  | ODelete k => '(d, rc, fr) ← dictDelete type d k; Some (d, RStatus rc fr)
  | OUnlink k => '(d, e) ← dictUnlink type d k; Some (d, REntry e)
  | OResize => Some ((dictResize cr d).1, RNone)
  | ORehash n => '(d, _) ← dictRehash type d n; Some (d, RNone)
  | OSize => Some (d, RSize (dictSize d))
  end.

Fixpoint dict_run d (ops : list (bool * dict_op K V)) : option (dict K V * list (dict_out K V)) :=
  match ops with
  | [] => Some (d, [])
  | (cr, op) :: ops =>
      '(d, out) ← dict_exec cr op d;
      '(d, outs) ← dict_run d ops;
      Some (d, out :: outs)
  end.

(** ** The specification *)

Definition freed_entry (k : K) (w : option V) : list (freed K V) :=
  (if keyDestructor type then [FreeKey k] else []) ++ (if valDestructor type then [FreeVal w] else []).

Definition map_exec op m : gmap K (option V) * dict_out K V :=
  match op with
  | OAdd k x =>
      match m !! k with
      | Some _ => (m, RStatus DICT_ERR [])
      | None => (map_set type m k x, RStatus DICT_OK [])
      end
  | OReplace k x =>
      (map_set type m k x,
       match m !! k with
       | Some old => RStatus 0 (if valDestructor type then [FreeVal old] else [])
       | None => RStatus 1 []
       end)
  | OFind k => (m, REntry (DE k <$> m !! k))
  | OFetchValue k => (m, RValue (mjoin (m !! k)))
  | ODelete k =>
      (delete k m,
       match m !! k with
       | Some w => RStatus DICT_OK (freed_entry k w)
       | None => RStatus DICT_ERR []
       end)
  | OUnlink k => (delete k m, REntry (DE k <$> m !! k))
  | OResize | ORehash _ => (m, RNone)
  | OSize => (m, RSize (Z.of_nat (base.size m)))
  end.

Fixpoint map_run m (ops : list (bool * dict_op K V)) : gmap K (option V) * list (dict_out K V) :=
  match ops with
  | [] => (m, [])
  | (_, op) :: ops =>
      let (m, out) := map_exec op m in
      let (m, outs) := map_run m ops in
      (m, out :: outs)
  end.
End run.

(** ** Refinement *)

Section refine.
Context {K V : Type} `{Countable K} (type : dictType K V) `{!DictTypeOk type}.
Implicit Types (d : dict K V) (m : gmap K (option V)) (op : dict_op K V).

Lemma dictResize_map cr d : dict_wf type d →
  dict_wf type (dictResize cr d).1 ∧ dict_map (dictResize cr d).1 = dict_map d.
Proof.
  intros Hwf. unfold dictResize. destruct (_ || _); [done|]. set (sz := u64 _).
  destruct (dictExpand_cases type d sz Hwf) as [[-> _]|(d' & -> & _ & _ & _ & [Hwf' He _ _] & _)]; [|done|].
  - apply uwrap_range. lia.
  - split; [done|]. unfold dict_map. simpl. by rewrite He.
Qed.

Lemma entry_eta (e : dictEntry K V) k : key e = k → e = DE k (v e).
Proof. intros <-. by destruct e. Qed.

(** The argument of [dictRehash] is an [int], and ten times it as well. *)
Definition int_args op : Prop := match op with ORehash n => Z.of_nat n * 10 < 2 ^ 31 | _ => True end.

Lemma dict_exec_refines cr op d : int_args op → dict_wf type d → Z.of_nat (base.size (dict_map d)) < MAX_ENTRIES →
  ∃ d' out, dict_exec type cr op d = Some (d', out) ∧ dict_wf type d' ∧
    map_exec type op (dict_map d) = (dict_map d', out).
Proof.
  intros Hint Hwf Hmax. destruct op as [k x|k x|k|k|k|k| |n|]; simpl in *.
  - destruct (dictAdd_spec type cr d k x Hwf Hmax) as (d' & rc & -> & Hwf' & Hcase). cbn [mbind option_bind].
    exists d', (RStatus rc []). split; [done|]. split; [done|]. destruct Hcase as [([y ->] & -> & ->)|(-> & -> & ->)]; done.
  - destruct (dictReplace_spec type cr d k x Hwf Hmax) as (d' & rc & fr & -> & Hwf' & Hm & Hcase). cbn [mbind option_bind].
    exists d', (RStatus rc fr). split; [done|]. split; [done|]. rewrite Hm. destruct (dict_map d !! k); by destruct Hcase as [-> ->].
  - destruct (dictFind_spec type d k Hwf) as (d' & r & -> & Hwf' & Hm & Hcase). cbn [mbind option_bind].
    destruct r as [r|].
    + destruct Hcase as (e & -> & He & ->). cbn [mbind option_bind]. eexists _, _. split; [done|]. split; [done|].
      rewrite Hm. simpl. by rewrite <- (entry_eta e k).
    + eexists _, _. split; [done|]. split; [done|]. by rewrite Hcase, Hm.
  - unfold dictFetchValue. destruct (dictFind_spec type d k Hwf) as (d' & r & -> & Hwf' & Hm & Hcase). cbn [mbind option_bind].
    destruct r as [r|].
    + destruct Hcase as (e & -> & He & ->). cbn [mbind option_bind]. eexists _, _. split; [done|]. by rewrite Hm.
    + eexists _, _. split; [done|]. by rewrite Hcase, Hm.
  - unfold dictDelete. destruct (dictGenericDelete_spec type d k false Hwf) as (d' & he & fr & -> & Hwf' & Hm & Hcase).
    cbn [mbind option_bind]. eexists _, _. split; [done|]. split; [done|]. rewrite Hm.
    destruct he as [e|]; [destruct Hcase as (<- & -> & ->)|destruct Hcase as [-> ->]]; done.
  - unfold dictUnlink. destruct (dictGenericDelete_spec type d k true Hwf) as (d' & he & fr & -> & Hwf' & Hm & Hcase).
    cbn [mbind option_bind]. eexists _, _. split; [done|]. split; [done|]. rewrite Hm.
    destruct he as [e|]; [destruct Hcase as (He & -> & _); simpl; by rewrite <- (entry_eta e k)|by destruct Hcase as [-> _]].
  - destruct (dictResize_map cr d Hwf) as [Hwf' Hm]. eexists _, _. split; [done|]. by rewrite Hm.
  - destruct (decide (rehashidx d = -1)) as [Hr|Hr].
    + rewrite dictRehash_idle by done. by eexists _, _.
    + destruct (dictRehash_spec type d n Hwf Hr Hint) as (d' & rc & -> & [Hwf' Hp _ _ _ _]). cbn [mbind option_bind].
      eexists _, _. split; [done|]. split; [done|]. by rewrite (dict_map_eq type d d' Hwf Hp).
  - eexists _, _. split; [done|]. split; [done|]. do 2 f_equal. unfold dictSize.
    pose proof (used_bounds type _ Hwf) as (Hu0 & Hu1 & -> & Hm). rewrite (size_dict_map type d Hwf).
    rewrite uwrap_small; [done|]. unfold in_u, MAX_ENTRIES in *. lia.
Qed.

Lemma map_exec_size op m : (base.size (map_exec type op m).1 ≤ S (base.size m))%nat.
Proof.
  assert (∀ k x, base.size (<[k := x]> m) ≤ S (base.size m))%nat as Hi.
  { intros k x. rewrite map_size_insert. destruct (m !! k); simpl; lia. }
  assert (∀ k, base.size (delete k m) ≤ S (base.size m))%nat as Hd.
  { intros k. rewrite map_size_delete. destruct (m !! k); simpl; lia. }
  destruct op as [k x|k x|k|k|k|k| |n|]; simpl; unfold map_set; auto; try lia.
  destruct (m !! k); simpl; [lia|apply Hi].
Qed.

(** C1. From any well-formed table, and in particular from an empty one, every
    sequence of additions, replacements, lookups, deletions, unlinkings,
    resizes and rehash steps (with arguments whose tenfold is an [int], as
    [dictRehash] computes it), with resizing allowed or not at each of them, runs to its end with the table well-formed, and returns exactly what the
    same sequence returns on a finite map: the status codes, the entries and
    values found, the sizes, and the destructors called on the keys and values
    that leave the table, each once. *)
Theorem dict_runs_refine d ops : dict_wf type d → Forall (λ o, int_args o.2) ops →
  Z.of_nat (base.size (dict_map d) + length ops) < MAX_ENTRIES →
  ∃ d' outs, dict_run type d ops = Some (d', outs) ∧ dict_wf type d' ∧
    map_run type (dict_map d) ops = (dict_map d', outs).
Proof.
  revert d. induction ops as [|[cr op] ops IH]; intros d Hwf Hint Hmax; simpl in *; [by eexists _, _|]. apply Forall_cons in Hint as [Ho Hint].
  destruct (dict_exec_refines cr op d Ho Hwf) as (d1 & out & -> & Hwf1 & Hx); [lia|]. cbn [mbind option_bind].
  pose proof (map_exec_size op (dict_map d)) as Hsz. rewrite Hx in Hsz |- *. simpl in Hsz.
  destruct (IH d1 Hwf1 Hint) as (d2 & outs & -> & Hwf2 & ->); [lia|]. by eexists _, _.
Qed.
End refine.

Definition demo_ops : list (bool * dict_op Z Z) :=
  [(true, OAdd 7 70); (true, OAdd 7 71); (false, OReplace 3 33); (true, ORehash 1); (true, OFind 6);
   (true, OFetchValue 3); (true, ODelete 5); (true, ODelete 5); (false, OUnlink 1); (true, OResize); (true, OSize)].

Lemma dict_runs_refine_witness : ∃ d' outs,
  dict_run demoType demo demo_ops = Some (d', outs) ∧ dict_wf demoType d' ∧
  map_run demoType (dict_map demo) demo_ops = (dict_map d', outs).
Proof. apply (dict_runs_refine demoType demo demo_ops demo_wf); [repeat constructor|vm_compute; reflexivity]. Defined.

(** The same sequence evaluated. *)
Example demo_outs : snd <$> dict_run demoType demo demo_ops = Some
  [RStatus DICT_OK []; RStatus DICT_ERR []; RStatus 0 [FreeVal (Some 30)]; RNone; REntry (Some (DE 6 (Some 40)));
   RValue (Some 33); RStatus DICT_OK [FreeKey 5; FreeVal (Some 50)]; RStatus DICT_ERR [];
   REntry (Some (DE 1 (Some 10))); RNone; RSize 4].
Proof. reflexivity. Qed.
