(* ===== verification/DictIter.v ===== *)
(** * dict.c: iterators and random entries

    [dictIterator] walks the buckets of [ht[0]], then those of [ht[1]] while a
    rehash is in progress.  A safe iterator stops the incremental rehash while
    it runs, so that its user may change the table between two entries; an
    unsafe one only checks, with a fingerprint, that nothing was changed.

    The keys of a [dict] are distinct, so a pointer to an entry is written as
    the key the entry holds.  Following [next] from a pointer looks the entry
    up in the chains: it is [None], a use of freed memory, when there is none.

    The results of [random] are a list of numbers that the code consumes. *)

From S2P Require Import Prelude Dict.

(** ** Iterators *)

Record dictIterator (K : Type) := DI {
  it_index : Z;
  it_table : nat;
  it_safe : bool;
  it_entry : option K;
  it_nextEntry : option K;
  it_fingerprint : option Z }.
Arguments DI {K}.
Arguments it_index {K}.
Arguments it_table {K}.
Arguments it_safe {K}.
Arguments it_entry {K}.
Arguments it_nextEntry {K}.
Arguments it_fingerprint {K}.

(** One round of the loop of [dictFingerprint]. *)
Definition fingerprint_mix (hash x : Z) : Z :=
  let hash := s64 (hash + x) in
  let hash := s64 (Z.lnot hash + Z.shiftl hash 21) in
  let hash := Z.lxor hash (Z.shiftr hash 24) in
  let hash := s64 (s64 (hash + Z.shiftl hash 3) + Z.shiftl hash 8) in
  let hash := Z.lxor hash (Z.shiftr hash 14) in
  let hash := s64 (s64 (hash + Z.shiftl hash 2) + Z.shiftl hash 4) in
  let hash := Z.lxor hash (Z.shiftr hash 28) in
  s64 (hash + Z.shiftl hash 31).

Section ops.
Context {K V : Type} `{EqDecision K}.
Implicit Types (d : dict K V) (it : dictIterator K) (c : list (dictEntry K V)).

(** [addr] gives the addresses of the two arrays of buckets. *)
Definition dictFingerprint (addr : nat → Z) d : Z :=
  foldl fingerprint_mix 0
    [addr 0%nat; s64 (size (ht0 d)); s64 (used (ht0 d));
     addr 1%nat; s64 (size (ht1 d)); s64 (used (ht1 d))].

Definition dictGetIterator : dictIterator K := DI (-1) 0 false None None None.

Definition dictGetSafeIterator : dictIterator K :=
  let i := dictGetIterator in
  DI (it_index i) (it_table i) true (it_entry i) (it_nextEntry i) (it_fingerprint i).

Definition set_iterators d n : dict K V := D (ht0 d) (ht1 d) (rehashidx d) n.

(** [he->next], for the entry that holds [k]. *)
Fixpoint chain_next (k : K) c : option (option K) :=
  match c with
  | [] => None
  | he :: c' => if decide (key he = k) then Some (key <$> head c') else chain_next k c'
  end.

Definition chains d : list (list (dictEntry K V)) :=
  default [] (table (ht0 d)) ++ default [] (table (ht1 d)).

Definition entry_next d (k : K) : option (option K) := head (omap (chain_next k) (chains d)).

Definition it_started it : bool := negb ((it_index it =? -1) && (it_table it =? 0)%nat).

(** The test of the first call. *)
Definition it_begin (addr : nat → Z) d it : dict K V * dictIterator K :=
  if it_started it then (d, it)
  else if it_safe it then (set_iterators d (u64 (iterators d + 1)), it)
  else (d, DI (it_index it) (it_table it) (it_safe it) (it_entry it) (it_nextEntry it)
              (Some (dictFingerprint addr d))).

(** The branch [iter->entry == NULL]: the next bucket, [None] after the last
    one ([break]). *)
Definition it_bucket (addr : nat → Z) d it :
    option (dict K V * dictIterator K * option (option K)) :=
  let (d, it) := it_begin addr d it in
  let index := it_index it + 1 in
  let at_bucket t i :=
    c ← bucket (get_ht d t) i;
    Some (d, DI i t (it_safe it) (key <$> head c) (it_nextEntry it) (it_fingerprint it),
          Some (key <$> head c)) in
  if s64 (size (get_ht d (it_table it))) <=? index then
    if dictIsRehashing d && (it_table it =? 0)%nat then at_bucket 1%nat 0
    else Some (d, DI index (it_table it) (it_safe it) None (it_nextEntry it) (it_fingerprint it), None)
  else at_bucket (it_table it) index.

(** The first half of a turn of the loop: the value of [iter->entry] it leads
    to, [None] for the [break]. *)
Definition it_turn (addr : nat → Z) d it : option (dict K V * dictIterator K * option (option K)) :=
  match it_entry it with
  | None => it_bucket addr d it
  | Some _ =>
      Some (d, DI (it_index it) (it_table it) (it_safe it) (it_nextEntry it)
                  (it_nextEntry it) (it_fingerprint it), Some (it_nextEntry it))
  end.

Fixpoint dictNext_loop (addr : nat → Z) (fuel : nat) d it :
    option (dict K V * dictIterator K * option K) :=
  match fuel with
  | O => None
  | S fuel =>
      '(d, it, found) ← it_turn addr d it;
      match found with
      | None => Some (d, it, None)
      | Some None => dictNext_loop addr fuel d it
      | Some (Some he) =>
          next ← entry_next d he;
          Some (d, DI (it_index it) (it_table it) (it_safe it) (Some he) next (it_fingerprint it),
                Some he)
      end
  end.

(** As many turns as there are buckets, and two more. *)
Definition next_fuel d : nat := Z.to_nat (size (ht0 d) + size (ht1 d)) + 3.

Definition dictNext (addr : nat → Z) d it : option (dict K V * dictIterator K * option K) :=
  dictNext_loop addr (next_fuel d) d it.

(** [None] is the failed assertion. *)
Definition dictReleaseIterator (addr : nat → Z) d it : option (dict K V) :=
  if it_started it then
    if it_safe it then Some (set_iterators d (u64 (iterators d - 1)))
    else if decide (it_fingerprint it = Some (dictFingerprint addr d)) then Some d else None
  else Some d.

(** ** Random entries *)

(** The bucket that one number picks, in the part of the tables that is not
    known to be empty. *)
Definition random_pick d (r : Z) : option (list (dictEntry K V)) :=
  if dictIsRehashing d then
    let h := u64 (rehashidx d + r `mod` u64 (u64 (size (ht0 d) + size (ht1 d)) - rehashidx d)) in
    if size (ht0 d) <=? h then bucket (ht1 d) (h - size (ht0 d)) else bucket (ht0 d) h
  else bucket (ht0 d) (Z.land r (sizemask (ht0 d))).

(** The loops [do ... while(he == NULL)]: [None] when [rnd] runs out. *)
Fixpoint random_bucket d (rnd : list Z) : option (list (dictEntry K V) * list Z) :=
  match rnd with
  | [] => None
  | r :: rnd =>
      he ← random_pick d r;
      match he with
      | [] => random_bucket d rnd
      | _ :: _ => Some (he, rnd)
      end
  end.

(** [listlen] and [listele] are [int]s. *)
Definition dictGetRandomKey (type : dictType K V) d (rnd : list Z) :
    option (dict K V * option (dictEntry K V) * list Z) :=
  if dictSize d =? 0 then Some (d, None, rnd) else
  d ← maybe_step type d;
  '(orighe, rnd) ← random_bucket d rnd;
  match rnd with
  | [] => None
  | r :: rnd =>
      let listlen := s32 (Z.of_nat (length orighe)) in
      let listele := s32 (Z.rem r listlen) in
      he ← orighe !! Z.to_nat listele;
      Some (d, Some he, rnd)
  end.

(** [dictGetSomeKeys]: the current bucket, the empty buckets seen in a row, the
    entries stored so far and the random numbers left. *)
Record sample := Sample {
  sm_i : Z;
  sm_emptylen : Z;
  sm_des : list (dictEntry K V);
  sm_rnd : list Z }.

Definition sm_stored (s : sample) : Z := Z.of_nat (length (sm_des s)).

(** [while (he)]: [true] is the [return] when [count] is reached. *)
Fixpoint sample_chain (count : Z) (des : list (dictEntry K V)) c : list (dictEntry K V) * bool :=
  match c with
  | [] => (des, false)
  | he :: c' =>
      let des := des ++ [he] in
      if Z.of_nat (length des) =? count then (des, true) else sample_chain count des c'
  end.

(** The body of the loop over the tables. *)
Definition sample_table d (count maxsizemask : Z) (j : nat) (s : sample) : option (sample * bool) :=
  let behind := dictIsRehashing d && (j =? 0)%nat && (sm_i s <? u64 (rehashidx d)) in
  if behind && (sm_i s <? size (ht1 d)) then Some (s, false) else
  let i := if behind then u64 (rehashidx d) else sm_i s in
  if size (get_ht d j) <=? i then Some (Sample i (sm_emptylen s) (sm_des s) (sm_rnd s), false) else
  he ← bucket (get_ht d j) i;
  match he with
  | [] =>
      let emptylen := u64 (sm_emptylen s + 1) in
      if (5 <=? emptylen) && (count <? emptylen) then
        match sm_rnd s with
        | [] => None
        | r :: rnd => Some (Sample (Z.land r maxsizemask) 0 (sm_des s) rnd, false)
        end
      else Some (Sample i emptylen (sm_des s) (sm_rnd s), false)
  | _ :: _ =>
      let (des, full) := sample_chain count (sm_des s) he in
      Some (Sample i 0 des (sm_rnd s), full)
  end.

Fixpoint sample_loop d (count maxsizemask : Z) (maxsteps : nat) (s : sample) : option sample :=
  match maxsteps with
  | O => Some s
  | S maxsteps =>
      if count <=? sm_stored s then Some s else
      '(s, full) ← sample_table d count maxsizemask 0 s;
      if full : bool then Some s else
      '(s, full) ←
        (if dictIsRehashing d then sample_table d count maxsizemask 1 s else Some (s, false));
      if full : bool then Some s else
      sample_loop d count maxsizemask maxsteps
        (Sample (Z.land (u64 (sm_i s + 1)) maxsizemask) (sm_emptylen s) (sm_des s) (sm_rnd s))
  end.

Fixpoint rehash_steps (type : dictType K V) d (count : nat) : option (dict K V) :=
  match count with
  | O => Some d
  | S count =>
      if dictIsRehashing d then d ← _dictRehashStep type d; rehash_steps type d count
      else Some d
  end.

(** [count] is an [unsigned int], and so is the product [count*10]. *)
Definition dictGetSomeKeys (type : dictType K V) d (count : Z) (rnd : list Z) :
    option (dict K V * list (dictEntry K V) * list Z) :=
  let count := if dictSize d <? count then u32 (dictSize d) else count in
  let maxsteps := u32 (count * 10) in
  d ← rehash_steps type d (Z.to_nat count);
  let mask0 := sizemask (ht0 d) in
  let maxsizemask :=
    if dictIsRehashing d && (mask0 <? sizemask (ht1 d)) then sizemask (ht1 d) else mask0 in
  match rnd with
  | [] => None
  | r :: rnd =>
      s ← sample_loop d count maxsizemask (Z.to_nat maxsteps)
            (Sample (Z.land r maxsizemask) 0 [] rnd);
      Some (d, sm_des s, sm_rnd s)
  end.
End ops.
Arguments sample : clear implicits.

(** ** What an iterator still has to return *)

(** The part of [l] from [k] on. *)
Fixpoint from {A} `{EqDecision A} (k : A) (l : list A) : list A :=
  match l with
  | [] => []
  | x :: l' => if decide (x = k) then l else from k l'
  end.

Section from.
Context {A : Type} `{EqDecision A}.
Implicit Types (k : A) (l : list A).

Lemma from_not_elem k l : k ∉ l → from k l = [].
Proof.
  induction l as [|x l IH]; simpl; [done|]. rewrite not_elem_of_cons. intros [Hx Hl].
  rewrite decide_False by congruence. by apply IH.
Qed.

Lemma from_app k l1 l2 : k ∉ l1 → from k (l1 ++ l2) = from k l2.
Proof.
  induction l1 as [|x l1 IH]; simpl; [done|]. rewrite not_elem_of_cons. intros [Hx Hl].
  rewrite decide_False by congruence. by apply IH.
Qed.

Lemma from_elem k l : k ∈ l → ∃ l1 l2, l = l1 ++ k :: l2 ∧ k ∉ l1 ∧ from k l = k :: l2.
Proof.
  induction l as [|x l IH]; [by intros ?%elem_of_nil|]. simpl. destruct (decide (x = k)) as [->|Hx].
  - intros _. exists [], l. split_and!; [done| |done]. apply not_elem_of_nil.
  - intros [->|Hl]%elem_of_cons; [done|]. destruct (IH Hl) as (l1 & l2 & -> & Hn & ->).
    exists (x :: l1), l2. split_and!; [done| |done]. rewrite not_elem_of_cons. naive_solver.
Qed.

Lemma from_sublist k l : from k l `sublist_of` l.
Proof.
  induction l as [|x l IH]; simpl; [done|]. case_decide; [done|]. by apply sublist_cons.
Qed.

Lemma from_filter (P : A → Prop) `{∀ x, Decision (P x)} k l : P k →
  from k (filter P l) = filter P (from k l).
Proof.
  intros Hk. induction l as [|x l IH]; [done|]. rewrite filter_cons. simpl.
  destruct (decide (x = k)) as [->|Hx].
  - rewrite decide_True by done. simpl. rewrite decide_True by done. rewrite filter_cons.
    by rewrite decide_True by done.
  - destruct (decide (P x)); simpl; [|done]. by rewrite decide_False by done.
Qed.
End from.

Section pending.
Context {K V : Type} `{EqDecision K}.
Implicit Types (d : dict K V) (it : dictIterator K) (c : list (dictEntry K V)).

Definition tbl d (t : nat) : list (list (dictEntry K V)) := default [] (table (get_ht d t)).

(** The chain of a bucket, empty outside of the table. *)
Definition chain d (t : nat) (i : Z) : list (dictEntry K V) := default [] (bucket (get_ht d t) i).

(** The keys of the buckets from [i] on, and of the second table. *)
Definition buckets_from d (t : nat) (i : Z) : list K :=
  keys (concat (drop (Z.to_nat i) (tbl d t))) ++
  match t with O => keys (concat (tbl d 1)) | S _ => [] end.

(** The keys an iterator has not returned yet, in the order it returns them. *)
Definition pending d it : list K :=
  match it_entry it, it_nextEntry it with
  | Some _, Some k => from k (keys (chain d (it_table it) (it_index it)))
  | _, _ => []
  end ++ buckets_from d (it_table it) (it_index it + 1).

(** An array of 2^63 pointers does not fit in memory. *)
Definition sizes_ok d : Prop := size (ht0 d) < 2 ^ 63 ∧ size (ht1 d) < 2 ^ 63.

Record iter_ok d it : Prop := {
  io_table : (it_table it < 2)%nat;
  io_second : it_table it = 1%nat → rehashidx d ≠ -1;
  io_index : -1 ≤ it_index it < size (get_ht d (it_table it));
  io_count : it_started it = true → it_safe it = true → 0 < iterators d;
  io_entry : is_Some (it_entry it) → 0 ≤ it_index it ∧
    ∀ k, it_nextEntry it = Some k → k ∈ keys (chain d (it_table it) (it_index it)) }.
End pending.

(** ** [dictNext] *)

Section next.
Context {K V : Type} `{EqDecision K} (type : dictType K V).
Implicit Types (d : dict K V) (it : dictIterator K) (c : list (dictEntry K V)).

Lemma tbl_length d t : dict_wf type d → Z.of_nat (length (tbl d t)) = size (get_ht d t).
Proof.
  intros Hwf. unfold tbl. destruct (ht_ok_get type d t Hwf) as [->|(tb & k & Ha)]; [done|].
  by rewrite (ha_table _ _ _ _ Ha), (ha_size _ _ _ _ Ha), <- (ha_len _ _ _ _ Ha).
Qed.

Lemma size_nonneg d t : dict_wf type d → 0 ≤ size (get_ht d t).
Proof. intros Hwf. rewrite <- (tbl_length d t Hwf). lia. Qed.

Lemma chain_lookup d t i : 0 ≤ i → chain d t i = default [] (tbl d t !! Z.to_nat i).
Proof.
  intros Hi. unfold chain, tbl, bucket. destruct (table (get_ht d t)) as [tb|]; simpl; [|done].
  by rewrite decide_True by done.
Qed.

Lemma bucket_chain d t i : dict_wf type d → 0 ≤ i < size (get_ht d t) →
  bucket (get_ht d t) i = Some (chain d t i) ∧ tbl d t !! Z.to_nat i = Some (chain d t i).
Proof.
  intros Hwf Hi. pose proof (tbl_length d t Hwf) as Hl.
  destruct (lookup_lt_is_Some_2 (tbl d t) (Z.to_nat i)) as [c Hc]; [lia|].
  rewrite (chain_lookup d t i) by lia. rewrite Hc. split; [|done]. unfold bucket, tbl in *.
  destruct (table (get_ht d t)) as [tb|]; [|done]. simpl in *. by rewrite decide_True by lia.
Qed.

Lemma buckets_from_step d t i : dict_wf type d → 0 ≤ i < size (get_ht d t) →
  buckets_from d t i = keys (chain d t i) ++ buckets_from d t (i + 1).
Proof.
  intros Hwf Hi. destruct (bucket_chain d t i Hwf Hi) as [_ Hc]. unfold buckets_from.
  rewrite (drop_S _ _ _ Hc). replace (Z.to_nat (i + 1)) with (S (Z.to_nat i)) by lia.
  unfold keys. simpl. by rewrite fmap_app, <- app_assoc.
Qed.

Lemma buckets_from_end d t i : dict_wf type d → size (get_ht d t) ≤ i →
  buckets_from d t i = match t with O => buckets_from d 1 0 | S _ => [] end.
Proof.
  intros Hwf Hi. pose proof (tbl_length d t Hwf). unfold buckets_from. rewrite drop_ge by lia.
  destruct t; simpl; [|done]. by rewrite app_nil_r.
Qed.

Lemma tbl_entries d : keys (entries d) = keys (concat (tbl d 0)) ++ keys (concat (tbl d 1)).
Proof. unfold entries, keys, ht_entries. by rewrite fmap_app. Qed.

Lemma keys_chains d : keys (concat (chains d)) = keys (entries d).
Proof. unfold chains, entries, ht_entries. by rewrite concat_app. Qed.

Lemma chain_next_None k c : k ∉ keys c → chain_next k c = None.
Proof.
  induction c as [|e c IH]; [done|]. simpl. rewrite not_elem_of_cons. intros [Hk Hc].
  rewrite decide_False by congruence. by apply IH.
Qed.

Lemma chain_next_Some k c l1 l2 : keys c = l1 ++ k :: l2 → k ∉ l1 → chain_next k c = Some (head l2).
Proof.
  revert l1. induction c as [|e c IH]; intros l1 Hc Hk; [by destruct l1|]. simpl.
  destruct l1 as [|x l1]; injection Hc as Hx Hc.
  - rewrite decide_True by done. f_equal. rewrite <- Hc. by destruct c.
  - apply not_elem_of_cons in Hk as [Hk Hl]. rewrite decide_False by congruence. by apply (IH l1).
Qed.

Lemma omap_cons_eq {A B} (f : A → option B) x l :
  omap f (x :: l) = match f x with Some y => y :: omap f l | None => omap f l end.
Proof. done. Qed.

Lemma omap_chain_next_nil k (tb : list (list (dictEntry K V))) : k ∉ keys (concat tb) →
  omap (chain_next k) tb = [].
Proof.
  induction tb as [|c tb IH]; [done|]. unfold keys. rewrite omap_cons_eq. cbn [concat].
  rewrite fmap_app, not_elem_of_app. intros [Hc Htb]. by rewrite chain_next_None, IH.
Qed.

Lemma chain_in_chains d t i : (t < 2)%nat → keys (chain d t i) ≠ [] → chain d t i ∈ chains d.
Proof.
  unfold chain, chains, bucket. intros Ht Hne.
  destruct (table (get_ht d t)) as [tb|] eqn:E; [|done]. simpl in *. case_decide; [|done].
  destruct (tb !! Z.to_nat i) as [c|] eqn:Ec; [|done]. simpl. apply elem_of_app.
  destruct t as [|[|]]; simpl in E; [left|right|lia]; rewrite E; by apply list_elem_of_lookup_2 in Ec.
Qed.

Lemma chain_elem d t i k : (t < 2)%nat → k ∈ keys (chain d t i) → k ∈ keys (entries d).
Proof.
  intros Ht Hk. assert (chain d t i ∈ chains d) as Hc.
  { apply chain_in_chains; [done|]. intros E. rewrite E in Hk. by apply elem_of_nil in Hk. }
  rewrite <- keys_chains. unfold keys in *. apply list_elem_of_fmap in Hk as (e & -> & He).
  apply list_elem_of_fmap. exists e. split; [done|]. apply list_elem_of_In, in_concat.
  exists (chain d t i). by rewrite <- !list_elem_of_In.
Qed.

Lemma chain_nodup d t i : dict_wf type d → (t < 2)%nat → NoDup (keys (chain d t i)).
Proof.
  intros Hwf Ht. destruct (decide (keys (chain d t i) = [])) as [->|Hne]; [constructor|].
  destruct (list_elem_of_split (chains d) (chain d t i)) as (tb1 & tb2 & E); [by apply chain_in_chains|].
  pose proof (wf_keys _ _ Hwf) as Hnd. rewrite <- keys_chains, E, concat_app in Hnd.
  unfold keys in *. simpl in Hnd. rewrite !fmap_app in Hnd.
  apply NoDup_app in Hnd as (_ & _ & Hnd). by apply NoDup_app in Hnd as (Hnd & _).
Qed.

(** Following [next] from an entry of the table. *)
Lemma entry_next_spec d t i k l1 l2 : dict_wf type d → (t < 2)%nat →
  keys (chain d t i) = l1 ++ k :: l2 → entry_next d k = Some (head l2).
Proof.
  intros Hwf Ht Hc. destruct (list_elem_of_split (chains d) (chain d t i)) as (tb1 & tb2 & E).
  { apply chain_in_chains; [done|]. rewrite Hc. by destruct l1. }
  pose proof (wf_keys _ _ Hwf) as Hnd. rewrite <- keys_chains, E, concat_app in Hnd.
  unfold keys in *. simpl in Hnd. rewrite !fmap_app, Hc in Hnd.
  apply NoDup_app in Hnd as (_ & Hd & Hnd). apply NoDup_app in Hnd as (Hnd & Hd2 & _).
  unfold entry_next. rewrite E, omap_app, omap_chain_next_nil; cycle 1.
  { intros Hk. apply (Hd k Hk). rewrite !elem_of_app, elem_of_cons. auto. }
  apply NoDup_app in Hnd as (_ & Hd3 & _). rewrite omap_cons_eq. erewrite chain_next_Some; [done|exact Hc|].
  intros Hk. apply (Hd3 k Hk). rewrite elem_of_cons. auto.
Qed.

Lemma get_ht_iterators d n t : get_ht (set_iterators d n) t = get_ht d t.
Proof. by destruct t. Qed.

Lemma chain_iterators d n t i : chain (set_iterators d n) t i = chain d t i.
Proof. unfold chain. by rewrite get_ht_iterators. Qed.

Lemma buckets_from_iterators d n t i : buckets_from (set_iterators d n) t i = buckets_from d t i.
Proof. unfold buckets_from, tbl. by rewrite get_ht_iterators. Qed.

Lemma wf_iterators d n : dict_wf type d → dict_wf type (set_iterators d n).
Proof. intros [H0 Hi Hr Hk Hc]. split; try done. intros Hx. by destruct (Hr Hx). Qed.

Lemma entry_next_iterators d n k : entry_next (set_iterators d n) k = entry_next d k.
Proof. done. Qed.
End next.

Section next_spec.
Context {K V : Type} `{EqDecision K} (type : dictType K V) (addr : nat → Z).
Implicit Types (d : dict K V) (it : dictIterator K).

(** The buckets after the current one. *)
Definition buckets_left d it : Z :=
  size (get_ht d (it_table it)) - 1 - it_index it +
  match it_table it with O => size (ht1 d) | S _ => 0 end.

(** The step to the next bucket: at the end nothing is left; otherwise the
    iterator stands on a bucket of the tables, and what it still has to return
    is its chain and the buckets after it. *)
Lemma it_bucket_spec d it : dict_wf type d → sizes_ok d → iter_ok d it → it_entry it = None →
  ∃ d' it' found, it_bucket addr d it = Some (d', it', found) ∧
    d' = (it_begin addr d it).1 ∧ it_safe it' = it_safe it ∧ it_started it' = true ∧
    it_fingerprint it' = it_fingerprint (it_begin addr d it).2 ∧
    match found with
    | None => buckets_from d (it_table it) (it_index it + 1) = []
    | Some r => r = head (keys (chain d (it_table it') (it_index it'))) ∧ it_entry it' = r ∧
        (it_table it' < 2)%nat ∧ (it_table it' = 1%nat → rehashidx d ≠ -1) ∧
        0 ≤ it_index it' < size (get_ht d (it_table it')) ∧
        buckets_left d it' < buckets_left d it ∧
        buckets_from d (it_table it) (it_index it + 1) =
          keys (chain d (it_table it') (it_index it')) ++ buckets_from d (it_table it') (it_index it' + 1)
    end.
Proof.
  intros Hwf [Hs0 Hs1] [Ht Hsec Hidx _ _] He.
  pose proof (size_nonneg type d (it_table it) Hwf) as Hsz. pose proof (size_nonneg type d 1 Hwf) as Hsz1.
  assert (s64 (size (get_ht d (it_table it))) = size (get_ht d (it_table it))) as Hs64.
  { apply swrap_small; [lia|]. unfold in_s. simpl. destruct (it_table it) as [|[|]]; simpl in *; lia. }
  assert (∀ t j d1, (t < 2)%nat → (t = 1%nat → rehashidx d ≠ -1) → 0 ≤ j < size (get_ht d t) →
    d1 = d ∨ (∃ n, d1 = set_iterators d n) →
    (c ← bucket (get_ht d1 t) j; Some (key <$> head c)) = Some (head (keys (chain d t j))) ∧
    bucket (get_ht d1 t) j = Some (chain d t j)) as Hat.
  { intros t j d1 _ _ Hj Hd1. destruct (bucket_chain type d t j Hwf Hj) as [Hb _].
    assert (bucket (get_ht d1 t) j = Some (chain d t j)) as ->.
    { destruct Hd1 as [->|[n ->]]; [done|]. by rewrite get_ht_iterators. }
    split; [|done]. simpl. by destruct (chain d t j). }
  unfold it_bucket. destruct (it_begin addr d it) as [d1 it1] eqn:Eb. simpl.
  assert ((d1 = d ∨ ∃ n, d1 = set_iterators d n) ∧ it_index it1 = it_index it ∧ it_table it1 = it_table it ∧
    it_safe it1 = it_safe it) as (Hd1 & Hi1 & Ht1 & Hsf1).
  { unfold it_begin in Eb. destruct (it_started it); [by injection Eb as <- <-; auto|].
    destruct (it_safe it) eqn:Es; injection Eb as <- <-; simpl; split_and!; eauto. }
  assert (size (get_ht d1 (it_table it)) = size (get_ht d (it_table it)) ∧ dictIsRehashing d1 = dictIsRehashing d) as [Hsd1 Hrd1].
  { destruct Hd1 as [->|[n ->]]; [done|]. by rewrite get_ht_iterators. }
  rewrite Hi1, Ht1, Hsf1, Hsd1, Hrd1, Hs64.
  destruct (Z.leb_spec (size (get_ht d (it_table it))) (it_index it + 1)) as [Hge|Hlt].
  - destruct (dictIsRehashing d && (it_table it =? 0)%nat) eqn:Hsw.
    + apply andb_true_iff in Hsw as [Hr%dictIsRehashing_spec Ht0%Nat.eqb_eq]. rewrite Ht0 in *.
      destruct (wf_rehash _ _ Hwf Hr) as [_ (tb1 & k1 & Ha1) _ _].
      assert (0 < size (ht1 d)).
      { rewrite (ha_size _ _ _ _ Ha1). apply Z.pow_pos_nonneg; [lia|]. pose proof (ha_k _ _ _ _ Ha1). lia. }
      destruct (Hat 1%nat 0 d1) as [_ Hb]; [lia|done|simpl; lia|done|]. simpl in Hb. rewrite Hb. simpl.
      eexists _, _, _. split; [done|]. split_and!; try done; simpl; try lia; try (by destruct (chain d 1 0)).
      * unfold buckets_left. simpl. rewrite Ht0. simpl in *. lia.
      * rewrite (buckets_from_end type d 0) by (done || (simpl in *; lia)). by apply (buckets_from_step type); [|simpl; lia].
    + eexists _, _, _. split; [done|]. split_and!; try done.
      { unfold it_started. simpl. destruct (Z.eqb_spec (it_index it + 1) (-1)); [lia|done]. }
      rewrite (buckets_from_end type d) by (done || lia). destruct (it_table it) as [|t] eqn:Et; [|done].
      assert (rehashidx d = -1) as Hr.
      { apply andb_false_iff in Hsw as [Hsw|]; [by apply dictIsRehashing_false in Hsw|done]. }
      unfold buckets_from, tbl. simpl. by rewrite (wf_idle _ _ Hwf Hr).
  - assert (0 ≤ it_index it + 1 < size (get_ht d (it_table it))) as Hr by lia.
    destruct (Hat (it_table it) (it_index it + 1) d1 Ht Hsec Hr Hd1) as [_ Hb]. rewrite Hb. simpl.
    eexists _, _, _. split; [done|]. split_and!; try done; simpl; try lia; try (by destruct (chain d _ _)).
    + unfold it_started. simpl. destruct (Z.eqb_spec (it_index it + 1) (-1)); [lia|done].
    + unfold buckets_left. simpl. lia.
    + by apply (buckets_from_step type).
Qed.

Definition next_post d it d' it' (r : option K) : Prop :=
  d' = (it_begin addr d it).1 ∧ it_safe it' = it_safe it ∧ it_started it' = true ∧
  it_fingerprint it' = it_fingerprint (it_begin addr d it).2 ∧
  r = head (pending d it) ∧ (is_Some r → iter_ok d' it' ∧ pending d' it' = tail (pending d it) ∧ it_entry it' = r).

(** The [return] of an entry of the chain the iterator stands on. *)
Lemma it_return d it k l1 l2 : dict_wf type d → (it_table it < 2)%nat →
  (it_table it = 1%nat → rehashidx d ≠ -1) → 0 ≤ it_index it < size (get_ht d (it_table it)) →
  (it_safe it = true → 0 < iterators d) → keys (chain d (it_table it) (it_index it)) = l1 ++ k :: l2 →
  let it' := DI (it_index it) (it_table it) (it_safe it) (Some k) (head l2) (it_fingerprint it) in
  entry_next d k = Some (head l2) ∧ iter_ok d it' ∧
  pending d it' = l2 ++ buckets_from d (it_table it) (it_index it + 1).
Proof.
  intros Hwf Ht Hsec Hidx Hcnt Hc it'. split; [by eapply entry_next_spec|]. split.
  - split; simpl; try done; [lia|]. intros _. split; [lia|]. intros k' Hk'. rewrite Hc.
    apply elem_of_app. right. apply elem_of_cons. right. by apply head_Some_elem_of.
  - unfold pending. simpl. f_equal. destruct l2 as [|x l2]; simpl; [done|]. rewrite Hc.
    assert (x ∉ l1 ∧ x ≠ k) as [Hx1 Hxk].
    { pose proof (chain_nodup type d (it_table it) (it_index it) Hwf Ht) as Hnd. rewrite Hc in Hnd.
      apply NoDup_app in Hnd as (_ & Hd & Hnd).
      split; [intros Hx; apply (Hd x Hx); rewrite !elem_of_cons; auto|]. apply NoDup_cons in Hnd as [Hk _].
      intros ->. apply Hk. by left. }
    rewrite from_app by done. simpl. rewrite decide_False by congruence. by rewrite decide_True by done.
Qed.

Lemma it_begin_pending d it : dict_wf type d → let '(d1, it1) := it_begin addr d it in
  dict_wf type d1 ∧ pending d1 it1 = pending d it ∧ (∀ t, get_ht d1 t = get_ht d t) ∧ rehashidx d1 = rehashidx d ∧
  it_entry it1 = it_entry it.
Proof.
  intros Hwf. unfold it_begin. destruct (it_started it); [done|].
  destruct (it_safe it); split_and!; try done; try apply wf_iterators; done.
Qed.

Lemma iter_entry_started d it : iter_ok d it → is_Some (it_entry it) → it_started it = true.
Proof.
  intros Hok He. destruct (io_entry _ _ Hok He) as [Hi _]. unfold it_started.
  destruct (Z.eqb_spec (it_index it) (-1)); [lia|done].
Qed.

(** The count of running iterators leaves room for one more. *)
Definition count_ok d it : Prop :=
  it_safe it = true → 0 ≤ iterators d ∧ (it_started it = false → in_u 64 (iterators d + 1)).

Lemma it_begin_count d it : count_ok d it → iter_ok d it → it_safe it = true →
  0 < iterators (it_begin addr d it).1.
Proof.
  intros Hcnt Hok Hs. destruct (Hcnt Hs) as [H0 Hu]. unfold it_begin. destruct (it_started it) eqn:E; [by apply (io_count _ _ Hok)|].
  rewrite Hs. simpl. rewrite uwrap_small by auto. lia.
Qed.

(** What one turn does: the end, an empty bucket, or the next entry. *)
Definition turn_post d it d1 it1 (found : option (option K)) : Prop :=
  d1 = (it_begin addr d it).1 ∧ it_safe it1 = it_safe it ∧ it_started it1 = true ∧
  it_fingerprint it1 = it_fingerprint (it_begin addr d it).2 ∧
  match found with
  | None => pending d it = []
  | Some None => it_entry it1 = None ∧ iter_ok d1 it1 ∧ pending d1 it1 = pending d it ∧
      buckets_left d1 it1 + (if it_entry it then 0 else 1) ≤ buckets_left d it
  | Some (Some k) => ∃ next ks, entry_next d1 k = Some next ∧ pending d it = k :: ks ∧
      let it' := DI (it_index it1) (it_table it1) (it_safe it1) (Some k) next (it_fingerprint it1) in
      iter_ok d1 it' ∧ pending d1 it' = ks
  end.

Lemma it_turn_entry d it : dict_wf type d → iter_ok d it → is_Some (it_entry it) →
  ∃ d1 it1 found, it_turn addr d it = Some (d1, it1, found) ∧ turn_post d it d1 it1 found.
Proof.
  intros Hwf Hok He. pose proof (iter_entry_started _ _ Hok He) as Hst. destruct (io_entry _ _ Hok He) as [Hidx Hnext].
  assert (it_begin addr d it = (d, it)) as Eb by (unfold it_begin; by rewrite Hst).
  destruct He as [e He]. unfold it_turn. rewrite He. eexists _, _, _. split; [done|]. unfold turn_post. rewrite Eb, He.
  do 4 (split; [done|]). pose proof (io_index _ _ Hok). destruct (it_nextEntry it) as [k|] eqn:Hn.
  - destruct (from_elem k _ (Hnext k eq_refl)) as (l1 & l2 & Hc & _ & Hfrom).
    destruct (it_return d it k l1 l2 Hwf (io_table _ _ Hok) (io_second _ _ Hok) ltac:(lia)
      (io_count _ _ Hok Hst) Hc) as (Hen & Hok' & Hp).
    exists (head l2), (l2 ++ buckets_from d (it_table it) (it_index it + 1)). split; [done|].
    split; [unfold pending; by rewrite He, Hn, Hfrom|done].
  - split; [done|]. split; [by destruct Hok|]. split; [unfold pending; simpl; by rewrite He, Hn|].
    unfold buckets_left. simpl. lia.
Qed.

Lemma it_turn_bucket d it : dict_wf type d → sizes_ok d → iter_ok d it → it_entry it = None →
  count_ok d it →
  ∃ d1 it1 found, it_turn addr d it = Some (d1, it1, found) ∧ turn_post d it d1 it1 found.
Proof.
  intros Hwf Hs Hok He Hco. unfold it_turn. rewrite He.
  destruct (it_bucket_spec d it Hwf Hs Hok He) as (d1 & it1 & found & -> & Hd1 & Hsf & Hst & Hfp & Hfound).
  eexists _, _, _. split; [done|]. unfold turn_post. do 4 (split; [done|]).
  pose proof (it_begin_pending d it Hwf) as Hb. pose proof (it_begin_count d it Hco Hok) as Hcnt. rewrite <- Hd1 in Hcnt.
  destruct (it_begin addr d it) as [db itb]. simpl in Hd1. subst db. destruct Hb as (Hwf1 & _ & Hget & Hreh & _).
  assert (∀ t i, buckets_from d1 t i = buckets_from d t i) as Hbf by (intros; unfold buckets_from, tbl; by rewrite !Hget).
  assert (∀ t i, chain d1 t i = chain d t i) as Hch by (intros; unfold chain; by rewrite Hget).
  assert (pending d it = buckets_from d (it_table it) (it_index it + 1)) as Ep by (unfold pending; by rewrite He).
  rewrite Ep. destruct found as [r|]; [|done].
  destruct Hfound as (Hr & He1 & Ht1 & Hsec1 & Hidx1 & Hleft & ->). rewrite <- (Hget (it_table it1)) in Hidx1.
  rewrite <- Hreh in Hsec1. rewrite <- Hch in Hr |- *. destruct (keys (chain d1 _ _)) as [|k l2] eqn:Hc; simpl in Hr; subst r.
  - split; [done|]. split.
    { split; try done; [lia| |]. { intros _ Hsafe. apply Hcnt. congruence. } rewrite He1. intros Hx. by apply is_Some_None in Hx. }
    split; [unfold pending; by rewrite He1, Hbf|]. rewrite He. unfold buckets_left in *. rewrite (Hget 1%nat : ht1 d1 = _), Hget. simpl in *. lia.
  - destruct (it_return d1 it1 k [] l2 Hwf1 Ht1 Hsec1 Hidx1) as (Hen & Hok' & Hp); [|done|].
    { intros Hsafe. apply Hcnt. congruence. }
    exists (head l2), (l2 ++ buckets_from d (it_table it1) (it_index it1 + 1)). split; [done|]. split; [done|]. by rewrite <- Hbf.
Qed.

Lemma dictNext_loop_spec fuel d it : dict_wf type d → sizes_ok d → iter_ok d it →
  count_ok d it →
  buckets_left d it + 2 + (if it_entry it then 1 else 0) ≤ Z.of_nat fuel →
  ∃ d' it' r, dictNext_loop addr fuel d it = Some (d', it', r) ∧ next_post d it d' it' r.
Proof.
  revert d it. induction fuel as [|fuel IH]; intros d it Hwf Hs Hok Hco Hf.
  { unfold buckets_left in Hf. pose proof (io_index _ _ Hok). pose proof (size_nonneg type d 1 Hwf). simpl in *.
    destruct (it_table it); destruct (it_entry it); lia. }
  assert (∃ d1 it1 found, it_turn addr d it = Some (d1, it1, found) ∧ turn_post d it d1 it1 found)
    as (d1 & it1 & found & Et & Hd1 & Hsf & Hst & Hfp & Hfound).
  { destruct (it_entry it) as [e|] eqn:He; [apply it_turn_entry; eauto|by apply it_turn_bucket]. }
  cbn [dictNext_loop]. rewrite Et. cbn [mbind option_bind]. destruct found as [[k|]|].
  - destruct Hfound as (next & ks & -> & Ep & Hok' & Hp). cbn [mbind option_bind]. eexists _, _, _. split; [done|].
    unfold next_post. rewrite Ep. by split_and!.
  - destruct Hfound as (He1 & Hok1 & Hp1 & Hleft).
    pose proof (it_begin_pending d it Hwf) as Hb. destruct (it_begin addr d it) as [db itb] eqn:Eb. simpl in Hd1, Hfp. subst db.
    destruct Hb as (Hwf1 & _ & Hget & _). destruct (IH d1 it1) as (d' & it' & r & -> & Hpost); try done.
    { split; [rewrite (Hget 0%nat : ht0 d1 = _)|rewrite (Hget 1%nat : ht1 d1 = _)]; apply Hs. }
    { intros Hsafe1. rewrite Hst. split; [|done]. rewrite Hsf in Hsafe1. pose proof (it_begin_count d it Hco Hok Hsafe1) as Hc.
      rewrite Eb in Hc. simpl in Hc. lia. }
    { rewrite He1. destruct (it_entry it); lia. }
    eexists _, _, _. split; [done|]. unfold next_post in *. rewrite Eb.
    assert (it_begin addr d1 it1 = (d1, it1)) as Eb1 by (unfold it_begin; by rewrite Hst). rewrite Eb1, Hp1, Hsf in Hpost.
    simpl in *. by rewrite <- Hfp.
  - eexists _, _, _. split; [done|]. unfold next_post. rewrite Hfound. by split_and!.
Qed.
End next_spec.

(** ** The user of a safe iterator changes the table *)

Inductive client_op (K V : Type) :=
  | CAdd (k : K) (x : V)
  | CReplace (k : K) (x : V)
  | CFind (k : K)
  | CDelete (k : K).
Arguments CAdd {K V}.
Arguments CReplace {K V}.
Arguments CFind {K V}.
Arguments CDelete {K V}.

Section evolve.
Context {K V : Type} `{Countable K} (type : dictType K V) `{!DictTypeOk type} (cr : bool).
Implicit Types (d : dict K V) (it : dictIterator K) (c : list (dictEntry K V)).

Definition client (op : client_op K V) d : option (dict K V) :=
  match op with
  | CAdd k x => fst <$> dictAdd type cr d k x
  | CReplace k x => (λ r, r.1.1) <$> dictReplace type cr d k x
  | CFind k => fst <$> dictFind type d k
  | CDelete k => (λ r, r.1.1) <$> dictDelete type d k
  end.

(** The key an operation inserts when it is not there, the key it removes. *)
Definition op_adds (op : client_op K V) d : list K :=
  match op with
  | CAdd k _ | CReplace k _ => if decide (k ∈ keys (entries d)) then [] else [k]
  | _ => []
  end.
Definition op_deletes (op : client_op K V) : option K :=
  match op with CDelete k => Some k | _ => None end.

(** A change that moves no entry: each chain keeps its entries in their order,
    except the deleted one, behind the new ones. *)
Record evolves (new : list K) (gone : option K) d d' : Prop := {
  ev_wf : dict_wf type d';
  ev_sizes : sizes_ok d';
  ev_new k : k ∈ new → k ∉ keys (entries d);
  ev_chain t i : (t < 2)%nat → ∃ pre, pre ⊆ new ∧
    keys (chain d' t i) = pre ++ filter (λ k, gone ≠ Some k) (keys (chain d t i));
  ev_size t : (t < 2)%nat → size (get_ht d t) ≠ 0 → size (get_ht d' t) = size (get_ht d t);
  ev_rehash : rehashidx d ≠ -1 → rehashidx d' ≠ -1;
  ev_iter : iterators d' = iterators d }.

Lemma filter_id (P : K → Prop) `{∀ k, Decision (P k)} (l : list K) : (∀ k, k ∈ l → P k) → filter P l = l.
Proof.
  induction l as [|k l IH]; intros Hl; [done|]. rewrite filter_cons, decide_True by (apply Hl; by left).
  f_equal. apply IH. intros k' Hk'. apply Hl. by right.
Qed.

(** An entry is in one chain only. *)
Lemma chain_ht d t i k : k ∈ keys (chain d t i) → k ∈ keys (ht_entries (get_ht d t)).
Proof.
  unfold chain, ht_entries, bucket. destruct (table (get_ht d t)) as [tb|]; [|by intros ?%elem_of_nil]. simpl.
  case_decide; [|by intros ?%elem_of_nil]. destruct (tb !! Z.to_nat i) as [c|] eqn:Ec; [|by intros ?%elem_of_nil].
  simpl. unfold keys. intros (e & -> & He)%list_elem_of_fmap. apply list_elem_of_fmap. exists e. split; [done|].
  apply list_elem_of_In, in_concat. exists c. rewrite <- !list_elem_of_In. split; [|done]. by eapply list_elem_of_lookup_2.
Qed.

Lemma chain_unique d t t' i j k : dict_wf type d → (t < 2)%nat → (t' < 2)%nat →
  k ∈ keys (chain d t i) → k ∈ keys (chain d t' j) → t = t' ∧ i = j.
Proof.
  intros Hwf Ht Ht' Hi Hj. assert (t = t') as <-.
  { apply chain_ht in Hi, Hj. pose proof (wf_keys _ _ Hwf) as Hnd. unfold entries, keys in *.
    rewrite fmap_app in Hnd. apply NoDup_app in Hnd as (_ & Hd & _).
    destruct t as [|[|]], t' as [|[|]]; simpl in *; try lia; naive_solver. }
  split; [done|]. unfold chain in Hi, Hj.
  destruct (bucket (get_ht d t) i) as [ci|] eqn:Ei; [|by apply elem_of_nil in Hi].
  destruct (bucket (get_ht d t) j) as [cj|] eqn:Ej; [|by apply elem_of_nil in Hj].
  destruct (bucket_alloc type _ _ _ (ht_ok_get type d t Hwf) Ei) as (tb & n & Ha).
  apply (chain_ok_bucket type _ _ _ _ _ Ha) in Ei as [_ Ei]. apply (chain_ok_bucket type _ _ _ _ _ Ha) in Ej as [_ Ej].
  unfold chain_ok in *. rewrite Forall_forall in Ei, Ej. simpl in *. unfold keys in *.
  apply list_elem_of_fmap in Hi as (e & -> & He). apply list_elem_of_fmap in Hj as (e' & E & He').
  rewrite <- (Ei _ He), <- (Ej _ He'). by rewrite E.
Qed.

(** Nothing happens to the chains. *)
Lemma evolves_same gone d : dict_wf type d → sizes_ok d → (∀ k, gone = Some k → k ∉ keys (entries d)) →
  evolves [] gone d d.
Proof.
  intros Hwf Hs Hg. split; try done; [by intros k ?%elem_of_nil|]. intros t i Ht. exists []. split; [done|].
  rewrite filter_id; [done|]. intros k Hk E. apply (Hg k E). by apply (chain_elem d t i).
Qed.

Lemma evolves_trans new gone d d1 d2 : evolves [] None d d1 → evolves new gone d1 d2 →
  keys (entries d1) = keys (entries d) → evolves new gone d d2.
Proof.
  intros [] [] Hk. split; try done; try congruence; auto.
  - intros k Hn. rewrite <- Hk. auto.
  - intros t i Ht. destruct (ev_chain0 t i Ht) as (pre0 & Hp0 & E0). destruct (ev_chain1 t i Ht) as (pre & Hp & E).
    destruct pre0 as [|k pre0]; [|exfalso; by apply (not_elem_of_nil k), Hp0; left].
    exists pre. split; [done|]. rewrite E, E0. by rewrite (filter_id (λ k, None ≠ Some k)).
  - intros t Ht Hz. specialize (ev_size0 t Ht Hz). rewrite ev_size1 by (done || congruence). done.
Qed.

Lemma set_bucket_inv (h h' : dictht K V) i c : set_bucket h i c = Some h' →
  size h' = size h ∧ bucket h' i = Some c ∧ ∀ j, j ≠ i → bucket h' j = bucket h j.
Proof.
  unfold set_bucket, bucket. destruct (table h) as [tb|]; [|done]. simpl. case_decide; [|done].
  intros [= <-]. simpl. split; [done|]. split.
  - rewrite decide_True by lia. apply list_lookup_insert_eq. lia.
  - intros j Hj. case_decide; [|done]. apply list_lookup_insert_ne. lia.
Qed.

(** Replacing one chain. *)
Lemma evolves_set_chain d t i c c' h' u new gone : dict_wf type d → sizes_ok d → (t < 2)%nat →
  bucket (get_ht d t) i = Some c → set_bucket (get_ht d t) i c' = Some h' →
  keys c' = new ++ filter (λ k, gone ≠ Some k) (keys c) →
  (∀ k, k ∈ new → k ∉ keys (entries d)) → (∀ k, gone = Some k → k ∈ keys c) →
  let d' := set_ht d t (set_used h' u) in dict_wf type d' → evolves new gone d d'.
Proof.
  intros Hwf [Hs0 Hs1] Ht Hb Hset Hc Hnew Hgone d' Hwf'.
  destruct (set_bucket_inv _ _ _ _ Hset) as (Hsz & Hb' & Hoth).
  assert (∀ t', (t' < 2)%nat → t' ≠ t ∧ get_ht d' t' = get_ht d t' ∨ t' = t ∧ get_ht d' t' = set_used h' u) as Hget.
  { intros t' Ht'. unfold d'. destruct t as [|[|]], t' as [|[|]]; simpl; auto; lia. }
  split; try done; try (unfold d'; by destruct t).
  - unfold sizes_ok, d'. destruct t; simpl in *; by rewrite Hsz.
  - intros t' j Ht'. assert (chain d t i = c) as Hci by (unfold chain; by rewrite Hb).
    destruct (decide (t' = t ∧ j = i)) as [[-> ->]|Hne].
    + exists new. split; [done|]. destruct (Hget t Ht) as [[? _]|[_ E]]; [done|].
      rewrite Hci. unfold chain. rewrite E. change (bucket (set_used h' u) i) with (bucket h' i). by rewrite Hb'.
    + exists []. split; [apply list_subseteq_nil|]. assert (chain d' t' j = chain d t' j) as ->.
      { unfold chain. destruct (Hget t' Ht') as [[_ ->]|[-> ->]]; [done|].
        change (bucket (set_used h' u) j) with (bucket h' j). rewrite Hoth by naive_solver. done. }
      rewrite filter_id; [done|]. intros k Hk E. specialize (Hgone k E). rewrite <- Hci in Hgone.
      apply Hne. by destruct (chain_unique d t t' i j k).
  - intros t' Ht' _. destruct (Hget t' Ht') as [[_ ->]|[-> ->]]; done.
Qed.
End evolve.

Section client.
Context {K V : Type} `{Countable K} (type : dictType K V) `{!DictTypeOk type} (cr : bool).
Implicit Types (d : dict K V) (it : dictIterator K) (c : list (dictEntry K V)).

Lemma evolves_trans_r new gone d d1 d2 : evolves type new gone d d1 → evolves type [] None d1 d2 →
  evolves type new gone d d2.
Proof.
  intros [] []. split; try done; try congruence; auto.
  - intros t i Ht. destruct (ev_chain0 t i Ht) as (pre0 & Hp0 & E0). destruct (ev_chain1 t i Ht) as (pre & Hp & E).
    destruct pre as [|k pre]; [|exfalso; by apply (not_elem_of_nil k), Hp; left].
    exists pre0. split; [done|]. rewrite E, <- E0. by rewrite (filter_id (λ k, None ≠ Some k)).
  - intros t Ht Hz. specialize (ev_size0 t Ht Hz). rewrite ev_size1 by (done || congruence). done.
Qed.

(** The running iterator holds the rehash back. *)
Lemma maybe_step_paused d : iterators d ≠ 0 → maybe_step type d = Some d.
Proof.
  intros Hi. unfold maybe_step, _dictRehashStep. destruct (dictIsRehashing d); [|done].
  by rewrite (proj2 (Z.eqb_neq _ _) Hi).
Qed.

Lemma chain_empty d t i : ht_entries (get_ht d t) = [] → keys (chain d t i) = [].
Proof.
  intros E. destruct (keys (chain d t i)) as [|k l] eqn:Ek; [done|]. exfalso.
  apply (not_elem_of_nil k). change (@nil K) with (keys (@nil (dictEntry K V))). rewrite <- E.
  apply (chain_ht d t i). rewrite Ek. by left.
Qed.

Lemma expand_sizes d sz d' : dict_wf type d → sizes_ok d → 0 ≤ sz ≤ 2 ^ 60 →
  dictExpand d sz = (d', DICT_OK) → sizes_ok d'.
Proof.
  intros Hwf [Hs0 Hs1] Hsz He. destruct (nextPower_cases sz) as (k & Hk & Hkr & Hge & Hle); [lia|].
  unfold dictExpand in He. case_match; [done|]. case_match; [done|]. rewrite Hk in He.
  assert (2 ^ k < 2 ^ 63).
  { apply Z.pow_lt_mono_r; [lia..|]. destruct Hle as [->|Hlt]; [lia|].
    assert (2 ^ (k - 1) < 2 ^ 60) as Hp by lia. apply Z.pow_lt_mono_r_iff in Hp; lia. }
  case_match; injection He as <-; by split.
Qed.

Lemma dictExpand_evolves d sz d' : dict_wf type d → sizes_ok d → 0 ≤ sz ≤ 2 ^ 60 →
  dictExpand d sz = (d', DICT_OK) → evolves type [] None d d'.
Proof.
  intros Hwf Hs Hsz He. pose proof (expand_sizes d sz d' Hwf Hs Hsz He) as Hs'.
  destruct (dictExpand_cases type d sz Hwf) as [[E _]|(d1 & E & Hr & _ & _ & [Hwf' Hen Hit Hal] & Hnone & Hsome)];
    [unfold in_u; lia|by rewrite E in He|]. rewrite E in He. injection He as ->.
  pose proof (wf_idle _ _ Hwf Hr) as H1. unfold entries in Hen. rewrite H1 in Hen.
  change (ht_entries _dictReset) with (@nil (dictEntry K V)) in Hen. rewrite app_nil_r in Hen.
  split; try done; [by intros k ?%elem_of_nil| |].
  - intros t i Ht. exists []. split; [done|]. rewrite (filter_id (λ k, None ≠ Some k)) by done. simpl.
    destruct (table (ht0 d)) as [tb|] eqn:Et.
    + destruct Hsome as (_ & _ & E0); [done|]. rewrite E0 in Hen.
      destruct t as [|t]; [unfold chain; simpl; by rewrite E0|].
      rewrite !chain_empty; [done|simpl; by rewrite H1|]. simpl.
      apply (app_inv_head (ht_entries (ht0 d))). by rewrite Hen, app_nil_r.
    + assert (ht_entries (ht0 d) = []) as E0 by (unfold ht_entries; by rewrite Et).
      rewrite E0 in Hen. apply app_nil in Hen as [Hen0 Hen1].
      rewrite !chain_empty; [done|destruct t; simpl; [done|by rewrite H1]|by destruct t].
  - intros t Ht Hz. destruct t as [|t]; simpl in *; [|by rewrite H1 in Hz].
    destruct (table (ht0 d)) as [tb|] eqn:Et; [destruct Hsome as (_ & _ & ->); done|].
    destruct (wf_ht0 _ _ Hwf) as [E0|(tb & k & Ha)]; [by rewrite E0 in Hz|].
    by rewrite (ha_table _ _ _ _ Ha) in Et.
Qed.

Lemma expandIfNeeded_evolves d d' : dict_wf type d → sizes_ok d →
  _dictExpandIfNeeded cr d = (d', DICT_OK) → evolves type [] None d d'.
Proof.
  intros Hwf Hs He. pose proof (evolves_same type None d Hwf Hs ltac:(done)) as Hsame.
  pose proof (used_bounds type _ Hwf) as (Hu0 & Hu1 & _ & Hmax). unfold MAX_ENTRIES in Hmax.
  unfold _dictExpandIfNeeded in He. destruct (dictIsRehashing d); [by injection He as <-|].
  case_match; [apply (dictExpand_evolves d _ d' Hwf Hs) in He; [done|unfold DICT_HT_INITIAL_SIZE; lia]|].
  case_match; [|by injection He as <-]. rewrite uwrap_small in He by (unfold in_u; lia).
  apply (dictExpand_evolves d _ d' Hwf Hs) in He; [done|lia].
Qed.

Lemma dictSetVal_evolves d r e x : dict_wf type d → sizes_ok d → deref d r = Some e →
  ∃ d', dictSetVal type d r x = Some d' ∧ evolves type [] None d d'.
Proof.
  intros Hwf Hs Hd. destruct (dictSetVal_spec type d r e x Hwf Hd) as (d' & rest & Hset & Hwf' & _).
  exists d'. split; [done|].
  unfold dictSetVal in Hset. apply bind_Some in Hset as (c & Hc & Hset). apply bind_Some in Hset as (e' & He' & Hset).
  apply bind_Some in Hset as (h' & Hh' & [= <-]). destruct r as [t i p]. simpl in *.
  assert (set_ht d t h' = set_ht d t (set_used h' (used h'))) as E by (by rewrite set_used_id). rewrite E in *.
  assert (keys (<[p := DE (key e') (Some (dup_val type x))]> c) = keys c) as Hk.
  { unfold keys. rewrite list_fmap_insert. simpl. apply list_insert_id.
    by rewrite list_lookup_fmap, He'. }
  destruct t as [|t].
  - apply (evolves_set_chain type d 0 i c (<[p := DE (key e') (Some (dup_val type x))]> c) h' (used h') [] None Hwf Hs);
      try done; [lia|by rewrite filter_id|by intros ? ?%elem_of_nil].
  - apply (evolves_set_chain type d 1 i c (<[p := DE (key e') (Some (dup_val type x))]> c) h' (used h') [] None Hwf Hs);
      try done; [lia|by rewrite filter_id|by intros ? ?%elem_of_nil].
Qed.

Lemma dictAddRaw_evolves d k : dict_wf type d → sizes_ok d → iterators d ≠ 0 →
  Z.of_nat (length (entries d)) < MAX_ENTRIES →
  ∃ d' e ex, dictAddRaw type cr d k = Some (d', e, ex) ∧
    evolves type (if decide (k ∈ keys (entries d)) then [] else [k]) None d d' ∧
    match e with
    | Some r => ∃ x, deref d' r = Some x
    | None => ∃ r x, ex = Some r ∧ deref d' r = Some x
    end.
Proof.
  intros Hwf Hs Hi Hmax.
  destruct (dictAddRaw_spec type cr d k Hwf Hmax) as (d' & e & ex & Hraw & Hwf' & Hcase).
  exists d', e, ex. split; [done|]. split; [|destruct Hcase as [(_ & -> & _ & ?)|(_ & _ & _ & ? & -> & ?)]; naive_solver].
  clear Hcase. unfold dictAddRaw in Hraw. rewrite (maybe_step_paused d Hi) in Hraw. cbn [mbind option_bind] in Hraw.
  destruct (keyIndex_spec type cr d k Hwf) as (d2 & idx & ex2 & Hki & Hx & Hcase). rewrite Hki in Hraw.
  assert (evolves type [] None d d2) as Hev2.
  { unfold _dictKeyIndex in Hki. destruct (expandIfNeeded_spec type cr d Hwf) as (d3 & Hd3 & _). rewrite Hd3 in Hki.
    simpl in Hki. apply bind_Some in Hki as (r & _ & Hr). destruct r; injection Hr as -> _ _; by apply expandIfNeeded_evolves. }
  cbn [mbind option_bind] in Hraw. pose proof (ep_entries _ _ _ Hx) as He2.
  destruct Hcase as [(-> & Hk & _)|(Hidx & Hk & -> & Heq & c & Hb)].
  - simpl in Hraw. injection Hraw as <- _ _. by rewrite decide_True by done.
  - rewrite (proj2 (Z.eqb_neq _ _)) in Hraw by lia. rewrite decide_False by done.
    apply bind_Some in Hraw as (c' & Hc' & Hraw). rewrite Hc' in Hb. injection Hb as ->.
    apply bind_Some in Hraw as (h' & Hh' & [= <- _ _]). rewrite dup_key_eq in Hh' by done.
    eapply evolves_trans; [exact Hev2| |by rewrite He2].
    eapply evolves_set_chain; [apply Hx|apply Hev2|by destruct (dictIsRehashing d2); lia|exact Hc'|exact Hh'| | |done|exact Hwf'].
    + simpl. by rewrite filter_id.
    + intros k' ->%list_elem_of_singleton. by rewrite He2.
Qed.
End client.

Section client_spec.
Context {K V : Type} `{Countable K} (type : dictType K V) `{!DictTypeOk type} (cr : bool).
Implicit Types (d : dict K V) (it : dictIterator K) (c : list (dictEntry K V)).

Lemma filter_one (k : K) l1 l2 : NoDup (l1 ++ k :: l2) →
  filter (λ x, Some k ≠ Some x) (l1 ++ k :: l2) = l1 ++ l2.
Proof.
  intros Hnd. apply NoDup_app in Hnd as (_ & Hd & Hnd). apply NoDup_cons in Hnd as [Hk _].
  rewrite filter_app, filter_cons, decide_False by naive_solver. rewrite !filter_id; [done| |].
  - intros x Hx [= ->]. done.
  - intros x Hx [= ->]. apply (Hd x Hx). by left.
Qed.

Lemma dictDelete_evolves d k : dict_wf type d → sizes_ok d → iterators d ≠ 0 →
  ∃ d' rc fr, dictDelete type d k = Some (d', rc, fr) ∧ evolves type [] (Some k) d d'.
Proof.
  intros Hwf Hs Hi. unfold dictDelete.
  destruct (dictGenericDelete_spec type d k false Hwf) as (d' & he & fr & Hg & Hwf' & Hm & Hcase).
  rewrite Hg. cbn [mbind option_bind]. eexists _, _, _. split; [done|].
  assert (he = None → evolves type [] (Some k) d d) as Hnone.
  { intros ->. destruct Hcase as [Hn _]. apply evolves_same; [done..|]. intros k' [= <-]. by apply dict_map_None. }
  unfold dictGenericDelete in Hg. destruct (_ && _) in Hg; [injection Hg as <- <- _; by apply Hnone|].
  rewrite (maybe_step_paused type d Hi) in Hg. cbn [mbind option_bind] in Hg.
  apply bind_Some in Hg as (r & Hr & Hg). destruct r as [[t i p]|]; [|injection Hg as <- <- _; by apply Hnone].
  apply bind_Some in Hg as (c & Hc & Hg). apply bind_Some in Hg as (e & He & Hg).
  apply bind_Some in Hg as (h' & Hh' & [= <- <- _]). destruct Hcase as (Hk & _ & _).
  assert (t < 2)%nat as Ht.
  { unfold lookup_tables in Hr. apply bind_Some in Hr as (c0 & _ & Hr). destruct (find_chain _ _ _); [injection Hr as <- _ _; lia|].
    destruct (negb _); [done|]. apply bind_Some in Hr as (c1 & _ & Hr).
    destruct (find_chain _ _ _); [injection Hr as <- _ _; lia|done]. }
  assert (keys c = keys (take p c) ++ k :: keys (drop (S p) c)) as Hkc.
  { rewrite <- (take_drop_middle c p e He) at 1. unfold keys. rewrite fmap_app. simpl. by rewrite Hk. }
  eapply evolves_set_chain; [done..| | | |done].
  - rewrite Hkc. rewrite filter_one; [by unfold keys; rewrite fmap_app|]. rewrite <- Hkc.
    pose proof (chain_nodup type d t i Hwf Ht) as Hnd. unfold chain in Hnd. by rewrite Hc in Hnd.
  - by intros ? ?%elem_of_nil.
  - intros k' [= <-]. rewrite Hkc. apply elem_of_app. right. by left.
Qed.

(** Every operation succeeds while the iterator runs, and moves no entry. *)
Lemma client_evolves op d : dict_wf type d → sizes_ok d → iterators d ≠ 0 →
  Z.of_nat (length (entries d)) < MAX_ENTRIES →
  ∃ d', client type cr op d = Some d' ∧ evolves type (op_adds op d) (op_deletes op) d d'.
Proof.
  intros Hwf Hs Hi Hmax. destruct op as [k x|k x|k|k]; simpl.
  - destruct (dictAddRaw_evolves type cr d k Hwf Hs Hi Hmax) as (d1 & e & ex & Hraw & Hev & Hr). unfold dictAdd.
    rewrite Hraw. cbn [mbind option_bind]. destruct e as [r|]; [|by exists d1].
    destruct Hr as (y & Hy).
    destruct (dictSetVal_evolves type d1 r y x (ev_wf _ _ _ _ _ Hev) (ev_sizes _ _ _ _ _ Hev) Hy) as (d2 & -> & Hev2).
    exists d2. split; [done|]. by eapply evolves_trans_r.
  - destruct (dictAddRaw_evolves type cr d k Hwf Hs Hi Hmax) as (d1 & e & ex & Hraw & Hev & Hr). unfold dictReplace.
    rewrite Hraw. cbn [mbind option_bind].
    pose proof (λ r y, dictSetVal_evolves type d1 r y x (ev_wf _ _ _ _ _ Hev) (ev_sizes _ _ _ _ _ Hev)) as Hset.
    destruct e as [r|]; [destruct Hr as (y & Hy)|destruct Hr as (r & y & -> & Hy); cbn [mbind option_bind];
      rewrite Hy; cbn [mbind option_bind]];
      destruct (Hset r y Hy) as (d2 & -> & Hev2); (exists d2; split; [done|]); by eapply evolves_trans_r.
  - destruct (dictFind_spec type d k Hwf) as (d' & r & Hf & _). rewrite Hf. exists d'. split; [done|].
    assert (d' = d) as ->; [|by apply evolves_same].
    unfold dictFind in Hf. case_match; [by injection Hf as -> _|]. rewrite (maybe_step_paused type d Hi) in Hf.
    cbn [mbind option_bind] in Hf. by apply bind_Some in Hf as (? & _ & [= -> _]).
  - destruct (dictDelete_evolves d k Hwf Hs Hi) as (d' & rc & fr & -> & Hev). by exists d'.
Qed.
End client_spec.

(** ** An iteration *)

Section evolve_pending.
Context {K V : Type} `{Countable K} (type : dictType K V) `{!DictTypeOk type}.
Implicit Types (d : dict K V) (it : dictIterator K) (c : list (dictEntry K V)).

Lemma elem_of_tbl_from d t i k : 0 ≤ i →
  k ∈ keys (concat (drop (Z.to_nat i) (tbl d t))) ↔ ∃ j, i ≤ j ∧ k ∈ keys (chain d t j).
Proof.
  intros Hi. unfold keys. rewrite list_elem_of_fmap. split.
  - intros (e & -> & (c & Hc & He)%list_elem_of_In%in_concat). apply list_elem_of_In, list_elem_of_lookup in Hc as [n Hn].
    rewrite lookup_drop in Hn. exists (i + Z.of_nat n). split; [lia|]. rewrite (chain_lookup d t) by lia.
    replace (Z.to_nat (i + Z.of_nat n)) with (Z.to_nat i + n)%nat by lia. rewrite Hn. simpl.
    apply list_elem_of_fmap. exists e. by rewrite list_elem_of_In.
  - intros (j & Hj & (e & -> & He)%list_elem_of_fmap). exists e. split; [done|]. rewrite (chain_lookup d t) in He by lia.
    destruct (tbl d t !! Z.to_nat j) as [c|] eqn:Ec; [|by apply elem_of_nil in He].
    apply list_elem_of_In, in_concat. exists c. rewrite <- !list_elem_of_In. split; [|done].
    apply list_elem_of_lookup. exists (Z.to_nat j - Z.to_nat i)%nat. rewrite lookup_drop. rewrite <- Ec. f_equal. lia.
Qed.

Lemma elem_of_buckets_from d t i k : 0 ≤ i → k ∈ buckets_from d t i ↔
  ∃ t' j, (t' = t ∧ i ≤ j ∨ t = 0%nat ∧ t' = 1%nat ∧ 0 ≤ j) ∧ k ∈ keys (chain d t' j).
Proof.
  intros Hi. unfold buckets_from. rewrite elem_of_app, (elem_of_tbl_from d t i) by done. split.
  - intros [(j & Hj & Hk)|Hk]; [exists t, j; auto|]. destruct t as [|t]; [|by apply elem_of_nil in Hk].
    rewrite <- (drop_0 (tbl d 1)) in Hk. change 0%nat with (Z.to_nat 0) in Hk. apply elem_of_tbl_from in Hk as (j & Hj & Hk); [|lia].
    exists 1%nat, j. auto.
  - intros (t' & j & [[-> Hj]|(-> & -> & Hj)] & Hk); [eauto|]. right. rewrite <- (drop_0 (tbl d 1)).
    change 0%nat with (Z.to_nat 0). apply elem_of_tbl_from; [lia|]. eauto.
Qed.

Lemma evolves_chain_elem new gone d d' t i k : evolves type new gone d d' → (t < 2)%nat →
  (k ∈ keys (chain d t i) → gone ≠ Some k → k ∈ keys (chain d' t i)) ∧
  (k ∈ keys (chain d' t i) → k ∈ new ∨ k ∈ keys (chain d t i) ∧ gone ≠ Some k).
Proof.
  intros Hev Ht. destruct (ev_chain _ _ _ _ _ Hev t i Ht) as (pre & Hpre & ->). rewrite elem_of_app, list_elem_of_filter.
  split; [auto|]. intros [Hk|[Hg Hk]]; [left; by apply Hpre|auto].
Qed.

(** What a change does to the keys still to be returned. *)
Lemma evolves_pending new gone d d' it : dict_wf type d → iter_ok d it → evolves type new gone d d' →
  (∀ k, gone = Some k → it_nextEntry it ≠ Some k) →
  iter_ok d' it ∧ (∀ k, k ∈ pending d it → gone ≠ Some k → k ∈ pending d' it) ∧
  (∀ k, k ∈ pending d' it → k ∈ new ∨ k ∈ pending d it ∧ gone ≠ Some k).
Proof.
  intros Hwf [Ht Hsec Hidx Hcnt Hent] Hev Hgone.
  assert (∀ n, is_Some (it_entry it) → it_nextEntry it = Some n →
    from n (keys (chain d' (it_table it) (it_index it))) =
    filter (λ k, gone ≠ Some k) (from n (keys (chain d (it_table it) (it_index it))))) as Hfrom.
  { intros n He Hn. destruct (ev_chain _ _ _ _ _ Hev _ (it_index it) Ht) as (pre & Hpre & ->).
    destruct (Hent He) as [_ Hin]. rewrite from_app; [rewrite from_filter; [done|naive_solver]|].
    intros Hp%Hpre. apply (ev_new _ _ _ _ _ Hev _ Hp). by apply (chain_elem d _ _ _ Ht (Hin n Hn)). }
  assert (∀ k, k ∈ buckets_from d (it_table it) (it_index it + 1) → gone ≠ Some k →
    k ∈ buckets_from d' (it_table it) (it_index it + 1)) as Hfwd.
  { intros k. rewrite !elem_of_buckets_from by lia. intros (t' & j & Hj & Hk) Hg. exists t', j. split; [done|].
    eapply evolves_chain_elem; [done| |done..]. lia. }
  assert (∀ k, k ∈ buckets_from d' (it_table it) (it_index it + 1) →
    k ∈ new ∨ k ∈ buckets_from d (it_table it) (it_index it + 1) ∧ gone ≠ Some k) as Hbwd.
  { intros k. rewrite !elem_of_buckets_from by lia. intros (t' & j & Hj & Hk).
    eapply evolves_chain_elem in Hk as [?|[? ?]]; [by left| |done|lia]. right. split; [|done]. eauto. }
  split_and!.
  - split; try done; [by intros ?; apply (ev_rehash _ _ _ _ _ Hev), Hsec| | |].
    + destruct (decide (size (get_ht d (it_table it)) = 0)) as [E|Hne].
      * pose proof (size_nonneg type d' (it_table it) (ev_wf _ _ _ _ _ Hev)). lia.
      * by rewrite (ev_size _ _ _ _ _ Hev).
    + rewrite (ev_iter _ _ _ _ _ Hev). done.
    + intros He. destruct (Hent He) as [Hi Hin]. split; [done|]. intros n Hn.
      eapply evolves_chain_elem; [done|done|by apply Hin|naive_solver].
  - intros k. unfold pending. rewrite !elem_of_app. intros [Hk|Hk] Hg; [left|right; by apply Hfwd].
    destruct (it_entry it) as [e|]; [|done]. destruct (it_nextEntry it) as [n|] eqn:En; [|done].
    rewrite Hfrom by eauto. by apply list_elem_of_filter.
  - intros k. unfold pending. rewrite !elem_of_app. intros [Hk|Hk]; [|destruct (Hbwd k Hk); naive_solver].
    destruct (it_entry it) as [e|]; [|by apply elem_of_nil in Hk]. destruct (it_nextEntry it) as [n|] eqn:En; [|by apply elem_of_nil in Hk].
    rewrite Hfrom in Hk by eauto. apply list_elem_of_filter in Hk. naive_solver.
Qed.
End evolve_pending.

Section walk.
Context {K V : Type} `{Countable K} (type : dictType K V) `{!DictTypeOk type} (cr : bool) (addr : nat → Z).
Implicit Types (d : dict K V) (it : dictIterator K) (op : client_op K V).

(** Enough fuel. *)
Lemma dictNext_spec d it : dict_wf type d → sizes_ok d → iter_ok d it →
  count_ok d it →
  ∃ d' it' r, dictNext addr d it = Some (d', it', r) ∧ next_post addr d it d' it' r.
Proof.
  intros Hwf Hs Hok Hco. apply (dictNext_loop_spec type); try done. unfold buckets_left, next_fuel.
  pose proof (size_nonneg type d 0 Hwf). pose proof (size_nonneg type d 1 Hwf). pose proof (io_index _ _ Hok).
  destruct (it_table it), (it_entry it); simpl in *; lia.
Qed.

Lemma fresh_iter_ok d safe : dict_wf type d → iter_ok d (DI (-1) 0 safe None None None).
Proof.
  intros Hwf. pose proof (size_nonneg type d 0 Hwf). split; simpl in *; done || lia.
Qed.

Lemma fresh_pending d safe : pending d (DI (-1) 0 safe None None None) = keys (entries d).
Proof. unfold pending, buckets_from. simpl. by rewrite tbl_entries. Qed.

Lemma buckets_from_sublist d t i : (t < 2)%nat → buckets_from d t i `sublist_of` keys (entries d).
Proof.
  intros Ht. rewrite tbl_entries. unfold buckets_from, keys.
  assert (∀ n (tb : list (list (dictEntry K V))), key <$> concat (drop n tb) `sublist_of` key <$> concat tb) as Hd.
  { intros n tb. rewrite <- (take_drop n tb) at 2. rewrite concat_app, fmap_app. by apply sublist_inserts_l. }
  destruct t as [|[|]]; [|rewrite app_nil_r|lia].
  - by apply sublist_app.
  - by apply sublist_inserts_l.
Qed.

Lemma pending_sublist d it : dict_wf type d → iter_ok d it → pending d it `sublist_of` keys (entries d).
Proof.
  intros Hwf [Ht Hsec Hidx _ Hent]. unfold pending.
  destruct (it_entry it) as [e|]; [|by apply buckets_from_sublist].
  destruct (it_nextEntry it) as [n|]; [|by apply buckets_from_sublist]. destruct (Hent ltac:(eauto)) as [Hi _].
  transitivity (buckets_from d (it_table it) (it_index it)); [|by apply buckets_from_sublist].
  rewrite (buckets_from_step type d (it_table it) (it_index it)) by (done || lia). apply sublist_app; [|done]. apply from_sublist.
Qed.

Lemma pending_nodup d it : dict_wf type d → iter_ok d it → NoDup (pending d it).
Proof. intros Hwf Hok. eapply sublist_NoDup; [apply (wf_keys _ _ Hwf)|by apply pending_sublist]. Qed.

(** The state of an iteration: the entries returned so far, the keys the user
    inserted, and the keys it deleted before they were returned. *)
Record walk := W {
  w_d : dict K V;
  w_it : dictIterator K;
  w_seen : list K;
  w_added : list K;
  w_lost : list K }.

Definition op_loses op (seen : list K) : list K :=
  match op_deletes op with
  | Some k => if decide (k ∈ seen) then [] else [k]
  | None => []
  end.

(** Between two calls of [dictNext] the user may add, replace, find and delete
    any key, except that it may not delete the entry that comes next in the
    chain: the iterator holds a pointer to it. *)
Inductive wstep : walk → walk → Prop :=
  | W_next d it seen added lost d' it' k :
      dictNext addr d it = Some (d', it', Some k) →
      wstep (W d it seen added lost) (W d' it' (seen ++ [k]) added lost)
  | W_client op d it seen added lost d' :
      is_Some (it_entry it) →
      (∀ k, op_deletes op = Some k → it_nextEntry it ≠ Some k) →
      Z.of_nat (length (entries d)) < MAX_ENTRIES →
      client type cr op d = Some d' →
      wstep (W d it seen added lost)
            (W d' it seen (added ++ op_adds op d) (lost ++ op_loses op seen)).

Record walk_inv (d0 : dict K V) (w : walk) : Prop := {
  wi_wf : dict_wf type (w_d w);
  wi_sizes : sizes_ok (w_d w);
  wi_iter : iter_ok (w_d w) (w_it w);
  wi_safe : it_safe (w_it w) = true;
  wi_count : iterators (w_d w) = iterators d0 + (if it_started (w_it w) then 1 else 0);
  wi_all k : k ∈ keys (entries d0) → k ∈ w_seen w ∨ k ∈ w_lost w ∨ k ∈ pending (w_d w) (w_it w);
  wi_once k : k ∈ pending (w_d w) (w_it w) → k ∈ w_seen w → k ∈ w_added w;
  wi_nodup i j k : w_seen w !! i = Some k → w_seen w !! j = Some k → k ∉ w_added w → i = j;
  wi_seen k : k ∈ w_seen w → k ∈ keys (entries d0) ∨ k ∈ w_added w;
  wi_pending k : k ∈ pending (w_d w) (w_it w) → k ∈ keys (entries d0) ∨ k ∈ w_added w }.

Lemma walk_inv_start d0 : dict_wf type d0 → sizes_ok d0 →
  walk_inv d0 (W d0 dictGetSafeIterator [] [] []).
Proof.
  intros Hwf Hs. split; simpl; try done.
  - by apply fresh_iter_ok.
  - lia.
  - intros k Hk. right; right. change dictGetSafeIterator with (DI (-1) 0 true (@None K) None None). by rewrite fresh_pending.
  - by intros k ?%elem_of_nil.
  - intros k. change dictGetSafeIterator with (DI (-1) 0 true (@None K) None None). rewrite fresh_pending. auto.
Qed.

Lemma walk_inv_next d0 w d' it' k : in_u 64 (iterators d0 + 1) → 0 ≤ iterators d0 → walk_inv d0 w →
  dictNext addr (w_d w) (w_it w) = Some (d', it', Some k) →
  walk_inv d0 (W d' it' (w_seen w ++ [k]) (w_added w) (w_lost w)).
Proof.
  intros Hu H0 [Hwf Hs Hok Hsafe Hcnt Hall Honce Hnd Hseen Hpend] Hn. destruct w as [d it seen added lost]. simpl in *.
  destruct (dictNext_spec d it Hwf Hs Hok) as (d1 & it1 & r & E & Hd & Hsf & Hst & _ & Hr & Hnext).
  { intros _. split; [destruct (it_started it); lia|]. intros Hx. by rewrite Hcnt, Hx, Z.add_0_r. }
  rewrite Hn in E. injection E as <- <- <-. destruct Hnext as (Hok' & Hp' & He'); [done|].
  pose proof (pending_nodup d it Hwf Hok) as Hpnd. destruct (pending d it) as [|k' ks] eqn:Ep; [done|]. injection Hr as ->.
  apply NoDup_cons in Hpnd as [Hk' _]. simpl in Hp'.
  pose proof (it_begin_pending type addr d it Hwf) as Hb. destruct (it_begin addr d it) as [db itb] eqn:Eb. simpl in Hd. subst d'.
  destruct Hb as (Hwf' & _ & Hget & _). split; simpl; try done; try congruence.
  - split; [rewrite (Hget 0%nat : ht0 db = _)|rewrite (Hget 1%nat : ht1 db = _)]; apply Hs.
  - unfold it_begin in Eb. rewrite Hst. destruct (it_started it); [by injection Eb as <- _|].
    rewrite Hsafe in Eb. injection Eb as <- _. simpl. rewrite Hcnt, Z.add_0_r. by apply uwrap_small.
  - intros x Hx. rewrite Hp', elem_of_app. destruct (Hall x Hx) as [?|[?|[-> | ?]%elem_of_cons]]; auto. left; right. by left.
  - intros x. rewrite Hp', elem_of_app, list_elem_of_singleton. intros Hx [Hx' | ->]; [|done]. apply Honce; [by right|done].
  - intros i j x. rewrite !lookup_snoc_Some. intros [[Hi Hix]|[Hi ->]] [[Hj Hjx]|[Hj Ejx]] Hx; try (by eapply Hnd); try lia.
    + subst x. exfalso. apply Hx, Honce; [by left|]. by eapply list_elem_of_lookup_2.
    + exfalso. apply Hx, Honce; [by left|]. by eapply list_elem_of_lookup_2.
  - intros x. rewrite elem_of_app, list_elem_of_singleton. intros [Hx| ->]; [by apply Hseen|]. apply Hpend. by left.
  - intros x Hx. apply Hpend. rewrite Hp' in Hx. by right.
Qed.

Lemma walk_inv_client d0 op w d' : 0 ≤ iterators d0 → walk_inv d0 w → is_Some (it_entry (w_it w)) →
  (∀ k, op_deletes op = Some k → it_nextEntry (w_it w) ≠ Some k) →
  Z.of_nat (length (entries (w_d w))) < MAX_ENTRIES → client type cr op (w_d w) = Some d' →
  walk_inv d0 (W d' (w_it w) (w_seen w) (w_added w ++ op_adds op (w_d w)) (w_lost w ++ op_loses op (w_seen w))).
Proof.
  intros H0 [Hwf Hs Hok Hsafe Hcnt Hall Honce Hnd Hseen Hpend] He Hdel Hmax Hc. destruct w as [d it seen added lost]. simpl in *.
  pose proof (iter_entry_started _ _ Hok He) as Hst. rewrite Hst in Hcnt.
  destruct (client_evolves type cr op d Hwf Hs) as (d1 & E & Hev); [lia|done|]. rewrite Hc in E. injection E as <-.
  destruct (evolves_pending type _ _ _ _ _ Hwf Hok Hev Hdel) as (Hok' & Hfwd & Hbwd).
  split; simpl; try done; try apply Hev.
  - rewrite Hst, (ev_iter _ _ _ _ _ Hev). done.
  - intros k Hk. rewrite elem_of_app. destruct (Hall k Hk) as [?|[?|Hp]]; auto.
    unfold op_loses. destruct (decide (op_deletes op = Some k)) as [->|Hne]; [|by auto].
    destruct (decide (k ∈ seen)); [by left|]. right; left; right. by left.
  - intros k Hk Hsn. rewrite elem_of_app. destruct (Hbwd k Hk) as [?|[? _]]; auto.
  - intros i j k Hi Hj. rewrite elem_of_app. intros Hk. eapply Hnd; eauto.
  - intros k Hk. rewrite elem_of_app. destruct (Hseen k Hk); auto.
  - intros k Hk. rewrite elem_of_app. destruct (Hbwd k Hk) as [?|[Hp _]]; auto. destruct (Hpend k Hp); auto.
Qed.
End walk.

Section theorems.
Context {K V : Type} `{Countable K} (type : dictType K V) `{!DictTypeOk type} (cr : bool) (addr : nat → Z).
Implicit Types (d : dict K V) (it : dictIterator K) (op : client_op K V).

Lemma walk_inv_reachable d0 w : dict_wf type d0 → sizes_ok d0 → in_u 64 (iterators d0 + 1) → 0 ≤ iterators d0 →
  rtc (wstep type cr addr) (W d0 dictGetSafeIterator [] [] []) w → walk_inv type d0 w.
Proof.
  intros Hwf Hs Hu H0. apply (rtc_ind_r (walk_inv type d0)).
  - by apply walk_inv_start.
  - intros w1 w2 _ Hstep Hinv. destruct Hstep as [d it seen added lost d' it' k Hn|op d it seen added lost d' He Hdel Hmax Hc].
    + by apply (walk_inv_next type addr d0 (W d it seen added lost)).
    + by apply (walk_inv_client type cr d0 op (W d it seen added lost)).
Qed.

(** An entry that is not in the table was freed. *)
Lemma entry_next_freed d k : k ∉ keys (entries d) → entry_next d k = None.
Proof.
  unfold entry_next, entries, ht_entries, chains, keys. rewrite fmap_app, not_elem_of_app. intros [H0 H1]. by rewrite omap_app, !omap_chain_next_nil.
Qed.

Lemma deleted_next d it k d' : dict_wf type d → is_Some (it_entry it) → it_nextEntry it = Some k → client type cr (CDelete k) d = Some d' → dictNext addr d' it = None.
Proof.
  intros Hwf [e He] Hn Hc. simpl in Hc. unfold dictDelete in Hc. destruct (dictGenericDelete_spec type d k false Hwf) as (d1 & he & fr & E & Hwf' & Hm & _). rewrite E in Hc. injection Hc as <-.
  assert (entry_next d1 k = None) as Hnone by (apply entry_next_freed, dict_map_None; rewrite Hm; apply lookup_delete_eq).
  unfold dictNext, next_fuel. rewrite Nat.add_comm. cbn [Nat.add dictNext_loop]. unfold it_turn. rewrite He, Hn. cbn [mbind option_bind]. by rewrite Hnone.
Qed.

(** C2. The user of a safe iterator may add, replace, find and delete any key
    between two entries except the one entry that comes next in the chain, to
    which the iterator holds a pointer. As long as that one is not deleted, the
    next call of [dictNext] is defined and touches no freed entry, and so is
    every further operation of the user; deleting it is what makes the next call
    use freed memory, always. An entry that is returned is in
    the table; no key that was not inserted meanwhile is returned twice; and
    when [NULL] is returned, each key of the original table was returned or
    was deleted before its turn, and releasing the iterator restores the count
    of running iterators. *)
Theorem safe_iteration_correct d0 d it seen added lost :
  dict_wf type d0 → sizes_ok d0 → in_u 64 (iterators d0 + 1) → 0 ≤ iterators d0 →
  rtc (wstep type cr addr) (W d0 dictGetSafeIterator [] [] []) (W d it seen added lost) →
  dict_wf type d ∧
  (∀ i j k, seen !! i = Some k → seen !! j = Some k → k ∉ added → i = j) ∧
  (∀ k, k ∈ seen → k ∈ keys (entries d0) ∨ k ∈ added) ∧
  (is_Some (it_entry it) → Z.of_nat (length (entries d)) < MAX_ENTRIES → ∀ op, is_Some (client type cr op d)) ∧
  (is_Some (it_entry it) → ∀ k d', it_nextEntry it = Some k → client type cr (CDelete k) d = Some d' → dictNext addr d' it = None) ∧
  ∃ d' it' r, dictNext addr d it = Some (d', it', r) ∧
    match r with
    | Some k => k ∈ keys (entries d')
    | None =>
        (∀ k, k ∈ keys (entries d0) → k ∈ seen ∨ k ∈ lost) ∧
        (added = [] → lost = [] → seen ≡ₚ keys (entries d0)) ∧
        ∃ d'', dictReleaseIterator addr d' it' = Some d'' ∧ dict_wf type d'' ∧
          iterators d'' = iterators d0 ∧ entries d'' = entries d
    end.
Proof.
  intros Hwf0 Hs0 Hu H0 Hrun.
  destruct (walk_inv_reachable d0 _ Hwf0 Hs0 Hu H0 Hrun) as [Hwf Hs Hok Hsafe Hcnt Hall Honce Hnd Hseen Hpend]. simpl in *.
  split; [done|]. split; [done|]. split; [done|]. split.
  { intros He Hmax op. rewrite (iter_entry_started _ _ Hok He) in Hcnt.
    destruct (client_evolves type cr op d Hwf Hs) as (d' & -> & _); [lia|done|eauto]. }
  split; [by intros He k d' Hn Hc; apply (deleted_next d it k)|].
  destruct (dictNext_spec type addr d it Hwf Hs Hok) as (d' & it' & r & E & Hd & Hsf & Hst & _ & Hr & Hnext).
  { intros _. split; [destruct (it_started it); lia|]. intros Hx. by rewrite Hcnt, Hx, Z.add_0_r. }
  exists d', it', r. split; [done|]. pose proof (it_begin_pending type addr d it Hwf) as Hb.
  destruct (it_begin addr d it) as [db itb] eqn:Eb. simpl in Hd. subst d'. destruct Hb as (Hwf' & _ & Hget & _).
  assert (entries db = entries d) as Hent by (unfold entries; by rewrite (Hget 0%nat : ht0 db = _), (Hget 1%nat : ht1 db = _)).
  destruct (pending d it) as [|k ks] eqn:Ep; subst r; simpl.
  - assert (∀ k, k ∈ keys (entries d0) → k ∈ seen ∨ k ∈ lost) as Hdone.
    { intros k Hk. destruct (Hall k Hk) as [?|[?|?%elem_of_nil]]; auto. done. }
    split; [done|]. split.
    + intros -> ->. apply NoDup_Permutation; [|apply (wf_keys _ _ Hwf0)|].
      * apply NoDup_alt. intros i j k Hi Hj. eapply Hnd; eauto. apply not_elem_of_nil.
      * intros k. split; [intros Hk; destruct (Hseen k Hk) as [?|?%elem_of_nil]; done|].
        intros Hk. destruct (Hdone k Hk) as [?|?%elem_of_nil]; done.
    + unfold dictReleaseIterator. rewrite Hst, Hsf, Hsafe. eexists. split; [done|]. split; [by apply wf_iterators|].
      split; [|done]. simpl. assert (iterators db = iterators d0 + 1) as ->.
      { unfold it_begin in Eb. destruct (it_started it); [by injection Eb as <- _|]. rewrite Hsafe in Eb.
        injection Eb as <- _. simpl. rewrite Hcnt, Z.add_0_r. by apply uwrap_small. }
      rewrite uwrap_small; [lia|]. unfold in_u in *. lia.
  - rewrite Hent. eapply elem_of_sublist; [|by apply (pending_sublist type d it)]. rewrite Ep. by left.
Qed.

(** Calls of [dictNext] up to [NULL]. *)
Fixpoint dict_walk (fuel : nat) d it : option (dict K V * dictIterator K * list K) :=
  match fuel with
  | O => None
  | S fuel =>
      '(d, it, r) ← dictNext addr d it;
      match r with
      | None => Some (d, it, [])
      | Some k => '(d, it, ks) ← dict_walk fuel d it; Some (d, it, k :: ks)
      end
  end.

Lemma dict_walk_spec fuel d it : dict_wf type d → sizes_ok d → iter_ok d it →
  it_started it = true → (length (pending d it) < fuel)%nat →
  ∃ it', dict_walk fuel d it = Some (d, it', pending d it) ∧ it_safe it' = it_safe it ∧
    it_started it' = true ∧ it_fingerprint it' = it_fingerprint it.
Proof.
  revert it. induction fuel as [|fuel IH]; intros it Hwf Hs Hok Hst Hf; [lia|]. simpl.
  destruct (dictNext_spec type addr d it Hwf Hs Hok) as (d' & it' & r & -> & Hd & Hsf & Hst' & Hfp & Hr & Hnext).
  { intros Hsafe. rewrite Hst. split; [|done]. pose proof (io_count _ _ Hok Hst Hsafe). lia. }
  unfold it_begin in Hd, Hfp. rewrite Hst in Hd, Hfp. simpl in *. subst d'.
  destruct (pending d it) as [|k ks] eqn:Ep; subst r; simpl; [by exists it'|].
  destruct Hnext as (Hok' & Hp' & _); [done|]. destruct (IH it') as (it'' & Ew & E1 & E2 & E3); try done.
  { rewrite Hp'. simpl in *. lia. }
  rewrite Ew, Hp'. simpl. exists it''. rewrite E1, E3. done.
Qed.

(** C40. Iterating over a table that is not changed, with a safe or an unsafe
    iterator, returns the entries of both tables once each, bucket by bucket,
    then [NULL]; the fingerprint check of the unsafe iterator passes and the
    table is left as it was. *)
Theorem dict_iteration_complete d (safe : bool) :
  dict_wf type d → sizes_ok d → in_u 64 (iterators d + 1) → 0 ≤ iterators d →
  ∃ d' it', dict_walk (2 + length (entries d)) d (if safe then dictGetSafeIterator else dictGetIterator)
              = Some (d', it', keys (entries d)) ∧
    iterators d' = iterators d + (if safe then 1 else 0) ∧
    dictReleaseIterator addr d' it' = Some d.
Proof.
  intros Hwf Hs Hu H0. set (it := if safe then _ else _).
  assert (it = DI (-1) 0 safe None None None) as Hit by (unfold it; by destruct safe).
  pose proof (fresh_iter_ok type d safe Hwf) as Hok. rewrite <- Hit in Hok.
  pose proof (fresh_pending d safe) as Hp. rewrite <- Hit in Hp.
  destruct (dictNext_spec type addr d it Hwf Hs Hok) as (d1 & it1 & r & E & Hd & Hsf & Hst & Hfp & Hr & Hnext); [done|].
  unfold it_begin in Hd, Hfp. rewrite Hit in Hd, Hfp, Hsf. simpl in Hd, Hfp, Hsf.
  set (d1' := if safe then set_iterators d (u64 (iterators d + 1)) else d).
  assert (d1 = d1' ∧ it_fingerprint it1 = if safe then None else Some (dictFingerprint addr d)) as [-> Hfp1]
    by (unfold d1'; by destruct safe).
  assert (iterators d1' = iterators d + (if safe then 1 else 0) ∧ dict_wf type d1' ∧ sizes_ok d1') as (Hc1 & Hwf1 & Hs1).
  { unfold d1'. destruct safe; [|split; [lia|done]]. split; [by apply uwrap_small|]. split; [by apply wf_iterators|done]. }
  assert (∀ it2, it_safe it2 = safe → it_started it2 = true → it_fingerprint it2 = it_fingerprint it1 →
    dictReleaseIterator addr d1' it2 = Some d) as Hrel.
  { intros it2 E1 E2 E3. unfold dictReleaseIterator. rewrite E1, E2, E3, Hfp1. unfold d1'. destruct safe.
    - simpl. rewrite (uwrap_small 64 (iterators d + 1)) by done. rewrite Z.add_simpl_r, uwrap_small by (unfold in_u in *; lia).
      by destruct d.
    - by rewrite decide_True. }
  cbn [Nat.add dict_walk]. rewrite E. cbn [mbind option_bind]. rewrite Hp in Hr, Hnext.
  destruct (keys (entries d)) as [|k ks] eqn:Ek; subst r; simpl head.
  - exists d1', it1. auto.
  - destruct Hnext as (Hok1 & Hp1 & _); [done|].
    assert (length ks < S (length (entries d)))%nat.
    { apply (f_equal length) in Ek. unfold keys in Ek. rewrite length_fmap in Ek. simpl in Ek. lia. }
    destruct (dict_walk_spec (S (length (entries d))) d1' it1 Hwf1 Hs1 Hok1) as (it2 & Ew & E1 & E2 & E3); try done.
    { by rewrite Hp1. }
    cbn [dict_walk] in Ew. rewrite Ew. cbn [mbind option_bind]. rewrite Hp1. exists d1', it2. split; [done|]. split; [done|].
    apply Hrel; congruence.
Qed.
End theorems.

(** ** Random entries *)

Section random.
Context {K V : Type} `{Countable K} (type : dictType K V) `{!DictTypeOk type}.
Implicit Types (d : dict K V) (c : list (dictEntry K V)).

Lemma bucket_entries d t i c e : (t < 2)%nat → bucket (get_ht d t) i = Some c → e ∈ c → e ∈ entries d.
Proof.
  intros Ht Hb He. unfold bucket in Hb. apply bind_Some in Hb as (tb & Htb & Hc). case_decide; [|done].
  assert (e ∈ ht_entries (get_ht d t)) as Hin.
  { unfold ht_entries. rewrite Htb. apply list_elem_of_In, in_concat. exists c. rewrite <- !list_elem_of_In.
    split; [by eapply list_elem_of_lookup_2|done]. }
  unfold entries. apply elem_of_app. destruct t as [|[|]]; [by left|by right|lia].
Qed.

Lemma entries_bucket d e : e ∈ entries d → ∃ t i c, (t < 2)%nat ∧ bucket (get_ht d t) i = Some c ∧ e ∈ c ∧ 0 ≤ i.
Proof.
  assert (∀ t, e ∈ ht_entries (get_ht d t) → ∃ i c, bucket (get_ht d t) i = Some c ∧ e ∈ c ∧ 0 ≤ i) as Hht.
  { intros t. unfold ht_entries, bucket. destruct (table (get_ht d t)) as [tb|]; [|by intros ?%elem_of_nil]. simpl.
    intros (c & Hc & He)%list_elem_of_In%in_concat. apply list_elem_of_In, list_elem_of_lookup in Hc as [n Hn].
    exists (Z.of_nat n), c. rewrite decide_True, Nat2Z.id by lia. rewrite list_elem_of_In. auto with lia. }
  unfold entries. rewrite elem_of_app. intros [He|He].
  - destruct (Hht 0%nat He) as (i & c & ?). exists 0%nat, i, c. naive_solver lia.
  - destruct (Hht 1%nat He) as (i & c & ?). exists 1%nat, i, c. naive_solver lia.
Qed.

Lemma alloc_size (h : dictht K V) tb k : ht_alloc type h tb k → 4 ≤ size h.
Proof.
  intros Ha. rewrite (ha_size _ _ _ _ Ha). change 4 with (2 ^ 2). apply Z.pow_le_mono_r; [lia|]. apply Ha.
Qed.

(** The range of the draw while rehashing. *)
Lemma random_range d r : dict_wf type d → sizes_ok d → rehashidx d ≠ -1 →
  let n := size (ht0 d) + size (ht1 d) - rehashidx d in
  0 < n ∧ 0 ≤ rehashidx d ≤ size (ht0 d) ∧
  u64 (rehashidx d + r `mod` u64 (u64 (size (ht0 d) + size (ht1 d)) - rehashidx d)) = rehashidx d + r `mod` n.
Proof.
  intros Hwf [Hs0 Hs1] Hr n. destruct (wf_rehash _ _ Hwf Hr) as [(tb0 & k0 & Ha0) (tb1 & k1 & Ha1) Hi _].
  pose proof (alloc_size _ _ _ Ha0). pose proof (alloc_size _ _ _ Ha1).
  rewrite (uwrap_small 64 (size (ht0 d) + size (ht1 d))) by (unfold in_u; lia).
  rewrite (uwrap_small 64 (size (ht0 d) + size (ht1 d) - rehashidx d)) by (unfold in_u; lia). fold n.
  assert (0 < n) as Hn by (unfold n; lia). pose proof (Z.mod_pos_bound r n Hn).
  split_and!; [lia..|]. rewrite uwrap_small; [done|]. unfold in_u, n in *. lia.
Qed.

(** Every draw reads a bucket of the tables. *)
Lemma random_pick_in_bounds d r : dict_wf type d → sizes_ok d → entries d ≠ [] →
  ∃ c, random_pick d r = Some c ∧ ∃ t i, (t < 2)%nat ∧ bucket (get_ht d t) i = Some c.
Proof.
  intros Hwf Hs Hne. unfold random_pick. destruct (dictIsRehashing d) eqn:Er.
  - apply dictIsRehashing_spec in Er. destruct (random_range d r Hwf Hs Er) as (Hn & Hi & ->).
    pose proof (Z.mod_pos_bound r _ Hn).
    destruct (Z.leb_spec (size (ht0 d)) (rehashidx d + r `mod` (size (ht0 d) + size (ht1 d) - rehashidx d))) as [Hle|Hlt].
    + edestruct (bucket_chain type d 1) as [Hb _]; [done| |]; cycle 1.
      { simpl in Hb. rewrite Hb. eexists. split; [done|]. eexists 1%nat, _. split; [lia|done]. }
      simpl. lia.
    + edestruct (bucket_chain type d 0) as [Hb _]; [done| |]; cycle 1.
      { simpl in Hb. rewrite Hb. eexists. split; [done|]. eexists 0%nat, _. split; [lia|done]. }
      simpl. lia.
  - destruct (ht0_alloc_nonempty type d Hwf Hne) as (tb & k & Ha).
    destruct (bucket_of_hash type _ _ _ r Ha) as (c & Hb & _). exists c. split; [done|].
    eexists 0%nat, _. split; [lia|done].
Qed.

(** Some draw finds an entry. *)
Lemma random_pick_exists d : dict_wf type d → sizes_ok d → entries d ≠ [] →
  ∃ r c, 0 ≤ r < size (ht0 d) + size (ht1 d) ∧ random_pick d r = Some c ∧ c ≠ [].
Proof.
  intros Hwf Hs Hne. destruct (entries d) as [|e l] eqn:Ee; [done|].
  destruct (entries_bucket d e) as (t & i & c & Ht & Hb & Hec & Hi); [rewrite Ee; by left|].
  assert (c ≠ []) as Hc by (intros ->; by apply elem_of_nil in Hec).
  destruct (bucket_alloc type _ _ _ (ht_ok_get type d t Hwf) Hb) as (tb & k & Ha).
  destruct (chain_ok_bucket type _ _ _ _ _ Ha Hb) as [Hin _].
  pose proof (size_nonneg type d 0 Hwf) as Hp0. pose proof (size_nonneg type d 1 Hwf) as Hp1. simpl in Hp0, Hp1.
  destruct (decide (rehashidx d = -1)) as [Hr|Hr].
  - pose proof (wf_idle _ _ Hwf Hr) as H1. destruct t as [|[|]]; [|simpl in Hb; by rewrite H1 in Hb|lia].
    exists i, c. simpl in *. split; [lia|]. split; [|done]. unfold random_pick.
    rewrite (proj2 (dictIsRehashing_false d) Hr), (ha_mask _ _ _ _ Ha), Z.land_ones by (pose proof (ha_k _ _ _ _ Ha); lia).
    rewrite <- (ha_size _ _ _ _ Ha), Z.mod_small by lia. done.
  - pose proof (λ r, random_range d r Hwf Hs Hr) as Hrange. destruct (Hrange 0) as (Hn & Hri & _).
    destruct (wf_rehash _ _ Hwf Hr) as [_ _ _ Hmv].
    set (h := match t with O => i | S _ => size (ht0 d) + i end).
    assert (rehashidx d ≤ h < size (ht0 d) + size (ht1 d)) as Hh.
    { unfold h. destruct t as [|[|]]; simpl in *; [|lia..]. split; [|lia]. apply Z.nlt_ge. intros Hlt.
      rewrite Hmv in Hb by lia. congruence. }
    exists (h - rehashidx d), c. split; [lia|]. split; [|done]. unfold random_pick.
    rewrite (proj2 (dictIsRehashing_spec d) Hr). destruct (Hrange (h - rehashidx d)) as (_ & _ & ->).
    rewrite Z.mod_small by lia. replace (rehashidx d + (h - rehashidx d)) with h by lia. unfold h.
    destruct t as [|[|]]; simpl in *; [| |lia].
    + by rewrite (proj2 (Z.leb_gt _ _)) by lia.
    + rewrite (proj2 (Z.leb_le _ _)) by lia. by replace (size (ht0 d) + i - size (ht0 d)) with i by lia.
Qed.

Lemma random_bucket_spec d rnd : dict_wf type d → sizes_ok d → entries d ≠ [] →
  match random_bucket d rnd with
  | Some (c, rnd') => c ≠ [] ∧ (∃ t i, (t < 2)%nat ∧ bucket (get_ht d t) i = Some c) ∧
      ∃ rnd1 r, rnd = rnd1 ++ r :: rnd' ∧ ∀ r', r' ∈ rnd1 → random_pick d r' = Some []
  | None => ∀ r, r ∈ rnd → random_pick d r = Some []
  end.
Proof.
  intros Hwf Hs Hne. induction rnd as [|r rnd IH]; simpl; [by intros r ?%elem_of_nil|].
  destruct (random_pick_in_bounds d r Hwf Hs Hne) as (c & Hp & Hc). rewrite Hp. cbn [mbind option_bind]. destruct c as [|e c].
  - destruct (random_bucket d rnd) as [[c' rnd']|].
    + destruct IH as (? & ? & rnd1 & r' & -> & Hemp). split; [done|]. split; [done|]. exists (r :: rnd1), r'. split; [done|].
      intros x [->|Hx]%elem_of_cons; [done|by apply Hemp].
    + intros r' [->|Hr']%elem_of_cons; [done|by apply IH].
  - split; [done|]. split; [done|]. exists [], r. split; [done|]. by intros x ?%elem_of_nil.
Qed.

(** The walk of [dictGetSomeKeys] stays in the tables. *)
Lemma sample_chain_spec count des c : Z.of_nat (length des) < count →
  let '(des', full) := sample_chain count des c in
  (∃ c', des' = des ++ c' ∧ c' ⊆ c) ∧ Z.of_nat (length des') ≤ count ∧
  (full = false → Z.of_nat (length des') < count).
Proof.
  revert des. induction c as [|e c IH]; intros des Hd; simpl.
  { split; [|lia]. exists []. by rewrite app_nil_r. }
  destruct (Z.eqb_spec (Z.of_nat (length (des ++ [e]))) count) as [E|E].
  - split; [|split; [lia|done]]. exists [e]. split; [done|]. intros x ->%list_elem_of_singleton. by left.
  - rewrite length_app in E. simpl in E. specialize (IH (des ++ [e])). rewrite length_app in IH. simpl in IH.
    destruct (sample_chain count (des ++ [e]) c) as [des' full]. destruct IH as ((c' & -> & Hc') & ? & ?); [lia|].
    split; [|done]. exists (e :: c'). split; [by rewrite <- app_assoc|].
    intros x [->|Hx]%elem_of_cons; [by left|]. right. by apply Hc'.
Qed.

Definition sample_ok d (count : Z) (s : sample K V) : Prop :=
  0 ≤ sm_i s ≤ 2 ^ 63 ∧ 0 ≤ sm_emptylen s ∧ sm_des s ⊆ entries d ∧ sm_stored s ≤ count.

Lemma mask_bound r k : 0 ≤ k ≤ 63 → 0 ≤ Z.land r (Z.ones k) ≤ 2 ^ 63.
Proof.
  intros Hk. rewrite Z.land_ones by lia. pose proof (Z.mod_pos_bound r (2 ^ k) ltac:(lia)).
  assert (2 ^ k ≤ 2 ^ 63) by (apply Z.pow_le_mono_r; lia). lia.
Qed.

Lemma sample_table_spec d count mask k j s : dict_wf type d → sizes_ok d → (j < 2)%nat →
  mask = Z.ones k → 0 ≤ k ≤ 63 → sample_ok d count s → sm_stored s < count → sm_rnd s ≠ [] →
  ∃ s' full, sample_table d count mask j s = Some (s', full) ∧ sample_ok d count s' ∧
    (length (sm_rnd s) ≤ S (length (sm_rnd s')))%nat ∧ (full = false → sm_stored s' < count).
Proof.
  intros Hwf [Hs0 Hs1] Hj -> Hk Hok Hlt Hrnd. pose proof Hok as (Hi & He & Hdes & Hst). unfold sample_table.
  set (behind := dictIsRehashing d && (j =? 0)%nat && (sm_i s <? u64 (rehashidx d))).
  destruct (behind && _). { exists s, false. split; [done|]. split; [done|]. split; [lia|done]. }
  set (i := if behind then _ else _). assert (0 ≤ i ≤ 2 ^ 63) as Hi'.
  { unfold i. destruct behind eqn:Eb; [|lia]. unfold behind in Eb. rewrite !andb_true_iff in Eb.
    destruct Eb as [[Er%dictIsRehashing_spec _] _]. destruct (wf_rehash _ _ Hwf Er) as [_ _ Hri _].
    rewrite uwrap_small by (unfold in_u; lia). lia. }
  assert (∀ i' e rnd, 0 ≤ i' ≤ 2 ^ 63 → 0 ≤ e → sample_ok d count (Sample i' e (sm_des s) rnd)) as Hmk by done.
  destruct (Z.leb_spec (size (get_ht d j)) i) as [Hge|Hin].
  { eexists _, false. split; [done|]. split; [by apply Hmk|]. split; [simpl; lia|]. by intros _. }
  destruct (bucket_chain type d j i Hwf) as [Hb _]; [lia|]. rewrite Hb. cbn [mbind option_bind]. destruct (chain d j i) as [|e c] eqn:Ec.
  - pose proof (uwrap_range 64 (sm_emptylen s + 1) ltac:(lia)) as [Hw _]. destruct ((5 <=? _) && _).
    + destruct (sm_rnd s) as [|r rnd]; [done|]. eexists _, false. split; [done|]. split; [|split; [simpl; lia|done]].
      apply Hmk; [|lia]. by apply mask_bound.
    + eexists _, false. split; [done|]. split; [by apply Hmk|]. split; [simpl; lia|done].
  - pose proof (sample_chain_spec count (sm_des s) (e :: c) Hlt) as Hsc.
    destruct (sample_chain count (sm_des s) (e :: c)) as [des full]. destruct Hsc as ((c' & -> & Hc') & Hle & Hfull).
    exists (Sample i 0 (sm_des s ++ c') (sm_rnd s)), full. split; [done|]. split; [|split; [simpl; lia|done]]. split; [done|]. split; [done|]. split; [|done]. simpl.
    intros x [Hx|Hx]%elem_of_app; [by apply Hdes|]. eapply bucket_entries; [exact Hj|exact Hb|]. by apply Hc'.
Qed.

Lemma sample_loop_spec d count mask k n s : dict_wf type d → sizes_ok d → mask = Z.ones k → 0 ≤ k ≤ 63 →
  sample_ok d count s → (2 * n ≤ length (sm_rnd s))%nat →
  ∃ s', sample_loop d count mask n s = Some s' ∧ sample_ok d count s'.
Proof.
  intros Hwf Hs Hm Hk. revert s. induction n as [|n IH]; intros s Hok Hr; [by exists s|]. simpl.
  destruct (Z.leb_spec count (sm_stored s)) as [|Hlt]; [by exists s|].
  destruct (sample_table_spec d count mask k 0 s Hwf Hs) as (s1 & full1 & -> & Hok1 & Hr1 & Hf1); try done; try lia.
  { intros E. rewrite E in Hr. simpl in Hr. lia. }
  simpl. destruct full1; [by exists s1|]. specialize (Hf1 eq_refl).
  assert (∃ s2 full2, (if dictIsRehashing d then sample_table d count mask 1 s1 else Some (s1, false)) = Some (s2, full2) ∧
    sample_ok d count s2 ∧ (length (sm_rnd s1) ≤ S (length (sm_rnd s2)))%nat) as (s2 & full2 & -> & Hok2 & Hr2).
  { destruct (dictIsRehashing d); [|exists s1, false; split_and!; [done|done|lia]].
    destruct (sample_table_spec d count mask k 1 s1 Hwf Hs) as (s2 & full2 & -> & Hok2 & Hr2 & _); try done; try lia.
    { intros E. rewrite E in Hr1. simpl in Hr1. lia. } by exists s2, full2. }
  simpl. destruct full2; [by exists s2|]. apply IH; [|simpl; lia]. destruct Hok2 as (? & ? & ? & ?).
  split; [|done]. simpl. rewrite Hm. by apply mask_bound.
Qed.
End random.

Section random_spec.
Context {K V : Type} `{Countable K} (type : dictType K V) `{!DictTypeOk type}.
Implicit Types (d : dict K V) (c : list (dictEntry K V)).

(** A property of the two sizes that holds as well when the second table has
    become the first one. *)
Definition sizes_prop (P : Z → Z → Prop) d : Prop := P (size (ht0 d)) (size (ht1 d)).

Lemma move_chain_sizes P d c d' : move_chain type d c = Some d' → sizes_prop P d → sizes_prop P d'.
Proof.
  revert d. induction c as [|e c IH]; intros d; cbn [move_chain]; [by intros [= <-]|].
  intros (b & _ & (h1 & (Hsz & _)%set_bucket_inv & Hmv)%bind_Some)%bind_Some Hs.
  apply (IH _ Hmv). unfold sizes_prop. simpl. by rewrite Hsz.
Qed.

Lemma rehash_finish_sizes (P : Z → Z → Prop) d : (∀ a b, P a b → P b 0) →
  sizes_prop P d → sizes_prop P (rehash_finish d).1.
Proof. intros HP Hs. unfold rehash_finish. case_match; [by eapply HP|done]. Qed.

Lemma rehash_loop_sizes (P : Z → Z → Prop) d n ev d' rc : (∀ a b, P a b → P b 0) →
  rehash_loop type d n ev = Some (d', rc) → sizes_prop P d → sizes_prop P d'.
Proof.
  intros HP. revert d ev. induction n as [|n IH]; intros d ev; cbn [rehash_loop].
  { intros E Hs%(rehash_finish_sizes P); [|done]. injection E as E. by rewrite E in Hs. }
  destruct (_ =? 0). { intros E Hs%(rehash_finish_sizes P); [|done]. injection E as E. by rewrite E in Hs. }
  destruct (negb _); [done|]. intros (s & _ & Hl)%bind_Some Hs. destruct s as [idx|[idx ev']]; [by injection Hl as <- _|].
  apply bind_Some in Hl as (de & _ & Hl). apply bind_Some in Hl as (d1 & Hmv%(move_chain_sizes P) & Hl); [|done].
  apply bind_Some in Hl as (h0 & (Hsz & _)%set_bucket_inv & Hl). apply (IH _ _ Hl).
  unfold sizes_prop in *. simpl. by rewrite Hsz.
Qed.

Lemma rehashStep_spec d : dict_wf type d → sizes_ok d → rehashidx d ≠ -1 →
  ∃ d', _dictRehashStep type d = Some d' ∧ dict_wf type d' ∧ sizes_ok d' ∧ entries d' ≡ₚ entries d ∧
    size (ht0 d') + size (ht1 d') ≤ size (ht0 d) + size (ht1 d).
Proof.
  intros Hwf Hs Hr. unfold _dictRehashStep. destruct (iterators d =? 0); [|by exists d].
  destruct (dictRehash_spec type d 1 Hwf Hr ltac:(done)) as (d' & rc & E & [Hwf' Hp _ _ _ _]). exists d'. rewrite E.
  unfold dictRehash in E. rewrite bool_decide_true in E by done. rewrite (proj2 (dictIsRehashing_spec d) Hr) in E. simpl in E.
  pose proof (size_nonneg type d 0 Hwf). pose proof (size_nonneg type d 1 Hwf).
  split; [done|]. split; [done|]. split; [|split; [done|]].
  - apply (rehash_loop_sizes (λ a b, a < 2 ^ 63 ∧ b < 2 ^ 63) d 1 10 d' rc); [intros; lia|done|done].
  - apply (rehash_loop_sizes (λ a b, 0 ≤ a ∧ 0 ≤ b ∧ a + b ≤ size (ht0 d) + size (ht1 d)) d 1 10 d' rc);
      [intros; lia|done|unfold sizes_prop; simpl in *; lia].
Qed.

Lemma rehash_steps_spec d n : dict_wf type d → sizes_ok d →
  ∃ d', rehash_steps type d n = Some d' ∧ dict_wf type d' ∧ sizes_ok d' ∧ entries d' ≡ₚ entries d.
Proof.
  revert d. induction n as [|n IH]; intros d Hwf Hs; simpl; [by exists d|].
  destruct (dictIsRehashing d) eqn:Er; [|by exists d]. apply dictIsRehashing_spec in Er.
  destruct (rehashStep_spec d Hwf Hs Er) as (d1 & -> & Hwf1 & Hs1 & Hp1 & _). simpl.
  destruct (IH d1 Hwf1 Hs1) as (d2 & -> & Hwf2 & Hs2 & Hp2). exists d2. split; [done|]. split; [done|]. split; [done|]. by etrans.
Qed.

Lemma maybe_step_sizes d : dict_wf type d → sizes_ok d →
  ∃ d', maybe_step type d = Some d' ∧ dict_wf type d' ∧ sizes_ok d' ∧ entries d' ≡ₚ entries d ∧
    size (ht0 d') + size (ht1 d') ≤ size (ht0 d) + size (ht1 d).
Proof.
  intros Hwf Hs. unfold maybe_step. destruct (dictIsRehashing d) eqn:Er; [|by exists d].
  apply dictIsRehashing_spec in Er. by apply rehashStep_spec.
Qed.

Lemma dictSize_entries d : dict_wf type d → dictSize d = Z.of_nat (length (entries d)).
Proof.
  intros Hwf. pose proof (used_bounds type _ Hwf) as (Hu0 & Hu1 & Hs & Hmax). unfold dictSize. rewrite Hs.
  apply uwrap_small. unfold in_u, MAX_ENTRIES in *. lia.
Qed.

(** The mask that bounds the walk of [dictGetSomeKeys]. *)
Lemma maxsizemask_ones d : dict_wf type d →
  ∃ k, 0 ≤ k ≤ 63 ∧ (if dictIsRehashing d && (sizemask (ht0 d) <? sizemask (ht1 d)) then sizemask (ht1 d)
                     else sizemask (ht0 d)) = Z.ones k.
Proof.
  intros Hwf. assert (∀ t, ∃ k, 0 ≤ k ≤ 63 ∧ sizemask (get_ht d t) = Z.ones k) as Hm.
  { intros t. destruct (ht_ok_get type d t Hwf) as [->|(tb & k & Ha)]; [by exists 0|].
    exists k. pose proof (ha_k _ _ _ _ Ha). rewrite (ha_mask _ _ _ _ Ha). split; [lia|done]. }
  destruct (_ && _); [apply (Hm 1%nat)|apply (Hm 0%nat)].
Qed.

Lemma bucket_length d t i c : dict_wf type d → (t < 2)%nat → bucket (get_ht d t) i = Some c →
  (length c ≤ length (entries d))%nat.
Proof.
  intros Hwf Ht Hb. rewrite <- (length_fmap key c), <- (length_fmap key (entries d)). apply submseteq_length, NoDup_submseteq.
  - pose proof (chain_nodup type d t i Hwf Ht) as Hnd. unfold chain in Hnd. by rewrite Hb in Hnd.
  - intros k Hk. apply (chain_elem d t i k Ht). unfold chain. by rewrite Hb.
Qed.

Lemma random_entry_spec d (orighe : list (dictEntry K V)) r : orighe ≠ [] → orighe ⊆ entries d →
  Z.of_nat (length orighe) < 2 ^ 31 → 0 ≤ r →
  ∃ e, orighe !! Z.to_nat (s32 (Z.rem r (s32 (Z.of_nat (length orighe))))) = Some e ∧ e ∈ entries d.
Proof.
  intros Hne Hsub Hlen Hr. assert (0 < Z.of_nat (length orighe)) by (destruct orighe; [done|simpl; lia]).
  rewrite (swrap_small 32 (Z.of_nat _)) by (unfold in_s; simpl; lia). rewrite Z.rem_mod_nonneg by lia.
  pose proof (Z.mod_pos_bound r (Z.of_nat (length orighe)) ltac:(lia)).
  rewrite swrap_small by (unfold in_s; simpl; lia).
  destruct (lookup_lt_is_Some_2 orighe (Z.to_nat (r `mod` Z.of_nat (length orighe)))) as [e He]; [lia|].
  exists e. split; [done|]. apply Hsub. by eapply list_elem_of_lookup_2.
Qed.

(** Fewer than 2^31 entries keep the [int] counters exact. *)
Lemma dictGetRandomKey_spec d rnd : dict_wf type d → sizes_ok d → Z.of_nat (length (entries d)) < 2 ^ 31 →
  Forall (λ r, 0 ≤ r) rnd → entries d ≠ [] →
  ∃ d1, maybe_step type d = Some d1 ∧ dict_wf type d1 ∧ entries d1 ≡ₚ entries d ∧
  match dictGetRandomKey type d rnd with
  | Some (d', he, _) => d' = d1 ∧ ∃ e, he = Some e ∧ e ∈ entries d
  | None => ∀ rnd1 r rnd2, rnd = rnd1 ++ r :: rnd2 → rnd2 ≠ [] → random_pick d1 r = Some []
  end.
Proof.
  intros Hwf Hs Hmax Hrnd Hne. destruct (maybe_step_sizes d Hwf Hs) as (d1 & Hd1 & Hwf1 & Hs1 & Hp1 & _).
  exists d1. split; [done|]. split; [done|]. split; [done|].
  assert (entries d1 ≠ []) as Hne1. { intros E. rewrite E in Hp1. by apply Permutation_nil_l in Hp1. }
  unfold dictGetRandomKey. rewrite (dictSize_entries d Hwf).
  rewrite (proj2 (Z.eqb_neq _ _)) by (destruct (entries d); [done|simpl; lia]). rewrite Hd1. cbn [mbind option_bind].
  pose proof (random_bucket_spec type d1 rnd Hwf1 Hs1 Hne1) as Hrb.
  destruct (random_bucket d1 rnd) as [[c rnd']|]; cbn [mbind option_bind].
  2: { intros rnd1 r rnd2 -> _. apply Hrb. apply elem_of_app. right. by left. }
  destruct Hrb as (Hc & (t & i & Ht & Hb) & rnd1 & r & -> & Hemp). destruct rnd' as [|r' rnd'].
  - intros rnd1' r' rnd2 E Hn2. destruct rnd2 as [|x rnd2 _] using rev_ind; [done|].
    rewrite app_comm_cons, app_assoc in E. apply app_inj_tail in E as [-> _]. apply Hemp. apply elem_of_app. right. by left.
  - rewrite Forall_app, !Forall_cons in Hrnd.
    destruct (random_entry_spec d1 c r') as (e & -> & He); [done| | |naive_solver|].
    { intros x. by apply (bucket_entries d1 t i c x Ht Hb). }
    { pose proof (bucket_length d1 t i c Hwf1 Ht Hb). rewrite Hp1 in *. lia. }
    cbn [mbind option_bind]. split; [done|]. exists e. by rewrite <- Hp1.
Qed.
End random_spec.

(** ** Rehashing for some time, and release *)

Section release.
Context {K V : Type} `{Countable K} (type : dictType K V) `{!DictTypeOk type}.
Implicit Types (d : dict K V).

(** [elapsed] holds the successive values of [timeInMilliseconds()-start];
    [None] when they run out. *)
Fixpoint dictRehashMilliseconds (elapsed : list Z) d (ms rehashes : Z) : option (dict K V * Z) :=
  '(d, more) ← dictRehash type d 100;
  if more =? 0 then Some (d, rehashes) else
  match elapsed with
  | [] => None
  | e :: elapsed =>
      let rehashes := s32 (rehashes + 100) in
      if ms <? e then Some (d, rehashes) else dictRehashMilliseconds elapsed d ms rehashes
  end.

(** The destructor calls; the tables and the [dict] are freed. *)
Definition dictRelease d : list (freed K V) := (_dictClear type (ht0 d)).2 ++ (_dictClear type (ht1 d)).2.

Lemma dictRehashMilliseconds_spec elapsed d ms n : dict_wf type d →
  size (ht0 d) - rehashidx d ≤ Z.of_nat (length elapsed) →
  ∃ d' n', dictRehashMilliseconds elapsed d ms n = Some (d', n') ∧ dict_wf type d' ∧ entries d' ≡ₚ entries d.
Proof.
  revert d n. induction elapsed as [|e elapsed IH]; intros d n Hwf Hlen.
  all: cbn [dictRehashMilliseconds]; destruct (decide (rehashidx d = -1)) as [Hr|Hr];
    [rewrite dictRehash_idle by done; by eexists _, _|].
  all: destruct (dictRehash_spec type d 100 Hwf Hr ltac:(done)) as (d1 & rc & -> & [Hwf1 Hp1 _ Hrc Hprog Hdone]); cbn [mbind option_bind].
  - rewrite Hdone by (simpl in Hlen; lia). by eexists _, _.
  - destruct Hrc as [[-> _]|[-> Hr1]]; [by eexists _, _|]. destruct (Hprog eq_refl) as [Hsz Hidx]. simpl in Hidx. simpl.
    destruct (ms <? e); [by eexists _, _|]. destruct (IH d1 (s32 (n + 100)) Hwf1) as (d2 & n' & -> & Hwf2 & Hp2).
    { rewrite Hsz. simpl in Hlen. lia. }
    eexists _, _. split; [done|]. split; [done|]. by etrans.
Qed.

Lemma dictRelease_spec d : dict_wf type d →
  dictRelease d = entries d ≫= λ he, dictFreeKey type he ++ dictFreeVal type he.
Proof.
  intros Hwf. unfold dictRelease, _dictClear, entries. simpl. rewrite bind_app.
  pose proof (used_bounds type _ Hwf) as (Hu0 & Hu1 & Hs & Hmax). unfold MAX_ENTRIES in Hmax. rewrite Hu0, Hu1. unfold ht_entries in *. by rewrite !(clear_loop_all type) by lia.
Qed.
End release.

Section random_theorem.
Context {K V : Type} `{Countable K} (type : dictType K V) `{!DictTypeOk type}.
Implicit Types (d : dict K V).

Lemma dictGetSomeKeys_spec d count rnd : dict_wf type d → sizes_ok d → 0 ≤ count < 2 ^ 32 →
  (1 + 2 * Z.to_nat (u32 (Z.min count (Z.of_nat (length (entries d))) * 10)) ≤ length rnd)%nat →
  ∃ d' des rnd', dictGetSomeKeys type d count rnd = Some (d', des, rnd') ∧ dict_wf type d' ∧
    entries d' ≡ₚ entries d ∧ des ⊆ entries d ∧
    Z.of_nat (length des) ≤ Z.min count (Z.of_nat (length (entries d))).
Proof.
  intros Hwf Hs Hc Hr. unfold dictGetSomeKeys. rewrite (dictSize_entries type d Hwf).
  set (n := Z.of_nat (length (entries d))) in *.
  assert ((if n <? count then u32 n else count) = Z.min count n) as ->.
  { destruct (Z.ltb_spec n count); [rewrite uwrap_small by (unfold in_u; lia)|]; lia. }
  destruct (rehash_steps_spec type d (Z.to_nat (Z.min count n)) Hwf Hs) as (d1 & -> & Hwf1 & Hs1 & Hp1).
  cbn [mbind option_bind]. destruct (maxsizemask_ones type d1 Hwf1) as (k & Hk & ->).
  destruct rnd as [|r rnd]; [simpl in Hr; lia|].
  destruct (sample_loop_spec type d1 (Z.min count n) (Z.ones k) k (Z.to_nat (u32 (Z.min count n * 10)))
    (Sample (Z.land r (Z.ones k)) 0 [] rnd) Hwf1 Hs1 eq_refl Hk) as (s & -> & (_ & _ & Hdes & Hst)).
  - split; [by apply mask_bound|]. split; [done|]. split; [apply list_subseteq_nil|]. unfold sm_stored. simpl. lia.
  - simpl in *. lia.
  - cbn [mbind option_bind]. eexists _, _, _. split; [done|]. split; [done|]. split; [done|]. split; [|done].
    intros e He%Hdes. by rewrite <- Hp1.
Qed.

(** Random entries, for a table with fewer than 2^31 entries: on an empty
    table [dictGetRandomKey] returns [NULL]; otherwise it returns an entry of
    the table, never reading outside of the buckets whatever [random]
    returns, and it returns as soon as [random] gives one of the numbers
    that pick a populated bucket, of which there is one in the range of the
    table sizes.  [dictGetSomeKeys] always returns, with entries of the
    table, at most [count] and at most as many as there are.  Neither changes
    the entries, although both may advance the rehash. *)
Theorem dict_random_entries d :
  dict_wf type d → sizes_ok d → Z.of_nat (length (entries d)) < 2 ^ 31 →
  (entries d = [] → ∀ rnd, dictGetRandomKey type d rnd = Some (d, None, rnd)) ∧
  (entries d ≠ [] →
     (∀ rnd d' he rnd', Forall (λ r, 0 ≤ r) rnd → dictGetRandomKey type d rnd = Some (d', he, rnd') →
        dict_wf type d' ∧ entries d' ≡ₚ entries d ∧ ∃ e, he = Some e ∧ e ∈ entries d) ∧
     ∃ r, 0 ≤ r < size (ht0 d) + size (ht1 d) ∧
       ∀ rnd1 rnd2, Forall (λ r, 0 ≤ r) (rnd1 ++ rnd2) → rnd2 ≠ [] →
         is_Some (dictGetRandomKey type d (rnd1 ++ r :: rnd2))) ∧
  (∀ count rnd, 0 ≤ count < 2 ^ 32 →
     (1 + 2 * Z.to_nat (u32 (Z.min count (Z.of_nat (length (entries d))) * 10)) ≤ length rnd)%nat →
     ∃ d' des rnd', dictGetSomeKeys type d count rnd = Some (d', des, rnd') ∧ dict_wf type d' ∧
       entries d' ≡ₚ entries d ∧ des ⊆ entries d ∧
       Z.of_nat (length des) ≤ Z.min count (Z.of_nat (length (entries d)))).
Proof.
  intros Hwf Hs Hmax. split; [|split].
  - intros E rnd. unfold dictGetRandomKey. by rewrite (dictSize_entries type d Hwf), E.
  - intros Hne. split.
    + intros rnd d' he rnd' Hr E. destruct (dictGetRandomKey_spec type d rnd Hwf Hs Hmax Hr Hne) as (d1 & _ & Hwf1 & Hp1 & Hres).
      rewrite E in Hres. destruct Hres as [-> He]. done.
    + destruct (maybe_step_sizes type d Hwf Hs) as (d1 & Hd1 & Hwf1 & Hs1 & Hp1 & Hle).
      assert (entries d1 ≠ []) as Hne1. { intros E. rewrite E in Hp1. by apply Permutation_nil_l in Hp1. }
      destruct (random_pick_exists type d1 Hwf1 Hs1 Hne1) as (r & c & Hr & Hpick & Hc).
      exists r. split; [lia|]. intros rnd1 rnd2 Hall Hn2.
      destruct (dictGetRandomKey_spec type d (rnd1 ++ r :: rnd2) Hwf Hs Hmax) as (d1' & Hd1' & _ & _ & Hres); [|done|].
      { rewrite Forall_app in *. rewrite Forall_cons. split; [|split]; [apply Hall|lia|apply Hall]. }
      rewrite Hd1 in Hd1'. injection Hd1' as <-. destruct (dictGetRandomKey _ _ _); [by eexists|].
      specialize (Hres rnd1 r rnd2 eq_refl Hn2). congruence.
  - intros count rnd Hc Hr. by apply dictGetSomeKeys_spec.
Qed.
End random_theorem.

(** ** On the table of Dict.v *)

Definition demo_addr (t : nat) : Z := 94100000000000 + 64 * Z.of_nat t.

Lemma demo_sizes : sizes_ok demo.
Proof. split; vm_compute; reflexivity. Qed.

(** The user deletes the first entry, then adds a key. *)
Definition demo_walk : walk :=
  Eval vm_compute in
    default (W demo dictGetSafeIterator [] [] [])
      ('(d1, it1, k) ← dictNext demo_addr demo dictGetSafeIterator;
       d2 ← client demoType true (CDelete (default 0 k)) d1;
       d3 ← client demoType true (CAdd 9 90) d2;
       Some (W d3 it1 (option_list k) [9] [])).

Lemma safe_iteration_correct_witness : ∃ d' it' r,
  dictNext demo_addr (w_d demo_walk) (w_it demo_walk) = Some (d', it', r) ∧
  match r with
  | Some k => k ∈ keys (entries d')
  | None => (∀ k, k ∈ keys (entries demo) → k ∈ w_seen demo_walk ∨ k ∈ w_lost demo_walk) ∧
      (w_added demo_walk = [] → w_lost demo_walk = [] → w_seen demo_walk ≡ₚ keys (entries demo)) ∧
      ∃ d'', dictReleaseIterator demo_addr d' it' = Some d'' ∧ dict_wf demoType d'' ∧
        iterators d'' = iterators demo ∧ entries d'' = entries (w_d demo_walk)
  end.
Proof.
  refine (proj2 (proj2 (proj2 (proj2 (proj2 (safe_iteration_correct demoType true demo_addr demo (w_d demo_walk)
    (w_it demo_walk) (w_seen demo_walk) (w_added demo_walk) (w_lost demo_walk) demo_wf demo_sizes _ _ _)))))).
  - split; vm_compute; congruence.
  - vm_compute. congruence.
  - eapply rtc_l; [apply W_next; vm_compute; reflexivity|].
    eapply rtc_l; [apply (W_client _ _ _ (CDelete 1)); [done|by intros k [= <-]|vm_compute; reflexivity|vm_compute; reflexivity]|].
    eapply rtc_l; [apply (W_client _ _ _ (CAdd 9 90)); [done|done|vm_compute; reflexivity|vm_compute; reflexivity]|].
    apply rtc_refl.
Defined.

Lemma dict_iteration_complete_witness : ∃ d' it',
  dict_walk demo_addr (2 + length (entries demo)) demo dictGetIterator = Some (d', it', keys (entries demo)) ∧
  iterators d' = iterators demo + 0 ∧ dictReleaseIterator demo_addr d' it' = Some demo.
Proof.
  apply (dict_iteration_complete demoType demo_addr demo false demo_wf demo_sizes); [|vm_compute; congruence].
  split; vm_compute; congruence.
Defined.

Lemma dict_random_entries_witness : ∃ r, 0 ≤ r < size (ht0 demo) + size (ht1 demo) ∧
  ∀ rnd1 rnd2, Forall (λ r, 0 ≤ r) (rnd1 ++ rnd2) → rnd2 ≠ [] →
    is_Some (dictGetRandomKey demoType demo (rnd1 ++ r :: rnd2)).
Proof.
  apply (proj1 (proj2 (dict_random_entries demoType demo demo_wf demo_sizes ltac:(vm_compute; reflexivity)))).
  vm_compute. congruence.
Defined.

(** [dictRehashMilliseconds] does not look at [iterators]: called while a safe
    iterator runs, it moves the entries under it.  The walk below, with such a
    call after the third entry, returns the key 6 twice. *)
Example rehash_under_iterator :
  (('(d, it, k1) ← dictNext demo_addr demo dictGetSafeIterator;
    '(d, it, k2) ← dictNext demo_addr d it;
    '(d, it, k3) ← dictNext demo_addr d it;
    '(d, _) ← dictRehashMilliseconds demoType [] d 1 0;
    '(_, _, ks) ← dict_walk demo_addr 10 d it;
    Some (option_list k1 ++ option_list k2 ++ option_list k3 ++ ks)) : option (list Z)) =
  Some [1; 6; 2; 3; 5; 6].
Proof. vm_compute. reflexivity. Qed.
