(* ===== verification/DictScan.v ===== *)
(** * dict.c: [dictScan] and the iterators

    [dictScan] is the stateless cursor behind SCAN: the cursor is incremented
    from its high bits down ([rev], increment, [rev]), so that a resize between
    two calls neither loses an element nor restarts the iteration.  The theorem
    to keep is [dictScan_complete]: over any sequence of well-formed states of
    the table, growing, shrinking, in the middle of a rehash or not, a key that
    is present in all of them has been returned when the cursor is back to 0.

    The callbacks receive the entries: [dictScan] returns the buckets visited,
    in order, each with its table, its index (the argument of [bucketfn]) and
    its chain (the arguments of the calls of [fn]). *)

From S2P Require Import Prelude Dict.

(** ** The reverse cursor *)

(** One turn of the loop of [rev]. *)
Definition rev_step (s mask v : Z) : Z :=
  Z.lor (Z.land (Z.shiftr v s) mask) (Z.land (u64 (Z.shiftl v s)) (unot 64 mask)).

Fixpoint rev_loop (fuel : nat) (s mask v : Z) : Z :=
  match fuel with
  | O => v
  | S f =>
      let s := Z.shiftr s 1 in
      if 0 <? s then
        let mask := Z.lxor mask (u64 (Z.shiftl mask s)) in
        rev_loop f s mask (rev_step s mask v)
      else v
  end.

(** [s] goes through 32, 16, 8, 4, 2, 1 and 0: seven tests. *)
Definition rev (v : Z) : Z := rev_loop 7 64 (Z.ones 64) v.
#[global] Arguments rev : simpl never.

Section scan.
Context {K V : Type} `{EqDecision K} (type : dictType K V).
Implicit Types (d : dict K V) (h : dictht K V) (c : list (dictEntry K V)).

Definition visit : Type := nat * Z * list (dictEntry K V).

(** [v |= ~m; v = rev(v); v++; v = rev(v);] *)
Definition cursor_next (v m : Z) : Z :=
  rev (u64 (rev (Z.lor v (unot 64 m)) + 1)).
#[global] Arguments cursor_next : simpl never.

(** The [do ... while (v & (m0 ^ m1))] loop over the larger table. *)
Fixpoint scan_expansions (fuel : nat) (t : nat) h (m0 m1 v : Z) : option (Z * list visit) :=
  match fuel with
  | O => None
  | S f =>
      c ← bucket h (Z.land v m1);
      let v' := cursor_next v m1 in
      if Z.land v' (Z.lxor m0 m1) =? 0 then Some (v', [(t, Z.land v m1, c)])
      else '(v'', vs) ← scan_expansions f t h m0 m1 v'; Some (v'', (t, Z.land v m1, c) :: vs)
  end.

Definition dictScan d (v : Z) : option (Z * list visit) :=
  if dictSize d =? 0 then Some (0, []) else
  if negb (dictIsRehashing d) then
    let m0 := sizemask (ht0 d) in
    c ← bucket (ht0 d) (Z.land v m0);
    Some (cursor_next v m0, [(0%nat, Z.land v m0, c)])
  else
    let '(i0, i1) := if size (ht1 d) <? size (ht0 d) then (1%nat, 0%nat) else (0%nat, 1%nat) in
    let t0 := get_ht d i0 in
    let t1 := get_ht d i1 in
    let m0 := sizemask t0 in
    let m1 := sizemask t1 in
    c ← bucket t0 (Z.land v m0);
    '(v', vs) ← scan_expansions (Z.to_nat (size t1)) i1 t1 m0 m1 v;
    Some (v', (i0, Z.land v m0, c) :: vs).

Definition emitted (vs : list visit) : list (dictEntry K V) := vs ≫= snd.

(** A whole SCAN: one call per state of the table, until the cursor is 0. *)
Fixpoint scan_seq (ds : list (dict K V)) (v : Z) : option (Z * list (dictEntry K V)) :=
  match ds with
  | [] => Some (v, [])
  | d :: ds' =>
      '(v', vs) ← dictScan d v;
      if v' =? 0 then Some (0, emitted vs)
      else '(v'', es) ← scan_seq ds' v'; Some (v'', emitted vs ++ es)
  end.
End scan.

(** ** [rev] reverses the bits *)

Definition rev_perm (m s i : Z) : Z := if Z.testbit m i then i + s else i - s.

Lemma testbit_unot m i : 0 ≤ i < 64 → Z.testbit (unot 64 m) i = negb (Z.testbit m i).
Proof.
  intros. unfold unot. rewrite Z.lxor_spec, testbit_ones_in by lia.
  rewrite bool_decide_true by lia. by rewrite xorb_true_r.
Qed.

Lemma rev_step_bits m s v i : 0 ≤ i < 64 → 0 ≤ s → (Z.testbit m i = false → s ≤ i) →
  Z.testbit (rev_step s m v) i = Z.testbit v (rev_perm m s i).
Proof.
  intros Hi Hs Hm. unfold rev_step, rev_perm, uwrap.
  rewrite Z.lor_spec, !Z.land_spec, Z.shiftr_spec, testbit_unot, Z.testbit_mod_pow2 by lia.
  rewrite (proj2 (Z.ltb_lt i 64)) by lia. rewrite Z.shiftl_spec by lia.
  destruct (Z.testbit m i); simpl; [by rewrite andb_true_r, andb_false_r, orb_false_r|].
  by rewrite andb_false_r, andb_true_r.
Qed.

(** The masks of the six turns. *)
Definition rev_masks : list (Z * Z) := Eval vm_compute in
  (fix go f s m := match f with O => [] | S f =>
     let s := Z.shiftr s 1 in let m := Z.lxor m (u64 (Z.shiftl m s)) in (s, m) :: go f s m end)
    6%nat 64 (Z.ones 64).

Lemma rev_unfold v : rev v = fold_left (λ x '(s, m), rev_step s m x) rev_masks v.
Proof. reflexivity. Qed.

(** Where the bit [i] of the result comes from, if every turn is in range. *)
Fixpoint rev_source (ms : list (Z * Z)) (i : Z) : option Z :=
  match ms with
  | [] => Some i
  | (s, m) :: ms' =>
      if (0 <=? i) && (i <? 64) && (0 <=? s) && (Z.testbit m i || (s <=? i))
      then rev_source ms' (rev_perm m s i) else None
  end.

Lemma rev_source_bits ms v i j : rev_source ms i = Some j →
  Z.testbit (fold_right (λ '(s, m) x, rev_step s m x) v ms) i = Z.testbit v j.
Proof.
  revert i. induction ms as [|[s m] ms IH]; intros i; simpl; [congruence|].
  case_match eqn:Hc; [|done]. intros Hj.
  rewrite !andb_true_iff, orb_true_iff, !Z.leb_le, Z.ltb_lt in Hc.
  destruct Hc as [[[? ?] ?] Hc]. rewrite rev_step_bits; [by apply IH|lia|lia|]. intros E. rewrite E in Hc. by destruct Hc.
Qed.

Lemma rev_source_ok i : 0 ≤ i < 64 → rev_source (List.rev rev_masks) i = Some (63 - i).
Proof.
  intros Hi.
  assert (Hall : rev_source (List.rev rev_masks) <$> seqZ 0 64 = (λ i, Some (63 - i)) <$> seqZ 0 64)
    by (vm_compute; reflexivity).
  apply (f_equal (λ l, l !! Z.to_nat i)) in Hall.
  rewrite !list_lookup_fmap, !lookup_seqZ_lt in Hall by lia. cbn [fmap option_fmap option_map] in Hall.
  rewrite Z.add_0_l, Z2Nat.id in Hall by lia. by injection Hall.
Qed.

Lemma rev_bits v i : 0 ≤ i < 64 → Z.testbit (rev v) i = Z.testbit v (63 - i).
Proof.
  intros Hi. rewrite rev_unfold, <- fold_left_rev_right.
  apply (rev_source_bits (List.rev rev_masks) v i (63 - i)), rev_source_ok, Hi.
Qed.

Lemma rev_range v : in_u 64 v → in_u 64 (rev v).
Proof.
  intros Hv. rewrite rev_unfold, <- fold_left_rev_right.
  assert (∀ ms, Forall (λ '(s, m), 0 ≤ s ∧ in_u 64 m) ms →
    in_u 64 (foldr (λ (y : Z * Z) x, let '(s, m) := y in rev_step s m x) v ms)) as H.
  { induction 1 as [|[s m] ms [Hs Hm] _ IH]; simpl; [done|].
    unfold rev_step. set (x := foldr _ _ _) in *. apply in_u_bits; [lia| |].
    - apply Z.lor_nonneg. split; apply Z.land_nonneg.
      + left. apply Z.shiftr_nonneg, IH.
      + left. apply (uwrap_range 64). lia.
    - intros i Hi. rewrite Z.lor_spec, !Z.land_spec.
      rewrite (testbit_above m 64), (testbit_above (u64 _) 64) by (done || lia || apply uwrap_range; lia).
      by rewrite andb_false_r. }
  apply H. unfold rev_masks, in_u. simpl List.rev. repeat constructor; lia.
Qed.

Lemma rev_involutive v : in_u 64 v → rev (rev v) = v.
Proof.
  intros Hv. apply eq_bits64; [by apply rev_range, rev_range|done|].
  intros i Hi. rewrite !rev_bits by lia. f_equal. lia.
Qed.

(** ** The cursor in the reversed order

    With [r = rev v], one call at a table of [2^k] buckets visits the hashes
    whose reversal is in the block of [2^(64-k)] numbers that holds [r], and
    moves [r] to the start of the next block. *)

Definition next_block (p r : Z) : Z := (r `div` p + 1) * p.

Lemma next_block_gt p r : 0 < p → r < next_block p r.
Proof. intros. unfold next_block. pose proof (Z.mul_succ_div_gt r p). lia. Qed.

Lemma next_block_least p r c : 0 < p → r < c * p → next_block p r ≤ c * p.
Proof.
  intros Hp Hr. unfold next_block. apply Z.mul_le_mono_nonneg_r; [lia|].
  assert (r `div` p < c) by (apply Z.div_lt_upper_bound; lia). lia.
Qed.

Lemma next_block_same p r x : 0 < p → r ≤ x < next_block p r → x `div` p = r `div` p.
Proof.
  unfold next_block. intros Hp [Hl Hu].
  assert (r `div` p ≤ x `div` p) by (apply Z.div_le_mono; lia).
  assert (x `div` p < r `div` p + 1) by (apply Z.div_lt_upper_bound; lia). lia.
Qed.

(** Blocks of [p * q] numbers are unions of blocks of [p]. *)
Lemma next_block_nested p q r : 0 < p → 0 < q →
  next_block p r ≤ next_block (p * q) r ∧
  (next_block p r `mod` (p * q) = 0 → next_block p r = next_block (p * q) r) ∧
  (next_block p r `mod` (p * q) ≠ 0 →
     next_block p r < next_block (p * q) r ∧
     next_block (p * q) (next_block p r) = next_block (p * q) r).
Proof.
  intros Hp Hq. assert (0 < p * q) by lia.
  assert (H1 : next_block p r ≤ next_block (p * q) r).
  { unfold next_block at 2. replace (_ * (p * q)) with ((r `div` (p * q) + 1) * q * p) by ring.
    apply next_block_least; [done|]. pose proof (next_block_gt (p * q) r). unfold next_block in *. lia. }
  assert (Hgt := next_block_gt p r Hp).
  split_and!; [done| |].
  - intros Hm. apply Z.le_antisymm; [done|].
    apply Z.mod_divide in Hm as [c Hc]; [|lia]. rewrite Hc. apply next_block_least; lia.
  - intros Hm. assert (next_block p r ≠ next_block (p * q) r).
    { intros E. apply Hm. rewrite E. unfold next_block. apply Z.mod_mul. lia. }
    split; [lia|]. unfold next_block at 1 3. do 2 f_equal.
    apply next_block_same; lia.
Qed.

Lemma next_block_bound k r : 0 ≤ k ≤ 64 → 0 ≤ r < 2 ^ 64 → next_block (2 ^ (64 - k)) r ≤ 2 ^ 64.
Proof.
  intros Hk Hr. assert (2 ^ 64 = 2 ^ k * 2 ^ (64 - k)) as E
    by (rewrite <- Z.pow_add_r by lia; f_equal; lia).
  rewrite E. apply next_block_least; lia.
Qed.

Lemma lor_ones_next r j : 0 ≤ r → 0 ≤ j → Z.lor r (Z.ones j) + 1 = next_block (2 ^ j) r.
Proof.
  intros Hr Hj. assert (Z.lor r (Z.ones j) = Z.shiftl (Z.shiftr r j) j + Z.ones j) as ->.
  { assert (Z.land (Z.shiftl (Z.shiftr r j) j) (Z.ones j) = 0) as Hd.
    { apply Z.bits_inj'. intros i Hi. rewrite Z.land_spec, Z.shiftl_spec, testbit_ones_in by lia.
      rewrite Z.bits_0. case_bool_decide; [|by rewrite andb_false_r].
      by rewrite Z.testbit_neg_r by lia. }
    rewrite Z.add_nocarry_lxor, Z.lxor_lor by done.
    apply Z.bits_inj'. intros i Hi. rewrite !Z.lor_spec, Z.shiftl_spec, testbit_ones_in by lia.
    case_bool_decide; [by rewrite !orb_true_r|].
    rewrite Z.shiftr_spec by lia. do 2 f_equal. lia. }
  rewrite Z.shiftl_mul_pow2, Z.shiftr_div_pow2, Z.ones_equiv by lia. unfold next_block. lia.
Qed.

Lemma unot_ones_range k : 0 ≤ k ≤ 64 → in_u 64 (unot 64 (Z.ones k)).
Proof.
  intros. unfold unot. apply lxor_range; [lia|apply ones_range; lia..].
Qed.

Lemma rev_lor_unot v k : in_u 64 v → 0 ≤ k ≤ 64 →
  rev (Z.lor v (unot 64 (Z.ones k))) = Z.lor (rev v) (Z.ones (64 - k)).
Proof.
  intros Hv Hk. apply eq_bits64.
  - apply rev_range, lor_range; [lia|done|by apply unot_ones_range].
  - apply lor_range; [lia|by apply rev_range|apply ones_range; lia].
  - intros i Hi. rewrite rev_bits, !Z.lor_spec, rev_bits, testbit_unot, !testbit_ones_in by lia.
    f_equal. repeat case_bool_decide; done || lia.
Qed.

Lemma cursor_next_rev v k : in_u 64 v → 0 ≤ k ≤ 64 →
  in_u 64 (cursor_next v (Z.ones k)) ∧
  rev (cursor_next v (Z.ones k)) = u64 (next_block (2 ^ (64 - k)) (rev v)).
Proof.
  intros Hv Hk. unfold cursor_next. rewrite rev_lor_unot by done.
  pose proof (rev_range v Hv) as [Hr _]. rewrite lor_ones_next by lia.
  split; [apply rev_range|rewrite rev_involutive; [done|]]; by apply uwrap_range.
Qed.

(** Two hashes in the same block are in the same bucket. *)
Lemma same_bucket h v k : in_u 64 h → in_u 64 v → 0 ≤ k ≤ 64 →
  rev h `div` 2 ^ (64 - k) = rev v `div` 2 ^ (64 - k) →
  Z.land h (Z.ones k) = Z.land v (Z.ones k).
Proof.
  intros Hh Hv Hk E. apply Z.bits_inj'. intros i Hi. rewrite !Z.land_spec.
  rewrite testbit_ones_in by lia. case_bool_decide; [|by rewrite !andb_false_r]. f_equal.
  rewrite <- (rev_involutive h), <- (rev_involutive v) by done.
  rewrite (rev_bits (rev h)), (rev_bits (rev v)) by lia. replace (63 - i) with (k - 1 - i + (64 - k)) by lia.
  rewrite <- !Z.div_pow2_bits by lia. by rewrite E.
Qed.

(** The test of the [do ... while] loop. *)
Lemma loop_test v k0 k1 : in_u 64 v → 0 ≤ k0 ≤ k1 → k1 ≤ 64 → rev v `mod` 2 ^ (64 - k1) = 0 →
  Z.land v (Z.lxor (Z.ones k0) (Z.ones k1)) = 0 ↔ rev v `mod` 2 ^ (64 - k0) = 0.
Proof.
  intros Hv Hk0 Hk1 Hm. split; intros E.
  - apply Z.bits_inj'. intros i Hi. rewrite Z.testbit_mod_pow2, Z.bits_0 by lia.
    destruct (Z.ltb_spec i (64 - k0)); [|done]. simpl.
    destruct (decide (i < 64 - k1)).
    + rewrite <- (Z.mod_pow2_bits_low _ (64 - k1)) by lia. by rewrite Hm, Z.bits_0.
    + rewrite rev_bits by lia. apply (f_equal (λ x, Z.testbit x (63 - i))) in E.
      rewrite Z.land_spec, Z.lxor_spec, !testbit_ones_in, Z.bits_0 in E by lia.
      rewrite bool_decide_false, bool_decide_true in E by lia. by rewrite andb_true_r in E.
  - apply Z.bits_inj'. intros i Hi. rewrite Z.land_spec, Z.lxor_spec, !testbit_ones_in, Z.bits_0 by lia.
    destruct (decide (k0 ≤ i < k1)).
    + replace i with (63 - (63 - i)) by lia. rewrite <- rev_bits by lia.
      rewrite <- (Z.mod_pow2_bits_low _ (64 - k0)) by lia. by rewrite E, Z.bits_0.
    + repeat case_bool_decide; try lia; apply andb_false_r.
Qed.

(** ** What one call covers *)

Section scan_proofs.
Context {K V : Type} `{EqDecision K} (type : dictType K V) `{!DictTypeOk type}.
Implicit Types (d : dict K V) (h : dictht K V) (c : list (dictEntry K V)).

Abbreviation rhash e := (rev (hashFunction type (key e))).

(** The elements of [l] whose reversed hash is in [[lo,hi)] are in [em]. *)
Definition covers (l em : list (dictEntry K V)) (lo hi : Z) : Prop :=
  ∀ e, e ∈ l → lo ≤ rhash e < hi → e ∈ em.

Lemma elem_in_bucket h tb k e : ht_alloc type h tb k → e ∈ ht_entries h →
  ∃ c, bucket h (Z.land (hashFunction type (key e)) (sizemask h)) = Some c ∧ e ∈ c.
Proof.
  intros Ha He. rewrite (ht_alloc_entries _ _ _ _ Ha) in He.
  apply list_elem_of_In, in_concat in He as (c&Hc%list_elem_of_In&Hec%list_elem_of_In).
  apply list_elem_of_lookup in Hc as [i Hi]. exists c. split; [|done].
  pose proof (ha_chain _ _ _ _ Ha _ _ Hi) as Hch. unfold chain_ok in Hch. rewrite Forall_forall in Hch.
  unfold bucket. rewrite (ha_table _ _ _ _ Ha), (ha_mask _ _ _ _ Ha), Hch by done. simpl.
  rewrite decide_True by lia. by rewrite Nat2Z.id.
Qed.

Lemma bucket_covers h tb k vv c : ht_alloc type h tb k → in_u 64 vv →
  bucket h (Z.land vv (sizemask h)) = Some c →
  covers (ht_entries h) c (rev vv) (next_block (2 ^ (64 - k)) (rev vv)).
Proof.
  intros Ha Hv Hb e He Hr. destruct (elem_in_bucket _ _ _ _ Ha He) as (c'&Hc'&Hec).
  pose proof (ha_k _ _ _ _ Ha). rewrite (ha_mask _ _ _ _ Ha) in *.
  rewrite (same_bucket _ vv) in Hc'; [by simplify_option_eq|apply hash_range|done|lia|].
  apply next_block_same; lia.
Qed.

Lemma pow_split k0 k1 : 0 ≤ k0 ≤ k1 → k1 ≤ 64 → 2 ^ (64 - k0) = 2 ^ (64 - k1) * 2 ^ (k1 - k0).
Proof. intros. rewrite <- Z.pow_add_r by lia. f_equal. lia. Qed.

Lemma scan_expansions_spec fuel t h tb k0 k1 vv :
  ht_alloc type h tb k1 → 0 ≤ k0 ≤ k1 → in_u 64 vv →
  let hi := next_block (2 ^ (64 - k0)) (rev vv) in
  hi `div` 2 ^ (64 - k1) - rev vv `div` 2 ^ (64 - k1) ≤ Z.of_nat fuel →
  ∃ v' vs, scan_expansions fuel t h (Z.ones k0) (Z.ones k1) vv = Some (v', vs) ∧ in_u 64 v' ∧
    rev v' = u64 hi ∧ covers (ht_entries h) (emitted vs) (rev vv) hi.
Proof.
  intros Ha Hk0. revert vv. pose proof (ha_k _ _ _ _ Ha) as Hk1.
  pose proof (pow_split k0 k1 Hk0 ltac:(lia)) as Hpow.
  set (p := 2 ^ (64 - k1)) in *. set (q := 2 ^ (k1 - k0)) in *.
  assert (0 < p) by (apply Z.pow_pos_nonneg; lia). assert (0 < q) by (apply Z.pow_pos_nonneg; lia).
  induction fuel as [|fuel IH]; intros vv Hv hi Hf; unfold hi in *; rewrite Hpow in *.
  { pose proof (next_block_nested p q (rev vv)) as (Hle&_); [lia..|].
    assert (next_block p (rev vv) `div` p ≤ next_block (p * q) (rev vv) `div` p)
      by (apply Z.div_le_mono; lia).
    unfold next_block in H1 at 1. rewrite Z.div_mul in H1 by lia. lia. }
  destruct (bucket_of_hash type h tb k1 vv Ha) as (c&Hb&_).
  pose proof (bucket_covers _ _ _ _ _ Ha Hv Hb) as Hcov. fold p in Hcov.
  rewrite (ha_mask _ _ _ _ Ha) in Hb.
  cbn [scan_expansions]. rewrite Hb. cbn [mbind option_bind].
  destruct (cursor_next_rev vv k1 Hv ltac:(lia)) as [Hv' Hr']. fold p in Hr'.
  destruct (next_block_nested p q (rev vv)) as (Hle&Heq&Hlt); [lia..|].
  pose proof (next_block_bound k0 (rev vv) ltac:(lia) (rev_range _ Hv)) as Hb64. rewrite Hpow in Hb64.
  pose proof (next_block_gt p (rev vv) ltac:(lia)) as Hgt. pose proof (rev_range _ Hv) as [Hr0 _].
  assert (Hmodp : rev (cursor_next vv (Z.ones k1)) `mod` p = 0).
  { rewrite Hr'. destruct (decide (next_block p (rev vv) = 2 ^ 64)) as [->|]; [done|].
    rewrite uwrap_small by (unfold in_u; lia). unfold next_block. apply Z.mod_mul. lia. }
  pose proof (loop_test _ k0 k1 Hv' Hk0 ltac:(lia) Hmodp) as Htest. rewrite Hpow in Htest.
  destruct (Z.eqb_spec (Z.land (cursor_next vv (Z.ones k1)) (Z.lxor (Z.ones k0) (Z.ones k1))) 0) as [E|E].
  - eexists _, _. split; [done|]. split; [done|]. apply Htest in E. rewrite Hr' in E.
    assert (next_block p (rev vv) = next_block (p * q) (rev vv)) as E'.
    { destruct (decide (next_block p (rev vv) = 2 ^ 64)) as [E1|]; [lia|].
      rewrite uwrap_small in E by (unfold in_u; lia). by apply Heq. }
    rewrite Hr', <- E'. split; [done|]. unfold emitted. simpl. by rewrite app_nil_r.
  - assert (Hne : next_block p (rev vv) ≠ 2 ^ 64).
    { intros E1. apply E, Htest. by rewrite Hr', E1. }
    assert (Hnr : rev (cursor_next vv (Z.ones k1)) = next_block p (rev vv)).
    { rewrite Hr'. apply uwrap_small. unfold in_u. lia. }
    assert (Hm : next_block p (rev vv) `mod` (p * q) ≠ 0) by (rewrite <- Hnr; by rewrite <- Htest).
    destruct (Hlt Hm) as [Hlt1 Hend].
    destruct (IH (cursor_next vv (Z.ones k1)) Hv') as (v'&vs&->&Hv''&Hrv&Hcv).
    { rewrite Hnr, Hend. unfold next_block at 2. rewrite Z.div_mul by lia. lia. }
    rewrite Hnr, Hend in *. simpl. eexists _, _. split_and!; [done..|].
    intros e He Hre. unfold emitted in *. simpl. apply elem_of_app.
    destruct (decide (rhash e < next_block p (rev vv))); [left; apply Hcov|right; apply Hcv]; auto; lia.
Qed.

(** One call: the cursor advances in the reversed order to the start of the
    next block (0 at the end), and every element of the block is returned. *)
Lemma dictScan_spec d vv : dict_wf type d → in_u 64 vv →
  ∃ v' vs hi, dictScan d vv = Some (v', vs) ∧ in_u 64 v' ∧ rev v' = u64 hi ∧
    rev vv < hi ≤ 2 ^ 64 ∧ covers (entries d) (emitted vs) (rev vv) hi ∧
    (entries d ≠ [] → ∃ k, hi = next_block (2 ^ (64 - k)) (rev vv) ∧ 2 ≤ k ∧ 2 ^ k ≤ size (ht0 d)).
Proof.
  intros Hwf Hv. unfold dictScan, dictSize. pose proof (used_bounds _ _ Hwf) as (Hu0&Hu1&Hs&Hmax).
  rewrite uwrap_small by (unfold in_u, MAX_ENTRIES in *; lia). rewrite Hs.
  pose proof (rev_range _ Hv) as [Hr0 Hr1].
  destruct (Z.eqb_spec (Z.of_nat (length (entries d))) 0) as [E|E].
  { assert (entries d = []) as He by (apply nil_length_inv; lia).
    exists 0, [], (2 ^ 64). rewrite He. split_and!; try done; try lia.
    intros e []%not_elem_of_nil. }
  assert (entries d ≠ []) as Hne by (intros E'; by rewrite E' in E).
  destruct (ht0_alloc_nonempty type d Hwf Hne) as (tb0&k0&Ha0). pose proof (ha_k _ _ _ _ Ha0) as Hk0.
  destruct (dictIsRehashing d) eqn:Hr; simpl.
  - apply dictIsRehashing_spec in Hr. destruct (wf_rehash _ _ Hwf Hr) as [_ (tb1&k1&Ha1) _ _].
    pose proof (ha_k _ _ _ _ Ha1) as Hk1.
    assert (Hgo : ∀ i0 i1 tbs ks tbl kl, (i0 = 0%nat ∧ i1 = 1%nat ∨ i0 = 1%nat ∧ i1 = 0%nat) →
      ht_alloc type (get_ht d i0) tbs ks → ht_alloc type (get_ht d i1) tbl kl → ks ≤ kl →
      ∃ v' vs, (c ← bucket (get_ht d i0) (Z.land vv (sizemask (get_ht d i0)));
        '(v', vs) ← scan_expansions (Z.to_nat (size (get_ht d i1))) i1 (get_ht d i1)
           (sizemask (get_ht d i0)) (sizemask (get_ht d i1)) vv;
        Some (v', (i0, Z.land vv (sizemask (get_ht d i0)), c) :: vs)) = Some (v', vs) ∧ in_u 64 v' ∧
        rev v' = u64 (next_block (2 ^ (64 - ks)) (rev vv)) ∧
        covers (entries d) (emitted vs) (rev vv) (next_block (2 ^ (64 - ks)) (rev vv))).
    { intros i0 i1 tbs ks tbl kl Hi Has Hal Hle.
      pose proof (ha_k _ _ _ _ Has). pose proof (ha_k _ _ _ _ Hal).
      destruct (bucket_of_hash _ _ _ _ vv Has) as (c&Hb&_). rewrite Hb. simpl.
      pose proof (bucket_covers _ _ _ _ _ Has Hv Hb) as Hc1.
      destruct (scan_expansions_spec (Z.to_nat (size (get_ht d i1))) i1 _ _ ks kl vv Hal)
        as (v'&vs&He&Hv'&Hrv&Hcov); [lia|done| |].
      { rewrite (ha_size _ _ _ _ Hal), Z2Nat.id by lia.
        set (p := 2 ^ (64 - kl)). assert (0 < p) by (apply Z.pow_pos_nonneg; lia).
        assert (next_block (2 ^ (64 - ks)) (rev vv) `div` p ≤ 2 ^ kl).
        { transitivity (2 ^ 64 `div` p).
          - apply Z.div_le_mono; [done|]. apply next_block_bound; [lia|done].
          - unfold p. rewrite <- Z.pow_sub_r by lia. apply Z.pow_le_mono_r; lia. }
        assert (0 ≤ rev vv `div` p) by (apply Z.div_pos; lia). lia. }
      rewrite (ha_mask _ _ _ _ Has), (ha_mask _ _ _ _ Hal). rewrite He. simpl.
      eexists _, _. split_and!; [done..|]. intros e He' Hre. unfold emitted in *. simpl.
      apply elem_of_app. unfold entries in He'. apply elem_of_app in He'.
      destruct Hi as [[-> ->]|[-> ->]]; simpl in *; naive_solver. }
    destruct (Z.ltb_spec (size (ht1 d)) (size (ht0 d))) as [Hlt|Hge];
      rewrite (ha_size _ _ _ _ Ha0), (ha_size _ _ _ _ Ha1) in *.
    + destruct (Hgo 1%nat 0%nat tb1 k1 tb0 k0) as (v'&vs&Heq&?&?&?); [by right|done|done| |].
      { apply Z.pow_lt_mono_r_iff in Hlt; lia. }
      exists v', vs, (next_block (2 ^ (64 - k1)) (rev vv)).
      pose proof (next_block_gt (2 ^ (64 - k1)) (rev vv) ltac:(apply Z.pow_pos_nonneg; lia)).
      pose proof (next_block_bound k1 (rev vv) ltac:(lia) ltac:(done)).
      split_and!; [done..|]. intros _. exists k1. split_and!; [done|lia|lia].
    + destruct (Hgo 0%nat 1%nat tb0 k0 tb1 k1) as (v'&vs&Heq&?&?&?); [by left|done|done| |].
      { apply Z.pow_le_mono_r_iff in Hge; lia. }
      exists v', vs, (next_block (2 ^ (64 - k0)) (rev vv)).
      pose proof (next_block_gt (2 ^ (64 - k0)) (rev vv) ltac:(apply Z.pow_pos_nonneg; lia)).
      pose proof (next_block_bound k0 (rev vv) ltac:(lia) ltac:(done)).
      split_and!; [done..|]. intros _. exists k0. split_and!; [done|lia|lia].
  - apply dictIsRehashing_false in Hr. pose proof (wf_idle _ _ Hwf Hr) as H1.
    destruct (bucket_of_hash _ _ _ _ vv Ha0) as (c&Hb&_). rewrite Hb. simpl.
    pose proof (bucket_covers _ _ _ _ _ Ha0 Hv Hb) as Hcov.
    destruct (cursor_next_rev vv k0 Hv ltac:(lia)) as [Hv' Hrv].
    exists (cursor_next vv (sizemask (ht0 d))), [(0%nat, Z.land vv (sizemask (ht0 d)), c)],
      (next_block (2 ^ (64 - k0)) (rev vv)).
    pose proof (next_block_gt (2 ^ (64 - k0)) (rev vv) ltac:(apply Z.pow_pos_nonneg; lia)).
    pose proof (next_block_bound k0 (rev vv) ltac:(lia) ltac:(done)).
    rewrite (ha_mask _ _ _ _ Ha0) in *. split_and!; [done..| |].
    + intros e He Hre. unfold emitted. simpl. rewrite app_nil_r. apply Hcov; [|done].
      unfold entries in He. rewrite H1 in He. unfold ht_entries at 2 in He. simpl in He.
      by rewrite app_nil_r in He.
    + intros _. exists k0. rewrite (ha_size _ _ _ _ Ha0). split_and!; [done|lia|lia].
Qed.
End scan_proofs.

(** ** A whole iteration *)

Section scan_theorems.
Context {K V : Type} `{Countable K} (type : dictType K V) `{!DictTypeOk type}.
Implicit Types (d : dict K V).

Lemma rev_0 : rev 0 = 0.
Proof. vm_compute. reflexivity. Qed.

(** The outcome of a call, with the two cases of the cursor. *)
Lemma dictScan_cursor d vv : dict_wf type d → in_u 64 vv →
  ∃ v' vs hi, dictScan d vv = Some (v', vs) ∧ covers type (entries d) (emitted vs) (rev vv) hi ∧
    rev vv < hi ∧ (v' = 0 ∧ hi = 2 ^ 64 ∨ v' ≠ 0 ∧ in_u 64 v' ∧ rev v' = hi) ∧
    (entries d ≠ [] → ∃ k, hi = next_block (2 ^ (64 - k)) (rev vv) ∧ 2 ≤ k ∧ 2 ^ k ≤ size (ht0 d)) ∧
    (entries d = [] → v' = 0).
Proof.
  intros Hwf Hv. destruct (dictScan_spec type d vv Hwf Hv) as (v'&vs&hi&He&Hv'&Hr&Hhi&Hc&Hk).
  exists v', vs, hi. pose proof (rev_range _ Hv) as [Hr0 _]. split_and!; [done|done|lia| |done|].
  - destruct (decide (hi = 2 ^ 64)) as [->|].
    + left. split; [|done]. rewrite <- (rev_involutive v'), Hr by done. apply rev_0.
    + right. rewrite uwrap_small in Hr by (unfold in_u; lia). split_and!; [|done|done].
      intros ->. rewrite rev_0 in Hr. lia.
  - intros E. unfold dictScan, dictSize in He. pose proof (used_bounds _ _ Hwf) as (_&_&Hs&_).
    rewrite Hs, E in He. simpl in He. congruence.
Qed.

Lemma scan_seq_covers ds vv v' es (x : K) : Forall (dict_wf type) ds → in_u 64 vv →
  scan_seq ds vv = Some (v', es) → (∀ d, d ∈ ds → is_Some (dict_map d !! x)) →
  rev vv ≤ rev (hashFunction type x) → (v' = 0 ∧ (ds ≠ [] ∨ vv ≠ 0)) → x ∈ keys es.
Proof.
  intros Hwf. revert vv es. induction Hwf as [|d ds Hd Hds IH]; intros vv es Hv Hs Hx Hle [-> Hne].
  { simpl in Hs. simplify_eq. naive_solver. }
  simpl in Hs. destruct (dictScan_cursor d vv Hd Hv) as (v1&vs&hi&Hsc&Hcov&Hlt&Hcase&_).
  rewrite Hsc in Hs. simpl in Hs. pose proof (rev_range _ (hash_range x)) as [_ Hhx].
  assert (Hin : rev (hashFunction type x) < hi → x ∈ keys (emitted vs)).
  { intros Hh. assert (¬ (x ∉ keys (entries d))) as Hk.
    { intros Hn%dict_map_None. destruct (Hx d ltac:(left)). congruence. }
    apply dec_stable in Hk. unfold keys in *.
    apply list_elem_of_fmap in Hk as (e&->&He). apply list_elem_of_fmap. exists e. split; [done|].
    apply Hcov; [done|lia]. }
  destruct (Z.eqb_spec v1 0) as [->|Hn0].
  - simplify_eq. apply Hin. destruct Hcase as [[_ ->]|[? _]]; [done|done].
  - destruct Hcase as [[? _]|(_&Hv1&Hr1)]; [done|].
    destruct (scan_seq ds v1) as [[v2 es2]|] eqn:Hs2; simpl in Hs; [|done]. simplify_eq.
    unfold keys. rewrite fmap_app, elem_of_app.
    destruct (decide (rev (hashFunction type x) < rev v1)); [left; by apply Hin|right].
    eapply IH; [done|done| |lia|split; [done|by right]]. intros d' Hd'. apply Hx. by right.
Qed.

(** C4. SCAN guarantee.  Call [dictScan] from cursor 0, once on each of any
    sequence of well-formed states of the table (the table may be modified,
    resized or rehashed between the calls), until it returns 0.  Every key
    present in all those states has been passed to the callback. *)
Theorem dictScan_complete ds es x :
  Forall (dict_wf type) ds → ds ≠ [] → scan_seq ds 0 = Some (0, es) →
  (∀ d, d ∈ ds → is_Some (dict_map d !! x)) → x ∈ keys es.
Proof.
  intros Hwf Hne Hs Hx. eapply scan_seq_covers; [done| |done|done| |by auto].
  - split; lia.
  - rewrite rev_0. apply (rev_range _ (hash_range x)).
Qed.

Lemma scan_seq_done k ds vv : 2 ≤ k ≤ 63 → in_u 64 vv →
  Forall (λ d, dict_wf type d ∧ size (ht0 d) ≤ 2 ^ k) ds →
  2 ^ k - rev vv `div` 2 ^ (64 - k) ≤ Z.of_nat (length ds) →
  ∃ es, scan_seq ds vv = Some (0, es).
Proof.
  intros Hk Hv Hds. revert vv Hv. set (p := 2 ^ (64 - k)).
  assert (0 < p) as Hp by (apply Z.pow_pos_nonneg; lia).
  assert (p * 2 ^ k = 2 ^ 64) as Hpk by (unfold p; rewrite <- Z.pow_add_r by lia; f_equal; lia).
  induction Hds as [|d ds [Hd Hsz] Hds IH]; intros vv Hv Hlen; simpl in *.
  { pose proof (rev_range _ Hv) as [? Hr]. assert (rev vv `div` p < 2 ^ k); [|lia].
    apply Z.div_lt_upper_bound; lia. }
  destruct (dictScan_cursor d vv Hd Hv) as (v1&vs&hi&->&_&_&Hcase&Hblk&Hemp). simpl.
  destruct (Z.eqb_spec v1 0) as [->|Hn0]; [by eexists|].
  destruct Hcase as [[? _]|(_&Hv1&Hr1)]; [done|].
  destruct (decide (entries d = [])) as [E|E]; [by apply Hemp in E|].
  destruct (Hblk E) as (k'&Hhi&Hk'2&Hk').
  assert (k' ≤ k) by (apply (Z.pow_le_mono_r_iff 2); lia).
  destruct (IH v1 Hv1) as [es ->]; [|by eexists].
  destruct (next_block_nested p (2 ^ (k - k')) (rev vv) Hp) as (Hle&_); [apply Z.pow_pos_nonneg; lia|].
  unfold p in Hle at 2. rewrite <- (pow_split k' k) in Hle by lia. rewrite <- Hhi, <- Hr1 in Hle.
  assert (next_block p (rev vv) `div` p ≤ rev v1 `div` p) as Hd1 by (apply Z.div_le_mono; lia).
  unfold next_block in Hd1. rewrite Z.div_mul in Hd1 by lia. lia.
Qed.

(** C5. SCAN terminates.  If no state of the table has a first table of more
    than 2^k buckets, the cursor is back to 0 after at most 2^k calls, and no
    call reads outside of a table. *)
Theorem dictScan_terminates k ds : 2 ≤ k ≤ 63 →
  Forall (λ d, dict_wf type d ∧ size (ht0 d) ≤ 2 ^ k) ds → 2 ^ k ≤ Z.of_nat (length ds) →
  ∃ es, scan_seq ds 0 = Some (0, es).
Proof.
  intros Hk Hds Hlen. apply (scan_seq_done k); [done|split; lia|done|].
  rewrite rev_0, Z.div_0_l; [lia|]. apply Z.pow_nonzero; lia.
Qed.
End scan_theorems.

(** SCAN of the demo table before, in the middle of and after its rehash. *)
Definition demo_after (n : nat) : dict Z Z :=
  match dictRehash demoType demo n with Some (d, _) => d | None => demo end.
Definition demo_states : list (dict Z Z) :=
  [demo; demo; demo_after 1] ++ replicate 8 (demo_after 4).

Lemma demo_after_wf n : dict_wf demoType (demo_after n).
Proof.
  unfold demo_after. destruct (decide (Z.of_nat n * 10 < 2 ^ 31)) as [Hn|Hn].
  - destruct (dictRehash_spec demoType demo n demo_wf ltac:(done) Hn) as (d&rc&->&[]); done.
  - unfold dictRehash. rewrite bool_decide_false by done. apply demo_wf.
Qed.

Lemma demo_states_wf : Forall (λ d, dict_wf demoType d ∧ size (ht0 d) ≤ 2 ^ 3) demo_states.
Proof.
  pose proof demo_wf. pose proof demo_after_wf. unfold demo_states. simpl app.
  repeat (constructor; [split; [done|vm_compute; discriminate]|]). constructor.
Qed.

Definition demo_es : list (dictEntry Z Z) :=
  Eval vm_compute in match scan_seq demo_states 0 with Some (_, es) => es | None => [] end.

Lemma dictScan_complete_witness : 6 ∈ keys demo_es.
Proof.
  apply (dictScan_complete demoType demo_states demo_es 6).
  - apply (Forall_impl _ _ _ demo_states_wf). by intros d [].
  - done.
  - vm_compute. reflexivity.
  - apply Forall_forall. unfold demo_states. simpl app.
    repeat (constructor; [vm_compute; eexists; reflexivity|]). constructor.
Defined.

Lemma dictScan_terminates_witness : ∃ es, scan_seq demo_states 0 = Some (0, es).
Proof.
  apply (dictScan_terminates demoType 3 demo_states); [lia|exact demo_states_wf|vm_compute; discriminate].
Defined.
