(* ===== verification/Intset.v ===== *)
(** * intset.c: sorted arrays of integers, 16, 32 or 64 bits wide

    An intset is the block of bytes the C structure describes: [contents] is
    read and written through casts at the width given by [encoding], grows and
    shrinks by [zrealloc] (fresh bytes have an arbitrary value [junk]) and is
    shifted by [memmove].  The host is little endian, so that the [*ifbe]
    macros of endianconv.h are the identity.  Accesses outside of the block are
    [None]. *)

From S2P Require Import Prelude.

Definition INTSET_ENC_INT16 : Z := 2.
Definition INTSET_ENC_INT32 : Z := 4.
Definition INTSET_ENC_INT64 : Z := 8.

Record intset := IS { encoding : Z; is_length : Z; contents : list Z }.

Section ops.
Context (junk : Z).

Definition _intsetValueEncoding (v : Z) : Z :=
  if (v <? - 2 ^ 31) || (2 ^ 31 - 1 <? v) then INTSET_ENC_INT64
  else if (v <? - 2 ^ 15) || (2 ^ 15 - 1 <? v) then INTSET_ENC_INT32
  else INTSET_ENC_INT16.

Definition load (m : list Z) (pos enc : Z) : option Z :=
  bs ← mread m (pos * enc) enc; Some (swrap (8 * enc) (le_val bs)).

Definition _intsetGetEncoded (is_ : intset) (pos enc : Z) : option Z :=
  if enc =? INTSET_ENC_INT64 then load (contents is_) pos 8
  else if enc =? INTSET_ENC_INT32 then load (contents is_) pos 4
  else load (contents is_) pos 2.

Definition _intsetGet (is_ : intset) (pos : Z) : option Z :=
  _intsetGetEncoded is_ pos (encoding is_).

Definition store (m : list Z) (pos : Z) (n : nat) (value : Z) : option (list Z) :=
  mwrite m (pos * Z.of_nat n) (le_bytes n value).

Definition set_contents (is_ : intset) (m : list Z) : intset :=
  IS (encoding is_) (is_length is_) m.
Definition set_length (is_ : intset) (n : Z) : intset := IS (encoding is_) n (contents is_).

Definition _intsetSet (is_ : intset) (pos value : Z) : option intset :=
  m ← (if encoding is_ =? INTSET_ENC_INT64 then store (contents is_) pos 8 value
       else if encoding is_ =? INTSET_ENC_INT32 then store (contents is_) pos 4 value
       else store (contents is_) pos 2 value);
  Some (set_contents is_ m).

Definition intsetNew : intset := IS INTSET_ENC_INT16 0 [].

Definition intsetResize (is_ : intset) (len : Z) : intset :=
  let size := u32 (len * encoding is_) in
  set_contents is_ (mresize junk (contents is_) (Z.to_nat size)).

(** The binary search loop: the final [min], [mid] and [cur]. *)
Fixpoint search_loop (fuel : nat) (is_ : intset) (value min max mid cur : Z) :
    option (Z * Z * Z) :=
  match fuel with
  | O => None
  | S f =>
      if max <? min then Some (min, mid, cur) else
      let mid := Z.shiftr (u32 (u32 min + u32 max)) 1 in
      cur ← _intsetGet is_ mid;
      if cur <? value then search_loop f is_ value (mid + 1) max mid cur
      else if value <? cur then search_loop f is_ value min (mid - 1) mid cur
      else Some (min, mid, cur)
  end.

(** Returns the result (1 found, 0 not found) and [*pos]. *)
Definition intsetSearch (is_ : intset) (value : Z) : option (Z * Z) :=
  let max := s32 (is_length is_ - 1) in
  if is_length is_ =? 0 then Some (0, 0) else
  last ← _intsetGet is_ max;
  if last <? value then Some (0, is_length is_) else
  first ← _intsetGet is_ 0;
  if value <? first then Some (0, 0) else
  '(min, mid, cur) ← search_loop (S (Z.to_nat (is_length is_))) is_ value 0 max (-1) (-1);
  if value =? cur then Some (1, mid) else Some (0, min).

(** [while(length--) _intsetSet(is,length+prepend,_intsetGetEncoded(is,length,curenc))] *)
Fixpoint upgrade_loop (length : nat) (is_ : intset) (prepend curenc : Z) : option intset :=
  match length with
  | O => Some is_
  | S l =>
      v ← _intsetGetEncoded is_ (Z.of_nat l) curenc;
      is_' ← _intsetSet is_ (Z.of_nat l + prepend) v;
      upgrade_loop l is_' prepend curenc
  end.

Definition intsetUpgradeAndAdd (is_ : intset) (value : Z) : option intset :=
  let curenc := encoding is_ in
  let newenc := _intsetValueEncoding value in
  let length := is_length is_ in
  let prepend := if value <? 0 then 1 else 0 in
  let is1 := IS newenc (is_length is_) (contents is_) in
  let is2 := intsetResize is1 (u32 (is_length is1 + 1)) in
  is3 ← upgrade_loop (Z.to_nat length) is2 prepend curenc;
  is4 ← (if prepend =? 1 then _intsetSet is3 0 value
         else _intsetSet is3 (is_length is3) value);
  Some (set_length is4 (u32 (is_length is4 + 1))).

Definition intsetMoveTail (is_ : intset) (from to : Z) : option intset :=
  let bytes := u32 (is_length is_ - from) in
  let enc := if encoding is_ =? INTSET_ENC_INT64 then 8
             else if encoding is_ =? INTSET_ENC_INT32 then 4 else 2 in
  m ← mmove (contents is_) (to * enc) (from * enc) (u32 (bytes * enc));
  Some (set_contents is_ m).

(** Returns the new intset and [*success]. *)
Definition intsetAdd (is_ : intset) (value : Z) : option (intset * Z) :=
  let valenc := _intsetValueEncoding value in
  if encoding is_ <? valenc then
    is_' ← intsetUpgradeAndAdd is_ value; Some (is_', 1)
  else
    '(found, pos) ← intsetSearch is_ value;
    if found =? 1 then Some (is_, 0) else
    let is1 := intsetResize is_ (u32 (is_length is_ + 1)) in
    is2 ← (if pos <? is_length is1 then intsetMoveTail is1 pos (u32 (pos + 1)) else Some is1);
    is3 ← _intsetSet is2 pos value;
    Some (set_length is3 (u32 (is_length is3 + 1)), 1).

Definition intsetRemove (is_ : intset) (value : Z) : option (intset * Z) :=
  let valenc := _intsetValueEncoding value in
  if negb (valenc <=? encoding is_) then Some (is_, 0) else
  '(found, pos) ← intsetSearch is_ value;
  if negb (found =? 1) then Some (is_, 0) else
  let len := is_length is_ in
  is1 ← (if pos <? u32 (len - 1) then intsetMoveTail is_ (u32 (pos + 1)) pos else Some is_);
  let is2 := intsetResize is1 (u32 (len - 1)) in
  Some (set_length is2 (u32 (len - 1)), 1).

Definition intsetFind (is_ : intset) (value : Z) : option bool :=
  let valenc := _intsetValueEncoding value in
  if negb (valenc <=? encoding is_) then Some false else
  '(found, _) ← intsetSearch is_ value; Some (found =? 1).

(** [rand()] is the argument [r]; C's [%] is by the unsigned length. *)
Definition intsetRandom (is_ : intset) (r : Z) : option Z :=
  if is_length is_ =? 0 then None (* division by zero *)
  else _intsetGet is_ (r `mod` is_length is_).

(** Returns the result and [*value]. *)
Definition intsetGet (is_ : intset) (pos : Z) : option (option Z) :=
  if pos <? is_length is_ then v ← _intsetGet is_ pos; Some (Some v) else Some None.

Definition intsetLen (is_ : intset) : Z := is_length is_.

(** [sizeof(intset)] is 8: the two 32-bit fields. *)
Definition intsetBlobLen (is_ : intset) : Z := 8 + u32 (is_length is_ * encoding is_).
End ops.

(** ** Representation *)

(** [set-max-intset-entries] is far below; at 2^29 elements of 8 bytes the
    32-bit byte counts of the code overflow. *)
Definition MAX_INTSET : Z := 2 ^ 28.

Record intset_repr (is_ : intset) (vs : list Z) : Prop := {
  ir_enc : encoding is_ = 2 ∨ encoding is_ = 4 ∨ encoding is_ = 8;
  ir_contents : contents is_ = arr (Z.to_nat (encoding is_)) vs;
  ir_length : is_length is_ = Z.of_nat (length vs);
  ir_sorted : StronglySorted Z.lt vs;
  ir_range : Forall (in_s (8 * encoding is_)) vs;
  ir_bound : Z.of_nat (length vs) ≤ MAX_INTSET }.

Lemma sorted_lookup_lt vs i j x y : StronglySorted Z.lt vs → (i < j)%nat →
  vs !! i = Some x → vs !! j = Some y → x < y.
Proof.
  intros Hs. revert i j. induction Hs as [|z vs Hs IH Hall]; intros i j Hij Hx Hy; [done|].
  destruct j as [|j]; [lia|]. destruct i as [|i]; simpl in *.
  - simplify_eq. rewrite Forall_forall in Hall. apply Hall. by eapply list_elem_of_lookup_2.
  - eapply IH; [|done|done]. lia.
Qed.

Lemma sorted_app_intro (l1 l2 : list Z) : StronglySorted Z.lt l1 → StronglySorted Z.lt l2 →
  (∀ x y, x ∈ l1 → y ∈ l2 → x < y) → StronglySorted Z.lt (l1 ++ l2).
Proof.
  intros H1 H2 H. induction H1 as [|x l1 Hs IH Hall]; simpl; [done|]. constructor.
  - apply IH. intros. apply H; [by right|done].
  - apply Forall_app. split; [done|]. apply Forall_forall. intros y Hy. apply H; [by left|done].
Qed.

Lemma sorted_app_inv (l1 l2 : list Z) : StronglySorted Z.lt (l1 ++ l2) →
  StronglySorted Z.lt l1 ∧ StronglySorted Z.lt l2 ∧ (∀ x y, x ∈ l1 → y ∈ l2 → x < y).
Proof.
  induction l1 as [|x l1 IH]; simpl; intros H.
  - split_and!; [constructor|done|]. by intros ?? ?%not_elem_of_nil.
  - inversion H as [|? ? Hs Hall]; subst. destruct (IH Hs) as (?&?&Hlt). split_and!; [|done|].
    + constructor; [done|]. by apply Forall_app in Hall as [].
    + intros a b [->|?]%elem_of_cons Hb; [|by apply Hlt].
      apply Forall_app in Hall as [_ Hall]. rewrite Forall_forall in Hall. by apply Hall.
Qed.

(** The insertion point of [value]: everything before is smaller, everything
    from there on is greater. *)
Definition splits (vs : list Z) (pos : nat) (value : Z) : Prop :=
  (pos ≤ length vs)%nat ∧ Forall (λ x, x < value) (take pos vs) ∧ Forall (λ x, value < x) (drop pos vs).

Lemma splits_intro vs pos value : (pos ≤ length vs)%nat →
  (∀ i x, (i < pos)%nat → vs !! i = Some x → x < value) →
  (∀ i x, (pos ≤ i)%nat → vs !! i = Some x → value < x) → splits vs pos value.
Proof.
  intros Hp Hl Hr. split_and!; [done|..]; apply Forall_lookup; intros i x.
  - intros [? ?]%lookup_take_Some. by eapply Hl.
  - rewrite lookup_drop. apply Hr. lia.
Qed.

Lemma splits_not_in vs pos value : splits vs pos value → value ∉ vs.
Proof.
  intros (_&H1&H2). rewrite <- (take_drop pos vs), not_elem_of_app. rewrite Forall_forall in H1, H2.
  split; intros Hin; [apply H1 in Hin|apply H2 in Hin]; lia.
Qed.

Lemma splits_sorted vs pos value : StronglySorted Z.lt vs → splits vs pos value →
  StronglySorted Z.lt (take pos vs ++ value :: drop pos vs).
Proof.
  intros Hs (_&H1&H2). rewrite <- (take_drop pos vs) in Hs.
  apply sorted_app_inv in Hs as (Hs1&Hs2&H12). rewrite Forall_forall in H1, H2.
  apply sorted_app_intro; [done|constructor; [done|by apply Forall_forall]|].
  intros x y Hx [->|Hy]%elem_of_cons; [by apply H1|by apply H12].
Qed.

(** ** Access to one element *)

Lemma enc_nat e : e = 2 ∨ e = 4 ∨ e = 8 → Z.of_nat (Z.to_nat e) = e ∧ (0 < Z.to_nat e)%nat.
Proof. lia. Qed.

Lemma load_arr m rest vs i x e : m = arr (Z.to_nat e) vs ++ rest →
  e = 2 ∨ e = 4 ∨ e = 8 → vs !! i = Some x → in_s (8 * e) x → load m (Z.of_nat i) e = Some x.
Proof.
  intros -> He Hi Hx. destruct (enc_nat e He) as [Hn Hp]. unfold load.
  rewrite (arr_read _ _ i x) by (done || lia). simpl. f_equal.
  pose proof (le_roundtrip_s (Z.to_nat e) x Hp) as H. rewrite Hn in H. by apply H.
Qed.

Lemma getEncoded_load is_ pos e : e = 2 ∨ e = 4 ∨ e = 8 →
  _intsetGetEncoded is_ pos e = load (contents is_) pos e.
Proof. by intros [->|[->| ->]]. Qed.

Lemma get_repr is_ vs i x : intset_repr is_ vs → vs !! i = Some x →
  _intsetGet is_ (Z.of_nat i) = Some x.
Proof.
  intros [He Hc _ _ Hr _] Hi. unfold _intsetGet. rewrite getEncoded_load by done.
  eapply (load_arr _ []); [by rewrite app_nil_r|done|done|].
  rewrite Forall_lookup in Hr. by eapply Hr.
Qed.

Lemma set_store is_ pos value : encoding is_ = 2 ∨ encoding is_ = 4 ∨ encoding is_ = 8 →
  _intsetSet is_ pos value =
    m ← store (contents is_) pos (Z.to_nat (encoding is_)) value; Some (set_contents is_ m).
Proof. unfold _intsetSet. by intros [->|[->| ->]]. Qed.

Lemma set_arr is_ vs i value : encoding is_ = 2 ∨ encoding is_ = 4 ∨ encoding is_ = 8 →
  contents is_ = arr (Z.to_nat (encoding is_)) vs → (i < length vs)%nat →
  _intsetSet is_ (Z.of_nat i) value =
    Some (set_contents is_ (arr (Z.to_nat (encoding is_)) (<[i:=value]> vs))).
Proof.
  intros He Hc Hi. rewrite set_store by done. unfold store. rewrite Hc.
  rewrite (arr_write _ _ i) by lia. done.
Qed.

(** ** Search *)

Lemma search_loop_spec fuel is_ vs value mn mx mid cur : intset_repr is_ vs →
  0 ≤ mn → mx < Z.of_nat (length vs) → mn ≤ mx + 1 → mx - mn + 1 < Z.of_nat fuel →
  (cur ≠ value ∨ mn ≤ mx) →
  (∀ i x, Z.of_nat i < mn → vs !! i = Some x → x < value) →
  (∀ i x, mx < Z.of_nat i → vs !! i = Some x → value < x) →
  ∃ mn' mid' cur', search_loop fuel is_ value mn mx mid cur = Some (mn', mid', cur') ∧
    (cur' = value ∧ 0 ≤ mid' ∧ vs !! Z.to_nat mid' = Some value ∨
     cur' ≠ value ∧ 0 ≤ mn' ∧ splits vs (Z.to_nat mn') value).
Proof.
  intros Hr. pose proof (ir_bound _ _ Hr) as Hb. unfold MAX_INTSET in Hb.
  revert mn mx mid cur. induction fuel as [|f IH]; intros mn mx mid cur Hmn Hmx Hle Hf Hcur Hlow Hhigh; [lia|].
  cbn [search_loop]. destruct (Z.ltb_spec mx mn) as [Hlt|Hge].
  { eexists _, _, _. split; [done|]. right. split_and!; [by destruct Hcur; [|lia]|done|].
    apply splits_intro; [lia| |]; intros i x Hi; [apply Hlow|apply Hhigh]; lia. }
  rewrite !uwrap_small by (unfold in_u; repeat rewrite uwrap_small; unfold in_u; lia).
  set (m := Z.shiftr (mn + mx) 1). assert (Hm : mn ≤ m ≤ mx).
  { unfold m. rewrite Z.shiftr_div_pow2 by lia. change (2 ^ 1) with 2.
    pose proof (Z.div_mod (mn + mx) 2). pose proof (Z.mod_pos_bound (mn + mx) 2). lia. }
  destruct (lookup_lt_is_Some_2 vs (Z.to_nat m)) as [x Hx]; [lia|].
  pose proof (get_repr _ _ _ _ Hr Hx) as Hg. rewrite Z2Nat.id in Hg by lia.
  rewrite Hg. cbn [mbind option_bind].
  pose proof (ir_sorted _ _ Hr) as Hs.
  destruct (Z.ltb_spec x value) as [Hxv|Hxv].
  - apply IH; [lia..|left; lia| |done]. intros i y Hi Hy.
    destruct (decide (i = Z.to_nat m)) as [->|]; [congruence|].
    assert (y < x) by (eapply (sorted_lookup_lt vs i); [done| |done|done]; lia). lia.
  - destruct (Z.ltb_spec value x) as [Hvx|Hvx].
    + apply IH; [lia..|left; lia|done|]. intros i y Hi Hy.
      destruct (decide (i = Z.to_nat m)) as [->|]; [congruence|].
      assert (x < y) by (eapply (sorted_lookup_lt vs (Z.to_nat m)); [done| |done|done]; lia). lia.
    + assert (x = value) as -> by lia. eexists _, _, _. split; [done|]. left. split_and!; [done|lia|done].
Qed.

Lemma search_spec is_ vs value : intset_repr is_ vs →
  ∃ found pos, intsetSearch is_ value = Some (found, Z.of_nat pos) ∧
    (found = 1 ∧ vs !! pos = Some value ∨ found = 0 ∧ splits vs pos value).
Proof.
  intros Hr. pose proof Hr as [He Hc Hl Hs Hrange Hb]. unfold intsetSearch, MAX_INTSET in *.
  destruct (Z.eqb_spec (is_length is_) 0) as [H0|H0].
  { exists 0, 0%nat. split; [done|]. right. split; [done|].
    destruct vs; [|simpl in Hl; lia]. split_and!; [done|constructor|constructor]. }
  rewrite swrap_small by (unfold in_s; simpl; lia).
  assert (Hn : (0 < length vs)%nat) by lia.
  destruct (lookup_lt_is_Some_2 vs (length vs - 1)) as [la Hla]; [lia|].
  pose proof (get_repr _ _ _ _ Hr Hla) as Hg. replace (Z.of_nat (length vs - 1)) with (is_length is_ - 1) in Hg by lia.
  rewrite Hg. cbn [mbind option_bind].
  destruct (Z.ltb_spec la value) as [Hlv|Hlv].
  { exists 0, (length vs). rewrite Hl. split; [done|]. right. split; [done|]. apply splits_intro; [done| |].
    - intros i x Hi Hx. destruct (decide (i = length vs - 1)%nat) as [->|]; [congruence|].
      assert (x < la) by (eapply (sorted_lookup_lt vs i); [done| |done|done]; lia). lia.
    - intros i x Hi Hx. apply lookup_lt_Some in Hx. lia. }
  destruct (lookup_lt_is_Some_2 vs 0) as [fi Hfi]; [done|].
  pose proof (get_repr _ _ _ _ Hr Hfi) as Hg0. change (Z.of_nat 0) with 0 in Hg0. rewrite Hg0. cbn [mbind option_bind].
  destruct (Z.ltb_spec value fi) as [Hvf|Hvf].
  { exists 0, 0%nat. split; [done|]. right. split; [done|]. apply splits_intro; [lia|lia|].
    intros i x Hi Hx. destruct (decide (i = 0)%nat) as [->|]; [congruence|].
    assert (fi < x) by (eapply (sorted_lookup_lt vs 0 i); [done| |done|done]; lia). lia. }
  destruct (search_loop_spec (S (Z.to_nat (is_length is_))) is_ vs value 0 (is_length is_ - 1) (-1) (-1) Hr)
    as (mn&mid&cur&->&Hcase); [lia..| | |].
  { intros i x Hi. lia. }
  { intros i x Hi Hx. apply lookup_lt_Some in Hx. lia. }
  cbn [mbind option_bind]. destruct Hcase as [(->&Hmid&Hv)|(Hcur&Hmn&Hsp)].
  - rewrite Z.eqb_refl. exists 1, (Z.to_nat mid). rewrite Z2Nat.id by lia. auto.
  - rewrite (proj2 (Z.eqb_neq _ _)) by done. exists 0, (Z.to_nat mn). rewrite Z2Nat.id by lia. auto.
Qed.

(** ** Widths *)

Lemma valueEncoding_cases v :
  _intsetValueEncoding v = 2 ∧ in_s 16 v ∨
  _intsetValueEncoding v = 4 ∧ in_s 32 v ∧ ¬ in_s 16 v ∨
  _intsetValueEncoding v = 8 ∧ ¬ in_s 32 v.
Proof.
  unfold _intsetValueEncoding, INTSET_ENC_INT16, INTSET_ENC_INT32, INTSET_ENC_INT64, in_s. simpl.
  destruct (Z.ltb_spec v (- 2 ^ 31)), (Z.ltb_spec (2 ^ 31 - 1) v), (Z.ltb_spec v (- 2 ^ 15)),
    (Z.ltb_spec (2 ^ 15 - 1) v); simpl; lia.
Qed.

Lemma in_s_mono w w' v : 0 < w ≤ w' → in_s w v → in_s w' v.
Proof.
  unfold in_s. intros. assert (2 ^ (w - 1) ≤ 2 ^ (w' - 1)) by (apply Z.pow_le_mono_r; lia). lia.
Qed.

(** A value fits an encoding exactly when its own encoding is not wider. *)
Lemma valueEncoding_fits v e : in_s 64 v → e = 2 ∨ e = 4 ∨ e = 8 →
  _intsetValueEncoding v ≤ e ↔ in_s (8 * e) v.
Proof.
  intros Hv He. destruct (valueEncoding_cases v) as [[-> H]|[(->&H&Hn)|(->&H)]].
  - split; [|lia]. intros _. eapply in_s_mono; [|exact H]. lia.
  - split; intros; [eapply in_s_mono; [|exact H]; lia|].
    destruct He as [->|[->| ->]]; [done|lia|lia].
  - split; intros Hx; [|destruct He as [->|[->| ->]]; [|done|lia]].
    + by assert (e = 8) as -> by lia.
    + exfalso. apply H. eapply in_s_mono; [|exact Hx]. lia.
Qed.

Lemma valueEncoding_enc v : let e := _intsetValueEncoding v in e = 2 ∨ e = 4 ∨ e = 8.
Proof. destruct (valueEncoding_cases v); naive_solver. Qed.

(** ** Modification *)

Section modify.
Context (junk : Z) (Hjunk : byte_ok junk).

Lemma arr_junk n : arr n [le_val (replicate n junk)] = replicate n junk.
Proof.
  unfold arr. simpl. rewrite app_nil_r. rewrite <- (length_replicate n junk) at 1.
  apply le_bytes_val. by apply Forall_replicate.
Qed.

Lemma resize_grow is_ vs : encoding is_ = 2 ∨ encoding is_ = 4 ∨ encoding is_ = 8 →
  contents is_ = arr (Z.to_nat (encoding is_)) vs → Z.of_nat (length vs) ≤ MAX_INTSET →
  ∃ j, intsetResize junk is_ (Z.of_nat (length vs) + 1) =
    set_contents is_ (arr (Z.to_nat (encoding is_)) (vs ++ [j])).
Proof.
  intros He Hc Hb. unfold intsetResize, MAX_INTSET in *.
  rewrite uwrap_small by (unfold in_u; nia).
  exists (le_val (replicate (Z.to_nat (encoding is_)) junk)). f_equal.
  rewrite arr_app, arr_junk, Hc. unfold mresize. rewrite length_arr. f_equal.
  - apply take_ge. rewrite length_arr. nia.
  - f_equal. nia.
Qed.

Lemma resize_shrink is_ vs w : encoding is_ = 2 ∨ encoding is_ = 4 ∨ encoding is_ = 8 →
  contents is_ = arr (Z.to_nat (encoding is_)) (vs ++ w) → Z.of_nat (length vs) ≤ MAX_INTSET →
  intsetResize junk is_ (Z.of_nat (length vs)) = set_contents is_ (arr (Z.to_nat (encoding is_)) vs).
Proof.
  intros He Hc Hb. unfold intsetResize, MAX_INTSET in *.
  rewrite uwrap_small by (unfold in_u; nia). f_equal. rewrite Hc, arr_app. unfold mresize.
  assert (Z.to_nat (Z.of_nat (length vs) * encoding is_) = length (arr (Z.to_nat (encoding is_)) vs)) as ->
    by (rewrite length_arr; nia).
  rewrite take_app_length, length_app. replace (_ - _)%nat with 0%nat by lia.
  simpl. by rewrite app_nil_r.
Qed.

(** In the middle of the upgrade loop: [l] elements still in the old width at
    the front, the others already in the new width at the back. *)
Lemma upgrade_loop_spec l is_ p old vs front back : encoding is_ = 4 ∨ encoding is_ = 8 →
  (old = 2 ∨ old = 4) → old ≤ encoding is_ → Forall (in_s (8 * old)) vs → (l ≤ length vs)%nat →
  p = 0 ∨ p = 1 →
  contents is_ = arr (Z.to_nat old) (take l vs) ++ front ++ arr (Z.to_nat (encoding is_)) (drop l vs) ++ back →
  Z.of_nat (length (arr (Z.to_nat old) (take l vs) ++ front)) = (Z.of_nat l + p) * encoding is_ →
  ∃ gap, Z.of_nat (length gap) = p * encoding is_ ∧
    upgrade_loop l is_ p old =
      Some (set_contents is_ (gap ++ arr (Z.to_nat (encoding is_)) vs ++ back)).
Proof.
  intros Henc Hold Hle Hvs. revert is_ front Henc Hle.
  induction l as [|l IH]; intros is_ front Henc Hle Hl Hp Hc Hlen; simpl in *.
  { exists front. split; [lia|]. destruct is_; simpl in *. by rewrite Hc. }
  destruct (lookup_lt_is_Some_2 vs l) as [x Hx]; [lia|].
  assert (Hxr : in_s (8 * old) x) by (rewrite Forall_lookup in Hvs; by eapply Hvs).
  rewrite getEncoded_load by lia.
  rewrite (load_arr _ (front ++ arr (Z.to_nat (encoding is_)) (drop (S l) vs) ++ back) (take (S l) vs) l x);
    [|done|lia|by rewrite lookup_take_lt by lia|done].
  simpl. rewrite set_store by lia. unfold store.
  (* the bytes under the store: the end of the old elements and of the gap *)
  set (n := Z.to_nat (encoding is_)) in *. set (whole := arr (Z.to_nat old) (take (S l) vs) ++ front) in *.
  assert (Hcut : whole = take ((l + Z.to_nat p) * n) whole ++ drop ((l + Z.to_nat p) * n) whole)
    by (by rewrite take_drop).
  assert (Htake : take (S l) vs = take l vs ++ [x]) by (by apply take_S_r).
  assert (Hpre : ∃ front', take ((l + Z.to_nat p) * n) whole = arr (Z.to_nat old) (take l vs) ++ front').
  { eexists. unfold whole. rewrite Htake, arr_app, <- app_assoc. rewrite take_app_ge; [done|].
    rewrite length_arr, length_take. unfold n. nia. }
  destruct Hpre as [front' Hpre].
  assert (Hc' : contents is_ = take ((l + Z.to_nat p) * n) whole ++ drop ((l + Z.to_nat p) * n) whole ++
                  arr n (drop (S l) vs) ++ back).
  { rewrite Hc. rewrite (app_assoc (arr _ _)). fold whole. by rewrite Hcut, <- !app_assoc at 1. }
  rewrite Hc', (mwrite_app _ (drop ((l + Z.to_nat p) * n) whole)).
  2: { rewrite length_take. unfold n. nia. }
  2: { rewrite length_le_bytes, length_drop. unfold n. nia. }
  cbn [mbind option_bind].
  set (m' := take ((l + Z.to_nat p) * n) whole ++ le_bytes n x ++ arr n (drop (S l) vs) ++ back).
  destruct (IH (set_contents is_ m') front') as (gap&Hg1&Hg2); [done|done|lia|done| | |].
  - simpl. fold n. unfold m'. rewrite Hpre, <- app_assoc, (drop_S vs x l Hx). do 2 f_equal.
    unfold arr. simpl. by rewrite <- app_assoc.
  - simpl. rewrite <- Hpre, length_take. unfold n. nia.
  - exists gap. split; [done|]. simpl in Hg2. fold n in Hg2. rewrite Hg2. done.
Qed.
End modify.

Section theorems.
Context (junk : Z) (Hjunk : byte_ok junk).

Lemma u32_len z : 0 ≤ z ≤ MAX_INTSET + 1 → u32 z = z.
Proof. intros. apply uwrap_small. unfold in_u, MAX_INTSET in *. lia. Qed.

Lemma moveTail_arr is_ from to : encoding is_ = 2 ∨ encoding is_ = 4 ∨ encoding is_ = 8 →
  0 ≤ is_length is_ - from ≤ MAX_INTSET →
  intsetMoveTail is_ from to =
    m ← mmove (contents is_) (to * encoding is_) (from * encoding is_)
          ((is_length is_ - from) * encoding is_);
    Some (set_contents is_ m).
Proof.
  intros He Hb. unfold intsetMoveTail, MAX_INTSET in *.
  rewrite (uwrap_small 32 (is_length is_ - from)) by (unfold in_u; lia).
  destruct He as [->|[->| ->]]; simpl; (rewrite uwrap_small by (unfold in_u; lia)); done.
Qed.

(** Opening a slot at [pos] in a block with room for one more element. *)
Lemma open_slot is_ vs j pos : encoding is_ = 2 ∨ encoding is_ = 4 ∨ encoding is_ = 8 →
  contents is_ = arr (Z.to_nat (encoding is_)) (vs ++ [j]) → is_length is_ = Z.of_nat (length vs) →
  (pos ≤ length vs)%nat → Z.of_nat (length vs) ≤ MAX_INTSET →
  ∃ y, (if Z.of_nat pos <? is_length is_ then intsetMoveTail is_ (Z.of_nat pos) (u32 (Z.of_nat pos + 1))
        else Some is_) =
    Some (set_contents is_ (arr (Z.to_nat (encoding is_)) (take pos vs ++ y :: drop pos vs))).
Proof.
  intros He Hc Hl Hpos Hb. destruct (Z.ltb_spec (Z.of_nat pos) (is_length is_)) as [Hlt|Hge].
  - destruct (lookup_lt_is_Some_2 vs pos) as [y Hy]; [lia|]. exists y.
    rewrite u32_len, moveTail_arr by lia.
    rewrite Hc. replace (vs ++ [j]) with (take pos vs ++ drop pos vs ++ [j])
      by (by rewrite app_assoc, take_drop).
    rewrite (arr_move _ (take pos vs) (drop pos vs) [j] (drop (S pos) vs ++ [j]) _ _ _) with
      (a := take pos vs ++ [y]) (b := []).
    + simpl. by rewrite app_nil_r, <- app_assoc.
    + rewrite length_app, !length_drop. simpl. lia.
    + rewrite length_take. nia.
    + rewrite length_drop. nia.
    + rewrite app_nil_r, (drop_S vs y pos Hy), <- app_assoc. done.
    + rewrite length_app, length_take. simpl. nia.
  - exists j. rewrite take_ge, drop_ge by lia. rewrite <- Hc. by destruct is_.
Qed.

Lemma add_same is_ vs value : intset_repr is_ vs → in_s (8 * encoding is_) value →
  Z.of_nat (length vs) < MAX_INTSET → encoding is_ <? _intsetValueEncoding value = false →
  ∃ is' ok, intsetAdd junk is_ value = Some (is', ok) ∧ encoding is' = encoding is_ ∧
    (ok = 0 ∧ value ∈ vs ∧ is' = is_ ∨
     ok = 1 ∧ value ∉ vs ∧ ∃ vs', intset_repr is' vs' ∧ vs' ≡ₚ value :: vs).
Proof.
  intros Hr Hfit Hmax Hcmp. pose proof Hr as [He Hc Hl Hs Hrange Hb].
  unfold intsetAdd. rewrite Hcmp.
  destruct (search_spec _ _ value Hr) as (found&pos&->&[[-> Hpos]|[-> Hsp]]); cbn [mbind option_bind].
  - eexists _, _. split_and!; [done..|]. left. split_and!; [done|by eapply list_elem_of_lookup_2|done].
  - simpl. rewrite u32_len, Hl by lia. destruct (resize_grow junk Hjunk is_ vs He Hc Hb) as [j ->].
    destruct (open_slot (set_contents is_ (arr (Z.to_nat (encoding is_)) (vs ++ [j]))) vs j pos)
      as [y Hy]; [done..|apply Hsp|done|]. simpl in Hy. rewrite <- Hl. rewrite Hy. cbn [mbind option_bind].
    erewrite (set_arr _ (take pos vs ++ y :: drop pos vs) pos); [|done|done|].
    2: { destruct Hsp as [? _]. rewrite length_app, length_take. simpl. lia. }
    simpl. rewrite u32_len, Hl by lia. eexists _, _. split_and!; [done..|]. right.
    split_and!; [done|by eapply splits_not_in|].
    assert (Hpl : length (take pos vs) = pos) by (rewrite length_take; destruct Hsp; lia).
    exists (take pos vs ++ value :: drop pos vs).
    assert (take pos vs ++ value :: drop pos vs ≡ₚ value :: vs) as Hperm.
    { rewrite <- Permutation_middle. by rewrite take_drop. }
    split; [|done]. split; simpl; [done| | |by apply splits_sorted| |].
    + rewrite <- Hpl at 1. by rewrite insert_app_r_alt, Nat.sub_diag by lia.
    + rewrite Hperm. simpl. lia.
    + by rewrite Hperm, Forall_cons.
    + rewrite Hperm. simpl. lia.
Qed.

(** A value that does not fit lies outside the range of all the elements. *)
Lemma wide_value_extreme is_ vs value : intset_repr is_ vs → ¬ in_s (8 * encoding is_) value →
  splits vs (if value <? 0 then 0%nat else length vs) value.
Proof.
  intros [He _ _ _ Hrange _] Hn. rewrite Forall_lookup in Hrange. unfold in_s in *.
  destruct (Z.ltb_spec value 0); apply splits_intro; try lia; intros i x Hi Hx.
  - apply Hrange in Hx. lia.
  - apply Hrange in Hx. lia.
  - apply lookup_lt_Some in Hx. lia.
Qed.

(** The whole upgrade loop, on a block resized for one more element. *)
Lemma upgrade_layout is_ vs old p fr : encoding is_ = 4 ∨ encoding is_ = 8 →
  (old = 2 ∨ old = 4) → old ≤ encoding is_ → Forall (in_s (8 * old)) vs → p = 0 ∨ p = 1 →
  contents is_ = arr (Z.to_nat old) vs ++ fr →
  Z.of_nat (length (contents is_)) = (Z.of_nat (length vs) + 1) * encoding is_ →
  ∃ gap bk, length gap = (Z.to_nat p * Z.to_nat (encoding is_))%nat ∧
    length bk = (Z.to_nat (1 - p) * Z.to_nat (encoding is_))%nat ∧
    upgrade_loop (length vs) is_ p old =
      Some (set_contents is_ (gap ++ arr (Z.to_nat (encoding is_)) vs ++ bk)).
Proof.
  intros He Ho Hle Hvs Hp Hc Hlen. rewrite Hc, length_app, length_arr in Hlen.
  set (k := (Z.to_nat ((Z.of_nat (length vs) + p) * encoding is_) - length (arr (Z.to_nat old) vs))%nat).
  assert (Hk : Z.of_nat k = (Z.of_nat (length vs) + p) * encoding is_ - Z.of_nat (Z.to_nat old * length vs))
    by (unfold k; rewrite length_arr; nia).
  destruct (upgrade_loop_spec (length vs) is_ p old vs (take k fr) (drop k fr)) as (gap&Hg&Hgo);
    [done|done|done|done|done|done| | |].
  - rewrite take_ge, drop_ge by lia. simpl. by rewrite take_drop.
  - rewrite take_ge, length_app, length_take, length_arr by lia. nia.
  - exists gap, (drop k fr). split_and!; [nia| |done]. rewrite length_drop. nia.
Qed.

Lemma upgradeAndAdd_spec is_ vs value : intset_repr is_ vs → in_s 64 value →
  Z.of_nat (length vs) < MAX_INTSET → encoding is_ < _intsetValueEncoding value →
  ∃ is', intsetUpgradeAndAdd junk is_ value = Some is' ∧ value ∉ vs ∧
    encoding is' = _intsetValueEncoding value ∧
    ∃ vs', intset_repr is' vs' ∧ vs' ≡ₚ value :: vs.
Proof.
  intros Hr Hv Hmax Hlt. pose proof Hr as [He Hc Hl Hs Hrange Hb].
  pose proof (valueEncoding_enc value) as Hve. simpl in Hve.
  assert (Hnf : ¬ in_s (8 * encoding is_) value)
    by (intros Hf; apply (valueEncoding_fits value) in Hf; [lia|done|done]).
  assert (Hfit : in_s (8 * _intsetValueEncoding value) value) by (by apply valueEncoding_fits).
  pose proof (wide_value_extreme _ _ _ Hr Hnf) as Hsp.
  unfold intsetUpgradeAndAdd, intsetResize. set (ne := _intsetValueEncoding value) in *. simpl.
  rewrite Hl, (u32_len (Z.of_nat (length vs) + 1)), Nat2Z.id by lia. unfold MAX_INTSET in *. rewrite (uwrap_small 32) by (unfold in_u; nia).
  set (total := Z.to_nat ((Z.of_nat (length vs) + 1) * ne)).
  set (is1 := set_contents _ _).
  set (fr := replicate (total - length (contents is_)) junk).
  set (p := if value <? 0 then 1 else 0).
  destruct (upgrade_layout is1 vs (encoding is_) p fr) as (gap&bk&Hgl&Hbl&Hgo); simpl;
    [lia|lia|lia|done|unfold p; case_match; auto| | |].
  { unfold mresize, fr. rewrite Hc, take_ge; [done|]. rewrite length_arr. unfold total. nia. }
  { unfold mresize. rewrite Hc, length_app, length_take, length_replicate, length_arr. unfold total. nia. }
  rewrite Hgo. cbn [mbind option_bind]. simpl in Hgl, Hbl. rewrite !set_store by done. unfold store. simpl.
  set (n := Z.to_nat ne) in *.
  assert (Hrepr : ∀ pos, splits vs pos value → ∀ m, m = arr n (take pos vs ++ value :: drop pos vs) →
    intset_repr (IS ne (Z.of_nat (length vs) + 1) m) (take pos vs ++ value :: drop pos vs) ∧
    take pos vs ++ value :: drop pos vs ≡ₚ value :: vs).
  { intros pos Hpos m ->.
    assert (take pos vs ++ value :: drop pos vs ≡ₚ value :: vs) as Hperm
      by (rewrite <- Permutation_middle; by rewrite take_drop).
    split; [|done]. split; simpl; [done|done| |by apply splits_sorted| |].
    - rewrite Hperm. simpl. lia.
    - rewrite Hperm, Forall_cons. split; [done|]. eapply Forall_impl; [exact Hrange|].
      intros x Hx. eapply in_s_mono; [|exact Hx]. lia.
    - rewrite Hperm. simpl. unfold MAX_INTSET. lia. }
  pose proof (splits_not_in _ _ _ Hsp) as Hni.
  unfold p in *. clear p. destruct (value <? 0); simpl in *.
  - pose proof (mwrite_app [] gap (le_bytes n value) (arr n vs ++ bk) (0 * Z.of_nat n) eq_refl) as Hw.
    simpl app in Hw. rewrite Hw by (rewrite length_le_bytes; lia). cbn [mbind option_bind].
    assert (bk = []) as -> by (apply nil_length_inv; lia). rewrite app_nil_r. simpl.
    rewrite u32_len by (unfold MAX_INTSET; lia). eexists. split_and!; [done|done|done|].
    destruct (Hrepr _ Hsp (le_bytes n value ++ arr n vs)) as [? Hp]; [done|]. eauto.
  - assert (gap = []) as -> by (apply nil_length_inv; lia). simpl.
    replace (arr n vs ++ bk) with (arr n vs ++ bk ++ []) by (by rewrite app_nil_r).
    rewrite (mwrite_app (arr n vs) bk) by (rewrite ?length_arr, ?length_le_bytes; lia). cbn [mbind option_bind].
    simpl. rewrite u32_len by (unfold MAX_INTSET; lia). eexists. split_and!; [done|done|done|].
    destruct (Hrepr _ Hsp (arr n vs ++ le_bytes n value ++ [])) as [? Hp]; [|eauto].
    rewrite take_ge, drop_ge, arr_app by lia. done.
Qed.

Lemma intsetAdd_spec is_ vs value : intset_repr is_ vs → in_s 64 value →
  Z.of_nat (length vs) < MAX_INTSET →
  ∃ is' ok, intsetAdd junk is_ value = Some (is', ok) ∧
    encoding is' = Z.max (encoding is_) (_intsetValueEncoding value) ∧
    (ok = 0 ∧ value ∈ vs ∧ is' = is_ ∨
     ok = 1 ∧ value ∉ vs ∧ ∃ vs', intset_repr is' vs' ∧ vs' ≡ₚ value :: vs).
Proof.
  intros Hr Hv Hmax. destruct (Z.ltb_spec (encoding is_) (_intsetValueEncoding value)) as [Hlt|Hge].
  - destruct (upgradeAndAdd_spec is_ vs value Hr Hv Hmax Hlt) as (is'&Hu&Hni&He&Hvs).
    exists is', 1. unfold intsetAdd. rewrite (proj2 (Z.ltb_lt _ _)), Hu by done.
    split; [done|]. split; [lia|]. auto.
  - destruct (add_same is_ vs value Hr) as (is'&ok&Ha&He&Hcase); [|done|by apply Z.ltb_ge|].
    + by apply valueEncoding_fits; [|apply Hr|].
    + exists is', ok. split; [done|]. split; [lia|done].
Qed.

(** C6. [intsetAdd] inserts exactly the missing values: on a sorted intset it
    returns 0 and the same block when the value is there, else 1 and a block
    that holds the value besides the old ones, again sorted, at the width the
    widest of them needs.  Every access of the search, of the in-place
    upgrade loop and of [memmove] is inside the block. *)
Theorem intsetAdd_correct is_ vs value : intset_repr is_ vs → in_s 64 value →
  Z.of_nat (length vs) < MAX_INTSET →
  ∃ is' ok, intsetAdd junk is_ value = Some (is', ok) ∧
    encoding is' = Z.max (encoding is_) (_intsetValueEncoding value) ∧
    (ok = 0 ∧ value ∈ vs ∧ is' = is_ ∨
     ok = 1 ∧ value ∉ vs ∧ ∃ vs', intset_repr is' vs' ∧ vs' ≡ₚ value :: vs).
Proof. apply intsetAdd_spec. Qed.

(** [intsetRemove] deletes exactly the given value and keeps the order and
    the width. *)
Theorem intsetRemove_correct is_ vs value : intset_repr is_ vs → in_s 64 value →
  ∃ is' ok, intsetRemove junk is_ value = Some (is', ok) ∧ encoding is' = encoding is_ ∧
    (ok = 0 ∧ value ∉ vs ∧ is' = is_ ∨
     ok = 1 ∧ ∃ vs', intset_repr is' vs' ∧ vs ≡ₚ value :: vs').
Proof.
  intros Hr Hv. pose proof Hr as [He Hc Hl Hs Hrange Hb]. unfold intsetRemove.
  destruct (Z.leb_spec (_intsetValueEncoding value) (encoding is_)) as [Hle|Hgt]; simpl.
  2: { eexists _, _. split_and!; [done..|]. left. split_and!; [done| |done].
       intros Hin. rewrite Forall_forall in Hrange. apply Hrange in Hin.
       apply (valueEncoding_fits value) in Hin; [lia|done|done]. }
  destruct (search_spec _ _ value Hr) as (found&pos&->&[[-> Hpos]|[-> Hsp]]); cbn [mbind option_bind].
  2: { simpl. eexists _, _. split_and!; [done..|]. left. by apply splits_not_in in Hsp. }
  simpl. pose proof (lookup_lt_Some _ _ _ Hpos) as Hlt. unfold MAX_INTSET in *.
  rewrite !Hl, !(u32_len (Z.of_nat (length vs) - 1)) by (unfold MAX_INTSET; lia).
  set (vs' := take pos vs ++ drop (S pos) vs).
  assert (Hlen' : Z.of_nat (length vs') = Z.of_nat (length vs) - 1)
    by (unfold vs'; rewrite length_app, length_take, length_drop; lia).
  assert (Hmv : ∃ b, (if Z.of_nat pos <? Z.of_nat (length vs) - 1
     then intsetMoveTail is_ (u32 (Z.of_nat pos + 1)) (Z.of_nat pos) else Some is_) =
     Some (set_contents is_ (arr (Z.to_nat (encoding is_)) (vs' ++ b)))).
  { destruct (Z.ltb_spec (Z.of_nat pos) (Z.of_nat (length vs) - 1)).
    - exists (drop (length vs - 1) vs). rewrite u32_len, moveTail_arr by (unfold MAX_INTSET; lia).
      rewrite Hc. unfold vs'. replace (arr _ vs) with (arr (Z.to_nat (encoding is_)) (take (S pos) vs ++ drop (S pos) vs ++ []))
        by (by rewrite app_nil_r, take_drop).
      rewrite (arr_move _ (take (S pos) vs) (drop (S pos) vs) []
        (take (length vs - S pos) (drop pos vs)) _ _ _) with (a := take pos vs) (b := drop (length vs - 1) vs).
      + cbn [mbind option_bind]. by rewrite app_assoc.
      + rewrite length_take, !length_drop. lia.
      + rewrite length_take. nia.
      + rewrite length_drop. nia.
      + rewrite app_nil_r, take_drop. rewrite <- (take_drop pos vs) at 1. f_equal.
        rewrite <- (take_drop (length vs - S pos) (drop pos vs)) at 1. f_equal.
        rewrite drop_drop. f_equal. lia.
      + rewrite length_take. nia.
    - exists [value]. assert (pos = length vs - 1)%nat as -> by lia. unfold vs'.
      rewrite drop_ge, !app_nil_r by lia. rewrite <- (take_S_r _ _ _ Hpos), take_ge, <- Hc by lia.
      by destruct is_. }
  destruct Hmv as [b ->]. cbn [mbind option_bind].
  rewrite <- Hlen'. rewrite (resize_shrink junk _ vs' b) by (done || unfold MAX_INTSET; lia).
  eexists _, _. split_and!; [done..|]. right. split; [done|]. exists vs'.
  assert (vs ≡ₚ value :: vs') as Hperm.
  { rewrite <- (take_drop_middle _ _ _ Hpos) at 1. unfold vs'. by rewrite <- Permutation_middle. }
  split; [|done]. split; simpl; [done|done|done| | |unfold MAX_INTSET; lia].
  - rewrite <- (take_drop_middle _ _ _ Hpos) in Hs. apply sorted_app_inv in Hs as (H1&H2&H12).
    inversion H2; subst. apply sorted_app_intro; [done|done|]. intros x y Hx Hy. apply H12; [done|by right].
  - rewrite Hperm, Forall_cons in Hrange. apply Hrange.
Qed.

(** Membership, access by position and size of the blob: [intsetFind] is
    membership, [intsetGet] the element in increasing order (or 0 past the
    end), [intsetRandom] an element, [intsetBlobLen] the bytes of the block. *)
Theorem intset_queries_correct is_ vs value r pos : intset_repr is_ vs → in_s 64 value → 0 ≤ r → 0 ≤ pos →
  intsetFind is_ value = Some (bool_decide (value ∈ vs)) ∧
  intsetGet is_ pos = Some (vs !! Z.to_nat pos) ∧
  (vs ≠ [] → ∃ x, intsetRandom is_ r = Some x ∧ x ∈ vs) ∧
  intsetLen is_ = Z.of_nat (length vs) ∧
  intsetBlobLen is_ = 8 + Z.of_nat (length (contents is_)).
Proof.
  intros Hr Hv Hr0 Hpos0. pose proof Hr as [He Hc Hl Hs Hrange Hb]. unfold MAX_INTSET in *. split_and!.
  - unfold intsetFind.
    destruct (Z.leb_spec (_intsetValueEncoding value) (encoding is_)) as [Hle|Hgt]; simpl.
    + destruct (search_spec _ _ value Hr) as (found&p&->&[[-> Hpos]|[-> Hsp]]); cbn [mbind option_bind]; simpl.
      * rewrite bool_decide_true; [done|]. by eapply list_elem_of_lookup_2.
      * rewrite bool_decide_false; [done|]. by eapply splits_not_in.
    + rewrite bool_decide_false; [done|]. intros Hin. rewrite Forall_forall in Hrange. apply Hrange in Hin.
      apply (valueEncoding_fits value) in Hin; [lia|done|done].
  - unfold intsetGet. destruct (Z.ltb_spec pos (is_length is_)) as [Hlt|Hge].
    + destruct (lookup_lt_is_Some_2 vs (Z.to_nat pos)) as [x Hx]; [lia|].
      pose proof (get_repr _ _ _ _ Hr Hx) as Hg. rewrite Z2Nat.id in Hg by done. by rewrite Hg, Hx.
    + rewrite lookup_ge_None_2; [done|lia].
  - intros Hne. unfold intsetRandom.
    assert (0 < length vs)%nat by (destruct vs; [done|simpl; lia]).
    rewrite (proj2 (Z.eqb_neq _ _)) by lia.
    pose proof (Z.mod_pos_bound r (is_length is_) ltac:(lia)).
    destruct (lookup_lt_is_Some_2 vs (Z.to_nat (r `mod` is_length is_))) as [x Hx]; [lia|].
    pose proof (get_repr _ _ _ _ Hr Hx) as Hg. rewrite Z2Nat.id in Hg by lia.
    exists x. split; [done|]. by eapply list_elem_of_lookup_2.
  - done.
  - unfold intsetBlobLen. rewrite Hc, length_arr, uwrap_small by (unfold in_u; nia). nia.
Qed.
End theorems.

(** ** A concrete intset *)

Lemma intset_repr_dec_3 : intset_repr (IS 2 3 (arr 2 [-5; 7; 300])) [-5; 7; 300].
Proof.
  split; simpl; [by left|done|done| | |unfold MAX_INTSET; lia].
  - repeat constructor; lia.
  - repeat constructor; unfold in_s; lia.
Qed.

Lemma intsetAdd_correct_witness :
  ∃ is' ok, intsetAdd 170 (IS 2 3 (arr 2 [-5; 7; 300])) (-70000) = Some (is', ok) ∧
    encoding is' = Z.max 2 4 ∧
    (ok = 0 ∧ -70000 ∈ [-5; 7; 300] ∧ is' = IS 2 3 (arr 2 [-5; 7; 300]) ∨
     ok = 1 ∧ -70000 ∉ [-5; 7; 300] ∧ ∃ vs', intset_repr is' vs' ∧ vs' ≡ₚ [-70000; -5; 7; 300]).
Proof.
  apply (intsetAdd_correct 170 ltac:(unfold in_u; lia) (IS 2 3 (arr 2 [-5; 7; 300])) [-5; 7; 300] (-70000)).
  - exact intset_repr_dec_3.
  - unfold in_s. lia.
  - vm_compute. reflexivity.
Defined.

Lemma intsetRemove_correct_witness :
  ∃ is' ok, intsetRemove 170 (IS 2 3 (arr 2 [-5; 7; 300])) 7 = Some (is', ok) ∧ encoding is' = 2 ∧
    (ok = 0 ∧ 7 ∉ [-5; 7; 300] ∧ is' = IS 2 3 (arr 2 [-5; 7; 300]) ∨
     ok = 1 ∧ ∃ vs', intset_repr is' vs' ∧ [-5; 7; 300] ≡ₚ 7 :: vs').
Proof.
  apply (intsetRemove_correct 170 (IS 2 3 (arr 2 [-5; 7; 300])) [-5; 7; 300] 7).
  - exact intset_repr_dec_3.
  - unfold in_s. lia.
Defined.

Lemma intset_queries_correct_witness :
  let is_ := IS 2 3 (arr 2 [-5; 7; 300]) in
  intsetFind is_ 300 = Some (bool_decide (300 ∈ [-5; 7; 300])) ∧
  intsetGet is_ 1 = Some ([-5; 7; 300] !! 1%nat) ∧
  ([-5; 7; 300] ≠ [] → ∃ x, intsetRandom is_ 11 = Some x ∧ x ∈ [-5; 7; 300]) ∧
  intsetLen is_ = 3 ∧ intsetBlobLen is_ = 8 + 6.
Proof.
  apply (intset_queries_correct (IS 2 3 (arr 2 [-5; 7; 300])) [-5; 7; 300] 300 11 1).
  - exact intset_repr_dec_3.
  - unfold in_s. lia.
  - lia.
  - lia.
Defined.
