(* ===== verification/Decimal.v ===== *)
(** * Decimal representation of integers

    The reference the number printers and parsers of the code (sds.c, util.c)
    are compared with: [decimal v] is the canonical string of digits of [v],
    [dec_val] its value, [decimal_z] adds the sign. *)

From S2P Require Import Prelude.

(** Value of a string of digits, most significant first. *)
Definition dec_val (ds : list Z) : Z := fold_left (λ a c, a * 10 + (c - 48)) ds 0.

Definition is_digit (c : Z) : Prop := 48 ≤ c ≤ 57.

(** Digits of [v], least significant first. *)
Fixpoint digits_rev (fuel : nat) (v : Z) : list Z :=
  match fuel with
  | O => []
  | S f => 48 + v `mod` 10 :: (if v `div` 10 =? 0 then [] else digits_rev f (v `div` 10))
  end.

Definition decimal (v : Z) : list Z := reverse (digits_rev 20 v).

Definition decimal_z (v : Z) : list Z := if v <? 0 then 45 :: decimal (- v) else decimal v.

Lemma dec_val_snoc ds c : dec_val (ds ++ [c]) = dec_val ds * 10 + (c - 48).
Proof. unfold dec_val. by rewrite fold_left_app. Qed.

Lemma digits_rev_val fuel v : 0 ≤ v < 10 ^ Z.of_nat fuel → (0 < fuel)%nat →
  dec_val (reverse (digits_rev fuel v)) = v.
Proof.
  revert v. induction fuel as [|f IH]; intros v Hv Hf; [lia|]. cbn [digits_rev].
  rewrite reverse_cons, dec_val_snoc.
  pose proof (Z.div_mod v 10 ltac:(done)). destruct (Z.eqb_spec (v `div` 10) 0) as [E|E].
  { cbn. lia. }
  rewrite Nat2Z.inj_succ, Z.pow_succ_r in Hv by lia. rewrite IH; [lia| |].
  - split; [apply Z.div_pos; lia|]. apply Z.div_lt_upper_bound; lia.
  - destruct f; [|lia]. change (10 ^ Z.of_nat 0) with 1 in Hv.
    rewrite Z.div_small in E by lia. done.
Qed.

Lemma digits_rev_digits fuel v : 0 ≤ v → Forall is_digit (digits_rev fuel v).
Proof.
  revert v. induction fuel as [|f IH]; intros v Hv; cbn [digits_rev]; constructor.
  - unfold is_digit. pose proof (Z.mod_pos_bound v 10). lia.
  - case_match; [constructor|]. apply IH, Z.div_pos; lia.
Qed.

(** The most significant digit is not 0, except for the number 0. *)
Lemma digits_rev_last fuel v : 0 < v < 10 ^ Z.of_nat fuel →
  ∃ d ds, digits_rev fuel v = ds ++ [d] ∧ 49 ≤ d ≤ 57.
Proof.
  revert v. induction fuel as [|f IH]; intros v Hv; [change (10 ^ Z.of_nat 0) with 1 in Hv; lia|].
  cbn [digits_rev]. pose proof (Z.mod_pos_bound v 10). pose proof (Z.div_mod v 10 ltac:(done)).
  destruct (Z.eqb_spec (v `div` 10) 0) as [E|E].
  - exists (48 + v `mod` 10), []. split; [done|lia].
  - rewrite Nat2Z.inj_succ, Z.pow_succ_r in Hv by lia.
    destruct (IH (v `div` 10)) as (d & ds & -> & ?).
    { pose proof (Z.div_pos v 10 ltac:(lia) ltac:(done)). split; [lia|]. apply Z.div_lt_upper_bound; lia. }
    exists d, (48 + v `mod` 10 :: ds). done.
Qed.

Lemma digits_rev_length fuel v : (length (digits_rev fuel v) ≤ fuel)%nat.
Proof. revert v. induction fuel; intros; simpl; [lia|]. case_match; simpl; [lia|]. specialize (IHfuel (v `div` 10)). lia. Qed.

(** More fuel than digits makes no difference. *)
Lemma digits_rev_fuel f1 f2 v : 0 ≤ v < 10 ^ Z.of_nat f1 → (0 < f1 ≤ f2)%nat →
  digits_rev f1 v = digits_rev f2 v.
Proof.
  revert f2 v. induction f1 as [|f1 IH]; intros [|f2] v Hv Hf; try lia. cbn [digits_rev]. f_equal.
  destruct (Z.eqb_spec (v `div` 10) 0) as [E|E]; [done|].
  rewrite Nat2Z.inj_succ, Z.pow_succ_r in Hv by lia. apply IH.
  - split; [apply Z.div_pos; lia|]. apply Z.div_lt_upper_bound; lia.
  - destruct f1; [|lia]. change (10 ^ Z.of_nat 0) with 1 in Hv. rewrite Z.div_small in E by lia. done.
Qed.

Lemma decimal_val v : in_u 64 v → dec_val (decimal v) = v.
Proof. intros [??]. apply digits_rev_val; [split; [done|]; simpl; lia|lia]. Qed.

Lemma decimal_digits v : 0 ≤ v → Forall is_digit (decimal v).
Proof. intros. by apply Forall_reverse, digits_rev_digits. Qed.

Lemma decimal_length v : (length (decimal v) ≤ 20)%nat.
Proof. unfold decimal. rewrite length_reverse. apply digits_rev_length. Qed.

Lemma decimal_head v : in_u 64 v → v ≠ 0 → ∃ d ds, decimal v = d :: ds ∧ 49 ≤ d ≤ 57.
Proof.
  intros [??] ?. destruct (digits_rev_last 20 v) as (d & ds & E & ?).
  { split; [lia|]. simpl. lia. }
  exists d, (reverse ds). unfold decimal. by rewrite E, reverse_app.
Qed.

Lemma decimal_0 : decimal 0 = [48].
Proof. done. Qed.

Lemma decimal_nonempty v : decimal v ≠ [].
Proof.
  unfold decimal. change 20%nat with (S 19). cbn [digits_rev]. rewrite reverse_cons. by destruct (reverse _).
Qed.

Lemma decimal_z_length v : (0 < length (decimal_z v) ≤ 21)%nat.
Proof.
  unfold decimal_z. pose proof (decimal_length v). pose proof (decimal_length (- v)). pose proof (decimal_nonempty v).
  destruct (decimal v) eqn:E; [done|]. case_match; simpl in *; lia.
Qed.

#[export] Hint Resolve decimal_digits decimal_nonempty : redis.

(** ** Steps and uniqueness of the representation *)

Lemma digits_rev_S f v :
  digits_rev (S f) v = 48 + v `mod` 10 :: (if v `div` 10 =? 0 then [] else digits_rev f (v `div` 10)).
Proof. done. Qed.

#[local] Opaque digits_rev.

Lemma decimal_small v : 0 ≤ v < 10 → decimal v = [48 + v].
Proof.
  intros. unfold decimal. rewrite digits_rev_S, Z.div_small, Z.mod_small by lia. done.
Qed.

Lemma decimal_step v : in_u 64 v → 10 ≤ v → decimal v = decimal (v `div` 10) ++ [48 + v `mod` 10].
Proof.
  intros [??] Hv. unfold decimal. rewrite (digits_rev_S 19).
  assert (1 ≤ v `div` 10 < 2 ^ 61) by (split; [apply Z.div_le_lower_bound|apply Z.div_lt_upper_bound]; lia).
  rewrite (proj2 (Z.eqb_neq _ _)), reverse_cons by lia. do 2 f_equal.
  apply digits_rev_fuel; [simpl; lia|lia].
Qed.

(** The only string of digits without leading zeros and with value [v]. *)
Lemma decimal_unique ds d : Forall is_digit (d :: ds) → d ≠ 48 → in_u 64 (dec_val (d :: ds)) →
  d :: ds = decimal (dec_val (d :: ds)) ∧ 1 ≤ dec_val (d :: ds).
Proof.
  intros Hd Hne. assert (49 ≤ d ≤ 57) as Hd' by (inversion Hd; unfold is_digit in *; lia).
  induction ds as [|c ds IH] using rev_ind; intros Hv.
  - cbn in *. rewrite decimal_small by lia. split; [f_equal|]; lia.
  - change (d :: ds ++ [c]) with ((d :: ds) ++ [c]) in *. rewrite dec_val_snoc in *.
    apply Forall_app in Hd as [Hd Hc]. inversion_clear Hc as [|? ? Hc' _]. unfold is_digit in Hc'.
    unfold in_u in *. destruct IH as [E Hpos]; [done| |].
    { assert (0 ≤ dec_val (d :: ds)); [|lia].
      assert (0 ≤ dec_val (d :: ds) * 10 + (c - 48)) by lia. lia. }
    set (v := dec_val (d :: ds)) in *. rewrite decimal_step by (unfold in_u; lia).
    assert ((v * 10 + (c - 48)) `div` 10 = v) as ->.
    { symmetry. apply Z.div_unique with (c - 48); lia. }
    assert ((v * 10 + (c - 48)) `mod` 10 = c - 48) as ->.
    { symmetry. apply Z.mod_unique with v; lia. }
    split; [|lia]. rewrite E at 1. do 2 f_equal. lia.
Qed.

Lemma dec_val_app ds v0 : fold_left (λ a c, a * 10 + (c - 48)) ds v0 =
  v0 * 10 ^ Z.of_nat (length ds) + dec_val ds.
Proof.
  induction ds as [|c ds IH] using rev_ind; [cbn; lia|].
  rewrite fold_left_app, dec_val_snoc, length_app, Nat2Z.inj_add, Z.pow_add_r by lia.
  cbn [fold_left length]. rewrite IH. change (10 ^ Z.of_nat 1) with 10. lia.
Qed.
