(* ===== verification/Sds.v ===== *)
(** * sds.c, sds.h: dynamic strings

    An sds is a header (type, length, capacity) followed by a buffer.  The
    model keeps the header fields at the width the header type gives them, the
    flags byte with the length of a type-5 string in its upper five bits, and
    the buffer as a block of bytes: a copy or a store outside of it is [None].
    [zmalloc] never returns NULL (it aborts), so the out-of-memory returns of
    the code are not reachable; fresh memory has the arbitrary value [junk].

    [sds_wf] is the invariant and [content] the binary-safe string an sds
    stands for. *)

From S2P Require Import Prelude.

Definition SDS_TYPE_5 : Z := 0.
Definition SDS_TYPE_8 : Z := 1.
Definition SDS_TYPE_16 : Z := 2.
Definition SDS_TYPE_32 : Z := 3.
Definition SDS_TYPE_64 : Z := 4.
Definition SDS_TYPE_MASK : Z := 7.
Definition SDS_TYPE_BITS : Z := 3.
Definition SDS_MAX_PREALLOC : Z := 1024 * 1024.

(** The fields [len] and [alloc] do not exist in [sdshdr5]. *)
Record sds := Sds { flags : Z; hlen : Z; halloc : Z; buf : list Z }.

Definition set_flags (s : sds) (f : Z) : sds := Sds f (hlen s) (halloc s) (buf s).
Definition set_hlen (s : sds) (n : Z) : sds := Sds (flags s) n (halloc s) (buf s).
Definition set_halloc (s : sds) (n : Z) : sds := Sds (flags s) (hlen s) n (buf s).
Definition set_buf (s : sds) (b : list Z) : sds := Sds (flags s) (hlen s) (halloc s) b.

Definition typ (s : sds) : Z := Z.land (flags s) SDS_TYPE_MASK.
Definition SDS_TYPE_5_LEN (f : Z) : Z := Z.shiftr f SDS_TYPE_BITS.

(** ** sds.h *)

Definition sdslen (s : sds) : Z :=
  if typ s =? SDS_TYPE_5 then SDS_TYPE_5_LEN (flags s)
  else if typ s =? SDS_TYPE_8 then hlen s
  else if typ s =? SDS_TYPE_16 then hlen s
  else if typ s =? SDS_TYPE_32 then hlen s
  else if typ s =? SDS_TYPE_64 then hlen s
  else 0.

Definition sdsavail (s : sds) : Z :=
  if typ s =? SDS_TYPE_5 then 0
  else if typ s =? SDS_TYPE_8 then u64 (halloc s - hlen s)
  else if typ s =? SDS_TYPE_16 then u64 (halloc s - hlen s)
  else if typ s =? SDS_TYPE_32 then u32 (halloc s - hlen s)
  else if typ s =? SDS_TYPE_64 then u64 (halloc s - hlen s)
  else 0.

Definition sdssetlen (s : sds) (newlen : Z) : sds :=
  if typ s =? SDS_TYPE_5
  then set_flags s (u8 (Z.lor SDS_TYPE_5 (Z.shiftl newlen SDS_TYPE_BITS)))
  else if typ s =? SDS_TYPE_8 then set_hlen s (u8 newlen)
  else if typ s =? SDS_TYPE_16 then set_hlen s (u16 newlen)
  else if typ s =? SDS_TYPE_32 then set_hlen s (u32 newlen)
  else if typ s =? SDS_TYPE_64 then set_hlen s (u64 newlen)
  else s.

Definition sdsinclen (s : sds) (inc : Z) : sds :=
  if typ s =? SDS_TYPE_5
  then let newlen := u8 (SDS_TYPE_5_LEN (flags s) + inc) in
       set_flags s (u8 (Z.lor SDS_TYPE_5 (Z.shiftl newlen SDS_TYPE_BITS)))
  else if typ s =? SDS_TYPE_8 then set_hlen s (u8 (hlen s + inc))
  else if typ s =? SDS_TYPE_16 then set_hlen s (u16 (hlen s + inc))
  else if typ s =? SDS_TYPE_32 then set_hlen s (u32 (hlen s + inc))
  else if typ s =? SDS_TYPE_64 then set_hlen s (u64 (hlen s + inc))
  else s.

Definition sdsalloc (s : sds) : Z :=
  if typ s =? SDS_TYPE_5 then SDS_TYPE_5_LEN (flags s)
  else if typ s =? SDS_TYPE_8 then halloc s
  else if typ s =? SDS_TYPE_16 then halloc s
  else if typ s =? SDS_TYPE_32 then halloc s
  else if typ s =? SDS_TYPE_64 then halloc s
  else 0.

Definition sdssetalloc (s : sds) (newlen : Z) : sds :=
  if typ s =? SDS_TYPE_5 then s
  else if typ s =? SDS_TYPE_8 then set_halloc s (u8 newlen)
  else if typ s =? SDS_TYPE_16 then set_halloc s (u16 newlen)
  else if typ s =? SDS_TYPE_32 then set_halloc s (u32 newlen)
  else if typ s =? SDS_TYPE_64 then set_halloc s (u64 newlen)
  else s.

(** ** Allocation and growth *)

Definition sdsHdrSize (type : Z) : Z :=
  let t := Z.land type SDS_TYPE_MASK in
  if t =? SDS_TYPE_5 then 1
  else if t =? SDS_TYPE_8 then 3
  else if t =? SDS_TYPE_16 then 5
  else if t =? SDS_TYPE_32 then 9
  else if t =? SDS_TYPE_64 then 17
  else 0.

(** On a 64-bit target ([LONG_MAX == LLONG_MAX]). *)
Definition sdsReqType (string_size : Z) : Z :=
  if string_size <? Z.shiftl 1 5 then SDS_TYPE_5
  else if string_size <? Z.shiftl 1 8 then SDS_TYPE_8
  else if string_size <? Z.shiftl 1 16 then SDS_TYPE_16
  else if string_size <? Z.shiftl 1 32 then SDS_TYPE_32
  else SDS_TYPE_64.

(** [s[i] = c] *)
Definition sdsput (s : sds) (i c : Z) : option sds :=
  b ← mwrite (buf s) i [c]; Some (set_buf s b).

(** [memcpy(s+i, t, length t)] *)
Definition sdscopy (s : sds) (i : Z) (t : list Z) : option sds :=
  b ← mwrite (buf s) i t; Some (set_buf s b).

(** The size [hdrlen+len+1] of an allocation is a [size_t]: when it wraps around,
    the block is smaller than the header that is written to it. *)
Definition block_fits (type len : Z) : bool := sdsHdrSize type + len + 1 <? 2 ^ 64.

(** The argument [init] of [sdsnewlen]. *)
Inductive initial := SDS_NOINIT | INIT_NULL | INIT_BYTES (bs : list Z).

Section alloc.
Context (junk : Z).

Definition sdsnewlen (init : initial) (initlen : Z) : option sds :=
  let type := sdsReqType initlen in
  let type := if (type =? SDS_TYPE_5) && (initlen =? 0) then SDS_TYPE_8 else type in
  if negb (block_fits type initlen) then None else
  let block := match init with
               | INIT_NULL => replicate (Z.to_nat (initlen + 1)) 0
               | _ => replicate (Z.to_nat (initlen + 1)) junk
               end in
  let s :=
    if type =? SDS_TYPE_5
    then Sds (u8 (Z.lor type (Z.shiftl initlen SDS_TYPE_BITS))) 0 0 block
    else if type =? SDS_TYPE_8 then Sds type (u8 initlen) (u8 initlen) block
    else if type =? SDS_TYPE_16 then Sds type (u16 initlen) (u16 initlen) block
    else if type =? SDS_TYPE_32 then Sds type (u32 initlen) (u32 initlen) block
    else Sds type (u64 initlen) (u64 initlen) block in
  s ← match init with
      | INIT_BYTES bs =>
          if initlen =? 0 then Some s else t ← mread bs 0 initlen; sdscopy s 0 t
      | _ => Some s
      end;
  sdsput s initlen 0.

Definition sdsempty : option sds := sdsnewlen (INIT_BYTES []) 0.

Definition sdsdup (s : sds) : option sds := sdsnewlen (INIT_BYTES (buf s)) (sdslen s).

Definition sdsclear (s : sds) : option sds := sdsput (sdssetlen s 0) 0 0.

Definition sdsMakeRoomFor (s : sds) (addlen : Z) : option sds :=
  let avail := sdsavail s in
  let oldtype := typ s in
  if addlen <=? avail then Some s else
  let len := sdslen s in
  let newlen := u64 (len + addlen) in
  let newlen := if newlen <? SDS_MAX_PREALLOC then u64 (newlen * 2)
                else u64 (newlen + SDS_MAX_PREALLOC) in
  let type := sdsReqType newlen in
  let type := if type =? SDS_TYPE_5 then SDS_TYPE_8 else type in
  if negb (block_fits type newlen) then None else
  s ← (if oldtype =? type
       then Some (set_buf s (mresize junk (buf s) (Z.to_nat (newlen + 1))))
       else t ← mread (buf s) 0 (len + 1);
            b ← mwrite (replicate (Z.to_nat (newlen + 1)) junk) 0 t;
            Some (sdssetlen (Sds type 0 0 b) len));
  Some (sdssetalloc s newlen).

Definition sdsRemoveFreeSpace (s : sds) : option sds :=
  let oldtype := typ s in
  let len := sdslen s in
  let avail := sdsavail s in
  if avail =? 0 then Some s else
  let type := sdsReqType len in
  s ← (if (oldtype =? type) || (SDS_TYPE_8 <? type)
       then Some (set_buf s (mresize junk (buf s) (Z.to_nat (len + 1))))
       else t ← mread (buf s) 0 (len + 1);
            b ← mwrite (replicate (Z.to_nat (len + 1)) junk) 0 t;
            Some (sdssetlen (Sds type 0 0 b) len));
  Some (sdssetalloc s len).

Definition sdsAllocSize (s : sds) : Z := sdsHdrSize (flags s) + sdsalloc s + 1.

(** A failed [assert] is [None].  [len = (sh->len += incr)] stores the sum at
    the width of the field. *)
Definition sdsIncrLen (s : sds) (incr : Z) : option sds :=
  let bump w ok :=
    if ok : bool
    then let len := uwrap w (hlen s + incr) in sdsput (set_hlen s len) len 0
    else None in
  let room := halloc s - hlen s in
  if typ s =? SDS_TYPE_5 then
    let oldlen := SDS_TYPE_5_LEN (flags s) in
    if ((0 <? incr) && (oldlen + incr <? 32)) || ((incr <? 0) && (u32 (- incr) <=? oldlen))
    then sdsput (set_flags s (u8 (Z.lor SDS_TYPE_5 (Z.shiftl (oldlen + incr) SDS_TYPE_BITS))))
                (oldlen + incr) 0
    else None
  else if typ s =? SDS_TYPE_8 then
    bump 8 (((0 <=? incr) && (incr <=? room)) || ((incr <? 0) && (u32 (- incr) <=? hlen s)))
  else if typ s =? SDS_TYPE_16 then
    bump 16 (((0 <=? incr) && (incr <=? room)) || ((incr <? 0) && (u32 (- incr) <=? hlen s)))
  else if typ s =? SDS_TYPE_32 then
    bump 32 (((0 <=? incr) && (u32 incr <=? u32 room)) || ((incr <? 0) && (u32 (- incr) <=? hlen s)))
  else if typ s =? SDS_TYPE_64 then
    bump 64 (((0 <=? incr) && (incr <=? u64 room)) || ((incr <? 0) && (u64 (- incr) <=? hlen s)))
  else sdsput s 0 0.

Definition sdsgrowzero (s : sds) (len : Z) : option sds :=
  let curlen := sdslen s in
  if len <=? curlen then Some s else
  s ← sdsMakeRoomFor s (len - curlen);
  s ← sdscopy s curlen (replicate (Z.to_nat (len - curlen + 1)) 0);
  Some (sdssetlen s len).

(** [t] are the [len] bytes to append. *)
Definition sdscatlen (s : sds) (t : list Z) : option sds :=
  let len := Z.of_nat (length t) in
  let curlen := sdslen s in
  s ← sdsMakeRoomFor s len;
  s ← sdscopy s curlen t;
  let s := sdssetlen s (u64 (curlen + len)) in
  sdsput s (u64 (curlen + len)) 0.

Definition sdscatsds (s t : sds) : option sds :=
  b ← mread (buf t) 0 (sdslen t); sdscatlen s b.

Definition sdscpylen (s : sds) (t : list Z) : option sds :=
  let len := Z.of_nat (length t) in
  s ← (if sdsalloc s <? len then sdsMakeRoomFor s (u64 (len - sdslen s)) else Some s);
  s ← sdscopy s 0 t;
  s ← sdsput s len 0;
  Some (sdssetlen s len).

End alloc.

(** ** Edits in place *)

(** [strchr(cset, c)] on a NUL-terminated set: the terminator is part of the
    string, so it is found too. *)
Definition strchr (cset : list Z) (c : Z) : bool := bool_decide (c ∈ cset) || (c =? 0).

Fixpoint trim_left (fuel : nat) (b cset : list Z) (sp end_ : Z) : option Z :=
  match fuel with
  | O => None
  | S f => if sp <=? end_ then
             c ← mread b sp 1;
             if strchr cset (hd 0 c) then trim_left f b cset (sp + 1) end_ else Some sp
           else Some sp
  end.

Fixpoint trim_right (fuel : nat) (b cset : list Z) (ep sp : Z) : option Z :=
  match fuel with
  | O => None
  | S f => if sp <? ep then
             c ← mread b ep 1;
             if strchr cset (hd 0 c) then trim_right f b cset (ep - 1) sp else Some ep
           else Some ep
  end.

Definition sdstrim (s : sds) (cset : list Z) : option sds :=
  let end_ := sdslen s - 1 in
  let fuel := S (Z.to_nat (sdslen s)) in
  sp ← trim_left fuel (buf s) cset 0 end_;
  ep ← trim_right fuel (buf s) cset end_ sp;
  let len := if ep <? sp then 0 else ep - sp + 1 in
  b ← (if sp =? 0 then Some (buf s) else mmove (buf s) 0 sp len);
  s ← sdsput (set_buf s b) len 0;
  Some (sdssetlen s len).

Definition sdsrange (s : sds) (start end_ : Z) : option sds :=
  let len := sdslen s in
  if len =? 0 then Some s else
  let start := if start <? 0 then let x := s64 (len + start) in if x <? 0 then 0 else x else start in
  let end_ := if end_ <? 0 then let x := s64 (len + end_) in if x <? 0 then 0 else x else end_ in
  let newlen := if end_ <? start then 0 else end_ - start + 1 in
  let '(start, newlen) :=
    if negb (newlen =? 0) then
      if s64 len <=? start then (start, 0)
      else if s64 len <=? end_
           then let end_ := len - 1 in (start, if end_ <? start then 0 else end_ - start + 1)
           else (start, newlen)
    else (0, newlen) in
  b ← (if negb (start =? 0) && negb (newlen =? 0)
       then mmove (buf s) 0 start newlen else Some (buf s));
  s ← sdsput (set_buf s b) newlen 0;
  Some (sdssetlen s newlen).

(** [tolower] and [toupper] of the C locale. *)
Definition tolower (c : Z) : Z := if (65 <=? c) && (c <=? 90) then c + 32 else c.
Definition toupper (c : Z) : Z := if (97 <=? c) && (c <=? 122) then c - 32 else c.

(** [for (j = 0; j < len; j++) s[j] = f(s[j])] *)
Definition map_prefix (f : Z → Z) (s : sds) : sds :=
  let n := Z.to_nat (sdslen s) in
  set_buf s ((f <$> take n (buf s)) ++ drop n (buf s)).

Definition sdstolower (s : sds) : sds := map_prefix tolower s.
Definition sdstoupper (s : sds) : sds := map_prefix toupper s.

(** The inner loop of [sdsmapchars] on one character. *)
Fixpoint map_char (from to : list Z) (c : Z) : Z :=
  match from, to with
  | f :: from', t :: to' => if c =? f then t else map_char from' to' c
  | _, _ => c
  end.

Definition sdsmapchars (s : sds) (from to : list Z) : sds := map_prefix (map_char from to) s.


(** ** The invariant *)

(** The width of the fields [len] and [alloc]. *)
Definition width (t : Z) : Z :=
  if t =? SDS_TYPE_8 then 8 else if t =? SDS_TYPE_16 then 16
  else if t =? SDS_TYPE_32 then 32 else 64.

Definition hdr_ok (s : sds) : Prop :=
  in_u 8 (flags s) ∧ typ s ≤ SDS_TYPE_64 ∧
  (typ s ≠ SDS_TYPE_5 → 0 ≤ hlen s ≤ halloc s ∧ in_u (width (typ s)) (halloc s)).

(** [s] holds the bytes [bs], followed by the byte [x]: the header is in range,
    says the length of [bs] and no more capacity than the buffer has. *)
Definition sds_repx (s : sds) (bs : list Z) (x : Z) : Prop :=
  hdr_ok s ∧ Forall byte_ok bs ∧ sdslen s = Z.of_nat (length bs) ∧
  ∃ rest, buf s = bs ++ x :: rest ∧ sdsalloc s ≤ Z.of_nat (length bs + length rest).

(** [s] is a well-formed sds that stands for [bs]: the byte behind is the NUL. *)
Definition sds_rep (s : sds) (bs : list Z) : Prop := sds_repx s bs 0.

Lemma typ_nonneg s : 0 ≤ typ s.
Proof. apply Z.land_nonneg. by right. Qed.

Lemma typ_cases s : hdr_ok s →
  typ s = 0 ∨ typ s = 1 ∨ typ s = 2 ∨ typ s = 3 ∨ typ s = 4.
Proof. intros (_ & ? & _). pose proof (typ_nonneg s). unfold SDS_TYPE_64 in *. lia. Qed.

(** Splits on the header type and reduces the switches on it. *)
Ltac by_type s H :=
  let E := fresh "Ht" in
  destruct (typ_cases s H) as [E|[E|[E|[E|E]]]];
  unfold sdslen, sdsalloc, sdsavail, sdssetlen, sdssetalloc, sdsinclen, sdsIncrLen, width in *;
  rewrite ?E in *; cbn [Z.eqb Pos.eqb SDS_TYPE_5 SDS_TYPE_8 SDS_TYPE_16 SDS_TYPE_32 SDS_TYPE_64] in *.

Lemma flags5_len f n : f = u8 (Z.lor SDS_TYPE_5 (Z.shiftl n SDS_TYPE_BITS)) → 0 ≤ n < 32 →
  in_u 8 f ∧ Z.land f SDS_TYPE_MASK = 0 ∧ SDS_TYPE_5_LEN f = n.
Proof.
  intros -> Hn. unfold SDS_TYPE_5, SDS_TYPE_BITS, SDS_TYPE_MASK, SDS_TYPE_5_LEN.
  rewrite Z.lor_0_l, Z.shiftl_mul_pow2 by lia. change (2 ^ 3) with 8.
  rewrite uwrap_small by (unfold in_u; lia).
  split; [unfold in_u; lia|]. change 7 with (Z.ones 3). rewrite Z.land_ones by lia.
  split; [by rewrite Z.mod_mul|]. rewrite Z.shiftr_div_pow2 by done.
  unfold SDS_TYPE_BITS. change (2 ^ 3) with 8. rewrite Z.div_mul; lia.
Qed.

Lemma len5_range s : hdr_ok s → 0 ≤ SDS_TYPE_5_LEN (flags s) < 32.
Proof.
  intros ([??] & _). unfold SDS_TYPE_5_LEN, SDS_TYPE_BITS. rewrite Z.shiftr_div_pow2 by done.
  change (2 ^ 3) with 8. split; [apply Z.div_pos; lia|apply Z.div_lt_upper_bound; lia].
Qed.

Lemma len_le_alloc s : hdr_ok s → 0 ≤ sdslen s ≤ sdsalloc s.
Proof.
  intros H. pose proof (len5_range s H). pose proof H as (_ & _ & H3).
  by_type s H; try lia; destruct H3; done.
Qed.

Lemma avail_alloc s : hdr_ok s → sdsavail s = sdsalloc s - sdslen s.
Proof.
  intros H. pose proof H as (_ & _ & H3). unfold in_u in H3.
  by_type s H; try lia; destruct H3 as [??]; try done; rewrite uwrap_small; unfold in_u; lia.
Qed.

(** [sdssetlen] within the capacity. *)
Lemma setlen_ok s n : hdr_ok s → 0 ≤ n ≤ sdsalloc s →
  hdr_ok (sdssetlen s n) ∧ sdslen (sdssetlen s n) = n ∧ buf (sdssetlen s n) = buf s ∧
  sdsalloc (sdssetlen s n) ≤ sdsalloc s ∧ typ (sdssetlen s n) = typ s ∧
  (typ s ≠ SDS_TYPE_5 → sdsalloc (sdssetlen s n) = sdsalloc s).
Proof.
  intros H Hn. pose proof (len5_range s H). pose proof H as (Hf & _ & H3). unfold in_u in H3.
  destruct (typ_cases s H) as [E|E].
  { unfold sdssetlen, sdsalloc in *. rewrite !E in *.
    cbn [Z.eqb SDS_TYPE_5] in *.
    destruct (flags5_len _ n eq_refl) as (F1 & F2 & F3); [lia|].
    change (Z.land _ _) with (typ (set_flags s (u8 (Z.lor SDS_TYPE_5 (Z.shiftl n SDS_TYPE_BITS))))) in F2.
    unfold hdr_ok, sdslen. rewrite F2. cbn [Z.eqb SDS_TYPE_5 flags set_flags buf].
    rewrite F3. unfold SDS_TYPE_64. repeat split; try done; try lia; apply F1. }
  assert (∀ x, typ (set_hlen s x) = typ s) as Ht' by done.
  destruct H3 as [??]; [unfold SDS_TYPE_5; lia|].
  unfold hdr_ok.
  destruct E as [E|[E|[E|E]]]; unfold sdslen, sdsalloc, sdssetlen, width in *;
    rewrite ?E in *; cbn [Z.eqb Pos.eqb SDS_TYPE_5 SDS_TYPE_8 SDS_TYPE_16 SDS_TYPE_32 SDS_TYPE_64] in *;
    rewrite uwrap_small by (unfold in_u; lia); rewrite ?Ht', ?E; cbn; unfold in_u;
    repeat split; try done; try lia; apply Hf.
Qed.

Lemma width_pos t : 0 < width t.
Proof. unfold width. repeat destruct (_ =? _); lia. Qed.

(** [sdssetalloc] to a capacity the type can store. *)
Lemma setalloc_ok s n : hdr_ok s → typ s ≠ SDS_TYPE_5 → hlen s ≤ n → in_u (width (typ s)) n →
  hdr_ok (sdssetalloc s n) ∧ sdslen (sdssetalloc s n) = sdslen s ∧
  buf (sdssetalloc s n) = buf s ∧ sdsalloc (sdssetalloc s n) = n.
Proof.
  intros H Hne Hn Hw. pose proof H as (Hf & _ & H3). destruct (H3 Hne) as [??].
  assert (∀ x, typ (set_halloc s x) = typ s) as Ht' by done.
  unfold hdr_ok. by_type s H; try done;
    rewrite uwrap_small by done; rewrite ?Ht', ?Ht; cbn; unfold in_u in *;
    repeat split; try done; try lia.
Qed.

Lemma reqtype_width n : 0 ≤ n < 2 ^ 64 → sdsReqType n ≠ SDS_TYPE_5 →
  0 ≤ sdsReqType n ≤ 4 ∧ in_u (width (sdsReqType n)) n.
Proof.
  unfold sdsReqType, in_u. change (Z.shiftl 1 5) with 32. change (Z.shiftl 1 8) with 256.
  change (Z.shiftl 1 16) with 65536. change (Z.shiftl 1 32) with 4294967296.
  intros Hn Hne. repeat case_match; try done; split; try done; cbn; lia.
Qed.

(** ** Growth *)

Lemma rep_hdr s bs x : sds_repx s bs x → hdr_ok s.
Proof. by intros (? & _). Qed.

Lemma rep_len s bs x : sds_repx s bs x → sdslen s = Z.of_nat (length bs).
Proof. by intros (_ & _ & ? & _). Qed.

(** A copy of the string into a larger or equal block. *)
Lemma mresize_rep junk (bs rest : list Z) x n : (length bs < n)%nat →
  ∃ rest', mresize junk (bs ++ x :: rest) n = bs ++ x :: rest' ∧ n = S (length bs + length rest').
Proof.
  intros Hn. unfold mresize. rewrite length_app. simpl.
  exists (take (n - length bs - 1) rest ++ replicate (n - (length bs + S (length rest))) junk).
  rewrite take_app_ge by lia. destruct (n - length bs)%nat eqn:E; [lia|]. simpl.
  rewrite Nat.sub_0_r, <- app_assoc. split; [done|].
  rewrite length_app, length_take, length_replicate. lia.
Qed.

Lemma copy_rep junk (bs rest : list Z) x n : (length bs < n)%nat →
  mread (bs ++ x :: rest) 0 (Z.of_nat (length bs) + 1) = Some (bs ++ [x]) ∧
  ∃ rest', mwrite (replicate n junk) 0 (bs ++ [x]) = Some (bs ++ x :: rest') ∧
    n = S (length bs + length rest').
Proof.
  intros Hn. split.
  { pose proof (mread_app [] (bs ++ [x]) rest 0 (Z.of_nat (length bs) + 1)) as E.
    simpl in E. rewrite <- app_assoc in E. apply E; [done|]. rewrite length_app. simpl. lia. }
  exists (replicate (n - length bs - 1) junk).
  pose proof (mwrite_app [] (replicate (length bs + 1) junk) (bs ++ [x])
                (replicate (n - length bs - 1) junk) 0) as E.
  simpl in E. rewrite <- replicate_add, <- app_assoc in E. simpl in E.
  replace (length bs + 1 + (n - length bs - 1))%nat with n in E by lia.
  rewrite E; [|done|rewrite length_app, length_replicate; simpl; lia].
  split; [done|]. rewrite length_replicate. lia.
Qed.

Lemma land_type t : 0 ≤ t ≤ 4 → Z.land t SDS_TYPE_MASK = t.
Proof.
  intros. change SDS_TYPE_MASK with (Z.ones 3). rewrite Z.land_ones by lia.
  apply Z.mod_small. lia.
Qed.

(** A header of a fresh block of type [t] whose fields are set to [len] and [alloc]. *)
Lemma fresh_hdr t len n b : 1 ≤ t ≤ 4 → 0 ≤ len ≤ n → in_u (width t) n →
  let s := sdssetalloc (sdssetlen (Sds t 0 0 b) len) n in
  hdr_ok s ∧ sdslen s = len ∧ buf s = b ∧ sdsalloc s = n.
Proof.
  intros Ht Hl Hn s.
  assert (s = Sds t len n b) as ->.
  { subst s. assert (t = 1 ∨ t = 2 ∨ t = 3 ∨ t = 4) as [-> | [-> | [-> | ->]]] by lia; unfold in_u in Hn; cbn in Hn.
    - change (Sds 1 (u8 len) (u8 n) b = Sds 1 len n b). by rewrite !uwrap_small by (unfold in_u; lia).
    - change (Sds 2 (u16 len) (u16 n) b = Sds 2 len n b). by rewrite !uwrap_small by (unfold in_u; lia).
    - change (Sds 3 (u32 len) (u32 n) b = Sds 3 len n b). by rewrite !uwrap_small by (unfold in_u; lia).
    - change (Sds 4 (u64 len) (u64 n) b = Sds 4 len n b). by rewrite !uwrap_small by (unfold in_u; lia). }
  assert (typ (Sds t len n b) = t) as E by (apply land_type; lia).
  assert (hdr_ok (Sds t len n b)) as H.
  { unfold hdr_ok. rewrite E. cbn. unfold in_u at 1, SDS_TYPE_64. split_and!; lia || done. }
  by_type (Sds t len n b) H; try lia; done.
Qed.

Section growth.
Context (junk : Z).

(** The last part of [sdsMakeRoomFor]: the string moves to a block of [n] bytes. *)
Lemma regrow s bs x n : sds_repx s bs x → Z.of_nat (length bs) ≤ n < 2 ^ 64 →
  let type := sdsReqType n in
  let type := if type =? SDS_TYPE_5 then SDS_TYPE_8 else type in
  ∃ s1, (if typ s =? type
         then Some (set_buf s (mresize junk (buf s) (Z.to_nat (n + 1))))
         else t ← mread (buf s) 0 (sdslen s + 1);
              b ← mwrite (replicate (Z.to_nat (n + 1)) junk) 0 t;
              Some (sdssetlen (Sds type 0 0 b) (sdslen s))) = Some s1 ∧
    sds_repx (sdssetalloc s1 n) bs x ∧ sdsalloc (sdssetalloc s1 n) = n.
Proof.
  intros (H & Hb & Hl & rest & Eb & Ha) Hn type0 type.
  assert (Ht : 1 ≤ type ≤ 4 ∧ in_u (width type) n).
  { subst type type0. destruct (Z.eqb_spec (sdsReqType n) SDS_TYPE_5) as [E|E].
    - split; [unfold SDS_TYPE_8; lia|]. unfold sdsReqType in E. unfold in_u.
      change (Z.shiftl 1 5) with 32 in E. repeat case_match; try done. cbn. lia.
    - destruct (reqtype_width n) as [? ?]; try done; [lia|]. unfold SDS_TYPE_5 in E. split; [lia|done]. }
  destruct Ht as [Ht Hw]. rewrite Eb, Hl. destruct (Z.eqb_spec (typ s) type) as [E|E].
  - destruct (mresize_rep junk bs rest x (Z.to_nat (n + 1))) as (rest' & -> & E'); [lia|].
    eexists. split; [done|]. pose proof H as (_ & _ & H3).
    assert (typ s ≠ SDS_TYPE_5) as Hne by (unfold SDS_TYPE_5; lia). destruct (H3 Hne) as [??].
    assert (sdslen s = hlen s) as El by (by_type s H; done).
    destruct (setalloc_ok (set_buf s (bs ++ x :: rest')) n) as (P1 & P2 & P3 & P4); [done|done| | |].
    { cbn. lia. } { change (typ (set_buf _ _)) with (typ s). congruence. }
    split; [|done]. split_and!; [done|done|rewrite P2; exact Hl|].
    exists rest'. rewrite P3, P4. split; [done|]. lia.
  - destruct (copy_rep junk bs rest x (Z.to_nat (n + 1))) as (-> & rest' & E1 & E2); [lia|].
    cbn [mbind option_bind]. rewrite E1. cbn [mbind option_bind]. eexists. split; [done|].
    destruct (fresh_hdr type (Z.of_nat (length bs)) n (bs ++ x :: rest')) as (P1 & P2 & P3 & P4);
      [done|lia|done|].
    split; [|done]. split_and!; [done|done|done|]. exists rest'. rewrite P3, P4. split; [done|]. lia.
Qed.

(** Strings are far smaller than the address space. *)
Definition SDS_MAX : Z := 2 ^ 62.

Lemma block_fits_small type n : n < 2 ^ 64 - 18 → block_fits type n = true.
Proof. intros Hn. unfold block_fits. apply Z.ltb_lt. unfold sdsHdrSize. repeat destruct (_ =? _); lia. Qed.

Lemma makeroom_spec s bs x addlen : sds_repx s bs x → 0 ≤ addlen →
  Z.of_nat (length bs) + addlen ≤ SDS_MAX →
  ∃ s', sdsMakeRoomFor junk s addlen = Some s' ∧ sds_repx s' bs x ∧
    Z.of_nat (length bs) + addlen ≤ sdsalloc s'.
Proof.
  intros Hr Ha Hm. unfold sdsMakeRoomFor, SDS_MAX, SDS_MAX_PREALLOC in *.
  pose proof (avail_alloc s (rep_hdr _ _ _ Hr)) as Ev. pose proof (rep_len _ _ _ Hr) as El.
  destruct (Z.leb_spec addlen (sdsavail s)); [eexists; split; [done|]; split; [done|lia]|].
  rewrite El in *. rewrite (uwrap_small _ (_ + _)) by (unfold in_u; lia).
  set (n := if _ <? _ then _ else _).
  assert (Hn : Z.of_nat (length bs) + addlen ≤ n < 2 ^ 64 - 18).
  { subst n. destruct (Z.ltb_spec (Z.of_nat (length bs) + addlen) (1024 * 1024));
      rewrite uwrap_small by (unfold in_u; lia); lia. }
  destruct (regrow s bs x n Hr) as (s1 & E & Hr' & Ea); [lia|].
  rewrite El in E. cbv zeta in E. rewrite block_fits_small by lia. simpl negb. cbv iota. rewrite E. cbn [mbind option_bind]. eexists. split; [done|].
  split; [done|]. lia.
Qed.

Lemma put_app s b1 x b2 i c : buf s = b1 ++ x :: b2 → i = Z.of_nat (length b1) →
  sdsput s i c = Some (set_buf s (b1 ++ c :: b2)).
Proof.
  intros E ->. unfold sdsput. rewrite E.
  by rewrite (mwrite_app b1 [x] [c] b2) by done.
Qed.

Lemma copy_app s b1 x b2 i t : buf s = b1 ++ x ++ b2 → i = Z.of_nat (length b1) →
  length t = length x → sdscopy s i t = Some (set_buf s (b1 ++ t ++ b2)).
Proof. intros E -> Hl. unfold sdscopy. rewrite E. by rewrite (mwrite_app b1 x t b2) by done. Qed.

(** Storing a string with its terminator in the capacity of [s]. *)
Lemma setlen_rep s bs rest : hdr_ok s → Forall byte_ok bs → buf s = bs ++ 0 :: rest →
  Z.of_nat (length bs) ≤ sdsalloc s ≤ Z.of_nat (length bs + length rest) →
  sds_rep (sdssetlen s (Z.of_nat (length bs))) bs.
Proof.
  intros H Hb E Ha. destruct (setlen_ok s (Z.of_nat (length bs)) H) as (P1 & P2 & P3 & P4 & _); [lia|].
  split_and!; [done|done|done|]. exists rest. rewrite P3. split; [done|lia].
Qed.

Lemma setlen_buf s b n : sdssetlen (set_buf s b) n = set_buf (sdssetlen s n) b.
Proof. unfold sdssetlen. change (typ (set_buf s b)) with (typ s). by repeat destruct (_ =? _). Qed.

Lemma setbuf2 s b b' : set_buf (set_buf s b) b' = set_buf s b'.
Proof. done. Qed.

(** Writing [t] (with its NUL) at the end of a prefix [b1] that stays. *)
Lemma write_tail s b1 t b2 : hdr_ok s → Forall byte_ok b1 → Forall byte_ok t → buf s = b1 ++ b2 →
  Z.of_nat (length b1 + length t) ≤ sdsalloc s < Z.of_nat (length (buf s)) →
  ∃ s1 s2, sdscopy s (Z.of_nat (length b1)) t = Some s1 ∧
    sdsput (sdssetlen s1 (Z.of_nat (length b1 + length t))) (Z.of_nat (length b1 + length t)) 0 = Some s2 ∧
    sds_rep s2 (b1 ++ t).
Proof.
  intros H Hb1 Ht E Ha. rewrite E, length_app in Ha.
  set (x := take (length t) b2). set (y := drop (length t) b2).
  assert (Exy : b2 = x ++ y) by (symmetry; apply take_drop).
  assert (Hx : length t = length x) by (subst x; rewrite length_take; lia).
  assert (Hy : (length y + length t = length b2)%nat) by (rewrite Exy, length_app; lia).
  destruct y as [|y0 y]; [simpl in Hy; lia|]. simpl in Hy.
  rewrite (copy_app s b1 x (y0 :: y) _ t) by (done || by rewrite E, Exy).
  pose proof (setlen_rep (set_buf s ((b1 ++ t) ++ 0 :: y)) (b1 ++ t) y) as Hr.
  ospecialize (Hr H _ eq_refl _).
  { by apply Forall_app. }
  { change (sdsalloc (set_buf _ _)) with (sdsalloc s). rewrite !length_app. lia. }
  eexists _, _. split; [done|]. rewrite setlen_buf. rewrite (put_app _ (b1 ++ t) y0 y); cbn;
    [|by rewrite <- app_assoc|by rewrite length_app].
  split; [done|]. rewrite setlen_buf, length_app in Hr. exact Hr.
Qed.

Lemma rep_alloc_buf s bs x : sds_repx s bs x → sdsalloc s < Z.of_nat (length (buf s)).
Proof. intros (_ & _ & _ & rest & -> & ?). rewrite length_app. simpl. lia. Qed.

Lemma catlen_spec s bs t : sds_rep s bs → Forall byte_ok t →
  Z.of_nat (length bs + length t) ≤ SDS_MAX →
  ∃ s', sdscatlen junk s t = Some s' ∧ sds_rep s' (bs ++ t).
Proof.
  intros Hr Ht Hm. unfold sdscatlen. rewrite (rep_len _ _ _ Hr).
  destruct (makeroom_spec s bs 0 (Z.of_nat (length t)) Hr) as (s1 & -> & Hr1 & Ha); [lia|lia|].
  cbn [mbind option_bind]. pose proof (rep_alloc_buf _ _ _ Hr1) as Hab.
  destruct Hr1 as (H & Hb & Hl & rest & E & _).
  destruct (write_tail s1 bs t (0 :: rest)) as (s2 & s3 & E2 & E3 & Hr3); try done; [lia|].
  rewrite E2. cbn [mbind option_bind]. unfold SDS_MAX in Hm.
  rewrite uwrap_small by (unfold in_u; lia). rewrite <- Nat2Z.inj_add, E3. eauto.
Qed.

End growth.

(** ** Creation, copies and release of free space *)

Section creation.
Context (junk : Z).

(** Storing the terminator of a string that ends inside of the buffer. *)
Lemma cut_rep s bs x rest : hdr_ok s → Forall byte_ok bs → buf s = bs ++ x :: rest →
  Z.of_nat (length bs) ≤ sdsalloc s ≤ Z.of_nat (length bs + length rest) →
  ∃ s', sdsput s (Z.of_nat (length bs)) 0 = Some s' ∧
    sds_rep (sdssetlen s' (Z.of_nat (length bs))) bs ∧
    sdsput (sdssetlen s (Z.of_nat (length bs))) (Z.of_nat (length bs)) 0 =
      Some (sdssetlen s' (Z.of_nat (length bs))).
Proof.
  intros H Hb E Ha. rewrite (put_app s bs x rest) by done. eexists. split; [done|].
  split; [by apply setlen_rep with rest|].
  destruct (setlen_ok s (Z.of_nat (length bs)) H) as (_ & _ & P3 & _); [lia|].
  rewrite (put_app _ bs x rest) by (congruence || done). by rewrite setlen_buf.
Qed.

(** A type-5 header. *)
Lemma fresh5 n b : 0 ≤ n < 32 →
  let s := Sds (u8 (Z.lor SDS_TYPE_5 (Z.shiftl n SDS_TYPE_BITS))) 0 0 b in
  hdr_ok s ∧ sdslen s = n ∧ sdsalloc s = n ∧ typ s = SDS_TYPE_5.
Proof.
  intros Hn. destruct (flags5_len _ n eq_refl Hn) as (F1 & F2 & F3).
  set (f := u8 _) in *. unfold sdslen, sdsalloc, hdr_ok, typ. cbn [flags]. rewrite F2.
  cbn [Z.eqb SDS_TYPE_5]. rewrite F3. done.
Qed.

Lemma reqtype5 n : sdsReqType n = SDS_TYPE_5 → n < 32.
Proof.
  unfold sdsReqType. change (Z.shiftl 1 5) with 32. intros. repeat case_match; try done. lia.
Qed.

Lemma newlen_hdr n b : 0 ≤ n < 2 ^ 64 →
  let type := sdsReqType n in
  let type := if (type =? SDS_TYPE_5) && (n =? 0) then SDS_TYPE_8 else type in
  let s := if type =? SDS_TYPE_5
    then Sds (u8 (Z.lor type (Z.shiftl n SDS_TYPE_BITS))) 0 0 b
    else if type =? SDS_TYPE_8 then Sds type (u8 n) (u8 n) b
    else if type =? SDS_TYPE_16 then Sds type (u16 n) (u16 n) b
    else if type =? SDS_TYPE_32 then Sds type (u32 n) (u32 n) b
    else Sds type (u64 n) (u64 n) b in
  hdr_ok s ∧ sdslen s = n ∧ sdsalloc s = n ∧ buf s = b.
Proof.
  intros Hn type0 type s.
  assert (type = 0 ∧ n < 32 ∨ 1 ≤ type ≤ 4 ∧ in_u (width type) n) as [[E ?]|[Ht Hw]].
  { subst type type0. destruct (Z.eqb_spec (sdsReqType n) SDS_TYPE_5) as [E|E].
    - rewrite andb_true_l. destruct (Z.eqb_spec n 0) as [->|]; [right; done|left].
      split; [done|by apply reqtype5].
    - right. rewrite andb_false_l. destruct (reqtype_width n) as [??]; try done.
      unfold SDS_TYPE_5 in E. split; [lia|done]. }
  - subst s. rewrite E. cbn [Z.eqb SDS_TYPE_5].
    destruct (fresh5 n b) as (? & ? & ? & _); [lia|]. done.
  - destruct (fresh_hdr type n n b) as (P1 & P2 & P3 & P4); [lia|lia|done|].
    assert (s = sdssetalloc (sdssetlen (Sds type 0 0 b) n) n) as ->; [|done].
    subst s. assert (type = 1 ∨ type = 2 ∨ type = 3 ∨ type = 4) as [-> | [-> | [-> | ->]]] by lia; done.
Qed.

Lemma newlen_spec bs more : Forall byte_ok bs → Z.of_nat (length bs) ≤ SDS_MAX →
  ∃ s, sdsnewlen junk (INIT_BYTES (bs ++ more)) (Z.of_nat (length bs)) = Some s ∧ sds_rep s bs ∧
    sdsalloc s = Z.of_nat (length bs) ∧ length (buf s) = S (length bs).
Proof.
  intros Hb Hm. unfold SDS_MAX in Hm. unfold sdsnewlen. rewrite block_fits_small by lia. simpl negb. cbv iota.
  destruct (newlen_hdr (Z.of_nat (length bs)) (replicate (Z.to_nat (Z.of_nat (length bs) + 1)) junk))
    as (H & Hl & Ha & Eb); [lia|].
  cbv zeta in *. set (s := if _ =? SDS_TYPE_5 then _ else _) in *. clearbody s.
  replace (Z.to_nat (Z.of_nat (length bs) + 1)) with (length bs + 1)%nat in Eb by lia.
  rewrite replicate_add in Eb. simpl in Eb.
  set (s0 := set_buf s (bs ++ [junk])).
  assert ((if Z.of_nat (length bs) =? 0 then Some s
           else t ← mread (bs ++ more) 0 (Z.of_nat (length bs)); sdscopy s 0 t) = Some s0) as ->.
  { destruct (Z.eqb_spec (Z.of_nat (length bs)) 0) as [E|_].
    - destruct bs; [|done]. subst s0. simpl in *. rewrite <- Eb. by destruct s.
    - rewrite (mread_app [] bs more) by done. cbn [mbind option_bind].
      apply (copy_app s [] (replicate (length bs) junk)); simpl; try done. by rewrite length_replicate. }
  cbn [mbind option_bind]. destruct (cut_rep s0 bs junk []) as (s' & E & Hr & _); try done.
  { change (sdsalloc s0) with (sdsalloc s). rewrite Ha. simpl. lia. }
  rewrite E. rewrite (put_app s0 bs junk [] (Z.of_nat (length bs)) 0) in E by done. simplify_eq.
  eexists. split; [done|]. split; [|split; [exact Ha|cbn; by rewrite length_app; simpl; lia]].
  split_and!; [done|done|exact Hl|]. exists []. split; [done|].
  change (sdsalloc s ≤ Z.of_nat (length bs + 0)). lia.
Qed.

Lemma dup_spec s bs : sds_rep s bs → Z.of_nat (length bs) ≤ SDS_MAX →
  ∃ s', sdsdup junk s = Some s' ∧ sds_rep s' bs ∧ sdsalloc s' = Z.of_nat (length bs).
Proof.
  intros (H & Hb & Hl & rest & E & _) Hm. unfold sdsdup. rewrite E, Hl.
  destruct (newlen_spec bs (0 :: rest) Hb Hm) as (s' & ? & ? & ? & _). eauto.
Qed.

Lemma clear_spec s bs : sds_rep s bs →
  ∃ s', sdsclear s = Some s' ∧ sds_rep s' [] ∧ (typ s ≠ SDS_TYPE_5 → sdsalloc s' = sdsalloc s).
Proof.
  intros Hr. pose proof (rep_alloc_buf _ _ _ Hr) as Hab. destruct Hr as (H & Hb & Hl & rest & E & Ha).
  unfold sdsclear. destruct (buf s) as [|x b] eqn:Eb; [by destruct bs|].
  pose proof (len_le_alloc s H). simpl in Hab.
  destruct (cut_rep s [] x b) as (s' & E1 & Hr & E2); try done; [simpl; lia|].
  change (Z.of_nat (length [])) with 0 in *. rewrite E2. eexists. split; [done|]. split; [done|].
  intros Ht. rewrite (put_app s [] x b) in E1 by done. simplify_eq.
  destruct (setlen_ok (set_buf s ([] ++ 0 :: b)) 0) as (_ & _ & _ & _ & _ & P); [done|change (sdsalloc (set_buf _ _)) with (sdsalloc s); lia|].
  by rewrite P.
Qed.

Lemma removefree_spec s bs : sds_rep s bs → Z.of_nat (length bs) ≤ SDS_MAX →
  ∃ s', sdsRemoveFreeSpace junk s = Some s' ∧ sds_rep s' bs ∧ sdsavail s' = 0.
Proof.
  intros Hr Hm. pose proof Hr as (H & Hb & Hl & rest & E & Ha). unfold sdsRemoveFreeSpace, SDS_MAX in *.
  destruct (Z.eqb_spec (sdsavail s) 0) as [E0|Hne]; [eauto|].
  assert (typ s ≠ SDS_TYPE_5) as Hty.
  { intros Ht. apply Hne. unfold sdsavail. by rewrite Ht. }
  assert (Hhl : sdslen s = hlen s) by (by_type s H; done).
  pose proof H as (_ & _ & H3). destruct (H3 Hty) as [Hle Hw]. rewrite E, Hl.
  destruct ((typ s =? _) || _) eqn:Eq.
  - cbn [mbind option_bind]. destruct (mresize_rep junk bs rest 0 (Z.to_nat (Z.of_nat (length bs) + 1)))
      as (rest' & -> & E'); [lia|].
    destruct (setalloc_ok (set_buf s (bs ++ 0 :: rest')) (Z.of_nat (length bs))) as (P1 & P2 & P3 & P4);
      [done|done|cbn; lia|change (typ (set_buf _ _)) with (typ s); unfold in_u in *; lia|].
    eexists. split; [done|]. split.
    + split_and!; [done|done|by rewrite P2|]. exists rest'. rewrite P3, P4. split; [done|lia].
    + rewrite avail_alloc by done. rewrite P2, P4. change (sdslen (set_buf _ _)) with (sdslen s). lia.
  - apply orb_false_iff in Eq as [Eq1 Eq2]. unfold SDS_TYPE_8 in Eq2.
    destruct (copy_rep junk bs rest 0 (Z.to_nat (Z.of_nat (length bs) + 1))) as (-> & rest' & E1 & E2); [lia|].
    cbn [mbind option_bind]. rewrite E1. cbn [mbind option_bind]. eexists. split; [done|].
    assert (rest' = []) as -> by (destruct rest'; simpl in *; [done|lia]).
    destruct (Z.eqb_spec (sdsReqType (Z.of_nat (length bs))) SDS_TYPE_5) as [E5|E5].
    + rewrite E5. destruct (fresh5 (Z.of_nat (length bs)) (bs ++ [0])) as (P1 & P2 & P3 & P4).
      { pose proof (reqtype5 _ E5). lia. }
      change (sdssetlen (Sds SDS_TYPE_5 0 0 ?b) ?n) with
        (Sds (u8 (Z.lor SDS_TYPE_5 (Z.shiftl n SDS_TYPE_BITS))) 0 0 b).
      unfold sdssetalloc. rewrite P4. cbn [Z.eqb SDS_TYPE_5].
      split; [|rewrite avail_alloc by done; lia]. split_and!; [done|done|done|].
      exists []. rewrite P3. split; [done|simpl; lia].
    + destruct (reqtype_width (Z.of_nat (length bs))) as [Hq1 Hq2]; [lia|done|]. unfold SDS_TYPE_5 in E5.
      destruct (fresh_hdr (sdsReqType (Z.of_nat (length bs))) (Z.of_nat (length bs)) (Z.of_nat (length bs))
                  (bs ++ [0])) as (P1 & P2 & P3 & P4); [lia|lia|done|].
      split; [|rewrite avail_alloc by done; lia]. split_and!; [done|done|done|].
      exists []. rewrite P3, P4. split; [done|simpl; lia].
Qed.

Lemma growzero_spec s bs len : sds_rep s bs → len ≤ SDS_MAX →
  ∃ s', sdsgrowzero junk s len = Some s' ∧
    sds_rep s' (bs ++ replicate (Z.to_nat (len - Z.of_nat (length bs))) 0).
Proof.
  intros Hr Hm. unfold sdsgrowzero. rewrite (rep_len _ _ _ Hr).
  destruct (Z.leb_spec len (Z.of_nat (length bs))) as [?|?].
  { eexists. split; [done|]. replace (Z.to_nat _) with 0%nat by lia. by rewrite app_nil_r. }
  destruct (makeroom_spec junk s bs 0 (len - Z.of_nat (length bs)) Hr) as (s1 & -> & Hr1 & Ha); [lia|lia|].
  cbn [mbind option_bind]. pose proof (rep_alloc_buf _ _ _ Hr1) as Hab.
  destruct Hr1 as (Hok & Hb & Hl & rest & E & _). rewrite E, length_app in Hab. simpl in Hab.
  set (k := Z.to_nat (len - Z.of_nat (length bs))).
  replace (Z.to_nat (len - Z.of_nat (length bs) + 1)) with (S k) by lia.
  rewrite (copy_app s1 bs (take (S k) (0 :: rest)) (drop (S k) (0 :: rest)));
    [|by rewrite take_drop|done|rewrite length_replicate, length_take; simpl; lia].
  cbn [mbind option_bind]. eexists. split; [done|].
  replace len with (Z.of_nat (length (bs ++ replicate k 0)))
    by (rewrite length_app, length_replicate; lia).
  apply setlen_rep with (drop (S k) (0 :: rest)); [done| | |].
  - apply Forall_app. split; [done|]. apply Forall_replicate. done.
  - cbn [set_buf buf]. rewrite replicate_S_end, <- !app_assoc. done.
  - change (sdsalloc (set_buf _ _)) with (sdsalloc s1).
    rewrite length_app, length_replicate, length_drop. simpl. lia.
Qed.

Lemma cpylen_spec s bs t : sds_rep s bs → Forall byte_ok t → Z.of_nat (length t) ≤ SDS_MAX →
  ∃ s', sdscpylen junk s t = Some s' ∧ sds_rep s' t.
Proof.
  intros Hr Ht Hm. unfold sdscpylen. rewrite (rep_len _ _ _ Hr).
  assert (∃ s1 bs1, (if sdsalloc s <? Z.of_nat (length t)
    then sdsMakeRoomFor junk s (u64 (Z.of_nat (length t) - Z.of_nat (length bs))) else Some s) = Some s1 ∧
    sds_rep s1 bs1 ∧ Z.of_nat (length t) ≤ sdsalloc s1) as (s1 & bs1 & -> & Hr1 & Ha).
  { destruct (Z.ltb_spec (sdsalloc s) (Z.of_nat (length t))) as [?|?]; [|eauto].
    pose proof (len_le_alloc s (rep_hdr _ _ _ Hr)) as Hla. rewrite (rep_len _ _ _ Hr) in Hla.
    unfold SDS_MAX in Hm. rewrite uwrap_small by (unfold in_u; lia).
    destruct (makeroom_spec junk s bs 0 (Z.of_nat (length t) - Z.of_nat (length bs)) Hr)
      as (s1 & -> & Hr1 & Ha); [lia|unfold SDS_MAX; lia|]. exists s1, bs. split_and!; [done|done|lia]. }
  cbn [mbind option_bind]. pose proof (rep_alloc_buf _ _ _ Hr1) as Hab. destruct Hr1 as (H & _).
  set (b1 := take (length t) (buf s1)). destruct (drop (length t) (buf s1)) as [|x b2] eqn:Eb2.
  { apply (f_equal length) in Eb2. rewrite length_drop in Eb2. simpl in Eb2. lia. }
  assert (Eb : buf s1 = b1 ++ x :: b2) by (rewrite <- Eb2; symmetry; apply take_drop).
  assert (Hb1 : length t = length b1) by (subst b1; rewrite length_take; lia).
  rewrite (copy_app s1 [] b1 (x :: b2)) by done. cbn [mbind option_bind].
  apply (f_equal length) in Eb. rewrite length_app in Eb. simpl in Eb.
  destruct (cut_rep (set_buf s1 ([] ++ t ++ x :: b2)) t x b2) as (s2 & E2 & Hr2 & _); try done.
  { change (sdsalloc (set_buf _ _)) with (sdsalloc s1). lia. }
  rewrite E2. cbn [mbind option_bind]. eauto.
Qed.

End creation.

(** ** Edits in place *)

(** [sdsIncrLen] after [t] was written behind the string by the caller. *)
Lemma incrlen_grow s bs t x rest : sds_rep s bs → Forall byte_ok t →
  buf s = bs ++ t ++ x :: rest → typ s ≠ SDS_TYPE_5 →
  Z.of_nat (length t) ≤ sdsavail s →
  ∃ s', sdsIncrLen s (Z.of_nat (length t)) = Some s' ∧ sds_rep s' (bs ++ t).
Proof.
  intros Hr Ht Eb Hty Hav. pose proof (rep_alloc_buf _ _ _ Hr) as Hab.
  destruct Hr as (H & Hb & Hl & _). rewrite avail_alloc in Hav by done.
  destruct (cut_rep s (bs ++ t) x rest) as (s' & _ & Hr' & E2); [done|by apply Forall_app| | |].
  { by rewrite <- app_assoc. }
  { rewrite Eb, !length_app in Hab. simpl in Hab. rewrite length_app. lia. }
  exists (sdssetlen s' (Z.of_nat (length (bs ++ t)))). split; [|done]. rewrite <- E2.
  pose proof H as (_ & _ & H3). destruct (H3 Hty) as [Hle Hw]. unfold in_u in Hw.
  by_type s H; try done; rewrite length_app, Nat2Z.inj_add, <- Hl; cbn in Hw;
    set (n := Z.of_nat (length t)) in *; assert (0 ≤ n) by lia;
    rewrite ?(uwrap_small _ (halloc s - hlen s)), ?(uwrap_small _ n), ?(uwrap_small _ (hlen s + n))
      by (unfold in_u; lia);
    rewrite (proj2 (Z.leb_le 0 n)), (proj2 (Z.leb_le n _)) by lia; done.
Qed.

(** [sdsIncrLen] with a negative increment: a right trim. *)
Lemma incrlen_trim s bs t : sds_rep s (bs ++ t) → t ≠ [] → Z.of_nat (length t) < 2 ^ 32 →
  ∃ s', sdsIncrLen s (- Z.of_nat (length t)) = Some s' ∧ sds_rep s' bs.
Proof.
  intros (H & Hb & Hl & rest & Eb & Ha) Hne Hm. destruct t as [|x t]; [done|].
  apply Forall_app in Hb as [Hb _]. pose proof (len_le_alloc s H) as Hla.
  rewrite length_app in Hl. simpl in Hl.
  destruct (cut_rep s bs x (t ++ 0 :: rest)) as (s' & _ & Hr' & E2); [done|done| | |].
  { by rewrite Eb, <- app_assoc. }
  { rewrite !length_app in *. simpl in *. lia. }
  exists (sdssetlen s' (Z.of_nat (length bs))). split; [|done]. rewrite <- E2.
  set (n := Z.of_nat (length (x :: t))) in *.
  assert (Hn : 0 < n ∧ Z.of_nat (length bs) = sdslen s - n) by (subst n; simpl; lia).
  clearbody n. pose proof H as (_ & _ & H3). pose proof (len5_range s H).
  assert (0 <=? - n = false) as En by lia. assert (0 <? - n = false) as En' by lia.
  assert (- n <? 0 = true) as En2 by lia.
  by_type s H; rewrite En || rewrite En'; rewrite En2, Z.opp_involutive, (proj2 Hn);
    rewrite (uwrap_small _ n) by (unfold in_u; lia); cbn [andb orb].
  { rewrite (proj2 (Z.leb_le n _)) by lia. done. }
  all: destruct (H3 ltac:(done)) as [Hle Hw]; unfold in_u in Hw; cbn in Hw;
    rewrite (proj2 (Z.leb_le n _)) by lia;
    rewrite !(uwrap_small _ (hlen s - n)), ?(uwrap_small _ (hlen s + - n)) by (unfold in_u; lia); done.
Qed.

Lemma mmove_front (l m r : list Z) :
  mmove (l ++ m ++ r) 0 (Z.of_nat (length l)) (Z.of_nat (length m)) =
  Some (m ++ drop (length m) (l ++ m ++ r)).
Proof.
  unfold mmove. rewrite mread_app by done. cbn [mbind option_bind].
  set (b := l ++ m ++ r).
  rewrite <- (take_drop (length m) b) at 1. pose proof (mwrite_app [] (take (length m) b) m) as E.
  simpl in E. apply E; [done|]. subst b. rewrite length_take, !length_app. lia.
Qed.

(** The end of [sdstrim] and [sdsrange]: the middle part moves to the front. *)
Lemma slice_rep s l m r b : sds_rep s (l ++ m ++ r) →
  (mmove (buf s) 0 (Z.of_nat (length l)) (Z.of_nat (length m)) = Some b ∨
   b = buf s ∧ (l = [] ∨ m = [])) →
  ∃ s1, sdsput (set_buf s b) (Z.of_nat (length m)) 0 = Some s1 ∧
    sds_rep (sdssetlen s1 (Z.of_nat (length m))) m.
Proof.
  intros (H & Hb & Hl & rest & Eb & Ha) Hm. pose proof (len_le_alloc s H) as Hla.
  assert (b = m ++ drop (length m) (buf s)) as ->.
  { rewrite Eb, <- !app_assoc in *. destruct Hm as [Hm|[-> [-> | ->]]].
    - rewrite mmove_front in Hm. by simplify_eq.
    - simpl. by rewrite drop_app_length.
    - done. }
  rewrite !Forall_app in Hb. rewrite !length_app in *.
  destruct (drop (length m) (buf s)) as [|x b2] eqn:Eb2;
    apply (f_equal length) in Eb2; rewrite length_drop, Eb, !length_app in Eb2; simpl in Eb2; [lia|].
  destruct (cut_rep (set_buf s (m ++ x :: b2)) m x b2) as (s' & E & Hr & _); [done|apply Hb|done| |eauto].
  change (sdsalloc (set_buf _ _)) with (sdsalloc s). lia.
Qed.

(** The substring from [start] to [end_], both inclusive; negative indexes
    count from the end and are clipped at the first byte. *)
Definition slice (bs : list Z) (start end_ : Z) : list Z :=
  let index i := if i <? 0 then Z.max 0 (Z.of_nat (length bs) + i) else i in
  take (Z.to_nat (index end_ - index start + 1)) (drop (Z.to_nat (index start)) bs).

(** The window [sdsrange] computes from two nonnegative indexes. *)
Lemma window_spec (bs : list Z) st en : 0 ≤ st →
  let L := Z.of_nat (length bs) in
  let newlen := if en <? st then 0 else en - st + 1 in
  let p := if negb (newlen =? 0) then
             if L <=? st then (st, 0)
             else if L <=? en then (st, if L - 1 <? st then 0 else L - 1 - st + 1) else (st, newlen)
           else (0, newlen) in
  let m := take (Z.to_nat (en - st + 1)) (drop (Z.to_nat st) bs) in
  p.2 = Z.of_nat (length m) ∧ (m ≠ [] → p.1 = Z.of_nat (length (take (Z.to_nat st) bs))).
Proof.
  intros Hst L newlen p m.
  assert (Hlm : Z.of_nat (length m) = Z.max 0 (Z.min (en - st + 1) (L - st))).
  { subst m L. rewrite length_take, length_drop. lia. }
  assert (Hp : p.2 = Z.max 0 (Z.min (en - st + 1) (L - st)) ∧ (p.2 ≠ 0 → p.1 = st)).
  { subst p newlen L. destruct (Z.ltb_spec en st); cbn; [split; lia|].
    destruct (Z.eqb_spec (en - st + 1) 0); cbn; [lia|].
    repeat case_match; cbn; split; lia. }
  rewrite Hlm. split; [apply Hp|]. intros Hne.
  assert (length m ≠ 0%nat) by (by destruct m). rewrite (proj2 Hp) by lia.
  rewrite length_take. subst L. lia.
Qed.

Lemma norm_index L i : 0 < L ≤ SDS_MAX → in_s 64 i →
  (if i <? 0 then if s64 (L + i) <? 0 then 0 else s64 (L + i) else i) =
  (if i <? 0 then Z.max 0 (L + i) else i).
Proof.
  unfold SDS_MAX, in_s. intros HL Hi. destruct (Z.ltb_spec i 0); [|done].
  rewrite swrap_small by (unfold in_s; simpl in *; lia).
  destruct (Z.ltb_spec (L + i) 0); lia.
Qed.

Lemma range_spec s bs start end_ : sds_rep s bs → Z.of_nat (length bs) ≤ SDS_MAX →
  in_s 64 start → in_s 64 end_ →
  ∃ s', sdsrange s start end_ = Some s' ∧ sds_rep s' (slice bs start end_).
Proof.
  intros Hr Hm Hs He. unfold sdsrange, slice, SDS_MAX in *. rewrite (rep_len _ _ _ Hr).
  destruct (Z.eqb_spec (Z.of_nat (length bs)) 0).
  { destruct bs; [|done]. rewrite drop_nil, take_nil. eauto. }
  set (L := Z.of_nat (length bs)) in *. cbv zeta. rewrite !norm_index by (unfold SDS_MAX; lia || done).
  rewrite (swrap_small 64 L) by (unfold in_s; simpl; lia).
  set (st := if start <? 0 then _ else start).
  set (en := if end_ <? 0 then _ else end_).
  assert (0 ≤ st) by (subst st; case_match; lia). clearbody st en.
  set (p := if negb _ then _ else _).
  destruct (window_spec bs st en) as [E3 E4]; [done|].
  set (m := take (Z.to_nat (en - st + 1)) (drop (Z.to_nat st) bs)) in *.
  set (l := take (Z.to_nat st) bs) in *.
  set (r := drop (Z.to_nat (en - st + 1)) (drop (Z.to_nat st) bs)).
  assert (E1 : bs = l ++ m ++ r) by (subst l m r; by rewrite !take_drop).
  clearbody l m r. fold L p in E3, E4. clearbody p.
  destruct p as [st' n']. simpl in E3, E4. subst n'.
  rewrite E1 in Hr. pose proof (slice_rep s l m r) as Hsl.
  set (c := negb (st' =? 0) && negb (Z.of_nat (length m) =? 0)).
  assert (∃ b, (if c then mmove (buf s) 0 st' (Z.of_nat (length m)) else Some (buf s)) = Some b ∧
    (mmove (buf s) 0 (Z.of_nat (length l)) (Z.of_nat (length m)) = Some b ∨
     b = buf s ∧ (l = [] ∨ m = []))) as (b & -> & Hb').
  { subst c. destruct m as [|x m]; [rewrite andb_false_r; eauto 6|]. rewrite E4 by done.
    destruct l as [|y l]; [eauto 6|]. pose proof Hr as (_ & _ & _ & rest & -> & _).
    rewrite <- !app_assoc, mmove_front. eauto. }
  cbn [mbind option_bind]. destruct (Hsl b Hr Hb') as (s1 & -> & ?). cbn. eauto.
Qed.

(** [sdstrim] strips the longest prefix and suffix of bytes of the set. *)
Definition trimmed (strip : Z → bool) (bs bs' : list Z) : Prop :=
  ∃ l r, bs = l ++ bs' ++ r ∧ Forall (λ c, strip c = true) (l ++ r) ∧
    (∀ c, head bs' = Some c → strip c = false) ∧ (∀ c, last bs' = Some c → strip c = false).

Lemma mread_one b1 x (b2 : list Z) : mread (b1 ++ x :: b2) (Z.of_nat (length b1)) 1 = Some [x].
Proof. by apply (mread_app b1 [x] b2). Qed.

Lemma trim_left_spec cset rest m : ∀ l fuel, (length m < fuel)%nat →
  ∃ l' m', trim_left fuel (l ++ m ++ rest) cset (Z.of_nat (length l)) (Z.of_nat (length (l ++ m)) - 1) =
      Some (Z.of_nat (length (l ++ l'))) ∧ m = l' ++ m' ∧
    Forall (λ c, strchr cset c = true) l' ∧ (∀ c, head m' = Some c → strchr cset c = false).
Proof.
  induction m as [|x m IH]; intros l [|fuel] Hf; simpl in Hf; try lia.
  - exists [], []. simpl. rewrite !app_nil_r. destruct (Z.leb_spec (Z.of_nat (length l)) (Z.of_nat (length l) - 1)); [lia|].
    done.
  - cbn [trim_left]. rewrite (proj2 (Z.leb_le _ _)) by (rewrite length_app; simpl; lia).
    cbn [app]. rewrite mread_one. cbn [mbind option_bind hd].
    destruct (strchr cset x) eqn:Ex.
    + destruct (IH (l ++ [x]) fuel) as (l' & m' & E & -> & ? & ?); [lia|].
      rewrite <- !app_assoc in E. cbn [app] in E.
      replace (Z.of_nat (length (l ++ [x]))) with (Z.of_nat (length l) + 1) in E
        by (rewrite length_app; simpl; lia).
      exists (x :: l'), m'. rewrite <- !app_assoc. cbn [app]. rewrite E. split; [done|]. split; [done|]. split; [by constructor|done].
    + exists [], (x :: m). rewrite app_nil_r. split_and!; try done. simpl. by intros ? [= ->].
Qed.

Lemma trim_right_spec cset l x rest m : strchr cset x = false → ∀ r fuel, (length m < fuel)%nat →
  ∃ m' r', trim_right fuel (l ++ x :: m ++ r ++ rest) cset
      (Z.of_nat (length (l ++ x :: m)) - 1) (Z.of_nat (length l)) =
      Some (Z.of_nat (length (l ++ x :: m')) - 1) ∧ m = m' ++ r' ∧
    Forall (λ c, strchr cset c = true) r' ∧ (∀ c, last (x :: m') = Some c → strchr cset c = false).
Proof.
  intros Hx. induction m as [|y m IH] using rev_ind; intros r [|fuel] Hf;
    rewrite ?length_app in Hf; simpl in Hf; try lia.
  - exists [], []. cbn [trim_right]. rewrite (proj2 (Z.ltb_ge _ _)) by (rewrite length_app; simpl; lia).
    split_and!; try done. intros c. simpl. by intros [= <-].
  - cbn [trim_right]. rewrite (proj2 (Z.ltb_lt _ _)) by (rewrite length_app; simpl; rewrite length_app; simpl; lia).
    replace (Z.of_nat (length (l ++ x :: m ++ [y])) - 1) with (Z.of_nat (length (l ++ x :: m)))
      by (rewrite !length_app; simpl; rewrite length_app; simpl; lia).
    replace (l ++ x :: (m ++ [y]) ++ r ++ rest) with ((l ++ x :: m) ++ y :: (r ++ rest))
      by (by rewrite <- !app_assoc).
    rewrite mread_one. cbn [mbind option_bind hd]. destruct (strchr cset y) eqn:Ey.
    + destruct (IH (y :: r) fuel) as (m' & r' & E & -> & ? & ?); [lia|].
      assert (l ++ x :: (m' ++ r') ++ (y :: r) ++ rest = (l ++ x :: m' ++ r') ++ y :: r ++ rest) as Ea
        by (rewrite <- (app_assoc l); done).
      rewrite Ea in E.
      exists m', (r' ++ [y]). rewrite E, app_assoc. split_and!; try done.
      apply Forall_app. split; [done|]. by constructor.
    + exists (m ++ [y]), []. rewrite app_nil_r. split_and!; try done.
      * f_equal. rewrite !length_app. simpl. rewrite length_app. simpl. lia.
      * intros c. rewrite app_comm_cons, last_snoc. by intros [= <-].
Qed.

Lemma trim_spec s bs cset : sds_rep s bs →
  ∃ s' bs', sdstrim s cset = Some s' ∧ sds_rep s' bs' ∧ trimmed (strchr cset) bs bs'.
Proof.
  intros Hr. unfold sdstrim. rewrite (rep_len _ _ _ Hr).
  pose proof Hr as (_ & _ & _ & rest & Eb & _). rewrite Eb, Nat2Z.id.
  destruct (trim_left_spec cset (0 :: rest) bs [] (S (length bs))) as (l & m & E & -> & Hl & Hh); [lia|].
  simpl app in E. change (Z.of_nat (length [])) with 0 in E. rewrite E. cbn [mbind option_bind].
  assert (∃ bs' r, trim_right (S (length (l ++ m))) ((l ++ m) ++ 0 :: rest) cset
      (Z.of_nat (length (l ++ m)) - 1) (Z.of_nat (length l)) =
      Some (Z.of_nat (length (l ++ bs')) - 1) ∧ m = bs' ++ r ∧ Forall (λ c, strchr cset c = true) r ∧
      (∀ c, head bs' = Some c → strchr cset c = false) ∧
      (∀ c, last bs' = Some c → strchr cset c = false)) as (bs' & r & -> & -> & Hr' & Hh' & Hlast).
  { destruct m as [|x m].
    - exists [], []. cbn [trim_right]. rewrite app_nil_r.
      rewrite (proj2 (Z.ltb_ge _ _)) by lia. done.
    - assert (Hx : strchr cset x = false) by (by apply Hh).
      destruct (trim_right_spec cset l x (0 :: rest) m Hx [] (S (length (l ++ x :: m))))
        as (m' & r' & E2 & -> & ? & ?); [rewrite length_app; simpl; lia|].
      rewrite app_nil_l in E2. exists (x :: m'), r'. rewrite <- app_assoc. cbn [app]. cbn [app] in E2.
      rewrite E2. done. }
  cbn [mbind option_bind].
  assert ((if Z.of_nat (length (l ++ bs')) - 1 <? Z.of_nat (length l) then 0
    else Z.of_nat (length (l ++ bs')) - 1 - Z.of_nat (length l) + 1) = Z.of_nat (length bs')) as ->.
  { rewrite length_app. destruct (Z.ltb_spec (Z.of_nat (length l + length bs') - 1) (Z.of_nat (length l))); lia. }
  assert (∃ b, (if Z.of_nat (length l) =? 0 then Some ((l ++ bs' ++ r) ++ 0 :: rest)
      else mmove ((l ++ bs' ++ r) ++ 0 :: rest) 0 (Z.of_nat (length l)) (Z.of_nat (length bs'))) = Some b ∧
    (mmove (buf s) 0 (Z.of_nat (length l)) (Z.of_nat (length bs')) = Some b ∨
     b = buf s ∧ (l = [] ∨ bs' = []))) as (b & -> & Hb).
  { rewrite Eb. destruct l as [|y l]; [eauto 6|]. rewrite <- !app_assoc, mmove_front. eauto. }
  cbn [mbind option_bind]. destruct (slice_rep s l bs' r b Hr Hb) as (s1 & -> & ?). cbn.
  eexists _, bs'. split; [done|]. split; [done|]. exists l, r. split; [done|].
  split; [by apply Forall_app|done].
Qed.

Lemma map_spec f s bs : sds_rep s bs → (∀ c, byte_ok c → byte_ok (f c)) →
  sds_rep (map_prefix f s) (f <$> bs).
Proof.
  intros (H & Hb & Hl & rest & Eb & Ha) Hf. unfold map_prefix. rewrite Hl, Nat2Z.id, Eb.
  rewrite take_app_length, drop_app_length. split_and!; [done| |by rewrite length_fmap|].
  - apply Forall_fmap. by eapply Forall_impl.
  - exists rest. rewrite length_fmap. done.
Qed.

(** ** Correctness *)

Section theorems.
Context (junk : Z).

(** C7. Appending ([sdscatlen]), overwriting ([sdscpylen]) and zero-extending
    ([sdsgrowzero]) a well-formed sds never leave the buffer, whatever the
    header type, the free space and the reallocation they need, and yield a
    well-formed, NUL-terminated sds with exactly the expected bytes; and
    [sdsMakeRoomFor] provides the room it was asked for without changing the
    string. *)
Theorem sds_write_ops_correct s bs t len : sds_rep s bs → Forall byte_ok t →
  Z.of_nat (length bs + length t) ≤ SDS_MAX → 0 ≤ len ≤ SDS_MAX →
  (∃ s', sdscatlen junk s t = Some s' ∧ sds_rep s' (bs ++ t)) ∧
  (∃ s', sdscpylen junk s t = Some s' ∧ sds_rep s' t) ∧
  (∃ s', sdsgrowzero junk s len = Some s' ∧
     sds_rep s' (bs ++ replicate (Z.to_nat (len - Z.of_nat (length bs))) 0)) ∧
  (∃ s', sdsMakeRoomFor junk s (Z.of_nat (length t)) = Some s' ∧ sds_rep s' bs ∧
     Z.of_nat (length t) ≤ sdsavail s').
Proof.
  intros Hr Ht Hm Hlen. split_and!.
  - by apply catlen_spec.
  - apply cpylen_spec with bs; [done|done|lia].
  - apply growzero_spec; [done|lia].
  - destruct (makeroom_spec junk s bs 0 (Z.of_nat (length t)) Hr) as (s' & ? & Hr' & ?); [lia|lia|].
    exists s'. split_and!; [done|done|].
    rewrite avail_alloc, (rep_len _ _ _ Hr') by (by eapply rep_hdr). lia.
Qed.

(** [sdsnewlen] and [sdsdup] allocate exactly the string, [sdsclear]
    empties it and keeps the capacity as free space, [sdsRemoveFreeSpace]
    keeps the string and leaves no free space, and [sdsIncrLen] makes the bytes
    the caller wrote into the free space part of the string, or cuts bytes off
    its end. *)
Theorem sds_capacity_ops_correct s bs : sds_rep s bs → Z.of_nat (length bs) ≤ SDS_MAX →
  (∃ s', sdsnewlen junk (INIT_BYTES bs) (Z.of_nat (length bs)) = Some s' ∧ sds_rep s' bs ∧
     sdsAllocSize s' = sdsHdrSize (flags s') + Z.of_nat (length bs) + 1) ∧
  (∃ s', sdsdup junk s = Some s' ∧ sds_rep s' bs ∧ sdsavail s' = 0) ∧
  (∃ s', sdsclear s = Some s' ∧ sds_rep s' [] ∧ (typ s ≠ SDS_TYPE_5 → sdsavail s' = sdsalloc s)) ∧
  (∃ s', sdsRemoveFreeSpace junk s = Some s' ∧ sds_rep s' bs ∧ sdsavail s' = 0) ∧
  (∀ t x rest, Forall byte_ok t → buf s = bs ++ t ++ x :: rest → typ s ≠ SDS_TYPE_5 →
     Z.of_nat (length t) ≤ sdsavail s →
     ∃ s', sdsIncrLen s (Z.of_nat (length t)) = Some s' ∧ sds_rep s' (bs ++ t)) ∧
  (∀ b t, bs = b ++ t → t ≠ [] → Z.of_nat (length t) < 2 ^ 32 →
     ∃ s', sdsIncrLen s (- Z.of_nat (length t)) = Some s' ∧ sds_rep s' b).
Proof.
  intros Hr Hm. split_and!.
  - destruct (newlen_spec junk bs []) as (s' & E & Hr' & Ha & _); [apply Hr|done|].
    rewrite app_nil_r in E. exists s'. split_and!; [done|done|]. unfold sdsAllocSize. lia.
  - destruct (dup_spec junk s bs Hr Hm) as (s' & ? & Hr' & Ha). exists s'. split_and!; [done|done|].
    rewrite avail_alloc, (rep_len _ _ _ Hr') by (by eapply rep_hdr). lia.
  - destruct (clear_spec s bs Hr) as (s' & ? & Hr' & Ha). exists s'. split_and!; [done|done|].
    intros Ht. rewrite avail_alloc, (rep_len _ _ _ Hr'), Ha by (done || by eapply rep_hdr). simpl. lia.
  - by apply removefree_spec.
  - intros t x rest ????. by apply incrlen_grow with x rest.
  - intros b t -> ??. by apply incrlen_trim.
Qed.

(** [sdsrange] keeps exactly the requested substring for every pair of
    indexes, [sdstrim] strips exactly the longest prefix and suffix of bytes
    found by [strchr], and the case conversions and [sdsmapchars] act byte by
    byte, all in place and inside of the buffer. *)
Theorem sds_edit_ops_correct s bs start end_ cset : sds_rep s bs →
  Z.of_nat (length bs) ≤ SDS_MAX → in_s 64 start → in_s 64 end_ →
  (∃ s', sdsrange s start end_ = Some s' ∧ sds_rep s' (slice bs start end_)) ∧
  (∃ s' bs', sdstrim s cset = Some s' ∧ sds_rep s' bs' ∧ trimmed (strchr cset) bs bs') ∧
  sds_rep (sdstolower s) (tolower <$> bs) ∧ sds_rep (sdstoupper s) (toupper <$> bs) ∧
  (∀ from to, Forall byte_ok to → sds_rep (sdsmapchars s from to) (map_char from to <$> bs)).
Proof.
  intros Hr Hm Hs He. split_and!.
  - by apply range_spec.
  - by apply trim_spec.
  - apply map_spec; [done|]. intros c. unfold tolower, in_u. case_match; lia.
  - apply map_spec; [done|]. intros c. unfold toupper, in_u. case_match; lia.
  - intros from to Hto. apply map_spec; [done|]. intros c Hc. revert to Hto.
    induction from as [|f from IH]; intros [|t to] Hto; simpl; try done.
    inversion_clear Hto. case_match; auto.
Qed.

End theorems.

(** A type-8 string with 5 free bytes. *)
Definition demo_sds : sds := Sds SDS_TYPE_8 3 8 [65; 98; 65; 0; 7; 7; 7; 7; 7].

Lemma demo_sds_rep : sds_rep demo_sds [65; 98; 65].
Proof.
  split_and!; [|repeat constructor; done|done|].
  - split_and!; done.
  - exists [7; 7; 7; 7; 7]. done.
Qed.

Lemma sds_write_ops_correct_witness :
  ∃ s', sdscatlen 0 demo_sds [1; 2; 3; 4; 5; 6] = Some s' ∧ sds_rep s' [65; 98; 65; 1; 2; 3; 4; 5; 6].
Proof.
  apply (sds_write_ops_correct 0 demo_sds [65; 98; 65] [1; 2; 3; 4; 5; 6] 4);
    [apply demo_sds_rep|repeat constructor; done|by vm_compute|by vm_compute].
Defined.

Lemma sds_capacity_ops_correct_witness :
  ∃ s', sdsRemoveFreeSpace 0 demo_sds = Some s' ∧ sds_rep s' [65; 98; 65] ∧ sdsavail s' = 0.
Proof.
  apply (sds_capacity_ops_correct 0 demo_sds [65; 98; 65]); [apply demo_sds_rep|by vm_compute].
Defined.

Lemma sds_edit_ops_correct_witness :
  ∃ s', sdsrange demo_sds 1 (-1) = Some s' ∧ sds_rep s' [98; 65].
Proof.
  apply (sds_edit_ops_correct demo_sds [65; 98; 65] 1 (-1) []);
    [apply demo_sds_rep|by vm_compute|by vm_compute|by vm_compute].
Defined.
