(* ===== verification/SdsText.v ===== *)
(** * sds.c: comparison, splitting, quoting and formatting

    The functions of sds.c that read or build strings byte by byte.  Sources
    the code only reads ([const char *] with a length) are lists of bytes; a
    NUL-terminated line is the list of its bytes before the NUL.  What is
    appended goes through [sdscatlen] and [sdsMakeRoomFor] of Sds.v. *)

From S2P Require Import Prelude Sds Decimal.

(** ** sdscmp *)

(** [memcmp]: the difference of the first bytes that differ. *)
Fixpoint memcmp (a b : list Z) : Z :=
  match a, b with
  | x :: a', y :: b' => if x =? y then memcmp a' b' else x - y
  | _, _ => 0
  end.

Definition sdscmp (s1 s2 : sds) : option Z :=
  let l1 := sdslen s1 in
  let l2 := sdslen s2 in
  let minlen := if l1 <? l2 then l1 else l2 in
  b1 ← mread (buf s1) 0 minlen;
  b2 ← mread (buf s2) 0 minlen;
  let cmp := memcmp b1 b2 in
  Some (if cmp =? 0 then (if l2 <? l1 then 1 else if l1 <? l2 then -1 else 0) else cmp).

(** The same on the strings two sds stand for. *)
Definition bytes_cmp (a b : list Z) : Z :=
  let n := Nat.min (length a) (length b) in
  let cmp := memcmp (take n a) (take n b) in
  if cmp =? 0 then
    (if Z.of_nat (length b) <? Z.of_nat (length a) then 1
     else if Z.of_nat (length a) <? Z.of_nat (length b) then -1 else 0)
  else cmp.

(** ** sdssplitlen and sdsjoinsds *)

(** [memcmp(s+j, sep, seplen) == 0] (the one-byte test is the same test). *)
Definition sep_at (s sep : list Z) (j : Z) : option bool :=
  b ← mread s j (Z.of_nat (length sep));
  Some (memcmp b sep =? 0).

Fixpoint split_loop (fuel : nat) (s sep : list Z) (j start slots : Z) (tokens : list (list Z)) :
    option (Z * Z * list (list Z)) :=
  match fuel with
  | O => None
  | S f =>
      let len := Z.of_nat (length s) in
      let seplen := Z.of_nat (length sep) in
      if j <? len - (seplen - 1) then
        let elements := Z.of_nat (length tokens) in
        let slots := if slots <? elements + 2 then slots * 2 else slots in
        found ← sep_at s sep j;
        if found : bool then
          if elements <? slots then
            tok ← mread s start (j - start);
            split_loop f s sep (j + seplen - 1 + 1) (j + seplen) slots (tokens ++ [tok])
          else None
        else split_loop f s sep (j + 1) start slots tokens
      else Some (start, slots, tokens)
  end.

(** [Some None] is the NULL result; [None] an access out of bounds. *)
Definition sdssplitlen (s sep : list Z) : option (option (list (list Z))) :=
  let len := Z.of_nat (length s) in
  let seplen := Z.of_nat (length sep) in
  if (seplen <? 1) || (len <? 0) then Some None else
  if len =? 0 then Some (Some []) else
  '(start, slots, tokens) ← split_loop (S (length s)) s sep 0 0 5 [];
  if Z.of_nat (length tokens) <? slots then
    tok ← mread s start (len - start);
    Some (Some (tokens ++ [tok]))
  else None.

Section build.
Context (junk : Z).

Fixpoint join_loop (join : sds) (argv : list sds) (sep : list Z) : option sds :=
  match argv with
  | [] => Some join
  | a :: argv' =>
      join ← sdscatsds junk join a;
      join ← match argv' with [] => Some join | _ => sdscatlen junk join sep end;
      join_loop join argv' sep
  end.

Definition sdsjoinsds (argv : list sds) (sep : list Z) : option sds :=
  join ← sdsempty junk; join_loop join argv sep.

(** ** Quoting *)

Definition isprint (c : Z) : bool := (32 <=? c) && (c <=? 126).
Definition isspace (c : Z) : bool := (c =? 32) || ((9 <=? c) && (c <=? 13)).

Definition hexdigit (n : Z) : Z := if n <? 10 then 48 + n else 97 + (n - 10).

(** What [sdscatrepr] appends for one byte (an escaped character, a
    mnemonic escape, the byte itself or a hexadecimal escape). *)
Definition repr_char (c : Z) : list Z :=
  if (c =? 92) || (c =? 34) then [92; c]
  else if c =? 10 then [92; 110]
  else if c =? 13 then [92; 114]
  else if c =? 9 then [92; 116]
  else if c =? 7 then [92; 97]
  else if c =? 8 then [92; 98]
  else if isprint c then [c]
  else [92; 120; hexdigit (c `div` 16); hexdigit (c `mod` 16)].

Fixpoint repr_loop (s : sds) (p : list Z) : option sds :=
  match p with
  | [] => Some s
  | c :: p' => s ← sdscatlen junk s (repr_char c); repr_loop s p'
  end.

Definition sdscatrepr (s : sds) (p : list Z) : option sds :=
  s ← sdscatlen junk s [34];
  s ← repr_loop s p;
  sdscatlen junk s [34].

End build.

Definition is_hex_digit (c : Z) : bool :=
  ((48 <=? c) && (c <=? 57)) || ((97 <=? c) && (c <=? 102)) || ((65 <=? c) && (c <=? 70)).

Definition hex_digit_to_int (c : Z) : Z :=
  if (48 <=? c) && (c <=? 57) then c - 48
  else if (97 <=? c) && (c <=? 102) then c - 97 + 10
  else if (65 <=? c) && (c <=? 70) then c - 65 + 10
  else 0.

(** ** sdssplitargs *)

(** [p[i]] in a NUL-terminated string. *)
Definition char_at (p : list Z) (i : nat) : Z := nth i p 0.

Inductive quote := NOQ | INQ | INSQ.

(** One iteration of the [while(!done)] loop on the rest [p] of the line:
    quoting state, token so far, and whether the token is done. *)
Inductive tokstep := TErr | TStep (q : quote) (current : list Z) (done : bool) (p : list Z).

Definition unescape (c : Z) : Z :=
  if c =? 110 then 10 else if c =? 114 then 13 else if c =? 116 then 9
  else if c =? 98 then 8 else if c =? 97 then 7 else c.

(** [if ( *p ) p++] *)
Definition adv (p : list Z) : list Z := if char_at p 0 =? 0 then p else tail p.

Definition token_step (q : quote) (current p : list Z) : tokstep :=
  let c := char_at p 0 in
  let c1 := char_at p 1 in
  match q with
  | INQ =>
      if (c =? 92) && (c1 =? 120) && is_hex_digit (char_at p 2) && is_hex_digit (char_at p 3) then
        let byte := u8 (hex_digit_to_int (char_at p 2) * 16 + hex_digit_to_int (char_at p 3)) in
        TStep INQ (current ++ [byte]) false (adv (drop 3 p))
      else if (c =? 92) && negb (c1 =? 0) then
        TStep INQ (current ++ [unescape c1]) false (adv (drop 1 p))
      else if c =? 34 then
        if negb (c1 =? 0) && negb (isspace c1) then TErr else TStep INQ current true (adv p)
      else if c =? 0 then TErr
      else TStep INQ (current ++ [c]) false (adv p)
  | INSQ =>
      if (c =? 92) && (c1 =? 39) then TStep INSQ (current ++ [39]) false (adv (drop 1 p))
      else if c =? 39 then
        if negb (c1 =? 0) && negb (isspace c1) then TErr else TStep INSQ current true (adv p)
      else if c =? 0 then TErr
      else TStep INSQ (current ++ [c]) false (adv p)
  | NOQ =>
      if (c =? 32) || (c =? 10) || (c =? 13) || (c =? 9) || (c =? 0)
      then TStep NOQ current true (adv p)
      else if c =? 34 then TStep INQ current false (adv p)
      else if c =? 39 then TStep INSQ current false (adv p)
      else TStep NOQ (current ++ [c]) false (adv p)
  end.

(** [None]: out of fuel; [Some None]: [goto err]. *)
Fixpoint token_loop (fuel : nat) (q : quote) (current p : list Z) :
    option (option (list Z * list Z)) :=
  match fuel with
  | O => None
  | S f =>
      match token_step q current p with
      | TErr => Some None
      | TStep q current done p =>
          if done then Some (Some (current, p)) else token_loop f q current p
      end
  end.

(** [while ( *p && isspace( *p ) ) p++] *)
Fixpoint skip_blanks (p : list Z) : list Z :=
  match p with
  | c :: p' => if isspace c then skip_blanks p' else p
  | [] => []
  end.

Fixpoint args_loop (fuel : nat) (p : list Z) (vector : list (list Z)) :
    option (option (list (list Z))) :=
  match fuel with
  | O => None
  | S f =>
      let p := skip_blanks p in
      if char_at p 0 =? 0 then Some (Some vector) else
      r ← token_loop (S (length p)) NOQ [] p;
      match r with
      | None => Some None
      | Some (current, p) => args_loop f p (vector ++ [current])
      end
  end.

(** The line ends at its first NUL. *)
Fixpoint cstr (l : list Z) : list Z :=
  match l with [] => [] | c :: l' => if c =? 0 then [] else c :: cstr l' end.

Definition sdssplitargs (line : list Z) : option (option (list (list Z))) :=
  let p := cstr line in args_loop (S (length p)) p [].

(** ** Numbers *)

(** [do { *p++ = '0'+(v%10); v /= 10; } while(v)] in the buffer of 21 bytes. *)
Definition SDS_LLSTR_SIZE : Z := 21.

Fixpoint digits_loop (fuel : nat) (b : list Z) (p v : Z) : option (list Z * Z) :=
  match fuel with
  | O => None
  | S f =>
      b ← mwrite b p [48 + v `mod` 10];
      let v := v `div` 10 in
      if v =? 0 then Some (b, p + 1) else digits_loop f b (p + 1) v
  end.

(** [while(s < p) { swap *s and *p; s++; p--; }] *)
Fixpoint swap_loop (fuel : nat) (b : list Z) (i j : Z) : option (list Z) :=
  match fuel with
  | O => None
  | S f =>
      if i <? j then
        x ← mread b i 1; y ← mread b j 1;
        b ← mwrite b i y; b ← mwrite b j x;
        swap_loop f b (i + 1) (j - 1)
      else Some b
  end.

(** Both return the buffer and the length. *)
Definition sdsll2str (s : list Z) (value : Z) : option (list Z * Z) :=
  let v := if value <? 0 then u64 (- value) else value in
  '(b, p) ← digits_loop 21 s 0 v;
  '(b, p) ← (if value <? 0 then b ← mwrite b p [45]; Some (b, p + 1) else Some (b, p));
  let l := p in
  b ← mwrite b p [0];
  b ← swap_loop 21 b 0 (p - 1);
  Some (b, l).

Definition sdsull2str (s : list Z) (v : Z) : option (list Z * Z) :=
  '(b, p) ← digits_loop 21 s 0 v;
  let l := p in
  b ← mwrite b p [0];
  b ← swap_loop 21 b 0 (p - 1);
  Some (b, l).

(** ** sdscatfmt *)

Inductive fmtarg := FStr (bs : list Z) | FSds (s : sds) | FInt (z : Z) | FUint (z : Z).

Section catfmt.
Context (junk : Z).

Definition sdsfromlonglong (value : Z) : option sds :=
  '(b, len) ← sdsll2str (replicate (Z.to_nat SDS_LLSTR_SIZE) junk) value;
  sdsnewlen junk (INIT_BYTES b) len.

(** [memcpy(s+i,str,l); sdsinclen(s,l); i += l] after making room. *)
Definition fmt_put (s : sds) (i : Z) (str : list Z) : option (sds * Z) :=
  let l := Z.of_nat (length str) in
  s ← (if sdsavail s <? l then sdsMakeRoomFor junk s l else Some s);
  s ← sdscopy s i str;
  Some (sdsinclen s l, i + l).

(** The bytes an argument stands for under the conversion [next]; [None] when
    the caller passed an argument of another type. *)
Definition fmt_render (next : Z) (a : fmtarg) : option (list Z) :=
  let b := replicate (Z.to_nat SDS_LLSTR_SIZE) junk in
  match a with
  | FStr bs => if next =? 115 then Some bs else None
  | FSds s => if next =? 83 then mread (buf s) 0 (sdslen s) else None
  | FInt z => if (next =? 105) || (next =? 73)
              then '(b, l) ← sdsll2str b z; mread b 0 l else None
  | FUint z => if (next =? 117) || (next =? 85)
               then '(b, l) ← sdsull2str b z; mread b 0 l else None
  end.

Definition is_conv (next : Z) : bool :=
  (next =? 115) || (next =? 83) || (next =? 105) || (next =? 73) || (next =? 117) || (next =? 85).

(** The loop over the format; a lone '%' at its end makes the code read behind
    the terminator, which is [None]. *)
Fixpoint fmt_loop (fmt : list Z) (s : sds) (i : Z) (ap : list fmtarg) : option (sds * Z) :=
  match fmt with
  | [] => Some (s, i)
  | c :: f =>
      s ← (if sdsavail s =? 0 then sdsMakeRoomFor junk s 1 else Some s);
      if c =? 37 then
        match f with
        | [] => None
        | next :: f =>
            if is_conv next then
              match ap with
              | [] => None
              | a :: ap =>
                  str ← fmt_render next a;
                  '(s, i) ← fmt_put s i str;
                  fmt_loop f s i ap
              end
            else
              s ← sdsput s i next;
              fmt_loop f (sdsinclen s 1) (i + 1) ap
        end
      else
        s ← sdsput s i c;
        fmt_loop f (sdsinclen s 1) (i + 1) ap
  end.

Definition sdscatfmt (s : sds) (fmt : list Z) (ap : list fmtarg) : option sds :=
  '(s, i) ← fmt_loop fmt s (sdslen s) ap;
  sdsput s i 0.

End catfmt.

(** ** Comparison is the lexicographic order *)

Lemma bytes_cmp_cons x a y b :
  bytes_cmp (x :: a) (y :: b) = if x =? y then bytes_cmp a b else x - y.
Proof.
  unfold bytes_cmp. cbn [length Nat.min take memcmp].
  destruct (Z.eqb_spec x y) as [E|E].
  - destruct (_ =? 0); [|done].
    assert (Z.of_nat (S (length b)) <? Z.of_nat (S (length a)) = (Z.of_nat (length b) <? Z.of_nat (length a))) as ->
      by (apply eq_true_iff_eq; rewrite !Z.ltb_lt; lia).
    assert (Z.of_nat (S (length a)) <? Z.of_nat (S (length b)) = (Z.of_nat (length a) <? Z.of_nat (length b))) as ->
      by (apply eq_true_iff_eq; rewrite !Z.ltb_lt; lia).
    done.
  - destruct (Z.eqb_spec (x - y) 0); [lia|done].
Qed.

Lemma bytes_cmp_nil_l y b : bytes_cmp [] (y :: b) = -1.
Proof. done. Qed.
Lemma bytes_cmp_nil_r x a : bytes_cmp (x :: a) [] = 1.
Proof. done. Qed.

Definition bytes_lt (a b : list Z) : Prop := bytes_cmp a b < 0.

#[global] Instance bytes_lt_dec a b : Decision (bytes_lt a b).
Proof. unfold bytes_lt. apply _. Defined.

Lemma bytes_cmp_eq a b : bytes_cmp a b = 0 ↔ a = b.
Proof.
  revert b. induction a as [|x a IH]; intros [|y b]; try done.
  rewrite bytes_cmp_cons. destruct (Z.eqb_spec x y) as [->|E].
  - rewrite IH. naive_solver.
  - split; [lia|]. by intros [= ? ?].
Qed.

Lemma bytes_cmp_anti a b : 0 < bytes_cmp a b ↔ bytes_cmp b a < 0.
Proof.
  revert b. induction a as [|x a IH]; intros [|y b]; try (done || by split; cbn; lia).
  rewrite !bytes_cmp_cons. rewrite (Z.eqb_sym y x). destruct (Z.eqb_spec x y); [apply IH|lia].
Qed.

Lemma bytes_cmp_trans a b c : bytes_cmp a b < 0 → bytes_cmp b c < 0 → bytes_cmp a c < 0.
Proof.
  revert b c. induction a as [|x a IH]; intros [|y b] [|z c];
    rewrite ?bytes_cmp_cons, ?bytes_cmp_nil_l, ?bytes_cmp_nil_r; try (done || lia).
  destruct (Z.eqb_spec x y), (Z.eqb_spec y z), (Z.eqb_spec x z); subst; try lia. apply IH.
Qed.

#[global] Instance bytes_lt_strict : StrictOrder bytes_lt.
Proof.
  split.
  - intros a. unfold bytes_lt, complement. rewrite (proj2 (bytes_cmp_eq a a)) by done. lia.
  - intros a b c. apply bytes_cmp_trans.
Qed.

Lemma bytes_lt_total a b : bytes_lt a b ∨ a = b ∨ bytes_lt b a.
Proof.
  unfold bytes_lt. pose proof (bytes_cmp_eq a b). pose proof (bytes_cmp_anti a b).
  destruct (Z.lt_trichotomy (bytes_cmp a b) 0) as [?|[?|?]]; naive_solver.
Qed.

Lemma mread_prefix (bs rest : list Z) n : (n ≤ length bs)%nat →
  mread (bs ++ rest) 0 (Z.of_nat n) = Some (take n bs).
Proof.
  intros Hn. rewrite <- (take_drop n bs) at 1. rewrite <- app_assoc.
  apply (mread_app []); [done|]. rewrite length_take. lia.
Qed.

Lemma sdscmp_bytes s1 s2 b1 b2 : sds_rep s1 b1 → sds_rep s2 b2 →
  sdscmp s1 s2 = Some (bytes_cmp b1 b2).
Proof.
  intros (_ & _ & L1 & r1 & E1 & _) (_ & _ & L2 & r2 & E2 & _).
  unfold sdscmp, bytes_cmp. rewrite L1, L2, E1, E2.
  assert ((if Z.of_nat (length b1) <? Z.of_nat (length b2) then Z.of_nat (length b1)
           else Z.of_nat (length b2)) = Z.of_nat (Nat.min (length b1) (length b2))) as ->.
  { destruct (Z.ltb_spec (Z.of_nat (length b1)) (Z.of_nat (length b2))); lia. }
  rewrite !mread_prefix by lia. done.
Qed.

(** ** Splitting and joining *)

(** [sep] occurs in [s] at position [j]. *)
Definition occurs_at (sep s : list Z) (j : nat) : Prop := sep `prefix_of` drop j s.

#[global] Instance occurs_at_dec sep s j : Decision (occurs_at sep s j).
Proof. unfold occurs_at. apply _. Defined.

(** The reference join. *)
Fixpoint join (sep : list Z) (ts : list (list Z)) : list Z :=
  match ts with
  | [] => []
  | [t] => t
  | t :: ts => t ++ sep ++ join sep ts
  end.

Lemma join_snoc sep ts t : ts ≠ [] → join sep (ts ++ [t]) = join sep ts ++ sep ++ t.
Proof.
  induction ts as [|t0 ts IH]; [done|intros _]. destruct ts as [|t1 ts]; [done|].
  change ((t0 :: t1 :: ts) ++ [t]) with (t0 :: (t1 :: ts) ++ [t]).
  cbn [join app] in *. rewrite IH by done. by rewrite <- !app_assoc.
Qed.

Lemma memcmp_eq a b : length a = length b → memcmp a b = 0 ↔ a = b.
Proof.
  revert b. induction a as [|x a IH]; intros [|y b] Hl; try done. simpl in *.
  destruct (Z.eqb_spec x y) as [->|E].
  - rewrite IH by lia. naive_solver.
  - split; [lia|]. by intros [= ? ?].
Qed.

Lemma sep_at_spec s sep (j : nat) : (j + length sep ≤ length s)%nat →
  ∃ b : bool, sep_at s sep (Z.of_nat j) = Some b ∧ (b = true ↔ occurs_at sep s j).
Proof.
  intros Hj. unfold sep_at, mread. rewrite decide_True by lia. rewrite !Nat2Z.id.
  eexists. split; [done|].
  assert (Hl : length (take (length sep) (drop j s)) = length sep) by (rewrite length_take, length_drop; lia).
  rewrite Z.eqb_eq, memcmp_eq by done. unfold occurs_at. split.
  - intros E. exists (drop (length sep) (drop j s)). rewrite <- E at 1. by rewrite take_drop.
  - intros [k E]. rewrite E. by rewrite take_app_length.
Qed.

(** A token: a substring in which [sep] does not occur. *)
Definition no_sep (sep t : list Z) : Prop := ∀ i, ¬ occurs_at sep t i.

Lemma sub_no_sep sep s start j : (∀ i, (start ≤ i < j)%nat → ¬ occurs_at sep s i) → sep ≠ [] →
  no_sep sep (take (j - start) (drop start s)).
Proof.
  intros Hn Hsep i Hi. destruct Hi as [k E].
  destruct (decide (start + i < j)%nat) as [Hlt|Hge].
  - apply (Hn (start + i)%nat); [lia|]. unfold occurs_at. rewrite <- drop_drop.
    rewrite skipn_firstn_comm in E.
    exists (k ++ drop (j - start - i) (drop i (drop start s))). rewrite app_assoc, <- E.
    by rewrite take_drop.
  - rewrite skipn_firstn_comm in E. replace (j - start - i)%nat with 0%nat in E by lia.
    simpl in E. by destruct sep.
Qed.

(** The loop: what is already split, joined with the separators, is the part
    of [s] before [start], and no separator begins between [start] and [j]. *)
Definition split_inv (s sep : list Z) (j start : nat) (slots : Z) (tokens : list (list Z)) : Prop :=
  (start ≤ j)%nat ∧ (start ≤ length s)%nat ∧ (tokens = [] → start = 0%nat) ∧
  (tokens ≠ [] → join sep tokens ++ sep = take start s) ∧
  (∀ i, (start ≤ i < j)%nat → ¬ occurs_at sep s i) ∧ Forall (no_sep sep) tokens ∧
  Z.of_nat (length tokens) + 1 ≤ slots.

Lemma take_mid {A} (s : list A) (a b : nat) : (a ≤ b)%nat →
  take b s = take a s ++ take (b - a) (drop a s).
Proof. intros. rewrite take_take_drop. f_equal. lia. Qed.

Lemma split_loop_spec s sep : sep ≠ [] → ∀ fuel j start slots tokens,
  (length s < j + fuel)%nat → (0 < fuel)%nat → split_inv s sep j start slots tokens →
  ∃ start' slots' tokens',
    split_loop fuel s sep (Z.of_nat j) (Z.of_nat start) slots tokens =
      Some (Z.of_nat start', slots', tokens') ∧
    split_inv s sep (length s) start' slots' tokens'.
Proof.
  intros Hsep. assert (0 < length sep)%nat as Hsl by (destruct sep; simpl; [done|lia]).
  induction fuel as [|f IH]; intros j start slots tokens Hf Hpos Hinv; [lia|].
  pose proof Hinv as (H1 & H2 & H3 & H4 & H5 & H6 & H7). cbn [split_loop].
  destruct (Z.ltb_spec (Z.of_nat j) (Z.of_nat (length s) - (Z.of_nat (length sep) - 1))) as [Hj|Hj].
  - set (slots1 := if slots <? _ then _ else _).
    assert (Hs1 : Z.of_nat (length tokens) + 2 ≤ slots1)
      by (subst slots1; destruct (Z.ltb_spec slots (Z.of_nat (length tokens) + 2)); lia).
    destruct (sep_at_spec s sep j) as ([] & -> & Hb); [lia| |]; cbn [mbind option_bind].
    + rewrite (proj2 (Z.ltb_lt _ _)) by lia.
      unfold mread. rewrite decide_True by lia. cbn [mbind option_bind].
      rewrite Nat2Z.id, <- Nat2Z.inj_sub, Nat2Z.id by lia.
      replace (Z.of_nat j + Z.of_nat (length sep) - 1 + 1) with (Z.of_nat (j + length sep)) by lia.
      replace (Z.of_nat j + Z.of_nat (length sep)) with (Z.of_nat (j + length sep)) by lia.
      apply IH; [lia|lia|]. assert (Ho : occurs_at sep s j) by (by apply Hb).
      split_and!; [lia|lia|by destruct tokens| |intros; lia| |rewrite length_app; simpl; lia].
      * intros _. destruct Ho as [k Ek].
        assert (Et : take (j + length sep) s = take j s ++ sep).
        { rewrite (take_mid s j) by lia. f_equal.
          replace (j + length sep - j)%nat with (length sep) by lia. by rewrite Ek, take_app_length. }
        rewrite Et, (take_mid s start j) by lia. destruct (decide (tokens = [])) as [->|Hne].
        { rewrite H3 by done. done. }
        rewrite join_snoc by done. rewrite <- H4 by done. by rewrite <- !app_assoc.
      * apply Forall_app. split; [done|]. constructor; [|done]. by apply sub_no_sep.
    + replace (Z.of_nat j + 1) with (Z.of_nat (j + 1)) by lia. apply IH; [lia|lia|].
      split_and!; [lia|done|done|done| |done|lia].
      intros i Hi. destruct (decide (i = j)) as [->|]; [|apply H5; lia].
      rewrite <- Hb. done.
  - eexists _, _, _. split; [done|].
    destruct (decide (j ≤ length s)%nat) as [Hle|Hgt].
    + split_and!; try done. intros i Hi. destruct (decide (i < j)%nat); [apply H5; lia|].
      intros [k E]. apply (f_equal length) in E. rewrite length_drop, length_app in E. lia.
    + split_and!; try done. intros i Hi. apply H5. lia.
Qed.

Lemma split_spec s sep : sep ≠ [] → s ≠ [] →
  ∃ tokens, sdssplitlen s sep = Some (Some tokens) ∧ join sep tokens = s ∧
    Forall (no_sep sep) tokens ∧ tokens ≠ [].
Proof.
  intros Hsep Hs. assert (0 < length sep)%nat by (destruct sep; simpl; [done|lia]).
  assert (0 < length s)%nat by (destruct s; simpl; [done|lia]). unfold sdssplitlen.
  rewrite (proj2 (Z.ltb_ge _ _)) by lia. rewrite (proj2 (Z.ltb_ge _ 0)) by lia. cbn [orb].
  rewrite (proj2 (Z.eqb_neq _ _)) by lia.
  destruct (split_loop_spec s sep Hsep (S (length s)) 0 0 5 []) as (st & sl & ts & E & Hinv);
    [lia|lia|split_and!; try done; simpl; intros; lia|].
  change (Z.of_nat 0) with 0 in E. rewrite E. cbn [mbind option_bind].
  destruct Hinv as (H1 & H2 & H3 & H4 & H5 & H6 & H7).
  rewrite (proj2 (Z.ltb_lt _ _)) by lia. unfold mread. rewrite decide_True by lia.
  cbn [mbind option_bind]. eexists. split; [done|].
  rewrite Nat2Z.id, <- Nat2Z.inj_sub, Nat2Z.id by lia.
  assert (Et : take (length s - st) (drop st s) = drop st s)
    by (apply take_ge; rewrite length_drop; lia).
  split_and!; [| |by destruct ts].
  - rewrite Et. destruct (decide (ts = [])) as [->|Hne]; [by rewrite H3|].
    rewrite join_snoc, app_assoc, H4 by done. apply take_drop.
  - apply Forall_app. split; [done|]. constructor; [|done]. by apply sub_no_sep.
Qed.

(** ** Quoting and unquoting *)

Definition quoted (p : list Z) : list Z := [34] ++ (p ≫= repr_char) ++ [34].

Lemma hexdigit_spec n : 0 ≤ n < 16 →
  is_hex_digit (hexdigit n) = true ∧ hex_digit_to_int (hexdigit n) = n ∧ byte_ok (hexdigit n) ∧
  hexdigit n ≠ 0.
Proof.
  intros Hn. unfold hexdigit. destruct (Z.ltb_spec n 10) as [H|H].
  - unfold is_hex_digit, hex_digit_to_int. rewrite (proj2 (Z.leb_le 48 _)), (proj2 (Z.leb_le _ 57)) by lia.
    unfold in_u. simpl. lia.
  - unfold is_hex_digit, hex_digit_to_int. rewrite (proj2 (Z.leb_gt (97 + (n - 10)) 57)) by lia.
    rewrite (proj2 (Z.leb_le 97 _)), (proj2 (Z.leb_le _ 102)) by lia. rewrite andb_false_r.
    unfold in_u. simpl. lia.
Qed.

Lemma nibbles c : byte_ok c →
  let h1 := c `div` 16 in let h2 := c `mod` 16 in
  h1 * 16 + h2 = c ∧ 0 ≤ h2 ∧
  (is_hex_digit (hexdigit h1) = true ∧ hex_digit_to_int (hexdigit h1) = h1 ∧
   byte_ok (hexdigit h1) ∧ hexdigit h1 ≠ 0) ∧
  (is_hex_digit (hexdigit h2) = true ∧ hex_digit_to_int (hexdigit h2) = h2 ∧
   byte_ok (hexdigit h2) ∧ hexdigit h2 ≠ 0).
Proof.
  intros Hc h1 h2. unfold in_u in Hc.
  assert (0 ≤ h1 < 16) by (split; [apply Z.div_pos; lia|apply Z.div_lt_upper_bound; lia]).
  assert (0 ≤ h2 < 16) by (apply Z.mod_pos_bound; lia).
  pose proof (Z.div_mod c 16 ltac:(done)).
  split; [subst h1 h2; lia|]. split; [lia|]. split; by apply hexdigit_spec.
Qed.

Lemma repr_char_ok c : byte_ok c → Forall byte_ok (repr_char c).
Proof.
  intros Hc. destruct (nibbles c Hc) as (_ & _ & (_ & _ & ? & _) & (_ & _ & ? & _)).
  unfold repr_char. repeat case_match; repeat apply Forall_cons_2; try apply Forall_nil_2; done.
Qed.

Lemma repr_char_length c : (1 ≤ length (repr_char c) ≤ 4)%nat.
Proof. unfold repr_char. repeat case_match; simpl; lia. Qed.

(** One quoted byte is one iteration inside of the quotes. *)
Lemma token_step_repr c cur q : byte_ok c →
  token_step INQ cur (repr_char c ++ q) = TStep INQ (cur ++ [c]) false q.
Proof.
  intros Hc. unfold repr_char.
  destruct ((c =? 92) || (c =? 34)) eqn:E1.
  { apply orb_true_iff in E1. assert (c = 92 ∨ c = 34) as [-> | ->] by lia; done. }
  repeat (match goal with |- context [if c =? ?k then _ else _] =>
    destruct (Z.eqb_spec c k) as [->|]; [done|] end).
  apply orb_false_iff in E1 as [E1 E1'].
  destruct (isprint c) eqn:Ep.
  - apply andb_true_iff in Ep as [Ep1 Ep2]. cbn [token_step app char_at nth].
    unfold token_step, adv, char_at. cbn [app nth]. rewrite E1, E1'. cbn [andb].
    assert (c =? 0 = false) as -> by lia. done.
  - destruct (nibbles c Hc) as (En & _ & (A1 & A2 & A3 & A4) & (B1 & B2 & B3 & B4)).
    set (h1 := c `div` 16) in *. set (h2 := c `mod` 16) in *.
    unfold token_step, adv, char_at. cbn [app nth drop].
    change ((92 =? 92) && (120 =? 120)) with true. rewrite A1, B1, A2, B2. cbn [andb nth tail].
    assert (hexdigit h2 =? 0 = false) as -> by lia.
    rewrite En. by rewrite uwrap_small.
Qed.

Lemma token_loop_repr p : ∀ cur rest fuel, Forall byte_ok p →
  rest = [] ∨ (∃ r, rest = 32 :: r) → (length p + 1 ≤ fuel)%nat →
  token_loop fuel INQ cur ((p ≫= repr_char) ++ 34 :: rest) = Some (Some (cur ++ p, rest)).
Proof.
  induction p as [|c p IH]; intros cur rest [|fuel] Hp Hrest Hf; simpl in Hf; try lia.
  - cbn [token_loop mbind list_bind app]. rewrite app_nil_r.
    destruct Hrest as [-> | [r ->]]; done.
  - inversion_clear Hp. cbn [token_loop]. rewrite bind_cons, <- app_assoc, token_step_repr by done.
    rewrite IH by (done || lia). by rewrite <- app_assoc.
Qed.

Lemma bind_length_le {A B} (f : A → list B) k p : (∀ a, k ≤ length (f a))%nat →
  (k * length p ≤ length (p ≫= f))%nat.
Proof.
  intros Hf. induction p as [|c p IH]; [simpl; lia|].
  rewrite bind_cons, length_app. specialize (Hf c). simpl. lia.
Qed.

Lemma token_loop_quoted p rest fuel : Forall byte_ok p →
  rest = [] ∨ (∃ r, rest = 32 :: r) → (length (quoted p ++ rest) < fuel)%nat →
  token_loop fuel NOQ [] (quoted p ++ rest) = Some (Some (p, rest)).
Proof.
  intros Hp Hrest Hf. unfold quoted in *. rewrite <- !app_assoc in *. cbn [app] in *.
  destruct fuel as [|fuel]; [simpl in Hf; lia|]. cbn [token_loop].
  change (token_step NOQ [] (34 :: ?q)) with (TStep INQ [] false q). cbn iota.
  rewrite token_loop_repr; [done|done|done|]. simpl in Hf. rewrite length_app in Hf. simpl in Hf.
  pose proof (bind_length_le repr_char 1 p (λ c, proj1 (repr_char_length c))). lia.
Qed.

Lemma join_cons sep t ts : join sep (t :: ts) = t ++ match ts with [] => [] | _ => sep ++ join sep ts end.
Proof. destruct ts; [by rewrite app_nil_r|done]. Qed.

Lemma args_loop_quoted args : ∀ acc fuel lead, Forall (Forall byte_ok) args →
  lead = [] ∨ lead = [32] → (length (join [32%Z] (quoted <$> args)) < fuel)%nat →
  args_loop fuel (lead ++ join [32] (quoted <$> args)) acc = Some (Some (acc ++ args)).
Proof.
  induction args as [|a args IH]; intros acc [|fuel] lead Ha Hlead Hf; try lia.
  { rewrite !app_nil_r. by destruct Hlead as [-> | ->]. }
  inversion_clear Ha. rewrite fmap_cons, join_cons in *. cbn [args_loop].
  set (rest := match _ with [] => [] | _ => _ end) in *.
  assert (skip_blanks (lead ++ quoted a ++ rest) = quoted a ++ rest) as ->
    by (destruct Hlead as [-> | ->]; done).
  change (char_at (quoted a ++ rest) 0) with 34. cbn [Z.eqb].
  assert (rest = [] ∨ ∃ r, rest = 32 :: r) as Hrest by (subst rest; destruct (quoted <$> args); eauto).
  rewrite token_loop_quoted by (done || lia). cbn [mbind option_bind].
  replace (acc ++ a :: args) with ((acc ++ [a]) ++ args) by (by rewrite <- app_assoc).
  assert (1 ≤ length (quoted a))%nat by (simpl; lia). rewrite length_app in Hf.
  destruct args as [|b args].
  - subst rest. destruct fuel; [simpl in Hf; lia|]. cbn. by rewrite app_nil_r.
  - subst rest. rewrite fmap_cons in *. cbn iota in *. apply IH; [done|by right|].
    rewrite length_app in Hf. simpl in Hf |- *. lia.
Qed.

Lemma cstr_id l : Forall (λ c, c ≠ 0) l → cstr l = l.
Proof. induction 1 as [|c l Hc _ IH]; [done|]. simpl. rewrite IH. by rewrite (proj2 (Z.eqb_neq c 0)). Qed.

Lemma quoted_nonzero p : Forall byte_ok p → Forall (λ c, c ≠ 0) (quoted p).
Proof.
  intros Hp. unfold quoted. repeat (apply Forall_app; split); [by repeat constructor| |by repeat constructor].
  induction Hp as [|c p Hc _ IH]; [constructor|]. rewrite bind_cons. apply Forall_app. split; [|done].
  destruct (nibbles c Hc) as (_ & _ & (_ & _ & _ & ?) & (_ & _ & _ & ?)).
  unfold repr_char. repeat case_match; repeat apply Forall_cons_2; try apply Forall_nil_2; try done;
    unfold isprint in *; lia.
Qed.

Lemma join_nonzero sep ts : Forall (λ c, c ≠ 0) sep → Forall (Forall (λ c, c ≠ 0)) ts →
  Forall (λ c : Z, c ≠ 0) (join sep ts).
Proof.
  intros Hs. induction 1 as [|t ts Ht _ IH]; [constructor|]. rewrite join_cons.
  apply Forall_app. split; [done|]. destruct ts; [constructor|]. by apply Forall_app.
Qed.

Lemma splitargs_quoted args : Forall (Forall byte_ok) args →
  sdssplitargs (join [32] (quoted <$> args)) = Some (Some args).
Proof.
  intros Ha. unfold sdssplitargs. rewrite cstr_id.
  - apply (args_loop_quoted args [] _ []); [done|by left|lia].
  - apply join_nonzero; [by repeat constructor|]. apply Forall_fmap. eapply Forall_impl; [done|].
    apply quoted_nonzero.
Qed.

(** *** Totality: every iteration consumes input *)

Lemma adv_nz p c q : p = c :: q → c ≠ 0 → adv p = q.
Proof. intros -> Hc. unfold adv, char_at. simpl. by rewrite (proj2 (Z.eqb_neq c 0)). Qed.

Lemma adv_drop_nz n p : Forall (λ c, c ≠ 0) p → adv (drop n p) = drop (S n) p.
Proof.
  intros Hp. destruct (drop n p) as [|c q] eqn:E.
  - rewrite <- Nat.add_1_r, <- drop_drop, E. done.
  - rewrite (adv_nz _ c q); [|done|].
    + rewrite <- Nat.add_1_r, <- drop_drop, E. done.
    + assert (Forall (λ c, c ≠ 0) (drop n p)) as Hd by (by apply Forall_drop).
      rewrite E in Hd. by inversion Hd.
Qed.

Lemma token_step_progress q cur p q' cur' d p' : Forall (λ c, c ≠ 0) p →
  token_step q cur p = TStep q' cur' d p' →
  (∃ k, p' = drop (S k) p) ∧ (p = [] → d = true).
Proof.
  intros Hp. assert (E0 : adv p = drop 1 p) by (by apply (adv_drop_nz 0)).
  pose proof (adv_drop_nz 1 p Hp) as E1. pose proof (adv_drop_nz 3 p Hp) as E3.
  unfold token_step. rewrite E0, E1, E3.
  destruct q; repeat case_match; intros [=]; subst; split; eauto;
    intros ->; unfold char_at in *; simpl in *; discriminate.
Qed.

Lemma token_loop_total fuel : ∀ q cur p, Forall (λ c, c ≠ 0) p → (length p < fuel)%nat →
  ∃ r, token_loop fuel q cur p = Some r ∧
    (∀ cur' p', r = Some (cur', p') → ∃ k, p' = drop (S k) p).
Proof.
  induction fuel as [|f IH]; intros q cur p Hp Hf; [lia|]. cbn [token_loop].
  destruct (token_step q cur p) as [|q' cur' d p'] eqn:Es; [by eexists|].
  destruct (token_step_progress _ _ _ _ _ _ _ Hp Es) as [[k ->] Hd].
  destruct d; [eexists; split; [done|]; intros ? ? [=]; subst; eauto|].
  assert (length p ≠ 0%nat) by (destruct p; [by specialize (Hd eq_refl)|done]).
  destruct (IH q' cur' (drop (S k) p)) as (r & -> & Hr); [by apply Forall_drop|rewrite length_drop; lia|].
  eexists. split; [done|]. intros c' p' ->. destruct (Hr _ _ eq_refl) as [k' ->].
  exists (S k + k')%nat. rewrite drop_drop. f_equal. lia.
Qed.

Lemma skip_blanks_suffix p : ∃ k, skip_blanks p = drop k p.
Proof.
  induction p as [|c p [k IH]]; [by exists 0%nat|]. simpl. destruct (isspace c).
  - exists (S k). done.
  - by exists 0%nat.
Qed.

Lemma args_loop_total fuel : ∀ p acc, Forall (λ c, c ≠ 0) p → (length p < fuel)%nat →
  ∃ r, args_loop fuel p acc = Some r.
Proof.
  induction fuel as [|f IH]; intros p acc Hp Hf; [lia|]. cbn [args_loop].
  destruct (skip_blanks_suffix p) as [k ->]. destruct (char_at (drop k p) 0 =? 0) eqn:Ec; [by eexists|].
  assert (Hd : Forall (λ c, c ≠ 0) (drop k p)) by (by apply Forall_drop).
  destruct (token_loop_total (S (length (drop k p))) NOQ [] (drop k p) Hd) as (r & -> & Hr); [lia|].
  cbn [mbind option_bind]. destruct r as [[cur p']|]; [|by eexists].
  destruct (Hr _ _ eq_refl) as [k' ->]. apply IH; [by apply Forall_drop|].
  destruct (drop k p) eqn:E; [by cbn in Ec|]. apply (f_equal length) in E. rewrite length_drop in E.
  rewrite length_drop. simpl in *. lia.
Qed.

Lemma cstr_nz l : Forall (λ c, c ≠ 0) (cstr l).
Proof. induction l as [|c l IH]; simpl; [constructor|]. destruct (Z.eqb_spec c 0); by constructor. Qed.

(** ** Numbers *)

Lemma digits_loop_spec fuel : ∀ l x v, 0 ≤ v < 10 ^ Z.of_nat fuel → (0 < fuel)%nat →
  (length (digits_rev fuel v) ≤ length x)%nat →
  digits_loop fuel (l ++ x) (Z.of_nat (length l)) v =
    Some (l ++ digits_rev fuel v ++ drop (length (digits_rev fuel v)) x,
          Z.of_nat (length (l ++ digits_rev fuel v))).
Proof.
  induction fuel as [|f IH]; intros l x v Hv Hf Hx; [lia|]. cbn [digits_loop digits_rev] in *.
  destruct x as [|x0 x]; [simpl in Hx; lia|].
  rewrite (mwrite_app l [x0] [48 + v `mod` 10] x) by done. cbn [mbind option_bind].
  destruct (Z.eqb_spec (v `div` 10) 0) as [E|E].
  - simpl. rewrite length_app. simpl. do 2 f_equal. lia.
  - rewrite Nat2Z.inj_succ, Z.pow_succ_r in Hv by lia.
    assert (0 < f)%nat.
    { destruct f; [|lia]. change (10 ^ Z.of_nat 0) with 1 in Hv. by rewrite Z.div_small in E by lia. }
    rewrite app_assoc. replace (Z.of_nat (length l) + 1) with (Z.of_nat (length (l ++ [48 + v `mod` 10])))
      by (rewrite length_app; simpl; lia).
    rewrite IH; [|split; [apply Z.div_pos; lia|apply Z.div_lt_upper_bound; lia]|done|simpl in Hx; lia].
    simpl. by rewrite <- !app_assoc.
Qed.

Lemma swap_loop_spec fuel : ∀ l m r : list Z, (length m < fuel)%nat →
  swap_loop fuel (l ++ m ++ r) (Z.of_nat (length l)) (Z.of_nat (length l + length m) - 1) =
    Some (l ++ reverse m ++ r).
Proof.
  induction fuel as [|f IH]; intros l m r Hf; [lia|]. cbn [swap_loop].
  destruct m as [|x m]; [rewrite (proj2 (Z.ltb_ge _ _)) by (simpl; lia); done|].
  destruct m as [|y m _] using rev_ind; [rewrite (proj2 (Z.ltb_ge _ _)) by (simpl; lia); done|].
  rewrite (proj2 (Z.ltb_lt _ _)) by (simpl; rewrite length_app; simpl; lia).
  set (j := Z.of_nat (length l + length (x :: m ++ [y])) - 1).
  assert (Hj : j = Z.of_nat (length (l ++ x :: m)))
    by (subst j; rewrite length_app; simpl; rewrite length_app; simpl; lia).
  assert (E : l ++ (x :: m ++ [y]) ++ r = (l ++ x :: m) ++ [y] ++ r)
    by (rewrite <- (app_assoc l); simpl; by rewrite <- (app_assoc m)).
  rewrite E, (mread_app (l ++ x :: m) [y] r) by done. rewrite <- E.
  change ((x :: m ++ [y]) ++ r) with ([x] ++ (m ++ [y]) ++ r).
  rewrite (mread_app l [x]) by done. cbn [mbind option_bind].
  rewrite (mwrite_app l [x] [y]) by done. cbn [mbind option_bind].
  assert (E' : l ++ [y] ++ (m ++ [y]) ++ r = (l ++ y :: m) ++ [y] ++ r)
    by (rewrite <- (app_assoc l); simpl; by rewrite <- (app_assoc m)).
  rewrite E', (mwrite_app (l ++ y :: m) [y] [x]) by (done || rewrite Hj, !length_app; done).
  cbn [mbind option_bind].
  pose proof (IH (l ++ [y]) m ([x] ++ r)) as IH'. rewrite !length_app in IH'.
  rewrite reverse_cons, reverse_snoc. rewrite <- !app_assoc in *. simpl in IH', Hf |- *.
  replace (Z.of_nat (length l) + 1) with (Z.of_nat (length l + 1)) by lia.
  replace (j - 1) with (Z.of_nat (length l + 1 + length m) - 1)
    by (subst j; simpl; rewrite length_app; simpl; lia).
  rewrite length_app in Hf. simpl in Hf. apply IH'. lia.
Qed.

(** The end of both printers: terminator and reversal of the written part [m]. *)
Lemma finish_spec m x : (length m < length x)%nat → (length m < 21)%nat →
  (b ← mwrite (m ++ drop (length m) x) (Z.of_nat (length m)) [0];
   b ← swap_loop 21 b 0 (Z.of_nat (length m) - 1);
   Some (b, Z.of_nat (length m))) =
  Some (reverse m ++ 0 :: drop (S (length m)) x, Z.of_nat (length m)).
Proof.
  intros Hx Hm. destruct (drop (length m) x) as [|y r] eqn:E.
  { apply (f_equal length) in E. rewrite length_drop in E. simpl in E. lia. }
  rewrite (mwrite_app m [y] [0] r) by done. cbn [mbind option_bind].
  pose proof (swap_loop_spec 21 [] m (0 :: r) Hm) as Es.
  rewrite app_nil_l in Es. change (Z.of_nat (length [])) with 0 in Es.
  change (length [] + length m)%nat with (length m) in Es.
  change ([0] ++ r) with (0 :: r). rewrite Es. cbn [mbind option_bind].
  assert (drop (S (length m)) x = r) as ->; [|done].
  by rewrite <- Nat.add_1_r, <- drop_drop, E.
Qed.

#[local] Opaque digits_rev digits_loop swap_loop.

Lemma digits21 v : 0 ≤ v < 2 ^ 64 → digits_rev 21 v = digits_rev 20 v.
Proof. intros. symmetry. apply digits_rev_fuel; [simpl; lia|lia]. Qed.

Lemma ull2str_spec s v : in_u 64 v → length s = 21%nat →
  ∃ rest, sdsull2str s v = Some (decimal v ++ 0 :: rest, Z.of_nat (length (decimal v))).
Proof.
  intros Hv Hs. unfold in_u in Hv. pose proof (digits_rev_length 20 v).
  unfold sdsull2str. pose proof (digits_loop_spec 21 [] s v) as E. simpl app in E.
  change (Z.of_nat (length [])) with 0 in E.
  rewrite E; [|simpl; lia|lia|rewrite digits21 by lia; lia]. cbn [mbind option_bind].
  rewrite digits21 by lia. rewrite finish_spec by lia. unfold decimal. rewrite length_reverse. eauto.
Qed.

Lemma ll2str_spec s v : in_s 64 v → length s = 21%nat →
  ∃ rest, sdsll2str s v = Some (decimal_z v ++ 0 :: rest, Z.of_nat (length (decimal_z v))).
Proof.
  intros Hv Hs. unfold sdsll2str, decimal_z. destruct (Z.ltb_spec v 0) as [Hn|Hn].
  - unfold in_s in Hv. simpl in Hv. rewrite uwrap_small by (unfold in_u; lia).
    assert (E20 : digits_rev 19 (- v) = digits_rev 20 (- v)) by (apply digits_rev_fuel; [simpl; lia|lia]).
    pose proof (digits_rev_length 19 (- v)) as H19. rewrite E20 in H19.
    pose proof (digits_loop_spec 21 [] s (- v)) as E. simpl app in E.
    change (Z.of_nat (length [])) with 0 in E.
    rewrite E; [|simpl; lia|lia|rewrite digits21 by lia; lia]. cbn [mbind option_bind].
    rewrite digits21 by lia. set (ds := digits_rev 20 (- v)) in *.
    destruct (drop (length ds) s) as [|y r] eqn:Ed.
    { apply (f_equal length) in Ed. rewrite length_drop in Ed. simpl in Ed. lia. }
    rewrite (mwrite_app ds [y] [45] r) by done. cbn [mbind option_bind].
    assert (Er : r = drop (length (ds ++ [45])) s).
    { rewrite length_app, <- drop_drop, Ed. done. }
    rewrite app_assoc, Er. replace (Z.of_nat (length ds) + 1) with (Z.of_nat (length (ds ++ [45])))
      by (rewrite length_app; simpl; lia).
    assert (length (ds ++ [45]) = S (length ds)) as El by (rewrite length_app; simpl; lia).
    rewrite finish_spec by lia.
    rewrite reverse_snoc. unfold decimal. fold ds. cbn [length]. rewrite length_reverse, El. eauto.
  - apply (ull2str_spec s v); [unfold in_s, in_u in *; simpl in *; lia|done].
Qed.

(** ** sdscatfmt *)

Section fmt.
Context (junk : Z).

Lemma inclen_setlen s n : hdr_ok s → 0 ≤ n → sdslen s + n ≤ sdsalloc s →
  sdsinclen s n = sdssetlen s (sdslen s + n).
Proof.
  intros H Hn Ha. pose proof (len5_range s H).
  by_type s H; try done. rewrite (uwrap_small 8 (_ + n)); [done|]. unfold in_u. lia.
Qed.

(** Writing bytes into the free space and counting them. *)
Lemma fmt_copy s bs x str : sds_repx s bs x → Forall byte_ok str →
  Z.of_nat (length str) ≤ sdsavail s →
  ∃ s1 y, sdscopy s (Z.of_nat (length bs)) str = Some s1 ∧
    sds_repx (sdsinclen s1 (Z.of_nat (length str))) (bs ++ str) y.
Proof.
  intros Hr Hs Hav. pose proof (rep_alloc_buf _ _ _ Hr) as Hab.
  destruct Hr as (H & Hb & Hl & rest & Eb & Ha). rewrite avail_alloc in Hav by done.
  rewrite Eb in Hab. rewrite length_app in Hab. simpl in Hab.
  set (b := x :: rest) in *. destruct (drop (length str) b) as [|y r] eqn:Ed;
    apply (f_equal length) in Ed as Ed'; rewrite length_drop in Ed'; simpl in Ed'; [lia|].
  assert (Exy : b = take (length str) b ++ y :: r) by (rewrite <- Ed; by rewrite take_drop).
  assert (length str = length (take (length str) b)) by (rewrite length_take; simpl; lia).
  rewrite (copy_app s bs (take (length str) b) (y :: r)) by (done || by rewrite Eb, Exy at 1).
  set (s1 := set_buf s _). assert (sdslen s1 = sdslen s ∧ sdsalloc s1 = sdsalloc s) as [El Eal] by done.
  exists s1, y. split; [done|]. rewrite inclen_setlen, El by (done || lia).
  destruct (setlen_ok s1 (sdslen s + Z.of_nat (length str))) as (P1 & P2 & P3 & P4 & _); [done|lia|].
  split_and!; [done|by apply Forall_app|rewrite P2, length_app; lia|].
  exists r. rewrite P3. split; [subst s1; cbn; by rewrite <- app_assoc|].
  rewrite length_app. lia.
Qed.

Lemma fmt_put_spec s bs x str : sds_repx s bs x → Forall byte_ok str →
  Z.of_nat (length bs + length str) ≤ SDS_MAX →
  ∃ s' y, fmt_put junk s (Z.of_nat (length bs)) str = Some (s', Z.of_nat (length (bs ++ str))) ∧
    sds_repx s' (bs ++ str) y.
Proof.
  intros Hr Hs Hm. unfold fmt_put.
  assert (∃ s0, (if sdsavail s <? Z.of_nat (length str)
    then sdsMakeRoomFor junk s (Z.of_nat (length str)) else Some s) = Some s0 ∧ sds_repx s0 bs x ∧
    Z.of_nat (length str) ≤ sdsavail s0) as (s0 & -> & Hr0 & Hav).
  { destruct (Z.ltb_spec (sdsavail s) (Z.of_nat (length str))) as [?|?]; [|eauto].
    destruct (makeroom_spec junk s bs x (Z.of_nat (length str)) Hr) as (s0 & -> & Hr0 & ?); [lia|lia|].
    exists s0. split_and!; [done|done|]. rewrite avail_alloc, (rep_len _ _ _ Hr0) by (by eapply rep_hdr). lia. }
  cbn [mbind option_bind]. destruct (fmt_copy s0 bs x str Hr0 Hs Hav) as (s1 & y & -> & Hr1).
  cbn [mbind option_bind]. rewrite length_app, Nat2Z.inj_add. eauto.
Qed.

(** The reference rendering of a format. *)
Definition render (next : Z) (a : fmtarg) : option (list Z) :=
  match a with
  | FStr bs => if next =? 115 then Some bs else None
  | FSds s => if next =? 83 then Some (take (Z.to_nat (sdslen s)) (buf s)) else None
  | FInt z => if (next =? 105) || (next =? 73) then Some (decimal_z z) else None
  | FUint z => if (next =? 117) || (next =? 85) then Some (decimal z) else None
  end.

Fixpoint fmt_out (fmt : list Z) (ap : list fmtarg) : option (list Z) :=
  match fmt with
  | [] => Some []
  | c :: f =>
      if c =? 37 then
        match f with
        | [] => None
        | next :: f =>
            if is_conv next then
              match ap with
              | [] => None
              | a :: ap => str ← render next a; out ← fmt_out f ap; Some (str ++ out)
              end
            else out ← fmt_out f ap; Some (next :: out)
        end
      else out ← fmt_out f ap; Some (c :: out)
  end.

Definition arg_ok (a : fmtarg) : Prop :=
  match a with
  | FStr bs => Forall byte_ok bs
  | FSds s => ∃ bs, sds_rep s bs
  | FInt z => in_s 64 z
  | FUint z => in_u 64 z
  end.

Lemma decimal_bytes v : 0 ≤ v → Forall byte_ok (decimal v).
Proof. intros. eapply Forall_impl; [by apply decimal_digits|]. unfold is_digit, in_u. lia. Qed.

Lemma decimal_z_bytes v : Forall byte_ok (decimal_z v).
Proof. unfold decimal_z. destruct (Z.ltb_spec v 0); [constructor; [done|]|]; apply decimal_bytes; lia. Qed.

Lemma render_spec next a str : arg_ok a → render next a = Some str →
  fmt_render junk next a = Some str ∧ Forall byte_ok str.
Proof.
  assert (Hj : length (replicate (Z.to_nat SDS_LLSTR_SIZE) junk) = 21%nat) by apply length_replicate.
  destruct a as [bs|s|z|z]; cbn [arg_ok render fmt_render]; intros Ha E; repeat case_match; simplify_eq.
  - done.
  - destruct Ha as [bs (_ & Hb & Hl & rest & Eb & _)]. rewrite Hl, Eb, Nat2Z.id, take_app_length.
    split; [|done]. by apply (mread_app []).
  - destruct (ll2str_spec _ z Ha Hj) as [rest ->]. cbn [mbind option_bind]. split; [|apply decimal_z_bytes].
    by apply (mread_app []).
  - destruct (ull2str_spec _ z Ha Hj) as [rest ->]. cbn [mbind option_bind].
    split; [|apply decimal_bytes, Ha]. by apply (mread_app []).
Qed.

(** The loop keeps one free byte ready and follows the reference. *)
Lemma fmt_loop_spec n : ∀ fmt s bs x ap out, (length fmt < n)%nat → sds_repx s bs x →
  Forall byte_ok fmt → Forall arg_ok ap → fmt_out fmt ap = Some out →
  Z.of_nat (length bs + length out) + 1 ≤ SDS_MAX →
  ∃ s' y, fmt_loop junk fmt s (Z.of_nat (length bs)) ap = Some (s', Z.of_nat (length (bs ++ out))) ∧
    sds_repx s' (bs ++ out) y.
Proof.
  induction n as [|n IH]; intros fmt s bs x ap out Hn Hr Hf Hap Ho Hm; [lia|].
  destruct fmt as [|c f]; cbn [fmt_out fmt_loop] in *.
  { simplify_eq. rewrite app_nil_r. eauto. }
  assert (∃ s0, (if sdsavail s =? 0 then sdsMakeRoomFor junk s 1 else Some s) = Some s0 ∧
    sds_repx s0 bs x ∧ 1 ≤ sdsavail s0) as (s0 & -> & Hr0 & Hav).
  { pose proof (len_le_alloc _ (rep_hdr _ _ _ Hr)). pose proof (avail_alloc _ (rep_hdr _ _ _ Hr)).
    destruct (Z.eqb_spec (sdsavail s) 0) as [?|?]; [|exists s; split_and!; [done|done|lia]].
    destruct (makeroom_spec junk s bs x 1 Hr) as (s0 & -> & Hr0 & ?); [lia|lia|].
    exists s0. split_and!; [done|done|]. rewrite avail_alloc, (rep_len _ _ _ Hr0) by (by eapply rep_hdr). lia. }
  cbn [mbind option_bind]. inversion_clear Hf as [|? ? Hc Hf'].
  assert (Hchar : ∀ d g out', byte_ok d → (length g < n)%nat → Forall byte_ok g →
    fmt_out g ap = Some out' → out = d :: out' →
    ∃ s' y, (s1 ← sdsput s0 (Z.of_nat (length bs)) d;
             fmt_loop junk g (sdsinclen s1 1) (Z.of_nat (length bs) + 1) ap) =
      Some (s', Z.of_nat (length (bs ++ out))) ∧ sds_repx s' (bs ++ out) y).
  { intros d g out' Hd Hg Hg' Ho' ->.
    destruct (fmt_copy s0 bs x [d] Hr0) as (s1 & y & E & Hr1); [by constructor|done|].
    change (sdsput s0 ?i d) with (sdscopy s0 i [d]). rewrite E. cbn [mbind option_bind].
    destruct (IH g _ (bs ++ [d]) y ap out' Hg Hr1 Hg' Hap Ho') as (s' & z & E' & Hr').
    { rewrite length_app. simpl in Hm |- *. lia. }
    rewrite <- !app_assoc in *. simpl in *. rewrite length_app in E'. simpl in E'.
    replace (Z.of_nat (length bs) + 1) with (Z.of_nat (length bs + 1)) by lia. eauto. }
  destruct (c =? 37).
  - destruct f as [|next f]; [done|]. inversion_clear Hf' as [|? ? Hnx Hf2]. simpl in Hn.
    destruct (is_conv next).
    + destruct ap as [|a ap]; [done|]. inversion_clear Hap as [|? ? Ha Hap'].
      destruct (render next a) as [str|] eqn:Er; [|done].
      destruct (fmt_out f ap) as [out'|] eqn:Eo; [|done]. cbn [mbind option_bind] in Ho. simplify_eq.
      destruct (render_spec next a str Ha Er) as [-> Hstr]. cbn [mbind option_bind].
      rewrite length_app in Hm.
      destruct (fmt_put_spec s0 bs x str Hr0 Hstr) as (s1 & y & -> & Hr1); [lia|]. cbn [mbind option_bind].
      destruct (IH f s1 (bs ++ str) y ap out') as (s' & z & -> & ?); try done; [lia|rewrite length_app; lia|].
      rewrite app_assoc. eauto.
    + destruct (fmt_out f ap) as [out'|] eqn:Eo; [|done]. cbn [mbind option_bind] in Ho. simplify_eq.
      eapply Hchar; try done. lia.
  - destruct (fmt_out f ap) as [out'|] eqn:Eo; [|done]. cbn [mbind option_bind] in Ho. simplify_eq.
    simpl in Hn. eapply Hchar; try done. lia.
Qed.

End fmt.

(** The comparison in terms of prefixes and first differences. *)
Lemma bytes_cmp_lex b1 b2 : bytes_cmp b1 b2 < 0 ↔
  (∃ x t, b2 = b1 ++ x :: t) ∨
  (∃ p x y t1 t2, b1 = p ++ x :: t1 ∧ b2 = p ++ y :: t2 ∧ x < y).
Proof.
  revert b2. induction b1 as [|x b1 IH]; intros [|y b2].
  - split; [by cbn|]. intros [(? & ? & [=])|([] & ? & ? & ? & ? & [=] & _)].
  - split; [|done]. intros _. left. by exists y, b2.
  - split; [by cbn|]. intros [(? & ? & [=])|([] & ? & ? & ? & ? & ? & [=] & _)].
  - rewrite bytes_cmp_cons. destruct (Z.eqb_spec x y) as [->|Hne].
    + rewrite IH. split.
      * intros [(z & t & ->)|(p & u & v & t1 & t2 & -> & -> & ?)]; [left; by exists z, t|].
        right. by exists (y :: p), u, v, t1, t2.
      * intros [(z & t & E)|(p & u & v & t1 & t2 & E1 & E2 & ?)].
        { simplify_eq/=. left. by exists z, t. }
        destruct p as [|w p]; simplify_eq/=; [lia|]. right. by exists p, u, v, t1, t2.
    + split.
      * intros. right. exists [], x, y, b1, b2. split_and!; [done|done|lia].
      * intros [(z & t & E)|(p & u & v & t1 & t2 & E1 & E2 & ?)]; [by simplify_eq/=|].
        destruct p; simplify_eq/=; lia.
Qed.

(** ** Building strings with [sdscatlen] *)

Section building.
Context (junk : Z).

Lemma repr_loop_spec p : ∀ s bs, sds_rep s bs → Forall byte_ok p →
  Z.of_nat (length bs + length (p ≫= repr_char)) ≤ SDS_MAX →
  ∃ s', repr_loop junk s p = Some s' ∧ sds_rep s' (bs ++ (p ≫= repr_char)).
Proof.
  induction p as [|c p IH]; intros s bs Hr Hp Hm.
  { rewrite app_nil_r. cbn. eauto. }
  inversion_clear Hp. rewrite bind_cons, length_app in *. cbn [repr_loop].
  destruct (catlen_spec junk s bs (repr_char c)) as (s1 & -> & Hr1); [done|by apply repr_char_ok|lia|].
  cbn [mbind option_bind]. rewrite app_assoc. apply IH; [done|done|]. rewrite length_app. lia.
Qed.

Lemma catrepr_spec s bs p : sds_rep s bs → Forall byte_ok p →
  Z.of_nat (length bs + length (quoted p)) ≤ SDS_MAX →
  ∃ s', sdscatrepr junk s p = Some s' ∧ sds_rep s' (bs ++ quoted p).
Proof.
  intros Hr Hp Hm. unfold sdscatrepr, quoted in *. rewrite !length_app in Hm. cbn [length] in Hm.
  destruct (catlen_spec junk s bs [34]) as (s1 & -> & Hr1); [done|by repeat constructor|simpl; lia|].
  cbn [mbind option_bind].
  destruct (repr_loop_spec p s1 _ Hr1 Hp) as (s2 & -> & Hr2); [rewrite length_app; simpl; lia|].
  cbn [mbind option_bind].
  destruct (catlen_spec junk s2 _ [34] Hr2) as (s3 & -> & Hr3);
    [by repeat constructor|rewrite !length_app; simpl; lia|].
  rewrite <- !app_assoc in Hr3. eauto.
Qed.

Lemma join_loop_spec sep argv ts : Forall2 sds_rep argv ts → Forall byte_ok sep → ∀ s bs,
  sds_rep s bs → Z.of_nat (length bs + length (join sep ts)) ≤ SDS_MAX →
  ∃ s', join_loop junk s argv sep = Some s' ∧ sds_rep s' (bs ++ join sep ts).
Proof.
  intros Ha Hsep. induction Ha as [|a t argv ts Hat Ha IH]; intros s bs Hr Hm.
  { rewrite app_nil_r. cbn. eauto. }
  rewrite join_cons, length_app in *. cbn [join_loop]. unfold sdscatsds.
  pose proof Hat as (_ & Ht & Hl & rest & Eb & _).
  rewrite Hl, Eb. rewrite (mread_app [] t (0 :: rest)) by done. cbn [mbind option_bind].
  destruct (catlen_spec junk s bs t) as (s1 & -> & Hr1); [done|done|lia|]. cbn [mbind option_bind].
  destruct Ha as [|a' t' argv ts Hat' Ha'].
  { cbn. rewrite app_nil_r. eauto. }
  rewrite length_app in Hm.
  destruct (catlen_spec junk s1 (bs ++ t) sep) as (s2 & -> & Hr2); [done|done|rewrite length_app; lia|].
  cbn [mbind option_bind]. destruct (IH s2 ((bs ++ t) ++ sep) Hr2) as (s3 & -> & Hr3).
  { rewrite !length_app. lia. }
  rewrite <- !app_assoc in Hr3. eauto.
Qed.

Lemma joinsds_spec sep argv ts : Forall2 sds_rep argv ts → Forall byte_ok sep →
  Z.of_nat (length (join sep ts)) ≤ SDS_MAX →
  ∃ s', sdsjoinsds junk argv sep = Some s' ∧ sds_rep s' (join sep ts).
Proof.
  intros Ha Hs Hm. unfold sdsjoinsds, sdsempty.
  destruct (newlen_spec junk [] []) as (s0 & E & Hr & _); [constructor|by vm_compute|].
  change (INIT_BYTES ([] ++ [])) with (INIT_BYTES []) in E. change (Z.of_nat (length [])) with 0 in E.
  rewrite E. cbn [mbind option_bind]. by apply (join_loop_spec sep argv ts Ha Hs s0 [] Hr).
Qed.

(** ** Correctness *)

(** [sdscmp] is a total order on the strings, the lexicographic order of
    their bytes in which a proper prefix is smaller: it reads inside of both
    buffers, is 0 exactly on equal strings, changes sign when the arguments are
    swapped and is transitive. *)
Theorem sdscmp_total_order s1 s2 s3 b1 b2 b3 :
  sds_rep s1 b1 → sds_rep s2 b2 → sds_rep s3 b3 →
  ∃ c12 c21 c23 c13, sdscmp s1 s2 = Some c12 ∧ sdscmp s2 s1 = Some c21 ∧
    sdscmp s2 s3 = Some c23 ∧ sdscmp s1 s3 = Some c13 ∧
    (c12 = 0 ↔ b1 = b2) ∧ (0 < c12 ↔ c21 < 0) ∧ (c12 < 0 → c23 < 0 → c13 < 0) ∧
    (c12 < 0 ↔ (∃ x t, b2 = b1 ++ x :: t) ∨
      (∃ p x y t1 t2, b1 = p ++ x :: t1 ∧ b2 = p ++ y :: t2 ∧ x < y)).
Proof.
  intros H1 H2 H3. exists (bytes_cmp b1 b2), (bytes_cmp b2 b1), (bytes_cmp b2 b3), (bytes_cmp b1 b3).
  rewrite !(sdscmp_bytes _ _ _ _ H1 H2), (sdscmp_bytes _ _ _ _ H2 H1), (sdscmp_bytes _ _ _ _ H2 H3),
    (sdscmp_bytes _ _ _ _ H1 H3).
  split_and!; try done; [apply bytes_cmp_eq|apply bytes_cmp_anti|apply bytes_cmp_trans|].
  apply bytes_cmp_lex.
Qed.

(** [sdssplitlen] cuts a string at the separators: it never reads or
    writes out of bounds, the tokens joined by [sdsjoinsds] give the string
    back, and no token contains the separator; the empty string has no token
    and the empty separator is refused. *)
Theorem sdssplitlen_join s sep : Forall byte_ok s → Forall byte_ok sep →
  Z.of_nat (length s) ≤ SDS_MAX → s ≠ [] → sep ≠ [] →
  (∃ tokens, sdssplitlen s sep = Some (Some tokens) ∧ Forall (no_sep sep) tokens ∧
     ∀ argv, Forall2 sds_rep argv tokens →
       ∃ joined, sdsjoinsds junk argv sep = Some joined ∧ sds_rep joined s) ∧
  sdssplitlen [] sep = Some (Some []) ∧ sdssplitlen s [] = Some None.
Proof.
  intros Hs Hsep Hm Hne Hsne. destruct (split_spec s sep Hsne Hne) as (ts & E & Ej & Hn & _).
  split_and!; [| |done].
  2: { unfold sdssplitlen. rewrite (proj2 (Z.ltb_ge _ 1)) by (destruct sep; simpl; [done|lia]). done. }
  exists ts. split_and!; [done|done|]. intros argv Ha. rewrite <- Ej. apply joinsds_spec; [done|done|].
  by rewrite Ej.
Qed.

(** C8. Quoting and parsing are inverse: a line made of the [sdscatrepr] forms
    of any byte strings, separated by blanks, is parsed by [sdssplitargs] into
    exactly these strings; and [sdssplitargs] returns on every line. *)
Theorem sdssplitargs_catrepr s bs p args line : sds_rep s bs → Forall byte_ok p →
  Z.of_nat (length bs + length (quoted p)) ≤ SDS_MAX → Forall (Forall byte_ok) args →
  (∃ s', sdscatrepr junk s p = Some s' ∧ sds_rep s' (bs ++ quoted p)) ∧
  sdssplitargs (join [32] (quoted <$> args)) = Some (Some args) ∧
  (∃ r, sdssplitargs line = Some r).
Proof.
  intros Hr Hp Hm Ha. split_and!.
  - by apply catrepr_spec.
  - by apply splitargs_quoted.
  - unfold sdssplitargs. apply args_loop_total; [apply cstr_nz|lia].
Qed.

(** [sdsll2str] and [sdsull2str] write the canonical decimal
    representation of every 64-bit number, LLONG_MIN included, with its NUL,
    inside of the 21 bytes of the buffer, and [sdsfromlonglong] is the string
    with this representation; its value is the number. *)
Theorem sdsll2str_correct b v u : length b = Z.to_nat SDS_LLSTR_SIZE → in_s 64 v → in_u 64 u →
  (∃ rest, sdsll2str b v = Some (decimal_z v ++ 0 :: rest, Z.of_nat (length (decimal_z v)))) ∧
  (∃ rest, sdsull2str b u = Some (decimal u ++ 0 :: rest, Z.of_nat (length (decimal u)))) ∧
  (∃ s, sdsfromlonglong junk v = Some s ∧ sds_rep s (decimal_z v)) ∧
  dec_val (decimal u) = u ∧
  (if v <? 0 then decimal_z v = 45 :: decimal (- v) ∧ dec_val (decimal (- v)) = - v
   else decimal_z v = decimal v ∧ dec_val (decimal v) = v).
Proof.
  intros Hb Hv Hu. split_and!.
  - by apply ll2str_spec.
  - by apply ull2str_spec.
  - unfold sdsfromlonglong. destruct (ll2str_spec (replicate 21 junk) v Hv) as [rest E]; [apply length_replicate|].
    change (Z.to_nat SDS_LLSTR_SIZE) with 21%nat. rewrite E. cbn [mbind option_bind].
    destruct (newlen_spec junk (decimal_z v) (0 :: rest)) as (s & ? & ? & _);
      [apply decimal_z_bytes| |eauto].
    pose proof (decimal_length v). pose proof (decimal_length (- v)). unfold decimal_z, SDS_MAX.
    case_match; cbn [length]; lia.
  - by apply decimal_val.
  - unfold decimal_z. destruct (Z.ltb_spec v 0); split; try done;
      apply decimal_val; unfold in_s, in_u in *; simpl in Hv; lia.
Qed.

(** [sdscatfmt] appends exactly the rendering of the format: literal
    bytes, [%%], C strings, sds strings and canonical decimal numbers, for
    every header type and every amount of free space. *)
Theorem sdscatfmt_correct s bs fmt ap out : sds_rep s bs → Forall byte_ok fmt → Forall arg_ok ap →
  fmt_out fmt ap = Some out → Z.of_nat (length bs + length out) + 1 ≤ SDS_MAX →
  ∃ s', sdscatfmt junk s fmt ap = Some s' ∧ sds_rep s' (bs ++ out).
Proof.
  intros Hr Hf Hap Ho Hm. unfold sdscatfmt. rewrite (rep_len _ _ _ Hr).
  destruct (fmt_loop_spec junk (S (length fmt)) fmt s bs 0 ap out) as (s1 & y & -> & H & Hb & Hl & rest & Eb & Ha);
    try done; [lia|]. cbn [mbind option_bind].
  rewrite (put_app s1 (bs ++ out) y rest) by done. eexists. split; [done|].
  split_and!; [done|done|done|]. exists rest. done.
Qed.

End building.

Lemma sdscmp_total_order_witness :
  ∃ c12 c21 c23 c13, sdscmp demo_sds demo_sds = Some c12 ∧ sdscmp demo_sds demo_sds = Some c21 ∧
    sdscmp demo_sds demo_sds = Some c23 ∧ sdscmp demo_sds demo_sds = Some c13 ∧ (c12 = 0).
Proof.
  destruct (sdscmp_total_order demo_sds demo_sds demo_sds [65; 98; 65] [65; 98; 65] [65; 98; 65]
    demo_sds_rep demo_sds_rep demo_sds_rep) as (a & b & c & d & ? & ? & ? & ? & ? & _).
  exists a, b, c, d. naive_solver.
Defined.

Lemma sdssplitlen_join_witness :
  ∃ tokens, sdssplitlen [65; 98; 65] [98] = Some (Some tokens) ∧ Forall (no_sep [98]) tokens.
Proof.
  destruct (sdssplitlen_join 0 [65; 98; 65] [98]) as ((ts & ? & ? & _) & _); [| | | | |by exists ts].
  all: try done; repeat constructor; done.
Defined.

Lemma sdssplitargs_catrepr_witness :
  sdssplitargs (join [32] (quoted <$> [[65; 0; 34]; []; [200; 92]])) = Some (Some [[65; 0; 34]; []; [200; 92]]).
Proof.
  apply (sdssplitargs_catrepr 0 demo_sds [65; 98; 65] [] [[65; 0; 34]; []; [200; 92]] []);
    [apply demo_sds_rep|constructor|by vm_compute|repeat constructor; done].
Defined.

Lemma sdsll2str_correct_witness :
  ∃ rest, sdsll2str (replicate 21 7) (-120) = Some ([45; 49; 50; 48] ++ 0 :: rest, 4).
Proof.
  apply (sdsll2str_correct 0 (replicate 21 7) (-120) 5); [done|by vm_compute|by vm_compute].
Defined.

Lemma sdscatfmt_correct_witness :
  ∃ s', sdscatfmt 0 demo_sds [45; 37; 105; 37; 37] [FInt 12] = Some s' ∧
    sds_rep s' ([65; 98; 65] ++ [45; 49; 50; 37]).
Proof.
  apply (sdscatfmt_correct 0 demo_sds [65; 98; 65] [45; 37; 105; 37; 37] [FInt 12]);
    [apply demo_sds_rep|repeat constructor; done|repeat constructor; done|done|by vm_compute].
Defined.

(** The string [sdstrim] strips of an empty set of characters still loses the
    NUL bytes at its ends: [strchr] finds the terminator of the set. *)
Example sdstrim_strips_nul :
  (s ← sdstrim (Sds SDS_TYPE_8 2 2 [0; 65; 0]) []; Some (sdslen s, take 1 (buf s))) = Some (1, [65]).
Proof. reflexivity. Qed.
