(* ===== verification/Util.v ===== *)
(** * util.c: numbers and glob patterns

    [ll2string], [string2ll] and [digits10] against the decimal representation
    of Decimal.v, [memtoll], and the glob matcher [stringmatchlen] against a
    declarative semantics of patterns. *)

From S2P Require Import Prelude Decimal Sds.

Definition LLONG_MIN : Z := - 2 ^ 63.
Definition LLONG_MAX : Z := 2 ^ 63 - 1.
Definition ULLONG_MAX : Z := 2 ^ 64 - 1.

(** ** Printing *)

(** The recursion divides by 10^12: two levels are enough for 64 bits. *)
Fixpoint digits10 (fuel : nat) (v : Z) : Z :=
  match fuel with
  | O => 0
  | S f =>
      if v <? 10 then 1 else if v <? 100 then 2 else if v <? 1000 then 3 else
      if v <? 1000000000000 then
        if v <? 100000000 then
          if v <? 1000000 then
            if v <? 10000 then 4 else 5 + Z.b2z (100000 <=? v)
          else 7 + Z.b2z (10000000 <=? v)
        else if v <? 10000000000 then 9 + Z.b2z (1000000000 <=? v)
        else 11 + Z.b2z (100000000000 <=? v)
      else 12 + digits10 f (v `div` 1000000000000)
  end.

Definition sdigits10 (v : Z) : Z :=
  if v <? 0 then
    let uv := if negb (v =? LLONG_MIN) then u64 (- v) else u64 (LLONG_MAX + 1) in
    digits10 2 uv + 1
  else digits10 2 v.

(** The table "0001020304...99". *)
Definition digits : list Z := seqZ 0 100 ≫= λ k, [48 + k `div` 10; 48 + k `mod` 10].

Definition mput (b : list Z) (i c : Z) : option (list Z) := mwrite b i [c].

Fixpoint pairs_loop (fuel : nat) (dst : list Z) (next value : Z) : option (list Z * Z * Z) :=
  match fuel with
  | O => None
  | S f =>
      if 100 <=? value then
        let i := (value `mod` 100) * 2 in
        let value := value `div` 100 in
        c1 ← digits !! Z.to_nat (i + 1);
        c0 ← digits !! Z.to_nat i;
        dst ← mput dst next c1;
        dst ← mput dst (next - 1) c0;
        pairs_loop f dst (u32 (next - 2)) value
      else Some (dst, next, value)
  end.

(** Returns the buffer and the length (0 when the buffer is too small). *)
Definition ll2string (dst : list Z) (svalue : Z) : option (list Z * Z) :=
  let dstlen := Z.of_nat (length dst) in
  let '(value, negative) :=
    if svalue <? 0 then
      (if negb (svalue =? LLONG_MIN) then u64 (- svalue) else u64 (LLONG_MAX + 1), 1)
    else (svalue, 0) in
  let len := u32 (digits10 2 value + negative) in
  if dstlen <=? len then Some (dst, 0) else
  dst ← mput dst len 0;
  let next := u32 (len - 1) in
  '(dst, next, value) ← pairs_loop 11 dst next value;
  dst ← (if value <? 10 then mput dst next (48 + value)
         else
           let i := value * 2 in
           c1 ← digits !! Z.to_nat (i + 1);
           c0 ← digits !! Z.to_nat i;
           dst ← mput dst next c1;
           mput dst (next - 1) c0);
  dst ← (if negative =? 1 then mput dst 0 45 else Some dst);
  Some (dst, len).

(** ** Parsing *)

Definition isdigit (c : Z) : bool := (48 <=? c) && (c <=? 57).

(** The digit loop: [None] on overflow, else the value and what is left. *)
Fixpoint parse_loop (v : Z) (p : list Z) : option (Z * list Z) :=
  match p with
  | c :: p' =>
      if isdigit c then
        if ULLONG_MAX `div` 10 <? v then None else
        let v := u64 (v * 10) in
        if ULLONG_MAX - (c - 48) <? v then None else
        parse_loop (u64 (v + (c - 48))) p'
      else Some (v, p)
  | [] => Some (v, [])
  end.

(** [None] is the return value 0, [Some value] the return value 1. *)
Definition string2ll (s : list Z) : option Z :=
  match s with
  | [] => None
  | c :: s' =>
      if (Z.of_nat (length s) =? 1) && (c =? 48) then Some 0 else
      let negative := c =? 45 in
      let p := if negative then s' else s in
      match p with
      | [] => None
      | d :: p' =>
          if (49 <=? d) && (d <=? 57) then
            '(v, rest) ← parse_loop (d - 48) p';
            match rest with
            | _ :: _ => None
            | [] =>
                if negative then
                  if u64 (- (LLONG_MIN + 1) + 1) <? v then None else Some (s64 (u64 (- v)))
                else if LLONG_MAX <? v then None else Some v
            end
          else None
      end
  end.

(** A long has 64 bits. *)
Definition string2l (s : list Z) : option Z :=
  llval ← string2ll s;
  if (llval <? LLONG_MIN) || (LLONG_MAX <? llval) then None else Some llval.

(** [strcasecmp] against a lower-case literal, as a test for equality. *)
Definition case_eq_str (u lit : list Z) : bool := bool_decide ((tolower <$> u) = lit).

Definition unit_mul (u : list Z) : option Z :=
  if bool_decide (u = []) || case_eq_str u [98] then Some 1
  else if case_eq_str u [107] then Some 1000
  else if case_eq_str u [107; 98] then Some 1024
  else if case_eq_str u [109] then Some (1000 * 1000)
  else if case_eq_str u [109; 98] then Some (1024 * 1024)
  else if case_eq_str u [103] then Some (1000 * 1000 * 1000)
  else if case_eq_str u [103; 98] then Some (1024 * 1024 * 1024)
  else None.

Fixpoint span_digits (p : list Z) : list Z * list Z :=
  match p with
  | c :: p' => if isdigit c then let '(a, b) := span_digits p' in (c :: a, b) else ([], p)
  | [] => ([], [])
  end.

(** [strtoll] in base 10 on an optional minus and digits: the value, saturated,
    and whether the whole string was converted. *)
Definition strtoll (neg : bool) (ds : list Z) : Z * bool :=
  match ds with
  | [] => (0, negb neg)
  | _ => (if neg then Z.max LLONG_MIN (- dec_val ds) else Z.min LLONG_MAX (dec_val ds), true)
  end.

(** Result and [*err]; [p] are the bytes before the NUL. *)
Definition memtoll (p : list Z) : Z * Z :=
  let '(neg, p') := match p with 45 :: p' => (true, p') | _ => (false, p) end in
  let '(ds, u) := span_digits p' in
  match unit_mul u with
  | None => (0, 1)
  | Some mul =>
      if 128 <=? Z.b2z neg + Z.of_nat (length ds) then (0, 1) else
      let '(val, all) := strtoll neg ds in
      if negb all then (0, 1) else (s64 (val * mul), 0)
  end.

(** ** Correctness of the number routines *)

Lemma decimal_length_bounds n : ∀ v, (0 < n ≤ 20)%nat → 0 ≤ v < 2 ^ 64 →
  (n = 1%nat ∨ 10 ^ Z.of_nat (n - 1) ≤ v) → v < 10 ^ Z.of_nat n → length (decimal v) = n.
Proof.
  induction n as [|n IH]; intros v Hn Hv Hlo Hhi; [lia|].
  destruct (decide (v < 10)) as [Hs|Hs].
  - rewrite decimal_small by lia. destruct n as [|n]; [done|].
    destruct Hlo as [|Hlo]; [lia|]. simpl Nat.sub in Hlo.
    rewrite Nat2Z.inj_succ, Z.pow_succ_r in Hlo by lia.
    assert (1 ≤ 10 ^ Z.of_nat n) by (apply (Z.pow_le_mono_r 10 0); lia). lia.
  - destruct n as [|n]; [change (10 ^ Z.of_nat 1) with 10 in Hhi; lia|].
    rewrite decimal_step, length_app by (unfold in_u; lia). cbn [length].
    rewrite (Nat2Z.inj_succ (S n)), Z.pow_succ_r in Hhi by lia.
    rewrite (IH (v `div` 10)); [lia|lia| | |apply Z.div_lt_upper_bound; lia].
    { split; [apply Z.div_pos; lia|apply Z.div_lt_upper_bound; lia]. }
    destruct n as [|n]; [by left|right]. destruct Hlo as [|Hlo]; [lia|].
    simpl Nat.sub in *. rewrite Nat2Z.inj_succ, Z.pow_succ_r in Hlo by lia.
    apply Z.div_le_lower_bound; lia.
Qed.

Lemma decimal_len_eq n v : (1 < n ≤ 20)%nat → 10 ^ Z.of_nat (n - 1) ≤ v < 10 ^ Z.of_nat n →
  v < 2 ^ 64 → Z.of_nat (length (decimal v)) = Z.of_nat n.
Proof.
  intros Hn Hv Hm. rewrite (decimal_length_bounds n); [done|lia| |right; lia|lia].
  split; [|done]. assert (0 < 10 ^ Z.of_nat (n - 1)) by (apply Z.pow_pos_nonneg; lia). lia.
Qed.

Lemma decimal_len_div k v : (k < 20)%nat → 10 ^ Z.of_nat k ≤ v < 2 ^ 64 →
  length (decimal v) = (k + length (decimal (v `div` 10 ^ Z.of_nat k)))%nat.
Proof.
  revert v. induction k as [|k IH]; intros v Hk Hv.
  { by rewrite Z.div_1_r. }
  rewrite Nat2Z.inj_succ, Z.pow_succ_r in * by lia.
  assert (0 < 10 ^ Z.of_nat k) by (apply Z.pow_pos_nonneg; lia).
  rewrite <- Z.div_div by lia. rewrite decimal_step, length_app by (unfold in_u; lia). cbn [length].
  rewrite (IH (v `div` 10)); [lia|lia|].
  split; [apply Z.div_le_lower_bound; lia|apply Z.div_lt_upper_bound; lia].
Qed.

Ltac len_is n v := rewrite (decimal_len_eq n v) by (simpl; lia); done.

Lemma digits10_small f v : 0 ≤ v < 10 ^ 12 → digits10 (S f) v = Z.of_nat (length (decimal v)).
Proof.
  intros Hv. cbn [digits10].
  destruct (Z.ltb_spec v 10); [rewrite decimal_small by lia; done|].
  destruct (Z.ltb_spec v 100); [len_is 2%nat v|].
  destruct (Z.ltb_spec v 1000); [len_is 3%nat v|].
  destruct (Z.ltb_spec v 1000000000000); [|lia].
  destruct (Z.ltb_spec v 100000000).
  - destruct (Z.ltb_spec v 1000000).
    + destruct (Z.ltb_spec v 10000); [len_is 4%nat v|].
      destruct (Z.leb_spec 100000 v); [len_is 6%nat v|len_is 5%nat v].
    + destruct (Z.leb_spec 10000000 v); [len_is 8%nat v|len_is 7%nat v].
  - destruct (Z.ltb_spec v 10000000000).
    + destruct (Z.leb_spec 1000000000 v); [len_is 10%nat v|len_is 9%nat v].
    + destruct (Z.leb_spec 100000000000 v); [len_is 12%nat v|len_is 11%nat v].
Qed.

Lemma digits10_spec v : 0 ≤ v < 2 ^ 64 → digits10 2 v = Z.of_nat (length (decimal v)).
Proof.
  intros Hv. destruct (Z.ltb_spec v (10 ^ 12)) as [Hs|Hb]; [apply digits10_small; lia|].
  assert (digits10 2 v = 12 + digits10 1 (v `div` 10 ^ 12)) as ->.
  { change 2%nat with (S 1). cbn [digits10].
    repeat (rewrite (proj2 (Z.ltb_ge v _)) by lia). done. }
  rewrite digits10_small.
  - rewrite (decimal_len_div 12 v) by (simpl; lia). change (10 ^ Z.of_nat 12) with (10 ^ 12). lia.
  - split; [apply Z.div_pos; lia|]. apply Z.div_lt_upper_bound; lia.
Qed.

(** ** ll2string *)

Lemma digits_lookup k : 0 ≤ k < 100 →
  digits !! Z.to_nat (k * 2) = Some (48 + k `div` 10) ∧
  digits !! Z.to_nat (k * 2 + 1) = Some (48 + k `mod` 10).
Proof.
  intros Hk. assert (E : Forall (λ k, digits !! Z.to_nat (k * 2) = Some (48 + k `div` 10) ∧
    digits !! Z.to_nat (k * 2 + 1) = Some (48 + k `mod` 10)) (seqZ 0 100)).
  { repeat constructor. }
  rewrite Forall_forall in E. apply E, elem_of_seqZ. lia.
Qed.

Lemma mput_app l x r i c : i = Z.of_nat (length l) → mput (l ++ x :: r) i c = Some (l ++ c :: r).
Proof. intros ->. by apply (mwrite_app l [x] [c] r). Qed.

(** The two-digit step of the representation. *)
Lemma decimal_step2 v : in_u 64 v → 100 ≤ v →
  decimal v = decimal (v `div` 100) ++ [48 + (v `mod` 100) `div` 10; 48 + (v `mod` 100) `mod` 10].
Proof.
  intros [??] Hv. assert (10 ≤ v `div` 10) by (apply Z.div_le_lower_bound; lia).
  assert (v `div` 10 < 2 ^ 64) by (apply Z.div_lt_upper_bound; lia).
  rewrite decimal_step, (decimal_step (v `div` 10)) by (unfold in_u; lia).
  rewrite Z.div_div, <- app_assoc by lia. change (10 * 10) with 100. cbn [app].
  pose proof (Z.div_mod v 100 ltac:(done)) as Ev. pose proof (Z.mod_pos_bound v 100 ltac:(done)).
  set (q := v `div` 100) in *. set (r := v `mod` 100) in *.
  clearbody q r. assert (v `div` 10 = q * 10 + r `div` 10) as E.
  { rewrite Ev. replace (100 * q + r) with (r + (q * 10) * 10) by lia. rewrite Z.div_add by lia. lia. }
  assert (0 ≤ r `div` 10 < 10) by (split; [apply Z.div_pos|apply Z.div_lt_upper_bound]; lia).
  rewrite E. assert ((q * 10 + r `div` 10) `mod` 10 = r `div` 10) as ->.
  { rewrite Z.add_comm, Z_mod_plus_full. by apply Z.mod_small. }
  assert (v `mod` 10 = r `mod` 10) as ->; [|done].
  rewrite Ev. replace (100 * q + r) with (r + (q * 10) * 10) by lia. by rewrite Z_mod_plus_full.
Qed.

(** The digit part of [ll2string] fills exactly the room of the digits. *)
Definition digits_part (dst : list Z) (next value : Z) (fuel : nat) : option (list Z) :=
  '(dst, next, value) ← pairs_loop fuel dst next value;
  if value <? 10 then mput dst next (48 + value)
  else
    c1 ← digits !! Z.to_nat (value * 2 + 1);
    c0 ← digits !! Z.to_nat (value * 2);
    dst ← mput dst next c1;
    mput dst (next - 1) c0.

Lemma pairs_loop_S f dst next value : pairs_loop (S f) dst next value =
  if 100 <=? value then
    c1 ← digits !! Z.to_nat ((value `mod` 100) * 2 + 1);
    c0 ← digits !! Z.to_nat ((value `mod` 100) * 2);
    dst ← mput dst next c1;
    dst ← mput dst (next - 1) c0;
    pairs_loop f dst (u32 (next - 2)) (value `div` 100)
  else Some (dst, next, value).
Proof. done. Qed.

Lemma digits_part_spec fuel : ∀ v l m r, in_u 64 v → v < 100 ^ Z.of_nat fuel →
  length m = length (decimal v) → Z.of_nat (length l + length m) < 2 ^ 32 →
  digits_part (l ++ m ++ r) (Z.of_nat (length l + length m) - 1) v (S fuel) = Some (l ++ decimal v ++ r).
Proof.
  induction fuel as [|f IH]; intros v l m r [Hv1 Hv2] Hf Hm Hb.
  { change (100 ^ Z.of_nat 0) with 1 in Hf. assert (v = 0) as -> by lia. change (decimal 0) with [48] in *.
    destruct m as [|x [|]]; try done. cbn. rewrite mput_app by lia. done. }
  unfold digits_part. rewrite pairs_loop_S. destruct (Z.leb_spec 100 v) as [H100|H100].
  - rewrite decimal_step2 in Hm |- * by (unfold in_u; lia). rewrite length_app in Hm. simpl in Hm.
    destruct m as [|b m _] using rev_ind; [simpl in Hm; lia|].
    destruct m as [|a m _] using rev_ind; [simpl in Hm; lia|]. rewrite !length_app in *. cbn [length] in *.
    pose proof (Z.mod_pos_bound v 100 ltac:(done)) as Hmod.
    destruct (digits_lookup (v `mod` 100) Hmod) as [E0 E1]. rewrite E0, E1. cbn [mbind option_bind].
    assert (Ea : ∀ c, (l ++ m ++ [a]) ++ c :: r = (l ++ m) ++ a :: c :: r) by (intros; by rewrite <- !app_assoc).
    assert (Eb : l ++ ((m ++ [a]) ++ [b]) ++ r = (l ++ m ++ [a]) ++ b :: r) by (by rewrite <- !app_assoc).
    rewrite Eb, mput_app by (rewrite !length_app; simpl; lia). cbn [mbind option_bind].
    rewrite Ea, mput_app by (rewrite !length_app; simpl; lia). cbn [mbind option_bind].
    assert (Hlen : (1 ≤ length m)%nat).
    { pose proof (decimal_nonempty (v `div` 100)). destruct (decimal (v `div` 100)); [done|simpl in Hm; lia]. }
    rewrite uwrap_small by (unfold in_u; lia).
    rewrite Nat2Z.inj_succ, Z.pow_succ_r in Hf by lia.
    pose proof (IH (v `div` 100) l m ((48 + (v `mod` 100) `div` 10) :: (48 + (v `mod` 100) `mod` 10) :: r)) as IH'.
    unfold digits_part in IH'.
    replace (Z.of_nat (length l + (length m + 1 + 1)) - 1 - 2) with (Z.of_nat (length l + length m) - 1) by lia.
    rewrite <- !app_assoc, IH'; [done| | |lia|lia].
    + split; [apply Z.div_pos; lia|apply Z.div_lt_upper_bound; lia].
    + apply Z.div_lt_upper_bound; lia.
  - cbn [mbind option_bind]. destruct (Z.ltb_spec v 10) as [H10|H10].
    + rewrite decimal_small in Hm |- * by lia. destruct m as [|x [|]]; try done.
      cbn [app]. by rewrite mput_app by (simpl; lia).
    + assert (0 ≤ v `div` 10 < 10) by (split; [apply Z.div_pos|apply Z.div_lt_upper_bound]; lia).
      assert (Ed : decimal v = [48 + v `div` 10; 48 + v `mod` 10])
        by (by rewrite decimal_step, decimal_small by (unfold in_u; lia)).
      rewrite Ed in Hm |- *.
      destruct m as [|a [|b [|]]]; try done. cbn [app].
      destruct (digits_lookup v) as [E0 E1]; [lia|]. rewrite E0, E1. cbn [mbind option_bind].
      rewrite (cons_middle a), app_assoc, mput_app by (rewrite length_app; simpl; lia).
      cbn [mbind option_bind]. rewrite <- app_assoc. cbn [app]. by rewrite mput_app by (simpl; lia).
Qed.

#[local] Opaque decimal pairs_loop.

Lemma abs_u64 v : in_s 64 v → v < 0 →
  (if negb (v =? LLONG_MIN) then u64 (- v) else u64 (LLONG_MAX + 1)) = - v.
Proof.
  unfold in_s, LLONG_MIN, LLONG_MAX. intros Hv Hn. change (64 - 1) with 63 in Hv.
  destruct (Z.eqb_spec v (- 2 ^ 63)) as [->|]; cbn [negb]; rewrite uwrap_small by (unfold in_u; lia); lia.
Qed.

Lemma ll2string_spec dst v : in_s 64 v → Z.of_nat (length dst) < 2 ^ 32 →
  ll2string dst v =
    if decide (length (decimal_z v) < length dst)%nat
    then Some (decimal_z v ++ 0 :: drop (S (length (decimal_z v))) dst, Z.of_nat (length (decimal_z v)))
    else Some (dst, 0).
Proof.
  intros Hv Hd. unfold ll2string.
  set (p := if v <? 0 then _ else _). set (sgn := if v <? 0 then [45] else []).
  assert (∃ n, p = (n, Z.of_nat (length sgn)) ∧ in_u 64 n ∧ decimal_z v = sgn ++ decimal n ∧
    (length sgn ≤ 1)%nat) as (n & -> & Hn & E & Hsg).
  { subst p sgn. unfold decimal_z. destruct (Z.ltb_spec v 0).
    - rewrite abs_u64 by done. exists (- v). unfold in_s, in_u in *. simpl in *. split_and!; try done; lia.
    - exists v. unfold in_s, in_u in *. simpl in *. split_and!; try done; lia. }
  pose proof (decimal_length n) as Hl20. rewrite digits10_spec by apply Hn. rewrite E, length_app.
  rewrite (uwrap_small 32) by (unfold in_u; lia).
  replace (Z.of_nat (length (decimal n)) + Z.of_nat (length sgn)) with
    (Z.of_nat (length sgn + length (decimal n))) by lia.
  set (k := (length sgn + length (decimal n))%nat).
  case_decide as Hk; [|rewrite (proj2 (Z.leb_le _ _)) by lia; done].
  rewrite (proj2 (Z.leb_gt _ _)) by lia.
  assert (Hne : (1 ≤ length (decimal n))%nat)
    by (pose proof (decimal_nonempty n); destruct (decimal n); [done|simpl; lia]).
  rewrite <- (take_drop k dst) at 1. destruct (drop k dst) as [|x r] eqn:Ed.
  { apply (f_equal length) in Ed. rewrite length_drop in Ed. simpl in Ed. lia. }
  assert (Htk : length (take k dst) = k) by (rewrite length_take; lia).
  rewrite mput_app by lia. cbn [mbind option_bind].
  rewrite (uwrap_small 32) by (unfold in_u; lia).
  assert (drop (S k) dst = r) as -> by (by rewrite <- Nat.add_1_r, <- drop_drop, Ed).
  set (l := take (length sgn) (take k dst)). set (m := drop (length sgn) (take k dst)).
  assert (Elm : take k dst = l ++ m) by (symmetry; apply take_drop).
  assert (Hll : length l = length sgn) by (subst l; rewrite length_take; lia).
  assert (Hlm : length m = length (decimal n)) by (subst m; rewrite length_drop; lia).
  rewrite Elm, <- app_assoc. clearbody l m.
  pose proof (digits_part_spec 10 n l m (0 :: r)) as Hdp. unfold digits_part in Hdp.
  rewrite Hll, Hlm in Hdp. fold k in Hdp.
  assert (100 ^ Z.of_nat 10 = 10 ^ 20) as E100 by done.
  ospecialize (Hdp Hn _ eq_refl _); [rewrite E100; unfold in_u in Hn; lia|lia|].
  destruct (pairs_loop 11 _ _ n) as [[[d nx] vl]|]; [|done]. cbn [mbind option_bind] in Hdp |- *.
  rewrite Hdp. cbn [mbind option_bind].
  destruct (v <? 0); subst sgn.
  - destruct l as [|y [|]]; [discriminate Hll| |discriminate Hll]. cbn [length Z.of_nat]. change (Z.pos (Pos.of_succ_nat 0) =? 1) with true.
    cbn iota. change ([y] ++ ?z) with ([] ++ y :: z). rewrite mput_app by done. done.
  - destruct l; [done|discriminate Hll].
Qed.

(** ** string2ll *)

#[local] Opaque decimal.

Lemma isdigit_spec c : isdigit c = true ↔ is_digit c.
Proof. unfold isdigit, is_digit. rewrite andb_true_iff, !Z.leb_le. done. Qed.

Lemma fold_dec_ge ds : Forall is_digit ds → ∀ v, 0 ≤ v → v ≤ fold_left (λ a c, a * 10 + (c - 48)) ds v.
Proof.
  induction 1 as [|c ds Hc _ IH]; intros v Hv; simpl; [lia|]. unfold is_digit in Hc.
  etrans; [|apply IH]; lia.
Qed.

Lemma parse_loop_spec p : ∀ v, in_u 64 v → ∀ n, parse_loop v p = Some (n, []) ↔
  Forall is_digit p ∧ n = fold_left (λ a c, a * 10 + (c - 48)) p v ∧ n < 2 ^ 64.
Proof.
  induction p as [|c p IH]; intros v Hv n; unfold in_u in Hv; simpl.
  { split; [intros [= <-]; split_and!; [constructor|done|lia]|by intros (_ & -> & _)]. }
  destruct (isdigit c) eqn:Ec.
  2: { split; [done|]. intros (Hd & _). inversion_clear Hd as [|? ? Hc _].
       apply isdigit_spec in Hc. congruence. }
  apply isdigit_spec in Ec as Hc. unfold is_digit in Hc. unfold ULLONG_MAX.
  change ((2 ^ 64 - 1) `div` 10) with 1844674407370955161.
  assert (Hfold : Forall is_digit p → 0 ≤ v * 10 + (c - 48) →
    v * 10 + (c - 48) ≤ fold_left (λ a c, a * 10 + (c - 48)) p (v * 10 + (c - 48)))
    by (intros; by apply fold_dec_ge).
  destruct (Z.ltb_spec 1844674407370955161 v).
  { split; [done|]. intros (Hd & -> & Hn). inversion_clear Hd. specialize (Hfold ltac:(done) ltac:(lia)). lia. }
  rewrite (uwrap_small 64 (v * 10)) by (unfold in_u; lia).
  destruct (Z.ltb_spec (2 ^ 64 - 1 - (c - 48)) (v * 10)).
  { split; [done|]. intros (Hd & -> & Hn). inversion_clear Hd. specialize (Hfold ltac:(done) ltac:(lia)). lia. }
  rewrite uwrap_small by (unfold in_u; lia). rewrite IH by (unfold in_u; lia).
  rewrite Forall_cons. unfold is_digit at 2. naive_solver.
Qed.

(** What [string2ll] computes from the digits after the sign. *)
Definition parse_abs (p : list Z) : option Z :=
  match p with
  | [] => None
  | d :: p' =>
      if (49 <=? d) && (d <=? 57) then
        '(v, rest) ← parse_loop (d - 48) p';
        match rest with [] => Some v | _ => None end
      else None
  end.

Lemma parse_abs_spec p n : parse_abs p = Some n ↔ in_u 64 n ∧ n ≠ 0 ∧ p = decimal n.
Proof.
  destruct p as [|d p]; simpl.
  { split; [done|]. intros (_ & _ & E). by pose proof (decimal_nonempty n). }
  destruct ((49 <=? d) && (d <=? 57)) eqn:Ed.
  - apply andb_true_iff in Ed as [E1 E2]. apply Z.leb_le in E1, E2.
    assert (Hd : in_u 64 (d - 48)) by (unfold in_u; lia).
    trans (parse_loop (d - 48) p = Some (n, [])).
    { destruct (parse_loop (d - 48) p) as [[v [|]]|]; cbn; naive_solver. }
    rewrite parse_loop_spec by done. split.
    + intros (Hp & En & Hn). assert (Ev : n = dec_val (d :: p)) by (rewrite En; done).
      assert (Hdp : Forall is_digit (d :: p)) by (constructor; [unfold is_digit; lia|done]).
      assert (Hin : in_u 64 (dec_val (d :: p))).
      { rewrite <- Ev. split; [|done]. rewrite En. pose proof (fold_dec_ge p Hp (d - 48)). lia. }
      destruct (decimal_unique p d Hdp) as [Eq ?]; [lia|done|]. rewrite Ev. split_and!; [done|lia|done].
    + intros (Hn & Hne & Eq). pose proof (decimal_digits n) as Hdig. rewrite <- Eq in Hdig.
      ospecialize (Hdig _); [apply Hn|]. apply Forall_cons in Hdig as [_ Hdig].
      pose proof (decimal_val n Hn) as Hval. rewrite <- Eq in Hval.
      split_and!; [done|by rewrite <- Hval|apply Hn].
  - split; [done|]. intros (Hn & Hne & Eq). destruct (decimal_head n Hn Hne) as (d' & ds & Eq' & ?).
    rewrite Eq' in Eq. simplify_eq. apply andb_false_iff in Ed as [Ed|Ed]; lia.
Qed.

Lemma string2ll_abs c s : c :: s ≠ [48] → string2ll (c :: s) =
  if c =? 45 then v ← parse_abs s; if 2 ^ 63 <? v then None else Some (s64 (u64 (- v)))
  else v ← parse_abs (c :: s); if LLONG_MAX <? v then None else Some v.
Proof.
  intros Hs. unfold string2ll, parse_abs. change (u64 (- (LLONG_MIN + 1) + 1)) with (2 ^ 63).
  assert ((Z.of_nat (length (c :: s)) =? 1) && (c =? 48) = false) as ->.
  { apply andb_false_iff. destruct s; [right|left; apply Z.eqb_neq; cbn [length]; lia].
    apply Z.eqb_neq. by intros ->. }
  cbv zeta. destruct (c =? 45); [destruct s as [|d s]; [done|]|];
    (destruct (_ && _); [|done]); destruct (parse_loop _ _) as [[v [|]]|]; done.
Qed.

(** [string2ll] accepts exactly the canonical representations. *)
Lemma string2ll_spec s v : string2ll s = Some v ↔ in_s 64 v ∧ s = decimal_z v.
Proof.
  unfold in_s, decimal_z. change (64 - 1) with 63. destruct (decide (s = [48])) as [->|Hs].
  { cbn. split.
    - intros [= <-]. split; [done|]. by rewrite decimal_small.
    - intros [Hv E]. destruct (Z.ltb_spec v 0); [done|].
      pose proof (decimal_val v) as Hval. rewrite <- E in Hval. rewrite <- Hval by (unfold in_u; lia). done. }
  destruct s as [|c s].
  { split; [done|]. intros [_ E]. case_match; [done|]. by pose proof (decimal_nonempty v). }
  rewrite string2ll_abs by done. destruct (Z.eqb_spec c 45) as [->|Hc].
  - trans (∃ n, parse_abs s = Some n ∧ n ≤ 2 ^ 63 ∧ v = - n).
    { destruct (parse_abs s) as [n|] eqn:E; cbn; [|naive_solver].
      apply parse_abs_spec in E as (Hn & _ & _). unfold in_u in Hn.
      destruct (Z.ltb_spec (2 ^ 63) n).
      { split; [done|]. intros (? & [= <-] & ? & ?). lia. }
      rewrite swrap_uwrap, swrap_small by (unfold in_s; simpl; lia || lia). naive_solver. }
    setoid_rewrite parse_abs_spec. unfold in_u. split.
    + intros (n & (Hn & Hne & ->) & ? & ->). split; [lia|].
      rewrite (proj2 (Z.ltb_lt _ _)) by lia. by rewrite Z.opp_involutive.
    + intros [Hv E]. destruct (Z.ltb_spec v 0).
      * simplify_eq. exists (- v). split_and!; [lia|lia|lia|done|lia|lia].
      * assert (Hd : Forall is_digit (decimal v)) by (apply decimal_digits; lia).
        rewrite <- E in Hd. inversion_clear Hd as [|? ? Hb _]. unfold is_digit in Hb. lia.
  - trans (∃ n, parse_abs (c :: s) = Some n ∧ n ≤ LLONG_MAX ∧ v = n).
    { destruct (parse_abs (c :: s)) as [n|]; cbn; [|naive_solver].
      destruct (Z.ltb_spec LLONG_MAX n); naive_solver lia. }
    setoid_rewrite parse_abs_spec. unfold in_u, LLONG_MAX. split.
    + intros (n & (Hn & Hne & E) & ? & ->). split; [lia|].
      rewrite (proj2 (Z.ltb_ge _ _)) by lia. done.
    + intros [Hv E]. destruct (Z.ltb_spec v 0); [by simplify_eq|].
      exists v. split_and!; try lia; [|done]. intros ->. rewrite decimal_small in E by lia. done.
Qed.

(** ** memtoll *)

Lemma span_digits_app ds u : Forall is_digit ds → (∀ c, head u = Some c → ¬ is_digit c) →
  span_digits (ds ++ u) = (ds, u).
Proof.
  intros Hd Hu. induction Hd as [|c ds Hc _ IH]; simpl.
  - destruct u as [|c u]; [done|]. simpl. destruct (isdigit c) eqn:E; [|done].
    apply isdigit_spec in E. by specialize (Hu c eq_refl).
  - rewrite (proj2 (isdigit_spec c) Hc), IH. done.
Qed.

(** ** The properties *)

(** [ll2string] writes the canonical decimal representation of any 64-bit
    number and its NUL when the buffer has room for them, leaving the rest of
    the buffer alone, and returns 0 without writing otherwise; [digits10] and
    [sdigits10] are the exact lengths. *)
Theorem ll2string_correct dst v u : in_s 64 v → in_u 64 u → Z.of_nat (length dst) < 2 ^ 32 →
  ll2string dst v =
    (if decide (length (decimal_z v) < length dst)%nat
     then Some (decimal_z v ++ 0 :: drop (S (length (decimal_z v))) dst, Z.of_nat (length (decimal_z v)))
     else Some (dst, 0)) ∧
  digits10 2 u = Z.of_nat (length (decimal u)) ∧
  sdigits10 v = Z.of_nat (length (decimal_z v)).
Proof.
  intros Hv Hu Hd. split_and!.
  - by apply ll2string_spec.
  - by apply digits10_spec.
  - unfold sdigits10, decimal_z. destruct (Z.ltb_spec v 0).
    + rewrite abs_u64 by done. rewrite digits10_spec; [cbn [length]; lia|].
      unfold in_s in Hv. simpl in Hv. lia.
    + apply digits10_spec. unfold in_s in Hv. simpl in Hv. lia.
Qed.

(** On a 64-bit target every [long long] is a [long]. *)
Lemma string2l_eq s : string2l s = string2ll s.
Proof.
  unfold string2l. destruct (string2ll s) as [n|] eqn:E; [|done].
  apply string2ll_spec in E as [Hn _]. cbn. unfold in_s in Hn. change (64 - 1) with 63 in Hn.
  unfold LLONG_MIN, LLONG_MAX. rewrite (proj2 (Z.ltb_ge _ _)), (proj2 (Z.ltb_ge _ _)) by lia. done.
Qed.

(** C9. [string2ll] accepts a string exactly when it is the canonical
    representation of a 64-bit number, and returns this number: it inverts
    [ll2string], refuses blanks, signs, leading zeros and every overflow, and
    [string2l] is the same function on a 64-bit target. *)
Theorem string2ll_correct s v :
  (string2ll s = Some v ↔ in_s 64 v ∧ s = decimal_z v) ∧ string2l s = string2ll s.
Proof.
  split; [apply string2ll_spec|apply string2l_eq].
Qed.

(** [memtoll] of a number followed by a unit is the number of bytes: the
    number times the power of 1000 or 1024 of the unit, without error, when the
    product fits a long long; an unknown unit is an error. *)
Theorem memtoll_correct n u : in_u 63 n → (∀ c, head u = Some c → ¬ is_digit c) →
  match unit_mul u with
  | Some mul => n * mul ≤ LLONG_MAX → memtoll (decimal n ++ u) = (n * mul, 0)
  | None => memtoll (decimal n ++ u) = (0, 1)
  end.
Proof.
  intros Hn Hu. unfold in_u in Hn.
  assert (Hdig : Forall is_digit (decimal n)) by (apply decimal_digits; lia).
  assert (E : ∃ d ds, decimal n = d :: ds ∧ d ≠ 45).
  { pose proof (decimal_nonempty n). destruct (decimal n) as [|d ds]; [done|]. exists d, ds. split; [done|].
    inversion_clear Hdig as [|? ? Hd _]. unfold is_digit in Hd. lia. }
  assert (Em : memtoll (decimal n ++ u) = match unit_mul u with
    | None => (0, 1)
    | Some mul => if 128 <=? Z.of_nat (length (decimal n)) then (0, 1) else
        let '(val, all) := strtoll false (decimal n) in
        if negb all then (0, 1) else (s64 (val * mul), 0) end).
  { destruct E as (d & ds & E & Hd). unfold memtoll.
    rewrite E. cbn [app]. assert (∀ A (a b : A), match d with 45 => a | _ => b end = b) as Hm.
    { intros. repeat (case_match; try done). }
    rewrite Hm. change (d :: ds ++ u) with ((d :: ds) ++ u). rewrite <- E.
    by rewrite span_digits_app. }
  rewrite Em. destruct (unit_mul u) as [mul|] eqn:Eu; [|done]. intros Hmul.
  pose proof (decimal_length n). rewrite (proj2 (Z.leb_gt _ _)) by lia.
  assert (strtoll false (decimal n) = (n, true)) as ->.
  { pose proof (decimal_val n) as Hval. destruct E as (d & ds & E & _). rewrite E in Hval |- *.
    unfold strtoll. rewrite Hval by (unfold in_u; lia). f_equal. unfold LLONG_MAX. lia. }
  cbn. rewrite swrap_small; [done|done|]. unfold in_s, LLONG_MAX in *. change (64 - 1) with 63.
  assert (0 ≤ mul) by (unfold unit_mul in Eu; repeat case_match; simplify_eq; lia). nia.
Qed.

Lemma ll2string_correct_witness :
  ll2string [7; 7; 7; 7; 7; 7] (-12) = Some ([45; 49; 50; 0; 7; 7], 3).
Proof.
  apply (ll2string_correct [7; 7; 7; 7; 7; 7] (-12) 3); [by vm_compute|by vm_compute|by vm_compute].
Defined.

Lemma memtoll_correct_witness : memtoll (decimal 12 ++ [77; 98]) = (12582912, 0).
Proof.
  apply (memtoll_correct 12 [77; 98]); [by vm_compute| |by vm_compute].
  intros c [= <-] Hd. unfold is_digit in Hd. lia.
Defined.

(** ** Glob patterns

    The pattern is a NUL-terminated string, so that reading one character
    behind its end gives 0; [char] is signed. *)

Definition pat_at (p : list Z) (i : nat) : Z := nth i p 0.

Definition char_eq (nocase : bool) (a b : Z) : bool :=
  if nocase then tolower a =? tolower b else a =? b.

Definition in_range (nocase : bool) (a b c : Z) : bool :=
  let start := s8 a in
  let end_ := s8 b in
  let '(start, end_) := if end_ <? start then (end_, start) else (start, end_) in
  let c := s8 c in
  let '(start, end_, c) := if nocase then (tolower start, tolower end_, tolower c)
                           else (start, end_, c) in
  (start <=? c) && (c <=? end_).

(** The [while(1)] loop of a character class on the rest [p] of the pattern:
    whether [c] matched, and the pattern behind the class. *)
Fixpoint class_loop (fuel : nat) (nocase : bool) (p : list Z) (c : Z) (m : bool) :
    option (bool * list Z) :=
  match fuel with
  | O => None
  | S f =>
      let plen := Z.of_nat (length p) in
      if (pat_at p 0 =? 92) && (2 <=? plen) then
        class_loop f nocase (drop 2 p) c (m || (pat_at p 1 =? c))
      else if pat_at p 0 =? 93 then Some (m, tail p)
      else if plen =? 0 then Some (m, [])
      else if (pat_at p 1 =? 45) && (3 <=? plen) then
        class_loop f nocase (drop 3 p) c (m || in_range nocase (pat_at p 0) (pat_at p 2) c)
      else class_loop f nocase (tail p) c (m || char_eq nocase (pat_at p 0) c)
  end.

(** [while (pattern[1] == '*')] *)
Fixpoint skip_stars (p : list Z) : list Z :=
  match p with
  | c :: p' => match p' with d :: _ => if d =? 42 then skip_stars p' else p | [] => p end
  | [] => p
  end.

(** [while( *pattern == '*' )] *)
Fixpoint strip_stars (p : list Z) : list Z :=
  match p with
  | c :: p' => if c =? 42 then strip_stars p' else p
  | [] => []
  end.

(** The recursive calls of the '*' case on the suffixes of the string. *)
Fixpoint star_loop (m : list Z → option bool) (s : list Z) : option bool :=
  match s with
  | [] => Some false
  | _ :: s' => r ← m s; if r : bool then Some true else star_loop m s'
  end.

(** One pattern element other than '*' against the character [d]: [Some None]
    is "no match", [Some (Some p)] the rest of the pattern. *)
Definition element (nocase : bool) (p : list Z) (d : Z) : option (option (list Z)) :=
  let c := pat_at p 0 in
  if c =? 63 then Some (Some (tail p))
  else if c =? 91 then
    let p := tail p in
    let not_ := pat_at p 0 =? 94 in
    let p := if not_ then tail p else p in
    '(m, rest) ← class_loop (S (length p)) nocase p d false;
    Some (if xorb not_ m then Some rest else None)
  else
    let p := if (c =? 92) && (2 <=? Z.of_nat (length p)) then tail p else p in
    Some (if char_eq nocase (pat_at p 0) d then Some (tail p) else None).

Fixpoint stringmatchlen (fuel : nat) (p s : list Z) (nocase : bool) : option bool :=
  match fuel with
  | O => None
  | S f =>
      match p, s with
      | c :: _, d :: s' =>
          if c =? 42 then
            let p := skip_stars p in
            if Z.of_nat (length p) =? 1 then Some true
            else star_loop (λ s, stringmatchlen f (tail p) s nocase) s
          else
            r ← element nocase p d;
            match r with
            | None => Some false
            | Some p =>
                match s' with
                | [] => Some (bool_decide (strip_stars p = []))
                | _ => stringmatchlen f p s' nocase
                end
            end
      | _, _ => Some (bool_decide (p = []) && bool_decide (s = []))
      end
  end.

(** *** What a pattern means *)

Inductive class_item := CEsc (c : Z) | CRange (a b : Z) | CChar (c : Z).
Inductive item := IStar | IAny | IClass (neg : bool) (cs : list class_item) | ILit (c : Z).

Definition class_match (nocase : bool) (c : Z) (i : class_item) : bool :=
  match i with
  | CEsc d => d =? c
  | CRange a b => in_range nocase a b c
  | CChar d => char_eq nocase d c
  end.

(** The items of a class, up to its bracket or the end, and what follows. *)
Fixpoint parse_class (fuel : nat) (p : list Z) : list class_item * list Z :=
  match fuel with
  | O => ([], [])
  | S f =>
      if (pat_at p 0 =? 92) && (2 <=? Z.of_nat (length p)) then
        let '(cs, r) := parse_class f (drop 2 p) in (CEsc (pat_at p 1) :: cs, r)
      else if pat_at p 0 =? 93 then ([], tail p)
      else if Z.of_nat (length p) =? 0 then ([], [])
      else if (pat_at p 1 =? 45) && (3 <=? Z.of_nat (length p)) then
        let '(cs, r) := parse_class f (drop 3 p) in (CRange (pat_at p 0) (pat_at p 2) :: cs, r)
      else let '(cs, r) := parse_class f (tail p) in (CChar (pat_at p 0) :: cs, r)
  end.

Fixpoint parse (fuel : nat) (p : list Z) : list item :=
  match fuel, p with
  | S f, c :: p' =>
      if c =? 42 then IStar :: parse f p'
      else if c =? 63 then IAny :: parse f p'
      else if c =? 91 then
        let neg := pat_at p' 0 =? 94 in
        let q := if neg then tail p' else p' in
        let '(cs, r) := parse_class (S (length q)) q in IClass neg cs :: parse f r
      else match p' with
           | d :: p'' => if c =? 92 then ILit d :: parse f p'' else ILit c :: parse f p'
           | [] => [ILit c]
           end
  | _, _ => []
  end.

(** The meaning of a whole pattern. *)
Definition items (p : list Z) : list item := parse (length p) p.

(** The strings a sequence of items matches. *)
Inductive glob (nocase : bool) : list item → list Z → Prop :=
| glob_nil : glob nocase [] []
| glob_star its l s : glob nocase its s → glob nocase (IStar :: its) (l ++ s)
| glob_any its c s : glob nocase its s → glob nocase (IAny :: its) (c :: s)
| glob_class neg cs its c s : xorb neg (existsb (class_match nocase c) cs) = true →
    glob nocase its s → glob nocase (IClass neg cs :: its) (c :: s)
| glob_lit d its c s : char_eq nocase d c = true → glob nocase its s →
    glob nocase (ILit d :: its) (c :: s).

(** *** Parsing consumes the pattern *)

Lemma parse_class_length fuel p cs r : parse_class fuel p = (cs, r) → (length r ≤ length p)%nat.
Proof.
  intros E. apply (f_equal snd) in E. cbn [snd] in E. subst r. clear cs.
  revert p. induction fuel as [|f IH]; intros p; cbn [parse_class]; [simpl; lia|].
  destruct ((pat_at p 0 =? 92) && _).
  { pose proof (IH (drop 2 p)) as IH'. destruct (parse_class f (drop 2 p)). cbn [snd] in *.
    rewrite length_drop in IH'. lia. }
  destruct (_ =? 93); [destruct p; simpl; lia|]. destruct (_ =? 0); [simpl; lia|].
  destruct ((pat_at p 1 =? 45) && _).
  - pose proof (IH (drop 3 p)) as IH'. destruct (parse_class f (drop 3 p)). cbn [snd] in *.
    rewrite length_drop in IH'. lia.
  - pose proof (IH (tail p)) as IH'. destruct (parse_class f (tail p)). cbn [snd] in *.
    destruct p; simpl in *; lia.
Qed.

Lemma parse_fuel f1 : ∀ f2 p, (length p ≤ f1)%nat → (length p ≤ f2)%nat → parse f1 p = parse f2 p.
Proof.
  induction f1 as [|f1 IH]; intros f2 p H1 H2.
  { destruct p; [by destruct f2|simpl in H1; lia]. }
  destruct f2 as [|f2]; [destruct p; [done|simpl in H2; lia]|].
  destruct p as [|c p]; [done|]. simpl in H1, H2. cbn [parse].
  destruct (c =? 42); [f_equal; apply IH; lia|]. destruct (c =? 63); [f_equal; apply IH; lia|].
  destruct (c =? 91).
  { set (q := if pat_at p 0 =? 94 then tail p else p). assert (length q ≤ length p)%nat
      by (subst q; case_match; destruct p; simpl; lia).
    destruct (parse_class _ q) as [cs r] eqn:E. apply parse_class_length in E. f_equal. apply IH; lia. }
  destruct p as [|d p]; [done|]. simpl in *. destruct (c =? 92); f_equal; apply IH; simpl; lia.
Qed.

Lemma class_loop_spec fuel : ∀ nocase p c m, (length p < fuel)%nat →
  class_loop fuel nocase p c m =
    let '(cs, r) := parse_class fuel p in Some (m || existsb (class_match nocase c) cs, r).
Proof.
  induction fuel as [|f IH]; intros nocase p c m Hf; [lia|]. cbn [class_loop parse_class].
  destruct ((pat_at p 0 =? 92) && (2 <=? Z.of_nat (length p))) eqn:E1.
  { apply andb_true_iff in E1 as [_ E1]. apply Z.leb_le in E1. rewrite IH by (rewrite length_drop; lia).
    destruct (parse_class f (drop 2 p)). cbn [existsb class_match]. by rewrite <- orb_assoc. }
  destruct (_ =? 93); [by rewrite orb_false_r|].
  destruct (Z.eqb_spec (Z.of_nat (length p)) 0); [by rewrite orb_false_r|].
  destruct ((pat_at p 1 =? 45) && (3 <=? Z.of_nat (length p))) eqn:E2.
  - apply andb_true_iff in E2 as [_ E2]. apply Z.leb_le in E2. rewrite IH by (rewrite length_drop; lia).
    destruct (parse_class f (drop 3 p)). cbn [existsb class_match]. by rewrite <- orb_assoc.
  - rewrite IH by (destruct p; simpl in *; lia). destruct (parse_class f (tail p)).
    cbn [existsb class_match]. by rewrite <- orb_assoc.
Qed.

(** *** Matching *)

Section matching.
Context (nocase : bool).

Lemma glob_star_iff its s : glob nocase (IStar :: its) s ↔ ∃ l s', s = l ++ s' ∧ glob nocase its s'.
Proof.
  split; [inversion 1; eauto|]. intros (l & s' & -> & ?). by constructor.
Qed.

Lemma glob_star_star its s : glob nocase (IStar :: IStar :: its) s ↔ glob nocase (IStar :: its) s.
Proof.
  rewrite !glob_star_iff. split.
  - intros (l & s' & -> & (l' & s'' & -> & ?)%glob_star_iff). exists (l ++ l'), s''. by rewrite app_assoc.
  - intros (l & s' & -> & ?). exists l, s'. split; [done|]. apply glob_star_iff. by exists [], s'.
Qed.

Lemma items_cons_star p : items (42 :: p) = IStar :: items p.
Proof. done. Qed.

Lemma strip_stars_spec p : glob nocase (items p) [] ↔ strip_stars p = [].
Proof.
  unfold items. induction p as [|c p IH]; [split; [done|constructor]|]. cbn [length parse strip_stars].
  destruct (Z.eqb_spec c 42) as [->|Hne].
  - rewrite <- IH, glob_star_iff. split.
    + intros (l & s' & E & ?). symmetry in E. by apply app_eq_nil in E as [-> ->].
    + intros. by exists [], [].
  - split; [|done]. intros Hg. exfalso. destruct (c =? 63); [inversion Hg|].
    destruct (c =? 91); [destruct (parse_class _ _); inversion Hg|].
    destruct p as [|d p]; [inversion Hg|]. destruct (c =? 92); inversion Hg.
Qed.

(** The first item of a pattern that does not begin with a star. *)
Lemma element_spec c p d s : c ≠ 42 → ∃ r, element nocase (c :: p) d = Some r ∧
  match r with
  | None => ¬ glob nocase (items (c :: p)) (d :: s)
  | Some p' => (length p' ≤ length p)%nat ∧ (glob nocase (items (c :: p)) (d :: s) ↔ glob nocase (items p') s)
  end.
Proof.
  intros Hc. unfold element, items. change (pat_at (c :: p) 0) with c. cbn [length parse tail].
  rewrite (proj2 (Z.eqb_neq c 42)) by done.
  destruct (c =? 63).
  { eexists. split; [done|]. split; [done|]. split; [inversion 1; done|by constructor]. }
  destruct (c =? 91).
  { set (neg := pat_at p 0 =? 94). set (q := if neg then tail p else p).
    assert (length q ≤ length p)%nat by (subst q; case_match; destruct p; simpl; lia).
    rewrite class_loop_spec by lia. destruct (parse_class _ q) as [cs r] eqn:Ep.
    apply parse_class_length in Ep. cbn [mbind option_bind orb].
    eexists. split; [done|]. rewrite (parse_fuel (length p) (length r) r) by lia.
    destruct (xorb neg _) eqn:Ex.
    - split; [lia|]. split; [inversion 1; done|by constructor].
    - inversion 1. congruence. }
  eexists. split; [done|]. destruct p as [|x p].
  { cbn [length]. change (2 <=? Z.of_nat 1) with false. rewrite andb_false_r.
    cbn [pat_at nth tail]. destruct (char_eq nocase c d) eqn:Eq.
    - split; [done|]. cbn. split; [inversion 1; done|by constructor].
    - inversion 1. congruence. }
  cbn [length]. rewrite (proj2 (Z.leb_le 2 _)) by lia.
  rewrite andb_true_r. destruct (c =? 92); cbn [pat_at nth tail].
  - rewrite (parse_fuel _ (length p) p) by (simpl; lia). destruct (char_eq nocase x d) eqn:Eq.
    + split; [simpl; lia|]. split; [inversion 1; done|by constructor].
    + inversion 1. congruence.
  - destruct (char_eq nocase c d) eqn:Eq.
    + split; [done|]. split; [inversion 1; done|by constructor].
    + inversion 1. congruence.
Qed.

Lemma skip_stars_spec p s : ∃ q, skip_stars (42 :: p) = 42 :: q ∧ head q ≠ Some 42 ∧
  (length q ≤ length p)%nat ∧
  (glob nocase (items (42 :: p)) s ↔ glob nocase (IStar :: items q) s).
Proof.
  induction p as [|c p IH]; [by exists []|]. destruct (decide (c = 42)) as [->|Hne].
  - destruct IH as (q & E & ? & ? & Hg). exists q. split; [exact E|]. split; [done|]. split; [simpl; lia|].
    rewrite <- Hg, !items_cons_star. apply glob_star_star.
  - exists (c :: p). cbn [skip_stars]. rewrite (proj2 (Z.eqb_neq c 42)) by done.
    split_and!; [done|by intros [= ->]|done|done].
Qed.

Lemma star_loop_spec m q s : (∀ s', s' ≠ [] → ∃ b, m s' = Some b ∧ (b = true ↔ glob nocase (items q) s')) →
  ¬ glob nocase (items q) [] →
  ∃ b, star_loop m s = Some b ∧ (b = true ↔ glob nocase (IStar :: items q) s).
Proof.
  intros Hm Hnil. induction s as [|c s IH].
  - exists false. split; [done|]. split; [done|]. rewrite glob_star_iff. intros (l & s' & E & Hg).
    symmetry in E. apply app_eq_nil in E as [-> ->]. done.
  - cbn [star_loop]. destruct (Hm (c :: s)) as ([] & -> & Hb); [done| |]; cbn [mbind option_bind].
    + exists true. split; [done|]. split; [|done]. intros _. apply (glob_star nocase _ []). by apply Hb.
    + destruct IH as (b & -> & Hb'). exists b. split; [done|]. rewrite Hb', !glob_star_iff. split.
      * intros (l & s' & -> & ?). by exists (c :: l), s'.
      * intros ([|x l] & s' & E & ?); simplify_eq/=; [|by exists l, s'].
        exfalso. destruct Hb as [_ Hb]. by discriminate Hb.
Qed.

Lemma match_spec fuel : ∀ p s, (length p < fuel)%nat → s ≠ [] →
  ∃ b, stringmatchlen fuel p s nocase = Some b ∧ (b = true ↔ glob nocase (items p) s).
Proof.
  induction fuel as [|f IH]; intros p s Hf Hs; [lia|]. destruct s as [|d s]; [done|].
  destruct p as [|c p]; cbn [stringmatchlen].
  { exists false. split; [done|]. split; [done|]. inversion 1. }
  simpl in Hf. destruct (Z.eqb_spec c 42) as [->|Hc].
  - destruct (skip_stars_spec p (d :: s)) as (q & -> & Hq & Hl & Hg). cbn [length tail].
    destruct q as [|x q].
    { exists true. split; [done|]. split; [|done]. intros _. apply Hg.
      rewrite <- (app_nil_r (d :: s)). constructor. constructor. }
    rewrite (proj2 (Z.eqb_neq _ _)) by (cbn [length]; lia). setoid_rewrite Hg. apply star_loop_spec.
    + intros s' Hs'. apply IH; [simpl in *; lia|done].
    + rewrite strip_stars_spec. cbn [strip_stars]. rewrite (proj2 (Z.eqb_neq x 42)); [done|].
      intros ->. done.
  - destruct (element_spec c p d s Hc) as (r & -> & Hr). cbn [mbind option_bind].
    destruct r as [p'|]; [|exists false; done]. destruct Hr as [Hl Hg]. setoid_rewrite Hg.
    destruct s as [|e s].
    + eexists. split; [done|]. rewrite bool_decide_eq_true. symmetry. apply strip_stars_spec.
    + apply IH; [lia|done].
Qed.

(** C10. [stringmatchlen] decides the meaning of glob patterns: on every
    non-empty string it returns (the recursion of '*' included) and matches
    exactly the strings the items of the pattern describe; the empty string is
    matched by the empty pattern only, not even by a star. *)
Theorem stringmatchlen_glob p s :
  (∃ b, stringmatchlen (S (length p)) p s nocase = Some b ∧
    (b = true ↔ if decide (s = []) then p = [] else glob nocase (items p) s)).
Proof.
  destruct (decide (s = [])) as [->|Hs]; [|by apply match_spec; lia || done].
  eexists. split; [by destruct p|]. by destruct p.
Qed.

End matching.

(** A lone star does not match the empty string. *)
Example star_empty : stringmatchlen 2 [42] [] false = Some false.
Proof. reflexivity. Qed.

(** "h[^a-c]*" against "hxy" and "hby". *)
Example glob_demo :
  (stringmatchlen 20 [104; 91; 94; 97; 45; 99; 93; 42] [104; 120; 121] false,
   stringmatchlen 20 [104; 91; 94; 97; 45; 99; 93; 42] [104; 98; 121] false) = (Some true, Some false).
Proof. reflexivity. Qed.
