(* ===== verification/Skiplist.v ===== *)
(** * t_zset.c: the skiplist of sorted sets

    Nodes live in a heap of nodes (a pointer is a [positive]); freeing a node
    removes it, so a use after free or a read behind the levels of a node is
    [None].  An element is the byte string of its sds, compared by [bytes_cmp]
    ([sdscmp], see SdsText.v).  Scores are doubles that are not NaN (the code
    asserts it): a type with a strict weak order, in which [==] need not be
    equality (-0.0 == 0.0).

    [zsl_rep] is the representation invariant: the skiplist stands for a list
    of entries in strict (score, element) order, every forward pointer leads to
    the next node that is high enough and every span is the exact distance. *)

From S2P Require Import Prelude Sds SdsText.

(** ** Scores *)

Class Score (R : Type) := {
  slt : R → R → bool;
  slt_irrefl a : slt a a = false;
  slt_trans a b c : slt a b = true → slt b c = true → slt a c = true;
  slt_cotrans a b c : slt a b = true → slt a c = true ∨ slt c b = true
}.

(** [a == b] and [a <= b] on doubles that are not NaN. *)
Definition seqb `{Score R} (a b : R) : bool := negb (slt a b) && negb (slt b a).
Definition sle `{Score R} (a b : R) : bool := negb (slt b a).

(** The scores of the examples. *)
#[global] Instance Z_score : Score Z.
Proof.
  refine {| slt := Z.ltb |}.
  - intros. apply Z.ltb_irrefl.
  - intros a b c. rewrite !Z.ltb_lt. lia.
  - intros a b c. rewrite !Z.ltb_lt. lia.
Defined.

(** ** Data *)

Definition ZSKIPLIST_MAXLEVEL : nat := 64.

Abbreviation ptr := positive.

Section data.
Context {R : Type}.

(** [level[i]] is the pair of [forward] and [span]; [ele] is NULL in the header. *)
Record zskiplistNode := Node {
  ele : option (list Z);
  score : R;
  backward : option ptr;
  level : list (option ptr * Z)
}.

Record zskiplist := Zsl { header : ptr; tail_ : option ptr; zlength : Z; zlevel : nat }.

End data.
Arguments zskiplistNode : clear implicits.

Abbreviation heap R := (gmap ptr (zskiplistNode R)).

Record zrangespec (R : Type) := ZRange { min : R; max : R; minex : bool; maxex : bool }.
Arguments ZRange {R}. Arguments min {R}. Arguments max {R}. Arguments minex {R}. Arguments maxex {R}.

(** A bound of a lexicographic range: a string, or one of the two shared
    strings that stand for the infinities ([shared.minstring], [shared.maxstring]). *)
Inductive lexbound := MINSTRING | MAXSTRING | LexStr (s : list Z).
Record zlexrangespec := ZLex { lmin : lexbound; lmax : lexbound; lminex : bool; lmaxex : bool }.

Section zsl.
Context {R : Type} `{Score R}.
Implicit Types h : heap R.

(** ** Heap accesses *)

Definition set_level (n : zskiplistNode R) l : zskiplistNode R := Node (ele n) (score n) (backward n) l.
Definition set_backward (n : zskiplistNode R) b : zskiplistNode R := Node (ele n) (score n) b (level n).
Definition set_score (n : zskiplistNode R) (s : R) : zskiplistNode R := Node (ele n) s (backward n) (level n).

(** [x->level[i]] *)
Definition cell h (x : ptr) (i : nat) : option (option ptr * Z) :=
  n ← h !! x; level n !! i.

Definition set_cell h (x : ptr) (i : nat) (c : option ptr * Z) : option (heap R) :=
  n ← h !! x;
  if decide (i < length (level n))%nat
  then Some (<[x := set_level n (<[i := c]> (level n))]> h) else None.

(** ** Creation *)

(** The code leaves [backward] and the levels of a new node uninitialized; the
    values here stand for what the memory holds.  zslCreate writes these values
    itself, and zslInsert writes [backward] and every level before anything reads
    them. *)
Definition zslCreateNode (lv : nat) (s : R) (e : option (list Z)) : zskiplistNode R :=
  Node e s None (replicate lv (None, 0)).

Definition zslCreate (h : heap R) (zero : R) : heap R * zskiplist :=
  let x := fresh (dom h : gset ptr) in
  (<[x := zslCreateNode ZSKIPLIST_MAXLEVEL zero None]> h, Zsl x None 0 1).

(** The stream of values of [random()]; 0.25 * 0xFFFF is 16383.75. *)
Fixpoint random_loop (rnd : list Z) (lv : Z) : option Z :=
  match rnd with
  | [] => None
  | r :: rnd' => if Z.land r 65535 <=? 16383 then random_loop rnd' (lv + 1) else Some lv
  end.

Definition zslRandomLevel (rnd : list Z) : option nat :=
  lv ← random_loop rnd 1;
  Some (if lv <? Z.of_nat ZSKIPLIST_MAXLEVEL then Z.to_nat lv else ZSKIPLIST_MAXLEVEL).

(** ** Search *)

(** [while (x->level[i].forward && cond) { trav += x->level[i].span; x = forward; }]
    where the condition sees the next node and [trav + span]; [w] is the width of
    the counter. *)
Fixpoint walk (fuel : nat) (w : Z) (cond : zskiplistNode R → Z → bool) h (i : nat) (x : ptr) (trav : Z) :
    option (ptr * Z) :=
  match fuel with
  | O => None
  | S f =>
      '(forward, span) ← cell h x i;
      match forward with
      | None => Some (x, trav)
      | Some y =>
          ny ← h !! y;
          if cond ny (uwrap w (trav + span)) then walk f w cond h i y (uwrap w (trav + span))
          else Some (x, trav)
      end
  end.

(** [for (i = level-1; i >= 0; i--)]: the final node, the counter, and the
    arrays [update] and [rank]. *)
Fixpoint descend (n : nat) (fuel : nat) (w : Z) cond h (x : ptr) (trav : Z) :
    option (ptr * Z * list (ptr * Z)) :=
  match n with
  | O => Some (x, trav, [])
  | S i =>
      '(x, trav) ← walk fuel w cond h i x trav;
      '(x', trav', us) ← descend i fuel w cond h x trav;
      Some (x', trav', us ++ [(x, trav)])
  end.

Definition zfuel (zsl : zskiplist) : nat := Z.to_nat (zlength zsl + 1).

(** [sdscmp] with the element of a node that is not the header. *)
Definition cmp_ele (n : zskiplistNode R) (e : list Z) : Z :=
  match ele n with Some e' => bytes_cmp e' e | None => 0 end.

(** The loop condition of insertion and deletion. *)
Definition key_lt (s : R) (e : list Z) (n : zskiplistNode R) (_ : Z) : bool :=
  slt (score n) s || (seqb (score n) s && (cmp_ele n e <? 0)).

(** ** Insertion *)

(** [for (i = zsl->level; i < level; i++) { ... update[i]->level[i].span = zsl->length; }] *)
Fixpoint raise_loop (n i : nat) h (hd : ptr) (len : Z) : option (heap R) :=
  match n with
  | O => Some h
  | S n' =>
      '(forward, _) ← cell h hd i;
      h ← set_cell h hd i (forward, len);
      raise_loop n' (S i) h hd len
  end.

Fixpoint link_loop (us : list (ptr * Z)) (i : nat) h (x : ptr) (rank0 : Z) : option (heap R) :=
  match us with
  | [] => Some h
  | (u, rank) :: us' =>
      '(forward, span) ← cell h u i;
      h ← set_cell h x i (forward, u64 (span - u32 (rank0 - rank)));
      h ← set_cell h u i (Some x, u32 (u32 (rank0 - rank) + 1));
      link_loop us' (S i) h x rank0
  end.

Fixpoint bump_loop (us : list (ptr * Z)) (i : nat) h : option (heap R) :=
  match us with
  | [] => Some h
  | (u, _) :: us' =>
      '(forward, span) ← cell h u i;
      h ← set_cell h u i (forward, u64 (span + 1));
      bump_loop us' (S i) h
  end.

Definition set_tail (zsl : zskiplist) t := Zsl (header zsl) t (zlength zsl) (zlevel zsl).
Definition set_zlevel (zsl : zskiplist) lv := Zsl (header zsl) (tail_ zsl) (zlength zsl) lv.
Definition set_zlength (zsl : zskiplist) l := Zsl (header zsl) (tail_ zsl) l (zlevel zsl).

(** The heap, the skiplist and the new node; [lv] is the random level. *)
Definition zslInsert h (zsl : zskiplist) (lv : nat) (s : R) (e : list Z) :
    option (heap R * zskiplist * ptr) :=
  '(_, _, us) ← descend (zlevel zsl) (zfuel zsl) 32 (key_lt s e) h (header zsl) 0;
  '(h, zsl, us) ←
    (if decide (zlevel zsl < lv)%nat then
       h ← raise_loop (lv - zlevel zsl) (zlevel zsl) h (header zsl) (zlength zsl);
       Some (h, set_zlevel zsl lv, us ++ replicate (lv - zlevel zsl) (header zsl, 0))
     else Some (h, zsl, us));
  let x := fresh (dom h : gset ptr) in
  let h := <[x := zslCreateNode lv s (Some e)]> h in
  '(u0, rank0) ← us !! 0%nat;
  h ← link_loop (take lv us) 0 h x rank0;
  h ← bump_loop (drop lv us) lv h;
  nx ← h !! x;
  let h := <[x := set_backward nx (if decide (u0 = header zsl) then None else Some u0)]> h in
  '(forward, _) ← cell h x 0;
  '(h, zsl) ← match forward with
              | Some y => ny ← h !! y; Some (<[y := set_backward ny (Some x)]> h, zsl)
              | None => Some (h, set_tail zsl (Some x))
              end;
  Some (h, set_zlength zsl (u64 (zlength zsl + 1)), x).

(** ** Deletion *)

Fixpoint unlink_loop (us : list (ptr * Z)) (i : nat) h (x : ptr) : option (heap R) :=
  match us with
  | [] => Some h
  | (u, _) :: us' =>
      '(forward, span) ← cell h u i;
      h ← (if decide (forward = Some x) then
             '(xforward, xspan) ← cell h x i;
             set_cell h u i (xforward, u64 (span + (xspan - 1)))
           else set_cell h u i (forward, u64 (span - 1)));
      unlink_loop us' (S i) h x
  end.

(** [while(zsl->level > 1 && zsl->header->level[zsl->level-1].forward == NULL) zsl->level--] *)
Fixpoint lower_level h (hd : ptr) (lv : nat) : option nat :=
  match lv with
  | S ((S _) as lv') =>
      '(forward, _) ← cell h hd lv';
      match forward with None => lower_level h hd lv' | Some _ => Some lv end
  | _ => Some lv
  end.

Definition zslDeleteNode h (zsl : zskiplist) (x : ptr) (us : list (ptr * Z)) :
    option (heap R * zskiplist) :=
  h ← unlink_loop (take (zlevel zsl) us) 0 h x;
  nx ← h !! x;
  '(forward, _) ← cell h x 0;
  '(h, zsl) ← match forward with
              | Some y => ny ← h !! y; Some (<[y := set_backward ny (backward nx)]> h, zsl)
              | None => Some (h, set_tail zsl (backward nx))
              end;
  lv ← lower_level h (header zsl) (zlevel zsl);
  Some (h, set_zlength (set_zlevel zsl lv) (u64 (zlength zsl - 1))).

(** [free_]: the argument [node] is NULL, so the node is freed; returns 1 or 0
    and the unlinked node. *)
Definition zslDelete h (zsl : zskiplist) (s : R) (e : list Z) (free_ : bool) :
    option (heap R * zskiplist * Z * option ptr) :=
  '(x, _, us) ← descend (zlevel zsl) (zfuel zsl) 64 (key_lt s e) h (header zsl) 0;
  '(forward, _) ← cell h x 0;
  match forward with
  | None => Some (h, zsl, 0, None)
  | Some y =>
      ny ← h !! y;
      if seqb s (score ny) && (cmp_ele ny e =? 0) then
        '(h, zsl) ← zslDeleteNode h zsl y us;
        Some (if free_ then delete y h else h, zsl, 1, if free_ then None else Some y)
      else Some (h, zsl, 0, None)
  end.

(** A failed assertion is [None]; [lv] is the random level of the new node. *)
Definition zslUpdateScore h (zsl : zskiplist) (curscore : R) (e : list Z) (newscore : R) (lv : nat) :
    option (heap R * zskiplist * ptr) :=
  '(x, _, us) ← descend (zlevel zsl) (zfuel zsl) 64 (key_lt curscore e) h (header zsl) 0;
  '(forward, _) ← cell h x 0;
  y ← forward;
  ny ← h !! y;
  if seqb curscore (score ny) && (cmp_ele ny e =? 0) then
    before ← match backward ny with
             | None => Some true
             | Some b => nb ← h !! b; Some (slt (score nb) newscore)
             end;
    '(forward, _) ← cell h y 0;
    after ← match forward with
            | None => Some true
            | Some z => nz ← h !! z; Some (slt newscore (score nz))
            end;
    if before && after then Some (<[y := set_score ny newscore]> h, zsl, y)
    else
      '(h, zsl) ← zslDeleteNode h zsl y us;
      ny ← h !! y;
      e' ← ele ny;
      '(h, zsl, x) ← zslInsert h zsl lv newscore e';
      Some (delete y h, zsl, x)
  else None.

(** ** Freeing *)

Fixpoint free_loop (fuel : nat) h (node : option ptr) : option (heap R) :=
  match fuel with
  | O => None
  | S f =>
      match node with
      | None => Some h
      | Some x => '(next, _) ← cell h x 0; free_loop f (delete x h) next
      end
  end.

Definition zslFree h (zsl : zskiplist) : option (heap R) :=
  '(node, _) ← cell h (header zsl) 0;
  free_loop (zfuel zsl) (delete (header zsl) h) node.

(** ** Ranges by score *)

Definition zslValueGteMin (value : R) (spec : zrangespec R) : bool :=
  if minex spec then slt (min spec) value else sle (min spec) value.

Definition zslValueLteMax (value : R) (spec : zrangespec R) : bool :=
  if maxex spec then slt value (max spec) else sle value (max spec).

(** The part [zslIsInRange] and [zslIsInLexRange] share: the last node is not
    below the range and the first not above. *)
Definition ends_in_range h (zsl : zskiplist) (gte lte : zskiplistNode R → bool) : option bool :=
  match tail_ zsl with
  | None => Some false
  | Some t =>
      nt ← h !! t;
      if negb (gte nt) then Some false else
      '(forward, _) ← cell h (header zsl) 0;
      match forward with
      | None => Some false
      | Some f => nf ← h !! f; Some (lte nf)
      end
  end.

Definition zslIsInRange h (zsl : zskiplist) (range : zrangespec R) : option bool :=
  if slt (max range) (min range) ||
     (seqb (min range) (max range) && (minex range || maxex range))
  then Some false
  else ends_in_range h zsl (λ n, zslValueGteMin (score n) range) (λ n, zslValueLteMax (score n) range).

(** [None]: a failed assertion or a bad access; [Some None]: NULL. *)
Definition zslFirstInRange h (zsl : zskiplist) (range : zrangespec R) : option (option ptr) :=
  ok ← zslIsInRange h zsl range;
  if negb ok then Some None else
  '(x, _, _) ← descend (zlevel zsl) (zfuel zsl) 64
                 (λ n _, negb (zslValueGteMin (score n) range)) h (header zsl) 0;
  '(forward, _) ← cell h x 0;
  y ← forward;
  ny ← h !! y;
  Some (if zslValueLteMax (score ny) range then Some y else None).

Definition zslLastInRange h (zsl : zskiplist) (range : zrangespec R) : option (option ptr) :=
  ok ← zslIsInRange h zsl range;
  if negb ok then Some None else
  '(x, _, _) ← descend (zlevel zsl) (zfuel zsl) 64
                 (λ n _, zslValueLteMax (score n) range) h (header zsl) 0;
  nx ← h !! x;
  Some (if zslValueGteMin (score nx) range then Some x else None).

(** ** Lexicographic ranges *)

(** [sdscmplex] on bounds; the shared strings are compared by address. *)
Definition sdscmplex (a b : lexbound) : Z :=
  match a, b with
  | MINSTRING, MINSTRING | MAXSTRING, MAXSTRING => 0
  | MINSTRING, _ | _, MAXSTRING => -1
  | MAXSTRING, _ | _, MINSTRING => 1
  | LexStr a, LexStr b => bytes_cmp a b
  end.

Definition zslLexValueGteMin (value : list Z) (spec : zlexrangespec) : bool :=
  if lminex spec then 0 <? sdscmplex (LexStr value) (lmin spec)
  else 0 <=? sdscmplex (LexStr value) (lmin spec).

Definition zslLexValueLteMax (value : list Z) (spec : zlexrangespec) : bool :=
  if lmaxex spec then sdscmplex (LexStr value) (lmax spec) <? 0
  else sdscmplex (LexStr value) (lmax spec) <=? 0.

(** [zslParseLexRangeItem]: the bound and the flag [ex], [None] for C_ERR. *)
Definition zslParseLexRangeItem (item : list Z) : option (lexbound * bool) :=
  match item with
  | [] => None
  | c :: s =>
      if c =? 43 then (if nth 0 s 0 =? 0 then Some (MAXSTRING, true) else None)
      else if c =? 45 then (if nth 0 s 0 =? 0 then Some (MINSTRING, true) else None)
      else if c =? 40 then Some (LexStr s, true)
      else if c =? 91 then Some (LexStr s, false)
      else None
  end.

(** Objects that are integer encoded are refused by the caller's first test. *)
Definition zslParseLexRange (min_ max_ : list Z) (int_encoded : bool) : option zlexrangespec :=
  if int_encoded then None else
  '(mn, mnx) ← zslParseLexRangeItem min_;
  '(mx, mxx) ← zslParseLexRangeItem max_;
  Some (ZLex mn mx mnx mxx).

Definition lex_gte (range : zlexrangespec) (n : zskiplistNode R) : bool :=
  match ele n with Some e => zslLexValueGteMin e range | None => false end.
Definition lex_lte (range : zlexrangespec) (n : zskiplistNode R) : bool :=
  match ele n with Some e => zslLexValueLteMax e range | None => false end.

Definition zslIsInLexRange h (zsl : zskiplist) (range : zlexrangespec) : option bool :=
  let cmp := sdscmplex (lmin range) (lmax range) in
  if (0 <? cmp) || ((cmp =? 0) && (lminex range || lmaxex range)) then Some false
  else ends_in_range h zsl (lex_gte range) (lex_lte range).

Definition zslFirstInLexRange h (zsl : zskiplist) (range : zlexrangespec) : option (option ptr) :=
  ok ← zslIsInLexRange h zsl range;
  if negb ok then Some None else
  '(x, _, _) ← descend (zlevel zsl) (zfuel zsl) 64 (λ n _, negb (lex_gte range n)) h (header zsl) 0;
  '(forward, _) ← cell h x 0;
  y ← forward;
  ny ← h !! y;
  Some (if lex_lte range ny then Some y else None).

Definition zslLastInLexRange h (zsl : zskiplist) (range : zlexrangespec) : option (option ptr) :=
  ok ← zslIsInLexRange h zsl range;
  if negb ok then Some None else
  '(x, _, _) ← descend (zlevel zsl) (zfuel zsl) 64 (λ n _, lex_lte range n) h (header zsl) 0;
  nx ← h !! x;
  Some (if lex_gte range nx then Some x else None).

(** ** Deletion of ranges

    The dict of the sorted set is only told which elements leave: the loops
    return them in order of the [dictDelete] calls. *)

Fixpoint delete_loop (fuel : nat) h (zsl : zskiplist) (us : list (ptr * Z)) (x : option ptr)
    (cond : zskiplistNode R → Z → bool) (trav : Z) (gone : list (list Z)) :
    option (heap R * zskiplist * list (list Z)) :=
  match fuel with
  | O => None
  | S f =>
      match x with
      | None => Some (h, zsl, gone)
      | Some y =>
          ny ← h !! y;
          if cond ny trav then
            '(next, _) ← cell h y 0;
            '(h, zsl) ← zslDeleteNode h zsl y us;
            e ← ele ny;
            delete_loop f (delete y h) zsl us next cond (u64 (trav + 1)) (gone ++ [e])
          else Some (h, zsl, gone)
      end
  end.

Definition zslDeleteRangeByScore h (zsl : zskiplist) (range : zrangespec R) :
    option (heap R * zskiplist * list (list Z)) :=
  '(x, _, us) ← descend (zlevel zsl) (zfuel zsl) 64
    (λ n _, if minex range then sle (score n) (min range) else slt (score n) (min range))
    h (header zsl) 0;
  '(forward, _) ← cell h x 0;
  delete_loop (zfuel zsl) h zsl us forward
    (λ n _, if maxex range then slt (score n) (max range) else sle (score n) (max range)) 0 [].

Definition zslDeleteRangeByLex h (zsl : zskiplist) (range : zlexrangespec) :
    option (heap R * zskiplist * list (list Z)) :=
  '(x, _, us) ← descend (zlevel zsl) (zfuel zsl) 64 (λ n _, negb (lex_gte range n)) h (header zsl) 0;
  '(forward, _) ← cell h x 0;
  delete_loop (zfuel zsl) h zsl us forward (λ n _, lex_lte range n) 0 [].

Definition zslDeleteRangeByRank h (zsl : zskiplist) (start end_ : Z) :
    option (heap R * zskiplist * list (list Z)) :=
  '(x, traversed, us) ← descend (zlevel zsl) (zfuel zsl) 64 (λ _ t, t <? start) h (header zsl) 0;
  '(forward, _) ← cell h x 0;
  delete_loop (zfuel zsl) h zsl us forward (λ _ t, t <=? end_) (u64 (traversed + 1)) [].

(** ** Ranks *)

Definition key_le (s : R) (e : list Z) (n : zskiplistNode R) (_ : Z) : bool :=
  slt (score n) s || (seqb (score n) s && (cmp_ele n e <=? 0)).

Fixpoint rank_loop (n : nat) (fuel : nat) h (s : R) (e : list Z) (x : ptr) (rank : Z) : option Z :=
  match n with
  | O => Some 0
  | S i =>
      '(x, rank) ← walk fuel 64 (key_le s e) h i x rank;
      nx ← h !! x;
      if match ele nx with Some e' => bytes_cmp e' e =? 0 | None => false end then Some rank
      else rank_loop i fuel h s e x rank
  end.

Definition zslGetRank h (zsl : zskiplist) (s : R) (e : list Z) : option Z :=
  rank_loop (zlevel zsl) (zfuel zsl) h s e (header zsl) 0.

Fixpoint byrank_loop (n : nat) (fuel : nat) h (rank : Z) (x : ptr) (trav : Z) : option (option ptr) :=
  match n with
  | O => Some None
  | S i =>
      '(x, trav) ← walk fuel 64 (λ _ t, t <=? rank) h i x trav;
      if trav =? rank then Some (Some x) else byrank_loop i fuel h rank x trav
  end.

Definition zslGetElementByRank h (zsl : zskiplist) (rank : Z) : option (option ptr) :=
  byrank_loop (zlevel zsl) (zfuel zsl) h rank (header zsl) 0.

End zsl.

(** ** The representation *)

Section rep.
Context {R : Type} `{Score R}.
Implicit Types h : heap R.

Record entry := Ent { eptr : ptr; eheight : nat; escore : R; eele : list Z }.
Implicit Types ns : list entry.

(** The next entry that is present at level [i], and its distance; the number
    of entries left when there is none. *)
Fixpoint fwd (i : nat) (rest : list entry) : option ptr * Z :=
  match rest with
  | [] => (None, 0)
  | e :: rest' =>
      if decide (i < eheight e)%nat then (Some (eptr e), 1)
      else ((fwd i rest').1, (fwd i rest').2 + 1)
  end.

(** Position 0 is the header, position [p + 1] the entry [p]. *)
Definition ptrs (zsl : zskiplist) ns : list ptr := header zsl :: (eptr <$> ns).
Definition heights ns : list nat := ZSKIPLIST_MAXLEVEL :: (eheight <$> ns).

(** What a node stores besides its levels. *)
Definition meta (n : zskiplistNode R) := (ele n, score n, backward n, length (level n)).
Definition meta_at h x := meta <$> h !! x.

(** The pointer to the entry before position [p], if it is not the header. *)
Definition prev_ptr ns (p : nat) : option ptr :=
  match p with O => None | S q => eptr <$> ns !! q end.

(** The links of the skiplist are exactly those of the list of entries. *)
Record zsl_links h (zsl : zskiplist) ns : Prop := {
  l_nodup : NoDup (ptrs zsl ns);
  l_cells : ∀ p x hp i, ptrs zsl ns !! p = Some x → heights ns !! p = Some hp →
    (i < hp)%nat → (i < zlevel zsl)%nat → cell h x i = Some (fwd i (drop p ns));
  l_high : ∀ i, (zlevel zsl ≤ i < ZSKIPLIST_MAXLEVEL)%nat →
    ∃ sp, cell h (header zsl) i = Some (None, sp);
  l_header : ∃ s b, meta_at h (header zsl) = Some (None, s, b, ZSKIPLIST_MAXLEVEL);
  l_nodes : ∀ p e, ns !! p = Some e →
    meta_at h (eptr e) = Some (Some (eele e), escore e, prev_ptr ns p, eheight e);
  l_heights : Forall (λ e, (1 ≤ eheight e ≤ zlevel zsl)%nat) ns;
  l_level : (1 ≤ zlevel zsl ≤ ZSKIPLIST_MAXLEVEL)%nat;
  l_tail : tail_ zsl = eptr <$> last ns;
  l_length : zlength zsl = Z.of_nat (length ns)
}.

(** The level is not higher than needed. *)
Definition zsl_top (zsl : zskiplist) ns : Prop :=
  zlevel zsl = 1%nat ∨ Exists (λ e, eheight e = zlevel zsl) ns.

Definition entry_lt (a b : entry) : Prop :=
  slt (escore a) (escore b) = true ∨
  (seqb (escore a) (escore b) = true ∧ bytes_lt (eele a) (eele b)).

(** Fewer than 2^32 entries: the ranks of the insertion are unsigned ints. *)
Record zsl_rep h (zsl : zskiplist) ns : Prop := {
  rep_links : zsl_links h zsl ns;
  rep_top : zsl_top zsl ns;
  rep_sorted : StronglySorted entry_lt ns;
  rep_small : Z.of_nat (length ns) < 2 ^ 32 - 1
}.

(** *** Forward pointers *)

Lemma fwd_low i a b : Forall (λ e, (eheight e ≤ i)%nat) a →
  fwd i (a ++ b) = ((fwd i b).1, (fwd i b).2 + Z.of_nat (length a)).
Proof.
  induction 1 as [|e a He _ IH]; simpl.
  - rewrite Z.add_0_r. by destruct (fwd i b).
  - rewrite decide_False by lia. rewrite IH. simpl. f_equal. lia.
Qed.

Lemma fwd_high i a b : Exists (λ e, (i < eheight e)%nat) a → fwd i (a ++ b) = fwd i a.
Proof.
  induction 1 as [e a He|e a _ IH]; simpl.
  - destruct (decide _); [done|lia].
  - destruct (decide _); [done|]. by rewrite IH.
Qed.

Lemma fwd_nil_low i a : Forall (λ e, (eheight e ≤ i)%nat) a → fwd i a = (None, Z.of_nat (length a)).
Proof. intros Ha. rewrite <- (app_nil_r a) at 1. rewrite fwd_low by done. done. Qed.

Lemma fwd_cases i rest :
  (Forall (λ e, (eheight e ≤ i)%nat) rest ∧ fwd i rest = (None, Z.of_nat (length rest))) ∨
  (∃ a e b, rest = a ++ e :: b ∧ Forall (λ e, (eheight e ≤ i)%nat) a ∧ (i < eheight e)%nat ∧
     fwd i rest = (Some (eptr e), Z.of_nat (length a) + 1)).
Proof.
  induction rest as [|e rest IH]; [by left|]. simpl. destruct (decide (i < eheight e)%nat) as [Hi|Hi].
  - right. exists [], e, rest. by split_and!.
  - destruct IH as [[Hf ->]|(a & e' & b & -> & Ha & He' & ->)].
    + left. split; [constructor; [lia|done]|]. simpl. f_equal. lia.
    + right. exists (e :: a), e', b. split_and!; [done|constructor; [lia|done]|done|]. simpl. f_equal. lia.
Qed.

Lemma fwd_span_nonneg i rest : 0 ≤ (fwd i rest).2.
Proof. induction rest; simpl; [done|]. case_decide; simpl; lia. Qed.

(** *** The last position at a level *)

Fixpoint lastpos (i : nat) ns (k : nat) : nat :=
  match k with
  | O => O
  | S k' => match ns !! k' with
            | Some e => if decide (i < eheight e)%nat then k else lastpos i ns k'
            | None => lastpos i ns k'
            end
  end.

Lemma lastpos_le i ns k : (lastpos i ns k ≤ k)%nat.
Proof. induction k as [|k IH]; simpl; [done|]. repeat case_match; lia. Qed.

Lemma lastpos_above i ns k : Forall (λ e, (eheight e ≤ i)%nat) (drop (lastpos i ns k) (take k ns)).
Proof.
  induction k as [|k IH]; [constructor|]. simpl lastpos. destruct (ns !! k) as [e|] eqn:E.
  - rewrite (take_S_r ns k e) by done. destruct (decide (i < eheight e)%nat).
    + rewrite drop_ge; [constructor|]. rewrite length_app, length_take. simpl. lia.
    + pose proof (lastpos_le i ns k). apply lookup_lt_Some in E.
      rewrite drop_app_le by (rewrite length_take; lia). apply Forall_app. split; [done|].
      constructor; [lia|done].
  - apply lookup_ge_None in E. rewrite (take_ge ns (S k)) by lia. by rewrite (take_ge ns k) in IH by lia.
Qed.

Lemma lastpos_height i ns k : (i < ZSKIPLIST_MAXLEVEL)%nat →
  ∃ hp, heights ns !! lastpos i ns k = Some hp ∧ (i < hp)%nat.
Proof.
  intros Hi. induction k as [|k IH]; simpl.
  - by eexists.
  - destruct (ns !! k) as [e|] eqn:E; [|done]. destruct (decide (i < eheight e)%nat); [|done].
    exists (eheight e). split; [|done]. simpl. rewrite list_lookup_fmap, E. done.
Qed.

Lemma lastpos_unique i ns k p hp : (p ≤ k)%nat → heights ns !! p = Some hp → (i < hp)%nat →
  Forall (λ e, (eheight e ≤ i)%nat) (drop p (take k ns)) → lastpos i ns k = p.
Proof.
  intros Hpk Hp Hi Hf. induction k as [|k IH]; [simpl; lia|]. simpl.
  destruct (decide (p = S k)) as [->|Hne].
  - simpl in Hp. rewrite list_lookup_fmap in Hp. destruct (ns !! k); simplify_eq/=.
    by rewrite decide_True.
  - destruct (ns !! k) as [e|] eqn:E.
    + rewrite (take_S_r ns k e) in Hf by done. apply lookup_lt_Some in E.
      rewrite drop_app_le in Hf by (rewrite length_take; lia).
      apply Forall_app in Hf as [Hf He]. inversion_clear He. rewrite decide_False by lia.
      apply IH; [lia|done].
    + apply lookup_ge_None in E. apply IH; [lia|]. by rewrite (take_ge ns (S k)), <- (take_ge ns k) in Hf by lia.
Qed.

Lemma lastpos_prefix i ns ns' k : take k ns = take k ns' → lastpos i ns k = lastpos i ns' k.
Proof.
  induction k as [|k IH]; [done|]. intros E. simpl.
  assert (Ek : ns !! k = ns' !! k).
  { rewrite <- (lookup_take_lt ns (S k)), <- (lookup_take_lt ns' (S k)) by lia. by rewrite E. }
  assert (take k ns = take k ns') as E'.
  { apply (f_equal (take k)) in E. rewrite !take_take in E. by replace (k `min` S k)%nat with k in E by lia. }
  rewrite Ek, IH by done. done.
Qed.

Lemma lastpos_0 ns k : (k ≤ length ns)%nat → Forall (λ e, (1 ≤ eheight e)%nat) ns → lastpos 0 ns k = k.
Proof.
  intros Hk Hh. destruct k as [|k]; [done|]. simpl.
  destruct (lookup_lt_is_Some_2 ns k) as [e E]; [lia|]. rewrite E.
  rewrite decide_True; [done|]. rewrite Forall_lookup in Hh. specialize (Hh _ _ E). lia.
Qed.

Lemma ptrs_lookup zsl ns p : (p ≤ length ns)%nat → is_Some (ptrs zsl ns !! p).
Proof. intros. apply lookup_lt_is_Some. unfold ptrs. simpl. rewrite length_fmap. lia. Qed.

End rep.
Arguments entry : clear implicits.

(** ** Search *)

Section search.
Context {R : Type} `{Score R}.
Implicit Types h : heap R.
Implicit Types ns : list (entry R).

Lemma meta_node h x a s b l : meta_at h x = Some (a, s, b, l) →
  ∃ n, h !! x = Some n ∧ ele n = a ∧ score n = s ∧ backward n = b ∧ length (level n) = l.
Proof.
  unfold meta_at, meta. destruct (h !! x) as [n|]; [|done]. simpl. intros [= <- <- <- <-]. eauto 10.
Qed.

(** The condition of a walk holds for exactly the first [k] entries. *)
Definition cond_at h ns (w : Z) (cond : zskiplistNode R → Z → bool) (k : nat) : Prop :=
  (k ≤ length ns)%nat ∧ Z.of_nat (length ns) < 2 ^ w ∧
  ∀ p e n, ns !! p = Some e → h !! eptr e = Some n →
    cond n (Z.of_nat (S p)) = bool_decide (p < k)%nat.

Lemma walk_spec h zsl ns w cond k i : zsl_links h zsl ns → cond_at h ns w cond k →
  (i < zlevel zsl)%nat → ∀ fuel p x hp, ptrs zsl ns !! p = Some x → heights ns !! p = Some hp →
  (i < hp)%nat → (p ≤ k)%nat → (k - p < fuel)%nat →
  ∃ x', walk fuel w cond h i x (Z.of_nat p) = Some (x', Z.of_nat (lastpos i ns k)) ∧
    ptrs zsl ns !! lastpos i ns k = Some x'.
Proof.
  intros Hl (Hk & Hw & Hc) Hi. induction fuel as [|f IH]; intros p x hp Hx Hp Hip Hpk Hf; [lia|].
  cbn [walk]. rewrite (l_cells _ _ _ Hl p x hp i) by done. cbn [mbind option_bind].
  destruct (fwd_cases i (drop p ns)) as [[Hlow ->]|(a & e & b & E & Ha & He & ->)].
  - assert (lastpos i ns k = p) as ->; [|eauto].
    apply (lastpos_unique i ns k p hp); try done. rewrite <- (take_drop k ns), drop_app_le in Hlow
      by (rewrite length_take; lia). by apply Forall_app in Hlow as [? _].
  - assert (Ee : ns !! (p + length a)%nat = Some e) by (rewrite <- lookup_drop, E; by apply list_lookup_middle).
    pose proof (lookup_lt_Some _ _ _ Ee) as Hlen.
    destruct (meta_node _ _ _ _ _ _ (l_nodes _ _ _ Hl _ _ Ee)) as (ny & Hny & _).
    rewrite Hny. cbn [mbind option_bind].
    replace (Z.of_nat p + (Z.of_nat (length a) + 1)) with (Z.of_nat (S (p + length a))) by lia.
    rewrite uwrap_small by (unfold in_u; lia).
    rewrite (Hc _ _ _ Ee Hny). case_bool_decide as Hlt.
    + apply (IH _ _ (eheight e)); [| |done|lia|lia].
      * simpl. by rewrite list_lookup_fmap, Ee.
      * simpl. by rewrite list_lookup_fmap, Ee.
    + assert (lastpos i ns k = p) as ->; [|eauto].
      apply (lastpos_unique i ns k p hp); try done.
      assert (drop p (take k ns) = take (k - p) a) as ->; [|by apply Forall_take].
      rewrite drop_take_drop_comm || rewrite skipn_firstn_comm. rewrite E.
      rewrite take_app_le by lia. done.
Qed.

Lemma descend_spec h zsl ns w cond k : zsl_links h zsl ns → cond_at h ns w cond k →
  ∀ n fuel p x hp, (n ≤ zlevel zsl)%nat → ptrs zsl ns !! p = Some x → heights ns !! p = Some hp →
  (n ≤ hp)%nat → (p ≤ k)%nat → (length ns < fuel)%nat → (n = 0%nat → p = lastpos 0 ns k) →
  ∃ x' us, descend n fuel w cond h x (Z.of_nat p) = Some (x', Z.of_nat (lastpos 0 ns k), us) ∧
    ptrs zsl ns !! lastpos 0 ns k = Some x' ∧ length us = n ∧
    ∀ i, (i < n)%nat → ∃ u, us !! i = Some (u, Z.of_nat (lastpos i ns k)) ∧
      ptrs zsl ns !! lastpos i ns k = Some u.
Proof.
  intros Hl Hc. induction n as [|i IH]; intros fuel p x hp Hn Hx Hp Hhp Hpk Hf H0.
  { cbn. rewrite <- H0 by done. exists x, []. split_and!; try done. intros; lia. }
  cbn [descend]. destruct Hc as [Hk Hc'] eqn:Ec. clear Ec.
  destruct (walk_spec h zsl ns w cond k i Hl ltac:(done) ltac:(lia) fuel p x hp) as (x1 & -> & Hx1);
    try done; try lia. cbn [mbind option_bind].
  pose proof (l_level _ _ _ Hl). unfold ZSKIPLIST_MAXLEVEL in *.
  destruct (lastpos_height i ns k) as (hp1 & Hp1 & Hi1); [unfold ZSKIPLIST_MAXLEVEL; lia|].
  pose proof (lastpos_le i ns k).
  destruct (IH fuel (lastpos i ns k) x1 hp1) as (x' & us & -> & Hx' & Hlu & Hus); try done; try lia.
  { by intros ->. }
  cbn [mbind option_bind]. exists x', (us ++ [(x1, Z.of_nat (lastpos i ns k))]).
  split_and!; [done|done|rewrite length_app; simpl; lia|].
  intros j Hj. destruct (decide (j = i)) as [->|Hne].
  - exists x1. split; [|done]. rewrite lookup_app_r, Hlu, Nat.sub_diag by lia. done.
  - destruct (Hus j) as (u & Eu & ?); [lia|]. exists u. split; [|done].
    by rewrite lookup_app_l by (rewrite Hlu; lia).
Qed.

(** The arrays [update] and [rank] of a search that stops at position [k]. *)
Definition upd_ok zsl ns (us : list (ptr * Z)) (k : nat) : Prop :=
  (zlevel zsl ≤ length us)%nat ∧
  ∀ i, (i < zlevel zsl)%nat → ∃ u, us !! i = Some (u, Z.of_nat (lastpos i ns k)) ∧
    ptrs zsl ns !! lastpos i ns k = Some u.

(** The search from the header. *)
Lemma zsl_search_spec h zsl ns w cond k : zsl_links h zsl ns → cond_at h ns w cond k →
  ∃ x us, descend (zlevel zsl) (zfuel zsl) w cond h (header zsl) 0 = Some (x, Z.of_nat k, us) ∧
    ptrs zsl ns !! k = Some x ∧ length us = zlevel zsl ∧ upd_ok zsl ns us k ∧
    cell h x 0 = Some (fwd 0 (drop k ns)).
Proof.
  intros Hl Hc. pose proof Hc as (Hk & _).
  assert (Hk0 : lastpos 0 ns k = k).
  { apply lastpos_0; [done|]. eapply Forall_impl; [apply (l_heights _ _ _ Hl)|]. simpl. lia. }
  pose proof (l_level _ _ _ Hl) as Hlv.
  destruct (descend_spec h zsl ns w cond k Hl Hc (zlevel zsl) (zfuel zsl) 0 (header zsl) ZSKIPLIST_MAXLEVEL)
    as (x & us & E & Hx & Hlu & Hus); try done; try lia.
  { unfold zfuel. rewrite (l_length _ _ _ Hl). lia. }
  rewrite Hk0 in *. exists x, us. split_and!; [done|done|done|split; [lia|done]|].
  destruct (lastpos_height 0 ns k) as (hp & Hp & Hi); [unfold ZSKIPLIST_MAXLEVEL; lia|]. rewrite Hk0 in Hp.
  apply (l_cells _ _ _ Hl k x hp); [done|done|done|lia].
Qed.

(** [forward] at level 0 is the next entry. *)
Lemma fwd0 ns k : Forall (λ e, (1 ≤ eheight e)%nat) ns →
  fwd 0 (drop k ns) = match ns !! k with Some e => (Some (eptr e), 1) | None => (None, 0) end.
Proof.
  intros Hh. destruct (ns !! k) as [e|] eqn:E.
  - rewrite (drop_S ns e k) by done. simpl. rewrite Forall_lookup in Hh. specialize (Hh _ _ E).
    destruct (decide _); [done|lia].
  - apply lookup_ge_None in E. by rewrite drop_ge.
Qed.

(** A predicate that is closed under smaller entries holds for a prefix. *)
Lemma prefix_split ns (P : entry R → bool) : StronglySorted entry_lt ns →
  (∀ a b, entry_lt a b → P b = true → P a = true) →
  ∃ k, (k ≤ length ns)%nat ∧ ∀ p e, ns !! p = Some e → P e = bool_decide (p < k)%nat.
Proof.
  intros Hs HP. induction Hs as [|a l Hs IH Hf]; [by exists 0%nat|].
  destruct (P a) eqn:Ea.
  - destruct IH as (k & Hk & IH). exists (S k). split; [simpl; lia|]. intros [|p] e E.
    + injection E as <-. rewrite Ea, bool_decide_true by lia. done.
    + rewrite (IH p e E). apply bool_decide_ext. lia.
  - exists 0%nat. split; [lia|]. intros p e E. rewrite bool_decide_false by lia.
    destruct p as [|p]; simpl in E; [congruence|]. rewrite Forall_lookup in Hf. specialize (Hf _ _ E).
    destruct (P e) eqn:Ee; [|done]. rewrite (HP _ _ Hf Ee) in Ea. done.
Qed.

(** *** The order of scores *)

Lemma seqb_refl a : seqb a a = true.
Proof. unfold seqb. by rewrite slt_irrefl. Qed.

Lemma seqb_sym a b : seqb a b = seqb b a.
Proof. unfold seqb. apply andb_comm. Qed.

Lemma slt_seq_l a b c : slt a b = true → seqb a c = true → slt c b = true.
Proof.
  unfold seqb. rewrite andb_true_iff, !negb_true_iff. intros Hab [H1 H2].
  destruct (slt_cotrans a b c Hab); congruence.
Qed.

Lemma slt_seq_r a b c : slt a b = true → seqb b c = true → slt a c = true.
Proof.
  unfold seqb. rewrite andb_true_iff, !negb_true_iff. intros Hab [H1 H2].
  destruct (slt_cotrans a b c Hab); congruence.
Qed.

Lemma slt_asym a b : slt a b = true → slt b a = false.
Proof.
  intros H1. destruct (slt b a) eqn:E; [|done]. pose proof (slt_trans _ _ _ H1 E) as Hc.
  by rewrite slt_irrefl in Hc.
Qed.

Lemma seqb_trans a b c : seqb a b = true → seqb b c = true → seqb a c = true.
Proof.
  intros H1 H2. unfold seqb. rewrite andb_true_iff, !negb_true_iff.
  split; apply not_true_is_false; intros E.
  - pose proof (slt_seq_l _ _ _ E H1) as E'. unfold seqb in H2. rewrite E' in H2. done.
  - pose proof (slt_seq_r _ _ _ E H1) as E'.
    unfold seqb in H2. by rewrite E', andb_false_r in H2.
Qed.

Lemma score_cases a b : slt a b = true ∨ seqb a b = true ∨ slt b a = true.
Proof. unfold seqb. destruct (slt a b), (slt b a); auto. Qed.

#[global] Instance entry_lt_trans : Transitive (@entry_lt R _).
Proof.
  intros a b c [H1|[H1 L1]] [H2|[H2 L2]]; unfold entry_lt.
  - left. by eapply slt_trans.
  - left. by eapply slt_seq_r.
  - left. rewrite seqb_sym in H1. by eapply slt_seq_l.
  - right. split; [by eapply seqb_trans|by etrans].
Qed.

Lemma entry_lt_irrefl e : ¬ entry_lt e e.
Proof. intros [E|[_ E]]; [by rewrite slt_irrefl in E|]. by apply (StrictOrder_Irreflexive (R:=bytes_lt)) in E. Qed.

(** A key that is compared with the entries. *)
Definition key (s : R) (e : list Z) : entry R := Ent 1 0 s e.

Definition ltb (a b : entry R) : bool :=
  slt (escore a) (escore b) || (seqb (escore a) (escore b) && (bytes_cmp (eele a) (eele b) <? 0)).

Lemma ltb_spec a b : ltb a b = true ↔ entry_lt a b.
Proof.
  unfold ltb, entry_lt, bytes_lt. rewrite orb_true_iff, andb_true_iff, Z.ltb_lt. done.
Qed.

Lemma key_lt_cond h ns zsl w s e : zsl_links h zsl ns → StronglySorted entry_lt ns →
  Z.of_nat (length ns) < 2 ^ w →
  ∃ k, cond_at h ns w (key_lt s e) k ∧
    ∀ p d, ns !! p = Some d → ltb d (key s e) = bool_decide (p < k)%nat.
Proof.
  intros Hl Hs Hw. destruct (prefix_split ns (λ d, ltb d (key s e)) Hs) as (k & Hk & HP).
  { intros a b Hab. rewrite !ltb_spec. intros Hb. by transitivity b. }
  exists k. split; [|done]. split; [done|]. split; [done|]. intros p d n Ed Hn. rewrite <- (HP _ _ Ed).
  destruct (meta_node _ _ _ _ _ _ (l_nodes _ _ _ Hl _ _ Ed)) as (n' & Hn' & E1 & E2 & _).
  rewrite Hn in Hn'. simplify_eq. unfold key_lt, cmp_ele, ltb. rewrite E1, E2. done.
Qed.

End search.

(** ** Updates of the levels *)

Section updates.
Context {R : Type} `{Score R}.
Implicit Types h : heap R.
Implicit Types ns : list (entry R).

(** [h'] has the nodes of [h] with the levels given by [f]. *)
Definition cells_to h h' (f : ptr → nat → option (option ptr * Z)) : Prop :=
  (∀ y, meta_at h' y = meta_at h y) ∧ (∀ y j, cell h' y j = f y j).

Lemma set_cell_spec h x i c : is_Some (cell h x i) →
  ∃ h', set_cell h x i c = Some h' ∧
    cells_to h h' (λ y j, if decide (y = x ∧ j = i) then Some c else cell h y j).
Proof.
  unfold cell, set_cell, cells_to, meta_at. intros [c0 Hc0]. destruct (h !! x) as [n|] eqn:E; [|done].
  cbn [mbind option_bind] in *. apply lookup_lt_Some in Hc0 as Hlt. rewrite decide_True by done.
  eexists. split; [done|].
  split.
  - intros y. destruct (decide (y = x)) as [->|Hne].
    + rewrite lookup_insert_eq, E. unfold meta. simpl. by rewrite length_insert.
    + by rewrite lookup_insert_ne.
  - intros y j. unfold cell. destruct (decide (y = x)) as [->|Hne].
    + rewrite lookup_insert_eq, E. simpl. destruct (decide (j = i)) as [->|Hj].
      * rewrite decide_True by done. by apply list_lookup_insert_eq.
      * rewrite decide_False by naive_solver. by apply list_lookup_insert_ne.
    + rewrite lookup_insert_ne by done. by rewrite decide_False by naive_solver.
Qed.

(** The update array from level [i] on. *)
Definition at_level (us : list (ptr * Z)) (i j : nat) : option (ptr * Z) :=
  if decide (i ≤ j)%nat then us !! (j - i)%nat else None.

Lemma at_level_nil i j : at_level [] i j = None.
Proof. unfold at_level. case_decide; done. Qed.

Lemma at_level_cons u us i j :
  at_level (u :: us) i j = if decide (j = i) then Some u else at_level us (S i) j.
Proof.
  unfold at_level. repeat case_decide; try lia; try done.
  - subst. by rewrite Nat.sub_diag.
  - destruct (j - i)%nat as [|m] eqn:E; [lia|]. simpl. f_equal. lia.
Qed.

Lemma raise_loop_spec n : ∀ i h hd len, (∀ j, (i ≤ j < i + n)%nat → is_Some (cell h hd j)) →
  ∃ h', raise_loop n i h hd len = Some h' ∧
    cells_to h h' (λ y j, if decide (y = hd ∧ i ≤ j < i + n)%nat
                          then (λ c, (c.1, len)) <$> cell h y j else cell h y j).
Proof.
  induction n as [|n IH]; intros i h hd len Hc.
  { exists h. split; [done|]. split; [done|]. intros y j. by rewrite decide_False by lia. }
  cbn [raise_loop]. destruct (Hc i) as [[fw sp] Ec]; [lia|]. rewrite Ec. cbn [mbind option_bind].
  destruct (set_cell_spec h hd i (fw, len)) as (h1 & -> & Hm1 & Hc1); [by eexists|]. cbn [mbind option_bind].
  destruct (IH (S i) h1 hd len) as (h2 & -> & Hm2 & Hc2).
  { intros j Hj. rewrite Hc1, decide_False by lia. apply Hc. lia. }
  exists h2. split; [done|]. split; [intros; by rewrite Hm2|]. intros y j. rewrite Hc2, Hc1.
  destruct (decide (y = hd)) as [->|]; [|by rewrite !decide_False by naive_solver].
  destruct (decide (j = i)) as [->|].
  - rewrite decide_False, decide_True, decide_True by lia || done. by rewrite Ec.
  - rewrite (decide_False (P := hd = hd ∧ j = i)) by naive_solver.
    destruct (decide _), (decide _); try lia; done.
Qed.

Lemma link_loop_spec x rank0 us : ∀ i h,
  (∀ j u r, at_level us i j = Some (u, r) → u ≠ x ∧ is_Some (cell h u j) ∧ is_Some (cell h x j)) →
  ∃ h', link_loop us i h x rank0 = Some h' ∧
    cells_to h h' (λ y j, match at_level us i j with
      | Some (u, r) =>
          if decide (y = x) then (λ c, (c.1, u64 (c.2 - u32 (rank0 - r)))) <$> cell h u j
          else if decide (y = u) then Some (Some x, u32 (u32 (rank0 - r) + 1)) else cell h y j
      | None => cell h y j
      end).
Proof.
  induction us as [|[u r] us IH]; intros i h Hc.
  { exists h. split; [done|]. split; [done|]. intros y j. by rewrite at_level_nil. }
  cbn [link_loop]. destruct (Hc i u r) as (Hux & [[fw sp] Ec] & Hx);
    [by rewrite at_level_cons, decide_True|].
  rewrite Ec. cbn [mbind option_bind].
  destruct (set_cell_spec h x i (fw, u64 (sp - u32 (rank0 - r)))) as (h1 & -> & Hm1 & Hc1); [done|].
  cbn [mbind option_bind].
  destruct (set_cell_spec h1 u i (Some x, u32 (u32 (rank0 - r) + 1))) as (h2 & -> & Hm2 & Hc2).
  { rewrite Hc1, decide_False by naive_solver. by eexists. }
  cbn [mbind option_bind].
  assert (Hsame : ∀ y j, j ≠ i → cell h2 y j = cell h y j).
  { intros y j Hj. rewrite Hc2, decide_False, Hc1, decide_False by naive_solver. done. }
  destruct (IH (S i) h2) as (h3 & -> & Hm3 & Hc3).
  { intros j u' r' Ej. assert (j ≠ i) by (unfold at_level in Ej; case_decide; [lia|done]).
    rewrite !Hsame by done. apply (Hc j u' r'). by rewrite at_level_cons, decide_False. }
  exists h3. split; [done|]. split; [intros; by rewrite Hm3, Hm2, Hm1|]. intros y j.
  rewrite Hc3, at_level_cons. destruct (decide (j = i)) as [->|Hj].
  - unfold at_level. rewrite decide_False by lia. rewrite Hc2. destruct (decide (y = x)) as [->|Hyx].
    + rewrite decide_False by naive_solver. rewrite Hc1, decide_True by done. by rewrite Ec.
    + destruct (decide (y = u)) as [->|Hyu]; [by rewrite decide_True|].
      rewrite decide_False, Hc1, decide_False by naive_solver. done.
  - rewrite !Hsame by done. destruct (at_level us (S i) j) as [[u' r']|]; [|done].
    by rewrite Hsame.
Qed.

Lemma bump_loop_spec us : ∀ i h,
  (∀ j u r, at_level us i j = Some (u, r) → is_Some (cell h u j)) →
  ∃ h', bump_loop us i h = Some h' ∧
    cells_to h h' (λ y j, match at_level us i j with
      | Some (u, r) => if decide (y = u) then (λ c, (c.1, u64 (c.2 + 1))) <$> cell h y j else cell h y j
      | None => cell h y j
      end).
Proof.
  induction us as [|[u r] us IH]; intros i h Hc.
  { exists h. split; [done|]. split; [done|]. intros y j. by rewrite at_level_nil. }
  cbn [bump_loop]. destruct (Hc i u r) as [[fw sp] Ec]; [by rewrite at_level_cons, decide_True|].
  rewrite Ec. cbn [mbind option_bind].
  destruct (set_cell_spec h u i (fw, u64 (sp + 1))) as (h1 & -> & Hm1 & Hc1); [by eexists|].
  cbn [mbind option_bind].
  assert (Hsame : ∀ y j, j ≠ i → cell h1 y j = cell h y j)
    by (intros y j Hj; rewrite Hc1, decide_False by naive_solver; done).
  destruct (IH (S i) h1) as (h2 & -> & Hm2 & Hc2).
  { intros j u' r' Ej. assert (j ≠ i) by (unfold at_level in Ej; case_decide; [lia|done]).
    rewrite !Hsame by done. apply (Hc j u' r'). by rewrite at_level_cons, decide_False. }
  exists h2. split; [done|]. split; [intros; by rewrite Hm2, Hm1|]. intros y j.
  rewrite Hc2, at_level_cons. destruct (decide (j = i)) as [->|Hj].
  - unfold at_level. rewrite decide_False by lia. rewrite Hc1. destruct (decide (y = u)) as [->|Hyu].
    + rewrite decide_True by done. by rewrite Ec.
    + by rewrite decide_False by naive_solver.
  - rewrite !Hsame by done. done.
Qed.

Lemma unlink_loop_spec x us : ∀ i h,
  (∀ j u r, at_level us i j = Some (u, r) → u ≠ x ∧ ∃ fw sp, cell h u j = Some (fw, sp) ∧
     (fw = Some x → is_Some (cell h x j))) →
  ∃ h', unlink_loop us i h x = Some h' ∧
    cells_to h h' (λ y j, match at_level us i j with
      | Some (u, r) =>
          if decide (y = u) then
            c ← cell h u j;
            if decide (c.1 = Some x) then (λ d, (d.1, u64 (c.2 + (d.2 - 1)))) <$> cell h x j
            else Some (c.1, u64 (c.2 - 1))
          else cell h y j
      | None => cell h y j
      end).
Proof.
  induction us as [|[u r] us IH]; intros i h Hc.
  { exists h. split; [done|]. split; [done|]. intros y j. by rewrite at_level_nil. }
  cbn [unlink_loop]. destruct (Hc i u r) as (Hux & fw & sp & Ec & Hx); [by rewrite at_level_cons, decide_True|].
  rewrite Ec. cbn [mbind option_bind].
  set (nc := if decide (fw = Some x) then (λ d, (d.1, u64 (sp + (d.2 - 1)))) <$> cell h x i
             else Some (fw, u64 (sp - 1))).
  assert (∃ h1, (if decide (fw = Some x)
      then '(xforward, xspan) ← cell h x i; set_cell h u i (xforward, u64 (sp + (xspan - 1)))
      else set_cell h u i (fw, u64 (sp - 1))) = Some h1 ∧
    cells_to h h1 (λ y j, if decide (y = u ∧ j = i) then nc else cell h y j)) as (h1 & -> & Hm1 & Hc1).
  { subst nc. destruct (decide (fw = Some x)) as [E|E].
    - destruct (Hx E) as [[xf xs] Ex]. rewrite Ex. cbn. apply set_cell_spec. by eexists.
    - apply set_cell_spec. by eexists. }
  cbn [mbind option_bind].
  assert (Hsame : ∀ y j, j ≠ i → cell h1 y j = cell h y j)
    by (intros y j Hj; rewrite Hc1, decide_False by naive_solver; done).
  destruct (IH (S i) h1) as (h2 & -> & Hm2 & Hc2).
  { intros j u' r' Ej. assert (j ≠ i) by (unfold at_level in Ej; case_decide; [lia|done]).
    rewrite !Hsame by done. apply (Hc j u' r'). by rewrite at_level_cons, decide_False. }
  exists h2. split; [done|]. split; [intros; by rewrite Hm2, Hm1|]. intros y j.
  rewrite Hc2, at_level_cons. destruct (decide (j = i)) as [->|Hj].
  - unfold at_level. rewrite decide_False by lia. rewrite Hc1. destruct (decide (y = u)) as [->|Hyu].
    + rewrite decide_True by done. rewrite Ec. cbn. done.
    + by rewrite decide_False by naive_solver.
  - rewrite !Hsame by done. destruct (at_level us (S i) j) as [[u' r']|]; [|done].
    by rewrite !Hsame by done.
Qed.

(** *** Inserting an entry into the list *)

Definition ins (k : nat) (e : entry R) ns : list (entry R) := take k ns ++ e :: drop k ns.

Lemma fwd_span_le i ns : (fwd i ns).2 ≤ Z.of_nat (length ns).
Proof. induction ns as [|e ns IH]; simpl; [done|]. case_decide; simpl; lia. Qed.

Lemma pos_le_lastpos j ns k p hp : (p ≤ k)%nat → heights ns !! p = Some hp → (j < hp)%nat →
  (p ≤ lastpos j ns k)%nat.
Proof.
  intros Hpk Hp Hj. induction k as [|k IH]; [simpl; lia|]. simpl.
  destruct (decide (p = S k)) as [->|Hne].
  - simpl in Hp. rewrite list_lookup_fmap in Hp. destruct (ns !! k); simplify_eq/=.
    destruct (decide _); lia.
  - repeat case_match; try lia; apply IH; lia.
Qed.

Lemma lastpos_cases j ns k : lastpos j ns k = 0%nat ∨
  ∃ q e, lastpos j ns k = S q ∧ (q < k)%nat ∧ ns !! q = Some e ∧ (j < eheight e)%nat.
Proof.
  induction k as [|k IH]; [by left|]. simpl. destruct (ns !! k) as [e|] eqn:E.
  - destruct (decide (j < eheight e)%nat); [right; exists k, e; split_and!; try done; lia|].
    destruct IH as [?|(q & e' & ? & ? & ? & ?)]; [by left|right]. exists q, e'. split_and!; try done; lia.
  - destruct IH as [?|(q & e' & ? & ? & ? & ?)]; [by left|right]. exists q, e'. split_and!; try done; lia.
Qed.

(** Forward links from before the insertion point. *)
Lemma fwd_before k e ns j p hp : (p ≤ k ≤ length ns)%nat → heights ns !! p = Some hp → (j < hp)%nat →
  p ≠ lastpos j ns k → fwd j (drop p (ins k e ns)) = fwd j (drop p ns).
Proof.
  intros Hk Hp Hj Hne. pose proof (pos_le_lastpos j ns k p hp ltac:(lia) Hp Hj) as Hle.
  unfold ins. rewrite drop_app_le by (rewrite length_take; lia).
  assert (Hex : Exists (λ e, (j < eheight e)%nat) (drop p (take k ns))).
  { destruct (lastpos_cases j ns k) as [?|(q & d & Eq & Hq & Ed & Hd)]; [lia|].
    apply Exists_exists. exists d. split; [|done]. apply list_elem_of_lookup. exists (q - p)%nat.
    rewrite lookup_drop, lookup_take_lt by lia. by replace (p + (q - p))%nat with q by lia. }
  rewrite fwd_high by done. rewrite <- (take_drop k ns) at 2.
  rewrite drop_app_le by (rewrite length_take; lia). by rewrite fwd_high.
Qed.

(** Forward links from the last position at a level. *)
Lemma fwd_at k e ns j : (k ≤ length ns)%nat →
  let q := lastpos j ns k in
  fwd j (drop q ns) = ((fwd j (drop k ns)).1, (fwd j (drop k ns)).2 + Z.of_nat (k - q)) ∧
  fwd j (drop q (ins k e ns)) =
    ((fwd j (e :: drop k ns)).1, (fwd j (e :: drop k ns)).2 + Z.of_nat (k - q)).
Proof.
  intros Hk q. pose proof (lastpos_above j ns k) as Hlow. fold q in Hlow.
  pose proof (lastpos_le j ns k) as Hq. fold q in Hq.
  assert (Hlen : length (drop q (take k ns)) = (k - q)%nat) by (rewrite length_drop, length_take; lia).
  split.
  - assert (drop q ns = drop q (take k ns) ++ drop k ns) as ->.
    { rewrite <- drop_app_le by (rewrite length_take; lia). by rewrite take_drop. }
    rewrite fwd_low by done. by rewrite Hlen.
  - unfold ins. rewrite drop_app_le by (rewrite length_take; lia). rewrite fwd_low by done. by rewrite Hlen.
Qed.

(** Positions after an insertion. *)
Lemma ins_lookup_before {A} (f : entry R → A) a k e ns p : (p ≤ k ≤ length ns)%nat →
  (a :: (f <$> ins k e ns)) !! p = (a :: (f <$> ns)) !! p.
Proof.
  intros Hp. destruct p as [|p]; [done|]. simpl. unfold ins. rewrite fmap_app, lookup_app_l
    by (rewrite length_fmap, length_take; lia).
  rewrite fmap_take, lookup_take_lt by lia. done.
Qed.

Lemma ins_lookup_at {A} (f : entry R → A) a k e ns : (k ≤ length ns)%nat →
  (a :: (f <$> ins k e ns)) !! S k = Some (f e).
Proof.
  intros Hk. simpl. unfold ins. rewrite fmap_app, lookup_app_r by (rewrite length_fmap, length_take; lia).
  rewrite length_fmap, length_take. replace (k - k `min` length ns)%nat with 0%nat by lia. done.
Qed.

Lemma ins_lookup_after {A} (f : entry R → A) a k e ns p : (k < p)%nat → (k ≤ length ns)%nat →
  (a :: (f <$> ins k e ns)) !! S p = (a :: (f <$> ns)) !! p.
Proof.
  intros Hp Hk. destruct p as [|p]; [lia|]. simpl. unfold ins.
  rewrite fmap_app, lookup_app_r by (rewrite length_fmap, length_take; lia).
  rewrite length_fmap, length_take. replace (S p - k `min` length ns)%nat with (S (p - k)) by lia.
  simpl. rewrite fmap_drop, lookup_drop. f_equal. lia.
Qed.

Lemma ins_drop_after k e ns p : (k ≤ p)%nat → (k ≤ length ns)%nat →
  drop (S p) (ins k e ns) = drop p ns.
Proof.
  intros Hp Hk. unfold ins. rewrite drop_app_ge by (rewrite length_take; lia). rewrite length_take.
  replace (S p - k `min` length ns)%nat with (S (p - k)) by lia. simpl. rewrite drop_drop. f_equal. lia.
Qed.

Lemma ins_length k e ns : length (ins k e ns) = S (length ns).
Proof. unfold ins. rewrite length_app, length_take. simpl. rewrite length_drop. lia. Qed.

Lemma ins_take k e ns : (k ≤ length ns)%nat → take k (ins k e ns) = take k ns.
Proof. intros. unfold ins. rewrite take_app_le, take_take by (rewrite length_take; lia). f_equal. lia. Qed.

End updates.

(** ** Insertion *)

Section insertion.
Context {R : Type} `{Score R}.
Implicit Types h : heap R.
Implicit Types ns : list (entry R).

Lemma links_meta h zsl ns p x : zsl_links h zsl ns → ptrs zsl ns !! p = Some x → is_Some (meta_at h x).
Proof.
  intros Hl Hp. destruct p as [|p]; simpl in Hp.
  - simplify_eq. destruct (l_header _ _ _ Hl) as (s & b & ->). by eexists.
  - rewrite list_lookup_fmap in Hp. destruct (ns !! p) as [e|] eqn:E; simplify_eq/=.
    rewrite (l_nodes _ _ _ Hl _ _ E). by eexists.
Qed.

Lemma links_fresh h zsl ns x : zsl_links h zsl ns → h !! x = None → x ∉ ptrs zsl ns.
Proof.
  intros Hl Hx (p & Hp)%list_elem_of_lookup_1. destruct (links_meta _ _ _ _ _ Hl Hp) as [m Hm].
  unfold meta_at in Hm. by rewrite Hx in Hm.
Qed.

Lemma cell_meta h x i a s b l : meta_at h x = Some (a, s, b, l) → (i < l)%nat → is_Some (cell h x i).
Proof.
  intros Hm Hi. destruct (meta_node _ _ _ _ _ _ Hm) as (n & Hn & _ & _ & _ & Hl). unfold cell. rewrite Hn.
  cbn. apply lookup_lt_is_Some. lia.
Qed.

(** Higher levels for the header. *)
Lemma raise_links h zsl ns lv k us : zsl_links h zsl ns → upd_ok zsl ns us k → length us = zlevel zsl →
  (zlevel zsl ≤ lv ≤ ZSKIPLIST_MAXLEVEL)%nat →
  ∃ h', raise_loop (lv - zlevel zsl) (zlevel zsl) h (header zsl) (zlength zsl) = Some h' ∧
    zsl_links h' (set_zlevel zsl lv) ns ∧
    upd_ok (set_zlevel zsl lv) ns (us ++ replicate (lv - zlevel zsl) (header zsl, 0)) k.
Proof.
  intros Hl [Hu1 Hu2] Hlu Hlv. pose proof (l_level _ _ _ Hl).
  destruct (l_header _ _ _ Hl) as (s0 & b0 & Hm0).
  destruct (raise_loop_spec (lv - zlevel zsl) (zlevel zsl) h (header zsl) (zlength zsl)) as (h' & E & Hm & Hc).
  { intros j Hj. destruct (l_high _ _ _ Hl j) as [sp ->]; [lia|]. by eexists. }
  exists h'. split; [done|]. split.
  - constructor; cbn [zlevel header tail_ zlength set_zlevel].
    + apply (l_nodup _ _ _ Hl).
    + intros p x hp i Hp Hhp Hi Hiv. change (ptrs (set_zlevel zsl lv) ns) with (ptrs zsl ns) in Hp.
      rewrite Hc. destruct (decide (i < zlevel zsl)%nat).
      { rewrite decide_False by lia. by apply (l_cells _ _ _ Hl p x hp). }
      destruct p as [|p].
      * simpl in Hp, Hhp. simplify_eq. rewrite decide_True by lia.
        destruct (l_high _ _ _ Hl i) as [sp ->]; [lia|]. simpl. rewrite (l_length _ _ _ Hl).
        rewrite fwd_nil_low; [done|]. eapply Forall_impl; [apply (l_heights _ _ _ Hl)|]. simpl. lia.
      * simpl in Hhp. rewrite list_lookup_fmap in Hhp. destruct (ns !! p) as [e|] eqn:Ee; simplify_eq/=.
        pose proof (l_heights _ _ _ Hl) as Hh. rewrite Forall_lookup in Hh. specialize (Hh _ _ Ee). lia.
    + intros i Hi. rewrite Hc, decide_False by lia. apply (l_high _ _ _ Hl). lia.
    + rewrite Hm. eauto.
    + intros p e Ee. rewrite Hm. by apply (l_nodes _ _ _ Hl).
    + eapply Forall_impl; [apply (l_heights _ _ _ Hl)|]. simpl. lia.
    + lia.
    + apply (l_tail _ _ _ Hl).
    + apply (l_length _ _ _ Hl).
  - split; [simpl; rewrite length_app, length_replicate; lia|]. simpl. intros i Hi.
    change (ptrs (set_zlevel zsl lv) ns) with (ptrs zsl ns).
    destruct (decide (i < zlevel zsl)%nat).
    + rewrite lookup_app_l by lia. by apply Hu2.
    + exists (header zsl). rewrite lookup_app_r, lookup_replicate_2 by lia.
      assert (lastpos i ns k = 0%nat) as ->; [|done].
      apply (lastpos_unique i ns k 0 ZSKIPLIST_MAXLEVEL); try done; try lia. simpl.
      apply Forall_take. eapply Forall_impl; [apply (l_heights _ _ _ Hl)|]. simpl. lia.
Qed.

(** The update array points to nodes with the links of the list. *)
Lemma upd_cells h zsl ns us k : zsl_links h zsl ns → upd_ok zsl ns us k →
  ∀ i, (i < zlevel zsl)%nat → ∃ u, us !! i = Some (u, Z.of_nat (lastpos i ns k)) ∧
    ptrs zsl ns !! lastpos i ns k = Some u ∧ cell h u i = Some (fwd i (drop (lastpos i ns k) ns)).
Proof.
  intros Hl [_ Hu2] i Hi. pose proof (l_level _ _ _ Hl). destruct (Hu2 i Hi) as (u & E & Hp). exists u.
  split_and!; try done. destruct (lastpos_height i ns k) as (hp & Hhp & Hih); [lia|].
  by apply (l_cells _ _ _ Hl _ u hp).
Qed.

Lemma at_level_take us lv j : at_level (take lv us) 0 j = if decide (j < lv)%nat then us !! j else None.
Proof.
  unfold at_level. rewrite decide_True, Nat.sub_0_r by lia. case_decide.
  - by rewrite lookup_take_lt.
  - by rewrite lookup_take_ge by lia.
Qed.

Lemma at_level_drop us lv j : at_level (drop lv us) lv j = if decide (lv ≤ j)%nat then us !! j else None.
Proof. unfold at_level. case_decide; [|done]. rewrite lookup_drop. f_equal. lia. Qed.

(** What linking a new node [x] at position [k] writes. *)
Lemma link_cells h zsl ns us k lv x s e : zsl_links h zsl ns → upd_ok zsl ns us k →
  length us = zlevel zsl → (1 ≤ lv ≤ zlevel zsl)%nat → (k ≤ length ns)%nat →
  Z.of_nat (length ns) < 2 ^ 32 - 1 → h !! x = None →
  let h1 := <[x := zslCreateNode lv s (Some e)]> h in
  let new := Ent x lv s e :: drop k ns in
  ∃ h2 h3, link_loop (take lv us) 0 h1 x (Z.of_nat k) = Some h2 ∧
    bump_loop (drop lv us) lv h2 = Some h3 ∧
    (∀ y, meta_at h3 y = meta_at h1 y) ∧
    (∀ y j u, us !! j = Some (u, Z.of_nat (lastpos j ns k)) → (j < zlevel zsl)%nat →
       cell h3 y j = if decide (y = x) then
           (if decide (j < lv)%nat then Some (fwd j (drop k ns)) else cell h1 x j)
         else if decide (y = u) then
           Some ((fwd j new).1, (fwd j new).2 + Z.of_nat (k - lastpos j ns k))
         else cell h y j) ∧
    (∀ y i, (zlevel zsl ≤ i)%nat → y ≠ x → cell h3 y i = cell h y i).
Proof.
  intros Hl Hu Hlu Hlv Hk Hsmall Hx h1 new. pose proof (links_fresh _ _ _ _ Hl Hx) as Hfresh.
  assert (Hc1 : ∀ y i, y ≠ x → cell h1 y i = cell h y i).
  { intros. subst h1. unfold cell. by rewrite lookup_insert_ne. }
  assert (Hup : ∀ i u r, us !! i = Some (u, r) → (i < zlevel zsl)%nat → u ≠ x ∧ r = Z.of_nat (lastpos i ns k) ∧
    cell h1 u i = Some (fwd i (drop (lastpos i ns k) ns))).
  { intros i u r Ei Hi. destruct (upd_cells h zsl ns us k Hl Hu i Hi) as (u' & E & Hp & Hc).
    rewrite Ei in E. simplify_eq. assert (u' ≠ x) by (intros ->; apply Hfresh; by eapply list_elem_of_lookup_2).
    by rewrite Hc1. }
  destruct (link_loop_spec x (Z.of_nat k) (take lv us) 0 h1) as (h2 & E2 & Hm2 & Hc2).
  { intros j u r. rewrite at_level_take. case_decide; [|done]. intros Ej.
    destruct (Hup j u r Ej) as (Hux & _ & ->); [lia|]. split_and!; [done|done|].
    subst h1. unfold cell. rewrite lookup_insert_eq. simpl. by rewrite lookup_replicate_2. }
  destruct (bump_loop_spec (drop lv us) lv h2) as (h3 & E3 & Hm3 & Hc3).
  { intros j u r. rewrite at_level_drop. case_decide; [|done]. intros Ej.
    destruct (Hup j u r Ej) as (Hux & _ & Hcu); [apply lookup_lt_Some in Ej; lia|].
    rewrite Hc2, at_level_take, decide_False by lia. by rewrite Hcu. }
  exists h2, h3. split; [done|]. split; [done|]. split; [intros; by rewrite Hm3, Hm2|]. split.
  2: { intros y i Hi Hyx. rewrite Hc3, at_level_drop, Hc2, at_level_take, (lookup_ge_None_2 us i) by lia.
       repeat case_decide; by apply Hc1. }
  intros y j u Ej Hj. destruct (Hup j u _ Ej Hj) as (Hux & _ & Hcu).
  destruct (fwd_at k (Ent x lv s e) ns j Hk) as [Ef _]. rewrite Ef in Hcu.
  pose proof (lastpos_le j ns k). pose proof (fwd_span_nonneg j (drop k ns)).
  pose proof (fwd_span_le j (drop k ns)) as Hsl. rewrite length_drop in Hsl. subst new.
  rewrite Hc3, at_level_drop, Hc2, at_level_take. cbn [fwd eheight eptr].
  set (F := fwd j (drop k ns)) in *.
  destruct (decide (j < lv)%nat) as [Hjl|Hjl].
  - rewrite (decide_False (P := (lv ≤ j)%nat)) by lia. rewrite Ej.
    rewrite (uwrap_small 32 (Z.of_nat k - _)) by (unfold in_u; lia).
    destruct (decide (y = x)) as [->|Hyx].
    + rewrite Hcu. simpl. rewrite uwrap_small by (unfold in_u; lia).
      f_equal. rewrite (surjective_pairing F) at 3. f_equal. lia.
    + destruct (decide (y = u)) as [->|]; [|by apply Hc1].
      rewrite uwrap_small by (unfold in_u; lia). simpl. do 2 f_equal. lia.
  - rewrite (decide_True (P := (lv ≤ j)%nat)) by lia. rewrite Ej.
    destruct (decide (y = x)) as [->|Hyx]; [by rewrite decide_False|].
    destruct (decide (y = u)) as [->|]; [|by apply Hc1].
    rewrite Hcu. simpl. rewrite uwrap_small by (unfold in_u; lia). do 2 f_equal. lia.
Qed.

(** Hence the cells are those of the list with the new entry. *)
Lemma insert_cells h zsl ns us k lv x s e : zsl_links h zsl ns → upd_ok zsl ns us k →
  length us = zlevel zsl → (1 ≤ lv ≤ zlevel zsl)%nat → (k ≤ length ns)%nat →
  Z.of_nat (length ns) < 2 ^ 32 - 1 → h !! x = None →
  let h1 := <[x := zslCreateNode lv s (Some e)]> h in
  let ns' := ins k (Ent x lv s e) ns in
  ∃ h2 h3, link_loop (take lv us) 0 h1 x (Z.of_nat k) = Some h2 ∧
    bump_loop (drop lv us) lv h2 = Some h3 ∧
    (∀ y, meta_at h3 y = meta_at h1 y) ∧
    (∀ p y hp i, ptrs zsl ns' !! p = Some y → heights ns' !! p = Some hp → (i < hp)%nat →
       (i < zlevel zsl)%nat → cell h3 y i = Some (fwd i (drop p ns'))) ∧
    (∀ y i, (zlevel zsl ≤ i)%nat → y ≠ x → cell h3 y i = cell h y i).
Proof.
  intros Hl Hu Hlu Hlv Hk Hsmall Hx h1 ns'. pose proof (links_fresh _ _ _ _ Hl Hx) as Hfresh.
  destruct (link_cells h zsl ns us k lv x s e) as (h2 & h3 & E2 & E3 & Hm & Hcell & Hhigh); try done.
  exists h2, h3. split_and!; try done.
  intros p y hp j Hp Hhp Hj Hjz. destruct (upd_cells h zsl ns us k Hl Hu j Hjz) as (u & Ej & Hpu & _).
  rewrite (Hcell y j u Ej Hjz). unfold ptrs, heights in Hp, Hhp. subst ns'.
  pose proof (l_nodup _ _ _ Hl) as Hnd. pose proof (lastpos_le j ns k).
  destruct (decide (p ≤ k)%nat) as [Hpk|Hpk]; [|destruct (decide (p = S k)) as [->|Hne]].
  - rewrite ins_lookup_before in Hp by lia. rewrite ins_lookup_before in Hhp by lia.
    assert (y ≠ x) by (intros ->; apply Hfresh; by eapply list_elem_of_lookup_2).
    rewrite (decide_False (P := y = x)) by done.
    destruct (decide (p = lastpos j ns k)) as [->|Hpl].
    + change (ptrs zsl ns !! lastpos j ns k = Some y) in Hp. rewrite Hp in Hpu. simplify_eq.
      rewrite decide_True by done. symmetry. f_equal. by apply fwd_at.
    + rewrite decide_False; [|intros ->; apply Hpl; by eapply NoDup_lookup].
      rewrite (fwd_before k _ ns j p hp) by done. by apply (l_cells _ _ _ Hl p y hp).
  - rewrite ins_lookup_at in Hp by done. rewrite ins_lookup_at in Hhp by done. simpl in *. simplify_eq.
    rewrite decide_True, decide_True by done. by rewrite ins_drop_after by lia.
  - destruct p as [|p]; [lia|]. rewrite ins_lookup_after in Hp by lia. rewrite ins_lookup_after in Hhp by lia.
    assert (y ≠ x) by (intros ->; apply Hfresh; by eapply list_elem_of_lookup_2).
    rewrite (decide_False (P := y = x)) by done. rewrite decide_False.
    2: { intros ->. assert (p = lastpos j ns k) by (by eapply NoDup_lookup). lia. }
    rewrite ins_drop_after by lia. by apply (l_cells _ _ _ Hl p y hp).
Qed.

End insertion.

Section insertion2.
Context {R : Type} `{Score R}.
Implicit Types h : heap R.
Implicit Types ns : list (entry R).

Lemma set_backward_spec h y n b : h !! y = Some n →
  let h' := <[y := set_backward n b]> h in
  (∀ z j, cell h' z j = cell h z j) ∧ (∀ z, z ≠ y → meta_at h' z = meta_at h z) ∧
  meta_at h' y = Some (ele n, score n, b, length (level n)).
Proof.
  intros Hy h'. subst h'. unfold cell, meta_at. split_and!.
  - intros z j. destruct (decide (z = y)) as [->|]; [by rewrite lookup_insert_eq, Hy|by rewrite lookup_insert_ne].
  - intros z Hz. by rewrite lookup_insert_ne.
  - by rewrite lookup_insert_eq.
Qed.

Lemma ins_perm k (e : entry R) ns : ins k e ns ≡ₚ e :: ns.
Proof. unfold ins. rewrite <- Permutation_middle, take_drop. done. Qed.

Lemma ins_lookup_lt k (e : entry R) ns p : (p < k ≤ length ns)%nat → ins k e ns !! p = ns !! p.
Proof. intros. unfold ins. rewrite lookup_app_l, lookup_take_lt by (rewrite ?length_take; lia). done. Qed.

Lemma ins_lookup_eq k (e : entry R) ns : (k ≤ length ns)%nat → ins k e ns !! k = Some e.
Proof.
  intros. unfold ins. rewrite lookup_app_r, length_take by (rewrite length_take; lia).
  by replace (k - k `min` length ns)%nat with 0%nat by lia.
Qed.

Lemma ins_lookup_gt k (e : entry R) ns p : (k ≤ p)%nat → (k ≤ length ns)%nat → ins k e ns !! S p = ns !! p.
Proof.
  intros. unfold ins. rewrite lookup_app_r, length_take by (rewrite length_take; lia).
  replace (S p - k `min` length ns)%nat with (S (p - k)) by lia. simpl. rewrite lookup_drop. f_equal. lia.
Qed.

(** The entries before position [p] after an insertion at [k]. *)
Lemma prev_ptr_ins k (e : entry R) ns p : (k ≤ length ns)%nat →
  prev_ptr (ins k e ns) p =
    if decide (p ≤ k)%nat then prev_ptr ns p
    else if decide (p = S k) then Some (eptr e) else prev_ptr ns (p - 1).
Proof.
  intros Hk. destruct p as [|q]; [done|]. simpl prev_ptr at 1. repeat case_decide; try lia.
  - simpl. rewrite ins_lookup_lt by lia. done.
  - simplify_eq. rewrite ins_lookup_eq by done. done.
  - destruct q as [|q]; [lia|]. rewrite ins_lookup_gt by lia. simpl. done.
Qed.

Lemma last_ins k (e : entry R) ns : (k ≤ length ns)%nat →
  last (ins k e ns) = if decide (k = length ns) then Some e else last ns.
Proof.
  intros Hk. rewrite !last_lookup, ins_length. simpl. case_decide.
  - subst. by rewrite ins_lookup_eq.
  - destruct (length ns) as [|m] eqn:E; [lia|]. simpl. by rewrite ins_lookup_gt by lia.
Qed.

Lemma prev_ptr_upd h zsl ns k u : zsl_links h zsl ns → ptrs zsl ns !! k = Some u →
  (if decide (u = header zsl) then None else Some u) = prev_ptr ns k.
Proof.
  intros Hl Hu. destruct k as [|k]; simpl in *.
  - simplify_eq. by rewrite decide_True.
  - rewrite decide_False; [by rewrite list_lookup_fmap in Hu|]. intros ->.
    pose proof (l_nodup _ _ _ Hl) as Hnd. apply NoDup_cons in Hnd as [Hnin _]. apply Hnin.
    by eapply list_elem_of_lookup_2.
Qed.

(** The pointer of an entry is neither new nor the header. *)
Lemma old_ptr h zsl ns x p d : zsl_links h zsl ns → h !! x = None → ns !! p = Some d →
  eptr d ≠ x ∧ eptr d ≠ header zsl.
Proof.
  intros Hl Hx Hd. assert (eptr d ∈ eptr <$> ns) as Hin.
  { apply list_elem_of_fmap. exists d. split; [done|]. by eapply list_elem_of_lookup_2. }
  pose proof (l_nodup _ _ _ Hl) as Hnd. apply NoDup_cons in Hnd as [Hn1 _].
  split; intros Eq; rewrite Eq in Hin; [|done]. apply (links_fresh _ _ _ _ Hl Hx). by right.
Qed.

(** The links of the list with one more entry, from its cells and nodes. *)
Lemma links_ins h h5 zsl ns k new t : zsl_links h zsl ns → (k ≤ length ns)%nat →
  Z.of_nat (length ns) < 2 ^ 32 - 1 → h !! eptr new = None → (1 ≤ eheight new ≤ zlevel zsl)%nat →
  (∀ p y hp i, ptrs zsl (ins k new ns) !! p = Some y → heights (ins k new ns) !! p = Some hp →
     (i < hp)%nat → (i < zlevel zsl)%nat → cell h5 y i = Some (fwd i (drop p (ins k new ns)))) →
  (∀ i, (zlevel zsl ≤ i)%nat → cell h5 (header zsl) i = cell h (header zsl) i) →
  meta_at h5 (eptr new) = Some (Some (eele new), escore new, prev_ptr ns k, eheight new) →
  (∀ p d, ns !! p = Some d → meta_at h5 (eptr d) =
    Some (Some (eele d), escore d, if decide (p = k) then Some (eptr new) else prev_ptr ns p, eheight d)) →
  meta_at h5 (header zsl) = meta_at h (header zsl) → t = eptr <$> last (ins k new ns) →
  zsl_links h5 (Zsl (header zsl) t (u64 (zlength zsl + 1)) (zlevel zsl)) (ins k new ns).
Proof.
  intros Hl Hk Hsmall Hx Hlv Hc Hhigh Hm5 Hn5 Hh5 ->. pose proof (l_level _ _ _ Hl).
  pose proof (links_fresh _ _ _ _ Hl Hx) as Hfresh.
  constructor; cbn [zlevel header tail_ zlength]; try done.
  - unfold ptrs. cbn [header]. rewrite ins_perm. simpl.
    assert (NoDup (eptr new :: ptrs zsl ns)) as Hnd by (apply NoDup_cons; split; [done|apply (l_nodup _ _ _ Hl)]).
    unfold ptrs in Hnd. by rewrite Permutation_swap in Hnd.
  - intros i Hi. rewrite Hhigh by lia. apply (l_high _ _ _ Hl). lia.
  - rewrite Hh5. apply (l_header _ _ _ Hl).
  - intros p d Hd. rewrite prev_ptr_ins by done.
    destruct (decide (p < k)%nat); [|destruct (decide (p = k)) as [->|]].
    + rewrite ins_lookup_lt in Hd by lia. rewrite (Hn5 _ _ Hd), decide_False, decide_True by lia. done.
    + rewrite ins_lookup_eq in Hd by done. injection Hd as <-. rewrite Hm5, decide_True by lia. done.
    + destruct p as [|p]; [lia|]. rewrite ins_lookup_gt in Hd by lia. rewrite (Hn5 _ _ Hd).
      rewrite (decide_False (P := (S p ≤ k)%nat)) by lia. repeat case_decide; try lia; try done.
      by replace (S p - 1)%nat with p by lia.
  - rewrite ins_perm. constructor; [done|]. apply (l_heights _ _ _ Hl).
  - rewrite ins_length, (l_length _ _ _ Hl), uwrap_small by (unfold in_u; lia). lia.
Qed.

(** Linking a node of a level that exists. *)
Lemma insert_at_level h zsl ns us k lv s e x : zsl_links h zsl ns → upd_ok zsl ns us k →
  length us = zlevel zsl → (1 ≤ lv ≤ zlevel zsl)%nat → (k ≤ length ns)%nat →
  Z.of_nat (length ns) < 2 ^ 32 - 1 → h !! x = None →
  ∃ h' zsl',
    ('(u0, rank0) ← us !! 0%nat;
     h ← link_loop (take lv us) 0 (<[x := zslCreateNode lv s (Some e)]> h) x rank0;
     h ← bump_loop (drop lv us) lv h;
     nx ← h !! x;
     let h := <[x := set_backward nx (if decide (u0 = header zsl) then None else Some u0)]> h in
     '(forward, _) ← cell h x 0;
     '(h, zsl) ← match forward with
                 | Some y => ny ← h !! y; Some (<[y := set_backward ny (Some x)]> h, zsl)
                 | None => Some (h, set_tail zsl (Some x))
                 end;
     Some (h, set_zlength zsl (u64 (zlength zsl + 1)), x)) = Some (h', zsl', x) ∧
    zsl_links h' zsl' (ins k (Ent x lv s e) ns) ∧ zlevel zsl' = zlevel zsl ∧ header zsl' = header zsl.
Proof.
  intros Hl Hu Hlu Hlv Hk Hsmall Hx. set (new := Ent x lv s e).
  pose proof (l_level _ _ _ Hl) as Hlev. pose proof (links_fresh _ _ _ _ Hl Hx) as Hfresh.
  assert (Hh1 : Forall (λ e, (1 ≤ eheight e)%nat) ns)
    by (eapply Forall_impl; [apply (l_heights _ _ _ Hl)|]; simpl; lia).
  destruct (insert_cells h zsl ns us k lv x s e) as (h2 & h3 & E2 & E3 & Hm & Hc & Hhigh); try done.
  destruct (proj2 Hu 0%nat) as (u0 & Eu0 & Hpu0); [lia|]. rewrite lastpos_0 in Eu0, Hpu0 by done.
  rewrite Eu0. cbn [mbind option_bind]. rewrite E2. cbn [mbind option_bind]. rewrite E3. cbn [mbind option_bind].
  assert (Hmx : meta_at h3 x = Some (Some e, s, None, lv)).
  { rewrite Hm. unfold meta_at. rewrite lookup_insert_eq. simpl. unfold meta. simpl. by rewrite length_replicate. }
  destruct (meta_node _ _ _ _ _ _ Hmx) as (nx & Hnx & En1 & En2 & En3 & En4). rewrite Hnx.
  cbn [mbind option_bind].
  destruct (set_backward_spec h3 x nx (if decide (u0 = header zsl) then None else Some u0) Hnx)
    as (Hc4 & Hm4 & Hm4x).
  rewrite (prev_ptr_upd h zsl ns k u0 Hl Hpu0) in *.
  set (h4 := <[x := set_backward nx (prev_ptr ns k)]> h3) in *. rewrite En1, En2, En4 in Hm4x.
  assert (Hmeta : ∀ y, y ≠ x → meta_at h4 y = meta_at h y).
  { intros y Hy. rewrite Hm4, Hm by done. unfold meta_at. by rewrite lookup_insert_ne. }
  assert (Hxc : cell h4 x 0 = Some (fwd 0 (drop k ns))).
  { rewrite Hc4. rewrite (Hc (S k) x lv 0%nat); [by rewrite ins_drop_after by lia| | |lia|lia].
    - apply (ins_lookup_at eptr (header zsl) k new ns Hk).
    - apply (ins_lookup_at eheight _ k new ns Hk). }
  rewrite Hxc, fwd0 by done.
  assert (Hgoal : ∀ h5 t, (∀ z j, cell h5 z j = cell h4 z j) → meta_at h5 x = meta_at h4 x →
    (∀ p d, ns !! p = Some d → meta_at h5 (eptr d) =
      Some (Some (eele d), escore d, if decide (p = k) then Some x else prev_ptr ns p, eheight d)) →
    meta_at h5 (header zsl) = meta_at h4 (header zsl) → t = eptr <$> last (ins k new ns) →
    zsl_links h5 (Zsl (header zsl) t (u64 (zlength zsl + 1)) (zlevel zsl)) (ins k new ns)).
  { intros h5 t Hc5 Hm5 Hn5 Hh5 Ht. assert (header zsl ≠ x) by (intros Eq; apply Hfresh; rewrite <- Eq; left).
    apply (links_ins h); try done.
    - intros p y hp i Hp Hhp Hi Hiz. rewrite Hc5, Hc4. by apply (Hc p y hp i).
    - intros i Hi. by rewrite Hc5, Hc4, Hhigh.
    - change (eptr new) with x. by rewrite Hm5, Hm4x.
    - by rewrite Hh5, Hmeta. }
  pose proof (λ p d, old_ptr h zsl ns x p d Hl Hx) as Hold.
  destruct (ns !! k) as [d|] eqn:Ed; cbn [mbind option_bind].
  - destruct (Hold _ _ Ed) as [Hdx Hdh].
    assert (Hmd : meta_at h4 (eptr d) = Some (Some (eele d), escore d, prev_ptr ns k, eheight d))
      by (rewrite Hmeta by done; by apply (l_nodes _ _ _ Hl)).
    destruct (meta_node _ _ _ _ _ _ Hmd) as (nd & Hnd & N1 & N2 & N3 & N4). rewrite Hnd. cbn [mbind option_bind].
    destruct (set_backward_spec h4 (eptr d) nd (Some x) Hnd) as (Hc5 & Hm5 & Hm5d).
    eexists _, _. split; [done|]. split; [|done]. apply Hgoal; try done.
    + by rewrite Hm5.
    + intros p d' Hd'. destruct (decide (p = k)) as [->|Hpk].
      * rewrite Ed in Hd'. simplify_eq. by rewrite Hm5d, N1, N2, N4.
      * rewrite Hm5; [rewrite Hmeta by (by eapply Hold); by apply (l_nodes _ _ _ Hl)|].
        intros Eq. apply Hpk. pose proof (l_nodup _ _ _ Hl) as Hnd'. apply NoDup_cons in Hnd' as [_ Hnd'].
        eapply NoDup_lookup; [exact Hnd'| |]; rewrite list_lookup_fmap; [by rewrite Hd'|by rewrite Ed; simpl; rewrite Eq].
    + by rewrite Hm5.
    + apply lookup_lt_Some in Ed. rewrite last_ins, decide_False by lia. apply (l_tail _ _ _ Hl).
  - apply lookup_ge_None in Ed. eexists _, _. split; [done|]. split; [|done]. apply Hgoal; try done.
    + intros p d' Hd'. pose proof (lookup_lt_Some _ _ _ Hd'). rewrite decide_False by lia.
      rewrite Hmeta by (by eapply Hold). by apply (l_nodes _ _ _ Hl).
    + by rewrite last_ins, decide_True by lia.
Qed.

End insertion2.

Section insertion3.
Context {R : Type} `{Score R}.
Implicit Types h : heap R.
Implicit Types ns : list (entry R).

Lemma sorted_ins k (new : entry R) ns : StronglySorted entry_lt ns → (k ≤ length ns)%nat →
  (∀ p d, ns !! p = Some d → if decide (p < k)%nat then entry_lt d new else entry_lt new d) →
  StronglySorted entry_lt (ins k new ns).
Proof.
  intros Hs. revert k. induction Hs as [|a l Hs IH Hf]; intros k Hk Hc; unfold ins.
  - rewrite take_nil, drop_nil. repeat constructor.
  - destruct k as [|k].
    + simpl. constructor; [by constructor|]. apply Forall_lookup. intros p d Hd. by apply (Hc p d).
    + simpl. constructor.
      * apply IH; [simpl in Hk; lia|]. intros p d Hd. specialize (Hc (S p) d Hd). repeat case_decide; try lia; done.
      * change (Forall (entry_lt a) (ins k new l)). rewrite ins_perm. constructor; [|done].
        by specialize (Hc 0%nat a eq_refl).
Qed.

(** Entries that are not below the key are above it when the element is new. *)
Lemma not_lt_key s e d : ltb d (key s e) = false → eele d ≠ e → entry_lt (key s e) d.
Proof.
  intros Hn Hne. unfold entry_lt. cbn [escore eele key].
  assert (Hn' : ¬ entry_lt d (key s e)) by (rewrite <- ltb_spec; congruence).
  destruct (score_cases (escore d) s) as [Hlt|[Heq|Hgt]]; [|right|by left].
  - exfalso. apply Hn'. by left.
  - split; [by rewrite seqb_sym|]. destruct (bytes_lt_total (eele d) e) as [Hb|[Hb|Hb]]; try done.
    exfalso. apply Hn'. by right.
Qed.

Lemma insert_spec h zsl ns lv s e : zsl_rep h zsl ns → e ∉ (eele <$> ns) →
  (1 ≤ lv ≤ ZSKIPLIST_MAXLEVEL)%nat → Z.of_nat (length ns) + 1 < 2 ^ 32 - 1 →
  ∃ h' zsl' x k, zslInsert h zsl lv s e = Some (h', zsl', x) ∧ (k ≤ length ns)%nat ∧
    zsl_rep h' zsl' (ins k (Ent x lv s e) ns) ∧ h !! x = None ∧ header zsl' = header zsl.
Proof.
  intros [Hl Ht Hs Hb] He Hlv Hsm. unfold zslInsert.
  destruct (key_lt_cond h ns zsl 32 s e Hl Hs) as (k & Hc & HP); [lia|].
  destruct (zsl_search_spec h zsl ns 32 (key_lt s e) k Hl Hc) as (x0 & us & -> & _ & Hlu & Hu & _).
  cbn [mbind option_bind]. pose proof (proj1 Hc) as Hk.
  assert (Hsort : ∀ x, StronglySorted entry_lt (ins k (Ent x lv s e) ns)).
  { intros x. apply sorted_ins; [done|done|]. intros p d Hd. specialize (HP p d Hd).
    destruct (decide (p < k)%nat).
    - rewrite bool_decide_true in HP by done. apply ltb_spec in HP. exact HP.
    - rewrite bool_decide_false in HP by done. apply (not_lt_key s e d HP).
      intros <-. apply He. apply list_elem_of_fmap. exists d. split; [done|]. by eapply list_elem_of_lookup_2. }
  assert (Hfin : ∀ h1 zsl1 us1, zsl_links h1 zsl1 ns → upd_ok zsl1 ns us1 k → length us1 = zlevel zsl1 →
    (lv ≤ zlevel zsl1)%nat → (∀ y, meta_at h1 y = None → h !! y = None) →
    (zlevel zsl1 = lv ∨ zsl_top zsl1 ns) → header zsl1 = header zsl →
    ∃ h' zsl' x k', (let x := fresh (dom h1 : gset ptr) in
     let h := <[x := zslCreateNode lv s (Some e)]> h1 in
     '(u0, rank0) ← us1 !! 0%nat;
     h ← link_loop (take lv us1) 0 h x rank0;
     h ← bump_loop (drop lv us1) lv h;
     nx ← h !! x;
     let h := <[x := set_backward nx (if decide (u0 = header zsl1) then None else Some u0)]> h in
     '(forward, _) ← cell h x 0;
     '(h, zsl) ← match forward with
                 | Some y => ny ← h !! y; Some (<[y := set_backward ny (Some x)]> h, zsl1)
                 | None => Some (h, set_tail zsl1 (Some x))
                 end;
     Some (h, set_zlength zsl (u64 (zlength zsl + 1)), x)) = Some (h', zsl', x) ∧ (k' ≤ length ns)%nat ∧
    zsl_rep h' zsl' (ins k' (Ent x lv s e) ns) ∧ h !! x = None ∧ header zsl' = header zsl).
  { intros h1 zsl1 us1 Hl1 Hu1 Hlu1 Hlv1 Hmeta Htop Hhd. set (x := fresh (dom h1)). cbv zeta.
    assert (Hx : h1 !! x = None) by (apply not_elem_of_dom; apply is_fresh).
    destruct (insert_at_level h1 zsl1 ns us1 k lv s e x) as (h' & zsl' & E & Hl' & El & Eh); try done; try lia.
    cbv zeta in E. exists h', zsl', x, k. split; [exact E|]. split; [done|]. split_and!.
    - split; [done| |apply Hsort|rewrite ins_length; lia]. unfold zsl_top. rewrite El.
      destruct Htop as [->|[->|Hex]]; [right|by left|right]; rewrite ins_perm; [by left|by right].
    - apply Hmeta. unfold meta_at. by rewrite Hx.
    - congruence. }
  destruct (decide (zlevel zsl < lv)%nat) as [Hgt|Hle].
  - destruct (raise_links h zsl ns lv k us Hl Hu Hlu) as (h1 & E1 & Hl1 & Hu1); [lia|].
    rewrite E1. cbn [mbind option_bind]. apply Hfin; try done.
    + rewrite length_app, length_replicate. simpl. lia.
    + intros y Hy. destruct (raise_loop_spec (lv - zlevel zsl) (zlevel zsl) h (header zsl) (zlength zsl))
        as (h1' & E1' & Hm & _).
      { intros j Hj. destruct (l_high _ _ _ Hl j) as [sp ->]; [lia|]. by eexists. }
      rewrite E1 in E1'. simplify_eq. rewrite Hm in Hy. unfold meta_at in Hy. by destruct (h !! y).
    + by left.
  - cbn [mbind option_bind]. apply Hfin; try done; try lia.
    + intros y Hy. unfold meta_at in Hy. by destruct (h !! y).
    + by right.
Qed.

End insertion3.

(** ** Deletion *)

Section deletion.
Context {R : Type} `{Score R}.
Implicit Types h : heap R.
Implicit Types ns base : list (entry R).

Lemma fwd_ptr_in j ns y : (fwd j ns).1 = Some y → y ∈ eptr <$> ns.
Proof.
  induction ns as [|e ns IH]; simpl; [done|]. destruct (decide _); simpl.
  - intros [= <-]. left.
  - intros E. right. by apply IH.
Qed.

Lemma lower_level_spec h hd base lv : (1 ≤ lv)%nat →
  (∀ i, (i < lv)%nat → cell h hd i = Some (fwd i base)) →
  Forall (λ e, (eheight e ≤ lv)%nat) base →
  ∃ lv', lower_level h hd lv = Some lv' ∧ (1 ≤ lv' ≤ lv)%nat ∧
    Forall (λ e, (eheight e ≤ lv')%nat) base ∧ (lv' = 1%nat ∨ Exists (λ e, eheight e = lv') base).
Proof.
  intros Hlv. induction lv as [|lv IH]; intros Hc Hh; [lia|]. destruct lv as [|lv].
  { exists 1%nat. split; [done|]. split; [lia|]. split; [done|by left]. }
  change (lower_level h hd (S (S lv))) with
    ('(forward, _) ← cell h hd (S lv);
     match forward with None => lower_level h hd (S lv) | Some _ => Some (S (S lv)) end).
  rewrite Hc by lia. cbn [mbind option_bind].
  destruct (fwd_cases (S lv) base) as [[Hf ->]|(a & e & b & -> & Ha & He & ->)].
  - destruct IH as (lv' & -> & ? & ? & ?); [lia|intros; apply Hc; lia|done|].
    exists lv'. split_and!; try done; lia.
  - eexists. split; [done|]. split_and!; [lia|done|done|]. right. apply Exists_app. right. left.
    rewrite Forall_app, Forall_cons in Hh. lia.
Qed.

(** The node [d] at position [k] and the nodes that lead to it. *)
Lemma unlink_upd h zsl base us k d : (k ≤ length base)%nat →
  zsl_links h zsl (ins k d base) → upd_ok zsl (ins k d base) us k →
  eptr d ∉ eptr <$> drop k base ∧
  (∀ j, (j < eheight d)%nat → (j < zlevel zsl)%nat → cell h (eptr d) j = Some (fwd j (drop k base))) ∧
  (∀ j u r, us !! j = Some (u, r) → (j < zlevel zsl)%nat →
    u ≠ eptr d ∧ ptrs zsl (ins k d base) !! lastpos j base k = Some u ∧
    cell h u j = Some ((fwd j (d :: drop k base)).1,
                       (fwd j (d :: drop k base)).2 + Z.of_nat (k - lastpos j base k))).
Proof.
  intros Hk Hl Hu. set (ns := ins k d base) in *. set (x := eptr d).
  pose proof (l_nodup _ _ _ Hl) as Hnd.
  assert (Hpx : ptrs zsl ns !! S k = Some x) by (by apply (ins_lookup_at eptr)).
  assert (Hlp : ∀ j, lastpos j ns k = lastpos j base k) by (intros; apply lastpos_prefix, ins_take; done).
  split_and!.
  - intros Hin. assert (NoDup (eptr <$> ns)) as Hnd' by (by apply NoDup_cons in Hnd as [_ ?]).
    subst ns. unfold ins in Hnd'. rewrite fmap_app, fmap_cons in Hnd'. apply NoDup_app in Hnd' as (_ & _ & Hnd').
    by apply NoDup_cons in Hnd' as [? _].
  - intros j Hj Hjz. rewrite (l_cells _ _ _ Hl (S k) x (eheight d) j);
      [by subst ns; rewrite ins_drop_after by lia|done|by apply (ins_lookup_at eheight)|done|done].
  - intros j u r Ej Hj. destruct (upd_cells h zsl ns us k Hl Hu j Hj) as (u' & Ej' & Hp & Hc).
    rewrite Ej in Ej'. simplify_eq. rewrite Hlp in *. split_and!; [|done|].
    + intros ->. assert (lastpos j base k = S k) by (by eapply NoDup_lookup). pose proof (lastpos_le j base k). lia.
    + rewrite Hc. f_equal. by apply fwd_at.
Qed.

(** What unlinking the node at position [k] writes. *)
Lemma unlink_cells h zsl base us k d : (k ≤ length base)%nat → Z.of_nat (length base) < 2 ^ 32 - 1 →
  zsl_links h zsl (ins k d base) → upd_ok zsl (ins k d base) us k →
  ∃ h', unlink_loop (take (zlevel zsl) us) 0 h (eptr d) = Some h' ∧ (∀ y, meta_at h' y = meta_at h y) ∧
    (∀ p y hp i, ptrs zsl base !! p = Some y → heights base !! p = Some hp → (i < hp)%nat →
       (i < zlevel zsl)%nat → cell h' y i = Some (fwd i (drop p base))) ∧
    (∀ y i, (zlevel zsl ≤ i)%nat → cell h' y i = cell h y i) ∧
    (∀ i, cell h' (eptr d) i = cell h (eptr d) i).
Proof.
  intros Hk Hsmall Hl Hu. set (ns := ins k d base) in *. set (x := eptr d).
  pose proof (l_nodup _ _ _ Hl) as Hnd.
  destruct (unlink_upd h zsl base us k d Hk Hl Hu) as (Hnin & Hcx & Hup). fold ns x in Hnin, Hcx, Hup.
  destruct (unlink_loop_spec x (take (zlevel zsl) us) 0 h) as (h' & E & Hm & Hc).
  { intros j u r. rewrite at_level_take. case_decide as Hj; [|done]. intros Ej.
    destruct (Hup j u r Ej Hj) as (Hux & _ & Hcu). split; [done|]. eexists _, _. split; [exact Hcu|].
    cbn [fwd]. destruct (decide (j < eheight d)%nat) as [Hjd|]; [by rewrite Hcx|]. simpl.
    intros Hin%fwd_ptr_in. done. }
  exists h'. split; [done|]. split; [done|]. split_and!.
  - intros p y hp j Hp Hhp Hj Hjz. destruct (upd_cells h zsl ns us k Hl Hu j Hjz) as (u & Ej & _).
    rewrite Hc, at_level_take, decide_True by done. rewrite Ej.
    destruct (Hup j u _ Ej Hjz) as (Hux & Hpu & Hcu). pose proof (lastpos_le j base k) as Hle.
    set (q := lastpos j base k) in *. set (p' := if decide (p ≤ k)%nat then p else S p).
    assert (Hp' : ptrs zsl ns !! p' = Some y ∧ heights ns !! p' = Some hp).
    { subst p'. unfold ptrs, heights, ns. case_decide.
      - by rewrite !ins_lookup_before by lia.
      - by rewrite !ins_lookup_after by lia. }
    destruct (decide (y = u)) as [->|Hne].
    + assert (p' = q) as Ep by (eapply NoDup_lookup; [exact Hnd|apply Hp'|done]).
      assert (p = q) as -> by (subst p'; case_decide; lia).
      pose proof (proj1 (fwd_at k d base j Hk)) as Ef. cbv zeta in Ef. fold q in Ef. rewrite Ef, Hcu. cbn [mbind option_bind fst snd].
      pose proof (fwd_span_nonneg j (drop k base)). pose proof (fwd_span_le j (drop k base)) as Hsl.
      rewrite length_drop in Hsl. cbn [fwd].
      destruct (decide (j < eheight d)%nat) as [Hjd|Hjd]; cbn [fst snd].
      * rewrite decide_True, Hcx by done. simpl. rewrite uwrap_small by (unfold in_u; lia). do 2 f_equal. lia.
      * rewrite decide_False by (intros Hin%fwd_ptr_in; done). rewrite uwrap_small by (unfold in_u; lia).
        do 2 f_equal. lia.
    + rewrite (l_cells _ _ _ Hl p' y hp j) by (done || apply Hp'). subst p'. case_decide as Hpk.
      * f_equal. apply (fwd_before k d base j p hp); try done. intros Eq. apply Hne. destruct Hp' as [Hp' _].
        rewrite Eq in Hp'. fold q in Hp'. congruence.
      * subst ns. by rewrite ins_drop_after by lia.
  - intros y i Hi. rewrite Hc, at_level_take. by rewrite decide_False by lia.
  - intros i. rewrite Hc, at_level_take. case_decide as Hi; [|done].
    destruct (us !! i) as [[u r]|] eqn:Ei; [|done]. destruct (Hup i u r Ei Hi) as (Hux & _).
    by rewrite decide_False.
Qed.

(** The nodes of the remaining entries, seen from the list without [d]. *)
Lemma base_nodes h zsl base k d p e : (k ≤ length base)%nat → zsl_links h zsl (ins k d base) →
  base !! p = Some e → meta_at h (eptr e) =
    Some (Some (eele e), escore e, if decide (p = k) then Some (eptr d) else prev_ptr base p, eheight e).
Proof.
  intros Hk Hl He. destruct (decide (p < k)%nat).
  - rewrite (l_nodes _ _ _ Hl p e) by (by rewrite ins_lookup_lt by lia).
    rewrite prev_ptr_ins, decide_True, decide_False by lia. done.
  - rewrite (l_nodes _ _ _ Hl (S p) e) by (by rewrite ins_lookup_gt by lia).
    rewrite prev_ptr_ins, (decide_False (P := (S p ≤ k)%nat)) by lia. repeat case_decide; try lia; try done.
    by replace (S p - 1)%nat with p by lia.
Qed.

Lemma base_ptrs zsl base k d : NoDup (ptrs zsl (ins k d base)) →
  eptr d ∉ ptrs zsl base ∧ NoDup (ptrs zsl base).
Proof.
  intros Hnd. unfold ptrs in *. rewrite ins_perm in Hnd. simpl in Hnd.
  rewrite Permutation_swap in Hnd. by apply NoDup_cons in Hnd.
Qed.

(** The back pointer of the node behind [d], or the tail. *)
Lemma next_backward h1 zsl base k d (nx : zskiplistNode R) : (k ≤ length base)%nat → NoDup (ptrs zsl (ins k d base)) →
  backward nx = prev_ptr base k → tail_ zsl = eptr <$> last (ins k d base) →
  (∀ p e, base !! p = Some e → meta_at h1 (eptr e) =
    Some (Some (eele e), escore e, if decide (p = k) then Some (eptr d) else prev_ptr base p, eheight e)) →
  ∃ h2 t, match (match base !! k with Some e => Some (eptr e) | None => None end) with
      | Some y => ny ← h1 !! y; Some (<[y := set_backward ny (backward nx)]> h1, zsl)
      | None => Some (h1, set_tail zsl (backward nx)) end = Some (h2, set_tail zsl t) ∧
    (∀ z j, cell h2 z j = cell h1 z j) ∧ dom h2 = dom h1 ∧
    (∀ z, z ∉ eptr <$> base → meta_at h2 z = meta_at h1 z) ∧
    (∀ p e, base !! p = Some e →
       meta_at h2 (eptr e) = Some (Some (eele e), escore e, prev_ptr base p, eheight e)) ∧
    t = eptr <$> last base.
Proof.
  intros Hk Hnd Eb Et Hold. destruct (base_ptrs _ _ _ _ Hnd) as [_ Hndb].
  apply NoDup_cons in Hndb as [_ Hndb]. rewrite last_ins in Et by done.
  destruct (base !! k) as [f|] eqn:Ef.
  - pose proof (Hold _ _ Ef) as Hmf. rewrite decide_True in Hmf by done.
    destruct (meta_node _ _ _ _ _ _ Hmf) as (nf & Hnf & N1 & N2 & _ & N4). rewrite Hnf. cbn [mbind option_bind].
    destruct (set_backward_spec h1 (eptr f) nf (backward nx) Hnf) as (Hc2 & Hm2 & Hm2f).
    apply lookup_lt_Some in Ef as Hlt. rewrite decide_False in Et by lia.
    eexists _, (tail_ zsl). split; [by destruct zsl|]. split_and!; try done.
    + rewrite dom_insert_L. apply subseteq_union_1_L. apply singleton_subseteq_l, elem_of_dom. by eexists.
    + intros z Hz. apply Hm2. intros ->. apply Hz, list_elem_of_fmap. exists f. split; [done|].
      by eapply list_elem_of_lookup_2.
    + intros p e He. destruct (decide (p = k)) as [->|Hne].
      * rewrite Ef in He. simplify_eq. by rewrite Hm2f, N1, N2, N4, Eb.
      * rewrite Hm2, (Hold _ _ He), decide_False by (done || (intros Eq; apply Hne;
          eapply NoDup_lookup; [exact Hndb| |]; rewrite list_lookup_fmap; [by rewrite He|by rewrite Ef; simpl; rewrite Eq])).
        done.
  - apply lookup_ge_None in Ef. assert (k = length base) as -> by lia.
    eexists _, (backward nx). split; [done|]. split_and!; try done.
    + intros p e He. rewrite (Hold _ _ He). apply lookup_lt_Some in He. by rewrite decide_False by lia.
    + rewrite Eb, last_lookup. destruct (length base) as [|m] eqn:El; [|done].
      by destruct base.
Qed.

(** [zslDeleteNode] removes the entry at position [k] from the list. *)
Lemma deletenode_spec h zsl base us k d : (k ≤ length base)%nat → Z.of_nat (length base) < 2 ^ 32 - 1 →
  zsl_links h zsl (ins k d base) → upd_ok zsl (ins k d base) us k →
  ∃ h' zsl', zslDeleteNode h zsl (eptr d) us = Some (h', zsl') ∧ zsl_links h' zsl' base ∧
    zsl_top zsl' base ∧ (zlevel zsl' ≤ zlevel zsl)%nat ∧ header zsl' = header zsl ∧
    (∃ b, meta_at h' (eptr d) = Some (Some (eele d), escore d, b, eheight d)) ∧
    eptr d ∉ ptrs zsl base ∧ dom h' = dom h.
Proof.
  intros Hk Hsmall Hl Hu. pose proof (l_level _ _ _ Hl) as Hlev.
  destruct (unlink_cells h zsl base us k d Hk Hsmall Hl Hu) as (h1 & E1 & Hm & Hc & Hhigh & Hcx).
  unfold zslDeleteNode. rewrite E1. cbn [mbind option_bind].
  destruct (base_ptrs _ _ _ _ (l_nodup _ _ _ Hl)) as [Hnin Hndb].
  assert (Hmx : meta_at h1 (eptr d) = Some (Some (eele d), escore d, prev_ptr base k, eheight d)).
  { rewrite Hm, (l_nodes _ _ _ Hl k d) by (by apply ins_lookup_eq).
    rewrite prev_ptr_ins, decide_True by done || lia. done. }
  destruct (meta_node _ _ _ _ _ _ Hmx) as (nx & Hnx & _ & _ & Eb & _). rewrite Hnx. cbn [mbind option_bind].
  assert (Hh : Forall (λ e, (1 ≤ eheight e ≤ zlevel zsl)%nat) (d :: base)).
  { rewrite <- (ins_perm k d base). apply (l_heights _ _ _ Hl). }
  apply Forall_cons in Hh as [Hhd Hhb].
  destruct (unlink_upd h zsl base us k d Hk Hl Hu) as (_ & Hcd & _).
  rewrite Hcx, Hcd, fwd0 by (lia || (eapply Forall_impl; [exact Hhb|simpl; lia])).
  destruct (next_backward h1 zsl base k d nx) as (h2 & t & Em & Hc2 & Hdom2 & Hm2 & Hm2e & Ht);
    [done|apply (l_nodup _ _ _ Hl)|done|apply (l_tail _ _ _ Hl)|intros; rewrite Hm; by eapply base_nodes|].
  destruct (lower_level_spec h2 (header zsl) base (zlevel zsl)) as (lv & Elv & Hlv & Hhl & Htop); [lia| |
    by eapply Forall_impl; [exact Hhb|simpl; lia]|].
  { intros i Hi. rewrite Hc2. apply (Hc 0%nat _ ZSKIPLIST_MAXLEVEL); try done. lia. }
  assert (Eres : ('(forward, _) ← Some match base !! k with Some e => (Some (eptr e), 1) | None => (None, 0) end;
    '(h, zsl) ← match forward with
              | Some y => ny ← h1 !! y; Some (<[y := set_backward ny (backward nx)]> h1, zsl)
              | None => Some (h1, set_tail zsl (backward nx))
              end;
    lv ← lower_level h (header zsl) (zlevel zsl);
    Some (h, set_zlength (set_zlevel zsl lv) (u64 (zlength zsl - 1)))) =
    Some (h2, set_zlength (set_zlevel (set_tail zsl t) lv) (u64 (zlength zsl - 1)))).
  { cbn [mbind option_bind]. destruct (base !! k) as [f|]; cbn iota in Em |- *; rewrite Em; cbn [mbind option_bind];
      change (header (set_tail zsl t)) with (header zsl); change (zlevel (set_tail zsl t)) with (zlevel zsl);
      rewrite Elv; done. }
  eexists h2, _. split; [exact Eres|]. split_and!; cbn; try done; try lia.
  - constructor; cbn [zlevel header tail_ zlength set_zlength set_zlevel set_tail]; try done.
    + intros p y hp i Hp Hhp Hi Hiv. rewrite Hc2. apply (Hc p y hp i); try done. lia.
    + intros i Hi. rewrite Hc2. destruct (decide (i < zlevel zsl)%nat).
      * rewrite (Hc 0%nat _ ZSKIPLIST_MAXLEVEL i) by (done || lia). simpl. rewrite fwd_nil_low; [by eexists|].
        eapply Forall_impl; [exact Hhl|]. simpl. lia.
      * rewrite Hhigh by lia. apply (l_high _ _ _ Hl). lia.
    + rewrite Hm2, Hm; [apply (l_header _ _ _ Hl)|]. by apply NoDup_cons in Hndb as [? _].
    + apply Forall_forall. intros e He. rewrite Forall_forall in Hhl, Hhb. specialize (Hhl _ He).
      specialize (Hhb _ He). simpl in *. lia.
    + lia.
    + rewrite (l_length _ _ _ Hl), ins_length, uwrap_small by (unfold in_u; lia). lia.
  - exists (prev_ptr base k). rewrite Hm2; [done|]. intros Hin. apply Hnin. by right.
  - rewrite Hdom2. apply set_eq. intros z. rewrite !elem_of_dom. specialize (Hm z). unfold meta_at in Hm.
    destruct (h1 !! z), (h !! z); try done.
Qed.

End deletion.

Section deletion2.
Context {R : Type} `{Score R}.
Implicit Types h : heap R.
Implicit Types ns base : list (entry R).

Lemma ins_delete k (d : entry R) ns : ns !! k = Some d → ns = ins k d (delete k ns).
Proof.
  intros Hd. apply lookup_lt_Some in Hd as Hlt. unfold ins. rewrite delete_take_drop.
  assert (length (take k ns) = k) as Hk by (rewrite length_take; lia).
  rewrite take_app_le, take_take, drop_app_ge, Hk, Nat.sub_diag by lia. simpl.
  replace (k `min` k)%nat with k by lia. symmetry. by apply take_drop_middle.
Qed.

Lemma delete_length k (d : entry R) ns : ns !! k = Some d → S (length (delete k ns)) = length ns.
Proof. intros Hd. rewrite (ins_delete k d ns Hd) at 2. by rewrite ins_length. Qed.

Lemma delete_bound k (d : entry R) ns : ns !! k = Some d → (k ≤ length (delete k ns))%nat.
Proof. intros Hd. pose proof (delete_length k d ns Hd). apply lookup_lt_Some in Hd. lia. Qed.

Lemma sorted_sublist (ns ns' : list (entry R)) : sublist ns' ns → StronglySorted entry_lt ns → StronglySorted entry_lt ns'.
Proof.
  intros Hsub Hs. induction Hsub as [|x l1 l2 Hsub IH|x l1 l2 Hsub IH]; [done| |].
  - inversion_clear Hs as [|? ? Hs' Hf]. constructor; [by apply IH|].
    rewrite Forall_forall in Hf |- *. intros y Hy. apply Hf. by eapply elem_of_sublist.
  - inversion_clear Hs. by apply IH.
Qed.

(** The links only depend on the nodes of the list. *)
Lemma links_ext h h' zsl ns : (∀ y, y ∈ ptrs zsl ns → h' !! y = h !! y) → zsl_links h zsl ns → zsl_links h' zsl ns.
Proof.
  intros He Hl. assert (Hm : ∀ y, y ∈ ptrs zsl ns → meta_at h' y = meta_at h y)
    by (intros y Hy; unfold meta_at; by rewrite He).
  assert (Hc : ∀ y i, y ∈ ptrs zsl ns → cell h' y i = cell h y i)
    by (intros y i Hy; unfold cell; by rewrite He).
  assert (Hhd : header zsl ∈ ptrs zsl ns) by left.
  destruct Hl. constructor; try done.
  - intros p x hp i Hp ???. rewrite Hc by (by eapply list_elem_of_lookup_2). eauto.
  - intros i Hi. rewrite Hc by done. auto.
  - rewrite Hm by done. done.
  - intros p e Hpe. rewrite Hm; [eauto|]. right. apply list_elem_of_fmap. exists e. split; [done|].
    by eapply list_elem_of_lookup_2.
Qed.

Lemma links_free h zsl ns y : y ∉ ptrs zsl ns → zsl_links h zsl ns → zsl_links (delete y h) zsl ns.
Proof.
  intros Hy. apply links_ext. intros z Hz. apply lookup_delete_ne. by intros ->.
Qed.

Lemma ptrs_header zsl zsl' ns : header zsl' = header zsl → ptrs zsl' ns = ptrs zsl ns.
Proof. unfold ptrs. by intros ->. Qed.

(** *** Finding an entry *)

Definition is_key (s : R) (e : list Z) (d : entry R) : bool :=
  seqb s (escore d) && (bytes_cmp (eele d) e =? 0).

Lemma is_key_spec s e d : is_key s e d = true ↔ seqb s (escore d) = true ∧ eele d = e.
Proof. unfold is_key. rewrite andb_true_iff, Z.eqb_eq, bytes_cmp_eq. done. Qed.

Lemma lt_key_eq a d s e : is_key s e d = true → ltb a (key s e) = ltb a d.
Proof.
  rewrite is_key_spec. intros [Hs He]. apply eq_true_iff_eq. rewrite !ltb_spec. unfold entry_lt. cbn [escore eele key].
  rewrite He. rewrite seqb_sym in Hs. split; intros [Hlt|[Heq Hb]].
  - left. eapply slt_seq_r; [done|]. by rewrite seqb_sym.
  - right. split; [|done]. eapply seqb_trans; [done|]. by rewrite seqb_sym.
  - left. by eapply slt_seq_r.
  - right. split; [|done]. by eapply seqb_trans.
Qed.

Lemma sorted_lookup ns i j a b : StronglySorted entry_lt ns → (i < j)%nat →
  ns !! i = Some a → ns !! j = Some b → entry_lt a b.
Proof.
  intros Hs Hij Ha Hb. rewrite <- (take_drop j ns) in Hs.
  eapply StronglySorted_app_1_elem_of; [exact Hs| |].
  - apply list_elem_of_lookup. exists i. by rewrite lookup_take_lt.
  - apply list_elem_of_lookup. exists 0%nat. by rewrite lookup_drop, Nat.add_0_r.
Qed.

(** The position of the first entry that is not below a key is the position of
    the key, if it is present. *)
Lemma key_position ns s e k : StronglySorted entry_lt ns →
  (∀ p d, ns !! p = Some d → ltb d (key s e) = bool_decide (p < k)%nat) →
  ∀ p d, ns !! p = Some d → is_key s e d = true → p = k.
Proof.
  intros Hs HP p d Hd Hk. pose proof (HP p d Hd) as Hp. rewrite (lt_key_eq d d s e Hk) in Hp.
  assert (ltb d d = false) as E by (apply not_true_is_false; rewrite ltb_spec; apply entry_lt_irrefl).
  rewrite E in Hp. symmetry in Hp. apply bool_decide_eq_false in Hp.
  destruct (decide (p = k)) as [|Hne]; [done|]. exfalso.
  destruct (lookup_lt_is_Some_2 ns k) as [a Ha]; [apply lookup_lt_Some in Hd; lia|].
  pose proof (HP k a Ha) as Hka. rewrite (lt_key_eq a d s e Hk), bool_decide_false in Hka by lia.
  assert (entry_lt a d) as Had by (apply (sorted_lookup ns k p); (done || lia)).
  apply ltb_spec in Had. congruence.
Qed.

(** The search of a key and the node it stops at. *)
Lemma find_key h zsl ns s e : zsl_rep h zsl ns →
  ∃ k x us, descend (zlevel zsl) (zfuel zsl) 64 (key_lt s e) h (header zsl) 0 = Some (x, Z.of_nat k, us) ∧
    upd_ok zsl ns us k ∧
    cell h x 0 = Some (match ns !! k with Some d => (Some (eptr d), 1) | None => (None, 0) end) ∧
    (∀ p d, ns !! p = Some d → is_key s e d = true → p = k).
Proof.
  intros [Hl _ Hs Hb]. destruct (key_lt_cond h ns zsl 64 s e Hl Hs) as (k & Hc & HP); [lia|].
  destruct (zsl_search_spec h zsl ns 64 (key_lt s e) k Hl Hc) as (x & us & E & _ & _ & Hu & Hx).
  exists k, x, us. split; [done|]. split; [done|]. split.
  - rewrite Hx, fwd0; [done|]. eapply Forall_impl; [apply (l_heights _ _ _ Hl)|]. simpl. lia.
  - by apply (key_position ns s e k).
Qed.

(** The test of the code on the node of an entry. *)
Lemma key_test h zsl ns p d s e : zsl_links h zsl ns → ns !! p = Some d →
  ∃ n, h !! eptr d = Some n ∧ seqb s (score n) && (cmp_ele n e =? 0) = is_key s e d ∧
    score n = escore d ∧ ele n = Some (eele d) ∧ backward n = prev_ptr ns p.
Proof.
  intros Hl Hd. destruct (meta_node _ _ _ _ _ _ (l_nodes _ _ _ Hl _ _ Hd)) as (n & Hn & E1 & E2 & E3 & _).
  exists n. split; [done|]. unfold is_key, cmp_ele. by rewrite E1, E2.
Qed.

(** Removing the entry at position [k] after the search that found it. *)
Lemma remove_spec h zsl ns us k d : zsl_rep h zsl ns → upd_ok zsl ns us k → ns !! k = Some d →
  ∃ h' zsl', zslDeleteNode h zsl (eptr d) us = Some (h', zsl') ∧ zsl_rep h' zsl' (delete k ns) ∧
    (∃ n, h' !! eptr d = Some n ∧ ele n = Some (eele d)) ∧ header zsl' = header zsl ∧
    eptr d ∉ ptrs zsl' (delete k ns) ∧ (zlevel zsl' ≤ zlevel zsl)%nat ∧ dom h' = dom h.
Proof.
  intros [Hl Ht Hs Hb] Hu Hd. pose proof (delete_length k d ns Hd). pose proof (delete_bound k d ns Hd).
  assert (Hi := ins_delete k d ns Hd). rewrite Hi in Hl, Hu.
  destruct (deletenode_spec h zsl (delete k ns) us k d) as (h' & zsl' & E & Hl' & Ht' & Hle & Hhd & [b Hm] & Hnin & Hdom);
    try done; [lia|].
  exists h', zsl'. split; [done|]. split; [|split_and!; try done].
  - split; [done|done| |lia]. eapply sorted_sublist; [|exact Hs]. apply sublist_delete.
  - destruct (meta_node _ _ _ _ _ _ Hm) as (n & Hn & E1 & _). eauto.
  - by rewrite (ptrs_header zsl).
Qed.

Lemma rep_free h zsl ns y : y ∉ ptrs zsl ns → zsl_rep h zsl ns → zsl_rep (delete y h) zsl ns.
Proof. intros Hy [Hl Ht Hs Hb]. split; try done. by apply links_free. Qed.

Lemma zslDelete_spec h zsl ns s e fr : zsl_rep h zsl ns →
  (∀ k d, ns !! k = Some d → is_key s e d = true →
     ∃ h' zsl', zslDelete h zsl s e fr = Some (h', zsl', 1, if fr then None else Some (eptr d)) ∧
       zsl_rep h' zsl' (delete k ns) ∧ eptr d ∉ ptrs zsl' (delete k ns) ∧
       (h' !! eptr d = None ↔ fr = true)) ∧
  ((∀ d, d ∈ ns → is_key s e d = false) → zslDelete h zsl s e fr = Some (h, zsl, 0, None)).
Proof.
  intros Hr. destruct (find_key h zsl ns s e Hr) as (k & x & us & E & Hu & Hx & HP).
  unfold zslDelete. rewrite E. cbn [mbind option_bind]. rewrite Hx. cbn [mbind option_bind]. split.
  - intros k' d Hd Hk. assert (k' = k) as -> by (by eapply HP). rewrite Hd. cbn [mbind option_bind].
    destruct (key_test h zsl ns k d s e (rep_links _ _ _ Hr) Hd) as (n & -> & Et & _). cbn [mbind option_bind].
    rewrite Et, Hk. destruct (remove_spec h zsl ns us k d Hr Hu Hd) as (h' & zsl' & -> & Hr' & (n' & Hn' & _) & _ & Hnin & _).
    cbn [mbind option_bind]. eexists _, _. split; [done|]. destruct fr.
    + split; [by apply rep_free|]. split; [done|]. by rewrite lookup_delete_eq.
    + split; [done|]. split; [done|]. by rewrite Hn'.
  - intros Hno. destruct (ns !! k) as [d|] eqn:Hd; [|done]. cbn [mbind option_bind].
    destruct (key_test h zsl ns k d s e (rep_links _ _ _ Hr) Hd) as (n & -> & Et & _). cbn [mbind option_bind].
    rewrite Et, Hno; [done|]. by eapply list_elem_of_lookup_2.
Qed.

End deletion2.

(** ** Score updates *)

Section update.
Context {R : Type} `{Score R}.
Implicit Types h : heap R.
Implicit Types ns : list (entry R).

Definition with_score (d : entry R) (s : R) : entry R := Ent (eptr d) (eheight d) s (eele d).

(** Forward links, pointers and heights do not depend on scores. *)
Lemma fwd_rescore i ns ns' : (λ d, (eptr d, eheight d)) <$> ns = (λ d, (eptr d, eheight d)) <$> ns' →
  fwd i ns = fwd i ns'.
Proof.
  revert ns'. induction ns as [|d ns IH]; intros [|d' ns'] E; simplify_eq/=; [done|].
  rewrite (IH ns') by done. destruct d, d'; simplify_eq/=. done.
Qed.

Lemma rescore_links h zsl ns k d n s : zsl_links h zsl ns → ns !! k = Some d → h !! eptr d = Some n →
  zsl_links (<[eptr d := set_score n s]> h) zsl (<[k := with_score d s]> ns).
Proof.
  intros Hl Hd Hn. set (ns' := <[k := with_score d s]> ns). apply lookup_lt_Some in Hd as Hlt.
  assert (Hproj : ∀ {A} (f : entry R → A), f (with_score d s) = f d → f <$> ns' = f <$> ns).
  { intros A f Hf. subst ns'. rewrite list_fmap_insert, Hf. apply list_insert_id.
    by rewrite list_lookup_fmap, Hd. }
  assert (Ep : ptrs zsl ns' = ptrs zsl ns) by (unfold ptrs; by rewrite (Hproj _ eptr)).
  assert (Eh : heights ns' = heights ns) by (unfold heights; by rewrite (Hproj _ eheight)).
  assert (Hc : ∀ y i, cell (<[eptr d := set_score n s]> h) y i = cell h y i).
  { intros y i. unfold cell. destruct (decide (y = eptr d)) as [->|]; [by rewrite lookup_insert_eq, Hn|].
    by rewrite lookup_insert_ne. }
  assert (Hf : ∀ i p, fwd i (drop p ns') = fwd i (drop p ns)).
  { intros i p. apply fwd_rescore. by rewrite !fmap_drop, (Hproj _ (λ d, (eptr d, eheight d))). }
  assert (Hprev : ∀ p, prev_ptr ns' p = prev_ptr ns p).
  { intros [|p]; [done|]. simpl. by rewrite <- !list_lookup_fmap, (Hproj _ eptr). }
  assert (Hne : ∀ p e, ns !! p = Some e → p ≠ k → eptr e ≠ eptr d).
  { intros p e He Hpk Eq. apply Hpk. pose proof (l_nodup _ _ _ Hl) as Hnd. apply NoDup_cons in Hnd as [_ Hnd].
    eapply NoDup_lookup; [exact Hnd| |]; rewrite list_lookup_fmap; [by rewrite He|by rewrite Hd; simpl; rewrite Eq]. }
  assert (Hhd : header zsl ≠ eptr d).
  { pose proof (l_nodup _ _ _ Hl) as Hnd. apply NoDup_cons in Hnd as [Hnd _]. intros Eq. apply Hnd.
    rewrite Eq. apply list_elem_of_fmap. exists d. split; [done|]. by eapply list_elem_of_lookup_2. }
  constructor; try apply Hl.
  - rewrite Ep. apply Hl.
  - intros p x hp i. rewrite Ep, Eh, Hc, Hf. apply (l_cells _ _ _ Hl).
  - intros i. rewrite Hc. apply (l_high _ _ _ Hl).
  - unfold meta_at. rewrite lookup_insert_ne by done. apply (l_header _ _ _ Hl).
  - intros p e He. rewrite Hprev. destruct (decide (p = k)) as [->|Hpk].
    + subst ns'. rewrite list_lookup_insert_eq in He by done. injection He as <-. unfold meta_at. simpl.
      rewrite lookup_insert_eq. pose proof (l_nodes _ _ _ Hl _ _ Hd) as Hm. unfold meta_at in Hm. rewrite Hn in Hm.
      simpl in Hm |- *. unfold meta in *. simpl in *. congruence.
    + subst ns'. rewrite list_lookup_insert_ne in He by done. unfold meta_at.
      rewrite lookup_insert_ne by (intros Eq; by apply (Hne p e He Hpk)). by apply (l_nodes _ _ _ Hl).
  - pose proof (l_heights _ _ _ Hl) as Hh.
    rewrite <- (Forall_fmap eheight (λ x, (1 ≤ x ≤ zlevel zsl)%nat)) in Hh |- *. by rewrite (Hproj _ eheight).
  - rewrite (l_tail _ _ _ Hl), <- !fmap_last, (Hproj _ eptr) by done. done.
  - rewrite (l_length _ _ _ Hl). subst ns'. by rewrite length_insert.
Qed.

Lemma delete_ins k (e : entry R) ns : (k ≤ length ns)%nat → delete k (ins k e ns) = ns.
Proof.
  intros Hk. unfold ins. assert (length (take k ns) = k) as E by (rewrite length_take; lia).
  rewrite <- E at 1. by rewrite delete_middle, take_drop.
Qed.

(** The neighbours of a node decide whether it can stay where it is. *)
Lemma sorted_rescore ns k d s : StronglySorted entry_lt ns → ns !! k = Some d →
  (∀ a, prev_ptr ns k ≠ None → ns !! (k - 1)%nat = Some a → slt (escore a) s = true) →
  (∀ b, ns !! S k = Some b → slt s (escore b) = true) →
  StronglySorted entry_lt (<[k := with_score d s]> ns).
Proof.
  intros Hs Hd Hprev Hnext. apply lookup_lt_Some in Hd as Hlt.
  assert (Hi : <[k := with_score d s]> ns = ins k (with_score d s) (delete k ns)).
  { unfold ins. rewrite delete_take_drop, insert_take_drop by done.
    assert (length (take k ns) = k) as Hk by (rewrite length_take; lia).
    rewrite take_app_le, take_take, drop_app_ge, Hk, Nat.sub_diag by lia. simpl.
    by replace (k `min` k)%nat with k by lia. }
  rewrite Hi. apply sorted_ins.
  - eapply sorted_sublist; [apply sublist_delete|done].
  - by eapply delete_bound.
  - intros p a Ha. destruct (decide (p < k)%nat) as [Hp|Hp].
    + rewrite list_lookup_delete_lt in Ha by done.
      destruct (lookup_lt_is_Some_2 ns (k - 1)%nat) as [a' Ha']; [lia|].
      assert (slt (escore a') s = true) as Hsl.
      { apply (Hprev a'); [|done]. destruct k as [|k]; [lia|]. simpl.
        replace (S k - 1)%nat with k in Ha' by lia. by rewrite Ha'. }
      destruct (decide (p = k - 1)%nat) as [->|]; [rewrite Ha in Ha'; simplify_eq; by left|].
      transitivity a'; [|by left]. apply (sorted_lookup ns p (k - 1)%nat); (done || lia).
    + rewrite list_lookup_delete_ge in Ha by lia.
      destruct (lookup_lt_is_Some_2 ns (S k)) as [b Hb]; [apply lookup_lt_Some in Ha; lia|].
      pose proof (Hnext b Hb) as Hsl. destruct (decide (p = k)) as [->|]; [rewrite Ha in Hb; simplify_eq; by left|].
      transitivity b; [by left|]. apply (sorted_lookup ns (S k) (S p)); (done || lia).
Qed.

Lemma zslUpdateScore_spec h zsl ns k d cur e new lv : zsl_rep h zsl ns → NoDup (eele <$> ns) →
  ns !! k = Some d → is_key cur e d = true → (1 ≤ lv ≤ ZSKIPLIST_MAXLEVEL)%nat →
  ∃ h' zsl' x ns' k', zslUpdateScore h zsl cur e new lv = Some (h', zsl', x) ∧ zsl_rep h' zsl' ns' ∧
    ns' !! k' = Some (Ent x (if decide (x = eptr d) then eheight d else lv) new e) ∧
    delete k' ns' = delete k ns.
Proof.
  intros Hr Hnd Hd Hk Hlv. destruct (find_key h zsl ns cur e Hr) as (k' & x & us & E & Hu & Hx & HP).
  pose proof (rep_links _ _ _ Hr) as Hl. pose proof (l_heights _ _ _ Hl) as Hh.
  assert (k = k') as <- by (by eapply HP). unfold zslUpdateScore. rewrite E. cbn [mbind option_bind].
  rewrite Hx, Hd. cbn [mbind option_bind].
  destruct (key_test h zsl ns k d cur e Hl Hd) as (n & Hn & Et & _ & Eele & Eb). rewrite Hn. cbn [mbind option_bind].
  rewrite Et, Hk.
  assert (∃ bf, match backward n with None => Some true | Some b => nb ← h !! b; Some (slt (score nb) new) end = Some bf ∧
    (bf = true → ∀ a, prev_ptr ns k ≠ None → ns !! (k - 1)%nat = Some a → slt (escore a) new = true)) as (bf & -> & Hbf).
  { rewrite Eb. destruct k as [|k0]; simpl; [by exists true|].
    destruct (lookup_lt_is_Some_2 ns k0) as [a Ha]; [apply lookup_lt_Some in Hd; lia|]. rewrite Ha. simpl.
    destruct (key_test h zsl ns k0 a cur e Hl Ha) as (na & -> & _ & Es & _). simpl. eexists. split; [done|].
    intros <- a' _ Ha'. rewrite Nat.sub_0_r, Ha in Ha'. simplify_eq. by rewrite Es. }
  cbn [mbind option_bind].
  assert (cell h (eptr d) 0 = Some (match ns !! S k with Some b => (Some (eptr b), 1) | None => (None, 0) end)) as ->.
  { rewrite (l_cells _ _ _ Hl (S k) (eptr d) (eheight d) 0%nat).
    - rewrite fwd0; [done|]. eapply Forall_impl; [exact Hh|]. simpl. lia.
    - simpl. by rewrite list_lookup_fmap, Hd.
    - simpl. by rewrite list_lookup_fmap, Hd.
    - rewrite Forall_lookup in Hh. specialize (Hh _ _ Hd). simpl in Hh. lia.
    - pose proof (l_level _ _ _ Hl). lia. }
  cbn [mbind option_bind].
  assert (∃ af, (let '(forward, _) := match ns !! S k with Some b => (Some (eptr b), 1) | None => (None, 0) end in
      match forward with None => Some true | Some z => nz ← h !! z; Some (slt new (score nz)) end) = Some af ∧
    (af = true → ∀ b, ns !! S k = Some b → slt new (escore b) = true)) as (af & Eaf & Haf).
  { destruct (ns !! S k) as [b|] eqn:Hb; [|by exists true].
    destruct (key_test h zsl ns (S k) b cur e Hl Hb) as (nb & -> & _ & Es & _). simpl. eexists. split; [done|].
    intros <- b' [= <-]. by rewrite Es. }
  apply is_key_spec in Hk as [_ He].
  assert (Hrest : ∃ h' zsl' x ns' k', (if bf && af then Some (<[eptr d := set_score n new]> h, zsl, eptr d)
     else '(h, zsl) ← zslDeleteNode h zsl (eptr d) us;
          ny ← h !! eptr d; e' ← ele ny;
          '(h, zsl, x) ← zslInsert h zsl lv new e';
          Some (delete (eptr d) h, zsl, x)) = Some (h', zsl', x) ∧ zsl_rep h' zsl' ns' ∧
    ns' !! k' = Some (Ent x (if decide (x = eptr d) then eheight d else lv) new e) ∧ delete k' ns' = delete k ns).
  { destruct (bf && af) eqn:Eba.
    - apply andb_true_iff in Eba as [-> ->].
      eexists _, _, _, (<[k := with_score d new]> ns), k. split; [done|]. split.
      + split; [by apply rescore_links| |apply sorted_rescore; auto; apply (rep_sorted _ _ _ Hr)|].
        * pose proof (rep_top _ _ _ Hr) as [?|Ht]; [by left|right].
          rewrite <- (Exists_fmap eheight (λ x, x = zlevel zsl)) in Ht |- *.
          rewrite list_fmap_insert. simpl. by rewrite list_insert_id by (by rewrite list_lookup_fmap, Hd).
        * rewrite length_insert. apply (rep_small _ _ _ Hr).
      + split; [|by rewrite !delete_take_drop, take_insert_ge, drop_insert_lt by lia].
        rewrite list_lookup_insert_eq by (by eapply lookup_lt_Some). rewrite decide_True by done.
        by rewrite <- He.
    - destruct (remove_spec h zsl ns us k d Hr Hu Hd) as (h1 & zsl1 & -> & Hr1 & (n1 & Hn1 & Ee) & Hhd & Hnin & _).
      cbn [mbind option_bind]. rewrite Hn1. cbn [mbind option_bind]. rewrite Ee. cbn [mbind option_bind].
      pose proof (delete_length k d ns Hd). pose proof (rep_small _ _ _ Hr).
      destruct (insert_spec h1 zsl1 (delete k ns) lv new (eele d)) as (h2 & zsl2 & x2 & k2 & -> & Hk2 & Hr2 & Hx2 & Hhd2);
        [done| |done|lia|].
      { rewrite (delete_Permutation ns k d Hd) in Hnd. by apply NoDup_cons in Hnd as [? _]. }
      cbn [mbind option_bind]. assert (x2 ≠ eptr d) by (intros ->; congruence).
      eexists _, _, _, _, k2. split; [done|]. split.
      + apply rep_free; [|done]. rewrite (ptrs_header zsl1) by done. unfold ptrs in Hnin |- *.
        rewrite ins_perm. rewrite !fmap_cons, !not_elem_of_cons in *. destruct Hnin. cbn [eptr]. by split_and!.
      + rewrite ins_lookup_eq by done. rewrite decide_False by done. rewrite He. split; [done|]. by apply delete_ins. }
  destruct (ns !! S k) as [b|]; cbn [mbind option_bind] in Eaf |- *.
  - rewrite Eaf. exact Hrest.
  - injection Eaf as <-. exact Hrest.
Qed.

End update.

(** ** Ranks *)

Section ranks.
Context {R : Type} `{Score R}.
Implicit Types h : heap R.
Implicit Types ns : list (entry R).

Lemma heights_pos h zsl ns : zsl_links h zsl ns → Forall (λ e, (1 ≤ eheight e)%nat) ns.
Proof. intros Hl. eapply Forall_impl; [apply (l_heights _ _ _ Hl)|]. simpl. lia. Qed.

Lemma zfuel_length h zsl ns : zsl_links h zsl ns → zfuel zsl = S (length ns).
Proof. intros Hl. unfold zfuel. rewrite (l_length _ _ _ Hl). lia. Qed.

(** One level of a search: the position it reaches, and the level is there. *)
Lemma walk_level h zsl ns w cond k i p x hp : zsl_links h zsl ns → cond_at h ns w cond k →
  (S i ≤ zlevel zsl)%nat → ptrs zsl ns !! p = Some x → heights ns !! p = Some hp →
  (i < hp)%nat → (p ≤ k)%nat →
  ∃ x' hp', walk (zfuel zsl) w cond h i x (Z.of_nat p) = Some (x', Z.of_nat (lastpos i ns k)) ∧
    ptrs zsl ns !! lastpos i ns k = Some x' ∧ heights ns !! lastpos i ns k = Some hp' ∧ (i < hp')%nat ∧
    (lastpos i ns k ≤ k)%nat.
Proof.
  intros Hl Hc Hi Hx Hp Hip Hpk. pose proof Hc as (Hk & _).
  destruct (walk_spec h zsl ns w cond k i Hl Hc ltac:(lia) (zfuel zsl) p x hp) as (x' & E & Hx'); try done.
  { rewrite (zfuel_length h zsl ns) by done. lia. }
  pose proof (l_level _ _ _ Hl). destruct (lastpos_height i ns k) as (hp' & ? & ?); [lia|].
  exists x', hp'. split_and!; try done. apply lastpos_le.
Qed.

(** The element at a position; none at the header. *)
Definition ele_at ns (p : nat) : option (list Z) :=
  match p with O => None | S q => eele <$> ns !! q end.

Lemma ele_ptr h zsl ns p x : zsl_links h zsl ns → ptrs zsl ns !! p = Some x →
  ∃ n, h !! x = Some n ∧ ele n = ele_at ns p.
Proof.
  intros Hl Hx. destruct p as [|p]; simpl in Hx |- *.
  - injection Hx as <-. destruct (l_header _ _ _ Hl) as (s & b & Hm).
    destruct (meta_node _ _ _ _ _ _ Hm) as (n & ? & ? & _). eauto.
  - rewrite list_lookup_fmap in Hx. destruct (ns !! p) as [d|] eqn:Hd; [|done]. injection Hx as <-.
    destruct (meta_node _ _ _ _ _ _ (l_nodes _ _ _ Hl _ _ Hd)) as (n & ? & ? & _). eauto.
Qed.

Lemma rank_loop_spec h zsl ns s e k : zsl_links h zsl ns → cond_at h ns 64 (key_le s e) k →
  (∀ p, (p ≤ k)%nat → ele_at ns p = Some e → p = k) →
  ∀ n p x hp, (n ≤ zlevel zsl)%nat → ptrs zsl ns !! p = Some x → heights ns !! p = Some hp →
  (n ≤ hp)%nat → (p ≤ k)%nat →
  rank_loop n (zfuel zsl) h s e x (Z.of_nat p) =
    Some (if decide (n ≠ 0%nat ∧ ele_at ns k = Some e) then Z.of_nat k else 0).
Proof.
  intros Hl Hc Hu. induction n as [|i IH]; intros p x hp Hn Hx Hp Hhp Hpk.
  { cbn. by rewrite decide_False by naive_solver. }
  cbn [rank_loop]. destruct (walk_level h zsl ns 64 (key_le s e) k i p x hp) as (x' & hp' & -> & Hx' & Hp' & Hi & Hle);
    try done. cbn [mbind option_bind].
  destruct (ele_ptr h zsl ns _ x' Hl Hx') as (n' & -> & En). cbn [mbind option_bind]. rewrite En.
  destruct (decide (ele_at ns (lastpos i ns k) = Some e)) as [Ee|Ee].
  - rewrite Ee, (proj2 (Z.eqb_eq _ _) (proj2 (bytes_cmp_eq e e) eq_refl)).
    pose proof (Hu _ Hle Ee) as Ek. rewrite Ek in Ee |- *. by rewrite decide_True by (split; [lia|done]).
  - assert (match ele_at ns (lastpos i ns k) with Some e' => bytes_cmp e' e =? 0 | None => false end = false) as ->.
    { destruct (ele_at ns (lastpos i ns k)) as [e'|]; [|reflexivity]. apply Z.eqb_neq. rewrite bytes_cmp_eq. by intros ->. }
    rewrite (IH _ _ hp') by (done || lia). f_equal. apply decide_ext. split; [naive_solver|].
    intros [_ Hk]. split; [|done]. intros ->. destruct Hc as (Hk' & _).
    by rewrite lastpos_0 in Ee by eauto using heights_pos.
Qed.

Definition leb (a b : entry R) : bool :=
  slt (escore a) (escore b) || (seqb (escore a) (escore b) && (bytes_cmp (eele a) (eele b) <=? 0)).

Lemma leb_spec a b : leb a b = true ↔ entry_lt a b ∨ is_key (escore b) (eele b) a = true.
Proof.
  rewrite is_key_spec. unfold leb, entry_lt, bytes_lt.
  rewrite orb_true_iff, andb_true_iff, Z.leb_le, (seqb_sym (escore b)), <- bytes_cmp_eq.
  split; [intros [?|[? ?]]; [tauto|]|intros [[?|[? ?]]|[? ?]]; [tauto| |]]; try (right; split; [done|lia]).
  destruct (decide (bytes_cmp (eele a) (eele b) = 0)); [tauto|]. left; right. split; [done|lia].
Qed.

(** Of all entries below a key the one that has the key is the last. *)
Lemma key_le_cond h ns zsl s e : zsl_rep h zsl ns →
  ∃ k, cond_at h ns 64 (key_le s e) k ∧
    (∀ q d, ns !! q = Some d → is_key s e d = true → k = S q).
Proof.
  intros [Hl _ Hs Hb]. destruct (prefix_split ns (λ d, leb d (key s e)) Hs) as (k & Hk & HP).
  { intros a b Hab. rewrite !leb_spec. cbn [escore eele key]. intros [Hb'|Hb'].
    - left. by transitivity b.
    - left. apply ltb_spec. rewrite (lt_key_eq a b s e Hb'). by apply ltb_spec. }
  exists k. split.
  - split; [done|]. split; [lia|]. intros p d n Ed Hn. rewrite <- (HP _ _ Ed).
    destruct (meta_node _ _ _ _ _ _ (l_nodes _ _ _ Hl _ _ Ed)) as (n' & Hn' & E1 & E2 & _).
    rewrite Hn in Hn'. simplify_eq. unfold key_le, cmp_ele, leb. by rewrite E1, E2.
  - intros q d Hd Hkey. pose proof (HP q d Hd) as E1.
    rewrite (proj2 (leb_spec d (key s e)) (or_intror Hkey)) in E1. symmetry in E1. apply bool_decide_eq_true in E1.
    destruct (decide (k = S q)) as [|Hne]; [done|]. exfalso.
    destruct (lookup_lt_is_Some_2 ns (S q)) as [a Ha]; [lia|].
    pose proof (HP _ _ Ha) as E2. rewrite bool_decide_true in E2 by lia.
    assert (entry_lt d a) as Hda by (apply (sorted_lookup ns q (S q)); (done || lia)).
    apply leb_spec in E2 as [E2|E2].
    + apply ltb_spec in E2. rewrite (lt_key_eq a d s e Hkey) in E2. apply ltb_spec in E2.
      apply (entry_lt_irrefl a). by transitivity d.
    + apply ltb_spec in Hda. cbn in E2. rewrite <- (lt_key_eq d a s e E2), (lt_key_eq d d s e Hkey) in Hda.
      apply ltb_spec in Hda. by apply entry_lt_irrefl in Hda.
Qed.

Lemma zslGetRank_spec h zsl ns s e : zsl_rep h zsl ns →
  (∀ q d, NoDup (eele <$> ns) → ns !! q = Some d → is_key s e d = true → zslGetRank h zsl s e = Some (Z.of_nat q + 1)) ∧
  (e ∉ (eele <$> ns) → zslGetRank h zsl s e = Some 0).
Proof.
  intros Hr. pose proof (rep_links _ _ _ Hr) as Hl. pose proof (l_level _ _ _ Hl).
  destruct (key_le_cond h ns zsl s e Hr) as (k & Hc & HP). split.
  - intros q d Hnd Hd Hk. pose proof (HP q d Hd Hk) as ->. apply is_key_spec in Hk as [_ He].
    unfold zslGetRank. rewrite (rank_loop_spec h zsl ns s e (S q) Hl Hc) with (p := 0%nat) (hp := ZSKIPLIST_MAXLEVEL);
      [|intros p Hp Ep|lia|done|done|lia|lia].
    + rewrite decide_True; [f_equal; lia|]. split; [lia|]. simpl. by rewrite Hd, <- He.
    + destruct p as [|p]; [done|]. f_equal. simpl in Ep. rewrite <- list_lookup_fmap in Ep.
      eapply NoDup_lookup; [exact Hnd|exact Ep|]. by rewrite list_lookup_fmap, Hd, <- He.
  - intros Hno. assert (Hn : ∀ p, ele_at ns p ≠ Some e).
    { intros [|p]; [done|]. simpl. rewrite <- list_lookup_fmap. intros E. apply Hno. by eapply list_elem_of_lookup_2. }
    unfold zslGetRank. rewrite (rank_loop_spec h zsl ns s e k Hl Hc) with (p := 0%nat) (hp := ZSKIPLIST_MAXLEVEL);
      [|naive_solver|lia|done|done|lia|lia]. by rewrite decide_False by naive_solver.
Qed.

Lemma byrank_cond h ns rank : 0 ≤ rank → Z.of_nat (length ns) < 2 ^ 32 →
  cond_at h ns 64 (λ _ t, t <=? rank) (Z.to_nat rank `min` length ns)%nat.
Proof.
  intros Hr Hb. split; [lia|]. split; [lia|]. intros p e n Hp _. apply lookup_lt_Some in Hp.
  case_bool_decide; [apply Z.leb_le|apply Z.leb_gt]; lia.
Qed.

Lemma byrank_loop_spec h zsl ns rank : zsl_links h zsl ns → 0 ≤ rank → Z.of_nat (length ns) < 2 ^ 32 →
  ∀ n p x hp, (n ≤ zlevel zsl)%nat → ptrs zsl ns !! p = Some x → heights ns !! p = Some hp →
  (n ≤ hp)%nat → (p ≤ Z.to_nat rank `min` length ns)%nat → n ≠ 0%nat ∨ Z.of_nat p ≠ rank →
  n ≠ 0%nat ∨ (length ns < Z.to_nat rank)%nat →
  byrank_loop n (zfuel zsl) h rank x (Z.of_nat p) = Some (ptrs zsl ns !! Z.to_nat rank).
Proof.
  intros Hl Hr Hb. pose proof (byrank_cond h ns rank Hr Hb) as Hc.
  induction n as [|i IH]; intros p x hp Hn Hx Hp Hhp Hpk H1 H2.
  { cbn. destruct H2 as [?|H2]; [done|]. f_equal. symmetry. apply lookup_ge_None.
    unfold ptrs. simpl. rewrite length_fmap. lia. }
  cbn [byrank_loop]. destruct (walk_level h zsl ns 64 _ _ i p x hp Hl Hc) as (x' & hp' & -> & Hx' & Hp' & Hi & Hle);
    try done. cbn [mbind option_bind].
  destruct (Z.eqb_spec (Z.of_nat (lastpos i ns (Z.to_nat rank `min` length ns))) rank) as [E|E].
  - rewrite <- Hx'. do 2 f_equal. lia.
  - rewrite (IH _ _ hp'); try done; try lia; try (by right).
    destruct i as [|i]; [right|by left]. rewrite lastpos_0 in E by (eauto using heights_pos || lia). lia.
Qed.

Lemma zslGetElementByRank_spec h zsl ns rank : zsl_rep h zsl ns → 1 ≤ rank →
  zslGetElementByRank h zsl rank = Some (eptr <$> ns !! Z.to_nat (rank - 1)).
Proof.
  intros [Hl _ _ Hb] Hr. pose proof (l_level _ _ _ Hl). unfold zslGetElementByRank.
  rewrite (byrank_loop_spec h zsl ns rank Hl) with (p := 0%nat) (hp := ZSKIPLIST_MAXLEVEL); try done; try lia.
  f_equal. replace (Z.to_nat rank) with (S (Z.to_nat (rank - 1))) by lia. simpl. by rewrite list_lookup_fmap.
Qed.

End ranks.

(** ** Ranges *)

Section ranges.
Context {R : Type} `{Score R}.
Implicit Types h : heap R.
Implicit Types ns : list (entry R).

(** A range as two tests on entries: above the minimum, below the maximum. *)
Definition range_in (g l : entry R → bool) ns : list (entry R) := filter (λ e, Is_true (g e && l e)) ns.
Definition range_out (g l : entry R → bool) ns : list (entry R) := filter (λ e, ¬ Is_true (g e && l e)) ns.

(** The first [a] entries are below the range, those from [b] on above. *)
Definition range_at (g l : entry R → bool) ns (a b : nat) : Prop :=
  (a ≤ length ns)%nat ∧ (b ≤ length ns)%nat ∧
  ∀ p e, ns !! p = Some e → g e = bool_decide (a ≤ p)%nat ∧ l e = bool_decide (p < b)%nat.

(** The entries are in an order in which the tests are monotone. *)
Definition mono_range (g l : entry R → bool) ns : Prop :=
  ∀ p q a b, (p < q)%nat → ns !! p = Some a → ns !! q = Some b →
    (g a = true → g b = true) ∧ (l b = true → l a = true).

Lemma prefix_count ns (P : entry R → bool) :
  (∀ p q a b, (p < q)%nat → ns !! p = Some a → ns !! q = Some b → P b = true → P a = true) →
  ∃ k, (k ≤ length ns)%nat ∧ ∀ p e, ns !! p = Some e → P e = bool_decide (p < k)%nat.
Proof.
  induction ns as [|a l IH]; intros HP; [by exists 0%nat|].
  destruct (P a) eqn:Ea.
  - destruct IH as (k & Hk & IH); [intros p q x y ?; apply (HP (S p) (S q)); lia|].
    exists (S k). split; [simpl; lia|]. intros [|p] e E.
    + injection E as <-. by rewrite Ea, bool_decide_true by lia.
    + rewrite (IH p e E). apply bool_decide_ext. lia.
  - exists 0%nat. split; [lia|]. intros p e E. rewrite bool_decide_false by lia.
    destruct p as [|p]; simpl in E; [congruence|].
    destruct (P e) eqn:Ee; [|done]. rewrite (HP 0%nat (S p) a e) in Ea; (done || lia).
Qed.

Lemma mono_at g l ns : mono_range g l ns → ∃ a b, range_at g l ns a b.
Proof.
  intros Hm. destruct (prefix_count ns (λ e, negb (g e))) as (a & Ha & Pa).
  { intros p q x y Hpq Hx Hy. rewrite !negb_true_iff. destruct (Hm p q x y Hpq Hx Hy) as [Hg _].
    destruct (g x); [|done]. by rewrite Hg. }
  destruct (prefix_count ns l) as (b & Hb & Pb).
  { intros p q x y Hpq Hx Hy. apply (Hm p q x y Hpq Hx Hy). }
  exists a, b. split_and!; try done. intros p e E. split; [|by apply Pb].
  specialize (Pa p e E). destruct (g e); symmetry; [apply bool_decide_eq_true_2|apply bool_decide_eq_false_2].
  - symmetry in Pa. apply bool_decide_eq_false in Pa. lia.
  - symmetry in Pa. apply bool_decide_eq_true in Pa. lia.
Qed.

Lemma filter_all (P : entry R → Prop) `{∀ x, Decision (P x)} ns : Forall P ns → filter P ns = ns.
Proof. induction 1 as [|x ns Hx _ IH]; [done|]. rewrite filter_cons_True by done. by rewrite IH. Qed.

Lemma filter_none (P : entry R → Prop) `{∀ x, Decision (P x)} ns : Forall (λ x, ¬ P x) ns → filter P ns = [].
Proof. induction 1 as [|x ns Hx _ IH]; [done|]. by rewrite filter_cons_False. Qed.

(** A list in three parts. *)
Lemma take_drop_mid ns a m : ns = take a ns ++ take m (drop a ns) ++ drop (a + m) ns.
Proof. by rewrite <- drop_drop, take_drop, take_drop. Qed.

(** The entries of the range are the consecutive ones from [a] to [b]. *)
Lemma range_entries g l ns a b : range_at g l ns a b →
  range_in g l ns = take (b - a) (drop a ns) ∧ range_out g l ns = take a ns ++ drop (a + (b - a)) ns.
Proof.
  intros (Ha & Hb & HP).
  assert (H1 : Forall (λ e, ¬ Is_true (g e && l e)) (take a ns)).
  { apply Forall_lookup. intros p e E. apply lookup_take_Some in E as [E Hp].
    destruct (HP p e E) as [-> _]. rewrite bool_decide_false by lia. intros []. }
  assert (H2 : Forall (λ e, Is_true (g e && l e)) (take (b - a) (drop a ns))).
  { apply Forall_lookup. intros p e E. apply lookup_take_Some in E as [E Hp]. rewrite lookup_drop in E.
    destruct (HP _ e E) as [-> ->]. by rewrite !bool_decide_true by lia. }
  assert (H3 : Forall (λ e, ¬ Is_true (g e && l e)) (drop (a + (b - a)) ns)).
  { apply Forall_lookup. intros p e E. rewrite lookup_drop in E.
    destruct (HP _ e E) as [_ ->]. rewrite (bool_decide_false (_ < b)%nat), andb_false_r by lia. intros []. }
  unfold range_in, range_out. rewrite (take_drop_mid ns a (b - a)) at 1 3.
  rewrite !filter_app. rewrite (filter_none _ _ H1), (filter_all _ _ H2), (filter_none _ _ H3).
  rewrite (filter_all _ _ H1), (filter_none _ (take (b - a) _)), (filter_all _ _ H3).
  - by rewrite app_nil_r.
  - eapply Forall_impl; [exact H2|]. simpl. intros x Hx Hn. by apply Hn.
Qed.

Lemma range_head g l ns a b : range_at g l ns a b →
  head (range_in g l ns) = if decide (a < b)%nat then ns !! a else None.
Proof.
  intros Hr. destruct (range_entries g l ns a b Hr) as [-> _]. rewrite head_lookup.
  destruct (decide (a < b)%nat).
  - rewrite lookup_take_lt, lookup_drop by lia. f_equal. lia.
  - by replace (b - a)%nat with 0%nat by lia.
Qed.

Lemma range_last g l ns a b : range_at g l ns a b →
  last (range_in g l ns) = if decide (a < b)%nat then ns !! (b - 1)%nat else None.
Proof.
  intros Hr. destruct (range_entries g l ns a b Hr) as [-> _]. destruct Hr as (Ha & Hb & _).
  rewrite last_lookup, length_take, length_drop.
  destruct (decide (a < b)%nat).
  - rewrite lookup_take_lt, lookup_drop by lia. f_equal. lia.
  - by replace (b - a)%nat with 0%nat by lia.
Qed.

(** Tests on nodes that agree with tests on entries. *)
Definition node_test (f : zskiplistNode R → bool) (g : entry R → bool) : Prop :=
  ∀ n d, ele n = Some (eele d) → score n = escore d → f n = g d.

Lemma node_of h zsl ns p d : zsl_links h zsl ns → ns !! p = Some d →
  ∃ n, h !! eptr d = Some n ∧ ele n = Some (eele d) ∧ score n = escore d.
Proof.
  intros Hl Hd. destruct (key_test h zsl ns p d (escore d) (eele d) Hl Hd) as (n & ? & _ & ? & ? & _). eauto.
Qed.

Lemma test_cond h zsl ns (f : zskiplistNode R → bool) (P : entry R → bool) k :
  zsl_rep h zsl ns → node_test f P → (k ≤ length ns)%nat →
  (∀ p e, ns !! p = Some e → P e = bool_decide (p < k)%nat) → cond_at h ns 64 (λ n _, f n) k.
Proof.
  intros [Hl _ _ Hb] Hf Hk HP. split; [done|]. split; [lia|]. intros p d n Hd Hn. rewrite <- (HP p d Hd).
  destruct (node_of h zsl ns p d Hl Hd) as (n' & Hn' & E1 & E2). rewrite Hn in Hn'. injection Hn' as <-.
  by apply Hf.
Qed.

Section query.
Context (gn ln : zskiplistNode R → bool) (g l : entry R → bool).
Context (Hgn : node_test gn g) (Hln : node_test ln l).

Lemma ends_in_range_spec h zsl ns a b : zsl_rep h zsl ns → range_at g l ns a b →
  ends_in_range h zsl gn ln = Some (bool_decide (a < length ns ∧ 0 < b)%nat).
Proof.
  intros Hr (Ha & Hb & HP). pose proof (rep_links _ _ _ Hr) as Hl. unfold ends_in_range.
  rewrite (l_tail _ _ _ Hl), last_lookup. destruct ns as [|d0 ns'].
  { rewrite bool_decide_false by (simpl; lia). done. }
  destruct (lookup_lt_is_Some_2 (d0 :: ns') (Nat.pred (length (d0 :: ns')))) as [dt Ht]; [simpl; lia|].
  rewrite Ht. cbn [fmap option_fmap option_map].
  destruct (node_of _ _ _ _ _ Hl Ht) as (nt & -> & E1 & E2). cbn [mbind option_bind].
  rewrite (Hgn nt dt E1 E2). destruct (HP _ _ Ht) as [-> _].
  pose proof (l_level _ _ _ Hl).
  rewrite (l_cells _ _ _ Hl 0 (header zsl) ZSKIPLIST_MAXLEVEL 0) by (done || lia). rewrite fwd0 by eauto using heights_pos.
  cbn [mbind option_bind lookup list_lookup].
  destruct (node_of _ _ _ 0%nat d0 Hl) as (n0 & -> & F1 & F2); [done|]. cbn [mbind option_bind].
  rewrite (Hln n0 d0 F1 F2). destruct (HP 0%nat d0 eq_refl) as [_ ->].
  case_bool_decide as C1; simpl negb; cbn [negb]; cbv iota.
  - f_equal. apply bool_decide_ext. simpl in *. lia.
  - symmetry. f_equal. apply bool_decide_eq_false_2. simpl in *. lia.
Qed.

(** [zslFirstInRange] and [zslFirstInLexRange] after their first test. *)
Lemma first_spec h zsl ns a b : zsl_rep h zsl ns → range_at g l ns a b → (a < length ns)%nat →
  ('(x, _, _) ← descend (zlevel zsl) (zfuel zsl) 64 (λ n _, negb (gn n)) h (header zsl) 0;
   '(forward, _) ← cell h x 0;
   y ← forward;
   ny ← h !! y;
   Some (if ln ny then Some y else None)) = Some (eptr <$> head (range_in g l ns)).
Proof.
  intros Hr Hab Hlt. pose proof Hab as (Ha & Hb & HP). pose proof (rep_links _ _ _ Hr) as Hl.
  destruct (zsl_search_spec h zsl ns 64 (λ n _, negb (gn n)) a Hl) as (x & us & -> & _ & _ & _ & Hx).
  { apply (test_cond h zsl ns (λ n, negb (gn n)) (λ e, negb (g e))); try done.
    - intros n d E1 E2. by rewrite (Hgn n d).
    - intros p e E. destruct (HP p e E) as [-> _]. repeat case_bool_decide; (done || lia). }
  cbn [mbind option_bind]. rewrite Hx, fwd0 by eauto using heights_pos.
  rewrite (range_head g l ns a b Hab). destruct (lookup_lt_is_Some_2 ns a Hlt) as [d Hd]. rewrite Hd.
  cbn [mbind option_bind]. destruct (node_of _ _ _ _ _ Hl Hd) as (n & -> & E1 & E2). cbn [mbind option_bind].
  rewrite (Hln n d E1 E2). destruct (HP a d Hd) as [_ ->]. case_bool_decide; destruct (decide (a < b)%nat); (done || lia).
Qed.

(** [zslLastInRange] and [zslLastInLexRange] after their first test. *)
Lemma last_spec h zsl ns a b : zsl_rep h zsl ns → range_at g l ns a b → (0 < b)%nat →
  ('(x, _, _) ← descend (zlevel zsl) (zfuel zsl) 64 (λ n _, ln n) h (header zsl) 0;
   nx ← h !! x;
   Some (if gn nx then Some x else None)) = Some (eptr <$> last (range_in g l ns)).
Proof.
  intros Hr Hab Hlt. pose proof Hab as (Ha & Hb & HP). pose proof (rep_links _ _ _ Hr) as Hl.
  destruct (zsl_search_spec h zsl ns 64 (λ n _, ln n) b Hl) as (x & us & -> & Hx & _).
  { apply (test_cond h zsl ns ln l); try done. intros p e E. apply (HP p e E). }
  cbn [mbind option_bind]. rewrite (range_last g l ns a b Hab).
  destruct b as [|b]; [lia|]. simpl in Hx. rewrite list_lookup_fmap in Hx.
  destruct (ns !! b) as [d|] eqn:Hd; [|done]. injection Hx as <-.
  destruct (node_of _ _ _ _ _ Hl Hd) as (n & -> & E1 & E2). cbn [mbind option_bind].
  rewrite (Hgn n d E1 E2). destruct (HP b d Hd) as [-> _]. simpl. rewrite Nat.sub_0_r, Hd.
  case_bool_decide; destruct (decide (a < S b)%nat); (done || lia).
Qed.

End query.
End ranges.

Section score_lex.
Context {R : Type} `{Score R}.
Implicit Types h : heap R.
Implicit Types ns : list (entry R).

(** *** Score ranges *)

Definition score_gte (range : zrangespec R) (d : entry R) : bool := zslValueGteMin (escore d) range.
Definition score_lte (range : zrangespec R) (d : entry R) : bool := zslValueLteMax (escore d) range.

Lemma entry_lt_score (a b : entry R) : entry_lt a b → slt (escore b) (escore a) = false.
Proof.
  intros [Hlt|[Heq _]]; [by apply slt_asym|]. unfold seqb in Heq.
  by apply andb_true_iff in Heq as [_ Heq%negb_true_iff].
Qed.

Lemma not_slt_trans a b c : slt b a = false → slt c b = false → slt c a = false.
Proof. intros H1 H2. apply not_true_is_false. intros E. destruct (slt_cotrans c a b E); congruence. Qed.

Lemma slt_le_trans a b c : slt a b = true → slt c b = false → slt a c = true.
Proof. intros H1 H2. destruct (slt_cotrans a b c H1); congruence. Qed.

Lemma le_slt_trans a b c : slt b a = false → slt b c = true → slt a c = true.
Proof. intros H1 H2. destruct (slt_cotrans b c a H2); congruence. Qed.

Lemma score_mono range ns : StronglySorted entry_lt ns → mono_range (score_gte range) (score_lte range) ns.
Proof.
  intros Hs p q a b Hpq Ha Hb. pose proof (entry_lt_score a b (sorted_lookup ns p q a b Hs Hpq Ha Hb)) as Hab.
  unfold score_gte, score_lte, zslValueGteMin, zslValueLteMax, sle. split.
  - destruct (minex range); [|rewrite !negb_true_iff]; intros; by (eapply slt_le_trans || eapply not_slt_trans).
  - destruct (maxex range); [|rewrite !negb_true_iff]; intros; by (eapply le_slt_trans || eapply not_slt_trans).
Qed.

Lemma slt_le a b : slt a b = true → sle a b = true.
Proof. intros E. unfold sle. by rewrite slt_asym. Qed.

(** The test for ranges that are always empty. *)
Lemma score_empty range d :
  slt (max range) (min range) || (seqb (min range) (max range) && (minex range || maxex range)) = true →
  score_gte range d && score_lte range d = false.
Proof.
  intros E. apply not_true_is_false. rewrite andb_true_iff. unfold score_gte, score_lte, zslValueGteMin, zslValueLteMax.
  intros [Hg Hl]. apply orb_true_iff in E as [E|[Eq Eex]%andb_true_iff].
  - assert (sle (min range) (escore d) = true) as Hg' by (destruct (minex range); auto using slt_le).
    assert (sle (escore d) (max range) = true) as Hl' by (destruct (maxex range); auto using slt_le).
    unfold sle in *. apply negb_true_iff in Hg', Hl'. destruct (slt_cotrans _ _ (escore d) E); congruence.
  - apply orb_true_iff in Eex as [Ex|Ex]; rewrite Ex in Hg || rewrite Ex in Hl.
    + assert (sle (escore d) (max range) = true) as Hl' by (destruct (maxex range); auto using slt_le).
      pose proof (slt_seq_l _ _ _ Hg Eq). unfold sle in Hl'. by apply negb_true_iff in Hl'; congruence.
    + assert (sle (min range) (escore d) = true) as Hg' by (destruct (minex range); auto using slt_le).
      rewrite seqb_sym in Eq. pose proof (slt_seq_r _ _ _ Hl Eq). unfold sle in Hg'. apply negb_true_iff in Hg'; congruence.
Qed.

Lemma score_gte_node range : node_test (λ n, zslValueGteMin (score n) range) (score_gte range).
Proof. intros n d _ E. unfold score_gte. by rewrite E. Qed.

Lemma score_lte_node range : node_test (λ n, zslValueLteMax (score n) range) (score_lte range).
Proof. intros n d _ E. unfold score_lte. by rewrite E. Qed.

Lemma empty_in_range (g l : entry R → bool) ns : (∀ d, g d && l d = false) → range_in g l ns = [].
Proof. intros E. apply filter_none. apply Forall_forall. intros d _. rewrite E. intros []. Qed.

Lemma range_empty_ends (g l : entry R → bool) ns a b : range_at g l ns a b → ¬ (a < length ns ∧ 0 < b)%nat →
  range_in g l ns = [].
Proof.
  intros Hab Hn. destruct (range_entries g l ns a b Hab) as [-> _]. destruct Hab as (Ha & Hb & _).
  destruct (decide (b = 0%nat)) as [->|]; [by rewrite take_0|]. rewrite drop_ge by lia. by rewrite take_nil.
Qed.

(** The common body of the range queries, after the test for empty ranges. *)
Lemma query_spec (empty : bool) (isin : option bool) gn ln (g l : entry R → bool) h zsl ns :
  node_test gn g → node_test ln l → zsl_rep h zsl ns → mono_range g l ns →
  (empty = true → ∀ d, g d && l d = false) →
  isin = (if empty then Some false else ends_in_range h zsl gn ln) →
  ∃ ok, isin = Some ok ∧
    (ok = false → range_in g l ns = []) ∧
    (ok = true → ∃ a b, range_at g l ns a b ∧ (a < length ns)%nat ∧ (0 < b)%nat).
Proof.
  intros Hgn Hln Hr Hm He ->. destruct (mono_at g l ns Hm) as (a & b & Hab). destruct empty.
  { exists false. split; [done|]. split; [|done]. intros _. apply empty_in_range. auto. }
  rewrite (ends_in_range_spec gn ln g l Hgn Hln h zsl ns a b Hr Hab). eexists. split; [done|]. split.
  - intros E. apply bool_decide_eq_false in E. by eapply range_empty_ends.
  - intros E. apply bool_decide_eq_true in E as [??]. eauto.
Qed.

Lemma zslInRange_spec h zsl ns range : zsl_rep h zsl ns →
  zslFirstInRange h zsl range = Some (eptr <$> head (range_in (score_gte range) (score_lte range) ns)) ∧
  zslLastInRange h zsl range = Some (eptr <$> last (range_in (score_gte range) (score_lte range) ns)).
Proof.
  intros Hr. pose proof (score_gte_node range) as Hg. pose proof (score_lte_node range) as Hl.
  destruct (query_spec _ (zslIsInRange h zsl range) _ _ _ _ h zsl ns Hg Hl Hr
    (score_mono range ns (rep_sorted _ _ _ Hr)) (λ E d, score_empty range d E) eq_refl) as (ok & E & Hf & Ht).
  unfold zslFirstInRange, zslLastInRange. rewrite E. cbn [mbind option_bind]. destruct ok; cbn [negb]; cbv iota.
  - destruct (Ht eq_refl) as (a & b & Hab & Ha & Hb). split.
    + exact (first_spec _ _ _ _ Hg Hl h zsl ns a b Hr Hab Ha).
    + exact (last_spec _ _ _ _ Hg Hl h zsl ns a b Hr Hab Hb).
  - by rewrite (Hf eq_refl).
Qed.

(** *** Lexicographic ranges *)

Definition lexele_gte (range : zlexrangespec) (d : entry R) : bool := zslLexValueGteMin (eele d) range.
Definition lexele_lte (range : zlexrangespec) (d : entry R) : bool := zslLexValueLteMax (eele d) range.

(** All entries have the same score: the case lexicographic ranges are for. *)
Definition same_score ns : Prop := ∀ a b, a ∈ ns → b ∈ ns → seqb (escore a) (escore b) = true.

Lemma sdscmplex_anti a b : 0 < sdscmplex a b ↔ sdscmplex b a < 0.
Proof. destruct a, b; simpl; try lia. apply bytes_cmp_anti. Qed.

Lemma sdscmplex_trans a b c : sdscmplex a b < 0 → sdscmplex b c < 0 → sdscmplex a c < 0.
Proof. destruct a, b, c; simpl; try lia. apply bytes_cmp_trans. Qed.

Lemma sdscmplex_eq a b : sdscmplex a b = 0 → a = b.
Proof. destruct a, b; simpl; try lia; try done. by intros ->%bytes_cmp_eq. Qed.

Lemma sdscmplex_refl a : sdscmplex a a = 0.
Proof. destruct a; simpl; try done. by apply bytes_cmp_eq. Qed.

(** A comparison with 0 is one of three cases, the middle one is equality. *)
Lemma sdscmplex_cases a b :
  (sdscmplex a b < 0 ∧ 0 < sdscmplex b a) ∨ a = b ∨ (0 < sdscmplex a b ∧ sdscmplex b a < 0).
Proof.
  pose proof (sdscmplex_anti a b). pose proof (sdscmplex_anti b a).
  destruct (Z.lt_trichotomy (sdscmplex a b) 0) as [?|[E%sdscmplex_eq|?]]; [left|auto|right; right]; lia.
Qed.

Lemma lex_mono range ns : StronglySorted entry_lt ns → same_score ns →
  mono_range (lexele_gte range) (lexele_lte range) ns.
Proof.
  intros Hs Hsame p q a b Hpq Ha Hb.
  assert (sdscmplex (LexStr (eele a)) (LexStr (eele b)) < 0) as Hab.
  { destruct (sorted_lookup ns p q a b Hs Hpq Ha Hb) as [Hlt|[_ Hlt]]; [|done].
    specialize (Hsame a b (list_elem_of_lookup_2 _ _ _ Ha) (list_elem_of_lookup_2 _ _ _ Hb)).
    unfold seqb in Hsame. by rewrite Hlt in Hsame. }
  unfold lexele_gte, lexele_lte, zslLexValueGteMin, zslLexValueLteMax. split.
  - assert (sdscmplex (LexStr (eele a)) (lmin range) = 0 ∨ 0 < sdscmplex (LexStr (eele a)) (lmin range) →
      0 < sdscmplex (LexStr (eele b)) (lmin range)).
    { intros [E%sdscmplex_eq|E]; [rewrite <- E; by apply sdscmplex_anti|].
      apply sdscmplex_anti. apply sdscmplex_anti in E. by eapply sdscmplex_trans. }
    destruct (lminex range); rewrite ?Z.ltb_lt, ?Z.leb_le; lia.
  - assert (sdscmplex (LexStr (eele b)) (lmax range) ≤ 0 → sdscmplex (LexStr (eele a)) (lmax range) < 0).
    { intros E. destruct (sdscmplex_cases (LexStr (eele b)) (lmax range)) as [[??]|[Eq|?]]; [|by rewrite <- Eq|lia].
      by eapply sdscmplex_trans. }
    destruct (lmaxex range); rewrite ?Z.ltb_lt, ?Z.leb_le; lia.
Qed.

Lemma lex_empty range d :
  (0 <? sdscmplex (lmin range) (lmax range)) ||
    ((sdscmplex (lmin range) (lmax range) =? 0) && (lminex range || lmaxex range)) = true →
  lexele_gte range d && lexele_lte range d = false.
Proof.
  intros E. apply not_true_is_false. rewrite andb_true_iff.
  unfold lexele_gte, lexele_lte, zslLexValueGteMin, zslLexValueLteMax. intros [Hg Hl].
  assert (0 ≤ sdscmplex (LexStr (eele d)) (lmin range)) as Hg' by (destruct (lminex range); lia).
  assert (sdscmplex (LexStr (eele d)) (lmax range) ≤ 0) as Hl' by (destruct (lmaxex range); lia).
  apply orb_true_iff in E as [E%Z.ltb_lt|[Eq%Z.eqb_eq%sdscmplex_eq Eex]%andb_true_iff].
  - destruct (sdscmplex_cases (LexStr (eele d)) (lmin range)) as [?|[Em|[_ Em]]]; [lia|rewrite Em in Hl'; lia|].
    destruct (sdscmplex_cases (LexStr (eele d)) (lmax range)) as [[Ex _]|[Ex|?]]; [|rewrite <- Ex in E|lia].
    + pose proof (sdscmplex_trans _ _ _ Em Ex). lia.
    + lia.
  - rewrite <- Eq in Hl, Hl'. apply orb_true_iff in Eex as [Ex|Ex]; rewrite Ex in Hg || rewrite Ex in Hl; lia.
Qed.

Lemma lex_gte_node range : node_test (lex_gte range) (lexele_gte range).
Proof. intros n d E _. unfold lex_gte, lexele_gte. by rewrite E. Qed.

Lemma lex_lte_node range : node_test (lex_lte range) (lexele_lte range).
Proof. intros n d E _. unfold lex_lte, lexele_lte. by rewrite E. Qed.

Lemma zslInLexRange_spec h zsl ns range : zsl_rep h zsl ns → same_score ns →
  zslFirstInLexRange h zsl range = Some (eptr <$> head (range_in (lexele_gte range) (lexele_lte range) ns)) ∧
  zslLastInLexRange h zsl range = Some (eptr <$> last (range_in (lexele_gte range) (lexele_lte range) ns)).
Proof.
  intros Hr Hsame. pose proof (lex_gte_node range) as Hg. pose proof (lex_lte_node range) as Hl.
  destruct (query_spec _ (zslIsInLexRange h zsl range) _ _ _ _ h zsl ns Hg Hl Hr
    (lex_mono range ns (rep_sorted _ _ _ Hr) Hsame) (λ E d, lex_empty range d E) eq_refl) as (ok & E & Hf & Ht).
  unfold zslFirstInLexRange, zslLastInLexRange. rewrite E. cbn [mbind option_bind]. destruct ok; cbn [negb]; cbv iota.
  - destruct (Ht eq_refl) as (a & b & Hab & Ha & Hb). split.
    + exact (first_spec _ _ _ _ Hg Hl h zsl ns a b Hr Hab Ha).
    + exact (last_spec _ _ _ _ Hg Hl h zsl ns a b Hr Hab Hb).
  - by rewrite (Hf eq_refl).
Qed.

End score_lex.

(** ** Deletion of ranges *)

Section delete_range.
Context {R : Type} `{Score R}.
Implicit Types h : heap R.
Implicit Types ns : list (entry R).

Lemma take_delete k ns : (k ≤ length ns)%nat → take k (delete k ns) = take k ns.
Proof.
  intros. rewrite delete_take_drop, take_app_le by (rewrite length_take; lia). by rewrite take_take, Nat.min_id.
Qed.

Lemma drop_delete k ns : (k ≤ length ns)%nat → drop k (delete k ns) = drop (S k) ns.
Proof.
  intros. rewrite delete_take_drop, drop_app_ge by (rewrite length_take; lia).
  rewrite length_take. by replace (k - k `min` length ns)%nat with 0%nat by lia.
Qed.

(** The arrays of a search survive the deletion of the entry behind it. *)
Lemma upd_ok_delete zsl zsl' ns us k : header zsl' = header zsl → (zlevel zsl' ≤ zlevel zsl)%nat →
  (k ≤ length ns)%nat → upd_ok zsl ns us k → upd_ok zsl' (delete k ns) us k.
Proof.
  intros Hhd Hlv Hk [Hlen Hus]. split; [lia|]. intros i Hi. destruct (Hus i) as (u & Eu & Hu); [lia|].
  exists u. rewrite (lastpos_prefix i (delete k ns) ns k).
  - split; [done|]. pose proof (lastpos_le i ns k). unfold ptrs in *. rewrite Hhd.
    destruct (lastpos i ns k) as [|q]; [done|]. simpl in Hu |- *. rewrite list_lookup_fmap in Hu |- *.
    rewrite <- Hu. f_equal. apply list_lookup_delete_lt. lia.
  - by apply take_delete.
Qed.

(** Nodes that are freed stay freed. *)
Lemma delete_loop_spec us cond k m : ∀ fuel h zsl ns t gone,
  zsl_rep h zsl ns → upd_ok zsl ns us k → (k + m ≤ length ns)%nat → (m < fuel)%nat →
  0 ≤ t → t + Z.of_nat m < 2 ^ 64 →
  (∀ j d n, ns !! (k + j)%nat = Some d → (j ≤ m)%nat → ele n = Some (eele d) → score n = escore d →
     cond n (t + Z.of_nat j) = bool_decide (j < m)%nat) →
  ∃ h' zsl', delete_loop fuel h zsl us (eptr <$> ns !! k) cond t gone =
      Some (h', zsl', gone ++ (eele <$> take m (drop k ns))) ∧
    zsl_rep h' zsl' (take k ns ++ drop (k + m) ns) ∧ header zsl' = header zsl ∧
    dom h' = dom h ∖ list_to_set (eptr <$> take m (drop k ns)).
Proof.
  induction m as [|m IH]; intros [|fuel] h zsl ns t gone Hr Hu Hkm Hf Ht Htm Hc; try lia; cbn [delete_loop].
  - exists h, zsl. rewrite take_0, Nat.add_0_r, take_drop, app_nil_r. split; [|split_and!; [done|done|set_solver]].
    destruct (ns !! k) as [d|] eqn:Hd; [|done]. cbn [fmap option_fmap option_map].
    destruct (node_of _ _ _ _ _ (rep_links _ _ _ Hr) Hd) as (n & -> & E1 & E2). cbn [mbind option_bind].
    specialize (Hc 0%nat d n). rewrite Nat.add_0_r, Z.add_0_r in Hc. rewrite Hc by done. done.
  - destruct (lookup_lt_is_Some_2 ns k) as [d Hd]; [lia|]. rewrite Hd. cbn [fmap option_fmap option_map].
    pose proof (rep_links _ _ _ Hr) as Hl. destruct (node_of _ _ _ _ _ Hl Hd) as (n & -> & E1 & E2).
    cbn [mbind option_bind].
    pose proof (Hc 0%nat d n) as Hc0. rewrite Nat.add_0_r, Z.add_0_r in Hc0. rewrite Hc0 by (done || lia).
    rewrite bool_decide_true by lia.
    rewrite (l_cells _ _ _ Hl (S k) (eptr d) (eheight d) 0).
    2,3: simpl; by rewrite list_lookup_fmap, Hd.
    2: { pose proof (heights_pos _ _ _ Hl) as Hh. rewrite Forall_lookup in Hh. specialize (Hh _ _ Hd). lia. }
    2: { pose proof (l_level _ _ _ Hl). lia. }
    rewrite fwd0 by eauto using heights_pos. cbn [mbind option_bind].
    destruct (remove_spec h zsl ns us k d Hr Hu Hd) as (h1 & zsl1 & -> & Hr1 & _ & Hhd & Hnin & Hlv & Hdom).
    pose proof (delete_bound k d ns Hd). pose proof (delete_length k d ns Hd).
    assert (Hnext : ∀ j, delete k ns !! (k + j)%nat = ns !! (k + S j)%nat).
    { intros j. rewrite list_lookup_delete_ge by lia. f_equal. lia. }
    destruct (IH fuel (delete (eptr d) h1) zsl1 (delete k ns) (u64 (t + 1)) (gone ++ [eele d]))
      as (h' & zsl' & E & Hr' & Hhd' & Hdom').
    + by apply rep_free.
    + eapply upd_ok_delete; (done || lia).
    + lia.
    + lia.
    + rewrite uwrap_small by (unfold in_u; lia). lia.
    + rewrite uwrap_small by (unfold in_u; lia). lia.
    + intros j d' n' Hd' Hj F1 F2. rewrite Hnext in Hd'. rewrite uwrap_small by (unfold in_u; lia).
      replace (t + 1 + Z.of_nat j) with (t + Z.of_nat (S j)) by lia.
      rewrite (Hc (S j) d' n' Hd') by (done || lia). apply bool_decide_ext. lia.
    + specialize (Hnext 0%nat). rewrite Nat.add_0_r in Hnext. rewrite Hnext in E.
      replace (k + 1)%nat with (S k) in E by lia.
      exists h', zsl'. rewrite E1. cbn [mbind option_bind].
      rewrite (drop_S ns d k Hd). cbn [firstn fmap list_fmap].
      rewrite drop_delete in E, Hdom' by lia. split_and!.
      * destruct (ns !! S k); cbn [fmap option_fmap option_map] in E; rewrite E; by rewrite <- app_assoc.
      * rewrite take_delete, <- drop_drop, drop_delete, drop_drop in Hr' by lia. by replace (k + S m)%nat with (S k + m)%nat by lia.
      * congruence.
      * rewrite Hdom', dom_delete_L, Hdom. simpl. set_solver.
Qed.

(** The deletion after a search that stops at [a], up to the end [b] of the range. *)
Lemma delete_in_range ln (g l : entry R → bool) h zsl ns us a b :
  node_test ln l → zsl_rep h zsl ns → range_at g l ns a b → upd_ok zsl ns us a →
  ∃ h' zsl', delete_loop (zfuel zsl) h zsl us (eptr <$> ns !! a) (λ n _, ln n) 0 [] =
      Some (h', zsl', eele <$> range_in g l ns) ∧
    zsl_rep h' zsl' (range_out g l ns) ∧ header zsl' = header zsl ∧
    dom h' = dom h ∖ list_to_set (eptr <$> range_in g l ns).
Proof.
  intros Hln Hr Hab Hu. destruct (range_entries g l ns a b Hab) as [-> ->]. destruct Hab as (Ha & Hb & HP).
  pose proof (rep_small _ _ _ Hr).
  destruct (delete_loop_spec us (λ n _, ln n) a (b - a) (zfuel zsl) h zsl ns 0 []) as (h' & zsl' & E & Hrest); try done; try lia.
  - rewrite (zfuel_length h zsl ns) by apply Hr. lia.
  - intros j d n Hd _ E1 E2. rewrite (Hln n d E1 E2). destruct (HP _ d Hd) as [_ ->]. apply bool_decide_ext. lia.
  - exists h', zsl'. by rewrite E.
Qed.

End delete_range.

Section delete_ranges.
Context {R : Type} `{Score R}.
Implicit Types h : heap R.
Implicit Types ns : list (entry R).

(** The tests of [zslDeleteRangeByScore] are those of the range. *)
Lemma below_min (s : R) range :
  (if minex range then sle s (min range) else slt s (min range)) = negb (zslValueGteMin s range).
Proof. unfold zslValueGteMin, sle. destruct (minex range); [done|by rewrite negb_involutive]. Qed.

Lemma first_ptr ns a : Forall (λ e, (1 ≤ eheight e)%nat) ns → (fwd 0 (drop a ns)).1 = eptr <$> ns !! a.
Proof. intros. rewrite fwd0 by done. by destruct (ns !! a). Qed.

(** What all deletions of ranges do, for a range that is given by tests. *)
Definition range_deleted h zsl ns (g l : entry R → bool) (r : option (heap R * zskiplist * list (list Z))) : Prop :=
  ∃ h' zsl', r = Some (h', zsl', eele <$> range_in g l ns) ∧ zsl_rep h' zsl' (range_out g l ns) ∧
    header zsl' = header zsl ∧ dom h' = dom h ∖ list_to_set (eptr <$> range_in g l ns).

Lemma delete_search ln (g l : entry R → bool) cond h zsl ns a b :
  node_test ln l → zsl_rep h zsl ns → range_at g l ns a b → cond_at h ns 64 cond a →
  range_deleted h zsl ns g l
    ('(x, _, us) ← descend (zlevel zsl) (zfuel zsl) 64 cond h (header zsl) 0;
     '(forward, _) ← cell h x 0;
     delete_loop (zfuel zsl) h zsl us forward (λ n _, ln n) 0 []).
Proof.
  intros Hln Hr Hab Hc. pose proof (rep_links _ _ _ Hr) as Hl.
  destruct (zsl_search_spec h zsl ns 64 cond a Hl Hc) as (x & us & -> & _ & _ & Hu & Hx).
  cbn [mbind option_bind]. rewrite Hx. cbn [mbind option_bind].
  pose proof (first_ptr ns a (heights_pos _ _ _ Hl)) as E. destruct (fwd 0 (drop a ns)) as [fw sp]. simpl in E. subst fw.
  by eapply delete_in_range.
Qed.

Lemma gte_cond (gn : zskiplistNode R → bool) (g l : entry R → bool) h zsl ns a b :
  node_test gn g → zsl_rep h zsl ns → range_at g l ns a b → cond_at h ns 64 (λ n _, negb (gn n)) a.
Proof.
  intros Hg Hr (Ha & Hb & HP). apply (test_cond h zsl ns (λ n, negb (gn n)) (λ e, negb (g e))); try done.
  - intros n d E1 E2. by rewrite (Hg n d).
  - intros p e E. destruct (HP p e E) as [-> _]. repeat case_bool_decide; (done || lia).
Qed.

Lemma zslDeleteRangeByScore_spec h zsl ns range : zsl_rep h zsl ns →
  range_deleted h zsl ns (score_gte range) (score_lte range) (zslDeleteRangeByScore h zsl range).
Proof.
  intros Hr. destruct (mono_at _ _ ns (score_mono range ns (rep_sorted _ _ _ Hr))) as (a & b & Hab).
  destruct (gte_cond _ _ _ h zsl ns a b (score_gte_node range) Hr Hab) as (Ha & Hw & Hc).
  apply (delete_search (λ n, zslValueLteMax (score n) range) _ _ _ h zsl ns a b (score_lte_node range) Hr Hab).
  split_and!; [done|done|]. intros p e n Hp Hn. rewrite below_min. by apply (Hc p e n).
Qed.

Lemma zslDeleteRangeByLex_spec h zsl ns range : zsl_rep h zsl ns → same_score ns →
  range_deleted h zsl ns (lexele_gte range) (lexele_lte range) (zslDeleteRangeByLex h zsl range).
Proof.
  intros Hr Hsame. destruct (mono_at _ _ ns (lex_mono range ns (rep_sorted _ _ _ Hr) Hsame)) as (a & b & Hab).
  exact (delete_search (lex_lte range) _ _ _ h zsl ns a b
    (lex_lte_node range) Hr Hab (gte_cond _ _ _ h zsl ns a b (lex_gte_node range) Hr Hab)).
Qed.

(** Ranks count from 1. *)
Lemma zslDeleteRangeByRank_spec h zsl ns start end_ : zsl_rep h zsl ns → 1 ≤ start → end_ < 2 ^ 32 →
  let a := Z.to_nat (start - 1) in
  let m := Z.to_nat (end_ - start + 1) in
  ∃ h' zsl', zslDeleteRangeByRank h zsl start end_ = Some (h', zsl', eele <$> take m (drop a ns)) ∧
    zsl_rep h' zsl' (take a ns ++ drop (a + m) ns) ∧ header zsl' = header zsl ∧
    dom h' = dom h ∖ list_to_set (eptr <$> take m (drop a ns)).
Proof.
  intros Hr Hs He a m. pose proof (rep_links _ _ _ Hr) as Hl. pose proof (rep_small _ _ _ Hr) as Hb.
  set (k := (a `min` length ns)%nat). set (m' := (m `min` (length ns - k))%nat).
  destruct (zsl_search_spec h zsl ns 64 (λ _ t, t <? start) k Hl) as (x & us & E & _ & _ & Hu & Hx).
  { split; [lia|]. split; [lia|]. intros p e n Hp _. apply lookup_lt_Some in Hp.
    case_bool_decide; [apply Z.ltb_lt|apply Z.ltb_ge]; lia. }
  unfold zslDeleteRangeByRank. rewrite E. cbn [mbind option_bind]. rewrite Hx. cbn [mbind option_bind].
  pose proof (first_ptr ns k (heights_pos _ _ _ Hl)) as Ef. destruct (fwd 0 (drop k ns)) as [fw sp]. simpl in Ef. subst fw.
  rewrite uwrap_small by (unfold in_u; lia).
  destruct (delete_loop_spec us (λ _ t, t <=? end_) k m' (zfuel zsl) h zsl ns (Z.of_nat k + 1) [])
    as (h' & zsl' & Ed & Hr' & Hhd & Hdom); try done; try lia.
  - rewrite (zfuel_length h zsl ns) by done. lia.
  - intros j d n Hd Hj _ _. apply lookup_lt_Some in Hd. case_bool_decide; [apply Z.leb_le|apply Z.leb_gt]; lia.
  - assert (take m' (drop k ns) = take m (drop a ns)) as Et.
    { destruct (decide (a ≤ length ns)%nat).
      - replace k with a by lia. destruct (decide (m ≤ length ns - k)%nat); [by replace m' with m by lia|].
        by rewrite !take_ge by (rewrite length_drop; lia).
      - by rewrite !drop_ge, !take_nil by lia. }
    assert (take k ns ++ drop (k + m') ns = take a ns ++ drop (a + m) ns) as Eo.
    { f_equal.
      - destruct (decide (a ≤ length ns)%nat); [by replace k with a by lia|]. by rewrite !take_ge by lia.
      - destruct (decide (a + m ≤ length ns)%nat); [f_equal; lia|]. by rewrite !drop_ge by lia. }
    rewrite Et in Ed, Hdom. rewrite Eo in Hr'. exists h', zsl'. by rewrite Ed.
Qed.

(** *** Freeing *)

Lemma free_loop_spec fuel ns : ∀ h, NoDup (eptr <$> ns) →
  (∀ p d, ns !! p = Some d → ∃ sp, cell h (eptr d) 0 = Some (eptr <$> ns !! S p, sp)) →
  (length ns < fuel)%nat →
  ∃ h', free_loop fuel h (eptr <$> head ns) = Some h' ∧ dom h' = dom h ∖ list_to_set (eptr <$> ns).
Proof.
  revert ns. induction fuel as [|f IH]; intros ns h Hnd Hc Hf; [lia|]. destruct ns as [|d ns]; cbn [free_loop head fmap option_fmap option_map].
  { exists h. split; [done|]. set_solver. }
  destruct (Hc 0%nat d eq_refl) as [sp ->]. cbn [mbind option_bind].
  rewrite fmap_cons in Hnd. apply NoDup_cons in Hnd as [Hnin Hnd].
  destruct (IH ns (delete (eptr d) h)) as (h' & E & Hdom); [done| |simpl in Hf; lia|].
  - intros p d' Hd'. destruct (Hc (S p) d' Hd') as [sp' E]. exists sp'. unfold cell in *.
    rewrite lookup_delete_ne; [exact E|]. intros Eq. apply Hnin. rewrite Eq.
    apply list_elem_of_fmap. exists d'. split; [done|]. by eapply list_elem_of_lookup_2.
  - exists h'. rewrite head_lookup in E. split; [exact E|].
    rewrite Hdom, dom_delete_L, fmap_cons. simpl. set_solver.
Qed.

Lemma zslFree_spec h zsl ns : zsl_rep h zsl ns →
  ∃ h', zslFree h zsl = Some h' ∧ dom h' = dom h ∖ list_to_set (ptrs zsl ns).
Proof.
  intros [Hl _ _ _]. pose proof (l_level _ _ _ Hl). pose proof (l_nodup _ _ _ Hl) as Hnd.
  pose proof (heights_pos _ _ _ Hl) as Hh. unfold ptrs in Hnd. apply NoDup_cons in Hnd as [Hnin Hnd]. unfold zslFree.
  rewrite (l_cells _ _ _ Hl 0 (header zsl) ZSKIPLIST_MAXLEVEL 0) by (done || lia).
  pose proof (first_ptr ns 0 Hh) as E. destruct (fwd 0 (drop 0 ns)) as [fw sp]. simpl in E. subst fw.
  cbn [mbind option_bind]. rewrite <- head_lookup.
  destruct (free_loop_spec (zfuel zsl) ns (delete (header zsl) h)) as (h' & -> & Hdom); [done| | |].
  - intros p d Hd. unfold cell. rewrite lookup_delete_ne.
    + pose proof (first_ptr ns (S p) Hh) as E. exists (fwd 0 (drop (S p) ns)).2. rewrite <- E.
      rewrite Forall_lookup in Hh. specialize (Hh _ _ Hd).
      pose proof (l_cells _ _ _ Hl (S p) (eptr d) (eheight d) 0) as Hc. unfold cell in Hc. rewrite Hc; [by destruct fwd| | |lia|lia];
      simpl; by rewrite list_lookup_fmap, Hd.
    + intros Eq. apply Hnin. rewrite Eq. apply list_elem_of_fmap. exists d. split; [done|]. by eapply list_elem_of_lookup_2.
  - rewrite (zfuel_length h zsl ns) by done. lia.
  - exists h'. split; [done|]. rewrite Hdom, dom_delete_L. unfold ptrs. simpl. set_solver.
Qed.

End delete_ranges.

(** ** Creation, levels *)

Lemma zslCreate_spec `{Score R} (h : heap R) zero : zsl_rep (zslCreate h zero).1 (zslCreate h zero).2 [].
Proof.
  unfold zslCreate. cbn [fst snd]. split; [|by left|constructor|done]. constructor; simpl; try done.
  - apply NoDup_singleton.
  - intros p x hp i Hx Hp Hi Hi0. destruct p as [|p]; [|done]. injection Hx as <-.
    assert (i = 0%nat) as -> by lia. unfold cell. by rewrite lookup_insert_eq.
  - intros i Hi. exists 0. unfold cell. rewrite lookup_insert_eq. cbn [mbind option_bind level zslCreateNode].
    apply lookup_replicate. split; [done|lia].
  - exists zero, None. unfold meta_at. by rewrite lookup_insert_eq.
  - unfold ZSKIPLIST_MAXLEVEL. lia.
Qed.

Lemma random_loop_spec rnd lv : random_loop rnd lv = 
  match list_find (λ r, 16384 ≤ Z.land r 65535) rnd with
  | Some (n, _) => Some (lv + Z.of_nat n)
  | None => None
  end.
Proof.
  revert lv. induction rnd as [|r rnd IH]; intros lv; [done|]. cbn [random_loop list_find].
  destruct (Z.leb_spec (Z.land r 65535) 16383).
  - rewrite decide_False by lia. rewrite IH. destruct (list_find _ rnd) as [[n x]|]; [|done]. cbn. f_equal. lia.
  - rewrite decide_True by lia. f_equal. lia.
Qed.

(** ** Examples *)

Definition demo_add (hz : heap Z * zskiplist) (lv : nat) (s : Z) (e : list Z) : heap Z * zskiplist :=
  match zslInsert hz.1 hz.2 lv s e with Some (h, zsl, _) => (h, zsl) | None => hz end.

(** Three members: 97 with score 10, 98 and 99 with score 20. *)
Definition demo_skiplist : heap Z * zskiplist :=
  demo_add (demo_add (demo_add (zslCreate ∅ 0) 3 20 [99]) 2 10 [97]) 1 20 [98].

Definition demo_entries : list (entry Z) := [Ent 3 2 10 [97]; Ent 4 1 20 [98]; Ent 2 3 20 [99]].

#[global] Instance entry_lt_antisymm `{Score R} : AntiSymm (=) (@entry_lt R _).
Proof. intros a b Hab Hba. exfalso. apply (entry_lt_irrefl a). by transitivity b. Qed.

Lemma demo_add_rep hz ns lv s e x ns' : zsl_rep hz.1 hz.2 ns → e ∉ (eele <$> ns) →
  (1 ≤ lv ≤ ZSKIPLIST_MAXLEVEL)%nat → Z.of_nat (length ns) < 100 →
  (λ r, r.2) <$> zslInsert hz.1 hz.2 lv s e = Some x →
  StronglySorted entry_lt ns' → ns' ≡ₚ Ent x lv s e :: ns →
  zsl_rep (demo_add hz lv s e).1 (demo_add hz lv s e).2 ns'.
Proof.
  intros Hr He Hlv Hlen Ex Hs Hp. destruct (insert_spec hz.1 hz.2 ns lv s e Hr He Hlv) as (h' & zsl' & x' & k & E & _ & Hr' & _); [lia|].
  unfold demo_add. rewrite E in Ex |- *. cbn in Ex. injection Ex as <-. cbn [fst snd].
  replace ns' with (ins k (Ent x' lv s e) ns); [done|].
  apply (StronglySorted_unique entry_lt); [apply Hr'|done|]. by rewrite ins_perm, Hp.
Qed.

(** A concrete insertion of the pointer [x] into the entries [l]. *)
Ltac demo_insert l x :=
  apply (demo_add_rep _ l _ _ _ x);
    [|by apply (bool_decide_unpack _)|unfold ZSKIPLIST_MAXLEVEL; lia|simpl; lia|vm_compute; reflexivity
     |repeat first [apply SSorted_nil | apply SSorted_cons | apply Forall_nil_2 | apply Forall_cons_2
                   | apply ltb_spec; reflexivity]|solve_Permutation].

Lemma demo_rep : zsl_rep demo_skiplist.1 demo_skiplist.2 demo_entries.
Proof.
  unfold demo_skiplist, demo_entries.
  demo_insert [Ent 3 2 10 [97]; Ent 2 3 20 [99]] 4%positive.
  demo_insert [Ent 2 3 20 [99]] 3%positive.
  demo_insert (@nil (entry Z)) 2%positive.
  apply zslCreate_spec.
Qed.

(** ** The properties *)

Section claims.
Context {R : Type} `{Score R}.
Implicit Types h : heap R.
Implicit Types ns : list (entry R).

(** C11. A created skiplist stands for no entries. A random level is between 1
    and [ZSKIPLIST_MAXLEVEL], and an insertion at that level of an element that
    is not a member succeeds: the skiplist keeps its invariant (order, forward
    pointers, spans, backward pointers, tail, length, level) and stands for the
    old entries and the new one, whose node is newly allocated. *)
Theorem zslInsert_correct h zsl ns rnd lv s e zero : zsl_rep h zsl ns → e ∉ (eele <$> ns) →
  zslRandomLevel rnd = Some lv → Z.of_nat (length ns) + 1 < 2 ^ 32 - 1 →
  zsl_rep (zslCreate h zero).1 (zslCreate h zero).2 [] ∧
  (1 ≤ lv ≤ ZSKIPLIST_MAXLEVEL)%nat ∧
  ∃ h' zsl' x ns', zslInsert h zsl lv s e = Some (h', zsl', x) ∧ zsl_rep h' zsl' ns' ∧
    ns' ≡ₚ Ent x lv s e :: ns ∧ h !! x = None.
Proof.
  intros Hr He Hrnd Hb. split; [apply zslCreate_spec|].
  assert (1 ≤ lv ≤ ZSKIPLIST_MAXLEVEL)%nat as Hlv.
  { unfold zslRandomLevel in Hrnd. rewrite random_loop_spec in Hrnd.
    destruct (list_find _ rnd) as [[n r]|]; [|done]. cbn in Hrnd. injection Hrnd as <-.
    unfold ZSKIPLIST_MAXLEVEL. destruct (Z.ltb_spec (1 + Z.of_nat n) (Z.of_nat 64)); lia. }
  split; [done|]. destruct (insert_spec h zsl ns lv s e Hr He Hlv Hb) as (h' & zsl' & x & k & E & Hk & Hr' & Hx & _).
  exists h', zsl', x, (ins k (Ent x lv s e) ns). split_and!; try done. apply ins_perm.
Qed.

(** C12. Deleting an element with its score returns 1 and removes exactly its
    entry; the node is freed, or handed to the caller when it asked for it.
    A pair that is not in the skiplist gives 0 and changes nothing. Freeing
    the skiplist frees the header and every node, once each. *)
Theorem zslDelete_correct h zsl ns s e fr : zsl_rep h zsl ns →
  (∀ k d, ns !! k = Some d → seqb s (escore d) = true → eele d = e →
     ∃ h' zsl', zslDelete h zsl s e fr = Some (h', zsl', 1, if fr then None else Some (eptr d)) ∧
       zsl_rep h' zsl' (delete k ns) ∧ (h' !! eptr d = None ↔ fr = true)) ∧
  ((∀ d, d ∈ ns → seqb s (escore d) = true → eele d ≠ e) → zslDelete h zsl s e fr = Some (h, zsl, 0, None)) ∧
  (∃ h', zslFree h zsl = Some h' ∧ dom h' = dom h ∖ list_to_set (header zsl :: (eptr <$> ns))).
Proof.
  intros Hr. destruct (zslDelete_spec h zsl ns s e fr Hr) as [H1 H2]. split_and!.
  - intros k d Hd Hs He. destruct (H1 k d Hd) as (h' & zsl' & ? & ? & _ & ?); [by apply is_key_spec|]. eauto.
  - intros Hno. apply H2. intros d Hd. apply not_true_is_false. rewrite is_key_spec. intros [Hs He]. by eapply Hno.
  - by apply zslFree_spec.
Qed.

(** Updating the score of a member never fails. The other entries stay as
    they are, in the same order; the member has the new score and the skiplist
    its invariant again. The node is reused or replaced, and the level of the
    entry is its old one or the random level accordingly. *)
Theorem zslUpdateScore_correct h zsl ns k d cur e new lv : zsl_rep h zsl ns → NoDup (eele <$> ns) →
  ns !! k = Some d → seqb cur (escore d) = true → eele d = e → (1 ≤ lv ≤ ZSKIPLIST_MAXLEVEL)%nat →
  ∃ h' zsl' x ns' k', zslUpdateScore h zsl cur e new lv = Some (h', zsl', x) ∧ zsl_rep h' zsl' ns' ∧
    ns' !! k' = Some (Ent x (if decide (x = eptr d) then eheight d else lv) new e) ∧
    delete k' ns' = delete k ns.
Proof. intros Hr Hnd Hd Hs He Hlv. apply zslUpdateScore_spec; try done. by apply is_key_spec. Qed.

(** Ranks: the rank of a member is its position counted from 1, the rank
    of an element that is not a member is 0, and the element by rank is the
    entry at that position or NULL behind the end; so the two are inverse. *)
Theorem zslRank_correct h zsl ns s e rank : zsl_rep h zsl ns → NoDup (eele <$> ns) → 1 ≤ rank →
  zslGetElementByRank h zsl rank = Some (eptr <$> ns !! Z.to_nat (rank - 1)) ∧
  (∀ d, zslGetElementByRank h zsl rank = Some (Some (eptr d)) → d ∈ ns → zslGetRank h zsl (escore d) (eele d) = Some rank) ∧
  (∀ q d, ns !! q = Some d → seqb s (escore d) = true → eele d = e → zslGetRank h zsl s e = Some (Z.of_nat q + 1)) ∧
  (e ∉ (eele <$> ns) → zslGetRank h zsl s e = Some 0).
Proof.
  intros Hr Hnd Hrank. pose proof (zslGetElementByRank_spec h zsl ns rank Hr Hrank) as Hel. split_and!; [done| | |].
  - rewrite Hel. intros d E Hd. apply list_elem_of_lookup in Hd as [q Hq].
    pose proof (l_nodup _ _ _ (rep_links _ _ _ Hr)) as Hp. unfold ptrs in Hp. apply NoDup_cons in Hp as [_ Hp].
    assert (q = Z.to_nat (rank - 1)) as ->.
    { eapply NoDup_lookup; [exact Hp| |]; rewrite list_lookup_fmap; [by rewrite Hq|]. by injection E. }
    rewrite (proj1 (zslGetRank_spec h zsl ns (escore d) (eele d) Hr) _ d Hnd Hq); [f_equal; lia|].
    apply is_key_spec. split; [apply seqb_refl|done].
  - intros q d Hq Hs He. apply (proj1 (zslGetRank_spec h zsl ns s e Hr) q d Hnd Hq). by apply is_key_spec.
  - apply (zslGetRank_spec h zsl ns s e Hr).
Qed.

(** C13. The first and the last node in a range of scores are those of the
    entries whose score is in the range, in order, and NULL when there is none;
    the same holds for lexicographic ranges when all scores are equal. *)
Theorem zslRange_correct h zsl ns range lrange : zsl_rep h zsl ns →
  let byscore := filter (λ d, Is_true (zslValueGteMin (escore d) range && zslValueLteMax (escore d) range)) ns in
  let bylex := filter (λ d, Is_true (zslLexValueGteMin (eele d) lrange && zslLexValueLteMax (eele d) lrange)) ns in
  zslFirstInRange h zsl range = Some (eptr <$> head byscore) ∧
  zslLastInRange h zsl range = Some (eptr <$> last byscore) ∧
  ((∀ a b, a ∈ ns → b ∈ ns → seqb (escore a) (escore b) = true) →
   zslFirstInLexRange h zsl lrange = Some (eptr <$> head bylex) ∧
   zslLastInLexRange h zsl lrange = Some (eptr <$> last bylex)).
Proof.
  intros Hr. destruct (zslInRange_spec h zsl ns range Hr) as [H1 H2]. split; [exact H1|]. split; [exact H2|].
  intros Hsame. exact (zslInLexRange_spec h zsl ns lrange Hr Hsame).
Qed.

(** C14. Deleting a range, by score or (with equal scores) lexicographically,
    removes exactly the entries in the range and leaves the others in order;
    the elements are reported to the dict in order and exactly the nodes of
    the range are freed. By rank, exactly the entries with ranks from [start]
    to [end] are removed. *)
Theorem zslDeleteRange_correct h zsl ns range lrange start end_ : zsl_rep h zsl ns → 1 ≤ start → end_ < 2 ^ 32 →
  let deletes r (gone rest : list (entry R)) := ∃ h' zsl', r = Some (h', zsl', eele <$> gone) ∧ zsl_rep h' zsl' rest ∧
    dom h' = dom h ∖ list_to_set (eptr <$> gone) in
  let P d := Is_true (zslValueGteMin (escore d) range && zslValueLteMax (escore d) range) in
  let Q d := Is_true (zslLexValueGteMin (eele d) lrange && zslLexValueLteMax (eele d) lrange) in
  deletes (zslDeleteRangeByScore h zsl range) (filter (λ d, P d) ns) (filter (λ d, ¬ P d) ns) ∧
  ((∀ a b, a ∈ ns → b ∈ ns → seqb (escore a) (escore b) = true) →
   deletes (zslDeleteRangeByLex h zsl lrange) (filter (λ d, Q d) ns) (filter (λ d, ¬ Q d) ns)) ∧
  deletes (zslDeleteRangeByRank h zsl start end_)
    (take (Z.to_nat (end_ - start + 1)) (drop (Z.to_nat (start - 1)) ns))
    (take (Z.to_nat (start - 1)) ns ++ drop (Z.to_nat (start - 1) + Z.to_nat (end_ - start + 1)) ns).
Proof.
  intros Hr Hs He. split_and!.
  - destruct (zslDeleteRangeByScore_spec h zsl ns range Hr) as (h' & zsl' & ? & ? & _ & ?). by exists h', zsl'.
  - intros Hsame. destruct (zslDeleteRangeByLex_spec h zsl ns lrange Hr Hsame) as (h' & zsl' & ? & ? & _ & ?).
    by exists h', zsl'.
  - destruct (zslDeleteRangeByRank_spec h zsl ns start end_ Hr Hs He) as (h' & zsl' & ? & ? & _ & ?). by exists h', zsl'.
Qed.

End claims.

(** ** Witnesses *)

Lemma zslInsert_correct_witness :
  zsl_rep demo_skiplist.1 demo_skiplist.2 demo_entries ∧ zslRandomLevel [7; 3; 40000] = Some 3%nat ∧
  ∃ h' zsl' x ns', zslInsert demo_skiplist.1 demo_skiplist.2 3 15 [100] = Some (h', zsl', x) ∧ zsl_rep h' zsl' ns' ∧
    ns' ≡ₚ Ent x 3 15 [100] :: demo_entries ∧ demo_skiplist.1 !! x = None.
Proof.
  split; [exact demo_rep|]. split; [reflexivity|].
  destruct (zslInsert_correct demo_skiplist.1 demo_skiplist.2 demo_entries [7; 3; 40000] 3 15 [100] 0) as (_ & _ & Hi).
  - exact demo_rep.
  - by apply (bool_decide_unpack _).
  - reflexivity.
  - simpl. lia.
  - exact Hi.
Defined.

Lemma zslDelete_correct_witness : ∃ h' zsl',
  zslDelete demo_skiplist.1 demo_skiplist.2 20 [98] true = Some (h', zsl', 1, None) ∧
  zsl_rep h' zsl' [Ent 3 2 10 [97]; Ent 2 3 20 [99]].
Proof.
  destruct (zslDelete_correct demo_skiplist.1 demo_skiplist.2 demo_entries 20 [98] true demo_rep) as (H1 & _).
  destruct (H1 1%nat _ eq_refl eq_refl eq_refl) as (h' & zsl' & E & Hr & _). exists h', zsl'. split; [exact E|exact Hr].
Defined.

Lemma zslUpdateScore_correct_witness : ∃ h' zsl' x ns' k',
  zslUpdateScore demo_skiplist.1 demo_skiplist.2 10 [97] 30 2 = Some (h', zsl', x) ∧ zsl_rep h' zsl' ns' ∧
  ns' !! k' = Some (Ent x 2 30 [97]) ∧ delete k' ns' = [Ent 4 1 20 [98]; Ent 2 3 20 [99]].
Proof.
  destruct (zslUpdateScore_correct demo_skiplist.1 demo_skiplist.2 demo_entries 0 (Ent 3 2 10 [97]) 10 [97] 30 2 demo_rep)
    as (h' & zsl' & x & ns' & k' & E & Hr & Hk & Hd).
  - by apply (bool_decide_unpack _).
  - reflexivity.
  - reflexivity.
  - reflexivity.
  - unfold ZSKIPLIST_MAXLEVEL. lia.
  - exists h', zsl', x, ns', k'. split; [exact E|]. split; [exact Hr|]. split; [|exact Hd].
    rewrite Hk. cbn. by destruct (decide _).
Defined.

Lemma zslRank_correct_witness :
  zslGetElementByRank demo_skiplist.1 demo_skiplist.2 3 = Some (Some 2%positive) ∧
  zslGetRank demo_skiplist.1 demo_skiplist.2 20 [98] = Some 2.
Proof.
  destruct (zslRank_correct demo_skiplist.1 demo_skiplist.2 demo_entries 20 [98] 3 demo_rep) as (H1 & _ & H2 & _).
  - by apply (bool_decide_unpack _).
  - lia.
  - split; [exact H1|]. exact (H2 1%nat _ eq_refl eq_refl eq_refl).
Defined.

Lemma zslRange_correct_witness :
  zslFirstInRange demo_skiplist.1 demo_skiplist.2 (ZRange 10 20 true false) = Some (Some 4%positive) ∧
  zslLastInRange demo_skiplist.1 demo_skiplist.2 (ZRange 10 20 true false) = Some (Some 2%positive).
Proof.
  destruct (zslRange_correct demo_skiplist.1 demo_skiplist.2 demo_entries (ZRange 10 20 true false)
    (ZLex MINSTRING MAXSTRING false false) demo_rep) as (H1 & H2 & _).
  split; [exact H1|exact H2].
Defined.

Lemma zslDeleteRange_correct_witness : ∃ h' zsl',
  zslDeleteRangeByRank demo_skiplist.1 demo_skiplist.2 1 2 = Some (h', zsl', [[97]; [98]]) ∧
  zsl_rep h' zsl' [Ent 2 3 20 [99]].
Proof.
  destruct (zslDeleteRange_correct demo_skiplist.1 demo_skiplist.2 demo_entries (ZRange 10 20 true false)
    (ZLex MINSTRING MAXSTRING false false) 1 2 demo_rep) as (_ & _ & h' & zsl' & E & Hr & _); [lia|lia|].
  exists h', zsl'. split; [exact E|exact Hr].
Defined.
