(* ===== verification/Adlist.v ===== *)
(** * adlist.c: doubly linked lists

    Nodes live in a heap; a NULL dereference or a use after free is [None].
    The three methods of a list are options: [dup] may fail (NULL), the calls
    of [free] are returned as the list of freed values, [match] is a test.
    zmalloc does not return NULL (it aborts), so the branches for it are dead.

    [dseg h p ns n] says that the nodes [ns] are linked in both directions
    from [p] to [n]; [list_rep] is the invariant of a whole list. *)

From S2P Require Import Prelude.

Section adlist.
Context {V : Type} `{EqDecision V}.

Record listNode := LNode { prev : option positive; next : option positive; value : V }.

(** [free] is whether the method is set. *)
Record adlist := AList {
  lhead : option positive;
  ltail : option positive;
  dup : option (V → option V);
  free : bool;
  match_ : option (V → V → bool);
  len : Z
}.

(** [fwd_dir]: AL_START_HEAD. *)
Record listIter := Iter { inext : option positive; fwd_dir : bool }.

Abbreviation store := (gmap positive listNode).
Implicit Types (h : store) (l : adlist) (x : positive).

Definition set_prev h x (p : option positive) : option store :=
  n ← h !! x; Some (<[x := LNode p (next n) (value n)]> h).
Definition set_next h x (q : option positive) : option store :=
  n ← h !! x; Some (<[x := LNode (prev n) q (value n)]> h).

Definition set_head l p := AList p (ltail l) (dup l) (free l) (match_ l) (len l).
Definition set_ltail l p := AList (lhead l) p (dup l) (free l) (match_ l) (len l).
Definition set_len l k := AList (lhead l) (ltail l) (dup l) (free l) (match_ l) k.

(** [if (p) ...] on a pointer. *)
Definition when_some {A} (p : option positive) (f : positive → option A) (d : A) : option A :=
  match p with Some x => f x | None => Some d end.

Definition free_value l (v : V) : list V := if free l then [v] else [].

(** ** Operations *)

Definition listCreate : adlist := AList None None None false None 0.

(** The values passed to [free] are collected in order. *)
Fixpoint empty_loop (k : nat) h l (current : option positive) (freed : list V) : option (store * list V) :=
  match k with
  | O => Some (h, freed)
  | S k' =>
      x ← current;
      n ← h !! x;
      empty_loop k' (delete x h) l (next n) (freed ++ free_value l (value n))
  end.

Definition listEmpty h l : option (store * adlist * list V) :=
  '(h, freed) ← empty_loop (Z.to_nat (len l)) h l (lhead l) [];
  Some (h, set_len (set_head (set_ltail l None) None) 0, freed).

Definition listRelease h l : option (store * list V) :=
  '(h, _, freed) ← listEmpty h l; Some (h, freed).

Definition listAddNodeHead h l (v : V) : option (store * adlist) :=
  let node := fresh (dom h : gset positive) in
  if len l =? 0 then
    Some (<[node := LNode None None v]> h, set_len (set_head (set_ltail l (Some node)) (Some node)) (u64 (len l + 1)))
  else
    let h := <[node := LNode None (lhead l) v]> h in
    hd ← lhead l;
    h ← set_prev h hd (Some node);
    Some (h, set_len (set_head l (Some node)) (u64 (len l + 1))).

Definition listAddNodeTail h l (v : V) : option (store * adlist) :=
  let node := fresh (dom h : gset positive) in
  if len l =? 0 then
    Some (<[node := LNode None None v]> h, set_len (set_head (set_ltail l (Some node)) (Some node)) (u64 (len l + 1)))
  else
    let h := <[node := LNode (ltail l) None v]> h in
    tl ← ltail l;
    h ← set_next h tl (Some node);
    Some (h, set_len (set_ltail l (Some node)) (u64 (len l + 1))).

Definition listInsertNode h l (old_node : positive) (v : V) (after : bool) : option (store * adlist) :=
  let node := fresh (dom h : gset positive) in
  old ← h !! old_node;
  let '(p, q, l) :=
    if after then
      (Some old_node, next old, if decide (ltail l = Some old_node) then set_ltail l (Some node) else l)
    else
      (prev old, Some old_node, if decide (lhead l = Some old_node) then set_head l (Some node) else l) in
  let h := <[node := LNode p q v]> h in
  h ← when_some p (λ y, set_next h y (Some node)) h;
  h ← when_some q (λ y, set_prev h y (Some node)) h;
  Some (h, set_len l (u64 (len l + 1))).

Definition listDelNode h l (node : positive) : option (store * adlist * list V) :=
  n ← h !! node;
  '(h, l) ← match prev n with
            | Some y => h ← set_next h y (next n); Some (h, l)
            | None => Some (h, set_head l (next n))
            end;
  '(h, l) ← match next n with
            | Some y => h ← set_prev h y (prev n); Some (h, l)
            | None => Some (h, set_ltail l (prev n))
            end;
  Some (delete node h, set_len l (u64 (len l - 1)), free_value l (value n)).

Definition listGetIterator l (direction : bool) : listIter :=
  Iter (if direction then lhead l else ltail l) direction.
Definition listRewind l : listIter := Iter (lhead l) true.
Definition listRewindTail l : listIter := Iter (ltail l) false.

Definition listNext h (iter : listIter) : option (option positive * listIter) :=
  match inext iter with
  | Some x =>
      n ← h !! x;
      Some (Some x, Iter (if fwd_dir iter then next n else prev n) (fwd_dir iter))
  | None => Some (None, iter)
  end.

(** The copy, [None] when [dup] fails; the freed values. *)
Fixpoint dup_loop (fuel : nat) h (copy : adlist) (iter : listIter) : option (store * option adlist * list V) :=
  match fuel with
  | O => None
  | S f =>
      '(node, iter) ← listNext h iter;
      match node with
      | None => Some (h, Some copy, [])
      | Some x =>
          n ← h !! x;
          match (match dup copy with Some d => d (value n) | None => Some (value n) end) with
          | None => '(h, freed) ← listRelease h copy; Some (h, None, freed)
          | Some v => '(h, copy) ← listAddNodeTail h copy v; dup_loop f h copy iter
          end
      end
  end.

Definition listDup h (orig : adlist) : option (store * option adlist * list V) :=
  let copy := AList None None (dup orig) (free orig) (match_ orig) 0 in
  dup_loop (S (Z.to_nat (len orig))) h copy (listRewind orig).

Fixpoint search_key_loop (fuel : nat) h l (key : V) (iter : listIter) : option (option positive) :=
  match fuel with
  | O => None
  | S f =>
      '(node, iter) ← listNext h iter;
      match node with
      | None => Some None
      | Some x =>
          n ← h !! x;
          if match match_ l with Some m => m (value n) key | None => bool_decide (key = value n) end
          then Some (Some x) else search_key_loop f h l key iter
      end
  end.

Definition listSearchKey h l (key : V) : option (option positive) :=
  search_key_loop (S (Z.to_nat (len l))) h l key (listRewind l).

(** [while(index-- && n) n = n->next] *)
Fixpoint index_loop (fuel : nat) h (forward : bool) (index : Z) (n : option positive) : option (option positive) :=
  match fuel with
  | O => None
  | S f =>
      if index =? 0 then Some n else
      match n with
      | None => Some None
      | Some x => nx ← h !! x; index_loop f h forward (index - 1) (if forward then next nx else prev nx)
      end
  end.

Definition listIndex h l (index : Z) : option (option positive) :=
  if index <? 0 then index_loop (S (Z.to_nat (len l))) h false (s64 (s64 (- index) - 1)) (ltail l)
  else index_loop (S (Z.to_nat (len l))) h true index (lhead l).

Definition listRotate h l : option (store * adlist) :=
  if len l <=? 1 then Some (h, l) else
  tail ← ltail l;
  t ← h !! tail;
  let l := set_ltail l (prev t) in
  ntl ← ltail l;
  h ← set_next h ntl None;
  hd ← lhead l;
  h ← set_prev h hd (Some tail);
  h ← set_prev h tail None;
  h ← set_next h tail (lhead l);
  Some (h, set_head l (Some tail)).

Definition listJoin h l (o : adlist) : option (store * adlist * adlist) :=
  h ← when_some (lhead o) (λ x, set_prev h x (ltail l)) h;
  '(h, l) ← match ltail l with
            | Some y => h ← set_next h y (lhead o); Some (h, l)
            | None => Some (h, set_head l (lhead o))
            end;
  let l := match ltail o with Some t => set_ltail l (Some t) | None => l end in
  Some (h, set_len l (u64 (len l + len o)), set_len (set_head (set_ltail o None) None) 0).

End adlist.
Arguments listNode : clear implicits.
Arguments adlist : clear implicits.

(** ** Representation *)

Section segments.
Context {V : Type} `{EqDecision V}.
Implicit Types h : gmap positive (listNode V).
Implicit Types ns : list (positive * V).

(** The pointer to the first (last) node of a segment that ends (starts) at [d]. *)
Definition first_or ns (d : option positive) : option positive :=
  match ns with (x, _) :: _ => Some x | [] => d end.
Definition last_or ns (d : option positive) : option positive :=
  match last ns with Some (x, _) => Some x | None => d end.

Fixpoint dseg h (p : option positive) ns (n : option positive) : Prop :=
  match ns with
  | [] => True
  | (x, v) :: r => h !! x = Some (LNode p (first_or r n) v) ∧ dseg h (Some x) r n
  end.

Lemma last_or_cons x v ns d : last_or ((x, v) :: ns) d = last_or ns (Some x).
Proof.
  unfold last_or. destruct ns as [|y ns]; [done|]. rewrite last_cons_cons.
  destruct (last (y :: ns)) as [[]|] eqn:E; [done|]. by apply last_None in E.
Qed.

Lemma last_or_app a b d : last_or (a ++ b) d = last_or b (last_or a d).
Proof. unfold last_or. rewrite last_app. by destruct (last b) as [[]|]. Qed.

Lemma first_or_app a b d : first_or (a ++ b) d = first_or a (first_or b d).
Proof. by destruct a as [|[]]. Qed.

Lemma dseg_app h a b : ∀ p n, dseg h p (a ++ b) n ↔ dseg h p a (first_or b n) ∧ dseg h (last_or a p) b n.
Proof.
  induction a as [|[x v] a IH]; intros p n; simpl; [tauto|].
  rewrite IH, first_or_app, last_or_cons. tauto.
Qed.

(** Only the nodes of the segment matter. *)
Lemma dseg_ext h h' ns : ∀ p n, (∀ x, x ∈ ns.*1 → h' !! x = h !! x) → dseg h p ns n → dseg h' p ns n.
Proof.
  induction ns as [|[x v] ns IH]; intros p n He; [done|]. simpl. intros [Hx Hd]. split.
  - rewrite He; [done|by left].
  - apply IH; [|done]. intros y Hy. apply He. by right.
Qed.

Lemma dseg_insert h x nd ns p n : x ∉ ns.*1 → dseg h p ns n → dseg (<[x := nd]> h) p ns n.
Proof. intros Hx. apply dseg_ext. intros y Hy. apply lookup_insert_ne. by intros ->. Qed.

Lemma dseg_delete h x ns p n : x ∉ ns.*1 → dseg h p ns n → dseg (delete x h) p ns n.
Proof. intros Hx. apply dseg_ext. intros y Hy. apply lookup_delete_ne. by intros ->. Qed.

Lemma dseg_dom h ns : ∀ p n, dseg h p ns n → ∀ x, x ∈ ns.*1 → x ∈ dom h.
Proof.
  induction ns as [|[y v] ns IH]; intros p n Hd x Hx; simpl in *; [by apply elem_of_nil in Hx|].
  destruct Hd as [Hy Hd]. apply elem_of_cons in Hx as [->|Hx]; [by eapply elem_of_dom_2|by eapply IH].
Qed.

(** Changing the link at either end of a segment. *)
Lemma dseg_set_prev h x v ns p p' n : NoDup (x :: ns.*1) → dseg h p ((x, v) :: ns) n →
  ∃ h', set_prev h x p' = Some h' ∧ dseg h' p' ((x, v) :: ns) n ∧ dom h' = dom h ∧
    (∀ y, y ≠ x → h' !! y = h !! y).
Proof.
  intros [Hx Hnd]%NoDup_cons [Hn Hd]. unfold set_prev. rewrite Hn. cbn. eexists. split; [done|]. split_and!.
  - by rewrite lookup_insert_eq.
  - by apply dseg_insert.
  - rewrite dom_insert_L. apply elem_of_dom_2 in Hn. set_solver.
  - intros y Hy. by apply lookup_insert_ne.
Qed.

Lemma dseg_set_next h x v ns p n n' : NoDup (ns.*1 ++ [x]) → dseg h p (ns ++ [(x, v)]) n →
  ∃ h', set_next h x n' = Some h' ∧ dseg h' p (ns ++ [(x, v)]) n' ∧ dom h' = dom h ∧
    (∀ y, y ≠ x → h' !! y = h !! y).
Proof.
  intros Hnd [Hd [Hn _]]%dseg_app. unfold set_next. rewrite Hn. cbn. eexists. split; [done|]. split_and!.
  - apply dseg_app. split; [|by simpl; rewrite lookup_insert_eq]. apply dseg_insert; [|done].
    apply NoDup_app in Hnd as (_ & Hnd & _). intros Hx. apply (Hnd x Hx). by left.
  - rewrite dom_insert_L. apply elem_of_dom_2 in Hn. set_solver.
  - intros y Hy. by apply lookup_insert_ne.
Qed.

Record list_rep h (l : adlist V) ns : Prop := {
  lr_nodup : NoDup ns.*1;
  lr_seg : dseg h None ns None;
  lr_head : lhead l = first_or ns None;
  lr_tail : ltail l = last_or ns None;
  lr_len : len l = Z.of_nat (length ns);
  lr_small : Z.of_nat (length ns) < 2 ^ 64
}.

Definition same_methods (l l' : adlist V) : Prop := dup l' = dup l ∧ free l' = free l ∧ match_ l' = match_ l.

Lemma fresh_notin h ns p n : dseg h p ns n → fresh (dom h : gset positive) ∉ ns.*1.
Proof. intros Hd Hx. apply (is_fresh (dom h : gset positive)). by eapply dseg_dom. Qed.

(** A list that is not used keeps its representation. *)
Lemma list_rep_ext h h' l ns : (∀ x, x ∈ ns.*1 → h' !! x = h !! x) → list_rep h l ns → list_rep h' l ns.
Proof. intros He []. constructor; try done. by eapply dseg_ext. Qed.

Lemma list_snoc ns : ns = [] ∨ ∃ a x v, ns = a ++ [(x, v)].
Proof. destruct ns as [|[x v] a] using rev_ind; [by left|right; eauto]. Qed.

Lemma last_or_snoc a x v d : last_or (a ++ [(x, v)]) d = Some x.
Proof. by rewrite last_or_app. Qed.

Lemma len_zero (ns : list (positive * V)) : (Z.of_nat (length ns) =? 0) = bool_decide (ns = []).
Proof. destruct ns; [done|]. rewrite bool_decide_false by done. apply Z.eqb_neq. simpl. lia. Qed.

End segments.

(** ** Specifications of the operations *)

Section ops.
Context {V : Type} `{EqDecision V}.
Implicit Types h : gmap positive (listNode V).
Implicit Types ns : list (positive * V).

(** [h'] has the nodes of [h] and agrees with it outside of [ns]. *)
Definition touches h h' ns : Prop := dom h' = dom h ∧ ∀ y, y ∉ ns.*1 → h' !! y = h !! y.

Lemma touches_refl h ns : touches h h ns.
Proof. done. Qed.

Lemma link_left h a n n' : NoDup a.*1 → dseg h None a n →
  ∃ h', when_some (last_or a None) (λ y, set_next h y n') h = Some h' ∧ dseg h' None a n' ∧ touches h h' a.
Proof.
  intros Hnd Hd. destruct (list_snoc a) as [->|(c & x & v & ->)]; [by exists h|].
  rewrite last_or_snoc. simpl. rewrite fmap_app in Hnd.
  destruct (dseg_set_next h x v c None n n' Hnd Hd) as (h' & E & Hd' & Hdom & Hf). exists h'. split_and!; try done.
  split; [done|]. intros y Hy. apply Hf. intros ->. apply Hy. rewrite fmap_app. set_solver.
Qed.

Lemma link_right h b n p p' : NoDup b.*1 → dseg h p b n →
  ∃ h', when_some (first_or b None) (λ y, set_prev h y p') h = Some h' ∧ dseg h' p' b n ∧ touches h h' b.
Proof.
  intros Hnd Hd. destruct b as [|[x v] b]; [by exists h|].
  destruct (dseg_set_prev h x v b p p' n Hnd Hd) as (h' & E & Hd' & Hdom & Hf). exists h'. split_and!; try done.
  split; [done|]. intros y Hy. apply Hf. intros ->. apply Hy. simpl. by left.
Qed.

Lemma touches_seg h h' a b p n : touches h h' a → (∀ x, x ∈ a.*1 → x ∉ b.*1) → dseg h p b n → dseg h' p b n.
Proof. intros [_ Ht] Hab. apply dseg_ext. intros x Hx. apply Ht. intros Hx'. by apply (Hab x). Qed.

(** Linking two segments to a common middle part. *)
Lemma link_both h a b n p n' p' : NoDup (a.*1 ++ b.*1) → dseg h None a n → dseg h p b None →
  ∃ h1 h', when_some (last_or a None) (λ y, set_next h y n') h = Some h1 ∧
    when_some (first_or b None) (λ y, set_prev h1 y p') h1 = Some h' ∧
    dseg h' None a n' ∧ dseg h' p' b None ∧ touches h h' (a ++ b).
Proof.
  intros (Ha & Hab & Hb)%NoDup_app Hda Hdb.
  destruct (link_left h a n n' Ha Hda) as (h1 & E1 & Hda1 & Ht1).
  destruct (link_right h1 b None p p' Hb) as (h' & E2 & Hdb' & Ht2); [by eapply touches_seg|].
  exists h1, h'. split_and!; try done.
  - eapply touches_seg; [exact Ht2| |done]. intros x Hx Hx'. by apply (Hab x).
  - destruct Ht1 as [D1 F1], Ht2 as [D2 F2]. split; [congruence|]. intros y Hy. rewrite fmap_app, not_elem_of_app in Hy. destruct Hy as [Hya Hyb].
    by rewrite F2, F1.
Qed.

Lemma dseg_parts h a x v b : dseg h None (a ++ (x, v) :: b) None →
  h !! x = Some (LNode (last_or a None) (first_or b None) v) ∧
  dseg h None a (Some x) ∧ dseg h (Some x) b None.
Proof. rewrite dseg_app. simpl. tauto. Qed.

Lemma dseg_join h a x v b : dseg h None a (Some x) → dseg h (Some x) b None →
  h !! x = Some (LNode (last_or a None) (first_or b None) v) → dseg h None (a ++ (x, v) :: b) None.
Proof. rewrite dseg_app. simpl. tauto. Qed.

(** A new node between two segments. *)
Lemma splice_spec h a b v : NoDup (a ++ b).*1 → dseg h None (a ++ b) None →
  let x := fresh (dom h : gset positive) in
  let h0 := <[x := LNode (last_or a None) (first_or b None) v]> h in
  ∃ h1 h', when_some (last_or a None) (λ y, set_next h0 y (Some x)) h0 = Some h1 ∧
    when_some (first_or b None) (λ y, set_prev h1 y (Some x)) h1 = Some h' ∧
    NoDup (a ++ (x, v) :: b).*1 ∧ dseg h' None (a ++ (x, v) :: b) None ∧ dom h' = {[x]} ∪ dom h ∧
    (∀ y, y ∈ dom h → y ∉ (a ++ b).*1 → h' !! y = h !! y).
Proof.
  intros Hnd Hd x h0. pose proof (fresh_notin h (a ++ b) _ _ Hd) as Hx. fold x in Hx.
  rewrite fmap_app in Hnd. pose proof Hx as Hx'. rewrite fmap_app, not_elem_of_app in Hx'. destruct Hx' as [Hxa Hxb].
  apply dseg_app in Hd as [Hda Hdb].
  destruct (link_both h0 a b (first_or b None) (last_or a None) (Some x) (Some x) Hnd) as (h1 & h' & E1 & E2 & Hda' & Hdb' & Hdom & Hf);
    [by apply dseg_insert..|].
  exists h1, h'. split_and!; try done.
  - rewrite fmap_app, fmap_cons. simpl. rewrite <- Permutation_middle. apply NoDup_cons. split; [|done]. by rewrite not_elem_of_app.
  - apply dseg_join; try done. rewrite Hf by done. apply lookup_insert_eq.
  - rewrite Hdom. unfold h0. by rewrite dom_insert_L.
  - intros y Hy Hy'. rewrite Hf by done. apply lookup_insert_ne. intros <-. by apply (is_fresh (dom h : gset positive)).
Qed.

(** What an operation that adds the node [x] does. *)
Definition added h (l : adlist V) ns (v : V) (r : option (gmap positive (listNode V) * adlist V)) (a b : list (positive * V)) : Prop :=
  let x := fresh (dom h : gset positive) in
  ∃ h' l', r = Some (h', l') ∧ list_rep h' l' (a ++ (x, v) :: b) ∧ same_methods l l' ∧ dom h' = {[x]} ∪ dom h ∧
    (∀ y, y ∈ dom h → y ∉ ns.*1 → h' !! y = h !! y).

Lemma added_intro h l a b v l' : list_rep h l (a ++ b) → Z.of_nat (length (a ++ b)) + 1 < 2 ^ 64 →
  let x := fresh (dom h : gset positive) in
  same_methods l l' → lhead l' = first_or a (Some x) → ltail l' = last_or b (Some x) → len l' = u64 (len l + 1) →
  added h l (a ++ b) v
    (let h := <[x := LNode (last_or a None) (first_or b None) v]> h in
     h ← when_some (last_or a None) (λ y, set_next h y (Some x)) h;
     h ← when_some (first_or b None) (λ y, set_prev h y (Some x)) h;
     Some (h, l')) a b.
Proof.
  intros [Hnd Hd Hh Ht Hlen Hs] Hsm x Hm Eh Et El.
  destruct (splice_spec h a b v Hnd Hd) as (h1 & h' & E1 & E2 & Hnd' & Hd' & Hdom & Hf).
  fold x in E1, E2, Hnd', Hd', Hdom, Hf.
  unfold added. cbv zeta. fold x. rewrite E1. cbn [mbind option_bind]. rewrite E2. cbn [mbind option_bind].
  assert (length (a ++ (x, v) :: b) = S (length (a ++ b))) as Elen by (rewrite !length_app; simpl; lia).
  exists h', l'. split_and!; try done; [|apply Hm..]. constructor; try done.
  - by rewrite first_or_app, Eh.
  - by rewrite last_or_app, last_or_cons, Et.
  - rewrite El, Hlen, Elen, uwrap_small by (unfold in_u; lia). lia.
  - rewrite Elen. lia.
Qed.

Lemma listAddNodeHead_spec h l ns v : list_rep h l ns → Z.of_nat (length ns) + 1 < 2 ^ 64 →
  added h l ns v (listAddNodeHead h l v) [] ns.
Proof.
  intros Hr Hs. pose proof Hr as [_ _ Hh Ht Hlen _]. unfold listAddNodeHead. rewrite Hlen, len_zero.
  pose proof (λ l', added_intro h l [] ns v l' Hr Hs) as Ha. cbv zeta in Ha.
  destruct ns as [|[y w] ns]; [rewrite bool_decide_true by done|rewrite bool_decide_false by done].
  - by eapply Ha; simpl; rewrite ?Hlen.
  - rewrite Hh. cbn [first_or mbind option_bind] in *. specialize (Ha (set_len (set_head l (Some (fresh (dom h : gset positive)))) (u64 (Z.of_nat (length ((y, w) :: ns)) + 1)))).
    cbn [last_or last when_some mbind option_bind] in Ha. apply Ha; try done; simpl.
    + by rewrite Ht, !last_or_cons.
    + by rewrite Hlen.
Qed.

Lemma listAddNodeTail_spec h l ns v : list_rep h l ns → Z.of_nat (length ns) + 1 < 2 ^ 64 →
  added h l ns v (listAddNodeTail h l v) ns [].
Proof.
  intros Hr Hs. pose proof Hr as [_ _ Hh Ht Hlen _]. unfold listAddNodeTail. rewrite Hlen, len_zero.
  pose proof (λ l', added_intro h l ns [] v l' ltac:(by rewrite app_nil_r) ltac:(by rewrite app_nil_r)) as Ha. cbv zeta in Ha.
  rewrite app_nil_r in Ha. destruct (list_snoc ns) as [->|(c & y & w & ->)].
  - rewrite bool_decide_true by done. by eapply Ha; simpl; rewrite ?Hlen.
  - rewrite bool_decide_false by (by destruct c). rewrite Ht, last_or_snoc in *. cbn [mbind option_bind].
    specialize (Ha (set_len (set_ltail l (Some (fresh (dom h : gset positive)))) (u64 (Z.of_nat (length (c ++ [(y, w)])) + 1)))).
    cbn [when_some first_or mbind option_bind] in Ha. apply Ha; try done; cbn [lhead ltail len set_len set_ltail].
    + rewrite Hh, !first_or_app. by destruct c as [|[]].
    + by rewrite Hlen.
Qed.

End ops.

Section ops2.
Context {V : Type} `{EqDecision V}.
Implicit Types h : gmap positive (listNode V).
Implicit Types ns : list (positive * V).

Lemma last_or_in ns d : ns = [] ∨ ∃ x, last_or ns d = Some x ∧ x ∈ ns.*1.
Proof.
  destruct (list_snoc ns) as [->|(c & x & v & ->)]; [by left|right]. exists x.
  rewrite last_or_snoc, fmap_app. set_solver.
Qed.

Lemma last_or_nonempty ns d d' : ns ≠ [] → last_or ns d = last_or ns d'.
Proof. destruct (list_snoc ns) as [->|(c & x & v & ->)]; [done|]. by rewrite !last_or_snoc. Qed.

Lemma listInsertNode_spec h l a y w b v after : list_rep h l (a ++ (y, w) :: b) →
  Z.of_nat (length (a ++ (y, w) :: b)) + 1 < 2 ^ 64 →
  added h l (a ++ (y, w) :: b) v (listInsertNode h l y v after)
    (if after then a ++ [(y, w)] else a) (if after then b else (y, w) :: b).
Proof.
  intros Hr Hs. pose proof Hr as [Hnd Hd Hh Ht Hlen _]. destruct (dseg_parts h a y w b Hd) as (Hy & _ & _).
  unfold listInsertNode. rewrite Hy. cbn [mbind option_bind prev next].
  rewrite fmap_app, fmap_cons in Hnd. apply NoDup_app in Hnd as (Hna & Hab & [Hyb Hnb]%NoDup_cons). simpl in Hyb.
  destruct after.
  - assert (a ++ (y, w) :: b = (a ++ [(y, w)]) ++ b) as E by (by rewrite <- app_assoc).
    rewrite E in Hr, Hs |- *. pose proof (λ l', added_intro h l (a ++ [(y, w)]) b v l' Hr Hs) as Ha. cbv zeta in Ha.
    rewrite last_or_snoc in Ha. cbn [when_some] in *. apply Ha; [by case_decide| | |by case_decide].
    + rewrite first_or_app. case_decide; simpl; by rewrite Hh, first_or_app; destruct a as [|[]].
    + rewrite last_or_app, last_or_cons in Ht. destruct (last_or_in b (Some y)) as [->|(z & Ez & Hz)].
      * by rewrite decide_True.
      * rewrite decide_False by (rewrite Ht, Ez; congruence). simpl. rewrite Ht. apply last_or_nonempty. intros ->. by apply elem_of_nil in Hz.
  - pose proof (λ l', added_intro h l a ((y, w) :: b) v l' Hr Hs) as Ha. cbv zeta in Ha.
    cbn [first_or when_some] in Ha. apply Ha; [by case_decide| | |by case_decide].
    + rewrite first_or_app in Hh. destruct a as [|[z u] a].
      * by rewrite decide_True.
      * rewrite decide_False; [done|]. rewrite Hh. intros [= Ez]. apply (Hab z); rewrite ?Ez; by left.
    + case_decide; simpl; by rewrite Ht, last_or_app, !last_or_cons.
Qed.

Lemma listDelNode_spec h l a x v b : list_rep h l (a ++ (x, v) :: b) →
  ∃ h' l', listDelNode h l x = Some (h', l', free_value l v) ∧ list_rep h' l' (a ++ b) ∧ same_methods l l' ∧
    h' !! x = None ∧ dom h' = dom h ∖ {[x]} ∧ (∀ y, y ∉ (a ++ (x, v) :: b).*1 → h' !! y = h !! y).
Proof.
  intros [Hnd Hd Hh Ht Hlen Hs]. destruct (dseg_parts h a x v b Hd) as (Hx & Hda & Hdb).
  rewrite fmap_app, fmap_cons in Hnd. simpl in Hnd. rewrite <- Permutation_middle in Hnd. apply NoDup_cons in Hnd as [Hxn Hnd].
  destruct (link_both h a b (Some x) (Some x) (first_or b None) (last_or a None) Hnd Hda Hdb)
    as (h1 & h2 & E1 & E2 & Hda' & Hdb' & Hdom & Hf).
  set (l1 := match last_or a None with Some _ => l | None => set_head l (first_or b None) end).
  set (l2 := match first_or b None with Some _ => l1 | None => set_ltail l1 (last_or a None) end).
  assert (listDelNode h l x = Some (delete x h2, set_len l2 (u64 (len l2 - 1)), free_value l v)) as ->.
  { unfold listDelNode. rewrite Hx. cbn [mbind option_bind prev next value]. subst l2 l1.
    destruct (last_or a None) as [ya|]; cbn [when_some] in E1; [rewrite E1|injection E1 as ->]; cbn [mbind option_bind];
    (destruct (first_or b None) as [yb|]; cbn [when_some] in E2; [rewrite E2|injection E2 as ->]; cbn [mbind option_bind]); done. }
  rewrite length_app in Hs, Hlen. simpl in Hs, Hlen. rewrite first_or_app in Hh. rewrite last_or_app, last_or_cons in Ht.
  eexists _, _. split; [done|]. split; [constructor|split_and!].
  - by rewrite fmap_app.
  - rewrite fmap_app in *. rewrite not_elem_of_app in Hxn. destruct Hxn. apply dseg_app. split; by apply dseg_delete.
  - subst l2 l1. destruct (list_snoc a) as [->|(c & y & u & ->)].
    + by destruct b as [|[]].
    + rewrite last_or_snoc. rewrite !first_or_app in *. destruct b as [|[]], c as [|[]]; simpl in *; done.
  - subst l2 l1. rewrite last_or_app. destruct b as [|[z u] b].
    + by destruct (last_or a None).
    + rewrite !last_or_cons in *. by destruct (last_or a None).
  - assert (len l2 = len l) as -> by (subst l2 l1; by destruct (last_or a None), (first_or b None)).
    cbn [len set_len]. rewrite Hlen, uwrap_small by (unfold in_u; lia). rewrite length_app. lia.
  - rewrite length_app. lia.
  - subst l2 l1; by destruct (last_or a None), (first_or b None).
  - apply lookup_delete_eq.
  - by rewrite dom_delete_L, Hdom.
  - intros y Hy. rewrite fmap_app, fmap_cons, not_elem_of_app, not_elem_of_cons in Hy. destruct Hy as (? & ? & ?).
    rewrite lookup_delete_ne by done. apply Hf. rewrite fmap_app, not_elem_of_app. done.
Qed.

Lemma empty_loop_spec l ns : ∀ h p freed, NoDup ns.*1 → dseg h p ns None →
  ∃ h', empty_loop (length ns) h l (first_or ns None) freed = Some (h', freed ++ (if free l then ns.*2 else [])) ∧
    dom h' = dom h ∖ list_to_set ns.*1 ∧ (∀ y, y ∉ ns.*1 → h' !! y = h !! y).
Proof.
  induction ns as [|[x v] ns IH]; intros h p freed Hnd Hd; cbn [empty_loop length first_or].
  { exists h. split_and!; [|set_solver|done]. f_equal. f_equal. by destruct (free l); rewrite app_nil_r. }
  destruct Hd as [Hx Hd]. cbn [mbind option_bind]. rewrite Hx. cbn [mbind option_bind next value].
  rewrite fmap_cons in Hnd. apply NoDup_cons in Hnd as [Hxn Hnd].
  destruct (IH (delete x h) (Some x) (freed ++ free_value l v) Hnd) as (h' & -> & Hdom & Hf); [by apply dseg_delete|].
  exists h'. split_and!.
  - f_equal. f_equal. rewrite <- app_assoc. f_equal. unfold free_value. by destruct (free l).
  - rewrite Hdom, dom_delete_L, fmap_cons. simpl. set_solver.
  - intros y Hy. rewrite fmap_cons, not_elem_of_cons in Hy. destruct Hy. rewrite Hf by done. by apply lookup_delete_ne.
Qed.

Lemma listEmpty_spec h l ns : list_rep h l ns →
  ∃ h' l', listEmpty h l = Some (h', l', if free l then ns.*2 else []) ∧ list_rep h' l' [] ∧ same_methods l l' ∧
    dom h' = dom h ∖ list_to_set ns.*1 ∧ (∀ y, y ∉ ns.*1 → h' !! y = h !! y).
Proof.
  intros [Hnd Hd Hh Ht Hlen Hs]. destruct (empty_loop_spec l ns h None [] Hnd Hd) as (h' & E & Hdom & Hf).
  unfold listEmpty. rewrite Hlen, Nat2Z.id, Hh, E. cbn [mbind option_bind]. eexists _, _. split; [done|].
  split_and!; try done. constructor; try done. constructor.
Qed.

Lemma listRelease_spec h l ns : list_rep h l ns →
  ∃ h', listRelease h l = Some (h', if free l then ns.*2 else []) ∧
    dom h' = dom h ∖ list_to_set ns.*1 ∧ (∀ y, y ∉ ns.*1 → h' !! y = h !! y).
Proof.
  intros Hr. destruct (listEmpty_spec h l ns Hr) as (h' & l' & E & _ & _ & Hrest). unfold listRelease. rewrite E. eauto.
Qed.

Lemma listJoin_spec h l o ns os : list_rep h l ns → list_rep h o os → (∀ x, x ∈ ns.*1 → x ∉ os.*1) →
  Z.of_nat (length ns + length os) < 2 ^ 64 →
  ∃ h' l' o', listJoin h l o = Some (h', l', o') ∧ list_rep h' l' (ns ++ os) ∧ list_rep h' o' [] ∧
    same_methods l l' ∧ same_methods o o' ∧ touches h h' (ns ++ os).
Proof.
  intros [Hnd Hd Hh Ht Hlen Hs] [Ond Od Oh Ot Olen Os] Hdis Hsm.
  destruct (link_right h os None None (last_or ns None) Ond Od) as (h1 & E1 & Od1 & [D1 F1]).
  destruct (link_left h1 ns None (first_or os None) Hnd) as (h2 & E2 & Hd2 & [D2 F2]).
  { eapply touches_seg; [split; [exact D1|exact F1]| |exact Hd]. intros x Hx Hx'. by apply (Hdis x). }
  assert (touches h h2 (ns ++ os)) as Htouch.
  { split; [congruence|]. intros y Hy. rewrite fmap_app, not_elem_of_app in Hy. destruct Hy. by rewrite F2, F1. }
  unfold listJoin. rewrite Ht, Oh, E1. cbn [mbind option_bind].
  set (l1 := match last_or ns None with Some _ => l | None => set_head l (first_or os None) end).
  assert (match last_or ns None with
          | Some y => h0 ← set_next h1 y (first_or os None); Some (h0, l)
          | None => Some (h1, set_head l (first_or os None)) end = Some (h2, l1)) as ->.
  { subst l1. destruct (last_or ns None); cbn [when_some] in E2; [by rewrite E2|by injection E2 as ->]. }
  cbn [mbind option_bind]. rewrite Ot.
  assert (len l1 = len l ∧ same_methods l l1 ∧ lhead l1 = first_or (ns ++ os) None ∧ ltail l1 = last_or ns None) as (El & Em & Eh & Et).
  { rewrite first_or_app. subst l1. destruct (list_snoc ns) as [->|(c & x & v & ->)]; [done|].
    rewrite last_or_snoc in *. rewrite Hh, !first_or_app. by destruct c as [|[]]. }
  eexists _, _, _. split; [done|]. split; [constructor|split; [constructor|split_and!]]; try done.
  - rewrite fmap_app. apply NoDup_app. done.
  - apply dseg_app. split; [done|]. eapply touches_seg; [split; [exact D2|exact F2]| |exact Od1]. done.
  - by destruct (last_or os None).
  - rewrite last_or_app. destruct (list_snoc os) as [->|(c & x & v & ->)]; [done|]. by rewrite !last_or_snoc.
  - assert (len (match last_or os None with Some t => set_ltail l1 (Some t) | None => l1 end) = len l) as E.
    { by destruct (last_or os None). }
    rewrite length_app. cbn [len set_len]. rewrite E, Hlen, Olen, uwrap_small by (unfold in_u; lia). lia.
  - rewrite length_app. lia.
  - constructor.
  - by destruct (last_or os None).
Qed.

Lemma listRotate_spec h l ns : list_rep h l ns →
  ∃ h' l', listRotate h l = Some (h', l') ∧
    list_rep h' l' (match last ns with Some e => e :: take (length ns - 1) ns | None => [] end) ∧
    same_methods l l' ∧ touches h h' ns.
Proof.
  intros Hr. pose proof Hr as [Hnd Hd Hh Ht Hlen Hs]. unfold listRotate. rewrite Hlen.
  destruct (list_snoc ns) as [->|(a & t & v & ->)]; [by exists h, l|].
  rewrite last_snoc, length_app. simpl length. replace (length a + 1 - 1)%nat with (length a) by lia. rewrite take_app_length.
  destruct a as [|[hd w] c]; [by exists h, l|]. rewrite (proj2 (Z.leb_gt _ _)) by (simpl; lia).
  rewrite Ht, last_or_snoc. cbn [mbind option_bind]. destruct (dseg_parts h _ t v [] Hd) as (Etl & Hda & _).
  rewrite Etl. cbn [mbind option_bind prev ltail set_ltail lhead].
  rewrite fmap_app in Hnd. apply NoDup_app in Hnd as (Hna & Hat & _). assert (t ∉ ((hd, w) :: c).*1) as Htn by set_solver.
  destruct (link_left h ((hd, w) :: c) (Some t) None Hna Hda) as (h1 & E1 & Hd1 & [D1 F1]).
  destruct (link_right h1 ((hd, w) :: c) None None (Some t) Hna Hd1) as (h2 & E2 & Hd2 & [D2 F2]).
  destruct (last_or_in ((hd, w) :: c) None) as [?|(z & Ez & _)]; [done|]. rewrite Ez in *. cbn [mbind option_bind when_some] in *.
  rewrite E1. cbn [mbind option_bind]. rewrite Hh. cbn [app first_or mbind option_bind when_some] in *. rewrite E2. cbn [mbind option_bind].
  unfold set_prev, set_next. rewrite F2, F1, Etl by done. cbn [mbind option_bind next value].
  rewrite lookup_insert_eq. cbn [mbind option_bind prev value]. rewrite insert_insert_eq.
  eexists _, _. split; [done|]. split; [constructor|split]; try done; cbn [lhead ltail len set_head set_ltail].
  - rewrite fmap_cons. by apply NoDup_cons.
  - split; [by rewrite lookup_insert_eq|]. by apply dseg_insert.
  - rewrite Hlen. simpl. rewrite length_app. simpl. lia.
  - simpl in Hs |- *. rewrite length_app in Hs. simpl in Hs. lia.
  - split.
    + rewrite dom_insert_L, D2, D1. apply elem_of_dom_2 in Etl. set_solver.
    + change ((hd, w) :: c ++ [(t, v)]) with (((hd, w) :: c) ++ [(t, v)]). intros y Hy.
      rewrite fmap_app, not_elem_of_app in Hy. destruct Hy as [? Hyt]. rewrite lookup_insert_ne by set_solver. by rewrite F2, F1.
Qed.

End ops2.

(** ** Traversals *)

Section traversal.
Context {V : Type} `{EqDecision V}.
Implicit Types h : gmap positive (listNode V).
Implicit Types ns : list (positive * V).

(** An iterator that stands between [a] and [b]. *)
Definition iter_at (forward : bool) (a b : list (positive * V)) : listIter :=
  Iter (if forward then first_or b None else last_or a None) forward.

Lemma listNext_forward h a b : dseg h None (a ++ b) None →
  listNext h (iter_at true a b) =
    match b with
    | (x, v) :: r => Some (Some x, iter_at true (a ++ [(x, v)]) r)
    | [] => Some (None, iter_at true a b)
    end.
Proof.
  intros Hd. unfold listNext, iter_at. cbn [inext fwd_dir]. destruct b as [|[x v] r]; [done|]. cbn [first_or].
  destruct (dseg_parts h a x v r Hd) as (-> & _). done.
Qed.

Lemma listNext_backward h a b : dseg h None (a ++ b) None →
  listNext h (iter_at false a b) =
    match last a with
    | Some (x, v) => Some (Some x, iter_at false (take (length a - 1) a) ((x, v) :: b))
    | None => Some (None, iter_at false a b)
    end.
Proof.
  intros Hd. unfold listNext, iter_at. cbn [inext fwd_dir]. destruct (list_snoc a) as [->|(c & x & v & ->)]; [done|].
  rewrite last_or_snoc, last_snoc, length_app. simpl length. replace (length c + 1 - 1)%nat with (length c) by lia.
  rewrite take_app_length. rewrite <- app_assoc in Hd. destruct (dseg_parts h c x v b Hd) as (-> & _). done.
Qed.

Definition matches (l : adlist V) (key v : V) : bool :=
  match match_ l with Some m => m v key | None => bool_decide (key = v) end.

Lemma search_key_spec h l key b : ∀ a, dseg h None (a ++ b) None →
  search_key_loop (S (length b)) h l key (iter_at true a b) =
    Some (fst <$> head (filter (λ e, Is_true (matches l key e.2)) b)).
Proof.
  induction b as [|[x v] b IH]; intros a Hd; cbn [search_key_loop length]; rewrite (listNext_forward h a _ Hd); [done|].
  cbn [mbind option_bind]. destruct (dseg_parts h a x v b Hd) as (-> & _). cbn [mbind option_bind value].
  change (match match_ l with Some m => m v key | None => bool_decide (key = v) end) with (matches l key v).
  rewrite filter_cons. cbn [snd]. destruct (matches l key v); [done|].
  rewrite decide_False by (intros []). rewrite <- (IH (a ++ [(x, v)])) by (by rewrite <- app_assoc). done.
Qed.

Lemma index_loop_S f h forward index n : index_loop (S f) h forward index n =
  if index =? 0 then Some n else
  match n with
  | None => Some None
  | Some x => nx ← h !! x; index_loop f h forward (index - 1) (if forward then next nx else prev nx)
  end.
Proof. done. Qed.

(** The steps of an index from either end. *)
Lemma index_forward h ns i k : dseg h None ns None → (i + k = length ns)%nat → ∀ idx, 0 ≤ idx →
  index_loop (S k) h true idx (fst <$> ns !! i) = Some (fst <$> ns !! (i + Z.to_nat idx)%nat).
Proof.
  intros Hd. revert i. induction k as [|k IH]; intros i Hi idx Hidx; rewrite index_loop_S.
  - destruct (Z.eqb_spec idx 0) as [->|]; [by rewrite Nat.add_0_r|]. by rewrite !lookup_ge_None_2 by lia.
  - destruct (Z.eqb_spec idx 0) as [->|]; [by rewrite Nat.add_0_r|].
    destruct (lookup_lt_is_Some_2 ns i) as [[x v] Hx]; [lia|]. rewrite Hx. cbn [fmap option_fmap option_map fst].
    rewrite <- (take_drop_middle ns i (x, v) Hx) in Hd. destruct (dseg_parts h _ x v _ Hd) as (-> & _). cbn [mbind option_bind next].
    assert (first_or (drop (S i) ns) None = fst <$> ns !! S i) as ->.
    { rewrite <- (Nat.add_0_r (S i)) at 2. rewrite <- lookup_drop. by destruct (drop (S i) ns) as [|[]]. }
    rewrite IH by lia. do 3 f_equal. lia.
Qed.

Lemma index_backward h ns k : dseg h None ns None → (k ≤ length ns)%nat → ∀ idx, 0 ≤ idx →
  index_loop (S k) h false idx (last_or (take k ns) None) =
    Some (if idx <? Z.of_nat k then fst <$> ns !! (k - 1 - Z.to_nat idx)%nat else None).
Proof.
  intros Hd. induction k as [|k IH]; intros Hk idx Hidx; rewrite index_loop_S.
  - rewrite (proj2 (Z.ltb_ge _ _)) by lia. simpl. by destruct (idx =? 0).
  - destruct (lookup_lt_is_Some_2 ns k) as [[x v] Hx]; [lia|]. rewrite (take_S_r ns k (x, v) Hx), last_or_snoc.
    destruct (Z.eqb_spec idx 0) as [->|].
    + rewrite (proj2 (Z.ltb_lt _ _)) by lia. replace (S k - 1 - Z.to_nat 0)%nat with k by lia. by rewrite Hx.
    + rewrite <- (take_drop_middle ns k (x, v) Hx) in Hd. destruct (dseg_parts h _ x v _ Hd) as (-> & _). cbn [mbind option_bind prev].
      rewrite IH by lia. f_equal. destruct (Z.ltb_spec (idx - 1) (Z.of_nat k)), (Z.ltb_spec idx (Z.of_nat (S k))); try lia; [|done].
      do 2 f_equal. lia.
Qed.

Lemma listIndex_spec h l ns idx : list_rep h l ns → - 2 ^ 63 ≤ idx < 2 ^ 63 →
  listIndex h l idx = Some (fst <$>
    (if idx <? 0 then (if Z.of_nat (length ns) + idx <? 0 then None else ns !! Z.to_nat (Z.of_nat (length ns) + idx))
     else ns !! Z.to_nat idx)).
Proof.
  intros [Hnd Hd Hh Ht Hlen Hs] Hi. unfold listIndex. rewrite Hlen, Nat2Z.id, Hh, Ht. destruct (Z.ltb_spec idx 0).
  - assert (s64 (s64 (- idx) - 1) = - idx - 1) as ->.
    { destruct (decide (idx = - 2 ^ 63)) as [->|]; [reflexivity|]. rewrite !swrap_small; unfold in_s; rewrite ?swrap_small; unfold in_s; lia. }
    rewrite <- (take_ge ns (length ns)) at 2 by lia. rewrite (index_backward h ns (length ns)) by (done || lia). f_equal.
    destruct (Z.ltb_spec (- idx - 1) (Z.of_nat (length ns))), (Z.ltb_spec (Z.of_nat (length ns) + idx) 0); try lia; [|done].
    do 2 f_equal. lia.
  - assert (first_or ns None = fst <$> ns !! 0%nat) as -> by (by destruct ns as [|[]]).
    by rewrite (index_forward h ns 0 (length ns)) by (done || lia).
Qed.

End traversal.

(** ** Duplication *)

Section dup.
Context {V : Type} `{EqDecision V}.
Implicit Types h : gmap positive (listNode V).
Implicit Types ns : list (positive * V).

(** The heap [h] is [h0] and the nodes of [cs]. *)
Definition extends h0 h (cs : list (positive * V)) : Prop :=
  dom h = dom h0 ∪ list_to_set cs.*1 ∧ (∀ x, x ∈ cs.*1 → x ∉ dom h0) ∧ (∀ y, y ∈ dom h0 → h !! y = h0 !! y).

Lemma extends_seg h0 h cs ns p n : extends h0 h cs → dseg h0 p ns n → dseg h p ns n.
Proof. intros (_ & _ & Hf) Hd. eapply dseg_ext; [|exact Hd]. intros x Hx. apply Hf. by eapply dseg_dom. Qed.

Lemma extends_release h0 h copy cs : extends h0 h cs → list_rep h copy cs →
  listRelease h copy = Some (h0, if free copy then cs.*2 else []).
Proof.
  intros (Hdom & Hdis & Hf) Hr. destruct (listRelease_spec h copy cs Hr) as (h' & -> & Hdom' & Hf').
  do 2 f_equal. apply map_eq. intros y. destruct (decide (y ∈ dom h0)) as [Hy|Hy].
  - rewrite Hf', Hf by (try done; intros Hc; by apply (Hdis y)). done.
  - transitivity (@None (listNode V)); [|symmetry]; apply not_elem_of_dom; [|done]. rewrite Hdom', Hdom. set_solver.
Qed.

Lemma extends_add h0 h copy cs v : extends h0 h cs → list_rep h copy cs → Z.of_nat (length cs) + 1 < 2 ^ 64 →
  ∃ h' copy' x, listAddNodeTail h copy v = Some (h', copy') ∧ list_rep h' copy' (cs ++ [(x, v)]) ∧
    same_methods copy copy' ∧ extends h0 h' (cs ++ [(x, v)]).
Proof.
  intros (Hdom & Hdis & Hf) Hr Hs. destruct (listAddNodeTail_spec h copy cs v Hr Hs) as (h' & copy' & E & Hr' & Hm & Hdom' & Hf').
  exists h', copy', (fresh (dom h : gset positive)). split_and!; try done; try apply Hm.
  pose proof (is_fresh (dom h : gset positive)) as Hx. split_and!.
  - rewrite Hdom', Hdom, fmap_app. set_solver.
  - intros x. rewrite fmap_app, elem_of_app. intros [?|?]; [by apply Hdis|]. set_solver.
  - intros y Hy. rewrite Hf'; [by apply Hf|set_solver|]. intros Hc. by apply (Hdis y).
Qed.

Definition dup_value (l : adlist V) (v : V) : option V := match dup l with Some d => d v | None => Some v end.

Lemma dup_loop_spec h0 b : ∀ a h copy cs, dseg h0 None (a ++ b) None → extends h0 h cs → list_rep h copy cs →
  Z.of_nat (length cs + length b) + 1 < 2 ^ 64 →
  match mapM (dup_value copy) b.*2 with
  | Some vs => ∃ h' copy' cs', dup_loop (S (length b)) h copy (iter_at true a b) = Some (h', Some copy', []) ∧
      list_rep h' copy' cs' ∧ cs'.*2 = cs.*2 ++ vs ∧ extends h0 h' cs' ∧ same_methods copy copy'
  | None => ∃ good bad rest vs, b.*2 = good ++ bad :: rest ∧ mapM (dup_value copy) good = Some vs ∧ dup_value copy bad = None ∧
      dup_loop (S (length b)) h copy (iter_at true a b) = Some (h0, None, if free copy then cs.*2 ++ vs else [])
  end.
Proof.
  induction b as [|[x v] b IH]; intros a h copy cs Hd He Hr Hs.
  { simpl. eexists _, _, cs. split; [done|]. split_and!; try done; try apply He. by rewrite app_nil_r. }
  pose proof (extends_seg _ _ _ _ _ _ He Hd) as Hdh. rewrite fmap_cons. cbn [snd mapM].
  assert (dup_loop (S (length ((x, v) :: b))) h copy (iter_at true a ((x, v) :: b)) =
    match dup_value copy v with
    | None => '(h, freed) ← listRelease h copy; Some (h, None, freed)
    | Some v => '(h, copy) ← listAddNodeTail h copy v; dup_loop (S (length b)) h copy (iter_at true (a ++ [(x, v)]) b)
    end) as ->.
  { cbn [length]. remember (S (length b)) as f. cbn [dup_loop]. rewrite (listNext_forward h a _ Hdh). cbn [mbind option_bind].
    destruct (dseg_parts h a x v b Hdh) as (-> & _). done. }
  destruct (dup_value copy v) as [v'|] eqn:Ev; cbn [mbind option_bind].
  2: { exists [], v, b.*2, []. split_and!; try done. rewrite (extends_release h0 h copy cs He Hr). simpl. by rewrite app_nil_r. }
  simpl in Hs. destruct (extends_add h0 h copy cs v' He Hr ltac:(lia)) as (h1 & copy1 & x1 & -> & Hr1 & Hm1 & He1).
  cbn [mbind option_bind].
  assert (dup_value copy1 = dup_value copy) as Edup by (unfold dup_value; by destruct Hm1 as [-> _]).
  specialize (IH (a ++ [(x, v)]) h1 copy1 (cs ++ [(x1, v')])). rewrite Edup in IH.
  assert ((cs ++ [(x1, v')]).*2 = cs.*2 ++ [v']) as Ecs by (by rewrite fmap_app).
  assert (free copy1 = free copy) as Efree by apply Hm1.
  destruct (mapM (dup_value copy) b.*2) as [vs|] eqn:Em; cbn [mbind option_bind mret option_ret];
    (destruct IH as (r1 & r2 & r3 & Hi); [by rewrite <- app_assoc|done|done|rewrite length_app; simpl; lia|]).
  - destruct Hi as (E & ? & E3 & ? & Hm). exists r1, r2, r3. split; [exact E|]. split_and!; try done.
    + rewrite E3, Ecs. by rewrite <- app_assoc.
    + destruct Hm1 as (? & ? & ?), Hm as (? & ? & ?). split_and!; congruence.
  - destruct Hi as (vs & E1 & E2 & E3 & E4). exists (v :: r1), r2, r3, (v' :: vs). split_and!; try done.
    + by rewrite E1.
    + simpl. by rewrite Ev, E2.
    + etrans; [exact E4|]. rewrite Efree, Ecs. by rewrite <- app_assoc.
Qed.

Lemma listDup_spec h l ns : list_rep h l ns → Z.of_nat (length ns) + 1 < 2 ^ 64 →
  match mapM (dup_value l) ns.*2 with
  | Some vs => ∃ h' copy cs, listDup h l = Some (h', Some copy, []) ∧ list_rep h' copy cs ∧ list_rep h' l ns ∧
      cs.*2 = vs ∧ extends h h' cs ∧ same_methods l copy
  | None => ∃ good bad rest vs, ns.*2 = good ++ bad :: rest ∧ mapM (dup_value l) good = Some vs ∧ dup_value l bad = None ∧
      listDup h l = Some (h, None, if free l then vs else [])
  end.
Proof.
  intros Hr Hs. pose proof Hr as [Hnd Hd Hh Ht Hlen _].
  pose proof (dup_loop_spec h ns [] h (AList None None (dup l) (free l) (match_ l) 0) []) as Hl.
  unfold listDup, listRewind. rewrite Hlen, Nat2Z.id, Hh. change (dup_value (AList _ _ _ _ _ _)) with (dup_value l) in Hl.
  destruct (mapM (dup_value l) ns.*2) as [vs|];
    (destruct Hl as (r1 & r2 & r3 & Hi); [done|split_and!; [set_solver|set_solver|done]|by constructor; [constructor|..]|simpl; lia|]).
  - destruct Hi as (E & Hc & E3 & He & Hm). exists r1, r2, r3. split_and!; try done; try apply Hm.
    eapply list_rep_ext; [|exact Hr]. intros x Hx. apply He. by eapply dseg_dom.
  - destruct Hi as (vs & ?). exists r1, r2, r3, vs. done.
Qed.

End dup.

(** ** Loops over a list

    The usage pattern of the comment of [listNext]: visit the nodes and remove
    some of those that were just returned. *)

Section sweep.
Context {V : Type} `{EqDecision V}.
Implicit Types h : gmap positive (listNode V).
Implicit Types ns : list (positive * V).

Fixpoint sweep (fuel : nat) h (l : adlist V) (iter : listIter) (drop_it : V → bool) (seen : list positive) :
    option (gmap positive (listNode V) * adlist V * list positive) :=
  match fuel with
  | O => None
  | S f =>
      '(node, iter) ← listNext h iter;
      match node with
      | None => Some (h, l, seen)
      | Some x =>
          n ← h !! x;
          if drop_it (value n) then
            '(h, l, _) ← listDelNode h l x;
            sweep f h l iter drop_it (seen ++ [x])
          else sweep f h l iter drop_it (seen ++ [x])
      end
  end.

Lemma sweep_forward P b : ∀ h l a seen, list_rep h l (a ++ b) →
  ∃ h' l', sweep (S (length b)) h l (iter_at true a b) P seen = Some (h', l', seen ++ b.*1) ∧
    list_rep h' l' (a ++ filter (λ e, ¬ Is_true (P e.2)) b).
Proof.
  induction b as [|[x v] b IH]; intros h l a seen Hr; pose proof (lr_seg _ _ _ Hr) as Hd.
  - cbn [sweep length]. rewrite (listNext_forward h a _ Hd). cbn [mbind option_bind]. exists h, l. by rewrite app_nil_r.
  - cbn [length]. remember (S (length b)) as f eqn:Ef. cbn [sweep]. rewrite (listNext_forward h a _ Hd). cbn [mbind option_bind].
    destruct (dseg_parts h a x v b Hd) as (-> & _). cbn [mbind option_bind value]. rewrite filter_cons. cbn [snd].
    destruct (P v) eqn:EP.
    + destruct (listDelNode_spec h l a x v b Hr) as (h1 & l1 & -> & Hr1 & _). cbn [mbind option_bind]. subst f.
      destruct (IH h1 l1 a (seen ++ [x]) Hr1) as (h' & l' & E & Hr'). exists h', l'. rewrite <- app_assoc in E.
      rewrite decide_False by (intros Hn; by apply Hn). split; [exact E|done].
    + subst f. destruct (IH h l (a ++ [(x, v)]) (seen ++ [x])) as (h' & l' & E & Hr'); [by rewrite <- app_assoc|].
      exists h', l'. rewrite <- app_assoc in E, Hr'. rewrite decide_True by (intros []). split; [exact E|done].
Qed.

Lemma sweep_backward b : ∀ h l a seen, list_rep h l (a ++ b) →
  sweep (S (length a)) h l (iter_at false a b) (λ _, false) seen = Some (h, l, seen ++ reverse a.*1).
Proof.
  intros h l a. revert b. induction a as [|[x v] a IH] using rev_ind; intros b seen Hr; pose proof (lr_seg _ _ _ Hr) as Hd.
  - cbn [sweep length]. rewrite (listNext_backward h [] _ Hd). cbn. by rewrite app_nil_r.
  - rewrite length_app, Nat.add_1_r. remember (S (length a)) as f eqn:Ef. cbn [sweep]. rewrite (listNext_backward h _ _ Hd).
    rewrite last_snoc, length_app. simpl length. replace (length a + 1 - 1)%nat with (length a) by lia. rewrite take_app_length.
    cbn [mbind option_bind]. rewrite <- app_assoc in Hd, Hr. destruct (dseg_parts h a x v b Hd) as (-> & _). cbn [mbind option_bind].
    subst f. rewrite (IH ((x, v) :: b)) by done. rewrite fmap_app, reverse_app, <- app_assoc. done.
Qed.

End sweep.

(** ** The properties *)

Section claims.
Context {V : Type} `{EqDecision V}.
Implicit Types h : gmap positive (listNode V).

(** C15. Every operation that changes a list, empty or not, keeps it a well-formed
    doubly linked list and does to its values exactly what its name says: adding
    at either end, inserting before or after any of its nodes, deleting any of
    its nodes (its value is freed once), rotating the tail to the head, emptying
    and releasing (all values are freed once, in order), and moving all nodes of
    a second list, which may be empty too, to the end. New nodes are new, and
    nodes of other lists are not touched. *)
Theorem adlist_edits_correct h l ns w o os :
  list_rep h l ns → list_rep h o os → (∀ y, y ∈ ns.*1 → y ∉ os.*1) → Z.of_nat (length ns + length os) + 1 < 2 ^ 64 →
  let node := fresh (dom h : gset positive) in
  let gives r ns' := ∃ h' l', r = Some (h', l') ∧ list_rep h' l' ns' ∧ list_rep h' o os in
  gives (listAddNodeHead h l w) ((node, w) :: ns) ∧
  gives (listAddNodeTail h l w) (ns ++ [(node, w)]) ∧
  gives (listRotate h l) (match last ns with Some e => e :: take (length ns - 1) ns | None => [] end) ∧
  (∃ h' l', listEmpty h l = Some (h', l', if free l then ns.*2 else []) ∧ list_rep h' l' [] ∧
     list_rep h' o os ∧ dom h' = dom h ∖ list_to_set ns.*1) ∧
  (∃ h', listRelease h l = Some (h', if free l then ns.*2 else []) ∧ list_rep h' o os ∧ dom h' = dom h ∖ list_to_set ns.*1) ∧
  (∃ h' l' o', listJoin h l o = Some (h', l', o') ∧ list_rep h' l' (ns ++ os) ∧ list_rep h' o' []) ∧
  ∀ a x v b, ns = a ++ (x, v) :: b →
    gives (listInsertNode h l x w true) (a ++ [(x, v); (node, w)] ++ b) ∧
    gives (listInsertNode h l x w false) (a ++ [(node, w); (x, v)] ++ b) ∧
    (∃ h' l', listDelNode h l x = Some (h', l', if free l then [v] else []) ∧ list_rep h' l' (a ++ b) ∧
       list_rep h' o os ∧ dom h' = dom h ∖ {[x]}).
Proof.
  intros Hr Ho Hdis Hs node gives.
  assert (Hodom : ∀ y, y ∈ os.*1 → y ∈ dom h) by (eapply dseg_dom, Ho).
  assert (Hadd : ∀ r c d, added h l ns w r c d → gives r (c ++ (node, w) :: d)).
  { intros r c d (h' & l' & -> & Hr' & _ & _ & Hf). exists h', l'. split_and!; try done.
    eapply list_rep_ext; [|exact Ho]. intros y Hy. apply Hf; [by apply Hodom|]. intros Hy'. by apply (Hdis y). }
  assert (Hkeep : ∀ h', (∀ y, y ∉ ns.*1 → h' !! y = h !! y) → list_rep h' o os).
  { intros h' Hf. eapply list_rep_ext; [|exact Ho]. intros y Hy. apply Hf. intros Hy'. by apply (Hdis y). }
  split_and!.
  - apply (Hadd _ [] ns). apply listAddNodeHead_spec; [done|lia].
  - apply (Hadd _ ns []). apply listAddNodeTail_spec; [done|lia].
  - destruct (listRotate_spec h l ns Hr) as (h' & l' & ? & ? & _ & _ & Hf). exists h', l'. split_and!; [done|done|]. by apply Hkeep.
  - destruct (listEmpty_spec h l ns Hr) as (h' & l' & ? & ? & _ & ? & Hf). exists h', l'. split_and!; try done. by apply Hkeep.
  - destruct (listRelease_spec h l ns Hr) as (h' & ? & ? & Hf). exists h'. split_and!; try done. by apply Hkeep.
  - destruct (listJoin_spec h l o ns os Hr Ho Hdis ltac:(lia)) as (h' & l' & o' & ? & ? & ? & _). by exists h', l', o'.
  - intros a x v b ->. split_and!.
    + pose proof (listInsertNode_spec h l a x v b w true Hr ltac:(lia)) as Hi. apply Hadd in Hi. by rewrite <- app_assoc in Hi.
    + apply Hadd. apply (listInsertNode_spec h l a x v b w false Hr). lia.
    + destruct (listDelNode_spec h l a x v b Hr) as (h' & l' & ? & ? & _ & _ & ? & Hf). exists h', l'. split_and!; try done. by apply Hkeep.
Qed.

(** Traversals: an iterator visits every node once, from head to tail or
    from tail to head, also when the loop deletes nodes that were just
    returned, which leaves exactly the other nodes; [listSearchKey] finds the
    first node that matches; [listIndex] counts from the head, or from the tail
    for negative indexes, and is NULL out of range. [listDup] makes a separate
    copy of all values, and if the copy of a value fails it frees exactly what
    it had copied and leaves the heap as it was. *)
Theorem adlist_traversals_correct h l ns P key idx : list_rep h l ns → Z.of_nat (length ns) + 1 < 2 ^ 64 →
  - 2 ^ 63 ≤ idx < 2 ^ 63 →
  (∃ h' l', sweep (S (length ns)) h l (listRewind l) P [] = Some (h', l', ns.*1) ∧
     list_rep h' l' (filter (λ e, ¬ Is_true (P e.2)) ns)) ∧
  sweep (S (length ns)) h l (listRewindTail l) (λ _, false) [] = Some (h, l, reverse ns.*1) ∧
  listSearchKey h l key = Some (fst <$> head (filter (λ e, Is_true (matches l key e.2)) ns)) ∧
  listIndex h l idx = Some (fst <$>
    (if idx <? 0 then (if Z.of_nat (length ns) + idx <? 0 then None else ns !! Z.to_nat (Z.of_nat (length ns) + idx))
     else ns !! Z.to_nat idx)) ∧
  match mapM (dup_value l) ns.*2 with
  | Some vs => ∃ h' copy cs, listDup h l = Some (h', Some copy, []) ∧ list_rep h' copy cs ∧ list_rep h' l ns ∧
      cs.*2 = vs ∧ (∀ x, x ∈ cs.*1 → x ∉ dom h)
  | None => ∃ good bad rest vs, ns.*2 = good ++ bad :: rest ∧ mapM (dup_value l) good = Some vs ∧ dup_value l bad = None ∧
      listDup h l = Some (h, None, if free l then vs else [])
  end.
Proof.
  intros Hr Hs Hidx. pose proof Hr as [_ Hd Hh Ht Hlen _]. split_and!.
  - unfold listRewind. rewrite Hh. by apply (sweep_forward P ns h l [] []).
  - unfold listRewindTail. rewrite Ht. apply (sweep_backward [] h l ns []). by rewrite app_nil_r.
  - unfold listSearchKey, listRewind. rewrite Hlen, Nat2Z.id, Hh. by apply (search_key_spec h l key ns []).
  - by apply listIndex_spec.
  - pose proof (listDup_spec h l ns Hr Hs) as Hdup. destruct (mapM _ _); [|done].
    destruct Hdup as (h' & copy & cs & ? & ? & ? & ? & (_ & ? & _) & _). by exists h', copy, cs.
Qed.

End claims.

(** ** Witnesses *)

Definition demo_store : gmap positive (listNode Z) :=
  <[1%positive := LNode None (Some 2%positive) 10]> (<[2%positive := LNode (Some 1%positive) None 20]>
  (<[3%positive := LNode None None 30]> ∅)).
Definition demo_list : adlist Z := AList (Some 1%positive) (Some 2%positive) None true None 2.
Definition demo_other : adlist Z := AList (Some 3%positive) (Some 3%positive) None true None 1.

Lemma demo_list_rep : list_rep demo_store demo_list ([] ++ (1%positive, 10) :: [(2%positive, 20)]).
Proof. constructor; try done. by apply (bool_decide_unpack _). Qed.

Lemma demo_other_rep : list_rep demo_store demo_other [(3%positive, 30)].
Proof. constructor; try done. by apply (bool_decide_unpack _). Qed.

Lemma adlist_edits_correct_witness : ∃ h' l',
  listDelNode demo_store demo_list 1%positive = Some (h', l', [10]) ∧ list_rep h' l' [(2%positive, 20)] ∧
  list_rep h' demo_other [(3%positive, 30)].
Proof.
  destruct (adlist_edits_correct demo_store demo_list [(1%positive, 10); (2%positive, 20)] 40 demo_other [(3%positive, 30)]
    demo_list_rep demo_other_rep) as (_ & _ & _ & _ & _ & _ & Hnode).
  - set_solver.
  - simpl. lia.
  - destruct (Hnode [] 1%positive 10 [(2%positive, 20)] eq_refl) as (_ & _ & h' & l' & E & Hr & Ho & _). exists h', l'. split; [exact E|]. split; [exact Hr|exact Ho].
Defined.

Lemma adlist_traversals_correct_witness :
  listIndex demo_store demo_list (-1) = Some (Some 2%positive) ∧
  listSearchKey demo_store demo_list 20 = Some (Some 2%positive).
Proof.
  destruct (adlist_traversals_correct demo_store demo_list [(1%positive, 10); (2%positive, 20)] (λ _, true) 20 (-1) demo_list_rep)
    as (_ & _ & Hs & Hi & _); [simpl; lia|lia|].
  split; [exact Hi|exact Hs].
Defined.
