(* ===== verification/MapApi.v ===== *)
(** * The interface between the hash table and its clients

    What a sorted set relies on when it uses a dict: the operations it calls
    and their laws in terms of one finite map.  Clients (Zset.v) are proved
    against the class; the dict of dict.c is an instance, whose laws are the
    specifications proved in Dict.v. *)

From S2P Require Import Prelude Dict.

(** A table [D] from [K] to [V].  [None] is an access out of bounds or a failed
    assertion; a [m_ref] is a pointer to an entry of the table, a [m_entry] an
    entry that was taken out of it. *)
Class MapApi (D K V : Type) `{Countable K} := {
  m_ref : Type;
  m_entry : Type;
  m_freed : Type;
  m_inv : D → Prop;
  m_map : D → gmap K V;
  m_find : D → K → option (D * option m_ref);
  m_get : D → m_ref → option V;
  m_put : D → m_ref → V → option D;
  m_add : D → K → V → option (D * Z);
  m_unlink : D → K → option (D * option m_entry);
  m_entry_val : m_entry → option V;
  m_free_entry : m_entry → list m_freed;
  m_shrink : D → D;
  m_capacity : Z;

  m_find_spec d k : m_inv d →
    ∃ d' r, m_find d k = Some (d', r) ∧ m_inv d' ∧ m_map d' = m_map d ∧
      match r with
      | Some r => ∃ x, m_get d' r = Some x ∧ m_map d !! k = Some x ∧
          ∀ y, ∃ d'', m_put d' r y = Some d'' ∧ m_inv d'' ∧ m_map d'' = <[k := y]> (m_map d)
      | None => m_map d !! k = None
      end;
  m_add_spec d k x : m_inv d → m_map d !! k = None → Z.of_nat (base.size (m_map d)) < m_capacity →
    ∃ d', m_add d k x = Some (d', DICT_OK) ∧ m_inv d' ∧ m_map d' = <[k := x]> (m_map d);
  m_unlink_spec d k : m_inv d →
    ∃ d' he, m_unlink d k = Some (d', he) ∧ m_inv d' ∧ m_map d' = delete k (m_map d) ∧
      (he ≫= m_entry_val) = m_map d !! k ∧ (he = None ↔ m_map d !! k = None);
  m_shrink_spec d : m_inv d → m_inv (m_shrink d) ∧ m_map (m_shrink d) = m_map d
}.

(** ** The dict of dict.c *)

Section dict_api.
Context {K V : Type} `{Countable K} (type : dictType K V) `{!DictTypeOk type} (Hval : valDup type = None).
Context (dict_can_resize : bool).
Implicit Types d : dict K V.

Definition HASHTABLE_MIN_FILL : Z := 10.

Definition dictSlots d : Z := u64 (Dict.size (ht0 d) + Dict.size (ht1 d)).

(** [htNeedsResize] of server.c *)
Definition htNeedsResize d : bool :=
  let sz := s64 (dictSlots d) in
  let us := s64 (dictSize d) in
  (DICT_HT_INITIAL_SIZE <? sz) && (Z.quot (s64 (us * 100)) sz <? HASHTABLE_MIN_FILL).

Definition shrink d : dict K V := if htNeedsResize d then (dictResize dict_can_resize d).1 else d.

(** Every entry has its value: [dictAdd] never leaves one without. *)
Definition dict_inv d : Prop := dict_wf type d ∧ ∀ k, dict_map d !! k ≠ Some None.

Definition vals d : gmap K V := omap id (dict_map d).

Lemma vals_lookup d k : vals d !! k = dict_map d !! k ≫= id.
Proof. unfold vals. by rewrite lookup_omap. Qed.

Lemma vals_eq d d' : dict_map d' = dict_map d → vals d' = vals d.
Proof. unfold vals. by intros ->. Qed.

Lemma inv_eq d d' : dict_wf type d' → dict_map d' = dict_map d → dict_inv d → dict_inv d'.
Proof. intros Hwf E [_ Hn]. split; [done|]. by rewrite E. Qed.

Lemma inv_None d k : dict_inv d → (dict_map d !! k = None ↔ vals d !! k = None).
Proof.
  intros [_ Hn]. rewrite vals_lookup. specialize (Hn k). destruct (dict_map d !! k) as [[x|]|]; naive_solver.
Qed.

Lemma set_spec d d' k x : dict_wf type d' → dict_map d' = map_set type (dict_map d) k x → dict_inv d →
  dict_inv d' ∧ vals d' = <[k := x]> (vals d).
Proof.
  intros Hwf Hm [_ Hn]. assert (dict_map d' = <[k := Some x]> (dict_map d)) as E.
  { rewrite Hm. unfold map_set, dup_val. by rewrite Hval. }
  split; [split; [done|]|].
  - intros j. rewrite E, lookup_insert_Some. intros [[_ [=]]|[_ Hj]]. by apply (Hn j).
  - unfold vals. rewrite E. apply map_eq. intros j. rewrite lookup_omap.
    destruct (decide (j = k)) as [->|]; [by rewrite !lookup_insert_eq|]. by rewrite !lookup_insert_ne, lookup_omap by done.
Qed.

Lemma size_vals d : dict_inv d → base.size (vals d) = base.size (dict_map d).
Proof.
  intros [_ Hn]. rewrite <- !size_dom. f_equal. apply set_eq. intros k. rewrite !elem_of_dom, vals_lookup.
  specialize (Hn k). destruct (dict_map d !! k) as [[x|]|]; naive_solver.
Qed.

Lemma shrink_spec d : dict_inv d → dict_inv (shrink d) ∧ vals (shrink d) = vals d.
Proof.
  intros Hi. unfold shrink. destruct (htNeedsResize d); [|done]. unfold dictResize.
  destruct (_ || _); [done|]. set (sz := u64 _).
  assert (in_u 64 sz) as Hsz by (apply uwrap_range; lia).
  destruct (dictExpand_cases type d sz (proj1 Hi) Hsz) as [[-> _]|(d' & -> & _ & _ & _ & [Hwf He _ _] & _)]; [done|]. simpl.
  assert (dict_map d' = dict_map d) as E by (unfold dict_map; by rewrite He).
  split; [by apply (inv_eq d)|by apply vals_eq].
Qed.

Lemma find_spec d k : dict_inv d →
  ∃ d' r, dictFind type d k = Some (d', r) ∧ dict_inv d' ∧ vals d' = vals d ∧
    match r with
    | Some r => ∃ x, (e ← deref d' r; v e) = Some x ∧ vals d !! k = Some x ∧
        ∀ y, ∃ d'', dictSetVal type d' r y = Some d'' ∧ dict_inv d'' ∧ vals d'' = <[k := y]> (vals d)
    | None => vals d !! k = None
    end.
Proof.
  intros Hi. destruct (dictFind_spec type d k (proj1 Hi)) as (d' & r & -> & Hwf & Hm & Hr).
  assert (dict_inv d') as Hi' by (by apply (inv_eq d)). pose proof (vals_eq d d' Hm) as Ev.
  exists d', r. split_and!; try done; try apply Hi'. destruct r as [r|]; [|by apply inv_None].
  destruct Hr as (e & He & Hk & Hl). pose proof (proj2 Hi k) as Hn. rewrite Hl in Hn.
  destruct (v e) as [x|] eqn:Ex; [|done]. exists x. rewrite vals_lookup, Hl, He. split_and!; try done.
  intros y. destruct (set_after type d' r e y Hwf He) as (d'' & -> & Hwf'' & Hm''). exists d''. split; [done|].
  rewrite <- Ev. apply set_spec; try done. by rewrite <- Hk.
Qed.

Lemma add_spec d k x : dict_inv d → vals d !! k = None → Z.of_nat (base.size (vals d)) < MAX_ENTRIES →
  ∃ d', dictAdd type dict_can_resize d k x = Some (d', DICT_OK) ∧ dict_inv d' ∧ vals d' = <[k := x]> (vals d).
Proof.
  intros Hi Hk Hs. rewrite size_vals in Hs by done.
  destruct (dictAdd_spec type dict_can_resize d k x (proj1 Hi) Hs) as (d' & rc & -> & Hwf & [([y Hy] & _)|(_ & -> & Hm)]).
  - apply inv_None in Hk; [|done]. congruence.
  - exists d'. split; [done|]. by apply set_spec.
Qed.

Lemma unlink_spec d k : dict_inv d →
  ∃ d' he, dictUnlink type d k = Some (d', he) ∧ dict_inv d' ∧ vals d' = delete k (vals d) ∧
    (he ≫= v) = vals d !! k ∧ (he = None ↔ vals d !! k = None).
Proof.
  intros Hi. unfold dictUnlink. destruct (dictGenericDelete_spec type d k true (proj1 Hi)) as (d' & he & fr & -> & Hwf & Hm & Hhe).
  cbn [mbind option_bind]. exists d', he. split; [done|]. split_and!.
  - split; [done|]. intros j. rewrite Hm. intros [_ Hj]%lookup_delete_Some. by apply (proj2 Hi j).
  - unfold vals. by rewrite Hm, omap_delete.
  - rewrite vals_lookup. destruct he as [e|]; [|by destruct Hhe as [-> _]]. destruct Hhe as (_ & -> & _). done.
  - rewrite <- inv_None by done. destruct he as [e|]; [|by destruct Hhe as [-> _]]. destruct Hhe as (_ & -> & _). done.
Qed.

(** The dict meets the interface. *)
Definition dict_api : MapApi (dict K V) K V := {|
  m_ref := ref; m_entry := dictEntry K V; m_freed := freed K V;
  m_inv := dict_inv; m_map := vals;
  m_find := dictFind type; m_get d r := e ← deref d r; v e; m_put := dictSetVal type;
  m_add := dictAdd type dict_can_resize; m_unlink := dictUnlink type;
  m_entry_val := v; m_free_entry e := dictFreeUnlinkedEntry type (Some e);
  m_shrink := shrink; m_capacity := MAX_ENTRIES;
  m_find_spec := find_spec; m_add_spec := add_spec; m_unlink_spec := unlink_spec; m_shrink_spec := shrink_spec
|}.

End dict_api.
