(* ===== verification/Zset.v ===== *)
(** * t_zset.c: sorted sets as a dict and a skiplist

    A sorted set in the skiplist encoding keeps its members twice: the
    skiplist orders them, the dict finds them.  The value of a dict entry is a
    pointer to the [score] field of the node in the skiplist, so the two share
    memory: the score is read through the heap of nodes, and an update that
    replaces the node must store the new pointer.

    The dict is any implementation of [MapApi] (dict.c is one); [zset_rep] ties
    the two views together and the theorems compare the operations with a
    finite map from members to scores. *)

From S2P Require Import Prelude Sds SdsText Dict MapApi Skiplist.

Definition ZADD_INCR : Z := 1.
Definition ZADD_NX : Z := 2.
Definition ZADD_XX : Z := 4.
Definition ZADD_NOP : Z := 8.
Definition ZADD_NAN : Z := 16.
Definition ZADD_ADDED : Z := 32.
Definition ZADD_UPDATED : Z := 64.

Definition has_flag (flags f : Z) : bool := negb (Z.land flags f =? 0).

Section zset.
Context {R : Type} `{Score R}.
(** Addition of doubles that are not NaN; [None] is NaN (inf - inf). *)
Context (sadd : R → R → option R).
Context {DT : Type} `{!MapApi DT (list Z) ptr}.
Implicit Types h : heap R.

Record zset := ZSet { zdict : DT; zsl : zskiplist }.

(** [*(double* )dictGetVal(de)] *)
Definition entry_score h (d : DT) (de : m_ref) : option R :=
  p ← m_get d de; n ← h !! p; Some (score n).

(** ** Operations *)

Definition zsetLength (zs : zset) : Z := zlength (zsl zs).

(** [None] as a score is C_ERR. *)
Definition zsetScore h (zs : zset) (member : list Z) : option (zset * option R) :=
  '(d, de) ← m_find (zdict zs) member;
  match de with
  | None => Some (ZSet d (zsl zs), None)
  | Some de => s ← entry_score h d de; Some (ZSet d (zsl zs), Some s)
  end.

(** [s] is the score, [None] for NaN; [lv] the random level of a new node. The
    result: the return value, the new flags, the assignment to [*newscore]. *)
Definition zsetAdd h (zs : zset) (lv : nat) (s : option R) (ele : list Z) (flags : Z) :
    option (heap R * zset * Z * Z * option R) :=
  let incr := has_flag flags ZADD_INCR in
  let nx := has_flag flags ZADD_NX in
  let xx := has_flag flags ZADD_XX in
  match s with
  | None => Some (h, zs, 0, ZADD_NAN, None)
  | Some s =>
      '(d, de) ← m_find (zdict zs) ele;
      let zs := ZSet d (zsl zs) in
      match de with
      | Some de =>
          if nx then Some (h, zs, 1, ZADD_NOP, None) else
          curscore ← entry_score h d de;
          match (if incr then sadd s curscore else Some s) with
          | None => Some (h, zs, 0, ZADD_NAN, None)
          | Some s =>
              let newscore := if incr then Some s else None in
              if seqb s curscore then Some (h, zs, 1, 0, newscore) else
              '(h, z, znode) ← zslUpdateScore h (zsl zs) curscore ele s lv;
              d ← m_put d de znode;
              Some (h, ZSet d z, 1, ZADD_UPDATED, newscore)
          end
      | None =>
          if xx then Some (h, zs, 1, ZADD_NOP, None) else
          '(h, z, znode) ← zslInsert h (zsl zs) lv s ele;
          '(d, rc) ← m_add d ele znode;
          if rc =? DICT_OK then Some (h, ZSet d z, 1, ZADD_ADDED, Some s) else None
      end
  end.

(** The return value and the destructor calls of the dict entry. *)
Definition zsetDel h (zs : zset) (ele : list Z) : option (heap R * zset * Z * list m_freed) :=
  '(d, de) ← m_unlink (zdict zs) ele;
  match de with
  | None => Some (h, ZSet d (zsl zs), 0, [])
  | Some de =>
      p ← m_entry_val de;
      n ← h !! p;
      let s := score n in
      let fr := m_free_entry de in
      '(h, z, retval, _) ← zslDelete h (zsl zs) s ele true;
      if retval =? 0 then None else
      Some (h, ZSet (m_shrink d) z, 1, fr)
  end.

Definition zsetRank h (zs : zset) (ele : list Z) (reverse : bool) : option (zset * Z) :=
  let llen := zsetLength zs in
  '(d, de) ← m_find (zdict zs) ele;
  match de with
  | None => Some (ZSet d (zsl zs), -1)
  | Some de =>
      s ← entry_score h d de;
      rank ← zslGetRank h (zsl zs) s ele;
      if rank =? 0 then None else
      Some (ZSet d (zsl zs), s64 (if reverse then u64 (llen - rank) else u64 (rank - 1)))
  end.

(** ** Invariant *)

Implicit Types ns : list (entry R).

(** The finite map of a field of the entries. *)
Definition field_map {A} (f : entry R → A) ns : gmap (list Z) A :=
  list_to_map ((λ d, (eele d, f d)) <$> ns).

Record zset_rep h (zs : zset) ns : Prop := {
  zr_list : zsl_rep h (zsl zs) ns;
  zr_members : NoDup (eele <$> ns);
  zr_inv : m_inv (zdict zs);
  zr_map : m_map (zdict zs) = field_map eptr ns
}.

(** The sorted set as a map from members to scores. *)
Definition zscores ns : gmap (list Z) R := field_map escore ns.

(** What ZADD means on that map. *)
Definition zadd_spec (m : gmap (list Z) R) (s : option R) (e : list Z) (flags : Z) :
    gmap (list Z) R * Z * Z * option R :=
  match s, m !! e with
  | None, _ => (m, 0, ZADD_NAN, None)
  | Some s, None => if has_flag flags ZADD_XX then (m, 1, ZADD_NOP, None) else (<[e := s]> m, 1, ZADD_ADDED, Some s)
  | Some s, Some cur =>
      if has_flag flags ZADD_NX then (m, 1, ZADD_NOP, None) else
      if has_flag flags ZADD_INCR then
        match sadd s cur with
        | None => (m, 0, ZADD_NAN, None)
        | Some s' => if seqb s' cur then (m, 1, 0, Some s') else (<[e := s']> m, 1, ZADD_UPDATED, Some s')
        end
      else if seqb s cur then (m, 1, 0, None) else (<[e := s]> m, 1, ZADD_UPDATED, None)
  end.

(** ** Maps of entries *)

Lemma field_keys {A} (f : entry R → A) ns : ((λ d, (eele d, f d)) <$> ns).*1 = eele <$> ns.
Proof. rewrite <- list_fmap_compose. by apply list_fmap_ext. Qed.

Lemma field_perm {A} (f : entry R → A) ns ns' : NoDup (eele <$> ns) → ns ≡ₚ ns' → field_map f ns = field_map f ns'.
Proof. intros Hnd Hp. apply list_to_map_proper; [by rewrite field_keys|]. by rewrite Hp. Qed.

Lemma field_cons {A} (f : entry R → A) d ns : field_map f (d :: ns) = <[eele d := f d]> (field_map f ns).
Proof. done. Qed.

Lemma field_None {A} (f : entry R → A) ns e : field_map f ns !! e = None ↔ e ∉ (eele <$> ns).
Proof. unfold field_map. by rewrite <- not_elem_of_list_to_map, field_keys. Qed.

Lemma field_Some {A} (f : entry R → A) ns e x : NoDup (eele <$> ns) → field_map f ns !! e = Some x →
  ∃ k d, ns !! k = Some d ∧ eele d = e ∧ f d = x.
Proof.
  intros Hnd Hx. apply elem_of_list_to_map_2, list_elem_of_fmap in Hx as (d & [= -> ->] & Hd).
  apply list_elem_of_lookup in Hd as [k Hk]. eauto.
Qed.

Lemma field_lookup {A} (f : entry R → A) ns k d : NoDup (eele <$> ns) → ns !! k = Some d →
  field_map f ns !! eele d = Some (f d).
Proof.
  intros Hnd Hd. apply elem_of_list_to_map_1; [by rewrite field_keys|].
  apply list_elem_of_fmap. exists d. split; [done|]. by eapply list_elem_of_lookup_2.
Qed.

Lemma delete_nodup ns k d : ns !! k = Some d → NoDup (eele <$> ns) →
  NoDup (eele <$> delete k ns) ∧ eele d ∉ (eele <$> delete k ns).
Proof.
  intros Hd Hnd. rewrite (delete_Permutation ns k d Hd) in Hnd. rewrite fmap_cons in Hnd.
  by apply NoDup_cons in Hnd as [??].
Qed.

Lemma field_delete {A} (f : entry R → A) ns k d : ns !! k = Some d → NoDup (eele <$> ns) →
  field_map f (delete k ns) = delete (eele d) (field_map f ns).
Proof.
  intros Hd Hnd. destruct (delete_nodup ns k d Hd Hnd) as [_ Hn].
  rewrite (field_perm f ns (d :: delete k ns) Hnd (delete_Permutation ns k d Hd)), field_cons.
  rewrite delete_insert_id; [done|]. by apply field_None.
Qed.

(** An entry replaced by another one for the same member. *)
Lemma field_update {A} (f : entry R → A) ns ns' k k' d d' : NoDup (eele <$> ns) → ns !! k = Some d →
  ns' !! k' = Some d' → delete k' ns' = delete k ns → eele d' = eele d →
  NoDup (eele <$> ns') ∧ field_map f ns' = <[eele d := f d']> (field_map f ns).
Proof.
  intros Hnd Hd Hd' Hdel He. destruct (delete_nodup ns k d Hd Hnd) as [Hnd1 Hn].
  pose proof (delete_Permutation ns' k' d' Hd') as Hp. rewrite Hdel in Hp.
  assert (NoDup (eele <$> ns')) as Hnd'.
  { rewrite Hp, fmap_cons. apply NoDup_cons. by rewrite He. }
  split; [done|]. rewrite (field_perm f _ _ Hnd' Hp), field_cons, (field_delete f ns k d Hd Hnd), He.
  apply insert_delete_eq.
Qed.

End zset.
Arguments zset : clear implicits.

(** ** Refinement *)

Section refine.
Context {R : Type} `{Score R} (sadd : R → R → option R).
Context {DT : Type} `{!MapApi DT (list Z) ptr}.
Implicit Types h : heap R.
Implicit Types ns : list (entry R).
Implicit Types zs : zset DT.

Lemma rep_dict h zs ns d : zset_rep h zs ns → m_inv d → m_map d = m_map (zdict zs) → zset_rep h (ZSet d (zsl zs)) ns.
Proof. intros [Hl Hm Hi Hmap] Hd E. split; try done. simpl. congruence. Qed.

(** Looking a member up: its entry, and the score behind the dict's pointer. *)
Lemma member_spec h zs ns e : zset_rep h zs ns →
  ∃ d r, m_find (zdict zs) e = Some (d, r) ∧ zset_rep h (ZSet d (zsl zs)) ns ∧
    match r with
    | Some r => ∃ k ent, ns !! k = Some ent ∧ eele ent = e ∧ zscores ns !! e = Some (escore ent) ∧
        entry_score h d r = Some (escore ent) ∧
        ∀ y, ∃ d', m_put d r y = Some d' ∧ m_inv d' ∧ m_map d' = <[e := y]> (field_map eptr ns)
    | None => zscores ns !! e = None ∧ e ∉ (eele <$> ns)
    end.
Proof.
  intros Hr. pose proof Hr as [Hl Hnd Hi Hm]. destruct (m_find_spec (zdict zs) e Hi) as (d & r & -> & Hi' & Em & Hcase).
  exists d, r. split; [done|]. split; [by apply rep_dict|]. rewrite Hm in Hcase. destruct r as [r|].
  - destruct Hcase as (x & Hx & Hl' & Hput). destruct (field_Some eptr ns e x Hnd Hl') as (k & ent & Hk & <- & <-).
    exists k, ent. split_and!; try done.
    + by eapply field_lookup.
    + unfold entry_score. rewrite Hx. cbn [mbind option_bind].
      destruct (node_of h (zsl zs) ns k ent (rep_links _ _ _ Hl) Hk) as (n & -> & _ & <-). done.
  - apply field_None in Hcase. split; [by apply field_None|done].
Qed.

(** [m'] is the map of members after the operation. *)
Definition zset_after (r : option (heap R * zset DT * Z * Z * option R)) (out : gmap (list Z) R * Z * Z * option R) : Prop :=
  let '(m', ret, fl, newscore) := out in
  ∃ h' zs' ns', r = Some (h', zs', ret, fl, newscore) ∧ zset_rep h' zs' ns' ∧ zscores ns' = m'.

Lemma update_branch h zs ns d r k ent s lv fl nsc : zset_rep h (ZSet d (zsl zs)) ns → ns !! k = Some ent →
  (1 ≤ lv ≤ ZSKIPLIST_MAXLEVEL)%nat →
  (∀ y, ∃ d', m_put d r y = Some d' ∧ m_inv d' ∧ m_map d' = <[eele ent := y]> (field_map eptr ns)) →
  zset_after
    ('(h, z, znode) ← zslUpdateScore h (zsl zs) (escore ent) (eele ent) s lv;
     d ← m_put d r znode;
     Some (h, ZSet d z, 1, fl, nsc)) (<[eele ent := s]> (zscores ns), 1, fl, nsc).
Proof.
  intros [Hl Hnd Hi Hm] Hk Hlv Hput.
  destruct (zslUpdateScore_spec h (zsl zs) ns k ent (escore ent) (eele ent) s lv Hl Hnd Hk) as (h' & z & x & ns' & k' & -> & Hr' & Hk' & Hdel);
    [apply is_key_spec; split; [apply seqb_refl|done]|done|].
  cbn [mbind option_bind]. destruct (Hput x) as (d' & -> & Hi' & Hm'). cbn [mbind option_bind].
  destruct (field_update eptr ns ns' k k' ent _ Hnd Hk Hk' Hdel eq_refl) as [Hnd' Ep].
  destruct (field_update escore ns ns' k k' ent _ Hnd Hk Hk' Hdel eq_refl) as [_ Es].
  exists h', (ZSet d' z), ns'. split; [done|]. split; [|done]. split; try done. simpl. by rewrite Hm', Ep.
Qed.

Lemma insert_branch h d z ns lv s e : zset_rep h (ZSet d z) ns → e ∉ (eele <$> ns) →
  (1 ≤ lv ≤ ZSKIPLIST_MAXLEVEL)%nat → Z.of_nat (length ns) + 1 < 2 ^ 32 - 1 → Z.of_nat (length ns) < m_capacity →
  zset_after
    ('(h, z, znode) ← zslInsert h z lv s e;
     '(d, rc) ← m_add d e znode;
     if rc =? DICT_OK then Some (h, ZSet d z, 1, ZADD_ADDED, Some s) else None)
    (<[e := s]> (zscores ns), 1, ZADD_ADDED, Some s).
Proof.
  intros [Hl Hnd Hi Hm] He Hlv Hsm Hcap. simpl in *.
  destruct (insert_spec h z ns lv s e Hl He Hlv Hsm) as (h' & z' & x & k & -> & Hk & Hr' & _ & _).
  cbn [mbind option_bind]. destruct (m_add_spec d e x Hi) as (d' & -> & Hi' & Hm').
  { rewrite Hm. by apply field_None. }
  { rewrite Hm. unfold field_map. rewrite map_size_list_to_map by (by rewrite field_keys). by rewrite length_fmap. }
  cbn [mbind option_bind]. change (DICT_OK =? DICT_OK) with true. cbv iota.
  assert (NoDup (eele <$> ins k (Ent x lv s e) ns)) as Hnd'.
  { rewrite ins_perm, fmap_cons. by apply NoDup_cons. }
  exists h', (ZSet d' z'), (ins k (Ent x lv s e) ns). split; [done|].
  assert (∀ A (f : entry R → A), field_map f (ins k (Ent x lv s e) ns) = <[e := f (Ent x lv s e)]> (field_map f ns)) as Ef.
  { intros A f. by rewrite (field_perm f _ _ Hnd' (ins_perm k _ ns)). }
  split; [split; try done|].
  - simpl. by rewrite Hm', Ef, Hm.
  - unfold zscores. by rewrite Ef.
Qed.

Lemma zsetAdd_spec h zs ns lv s e flags : zset_rep h zs ns → (1 ≤ lv ≤ ZSKIPLIST_MAXLEVEL)%nat →
  Z.of_nat (length ns) + 1 < 2 ^ 32 - 1 → Z.of_nat (length ns) < m_capacity →
  zset_after (zsetAdd sadd h zs lv s e flags) (zadd_spec sadd (zscores ns) s e flags).
Proof.
  intros Hr Hlv Hsm Hcap. unfold zsetAdd, zadd_spec. destruct s as [s|]; [|by eexists _, _, _].
  destruct (member_spec h zs ns e Hr) as (d & r & -> & Hr' & Hcase). cbn [mbind option_bind].
  destruct r as [r|].
  - destruct Hcase as (k & ent & Hk & <- & -> & Es & Hput).
    destruct (has_flag flags ZADD_NX); [by eexists _, _, _|]. rewrite Es. cbn [mbind option_bind zsl].
    destruct (has_flag flags ZADD_INCR).
    + destruct (sadd s (escore ent)) as [s'|]; [|by eexists _, _, _]. destruct (seqb s' _); [by eexists _, _, _|].
      by eapply update_branch.
    + destruct (seqb s _); [by eexists _, _, _|]. by eapply update_branch.
  - destruct Hcase as [-> He]. destruct (has_flag flags ZADD_XX); [by eexists _, _, _|].
    by apply insert_branch.
Qed.

Lemma zsetDel_spec h zs ns e : zset_rep h zs ns →
  ∃ h' zs' ret fr ns', zsetDel h zs e = Some (h', zs', ret, fr) ∧ zset_rep h' zs' ns' ∧
    zscores ns' = delete e (zscores ns) ∧ ret = (if decide (is_Some (zscores ns !! e)) then 1 else 0).
Proof.
  intros [Hl Hnd Hi Hm]. unfold zsetDel. destruct (m_unlink_spec (zdict zs) e Hi) as (d & he & -> & Hi' & Hm' & Hv & Hn).
  cbn [mbind option_bind]. rewrite Hm in Hv, Hn, Hm'. destruct he as [he|].
  - cbn [mbind option_bind] in Hv. destruct (field_map eptr ns !! e) as [p|] eqn:Ep; [|by destruct Hn as [_ ?]; naive_solver].
    rewrite Hv. cbn [mbind option_bind]. destruct (field_Some eptr ns e p Hnd Ep) as (k & ent & Hk & <- & <-).
    destruct (node_of h (zsl zs) ns k ent (rep_links _ _ _ Hl) Hk) as (n & -> & _ & Es). cbn [mbind option_bind]. rewrite Es.
    destruct (proj1 (zslDelete_spec h (zsl zs) ns (escore ent) (eele ent) true Hl) k ent Hk) as (h' & z' & -> & Hl' & _).
    { apply is_key_spec. split; [apply seqb_refl|done]. }
    cbn [mbind option_bind]. change (1 =? 0) with false. cbv iota. destruct (m_shrink_spec d Hi') as [Hi'' Em].
    eexists _, _, _, _, (delete k ns). split; [done|]. split; [split; try done|split].
    + by apply (delete_nodup ns k ent).
    + simpl. rewrite Em, Hm'. symmetry. by apply field_delete.
    + by apply field_delete.
    + unfold zscores. rewrite (field_lookup escore ns k ent Hnd Hk), decide_True; [done|by eexists].
  - assert (e ∉ (eele <$> ns)) as He by (apply (field_None eptr); by apply Hn).
    eexists _, _, _, _, ns. split; [done|]. split; [split; try done|split].
    + simpl. rewrite Hm'. apply delete_id. by apply field_None.
    + symmetry. apply delete_id. by apply field_None.
    + rewrite decide_False; [done|]. unfold zscores. rewrite (proj2 (field_None escore ns e) He). by intros [? ?].
Qed.

Lemma zset_queries_spec h zs ns e reverse : zset_rep h zs ns →
  zsetLength zs = Z.of_nat (base.size (zscores ns)) ∧
  (∃ zs', zsetScore h zs e = Some (zs', zscores ns !! e) ∧ zset_rep h zs' ns) ∧
  (∃ zs' k, zsetRank h zs e reverse = Some (zs', k) ∧ zset_rep h zs' ns ∧
     (∀ q d, ns !! q = Some d → eele d = e → k = if reverse then Z.of_nat (length ns) - 1 - Z.of_nat q else Z.of_nat q) ∧
     (zscores ns !! e = None → k = -1)).
Proof.
  intros Hr. pose proof Hr as [Hl Hnd Hi Hm]. pose proof (l_length _ _ _ (rep_links _ _ _ Hl)) as Hlen.
  pose proof (rep_small _ _ _ Hl) as Hsm. split; [|split].
  - unfold zsetLength, zscores, field_map. rewrite map_size_list_to_map by (by rewrite field_keys). by rewrite length_fmap.
  - unfold zsetScore. destruct (member_spec h zs ns e Hr) as (d & r & -> & Hr' & Hcase). cbn [mbind option_bind].
    destruct r as [r|]; [|destruct Hcase as [-> _]; eauto]. destruct Hcase as (k & ent & Hk & <- & -> & -> & _). eauto.
  - unfold zsetRank. destruct (member_spec h zs ns e Hr) as (d & r & -> & Hr' & Hcase). cbn [mbind option_bind].
    destruct r as [r|].
    + destruct Hcase as (k & ent & Hk & <- & -> & -> & _). cbn [mbind option_bind].
      rewrite (proj1 (zslGetRank_spec h (zsl zs) ns (escore ent) (eele ent) Hl) k ent Hnd Hk).
      2: { apply is_key_spec. split; [apply seqb_refl|done]. }
      cbn [mbind option_bind]. rewrite (proj2 (Z.eqb_neq _ _)) by lia. eexists _, _. split; [done|]. split; [done|].
      split; [|done]. intros q d' Hq Hd'. assert (q = k) as ->.
      { eapply (NoDup_lookup (eele <$> ns)); [done|rewrite list_lookup_fmap, Hq; simpl; by rewrite Hd'|by rewrite list_lookup_fmap, Hk]. }
      unfold zsetLength. rewrite Hlen. apply lookup_lt_Some in Hk.
      destruct reverse; rewrite uwrap_small by (unfold in_u; lia); rewrite swrap_small by (unfold in_s; lia); lia.
    + destruct Hcase as [-> He]. eexists _, _. split; [done|]. split; [done|]. split; [|done].
      intros q d' Hq <-. exfalso. apply He. apply list_elem_of_fmap. exists d'. split; [done|]. by eapply list_elem_of_lookup_2.
Qed.

End refine.

(** ** The properties *)

Section claims.
Context {R : Type} `{Score R} (sadd : R → R → option R).
Context {DT : Type} `{!MapApi DT (list Z) ptr}.
Implicit Types h : heap R.
Implicit Types ns : list (entry R).

(** C16. [zsetAdd] is exactly ZADD on the map from members to scores, with the
    options NX, XX and INCR and the two NaN errors: same return value, flags
    and new score, and afterwards dict and skiplist agree again (every dict
    entry points to the node of its member) on the new map. *)
Theorem zsetAdd_refines h (zs : zset DT) ns lv s e flags : zset_rep h zs ns → (1 ≤ lv ≤ ZSKIPLIST_MAXLEVEL)%nat →
  Z.of_nat (length ns) + 1 < 2 ^ 32 - 1 → Z.of_nat (length ns) < m_capacity →
  let '(m', ret, fl, newscore) := zadd_spec sadd (zscores ns) s e flags in
  ∃ h' zs' ns', zsetAdd sadd h zs lv s e flags = Some (h', zs', ret, fl, newscore) ∧
    zset_rep h' zs' ns' ∧ zscores ns' = m'.
Proof. exact (zsetAdd_spec sadd h zs ns lv s e flags). Qed.

(** C17. [zsetDel] removes exactly the member, from dict and skiplist, and
    returns whether it was there; its assertion cannot fail. [zsetLength],
    [zsetScore] and [zsetRank] (from either end, -1 for no member) read the
    same map and order and keep the invariant. *)
Theorem zsetDel_refines h (zs : zset DT) ns e reverse : zset_rep h zs ns →
  (∃ h' zs' ret fr ns', zsetDel h zs e = Some (h', zs', ret, fr) ∧ zset_rep h' zs' ns' ∧
     zscores ns' = delete e (zscores ns) ∧ ret = (if decide (is_Some (zscores ns !! e)) then 1 else 0)) ∧
  zsetLength zs = Z.of_nat (base.size (zscores ns)) ∧
  (∃ zs', zsetScore h zs e = Some (zs', zscores ns !! e) ∧ zset_rep h zs' ns) ∧
  (∃ zs' k, zsetRank h zs e reverse = Some (zs', k) ∧ zset_rep h zs' ns ∧
     (∀ q d, ns !! q = Some d → eele d = e → k = if reverse then Z.of_nat (length ns) - 1 - Z.of_nat q else Z.of_nat q) ∧
     (zscores ns !! e = None → k = -1)).
Proof. intros Hr. split; [by apply zsetDel_spec|by apply zset_queries_spec]. Qed.

End claims.

(** ** Witnesses: integer scores, the dict of dict.c *)

Definition demo_hash (k : list Z) : Z := u64 (fold_right Z.add 0 k).
Definition demo_type : dictType (list Z) ptr := DictType demo_hash None None None false false.

#[global] Instance demo_type_ok : DictTypeOk demo_type.
Proof. split; simpl; try done. intros k. apply uwrap_range. lia. Qed.

#[global] Instance demo_api : MapApi (dict (list Z) ptr) (list Z) ptr := dict_api demo_type eq_refl true.

Definition demo_zset : zset (dict (list Z) ptr) := ZSet dictCreate (zslCreate (∅ : heap Z) 0).2.

Lemma demo_zset_rep : zset_rep (zslCreate (∅ : heap Z) 0).1 demo_zset [].
Proof.
  split; [apply zslCreate_spec|constructor| |done].
  split; [apply dictCreate_wf|]. intros k. by vm_compute.
Qed.

Definition demo_plus (a b : Z) : option Z := Some (a + b).

Lemma zsetAdd_refines_witness : ∃ h' zs' ns',
  zsetAdd demo_plus (zslCreate (∅ : heap Z) 0).1 demo_zset 2 (Some 7) [97] 0 = Some (h', zs', 1, ZADD_ADDED, Some 7) ∧
  zset_rep h' zs' ns' ∧ zscores ns' = {[ [97] := 7 ]}.
Proof.
  apply (zsetAdd_refines demo_plus (zslCreate (∅ : heap Z) 0).1 demo_zset [] 2 (Some 7) [97] 0 demo_zset_rep).
  - unfold ZSKIPLIST_MAXLEVEL. lia.
  - done.
  - done.
Defined.

Lemma zsetDel_refines_witness : ∃ h zs ns, zset_rep h zs ns ∧ zscores ns = {[ [97] := 7 ]} ∧
  ∃ h' zs' fr ns', zsetDel h zs [97] = Some (h', zs', 1, fr) ∧ zset_rep h' zs' ns' ∧ zscores ns' = (∅ : gmap (list Z) Z).
Proof.
  destruct (zsetAdd_spec demo_plus (zslCreate (∅ : heap Z) 0).1 demo_zset [] 2 (Some 7) [97] 0 demo_zset_rep)
    as (h & zs & ns & _ & Hr & Hm); [unfold ZSKIPLIST_MAXLEVEL; lia|done|done|].
  exists h, zs, ns. split; [exact Hr|]. split; [exact Hm|].
  destruct (zsetDel_refines h zs ns [97] false Hr) as ((h' & zs' & ret & fr & ns' & E & Hr' & Hm' & Hret) & _).
  rewrite Hm in Hm', Hret. rewrite decide_True in Hret by (by eexists). subst ret.
  exists h', zs', fr, ns'. split; [exact E|]. split; [exact Hr'|]. rewrite Hm'. reflexivity.
Defined.
