(* ===== verification/Lzf.v ===== *)
(** * lzf_c.c, lzf_d.c: LZF compression

    Used for strings in RDB files and for the inner nodes of quicklists.  The
    model follows the configuration of lzfP.h: HLOG 16, VERY_FAST, CHECK_INPUT,
    offsets in the hash table, and INIT_HTAB 0: the hash table starts with
    arbitrary contents, the parameter [junk].

    Pointers are indexes into the input and the output buffer; every access
    outside of a buffer is [None].  The return value 0 is the failure of the
    code (no room, or bad input when decompressing). *)

From S2P Require Import Prelude.

Definition MAX_LIT : Z := 32.
Definition MAX_OFF : Z := 8192.
Definition MAX_REF : Z := 264.

(** [p[i]] *)
Definition peek (b : list Z) (i : Z) : option Z := if i <? 0 then None else b !! Z.to_nat i.

(** [p[i] = x] *)
Definition poke (b : list Z) (i x : Z) : option (list Z) :=
  if (0 <=? i) && (i <? Z.of_nat (length b)) then Some (<[Z.to_nat i := x]> b) else None.

(** ** The hash of three bytes *)

Definition FRST (inp : list Z) (p : Z) : option Z :=
  a ← peek inp p; b ← peek inp (p + 1); Some (u32 (Z.lor (Z.shiftl a 8) b)).

Definition NEXT (v : Z) (inp : list Z) (p : Z) : option Z :=
  c ← peek inp (p + 2); Some (u32 (Z.lor (Z.shiftl v 8) c)).

Definition IDX (h : Z) : Z := Z.land (u32 (Z.shiftr h 8 - h * 5)) 65535.

(** ** Compression *)

Record cstate := CState { ip : Z; op : Z; lit : Z; hval : Z; htab : gmap Z Z; out : list Z }.

(** [Ret0]: return 0 with the output as it is. *)
Inductive step := Ret0 (o : list Z) | Next (s : cstate) | Break (s : cstate).

Definition not_ (l : Z) : Z := if l =? 0 then 1 else 0.

Section compress.
Context (junk : Z → Z) (inp : list Z) (out_len : Z).

Definition in_len : Z := Z.of_nat (length inp).

(** The three bytes at [ref] and [ip] are equal and [ref] is close enough. *)
Definition is_match (ref i off : Z) : option bool :=
  if (off <? MAX_OFF) && (0 <? ref) then
    r2 ← peek inp (ref + 2); i2 ← peek inp (i + 2);
    if r2 =? i2 then
      r0 ← peek inp ref; i0 ← peek inp i; r1 ← peek inp (ref + 1); i1 ← peek inp (i + 1);
      Some ((r0 =? i0) && (r1 =? i1))
    else Some false
  else Some false.

(** The sixteen unrolled comparisons: the length, and whether one failed. *)
Fixpoint unrolled (n : nat) (ref i len : Z) : option (Z * bool) :=
  match n with
  | O => Some (len, false)
  | S n' =>
      let len := len + 1 in
      a ← peek inp (ref + len); b ← peek inp (i + len);
      if a =? b then unrolled n' ref i len else Some (len, true)
  end.

(** [do len++; while (len < maxlen && ref[len] == ip[len])] *)
Fixpoint extend (fuel : nat) (ref i len maxlen : Z) : option Z :=
  match fuel with
  | O => None
  | S f =>
      let len := len + 1 in
      if len <? maxlen then
        a ← peek inp (ref + len); b ← peek inp (i + len);
        if a =? b then extend f ref i len maxlen else Some len
      else Some len
  end.

Definition match_len (ref i : Z) : option Z :=
  let len := 2 in
  let maxlen := u32 (in_len - i - len) in
  let maxlen := if MAX_REF <? maxlen then MAX_REF else maxlen in
  '(len, broke) ← (if 16 <? maxlen then unrolled 16 ref i len else Some (len, false));
  if broke : bool then Some len else extend 300 ref i len maxlen.

(** [lit++; *op++ = *ip++;] and the end of a full run. *)
Definition literal (s : cstate) : option cstate :=
  let lit' := lit s + 1 in
  b ← peek inp (ip s);
  o ← poke (out s) (op s) b;
  let op' := op s + 1 in
  let ip' := ip s + 1 in
  if lit' =? MAX_LIT then
    o ← poke o (op' - lit' - 1) (u8 (lit' - 1));
    Some (CState ip' (op' + 1) 0 (hval s) (htab s) o)
  else Some (CState ip' op' lit' (hval s) (htab s) o).

(** The back reference: its bytes and the new state. *)
Definition backref (s : cstate) (ref off : Z) : option step :=
  if (out_len <=? op s + 3 + 1) && (out_len <=? op s - not_ (lit s) + 3 + 1) then Some (Ret0 (out s)) else
  o ← poke (out s) (op s - lit s - 1) (u8 (lit s - 1));
  let op' := op s - not_ (lit s) in
  len ← match_len ref (ip s);
  let len := len - 2 in
  '(o, op') ←
    (if len <? 7 then
       o ← poke o op' (u8 (Z.shiftr off 8 + Z.shiftl len 5)); Some (o, op' + 1)
     else
       o ← poke o op' (u8 (Z.shiftr off 8 + Z.shiftl 7 5));
       o ← poke o (op' + 1) (u8 (len - 7)); Some (o, op' + 2));
  o ← poke o op' (u8 off);
  let op' := op' + 1 + 1 in
  let i := ip s + 1 + (len + 1) in
  if in_len - 2 <=? i then Some (Break (CState i op' 0 (hval s) (htab s) o)) else
  let i := i - 1 - 1 in
  h ← FRST inp i;
  h ← NEXT h inp i;
  let t := <[IDX h := u32 i]> (htab s) in
  let i := i + 1 in
  h ← NEXT h inp i;
  let t := <[IDX h := u32 i]> t in
  Some (Next (CState (i + 1) op' 0 h t o)).

(** The body of the main loop. *)
Definition iter (s : cstate) : option step :=
  h ← NEXT (hval s) inp (ip s);
  let idx := IDX h in
  let ref := u32 (default (junk idx) (htab s !! idx)) in
  let s := CState (ip s) (op s) (lit s) h (<[idx := u32 (ip s)]> (htab s)) (out s) in
  let off := u64 (ip s - ref - 1) in
  m ← is_match ref (ip s) off;
  if m : bool then backref s ref off
  else if out_len <=? op s then Some (Ret0 (out s))
  else s ← literal s; Some (Next s).

(** [inl]: return 0. *)
Fixpoint main_loop (fuel : nat) (s : cstate) : option (list Z + cstate) :=
  match fuel with
  | O => None
  | S f =>
      if ip s <? in_len - 2 then
        r ← iter s;
        match r with
        | Ret0 o => Some (inl o)
        | Next s => main_loop f s
        | Break s => Some (inr s)
        end
      else Some (inr s)
  end.

(** The bytes that are left are literals. *)
Fixpoint tail_loop (fuel : nat) (s : cstate) : option cstate :=
  match fuel with
  | O => None
  | S f => if ip s <? in_len then s ← literal s; tail_loop f s else Some s
  end.

(** The return value and the output buffer. *)
Definition lzf_compress (out0 : list Z) : option (Z * list Z) :=
  if (in_len =? 0) || (out_len =? 0) then Some (0, out0) else
  h ← FRST inp 0;
  r ← main_loop (S (length inp)) (CState 0 1 0 h ∅ out0);
  match r with
  | inl o => Some (0, o)
  | inr s =>
      if out_len <? op s + 3 then Some (0, out s) else
      s ← tail_loop (S (length inp)) s;
      o ← poke (out s) (op s - lit s - 1) (u8 (lit s - 1));
      Some (u32 (op s - not_ (lit s)), o)
  end.

End compress.

(** ** Decompression *)

Section decompress.
Context (inp : list Z) (out_len : Z).

(** [*op++ = *ip++] [n] times. *)
Fixpoint copy_in (n : nat) (i o : Z) (out : list Z) : option (list Z) :=
  match n with
  | O => Some out
  | S n' => b ← peek inp i; out ← poke out o b; copy_in n' (i + 1) (o + 1) out
  end.

(** [*op++ = *ref++] [n] times. *)
Fixpoint copy_ref (n : nat) (ref o : Z) (out : list Z) : option (list Z) :=
  match n with
  | O => Some out
  | S n' => b ← peek out ref; out ← poke out o b; copy_ref n' (ref + 1) (o + 1) out
  end.

(** memcpy of disjoint areas of the output. *)
Definition memcpy (out : list Z) (o ref : Z) (n : nat) : option (list Z) :=
  if (0 <=? ref) && (ref + Z.of_nat n <=? Z.of_nat (length out)) && (0 <=? o) && (o + Z.of_nat n <=? Z.of_nat (length out))
  then Some (take (Z.to_nat o) out ++ take n (drop (Z.to_nat ref) out) ++ drop (Z.to_nat o + n) out) else None.

(** One block: [inl] is an error (return 0), [inr] the new [ip], [op] and output. *)
Definition block (i o : Z) (out : list Z) : option (unit + Z * Z * list Z) :=
  let in_end := Z.of_nat (length inp) in
  ctrl ← peek inp i;
  let i := i + 1 in
  if ctrl <? 32 then
    let ctrl := ctrl + 1 in
    if out_len <? o + ctrl then Some (inl ()) else
    if in_end <? i + ctrl then Some (inl ()) else
    out ← copy_in (Z.to_nat ctrl) i o out;
    Some (inr (i + ctrl, o + ctrl, out))
  else
    let len := Z.shiftr ctrl 5 in
    let ref := o - Z.shiftl (Z.land ctrl 31) 8 - 1 in
    if in_end <=? i then Some (inl ()) else
    r ← (if len =? 7 then
           x ← peek inp i;
           if in_end <=? i + 1 then Some None else Some (Some (len + x, i + 1))
         else Some (Some (len, i)));
    match r with
    | None => Some (inl ())
    | Some (len, i) =>
        y ← peek inp i;
        let ref := ref - y in
        let i := i + 1 in
        if out_len <? o + len + 2 then Some (inl ()) else
        if ref <? 0 then Some (inl ()) else
        out ← (if (10 <=? len) && (ref + (len + 2) <=? o)
               then memcpy out o ref (Z.to_nat (len + 2))
               else copy_ref (Z.to_nat (len + 2)) ref o out);
        Some (inr (i, o + len + 2, out))
    end.

Fixpoint decompress_loop (fuel : nat) (i o : Z) (out : list Z) : option (Z * list Z) :=
  match fuel with
  | O => None
  | S f =>
      r ← block i o out;
      match r with
      | inl _ => Some (0, out)
      | inr (i, o, out) =>
          if i <? Z.of_nat (length inp) then decompress_loop f i o out else Some (u32 o, out)
      end
  end.

Definition lzf_decompress (out0 : list Z) : option (Z * list Z) :=
  decompress_loop (S (length inp)) 0 0 out0.

End decompress.

(** ** The format *)

(** A literal run, or a copy of [l] bytes that starts [o + 1] bytes before the end. *)
Inductive lzf_block := Lit (l : list Z) | Copy (o : Z) (l : nat).

Definition enc1 (b : lzf_block) : list Z :=
  match b with
  | Lit l => Z.of_nat (length l) - 1 :: l
  | Copy o l =>
      let n := Z.of_nat l - 2 in
      if n <? 7 then [Z.shiftr o 8 + Z.shiftl n 5; Z.land o 255]
      else [Z.shiftr o 8 + Z.shiftl 7 5; n - 7; Z.land o 255]
  end.

Definition enc (bs : list lzf_block) : list Z := bs ≫= enc1.

(** The copy proceeds byte by byte, so it may overlap itself. *)
Fixpoint copied (n : nat) (o : nat) (d : list Z) : list Z :=
  match n with
  | O => d
  | S n' => copied n' o (d ++ [d !!! (length d - o - 1)%nat])
  end.

Definition den1 (d : list Z) (b : lzf_block) : list Z :=
  match b with Lit l => d ++ l | Copy o l => copied l (Z.to_nat o) d end.

Definition ok1 (d : list Z) (b : lzf_block) : Prop :=
  match b with
  | Lit l => (1 ≤ length l ≤ 32)%nat
  | Copy o l => 0 ≤ o < MAX_OFF ∧ (Z.to_nat o < length d)%nat ∧ (3 ≤ l ≤ 264)%nat
  end.

(** The blocks [bs] are well formed and take the output from [d] to [d']. *)
Inductive decodes : list Z → list lzf_block → list Z → Prop :=
  | decodes_nil d : decodes d [] d
  | decodes_snoc d bs d' b : decodes d bs d' → ok1 d' b → decodes d (bs ++ [b]) (den1 d' b).

Lemma decodes_cons d b bs d' : ok1 d b → decodes (den1 d b) bs d' → decodes d (b :: bs) d'.
Proof.
  intros Hb. remember (den1 d b) as d0. induction 1 as [d1|d1 bs d2 b' _ IH Hb']; subst.
  - apply (decodes_snoc d [] d b); [constructor|done].
  - rewrite app_comm_cons. by constructor; [apply IH|].
Qed.

Lemma decodes_uncons d b bs d' : decodes d (b :: bs) d' → ok1 d b ∧ decodes (den1 d b) bs d'.
Proof.
  remember (b :: bs) as l eqn:El. intros Hd. revert b bs El. induction Hd as [d1|d1 cs d2 c Hd IH Hc]; intros b bs El; [done|].
  destruct cs as [|b' cs].
  - simpl in El. injection El as -> <-. inversion Hd; subst; [|by destruct bs]. split; [done|constructor].
  - simpl in El. injection El as -> <-. destruct (IH b cs eq_refl) as [? ?]. split; [done|]. by constructor.
Qed.

Lemma enc_snoc bs b : enc (bs ++ [b]) = enc bs ++ enc1 b.
Proof. unfold enc. rewrite bind_app. simpl. by rewrite app_nil_r. Qed.

Lemma copied_length n o d : length (copied n o d) = (length d + n)%nat.
Proof. revert d. induction n as [|n IH]; intros d; simpl; [lia|]. rewrite IH, length_app. simpl. lia. Qed.

(** Copying what is already there. *)
Lemma copied_match inp o n : ∀ d, (length d + n ≤ length inp)%nat → d = take (length d) inp → (o < length d)%nat →
  (∀ i, (i < n)%nat → inp !! (length d - o - 1 + i)%nat = inp !! (length d + i)%nat) →
  copied n o d = take (length d + n) inp.
Proof.
  induction n as [|n IH]; intros d Hlen Hd Ho Hm; simpl.
  { by rewrite Nat.add_0_r. }
  destruct (lookup_lt_is_Some_2 inp (length d)) as [x Hx]; [lia|].
  assert (d !!! (length d - o - 1)%nat = x) as ->.
  { apply list_lookup_total_correct. pose proof (lookup_take_lt inp (length d) (length d - o - 1)) as E.
    rewrite <- Hd in E. rewrite E by lia.
    specialize (Hm 0%nat). rewrite !Nat.add_0_r in Hm. rewrite Hm by lia. done. }
  assert (length (d ++ [x]) = S (length d)) as El by (rewrite length_app; simpl; lia).
  rewrite IH; rewrite El; try lia.
  - f_equal. lia.
  - rewrite (take_S_r inp _ x Hx). by rewrite <- Hd.
  - intros i Hi. replace (S (length d) - o - 1 + i)%nat with (length d - o - 1 + S i)%nat by lia.
    rewrite Hm by lia. f_equal. lia.
Qed.

(** ** Accesses *)

Lemma peek_nat b (i : nat) : peek b (Z.of_nat i) = b !! i.
Proof. unfold peek. rewrite (proj2 (Z.ltb_ge _ _)) by lia. by rewrite Nat2Z.id. Qed.

Lemma peek_Some b i : 0 ≤ i < Z.of_nat (length b) → is_Some (peek b i).
Proof. intros. unfold peek. rewrite (proj2 (Z.ltb_ge _ _)) by lia. apply lookup_lt_is_Some. lia. Qed.

Lemma poke_app a x b y : poke (a ++ x :: b) (Z.of_nat (length a)) y = Some (a ++ y :: b).
Proof.
  unfold poke. rewrite (proj2 (Z.leb_le _ _)), (proj2 (Z.ltb_lt _ _)) by (rewrite ?length_app; simpl; lia). simpl.
  rewrite Nat2Z.id. by rewrite insert_app_r_alt, Nat.sub_diag by lia.
Qed.

Lemma poke_at a x b y z : z = Z.of_nat (length a) → poke (a ++ x :: b) z y = Some (a ++ y :: b).
Proof. intros ->. apply poke_app. Qed.

Lemma poke_Some b i y : 0 ≤ i < Z.of_nat (length b) → ∃ b', poke b i y = Some b' ∧ length b' = length b.
Proof.
  intros. unfold poke. rewrite (proj2 (Z.leb_le _ _)), (proj2 (Z.ltb_lt _ _)) by lia. simpl. eexists. split; [done|].
  apply length_insert.
Qed.

(** ** The length of a match *)

Section matching.
Context (inp : list Z) (r i : nat).
Context (Hri : (r < i)%nat).

(** The first [n] bytes at [r] and [i] are equal. *)
Definition same_bytes (n : nat) : Prop := ∀ j, (j < n)%nat → inp !! (r + j)%nat = inp !! (i + j)%nat.

Lemma same_S n : same_bytes n → inp !! (r + n)%nat = inp !! (i + n)%nat → same_bytes (S n).
Proof. intros Hs Hn j Hj. destruct (decide (j = n)) as [->|]; [done|]. apply Hs. lia. Qed.

Lemma unrolled_spec n : ∀ len, same_bytes (S len) → (i + len + n < length inp)%nat →
  ∃ len' broke, unrolled inp n (Z.of_nat r) (Z.of_nat i) (Z.of_nat len) = Some (Z.of_nat len', broke) ∧
    (len' ≤ len + n)%nat ∧
    if (broke : bool) then (len < len')%nat ∧ same_bytes len' else len' = (len + n)%nat ∧ same_bytes (S len').
Proof.
  induction n as [|n IH]; intros len Hs Hb; cbn [unrolled].
  { exists len, false. split; [done|]. rewrite Nat.add_0_r. split; [lia|done]. }
  replace (Z.of_nat r + (Z.of_nat len + 1)) with (Z.of_nat (r + S len)) by lia.
  replace (Z.of_nat i + (Z.of_nat len + 1)) with (Z.of_nat (i + S len)) by lia.
  destruct (lookup_lt_is_Some_2 inp (r + S len)) as [a Ha]; [lia|].
  destruct (lookup_lt_is_Some_2 inp (i + S len)) as [b Hbb]; [lia|].
  rewrite !peek_nat, Ha, Hbb. cbn [mbind option_bind]. destruct (Z.eqb_spec a b) as [<-|Hab].
  - destruct (IH (S len)) as (len' & br & E & Hl & Hc); [by apply same_S; [|congruence]|lia|].
    exists len', br. replace (Z.of_nat len + 1) with (Z.of_nat (S len)) by lia. split; [done|]. split; [lia|].
    destruct br; destruct Hc; (split; [lia|done]).
  - exists (S len), true. split; [do 2 f_equal; lia|]. split; [lia|]. split; [lia|done].
Qed.

Lemma extend_spec fuel maxlen : ∀ len, same_bytes (S len) → (i + S len ≤ length inp)%nat → (i + maxlen ≤ length inp)%nat →
  (maxlen - len < fuel)%nat →
  ∃ len', extend inp fuel (Z.of_nat r) (Z.of_nat i) (Z.of_nat len) (Z.of_nat maxlen) = Some (Z.of_nat len') ∧
    (len < len')%nat ∧ same_bytes len' ∧ (len' ≤ Nat.max (S len) maxlen)%nat.
Proof.
  induction fuel as [|f IH]; intros len Hs Hb Hm Hf; [lia|]. cbn [extend].
  destruct (Z.ltb_spec (Z.of_nat len + 1) (Z.of_nat maxlen)).
  - replace (Z.of_nat r + (Z.of_nat len + 1)) with (Z.of_nat (r + S len)) by lia.
    replace (Z.of_nat i + (Z.of_nat len + 1)) with (Z.of_nat (i + S len)) by lia.
    destruct (lookup_lt_is_Some_2 inp (r + S len)) as [a Ha]; [lia|].
    destruct (lookup_lt_is_Some_2 inp (i + S len)) as [b Hbb]; [lia|].
    rewrite !peek_nat, Ha, Hbb. cbn [mbind option_bind]. replace (Z.of_nat len + 1) with (Z.of_nat (S len)) by lia.
    destruct (Z.eqb_spec a b) as [<-|Hab].
    + destruct (IH (S len)) as (len' & E & ? & ? & ?); [by apply same_S; [|congruence]|lia|done|lia|].
      exists len'. split_and!; [done|lia|done|lia].
    + exists (S len). split_and!; [done|lia|done|lia].
  - exists (S len). split_and!; [f_equal; lia|lia|done|lia].
Qed.

Lemma match_len_spec : same_bytes 3 → (i + 3 ≤ length inp)%nat → Z.of_nat (length inp) < 2 ^ 32 →
  ∃ l, match_len inp (Z.of_nat r) (Z.of_nat i) = Some (Z.of_nat l) ∧ (3 ≤ l ≤ 264)%nat ∧
    (i + l ≤ length inp)%nat ∧ same_bytes l.
Proof.
  intros H3 Hb Hs. unfold match_len, in_len. rewrite uwrap_small by (unfold in_u; lia).
  set (maxlen := Nat.min 264 (length inp - i - 2)).
  assert ((if MAX_REF <? Z.of_nat (length inp) - Z.of_nat i - 2 then MAX_REF else Z.of_nat (length inp) - Z.of_nat i - 2) =
    Z.of_nat maxlen) as -> by (unfold MAX_REF; case_match eqn:E; lia).
  destruct (Z.ltb_spec 16 (Z.of_nat maxlen)).
  - destruct (unrolled_spec 16 2 H3) as (len' & br & E & Hl & Hc); [lia|]. change (Z.of_nat 2) with 2 in E. rewrite E. cbn [mbind option_bind].
    destruct br; destruct Hc as [Hc1 Hc2].
    + exists len'. split_and!; [done|lia|lia|lia|done].
    + destruct (extend_spec 300 maxlen len' Hc2) as (l & -> & ? & ? & ?); [lia|lia|lia|].
      exists l. split_and!; [done|lia|lia|lia|done].
  - cbn [mbind option_bind]. destruct (extend_spec 300 maxlen 2 H3) as (l & E & ? & ? & ?); [lia|lia|lia|].
    change (Z.of_nat 2) with 2 in E. rewrite E. exists l. split_and!; [done|lia|lia|lia|done].
Qed.

End matching.

Lemma decodes_nil_inv d d' : decodes d [] d' → d' = d.
Proof. remember [] as bs eqn:E. destruct 1; [done|]. by destruct bs. Qed.

(** ** The compressor *)

Section compressor.
Context (junk : Z → Z) (inp : list Z) (out_len : Z).
Context (Hin : Z.of_nat (length inp) < 2 ^ 32).

(** The output is the encoding of blocks for a prefix [d] of the input, the
    control byte of the current run, and the literals of the run; at the very
    end of the buffer there may be no room for the control byte.  The last
    part bounds the expansion: one byte for every 32 literals. *)
Definition cinv (s : cstate) : Prop := ∃ bs d lits tail,
  decodes [] bs d ∧ inp = d ++ lits ++ tail ∧ (length lits < 32)%nat ∧
  ip s = Z.of_nat (length d + length lits) ∧ lit s = Z.of_nat (length lits) ∧
  op s = Z.of_nat (length (enc bs) + 1 + length lits) ∧
  ((∃ c rest, out s = enc bs ++ c :: lits ++ rest) ∨ (out s = enc bs ∧ lits = [])) ∧
  Z.of_nat (length (out s)) = out_len ∧ 32 * (op s - ip s - 1) ≤ ip s - lit s.

Lemma lit_ok d l : (1 ≤ length l ≤ 32)%nat → ok1 d (Lit l).
Proof. done. Qed.

Lemma literal_spec s : cinv s → op s < out_len → ip s < in_len inp →
  ∃ s', literal inp s = Some s' ∧ cinv s' ∧ ip s' = ip s + 1 ∧
    if decide (lit s = 31) then op s' = op s + 2 ∧ lit s' = 0 else op s' = op s + 1 ∧ lit s' = lit s + 1.
Proof.
  intros (bs & d & lits & tail & Hd & Ei & Hl & Eip & Elit & Eop & Hout & Hlen & Hexp) Hop Hip.
  unfold in_len in Hip. destruct tail as [|b tail]; [rewrite Ei, Eip, !length_app in Hip; simpl in Hip; lia|].
  destruct Hout as [(c & rest & Eo)|[Eo ->]]; [|rewrite Eo in Hlen; simpl in Eop; lia].
  destruct rest as [|r0 rest]; [rewrite Eo, !length_app in Hlen; simpl in Hlen; rewrite length_app in Hlen; simpl in Hlen; lia|].
  unfold literal. rewrite Eip, peek_nat, Ei.
  assert ((d ++ lits ++ b :: tail) !! (length d + length lits)%nat = Some b) as ->.
  { rewrite app_assoc. apply list_lookup_middle. by rewrite length_app. }
  cbn [mbind option_bind]. rewrite Eo.
  replace (enc bs ++ c :: lits ++ r0 :: rest) with ((enc bs ++ c :: lits) ++ r0 :: rest) by (by rewrite <- app_assoc).
  rewrite poke_at by (rewrite Eop, length_app; simpl; lia). cbn [mbind option_bind]. rewrite Elit.
  assert (Ei' : inp = d ++ (lits ++ [b]) ++ tail) by (by rewrite Ei, <- !app_assoc).
  assert (Hlen' : ∀ x, Z.of_nat (length ((enc bs ++ c :: lits) ++ x :: rest)) = out_len).
  { intros x. rewrite <- Hlen, Eo, !length_app. simpl. rewrite length_app. simpl. lia. }
  destruct (decide (Z.of_nat (length lits) = 31)) as [E31|E31].
  - rewrite (proj2 (Z.eqb_eq _ _)) by (unfold MAX_LIT; lia).
    rewrite <- app_assoc. simpl app. rewrite poke_at by (rewrite Eop; lia). cbn [mbind option_bind].
    eexists. split; [done|]. split; [|simpl; lia].
    assert (length (lits ++ [b]) = 32%nat) as E32 by (rewrite length_app; simpl; lia).
    assert (enc (bs ++ [Lit (lits ++ [b])]) = enc bs ++ 31 :: lits ++ [b]) as Eenc.
    { rewrite enc_snoc. cbn [enc1]. rewrite E32. done. }
    exists (bs ++ [Lit (lits ++ [b])]), (d ++ lits ++ [b]), [], tail. cbn [ip op lit out].
    rewrite Eenc, Ei'. split_and!.
    + apply (decodes_snoc [] bs d (Lit (lits ++ [b]))); [done|]. apply lit_ok. lia.
    + by rewrite <- !app_assoc.
    + simpl. lia.
    + rewrite !length_app. simpl. lia.
    + done.
    + rewrite Eop, !length_app. simpl. rewrite E32. lia.
    + assert (u8 (Z.of_nat (length lits) + 1 - 1) = 31) as -> by (rewrite E31; done).
      destruct rest as [|c' rest]; [right; split; [|done]|left; exists c', rest]; rewrite <- ?app_assoc; simpl; by rewrite <- ?app_assoc.
    + rewrite <- (Hlen' b). rewrite !length_app. simpl. rewrite !length_app. simpl. lia.
    + lia.
  - rewrite (proj2 (Z.eqb_neq _ _)) by (unfold MAX_LIT; lia).
    eexists. split; [done|]. split; [|simpl; lia].
    exists bs, d, (lits ++ [b]), tail. cbn [ip op lit out]. rewrite length_app. simpl. split_and!; try done; try lia.
    left. exists c, rest. by rewrite <- !app_assoc.
Qed.

(** The end of the current run: the control byte is written, or, when the run
    is empty, its place is given back. *)
Lemma stop_run s : cinv s → op s - lit s - 1 < out_len →
  ∃ bs d o rest tail, poke (out s) (op s - lit s - 1) (u8 (lit s - 1)) = Some o ∧ decodes [] bs d ∧
    inp = d ++ tail ∧ ip s = Z.of_nat (length d) ∧ op s - not_ (lit s) = Z.of_nat (length (enc bs)) ∧
    o = enc bs ++ rest ∧ length o = length (out s).
Proof.
  intros (bs & d & lits & tail & Hd & Ei & Hl & Eip & Elit & Eop & Hout & Hlen & Hexp) Hop.
  destruct Hout as [(c & rest & Eo)|[Eo ->]]; [|rewrite Eo in Hlen; simpl in *; lia].
  rewrite Eo, poke_at by lia. rewrite Elit. unfold not_.
  destruct lits as [|b lits].
  - exists bs, d, (enc bs ++ u8 (-1) :: rest), (u8 (-1) :: rest), tail. simpl in *. split_and!; try done; try lia.
    rewrite !length_app. done.
  - set (ls := b :: lits) in *. assert (length ls = S (length lits)) as El by done.
    rewrite (proj2 (Z.eqb_neq _ _)) by lia.
    assert (enc (bs ++ [Lit ls]) = enc bs ++ u8 (Z.of_nat (length ls) - 1) :: ls) as Eenc.
    { rewrite enc_snoc. cbn [enc1]. rewrite uwrap_small by (unfold in_u; lia). done. }
    eexists (bs ++ [Lit ls]), (d ++ ls), _, rest, tail. split; [done|]. rewrite Eenc. split_and!.
    + apply (decodes_snoc [] bs d (Lit ls)); [done|]. apply lit_ok. lia.
    + by rewrite Ei, <- app_assoc.
    + rewrite length_app. lia.
    + rewrite length_app. simpl. lia.
    + by rewrite <- app_assoc.
    + rewrite !length_app. done.
Qed.

Lemma FRST_Some p : 0 ≤ p → p + 1 < in_len inp → is_Some (FRST inp p).
Proof.
  unfold in_len. intros. unfold FRST. destruct (peek_Some inp p) as [a ->]; [lia|]. cbn [mbind option_bind].
  destruct (peek_Some inp (p + 1)) as [b ->]; [lia|]. by eexists.
Qed.

Lemma NEXT_Some v p : 0 ≤ p → p + 2 < in_len inp → is_Some (NEXT v inp p).
Proof. unfold in_len. intros. unfold NEXT. destruct (peek_Some inp (p + 2)) as [a ->]; [lia|]. by eexists. Qed.

(** The bytes of a back reference. *)
Lemma copy_bytes o l : 0 ≤ o < MAX_OFF → (3 ≤ l ≤ 264)%nat →
  enc1 (Copy o l) = if Z.of_nat l - 2 <? 7 then [u8 (Z.shiftr o 8 + Z.shiftl (Z.of_nat l - 2) 5); u8 o]
                    else [u8 (Z.shiftr o 8 + Z.shiftl 7 5); u8 (Z.of_nat l - 2 - 7); u8 o].
Proof.
  unfold MAX_OFF. intros Ho Hl. cbn [enc1]. rewrite !Z.shiftl_mul_pow2, !Z.shiftr_div_pow2 by lia.
  assert (0 ≤ o / 2 ^ 8 < 32) by (split; [apply Z.div_pos; lia|apply Z.div_lt_upper_bound; lia]).
  assert (Z.land o 255 = u8 o) as -> by (change 255 with (Z.ones 8); rewrite Z.land_ones by lia; done).
  destruct (Z.ltb_spec (Z.of_nat l - 2) 7).
  - rewrite (uwrap_small 8 (_ + _)) by (unfold in_u; lia). done.
  - rewrite (uwrap_small 8 (_ + _)), (uwrap_small 8 (_ - 7)) by (unfold in_u; lia). done.
Qed.

(** What one iteration promises. *)
Definition step_ok (s : cstate) (r : option step) : Prop :=
  match r with
  | Some (Ret0 _) => out_len ≤ op s + 4
  | Some (Next s') => cinv s' ∧ ip s < ip s'
  | Some (Break s') => cinv s' ∧ in_len inp - 2 ≤ ip s'
  | None => False
  end.

(** The state after a back reference. *)
Lemma copy_state s bs d tail off l c rest h t :
  cinv s → decodes [] bs d → inp = d ++ tail → ip s = Z.of_nat (length d) → op s - not_ (lit s) = Z.of_nat (length (enc bs)) →
  0 ≤ off < MAX_OFF → (Z.to_nat off < length d)%nat → (3 ≤ l ≤ 264)%nat → (length d + l ≤ length inp)%nat →
  same_bytes inp (length d - Z.to_nat off - 1) (length d) l →
  Z.of_nat (length (enc bs ++ enc1 (Copy off l) ++ c :: rest)) = out_len →
  cinv (CState (ip s + Z.of_nat l) (op s - not_ (lit s) + Z.of_nat (length (enc1 (Copy off l))) + 1) 0 h t
         (enc bs ++ enc1 (Copy off l) ++ c :: rest)).
Proof.
  intros Hs Hd Ei Eip Eop Ho Hod Hl Hb Hsame Hlen. exists (bs ++ [Copy off l]), (copied l (Z.to_nat off) d), [], (drop (length d + l) inp).
  assert (d = take (length d) inp) as Edt by (rewrite Ei, take_app_length; done).
  assert (copied l (Z.to_nat off) d = take (length d + l) inp) as Ec by (apply copied_match; done).
  rewrite enc_snoc. cbn [ip op lit out]. split_and!.
  - apply (decodes_snoc [] bs d (Copy off l)); [done|]. by split.
  - rewrite Ec. by rewrite app_nil_l, take_drop.
  - simpl. lia.
  - rewrite copied_length, Eip. simpl. lia.
  - done.
  - rewrite Eop, length_app. simpl. lia.
  - left. exists c, rest. by rewrite <- app_assoc.
  - done.
  - destruct Hs as (? & ? & lits & ? & _ & _ & _ & _ & Elit & _ & _ & _ & Hexp).
    assert (0 ≤ not_ (lit s)) by (unfold not_; case_match; lia). cbn [enc1].
    destruct (Z.ltb_spec (Z.of_nat l - 2) 7); simpl length; lia.
Qed.

(** The bytes of the reference are written one after the other. *)
Lemma write_copy a off l rest op' : 0 ≤ off < MAX_OFF → (3 ≤ l ≤ 264)%nat → (3 < length rest)%nat → op' = Z.of_nat (length a) →
  ∃ c rest',
    ('(o, op') ←
       (if Z.of_nat l - 2 <? 7 then
          o ← poke (a ++ rest) op' (u8 (Z.shiftr off 8 + Z.shiftl (Z.of_nat l - 2) 5)); Some (o, op' + 1)
        else
          o ← poke (a ++ rest) op' (u8 (Z.shiftr off 8 + Z.shiftl 7 5));
          o ← poke o (op' + 1) (u8 (Z.of_nat l - 2 - 7)); Some (o, op' + 2));
     o ← poke o op' (u8 off); Some (o, op' + 1)) =
    Some (a ++ enc1 (Copy off l) ++ c :: rest', op' + Z.of_nat (length (enc1 (Copy off l)))) ∧
    length (a ++ enc1 (Copy off l) ++ c :: rest') = length (a ++ rest).
Proof.
  intros Ho Hl Hr ->. rewrite copy_bytes by done. destruct rest as [|r1 [|r2 [|r3 [|r4 rest]]]]; simpl in Hr; try lia.
  destruct (Z.of_nat l - 2 <? 7).
  - exists r3, (r4 :: rest). rewrite poke_app. cbn [mbind option_bind].
    rewrite (cons_middle _ a (r2 :: r3 :: r4 :: rest)), app_assoc, poke_at by (rewrite length_app; simpl; lia).
    cbn [mbind option_bind]. rewrite <- !app_assoc. split; [|rewrite !length_app; simpl; lia]. do 2 f_equal. simpl. lia.
  - exists r4, rest. rewrite poke_app. cbn [mbind option_bind].
    rewrite (cons_middle _ a (r2 :: r3 :: r4 :: rest)), app_assoc, poke_at by (rewrite length_app; simpl; lia).
    cbn [mbind option_bind]. rewrite (cons_middle _ (a ++ [_]) (r3 :: r4 :: rest)), app_assoc, poke_at by (rewrite !length_app; simpl; lia).
    cbn [mbind option_bind]. rewrite <- !app_assoc. split; [|rewrite !length_app; simpl; lia]. do 2 f_equal. simpl. lia.
Qed.

Lemma backref_spec s i off : cinv s → ip s = Z.of_nat i → (Z.to_nat off < i)%nat → 0 ≤ off < MAX_OFF → (i + 3 ≤ length inp)%nat →
  same_bytes inp (i - Z.to_nat off - 1) i 3 →
  step_ok s (backref inp out_len s (Z.of_nat (i - Z.to_nat off - 1)) off).
Proof.
  intros Hs Ei Hoi Ho Hb H3. unfold backref.
  assert (0 ≤ lit s) as Hlit by (destruct Hs as (? & ? & ? & ? & _ & _ & _ & _ & -> & _); lia).
  assert (not_ (lit s) = 1 ∧ lit s = 0 ∨ not_ (lit s) = 0 ∧ 0 < lit s) as Hnot
    by (unfold not_; destruct (Z.eqb_spec (lit s) 0); lia).
  destruct (_ && _) eqn:Eroom; [apply andb_true_iff in Eroom as [E1%Z.leb_le _]; simpl; lia|].
  assert (op s - not_ (lit s) + 4 < out_len) as Hroom.
  { apply andb_false_iff in Eroom as [?%Z.leb_gt|?%Z.leb_gt]; lia. }
  destruct (stop_run s Hs) as (bs & d & o & rest & tail & -> & Hd & Einp & Eip & Eop & Eo & Hlo); [lia|].
  cbn [mbind option_bind]. assert (i = length d) as -> by lia.
  destruct (match_len_spec inp (length d - Z.to_nat off - 1) (length d)) as (l & El & Hl & Hbl & Hsame); [lia|done|done|done|].
  rewrite Eip, El. cbn [mbind option_bind].
  assert (Z.of_nat (length (out s)) = out_len) as Hol by (by destruct Hs as (? & ? & ? & ? & _ & _ & _ & _ & _ & _ & _ & ? & _)).
  destruct (write_copy (enc bs) off l rest (op s - not_ (lit s)) Ho Hl) as (c & rest' & Ew & Hlw).
  { rewrite <- Hlo, Eo, length_app in Hol. lia. }
  { done. }
  rewrite Eo in *.
  destruct (if Z.of_nat l - 2 <? 7 then _ else _) as [[o1 op1]|]; [|done]. cbn [mbind option_bind] in Ew |- *.
  destruct (poke o1 op1 (u8 off)) as [o2|]; [|done]. cbn [mbind option_bind] in Ew |- *. injection Ew as -> Eop1.
  pose proof (λ h t, copy_state s bs d tail off l c rest' h t Hs Hd Einp Eip Eop Ho ltac:(lia) Hl Hbl Hsame ltac:(lia)) as Hst.
  rewrite Eop1. replace (Z.of_nat (length d) + 1 + (Z.of_nat l - 2 + 1)) with (ip s + Z.of_nat l) by lia.
  destruct (Z.leb_spec (in_len inp - 2) (ip s + Z.of_nat l)); [by split; [apply Hst|]|].
  destruct (FRST_Some (ip s + Z.of_nat l - 1 - 1)) as [h1 ->]; [lia|lia|]. cbn [mbind option_bind].
  destruct (NEXT_Some h1 (ip s + Z.of_nat l - 1 - 1)) as [h2 ->]; [lia|lia|]. cbn [mbind option_bind].
  destruct (NEXT_Some h2 (ip s + Z.of_nat l - 1 - 1 + 1)) as [h3 ->]; [lia|lia|]. cbn [mbind option_bind].
  replace (ip s + Z.of_nat l - 1 - 1 + 1 + 1) with (ip s + Z.of_nat l) by lia.
  split; [apply Hst|simpl; lia].
Qed.

Lemma ip_range s : cinv s → 0 ≤ ip s ≤ in_len inp ∧ 0 ≤ lit s ≤ 31 ∧ lit s < op s ∧ 32 * (op s - ip s - 1) ≤ ip s.
Proof.
  intros (bs & d & lits & tail & _ & Ei & Hl & Eip & Elit & Eop & _ & _ & Hexp). unfold in_len.
  apply (f_equal length) in Ei. rewrite !length_app in Ei. lia.
Qed.

Lemma is_match_spec i ref off : (i + 3 ≤ length inp)%nat → in_u 32 ref → off = u64 (Z.of_nat i - ref - 1) →
  ∃ b, is_match inp ref (Z.of_nat i) off = Some b ∧
    (b = true → 0 ≤ off < MAX_OFF ∧ (Z.to_nat off < i)%nat ∧ ref = Z.of_nat (i - Z.to_nat off - 1) ∧
       same_bytes inp (i - Z.to_nat off - 1) i 3).
Proof.
  unfold in_u. intros Hi Hr ->. unfold is_match. destruct (_ && _) eqn:Ec; [|by exists false].
  apply andb_true_iff in Ec as [Hoff%Z.ltb_lt Hpos%Z.ltb_lt]. unfold MAX_OFF in *.
  assert (u64 (Z.of_nat i - ref - 1) = Z.of_nat i - ref - 1 ∧ 0 ≤ Z.of_nat i - ref - 1) as [E Hge].
  { destruct (Z.lt_ge_cases (Z.of_nat i - ref - 1) 0); [|split; [apply uwrap_small; unfold in_u|]; lia].
    exfalso. unfold uwrap in Hoff. rewrite <- (Z.mod_add _ 1), Z.mod_small in Hoff by lia. lia. }
  rewrite E in *. assert (∃ r, ref = Z.of_nat r) as [r ->] by (exists (Z.to_nat ref); lia).
  assert (i - Z.to_nat (Z.of_nat i - Z.of_nat r - 1) - 1 = r)%nat as Er by lia. rewrite Er.
  replace (Z.of_nat r + 2) with (Z.of_nat (r + 2)) by lia. replace (Z.of_nat i + 2) with (Z.of_nat (i + 2)) by lia.
  replace (Z.of_nat r + 1) with (Z.of_nat (r + 1)) by lia. replace (Z.of_nat i + 1) with (Z.of_nat (i + 1)) by lia.
  rewrite !peek_nat.
  destruct (lookup_lt_is_Some_2 inp (r + 2)) as [r2 Hr2]; [lia|]. destruct (lookup_lt_is_Some_2 inp (i + 2)) as [i2 Hi2]; [lia|].
  destruct (lookup_lt_is_Some_2 inp (r + 1)) as [r1 Hr1]; [lia|]. destruct (lookup_lt_is_Some_2 inp (i + 1)) as [i1 Hi1]; [lia|].
  destruct (lookup_lt_is_Some_2 inp r) as [r0 Hr0]; [lia|]. destruct (lookup_lt_is_Some_2 inp i) as [i0 Hi0]; [lia|].
  rewrite Hr2, Hi2, Hr1, Hi1, Hr0, Hi0. cbn [mbind option_bind]. destruct (Z.eqb_spec r2 i2) as [<-|]; [|by exists false].
  eexists. split; [done|]. intros [->%Z.eqb_eq ->%Z.eqb_eq]%andb_true_iff. split_and!; try lia.
  intros [|[|[|j]]] Hj; try lia; rewrite ?Nat.add_0_r; congruence.
Qed.

Lemma iter_spec s : cinv s → ip s < in_len inp - 2 → step_ok s (iter junk inp out_len s).
Proof.
  intros Hs Hip. destruct (ip_range s Hs) as (Hr & _). unfold iter, in_len in *.
  destruct (NEXT_Some (hval s) (ip s)) as [h ->]; [lia|unfold in_len; lia|]. cbn [mbind option_bind]. cbv zeta.
  set (ref := u32 (default _ _)). set (s1 := CState _ _ _ _ _ _). assert (cinv s1) as Hs1 by done.
  change (ip s1) with (ip s). set (i := Z.to_nat (ip s)). assert (ip s = Z.of_nat i) as Ei by lia.
  destruct (is_match_spec i ref (u64 (Z.of_nat i - ref - 1))) as (b & Eb & Hb); [lia|apply uwrap_range; lia|done|].
  rewrite Ei, Eb. cbn [mbind option_bind]. destruct b.
  - destruct (Hb eq_refl) as (Ho & Hoi & Er & H3). rewrite Er at 1.
    apply (backref_spec s1 i); (done || lia).
  - destruct (Z.leb_spec out_len (op s1)); [simpl in *; lia|].
    destruct (literal_spec s1 Hs1) as (s' & -> & Hs' & Ei' & _); [done|unfold in_len; simpl; lia|]. cbn [mbind option_bind].
    split; [done|]. simpl in Ei'. lia.
Qed.

(** No more than one byte in 32 is needed beyond the input. *)
Definition roomy : Prop := Z.of_nat (length inp) + Z.of_nat (length inp) / 32 + 6 ≤ out_len.

Lemma roomy_op s : roomy → cinv s → op s + 4 < out_len.
Proof.
  unfold roomy. intros Hr Hs. destruct (ip_range s Hs) as (Hi & Hl & _ & Hexp). unfold in_len in *.
  assert (op s - ip s - 1 ≤ Z.of_nat (length inp) / 32); [|lia].
  apply Z.div_le_lower_bound; lia.
Qed.

Lemma main_loop_spec fuel : ∀ s, cinv s → (Z.to_nat (in_len inp - ip s) < fuel)%nat →
  ∃ r, main_loop junk inp out_len fuel s = Some r ∧
    match r with inl _ => ¬ roomy | inr s' => cinv s' ∧ in_len inp - 2 ≤ ip s' end.
Proof.
  induction fuel as [|f IH]; intros s Hs Hf; [lia|]. cbn [main_loop].
  destruct (Z.ltb_spec (ip s) (in_len inp - 2)) as [Hip|Hip]; [|by exists (inr s)].
  pose proof (iter_spec s Hs Hip) as Hit. destruct (ip_range s Hs) as (Hr & _).
  destruct (iter junk inp out_len s) as [[o|s'|s']|]; cbn [mbind option_bind step_ok] in *; [| | |done].
  - exists (inl o). split; [done|]. intros Hroom. pose proof (roomy_op s Hroom Hs). lia.
  - destruct Hit as [Hs' Hlt]. apply IH; [done|]. destruct (ip_range s' Hs') as (Hr' & _). lia.
  - by exists (inr s').
Qed.

Definition tail_room (s : cstate) : Prop :=
  let k := in_len inp - ip s in
  k ≤ 2 ∧ op s + k + (if 32 <=? lit s + k then 1 else 0) ≤ out_len.

Lemma tail_loop_spec fuel : ∀ s, cinv s → tail_room s → (Z.to_nat (in_len inp - ip s) < fuel)%nat →
  ∃ s', tail_loop inp fuel s = Some s' ∧ cinv s' ∧ ip s' = in_len inp ∧ op s' ≤ out_len.
Proof.
  induction fuel as [|f IH]; intros s Hs [Hk Hroom] Hf; [lia|]. cbn [tail_loop]. destruct (ip_range s Hs) as (Hr & Hl & _).
  destruct (Z.ltb_spec (ip s) (in_len inp)) as [Hip|Hip].
  - destruct (literal_spec s Hs) as (s' & -> & Hs' & Ei & Hc); [destruct (Z.leb_spec 32 (lit s + (in_len inp - ip s))); lia|done|].
    cbn [mbind option_bind]. apply IH; [done| |lia]. split; [lia|].
    destruct (decide (lit s = 31)); destruct Hc as [-> ->];
      destruct (Z.leb_spec 32 (lit s + (in_len inp - ip s))); case_match eqn:E; apply Z.leb_le in E || apply Z.leb_gt in E; lia.
  - exists s. split; [done|]. split; [done|]. split; [lia|]. case_match; lia.
Qed.

Lemma compress_spec out0 : (2 ≤ length inp)%nat → Z.of_nat (length out0) = out_len → out_len < 2 ^ 32 →
  ∃ n o, lzf_compress junk inp out_len out0 = Some (n, o) ∧ 0 ≤ n ≤ out_len ∧ (roomy → n ≠ 0) ∧
    (n ≠ 0 → ∃ bs, decodes [] bs inp ∧ take (Z.to_nat n) o = enc bs).
Proof.
  intros Hlen Hout Hsm. unfold lzf_compress. unfold in_len at 1.
  destruct (Z.eqb_spec (Z.of_nat (length inp)) 0); [lia|]. simpl orb.
  destruct (Z.eqb_spec out_len 0) as [E0|E0].
  { exists 0, out0. split_and!; try done; try lia. unfold roomy. pose proof (Z.div_pos (Z.of_nat (length inp)) 32). lia. }
  destruct (FRST_Some 0) as [h ->]; [lia|unfold in_len; lia|]. cbn [mbind option_bind].
  assert (cinv (CState 0 1 0 h ∅ out0)) as Hs0.
  { exists [], [], [], inp. destruct out0 as [|c rest]; [simpl in Hout; lia|]. simpl. split_and!; try done; [apply decodes_nil|lia|left; by exists c, rest]. }
  destruct (main_loop_spec (S (length inp)) _ Hs0) as (r & -> & Hr); [unfold in_len; simpl; lia|]. cbn [mbind option_bind].
  destruct r as [o|s]; [exists 0, o; split_and!; try done; lia|]. destruct Hr as [Hs Hip].
  destruct (Z.ltb_spec out_len (op s + 3)).
  { exists 0, (out s). split_and!; try done; try lia. intros Hroom. pose proof (roomy_op s Hroom Hs). lia. }
  destruct (ip_range s Hs) as (Hi & Hl & _).
  destruct (tail_loop_spec (S (length inp)) s Hs) as (s' & -> & Hs' & Eip & Hop).
  { split; [lia|]. case_match; lia. }
  { unfold in_len in *. lia. }
  cbn [mbind option_bind]. destruct (ip_range s' Hs') as (_ & Hl' & Hlo & _).
  destruct (stop_run s' Hs') as (bs & d & o & rest & tail & -> & Hd & Einp & Ei & Eop & Eo & Hlo'); [lia|]. cbn [mbind option_bind].
  assert (d = inp) as ->.
  { unfold in_len in Eip. rewrite Einp in Eip |- *. rewrite length_app in Eip. destruct tail; [by rewrite app_nil_r|simpl in *; lia]. }
  assert (enc bs ≠ []) as Hne.
  { destruct bs as [|b bs]; [apply decodes_nil_inv in Hd; rewrite Hd in Hlen; simpl in Hlen; lia|].
    unfold enc. simpl. destruct b; simpl; [done|]. by case_match. }
  assert (op s' - not_ (lit s') ≤ out_len) by (unfold not_; case_match; lia).
  rewrite uwrap_small by (unfold in_u; lia). rewrite Eop. eexists _, _. split; [done|]. split; [lia|].
  assert (length (enc bs) ≠ 0%nat) by (by destruct (enc bs)). split; [lia|]. intros _. exists bs. split; [done|].
  by rewrite Nat2Z.id, Eo, take_app_length.
Qed.

End compressor.

(** ** The decompressor *)

Section decompressor.
Context (inp : list Z) (out_len : Z).

Lemma copy_in_spec l : ∀ a b d rest, inp = a ++ l ++ b → (length l ≤ length rest)%nat →
  copy_in inp (length l) (Z.of_nat (length a)) (Z.of_nat (length d)) (d ++ rest) = Some (d ++ l ++ drop (length l) rest).
Proof.
  induction l as [|x l IH]; intros a b d rest Ei Hr; simpl in *; [done|]. destruct rest as [|y rest]; simpl in Hr; [lia|].
  assert (peek inp (Z.of_nat (length a)) = Some x) as -> by (rewrite peek_nat, Ei; by apply list_lookup_middle).
  cbn [mbind option_bind]. rewrite poke_app. cbn [mbind option_bind].
  rewrite (cons_middle x d), app_assoc.
  replace (Z.of_nat (length a) + 1) with (Z.of_nat (length (a ++ [x]))) by (rewrite length_app; simpl; lia).
  replace (Z.of_nat (length d) + 1) with (Z.of_nat (length (d ++ [x]))) by (rewrite length_app; simpl; lia).
  rewrite (IH (a ++ [x]) b (d ++ [x]) rest); [by rewrite <- app_assoc|by rewrite Ei, <- app_assoc|lia].
Qed.

Lemma copy_ref_spec n : ∀ o d rest, (o < length d)%nat → (n ≤ length rest)%nat →
  copy_ref n (Z.of_nat (length d - o - 1)) (Z.of_nat (length d)) (d ++ rest) = Some (copied n o d ++ drop n rest).
Proof.
  induction n as [|n IH]; intros o d rest Ho Hr; [done|]. destruct rest as [|y rest]; simpl in Hr; [lia|]. cbn [copy_ref copied drop].
  rewrite peek_nat, lookup_app_l by lia. rewrite (list_lookup_lookup_total_lt d) by lia. cbn [mbind option_bind].
  rewrite poke_app. cbn [mbind option_bind]. set (x := d !!! (length d - o - 1)%nat). rewrite (cons_middle x d), app_assoc.
  replace (Z.of_nat (length d) + 1) with (Z.of_nat (length (d ++ [x]))) by (rewrite length_app; simpl; lia).
  replace (Z.of_nat (length d - o - 1) + 1) with (Z.of_nat (length (d ++ [x]) - o - 1)) by (rewrite length_app; simpl; lia).
  apply IH; [rewrite length_app; simpl; lia|lia].
Qed.

(** A copy that does not reach the end of the old data. *)
Lemma copied_disjoint n o d : (o < length d)%nat → (n ≤ o + 1)%nat →
  copied n o d = d ++ take n (drop (length d - o - 1) d).
Proof.
  intros Ho Hn. set (m := take n (drop (length d - o - 1) d)).
  assert (length m = n) as Hm by (unfold m; rewrite length_take, length_drop; lia).
  rewrite (copied_match (d ++ m) o n d).
  - rewrite take_ge; [done|]. rewrite length_app. lia.
  - rewrite length_app. lia.
  - by rewrite take_app_length.
  - done.
  - intros i Hi. rewrite lookup_app_l by lia. rewrite lookup_app_r by lia.
    replace (length d + i - length d)%nat with i by lia. unfold m. rewrite lookup_take_lt, lookup_drop by lia. done.
Qed.

Lemma memcpy_spec n o d rest : (o < length d)%nat → (n ≤ o + 1)%nat → (n ≤ length rest)%nat →
  memcpy (d ++ rest) (Z.of_nat (length d)) (Z.of_nat (length d - o - 1)) n = Some (copied n o d ++ drop n rest).
Proof.
  intros Ho Hn Hr. unfold memcpy. rewrite length_app.
  rewrite !(proj2 (Z.leb_le _ _)) by lia. simpl. rewrite !Nat2Z.id, take_app_length, copied_disjoint by done.
  rewrite drop_app_le, take_app_le by (rewrite ?length_drop; lia).
  rewrite drop_app_ge by lia. by replace (length d + n - length d)%nat with n by lia; rewrite <- app_assoc.
Qed.

(** Both ways of copying do the same. *)
Lemma copy_either (len : Z) n o d rest : (o < length d)%nat → (n ≤ length rest)%nat → len + 2 = Z.of_nat n →
  (if (10 <=? len) && (Z.of_nat (length d - o - 1) + (len + 2) <=? Z.of_nat (length d))
   then memcpy (d ++ rest) (Z.of_nat (length d)) (Z.of_nat (length d - o - 1)) (Z.to_nat (len + 2))
   else copy_ref (Z.to_nat (len + 2)) (Z.of_nat (length d - o - 1)) (Z.of_nat (length d)) (d ++ rest)) =
  Some (copied n o d ++ drop n rest).
Proof.
  intros Ho Hr El. rewrite El, Nat2Z.id. destruct (_ && _) eqn:E; [|by apply copy_ref_spec].
  apply andb_true_iff in E as [_ E%Z.leb_le]. apply memcpy_spec; lia.
Qed.

Lemma split_ctrl a n : 0 ≤ a < 32 → 0 ≤ n → Z.shiftr (a + Z.shiftl n 5) 5 = n ∧ Z.land (a + Z.shiftl n 5) 31 = a.
Proof.
  intros Ha Hn. change 31 with (Z.ones 5). rewrite Z.land_ones, Z.shiftr_div_pow2, Z.shiftl_mul_pow2 by lia.
  rewrite Z.div_add, Z.div_small, Z.mod_add, Z.mod_small by lia. lia.
Qed.

Lemma split_offset o : 0 ≤ o < MAX_OFF → 0 ≤ Z.shiftr o 8 < 32 ∧ 0 ≤ Z.land o 255 < 256 ∧
  Z.shiftl (Z.shiftr o 8) 8 + Z.land o 255 = o.
Proof.
  unfold MAX_OFF. intros Ho. change 255 with (Z.ones 8). rewrite Z.land_ones, Z.shiftl_mul_pow2, Z.shiftr_div_pow2 by lia.
  pose proof (Z.div_mod o (2 ^ 8)). pose proof (Z.mod_pos_bound o (2 ^ 8)).
  assert (o / 2 ^ 8 < 32) by (apply Z.div_lt_upper_bound; lia). assert (0 ≤ o / 2 ^ 8) by (apply Z.div_pos; lia). lia.
Qed.

(** The copy at the end of a back reference, for offset [o] and [l] bytes. *)
Lemma finish_copy o l d rest : 0 ≤ o < MAX_OFF → (Z.to_nat o < length d)%nat → (l ≤ length rest)%nat → (2 ≤ l)%nat → ∀ i : Z,
  (let ref := Z.of_nat (length d) - Z.shiftl (Z.shiftr o 8) 8 - 1 - Z.land o 255 in
   if Z.of_nat (length (d ++ rest)) <? Z.of_nat (length d) + (Z.of_nat l - 2) + 2 then Some (inl () : unit + Z * Z * list Z) else
   if ref <? 0 then Some (inl ()) else
   out ← (if (10 <=? Z.of_nat l - 2) && (ref + (Z.of_nat l - 2 + 2) <=? Z.of_nat (length d))
          then memcpy (d ++ rest) (Z.of_nat (length d)) ref (Z.to_nat (Z.of_nat l - 2 + 2))
          else copy_ref (Z.to_nat (Z.of_nat l - 2 + 2)) ref (Z.of_nat (length d)) (d ++ rest));
   Some (inr (i, Z.of_nat (length d) + (Z.of_nat l - 2) + 2, out))) =
  Some (inr (A := unit) (i, Z.of_nat (length d + l), copied l (Z.to_nat o) d ++ drop l rest)).
Proof.
  intros Ho Hod Hr Hl i. destruct (split_offset o Ho) as (Hhi & Hlo & Eo). cbv zeta.
  replace (Z.of_nat (length d) - Z.shiftl (Z.shiftr o 8) 8 - 1 - Z.land o 255) with (Z.of_nat (length d - Z.to_nat o - 1)) by lia.
  rewrite (proj2 (Z.ltb_ge _ _)) by (rewrite length_app; lia). rewrite (proj2 (Z.ltb_ge _ 0)) by lia.
  rewrite (copy_either _ l (Z.to_nat o) d rest) by lia. cbn [mbind option_bind]. do 4 f_equal. lia.
Qed.

(** The decompressor reads a block back. *)
Lemma block_enc a b c d rest : inp = a ++ enc1 b ++ c → ok1 d b → Z.of_nat (length (d ++ rest)) = out_len →
  (length (den1 d b) ≤ length (d ++ rest))%nat →
  ∃ rest', block inp out_len (Z.of_nat (length a)) (Z.of_nat (length d)) (d ++ rest) =
      Some (inr (Z.of_nat (length (a ++ enc1 b)), Z.of_nat (length (den1 d b)), den1 d b ++ rest')) ∧
    length (den1 d b ++ rest') = length (d ++ rest).
Proof.
  intros Ei Hok Hlen Hfit. assert (Hpeek : ∀ k x, enc1 b !! k = Some x → peek inp (Z.of_nat (length a) + Z.of_nat k) = Some x).
  { intros k x Hx. rewrite <- Nat2Z.inj_add, peek_nat, Ei, lookup_app_r by lia.
    rewrite lookup_app_l by (apply lookup_lt_Some in Hx; lia). by replace (length a + k - length a)%nat with k by lia. }
  assert (length inp = length a + length (enc1 b) + length c)%nat as Eli by (rewrite Ei, !length_app; lia).
  rewrite length_app in Hfit, Hlen. unfold block. destruct b as [l|o l]; simpl in Hok.
  - pose proof (Hpeek 0%nat _ eq_refl) as E0. rewrite Z.add_0_r in E0. rewrite E0. cbn [mbind option_bind].
    simpl in Hfit, Eli. rewrite length_app in Hfit.
    destruct (Z.ltb_spec (Z.of_nat (length l) - 1) 32); [|lia].
    rewrite (proj2 (Z.ltb_ge _ _)) by lia. rewrite (proj2 (Z.ltb_ge _ _)) by lia.
    exists (drop (length l) rest). simpl den1.
    replace (Z.to_nat (Z.of_nat (length l) - 1 + 1)) with (length l) by lia.
    replace (Z.of_nat (length a) + 1) with (Z.of_nat (length (a ++ [Z.of_nat (length l) - 1]))) by (rewrite length_app; simpl; lia).
    rewrite (copy_in_spec l _ c) by (by rewrite Ei, <- app_assoc || lia). cbn [mbind option_bind].
    split; [|rewrite !length_app, length_drop; lia]. rewrite !length_app, <- app_assoc. simpl. do 4 f_equal; lia.
  - destruct Hok as (Ho & Hod & Hl). destruct (split_offset o Ho) as (Hhi & Hlo & Eo). simpl in Hfit. rewrite copied_length in Hfit.
    exists (drop l rest). simpl den1. rewrite copied_length.
    assert (Hend : length (copied l (Z.to_nat o) d ++ drop l rest) = length (d ++ rest))
      by (rewrite !length_app, copied_length, length_drop; lia).
    split; [|exact Hend]. cbn [enc1] in Hpeek, Eli |- *. pose proof (finish_copy o l d rest Ho Hod ltac:(lia) ltac:(lia)) as Hfin.
    rewrite length_app in Hfin.
    destruct (Z.ltb_spec (Z.of_nat l - 2) 7) as [Hs|Hs].
    + pose proof (Hpeek 0%nat _ eq_refl) as E0. rewrite Z.add_0_r in E0. rewrite E0. cbn [mbind option_bind].
      destruct (split_ctrl (Z.shiftr o 8) (Z.of_nat l - 2)) as [-> ->]; [lia|lia|].
      rewrite (proj2 (Z.ltb_ge _ 32)) by (rewrite Z.shiftl_mul_pow2; lia). simpl in Eli.
      rewrite (proj2 (Z.leb_gt _ _)), (proj2 (Z.eqb_neq _ 7)) by lia. cbn [mbind option_bind].
      pose proof (Hpeek 1%nat _ eq_refl) as E1. change (Z.of_nat 1) with 1 in E1. rewrite E1. cbn [mbind option_bind]. rewrite <- Hlen, Nat2Z.inj_add in *.
      rewrite Hfin. rewrite length_app. simpl. do 4 f_equal. lia.
    + pose proof (Hpeek 0%nat _ eq_refl) as E0. rewrite Z.add_0_r in E0. rewrite E0. cbn [mbind option_bind].
      destruct (split_ctrl (Z.shiftr o 8) 7) as [-> ->]; [lia|lia|].
      rewrite (proj2 (Z.ltb_ge _ 32)) by (rewrite Z.shiftl_mul_pow2; lia). simpl in Eli.
      rewrite (proj2 (Z.leb_gt _ _)), (proj2 (Z.eqb_eq 7 7)) by lia.
      pose proof (Hpeek 1%nat _ eq_refl) as E1. change (Z.of_nat 1) with 1 in E1. rewrite E1. cbn [mbind option_bind]. rewrite (proj2 (Z.leb_gt _ _)) by lia. cbn [mbind option_bind].
      replace (Z.of_nat (length a) + 1 + 1) with (Z.of_nat (length a) + 2) by lia.
      pose proof (Hpeek 2%nat _ eq_refl) as E2. change (Z.of_nat 2) with 2 in E2. rewrite E2. cbn [mbind option_bind].
      replace (7 + (Z.of_nat l - 2 - 7)) with (Z.of_nat l - 2) by lia. rewrite <- Hlen, Nat2Z.inj_add in *.
      rewrite Hfin. rewrite length_app. simpl. do 4 f_equal. lia.
Qed.

Lemma enc1_pos b : (1 ≤ length (enc1 b))%nat.
Proof. destruct b; simpl; [lia|]. case_match; simpl; lia. Qed.

Lemma den1_length d b : (length d ≤ length (den1 d b))%nat.
Proof. destruct b; simpl; [rewrite length_app|rewrite copied_length]; lia. Qed.

Lemma decodes_length d bs d' : decodes d bs d' → (length d ≤ length d')%nat.
Proof. induction 1 as [|d bs d' b _ IH _]; [done|]. pose proof (den1_length d' b). lia. Qed.

Lemma decompress_loop_spec fuel : ∀ a bs d d' rest, bs ≠ [] → inp = a ++ enc bs → decodes d bs d' →
  Z.of_nat (length (d ++ rest)) = out_len → (length d' ≤ length (d ++ rest))%nat → (length (enc bs) ≤ fuel)%nat →
  ∃ rest', decompress_loop inp out_len fuel (Z.of_nat (length a)) (Z.of_nat (length d)) (d ++ rest) =
    Some (u32 (Z.of_nat (length d')), d' ++ rest') ∧ length (d' ++ rest') = length (d ++ rest).
Proof.
  induction fuel as [|f IH]; intros a bs d d' rest Hne Ei Hd Hlen Hfit Hf; destruct bs as [|b bs]; try done.
  { unfold enc in Hf. simpl in Hf. rewrite length_app in Hf. pose proof (enc1_pos b). lia. }
  apply decodes_uncons in Hd as [Hok Hd]. pose proof (decodes_length _ _ _ Hd).
  assert (enc (b :: bs) = enc1 b ++ enc bs) as Ee by done. rewrite Ee in Ei, Hf. rewrite length_app in Hf. pose proof (enc1_pos b).
  destruct (block_enc a b (enc bs) d rest Ei Hok Hlen ltac:(lia)) as (rest' & E & Hl'). cbn [decompress_loop]. rewrite E.
  cbn [mbind option_bind]. assert (length inp = length (a ++ enc1 b) + length (enc bs))%nat as Eli by (rewrite Ei, !length_app; lia).
  destruct bs as [|b' bs].
  - apply decodes_nil_inv in Hd as ->. rewrite (proj2 (Z.ltb_ge _ _)) by (rewrite Eli; simpl; lia). eauto.
  - rewrite (proj2 (Z.ltb_lt _ _)).
    + destruct (IH (a ++ enc1 b) (b' :: bs) (den1 d b) d' rest') as (r & Er & Hr); try done; try lia; [by rewrite Ei, <- app_assoc|].
      exists r. split; [exact Er|lia].
    + rewrite Eli. unfold enc. simpl. rewrite !length_app. pose proof (enc1_pos b'). lia.
Qed.

(** On any input of bytes every access is inside of the buffers. *)
Context (Hbytes : Forall (λ x, 0 ≤ x < 256) inp).

Lemma peek_byte i : 0 ≤ i < Z.of_nat (length inp) → ∃ x, peek inp i = Some x ∧ 0 ≤ x < 256.
Proof.
  intros Hi. destruct (peek_Some inp i Hi) as [x Hx]. exists x. split; [done|]. unfold peek in Hx.
  rewrite (proj2 (Z.ltb_ge _ _)) in Hx by lia. rewrite Forall_lookup in Hbytes. eauto.
Qed.

(** A block moves forward, and only appends to the output. *)
Definition block_ok (i o : Z) (out : list Z) (r : option (unit + Z * Z * list Z)) : Prop :=
  match r with
  | None => False
  | Some (inl _) => True
  | Some (inr (i', o', out')) => i < i' ≤ Z.of_nat (length inp) ∧ o < o' ≤ out_len ∧ length out' = length out ∧
      take (Z.to_nat o) out' = take (Z.to_nat o) out
  end.

Lemma copied_prefix n o d : ∃ e, copied n o d = d ++ e ∧ length e = n.
Proof.
  revert d. induction n as [|n IH]; intros d; simpl; [exists []; by rewrite app_nil_r|].
  destruct (IH (d ++ [d !!! (length d - o - 1)%nat])) as (e & -> & He). eexists. rewrite <- app_assoc. split; [done|].
  simpl. by rewrite He.
Qed.

(** The copy of a back reference is in bounds, however it is done. *)
Lemma ref_safe out o len ref : Z.of_nat (length out) = out_len → 0 ≤ o → o + len + 2 ≤ out_len → 0 ≤ ref < o → 0 ≤ len →
  ∃ out', (if (10 <=? len) && (ref + (len + 2) <=? o) then memcpy out o ref (Z.to_nat (len + 2))
           else copy_ref (Z.to_nat (len + 2)) ref o out) = Some out' ∧
    length out' = length out ∧ take (Z.to_nat o) out' = take (Z.to_nat o) out.
Proof.
  intros Hlen Ho Hfit Hr Hl. set (d := take (Z.to_nat o) out). set (rest := drop (Z.to_nat o) out).
  assert (out = d ++ rest) as Eout by (symmetry; apply take_drop).
  assert (Z.of_nat (length d) = o) as Ed by (unfold d; rewrite length_take; lia).
  assert (length out = length d + length rest)%nat as El by (rewrite Eout at 1; apply length_app).
  set (off := (length d - Z.to_nat ref - 1)%nat). assert (ref = Z.of_nat (length d - off - 1)) as Er by lia.
  pose proof (copy_either len (Z.to_nat (len + 2)) off d rest ltac:(lia) ltac:(lia) ltac:(lia)) as E.
  rewrite <- Er, Ed, <- Eout in E. rewrite E. eexists. split; [done|].
  destruct (copied_prefix (Z.to_nat (len + 2)) off d) as (e & -> & He). split.
  - rewrite !length_app, length_drop. lia.
  - rewrite <- app_assoc. replace (Z.to_nat o) with (length d) by lia. by rewrite take_app_length.
Qed.

Lemma block_safe i o out : Z.of_nat (length out) = out_len → 0 ≤ i < Z.of_nat (length inp) → 0 ≤ o →
  block_ok i o out (block inp out_len i o out).
Proof.
  intros Hlen Hi Ho. unfold block. destruct (peek_byte i Hi) as (ctrl & -> & Hc). cbn [mbind option_bind].
  destruct (Z.ltb_spec ctrl 32).
  - destruct (Z.ltb_spec out_len (o + (ctrl + 1))); [done|].
    destruct (Z.ltb_spec (Z.of_nat (length inp)) (i + 1 + (ctrl + 1))); [done|].
    set (n := Z.to_nat (ctrl + 1)). set (l := take n (drop (Z.to_nat (i + 1)) inp)).
    assert (length l = n) as Hl by (unfold l; rewrite length_take, length_drop; lia).
    pose proof (copy_in_spec l (take (Z.to_nat (i + 1)) inp) (drop n (drop (Z.to_nat (i + 1)) inp)) (take (Z.to_nat o) out)
      (drop (Z.to_nat o) out)) as E. rewrite !length_take, take_drop in E.
    replace (Z.of_nat (Z.to_nat (i + 1) `min` length inp)) with (i + 1) in E by lia.
    replace (Z.of_nat (Z.to_nat o `min` length out)) with o in E by lia. rewrite Hl in E.
    rewrite E; [|unfold l; by rewrite !take_drop|rewrite length_drop; lia]. cbn [mbind option_bind]. split_and!; try lia.
    + rewrite !length_app, Hl, length_take, !length_drop. lia.
    + rewrite take_app_le by (rewrite length_take; lia). by rewrite take_take, Nat.min_id.
  - assert (0 ≤ Z.shiftr ctrl 5) by (apply Z.shiftr_nonneg; lia).
    assert (0 ≤ Z.shiftl (Z.land ctrl 31) 8) by (apply Z.shiftl_nonneg, Z.land_nonneg; lia).
    destruct (Z.leb_spec (Z.of_nat (length inp)) (i + 1)); [done|].
    assert (Hrest : ∀ len j, 0 ≤ len → i + 1 ≤ j < Z.of_nat (length inp) → block_ok i o out
      (y ← peek inp j;
       let ref := o - Z.shiftl (Z.land ctrl 31) 8 - 1 - y in
       if out_len <? o + len + 2 then Some (inl ()) else
       if ref <? 0 then Some (inl ()) else
       out ← (if (10 <=? len) && (ref + (len + 2) <=? o) then memcpy out o ref (Z.to_nat (len + 2))
              else copy_ref (Z.to_nat (len + 2)) ref o out);
       Some (inr (j + 1, o + len + 2, out)))).
    { intros len j Hln Hj. destruct (peek_byte j) as (y & -> & Hy); [lia|]. cbn [mbind option_bind]. cbv zeta.
      destruct (Z.ltb_spec out_len (o + len + 2)); [done|]. destruct (Z.ltb_spec (o - Z.shiftl (Z.land ctrl 31) 8 - 1 - y) 0); [done|].
      destruct (ref_safe out o len (o - Z.shiftl (Z.land ctrl 31) 8 - 1 - y)) as (out' & -> & ? & ?); try lia.
      cbn [mbind option_bind]. split_and!; try done; lia. }
    destruct (Z.eqb_spec (Z.shiftr ctrl 5) 7).
    + destruct (peek_byte (i + 1)) as (x & -> & Hx); [lia|]. cbn [mbind option_bind].
      destruct (Z.leb_spec (Z.of_nat (length inp)) (i + 1 + 1)); [done|]. cbn [mbind option_bind]. apply Hrest; lia.
    + cbn [mbind option_bind]. apply Hrest; lia.
Qed.

Lemma decompress_loop_safe fuel : ∀ i o out, Z.of_nat (length out) = out_len → 0 ≤ i < Z.of_nat (length inp) → 0 ≤ o ≤ out_len →
  out_len < 2 ^ 32 → (Z.to_nat (Z.of_nat (length inp) - i) < fuel)%nat →
  ∃ n out', decompress_loop inp out_len fuel i o out = Some (n, out') ∧ length out' = length out ∧ 0 ≤ n ≤ out_len.
Proof.
  induction fuel as [|f IH]; intros i o out Hlen Hi Ho Hsm Hf; [lia|]. cbn [decompress_loop].
  pose proof (block_safe i o out Hlen Hi (proj1 Ho)) as Hb. destruct (block inp out_len i o out) as [[u|[[i' o'] out']]|]; [| |done];
    cbn [mbind option_bind]; [exists 0, out; split_and!; (done || lia)|].
  destruct Hb as (Hi' & Ho' & Hl' & _). destruct (Z.ltb_spec i' (Z.of_nat (length inp))).
  - destruct (IH i' o' out') as (n & out2 & -> & ? & ?); try lia. exists n, out2. split_and!; (done || lia).
  - exists (u32 o'), out'. rewrite uwrap_small by (unfold in_u; lia). split_and!; (done || lia).
Qed.

End decompressor.

(** A complete decompression into a buffer of the right size. *)
Lemma decompress_enc s bs buf : decodes [] bs s → (0 < length s)%nat → Z.of_nat (length s) < 2 ^ 32 → length buf = length s →
  lzf_decompress (enc bs) (Z.of_nat (length s)) buf = Some (Z.of_nat (length s), s).
Proof.
  intros Hd H0 Hs Hb. assert (bs ≠ []) as Hne by (intros ->; apply decodes_nil_inv in Hd; subst; simpl in H0; lia).
  destruct (decompress_loop_spec (enc bs) (Z.of_nat (length s)) (S (length (enc bs))) [] bs [] s buf)
    as (rest & Er & Hl); try done; simpl; try lia.
  simpl in Hl. rewrite length_app in Hl. destruct rest; [|simpl in Hl; lia]. rewrite app_nil_r in Er.
  unfold lzf_decompress. simpl in Er |- *. rewrite uwrap_small in Er by (unfold in_u; lia). exact Er.
Qed.

(** ** The properties *)

(** C18. Round trip: for any contents of the uninitialized hash table and any
    input except a single byte, compressing never leaves the buffers, and unless
    it returns 0 the compressed bytes decompress to exactly the input. It does
    not return 0 when the input is not empty and the output has one byte more for
    every 32 bytes of the input, and 6. An input of one byte (with room for
    output) is read out of bounds, behind its end. *)
Theorem lzf_roundtrip (junk : Z → Z) inp out0 buf : Z.of_nat (length inp) < 2 ^ 32 →
  Z.of_nat (length out0) < 2 ^ 32 → (length inp ≤ length buf)%nat →
  if decide (length inp = 1%nat ∧ out0 ≠ []) then lzf_compress junk inp (Z.of_nat (length out0)) out0 = None else
  ∃ n o, lzf_compress junk inp (Z.of_nat (length out0)) out0 = Some (n, o) ∧ 0 ≤ n ≤ Z.of_nat (length out0) ∧
    (inp ≠ [] → Z.of_nat (length inp) + Z.of_nat (length inp) / 32 + 6 ≤ Z.of_nat (length out0) → n ≠ 0) ∧
    (n ≠ 0 → ∃ rest, lzf_decompress (take (Z.to_nat n) o) (Z.of_nat (length buf)) buf =
       Some (Z.of_nat (length inp), inp ++ rest)).
Proof.
  intros Hin Hout Hbuf. destruct (decide (length inp = 1%nat ∧ out0 ≠ [])) as [[H1 Ho]|H1].
  { destruct inp as [|x [|]], out0; done. }
  destruct (decide (2 ≤ length inp)%nat) as [H2|H2].
  - destruct (compress_spec junk inp (Z.of_nat (length out0)) Hin out0 H2 eq_refl Hout)
      as (n & o & E & Hn & Hroom & Hbs). exists n, o. split; [done|]. split; [lia|]. split; [by intros _|].
    intros Hn0. destruct (Hbs Hn0) as (bs & Hd & ->). assert (bs ≠ []) as Hne.
    { intros ->. apply decodes_nil_inv in Hd. rewrite Hd in H2. simpl in H2. lia. }
    destruct (decompress_loop_spec (enc bs) (Z.of_nat (length buf)) (S (length (enc bs))) [] bs [] inp buf) as (rest & Er & _); try done; [simpl; lia|].
    exists rest. unfold lzf_decompress. simpl in Er |- *. etrans; [exact Er|]. by rewrite uwrap_small by (unfold in_u; lia).
  - exists 0, out0. assert (inp = [] ∨ out0 = []) as Hcase by (destruct inp as [|x [|]]; [by left|destruct out0; [by right|by destruct H1]|simpl in H2; lia]).
    split_and!; [|lia|lia| |done]. { destruct Hcase as [-> | ->]; [done|]. unfold lzf_compress. by rewrite orb_true_r. }
    destruct Hcase as [-> | ->]; [done|]. simpl. pose proof (Z.div_pos (Z.of_nat (length inp)) 32). lia.
Qed.

(** C19. Decompressing arbitrary bytes is safe and terminates: unless there are no
    bytes at all, no access is outside of the two buffers, the output keeps its
    size and the length that is returned fits it. Without any byte of input the
    first control byte is read out of bounds. *)
Theorem lzf_decompress_safe inp out0 : Forall (λ x, 0 ≤ x < 256) inp → Z.of_nat (length out0) < 2 ^ 32 →
  if decide (inp = []) then lzf_decompress inp (Z.of_nat (length out0)) out0 = None else
  ∃ n out, lzf_decompress inp (Z.of_nat (length out0)) out0 = Some (n, out) ∧ length out = length out0 ∧
    0 ≤ n ≤ Z.of_nat (length out0).
Proof.
  intros Hb Hout. destruct (decide (inp = [])) as [-> |Hne]; [done|]. apply (decompress_loop_safe inp (Z.of_nat (length out0)) Hb); try done; try lia.
  destruct inp; [done|]. simpl. lia.
Qed.

Definition demo_text : list Z := [97; 98; 97; 98; 97; 98; 97; 98; 97; 98; 97; 98; 97; 98; 99; 99].

Lemma lzf_roundtrip_witness : ∃ n o rest,
  lzf_compress (λ _, 5) demo_text 40 (replicate 40 0) = Some (n, o) ∧
  lzf_decompress (take (Z.to_nat n) o) 20 (replicate 20 0) = Some (16, demo_text ++ rest).
Proof.
  destruct (lzf_roundtrip (λ _, 5) demo_text (replicate 40 0) (replicate 20 0)) as (n & o & E & _ & Hr & Hd).
  - done.
  - done.
  - simpl. lia.
  - destruct Hd as [rest Hd]; [by apply Hr|]. exists n, o, rest. split; [exact E|exact Hd].
Defined.

Lemma lzf_decompress_safe_witness : ∃ n out,
  lzf_decompress [255; 3; 200; 7] 10 (replicate 10 0) = Some (n, out) ∧ length out = 10%nat ∧ 0 ≤ n ≤ 10.
Proof.
  apply (lzf_decompress_safe [255; 3; 200; 7] (replicate 10 0)).
  - repeat constructor; lia.
  - done.
Defined.

(** One byte of input: [FRST] reads the byte behind it. *)
Example lzf_compress_one_byte : lzf_compress (λ _, 0) [65] 10 (replicate 10 0) = None.
Proof. reflexivity. Qed.

(** Two bytes need three. *)
Example lzf_compress_two_bytes : fst <$> lzf_compress (λ _, 0) [65; 66] 10 (replicate 10 0) = Some 3.
Proof. reflexivity. Qed.
