(* ===== verification/Rdb.v ===== *)
(** * rdb.c: lengths, integers and strings of RDB files

    The primitives of the RDB format: types, times, lengths and strings with
    their three encodings (integer, LZF, verbatim), on top of [ll2string]
    (Util.v) and LZF (Lzf.v).

    A rio that is written is the list of bytes so far; [wfail] says whether a
    write fails, and after how many of its bytes. (A NULL rio, which only counts
    bytes, is a rio whose writes never fail.) A rio that is read is the list of bytes that are left.
    Loading has three outcomes besides a value: NULL or -1 ([LoadErr]), the
    report of a corrupt file that ends the process ([LoadCorrupt]), and an
    access outside of a buffer ([LoadBad]), which is what the theorems exclude.
    Memory of zmalloc has arbitrary contents, the parameter [alloc]; it has no
    prefix (the build with [HAVE_MALLOC_SIZE]), so only the sizes that sds.c
    computes can wrap around. *)

From S2P Require Import Prelude Decimal Sds SdsText Util Lzf.

Definition RDB_6BITLEN : Z := 0.
Definition RDB_14BITLEN : Z := 1.
Definition RDB_32BITLEN : Z := 128.
Definition RDB_64BITLEN : Z := 129.
Definition RDB_ENCVAL : Z := 3.
Definition RDB_LENERR : Z := 2 ^ 64 - 1.
Definition RDB_ENC_INT8 : Z := 0.
Definition RDB_ENC_INT16 : Z := 1.
Definition RDB_ENC_INT32 : Z := 2.
Definition RDB_ENC_LZF : Z := 3.

(** [htonl] and [htonu64] stored in memory: big endian bytes. *)
Definition be_bytes (n : nat) (v : Z) : list Z := reverse (le_bytes n v).
Definition be_val (bs : list Z) : Z := le_val (reverse bs).

(** ** Saving *)

Section save.
Context (wfail : list Z → list Z → option nat).

(** The rio and the return value: the length, or -1. *)
Definition rdbWriteRaw (rdb p : list Z) : list Z * Z :=
  match wfail rdb p with
  | None => (rdb ++ p, Z.of_nat (length p))
  | Some k => (rdb ++ take k p, -1)
  end.

Definition rdbSaveType (rdb : list Z) (type : Z) : list Z * Z := rdbWriteRaw rdb [u8 type].

Definition rdbSaveMillisecondTime (rdb : list Z) (t : Z) : list Z * Z := rdbWriteRaw rdb (le_bytes 8 t).

Definition rdbSaveLen (rdb : list Z) (len : Z) : list Z * Z :=
  if len <? 2 ^ 6 then
    let '(rdb, n) := rdbWriteRaw rdb [u8 (Z.lor (Z.land len 255) (Z.shiftl RDB_6BITLEN 6))] in
    if n =? -1 then (rdb, -1) else (rdb, 1)
  else if len <? 2 ^ 14 then
    let '(rdb, n) := rdbWriteRaw rdb
      [u8 (Z.lor (Z.land (Z.shiftr len 8) 255) (Z.shiftl RDB_14BITLEN 6)); Z.land len 255] in
    if n =? -1 then (rdb, -1) else (rdb, 2)
  else if len <=? 2 ^ 32 - 1 then
    let '(rdb, n) := rdbWriteRaw rdb [RDB_32BITLEN] in
    if n =? -1 then (rdb, -1) else
    let '(rdb, n) := rdbWriteRaw rdb (be_bytes 4 len) in
    if n =? -1 then (rdb, -1) else (rdb, 1 + 4)
  else
    let '(rdb, n) := rdbWriteRaw rdb [RDB_64BITLEN] in
    if n =? -1 then (rdb, -1) else
    let '(rdb, n) := rdbWriteRaw rdb (be_bytes 8 len) in
    if n =? -1 then (rdb, -1) else (rdb, 1 + 8).

(** The bytes of the encoding; none when the function returns 0. *)
Definition rdbEncodeInteger (value : Z) : list Z :=
  if (- 2 ^ 7 <=? value) && (value <=? 2 ^ 7 - 1) then
    [Z.lor (Z.shiftl RDB_ENCVAL 6) RDB_ENC_INT8; Z.land value 255]
  else if (- 2 ^ 15 <=? value) && (value <=? 2 ^ 15 - 1) then
    [Z.lor (Z.shiftl RDB_ENCVAL 6) RDB_ENC_INT16; Z.land value 255; Z.land (Z.shiftr value 8) 255]
  else if (- 2 ^ 31 <=? value) && (value <=? 2 ^ 31 - 1) then
    [Z.lor (Z.shiftl RDB_ENCVAL 6) RDB_ENC_INT32; Z.land value 255; Z.land (Z.shiftr value 8) 255;
     Z.land (Z.shiftr value 16) 255; Z.land (Z.shiftr value 24) 255]
  else [].

(** [strtoll(s, &endptr, 10)]: blanks, a sign, digits, with saturation. The
    value and what is left of the string. *)
Definition isspace_c (c : Z) : bool := (c =? 32) || ((9 <=? c) && (c <=? 13)).

Fixpoint skip_space (s : list Z) : list Z :=
  match s with c :: s' => if isspace_c c then skip_space s' else s | [] => [] end.

Fixpoint read_digits (s : list Z) (acc : Z) : Z * list Z :=
  match s with
  | c :: s' => if isdigit c then read_digits s' (acc * 10 + (c - 48)) else (acc, s)
  | [] => (acc, [])
  end.

Definition strtoll (s : list Z) : Z * list Z :=
  let p := skip_space s in
  let '(neg, q) := match p with
                   | c :: q => if c =? 45 then (true, q) else if c =? 43 then (false, q) else (false, p)
                   | [] => (false, p)
                   end in
  match q with
  | c :: _ =>
      if isdigit c then
        let '(v, r) := read_digits q 0 in
        let v := if neg then - v else v in
        (Z.max LLONG_MIN (Z.min LLONG_MAX v), r)
      else (0, s)
  | [] => (0, s)
  end.

(** [strlen] of a buffer. *)
Fixpoint strlen (b : list Z) : nat :=
  match b with c :: b' => if c =? 0 then O else S (strlen b') | [] => O end.

(** The string has a terminating NUL behind it, as every sds. *)
Definition rdbTryIntegerEncoding (s : list Z) : option (list Z) :=
  let '(value, endptr) := strtoll s in
  if negb (nth 0 endptr 0 =? 0) then Some [] else
  '(buf, _) ← ll2string (replicate 32 0) value;
  if negb (Nat.eqb (strlen buf) (length s)) || negb (bool_decide (take (length s) buf = s)) then Some []
  else Some (rdbEncodeInteger value).

Definition rdbSaveLzfBlob (rdb data : list Z) (original_len : Z) : list Z * Z :=
  let '(rdb, n) := rdbWriteRaw rdb [Z.lor (Z.shiftl RDB_ENCVAL 6) RDB_ENC_LZF] in
  if n =? -1 then (rdb, -1) else
  let nwritten := n in
  let '(rdb, n) := rdbSaveLen rdb (Z.of_nat (length data)) in
  if n =? -1 then (rdb, -1) else
  let nwritten := nwritten + n in
  let '(rdb, n) := rdbSaveLen rdb original_len in
  if n =? -1 then (rdb, -1) else
  let nwritten := nwritten + n in
  let '(rdb, n) := rdbWriteRaw rdb data in
  if n =? -1 then (rdb, -1) else (rdb, nwritten + n).

Context (junk : Z → Z) (alloc : nat → list Z).

(** The lengths are unsigned ints for [lzf_compress]. The last byte of the
    allocation is not part of its buffer. *)
Definition rdbSaveLzfStringObject (rdb s : list Z) : option (list Z * Z) :=
  let len := Z.of_nat (length s) in
  if len <=? 4 then Some (rdb, 0) else
  let outlen := u32 (len - 4) in
  '(comprlen, out) ← lzf_compress junk (take (Z.to_nat (u32 len)) s) outlen (alloc (Z.to_nat outlen));
  if comprlen =? 0 then Some (rdb, 0) else
  Some (rdbSaveLzfBlob rdb (take (Z.to_nat comprlen) out) len).

Definition rdbSaveRawString (rdb_compression : bool) (rdb s : list Z) : option (list Z * Z) :=
  let len := Z.of_nat (length s) in
  enc ← (if len <=? 11 then rdbTryIntegerEncoding s else Some []);
  match enc with
  | _ :: _ =>
      let '(rdb, n) := rdbWriteRaw rdb enc in
      if n =? -1 then Some (rdb, -1) else Some (rdb, Z.of_nat (length enc))
  | [] =>
      '(rdb, n) ← (if rdb_compression && (20 <? len) then rdbSaveLzfStringObject rdb s else Some (rdb, 0));
      if n =? -1 then Some (rdb, -1) else
      if 0 <? n then Some (rdb, n) else
      let '(rdb, n) := rdbSaveLen rdb len in
      if n =? -1 then Some (rdb, -1) else
      if 0 <? len then
        let '(rdb, m) := rdbWriteRaw rdb s in
        if m =? -1 then Some (rdb, -1) else Some (rdb, n + len)
      else Some (rdb, n)
  end.

Definition rdbSaveLongLongAsStringObject (rdb : list Z) (value : Z) : option (list Z * Z) :=
  let enc := rdbEncodeInteger value in
  if (0 <? Z.of_nat (length enc)) then Some (rdbWriteRaw rdb enc) else
  '(buf, enclen) ← ll2string (replicate 32 0) value;
  let '(rdb, n) := rdbSaveLen rdb enclen in
  if n =? -1 then Some (rdb, -1) else
  let '(rdb, m) := rdbWriteRaw rdb (take (Z.to_nat enclen) buf) in
  if m =? -1 then Some (rdb, -1) else Some (rdb, n + m).

(** A string object: an sds or an integer (OBJ_ENCODING_INT). *)
Inductive strobj := SStr (s : list Z) | SInt (v : Z).

Definition rdbSaveStringObject (rdb_compression : bool) (rdb : list Z) (o : strobj) : option (list Z * Z) :=
  match o with
  | SInt v => rdbSaveLongLongAsStringObject rdb v
  | SStr s => rdbSaveRawString rdb_compression rdb s
  end.

End save.

(** The string an object stands for. *)
Definition str_of (o : strobj) : list Z := match o with SStr s => s | SInt v => decimal_z v end.

(** ** Loading *)

Inductive load (A : Type) :=
  | Loaded (a : A) (rdb : list Z)
  | LoadErr
  | LoadCorrupt
  | LoadBad.
Arguments Loaded {A}. Arguments LoadErr {A}. Arguments LoadCorrupt {A}. Arguments LoadBad {A}.

(** Errors and corruption end the loading. *)
Definition lbind {A B} (m : load A) (f : A → list Z → load B) : load B :=
  match m with
  | Loaded a rdb => f a rdb
  | LoadErr => LoadErr
  | LoadCorrupt => LoadCorrupt
  | LoadBad => LoadBad
  end.

(** An access that is out of bounds. *)
Definition lift {A} (m : option A) (rdb : list Z) : load A :=
  match m with Some a => Loaded a rdb | None => LoadBad end.

Section load.
Context (alloc : nat → list Z).

Definition rioRead (rdb : list Z) (n : Z) : load (list Z) :=
  if n <=? Z.of_nat (length rdb) then Loaded (take (Z.to_nat n) rdb) (drop (Z.to_nat n) rdb) else LoadErr.

Definition rdbLoadType (rdb : list Z) : load Z :=
  lbind (rioRead rdb 1) (λ b rdb, Loaded (nth 0 b 0) rdb).

(** [rdbLoadRaw] ends the process when it cannot read. *)
Definition rdbLoadRaw (rdb : list Z) (n : Z) : load (list Z) :=
  match rioRead rdb n with LoadErr => LoadCorrupt | r => r end.

Definition rdbLoadTime (rdb : list Z) : load Z :=
  lbind (rdbLoadRaw rdb 4) (λ b rdb, Loaded (s32 (le_val b)) rdb).

Definition rdbLoadMillisecondTime (rdb : list Z) : load Z :=
  lbind (rdbLoadRaw rdb 8) (λ b rdb, Loaded (s64 (le_val b)) rdb).

(** [*isencoded] and [*lenptr]. *)
Definition rdbLoadLenByRef (rdb : list Z) : load (bool * Z) :=
  lbind (rioRead rdb 1) (λ b rdb,
    let b0 := nth 0 b 0 in
    let type := Z.shiftr (Z.land b0 192) 6 in
    if type =? RDB_ENCVAL then Loaded (true, Z.land b0 63) rdb
    else if type =? RDB_6BITLEN then Loaded (false, Z.land b0 63) rdb
    else if type =? RDB_14BITLEN then
      lbind (rioRead rdb 1) (λ b rdb, Loaded (false, Z.lor (Z.shiftl (Z.land b0 63) 8) (nth 0 b 0)) rdb)
    else if b0 =? RDB_32BITLEN then lbind (rioRead rdb 4) (λ b rdb, Loaded (false, be_val b) rdb)
    else if b0 =? RDB_64BITLEN then lbind (rioRead rdb 8) (λ b rdb, Loaded (false, be_val b) rdb)
    else LoadCorrupt).

(** RDB_LENERR stands for an error. *)
Definition rdbLoadLen (rdb : list Z) : load (bool * Z) :=
  match rdbLoadLenByRef rdb with LoadErr => Loaded (false, RDB_LENERR) [] | r => r end.

(** The flags RDB_LOAD_ENC, RDB_LOAD_PLAIN and RDB_LOAD_SDS. *)
Record load_flags := Flags { encode : bool; plain : bool; sds_ : bool }.

Definition rdbLoadIntegerObject (rdb : list Z) (enctype : Z) (fl : load_flags) : load strobj :=
  lbind
    (if enctype =? RDB_ENC_INT8 then lbind (rioRead rdb 1) (λ b rdb, Loaded (s8 (nth 0 b 0)) rdb)
     else if enctype =? RDB_ENC_INT16 then
       lbind (rioRead rdb 2) (λ b rdb, Loaded (s16 (Z.lor (nth 0 b 0) (Z.shiftl (nth 1 b 0) 8))) rdb)
     else if enctype =? RDB_ENC_INT32 then
       lbind (rioRead rdb 4) (λ b rdb,
         Loaded (s32 (Z.lor (Z.lor (Z.lor (nth 0 b 0) (Z.shiftl (nth 1 b 0) 8)) (Z.shiftl (nth 2 b 0) 16))
                            (Z.shiftl (nth 3 b 0) 24))) rdb)
     else LoadCorrupt)
    (λ val rdb,
      if plain fl || sds_ fl then
        lbind (lift (ll2string (alloc 21) val) rdb) (λ '(buf, len) rdb, Loaded (SStr (take (Z.to_nat len) buf)) rdb)
      else if encode fl then Loaded (SInt val) rdb
      else lbind (lift (sdsll2str (alloc 21) val) rdb) (λ '(buf, len) rdb, Loaded (SStr (take (Z.to_nat len) buf)) rdb)).

(** The buffer of a string of [len] bytes: [zmalloc(len)] for a plain string, the
    block of [sdsnewlen(SDS_NOINIT,len)] otherwise, whose header and terminator
    are written outside of it when its size wraps around. *)
Definition new_buffer (fl : load_flags) (rdb : list Z) (len : Z) : load (list Z) :=
  lift (if plain fl || block_fits (sdsReqType len) len then Some (alloc (Z.to_nat len)) else None) rdb.

(** [lzf_decompress] gets the lengths as unsigned ints. *)
Definition rdbLoadLzfStringObject (rdb : list Z) (fl : load_flags) : load strobj :=
  lbind (rdbLoadLen rdb) (λ '(_, clen) rdb,
  if clen =? RDB_LENERR then LoadErr else
  lbind (rdbLoadLen rdb) (λ '(_, len) rdb,
  if len =? RDB_LENERR then LoadErr else
  lbind (new_buffer fl rdb len) (λ val rdb,
  lbind (rioRead rdb clen) (λ c rdb,
  lbind (lift (lzf_decompress (take (Z.to_nat (u32 clen)) c) (u32 len) (take (Z.to_nat (u32 len)) val)) rdb) (λ '(n, v) rdb,
  if n =? 0 then LoadErr else Loaded (SStr (v ++ drop (Z.to_nat (u32 len)) val)) rdb))))).

Definition rdbGenericLoadStringObject (rdb : list Z) (fl : load_flags) : load strobj :=
  lbind (rdbLoadLen rdb) (λ '(isencoded, len) rdb,
  if isencoded : bool then
    if (len =? RDB_ENC_INT8) || (len =? RDB_ENC_INT16) || (len =? RDB_ENC_INT32)
    then rdbLoadIntegerObject rdb len fl
    else if len =? RDB_ENC_LZF then rdbLoadLzfStringObject rdb fl
    else LoadCorrupt
  else
    if len =? RDB_LENERR then LoadErr else
    lbind (new_buffer fl rdb len) (λ _ rdb,
    if len =? 0 then Loaded (SStr []) rdb else
    lbind (rioRead rdb len) (λ s rdb, Loaded (SStr s) rdb))).

End load.


(** ** Parsers

    A loader [L] parses [p] to [v]: it reads exactly these bytes whatever
    follows, and reports an error on every proper prefix of them. *)

Definition parses {A} (L : list Z → load A) (p : list Z) (v : A) : Prop :=
  (∀ rest, L (p ++ rest) = Loaded v rest) ∧ (∀ q r, p = q ++ r → r ≠ [] → L q = LoadErr).

Lemma parses_bind {A B} (L : list Z → load A) (M : A → list Z → load B) p q v w :
  parses L p v → parses (M v) q w → parses (λ rdb, lbind (L rdb) M) (p ++ q) w.
Proof.
  intros [H1 H2] [H3 H4]. split.
  - intros rest. rewrite <- app_assoc, H1. apply H3.
  - intros q' r E Hr. apply app_eq_inv in E as [(k & Ep & Er)|(k & -> & Eq)].
    + destruct k as [|x k]; [|by rewrite (H2 q' (x :: k))].
      rewrite app_nil_r in Ep. subst q' r. rewrite <- (app_nil_r p), H1. simpl. by apply (H4 [] q).
    + rewrite H1. simpl. by apply (H4 k r).
Qed.

Lemma parses_ret {A} (v : A) : parses (λ rdb, Loaded v rdb) [] v.
Proof. split; [done|]. intros [|] [|] E Hr; done. Qed.

Lemma parses_map {A B} (L : list Z → load A) (f : A → B) p v :
  parses L p v → parses (λ rdb, lbind (L rdb) (λ a rdb, Loaded (f a) rdb)) p (f v).
Proof. intros Hp. rewrite <- (app_nil_r p). eapply (parses_bind L); [done|]. apply parses_ret. Qed.

Lemma parses_bind_last {A B} (L : list Z → load A) (M : A → list Z → load B) p v w :
  parses L p v → parses (M v) [] w → parses (λ rdb, lbind (L rdb) M) p w.
Proof. intros Hp Hq. rewrite <- (app_nil_r p). by eapply parses_bind. Qed.

Lemma parses_ext {A} (L L' : list Z → load A) p v : (∀ rdb, L' rdb = L rdb) → parses L p v → parses L' p v.
Proof. intros E [H1 H2]. split; intros; rewrite E; eauto. Qed.

Lemma parses_read p n : n = Z.of_nat (length p) → parses (λ rdb, rioRead rdb n) p p.
Proof.
  intros ->. unfold rioRead. split.
  - intros rest. rewrite (proj2 (Z.leb_le _ _)) by (rewrite length_app; lia).
    by rewrite Nat2Z.id, take_app_length, drop_app_length.
  - intros q r -> Hr. rewrite (proj2 (Z.leb_gt _ _)); [done|]. rewrite length_app. destruct r; [done|]. simpl. lia.
Qed.

(** ** Lengths *)

Definition len_bytes (len : Z) : list Z :=
  if len <? 2 ^ 6 then [len]
  else if len <? 2 ^ 14 then [64 + len `div` 256; len `mod` 256]
  else if len <=? 2 ^ 32 - 1 then RDB_32BITLEN :: be_bytes 4 len
  else RDB_64BITLEN :: be_bytes 8 len.

Lemma be_roundtrip n v : in_u (8 * Z.of_nat n) v → be_val (be_bytes n v) = v.
Proof. intros Hv. unfold be_val, be_bytes. rewrite reverse_involutive. by apply le_roundtrip_u. Qed.

Lemma length_be_bytes n v : length (be_bytes n v) = n.
Proof. unfold be_bytes. by rewrite length_reverse, length_le_bytes. Qed.

Lemma parses_len len : in_u 64 len → parses rdbLoadLenByRef (len_bytes len) (false, len).
Proof.
  unfold in_u. intros Hl. unfold len_bytes.
  assert (Hhead : ∀ b q w, parses (λ rdb, let b0 := b in
    let type := Z.shiftr (Z.land b0 192) 6 in
    if type =? RDB_ENCVAL then Loaded (true, Z.land b0 63) rdb
    else if type =? RDB_6BITLEN then Loaded (false, Z.land b0 63) rdb
    else if type =? RDB_14BITLEN then
      lbind (rioRead rdb 1) (λ b rdb, Loaded (false, Z.lor (Z.shiftl (Z.land b0 63) 8) (nth 0 b 0)) rdb)
    else if b0 =? RDB_32BITLEN then lbind (rioRead rdb 4) (λ b rdb, Loaded (false, be_val b) rdb)
    else if b0 =? RDB_64BITLEN then lbind (rioRead rdb 8) (λ b rdb, Loaded (false, be_val b) rdb)
    else LoadCorrupt) q w → parses rdbLoadLenByRef (b :: q) w).
  { intros b q w Hp. change (b :: q) with ([b] ++ q). unfold rdbLoadLenByRef. eapply parses_bind; [by apply parses_read|]. exact Hp. }
  unfold RDB_ENCVAL, RDB_6BITLEN, RDB_14BITLEN in Hhead.
  destruct (Z.ltb_spec len (2 ^ 6)); [|destruct (Z.ltb_spec len (2 ^ 14)); [|destruct (Z.leb_spec len (2 ^ 32 - 1))]]; apply Hhead.
  - destruct (byte_split 0 len) as [E1 E2]; [lia|lia|]. rewrite Z.add_0_l in E1, E2. eapply parses_ext; [|apply (parses_ret (false, len))].
    intros rdb. cbv zeta. rewrite E1, E2. done.
  - destruct (byte_split 1 (len `div` 256)) as [E1 E2]; [lia|split; [apply Z.div_pos; lia|apply Z.div_lt_upper_bound; lia]|].
    rewrite Z.mul_1_r in E1, E2. pose proof (parses_map (λ rdb, rioRead rdb 1) (λ b, (false, Z.lor (Z.shiftl (len `div` 256) 8) (nth 0 b 0)))
      [len `mod` 256] _ (parses_read _ _ eq_refl)) as Hp. cbn beta iota delta [nth] in Hp.
    assert (Z.lor (Z.shiftl (len `div` 256) 8) (len `mod` 256) = len) as E3.
    { rewrite lor_shift by (try apply Z.mod_pos_bound; lia). pose proof (Z.div_mod len 256). lia. }
    rewrite E3 in Hp. eapply parses_ext; [|exact Hp]. intros rdb. cbv zeta. rewrite E1, E2. done.
  - pose proof (parses_map (λ rdb, rioRead rdb 4) (λ b, (false, be_val b)) (be_bytes 4 len) (be_bytes 4 len)) as Hp. cbn beta in Hp.
    rewrite be_roundtrip in Hp by (unfold in_u; simpl; lia). eapply parses_ext; [|apply Hp; by apply parses_read]. done.
  - pose proof (parses_map (λ rdb, rioRead rdb 8) (λ b, (false, be_val b)) (be_bytes 8 len) (be_bytes 8 len)) as Hp. cbn beta in Hp.
    rewrite be_roundtrip in Hp by (unfold in_u; simpl; lia). eapply parses_ext; [|apply Hp; by apply parses_read]. done.
Qed.

(** [rdbLoadLen] reports errors as RDB_LENERR, which its callers check. *)
Lemma parses_load_len {B} (M : bool * Z → list Z → load B) p q e len w :
  (∀ rdb, M (false, RDB_LENERR) rdb = LoadErr) → parses rdbLoadLenByRef p (e, len) → parses (M (e, len)) q w →
  parses (λ rdb, lbind (rdbLoadLen rdb) M) (p ++ q) w.
Proof.
  intros HM Hp Hq. apply (parses_ext (λ rdb, lbind (rdbLoadLenByRef rdb) M)); [|by eapply parses_bind].
  intros rdb. unfold rdbLoadLen. destruct (rdbLoadLenByRef rdb); simpl; by rewrite ?HM.
Qed.

Lemma parses_lift {A B} (m : option A) (M : A → list Z → load B) a p w : m = Some a →
  parses (M a) p w → parses (λ rdb, lbind (lift m rdb) M) p w.
Proof. intros ->. by apply parses_ext. Qed.

(** The byte that announces an encoding. *)
Lemma parses_enc t : 0 ≤ t < 64 → parses rdbLoadLenByRef [192 + t] (true, t).
Proof.
  intros Ht. change [192 + t] with ([192 + t] ++ []). unfold rdbLoadLenByRef. eapply parses_bind; [by apply parses_read|].
  destruct (byte_split 3 t) as [E1 E2]; [lia|done|]. eapply parses_ext; [|apply parses_ret].
  intros rdb. simpl nth. change (192 + t) with (64 * 3 + t). rewrite E1, E2. done.
Qed.

(** ** Strings *)

(** The three encodings of a string. *)
Inductive str_enc (s : list Z) : list Z → Prop :=
  | str_int v : in_s 32 v → s = decimal_z v → str_enc s (rdbEncodeInteger v)
  | str_lzf bs : decodes [] bs s → (0 < length s)%nat → Z.of_nat (length s) < 2 ^ 32 → Z.of_nat (length (enc bs)) < 2 ^ 32 →
      str_enc s (195 :: len_bytes (Z.of_nat (length (enc bs))) ++ len_bytes (Z.of_nat (length s)) ++ enc bs)
  | str_raw : Z.of_nat (length s) < 2 ^ 32 → str_enc s (len_bytes (Z.of_nat (length s)) ++ s).

Lemma encode_integer_bytes v : in_s 32 v → ∃ t k, rdbEncodeInteger v = (192 + t) :: le_bytes k v ∧
  in_s (8 * Z.of_nat k) v ∧ ((t = 0 ∧ k = 1%nat) ∨ (t = 1 ∧ k = 2%nat) ∨ (t = 2 ∧ k = 4%nat)).
Proof.
  unfold in_s. intros Hv. unfold rdbEncodeInteger.
  destruct (Z.leb_spec (- 2 ^ 7) v), (Z.leb_spec v (2 ^ 7 - 1)); simpl andb; try lia; cbv iota.
  1: { exists 0, 1%nat. rewrite (le_bytes_land 1). cbn -[Z.land Z.shiftr]. rewrite Z.shiftr_0_r. split_and!; [done|lia|lia|lia]. }
  all: destruct (Z.leb_spec (- 2 ^ 15) v), (Z.leb_spec v (2 ^ 15 - 1)); simpl andb; try lia; cbv iota.
  all: try (exists 1, 2%nat; rewrite (le_bytes_land 2); cbn -[Z.land Z.shiftr]; rewrite Z.shiftr_0_r; split_and!; [done|lia|lia|lia]).
  all: rewrite (proj2 (Z.leb_le (- 2 ^ 31) v)), (proj2 (Z.leb_le v (2 ^ 31 - 1))) by lia; simpl andb; cbv iota.
  all: exists 2, 4%nat; rewrite (le_bytes_land 4); cbn -[Z.land Z.shiftr]; rewrite Z.shiftr_0_r; split_and!; [done|lia|lia|lia].
Qed.

Lemma encode_integer_none v : ¬ in_s 32 v → rdbEncodeInteger v = [].
Proof.
  unfold in_s. intros Hv. unfold rdbEncodeInteger.
  destruct (Z.leb_spec (- 2 ^ 7) v), (Z.leb_spec v (2 ^ 7 - 1)), (Z.leb_spec (- 2 ^ 15) v), (Z.leb_spec v (2 ^ 15 - 1)),
    (Z.leb_spec (- 2 ^ 31) v), (Z.leb_spec v (2 ^ 31 - 1)); simpl; try done; lia.
Qed.

Lemma le_val_lor2 b : length b = 2%nat → Forall byte_ok b → Z.lor (nth 0 b 0) (Z.shiftl (nth 1 b 0) 8) = le_val b.
Proof.
  destruct b as [|b0 [|b1 [|]]]; try done. intros _ Hb. rewrite !Forall_cons in Hb. unfold in_u in Hb. destruct Hb as (H0 & H1 & _).
  cbn [nth le_val]. rewrite le_val_lor by lia. lia.
Qed.

Lemma le_val_lor4 b : length b = 4%nat → Forall byte_ok b →
  Z.lor (Z.lor (Z.lor (nth 0 b 0) (Z.shiftl (nth 1 b 0) 8)) (Z.shiftl (nth 2 b 0) 16)) (Z.shiftl (nth 3 b 0) 24) = le_val b.
Proof.
  destruct b as [|b0 [|b1 [|b2 [|b3 [|]]]]]; try done. intros _ Hb. rewrite !Forall_cons in Hb. unfold in_u in Hb.
  destruct Hb as (H0 & H1 & H2 & H3 & _). cbn [nth le_val]. rewrite (le_val_lor b0) by lia.
  rewrite (le_val_lor _ b2) by lia. rewrite (le_val_lor _ b3) by lia. lia.
Qed.

Section strings.
Context (alloc : nat → list Z) (Halloc : ∀ n, length (alloc n) = n).

Lemma decimal_z_length32 v : in_s 32 v → (length (decimal_z v) ≤ 20)%nat.
Proof.
  unfold in_s. intros Hv. unfold decimal_z. case_match; simpl; [|apply decimal_length].
  unfold decimal. rewrite length_reverse. rewrite <- (digits_rev_fuel 19 20) by (simpl; lia). pose proof (digits_rev_length 19 (- v)). lia.
Qed.

Lemma parses_integer t k v fl : ((t = 0 ∧ k = 1%nat) ∨ (t = 1 ∧ k = 2%nat) ∨ (t = 2 ∧ k = 4%nat)) → in_s 32 v → in_s (8 * Z.of_nat k) v →
  ∃ o, parses (λ rdb, rdbLoadIntegerObject alloc rdb t fl) (le_bytes k v) o ∧ str_of o = decimal_z v.
Proof.
  intros Ht Hv Hk. assert (∃ o, parses (λ rdb, if plain fl || sds_ fl then
        lbind (lift (ll2string (alloc 21) v) rdb) (λ '(buf, len) rdb, Loaded (SStr (take (Z.to_nat len) buf)) rdb)
      else if encode fl then Loaded (SInt v) rdb
      else lbind (lift (sdsll2str (alloc 21) v) rdb) (λ '(buf, len) rdb, Loaded (SStr (take (Z.to_nat len) buf)) rdb)) [] o ∧
      str_of o = decimal_z v) as (o & Ho & Es).
  { assert (in_s 64 v) as H64 by (unfold in_s in *; lia). pose proof (decimal_z_length32 v Hv).
    destruct (plain fl || sds_ fl); [|destruct (encode fl)].
    - pose proof (ll2string_spec (alloc 21) v H64) as E. rewrite decide_True in E by (rewrite Halloc; lia).
      eexists. split; [eapply parses_lift; [apply E; rewrite Halloc; lia|apply parses_ret]|]. simpl. by rewrite Nat2Z.id, take_app_length.
    - eexists. split; [apply parses_ret|done].
    - destruct (ll2str_spec (alloc 21) v) as [rest E]; [done|done|]. eexists. split; [eapply parses_lift; [exact E|apply parses_ret]|].
      simpl. by rewrite Nat2Z.id, take_app_length. }
  exists o. split; [|done]. rewrite <- (app_nil_r (le_bytes k v)). unfold rdbLoadIntegerObject. eapply parses_bind; [|exact Ho].
  assert (∀ f n, n = Z.of_nat k → f (le_bytes k v) = v →
    parses (λ rdb, lbind (rioRead rdb n) (λ b rdb, Loaded (f b) rdb)) (le_bytes k v) v) as Hm.
  { intros f n -> Ef. pose proof (parses_map _ f _ _ (parses_read (le_bytes k v) _ eq_refl)) as Hp.
    by rewrite length_le_bytes, Ef in Hp. }
  pose proof (le_roundtrip_s k v) as Hr. pose proof (le_bytes_ok k v) as Hb. pose proof (length_le_bytes k v) as Hl.
  destruct Ht as [[-> ->]|[[-> ->]|[-> ->]]]; simpl (_ =? _); cbv iota.
  - apply (Hm (λ b, s8 (nth 0 b 0)) 1); [done|]. etrans; [|apply Hr; [lia|done]]. simpl. by rewrite Z.add_0_r.
  - apply (Hm (λ b, s16 (Z.lor (nth 0 b 0) (Z.shiftl (nth 1 b 0) 8))) 2); [done|]. rewrite le_val_lor2 by done. apply Hr; [lia|done].
  - apply (Hm (λ b, s32 (Z.lor (Z.lor (Z.lor (nth 0 b 0) (Z.shiftl (nth 1 b 0) 8)) (Z.shiftl (nth 2 b 0) 16)) (Z.shiftl (nth 3 b 0) 24))) 4);
      [done|]. rewrite le_val_lor4 by done. apply Hr; [lia|done].
Qed.

Lemma enc_nonempty bs d : decodes [] bs d → (0 < length d)%nat → (0 < length (enc bs))%nat.
Proof.
  destruct bs as [|b bs]; intros Hd H0; [apply decodes_nil_inv in Hd; subst; simpl in H0; lia|].
  unfold enc. simpl. rewrite length_app. pose proof (enc1_pos b). lia.
Qed.

Lemma new_buffer_fits fl rdb len {B} (M : list Z → list Z → load B) : len < 2 ^ 64 - 18 → lbind (new_buffer alloc fl rdb len) M = M (alloc (Z.to_nat len)) rdb.
Proof. intros Hl. unfold new_buffer. by rewrite block_fits_small, orb_true_r. Qed.

Lemma parses_lzf s bs fl : decodes [] bs s → (0 < length s)%nat → Z.of_nat (length s) < 2 ^ 32 → Z.of_nat (length (enc bs)) < 2 ^ 32 →
  parses (λ rdb, rdbLoadLzfStringObject alloc rdb fl) (len_bytes (Z.of_nat (length (enc bs))) ++ len_bytes (Z.of_nat (length s)) ++ enc bs) (SStr s).
Proof.
  intros Hd H0 Hs He. unfold rdbLoadLzfStringObject. eapply parses_load_len; [done|apply parses_len; unfold in_u; lia|]. cbv beta iota.
  rewrite (proj2 (Z.eqb_neq _ _)) by (unfold RDB_LENERR; lia).
  eapply parses_load_len; [done|apply parses_len; unfold in_u; lia|]. cbv beta iota zeta.
  rewrite (proj2 (Z.eqb_neq _ _)) by (unfold RDB_LENERR; lia).
  eapply parses_ext; [intros rdb; apply new_buffer_fits; lia|]. cbv beta. eapply parses_bind_last; [by apply parses_read|]. cbv beta.
  rewrite !uwrap_small, !Nat2Z.id by (unfold in_u; lia). rewrite (take_ge (enc bs)), (take_ge (alloc _)), drop_ge by (rewrite ?Halloc; lia).
  eapply parses_lift; [by apply decompress_enc|]. cbv beta iota. rewrite (proj2 (Z.eqb_neq _ _)) by lia. rewrite app_nil_r. apply parses_ret.
Qed.

Lemma parses_string s p fl : str_enc s p →
  ∃ o, parses (λ rdb, rdbGenericLoadStringObject alloc rdb fl) p o ∧ str_of o = s.
Proof.
  unfold rdbGenericLoadStringObject. destruct 1 as [v Hv ->|bs Hd H0 Hs He|Hs].
  - destruct (encode_integer_bytes v Hv) as (t & k & -> & Hk & Ht). destruct (parses_integer t k v fl Ht Hv Hk) as (o & Ho & Es).
    exists o. split; [|done]. change (192 + t :: le_bytes k v) with ([192 + t] ++ le_bytes k v).
    eapply parses_load_len; [done|apply parses_enc; lia|]. cbv beta iota. by destruct Ht as [[-> _]|[[-> _]|[-> _]]].
  - exists (SStr s). split; [|done]. match goal with |- parses _ (?b :: ?q) _ => change (b :: q) with ([192 + 3] ++ q) end.
    eapply parses_load_len; [done|by apply parses_enc|]. by apply parses_lzf.
  - exists (SStr s). split; [|done].
    eapply parses_load_len; [done|apply parses_len; unfold in_u; lia|]. cbv beta iota.
    rewrite (proj2 (Z.eqb_neq _ RDB_LENERR)) by (unfold RDB_LENERR; lia). eapply parses_ext; [intros rdb; apply new_buffer_fits; lia|]. cbv beta. destruct s as [|c s]; [apply parses_ret|].
    rewrite (proj2 (Z.eqb_neq _ 0)) by (simpl; lia). by apply (parses_map (λ rdb, rioRead rdb _)), parses_read.
Qed.

End strings.

(** ** Saving

    What saving [p] does: the bytes are appended and their number returned
    ([c] is added to it), or a write failed, the result is -1 and the rio has
    an initial part of the bytes. *)

Section saving.
Context (wfail : list Z → list Z → option nat).

Definition saved (c : Z) (rdb p : list Z) (r : list Z * Z) : Prop :=
  r = (rdb ++ p, c + Z.of_nat (length p)) ∨
  ∃ q w k, r = (rdb ++ q ++ take k w, -1) ∧ q ++ w `prefix_of` p ∧ wfail (rdb ++ q) w = Some k.

Lemma saved_write rdb p : saved 0 rdb p (rdbWriteRaw wfail rdb p).
Proof.
  unfold rdbWriteRaw. destruct (wfail rdb p) as [k|] eqn:E; [|by left].
  right. exists [], p, k. rewrite app_nil_r. done.
Qed.

Lemma saved_ret c rdb n : n = c → saved c rdb [] (rdb, n).
Proof. intros ->. left. by rewrite app_nil_r, Z.add_0_r. Qed.

Lemma saved_bind c c1 rdb p q r k : saved c1 rdb p r → 0 ≤ c1 →
  saved (c + Z.of_nat (length p)) (rdb ++ p) q (k (rdb ++ p) (c1 + Z.of_nat (length p))) →
  saved c rdb (p ++ q) (let '(rdb, n) := r in if n =? -1 then (rdb, -1) else k rdb n).
Proof.
  intros [->|(q' & w & k' & -> & Hp & E)] Hc Hk.
  - rewrite (proj2 (Z.eqb_neq _ _)) by lia. destruct Hk as [->|(q' & w & k' & -> & Hp & E)].
    + left. rewrite app_assoc, length_app. f_equal. lia.
    + right. exists (p ++ q'), w, k'. rewrite !app_assoc. split_and!; [done| |done].
      rewrite <- !app_assoc. by apply prefix_app.
  - right. exists q', w, k'. split_and!; [done| |done]. etrans; [done|]. by apply prefix_app_r.
Qed.

Lemma saved_last c rdb p r f : saved 0 rdb p r → (f (rdb ++ p) (Z.of_nat (length p)) = (rdb ++ p, c + Z.of_nat (length p))) →
  saved c rdb p (let '(rdb, n) := r in if n =? -1 then (rdb, -1) else f rdb n).
Proof. intros H Hf. rewrite <- (app_nil_r p). eapply (saved_bind _ _ _ _ _ _ f H); [done|]. rewrite Z.add_0_l, Hf. by apply saved_ret. Qed.

Lemma saved_len rdb len : in_u 64 len → saved 0 rdb (len_bytes len) (rdbSaveLen wfail rdb len).
Proof.
  unfold in_u. intros Hl. unfold rdbSaveLen, len_bytes.
  destruct (Z.ltb_spec len (2 ^ 6)); [|destruct (Z.ltb_spec len (2 ^ 14)); [|destruct (Z.leb_spec len (2 ^ 32 - 1))]].
  - replace (u8 _) with len; [eapply saved_last; [apply saved_write|done]|].
    change 255 with (Z.ones 8). rewrite Z.land_ones, Z.mod_small by lia. simpl. rewrite Z.lor_0_r, uwrap_small by (unfold in_u; lia). done.
  - assert (0 ≤ len `div` 256 < 64) by (split; [apply Z.div_pos; lia|apply Z.div_lt_upper_bound; lia]).
    replace (u8 _) with (64 + len `div` 256); [replace (Z.land len 255) with (len `mod` 256)|].
    + eapply saved_last; [apply saved_write|done].
    + change 255 with (Z.ones 8). by rewrite Z.land_ones.
    + change 255 with (Z.ones 8). rewrite Z.shiftr_div_pow2, Z.land_ones by lia. change (2 ^ 8) with 256. rewrite (Z.mod_small (_ `div` _)) by lia.
      rewrite (le_val_lor _ RDB_14BITLEN 6) by lia. rewrite uwrap_small by (unfold in_u, RDB_14BITLEN; lia). unfold RDB_14BITLEN. lia.
  - change (RDB_32BITLEN :: be_bytes 4 len) with ([RDB_32BITLEN] ++ be_bytes 4 len).
    eapply saved_bind; [apply saved_write|done|]. eapply saved_last; [apply saved_write|]. by rewrite length_be_bytes.
  - change (RDB_64BITLEN :: be_bytes 8 len) with ([RDB_64BITLEN] ++ be_bytes 8 len).
    eapply saved_bind; [apply saved_write|done|]. eapply saved_last; [apply saved_write|]. by rewrite length_be_bytes.
Qed.

Lemma saved_lzf rdb data len : Z.of_nat (length data) < 2 ^ 32 → in_u 64 len →
  saved 0 rdb (195 :: len_bytes (Z.of_nat (length data)) ++ len_bytes len ++ data) (rdbSaveLzfBlob wfail rdb data len).
Proof.
  intros Hd Hl. unfold rdbSaveLzfBlob. match goal with |- saved _ _ (?b :: ?q) _ => change (b :: q) with ([195] ++ q) end.
  eapply saved_bind; [apply saved_write|done|]. cbv zeta.
  eapply saved_bind; [apply saved_len; unfold in_u; lia|done|].
  eapply saved_bind; [by apply saved_len|done|]. eapply saved_last; [apply saved_write|]. simpl length. f_equal; lia.
Qed.

Lemma strlen_nonzero l r : Forall (λ c, c ≠ 0) l → strlen (l ++ 0 :: r) = length l.
Proof. induction 1 as [|c l Hc _ IH]; [done|]. simpl. by rewrite (proj2 (Z.eqb_neq _ _)), IH. Qed.

Lemma decimal_z_nonzero v : Forall (λ c, c ≠ 0) (decimal_z v).
Proof.
  assert (∀ n, 0 ≤ n → Forall (λ c, c ≠ 0) (decimal n)) as Hd.
  { intros n Hn. eapply Forall_impl; [by apply decimal_digits|]. unfold is_digit. lia. }
  unfold decimal_z. destruct (Z.ltb_spec v 0); [constructor; [done|]|]; apply Hd; lia.
Qed.

Lemma strtoll_range s : in_s 64 (strtoll s).1.
Proof.
  assert (in_s 64 0) by (unfold in_s; lia).
  unfold strtoll. destruct (match skip_space s with [] => _ | _ => _ end) as [neg [|c q]]; [done|].
  destruct (isdigit c); [|done]. destruct (read_digits _ _). simpl. unfold in_s, LLONG_MIN, LLONG_MAX. lia.
Qed.

Lemma try_integer_spec s : ∃ e, rdbTryIntegerEncoding s = Some e ∧
  (e = [] ∨ ∃ v, in_s 32 v ∧ s = decimal_z v ∧ e = rdbEncodeInteger v).
Proof.
  unfold rdbTryIntegerEncoding. pose proof (strtoll_range s) as Hv. destruct (strtoll s) as [v endp]. simpl in Hv.
  destruct (negb _); [eauto|]. rewrite ll2string_spec by (try done; simpl; lia). pose proof (decimal_z_length v).
  rewrite decide_True by (rewrite length_replicate; lia). cbn [mbind option_bind].
  rewrite strlen_nonzero by apply decimal_z_nonzero.
  destruct (Nat.eqb_spec (length (decimal_z v)) (length s)) as [El|]; simpl negb; [|eauto]. rewrite <- El, take_app_length.
  case_bool_decide as Es; simpl; [|eauto]. eexists. split; [done|]. destruct (decide (in_s 32 v)) as [H32|H32].
  - right. exists v. done.
  - left. by apply encode_integer_none.
Qed.

(** The same for operations that access buffers. *)
Definition saves (c : Z) (rdb p : list Z) (m : option (list Z * Z)) : Prop := ∃ r, m = Some r ∧ saved c rdb p r.

Lemma saves_bind c c1 rdb p q r k : saved c1 rdb p r → 0 ≤ c1 →
  saves (c + Z.of_nat (length p)) (rdb ++ p) q (k (rdb ++ p) (c1 + Z.of_nat (length p))) →
  saves c rdb (p ++ q) (let '(rdb, n) := r in if n =? -1 then Some (rdb, -1) else k rdb n).
Proof.
  intros Hr Hc (r' & Ek & Hk). set (k' := λ rdb n, default (rdb, -1) (k rdb n)).
  pose proof (saved_bind c c1 rdb p q r k' Hr Hc) as Hb. unfold k' in Hb. rewrite Ek in Hb. specialize (Hb Hk).
  destruct Hr as [->|(q' & w & j & -> & _)]; [|by eexists]. rewrite (proj2 (Z.eqb_neq _ _)) in * by lia. rewrite Ek in *. by eexists.
Qed.

Lemma saves_last c rdb p r f : saved 0 rdb p r → (f (rdb ++ p) (Z.of_nat (length p)) = Some (rdb ++ p, c + Z.of_nat (length p))) →
  saves c rdb p (let '(rdb, n) := r in if n =? -1 then Some (rdb, -1) else f rdb n).
Proof.
  intros H Hf. rewrite <- (app_nil_r p). eapply (saves_bind _ _ _ _ _ _ f H); [done|]. rewrite Z.add_0_l, Hf. eexists. split; [done|].
  by apply saved_ret.
Qed.

Context (junk : Z → Z) (alloc : nat → list Z) (Halloc : ∀ n, length (alloc n) = n).

Lemma save_lzf_spec rdb s : Z.of_nat (length s) < 2 ^ 32 → ∃ r, rdbSaveLzfStringObject wfail junk alloc rdb s = Some r ∧
  (r = (rdb, 0) ∨ ∃ p, str_enc s p ∧ p ≠ [] ∧ saved 0 rdb p r).
Proof.
  intros Hs. unfold rdbSaveLzfStringObject. destruct (Z.leb_spec (Z.of_nat (length s)) 4); [eauto|].
  rewrite !uwrap_small by (unfold in_u; lia). rewrite Nat2Z.id, take_ge by lia.
  destruct (compress_spec junk s (Z.of_nat (length s) - 4) Hs (alloc (Z.to_nat (Z.of_nat (length s) - 4)))) as (n & o & E & Hn & _ & Hbs);
    [lia|rewrite Halloc; lia|lia|]. rewrite E. cbn [mbind option_bind].
  destruct (Z.eqb_spec n 0) as [->|Hn0]; [eauto|]. destruct (Hbs Hn0) as (bs & Hd & Et). eexists. split; [done|]. right.
  assert (Z.of_nat (length (enc bs)) < 2 ^ 32) by (rewrite <- Et, length_take; lia). rewrite Et.
  eexists. split_and!; [apply (str_lzf s bs)| |apply saved_lzf]; try done; try (unfold in_u); lia.
Qed.

Lemma save_verbatim_spec rdb s : Z.of_nat (length s) < 2 ^ 32 → saves 0 rdb (len_bytes (Z.of_nat (length s)) ++ s)
  (let '(rdb, n) := rdbSaveLen wfail rdb (Z.of_nat (length s)) in
   if n =? -1 then Some (rdb, -1) else
   if 0 <? Z.of_nat (length s) then
     let '(rdb, m) := rdbWriteRaw wfail rdb s in
     if m =? -1 then Some (rdb, -1) else Some (rdb, n + Z.of_nat (length s))
   else Some (rdb, n)).
Proof.
  intros Hs. eapply saves_bind; [apply saved_len; unfold in_u; lia|done|]. destruct s as [|x s].
  - eexists. split; [done|]. by apply saved_ret.
  - rewrite (proj2 (Z.ltb_lt _ _)) by (simpl; lia). eapply saves_last; [apply saved_write|]. done.
Qed.

Lemma save_raw_spec comp rdb s : Z.of_nat (length s) < 2 ^ 32 →
  ∃ p, str_enc s p ∧ saves 0 rdb p (rdbSaveRawString wfail junk alloc comp rdb s).
Proof.
  intros Hs. unfold rdbSaveRawString.
  assert (∃ e, (if Z.of_nat (length s) <=? 11 then rdbTryIntegerEncoding s else Some []) = Some e ∧
    (e = [] ∨ ∃ v, in_s 32 v ∧ s = decimal_z v ∧ e = rdbEncodeInteger v)) as (e & -> & He) by (case_match; [apply try_integer_spec|eauto]).
  cbn [mbind option_bind]. destruct e as [|x e].
  - assert (∃ r, (if comp && (20 <? Z.of_nat (length s)) then rdbSaveLzfStringObject wfail junk alloc rdb s else Some (rdb, 0)) = Some r ∧
      (r = (rdb, 0) ∨ ∃ p, str_enc s p ∧ p ≠ [] ∧ saved 0 rdb p r)) as (r & -> & [->|(p & Hp & Hne & Hr)])
      by (case_match; [by apply save_lzf_spec|eauto]); cbn [mbind option_bind].
    + eexists. split; [by apply str_raw|]. by apply save_verbatim_spec.
    + exists p. split; [done|]. eexists. split; [|exact Hr].
      destruct Hr as [->|(q & w & k & -> & _)]; [|done]. assert (0 < length p)%nat by (destruct p; [done|simpl; lia]).
      rewrite (proj2 (Z.eqb_neq _ _)), (proj2 (Z.ltb_lt _ _)) by lia. done.
  - destruct He as [|(v & Hv & Es & ->)]; [done|]. eexists. split; [by apply (str_int s v)|]. by eapply saves_last; [apply saved_write|].
Qed.

Lemma save_longlong_spec rdb v : in_s 64 v →
  ∃ p, str_enc (decimal_z v) p ∧ saves 0 rdb p (rdbSaveLongLongAsStringObject wfail rdb v).
Proof.
  intros Hv. unfold rdbSaveLongLongAsStringObject. destruct (decide (in_s 32 v)) as [H32|H32].
  - eexists. split; [by apply (str_int _ v)|]. eexists. split; [|apply saved_write].
    destruct (encode_integer_bytes v H32) as (t & k & -> & _). done.
  - rewrite encode_integer_none by done. simpl (0 <? _). cbv iota. pose proof (decimal_z_length v).
    rewrite ll2string_spec by (try done; simpl; lia). rewrite decide_True by (rewrite length_replicate; lia). cbn [mbind option_bind].
    eexists. split; [apply str_raw; lia|]. rewrite Nat2Z.id, take_app_length. eapply saves_bind; [apply saved_len; unfold in_u; lia|done|].
    by eapply saves_last; [apply saved_write|].
Qed.

Definition obj_ok (o : strobj) : Prop := match o with SStr s => Z.of_nat (length s) < 2 ^ 32 | SInt v => in_s 64 v end.

Lemma save_string_spec comp rdb o : obj_ok o →
  ∃ p, str_enc (str_of o) p ∧ saves 0 rdb p (rdbSaveStringObject wfail junk alloc comp rdb o).
Proof. destruct o; simpl; intros Ho; [by apply save_raw_spec|by apply save_longlong_spec]. Qed.

End saving.

(** ** Arbitrary files *)

Section arbitrary.
Context (alloc : nat → list Z) (Halloc : ∀ n, length (alloc n) = n).

(** [L] never accesses memory outside of a buffer, and values it loads satisfy [Q]. *)
Definition safe {A} (Q : A → list Z → Prop) (m : load A) : Prop :=
  match m with Loaded a rdb => Q a rdb | LoadBad => False | _ => True end.

Abbreviation bytes := (Forall byte_ok).

Lemma safe_bind {A B} (m : load A) (M : A → list Z → load B) P Q :
  safe P m → (∀ a rdb, P a rdb → safe Q (M a rdb)) → safe Q (lbind m M).
Proof. destruct m; simpl; intros Hm HM; auto. Qed.

Lemma safe_weaken {A} (m : load A) (P Q : A → list Z → Prop) : safe P m → (∀ a rdb, P a rdb → Q a rdb) → safe Q m.
Proof. destruct m; simpl; auto. Qed.

Lemma safe_read rdb n : bytes rdb → 0 ≤ n →
  safe (λ b rdb', rdb = b ++ rdb' ∧ bytes b ∧ bytes rdb' ∧ Z.of_nat (length b) = n) (rioRead rdb n).
Proof.
  intros Hb Hn. unfold rioRead. destruct (Z.leb_spec n (Z.of_nat (length rdb))); simpl; [|done].
  split_and!; [by rewrite take_drop|by apply Forall_take|by apply Forall_drop|rewrite length_take; lia].
Qed.

Lemma be_val_range b : bytes b → 0 ≤ be_val b < 256 ^ Z.of_nat (length b).
Proof. intros Hb. unfold be_val. rewrite <- length_reverse. apply le_val_range. by apply Forall_reverse. Qed.

Lemma safe_len rdb : bytes rdb → safe (λ r rdb', bytes rdb' ∧ 0 ≤ r.2) (rdbLoadLenByRef rdb).
Proof.
  intros Hb. unfold rdbLoadLenByRef. eapply safe_bind; [by apply safe_read|]. intros b rdb1 (-> & Hb1 & Hr1 & Hl). cbv zeta.
  destruct b as [|b0 [|]]; simpl in Hl; try lia. simpl nth. apply Forall_cons in Hb1 as [Hb0 _]. unfold in_u in Hb0.
  assert (0 ≤ Z.land b0 63) by (apply Z.land_nonneg; lia).
  destruct (_ =? RDB_ENCVAL); [done|]. destruct (_ =? RDB_6BITLEN); [done|].
  destruct (_ =? RDB_14BITLEN); [|destruct (_ =? RDB_32BITLEN); [|destruct (_ =? RDB_64BITLEN); [|done]]];
    (eapply safe_bind; [by apply safe_read|]); intros b rdb2 (-> & Hb2 & Hr2 & Hl2); simpl; (split; [done|]).
  - destruct b as [|b1 [|]]; simpl in Hl2; try lia. apply Forall_cons in Hb2 as [Hb1 _]. unfold in_u in Hb1. simpl.
    apply Z.lor_nonneg. split; [by apply Z.shiftl_nonneg|lia].
  - by apply be_val_range.
  - by apply be_val_range.
Qed.

Lemma safe_load_len rdb : bytes rdb → safe (λ r rdb', bytes rdb' ∧ 0 ≤ r.2) (rdbLoadLen rdb).
Proof. intros Hb. pose proof (safe_len rdb Hb) as Hs. unfold rdbLoadLen. destruct (rdbLoadLenByRef rdb); simpl in *; auto. by split. Qed.

Lemma safe_integer rdb t fl : bytes rdb → safe (λ _ _, True) (rdbLoadIntegerObject alloc rdb t fl).
Proof.
  intros Hb. unfold rdbLoadIntegerObject. apply (safe_bind _ _ (λ v _, in_s 32 v)).
  - assert (∀ n f, 0 ≤ n → (∀ b, in_s 32 (f b)) → safe (λ v _, in_s 32 v) (lbind (rioRead rdb n) (λ b rdb, Loaded (f b) rdb))) as Hm.
    { intros n f Hn Hf. eapply safe_bind; [by apply safe_read|]. intros; simpl. auto. }
    assert (∀ w x, 0 < w ≤ 32 → in_s 32 (swrap w x)) as Hw.
    { intros w x Hw. destruct (swrap_range w x); [lia|]. unfold in_s. assert (2 ^ (w - 1) ≤ 2 ^ (32 - 1)) by (apply Z.pow_le_mono_r; lia). lia. }
    repeat case_match; try done; apply Hm; (lia || intros; apply Hw; lia).
  - intros v rdb' Hv. assert (in_s 64 v) by (unfold in_s in *; lia). pose proof (decimal_z_length32 v Hv).
    destruct (plain fl || sds_ fl); [|destruct (encode fl); [done|]].
    + rewrite ll2string_spec by (try done; rewrite Halloc; lia). by rewrite decide_True by (rewrite Halloc; lia).
    + by destruct (ll2str_spec (alloc 21) v) as [rest ->].
Qed.

(** A compressed string of no bytes. *)
Definition no_lzf_bytes (rdb : list Z) : Prop := ∃ e clen rest, rdbLoadLen rdb = Loaded (e, clen) rest ∧ u32 clen = 0.

(** A length for which the size of an sds block wraps around. *)
Definition wraps (fl : load_flags) (len : Z) : Prop := plain fl = false ∧ 2 ^ 64 - 18 ≤ len.

Definition lzf_wraps (fl : load_flags) (rdb : list Z) : Prop :=
  ∃ e clen rdb1 e2 len rest, rdbLoadLen rdb = Loaded (e, clen) rdb1 ∧ rdbLoadLen rdb1 = Loaded (e2, len) rest ∧ wraps fl len.

Lemma new_buffer_cases fl rdb len : wraps fl len ∨ new_buffer alloc fl rdb len = Loaded (alloc (Z.to_nat len)) rdb.
Proof.
  unfold new_buffer, wraps. destruct (plain fl); [by right|]. destruct (Z.lt_ge_cases len (2 ^ 64 - 18)); [right; by rewrite block_fits_small|by left].
Qed.

Lemma safe_lzf rdb fl : bytes rdb → no_lzf_bytes rdb ∨ lzf_wraps fl rdb ∨ safe (λ _ _, True) (rdbLoadLzfStringObject alloc rdb fl).
Proof.
  intros Hb. unfold rdbLoadLzfStringObject, no_lzf_bytes, lzf_wraps. pose proof (safe_load_len rdb Hb) as Hs.
  destruct (rdbLoadLen rdb) as [[e clen] rdb1| | |]; simpl in Hs |- *; try by right; right. destruct Hs as [Hb1 Hc].
  destruct (Z.eqb_spec clen RDB_LENERR); [by right; right|]. destruct (decide (u32 clen = 0)); [left; eauto|right].
  pose proof (safe_load_len rdb1 Hb1) as Hs. destruct (rdbLoadLen rdb1) as [[e2 len] rdb2| | |] eqn:E2; simpl in Hs |- *; try by right. destruct Hs as [Hb2 Hlen].
  destruct (len =? RDB_LENERR); [by right|]. destruct (new_buffer_cases fl rdb2 len) as [Hw| ->]; [left; by eexists _, _, _, _, _, _|right]. cbn [lbind].
  eapply safe_bind; [by apply safe_read|]. intros c rdb3 (-> & Hbc & _ & Hl).
  destruct (uwrap_range 32 clen) as [Hu1 Hu2]; [done|]. destruct (uwrap_range 32 len) as [Hv1 Hv2]; [done|].
  assert (u32 clen ≤ clen) by (apply Z.mod_le; lia). assert (u32 len ≤ len) by (apply Z.mod_le; lia).
  assert (length (take (Z.to_nat (u32 clen)) c) = Z.to_nat (u32 clen)) as Elc by (rewrite length_take; lia).
  assert (length (take (Z.to_nat (u32 len)) (alloc (Z.to_nat len))) = Z.to_nat (u32 len)) as Elv by (rewrite length_take, Halloc; lia).
  destruct (decompress_loop_safe (take (Z.to_nat (u32 clen)) c) (u32 len)) with (fuel := S (length (take (Z.to_nat (u32 clen)) c)))
    (i := 0) (o := 0) (out := take (Z.to_nat (u32 len)) (alloc (Z.to_nat len))) as (m & v & E & _); try lia.
  { by apply Forall_take. }
  unfold lzf_decompress. rewrite E. simpl. by destruct (m =? 0).
Qed.

End arbitrary.

(** ** The properties *)

(** C20. Saving lengths and strings and loading them again: whatever the
    compression setting and the flags of the loader are, and whatever follows
    in the file, the bytes that saving an object appends load to an object with
    the same string, and nothing else is consumed. Saving returns the number of
    bytes; the only other result is -1, when a write fails. Every 64-bit
    length but RDB_LENERR loads as it was saved. *)
Theorem rdb_string_roundtrip wfail junk alloc comp fl rdb o : (∀ n, length (alloc n) = n) → obj_ok o →
  (∃ rdb' n, rdbSaveStringObject wfail junk alloc comp rdb o = Some (rdb', n) ∧
    ((n = -1 ∧ ∃ w p, is_Some (wfail w p)) ∨
     ∃ p o', rdb' = rdb ++ p ∧ n = Z.of_nat (length p) ∧ str_of o' = str_of o ∧
       ∀ rest, rdbGenericLoadStringObject alloc (p ++ rest) fl = Loaded o' rest)) ∧
  (∀ len, 0 ≤ len < RDB_LENERR → ∃ rdb' n, rdbSaveLen wfail rdb len = (rdb', n) ∧
    ((n = -1 ∧ ∃ w p, is_Some (wfail w p)) ∨
     ∃ p, rdb' = rdb ++ p ∧ n = Z.of_nat (length p) ∧ ∀ rest, rdbLoadLen (p ++ rest) = Loaded (false, len) rest)).
Proof.
  intros Halloc Ho. split.
  - destruct (save_string_spec wfail junk alloc Halloc comp rdb o Ho) as (p & Hp & [rdb' n] & E & Hs). exists rdb', n. split; [done|].
    destruct Hs as [[= -> ->]|(q & w & k & [= -> ->] & _ & Ew)]; [|left; split; [done|]; eexists _, _; by rewrite Ew].
    right. destruct (parses_string alloc Halloc _ p fl Hp) as (o' & [Hl _] & Es). by exists p, o'.
  - intros len Hl. assert (in_u 64 len) as H64 by (unfold in_u, RDB_LENERR in *; lia). pose proof (saved_len wfail rdb len H64) as Hs.
    destruct (rdbSaveLen wfail rdb len) as [rdb' n]. exists rdb', n. split; [done|].
    destruct Hs as [[= -> ->]|(q & w & k & [= -> ->] & _ & Ew)]; [|left; split; [done|]; eexists _, _; by rewrite Ew].
    right. exists (len_bytes len). split_and!; [done|lia|]. intros rest. unfold rdbLoadLen. by rewrite (proj1 (parses_len len H64)).
Qed.

(** C21. Failures. A save that a failing write interrupts returns -1 and leaves
    an initial part of the encoding behind what was there; loading a part that
    is not complete, in whatever way it was cut, reports an error and never a
    wrong string. Loading arbitrary bytes never leaves a buffer, with two
    exceptions: a compressed string whose compressed length is 0 modulo 2^32,
    and, unless a plain buffer is asked for, a length of at least 2^64-18, for
    which the size of the sds block wraps around. *)
Theorem rdb_string_errors wfail junk alloc comp fl rdb o file : (∀ n, length (alloc n) = n) → obj_ok o → Forall byte_ok file →
  (∃ p rdb' n, rdbSaveStringObject wfail junk alloc comp rdb o = Some (rdb', n) ∧
    (n = -1 → ∃ q r, p = q ++ r ∧ rdb' = rdb ++ q) ∧ (n ≠ -1 → rdb' = rdb ++ p) ∧
    ∀ q r, p = q ++ r → r ≠ [] → rdbGenericLoadStringObject alloc q fl = LoadErr) ∧
  (rdbGenericLoadStringObject alloc file fl = LoadBad →
    (∃ rest, rdbLoadLen file = Loaded (true, RDB_ENC_LZF) rest ∧ (no_lzf_bytes rest ∨ lzf_wraps fl rest)) ∨
    (∃ len rest, rdbLoadLen file = Loaded (false, len) rest ∧ wraps fl len)).
Proof.
  intros Halloc Ho Hb. split.
  - destruct (save_string_spec wfail junk alloc Halloc comp rdb o Ho) as (p & Hp & [rdb' n] & E & Hs). exists p, rdb', n.
    destruct (parses_string alloc Halloc _ p fl Hp) as (o' & [_ Hl] & _). split_and!; [done| | |done];
    destruct Hs as [[= -> ->]|(q & w & k & [= -> ->] & [r ->] & _)]; try (done || lia). intros _. exists (q ++ take k w), (drop k w ++ r).
    by rewrite <- !app_assoc, (app_assoc (take k w)), take_drop.
  - unfold rdbGenericLoadStringObject. pose proof (safe_load_len file Hb) as Hs.
    destruct (rdbLoadLen file) as [[[] len] rest| | |]; simpl in Hs |- *; try done; destruct Hs as [Hr Hlen].
    + destruct (_ || _); [intros E; pose proof (safe_integer alloc Halloc rest len fl Hr) as Hs; by rewrite E in Hs|].
      destruct (Z.eqb_spec len RDB_ENC_LZF) as [->|]; [|done]. intros E. left. exists rest. split; [done|].
      destruct (safe_lzf alloc Halloc rest fl Hr) as [Hn|[Hw|Hs]]; [by left|by right|by rewrite E in Hs].
    + destruct (_ =? RDB_LENERR); [done|]. destruct (new_buffer_cases alloc fl rest len) as [Hw| ->]; [intros _; right; by exists len, rest|]. cbn [lbind].
      destruct (_ =? 0); [done|]. intros E. pose proof (safe_read rest len Hr Hlen) as Hs. by destruct (rioRead rest len).
Qed.

Definition no_wfail (_ _ : list Z) : option nat := None.
Definition demo_alloc (n : nat) : list Z := replicate n 7.
(** Writes of more than ten bytes fail after three. *)
Definition demo_wfail (_ p : list Z) : option nat := if 10 <? Z.of_nat (length p) then Some 3%nat else None.

Lemma rdb_string_roundtrip_witness : ∃ rdb' n, rdbSaveStringObject no_wfail (λ _, 0) demo_alloc true [1; 2] (SInt (-300)) = Some (rdb', n) ∧
  ((n = -1 ∧ ∃ w p, is_Some (no_wfail w p)) ∨
   ∃ p o', rdb' = [1; 2] ++ p ∧ n = Z.of_nat (length p) ∧ str_of o' = [45; 51; 48; 48] ∧
     ∀ rest, rdbGenericLoadStringObject demo_alloc (p ++ rest) (Flags false true false) = Loaded o' rest).
Proof.
  apply (rdb_string_roundtrip no_wfail (λ _, 0) demo_alloc true (Flags false true false) [1; 2] (SInt (-300))).
  - intros n. apply length_replicate.
  - simpl. unfold in_s. lia.
Defined.

Lemma rdb_string_errors_witness : ∃ p rdb' n,
  rdbSaveStringObject demo_wfail (λ _, 0) demo_alloc true [] (SStr (replicate 15 65)) = Some (rdb', n) ∧
    (n = -1 → ∃ q r, p = q ++ r ∧ rdb' = [] ++ q) ∧ (n ≠ -1 → rdb' = [] ++ p) ∧
    ∀ q r, p = q ++ r → r ≠ [] → rdbGenericLoadStringObject demo_alloc q (Flags true false false) = LoadErr.
Proof.
  apply (rdb_string_errors demo_wfail (λ _, 0) demo_alloc true (Flags true false false) [] (SStr (replicate 15 65)) [195; 0; 1]).
  - intros n. apply length_replicate.
  - done.
  - repeat constructor; lia.
Defined.

(** A length of 2^64-2: the block of the string has no room for its header. *)
Example rdb_load_wraps : rdbGenericLoadStringObject demo_alloc ([129] ++ replicate 7 255 ++ [254]) (Flags false false true) = LoadBad.
Proof. reflexivity. Qed.

(** No compressed bytes: the loader reads a byte that is not there. *)
Example rdb_load_lzf_empty : rdbGenericLoadStringObject demo_alloc [195; 0; 1] (Flags true false false) = LoadBad.
Proof. reflexivity. Qed.

(** The length that decompression returns is not compared: two of the four
    bytes come from the allocator. *)
Example rdb_load_lzf_short :
  rdbGenericLoadStringObject demo_alloc [195; 3; 4; 1; 65; 66] (Flags true false false) = Loaded (SStr [65; 66; 7; 7]) [].
Proof. reflexivity. Qed.

(** A compressed string, and a write that fails in its middle. *)
Example rdb_save_lzf : rdbSaveStringObject no_wfail (λ _, 0) demo_alloc true [] (SStr (replicate 30 65)) =
  Some ([195; 9; 30; 1; 65; 65; 224; 17; 0; 1; 65; 65], 12).
Proof. vm_compute. reflexivity. Qed.

Example rdb_save_fails : rdbSaveStringObject demo_wfail (λ _, 0) demo_alloc false [] (SStr (replicate 30 65)) =
  Some ([30; 65; 65; 65], -1).
Proof. vm_compute. reflexivity. Qed.
