(* ===== verification/Networking.v ===== *)
(** * networking.c: from the bytes of a connection to commands

    [readQueryFromClient], [processInputBufferAndReplicate],
    [processInputBuffer], [processInlineBuffer], [processMultibulkBuffer] and
    [resetClient].

    The query buffer is the byte string of its sds ([sdsrange(buf,pos,-1)] is
    [drop], [sdsMakeRoomFor] keeps the string: Sds.v). The rest of the server is
    behind the interface [Server]: an abstract state with the values that are
    read here and the operations that are called, [processCommand] above all;
    [ServerLaws] states what is relied upon. The functions return [None] for a
    failed assertion, an access outside of [argv] or the use of a freed client. *)

From S2P Require Import Prelude Decimal Sds SdsText Util.

Definition C_OK : Z := 0.
Definition C_ERR : Z := -1.
Definition PROTO_IOBUF_LEN : Z := 1024 * 16.
Definition PROTO_INLINE_MAX_SIZE : Z := 1024 * 64.
Definition PROTO_MBULK_BIG_ARG : Z := 1024 * 32.
Definition PROTO_REQ_INLINE : Z := 1.
Definition PROTO_REQ_MULTIBULK : Z := 2.
Definition BLOCKED_MODULE : Z := 3.

(** The flags of a client, as bit numbers. *)
Definition CLIENT_SLAVE : Z := 0.
Definition CLIENT_MASTER : Z := 1.
Definition CLIENT_MULTI : Z := 3.
Definition CLIENT_BLOCKED : Z := 4.
Definition CLIENT_CLOSE_AFTER_REPLY : Z := 6.
Definition CLIENT_ASKING : Z := 9.
Definition CLIENT_CLOSE_ASAP : Z := 10.
Definition CLIENT_REPLY_SKIP_NEXT : Z := 23.
Definition CLIENT_REPLY_SKIP : Z := 24.

(** The replies of [addReplyError] before a connection is closed. *)
Inductive proto_error :=
  | TooBigInline | UnbalancedQuotes | TooBigMbulkCount | InvalidMbulkLength
  | TooBigBulkCount | ExpectedDollar (got : Z) | InvalidBulkLength.

Record client := Client {
  querybuf : list Z;
  qb_pos : nat;
  reqtype : Z;
  multibulklen : Z;
  bulklen : Z;
  argv : list (list Z);      (* the first argc elements *)
  argv_cap : Z;              (* the allocated elements *)
  cmd_asking : bool;         (* cmd is the command ASKING *)
  flags : Z;
  btype : Z;
  repl_ack_time : Z;
  pending_querybuf : list Z;
  reploff : Z;
  read_reploff : Z;
  errors : list proto_error
}.

Definition set_qb (c : client) (buf : list Z) (pos : nat) : client :=
  Client buf pos (reqtype c) (multibulklen c) (bulklen c) (argv c) (argv_cap c) (cmd_asking c) (flags c) (btype c)
    (repl_ack_time c) (pending_querybuf c) (reploff c) (read_reploff c) (errors c).
Definition set_req (c : client) (req mb b : Z) : client :=
  Client (querybuf c) (qb_pos c) req mb b (argv c) (argv_cap c) (cmd_asking c) (flags c) (btype c)
    (repl_ack_time c) (pending_querybuf c) (reploff c) (read_reploff c) (errors c).
Definition set_argv (c : client) (a : list (list Z)) (cap : Z) : client :=
  Client (querybuf c) (qb_pos c) (reqtype c) (multibulklen c) (bulklen c) a cap (cmd_asking c) (flags c) (btype c)
    (repl_ack_time c) (pending_querybuf c) (reploff c) (read_reploff c) (errors c).
Definition set_cmd_flags (c : client) (asking : bool) (f : Z) : client :=
  Client (querybuf c) (qb_pos c) (reqtype c) (multibulklen c) (bulklen c) (argv c) (argv_cap c) asking f (btype c)
    (repl_ack_time c) (pending_querybuf c) (reploff c) (read_reploff c) (errors c).
Definition set_ack (c : client) (t : Z) : client :=
  Client (querybuf c) (qb_pos c) (reqtype c) (multibulklen c) (bulklen c) (argv c) (argv_cap c) (cmd_asking c) (flags c)
    (btype c) t (pending_querybuf c) (reploff c) (read_reploff c) (errors c).
Definition set_repl (c : client) (p : list Z) (off roff : Z) : client :=
  Client (querybuf c) (qb_pos c) (reqtype c) (multibulklen c) (bulklen c) (argv c) (argv_cap c) (cmd_asking c) (flags c)
    (btype c) (repl_ack_time c) p off roff (errors c).
Definition add_error (c : client) (e : proto_error) : client :=
  Client (querybuf c) (qb_pos c) (reqtype c) (multibulklen c) (bulklen c) (argv c) (argv_cap c) (cmd_asking c) (flags c)
    (btype c) (repl_ack_time c) (pending_querybuf c) (reploff c) (read_reploff c) (errors c ++ [e]).

Definition has (c : client) (flag : Z) : bool := Z.testbit (flags c) flag.
#[global] Arguments has : simpl never.

(** What the rest of the server provides. [processCommand] returns C_OK or
    C_ERR and whether the client still exists ([server.current_client] is not
    NULL). *)
Class Server (S : Type) := {
  unixtime : S → Z;
  proto_max_bulk_len : S → Z;
  client_max_querybuf_len : S → Z;
  lua_timedout : S → bool;
  clientsArePaused : S → S * bool;
  processCommand : S → client → S * client * Z * bool
}.

(** [addReplyError] and [setProtocolError]. *)
Definition setProtocolError (c : client) (e : proto_error) : client :=
  let c := add_error c e in
  set_cmd_flags c (cmd_asking c) (Z.setbit (flags c) CLIENT_CLOSE_AFTER_REPLY).

(** [strchr] of a character other than NUL. *)
Fixpoint strchr (l : list Z) (ch : Z) : option nat :=
  match l with
  | [] => None
  | x :: l' => if x =? ch then Some O else if x =? 0 then None else S <$> strchr l' ch
  end.

(** What is not processed yet. *)
Definition pending (c : client) : list Z := drop (qb_pos c) (querybuf c).

Definition freeClientArgv (c : client) : client := set_cmd_flags (set_argv c [] (argv_cap c)) false (flags c).

Definition resetClient (c : client) : client :=
  let prev_asking := cmd_asking c in
  let c := freeClientArgv c in
  let c := set_req c 0 0 (-1) in
  let f := flags c in
  let f := if negb (Z.testbit f CLIENT_MULTI) && negb prev_asking then Z.clearbit f CLIENT_ASKING else f in
  let f := Z.clearbit f CLIENT_REPLY_SKIP in
  let f := if Z.testbit f CLIENT_REPLY_SKIP_NEXT
           then Z.clearbit (Z.setbit f CLIENT_REPLY_SKIP) CLIENT_REPLY_SKIP_NEXT else f in
  set_cmd_flags c (cmd_asking c) f.

Section networking.
Context {S : Type} {srv : Server S}.

Definition processInlineBuffer (s : S) (c : client) : option (client * Z) :=
  let q := pending c in
  match strchr q 10 with
  | None =>
      if PROTO_INLINE_MAX_SIZE <? Z.of_nat (length q)
      then Some (setProtocolError c TooBigInline, C_ERR) else Some (c, C_ERR)
  | Some newline =>
      let '(querylen, linefeed_chars) :=
        if negb (Nat.eqb newline 0) && (nth (newline - 1) q 0 =? 13) then (newline - 1, 2)%nat else (newline, 1%nat) in
      r ← sdssplitargs (take querylen q);
      match r with
      | None => Some (setProtocolError c UnbalancedQuotes, C_ERR)
      | Some args =>
          let c := if Nat.eqb querylen 0 && has c CLIENT_SLAVE then set_ack c (unixtime s) else c in
          let c := set_qb c (querybuf c) (qb_pos c + (querylen + linefeed_chars)) in
          let cap := match args with [] => argv_cap c | _ => Z.of_nat (length args) end in
          Some (set_argv c (filter (λ a, a ≠ []) args) cap, C_OK)
      end
  end.

(** The multi bulk length, when it is not known. [Some rc] returns. *)
Definition read_multibulklen (c : client) : option (client * option Z) :=
  if negb (multibulklen c =? 0) then Some (c, None) else
  if negb (Nat.eqb (length (argv c)) 0) then None else
  let q := pending c in
  match strchr q 13 with
  | None =>
      if PROTO_INLINE_MAX_SIZE <? Z.of_nat (length q)
      then Some (setProtocolError c TooBigMbulkCount, Some C_ERR) else Some (c, Some C_ERR)
  | Some newline =>
      if Z.of_nat (length q) - 2 <? Z.of_nat newline then Some (c, Some C_ERR) else
      if negb (nth 0 q 0 =? 42) then None else
      match string2ll (take (newline - 1) (drop 1 q)) with
      | None => Some (setProtocolError c InvalidMbulkLength, Some C_ERR)
      | Some ll =>
          if 1024 * 1024 <? ll then Some (setProtocolError c InvalidMbulkLength, Some C_ERR) else
          let c := set_qb c (querybuf c) (qb_pos c + newline + 2) in
          if ll <=? 0 then Some (c, Some C_OK) else
          Some (set_argv (set_req c (reqtype c) ll (bulklen c)) (argv c) ll, None)
      end
  end.

(** The bulk length, when it is not known: [inl false] breaks the loop, [inl
    true] returns C_ERR. *)
Definition read_bulklen (s : S) (c : client) : client * option bool :=
  if negb (bulklen c =? -1) then (c, None) else
  let q := pending c in
  match strchr q 13 with
  | None =>
      if PROTO_INLINE_MAX_SIZE <? Z.of_nat (length q)
      then (setProtocolError c TooBigBulkCount, Some true) else (c, Some false)
  | Some newline =>
      if Z.of_nat (length q) - 2 <? Z.of_nat newline then (c, Some false) else
      if negb (nth 0 q 0 =? 36) then (setProtocolError c (ExpectedDollar (nth 0 q 0)), Some true) else
      match string2ll (take (newline - 1) (drop 1 q)) with
      | None => (setProtocolError c InvalidBulkLength, Some true)
      | Some ll =>
          if (ll <? 0) || (proto_max_bulk_len s <? ll) then (setProtocolError c InvalidBulkLength, Some true) else
          let c := set_qb c (querybuf c) (qb_pos c + newline + 2) in
          let c := if (PROTO_MBULK_BIG_ARG <=? ll) && (Z.of_nat (length (pending c)) <=? ll + 2)
                   then set_qb c (pending c) 0 else c in
          (set_req c (reqtype c) (multibulklen c) ll, None)
      end
  end.

(** The bulk argument, when it is complete. *)
Definition read_bulk (c : client) : option (client * bool) :=
  if Z.of_nat (length (pending c)) <? bulklen c + 2 then Some (c, false) else
  if argv_cap c <=? Z.of_nat (length (argv c)) then None else
  let n := Z.to_nat (bulklen c) in
  let c :=
    if Nat.eqb (qb_pos c) 0 && (PROTO_MBULK_BIG_ARG <=? bulklen c) && (Z.of_nat (length (querybuf c)) =? bulklen c + 2)
    then set_qb (set_argv c (argv c ++ [take n (querybuf c)]) (argv_cap c)) [] 0
    else set_qb (set_argv c (argv c ++ [take n (pending c)]) (argv_cap c)) (querybuf c) (qb_pos c + n + 2) in
  Some (set_req c (reqtype c) (multibulklen c - 1) (-1), true).

(** [while(c->multibulklen)]; every iteration that does not leave the loop reads one argument. *)
Fixpoint bulk_loop (fuel : nat) (s : S) (c : client) : option (client * bool) :=
  if multibulklen c =? 0 then Some (c, false) else
  match fuel with
  | O => None
  | Datatypes.S f =>
      match read_bulklen s c with
      | (c, Some err) => Some (c, err)
      | (c, None) =>
          '(c, go) ← read_bulk c;
          if go : bool then bulk_loop f s c else Some (c, false)
      end
  end.

Definition processMultibulkBuffer (s : S) (c : client) : option (client * Z) :=
  '(c, ret) ← read_multibulklen c;
  match ret with
  | Some rc => Some (c, rc)
  | None =>
      if multibulklen c <=? 0 then None else
      '(c, err) ← bulk_loop (Z.to_nat (multibulklen c)) s c;
      if err : bool then Some (c, C_ERR) else
      if multibulklen c =? 0 then Some (c, C_OK) else Some (c, C_ERR)
  end.

(** The checks at the start of an iteration: leave the loop? *)
Definition must_break (s : S) (c : client) : S * bool :=
  let '(s, paused) := if has c CLIENT_SLAVE then (s, false) else clientsArePaused s in
  (s, paused || has c CLIENT_BLOCKED || (lua_timedout s && has c CLIENT_MASTER)
      || has c CLIENT_CLOSE_AFTER_REPLY || has c CLIENT_CLOSE_ASAP).

Definition parse_request (s : S) (c : client) : option (client * Z) :=
  let c := if reqtype c =? 0
           then set_req c (if nth 0 (pending c) 0 =? 42 then PROTO_REQ_MULTIBULK else PROTO_REQ_INLINE) (multibulklen c) (bulklen c)
           else c in
  if reqtype c =? PROTO_REQ_INLINE then processInlineBuffer s c
  else if reqtype c =? PROTO_REQ_MULTIBULK then processMultibulkBuffer s c
  else None.

(** The command was executed. *)
Definition command_done (c : client) : client :=
  let c := if has c CLIENT_MASTER && negb (has c CLIENT_MULTI)
           then set_repl c (pending_querybuf c) (read_reploff c - Z.of_nat (length (querybuf c)) + Z.of_nat (qb_pos c))
                  (read_reploff c)
           else c in
  if negb (has c CLIENT_BLOCKED) || negb (btype c =? BLOCKED_MODULE) then resetClient c else c.

(** A request is complete; the last component is whether the client exists. *)
Definition run_request (s : S) (c : client) : S * client * bool :=
  match argv c with
  | [] => (s, resetClient c, true)
  | _ =>
      let '(s, c, rc, alive) := processCommand s c in
      (s, if rc =? C_OK then command_done c else c, alive)
  end.

(** [while(c->qb_pos < sdslen(c->querybuf))] *)
Fixpoint input_loop (fuel : nat) (s : S) (c : client) : option (S * client * bool) :=
  if Nat.leb (length (querybuf c)) (qb_pos c) then Some (s, c, true) else
  match fuel with
  | O => None
  | Datatypes.S f =>
      let '(s, brk) := must_break s c in
      if brk then Some (s, c, true) else
      '(c, rc) ← parse_request s c;
      if negb (rc =? C_OK) then Some (s, c, true) else
      let '(s, c, alive) := run_request s c in
      if alive then input_loop f s c else Some (s, c, false)
  end.

Definition processInputBuffer (s : S) (c : client) : option (S * client * bool) :=
  '(s, c, alive) ← input_loop (length (querybuf c)) s c;
  if alive : bool then Some (s, set_qb c (pending c) 0, true) else Some (s, c, false).

(** The last component: what is fed to the slaves. *)
Definition processInputBufferAndReplicate (s : S) (c : client) : option (S * client * bool * list Z) :=
  if negb (has c CLIENT_MASTER) then
    '(s, c, alive) ← processInputBuffer s c; Some (s, c, alive, [])
  else
    let prev_offset := reploff c in
    '(s, c, alive) ← processInputBuffer s c;
    if negb alive then None else
    let applied := u64 (reploff c - prev_offset) in
    if applied =? 0 then Some (s, c, true, []) else
    if Z.of_nat (length (pending_querybuf c)) <? applied then None else
    Some (s, set_repl c (drop (Z.to_nat applied) (pending_querybuf c)) (reploff c) (read_reploff c), true,
          take (Z.to_nat applied) (pending_querybuf c)).

(** The number of bytes to ask for. *)
Definition readlen (c : client) : Z :=
  if (reqtype c =? PROTO_REQ_MULTIBULK) && negb (multibulklen c =? 0) && negb (bulklen c =? -1)
     && (PROTO_MBULK_BIG_ARG <=? bulklen c)
  then let remaining := bulklen c + 2 - Z.of_nat (length (querybuf c)) in
       if (0 <? remaining) && (remaining <? PROTO_IOBUF_LEN) then remaining else PROTO_IOBUF_LEN
  else PROTO_IOBUF_LEN.

(** The result of [read]. The theorems hold for pieces of any size. *)
Inductive read_result := Again | ReadError | Closed | Data (bs : list Z).

(** The client is [None] when it is freed. *)
Definition readQueryFromClient (s : S) (c : client) (r : read_result) : option (S * option client * list Z) :=
  match r with
  | Again => Some (s, Some c, [])
  | ReadError | Closed => Some (s, None, [])
  | Data bs =>
      let n := Z.of_nat (length bs) in
      let c := if has c CLIENT_MASTER
               then set_repl c (pending_querybuf c ++ bs) (reploff c) (read_reploff c + n) else c in
      let c := set_qb c (querybuf c ++ bs) (qb_pos c) in
      if client_max_querybuf_len s <? Z.of_nat (length (querybuf c)) then Some (s, None, []) else
      '(s, c, alive, feed) ← processInputBufferAndReplicate s c;
      Some (s, if alive : bool then Some c else None, feed)
  end.

(** A client and what its connection delivers, until it is freed. *)
Fixpoint serve (s : S) (c : client) (rs : list read_result) : option (S * option client * list Z) :=
  match rs with
  | [] => Some (s, Some c, [])
  | r :: rs =>
      '(s, oc, feed) ← readQueryFromClient s c r;
      match oc with
      | None => Some (s, None, feed)
      | Some c => '(s, oc, feed') ← serve s c rs; Some (s, oc, feed ++ feed')
      end
  end.

End networking.


(** ** The invariant of a client between two reads *)

(** What the loop relies on when it calls [processCommand]: the command leaves
    the fields of the parser and of the replication stream alone, an error
    means that the connection is being closed, and a master is not freed. *)
Class ServerLaws (S : Type) {srv : Server S} := {
  pc_frame s c s' c' rc alive : processCommand s c = (s', c', rc, alive) →
    querybuf c' = querybuf c ∧ qb_pos c' = qb_pos c ∧ pending_querybuf c' = pending_querybuf c ∧
    reploff c' = reploff c ∧ read_reploff c' = read_reploff c ∧ has c' CLIENT_MASTER = has c CLIENT_MASTER;
  pc_error s c s' c' rc alive : processCommand s c = (s', c', rc, alive) → rc ≠ C_OK →
    has c' CLIENT_CLOSE_AFTER_REPLY || has c' CLIENT_CLOSE_ASAP = true;
  pc_master s c s' c' rc alive : processCommand s c = (s', c', rc, alive) → has c CLIENT_MASTER = true → alive = true
}.

Definition closing (c : client) : bool := has c CLIENT_CLOSE_AFTER_REPLY || has c CLIENT_CLOSE_ASAP.

(** No request is parsed: the client is closed after its reply, or a module
    will unblock it. *)
Definition stuck (c : client) : bool := closing c || (has c CLIENT_BLOCKED && (btype c =? BLOCKED_MODULE)).

Definition idle (c : client) : Prop := multibulklen c = 0 ∧ bulklen c = -1 ∧ argv c = [].

(** The client waits for the rest of a request. *)
Definition reading (c : client) : Prop :=
  (idle c ∧ (reqtype c = 0 ∨ reqtype c = PROTO_REQ_INLINE ∨ (reqtype c = PROTO_REQ_MULTIBULK ∧ nth 0 (pending c) 0 = 42))) ∨
  (reqtype c = PROTO_REQ_MULTIBULK ∧ 0 < multibulklen c ∧ -1 ≤ bulklen c ∧
   Z.of_nat (length (argv c)) + multibulklen c ≤ argv_cap c).

(** The part of the replication stream that is not forwarded yet ends with what is not parsed yet. *)
Definition repl_ok (c : client) : Prop := has c CLIENT_MASTER = true →
  read_reploff c - reploff c = Z.of_nat (length (pending_querybuf c)) ∧ pending c `suffix_of` pending_querybuf c.

Definition client_ok (c : client) : Prop :=
  (qb_pos c ≤ length (querybuf c))%nat ∧ (stuck c = true ∨ reading c) ∧ repl_ok c.

(** What parsing does not touch; [pending] becomes shorter. *)
Record parsed (c c' : client) : Prop := Parsed {
  parsed_pos : (qb_pos c' ≤ length (querybuf c'))%nat;
  parsed_suffix : pending c' `suffix_of` pending c;
  parsed_repl : pending_querybuf c' = pending_querybuf c ∧ reploff c' = reploff c ∧ read_reploff c' = read_reploff c;
  parsed_btype : btype c' = btype c;
  parsed_has f : f ≠ CLIENT_CLOSE_AFTER_REPLY → has c' f = has c f
}.

Lemma parsed_refl c : (qb_pos c ≤ length (querybuf c))%nat → parsed c c.
Proof. done. Qed.

Lemma parsed_trans c1 c2 c3 : parsed c1 c2 → parsed c2 c3 → parsed c1 c3.
Proof.
  intros [H1 H2 (H3 & H4 & H5) H6 H7] [G1 G2 (G3 & G4 & G5) G6 G7]. split; [done|by etrans|split_and!; congruence|congruence|].
  intros f Hf. by rewrite G7, H7.
Qed.

Lemma length_pending c : length (pending c) = (length (querybuf c) - qb_pos c)%nat.
Proof. unfold pending. by rewrite length_drop. Qed.

Lemma pending_advance c n : pending (set_qb c (querybuf c) (qb_pos c + n)) = drop n (pending c).
Proof. unfold pending. simpl. by rewrite drop_drop. Qed.

Lemma parsed_advance c n : (qb_pos c ≤ length (querybuf c))%nat → (n ≤ length (pending c))%nat →
  parsed c (set_qb c (querybuf c) (qb_pos c + n)).
Proof.
  intros Hp Hn. rewrite length_pending in Hn. split; simpl; [lia| |done|done|done]. rewrite pending_advance. apply suffix_drop.
Qed.

Lemma has_error c e f : has (setProtocolError c e) f = if f =? CLIENT_CLOSE_AFTER_REPLY then true else has c f.
Proof.
  unfold has, setProtocolError, CLIENT_CLOSE_AFTER_REPLY. simpl. destruct (Z.eqb_spec f 6) as [->|]; [by apply Z.setbit_eq|].
  apply Z.setbit_neq; [done|]. congruence.
Qed.

Lemma parsed_error c c' e : parsed c c' → parsed c (setProtocolError c' e).
Proof.
  intros [H1 H2 H3 H4 H5]. split; [done|done|done|done|]. intros f Hf. rewrite has_error, (proj2 (Z.eqb_neq _ _)) by done. auto.
Qed.

Lemma error_stuck c e : stuck (setProtocolError c e) = true.
Proof. unfold stuck, closing. by rewrite has_error. Qed.

Lemma strchr_Some l ch n : strchr l ch = Some n → l !! n = Some ch ∧ (n < length l)%nat.
Proof.
  revert n. induction l as [|x l IH]; intros n; simpl; [done|]. destruct (Z.eqb_spec x ch) as [->|]; [intros [= <-]; split; [done|lia]|].
  destruct (x =? 0); [done|]. destruct (strchr l ch) as [m|]; simpl; [|done]. intros [= <-]. destruct (IH m eq_refl). split; [done|lia].
Qed.

Lemma splitargs_total line : ∃ r, sdssplitargs line = Some r.
Proof. unfold sdssplitargs. apply args_loop_total; [apply cstr_nz|lia]. Qed.

(** The outcome of parsing: a request and progress, or a client that waits or is being closed. *)
Definition parse_post (c c' : client) (rc : Z) : Prop :=
  parsed c c' ∧ ((rc = C_OK ∧ (length (pending c') < length (pending c))%nat) ∨ (rc = C_ERR ∧ (stuck c' = true ∨ reading c'))).

Section safety.
Context {S : Type} {srv : Server S}.

Lemma inline_safe (s : S) c : (qb_pos c ≤ length (querybuf c))%nat → idle c → reqtype c = PROTO_REQ_INLINE →
  ∃ c' rc, processInlineBuffer s c = Some (c', rc) ∧ parse_post c c' rc.
Proof.
  intros Hp Hi Hr. unfold processInlineBuffer. destruct (strchr (pending c) 10) as [nl|] eqn:En.
  - apply strchr_Some in En as [_ Hnl].
    assert (∃ ql lf, (if negb (Nat.eqb nl 0) && (nth (nl - 1) (pending c) 0 =? 13) then (nl - 1, 2)%nat else (nl, 1%nat)) = (ql, lf) ∧
      (ql + lf = nl + 1)%nat) as (ql & lf & -> & Hq).
    { destruct (Nat.eqb_spec nl 0); simpl; [eexists _, _; split; [done|lia]|].
      case_match; eexists _, _; (split; [done|lia]). }
    destruct (splitargs_total (take ql (pending c))) as [[args|] ->]; cbn [mbind option_bind].
    + eexists _, _. split; [done|]. set (c1 := if _ && _ then _ else c).
      assert (pending c1 = pending c ∧ parsed c c1) as [Ep Hc1] by (unfold c1; case_match; by split).
      assert (qb_pos c1 = qb_pos c ∧ querybuf c1 = querybuf c) as [E1 E2] by (unfold c1; by case_match).
      pose proof (parsed_advance c1 (ql + lf)) as Ha. rewrite Ep in Ha.
      assert (parsed c (set_qb c1 (querybuf c1) (qb_pos c1 + (ql + lf)))) as Hc2.
      { eapply parsed_trans; [done|]. apply Ha; [rewrite E1, E2; lia|lia]. }
      split; [by destruct Hc2|]. left. split; [done|].
      change (length (pending (set_qb c1 (querybuf c1) (qb_pos c1 + (ql + lf)))) < length (pending c))%nat.
      rewrite pending_advance, length_drop, Ep. lia.
    + eexists _, _. split; [done|]. split; [by apply parsed_error|]. right. split; [done|]. left. apply error_stuck.
  - case_match; eexists _, _; (split; [done|]); (split; [try apply parsed_error; done|]); right; (split; [done|]).
    + left. apply error_stuck.
    + right. left. split; [done|]. auto.
Qed.

(** In the middle of a multi bulk request. *)
Definition in_bulk (c : client) : Prop :=
  reqtype c = PROTO_REQ_MULTIBULK ∧ 0 < multibulklen c ∧ -1 ≤ bulklen c ∧
  Z.of_nat (length (argv c)) + multibulklen c ≤ argv_cap c.

Definition header_post (c c' : client) (ret : option Z) : Prop :=
  match ret with Some rc => parse_post c c' rc | None => parsed c c' ∧ in_bulk c' end.

Lemma read_multibulklen_safe c : (qb_pos c ≤ length (querybuf c))%nat → pending c ≠ [] → reading c → reqtype c = PROTO_REQ_MULTIBULK →
  ∃ c' ret, read_multibulklen c = Some (c', ret) ∧ header_post c c' ret.
Proof.
  intros Hp Hne Hr Ht. unfold read_multibulklen. destruct Hr as [[(Hm & Hb & Ha) Hk]|(_ & Hm & Hb & Hc)].
  2: { rewrite (proj2 (Z.eqb_neq _ _)) by lia. eexists _, None. split; [done|]. done. }
  rewrite Hm, Ha. simpl. destruct Hk as [Hk|[Hk|[_ Hk]]]; [rewrite Ht in Hk; done..|].
  assert (reading c) as Hrd by (left; split; [done|]; auto).
  assert (∀ e, ∃ c' ret, Some (setProtocolError c e, Some C_ERR) = Some (c', ret) ∧ header_post c c' ret) as Herr.
  { intros e. eexists _, (Some _). split; [done|]. split; [by apply parsed_error|]. right. split; [done|]. left. apply error_stuck. }
  destruct (strchr (pending c) 13) as [nl|] eqn:En.
  - apply strchr_Some in En as [_ Hnl]. destruct (Z.ltb_spec (Z.of_nat (length (pending c)) - 2) (Z.of_nat nl)).
    { eexists _, (Some _). split; [done|]. split; [done|]. right. auto. }
    rewrite Hk. simpl (42 =? 42). cbv iota. simpl negb. cbv iota.
    destruct (string2ll _) as [ll|]; [|apply Herr]. destruct (Z.ltb_spec (1024 * 1024) ll); [apply Herr|].
    pose proof (parsed_advance c (nl + 2) Hp ltac:(lia)) as Hadv. rewrite <- Nat.add_assoc.
    destruct (Z.leb_spec ll 0).
    + eexists _, (Some _). split; [done|]. split; [done|]. left. split; [done|]. rewrite pending_advance, length_drop. lia.
    + eexists _, None. split; [done|]. split; [by destruct Hadv|]. unfold in_bulk. simpl. rewrite Ha. simpl. split_and!; [done|lia|lia|lia].
  - case_match; [apply Herr|]. eexists _, (Some _). split; [done|]. split; [done|]. right. auto.
Qed.

Lemma read_bulklen_safe (s : S) c : (qb_pos c ≤ length (querybuf c))%nat → in_bulk c →
  ∃ c' ret, read_bulklen s c = (c', ret) ∧ parsed c c' ∧
    match ret with
    | Some err => (err = true ∧ stuck c' = true) ∨ (err = false ∧ in_bulk c')
    | None => in_bulk c' ∧ 0 ≤ bulklen c' ∧ multibulklen c' = multibulklen c
    end.
Proof.
  intros Hp Hb. pose proof Hb as (Ht & Hm & Hl & Hc). unfold read_bulklen.
  destruct (Z.eqb_spec (bulklen c) (-1)) as [E|E]; simpl; [|eexists _, None; split_and!; try done; lia].
  assert (∀ e, ∃ c' ret, (setProtocolError c e, Some true) = (c', ret) ∧ parsed c c' ∧
    match ret with Some err => (err = true ∧ stuck c' = true) ∨ (err = false ∧ in_bulk c') | None =>
      in_bulk c' ∧ 0 ≤ bulklen c' ∧ multibulklen c' = multibulklen c end) as Herr.
  { intros e. eexists _, (Some true). split; [done|]. split; [by apply parsed_error|]. left. split; [done|]. apply error_stuck. }
  destruct (strchr (pending c) 13) as [nl|] eqn:En.
  - apply strchr_Some in En as [_ Hnl]. destruct (Z.ltb_spec (Z.of_nat (length (pending c)) - 2) (Z.of_nat nl)).
    { eexists _, (Some false). split_and!; [done..|]. by right. }
    destruct (nth 0 (pending c) 0 =? 36); simpl; [|apply Herr].
    destruct (string2ll _) as [ll|]; [|apply Herr]. destruct (Z.ltb_spec ll 0); simpl; [apply Herr|].
    destruct (proto_max_bulk_len s <? ll); [apply Herr|].
    pose proof (parsed_advance c (nl + 2) Hp ltac:(lia)) as Hadv. rewrite <- Nat.add_assoc.
    set (c1 := set_qb c _ _) in *. eexists _, None. split; [done|].
    set (c2 := if (_ : bool) then _ else c1). assert (parsed c1 c2 ∧ in_bulk c2 ∧ multibulklen c2 = multibulklen c) as (H12 & (? & ? & ? & ?) & Em).
    { unfold c2. case_match; [|by destruct Hadv]. split; [|done]. by split; simpl; [lia|..]. }
    split_and!; [by destruct (parsed_trans _ _ _ Hadv H12)| |done|done].
    split; simpl; [done|]. split_and!; [done|lia|done].
  - case_match; [apply Herr|]. eexists _, (Some false). split_and!; [done..|]. by right.
Qed.

Lemma read_bulk_safe c : (qb_pos c ≤ length (querybuf c))%nat → in_bulk c → 0 ≤ bulklen c →
  ∃ c' go, read_bulk c = Some (c', go) ∧ parsed c c' ∧
    if go : bool then (length (pending c') < length (pending c))%nat ∧ multibulklen c' = multibulklen c - 1 ∧
      (0 < multibulklen c' → in_bulk c') else in_bulk c'.
Proof.
  intros Hp (Ht & Hm & _ & Hc) Hb. unfold read_bulk. destruct (Z.ltb_spec (Z.of_nat (length (pending c))) (bulklen c + 2)).
  { eexists _, false. split_and!; [done..|]. split_and!; [done|lia|lia|done]. }
  rewrite (proj2 (Z.leb_gt _ _)) by lia. eexists _, true. split; [done|].
  set (c1 := if (_ : bool) then _ else _).
  assert (parsed c c1 ∧ (length (pending c1) < length (pending c))%nat) as [Hc1 Hlt].
  { unfold c1. case_match.
    - split; [|unfold pending at 1; simpl; lia]. split; simpl; [lia|apply suffix_nil|done|done|done].
    - rewrite <- Nat.add_assoc. pose proof (parsed_advance c (Z.to_nat (bulklen c) + 2) Hp ltac:(lia)) as Hadv. split; [by destruct Hadv|].
      change (length (pending (set_qb c (querybuf c) (qb_pos c + (Z.to_nat (bulklen c) + 2)))) < length (pending c))%nat.
      rewrite pending_advance, length_drop. lia. }
  assert (reqtype c1 = reqtype c ∧ multibulklen c1 = multibulklen c ∧ length (argv c1) = Datatypes.S (length (argv c)) ∧ argv_cap c1 = argv_cap c)
    as (E1 & E2 & E3 & E4).
  { unfold c1. case_match; simpl; rewrite length_app; simpl; split_and!; (done || lia). }
  split_and!; [by destruct Hc1|done|simpl; lia|]. intros Hpos. simpl in Hpos. split; simpl; [congruence|]. rewrite E2, E3, E4 in *. lia.
Qed.

Lemma bulk_loop_safe fuel : ∀ (s : S) c, (qb_pos c ≤ length (querybuf c))%nat → in_bulk c → multibulklen c = Z.of_nat fuel →
  ∃ c' err, bulk_loop fuel s c = Some (c', err) ∧ parsed c c' ∧
    ((err = true ∧ stuck c' = true) ∨ (err = false ∧ ((multibulklen c' = 0 ∧ (length (pending c') < length (pending c))%nat) ∨ in_bulk c'))).
Proof.
  induction fuel as [|f IH]; intros s c Hp Hb Hf; [destruct Hb as (_ & Hm & _); lia|].
  cbn [bulk_loop]. rewrite (proj2 (Z.eqb_neq _ _)) by lia.
  destruct (read_bulklen_safe s c Hp Hb) as (c1 & ret & -> & Hc1 & Hret). destruct ret as [err|].
  { exists c1, err. split_and!; [done..|]. destruct Hret as [|[-> ?]]; [by left|right; split; [done|]; by right]. }
  destruct Hret as (Hb1 & Hbl & Em). destruct (read_bulk_safe c1 (parsed_pos _ _ Hc1) Hb1 Hbl) as (c2 & go & -> & Hc2 & Hgo).
  cbn [mbind option_bind]. pose proof (parsed_trans _ _ _ Hc1 Hc2) as Hc12. destruct go; [|exists c2, false; split_and!; [done..|]; right; split; [done|]; by right].
  destruct Hgo as (Hlt & Em2 & Hb2). pose proof (suffix_length _ _ (parsed_suffix _ _ Hc1)) as Hl1.
  destruct f as [|f].
  { cbn [bulk_loop]. rewrite (proj2 (Z.eqb_eq _ _)) by lia. exists c2, false. split_and!; [done..|]. right. split; [done|]. left. lia. }
  destruct (IH s c2) as (c3 & err & -> & Hc3 & H3); [apply Hc2|apply Hb2; lia|lia|]. exists c3, err. split_and!; [done| |].
  - by eapply parsed_trans.
  - pose proof (suffix_length _ _ (parsed_suffix _ _ Hc3)). destruct H3 as [H3|[-> [H3|H3]]]; [by left|right; split; [done|]; left; lia|right; split; [done|]; by right].
Qed.

Lemma multibulk_safe (s : S) c : (qb_pos c ≤ length (querybuf c))%nat → pending c ≠ [] → reading c → reqtype c = PROTO_REQ_MULTIBULK →
  ∃ c' rc, processMultibulkBuffer s c = Some (c', rc) ∧ parse_post c c' rc.
Proof.
  intros Hp Hne Hr Ht. unfold processMultibulkBuffer.
  destruct (read_multibulklen_safe c Hp Hne Hr Ht) as (c1 & ret & -> & Hret). cbn [mbind option_bind].
  destruct ret as [rc|]; [by exists c1, rc|]. destruct Hret as [Hc1 Hb]. pose proof Hb as (_ & Hm & _).
  rewrite (proj2 (Z.leb_gt _ _)) by lia.
  destruct (bulk_loop_safe (Z.to_nat (multibulklen c1)) s c1) as (c2 & err & -> & Hc2 & Hpost); [apply Hc1|done|lia|]. cbn [mbind option_bind].
  pose proof (parsed_trans _ _ _ Hc1 Hc2) as Hc. pose proof (suffix_length _ _ (parsed_suffix _ _ Hc1)).
  destruct Hpost as [[-> Hs]|[-> [[Em Hl]|Hb2]]].
  - exists c2, C_ERR. split; [done|]. split; [done|]. right. auto.
  - rewrite Em. eexists _, _. split; [done|]. split; [done|]. left. split; [done|lia].
  - pose proof Hb2 as (_ & Hm2 & _). rewrite (proj2 (Z.eqb_neq _ _)) by lia. eexists _, _. split; [done|]. split; [done|]. right. split; [done|].
    right. by right.
Qed.
Lemma parse_request_safe (s : S) c : (qb_pos c ≤ length (querybuf c))%nat → pending c ≠ [] → reading c →
  ∃ c' rc, parse_request s c = Some (c', rc) ∧ parse_post c c' rc.
Proof.
  intros Hp Hne Hr. unfold parse_request. set (c1 := if (_ : bool) then _ else c).
  assert ((reqtype c1 = PROTO_REQ_INLINE ∧ idle c1) ∨ (reqtype c1 = PROTO_REQ_MULTIBULK ∧ reading c1)) as Hc1.
  { unfold c1. destruct (Z.eqb_spec (reqtype c) 0) as [E|E].
    - destruct Hr as [[Hi _]|(Ht & _)]; [|by rewrite E in Ht]. simpl. destruct (Z.eqb_spec (nth 0 (pending c) 0) 42); [|by left].
      right. split; [done|]. left. split; [done|]. auto.
    - destruct Hr as [[Hi Hk]|Hb]; [|right; split; [apply Hb|by right]].
      destruct Hk as [?|[?|[? ?]]]; [done|by left|]. right. split; [done|]. left. split; [done|]. auto. }
  assert (qb_pos c1 = qb_pos c ∧ querybuf c1 = querybuf c ∧ parsed c c1) as (E1 & E2 & Hpc) by (unfold c1; by case_match).
  assert (pending c1 = pending c) as E3 by (unfold pending; congruence).
  assert (∀ c' rc, parse_post c1 c' rc → parse_post c c' rc) as Hpost.
  { intros c' rc [Hc' Hrc]. split; [by eapply parsed_trans|]. by rewrite <- E3. }
  destruct Hc1 as [[Ht Hi]|[Ht Hrd]]; rewrite Ht; simpl (_ =? _); cbv iota.
  - destruct (inline_safe s c1) as (c' & rc & E & HP); [rewrite E1, E2; done|done|done|]. eauto.
  - destruct (multibulk_safe s c1) as (c' & rc & E & HP); [rewrite E1, E2; done|by rewrite E3|done|done|]. eauto.
Qed.

Lemma has_reset c f : f ≠ CLIENT_ASKING → f ≠ CLIENT_REPLY_SKIP → f ≠ CLIENT_REPLY_SKIP_NEXT → has (resetClient c) f = has c f.
Proof.
  intros H1 H2 H3. unfold has, resetClient. cbn -[Z.testbit Z.clearbit Z.setbit].
  assert (∀ x y, y ≠ f → Z.testbit (Z.clearbit x y) f = Z.testbit x f) as Hclr.
  { intros x y Hy. by apply Z.clearbit_neq. }
  assert (∀ x y, 0 ≤ y → y ≠ f → Z.testbit (Z.setbit x y) f = Z.testbit x f) as Hset.
  { intros x y H0 Hy. by apply Z.setbit_neq. }
  unfold CLIENT_ASKING, CLIENT_REPLY_SKIP, CLIENT_REPLY_SKIP_NEXT in *.
  set (b := negb _ && negb _). clearbody b. destruct b; case_match; repeat first [rewrite Hclr by congruence | rewrite Hset by (congruence || lia)]; done.
Qed.

(** The invariant inside of the loop: the offset may be ahead of what is forwarded. *)
Definition loop_ok (c : client) : Prop :=
  (qb_pos c ≤ length (querybuf c))%nat ∧ (stuck c = true ∨ reading c) ∧
  (has c CLIENT_MASTER = true → pending c `suffix_of` pending_querybuf c ∧
     read_reploff c - Z.of_nat (length (pending_querybuf c)) ≤ reploff c ≤ read_reploff c - Z.of_nat (length (pending c))).

(** What a run of the loop keeps for a master. *)
Definition same_stream (c c' : client) : Prop :=
  pending_querybuf c' = pending_querybuf c ∧ read_reploff c' = read_reploff c ∧
  has c' CLIENT_MASTER = has c CLIENT_MASTER ∧ (has c CLIENT_MASTER = true → reploff c ≤ reploff c').

Lemma same_stream_refl c : same_stream c c.
Proof. done. Qed.

Lemma same_stream_trans c1 c2 c3 : same_stream c1 c2 → same_stream c2 c3 → same_stream c1 c3.
Proof. intros (H1 & H2 & H3 & H4) (G1 & G2 & G3 & G4). unfold same_stream. rewrite H3 in G4. split_and!; [congruence..|]. intros Hm. specialize (H4 Hm). specialize (G4 Hm). lia. Qed.

Lemma parsed_loop_ok c c' : loop_ok c → parsed c c' → (stuck c' = true ∨ reading c') → loop_ok c' ∧ same_stream c c'.
Proof.
  intros (Hp & _ & Hm) [P1 P2 (P3 & P4 & P5) _ P7] Hr. pose proof (suffix_length _ _ P2). unfold loop_ok, same_stream.
  rewrite P3, P4, P5, P7 by done. split_and!; try done. intros HM. destruct (Hm HM) as [Hs Hb]. split; [by etrans|lia].
Qed.

Lemma command_done_frame c :
  qb_pos (command_done c) = qb_pos c ∧ querybuf (command_done c) = querybuf c ∧
  pending_querybuf (command_done c) = pending_querybuf c ∧ read_reploff (command_done c) = read_reploff c ∧
  has (command_done c) CLIENT_MASTER = has c CLIENT_MASTER ∧
  (reploff (command_done c) = reploff c ∨ reploff (command_done c) = read_reploff c - Z.of_nat (length (querybuf c)) + Z.of_nat (qb_pos c)) ∧
  (stuck (command_done c) = true ∨ reading (command_done c)).
Proof.
  unfold command_done. set (c1 := if (_ && _) then _ else c).
  assert (qb_pos c1 = qb_pos c ∧ querybuf c1 = querybuf c ∧ pending_querybuf c1 = pending_querybuf c ∧ read_reploff c1 = read_reploff c ∧
    (∀ f, has c1 f = has c f) ∧ btype c1 = btype c ∧
    (reploff c1 = reploff c ∨ reploff c1 = read_reploff c - Z.of_nat (length (querybuf c)) + Z.of_nat (qb_pos c))) as (E1 & E2 & E3 & E4 & E5 & E6 & E7).
  { unfold c1. case_match; split_and!; try done; [by right|by left]. }
  rewrite <- (E5 CLIENT_MASTER). destruct (negb _ || _) eqn:E.
  - rewrite has_reset by done. split_and!; try done. right. left. split; [done|]. by left.
  - split_and!; try done. left. unfold stuck. apply orb_false_iff in E as [Ea Eb]. apply negb_false_iff in Ea, Eb. rewrite Ea, Eb. apply orb_true_r.
Qed.

Context {laws : ServerLaws S}.

Lemma run_request_safe (s : S) c0 c s' c' alive : loop_ok c0 → parsed c0 c → run_request s c = (s', c', alive) →
  same_stream c0 c' ∧ (has c0 CLIENT_MASTER = true → alive = true) ∧ loop_ok c' ∧ pending c' = pending c.
Proof.
  intros (Hp & _ & Hm) [P1 P2 (P3 & P4 & P5) _ P7]. specialize (P7 CLIENT_MASTER ltac:(done)). pose proof (suffix_length _ _ P2) as Hle.
  assert (∀ c1, qb_pos c1 = qb_pos c → querybuf c1 = querybuf c → pending_querybuf c1 = pending_querybuf c → read_reploff c1 = read_reploff c →
    has c1 CLIENT_MASTER = has c CLIENT_MASTER → reploff c1 = reploff c ∨ reploff c1 = read_reploff c - Z.of_nat (length (pending c)) →
    stuck c1 = true ∨ reading c1 → same_stream c0 c1 ∧ loop_ok c1 ∧ pending c1 = pending c) as Hgen.
  { intros c1 E1 E2 E3 E4 E5 E6 Hr. assert (pending c1 = pending c) as Ep by (unfold pending; congruence).
    unfold same_stream, loop_ok. rewrite Ep, E1, E2, E3, E4, E5, P3, P5, P7. split_and!; try done.
    - intros HM. destruct (Hm HM). destruct E6; lia.
    - intros HM. destruct (Hm HM). split; [by etrans|]. destruct E6; lia. }
  assert (∀ c1, reading (resetClient c1)) as Hreset by (intros c1; left; split; [done|]; by left).
  unfold run_request. destruct (argv c) as [|a l].
  { intros [= <- <- <-]. destruct (Hgen (resetClient c)) as (? & ? & ?); try done; [by apply has_reset|by left|by right]. }
  destruct (processCommand s c) as [[[s1 c1] rc] al] eqn:Epc. intros [= <- <- <-].
  destruct (pc_frame _ _ _ _ _ _ Epc) as (F1 & F2 & F3 & F4 & F5 & F6).
  assert (has c0 CLIENT_MASTER = true → al = true) by (intros HM; apply (pc_master _ _ _ _ _ _ Epc); congruence).
  destruct (Z.eqb_spec rc C_OK) as [Erc|Erc].
  - destruct (command_done_frame c1) as (G1 & G2 & G3 & G4 & G5 & G6 & G7).
    assert (reploff (command_done c1) = reploff c ∨ reploff (command_done c1) = read_reploff c - Z.of_nat (length (pending c))) as G6'.
    { rewrite length_pending. rewrite F1, F2, F4, F5 in G6. destruct G6; [by left|right; lia]. }
    destruct (Hgen (command_done c1)) as (? & ? & ?); (congruence || done).
  - destruct (Hgen c1) as (? & ? & ?); try congruence; try done; [left; congruence|]. left. unfold stuck, closing. by rewrite (pc_error _ _ _ _ _ _ Epc Erc).
Qed.

Lemma must_break_reading (s : S) c s' : must_break s c = (s', false) → (stuck c = true ∨ reading c) → reading c.
Proof.
  unfold must_break. destruct (if has c CLIENT_SLAVE then _ else _) as [s1 paused]. intros [= <- E] [Hs|Hr]; [|done].
  exfalso. apply orb_false_iff in E as [E E4]. apply orb_false_iff in E as [E E3]. apply orb_false_iff in E as [E _].
  apply orb_false_iff in E as [_ E1]. unfold stuck, closing in Hs. rewrite E1, E3, E4 in Hs. done.
Qed.

Lemma input_loop_safe fuel : ∀ (s : S) c, loop_ok c → (length (pending c) ≤ fuel)%nat →
  ∃ s' c' alive, input_loop fuel s c = Some (s', c', alive) ∧ loop_ok c' ∧ same_stream c c' ∧
    (has c CLIENT_MASTER = true → alive = true) ∧ pending c' `suffix_of` pending c.
Proof.
  induction fuel as [|f IH]; intros s c Hok Hf; pose proof Hok as (Hp & Hr & _).
  { exists s, c, true. rewrite length_pending in Hf. split_and!; try done.
    simpl. by rewrite (proj2 (Nat.leb_le _ _)) by lia. }
  cbn [input_loop]. destruct (Nat.leb_spec (length (querybuf c)) (qb_pos c)).
  { exists s, c, true. by split_and!. }
  destruct (must_break s c) as [s1 brk] eqn:Eb. destruct brk.
  { exists s1, c, true. by split_and!. }
  assert (pending c ≠ []) as Hne by (intros E; apply (f_equal length) in E; rewrite length_pending in E; simpl in E; lia).
  destruct (parse_request_safe s1 c Hp Hne (must_break_reading _ _ _ Eb Hr)) as (c1 & rc & -> & Hc1 & Hpost). cbn [mbind option_bind].
  destruct Hpost as [[-> Hlt]|[-> Hst]]; simpl negb; cbv iota.
  - destruct (run_request s1 c1) as [[s2 c2] alive] eqn:Er.
    destruct (run_request_safe s1 c c1 s2 c2 alive Hok Hc1 Er) as (Hs2 & Ha & Hok2 & Ep). destruct alive; [|by exists s2, c2, false; rewrite Ep; destruct Hc1].
    destruct (IH s2 c2 Hok2) as (s3 & c3 & al & -> & Hok3 & Hs3 & Ha3 & Hsuf); [rewrite Ep; lia|].
    exists s3, c3, al. split_and!; try done; [by eapply same_stream_trans| |rewrite Ep in Hsuf; etrans; [done|apply Hc1]].
    intros HM. apply Ha3. destruct Hs2 as (_ & _ & -> & _). done.
  - destruct (parsed_loop_ok c c1 Hok Hc1 Hst) as [Hok1 Hs1]. exists s1, c1, true. split_and!; try done. apply Hc1.
Qed.

Lemma trim_ok c : loop_ok c → loop_ok (set_qb c (pending c) 0).
Proof. intros (Hp & Hr & Hm). split_and!; [simpl; lia|destruct Hr as [|[[]|]]; [by left|by right; left|by right; right]|done]. Qed.

Lemma suffix_drop_le {A} (a b : list A) n : a `suffix_of` b → (n + length a ≤ length b)%nat → a `suffix_of` drop n b.
Proof. intros [k ->] Hn. rewrite length_app in Hn. rewrite drop_app_le by lia. by eexists. Qed.

Lemma client_ok_loop c : client_ok c → loop_ok c.
Proof.
  intros (Hp & Hr & Hm). split_and!; try done. intros HM. destruct (Hm HM) as [E Hs]. pose proof (suffix_length _ _ Hs). split; [done|lia].
Qed.

(** A master: the fed bytes are the front of what was pending. *)
Definition fed (c c' : client) (feed : list Z) : Prop :=
  has c' CLIENT_MASTER = has c CLIENT_MASTER ∧
  (has c CLIENT_MASTER = true → pending_querybuf c = feed ++ pending_querybuf c' ∧ reploff c' = reploff c + Z.of_nat (length feed)).

Lemma replicate_safe (s : S) c : client_ok c → (has c CLIENT_MASTER = true → Z.of_nat (length (pending_querybuf c)) < 2 ^ 64) →
  ∃ s' c' alive feed, processInputBufferAndReplicate s c = Some (s', c', alive, feed) ∧ (alive = true → client_ok c') ∧ fed c c' feed.
Proof.
  intros Hok Hsmall. pose proof (client_ok_loop c Hok) as Hlo. unfold processInputBufferAndReplicate, processInputBuffer.
  destruct (input_loop_safe (length (querybuf c)) s c Hlo) as (s1 & c1 & alive & -> & Hok1 & Hs1 & Ha & Hsuf); [rewrite length_pending; lia|].
  destruct Hs1 as (E1 & E2 & E3 & E4). destruct Hok as (Hp & Hr & Hm). cbn [mbind option_bind].
  destruct (has c CLIENT_MASTER) eqn:EM; simpl negb; cbv iota.
  - rewrite Ha by done. cbn [mbind option_bind negb]. destruct (Hm EM) as [Eq Hpq]. specialize (E4 eq_refl). specialize (Hsmall eq_refl).
    pose proof (trim_ok c1 Hok1) as (T1 & T2 & T3). destruct (T3 E3) as [T4 T5]. change (pending (set_qb c1 (pending c1) 0)) with (pending c1) in T4, T5.
    simpl in T4, T5 |- *. rewrite E1, E2 in *.
    rewrite uwrap_small by (unfold in_u; lia). destruct (Z.eqb_spec (reploff c1 - reploff c) 0) as [E0|E0].
    + eexists _, _, _, _. split; [done|]. split; [|unfold fed; simpl; split; [exact (eq_trans E3 (eq_sym EM))|]; intros _; rewrite E1; split; [done|lia]].
      intros _. split_and!; [done|done|]. intros _. simpl. rewrite ?E1, ?E2. split; [lia|done].
    + rewrite (proj2 (Z.ltb_ge _ _)) by lia. eexists _, _, _, _. split; [done|].
      split; [|unfold fed; simpl; split; [exact (eq_trans E3 (eq_sym EM))|]; intros _; rewrite take_drop, length_take; split; [done|lia]].
      intros _. split_and!; [done|done|]. intros _. simpl. rewrite length_drop. split; [lia|].
      apply (suffix_drop_le (pending c1)); [done|]. lia.
  - destruct alive; cbn [mbind option_bind].
    + eexists _, _, _, _. split; [done|]. split; [|split; [exact (eq_trans E3 (eq_sym EM))|congruence]]. intros _. destruct (trim_ok c1 Hok1) as (T1 & T2 & T3). split_and!; [done|done|].
      intros HM. exfalso. assert (has c1 CLIENT_MASTER = true) by exact HM. congruence.
    + eexists _, _, _, _. split; [done|]. split; [done|]. split; [congruence|]. congruence.
Qed.

(** What a read delivers. *)
Definition data (r : read_result) : list Z := match r with Data bs => bs | _ => [] end.

Lemma read_safe (s : S) c r : client_ok c → (has c CLIENT_MASTER = true → Z.of_nat (length (pending_querybuf c ++ data r)) < 2 ^ 64) →
  ∃ s' oc feed, readQueryFromClient s c r = Some (s', oc, feed) ∧
    match oc with
    | None => True
    | Some c' => client_ok c' ∧ has c' CLIENT_MASTER = has c CLIENT_MASTER ∧ (has c CLIENT_MASTER = true →
        pending_querybuf c ++ data r = feed ++ pending_querybuf c' ∧ reploff c' = reploff c + Z.of_nat (length feed))
    end.
Proof.
  intros Hok Hsmall. unfold readQueryFromClient. destruct r as [| | |bs]; try (by eexists _, None, _).
  { eexists _, (Some _), _. split; [done|]. split_and!; try done. intros _. simpl. rewrite app_nil_r. split; [done|lia]. }
  set (c1 := if has c CLIENT_MASTER then _ else c). set (c2 := set_qb c1 _ _).
  assert (client_ok c2 ∧ pending_querybuf c2 = (if has c CLIENT_MASTER then pending_querybuf c ++ bs else pending_querybuf c) ∧
    has c2 CLIENT_MASTER = has c CLIENT_MASTER ∧ reploff c2 = reploff c) as (Hok2 & E1 & E2 & E3).
  { destruct Hok as (Hp & Hr & Hm). assert (pending c2 = pending c ++ bs) as Ep.
    { unfold c2, pending, c1. case_match; simpl; rewrite drop_app_le by done; done. }
    split_and!; [split_and!| | |].
    - unfold c2, c1. case_match; simpl; rewrite length_app; lia.
    - destruct Hr as [Hs|Hr]; [left; unfold c2, c1; by case_match|right].
      destruct Hr as [[Hi Hk]|Hr]; [left|right; unfold c2, c1; by case_match].
      split; [unfold c2, c1; by case_match|]. destruct Hk as [?|[?|[? Hk]]].
      + left. unfold c2, c1. by case_match.
      + right. left. unfold c2, c1. by case_match.
      + right. right. split; [unfold c2, c1; by case_match|]. rewrite Ep. by destruct (pending c).
    - unfold repl_ok. rewrite Ep. unfold c2, c1. unfold repl_ok in Hm. destruct (has c CLIENT_MASTER) eqn:EM; simpl; [|intros HM; exfalso; assert (has c CLIENT_MASTER = true) by exact HM; congruence].
      intros _. destruct (Hm eq_refl) as [E Hs]. rewrite length_app. split; [lia|]. destruct Hs as [k ->]. exists k. by rewrite app_assoc.
    - unfold c2, c1. by case_match.
    - unfold c2, c1. by case_match.
    - unfold c2, c1. by case_match. }
  destruct (client_max_querybuf_len s <? _); [by eexists _, None, _|].
  destruct (replicate_safe s c2 Hok2) as (s' & c' & alive & feed & -> & Ha & Hf1 & Hf2).
  { rewrite E1, E2. intros HM. rewrite HM. by apply Hsmall. }
  cbn [mbind option_bind]. destruct alive; [|by eexists _, None, _]. eexists _, (Some c'), _. split; [done|].
  split_and!; [by apply Ha|congruence|]. intros HM. rewrite E1, E2, E3, HM in Hf2. auto.
Qed.

Lemma serve_safe rs : ∀ (s : S) c, client_ok c →
  (has c CLIENT_MASTER = true → Z.of_nat (length (pending_querybuf c ++ concat (data <$> rs))) < 2 ^ 64) →
  ∃ s' oc feed, serve s c rs = Some (s', oc, feed) ∧
    match oc with
    | None => True
    | Some c' => client_ok c' ∧ has c' CLIENT_MASTER = has c CLIENT_MASTER ∧ (has c CLIENT_MASTER = true →
        pending_querybuf c ++ concat (data <$> rs) = feed ++ pending_querybuf c' ∧ reploff c' = reploff c + Z.of_nat (length feed))
    end.
Proof.
  induction rs as [|r rs IH]; intros s c Hok Hsmall.
  { eexists _, (Some c), _. split; [done|]. split_and!; try done. intros _. simpl. rewrite app_nil_r. split; [done|lia]. }
  rewrite fmap_cons in *. cbn [concat] in *. cbn [serve]. destruct (read_safe s c r Hok) as (s1 & oc & feed & -> & Hc).
  { intros HM. specialize (Hsmall HM). rewrite !length_app in *. lia. }
  cbn [mbind option_bind]. destruct oc as [c1|]; [|by eexists _, None, _]. destruct Hc as (Hok1 & EM & Hm).
  destruct (IH s1 c1 Hok1) as (s2 & oc & feed2 & -> & Hc).
  { rewrite EM. intros HM. destruct (Hm HM) as [E _]. specialize (Hsmall HM). rewrite app_assoc, E, <- app_assoc, length_app in Hsmall. lia. }
  cbn [mbind option_bind]. destruct oc as [c2|]; [|by eexists _, None, _]. destruct Hc as (Hok2 & EM2 & Hm2).
  eexists _, (Some c2), _. split; [done|]. split_and!; [done|congruence|]. intros HM. destruct (Hm HM) as [E1 E2].
  rewrite EM in Hm2. destruct (Hm2 HM) as [E3 E4]. rewrite app_assoc, E1, <- app_assoc, E3, app_assoc, length_app. split; [done|lia].
Qed.

End safety.

(** ** Requests arrive, however the bytes are cut *)

Definition CRLF : list Z := [13; 10].
Definition enc_arg (a : list Z) : list Z := 36 :: decimal (Z.of_nat (length a)) ++ CRLF ++ a ++ CRLF.
Definition enc_args (l : list (list Z)) : list Z := l ≫= enc_arg.
Definition enc_cmd (l : list (list Z)) : list Z := 42 :: decimal (Z.of_nat (length l)) ++ CRLF ++ enc_args l.
Definition enc_cmds (l : list (list (list Z))) : list Z := l ≫= enc_cmd.

(** A line [h] that is followed by CRLF, of which [q] has arrived. *)
Lemma line_cases q fut h r : q ++ fut = h ++ CRLF ++ r → Forall (λ x, x ≠ 0 ∧ x ≠ 13) h →
  (∃ q', q = h ++ CRLF ++ q' ∧ q' ++ fut = r ∧ strchr q 13 = Some (length h)) ∨
  (fut ≠ [] ∧ ((strchr q 13 = None ∧ (length q ≤ length h)%nat) ∨ (strchr q 13 = Some (length h) ∧ length q = Datatypes.S (length h)))).
Proof.
  revert h. induction q as [|x q IH]; intros h E Hh.
  { right. split; [intros ->; by destruct h|]. left. split; [done|]. simpl. lia. }
  destruct h as [|y h].
  - simpl in E. injection E as -> E. destruct q as [|z q]; simpl in E.
    + right. split; [intros ->; done|]. right. done.
    + injection E as -> E. left. exists q. done.
  - injection E as -> E. apply Forall_cons in Hh as [[H0 H13] Hh].
    simpl. rewrite (proj2 (Z.eqb_neq y 13)), (proj2 (Z.eqb_neq y 0)) by done.
    destruct (IH h E Hh) as [(q' & -> & Er & ->)|[Hf [[-> Hl]|[-> Hl]]]].
    + left. by exists q'.
    + right. split; [done|]. left. split; [done|]. lia.
    + right. split; [done|]. right. split; [done|]. lia.
Qed.

Lemma decimal_line n : 0 ≤ n → Forall (λ x, x ≠ 0 ∧ x ≠ 13) (decimal n).
Proof. intros Hn. eapply Forall_impl; [by apply decimal_digits|]. unfold is_digit. lia. Qed.

Lemma string2ll_decimal n : 0 ≤ n < 2 ^ 63 → string2ll (decimal n) = Some n.
Proof. intros Hn. apply string2ll_spec. unfold in_s, decimal_z. rewrite (proj2 (Z.ltb_ge _ _)) by lia. split; [lia|done]. Qed.

(** The line without its first character. *)
Lemma line_tail (h r : list Z) : h ≠ [] → take (length h - 1) (drop 1 (h ++ r)) = drop 1 h.
Proof.
  destruct h as [|x h]; [done|]. intros _. change (take (Datatypes.S (length h) - 1) (h ++ r) = h).
  by rewrite Nat.sub_succ, Nat.sub_0_r, take_app_length.
Qed.

(** A line with a number of elements: it is complete, or more bytes are to come. *)
Lemma number_line q fut x n r : q ++ fut = (x :: decimal n) ++ CRLF ++ r → x ≠ 0 → x ≠ 13 → 0 ≤ n < 2 ^ 63 →
  (∃ q' nl, strchr q 13 = Some nl ∧ q' ++ fut = r ∧ q' = drop (nl + 2) q ∧ Z.of_nat nl ≤ Z.of_nat (length q) - 2 ∧
    nth 0 q 0 = x ∧ string2ll (take (nl - 1) (drop 1 q)) = Some n) ∨
  (fut ≠ [] ∧ ((strchr q 13 = None ∧ Z.of_nat (length q) ≤ 21) ∨
     (∃ nl, strchr q 13 = Some nl ∧ Z.of_nat (length q) - 2 < Z.of_nat nl))).
Proof.
  intros E H0 H13 Hn. pose proof (decimal_length n). destruct (line_cases q fut (x :: decimal n) r E) as [(q' & -> & Er & Es)|[Hf Hc]].
  - constructor; [done|]. apply decimal_line. lia.
  - left. exists q', (length (x :: decimal n)). split_and!; [done|done| | |done|].
    + rewrite drop_app_add. done.
    + rewrite !length_app. simpl. lia.
    + rewrite (line_tail (x :: decimal n)) by done. by apply string2ll_decimal.
  - right. split; [done|]. destruct Hc as [[Es Hl]|[Es Hl]]; [left|right].
    + split; [done|]. simpl in Hl. lia.
    + exists (length (x :: decimal n)). split; [done|]. lia.
Qed.

(** Arguments and requests that the limits allow. *)
Definition arg_ok (maxbulk : Z) (a : list Z) : Prop := Z.of_nat (length a) ≤ maxbulk ∧ Z.of_nat (length a) < 2 ^ 63.

Definition cmd_ok (maxbulk : Z) (l : list (list Z)) : Prop :=
  l ≠ [] ∧ Z.of_nat (length l) ≤ 1024 * 1024 ∧ Forall (arg_ok maxbulk) l.

Section requests.
Context {S : Type} {srv : Server S}.

(** Parsing that succeeds leaves the flags alone. *)
Definition quietly (c c' : client) : Prop := flags c' = flags c ∧ btype c' = btype c ∧ (qb_pos c' ≤ length (querybuf c'))%nat ∧ errors c' = errors c.

Lemma read_multibulklen_line c n R fut : (qb_pos c ≤ length (querybuf c))%nat → idle c → reqtype c = PROTO_REQ_MULTIBULK →
  1 ≤ n ≤ 1024 * 1024 → pending c ++ fut = 42 :: decimal n ++ CRLF ++ R →
  (∃ c', read_multibulklen c = Some (c', None) ∧ quietly c c' ∧ in_bulk c' ∧ bulklen c' = -1 ∧ argv c' = [] ∧
     multibulklen c' = n ∧ pending c' ++ fut = R ∧ (length (pending c') < length (pending c))%nat) ∨
  (fut ≠ [] ∧ read_multibulklen c = Some (c, Some C_ERR)).
Proof.
  intros Hp (Hm & Hb & Ha) Ht Hn E. unfold read_multibulklen. rewrite Hm, Ha. simpl (negb _). cbv iota.
  destruct (number_line _ _ 42 n R E) as [(q' & nl & -> & Er & Eq & Hnl & Hx & ->)|[Hf Hc]]; try done; [lia| |].
  - left. rewrite (proj2 (Z.ltb_ge _ _)) by lia. rewrite Hx. simpl (negb _). cbv iota. rewrite (proj2 (Z.ltb_ge _ _)) by lia.
    rewrite (proj2 (Z.leb_gt _ _)) by lia. eexists. split; [done|]. rewrite <- Nat.add_assoc.
    change (pending (set_argv _ _ _)) with (pending (set_qb c (querybuf c) (qb_pos c + (nl + 2)))). rewrite pending_advance, <- Eq.
    rewrite length_pending in Hnl. split_and!; simpl; try done.
    + split_and!; simpl; (done || lia).
    + split_and!; simpl; [done|lia|lia|rewrite Ha; simpl; lia].
    + rewrite Eq, length_drop, length_pending. lia.
  - right. split; [done|]. destruct Hc as [[-> Hq]|(nl & -> & Hq)].
    + unfold PROTO_INLINE_MAX_SIZE. rewrite (proj2 (Z.ltb_ge _ _)) by lia. done.
    + by rewrite (proj2 (Z.ltb_lt _ _)) by lia.
Qed.

Lemma read_bulklen_line (s : S) c a rest k R fut : (qb_pos c ≤ length (querybuf c))%nat → in_bulk c → bulklen c = -1 →
  multibulklen c = Z.of_nat (length (a :: rest) + k) → Z.of_nat (length a) ≤ proto_max_bulk_len s → Z.of_nat (length a) < 2 ^ 63 →
  pending c ++ fut = enc_args (a :: rest) ++ R →
  (∃ c', read_bulklen s c = (c', None) ∧ quietly c c' ∧ in_bulk c' ∧ bulklen c' = Z.of_nat (length a) ∧ argv c' = argv c ∧
     multibulklen c' = multibulklen c ∧ pending c' ++ fut = a ++ CRLF ++ enc_args rest ++ R ∧
     (length (pending c') ≤ length (pending c))%nat) ∨
  (fut ≠ [] ∧ read_bulklen s c = (c, Some false)).
Proof.
  intros Hp Hb E1 Em Hmax Hl E. unfold read_bulklen. rewrite E1. simpl (negb _). cbv iota.
  assert (pending c ++ fut = (36 :: decimal (Z.of_nat (length a))) ++ CRLF ++ a ++ CRLF ++ enc_args rest ++ R) as E2.
  { rewrite E. change (enc_args (a :: rest)) with (enc_arg a ++ enc_args rest). unfold enc_arg. by rewrite <- !app_comm_cons, <- !app_assoc. }
  destruct (number_line _ _ _ _ _ E2) as [(q' & nl & -> & Er & Eq & Hnl & Hx & ->)|[Hf Hc]]; try done; [lia| |].
  - left. rewrite (proj2 (Z.ltb_ge _ _)) by lia. rewrite Hx. simpl (negb _). cbv iota.
    rewrite (proj2 (Z.ltb_ge _ 0)), (proj2 (Z.ltb_ge _ _)) by lia. simpl (_ || _). cbv iota. rewrite <- Nat.add_assoc.
    set (c1 := set_qb c _ _). assert (pending c1 = q') as Ep by (unfold c1; rewrite pending_advance; done).
    eexists. split; [done|]. set (c2 := if (_ && _) then _ else c1).
    assert (pending c2 = q' ∧ quietly c c2 ∧ in_bulk c2 ∧ argv c2 = argv c ∧ multibulklen c2 = multibulklen c) as (Ep2 & (Q1 & Q2 & Q3) & (B1 & B2 & B3 & B4) & ? & ?).
    { rewrite length_pending in Hnl. destruct Hb as (B1 & B2 & B3 & B4). unfold c2. case_match; split_and!; try done; (split_and!; simpl; (done || lia)). }
    split_and!; simpl; try done.
    + split_and!; simpl; (done || lia).
    + change (pending (set_req c2 (reqtype c2) (multibulklen c2) (Z.of_nat (length a)))) with (pending c2). by rewrite Ep2.
    + change (pending (set_req c2 (reqtype c2) (multibulklen c2) (Z.of_nat (length a)))) with (pending c2). rewrite Ep2, Eq, length_drop. lia.
  - right. split; [done|]. destruct Hc as [[-> Hq]|(nl & -> & Hq)].
    + unfold PROTO_INLINE_MAX_SIZE. rewrite (proj2 (Z.ltb_ge _ _)) by lia. done.
    + by rewrite (proj2 (Z.ltb_lt _ _)) by lia.
Qed.

Lemma read_bulk_data c a rest k R fut : (qb_pos c ≤ length (querybuf c))%nat → in_bulk c → bulklen c = Z.of_nat (length a) →
  multibulklen c = Z.of_nat (length (a :: rest) + k) → pending c ++ fut = a ++ CRLF ++ enc_args rest ++ R →
  (∃ c', read_bulk c = Some (c', true) ∧ quietly c c' ∧ ((0 < length rest + k)%nat → in_bulk c') ∧ bulklen c' = -1 ∧ argv c' = argv c ++ [a] ∧
     reqtype c' = reqtype c ∧ multibulklen c' = Z.of_nat (length rest + k) ∧ pending c' ++ fut = enc_args rest ++ R ∧
     (length (pending c') < length (pending c))%nat) ∨
  (fut ≠ [] ∧ read_bulk c = Some (c, false)).
Proof.
  intros Hp (B1 & B2 & B3 & B4) Eb Em E. unfold read_bulk. rewrite Eb. cbn [length] in Em.
  destruct (Z.ltb_spec (Z.of_nat (length (pending c))) (Z.of_nat (length a) + 2)) as [Hlt|Hge].
  { right. split; [|done]. intros ->. rewrite app_nil_r in E. rewrite E, !length_app in Hlt. simpl in Hlt. lia. }
  left. rewrite (proj2 (Z.leb_gt _ _)) by lia. rewrite Nat2Z.id.
  assert (∃ q', pending c = a ++ CRLF ++ q' ∧ q' ++ fut = enc_args rest ++ R) as (q' & Eq & Er).
  { exists (drop (length (a ++ CRLF)) (pending c)).
    rewrite app_assoc in E. apply (f_equal (drop (length (a ++ CRLF)))) in E as E'. rewrite drop_app_length in E'.
    rewrite drop_app_le in E' by (rewrite length_app; simpl; lia). split; [|done].
    apply (f_equal (take (length (a ++ CRLF)))) in E. rewrite take_app_length, take_app_le in E by (rewrite length_app; simpl; lia).
    rewrite app_assoc, <- (take_drop (length (a ++ CRLF)) (pending c)) at 1. by rewrite E. }
  eexists. split; [done|]. set (c1 := if (_ && _) then _ else _).
  assert (pending c1 = q' ∧ quietly c c1 ∧ argv c1 = argv c ++ [a] ∧ reqtype c1 = reqtype c ∧ multibulklen c1 = multibulklen c ∧ argv_cap c1 = argv_cap c)
    as (Ep & (Q1 & Q2 & Q3) & Ea & Et & Em1 & Ec).
  { unfold c1. case_match eqn:Ef.
    - apply andb_true_iff in Ef as [Ef E3]. apply andb_true_iff in Ef as [E1 _]. apply Nat.eqb_eq in E1. apply Z.eqb_eq in E3.
      assert (pending c = querybuf c) as Epq by (unfold pending; by rewrite E1). rewrite <- Epq in *.
      split_and!; simpl; try done; [|by rewrite Eq, take_app_length]. apply (f_equal length) in Eq. rewrite !length_app in Eq. simpl in Eq.
      destruct q'; [done|]. simpl in Eq. lia.
    - rewrite length_pending in Hge. split_and!; simpl; try done; [|split_and!; simpl; (done || lia)|by rewrite Eq, take_app_length].
      rewrite <- Nat.add_assoc. change (pending (set_qb _ ?b ?p)) with (pending (set_qb c b p)). rewrite pending_advance, Eq.
      rewrite app_assoc. by rewrite drop_app_length' by (rewrite length_app; done). }
  change (pending (set_req c1 _ _ _)) with (pending c1). rewrite Ep. split_and!; simpl; try done.
  - intros Hpos. split_and!; simpl multibulklen; simpl argv; [simpl; congruence|rewrite Em1, Em; lia|simpl; lia|].
    rewrite Em1, Ea, length_app. simpl argv_cap. rewrite Ec. cbn [length]. lia.
  - lia.
  - rewrite Eq, !length_app. simpl. lia.
Qed.

Lemma quietly_trans c1 c2 c3 : quietly c1 c2 → quietly c2 c3 → quietly c1 c3.
Proof. intros (? & ? & ? & ?) (? & ? & ? & ?). split_and!; (done || congruence). Qed.

(** A request of which the arguments are being read: [k] more follow the ones
    listed, and then the bytes [R] follow. *)
Inductive midway (c : client) (k : nat) (R : list Z) : list (list Z) → list Z → Prop :=
  | m_args rest : in_bulk c → bulklen c = -1 → multibulklen c = Z.of_nat (length rest + k) → midway c k R (argv c ++ rest) (enc_args rest ++ R)
  | m_bulk a rest : in_bulk c → bulklen c = Z.of_nat (length a) → multibulklen c = Z.of_nat (length (a :: rest) + k) →
      midway c k R (argv c ++ a :: rest) (a ++ CRLF ++ enc_args rest ++ R).

(** The listed arguments are read, or the client waits for more. *)
Definition args_read (fuel : nat) (s : S) (c : client) (k : nat) (R : list Z) (args : list (list Z)) (fut : list Z) : Prop :=
  (∃ c', bulk_loop fuel s c = bulk_loop k s c' ∧ quietly c c' ∧ argv c' = args ∧ bulklen c' = -1 ∧ multibulklen c' = Z.of_nat k ∧
     ((0 < k)%nat → in_bulk c') ∧ pending c' ++ fut = R ∧ (length (pending c') ≤ length (pending c))%nat ∧
     (k = O → (length (pending c') < length (pending c))%nat)) ∨
  (∃ c', bulk_loop fuel s c = Some (c', false) ∧ quietly c c' ∧ 0 < multibulklen c' ∧ fut ≠ [] ∧
     midway c' k R args (pending c' ++ fut) ∧ (length (pending c') ≤ length (pending c))%nat).

Lemma args_read_step fuel fuel' s c c1 k R args fut : bulk_loop fuel s c = bulk_loop fuel' s c1 → quietly c c1 →
  (length (pending c1) < length (pending c))%nat → args_read fuel' s c1 k R args fut → args_read fuel s c k R args fut.
Proof.
  intros E Q Hl [(c2 & E2 & Q2 & H1 & H2 & H3 & H4 & H5 & H6 & H7)|(c2 & E2 & Q2 & H1 & H2 & H3 & H4)]; [left|right]; exists c2;
    (split_and!; [congruence|by eapply quietly_trans|done..|lia]) || (split_and!; [congruence|by eapply quietly_trans|done..|lia|]; lia).
Qed.

Lemma bulk_loop_args rest : ∀ (s : S) c k R fut, (qb_pos c ≤ length (querybuf c))%nat → in_bulk c → bulklen c = -1 →
  multibulklen c = Z.of_nat (length rest + k) → Forall (arg_ok (proto_max_bulk_len s)) rest → pending c ++ fut = enc_args rest ++ R →
  args_read (length rest + k) s c k R (argv c ++ rest) fut.
Proof.
  induction rest as [|a rest IH]; intros s c k R fut Hp Hb Eb Em Hok E.
  { left. exists c. rewrite app_nil_r. split_and!; try done. intros ->. destruct Hb as (_ & Hm & _). simpl in Em. lia. }
  apply Forall_cons in Hok as [[Ha1 Ha2] Hok]. pose proof Hb as (_ & Hpos & _).
  assert (Hstep : bulk_loop (length (a :: rest) + k) s c = match read_bulklen s c with
    | (c, Some err) => Some (c, err)
    | (c, None) => '(c, go) ← read_bulk c; if go : bool then bulk_loop (length rest + k) s c else Some (c, false) end).
  { cbn [length Nat.add bulk_loop]. by rewrite (proj2 (Z.eqb_neq _ 0)) by lia. }
  destruct (read_bulklen_line s c a rest k R fut Hp Hb Eb Em Ha1 Ha2 E) as [(c1 & E0 & Q1 & Hb1 & Eb1 & Ea1 & Em1 & E1 & Hl1)|[Hf E0]]; rewrite E0 in Hstep.
  2: { right. exists c. split_and!; try done. rewrite E. by apply m_args. }
  destruct (read_bulk_data c1 a rest k R fut) as [(c2 & E2 & Q2 & Hb2 & Eb2 & Ea2 & Et2 & Em2 & E3 & Hl2)|[Hf E2]];
    [apply Q1|done|done|congruence|done| |]; rewrite E2 in Hstep; cbn [mbind option_bind] in Hstep.
  2: { right. exists c1. split_and!; try done; [apply Hb1|]. rewrite E1, <- Ea1. apply m_bulk; [done|done|congruence]. }
  destruct (decide (length rest + k = 0)%nat) as [E0'|Hne].
  - destruct rest; [|done]. destruct k; [|done]. left. exists c2. pose proof (quietly_trans _ _ _ Q1 Q2) as (? & ? & ? & ?). rewrite Ea2, Ea1. split_and!; first [done|lia].
  - eapply args_read_step; [done|by eapply quietly_trans|lia|].
    replace (argv c ++ a :: rest) with (argv c2 ++ rest) by (by rewrite Ea2, Ea1, <- app_assoc).
    apply IH; try done; [apply Q2|apply Hb2; lia].
Qed.

Lemma bulk_loop_midway (s : S) c k R args fut : (qb_pos c ≤ length (querybuf c))%nat → midway c k R args (pending c ++ fut) →
  Forall (arg_ok (proto_max_bulk_len s)) args → args_read (Z.to_nat (multibulklen c)) s c k R args fut.
Proof.
  intros Hp Hw. remember (pending c ++ fut) as P eqn:E. destruct Hw as [rest Hb Eb Em|a rest Hb Eb Em]; intros [_ Hok]%Forall_app; rewrite Em, Nat2Z.id.
  { by apply bulk_loop_args. }
  apply Forall_cons in Hok as [_ Hok]. pose proof Hb as (_ & Hpos & _).
  assert (Hstep : bulk_loop (length (a :: rest) + k) s c =
    '(c, go) ← read_bulk c; if go : bool then bulk_loop (length rest + k) s c else Some (c, false)).
  { cbn [length Nat.add bulk_loop]. rewrite (proj2 (Z.eqb_neq _ 0)) by lia. unfold read_bulklen.
    by rewrite (proj2 (Z.eqb_neq (bulklen c) (-1))) by lia. }
  destruct (read_bulk_data c a rest k R fut) as [(c2 & E2 & Q2 & Hb2 & Eb2 & Ea2 & Et2 & Em2 & E3 & Hl2)|[Hf E2]]; try done;
    rewrite E2 in Hstep; cbn [mbind option_bind] in Hstep.
  2: { right. exists c. split_and!; try done. rewrite <- E. by apply m_bulk. }
  destruct (decide (length rest + k = 0)%nat) as [E0'|Hne].
  - destruct rest; [|done]. destruct k; [|done]. left. exists c2. destruct Q2 as (? & ? & ? & ?). split_and!; first [done|lia].
  - eapply args_read_step; [done|done|lia|].
    replace (argv c ++ a :: rest) with (argv c2 ++ rest) by (by rewrite Ea2, <- app_assoc).
    apply bulk_loop_args; try done; [apply Q2|apply Hb2; lia].
Qed.

(** ** Requests that are not well formed *)

(** A line that ends with [ch] and [n] more bytes and is not acceptable, or a
    line that is too long: the error depends on how much has arrived when the
    server looks at it only if the line is longer than the limit. *)
Inductive rejected (too : proto_error) (bad : list Z → proto_error → Prop) (ch : Z) (n : nat) : list Z → proto_error → Prop :=
  | rej_line line r e : Forall (λ x, x ≠ 0 ∧ x ≠ ch) line → (n ≤ length r)%nat → bad line e → rejected too bad ch n (line ++ ch :: r) e
  | rej_slow line r e : Forall (λ x, x ≠ 0 ∧ x ≠ ch) line → (n ≤ length r)%nat → bad line e →
      PROTO_INLINE_MAX_SIZE < Z.of_nat (length line) → rejected too bad ch n (line ++ ch :: r) too
  | rej_long q : strchr q ch = None → PROTO_INLINE_MAX_SIZE < Z.of_nat (length q) → rejected too bad ch n q too.

(** The number of arguments: [*], and not a number up to 1024*1024. *)
Inductive bad_count : list Z → proto_error → Prop :=
  | not_count line : (∀ v, string2ll line = Some v → 1024 * 1024 < v) → bad_count (42 :: line) InvalidMbulkLength.

(** The length of an argument: [$], and not a number from 0 to [maxlen]. *)
Inductive bad_length (maxlen : Z) : list Z → proto_error → Prop :=
  | no_dollar x h line : line ++ [13] = x :: h → x ≠ 36 → bad_length maxlen line (ExpectedDollar x)
  | not_length line : (∀ v, string2ll line = Some v → v < 0 ∨ maxlen < v) → bad_length maxlen (36 :: line) InvalidBulkLength.

(** An inline request; the line may end with CR. *)
Inductive bad_quotes : list Z → proto_error → Prop :=
  | unbalanced line : last line ≠ Some 13 → sdssplitargs line = Some None → bad_quotes line UnbalancedQuotes
  | unbalanced_cr line : sdssplitargs line = Some None → bad_quotes (line ++ [13]) UnbalancedQuotes.

(** The start of a request with [n] arguments. *)
Definition enc_head (n : nat) : list Z := 42 :: decimal (Z.of_nat n) ++ CRLF.

(** The request and the error that answers it: the inline request, the count
    or, after any number of arguments, the length of the next one is wrong. *)
Inductive bad_request (maxlen : Z) : list Z → proto_error → Prop :=
  | bad_inline T e : nth 0 T 0 ≠ 42 → rejected TooBigInline bad_quotes 10 0 T e → bad_request maxlen T e
  | bad_header T e : nth 0 T 0 = 42 → rejected TooBigMbulkCount bad_count 13 1 T e → bad_request maxlen T e
  | bad_argument args k U e : Forall (arg_ok maxlen) args → (0 < k)%nat → Z.of_nat (length args + k) ≤ 1024 * 1024 →
      rejected TooBigBulkCount (bad_length maxlen) 13 1 U e → bad_request maxlen (enc_head (length args + k) ++ enc_args args ++ U) e.

Lemma strchr_line h r ch : Forall (λ x, x ≠ 0 ∧ x ≠ ch) h → strchr (h ++ ch :: r) ch = Some (length h).
Proof.
  induction 1 as [|x h [H0 Hc] _ IH]; simpl; [by rewrite Z.eqb_refl|].
  by rewrite (proj2 (Z.eqb_neq x ch)), (proj2 (Z.eqb_neq x 0)), IH by done.
Qed.

Lemma strchr_prefix q fut ch : strchr (q ++ fut) ch = None → strchr q ch = None.
Proof. induction q as [|x q IH]; simpl; [done|]. case_match; [done|]. case_match; [done|]. intros E%fmap_None. by rewrite IH. Qed.

(** The line, of which [q] has arrived. *)
Lemma line_split q fut h ch r : q ++ fut = h ++ ch :: r → Forall (λ x, x ≠ 0 ∧ x ≠ ch) h →
  (∃ q', q = h ++ ch :: q' ∧ q' ++ fut = r) ∨ (strchr q ch = None ∧ (length q ≤ length h)%nat ∧ fut ≠ []).
Proof.
  revert h. induction q as [|x q IH]; intros h E Hh.
  { right. split_and!; [done|simpl; lia|]. intros ->. by destruct h. }
  destruct h as [|y h]; injection E as -> E; [by left; exists q|]. apply Forall_cons in Hh as [[H0 Hc] Hh].
  destruct (IH h E Hh) as [(q' & -> & Er)|(Es & Hl & Hf)]; [left; by exists q'|right]. simpl.
  rewrite (proj2 (Z.eqb_neq y ch)), (proj2 (Z.eqb_neq y 0)), Es by done. split_and!; [done|lia|done].
Qed.

(** What the server sees of a line that is not acceptable. *)
Lemma rejected_cases too bad ch n U e0 q fut : rejected too bad ch n U e0 → q ++ fut = U →
  (strchr q ch = None ∧ ((PROTO_INLINE_MAX_SIZE < Z.of_nat (length q) ∧ rejected too bad ch n U too) ∨
     (Z.of_nat (length q) ≤ PROTO_INLINE_MAX_SIZE ∧ fut ≠ []))) ∨
  (∃ line r, q = line ++ ch :: r ∧ Forall (λ x, x ≠ 0 ∧ x ≠ ch) line ∧
     (((length r < n)%nat ∧ fut ≠ []) ∨ ((n ≤ length r)%nat ∧ ∃ e, bad line e ∧ rejected too bad ch n U e))).
Proof.
  intros Hrej E. assert ((∃ line r e, U = line ++ ch :: r ∧ Forall (λ x, x ≠ 0 ∧ x ≠ ch) line ∧ (n ≤ length r)%nat ∧ bad line e) ∨
    (strchr U ch = None ∧ PROTO_INLINE_MAX_SIZE < Z.of_nat (length U))) as Hcase.
  { destruct Hrej as [line r e H1 H2 H3|line r e H1 H2 H3 H4|q' H1 H2]; [left; by exists line, r, e|left; by exists line, r, e|by right]. }
  destruct Hcase as [(line & r & e & -> & Hl & Hr & Hb)|[Hs Hlong]].
  - destruct (line_split _ _ _ _ _ E Hl) as [(q' & -> & <-)|(Es & Hle & Hf)].
    + right. exists line, q'. split_and!; [done|done|]. destruct (decide (n ≤ length q')%nat) as [Hn|Hn].
      * right. split; [done|]. exists e. split; [done|]. by apply rej_line.
      * left. split; [lia|]. intros ->. rewrite app_nil_r in Hr. lia.
    + left. split; [done|]. destruct (decide (PROTO_INLINE_MAX_SIZE < Z.of_nat (length q))) as [Hlt|Hge]; [left|right; split; [lia|done]].
      split; [done|]. apply (rej_slow _ _ _ _ line r e); try done. lia.
  - subst U. left. split; [by eapply strchr_prefix|]. destruct (decide (PROTO_INLINE_MAX_SIZE < Z.of_nat (length q))) as [Hlt|Hge]; [left|right].
    + split; [done|]. by apply rej_long.
    + split; [lia|]. intros ->. rewrite app_nil_r in Hlong. lia.
Qed.

Lemma rejected_nonempty too bad ch n U e : rejected too bad ch n U e → U ≠ [].
Proof. destruct 1 as [line r|line r|q _ Hl]; [by destruct line..|]. intros ->. by unfold PROTO_INLINE_MAX_SIZE in Hl. Qed.

Lemma bad_request_nonempty m T e : bad_request m T e → T ≠ [].
Proof. destruct 1 as [T e _ H|T e _ H|]; [by eapply rejected_nonempty..|done]. Qed.

(** ** What the client waits for *)

Definition kind (x : Z) : Z := if x =? 42 then PROTO_REQ_MULTIBULK else PROTO_REQ_INLINE.

(** The requests still to come, followed by [T], and the bytes of them: the
    client is between two requests, inside one of the requests, or inside [T]. *)
Inductive waiting (maxlen : Z) (T : list Z) (c : client) : list (list (list Z)) → list Z → Prop :=
  | w_start cmds : idle c → reqtype c = 0 ∨ reqtype c = kind (nth 0 (enc_cmds cmds ++ T) 0) → waiting maxlen T c cmds (enc_cmds cmds ++ T)
  | w_cmd cmd more R : midway c 0 (enc_cmds more ++ T) cmd R → waiting maxlen T c (cmd :: more) R
  | w_bad args k U e R : midway c k U args R → T = enc_head (length args + k) ++ enc_args args ++ U → Forall (arg_ok maxlen) args → (0 < k)%nat →
      Z.of_nat (length args + k) ≤ 1024 * 1024 → rejected TooBigBulkCount (bad_length maxlen) 13 1 U e → waiting maxlen T c [] R.

Definition waits (T : list Z) (maxlen : Z) (c c' : client) (cmds : list (list (list Z))) (fut : list Z) : Prop :=
  quietly c c' ∧ fut ≠ [] ∧ waiting maxlen T c' cmds (pending c' ++ fut) ∧ (length (pending c') ≤ length (pending c))%nat.

Lemma midway_args_ok c k R args P : midway c k R args P → 0 < multibulklen c ∧ reqtype c = PROTO_REQ_MULTIBULK.
Proof. destruct 1 as [rest (H1 & H2 & _)|a rest (H1 & H2 & _)]; done. Qed.

(** The loop over the arguments, when their number is known. *)
Definition read_args (s : S) (c : client) : option (client * Z) :=
  if multibulklen c <=? 0 then None else
  '(c, err) ← bulk_loop (Z.to_nat (multibulklen c)) s c;
  if err : bool then Some (c, C_ERR) else if multibulklen c =? 0 then Some (c, C_OK) else Some (c, C_ERR).

Lemma parse_midway s c k R args P : midway c k R args P → parse_request s c = read_args s c.
Proof.
  intros [Hm Et]%midway_args_ok. unfold parse_request, processMultibulkBuffer, read_multibulklen. rewrite Et. simpl (_ =? _). cbv iota. rewrite Et.
  simpl (_ =? _). cbv iota. by rewrite (proj2 (Z.eqb_neq _ 0)) by lia.
Qed.

(** Reading the arguments of a well-formed request. *)
Lemma read_args_cmd s c T maxlen cmd more fut : (qb_pos c ≤ length (querybuf c))%nat → midway c 0 (enc_cmds more ++ T) cmd (pending c ++ fut) →
  Forall (arg_ok (proto_max_bulk_len s)) cmd →
  (∃ c', read_args s c = Some (c', C_OK) ∧ quietly c c' ∧ argv c' = cmd ∧ pending c' ++ fut = enc_cmds more ++ T ∧
     (length (pending c') < length (pending c))%nat) ∨
  (∃ c', read_args s c = Some (c', C_ERR) ∧ waits T maxlen c c' (cmd :: more) fut).
Proof.
  intros Hp Hmid Hok. pose proof (midway_args_ok _ _ _ _ _ Hmid) as [Hm _]. unfold read_args. rewrite (proj2 (Z.leb_gt _ _)) by done.
  destruct (bulk_loop_midway s c _ _ _ _ Hp Hmid Hok) as [(c' & -> & Q & Ea & Eb & Em & _ & E & _ & Hl)|(c' & -> & Q & Hm' & Hf & Hw & Hl)]; cbn [mbind option_bind bulk_loop].
  - left. exists c'. rewrite Em. simpl (_ =? _). cbv iota. cbn [mbind option_bind]. rewrite Em. by split_and!; auto; apply Q.
  - right. exists c'. rewrite (proj2 (Z.eqb_neq _ 0)) by lia. split; [done|]. split_and!; auto; [apply Q..|]. by apply w_cmd.
Qed.

(** The line that should have the length of the next argument. *)
Lemma read_bulklen_bad s c U e0 fut maxlen : bulklen c = -1 → maxlen = proto_max_bulk_len s → rejected TooBigBulkCount (bad_length maxlen) 13 1 U e0 →
  pending c ++ fut = U → (∃ e, read_bulklen s c = (setProtocolError c e, Some true) ∧ rejected TooBigBulkCount (bad_length maxlen) 13 1 U e) ∨
  (read_bulklen s c = (c, Some false) ∧ fut ≠ []).
Proof.
  intros Eb -> Hrej E. unfold read_bulklen. rewrite Eb. simpl (negb _). cbv iota.
  destruct (rejected_cases _ _ _ _ _ _ _ _ Hrej E) as [[-> [[Hl Hr]|[Hl Hf]]]|(line & r & Eq & Hline & [[Hr Hf]|(Hr & e & Hb & He)])].
  - left. exists TooBigBulkCount. by rewrite (proj2 (Z.ltb_lt _ _)) by done.
  - right. by rewrite (proj2 (Z.ltb_ge _ _)) by done.
  - right. rewrite Eq, strchr_line by done. rewrite (proj2 (Z.ltb_lt _ _)); [done|]. rewrite length_app. simpl. lia.
  - left. exists e. split; [|done]. rewrite Eq, strchr_line by done. rewrite (proj2 (Z.ltb_ge _ _)) by (rewrite length_app; simpl; lia).
    destruct Hb as [x h line Ex Hx|line Hv].
    + assert (nth 0 (line ++ 13 :: r) 0 = x) as -> by (by destruct line; injection Ex). by rewrite (proj2 (Z.eqb_neq _ _)).
    + change (nth 0 ((36 :: line) ++ 13 :: r) 0) with 36. rewrite line_tail by done. simpl (negb _). cbv iota. change (drop 1 (36 :: line)) with line.
      destruct (string2ll line) as [v|]; [|done]. destruct (Hv v eq_refl).
      * by rewrite (proj2 (Z.ltb_lt v 0)).
      * rewrite (proj2 (Z.ltb_lt _ v)) by done. by rewrite orb_true_r.
Qed.

(** A request that is not well formed: the client waits, or the error is found. *)
Definition bad_outcome (T : list Z) (s : S) (c : client) (fut : list Z) (r : option (client * Z)) : Prop :=
  (∃ c' e, r = Some (setProtocolError c' e, C_ERR) ∧ quietly c c' ∧ bad_request (proto_max_bulk_len s) T e) ∨
  (∃ c', r = Some (c', C_ERR) ∧ waits T (proto_max_bulk_len s) c c' [] fut).

Lemma bad_outcome_step T s c c1 fut r : quietly c c1 → (length (pending c1) ≤ length (pending c))%nat → bad_outcome T s c1 fut r → bad_outcome T s c fut r.
Proof.
  intros Q Hl [(c2 & e & -> & Q2 & Hb)|(c2 & -> & Q2 & Hf & Hw & Hl2)]; [left|right].
  - exists c2, e. split_and!; [done|by eapply quietly_trans|done].
  - exists c2. split; [done|]. split; [by eapply quietly_trans|]. split_and!; [done|done|lia].
Qed.

Lemma read_args_bad s c T args k U e0 fut : (qb_pos c ≤ length (querybuf c))%nat → midway c k U args (pending c ++ fut) →
  T = enc_head (length args + k) ++ enc_args args ++ U → Forall (arg_ok (proto_max_bulk_len s)) args → (0 < k)%nat → Z.of_nat (length args + k) ≤ 1024 * 1024 →
  rejected TooBigBulkCount (bad_length (proto_max_bulk_len s)) 13 1 U e0 → bad_outcome T s c fut (read_args s c).
Proof.
  intros Hp Hmid ET Hok Hk Hmax Hrej. pose proof (midway_args_ok _ _ _ _ _ Hmid) as [Hm _]. unfold read_args. rewrite (proj2 (Z.leb_gt _ _)) by done.
  destruct (bulk_loop_midway s c _ _ _ _ Hp Hmid Hok) as [(c1 & -> & Q & Ea & Eb & Em & Hb & E & Hl & _)|(c1 & -> & Q & Hm' & Hf & Hw & Hl)]; cbn [mbind option_bind].
  - destruct k as [|k]; [lia|]. cbn [bulk_loop]. rewrite (proj2 (Z.eqb_neq _ 0)) by lia.
    destruct (read_bulklen_bad s c1 U e0 fut _ Eb eq_refl Hrej E) as [(e & -> & He)|[-> Hf]]; cbn [mbind option_bind].
    + left. exists c1, e. split_and!; [done|apply Q..|]. subst T. by apply bad_argument.
    + right. exists c1. rewrite (proj2 (Z.eqb_neq _ 0)) by lia. split; [done|]. split; [done|]. split_and!; [done| |done].
      rewrite E. apply (w_bad _ _ _ args (Datatypes.S k) U e0); try done. rewrite <- (app_nil_r args). change U with (enc_args [] ++ U) at 2. rewrite <- Ea.
      apply m_args; [by apply Hb|done|done].
  - right. exists c1. rewrite (proj2 (Z.eqb_neq _ 0)) by lia. split; [done|]. split; [done|]. split_and!; [done| |done]. by eapply w_bad.
Qed.

(** The client knows the kind of the request it reads. *)
Lemma parse_start s c cmds T fut : pending c ≠ [] → idle c → pending c ++ fut = enc_cmds cmds ++ T →
  reqtype c = 0 ∨ reqtype c = kind (nth 0 (enc_cmds cmds ++ T) 0) → (qb_pos c ≤ length (querybuf c))%nat →
  ∃ c1, quietly c c1 ∧ idle c1 ∧ pending c1 = pending c ∧ reqtype c1 = kind (nth 0 (enc_cmds cmds ++ T) 0) ∧
    parse_request s c = if nth 0 (enc_cmds cmds ++ T) 0 =? 42 then processMultibulkBuffer s c1 else processInlineBuffer s c1.
Proof.
  intros Hne Hi E Ht Hp. exists (if reqtype c =? 0 then set_req c (kind (nth 0 (enc_cmds cmds ++ T) 0)) (multibulklen c) (bulklen c) else c).
  assert (nth 0 (pending c) 0 = nth 0 (enc_cmds cmds ++ T) 0) as E0 by (rewrite <- E; by destruct (pending c)).
  unfold parse_request. rewrite E0. set (x := nth 0 _ 0) in *. unfold kind in *.
  destruct (Z.eqb_spec (reqtype c) 0) as [E1|E1]; [split_and!; try done; by destruct (x =? 42)|]. destruct Ht as [Ht|Ht]; [done|].
  rewrite Ht. split_and!; try done. by destruct (x =? 42).
Qed.

Lemma enc_cmds_cons cmd more : enc_cmds (cmd :: more) = enc_head (length cmd) ++ enc_args cmd ++ enc_cmds more.
Proof. unfold enc_cmds. simpl. unfold enc_cmd, enc_head. simpl. by rewrite <- !app_assoc. Qed.

Lemma head_line n R : enc_head n ++ R = 42 :: decimal (Z.of_nat n) ++ CRLF ++ R.
Proof. unfold enc_head. simpl. by rewrite <- app_assoc. Qed.

(** The header of a request, and then its arguments. *)
Lemma multibulk_start s c n R fut : (qb_pos c ≤ length (querybuf c))%nat → idle c → reqtype c = PROTO_REQ_MULTIBULK → (0 < n)%nat →
  Z.of_nat n ≤ 1024 * 1024 → pending c ++ fut = enc_head n ++ R →
  (∃ c', processMultibulkBuffer s c = read_args s c' ∧ quietly c c' ∧ in_bulk c' ∧ bulklen c' = -1 ∧ argv c' = [] ∧ multibulklen c' = Z.of_nat n ∧
     pending c' ++ fut = R ∧ (length (pending c') < length (pending c))%nat) ∨
  (processMultibulkBuffer s c = Some (c, C_ERR) ∧ fut ≠ []).
Proof.
  intros Hp Hi Et Hn Hmax E. rewrite head_line in E. unfold processMultibulkBuffer.
  destruct (read_multibulklen_line c (Z.of_nat n) R fut Hp Hi Et) as [(c1 & -> & H)|[Hf ->]]; [lia|done| |]; cbn [mbind option_bind]; [left|by right].
  exists c1. split; [done|]. done.
Qed.

Lemma parse_waiting s c T maxlen cmd more fut : (qb_pos c ≤ length (querybuf c))%nat → pending c ≠ [] → waiting maxlen T c (cmd :: more) (pending c ++ fut) →
  cmd_ok (proto_max_bulk_len s) cmd →
  (∃ c', parse_request s c = Some (c', C_OK) ∧ quietly c c' ∧ argv c' = cmd ∧ pending c' ++ fut = enc_cmds more ++ T ∧
     (length (pending c') < length (pending c))%nat) ∨
  (∃ c', parse_request s c = Some (c', C_ERR) ∧ waits T maxlen c c' (cmd :: more) fut).
Proof.
  intros Hp Hne Hw (Hc1 & Hc2 & Hc3). remember (pending c ++ fut) as P eqn:EP. remember (cmd :: more) as cmds eqn:Ec.
  destruct Hw as [cmds Hi Ht|cmd' more' R Hmid|]; [| |done].
  - destruct (parse_start s c cmds T fut Hne Hi (eq_sym EP) Ht Hp) as (c1 & Q1 & Hi1 & E1 & Et1 & ->). subst cmds.
    assert (enc_cmds (cmd :: more) ++ T = enc_head (length cmd) ++ enc_args cmd ++ enc_cmds more ++ T) as E42 by (by rewrite enc_cmds_cons, <- !app_assoc).
    assert (nth 0 (enc_cmds (cmd :: more) ++ T) 0 = 42) as E0 by (by rewrite E42). rewrite E0 in *. simpl (_ =? _). cbv iota.
    rewrite <- E1 in EP. apply (f_equal length) in E1 as El1.
    assert ((0 < length cmd)%nat) by (destruct cmd; [done|simpl; lia]).
    destruct (multibulk_start s c1 (length cmd) (enc_args cmd ++ enc_cmds more ++ T) fut) as [(c2 & -> & Q2 & Hb2 & Eb2 & Ea2 & Em2 & E2 & Hl2)|[-> Hf]];
      [apply Q1|done|done|done|done|congruence| |].
    + destruct (read_args_cmd s c2 T maxlen cmd more fut) as [(c3 & -> & Q3 & Ea3 & E3 & Hl3)|(c3 & -> & Q3 & Hf3 & Hw3 & Hl3)];
        [apply Q2| |done|left|right]; try exists c3.
      * rewrite E2. change cmd with ([] ++ cmd) at 1. rewrite <- Ea2. apply m_args; [done|done|]. by rewrite Nat.add_0_r.
      * split_and!; [done|eapply quietly_trans; [done|]; by eapply quietly_trans|done|done|lia].
      * split; [done|]. split; [eapply quietly_trans; [done|]; by eapply quietly_trans|]. split_and!; [done|done|lia].
    + right. exists c1. split; [done|]. split; [done|]. split_and!; [done| |lia]. rewrite <- EP. apply w_start; [done|right]. by rewrite E0.
  - injection Ec as -> ->. subst R. rewrite (parse_midway _ _ _ _ _ _ Hmid). by apply read_args_cmd.
Qed.

Lemma inline_bad s c T e0 fut : rejected TooBigInline bad_quotes 10 0 T e0 → pending c ++ fut = T →
  (∃ e, processInlineBuffer s c = Some (setProtocolError c e, C_ERR) ∧ rejected TooBigInline bad_quotes 10 0 T e) ∨
  (processInlineBuffer s c = Some (c, C_ERR) ∧ fut ≠ []).
Proof.
  intros Hrej E. unfold processInlineBuffer.
  destruct (rejected_cases _ _ _ _ _ _ _ _ Hrej E) as [[-> [[Hl Hr]|[Hl Hf]]]|(line & r & Eq & Hline & [[Hr _]|(_ & e & Hb & He)])].
  - left. exists TooBigInline. by rewrite (proj2 (Z.ltb_lt _ _)) by done.
  - right. by rewrite (proj2 (Z.ltb_ge _ _)) by done.
  - lia.
  - left. exists e. split; [|done]. rewrite Eq, strchr_line by done. destruct Hb as [line Hcr Hs|line Hs].
    + assert (negb (length line =? 0)%nat && (nth (length line - 1) (line ++ 10 :: r) 0 =? 13) = false) as ->.
      { destruct (decide (line = [])) as [->|Hn]; [done|]. destruct (exists_last Hn) as (l' & y & ->). rewrite last_snoc in Hcr. rewrite length_app.
        simpl length. rewrite Nat.add_sub, <- app_assoc, app_nth2, Nat.sub_diag by lia. simpl. rewrite (proj2 (Z.eqb_neq _ _)); [apply andb_false_r|]. congruence. }
      by rewrite take_app_length, Hs.
    + rewrite length_app. simpl length. rewrite Nat.add_sub. rewrite (proj2 (Nat.eqb_neq _ 0)) by lia. rewrite <- app_assoc, app_nth2, Nat.sub_diag by lia.
      simpl (_ && _). cbv iota. by rewrite take_app_length, Hs.
Qed.

Lemma header_bad c T e0 fut : idle c → nth 0 T 0 = 42 → rejected TooBigMbulkCount bad_count 13 1 T e0 → pending c ++ fut = T →
  (∃ e, read_multibulklen c = Some (setProtocolError c e, Some C_ERR) ∧ rejected TooBigMbulkCount bad_count 13 1 T e) ∨
  (read_multibulklen c = Some (c, Some C_ERR) ∧ fut ≠ []).
Proof.
  intros (Hm & Hb & Ha) E0 Hrej E. unfold read_multibulklen. rewrite Hm, Ha. simpl (negb _). cbv iota.
  destruct (rejected_cases _ _ _ _ _ _ _ _ Hrej E) as [[-> [[Hl Hr]|[Hl Hf]]]|(line & r & Eq & Hline & [[Hr Hf]|(Hr & e & Hbad & He)])].
  - left. exists TooBigMbulkCount. by rewrite (proj2 (Z.ltb_lt _ _)) by done.
  - right. by rewrite (proj2 (Z.ltb_ge _ _)) by done.
  - right. rewrite Eq, strchr_line by done. rewrite (proj2 (Z.ltb_lt _ _)); [done|]. rewrite length_app. simpl. lia.
  - left. exists e. split; [|done]. rewrite Eq, strchr_line by done. rewrite (proj2 (Z.ltb_ge _ _)) by (rewrite length_app; simpl; lia).
    destruct Hbad as [line Hv]. change (nth 0 ((42 :: line) ++ 13 :: r) 0) with 42. rewrite line_tail by done. simpl (negb _). cbv iota.
    change (drop 1 (42 :: line)) with line. destruct (string2ll line) as [v|]; [|done]. by rewrite (proj2 (Z.ltb_lt _ _)) by auto.
Qed.

Lemma parse_bad s c T e0 fut : (qb_pos c ≤ length (querybuf c))%nat → pending c ≠ [] → waiting (proto_max_bulk_len s) T c [] (pending c ++ fut) →
  bad_request (proto_max_bulk_len s) T e0 → bad_outcome T s c fut (parse_request s c).
Proof.
  intros Hp Hne Hw Hbad. remember (pending c ++ fut) as P eqn:EP. remember (@nil (list (list Z))) as cmds eqn:Ec.
  destruct Hw as [cmds Hi Ht| |args k U e R Hmid ET Hok Hk Hmax Hrej]; [|done|].
  2: { rewrite (parse_midway _ _ _ _ _ _ Hmid). subst R. by eapply read_args_bad. }
  subst cmds. change (enc_cmds [] ++ T) with T in *. destruct (parse_start s c [] T fut Hne Hi (eq_sym EP) Ht Hp) as (c1 & Q1 & Hi1 & E1 & Et1 & ->).
  change (enc_cmds [] ++ T) with T in *. rewrite <- E1 in EP.
  assert (fut ≠ [] → bad_outcome T s c fut (Some (c1, C_ERR))) as Hwait.
  { intros Hf. right. exists c1. split; [done|]. split; [done|]. split_and!; [done| |by rewrite E1]. rewrite <- EP. by apply (w_start _ T c1 []); [|right]. }
  assert (∀ e, bad_request (proto_max_bulk_len s) T e → bad_outcome T s c fut (Some (setProtocolError c1 e, C_ERR))) as Herr.
  { intros e He. left. exists c1, e. split; [done|]. by split. }
  destruct Hbad as [T e0 H42 Hrej|T e0 H42 Hrej|args k U e0 Hok Hk Hmax Hrej].
  - rewrite (proj2 (Z.eqb_neq _ _)) by done. destruct (inline_bad s c1 T e0 fut Hrej (eq_sym EP)) as [(e & -> & He)|[-> Hf]]; [apply Herr; by apply bad_inline|by apply Hwait].
  - rewrite H42. simpl (_ =? _). cbv iota. unfold processMultibulkBuffer.
    destruct (header_bad c1 T e0 fut Hi1 H42 Hrej (eq_sym EP)) as [(e & -> & He)|[-> Hf]]; cbn [mbind option_bind]; [apply Herr; by apply bad_header|by apply Hwait].
  - change (nth 0 (enc_head (length args + k) ++ enc_args args ++ U) 0) with 42 in *. simpl (_ =? _). cbv iota.
    destruct (multibulk_start s c1 (length args + k) (enc_args args ++ U) fut) as [(c2 & -> & Q2 & Hb2 & Eb2 & Ea2 & Em2 & E2 & Hl2)|[-> Hf]];
      [apply Q1|done|done|lia|done|done| |by apply Hwait].
    eapply (bad_outcome_step _ _ _ c2); [by eapply quietly_trans|rewrite <- E1; lia|]. eapply (read_args_bad s c2 _ args k U); try done; [apply Q2|].
    rewrite E2. change args with ([] ++ args) at 1. rewrite <- Ea2. by apply m_args.
Qed.

(** An ordinary client: not blocked, not being closed, not a master. *)
Definition ready (c : client) : Prop :=
  has c CLIENT_BLOCKED = false ∧ has c CLIENT_MASTER = false ∧ has c CLIENT_CLOSE_AFTER_REPLY = false ∧ has c CLIENT_CLOSE_ASAP = false.

(** A server that executes every command to its end, as [exec], without
    pausing, blocking or closing clients, and whose limits are at least these. *)
Class Serving (exec : S → list (list Z) → S) (maxbulk maxbuf : Z) := {
  serving_running s : clientsArePaused s = (s, false);
  serving_lua s : lua_timedout s = false;
  serving_limits s : maxbulk ≤ proto_max_bulk_len s ∧ maxbuf ≤ client_max_querybuf_len s;
  serving_exec s c : ready c → ∃ c', processCommand s c = (exec s (argv c), c', C_OK, true) ∧ ready c'
}.

Lemma cmd_ok_mono m m' l : m ≤ m' → cmd_ok m l → cmd_ok m' l.
Proof. intros Hm (H1 & H2 & H3). split_and!; [done|done|]. eapply Forall_impl; [done|]. unfold arg_ok. lia. Qed.

Lemma ready_quietly c c' : quietly c c' → ready c → ready c'.
Proof. unfold ready, has. by intros (-> & _). Qed.

Lemma ready_reset c : ready c → ready (resetClient c).
Proof. unfold ready. by rewrite !has_reset by done. Qed.

Context {laws : ServerLaws S} {exec : S → list (list Z) → S} {maxbulk maxbuf : Z} {serving : Serving exec maxbulk maxbuf}.

Lemma ready_must_break s c : ready c → must_break s c = (s, false).
Proof. intros (H1 & H2 & H3 & H4). unfold must_break. rewrite serving_running. destruct (has c CLIENT_SLAVE); by rewrite H1, H2, H3, H4, serving_lua. Qed.

Lemma run_ready s c : ready c → argv c ≠ [] → ∃ c', run_request s c = (exec s (argv c), c', true) ∧ ready c' ∧ idle c' ∧ reqtype c' = 0 ∧
  pending c' = pending c ∧ querybuf c' = querybuf c ∧ qb_pos c' = qb_pos c.
Proof.
  intros Hr Ha. unfold run_request. destruct (serving_exec s c Hr) as (c1 & E & Hr1). destruct (pc_frame _ _ _ _ _ _ E) as (F1 & F2 & _).
  destruct (argv c) as [|a l]; [done|]. rewrite E. eexists. split; [done|]. simpl. unfold command_done.
  pose proof Hr1 as (H1 & H2 & _). rewrite H2. simpl. rewrite H1. simpl. split; [by apply ready_reset|]. split_and!; try done.
  unfold pending. simpl. by rewrite F1, F2.
Qed.

Lemma enc_cmds_nonempty cmds : enc_cmds cmds = [] → cmds = [].
Proof. by destruct cmds. Qed.

Lemma midway_nonempty c k R args : ¬ midway c k R args [] ∨ R = [].
Proof.
  destruct R as [|x R]; [by right|left]. intros Hw. remember [] as P eqn:E. destruct Hw as [rest|a rest].
  - by destruct (enc_args rest).
  - by destruct a.
Qed.

Lemma midway_cmd_nonempty c R args : ¬ midway c 0 R args [].
Proof.
  intros Hw. remember [] as P eqn:E. destruct Hw as [rest (_ & Hpos & _) _ Em|a rest]; [|by destruct a].
  destruct rest; [simpl in Em; lia|done].
Qed.

Lemma waiting_nil maxlen T c cmds : waiting maxlen T c cmds [] → cmds = [] ∧ T = [].
Proof.
  intros Hw. remember [] as P eqn:E in Hw. destruct Hw as [cmds _ _|cmd more R Hmid|args k U e R Hmid _ _ _ _ Hrej].
  - apply app_eq_nil in E as [E1 ->]. split; [by apply enc_cmds_nonempty|done].
  - subst R. by apply midway_cmd_nonempty in Hmid.
  - subst R. apply rejected_nonempty in Hrej. by destruct (midway_nonempty c k U args).
Qed.

Lemma waiting_end maxlen c R : waiting maxlen [] c [] R → R = [] ∧ idle c.
Proof.
  intros Hw. remember (@nil (list (list Z))) as cmds eqn:E in Hw. remember (@nil Z) as T eqn:ET in Hw.
  destruct Hw as [cmds Hi _| |args k U e R _ E' _ _ _ _]; [by subst|done|by subst].
Qed.

(** What follows the requests: nothing, or a request that is not well formed
    (for the limits that hold after them). *)
Definition tail_ok (maxlen : Z) (T : list Z) (s : S) (cmds : list (list (list Z))) : Prop :=
  T = [] ∨ maxlen = proto_max_bulk_len (foldl exec s cmds) ∧ ∃ e, bad_request maxlen T e.

(** Requests were executed and the client waits for more, or all were executed and the error was found. *)
Definition loop_post (maxlen : Z) (T : list Z) (s : S) (c : client) (cmds : list (list (list Z))) (fut : list Z) (s' : S) (c' : client) : Prop :=
  (∃ done_ todo, cmds = done_ ++ todo ∧ s' = foldl exec s done_ ∧ ready c' ∧ (qb_pos c' ≤ length (querybuf c'))%nat ∧
     waiting maxlen T c' todo (pending c' ++ fut) ∧ (length (pending c') ≤ length (pending c))%nat ∧ (done_ = [] → errors c' = errors c) ∧
     (fut = [] → todo = [] ∧ T = [])) ∨
  (T ≠ [] ∧ s' = foldl exec s cmds ∧ closing c' = true ∧ has c' CLIENT_MASTER = false ∧
     ∃ es e, errors c' = es ++ [e] ∧ bad_request maxlen T e ∧ (cmds = [] → es = errors c)).

Lemma closing_error c e : closing (setProtocolError c e) = true.
Proof. unfold closing. by rewrite has_error. Qed.

Lemma input_loop_waiting fuel : ∀ maxlen T s c cmds fut, (qb_pos c ≤ length (querybuf c))%nat → ready c → waiting maxlen T c cmds (pending c ++ fut) →
  Forall (cmd_ok maxbulk) cmds → tail_ok maxlen T s cmds → (length (pending c) ≤ fuel)%nat →
  ∃ s' c', input_loop fuel s c = Some (s', c', true) ∧ loop_post maxlen T s c cmds fut s' c'.
Proof.
  induction fuel as [|f IH]; intros maxlen T s c cmds fut Hp Hr Hw Hok HT Hf; cbn [input_loop];
    destruct (Nat.leb_spec (length (querybuf c)) (qb_pos c)) as [Hle|Hlt].
  1, 3: exists s, c; split; [done|]; left; exists [], cmds; split_and!; try done; intros ->; apply (waiting_nil maxlen T c); rewrite app_nil_r in Hw;
    replace (pending c) with (@nil Z) in Hw; [done|]; symmetry; apply nil_length_inv; rewrite length_pending; lia.
  { rewrite length_pending in Hf. lia. }
  rewrite ready_must_break by done. assert (pending c ≠ []) as Hne by (intros E; apply (f_equal length) in E; rewrite length_pending in E; simpl in E; lia).
  destruct cmds as [|cmd more].
  - destruct HT as [->|[-> [e He]]]; [apply waiting_end in Hw as [Hw _]; by destruct (pending c)|]. simpl foldl in *.
    destruct (parse_bad s c T e fut Hp Hne Hw He) as [(c' & e' & -> & Q & He')|(c' & -> & Q & Hf' & Hw' & Hl)]; cbn [mbind option_bind]; simpl negb; cbv iota; eexists s, _; (split; [done|]).
    + right. split_and!; [by eapply bad_request_nonempty|done|by apply closing_error| |].
      * rewrite has_error. simpl. apply (ready_quietly _ _ Q Hr).
      * exists (errors c'), e'. split_and!; [done|done|]. intros _. apply Q.
    + left. exists [], []. split_and!; try done; [by apply (ready_quietly _ _ Q)..|apply Q|intros _; apply Q].
  - apply Forall_cons in Hok as [Hc Hok].
    destruct (parse_waiting s c T maxlen cmd more fut Hp Hne Hw) as [(c1 & -> & Q & Ea & E1 & Hl)|(c1 & -> & Q & Hf1 & Hw1 & Hl)].
    { eapply cmd_ok_mono; [|done]. apply (serving_limits s). }
    + cbn [mbind option_bind]; simpl negb; cbv iota. pose proof (ready_quietly _ _ Q Hr) as Hr1.
      destruct (run_ready s c1 Hr1) as (c2 & -> & Hr2 & Hi2 & Et2 & Ep2 & Eq2 & Eb2); [rewrite Ea; apply Hc|].
      destruct (IH maxlen T (exec s (argv c1)) c2 more fut) as (s3 & c3 & E3 & Hpost); try done.
      * rewrite Eq2, Eb2. apply Q.
      * rewrite Ep2, E1. apply w_start; auto.
      * by rewrite Ea.
      * rewrite Ep2. lia.
      * exists s3, c3. split; [done|]. rewrite Ea in Hpost. destruct Hpost as [(d & todo & -> & -> & H1 & H2 & H3 & H4 & H5 & H6)|(H1 & -> & H2 & H3 & es & e & H4 & H5 & _)].
        -- left. exists (cmd :: d), todo. rewrite Ep2 in H4. split_and!; try done. lia.
        -- right. split_and!; try done. by exists es, e.
    + cbn [mbind option_bind]; simpl negb; cbv iota. exists s, c1. split; [done|]. left. exists [], (cmd :: more).
      split_and!; try done; [by apply (ready_quietly _ _ Q)..|apply Q|intros _; apply Q].
Qed.

Lemma waiting_qb maxlen T c cmds R b p : waiting maxlen T c cmds R → waiting maxlen T (set_qb c b p) cmds R.
Proof.
  assert (∀ k R' args P, midway c k R' args P → midway (set_qb c b p) k R' args P) as Hmid.
  { destruct 1; [by apply (m_args (set_qb c b p))|by apply (m_bulk (set_qb c b p))]. }
  destruct 1; [by apply w_start|apply w_cmd; auto|eapply w_bad; eauto].
Qed.

Lemma read_waiting maxlen T s c cmds bs fut : qb_pos c = O → ready c → waiting maxlen T c cmds (pending c ++ bs ++ fut) →
  Forall (cmd_ok maxbulk) cmds → tail_ok maxlen T s cmds → Z.of_nat (length (pending c ++ bs)) ≤ maxbuf →
  ∃ s' c', readQueryFromClient s c (Data bs) = Some (s', Some c', []) ∧ (closing c' = false → qb_pos c' = O) ∧
    loop_post maxlen T s (set_qb c (pending c ++ bs) 0) cmds fut s' c'.
Proof.
  intros Hp Hr Hw Hok HT Hmax. unfold readQueryFromClient. pose proof Hr as (_ & EM & _). rewrite EM. set (c1 := set_qb c _ _).
  assert (c1 = set_qb c (pending c ++ bs) 0) as E0 by (unfold pending, c1; by rewrite Hp). rewrite E0. clear E0 c1. set (c1 := set_qb c _ _).
  rewrite (proj2 (Z.ltb_ge _ _)) by (simpl; pose proof (serving_limits s); lia).
  unfold processInputBufferAndReplicate. change (has c1 CLIENT_MASTER) with (has c CLIENT_MASTER). rewrite EM. simpl negb. cbv iota.
  unfold processInputBuffer. destruct (input_loop_waiting (length (querybuf c1)) maxlen T s c1 cmds fut) as (s2 & c2 & -> & Hpost); try done.
  - simpl. lia.
  - change (pending c1) with (pending c ++ bs). rewrite <- app_assoc. by apply waiting_qb.
  - cbn [mbind option_bind]. eexists _, _. split; [done|]. split; [done|].
    destruct Hpost as [(d & todo & -> & -> & H1 & H2 & H3 & H4 & H5 & H6)|Hbad]; [left|by right]. exists d, todo. split_and!; try done; [apply H1..|simpl; lia|].
    change (pending (set_qb c2 (pending c2) 0)) with (pending c2). by apply waiting_qb.
Qed.

Lemma serve_waiting chunks : ∀ maxlen s c cmds fut, qb_pos c = O → ready c → waiting maxlen [] c cmds (pending c ++ concat chunks ++ fut) →
  Forall (cmd_ok maxbulk) cmds → Z.of_nat (length (pending c ++ concat chunks)) ≤ maxbuf → (concat chunks ++ fut = [] → cmds = []) →
  ∃ done_ todo c', cmds = done_ ++ todo ∧ serve s c (Data <$> chunks) = Some (foldl exec s done_, Some c', []) ∧ ready c' ∧ qb_pos c' = O ∧
    waiting maxlen [] c' todo (pending c' ++ fut) ∧ (fut = [] → todo = []).
Proof.
  induction chunks as [|bs chunks IH]; intros maxlen s c cmds fut Hp Hr Hw Hok Hmax Hend.
  - exists [], cmds, c. split_and!; try done.
  - simpl in Hw. rewrite <- app_assoc in Hw. simpl in Hmax. rewrite app_assoc, length_app in Hmax.
    destruct (read_waiting maxlen [] s c cmds bs (concat chunks ++ fut) Hp Hr Hw Hok) as (s1 & c1 & E & Hq & [Hpost|Hpost]); [by left|lia| |by destruct Hpost].
    destruct Hpost as (d & todo & -> & -> & Hr1 & _ & Hw1 & Hl1 & _ & Hf1). change (pending (set_qb c (pending c ++ bs) 0)) with (pending c ++ bs) in Hl1.
    apply Forall_app in Hok as [_ Hok]. pose proof Hr1 as (_ & _ & C1 & C2).
    destruct (IH maxlen (foldl exec s d) c1 todo fut) as (d2 & todo2 & c2 & -> & E2 & Hr2 & Hp2 & Hw2 & Hf2); try done.
    { apply Hq. unfold closing. by rewrite C1, C2. }
    { rewrite length_app. lia. }
    { apply Hf1. }
    exists (d ++ d2), todo2, c2. rewrite fmap_cons. cbn [serve]. rewrite E. cbn [mbind option_bind].
    rewrite E2. cbn [mbind option_bind]. rewrite foldl_app, <- app_assoc. by split_and!.
Qed.

(** Nothing more is executed for a client that is being closed. *)
Lemma read_closing s c bs : closing c = true → has c CLIENT_MASTER = false →
  ∃ oc, readQueryFromClient s c (Data bs) = Some (s, oc, []) ∧
    match oc with None => True | Some c' => closing c' = true ∧ has c' CLIENT_MASTER = false ∧ errors c' = errors c end.
Proof.
  intros Hc EM. unfold readQueryFromClient. rewrite EM. set (c1 := set_qb c _ _).
  destruct (client_max_querybuf_len s <? _); [by eexists None|].
  unfold processInputBufferAndReplicate. change (has c1 CLIENT_MASTER) with (has c CLIENT_MASTER). rewrite EM. simpl negb. cbv iota.
  unfold processInputBuffer. assert (input_loop (length (querybuf c1)) s c1 = Some (s, c1, true)) as ->; [|by eexists (Some _)].
  destruct (length (querybuf c1)) as [|n] eqn:El; cbn [input_loop]; rewrite El; [done|]. case_match; [done|].
  unfold must_break. rewrite serving_running. change (has c1) with (has c).
  destruct (has c CLIENT_SLAVE); rewrite <- (orb_assoc _ _ (has c CLIENT_CLOSE_ASAP)); change (has c _ || has c _) with (closing c); by rewrite Hc, orb_true_r.
Qed.

Lemma serve_closing chunks : ∀ s c, closing c = true → has c CLIENT_MASTER = false →
  ∃ oc, serve s c (Data <$> chunks) = Some (s, oc, []) ∧ match oc with None => True | Some c' => closing c' = true ∧ errors c' = errors c end.
Proof.
  induction chunks as [|bs chunks IH]; intros s c Hc EM; [by eexists (Some c)|]. rewrite fmap_cons. cbn [serve].
  destruct (read_closing s c bs Hc EM) as (oc & -> & H1). cbn [mbind option_bind]. destruct oc as [c1|]; [|by eexists None].
  destruct H1 as (Hc1 & EM1 & Ee). destruct (IH s c1 Hc1 EM1) as (oc & -> & H2). cbn [mbind option_bind]. exists oc. split; [done|].
  destruct oc; [|done]. destruct H2. split; [done|congruence].
Qed.

Lemma serve_bad later chunks : ∀ maxlen T s c cmds, qb_pos c = O → ready c → waiting maxlen T c cmds (pending c ++ concat chunks) → T ≠ [] →
  Forall (cmd_ok maxbulk) cmds → tail_ok maxlen T s cmds → Z.of_nat (length (pending c ++ concat chunks)) ≤ maxbuf → concat chunks ≠ [] →
  ∃ oc, serve s c (Data <$> chunks ++ later) = Some (foldl exec s cmds, oc, []) ∧
    match oc with
    | None => True
    | Some c' => closing c' = true ∧ ∃ es e, errors c' = es ++ [e] ∧ bad_request maxlen T e ∧ (cmds = [] → es = errors c)
    end.
Proof.
  induction chunks as [|bs chunks IH]; intros maxlen T s c cmds Hp Hr Hw HT Hok Htail Hmax Hend; [done|].
  simpl in Hw, Hmax. rewrite app_assoc, length_app in Hmax.
  destruct (read_waiting maxlen T s c cmds bs (concat chunks) Hp Hr Hw Hok Htail) as (s1 & c1 & E & Hq & Hpost); [lia|].
  simpl app. rewrite fmap_cons. cbn [serve]. rewrite E. cbn [mbind option_bind].
  destruct Hpost as [(d & todo & -> & -> & Hr1 & _ & Hw1 & Hl1 & He1 & Hf1)|(_ & -> & Hc & HM & es & e & Ee & Hb & Hes)].
  - change (pending (set_qb c (pending c ++ bs) 0)) with (pending c ++ bs) in Hl1. apply Forall_app in Hok as [_ Hok]. pose proof Hr1 as (_ & _ & C1 & C2).
    destruct (IH maxlen T (foldl exec s d) c1 todo) as (oc & E2 & Hoc); try done.
    + apply Hq. unfold closing. by rewrite C1, C2.
    + destruct Htail as [?|[E0 Hb]]; [done|right]. split; [by rewrite E0, foldl_app|done].
    + rewrite length_app. lia.
    + intros Hf. destruct (Hf1 Hf) as [_ ?]. done.
    + rewrite E2. cbn [mbind option_bind]. exists oc. rewrite foldl_app. split; [done|]. destruct oc as [c'|]; [|done].
      destruct Hoc as (H1 & es & e & H2 & H3 & H4). split; [done|]. exists es, e. split_and!; [done|done|].
      intros [-> ->]%app_eq_nil. rewrite H4 by done. by apply He1.
  - destruct (serve_closing (chunks ++ later) (foldl exec s cmds) c1 Hc HM) as (oc & -> & Hoc). cbn [mbind option_bind]. exists oc. split; [done|].
    destruct oc as [c'|]; [|done]. destruct Hoc as [H1 H2]. split; [done|]. exists es, e. rewrite H2. done.
Qed.

End requests.

Lemma readlen_range c : 0 < readlen c ≤ PROTO_IOBUF_LEN.
Proof.
  unfold readlen, PROTO_IOBUF_LEN. destruct (_ && _ && _); [|lia]. destruct (_ && _) eqn:E; [|lia].
  apply andb_true_iff in E as [E1%Z.ltb_lt E2%Z.ltb_lt]. lia.
Qed.

(** A client that has just connected, or whose last request is complete. *)
Definition fresh_client (c : client) : Prop := ready c ∧ idle c ∧ reqtype c = 0 ∧ querybuf c = [] ∧ qb_pos c = O.

(** ** The properties *)

(** C22. Requests arrive. A client sends any sequence of requests within the
    limits, and the connection delivers the bytes in pieces of any sizes: as
    soon as all of them were delivered, every request was executed exactly
    once, in order and with exactly its arguments, and the client waits for the
    next one. Before, an initial part of the requests was executed. *)
Theorem requests_served {S} {srv : Server S} {laws : ServerLaws S} (exec : S → list (list Z) → S) maxbulk maxbuf
    {serving : Serving exec maxbulk maxbuf} s c cmds chunks fut :
  fresh_client c → Forall (cmd_ok maxbulk) cmds → concat chunks ++ fut = enc_cmds cmds → Z.of_nat (length (concat chunks)) ≤ maxbuf →
  ∃ executed todo c', cmds = executed ++ todo ∧ serve s c (Data <$> chunks) = Some (foldl exec s executed, Some c', []) ∧
    ready c' ∧ (fut = [] → todo = [] ∧ idle c' ∧ pending c' = []).
Proof.
  intros (Hr & Hi & Et & Eq & Ep) Hok E Hmax. assert (pending c = []) as E0 by (unfold pending; by rewrite Eq, Ep).
  destruct (serve_waiting chunks 0 s c cmds fut Ep Hr) as (d & todo & c' & -> & Es & Hr' & Hp' & Hw & Hf).
  - rewrite E0. simpl. rewrite E, <- (app_nil_r (enc_cmds cmds)). apply w_start; auto.
  - done.
  - by rewrite E0.
  - intros En. rewrite En in E. by apply enc_cmds_nonempty.
  - exists d, todo, c'. split_and!; try done. intros ->. specialize (Hf eq_refl). subst todo. split; [done|].
    rewrite app_nil_r in Hw. by apply waiting_end in Hw as [-> Hi'].
Qed.

(** C23. The client is well formed after any sequence of reads of arbitrary
    bytes, also for slaves and masters, whatever the commands do to the flags:
    no assertion fails, no argument is stored outside of [argv], the position
    is inside of the query buffer, what is not forwarded of a master's stream
    covers what is not parsed, and the next read asks for at least one byte and
    at most PROTO_IOBUF_LEN (a read of 0 bytes would look like a closed
    connection). *)
Theorem client_well_formed {S} {srv : Server S} {laws : ServerLaws S} s c rs :
  client_ok c → (has c CLIENT_MASTER = true → Z.of_nat (length (pending_querybuf c ++ concat (data <$> rs))) < 2 ^ 64) →
  ∃ s' oc feed, serve s c rs = Some (s', oc, feed) ∧ ∀ c', oc = Some c' → client_ok c' ∧ 0 < readlen c' ≤ PROTO_IOBUF_LEN.
Proof.
  intros Hok Hs. destruct (serve_safe rs s c Hok Hs) as (s' & oc & feed & E & Hc). exists s', oc, feed. split; [done|]. intros c' ->.
  split; [apply Hc|apply readlen_range].
Qed.

(** Chained replication: of the stream of its master, a slave forwards to
    its own slaves exactly an initial part, byte for byte, as long as the
    advance of the replication offset, and keeps the rest; what is not parsed
    yet is in the rest. *)
Theorem master_stream_forwarded {S} {srv : Server S} {laws : ServerLaws S} s c rs s' c' feed :
  client_ok c → has c CLIENT_MASTER = true → Z.of_nat (length (pending_querybuf c ++ concat (data <$> rs))) < 2 ^ 64 →
  serve s c rs = Some (s', Some c', feed) →
  pending_querybuf c ++ concat (data <$> rs) = feed ++ pending_querybuf c' ∧ reploff c' = reploff c + Z.of_nat (length feed) ∧
  pending c' `suffix_of` pending_querybuf c'.
Proof.
  intros Hok HM Hs E. destruct (serve_safe rs s c Hok (λ _, Hs)) as (s1 & oc & f & E1 & Hc). rewrite E in E1. injection E1 as <- <- <-.
  destruct Hc as ((_ & _ & Hrep) & EM & Hm). destruct (Hm HM) as [E1 E2]. split_and!; [done|done|]. apply Hrep. congruence.
Qed.

(** C24. Protocol errors. A client sends any number of well-formed requests
    and then one that is not, and the connection delivers the bytes in pieces of
    any sizes. The request is wrong in its number of arguments or, after any
    number of good arguments, in the prefix or the length of the next one, or it
    is an inline request with unbalanced quotes, or a line is too long (which of
    the two errors answers a wrong line of more than 64 KB depends on the
    pieces). When the bytes have arrived, the good requests were executed, once
    and in order, and nothing else; the last reply is the error of that request
    and the connection is marked for closing; what arrives later executes
    nothing and gets no other error. *)
Theorem protocol_errors_close {S} {srv : Server S} {laws : ServerLaws S} (exec : S → list (list Z) → S) maxbulk maxbuf
    {serving : Serving exec maxbulk maxbuf} s c cmds T e0 chunks later :
  let maxlen := proto_max_bulk_len (foldl exec s cmds) in
  fresh_client c → Forall (cmd_ok maxbulk) cmds → bad_request maxlen T e0 → concat chunks = enc_cmds cmds ++ T →
  Z.of_nat (length (concat chunks)) ≤ maxbuf →
  ∃ oc, serve s c (Data <$> chunks ++ later) = Some (foldl exec s cmds, oc, []) ∧
    ∀ c', oc = Some c' → closing c' = true ∧ ∃ es e, errors c' = es ++ [e] ∧ bad_request maxlen T e ∧ (cmds = [] → es = errors c).
Proof.
  intros maxlen (Hr & Hi & Et & Eq & Ep) Hok Hbad E Hmax. assert (pending c = []) as E0 by (unfold pending; by rewrite Eq, Ep).
  pose proof (bad_request_nonempty _ _ _ Hbad) as HT.
  destruct (serve_bad later chunks maxlen T s c cmds Ep Hr) as (oc & Es & Hoc); try done.
  - rewrite E0. simpl. rewrite E. apply w_start; auto.
  - right. split; [done|]. by exists e0.
  - by rewrite E0.
  - rewrite E. by intros [_ ?]%app_eq_nil.
  - exists oc. split; [done|]. by intros c' ->.
Qed.

(** ** A server that logs the commands *)

Definition log_server : Server (list (list (list Z))) :=
  {| unixtime := λ _, 0; proto_max_bulk_len := λ _, 512 * 1024 * 1024; client_max_querybuf_len := λ _, 1024 * 1024 * 1024;
     lua_timedout := λ _, false; clientsArePaused := λ s, (s, false);
     processCommand := λ s c, (s ++ [argv c], c, C_OK, true) |}.

Lemma log_server_laws : ServerLaws (list (list (list Z))) (srv := log_server).
Proof. split; intros s c s' c' rc alive [= <- <- <- <-]; done. Qed.

Lemma log_server_serving : Serving (srv := log_server) (λ s l, s ++ [l]) (512 * 1024 * 1024) (1024 * 1024 * 1024).
Proof. split; simpl; try done. intros s c Hr. by exists c. Qed.

Definition new_client (f : Z) : client := Client [] 0 0 0 (-1) [] 0 false f 0 0 [] 0 0 [].

Lemma new_client_fresh : fresh_client (new_client 0).
Proof. done. Qed.

Lemma new_client_ok f : client_ok (new_client f).
Proof. split_and!; [done|right; left; by split_and!; [..|left]|]. intros _. split; [done|]. apply suffix_nil. Qed.

(** GET and a key, in two pieces. *)
Definition demo_cmd : list (list Z) := [[71; 69; 84]; [107; 49]].
Definition demo_bytes : list Z := [42; 50; 13; 10; 36; 51; 13; 10; 71; 69; 84; 13; 10; 36; 50; 13; 10; 107; 49; 13; 10].

Lemma requests_served_witness : ∃ executed todo c', [demo_cmd] = executed ++ todo ∧
  serve (srv := log_server) [] (new_client 0) (Data <$> [take 9 demo_bytes; drop 9 demo_bytes]) =
    Some (foldl (λ s l, s ++ [l]) [] executed, Some c', []) ∧ ready c' ∧ ([] = @nil Z → todo = [] ∧ idle c' ∧ pending c' = []).
Proof.
  apply (requests_served (srv := log_server) (laws := log_server_laws) (λ s l, s ++ [l]) (512 * 1024 * 1024) (1024 * 1024 * 1024)
    (serving := log_server_serving) [] (new_client 0) [demo_cmd] [take 9 demo_bytes; drop 9 demo_bytes] []).
  - exact new_client_fresh.
  - constructor; [|constructor]. split_and!; [done|done|]. repeat constructor; done.
  - reflexivity.
  - done.
Defined.

Lemma client_well_formed_witness : ∃ s' oc feed,
  serve (srv := log_server) [] (new_client 0) [Data [42; 45; 0; 13]; Again; Data demo_bytes; Closed] = Some (s', oc, feed) ∧
  ∀ c', oc = Some c' → client_ok c' ∧ 0 < readlen c' ≤ PROTO_IOBUF_LEN.
Proof.
  apply (client_well_formed (srv := log_server) (laws := log_server_laws) [] (new_client 0) [Data [42; 45; 0; 13]; Again; Data demo_bytes; Closed]).
  - apply new_client_ok.
  - done.
Defined.

Lemma master_stream_forwarded_witness : ∃ s' c' feed,
  serve (srv := log_server) [] (new_client 2) [Data (demo_bytes ++ [42; 50])] = Some (s', Some c', feed) ∧
  [] ++ concat (data <$> [Data (demo_bytes ++ [42; 50])]) = feed ++ pending_querybuf c' ∧ reploff c' = 0 + Z.of_nat (length feed) ∧
  pending c' `suffix_of` pending_querybuf c'.
Proof.
  eexists _, _, _. split; [vm_compute; reflexivity|].
  apply (master_stream_forwarded (srv := log_server) (laws := log_server_laws) [] (new_client 2) [Data (demo_bytes ++ [42; 50])] [demo_cmd]).
  - apply new_client_ok.
  - done.
  - done.
  - vm_compute. reflexivity.
Defined.

(** After a GET, a SET whose third argument starts with [%], in three pieces. *)
Definition demo_bad : list Z := enc_head 3 ++ enc_args [[83; 69; 84]; [107]] ++ [37; 49; 13; 10; 118; 13; 10].

Lemma protocol_errors_close_witness : ∃ oc,
  serve (srv := log_server) [] (new_client 0)
    (Data <$> [take 9 demo_bytes; drop 9 demo_bytes ++ take 12 demo_bad; drop 12 demo_bad] ++ [demo_bytes]) = Some ([demo_cmd], oc, []) ∧
  ∀ c', oc = Some c' → closing c' = true ∧
    ∃ es e, errors c' = es ++ [e] ∧ bad_request (512 * 1024 * 1024) demo_bad e ∧ ([demo_cmd] = [] → es = []).
Proof.
  apply (protocol_errors_close (srv := log_server) (laws := log_server_laws) (λ s l, s ++ [l]) (512 * 1024 * 1024) (1024 * 1024 * 1024)
    (serving := log_server_serving) [] (new_client 0) [demo_cmd] demo_bad (ExpectedDollar 37)
    [take 9 demo_bytes; drop 9 demo_bytes ++ take 12 demo_bad; drop 12 demo_bad] [demo_bytes]).
  - exact new_client_fresh.
  - constructor; [|constructor]. split_and!; [done|done|]. repeat constructor; done.
  - apply (bad_argument _ [[83; 69; 84]; [107]] 1 [37; 49; 13; 10; 118; 13; 10]); [repeat constructor; done|lia|done|].
    apply (rej_line _ _ 13 1 [37; 49] [10; 118; 13; 10]); [by repeat constructor|simpl; lia|]. by apply (no_dollar _ 37 [49; 13]).
  - reflexivity.
  - done.
Defined.

(** The inline protocol drops empty arguments: [SET k ""] arrives with two. *)
Example inline_empty_argument : (λ r, fst (fst r)) <$>
  serve (srv := log_server) [] (new_client 0) [Data [83; 69; 84; 32; 107; 32; 34; 34; 10]] = Some [[[83; 69; 84]; [107]]].
Proof. reflexivity. Qed.
