(* ===== verification/Ziplist.v ===== *)
(** * ziplist.c: lists in one block of memory

    A ziplist is the list of the bytes of its allocation; pointers are offsets
    in it, and a read or write outside of the block, a failed assertion and a
    panic are [None]. [realloc] leaves new bytes with an arbitrary value [junk].
    Header fields are unsigned 32 and 16 bit integers. *)

From S2P Require Import Prelude Decimal Sds Util.

Definition ZIP_END : Z := 255.
Definition ZIP_BIG_PREVLEN : Z := 254.
Definition ZIP_STR_MASK : Z := 192.
Definition ZIP_STR_06B : Z := 0.
Definition ZIP_STR_14B : Z := 64.
Definition ZIP_STR_32B : Z := 128.
Definition ZIP_INT_16B : Z := 192.
Definition ZIP_INT_32B : Z := 208.
Definition ZIP_INT_64B : Z := 224.
Definition ZIP_INT_24B : Z := 240.
Definition ZIP_INT_8B : Z := 254.
Definition ZIP_INT_IMM_MASK : Z := 15.
Definition ZIP_INT_IMM_MIN : Z := 241.
Definition ZIP_INT_IMM_MAX : Z := 253.
Definition UINT16_MAX : Z := 65535.
Definition ZIPLIST_HEADER_SIZE : Z := 10.
Definition ZIPLIST_END_SIZE : Z := 1.

Definition ZIP_IS_STR (enc : Z) : bool := Z.land enc ZIP_STR_MASK <? ZIP_STR_MASK.

(** [p[0]] *)
Definition byte_at (m : list Z) (p : Z) : option Z := b ← mread m p 1; head b.

(** Integers in memory. *)
Definition get_le (m : list Z) (p : Z) (n : nat) : option Z := le_val <$> mread m p (Z.of_nat n).
Definition set_le (m : list Z) (p : Z) (n : nat) (x : Z) : option (list Z) := mwrite m p (le_bytes n x).

Definition ZIPLIST_BYTES (zl : list Z) : option Z := get_le zl 0 4.
Definition ZIPLIST_TAIL_OFFSET (zl : list Z) : option Z := get_le zl 4 4.
Definition ZIPLIST_LENGTH (zl : list Z) : option Z := get_le zl 8 2.
Definition ZIPLIST_ENTRY_HEAD : Z := ZIPLIST_HEADER_SIZE.
Definition ZIPLIST_ENTRY_END (zl : list Z) : option Z := b ← ZIPLIST_BYTES zl; Some (b - 1).

Definition ZIPLIST_INCR_LENGTH (zl : list Z) (incr : Z) : option (list Z) :=
  l ← ZIPLIST_LENGTH zl;
  if l <? UINT16_MAX then set_le zl 8 2 (l + incr) else Some zl.

Record zlentry := ZLEntry {
  prevrawlensize : Z;
  prevrawlen : Z;
  lensize : Z;
  zlen : Z;
  headersize : Z;
  encoding : Z;
  zp : Z
}.

Definition zipIntSize (enc : Z) : option Z :=
  if enc =? ZIP_INT_8B then Some 1
  else if enc =? ZIP_INT_16B then Some 2
  else if enc =? ZIP_INT_24B then Some 3
  else if enc =? ZIP_INT_32B then Some 4
  else if enc =? ZIP_INT_64B then Some 8
  else if (ZIP_INT_IMM_MIN <=? enc) && (enc <=? ZIP_INT_IMM_MAX) then Some 0
  else None.

(** The bytes that are stored; their number is returned. *)
Definition zipStoreEntryEncoding (enc rawlen : Z) : list Z :=
  if ZIP_IS_STR enc then
    if rawlen <=? 63 then [Z.lor ZIP_STR_06B rawlen]
    else if rawlen <=? 16383 then
      [Z.lor ZIP_STR_14B (Z.land (Z.shiftr rawlen 8) 63); Z.land rawlen 255]
    else
      [ZIP_STR_32B; Z.land (Z.shiftr rawlen 24) 255; Z.land (Z.shiftr rawlen 16) 255;
       Z.land (Z.shiftr rawlen 8) 255; Z.land rawlen 255]
  else [enc].

(** The encoding, [lensize] and [len]. *)
Definition ZIP_DECODE_LENGTH (m : list Z) (p : Z) : option (Z * Z * Z) :=
  b ← byte_at m p;
  let enc := if b <? ZIP_STR_MASK then Z.land b ZIP_STR_MASK else b in
  if enc <? ZIP_STR_MASK then
    if enc =? ZIP_STR_06B then Some (enc, 1, Z.land b 63)
    else if enc =? ZIP_STR_14B then
      b1 ← byte_at m (p + 1); Some (enc, 2, Z.lor (Z.shiftl (Z.land b 63) 8) b1)
    else if enc =? ZIP_STR_32B then
      b1 ← byte_at m (p + 1); b2 ← byte_at m (p + 2); b3 ← byte_at m (p + 3); b4 ← byte_at m (p + 4);
      Some (enc, 5, u32 (Z.lor (Z.lor (Z.lor (Z.shiftl b1 24) (Z.shiftl b2 16)) (Z.shiftl b3 8)) b4))
    else None
  else n ← zipIntSize enc; Some (enc, 1, n).

Definition zipStorePrevEntryLengthLarge (len : Z) : list Z := ZIP_BIG_PREVLEN :: le_bytes 4 len.

Definition zipStorePrevEntryLength (len : Z) : list Z :=
  if len <? ZIP_BIG_PREVLEN then [len] else zipStorePrevEntryLengthLarge len.

(** The result when [p] is NULL. *)
Definition prevlen_size (len : Z) : Z := if len <? ZIP_BIG_PREVLEN then 1 else 4 + 1.

Definition ZIP_DECODE_PREVLENSIZE (m : list Z) (p : Z) : option Z :=
  b ← byte_at m p; Some (if b <? ZIP_BIG_PREVLEN then 1 else 5).

Definition ZIP_DECODE_PREVLEN (m : list Z) (p : Z) : option (Z * Z) :=
  n ← ZIP_DECODE_PREVLENSIZE m p;
  if n =? 1 then b ← byte_at m p; Some (n, b) else x ← get_le m (p + 1) 4; Some (n, x).

Definition zipPrevLenByteDiff (m : list Z) (p len : Z) : option Z :=
  n ← ZIP_DECODE_PREVLENSIZE m p; Some (prevlen_size len - n).

Definition zipRawEntryLength (m : list Z) (p : Z) : option Z :=
  n ← ZIP_DECODE_PREVLENSIZE m p;
  '(_, lensize, len) ← ZIP_DECODE_LENGTH m (p + n);
  Some (u32 (n + lensize + len)).

(** The value and its encoding. *)
Definition zipTryEncoding (s : list Z) : option (Z * Z) :=
  let entrylen := Z.of_nat (length s) in
  if (32 <=? entrylen) || (entrylen =? 0) then None else
  value ← string2ll s;
  Some (value,
    if (0 <=? value) && (value <=? 12) then ZIP_INT_IMM_MIN + value
    else if (- 2 ^ 7 <=? value) && (value <=? 2 ^ 7 - 1) then ZIP_INT_8B
    else if (- 2 ^ 15 <=? value) && (value <=? 2 ^ 15 - 1) then ZIP_INT_16B
    else if (- 2 ^ 23 <=? value) && (value <=? 2 ^ 23 - 1) then ZIP_INT_24B
    else if (- 2 ^ 31 <=? value) && (value <=? 2 ^ 31 - 1) then ZIP_INT_32B
    else ZIP_INT_64B).

(** The bytes that are stored. *)
Definition zipSaveInteger (value enc : Z) : option (list Z) :=
  if enc =? ZIP_INT_8B then Some (le_bytes 1 value)
  else if enc =? ZIP_INT_16B then Some (le_bytes 2 value)
  else if enc =? ZIP_INT_24B then Some (drop 1 (le_bytes 4 (Z.shiftl value 8)))
  else if enc =? ZIP_INT_32B then Some (le_bytes 4 value)
  else if enc =? ZIP_INT_64B then Some (le_bytes 8 value)
  else if (ZIP_INT_IMM_MIN <=? enc) && (enc <=? ZIP_INT_IMM_MAX) then Some []
  else None.

Definition zipLoadInteger (m : list Z) (p enc : Z) : option Z :=
  if enc =? ZIP_INT_8B then s8 <$> get_le m p 1
  else if enc =? ZIP_INT_16B then s16 <$> get_le m p 2
  else if enc =? ZIP_INT_32B then s32 <$> get_le m p 4
  else if enc =? ZIP_INT_24B then b ← mread m p 3; Some (Z.shiftr (s32 (le_val (0 :: b))) 8)
  else if enc =? ZIP_INT_64B then s64 <$> get_le m p 8
  else if (ZIP_INT_IMM_MIN <=? enc) && (enc <=? ZIP_INT_IMM_MAX) then Some (Z.land enc ZIP_INT_IMM_MASK - 1)
  else None.

Definition zipEntry (m : list Z) (p : Z) : option zlentry :=
  '(psize, plen) ← ZIP_DECODE_PREVLEN m p;
  '(enc, lensize, len) ← ZIP_DECODE_LENGTH m (p + psize);
  Some (ZLEntry psize plen lensize len (psize + lensize) enc p).

Section ziplist.
Context (junk : Z).

Definition ziplistNew : option (list Z) :=
  let bytes := ZIPLIST_HEADER_SIZE + ZIPLIST_END_SIZE in
  let zl := replicate (Z.to_nat bytes) junk in
  zl ← set_le zl 0 4 bytes;
  zl ← set_le zl 4 4 ZIPLIST_HEADER_SIZE;
  zl ← set_le zl 8 2 0;
  mwrite zl (bytes - 1) [ZIP_END].

Definition ziplistResize (zl : list Z) (len : Z) : option (list Z) :=
  let len := u32 len in
  zl ← set_le (mresize junk zl (Z.to_nat len)) 0 4 len;
  mwrite zl (len - 1) [ZIP_END].

(** One iteration: the block, and the next [p] and [curlen] when the loop goes on. *)
Definition cascade_step (zl : list Z) (p curlen : Z) : option (list Z * option (Z * Z)) :=
  b ← byte_at zl p;
  if b =? ZIP_END then Some (zl, None) else
  cur ← zipEntry zl p;
  let rawlen := u32 (headersize cur + zlen cur) in
  let rawlensize := prevlen_size rawlen in
  b ← byte_at zl (p + rawlen);
  if b =? ZIP_END then Some (zl, None) else
  next ← zipEntry zl (p + rawlen);
  if prevrawlen next =? rawlen then Some (zl, None) else
  if prevrawlensize next <? rawlensize then
    let extra := rawlensize - prevrawlensize next in
    zl ← ziplistResize zl (curlen + extra);
    let np := p + rawlen in
    tail ← ZIPLIST_TAIL_OFFSET zl;
    zl ← (if negb (tail =? np) then set_le zl 4 4 (u32 (tail + extra)) else Some zl);
    zl ← mmove zl (np + rawlensize) (np + prevrawlensize next) (curlen - np - prevrawlensize next - 1);
    zl ← mwrite zl np (zipStorePrevEntryLength rawlen);
    Some (zl, Some (p + rawlen, curlen + extra))
  else if rawlensize <? prevrawlensize next then
    zl ← mwrite zl (p + rawlen) (zipStorePrevEntryLengthLarge rawlen); Some (zl, None)
  else zl ← mwrite zl (p + rawlen) (zipStorePrevEntryLength rawlen); Some (zl, None).

Fixpoint cascade_loop (fuel : nat) (zl : list Z) (p curlen : Z) : option (list Z) :=
  match fuel with
  | O => None
  | S f =>
      '(zl, go) ← cascade_step zl p curlen;
      match go with None => Some zl | Some (p, curlen) => cascade_loop f zl p curlen end
  end.

Definition __ziplistCascadeUpdate (zl : list Z) (p : Z) : option (list Z) :=
  curlen ← ZIPLIST_BYTES zl; cascade_loop (length zl) zl p curlen.

(** [for (i = 0; p[0] != ZIP_END && i < num; i++)]: the end and [deleted], which is [i]. *)
Fixpoint skip_entries (fuel : nat) (zl : list Z) (p i num : Z) : option (Z * Z) :=
  b ← byte_at zl p;
  if b =? ZIP_END then Some (p, i) else
  if num <=? i then Some (p, i) else
  match fuel with
  | O => None
  | S f => l ← zipRawEntryLength zl p; skip_entries f zl (p + l) (i + 1) num
  end.

Definition __ziplistDelete (zl : list Z) (p : Z) (num : Z) : option (list Z) :=
  first ← zipEntry zl p;
  '(p, deleted) ← skip_entries (length zl) zl p 0 num;
  let totlen := u32 (p - zp first) in
  if 0 <? totlen then
    b ← byte_at zl p;
    '(zl, nextdiff) ←
      (if negb (b =? ZIP_END) then
         nextdiff ← zipPrevLenByteDiff zl p (prevrawlen first);
         let p := p - nextdiff in
         zl ← mwrite zl p (zipStorePrevEntryLength (prevrawlen first));
         tail ← ZIPLIST_TAIL_OFFSET zl;
         zl ← set_le zl 4 4 (u32 (tail - totlen));
         e ← zipEntry zl p;
         b ← byte_at zl (p + (headersize e + zlen e));
         zl ← (if negb (b =? ZIP_END)
               then tail ← ZIPLIST_TAIL_OFFSET zl; set_le zl 4 4 (u32 (tail + nextdiff))
               else Some zl);
         bytes ← ZIPLIST_BYTES zl;
         zl ← mmove zl (zp first) p (bytes - p - 1);
         Some (zl, nextdiff)
       else
         zl ← set_le zl 4 4 (u32 (zp first - prevrawlen first));
         Some (zl, 0));
    bytes ← ZIPLIST_BYTES zl;
    zl ← ziplistResize zl (bytes - totlen + nextdiff);
    zl ← ZIPLIST_INCR_LENGTH zl (- deleted);
    if negb (nextdiff =? 0) then __ziplistCascadeUpdate zl (zp first) else Some zl
  else Some zl.

(** The length of the entry before [p]. *)
Definition insert_prevlen (zl : list Z) (p : Z) : option Z :=
  b ← byte_at zl p;
  if negb (b =? ZIP_END) then '(_, l) ← ZIP_DECODE_PREVLEN zl p; Some l
  else ptail ← ZIPLIST_TAIL_OFFSET zl;
       b ← byte_at zl ptail;
       if negb (b =? ZIP_END) then zipRawEntryLength zl ptail else Some 0.

(** The memory move and the tail offset; the block has its new size. *)
Definition insert_shift (zl : list Z) (p curlen reqlen nextdiff : Z) (forcelarge : bool) : option (list Z) :=
  b ← byte_at zl p;
  if negb (b =? ZIP_END) then
    zl ← mmove zl (p + reqlen) (p - nextdiff) (curlen - p - 1 + nextdiff);
    zl ← mwrite zl (p + reqlen)
           (if forcelarge then zipStorePrevEntryLengthLarge reqlen else zipStorePrevEntryLength reqlen);
    tail ← ZIPLIST_TAIL_OFFSET zl;
    zl ← set_le zl 4 4 (u32 (tail + reqlen));
    e ← zipEntry zl (p + reqlen);
    b ← byte_at zl (p + (reqlen + headersize e + zlen e));
    if negb (b =? ZIP_END)
    then tail ← ZIPLIST_TAIL_OFFSET zl; set_le zl 4 4 (u32 (tail + nextdiff))
    else Some zl
  else set_le zl 4 4 (u32 p).

(** The block with [reqlen] bytes free at [p] and the following entries updated. *)
Definition insert_room (zl : list Z) (p curlen reqlen : Z) : option (list Z) :=
  b ← byte_at zl p;
  nextdiff ← (if negb (b =? ZIP_END) then zipPrevLenByteDiff zl p reqlen else Some 0);
  let '(nextdiff, forcelarge) := if (nextdiff =? -4) && (reqlen <? 4) then (0, true) else (nextdiff, false) in
  zl ← ziplistResize zl (curlen + reqlen + nextdiff);
  zl ← insert_shift zl p curlen reqlen nextdiff forcelarge;
  if negb (nextdiff =? 0) then __ziplistCascadeUpdate zl (p + reqlen) else Some zl.

(** [encoding] and [value]; the encoding is 0 for a string. *)
Definition insert_write (zl : list Z) (p prevlen enc value : Z) (s : list Z) : option (list Z) :=
  let pl := zipStorePrevEntryLength prevlen in
  zl ← mwrite zl p pl;
  let p := p + Z.of_nat (length pl) in
  let eb := zipStoreEntryEncoding enc (Z.of_nat (length s)) in
  zl ← mwrite zl p eb;
  let p := p + Z.of_nat (length eb) in
  if ZIP_IS_STR enc then mwrite zl p s else data ← zipSaveInteger value enc; mwrite zl p data.

Definition __ziplistInsert (zl : list Z) (p : Z) (s : list Z) : option (list Z) :=
  let slen := Z.of_nat (length s) in
  curlen ← ZIPLIST_BYTES zl;
  prevlen ← insert_prevlen zl p;
  '(value, enc, reqlen) ←
    match zipTryEncoding s with
    | Some (value, enc) => n ← zipIntSize enc; Some (value, enc, n)
    | None => Some (123456789, 0, slen)
    end;
  let reqlen := reqlen + prevlen_size prevlen in
  let reqlen := reqlen + Z.of_nat (length (zipStoreEntryEncoding enc slen)) in
  zl ← insert_room zl p curlen reqlen;
  zl ← insert_write zl p prevlen enc value s;
  ZIPLIST_INCR_LENGTH zl 1.

(** The bytes of the target after [realloc] and the copy of the source. *)
Definition merge_copy (first second : list Z) (first_bytes second_bytes zlbytes : Z) (append : bool) : option (list Z) :=
  let target := mresize junk (if append then first else second) (Z.to_nat zlbytes) in
  if append then
    src ← mread second ZIPLIST_HEADER_SIZE (second_bytes - ZIPLIST_HEADER_SIZE);
    mwrite target (first_bytes - ZIPLIST_END_SIZE) src
  else
    target ← mmove target (first_bytes - ZIPLIST_END_SIZE) ZIPLIST_HEADER_SIZE (second_bytes - ZIPLIST_HEADER_SIZE);
    src ← mread first 0 (first_bytes - ZIPLIST_END_SIZE);
    mwrite target 0 src.

(** [None] inside is the result NULL, with both arguments unchanged; [same] says
    that both arguments are the same block. Otherwise the merged block, and
    whether it is left in [*first], the other argument being freed. *)
Definition ziplistMerge (same : bool) (first second : option (list Z)) : option (option (list Z * bool)) :=
  match first, second with
  | Some first, Some second =>
      if same then Some None else
      first_bytes ← ZIPLIST_BYTES first;
      first_len ← ZIPLIST_LENGTH first;
      second_bytes ← ZIPLIST_BYTES second;
      second_len ← ZIPLIST_LENGTH second;
      let append := second_len <=? first_len in
      let zlbytes := first_bytes + second_bytes - ZIPLIST_HEADER_SIZE - ZIPLIST_END_SIZE in
      let zllength := first_len + second_len in
      let zllength := if zllength <? UINT16_MAX then zllength else UINT16_MAX in
      first_offset ← ZIPLIST_TAIL_OFFSET first;
      second_offset ← ZIPLIST_TAIL_OFFSET second;
      target ← merge_copy first second first_bytes second_bytes zlbytes append;
      target ← set_le target 0 4 zlbytes;
      target ← set_le target 8 2 zllength;
      target ← set_le target 4 4 (u32 ((first_bytes - ZIPLIST_END_SIZE) + (second_offset - ZIPLIST_HEADER_SIZE)));
      target ← __ziplistCascadeUpdate target first_offset;
      Some (Some (target, append))
  | _, _ => Some None
  end.

Definition ZIPLIST_HEAD : Z := 0.
Definition ZIPLIST_TAIL : Z := 1.

Definition ziplistPush (zl s : list Z) (where_ : Z) : option (list Z) :=
  p ← (if where_ =? ZIPLIST_HEAD then Some ZIPLIST_ENTRY_HEAD else ZIPLIST_ENTRY_END zl);
  __ziplistInsert zl p s.

(** [while (prevlen > 0 && index--)] *)
Fixpoint index_back (fuel : nat) (zl : list Z) (p prevlen index : Z) : option (Z * Z) :=
  if prevlen <=? 0 then Some (p, index) else
  if index =? 0 then Some (p, index - 1) else
  match fuel with
  | O => None
  | S f =>
      let p := p - prevlen in
      '(_, prevlen) ← ZIP_DECODE_PREVLEN zl p;
      index_back f zl p prevlen (index - 1)
  end.

(** [while (p[0] != ZIP_END && index--)] *)
Fixpoint index_forward (fuel : nat) (zl : list Z) (p index : Z) : option (Z * Z) :=
  b ← byte_at zl p;
  if b =? ZIP_END then Some (p, index) else
  if index =? 0 then Some (p, index - 1) else
  match fuel with
  | O => None
  | S f => l ← zipRawEntryLength zl p; index_forward f zl (p + l) (index - 1)
  end.

(** The offset, or [None] inside for NULL; [-index] overflows for INT_MIN. *)
Definition ziplistIndex (zl : list Z) (index : Z) : option (option Z) :=
  '(p, index) ←
    (if index <? 0 then
       if index =? - 2 ^ 31 then None else
       let index := - index - 1 in
       p ← ZIPLIST_TAIL_OFFSET zl;
       b ← byte_at zl p;
       if negb (b =? ZIP_END)
       then '(_, prevlen) ← ZIP_DECODE_PREVLEN zl p; index_back (length zl) zl p prevlen index
       else Some (p, index)
     else index_forward (length zl) zl ZIPLIST_ENTRY_HEAD index);
  b ← byte_at zl p;
  Some (if (b =? ZIP_END) || (0 <? index) then None else Some p).

Definition ziplistNext (zl : list Z) (p : Z) : option (option Z) :=
  b ← byte_at zl p;
  if b =? ZIP_END then Some None else
  l ← zipRawEntryLength zl p;
  b ← byte_at zl (p + l);
  Some (if b =? ZIP_END then None else Some (p + l)).

Definition ziplistPrev (zl : list Z) (p : Z) : option (option Z) :=
  b ← byte_at zl p;
  if b =? ZIP_END then
    p ← ZIPLIST_TAIL_OFFSET zl;
    b ← byte_at zl p;
    Some (if b =? ZIP_END then None else Some p)
  else if p =? ZIPLIST_ENTRY_HEAD then Some None
  else '(_, prevlen) ← ZIP_DECODE_PREVLEN zl p;
       if 0 <? prevlen then Some (Some (p - prevlen)) else None.

(** [*sstr] with [*slen], or [*sval]. *)
Inductive zval := ZStr (s : list Z) | ZInt (v : Z).

Definition ziplistGet (zl : list Z) (p : option Z) : option (option zval) :=
  match p with
  | None => Some None
  | Some p =>
      b ← byte_at zl p;
      if b =? ZIP_END then Some None else
      e ← zipEntry zl p;
      if ZIP_IS_STR (encoding e) then
        s ← mread zl (p + headersize e) (zlen e); Some (Some (ZStr s))
      else v ← zipLoadInteger zl (p + headersize e) (encoding e); Some (Some (ZInt v))
  end.

Definition ziplistInsert (zl : list Z) (p : Z) (s : list Z) : option (list Z) := __ziplistInsert zl p s.

(** The block and [*p]. *)
Definition ziplistDelete (zl : list Z) (p : Z) : option (list Z * Z) :=
  zl ← __ziplistDelete zl p 1; Some (zl, p).

Definition ziplistDeleteRange (zl : list Z) (index : Z) (num : Z) : option (list Z) :=
  p ← ziplistIndex zl index;
  match p with None => Some zl | Some p => __ziplistDelete zl p num end.

Definition ziplistCompare (zl : list Z) (p : Z) (sstr : list Z) : option bool :=
  b ← byte_at zl p;
  if b =? ZIP_END then Some false else
  e ← zipEntry zl p;
  if ZIP_IS_STR (encoding e) then
    if zlen e =? Z.of_nat (length sstr)
    then s ← mread zl (p + headersize e) (zlen e); Some (bool_decide (s = sstr))
    else Some false
  else match zipTryEncoding sstr with
       | Some (sval, _) => zval ← zipLoadInteger zl (p + headersize e) (encoding e); Some (zval =? sval)
       | None => Some false
       end.

Definition UCHAR_MAX : Z := 255.

(** The comparison of the entry at [p] with [vstr]; [venc] and [vll] keep the
    integer encoding of [vstr], 0 until it is needed. *)
Definition find_compare (zl : list Z) (q enc len : Z) (vstr : list Z) (venc vll : Z) : option (bool * Z * Z) :=
  if ZIP_IS_STR enc then
    if len =? Z.of_nat (length vstr)
    then s ← mread zl q len; Some (bool_decide (s = vstr), venc, vll)
    else Some (false, venc, vll)
  else
    let '(venc, vll) :=
      if venc =? 0
      then match zipTryEncoding vstr with Some (v, e) => (e, v) | None => (UCHAR_MAX, vll) end
      else (venc, vll) in
    if venc =? 0 then None else
    if negb (venc =? UCHAR_MAX)
    then ll ← zipLoadInteger zl q enc; Some (ll =? vll, venc, vll)
    else Some (false, venc, vll).

Fixpoint find_loop (fuel : nat) (zl : list Z) (p : Z) (vstr : list Z) (skip skipcnt venc vll : Z) : option (option Z) :=
  b ← byte_at zl p;
  if b =? ZIP_END then Some None else
  match fuel with
  | O => None
  | S f =>
      prevlensize ← ZIP_DECODE_PREVLENSIZE zl p;
      '(enc, lensize, len) ← ZIP_DECODE_LENGTH zl (p + prevlensize);
      let q := p + prevlensize + lensize in
      if skipcnt =? 0 then
        '(found, venc, vll) ← find_compare zl q enc len vstr venc vll;
        if (found : bool) then Some (Some p) else find_loop f zl (q + len) vstr skip (s32 skip) venc vll
      else find_loop f zl (q + len) vstr skip (skipcnt - 1) venc vll
  end.

(** The offset, or [None] inside for NULL. *)
Definition ziplistFind (zl : list Z) (p : Z) (vstr : list Z) (skip : Z) : option (option Z) :=
  find_loop (length zl) zl p vstr skip 0 0 0.

Fixpoint count_entries (fuel : nat) (zl : list Z) (p len : Z) : option Z :=
  b ← byte_at zl p;
  if b =? ZIP_END then Some len else
  match fuel with
  | O => None
  | S f => l ← zipRawEntryLength zl p; count_entries f zl (p + l) (len + 1)
  end.

(** The block, whose length field may be updated, and the length. *)
Definition ziplistLen (zl : list Z) : option (list Z * Z) :=
  l ← ZIPLIST_LENGTH zl;
  if l <? UINT16_MAX then Some (zl, l) else
  len ← count_entries (length zl) zl ZIPLIST_HEADER_SIZE 0;
  zl ← (if len <? UINT16_MAX then set_le zl 8 2 len else Some zl);
  Some (zl, len).

Definition ziplistBlobLen (zl : list Z) : option Z := ZIPLIST_BYTES zl.

End ziplist.
