(* ===== verification/ZiplistRep.v ===== *)
(** * ziplist.c: what a block holds

    The entries of a block as a list of [zent] values, with the representation
    predicate [zl_rep]; decoding of one entry, the effect of resizing and moving
    memory, and of the cascading update. *)

From S2P Require Import Prelude Decimal Sds Util Ziplist.

(** ** Entries *)

(** What an entry holds: a string, or an integer with its encoding. *)
Inductive payload := PStr (s : list Z) | PInt (enc v : Z).

Record zent := ZE { zbig : bool; zprev : Z; zpay : payload }.

(** Width in bytes of an encoding and the values it can hold. *)
Definition int_ok (enc v : Z) : Prop :=
  (enc = ZIP_INT_8B ∧ in_s 8 v) ∨ (enc = ZIP_INT_16B ∧ in_s 16 v) ∨ (enc = ZIP_INT_24B ∧ in_s 24 v) ∨
  (enc = ZIP_INT_32B ∧ in_s 32 v) ∨ (enc = ZIP_INT_64B ∧ in_s 64 v) ∨ (0 ≤ v ≤ 12 ∧ enc = ZIP_INT_IMM_MIN + v).

Definition int_width (enc : Z) : nat :=
  if enc =? ZIP_INT_8B then 1 else if enc =? ZIP_INT_16B then 2 else if enc =? ZIP_INT_24B then 3
  else if enc =? ZIP_INT_32B then 4 else if enc =? ZIP_INT_64B then 8 else 0.

Definition pay_head (y : payload) : list Z :=
  match y with PStr s => zipStoreEntryEncoding 0 (Z.of_nat (length s)) | PInt enc v => [enc] end.
Definition pay_data (y : payload) : list Z :=
  match y with PStr s => s | PInt enc v => le_bytes (int_width enc) v end.
Definition pay_bytes (y : payload) : list Z := pay_head y ++ pay_data y.
Definition pay_ok (y : payload) : Prop :=
  match y with PStr s => Z.of_nat (length s) < 2 ^ 32 | PInt enc v => int_ok enc v end.

Definition prev_bytes (e : zent) : list Z := if zbig e then ZIP_BIG_PREVLEN :: le_bytes 4 (zprev e) else [zprev e].
Definition psize (e : zent) : Z := if zbig e then 5 else 1.
Definition ent_bytes (e : zent) : list Z := prev_bytes e ++ pay_bytes (zpay e).
Definition raw (e : zent) : Z := Z.of_nat (length (ent_bytes e)).

Definition ent_ok (e : zent) : Prop :=
  (if zbig e then in_u 32 (zprev e) else 0 ≤ zprev e < ZIP_BIG_PREVLEN) ∧ pay_ok (zpay e) ∧ raw e < 2 ^ 32.

Lemma length_prev_bytes e : Z.of_nat (length (prev_bytes e)) = psize e.
Proof. unfold prev_bytes, psize. by destruct (zbig e). Qed.

Lemma raw_eq e : raw e = psize e + Z.of_nat (length (pay_bytes (zpay e))).
Proof. unfold raw, ent_bytes. rewrite length_app, <- length_prev_bytes. lia. Qed.

Lemma byte_at_app pre x post p : p = Z.of_nat (length pre) → byte_at (pre ++ x :: post) p = Some x.
Proof. intros ->. unfold byte_at. change (x :: post) with ([x] ++ post). by rewrite mread_app by done. Qed.

Lemma get_le_app n pre bs post p : p = Z.of_nat (length pre) → length bs = n → get_le (pre ++ bs ++ post) p n = Some (le_val bs).
Proof. intros -> <-. unfold get_le. by rewrite mread_app by done. Qed.

Lemma set_le_app n pre bs post p x : p = Z.of_nat (length pre) → length bs = n →
  set_le (pre ++ bs ++ post) p n x = Some (pre ++ le_bytes n x ++ post).
Proof. intros -> <-. unfold set_le. by rewrite mwrite_app by (done || by rewrite length_le_bytes). Qed.

Lemma pay_head_cons y : pay_ok y → ∃ b l, pay_head y = b :: l ∧ 0 ≤ b < 255.
Proof.
  destruct y as [s|enc v]; simpl; intros Hy.
  - unfold zipStoreEntryEncoding. simpl. destruct (Z.leb_spec (Z.of_nat (length s)) 63); [|destruct (Z.leb_spec (Z.of_nat (length s)) 16383)].
    + eexists _, _. split; [done|]. rewrite Z.lor_0_l. lia.
    + eexists _, _. split; [done|]. assert (in_u 7 (Z.lor 64 (Z.land (Z.shiftr (Z.of_nat (length s)) 8) 63))) as Hr.
      { apply lor_range; [done|unfold in_u; lia|apply land_range_r; [done|unfold in_u; lia]]. }
      unfold in_u, ZIP_STR_14B in *. lia.
    + eexists _, _. split; [done|]. unfold ZIP_STR_32B. lia.
  - eexists _, _. split; [done|]. unfold int_ok, ZIP_INT_8B, ZIP_INT_16B, ZIP_INT_24B, ZIP_INT_32B, ZIP_INT_64B, ZIP_INT_IMM_MIN in Hy. lia.
Qed.

(** The first byte of an entry. *)
Lemma prev_bytes_cons e : ent_ok e → ∃ b l, prev_bytes e = b :: l ∧ b ≠ ZIP_END ∧ (b <? ZIP_BIG_PREVLEN) = negb (zbig e).
Proof.
  intros (Hp & _). unfold prev_bytes, ZIP_BIG_PREVLEN, ZIP_END in *. destruct (zbig e); eexists _, _; (split; [done|]); (split; [lia|]); simpl; [done|].
  apply Z.ltb_lt. lia.
Qed.

Lemma entry_first pre e post p : ent_ok e → p = Z.of_nat (length pre) →
  ∃ b, byte_at (pre ++ ent_bytes e ++ post) p = Some b ∧ (b =? ZIP_END) = false ∧
    ZIP_DECODE_PREVLENSIZE (pre ++ ent_bytes e ++ post) p = Some (psize e).
Proof.
  intros He Hp. destruct (prev_bytes_cons e He) as (b & l & E & Hb & Hs). exists b. unfold ZIP_DECODE_PREVLENSIZE, ent_bytes. rewrite E. simpl.
  rewrite byte_at_app by done. split_and!; [done|by apply Z.eqb_neq|]. cbn [mbind option_bind]. rewrite Hs. unfold psize. by destruct (zbig e).
Qed.

Lemma decode_prevlen pre e post p : ent_ok e → p = Z.of_nat (length pre) →
  ZIP_DECODE_PREVLEN (pre ++ ent_bytes e ++ post) p = Some (psize e, zprev e).
Proof.
  intros He Hp. destruct (entry_first pre e post p He Hp) as (b & _ & _ & E). unfold ZIP_DECODE_PREVLEN. rewrite E. cbn [mbind option_bind].
  destruct He as (Hz & _). unfold psize, ent_bytes, prev_bytes. destruct (zbig e); simpl.
  - change (ZIP_BIG_PREVLEN :: ?l) with ([ZIP_BIG_PREVLEN] ++ l).
    replace (pre ++ _) with ((pre ++ [ZIP_BIG_PREVLEN]) ++ le_bytes 4 (zprev e) ++ pay_bytes (zpay e) ++ post) by (by rewrite <- !app_assoc).
    rewrite get_le_app by (rewrite ?length_app; simpl; try rewrite length_le_bytes; try lia; done). cbn [mbind option_bind].
    by rewrite le_roundtrip_u.
  - by rewrite byte_at_app.
Qed.

Definition pay_enc (y : payload) : Z :=
  match y with
  | PStr s => if Z.of_nat (length s) <=? 63 then ZIP_STR_06B else if Z.of_nat (length s) <=? 16383 then ZIP_STR_14B else ZIP_STR_32B
  | PInt enc _ => enc
  end.

Definition is_pstr (y : payload) : bool := match y with PStr _ => true | PInt _ _ => false end.

Ltac unfold_zip := unfold int_ok, ZIP_INT_8B, ZIP_INT_16B, ZIP_INT_24B, ZIP_INT_32B, ZIP_INT_64B, ZIP_INT_IMM_MIN, ZIP_INT_IMM_MAX,
  ZIP_STR_06B, ZIP_STR_14B, ZIP_STR_32B, ZIP_STR_MASK in *.

Lemma pay_enc_str y : pay_ok y → ZIP_IS_STR (pay_enc y) = is_pstr y.
Proof.
  destruct y as [s|enc v]; simpl; intros Hy; [by repeat case_match|].
  assert (enc = 254 ∨ enc = 192 ∨ enc = 240 ∨ enc = 208 ∨ enc = 224 ∨ 241 ≤ enc ≤ 253) as He by (unfold_zip; lia).
  unfold ZIP_IS_STR. destruct He as [->|[->|[->|[->|[->|He]]]]]; try done.
  assert (enc = 64 * 3 + (enc - 192)) as E by lia. apply Z.ltb_ge. destruct (byte_split 3 (enc - 192)) as [E1 _]; [lia|lia|].
  rewrite <- E in E1. unfold ZIP_STR_MASK. rewrite Z.shiftr_div_pow2 in E1 by done. change (2 ^ 6) with 64 in E1.
  pose proof (Z.mul_div_le (Z.land enc 192) 64). lia.
Qed.

Lemma int_size enc v : int_ok enc v → zipIntSize enc = Some (Z.of_nat (int_width enc)) ∧ 192 ≤ enc < 255.
Proof.
  intros Hy. unfold zipIntSize, int_width. unfold_zip.
  destruct Hy as [[-> _]|[[-> _]|[[-> _]|[[-> _]|[[-> _]|[Hv ->]]]]]]; try done.
  rewrite !(proj2 (Z.eqb_neq _ _)) by lia. rewrite !(proj2 (Z.leb_le _ _)) by lia. split; [done|lia].
Qed.

Lemma byte_high t v : 0 ≤ t < 4 → 0 ≤ v < 64 → Z.land (64 * t + v) 192 = 64 * t.
Proof.
  intros Ht Hv. replace (64 * t + v) with (Z.lor (Z.shiftl t 6) v) by (rewrite lor_shift by lia; lia).
  rewrite Z.land_lor_distr_l. change 192 with (Z.shiftl (Z.ones 2) 6). rewrite <- Z.shiftl_land, Z.land_ones, Z.mod_small by lia.
  assert (Z.land v (Z.shiftl (Z.ones 2) 6) = 0) as ->; [|rewrite Z.lor_0_r, Z.shiftl_mul_pow2; lia].
  apply Z.bits_inj'. intros i Hi. rewrite Z.land_spec, Z.bits_0.
  destruct (Z.lt_ge_cases i 6) as [Hi6|Hi6]; [|by rewrite (testbit_above v 6) by (unfold in_u; lia)].
  rewrite Z.shiftl_spec_low by lia. apply andb_false_r.
Qed.

(** The length of a long string in four bytes. *)
Lemma be32_lor n : in_u 32 n →
  Z.lor (Z.lor (Z.lor (Z.shiftl (Z.land (Z.shiftr n 24) 255) 24) (Z.shiftl (Z.land (Z.shiftr n 16) 255) 16)) (Z.shiftl (Z.land (Z.shiftr n 8) 255) 8))
    (Z.land n 255) = n.
Proof.
  intros Hn. assert (∀ k, 0 ≤ Z.land (Z.shiftr n k) 255 < 256) as Hb.
  { intros k. apply (land_range_r (Z.shiftr n k) 255 8); [done|unfold in_u; lia]. }
  pose proof (le_roundtrip_u 4 n Hn) as E. rewrite (le_bytes_land 4) in E. cbn [seq fmap list_fmap le_val] in E.
  change (8 * Z.of_nat 0) with 0 in E. change (8 * Z.of_nat 1) with 8 in E. change (8 * Z.of_nat 2) with 16 in E. change (8 * Z.of_nat 3) with 24 in E.
  rewrite Z.shiftr_0_r in E. pose proof (Hb 0) as H0. rewrite Z.shiftr_0_r in H0. pose proof (Hb 8). pose proof (Hb 16). pose proof (Hb 24).
  set (b0 := Z.land n 255) in *. set (b1 := Z.land (Z.shiftr n 8) 255) in *. set (b2 := Z.land (Z.shiftr n 16) 255) in *.
  set (b3 := Z.land (Z.shiftr n 24) 255) in *. rewrite (lor_shift b3 _ 24) by (rewrite ?Z.shiftl_mul_pow2 by done; lia).
  rewrite (Z.shiftl_mul_pow2 b2) by done. replace (b3 * 2 ^ 24 + b2 * 2 ^ 16) with (Z.shiftl (b3 * 256 + b2) 16) by (rewrite Z.shiftl_mul_pow2 by done; lia).
  rewrite (lor_shift _ _ 16) by (rewrite ?Z.shiftl_mul_pow2 by done; lia). rewrite (Z.shiftl_mul_pow2 b1) by done.
  replace ((b3 * 256 + b2) * 2 ^ 16 + b1 * 2 ^ 8) with (Z.shiftl (b3 * 65536 + b2 * 256 + b1) 8) by (rewrite Z.shiftl_mul_pow2 by done; lia).
  rewrite lor_shift by lia. lia.
Qed.

Lemma decode_length pre y post p : pay_ok y → p = Z.of_nat (length pre) →
  ZIP_DECODE_LENGTH (pre ++ pay_bytes y ++ post) p =
    Some (pay_enc y, Z.of_nat (length (pay_head y)), Z.of_nat (length (pay_data y))).
Proof.
  intros Hy Hp. unfold ZIP_DECODE_LENGTH, pay_bytes. destruct y as [s|enc v]; cbn [pay_head pay_data pay_enc pay_ok] in *.
  - set (n := Z.of_nat (length s)) in *. unfold zipStoreEntryEncoding. change (ZIP_IS_STR 0) with true. cbv iota.
    destruct (Z.leb_spec n 63); [|destruct (Z.leb_spec n 16383)].
    + unfold ZIP_STR_06B. rewrite Z.lor_0_l. cbn [app]. rewrite (byte_at_app _ _ _ p) by done. cbn [mbind option_bind].
      destruct (byte_split 0 n) as [E1 E2]; [lia|lia|]. rewrite Z.add_0_l in E1, E2.
      rewrite (proj2 (Z.ltb_lt n ZIP_STR_MASK)) by (unfold ZIP_STR_MASK; lia).
      pose proof (byte_high 0 n ltac:(lia) ltac:(lia)) as E3. rewrite Z.add_0_l in E3. unfold ZIP_STR_MASK. rewrite E3.
      simpl (_ <? _). cbv iota. by rewrite E2.
    + assert (0 ≤ n `div` 256 < 64) by (split; [apply Z.div_pos; lia|apply Z.div_lt_upper_bound; lia]).
      assert (Z.lor ZIP_STR_14B (Z.land (Z.shiftr n 8) 63) = 64 * 1 + n `div` 256) as ->.
      { rewrite Z.shiftr_div_pow2 by done. change (2 ^ 8) with 256. change 63 with (Z.ones 6). rewrite Z.land_ones, Z.mod_small by lia.
        change ZIP_STR_14B with (Z.shiftl 1 6). rewrite lor_shift by lia. lia. }
      destruct (byte_split 1 (n `div` 256)) as [E1 E2]; [lia|lia|]. cbn [app]. rewrite (byte_at_app _ _ _ p) by done. cbn [mbind option_bind].
      rewrite (proj2 (Z.ltb_lt (64 * 1 + n `div` 256) ZIP_STR_MASK)) by (unfold ZIP_STR_MASK; lia).
      unfold ZIP_STR_MASK. rewrite byte_high, E2 by lia. change (64 * 1) with 64.
      simpl (_ <? _). cbv iota. change (?a :: ?b :: ?l) with ([a] ++ b :: l).
      rewrite (app_assoc pre), (byte_at_app _ _ _ (p + 1)) by (rewrite length_app; simpl; lia). cbn [mbind option_bind].
      change 255 with (Z.ones 8). rewrite Z.land_ones by done. rewrite lor_shift by (try apply Z.mod_pos_bound; lia).
      do 3 f_equal. pose proof (Z.div_mod n 256). change (2 ^ 8) with 256. lia.
    + cbn [app]. rewrite (byte_at_app _ _ _ p) by done. cbn [mbind option_bind]. simpl (_ <? _). cbv iota. simpl (_ <? _). cbv iota. simpl (_ =? _). cbv iota.
      assert (∀ k x l l', p + k = Z.of_nat (length (pre ++ l)) → byte_at (pre ++ l ++ x :: l') (p + k) = Some x) as Hb.
      { intros k x l l' E. rewrite app_assoc. by apply byte_at_app. }
      set (x1 := Z.land (Z.shiftr n 24) 255). set (x2 := Z.land (Z.shiftr n 16) 255). set (x3 := Z.land (Z.shiftr n 8) 255). set (x4 := Z.land n 255).
      pose proof (Hb 1 x1 [ZIP_STR_32B] (x2 :: x3 :: x4 :: s ++ post) ltac:(rewrite length_app; simpl; lia)) as E1. cbn [app] in E1. rewrite E1. cbn [mbind option_bind].
      pose proof (Hb 2 x2 [ZIP_STR_32B; x1] (x3 :: x4 :: s ++ post) ltac:(rewrite length_app; simpl; lia)) as E2. cbn [app] in E2. rewrite E2. cbn [mbind option_bind].
      pose proof (Hb 3 x3 [ZIP_STR_32B; x1; x2] (x4 :: s ++ post) ltac:(rewrite length_app; simpl; lia)) as E3. cbn [app] in E3. rewrite E3. cbn [mbind option_bind].
      pose proof (Hb 4 x4 [ZIP_STR_32B; x1; x2; x3] (s ++ post) ltac:(rewrite length_app; simpl; lia)) as E4. cbn [app] in E4. rewrite E4. cbn [mbind option_bind].
      unfold x1, x2, x3, x4. rewrite be32_lor by (unfold in_u; lia). by rewrite uwrap_small by (unfold in_u; lia).
  - destruct (int_size enc v Hy) as [Hs He]. cbn [app]. rewrite (byte_at_app _ _ _ p) by done. cbn [mbind option_bind].
    rewrite (proj2 (Z.ltb_ge enc _)) by (unfold ZIP_STR_MASK; lia). rewrite (proj2 (Z.ltb_ge enc _)) by (unfold ZIP_STR_MASK; lia).
    rewrite Hs. cbn [mbind option_bind]. by rewrite length_le_bytes.
Qed.

Lemma decode_ent_length pre e post p : ent_ok e → p = Z.of_nat (length pre) →
  ZIP_DECODE_LENGTH (pre ++ ent_bytes e ++ post) (p + psize e) =
    Some (pay_enc (zpay e), Z.of_nat (length (pay_head (zpay e))), Z.of_nat (length (pay_data (zpay e)))).
Proof.
  intros (_ & Hy & _) Hp. unfold ent_bytes. rewrite <- app_assoc, app_assoc. apply decode_length; [done|].
  rewrite length_app, <- length_prev_bytes. lia.
Qed.

Lemma raw_parts e : raw e = psize e + Z.of_nat (length (pay_head (zpay e))) + Z.of_nat (length (pay_data (zpay e))).
Proof. rewrite raw_eq. unfold pay_bytes. rewrite length_app. lia. Qed.

Lemma raw_pos e : ent_ok e → 2 ≤ raw e < 2 ^ 32.
Proof.
  intros (_ & Hy & Hr). rewrite raw_parts in Hr |- *. destruct (pay_head_cons _ Hy) as (b & l & E & _).
  rewrite E in *. cbn [length] in *. unfold psize in *. case_match; lia.
Qed.

Lemma raw_entry_length pre e post p : ent_ok e → p = Z.of_nat (length pre) →
  zipRawEntryLength (pre ++ ent_bytes e ++ post) p = Some (raw e).
Proof.
  intros He Hp. unfold zipRawEntryLength. destruct (entry_first pre e post p He Hp) as (b & _ & _ & ->). cbn [mbind option_bind].
  rewrite (decode_ent_length pre e post p He Hp). cbn [mbind option_bind]. rewrite <- raw_parts. pose proof (raw_pos e He).
  by rewrite uwrap_small by (unfold in_u; lia).
Qed.

Lemma zip_entry pre e post p : ent_ok e → p = Z.of_nat (length pre) →
  zipEntry (pre ++ ent_bytes e ++ post) p =
    Some (ZLEntry (psize e) (zprev e) (Z.of_nat (length (pay_head (zpay e)))) (Z.of_nat (length (pay_data (zpay e))))
            (psize e + Z.of_nat (length (pay_head (zpay e)))) (pay_enc (zpay e)) p).
Proof.
  intros He Hp. unfold zipEntry. rewrite (decode_prevlen pre e post p He Hp). cbn [mbind option_bind].
  by rewrite (decode_ent_length pre e post p He Hp).
Qed.

(** Integers. *)

Lemma save_integer enc v : int_ok enc v → zipSaveInteger v enc = Some (le_bytes (int_width enc) v).
Proof.
  intros Hy. unfold zipSaveInteger, int_width. unfold_zip.
  destruct Hy as [[-> _]|[[-> _]|[[-> _]|[[-> _]|[[-> _]|[Hv ->]]]]]]; try done.
  - f_equal. change (drop 1 (le_bytes 4 (Z.shiftl v 8))) with (le_bytes 3 (Z.shiftl v 8 `div` 256)). simpl (_ =? _). cbv iota.
    rewrite Z.shiftl_mul_pow2 by done. change (2 ^ 8) with 256. by rewrite Z.div_mul by done.
  - rewrite !(proj2 (Z.eqb_neq _ _)) by lia. by rewrite !(proj2 (Z.leb_le _ _)) by lia.
Qed.

Lemma load_integer pre enc v post p : int_ok enc v → p = Z.of_nat (length pre) →
  zipLoadInteger (pre ++ le_bytes (int_width enc) v ++ post) p enc = Some v.
Proof.
  intros Hy Hp. unfold zipLoadInteger.
  assert (∀ n, (0 < n)%nat → in_s (8 * Z.of_nat n) v → swrap (8 * Z.of_nat n) <$> get_le (pre ++ le_bytes n v ++ post) p n = Some v) as Hl.
  { intros n Hn Hv. rewrite get_le_app by (done || apply length_le_bytes). simpl. f_equal. by apply le_roundtrip_s. }
  unfold int_width. unfold_zip.
  destruct Hy as [[-> Hv]|[[-> Hv]|[[-> Hv]|[[-> Hv]|[[-> Hv]|[Hv ->]]]]]]; simpl (_ =? _); cbv iota.
  - by apply (Hl 1%nat); [lia|].
  - by apply (Hl 2%nat); [lia|].
  - rewrite mread_app by (done || by rewrite length_le_bytes). cbn [mbind option_bind]. f_equal.
    change (le_val (0 :: le_bytes 3 v)) with (0 + 256 * le_val (le_bytes 3 v)). rewrite le_val_bytes.
    assert (s32 (0 + 256 * (v `mod` 256 ^ Z.of_nat 3)) = 256 * v) as ->.
    { unfold in_s in Hv. change (256 ^ Z.of_nat 3) with (2 ^ 24). unfold swrap. change (2 ^ (32 - 1)) with (256 * 2 ^ 23). change (2 ^ 32) with (256 * 2 ^ 24).
      replace (0 + 256 * (v `mod` 2 ^ 24) + 256 * 2 ^ 23) with (256 * (v `mod` 2 ^ 24 + 2 ^ 23)) by lia. rewrite Z.mul_mod_distr_l by lia.
      rewrite Z.add_mod_idemp_l by lia. rewrite Z.mod_small by lia. lia. }
    rewrite Z.shiftr_div_pow2 by done. change (2 ^ 8) with 256. rewrite Z.mul_comm. by apply Z.div_mul.
  - by apply (Hl 4%nat); [lia|].
  - by apply (Hl 8%nat); [lia|].
  - rewrite !(proj2 (Z.eqb_neq _ _)) by lia. rewrite !(proj2 (Z.leb_le _ _)) by lia. simpl. f_equal. unfold ZIP_INT_IMM_MASK.
    replace (241 + v) with (16 * 15 + (v + 1)) by lia. change 15 with (Z.ones 4) at 2. rewrite Z.land_ones by done.
    change (2 ^ 4) with 16. rewrite Z.add_comm, Z.mul_comm, Z.mod_add, Z.mod_small by lia. lia.
Qed.

Lemma try_encoding s : match zipTryEncoding s with
  | Some (v, enc) => int_ok enc v ∧ in_s 64 v ∧ s = decimal_z v
  | None => True
  end.
Proof.
  unfold zipTryEncoding. destruct (_ || _); [done|]. destruct (string2ll s) as [v|] eqn:E; [|done]. cbn [mbind option_bind].
  apply string2ll_spec in E as [Hv Es]. split_and!; [|done|done]. unfold int_ok, in_s in *.
  destruct (Z.leb_spec 0 v), (Z.leb_spec v 12); simpl andb; cbv iota; [right; right; right; right; right; split; [lia|done]|..].
  all: destruct (Z.leb_spec (- 2 ^ 7) v), (Z.leb_spec v (2 ^ 7 - 1)); simpl andb; cbv iota; try (left; split; [done|lia]); try lia.
  all: destruct (Z.leb_spec (- 2 ^ 15) v), (Z.leb_spec v (2 ^ 15 - 1)); simpl andb; cbv iota; try (right; left; split; [done|lia]); try lia.
  all: destruct (Z.leb_spec (- 2 ^ 23) v), (Z.leb_spec v (2 ^ 23 - 1)); simpl andb; cbv iota; try (right; right; left; split; [done|lia]); try lia.
  all: destruct (Z.leb_spec (- 2 ^ 31) v), (Z.leb_spec v (2 ^ 31 - 1)); simpl andb; cbv iota; try (right; right; right; left; split; [done|lia]); try lia.
  all: right; right; right; right; left; (split; [done|lia]).
Qed.

(** ** The block *)

Definition zhdr (b t l : Z) : list Z := le_bytes 4 b ++ le_bytes 4 t ++ le_bytes 2 l.

(** A block with tail offset [t], length field [l] and [X] between header and end. *)
Definition zmem (t l : Z) (X : list Z) : list Z := zhdr (11 + Z.of_nat (length X)) t l ++ X ++ [ZIP_END].

Lemma length_zhdr b t l : length (zhdr b t l) = 10%nat.
Proof. unfold zhdr. by rewrite !length_app, !length_le_bytes. Qed.

Lemma length_zmem t l X : Z.of_nat (length (zmem t l X)) = 11 + Z.of_nat (length X).
Proof. unfold zmem. rewrite !length_app, length_zhdr. simpl. lia. Qed.

Lemma get_le_app0 n bs post : length bs = n → get_le (bs ++ post) 0 n = Some (le_val bs).
Proof. by apply (get_le_app n []). Qed.

Lemma set_le_app0 n bs post x : length bs = n → set_le (bs ++ post) 0 n x = Some (le_bytes n x ++ post).
Proof. by apply (set_le_app n []). Qed.

(** Position of [B] in the block. *)
Lemma zmem_split t l A B R : zmem t l (A ++ B ++ R) =
  (zhdr (11 + Z.of_nat (length (A ++ B ++ R))) t l ++ A) ++ B ++ (R ++ [ZIP_END]).
Proof. unfold zmem. by rewrite <- !app_assoc. Qed.

Lemma zmem_pos b t l A : Z.of_nat (length (zhdr b t l ++ A)) = 10 + Z.of_nat (length A).
Proof. rewrite length_app, length_zhdr. lia. Qed.

Lemma zmem_bytes t l X : 11 + Z.of_nat (length X) < 2 ^ 32 → ZIPLIST_BYTES (zmem t l X) = Some (11 + Z.of_nat (length X)).
Proof.
  intros HX. unfold ZIPLIST_BYTES, zmem, zhdr. rewrite <- !app_assoc.
  rewrite get_le_app0 by apply length_le_bytes. by rewrite le_roundtrip_u by (unfold in_u; simpl; lia).
Qed.

Lemma zmem_tail t l X : in_u 32 t → ZIPLIST_TAIL_OFFSET (zmem t l X) = Some t.
Proof.
  intros Ht. unfold ZIPLIST_TAIL_OFFSET, zmem, zhdr. rewrite <- !app_assoc. rewrite get_le_app by (done || by rewrite length_le_bytes).
  by rewrite le_roundtrip_u.
Qed.

Lemma zmem_set_tail t l X t' : set_le (zmem t l X) 4 4 t' = Some (zmem t' l X).
Proof. unfold zmem, zhdr. rewrite <- !app_assoc. by rewrite set_le_app by (done || by rewrite length_le_bytes). Qed.

Lemma zmem_length t l X : in_u 16 l → ZIPLIST_LENGTH (zmem t l X) = Some l.
Proof.
  intros Hl. unfold ZIPLIST_LENGTH, zmem, zhdr. rewrite <- !app_assoc, app_assoc. rewrite get_le_app by (rewrite ?length_app, ?length_le_bytes; done).
  by rewrite le_roundtrip_u.
Qed.

Lemma zmem_set_length t l X l' : set_le (zmem t l X) 8 2 l' = Some (zmem t l' X).
Proof.
  unfold zmem, zhdr. rewrite <- !app_assoc, app_assoc. rewrite set_le_app by (rewrite ?length_app, ?length_le_bytes; done). by rewrite <- app_assoc.
Qed.

Lemma zmem_write t l A B R bs p : p = 10 + Z.of_nat (length A) → length bs = length B →
  mwrite (zmem t l (A ++ B ++ R)) p bs = Some (zmem t l (A ++ bs ++ R)).
Proof.
  intros -> Hl. rewrite zmem_split, mwrite_app by (done || by rewrite zmem_pos). rewrite zmem_split. do 5 f_equal. rewrite !length_app. lia.
Qed.

Lemma zmem_end t l X p : p = 10 + Z.of_nat (length X) → byte_at (zmem t l X) p = Some ZIP_END.
Proof. intros ->. unfold zmem. rewrite app_assoc. apply byte_at_app. by rewrite zmem_pos. Qed.

Lemma zmem_entry t l A e R p : ent_ok e → p = 10 + Z.of_nat (length A) →
  zipEntry (zmem t l (A ++ ent_bytes e ++ R)) p =
    Some (ZLEntry (psize e) (zprev e) (Z.of_nat (length (pay_head (zpay e)))) (Z.of_nat (length (pay_data (zpay e))))
            (psize e + Z.of_nat (length (pay_head (zpay e)))) (pay_enc (zpay e)) p).
Proof. intros He ->. rewrite zmem_split. apply zip_entry; [done|]. by rewrite zmem_pos. Qed.

Lemma zmem_first t l A e R p : ent_ok e → p = 10 + Z.of_nat (length A) →
  ∃ b, byte_at (zmem t l (A ++ ent_bytes e ++ R)) p = Some b ∧ (b =? ZIP_END) = false ∧
    ZIP_DECODE_PREVLENSIZE (zmem t l (A ++ ent_bytes e ++ R)) p = Some (psize e).
Proof. intros He ->. rewrite zmem_split. apply entry_first; [done|]. by rewrite zmem_pos. Qed.

(** [realloc] to [n] bytes. *)
Lemma zmem_resize junk t l X n : 11 ≤ n < 2 ^ 32 → ∃ Y, ziplistResize junk (zmem t l X) n = Some (zmem t l Y) ∧
  Y = take (Z.to_nat (n - 11)) (X ++ ZIP_END :: replicate (Z.to_nat (n - 11)) junk).
Proof.
  intros Hn. eexists. split; [|done]. unfold ziplistResize. rewrite uwrap_small by (unfold in_u; lia).
  set (k := Z.to_nat (n - 11)). assert (Z.to_nat n = 10 + S k)%nat as -> by lia. unfold mresize, zmem at 1 2.
  set (b := 11 + Z.of_nat (length X)). rewrite length_app, length_zhdr, length_app. simpl length.
  rewrite take_app_ge by (rewrite length_zhdr; lia). rewrite length_zhdr. replace (10 + S k - 10)%nat with (S k) by lia.
  replace (10 + S k - (10 + (length X + 1)))%nat with (S k - (length X + 1))%nat by lia. rewrite <- app_assoc.
  assert (∃ c, take (S k) (X ++ [ZIP_END]) ++ replicate (S k - (length X + 1)) junk =
    take k (X ++ ZIP_END :: replicate k junk) ++ [c]) as [c ->].
  { set (W := X ++ ZIP_END :: replicate k junk). assert (take (S k) (X ++ [ZIP_END]) ++ replicate (S k - (length X + 1)) junk = take (S k) W) as ->.
    { unfold W. change (ZIP_END :: replicate k junk) with ([ZIP_END] ++ replicate k junk). rewrite app_assoc, (take_app (X ++ [ZIP_END]) (replicate k junk)), length_app. simpl length.
      f_equal. rewrite take_replicate. f_equal. lia. }
    assert (k < length W)%nat as Hk by (unfold W; rewrite length_app; simpl; rewrite length_replicate; lia).
    destruct (lookup_lt_is_Some_2 W k Hk) as [c Hc]. exists c. by apply take_S_r. }
  set (Y := take k _). assert (length Y = k) as HY.
  { unfold Y. rewrite length_take, length_app. simpl. rewrite length_replicate. lia. }
  unfold zhdr at 1. rewrite <- !app_assoc. rewrite set_le_app0 by apply length_le_bytes. cbn [mbind option_bind].
  replace (le_bytes 4 n ++ _) with ((zhdr n t l ++ Y) ++ [c] ++ []) by (unfold zhdr; by rewrite <- !app_assoc, app_nil_r).
  rewrite mwrite_app by (rewrite ?zmem_pos; simpl; lia). unfold zmem. rewrite app_nil_r, <- app_assoc. do 3 f_equal. lia.
Qed.

Lemma zmem_grow junk t l X n : 11 + Z.of_nat (length X) < n < 2 ^ 32 →
  ∃ J, ziplistResize junk (zmem t l X) n = Some (zmem t l (X ++ ZIP_END :: J)) ∧ Z.of_nat (length J) = n - 12 - Z.of_nat (length X).
Proof.
  intros Hn. destruct (zmem_resize junk t l X n) as (Y & E & EY); [lia|]. rewrite take_app_ge in EY by lia.
  assert (Z.to_nat (n - 11) - length X = S (Z.to_nat (n - 12) - length X))%nat as Ek by lia. rewrite Ek in EY. cbn [firstn] in EY.
  rewrite take_replicate in EY. eexists. rewrite E, EY. split; [done|]. rewrite length_replicate. lia.
Qed.

Lemma zmem_shrink junk t l Y R n : n = 11 + Z.of_nat (length Y) → n < 2 ^ 32 →
  ziplistResize junk (zmem t l (Y ++ R)) n = Some (zmem t l Y).
Proof.
  intros -> Hn. destruct (zmem_resize junk t l (Y ++ R) (11 + Z.of_nat (length Y))) as (Z & E & EZ); [lia|]. rewrite E. do 2 f_equal.
  rewrite EZ, <- app_assoc. replace (Z.to_nat _) with (length Y) by lia. apply take_app_length.
Qed.

(** A move of [bs] onto [old]. *)
Lemma mmove_app m m1 bs m2 d1 old d2 dst src n : m = m1 ++ bs ++ m2 → m = d1 ++ old ++ d2 → src = Z.of_nat (length m1) →
  dst = Z.of_nat (length d1) → n = Z.of_nat (length bs) → length old = length bs →
  mmove m dst src n = Some (d1 ++ bs ++ d2).
Proof.
  intros E1 E2 -> -> -> Hl. unfold mmove. rewrite E1, mread_app by done. cbn [mbind option_bind]. rewrite <- E1, E2.
  by apply mwrite_app.
Qed.

(** ** Lists of entries *)

Definition body (es : list zent) : list Z := es ≫= ent_bytes.

(** Every entry has the length of the one before it. *)
Fixpoint chain (prev : Z) (es : list zent) : Prop :=
  match es with [] => True | e :: es' => zprev e = prev ∧ chain (raw e) es' end.

(** Where the last entry starts. *)
Fixpoint tail_off (es : list zent) : Z :=
  match es with [] => 0 | e :: es' => match es' with [] => 0 | _ => raw e + tail_off es' end end.

Lemma body_cons e es : body (e :: es) = ent_bytes e ++ body es.
Proof. done. Qed.

Lemma body_app es1 es2 : body (es1 ++ es2) = body es1 ++ body es2.
Proof. apply bind_app. Qed.

Lemma length_body_cons e es : Z.of_nat (length (body (e :: es))) = raw e + Z.of_nat (length (body es)).
Proof. rewrite body_cons, length_app. unfold raw. lia. Qed.

Lemma raw_set e b r : psize e = psize (ZE b r (zpay e)) → raw (ZE b r (zpay e)) = raw e.
Proof. intros Hp. rewrite !raw_eq, <- Hp. done. Qed.

(** What the cascading update does to the entries behind [e]. *)
Fixpoint casc (e : zent) (rest : list zent) : list zent :=
  match rest with
  | [] => []
  | n :: rest' =>
      if zprev n =? raw e then rest
      else if negb (zbig n) && (ZIP_BIG_PREVLEN <=? raw e)
      then let n' := ZE true (raw e) (zpay n) in n' :: casc n' rest'
      else ZE (zbig n) (raw e) (zpay n) :: rest'
  end.

Lemma casc_pay e rest : zpay <$> casc e rest = zpay <$> rest.
Proof. revert e. induction rest as [|n rest IH]; intros e; simpl; [done|]. repeat case_match; simpl; [done|by rewrite IH|done]. Qed.

Lemma casc_length e rest : length (casc e rest) = length rest.
Proof. rewrite <- (length_fmap zpay), casc_pay. apply length_fmap. Qed.

(** The entries behind the first one are right. *)
Definition chain_tl (es : list zent) : Prop := match es with [] => True | n :: es' => chain (raw n) es' end.

Lemma casc_chain e rest : chain_tl rest → chain (raw e) (casc e rest).
Proof.
  revert e. induction rest as [|n rest IH]; intros e Hc; [done|]. simpl in Hc |- *. destruct (Z.eqb_spec (zprev n) (raw e)); [done|].
  destruct (negb (zbig n) && _) eqn:Eb; simpl; (split; [done|]).
  - apply IH. destruct rest; [done|]. apply Hc.
  - rewrite (raw_set n) by done. done.
Qed.

Lemma ent_ok_set n b r : ent_ok n → 0 ≤ r < 2 ^ 32 → (b = false → r < ZIP_BIG_PREVLEN) → raw n + 4 < 2 ^ 32 → ent_ok (ZE b r (zpay n)).
Proof.
  intros (_ & Hy & Hr) H1 H2 H3. split_and!; [|done|].
  - unfold in_u. simpl. destruct b; [lia|]. split; [lia|]. by apply H2.
  - rewrite raw_eq in *. unfold psize in *. simpl in *. repeat case_match; lia.
Qed.

Lemma casc_ok e rest : ent_ok e → Forall ent_ok rest → Z.of_nat (length (body rest)) + 4 * Z.of_nat (length rest) < 2 ^ 32 → Forall ent_ok (casc e rest) ∧
  Z.of_nat (length (body (casc e rest))) ≤ Z.of_nat (length (body rest)) + 4 * Z.of_nat (length rest).
Proof.
  revert e. induction rest as [|n rest IH]; intros e He Hr Hb; [done|]. rewrite length_body_cons in Hb. cbn [length] in Hb.
  apply Forall_cons in Hr as [Hn Hr]. pose proof (raw_pos e He). pose proof (raw_pos n Hn). cbn [casc]. rewrite length_body_cons. cbn [length].
  destruct (zprev n =? raw e); [split; [by constructor|rewrite length_body_cons; lia]|].
  destruct (negb (zbig n) && _) eqn:Eb.
  - assert (ent_ok (ZE true (raw e) (zpay n))) as Hn' by (apply ent_ok_set; [done|lia|done|lia]).
    destruct (IH _ Hn' Hr) as [H1 H2]; [lia|]. split; [by constructor|]. rewrite length_body_cons. apply andb_true_iff in Eb as [Eb _].
    apply negb_true_iff in Eb. rewrite (raw_eq n), (raw_eq (ZE _ _ _)). unfold psize. rewrite Eb. simpl zbig. cbv iota. simpl zpay. lia.
  - split; [constructor; [|done]|rewrite length_body_cons, (raw_set n) by done; lia].
    apply ent_ok_set; [done|lia| |lia]. intros Ef. rewrite Ef in Eb. simpl in Eb. apply Z.leb_gt in Eb. lia.
Qed.

Lemma psize_prevlen n e : prevlen_size (raw e) = psize n ↔ (zbig n = (ZIP_BIG_PREVLEN <=? raw e)).
Proof.
  unfold prevlen_size, psize. destruct (Z.ltb_spec (raw e) ZIP_BIG_PREVLEN), (Z.leb_spec ZIP_BIG_PREVLEN (raw e)); try lia; by destruct (zbig n).
Qed.

Lemma prev_bytes_set b r y : (b = false → r < ZIP_BIG_PREVLEN) →
  prev_bytes (ZE b r y) = if b then zipStorePrevEntryLengthLarge r else zipStorePrevEntryLength r.
Proof.
  intros Hb. unfold prev_bytes, zipStorePrevEntryLengthLarge, zipStorePrevEntryLength. simpl. destruct b; [done|].
  by rewrite (proj2 (Z.ltb_lt _ _)) by auto.
Qed.

Lemma ent_bytes_set b r y : (b = false → r < ZIP_BIG_PREVLEN) →
  ent_bytes (ZE b r y) = (if b then zipStorePrevEntryLengthLarge r else zipStorePrevEntryLength r) ++ pay_bytes y.
Proof. intros Hb. unfold ent_bytes. by rewrite prev_bytes_set. Qed.

Lemma tail_off_cons2 e n es : tail_off (e :: n :: es) = raw e + tail_off (n :: es).
Proof. done. Qed.

Lemma tail_off_range es : Forall ent_ok es → 0 ≤ tail_off es ≤ Z.of_nat (length (body es)).
Proof.
  induction es as [|e es IH]; intros Hes; [simpl; lia|]. apply Forall_cons in Hes as [He Hes]. rewrite length_body_cons. pose proof (raw_pos e He).
  specialize (IH Hes). destruct es; [simpl; lia|]. rewrite tail_off_cons2. lia.
Qed.

(** The tail offset depends on the first entry by its size only. *)
Lemma tail_off_size e e' es : tail_off (e' :: es) = tail_off (e :: es) + (match es with [] => 0 | _ => raw e' - raw e end).
Proof. destruct es; simpl; lia. Qed.

Lemma raw_grow n r : zbig n = false → raw (ZE true r (zpay n)) = raw n + 4.
Proof. intros Hb. rewrite !raw_eq. unfold psize. rewrite Hb. simpl. lia. Qed.

Lemma length_body_ge es : Forall ent_ok es → 2 * Z.of_nat (length es) ≤ Z.of_nat (length (body es)).
Proof.
  induction es as [|e es IH]; intros Hes; [simpl; lia|]. apply Forall_cons in Hes as [He Hes]. rewrite length_body_cons. pose proof (raw_pos e He).
  specialize (IH Hes). cbn [length]. lia.
Qed.

Lemma zmem_move t l X M1 bs M2 D1 old D2 dst src n : X = M1 ++ bs ++ M2 → X = D1 ++ old ++ D2 → src = 10 + Z.of_nat (length M1) →
  dst = 10 + Z.of_nat (length D1) → n = Z.of_nat (length bs) → length old = length bs →
  mmove (zmem t l X) dst src n = Some (zmem t l (D1 ++ bs ++ D2)).
Proof.
  intros E1 E2 -> -> -> Hl. set (H := zhdr (11 + Z.of_nat (length X)) t l).
  rewrite (mmove_app (zmem t l X) (H ++ M1) bs (M2 ++ [ZIP_END]) (H ++ D1) old (D2 ++ [ZIP_END])).
  - f_equal. rewrite zmem_split. unfold H. do 3 f_equal. rewrite E2, !length_app. lia.
  - rewrite E1, zmem_split. unfold H. by rewrite E1.
  - rewrite E2 at 1. rewrite zmem_split. unfold H. by rewrite E2.
  - unfold H. by rewrite zmem_pos.
  - unfold H. by rewrite zmem_pos.
  - done.
  - done.
Qed.

Section cascade.
Context (junk : Z).

Lemma cascade_grow t l A n R r np : ent_ok n → zbig n = false → ZIP_BIG_PREVLEN ≤ r < 2 ^ 32 → np = 10 + Z.of_nat (length A) →
  let X := A ++ ent_bytes n ++ R in
  let curlen := 11 + Z.of_nat (length X) in
  curlen + 4 < 2 ^ 32 → in_u 32 t → in_u 32 (t + 4) →
  (zl ← ziplistResize junk (zmem t l X) (curlen + 4);
   tail ← ZIPLIST_TAIL_OFFSET zl;
   zl ← (if negb (tail =? np) then set_le zl 4 4 (u32 (tail + 4)) else Some zl);
   zl ← mmove zl (np + 5) (np + 1) (curlen - np - 1 - 1);
   mwrite zl np (zipStorePrevEntryLength r)) =
  Some (zmem (if t =? np then t else t + 4) l (A ++ ent_bytes (ZE true r (zpay n)) ++ R)).
Proof.
  intros Hn Hb Hr -> X curlen Hlen Ht Ht4. destruct (zmem_grow junk t l X (curlen + 4)) as (J & -> & HJ); [lia|]. cbn [mbind option_bind].
  rewrite zmem_tail by done. cbn [mbind option_bind]. set (np := 10 + Z.of_nat (length A)).
  assert ((if negb (t =? np) then set_le (zmem t l (X ++ ZIP_END :: J)) 4 4 (u32 (t + 4)) else Some (zmem t l (X ++ ZIP_END :: J))) =
    Some (zmem (if t =? np then t else t + 4) l (X ++ ZIP_END :: J))) as ->.
  { destruct (t =? np); simpl; [done|]. by rewrite zmem_set_tail, uwrap_small. }
  cbn [mbind option_bind]. set (t' := if t =? np then t else t + 4). set (P := pay_bytes (zpay n)).
  assert (ent_bytes n = [zprev n] ++ P) as En by (unfold ent_bytes, prev_bytes, P; by rewrite Hb).
  set (W := [zprev n] ++ (P ++ R) ++ ZIP_END :: J). assert (X ++ ZIP_END :: J = A ++ W) as EX.
  { unfold X, W. rewrite En, <- !app_assoc. done. }
  assert (length W = length (P ++ R) + 5)%nat as HW by (unfold W, curlen in *; rewrite !length_app; simpl; lia).
  rewrite (zmem_move t' l _ (A ++ [zprev n]) (P ++ R) (ZIP_END :: J) (A ++ take 5 W) (drop 5 W) []).
  - cbn [mbind option_bind]. rewrite app_nil_r, <- app_assoc.
    rewrite (zmem_write t' l A (take 5 W) (P ++ R)); [|done|].
    + f_equal. f_equal. f_equal. unfold ent_bytes, prev_bytes. simpl zbig. cbv iota. unfold zipStorePrevEntryLength, zipStorePrevEntryLengthLarge.
      rewrite (proj2 (Z.ltb_ge _ _)) by lia. simpl zpay. simpl zprev. by rewrite <- app_assoc.
    + unfold zipStorePrevEntryLength, zipStorePrevEntryLengthLarge. rewrite (proj2 (Z.ltb_ge _ _)) by lia. rewrite length_take, HW. cbn [length]. rewrite length_le_bytes. lia.
  - rewrite EX. unfold W. by rewrite <- !app_assoc.
  - rewrite EX, app_nil_r, <- app_assoc. by rewrite take_drop.
  - rewrite length_app. unfold np. simpl. lia.
  - rewrite length_app, length_take, HW. unfold np. lia.
  - unfold curlen, X, np. rewrite En, !length_app. simpl. lia.
  - rewrite length_drop, HW. lia.
Qed.

Lemma cascade_step_spec t l A e rest p curlen : ent_ok e → Forall ent_ok rest → p = 10 + Z.of_nat (length A) →
  let X := A ++ ent_bytes e ++ body rest in
  curlen = 11 + Z.of_nat (length X) → curlen + 4 < 2 ^ 32 → in_u 32 t → in_u 32 (t + 4) →
  cascade_step junk (zmem t l X) p curlen =
    match rest with
    | [] => Some (zmem t l X, None)
    | n :: rest' =>
        if zprev n =? raw e then Some (zmem t l X, None)
        else if negb (zbig n) && (ZIP_BIG_PREVLEN <=? raw e)
        then Some (zmem (if t =? p + raw e then t else t + 4) l (A ++ ent_bytes e ++ body (ZE true (raw e) (zpay n) :: rest')),
                   Some (p + raw e, curlen + 4))
        else Some (zmem t l (A ++ ent_bytes e ++ body (ZE (zbig n) (raw e) (zpay n) :: rest')), None)
    end.
Proof.
  intros He Hr Hp X Hc Hlen Ht Ht4. unfold X in *. clear X. pose proof (raw_pos e He) as Hraw. unfold cascade_step.
  destruct (zmem_first t l A e (body rest) p He Hp) as (b & -> & Hb & _). cbn [mbind option_bind]. rewrite Hb.
  rewrite (zmem_entry t l A e (body rest) p He Hp). cbn [mbind option_bind headersize zlen].
  rewrite <- raw_parts, uwrap_small by (unfold in_u; lia). destruct rest as [|n rest].
  { rewrite zmem_end; [done|]. simpl. rewrite app_nil_r, length_app. unfold raw in *. lia. }
  apply Forall_cons in Hr as [Hn Hr]. assert (A ++ ent_bytes e ++ body (n :: rest) = (A ++ ent_bytes e) ++ ent_bytes n ++ body rest) as EX by (rewrite body_cons; by rewrite <- app_assoc).
  assert (p + raw e = 10 + Z.of_nat (length (A ++ ent_bytes e))) as Hnp by (rewrite length_app; unfold raw; lia).
  rewrite EX. destruct (zmem_first t l (A ++ ent_bytes e) n (body rest) (p + raw e) Hn Hnp) as (b' & -> & Hb' & _). cbn [mbind option_bind]. rewrite Hb'.
  rewrite (zmem_entry t l (A ++ ent_bytes e) n (body rest) (p + raw e) Hn Hnp). cbn [mbind option_bind prevrawlen prevrawlensize].
  destruct (zprev n =? raw e); [done|]. rewrite EX in Hc. 
  assert (∀ bs, length bs = length (prev_bytes n) → mwrite (zmem t l ((A ++ ent_bytes e) ++ ent_bytes n ++ body rest)) (p + raw e) bs =
    Some (zmem t l (A ++ ent_bytes e ++ bs ++ pay_bytes (zpay n) ++ body rest))) as Hw.
  { intros bs Hl. unfold ent_bytes at 2. rewrite <- (app_assoc (prev_bytes n)). rewrite zmem_write by done. by rewrite <- app_assoc. }
  unfold psize, prevlen_size. destruct (zbig n) eqn:Eb; simpl negb; simpl andb; cbv iota.
  - destruct (Z.ltb_spec (raw e) ZIP_BIG_PREVLEN).
    + change (5 <? 1) with false. change (1 <? 5) with true. cbv iota. rewrite Hw; [|unfold prev_bytes; by rewrite Eb]. cbn [mbind option_bind].
      rewrite body_cons, ent_bytes_set by done. by rewrite <- (app_assoc _ (pay_bytes _)).
    + change (5 <? 4 + 1) with false. change (4 + 1 <? 5) with false. cbv iota. unfold zipStorePrevEntryLength.
      rewrite (proj2 (Z.ltb_ge _ _)) by lia. rewrite Hw; [|unfold prev_bytes; by rewrite Eb]. cbn [mbind option_bind].
      rewrite body_cons, ent_bytes_set by done. by rewrite <- (app_assoc _ (pay_bytes _)).
  - destruct (Z.ltb_spec (raw e) ZIP_BIG_PREVLEN), (Z.leb_spec ZIP_BIG_PREVLEN (raw e)); try lia.
    + change (1 <? 1) with false. cbv iota.
      rewrite Hw; [|unfold prev_bytes, zipStorePrevEntryLength; rewrite Eb; by rewrite (proj2 (Z.ltb_lt _ _)) by lia]. cbn [mbind option_bind].
      rewrite body_cons, ent_bytes_set by done. by rewrite <- (app_assoc _ (pay_bytes _)).
    + change (1 <? 4 + 1) with true. cbv iota. change (4 + 1 - 1) with 4. change (4 + 1) with 5.
      pose proof (cascade_grow t l (A ++ ent_bytes e) n (body rest) (raw e) (p + raw e)) as Hg. cbv zeta in Hg.
      rewrite <- Hc in Hg. specialize (Hg Hn Eb ltac:(lia) Hnp Hlen Ht Ht4). rewrite body_cons, (app_assoc A).
      destruct (ziplistResize _ _ _) as [z1|]; [|done]. cbn [mbind option_bind] in Hg |- *. destruct (ZIPLIST_TAIL_OFFSET z1) as [tl|]; [|done].
      cbn [mbind option_bind] in Hg |- *. destruct (if negb _ then _ else _) as [z2|]; [|done]. cbn [mbind option_bind] in Hg |- *.
      destruct (mmove z2 _ _ _) as [z3|]; [|done]. cbn [mbind option_bind] in Hg |- *. by rewrite Hg.
Qed.

(** The loop fixes every entry behind [e] and the tail offset. *)
Lemma cascade_loop_spec rest : ∀ t l A e p curlen fuel, ent_ok e → Forall ent_ok rest → p = 10 + Z.of_nat (length A) →
  curlen = 11 + Z.of_nat (length (A ++ ent_bytes e ++ body rest)) → curlen + 4 * Z.of_nat (length rest) + 4 < 2 ^ 32 →
  t = p + tail_off (e :: rest) → (length rest < fuel)%nat →
  cascade_loop junk fuel (zmem t l (A ++ ent_bytes e ++ body rest)) p curlen =
    Some (zmem (p + tail_off (e :: casc e rest)) l (A ++ ent_bytes e ++ body (casc e rest))).
Proof.
  induction rest as [|n rest IH]; intros t l A e p curlen fuel He Hr Hp Hc Hlen Ht Hf; destruct fuel as [|f]; try (simpl in Hf; lia);
    (assert (in_u 32 t ∧ in_u 32 (t + 4)) as [H1 H2];
      [pose proof (tail_off_range (e :: _) (Forall_cons_2 _ _ _ He Hr)) as Hto; rewrite length_body_cons in Hto; rewrite !length_app in Hc;
       unfold raw, in_u in *; lia|]); cbn [cascade_loop]; (rewrite cascade_step_spec by first [done|lia]); cbn [mbind option_bind].
  - by rewrite Ht.
  - pose proof (raw_pos e He) as Hre. apply Forall_cons in Hr as [Hn Hr]. pose proof (raw_pos n Hn) as Hrn. cbn [casc].
    destruct (zprev n =? raw e); [cbn [mbind option_bind]; by rewrite Ht|].
    rewrite tail_off_cons2 in Ht. destruct (negb (zbig n) && _) eqn:Eb; cbn [mbind option_bind].
    + apply andb_true_iff in Eb as [Eb%negb_true_iff Eb2%Z.leb_le]. set (n' := ZE true (raw e) (zpay n)).
      assert (raw n' = raw n + 4) as En' by (by apply raw_grow). rewrite body_cons, app_assoc.
      assert (Z.of_nat (length (A ++ ent_bytes e ++ body (n :: rest))) = Z.of_nat (length A) + raw e + raw n + Z.of_nat (length (body rest))) as El.
      { rewrite body_cons, !length_app. unfold raw. lia. }
      cbn [length] in Hlen, Hf.
      rewrite (IH _ l (A ++ ent_bytes e) n' (p + raw e) (curlen + 4) f); [by rewrite tail_off_cons2, Z.add_assoc, body_cons, <- app_assoc|..]; try done; try lia.
      * apply ent_ok_set; (done || lia).
      * rewrite length_app. unfold raw. lia.
      * rewrite !length_app. unfold raw in *. fold n'. lia.
      * rewrite (tail_off_size n n'). destruct rest as [|m rest]; [change (tail_off [n]) with 0 in *; rewrite (proj2 (Z.eqb_eq _ _)); lia|].
        rewrite tail_off_cons2 in Ht. pose proof (tail_off_range (m :: rest) Hr). rewrite (proj2 (Z.eqb_neq _ _)); rewrite ?tail_off_cons2; lia.
    + do 2 f_equal. rewrite tail_off_cons2, (tail_off_size n (ZE _ _ _)), raw_set by done. destruct rest; lia.
Qed.

Lemma cascade_update_spec t l A e rest p : ent_ok e → Forall ent_ok rest → p = 10 + Z.of_nat (length A) →
  let X := A ++ ent_bytes e ++ body rest in
  11 + Z.of_nat (length X) + 4 * Z.of_nat (length rest) + 4 < 2 ^ 32 → t = p + tail_off (e :: rest) →
  __ziplistCascadeUpdate junk (zmem t l X) p = Some (zmem (p + tail_off (e :: casc e rest)) l (A ++ ent_bytes e ++ body (casc e rest))).
Proof.
  intros He Hr Hp X Hlen Ht. unfold __ziplistCascadeUpdate. rewrite zmem_bytes by lia. cbn [mbind option_bind].
  apply cascade_loop_spec; try done. apply Nat2Z.inj_lt. rewrite length_zmem. unfold X. rewrite !length_app.
  pose proof (length_body_ge rest Hr). lia.
Qed.

End cascade.

(** ** Representation *)

(** The size of the last entry, [prev] when there is none. *)
Fixpoint lastraw (prev : Z) (es : list zent) : Z := match es with [] => prev | e :: es' => lastraw (raw e) es' end.

Lemma chain_app es1 es2 prev : chain prev (es1 ++ es2) ↔ chain prev es1 ∧ chain (lastraw prev es1) es2.
Proof. revert prev. induction es1 as [|e es1 IH]; intros prev; simpl; [tauto|]. rewrite IH. tauto. Qed.

Lemma lastraw_snoc prev es e : lastraw prev (es ++ [e]) = raw e.
Proof. revert prev. induction es as [|e' es IH]; intros prev; simpl; [done|]. apply IH. Qed.

Lemma lastraw_range es : Forall ent_ok es → 0 ≤ lastraw 0 es < 2 ^ 32 ∧ (es ≠ [] → 0 < lastraw 0 es).
Proof.
  destruct es as [|e es _] using rev_ind; [done|]. intros Hes. apply Forall_app in Hes as [_ [He _]%Forall_cons].
  rewrite lastraw_snoc. pose proof (raw_pos e He). lia.
Qed.

Lemma tail_off_app es1 es2 : es2 ≠ [] → tail_off (es1 ++ es2) = Z.of_nat (length (body es1)) + tail_off es2.
Proof.
  intros Hne. induction es1 as [|e es1 IH]; [simpl; lia|]. rewrite length_body_cons. cbn [app].
  destruct (es1 ++ es2) as [|e' es] eqn:E; [by apply app_eq_nil in E as [_ ->]|]. rewrite tail_off_cons2, IH. lia.
Qed.

(** The block [zl] holds the entries [es]. *)
Definition zl_rep (zl : list Z) (es : list zent) : Prop := ∃ l,
  zl = zmem (10 + tail_off es) l (body es) ∧ chain 0 es ∧ Forall ent_ok es ∧
  in_u 16 l ∧ (l = UINT16_MAX ∨ l = Z.of_nat (length es)) ∧ 11 + Z.of_nat (length (body es)) < 2 ^ 32.

Lemma casc_id n rest : chain (raw n) rest → casc n rest = rest.
Proof. destruct rest as [|m rest]; simpl; [done|]. intros [-> _]. by rewrite Z.eqb_refl. Qed.

Lemma incr_length t l X k (n : nat) : in_u 16 l → l = UINT16_MAX ∨ l = Z.of_nat n → - Z.of_nat n ≤ k ≤ 1 →
  ∃ l', ZIPLIST_INCR_LENGTH (zmem t l X) k = Some (zmem t l' X) ∧ in_u 16 l' ∧ (l' = UINT16_MAX ∨ l' = Z.of_nat n + k).
Proof.
  intros Hl Hor Hk. unfold ZIPLIST_INCR_LENGTH. rewrite zmem_length by done. cbn [mbind option_bind]. unfold UINT16_MAX, in_u in *.
  destruct (Z.ltb_spec l 65535).
  - rewrite zmem_set_length. eexists. split; [done|]. destruct Hor as [-> | ->]; [lia|]. split; [lia|by right].
  - eexists. split; [done|]. split; [done|]. left. lia.
Qed.

