(* ===== verification/ZiplistEdit.v ===== *)
(** * ziplist.c: insertion, deletion and queries refine a list of strings *)

From S2P Require Import Prelude Decimal Sds Util Ziplist ZiplistRep.

Section insert.
Context (junk : Z).

(** [realloc] that does not shrink. *)
Lemma zmem_extend t l X n : 11 + Z.of_nat (length X) ≤ n < 2 ^ 32 →
  ∃ D, ziplistResize junk (zmem t l X) n = Some (zmem t l (X ++ D)) ∧ Z.of_nat (length D) = n - 11 - Z.of_nat (length X) ∧
    (0 < length D → head D = Some ZIP_END)%nat.
Proof.
  intros Hn. destruct (decide (n = 11 + Z.of_nat (length X))) as [->|Hne].
  - exists []. split_and!; [|simpl; lia|simpl; lia]. rewrite app_nil_r. rewrite <- (app_nil_r X) at 1. apply zmem_shrink; lia.
  - destruct (zmem_grow junk t l X n) as (J & E & HJ); [lia|]. exists (ZIP_END :: J). split_and!; [done|simpl; lia|done].
Qed.

(** Where the bytes of the next entry come from when its [prevlen] field changes its size by [d]. *)
Lemma shift_source t l A n R d : ent_ok n → d = 0 ∨ (d = -4 ∧ zbig n = true) ∨ (d = 4 ∧ zbig n = false) →
  ∃ M1 Q, zmem t l (A ++ ent_bytes n ++ R) = M1 ++ (Q ++ pay_bytes (zpay n) ++ R) ++ [ZIP_END] ∧
    Z.of_nat (length M1) = 10 + Z.of_nat (length A) - d ∧ Z.of_nat (length Q) = psize n + d.
Proof.
  intros Hn Hd. rewrite zmem_split. set (H := zhdr _ t l). unfold ent_bytes. destruct Hd as [->|[[-> Hb]|[-> Hb]]].
  - exists (H ++ A), (prev_bytes n). rewrite <- !app_assoc. unfold H. rewrite zmem_pos, length_prev_bytes. split_and!; [done|lia|lia].
  - exists ((H ++ A) ++ take 4 (prev_bytes n)), (drop 4 (prev_bytes n)). rewrite <- !app_assoc. rewrite (app_assoc (take 4 _)), take_drop.
    pose proof (length_prev_bytes n) as Hl. unfold psize in *. rewrite Hb in *. unfold H. split_and!; [done| |rewrite length_drop; lia].
    rewrite app_assoc, length_app, Nat2Z.inj_add, zmem_pos, length_take. lia.
  - set (P := H ++ A). set (k := (length P - 4)%nat). exists (take k P), (drop k P ++ prev_bytes n).
    assert (10 ≤ length P)%nat by (unfold P, H; rewrite length_app, length_zhdr; lia). rewrite <- !app_assoc. rewrite (app_assoc (take k P)), take_drop.
    split_and!; [done| |].
    + rewrite length_take. assert (Z.of_nat (length P) = 10 + Z.of_nat (length A)) by (unfold P, H; apply zmem_pos). unfold k. lia.
    + rewrite length_app, length_drop, Nat2Z.inj_add, length_prev_bytes. unfold k. lia.
Qed.

(** Making room in front of the entry [n]. *)
Lemma insert_shift_spec t l A n rest D reqlen d b : ent_ok n → Forall ent_ok rest →
  let n' := ZE b reqlen (zpay n) in
  let X := A ++ ent_bytes n ++ body rest in
  d = 0 ∨ (d = -4 ∧ zbig n = true) ∨ (d = 4 ∧ zbig n = false) → psize n' = psize n + d → ent_ok n' → 0 ≤ reqlen →
  Z.of_nat (length D) = reqlen + d → t = 10 + Z.of_nat (length A) + tail_off (n :: rest) → 15 + Z.of_nat (length (X ++ D)) < 2 ^ 32 →
  ∃ G, insert_shift (zmem t l (X ++ D)) (10 + Z.of_nat (length A)) (11 + Z.of_nat (length X)) reqlen d (b && (reqlen <? ZIP_BIG_PREVLEN)) =
    Some (zmem (10 + Z.of_nat (length A) + reqlen + tail_off (n' :: rest)) l (A ++ G ++ ent_bytes n' ++ body rest)) ∧ Z.of_nat (length G) = reqlen.
Proof.
  intros Hn Hr n' X Hd Hps Hn' Hreq HD Ht Hlen. unfold insert_shift. set (p := 10 + Z.of_nat (length A)).
  assert (X ++ D = A ++ ent_bytes n ++ (body rest ++ D)) as EXD by (unfold X; by rewrite <- !app_assoc). rewrite EXD.
  destruct (zmem_first t l A n (body rest ++ D) p Hn eq_refl) as (b0 & -> & Hb0 & _). cbn [mbind option_bind]. rewrite Hb0. simpl negb. cbv iota.
  set (P := pay_bytes (zpay n)). set (W := ent_bytes n ++ (body rest ++ D)).
  assert (Z.of_nat (length (ent_bytes n)) = psize n + Z.of_nat (length P)) as Hen by apply raw_eq.
  assert (length W = Z.to_nat reqlen + (Z.to_nat (psize n + d) + length (P ++ body rest)))%nat as HW.
  { unfold W. rewrite !length_app. unfold psize in *. repeat case_match; lia. }
  set (G := take (Z.to_nat reqlen) W). exists G. assert (Z.of_nat (length G) = reqlen) as HG by (unfold G; rewrite length_take, HW; lia). split; [|done].
  destruct (shift_source t l A n (body rest ++ D) d Hn Hd) as (M1 & Q & EM & HM1 & HQ). fold P W in EM. set (H := zhdr (11 + Z.of_nat (length (A ++ W))) t l).
  rewrite (mmove_app (zmem t l (A ++ W)) M1 (Q ++ P ++ body rest) (D ++ [ZIP_END]) (H ++ A ++ G) (drop (Z.to_nat reqlen) W) [ZIP_END]).
  2: { rewrite EM. by rewrite <- !app_assoc. }
  2: { unfold zmem. fold H. rewrite <- !app_assoc. rewrite (app_assoc G). unfold G. by rewrite take_drop. }
  2: { rewrite HM1. done. }
  2: { unfold H. rewrite app_assoc, length_app, Nat2Z.inj_add, zmem_pos. unfold p. lia. }
  2: { unfold X. rewrite !length_app. fold P. unfold p. lia. }
  2: { rewrite length_drop, HW, !length_app. lia. }
  assert ((H ++ A ++ G) ++ (Q ++ P ++ body rest) ++ [ZIP_END] = zmem t l ((A ++ G) ++ Q ++ P ++ body rest)) as ->.
  { unfold zmem, H. rewrite <- !app_assoc. do 3 f_equal. apply (f_equal length) in EM. rewrite !length_app in *. unfold psize in *. repeat case_match; lia. }
  cbn [mbind option_bind]. assert (p + reqlen = 10 + Z.of_nat (length (A ++ G))) as Hq by (rewrite length_app; unfold p; lia).
  assert ((if b && (reqlen <? ZIP_BIG_PREVLEN) then zipStorePrevEntryLengthLarge reqlen else zipStorePrevEntryLength reqlen) = prev_bytes n') as ->.
  { destruct Hn' as (Hz & _). unfold prev_bytes, zipStorePrevEntryLength, n' in *. simpl in *. destruct b; simpl; [by destruct (reqlen <? ZIP_BIG_PREVLEN)|].
    by rewrite (proj2 (Z.ltb_lt _ _)) by lia. }
  rewrite zmem_write; [|done|]. 2: { apply Nat2Z.inj. rewrite length_prev_bytes. lia. }
  cbn [mbind option_bind]. replace (prev_bytes n' ++ P ++ body rest) with (ent_bytes n' ++ body rest) by (unfold ent_bytes; by rewrite <- app_assoc).
  pose proof (tail_off_range (n :: rest) (Forall_cons_2 _ _ _ Hn Hr)) as Hto. pose proof (tail_off_range (n' :: rest) (Forall_cons_2 _ _ _ Hn' Hr)) as Hto'.
  rewrite length_body_cons in Hto, Hto'. assert (raw n' = raw n + d) as Hraw by (rewrite !raw_eq, Hps; simpl; lia).
  assert (Z.of_nat (length (X ++ D)) = Z.of_nat (length A) + raw n + Z.of_nat (length (body rest)) + reqlen + d) as HXD.
  { unfold X. rewrite !length_app. unfold raw. lia. }
  rewrite zmem_tail by (unfold in_u; lia). cbn [mbind option_bind]. rewrite zmem_set_tail. cbn [mbind option_bind].
  pose proof (raw_pos n Hn). rewrite uwrap_small by (unfold in_u; lia). rewrite (zmem_entry _ _ (A ++ G) n' (body rest)) by done.
  cbn [mbind option_bind headersize zlen].
  replace (p + (reqlen + (psize n' + Z.of_nat (length (pay_head (zpay n')))) + Z.of_nat (length (pay_data (zpay n'))))) with (p + reqlen + raw n') by (rewrite raw_parts; lia).
  destruct rest as [|m rest].
  - rewrite zmem_end by (simpl; rewrite app_nil_r, length_app; unfold raw in *; lia). cbn [mbind option_bind]. simpl negb. cbv iota.
    rewrite <- app_assoc. rewrite Ht. do 2 f_equal. simpl. unfold p. lia.
  - apply Forall_cons in Hr as [Hm Hr]. rewrite body_cons.
    destruct (zmem_first (t + reqlen) l ((A ++ G) ++ ent_bytes n') m (body rest) (p + reqlen + raw n')) as (b1 & Eb1 & Hb1 & _); [done|rewrite length_app; unfold raw in *; lia|].
    rewrite <- (app_assoc (A ++ G)) in Eb1. rewrite Eb1. cbn [mbind option_bind]. rewrite Hb1. simpl negb. cbv iota.
    rewrite zmem_tail by (unfold in_u; lia). cbn [mbind option_bind]. rewrite zmem_set_tail.
    rewrite tail_off_cons2 in *. rewrite uwrap_small by (unfold in_u; lia). rewrite <- app_assoc. do 2 f_equal. unfold p. lia.
Qed.

(** How a string is stored. *)
Definition pay_of (s : list Z) : payload := match zipTryEncoding s with Some (v, enc) => PInt enc v | None => PStr s end.

Lemma pay_of_ok s : Z.of_nat (length s) < 2 ^ 32 → pay_ok (pay_of s).
Proof. intros Hs. unfold pay_of. pose proof (try_encoding s) as H. destruct (zipTryEncoding s) as [[v enc]|]; [apply H|done]. Qed.

Lemma int_not_str enc v : int_ok enc v → ZIP_IS_STR enc = false.
Proof. intros Hi. apply (pay_enc_str (PInt enc v) Hi). Qed.

Lemma encode_parts s value enc : default (123456789, 0) (zipTryEncoding s) = (value, enc) →
  zipStoreEntryEncoding enc (Z.of_nat (length s)) = pay_head (pay_of s) ∧
  match zipTryEncoding s with
  | Some (value, enc) => n ← zipIntSize enc; Some (value, enc, n)
  | None => Some (123456789, 0, Z.of_nat (length s))
  end = Some (value, enc, Z.of_nat (length (pay_data (pay_of s)))) ∧
  (if ZIP_IS_STR enc then Some s else zipSaveInteger value enc) = Some (pay_data (pay_of s)).
Proof.
  unfold pay_of. pose proof (try_encoding s) as H. destruct (zipTryEncoding s) as [[v e]|]; simpl; intros [= <- <-]; [|done].
  destruct H as (Hi & _). rewrite (int_not_str _ _ Hi). unfold zipStoreEntryEncoding. rewrite (int_not_str _ _ Hi), (save_integer _ _ Hi).
  rewrite length_le_bytes. destruct (int_size _ _ Hi) as [-> _]. done.
Qed.

Definition new_ent (prevlen : Z) (s : list Z) : zent := ZE (ZIP_BIG_PREVLEN <=? prevlen) prevlen (pay_of s).

Lemma new_ent_bytes prevlen s : ent_bytes (new_ent prevlen s) = zipStorePrevEntryLength prevlen ++ pay_head (pay_of s) ++ pay_data (pay_of s).
Proof.
  unfold ent_bytes, prev_bytes, new_ent, zipStorePrevEntryLength. simpl.
  by destruct (Z.ltb_spec prevlen ZIP_BIG_PREVLEN), (Z.leb_spec ZIP_BIG_PREVLEN prevlen); try lia.
Qed.

Lemma length_prevlen prevlen : Z.of_nat (length (zipStorePrevEntryLength prevlen)) = prevlen_size prevlen.
Proof. unfold zipStorePrevEntryLength, prevlen_size. by case_match. Qed.

Lemma insert_write_spec t l A G R p prevlen s value enc : default (123456789, 0) (zipTryEncoding s) = (value, enc) →
  p = 10 + Z.of_nat (length A) → length G = length (ent_bytes (new_ent prevlen s)) →
  insert_write (zmem t l (A ++ G ++ R)) p prevlen enc value s = Some (zmem t l (A ++ ent_bytes (new_ent prevlen s) ++ R)).
Proof.
  intros He Hp HG. destruct (encode_parts s value enc He) as (E1 & _ & E3). unfold insert_write. rewrite E1. rewrite new_ent_bytes in *.
  set (a := zipStorePrevEntryLength prevlen) in *. set (h := pay_head (pay_of s)) in *. set (d := pay_data (pay_of s)) in *. rewrite !length_app in HG.
  assert (∃ g1 g2 g3, G = g1 ++ g2 ++ g3 ∧ length g1 = length a ∧ length g2 = length h ∧ length g3 = length d) as (g1 & g2 & g3 & -> & H1 & H2 & H3).
  { exists (take (length a) G), (take (length h) (drop (length a) G)), (drop (length h) (drop (length a) G)).
    rewrite !take_drop. rewrite !length_take, !length_drop. split_and!; (done || lia). }
  rewrite <- !app_assoc. rewrite (zmem_write t l A g1) by done. cbn [mbind option_bind].
  rewrite (app_assoc A), (zmem_write t l (A ++ a) g2) by (rewrite ?length_app; lia). cbn [mbind option_bind].
  assert ((if ZIP_IS_STR enc then mwrite (zmem t l ((A ++ a) ++ h ++ g3 ++ R)) (p + Z.of_nat (length a) + Z.of_nat (length h)) s
    else data ← zipSaveInteger value enc; mwrite (zmem t l ((A ++ a) ++ h ++ g3 ++ R)) (p + Z.of_nat (length a) + Z.of_nat (length h)) data) =
    mwrite (zmem t l ((A ++ a) ++ h ++ g3 ++ R)) (p + Z.of_nat (length a) + Z.of_nat (length h)) d) as ->.
  { destruct (ZIP_IS_STR enc); [injection E3 as E; by rewrite <- E|]. by rewrite E3. }
  rewrite (app_assoc (A ++ a)), (zmem_write t l ((A ++ a) ++ h) g3) by (rewrite ?length_app; lia). by rewrite <- !app_assoc.
Qed.

Lemma insert_prevlen_spec l pre post : chain 0 (pre ++ post) → Forall ent_ok (pre ++ post) → 11 + Z.of_nat (length (body (pre ++ post))) < 2 ^ 32 →
  insert_prevlen (zmem (10 + tail_off (pre ++ post)) l (body (pre ++ post))) (10 + Z.of_nat (length (body pre))) = Some (lastraw 0 pre).
Proof.
  intros Hc Hok Hlen. pose proof (tail_off_range _ Hok) as Hto. unfold insert_prevlen.
  apply chain_app in Hc as [_ Hc]. destruct post as [|n post].
  - rewrite app_nil_r in *. rewrite zmem_end by done. cbn [mbind option_bind]. simpl negb. cbv iota.
    rewrite zmem_tail by (unfold in_u; lia). cbn [mbind option_bind].
    destruct pre as [|e pre _] using rev_ind; [by rewrite zmem_end by done|].
    apply Forall_app in Hok as [_ [He _]%Forall_cons]. rewrite tail_off_app by done. simpl (tail_off [e]). rewrite Z.add_0_r.
    rewrite body_app. simpl (body [e]). destruct (zmem_first (10 + Z.of_nat (length (body pre))) l (body pre) e [] (10 + Z.of_nat (length (body pre))) He eq_refl) as (b & -> & Hb & _).
    cbn [mbind option_bind]. rewrite Hb. simpl negb. cbv iota. rewrite zmem_split, raw_entry_length by (done || by rewrite zmem_pos). by rewrite lastraw_snoc.
  - apply Forall_app in Hok as [_ [Hn _]%Forall_cons]. rewrite body_app, body_cons. set (t := 10 + _).
    destruct (zmem_first t l (body pre) n (body post) _ Hn eq_refl) as (b & -> & Hb & _). cbn [mbind option_bind]. rewrite Hb. simpl negb. cbv iota.
    rewrite zmem_split, decode_prevlen by (done || by rewrite zmem_pos). cbn [mbind option_bind]. by destruct Hc as [-> _].
Qed.

Lemma zmem_byte t l A x R p : p = 10 + Z.of_nat (length A) → byte_at (zmem t l (A ++ x :: R)) p = Some x.
Proof. intros ->. change (x :: R) with ([x] ++ R). rewrite zmem_split. apply byte_at_app. by rewrite zmem_pos. Qed.

Lemma length_pay_of s : Z.of_nat (length (pay_bytes (pay_of s))) ≤ Z.of_nat (length s) + 9.
Proof.
  unfold pay_of, pay_bytes. destruct (zipTryEncoding s) as [[v enc]|]; rewrite length_app; simpl.
  - rewrite length_le_bytes. unfold int_width. repeat case_match; lia.
  - unfold zipStoreEntryEncoding. simpl. repeat case_match; simpl; lia.
Qed.

Lemma new_ent_raw prevlen s : raw (new_ent prevlen s) =
  Z.of_nat (length (pay_data (pay_of s))) + prevlen_size prevlen + Z.of_nat (length (pay_head (pay_of s))).
Proof. unfold raw. rewrite new_ent_bytes, !length_app, <- length_prevlen. lia. Qed.

Lemma new_ent_ok prevlen s : 0 ≤ prevlen < 2 ^ 32 → Z.of_nat (length s) + 16 < 2 ^ 32 →
  ent_ok (new_ent prevlen s) ∧ 2 ≤ raw (new_ent prevlen s) ≤ Z.of_nat (length s) + 14.
Proof.
  intros Hp Hs. pose proof (length_pay_of s) as Hl. pose proof (pay_of_ok s ltac:(lia)) as Hok. unfold pay_bytes in Hl. rewrite length_app in Hl.
  destruct (pay_head_cons _ Hok) as (b & k & Eh & _). assert (2 ≤ raw (new_ent prevlen s) ≤ Z.of_nat (length s) + 14) as Hr.
  { rewrite new_ent_raw. unfold prevlen_size. rewrite Eh in *. cbn [length] in *. case_match; lia. }
  split; [|done]. split_and!; [|done|lia]. simpl. unfold in_u. destruct (Z.leb_spec ZIP_BIG_PREVLEN prevlen); lia.
Qed.

(** The next entry after the insertion of [reqlen] bytes: size change and flag. *)
Lemma next_field n reqlen : ent_ok n → 2 ≤ reqlen → reqlen < 2 ^ 32 → raw n + 4 < 2 ^ 32 →
  ∃ d fl b, (if (prevlen_size reqlen - psize n =? -4) && (reqlen <? 4) then (0, true) else (prevlen_size reqlen - psize n, false)) = (d, fl) ∧
    fl = b && (reqlen <? ZIP_BIG_PREVLEN) ∧ (d = 0 ∨ (d = -4 ∧ zbig n = true) ∨ (d = 4 ∧ zbig n = false)) ∧
    psize (ZE b reqlen (zpay n)) = psize n + d ∧ ent_ok (ZE b reqlen (zpay n)) ∧ 0 ≤ reqlen + d.
Proof.
  intros Hn Hr Hr32 Hraw. unfold prevlen_size, psize. destruct (zbig n) eqn:Eb, (Z.ltb_spec reqlen ZIP_BIG_PREVLEN) as [Hlt|Hge]; simpl (_ - _ =? _); simpl andb.
  - destruct (Z.ltb_spec reqlen 4) as [H4|H4].
    + exists 0, true, true. split_and!; try done; [by left|apply ent_ok_set; (done || lia)|lia].
    + exists (-4), false, false. split_and!; try done; [by right; left|apply ent_ok_set; (done || lia)|lia].
  - exists 0, false, true. split_and!; try done; [by left|apply ent_ok_set; (done || lia)|lia].
  - exists 0, false, false. split_and!; try done; [by left|apply ent_ok_set; (done || lia)|lia].
  - exists 4, false, true. split_and!; try done; [by right; right|apply ent_ok_set; (done || lia)|lia].
Qed.

Lemma insert_finish l pre R s value enc G t p : default (123456789, 0) (zipTryEncoding s) = (value, enc) →
  let x := new_ent (lastraw 0 pre) s in
  chain 0 pre → chain (raw x) R → Forall ent_ok pre → ent_ok x → Forall ent_ok R → length G = length (ent_bytes x) → in_u 16 l →
  l = UINT16_MAX ∨ l = Z.of_nat (length (pre ++ R)) → t = 10 + tail_off (pre ++ x :: R) → p = 10 + Z.of_nat (length (body pre)) →
  11 + Z.of_nat (length (body (pre ++ x :: R))) < 2 ^ 32 →
  ∃ zl', (zl ← insert_write (zmem t l (body pre ++ G ++ body R)) p (lastraw 0 pre) enc value s; ZIPLIST_INCR_LENGTH zl 1) = Some zl' ∧
    zl_rep zl' (pre ++ x :: R).
Proof.
  intros Ee x Hc1 Hc2 H1 Hx H2 HG Hl Hn -> -> Hlen. rewrite (insert_write_spec _ l (body pre) G (body R) _ _ s value enc Ee) by done. cbn [mbind option_bind].
  fold x. destruct (incr_length (10 + tail_off (pre ++ x :: R)) l (body pre ++ ent_bytes x ++ body R) 1 (length (pre ++ R)) Hl Hn) as (l' & -> & Hl' & Hn'); [lia|].
  eexists. split; [done|]. exists l'. rewrite body_app, body_cons in *. split_and!; try done.
  - apply chain_app. split; [done|]. split; [done|]. done.
  - apply Forall_app. split; [done|]. by constructor.
  - rewrite !length_app in *. cbn [length]. destruct Hn'; [by left|right; lia].
Qed.

(** What [insert_room] leaves behind the free bytes. *)
Definition room_made (pre post : list zent) (reqlen : Z) (l : Z) (zl' : list Z) (G : list Z) (R : list zent) : Prop :=
  zl' = zmem (10 + Z.of_nat (length (body pre)) + (match R with [] => 0 | _ => reqlen + tail_off R end)) l (body pre ++ G ++ body R) ∧
  Z.of_nat (length G) = reqlen ∧ chain reqlen R ∧ Forall ent_ok R ∧ zpay <$> R = zpay <$> post ∧
  Z.of_nat (length (body R)) ≤ Z.of_nat (length (body post)) + 4 * Z.of_nat (length post) + 4.

Lemma insert_room_end l pre reqlen : Forall ent_ok pre → 2 ≤ reqlen →
  Z.of_nat (length (body pre)) + reqlen + 64 < 2 ^ 32 →
  let curlen := 11 + Z.of_nat (length (body pre)) in
  ∃ zl' G, insert_room junk (zmem (10 + tail_off pre) l (body pre)) (10 + Z.of_nat (length (body pre))) curlen reqlen = Some zl' ∧
    room_made pre [] reqlen l zl' G [].
Proof.
  intros Hok Hreq Hsz curlen. unfold insert_room. rewrite zmem_end by done. cbn [mbind option_bind]. simpl negb. cbv iota.
  cbn [mbind option_bind]. simpl (_ && _). cbv iota. destruct (zmem_grow junk (10 + tail_off pre) l (body pre) (curlen + reqlen + 0)) as (J & -> & HJ);
    [unfold curlen; lia|]. cbn [mbind option_bind]. unfold insert_shift. rewrite zmem_byte by done.
  cbn [mbind option_bind]. simpl negb. cbv iota. rewrite zmem_set_tail. cbn [mbind option_bind]. simpl negb. cbv iota.
  eexists _, (ZIP_END :: J). split; [done|]. split_and!; try done; [|simpl; unfold curlen in HJ; lia].
  rewrite app_nil_r, Z.add_0_r. by rewrite uwrap_small by (unfold in_u; lia).
Qed.

Lemma insert_room_before l pre n rest reqlen : Forall ent_ok pre → ent_ok n → Forall ent_ok rest → chain (raw n) rest → 2 ≤ reqlen →
  Z.of_nat (length (body pre)) + raw n + Z.of_nat (length (body rest)) + reqlen + 4 * Z.of_nat (length rest) + 64 < 2 ^ 32 →
  let es := pre ++ n :: rest in
  ∃ zl' G R, insert_room junk (zmem (10 + tail_off es) l (body es)) (10 + Z.of_nat (length (body pre))) (11 + Z.of_nat (length (body es))) reqlen = Some zl' ∧
    room_made pre (n :: rest) reqlen l zl' G R.
Proof.
  intros Hok Hn Hrest Hc Hreq Hsz es. unfold es. rewrite body_app, body_cons. set (p := 10 + Z.of_nat (length (body pre))).
  pose proof (raw_pos n Hn) as Hrn. pose proof (tail_off_range (n :: rest) (Forall_cons_2 _ _ _ Hn Hrest)) as Hto2. rewrite tail_off_app by done.
  assert (Z.of_nat (length (body pre ++ ent_bytes n ++ body rest)) = Z.of_nat (length (body pre)) + raw n + Z.of_nat (length (body rest))) as HX
    by (rewrite !length_app; unfold raw; lia).
  rewrite Z.add_assoc. fold p. set (t := p + tail_off (n :: rest)). unfold insert_room.
  destruct (zmem_first t l (body pre) n (body rest) p Hn eq_refl) as (b0 & -> & Hb0 & Hps0). cbn [mbind option_bind]. rewrite Hb0. simpl negb. cbv iota.
  unfold zipPrevLenByteDiff. rewrite Hps0. cbn [mbind option_bind].
  destruct (next_field n reqlen) as (d & fl & b & -> & -> & Hd & Hps & Hn' & Hge); [done|lia|lia|lia|].
  destruct (zmem_extend t l (body pre ++ ent_bytes n ++ body rest) (11 + Z.of_nat (length (body pre ++ ent_bytes n ++ body rest)) + reqlen + d))
    as (D & -> & HD & _); [lia|].
  cbn [mbind option_bind]. destruct (insert_shift_spec t l (body pre) n rest D reqlen d b) as (G & EG & HG); [done..|lia|lia|done|rewrite length_app; lia|].
  cbv zeta in EG. fold p in EG. rewrite EG. cbn [mbind option_bind]. set (n' := ZE b reqlen (zpay n)) in *.
  assert (raw n' = raw n + d) as Hrn' by (rewrite !raw_eq; unfold n' at 2; simpl zpay; lia).
  destruct (casc_ok n' rest Hn' Hrest) as [Hcok Hclen]; [pose proof (length_body_ge rest Hrest); lia|].
  assert (chain (raw n') (casc n' rest)) as Hcch by (apply casc_chain; destruct rest; [done|apply Hc]).
  exists (zmem (p + (reqlen + tail_off (n' :: casc n' rest))) l (body pre ++ G ++ body (n' :: casc n' rest))), G, (n' :: casc n' rest). split.
  - rewrite Z.add_assoc, body_cons. destruct (Z.eqb_spec d 0) as [Ed|Ed]; simpl negb; cbv iota.
    + by rewrite casc_id by (by rewrite Hrn', Ed, Z.add_0_r).
    + rewrite (app_assoc (body pre)). rewrite cascade_update_spec; [by rewrite <- (app_assoc (body pre))|done|done|rewrite length_app; unfold p; lia| |done].
      rewrite !length_app. fold (raw n'). unfold raw in *. lia.
  - split_and!; try done; [by constructor|by rewrite !fmap_cons, casc_pay|]. rewrite !length_body_cons. cbn [length]. lia.
Qed.

Lemma zl_insert_spec zl pre post s : zl_rep zl (pre ++ post) →
  Z.of_nat (length (body (pre ++ post))) + Z.of_nat (length s) + 4 * Z.of_nat (length post) + 128 < 2 ^ 32 →
  ∃ zl' R, __ziplistInsert junk zl (10 + Z.of_nat (length (body pre))) s = Some zl' ∧ zl_rep zl' (pre ++ R) ∧
    zpay <$> R = pay_of s :: (zpay <$> post).
Proof.
  intros (l & -> & Hc & Hok & Hl & Hn & Hlen) Hsz. unfold __ziplistInsert. rewrite zmem_bytes by done. cbn [mbind option_bind].
  rewrite insert_prevlen_spec by done. cbn [mbind option_bind]. destruct (default (123456789, 0) (zipTryEncoding s)) as [value enc] eqn:Ee.
  destruct (encode_parts s value enc Ee) as (E1 & -> & _). cbn [mbind option_bind]. rewrite E1. set (prevlen := lastraw 0 pre).
  apply chain_app in Hc as [Hc1 Hc2]. fold prevlen in Hc2. apply Forall_app in Hok as [Hok1 Hok2].
  pose proof (lastraw_range pre Hok1) as [Hpl _]. fold prevlen in Hpl. set (x := new_ent prevlen s). rewrite body_app, length_app in Hsz, Hlen.
  destruct (new_ent_ok prevlen s Hpl ltac:(lia)) as [Hx Hxr]. fold x in Hx, Hxr. rewrite <- (new_ent_raw prevlen s). fold x.
  assert (∃ zl' G R, insert_room junk (zmem (10 + tail_off (pre ++ post)) l (body (pre ++ post))) (10 + Z.of_nat (length (body pre)))
    (11 + Z.of_nat (length (body (pre ++ post)))) (raw x) = Some zl' ∧ room_made pre post (raw x) l zl' G R) as (zl' & G & R & -> & -> & HG & HcR & HokR & HpR & HlR).
  { destruct post as [|n rest].
    - rewrite app_nil_r. destruct (insert_room_end l pre (raw x)) as (zl' & G & H); [done|lia|simpl in Hsz; lia|]. by exists zl', G, [].
    - apply Forall_cons in Hok2 as [Hnok Hrest]. apply insert_room_before; [done|done|done|apply Hc2|lia|]. rewrite Nat2Z.inj_add, length_body_cons in Hsz. cbn [length] in Hsz. lia. }
  assert (length R = length post) as HlenR by (rewrite <- (length_fmap zpay R), HpR; apply length_fmap). cbn [mbind option_bind].
  edestruct (insert_finish l pre R s value enc G) as (zl' & E & Hrep); [exact Ee|exact Hc1|exact HcR|done|exact Hx|done|..|eexists zl', _; split_and!; [exact E|exact Hrep|]]; try done.
  - unfold raw in HG. fold prevlen x. lia.
  - rewrite !length_app in *. by rewrite HlenR.
  - fold prevlen x. rewrite tail_off_app by done. destruct R as [|n' R]; [simpl; lia|]. rewrite tail_off_cons2. lia.
  - fold prevlen x. rewrite body_app, body_cons, !length_app, !Nat2Z.inj_add. fold (raw x). lia.
  - rewrite fmap_cons. by rewrite HpR.
Qed.
End insert.


(** ** Deletion *)

Section delete.
Context (junk : Z).

Lemma zmem_raw_length t l A e R p : ent_ok e → p = 10 + Z.of_nat (length A) →
  zipRawEntryLength (zmem t l (A ++ ent_bytes e ++ R)) p = Some (raw e).
Proof. intros He ->. rewrite zmem_split. apply raw_entry_length; [done|]. by rewrite zmem_pos. Qed.

Lemma skip_entries_spec t l num : ∀ es fuel A p i, Forall ent_ok es → p = 10 + Z.of_nat (length A) → (length es ≤ fuel)%nat →
  skip_entries fuel (zmem t l (A ++ body es)) p i num =
    Some (p + Z.of_nat (length (body (take (Z.to_nat (num - i)) es))), i + Z.of_nat (length (take (Z.to_nat (num - i)) es))).
Proof.
  induction es as [|e es IH]; intros fuel A p i Hes Hp Hf.
  - destruct fuel; cbn [skip_entries]; rewrite zmem_end by (by rewrite app_nil_r); rewrite take_nil; simpl; by rewrite !Z.add_0_r.
  - destruct fuel as [|fuel]; [simpl in Hf; lia|]. cbn [skip_entries]. apply Forall_cons in Hes as [He Hes]. rewrite body_cons.
    destruct (zmem_first t l A e (body es) p He Hp) as (b & -> & Hb & _). cbn [mbind option_bind]. rewrite Hb.
    destruct (Z.leb_spec num i) as [Hn|Hn]; [replace (Z.to_nat (num - i)) with O by lia; simpl; by rewrite !Z.add_0_r|].
    rewrite zmem_raw_length by done. cbn [mbind option_bind]. rewrite app_assoc, IH; [|done|rewrite length_app; unfold raw; lia|simpl in Hf; lia].
    replace (Z.to_nat (num - i)) with (S (Z.to_nat (num - (i + 1)))) by lia. cbn [firstn]. rewrite length_body_cons. cbn [length]. do 2 f_equal; lia.
Qed.

(** The [prevlen] field of the entry behind the deleted bytes [B], with [d] more bytes. *)
Lemma delete_write t l A B n R r d : ent_ok n → 0 ≤ r < 2 ^ 32 → raw n + 4 < 2 ^ 32 → (ZIP_BIG_PREVLEN ≤ r → 5 ≤ Z.of_nat (length B)) → d = prevlen_size r - psize n →
  let n' := ZE (ZIP_BIG_PREVLEN <=? r) r (zpay n) in
  ∃ K, mwrite (zmem t l (A ++ B ++ ent_bytes n ++ R)) (10 + Z.of_nat (length A) + Z.of_nat (length B) - d) (zipStorePrevEntryLength r) =
      Some (zmem t l (A ++ K ++ ent_bytes n' ++ R)) ∧ Z.of_nat (length K) = Z.of_nat (length B) - d ∧ ent_ok n' ∧ raw n' = raw n + d.
Proof.
  intros Hn Hr Hraw HB Hd n'. assert (ent_ok n') as Hn'. { apply ent_ok_set; [done..| |done]. intros E. by apply Z.leb_gt in E. }
  assert (zipStorePrevEntryLength r = prev_bytes n') as Ep.
  { unfold n'. rewrite prev_bytes_set by (intros E; by apply Z.leb_gt in E). unfold zipStorePrevEntryLength.
    destruct (Z.ltb_spec r ZIP_BIG_PREVLEN), (Z.leb_spec ZIP_BIG_PREVLEN r); (done || lia). }
  assert (psize n' = psize n + d) as Hps. { rewrite <- length_prev_bytes, <- Ep, length_prevlen. lia. }
  assert (∃ K Q, B ++ prev_bytes n = K ++ Q ∧ Z.of_nat (length Q) = psize n' ∧ Z.of_nat (length K) = Z.of_nat (length B) - d) as (K & Q & EK & HQ & HK).
  { pose proof (length_prev_bytes n) as Hpn. set (W := B ++ prev_bytes n). assert (Z.of_nat (length W) = Z.of_nat (length B) + psize n) by (unfold W; rewrite length_app; lia).
    assert (psize n' ≤ Z.of_nat (length W)).
    { unfold psize, n' in *. simpl zbig. destruct (Z.leb_spec ZIP_BIG_PREVLEN r); case_match; lia. }
    assert (0 ≤ psize n') by (unfold psize; case_match; lia).
    exists (take (length W - Z.to_nat (psize n')) W), (drop (length W - Z.to_nat (psize n')) W). rewrite take_drop, length_drop, length_take. split_and!; [done|lia|lia]. }
  exists K. split_and!; [|done|done|rewrite !raw_eq; unfold n' at 2; simpl zpay; lia]. rewrite Ep. unfold ent_bytes at 1. rewrite <- (app_assoc (prev_bytes n)), (app_assoc B), EK, <- (app_assoc K), app_assoc.
  rewrite zmem_write; [|rewrite length_app; lia|apply Nat2Z.inj; rewrite length_prev_bytes; lia]. unfold ent_bytes. by rewrite <- !app_assoc.
Qed.

(** The tail offset moves with the size of the entry at [p] unless it is the last one. *)
Lemma delete_tail t l A e rest d p : ent_ok e → Forall ent_ok rest → p = 10 + Z.of_nat (length A) → in_u 32 t → in_u 32 (t + d) →
  let zl := zmem t l (A ++ ent_bytes e ++ body rest) in
  (e' ← zipEntry zl p;
   b ← byte_at zl (p + (headersize e' + zlen e'));
   if negb (b =? ZIP_END) then tail ← ZIPLIST_TAIL_OFFSET zl; set_le zl 4 4 (u32 (tail + d)) else Some zl) =
  Some (zmem (t + match rest with [] => 0 | _ => d end) l (A ++ ent_bytes e ++ body rest)).
Proof.
  intros He Hr Hp Ht Htd zl. unfold zl. rewrite (zmem_entry t l A e (body rest) p He Hp). cbn [mbind option_bind headersize zlen].
  rewrite <- raw_parts. assert (p + raw e = 10 + Z.of_nat (length (A ++ ent_bytes e))) as Hq by (rewrite length_app; unfold raw; lia).
  destruct rest as [|m rest].
  - rewrite zmem_end by (simpl; by rewrite app_nil_r). cbn [mbind option_bind]. simpl negb. cbv iota. by rewrite Z.add_0_r.
  - apply Forall_cons in Hr as [Hm _]. rewrite body_cons, (app_assoc A).
    destruct (zmem_first t l (A ++ ent_bytes e) m (body rest) _ Hm Hq) as (b1 & -> & Hb1 & _). cbn [mbind option_bind]. rewrite Hb1. simpl negb. cbv iota.
    rewrite zmem_tail by done. cbn [mbind option_bind]. by rewrite zmem_set_tail, uwrap_small.
Qed.

Lemma first_big pre del post : del ≠ [] → chain 0 (pre ++ del ++ post) → Forall ent_ok del → ZIP_BIG_PREVLEN ≤ lastraw 0 pre →
  5 ≤ Z.of_nat (length (body del)).
Proof.
  intros Hne Hc Hok Hr. apply chain_app in Hc as [_ Hc]. destruct del as [|e del]; [done|]. apply Forall_cons in Hok as [He Hok]. destruct Hc as [Ez _].
  destruct He as (Hz & Hy & _). rewrite length_body_cons, raw_eq. unfold psize. destruct (zbig e); lia.
Qed.

(** The case that entries follow the deleted ones: everything up to the cascading update. *)
Lemma delete_move l pre del n rest : del ≠ [] → chain 0 (pre ++ del ++ n :: rest) → Forall ent_ok (pre ++ del ++ n :: rest) →
  15 + Z.of_nat (length (body (pre ++ del ++ n :: rest))) < 2 ^ 32 →
  let r := lastraw 0 pre in let d := prevlen_size r - psize n in
  let n' := ZE (ZIP_BIG_PREVLEN <=? r) r (zpay n) in
  let B := Z.of_nat (length (body del)) in let a := 10 + Z.of_nat (length (body pre)) in
  let zl := zmem (10 + tail_off (pre ++ del ++ n :: rest)) l (body (pre ++ del ++ n :: rest)) in
  let p := a + B - d in
  ent_ok n' ∧ raw n' = raw n + d ∧
  ∃ K, (zl ← mwrite zl p (zipStorePrevEntryLength r);
   tail ← ZIPLIST_TAIL_OFFSET zl;
   zl ← set_le zl 4 4 (u32 (tail - B));
   e ← zipEntry zl p;
   b ← byte_at zl (p + (headersize e + zlen e));
   zl ← (if negb (b =? ZIP_END) then tail ← ZIPLIST_TAIL_OFFSET zl; set_le zl 4 4 (u32 (tail + d)) else Some zl);
   bytes ← ZIPLIST_BYTES zl;
   zl ← mmove zl a p (bytes - p - 1);
   Some (zl, d)) = Some (zmem (a + tail_off (n' :: rest)) l ((body pre ++ ent_bytes n' ++ body rest) ++ K), d) ∧
   Z.of_nat (length K) = B - d.
Proof.
  intros Hne Hc Hok Hlen r d n' B a zl p. apply Forall_app in Hok as [Hok1 [Hok2 [Hn Hrest]%Forall_cons]%Forall_app].
  pose proof (lastraw_range pre Hok1) as [Hr _]. fold r in Hr. pose proof (raw_pos n Hn) as Hrn.
  assert (Z.of_nat (length (body (pre ++ del ++ n :: rest))) = Z.of_nat (length (body pre)) + B + raw n + Z.of_nat (length (body rest))) as HX.
  { rewrite !body_app, body_cons, !length_app. unfold raw, B. lia. }
  pose proof (tail_off_range (n :: rest) (Forall_cons_2 _ _ _ Hn Hrest)) as Hto. rewrite length_body_cons in Hto.
  assert (10 + tail_off (pre ++ del ++ n :: rest) = a + B + tail_off (n :: rest)) as Et.
  { rewrite app_assoc, tail_off_app by done. rewrite body_app, length_app. unfold a, B. lia. }
  unfold zl. rewrite Et, !body_app, body_cons. set (t := a + B + tail_off (n :: rest)).
  destruct (delete_write t l (body pre) (body del) n (body rest) r d Hn Hr) as (K & EK & HK & Hn' & Hrn'); [lia| |done|].
  { intros Hbig. by apply (first_big pre del (n :: rest)). }
  split; [done|]. split; [done|]. fold a B in EK. fold p in EK. rewrite EK. cbn [mbind option_bind]. rewrite zmem_tail by (unfold in_u; lia). cbn [mbind option_bind].
  rewrite zmem_set_tail, uwrap_small by (unfold in_u; lia). cbn [mbind option_bind]. fold n' in Hn', Hrn' |- *.
  pose proof (tail_off_range (n' :: rest) (Forall_cons_2 _ _ _ Hn' Hrest)) as Hto'. rewrite length_body_cons in Hto'.
  pose proof (delete_tail (t - B) l (body pre ++ K) n' rest d p Hn' Hrest) as Hd. cbv zeta in Hd. rewrite <- (app_assoc (body pre)) in Hd.
  specialize (Hd ltac:(rewrite length_app; unfold p, a; lia) ltac:(unfold in_u; lia) ltac:(unfold in_u, d, psize, prevlen_size, a in *; repeat case_match; lia)).
  destruct (zipEntry _ p) as [e'|]; [|done]. cbn [mbind option_bind] in Hd |- *. destruct (byte_at _ _) as [b1|]; [|done]. cbn [mbind option_bind] in Hd |- *.
  rewrite Hd. cbn [mbind option_bind]. clear Hd.
  assert (t - B + match rest with [] => 0 | _ => d end = a + tail_off (n' :: rest)) as ->.
  { rewrite (tail_off_size n n'). unfold t. destruct rest; lia. }
  set (X := body pre ++ K ++ ent_bytes n' ++ body rest).
  assert (Z.of_nat (length X) = Z.of_nat (length (body pre)) + B + raw n + Z.of_nat (length (body rest))) as HX'.
  { unfold X. rewrite !length_app, !Nat2Z.inj_add. fold (raw n'). unfold B. lia. }
  rewrite zmem_bytes by lia. cbn [mbind option_bind]. set (bs := ent_bytes n' ++ body rest). exists (drop (length bs) (K ++ bs)).
  assert (Z.of_nat (length (K ++ bs)) = B - d + Z.of_nat (length bs)) as HKb by (rewrite length_app; lia).
  assert (Z.of_nat (length bs) = raw n' + Z.of_nat (length (body rest))) as Hbs by (unfold bs; rewrite length_app; unfold raw; lia).
  assert (0 ≤ Z.of_nat (length K)) by lia. assert (length bs ≤ length (K ++ bs))%nat as Hle by (rewrite length_app; lia).
  rewrite (zmem_move (a + tail_off (n' :: rest)) l X (body pre ++ K) bs [] (body pre) (take (length bs) (K ++ bs)) (drop (length bs) (K ++ bs))).
  - cbn [mbind option_bind]. split; [by rewrite <- (app_assoc (body pre))|]. rewrite length_drop. lia.
  - unfold X, bs. by rewrite app_nil_r, <- (app_assoc (body pre)).
  - unfold X. by rewrite take_drop.
  - rewrite length_app. unfold p, a. lia.
  - done.
  - unfold p, a. lia.
  - rewrite length_take. lia.
Qed.

(** The end of the function: the length field and the cascading update behind [n]. *)
Lemma delete_finish l pre k n rest d : chain 0 (pre ++ [n]) → chain_tl rest → (d = 0 → chain (raw n) rest) → Forall ent_ok (pre ++ n :: rest) →
  in_u 16 l → l = UINT16_MAX ∨ l = Z.of_nat (length (pre ++ n :: rest)) + Z.of_nat k →
  Z.of_nat (length (body (pre ++ n :: rest))) + 4 * Z.of_nat (length rest) + 64 < 2 ^ 32 →
  ∃ zl' R, (zl ← ZIPLIST_INCR_LENGTH (zmem (10 + tail_off (pre ++ n :: rest)) l (body (pre ++ n :: rest))) (- Z.of_nat k);
    if negb (d =? 0) then __ziplistCascadeUpdate junk zl (10 + Z.of_nat (length (body pre))) else Some zl) = Some zl' ∧
    zl_rep zl' (pre ++ R) ∧ zpay <$> R = zpay <$> (n :: rest).
Proof.
  intros Hc Htl Hd Hok Hl Hn Hlen.
  destruct (incr_length (10 + tail_off (pre ++ n :: rest)) l (body (pre ++ n :: rest)) (- Z.of_nat k) (length (pre ++ n :: rest) + k)) as (l' & -> & Hl' & Hn'); [done|lia|lia|].
  cbn [mbind option_bind]. apply Forall_app in Hok as [Hok1 [Hnok Hrest]%Forall_cons]. rewrite body_app, body_cons, !length_app in Hlen. pose proof (length_body_ge rest Hrest).
  destruct (casc_ok n rest Hnok Hrest) as [Hcok Hclen]; [lia|]. pose proof (casc_chain n rest Htl) as Hcc. apply chain_app in Hc as [Hc1 [Hc2 _]].
  exists (zmem (10 + tail_off (pre ++ n :: casc n rest)) l' (body (pre ++ n :: casc n rest))), (n :: casc n rest). split; [|split].
  - rewrite !body_app, !body_cons, !tail_off_app by done. destruct (Z.eqb_spec d 0) as [Ed|Ed]; simpl negb; cbv iota; [by rewrite casc_id by auto|].
    rewrite !Z.add_assoc. rewrite cascade_update_spec; [done|done|done|done|rewrite !length_app; lia|done].
  - exists l'. split_and!; [done|..].
    + apply chain_app. split; [done|]. split; done.
    + apply Forall_app. split; [done|]. by constructor.
    + done.
    + rewrite length_app in *. cbn [length] in *. rewrite casc_length. destruct Hn'; [by left|right; lia].
    + rewrite body_app, body_cons, !length_app. lia.
  - rewrite !fmap_cons. by rewrite casc_pay.
Qed.

Lemma tail_off_last es : tail_off es = Z.of_nat (length (body es)) - lastraw 0 es.
Proof.
  destruct es as [|e es _] using rev_ind; [done|]. rewrite tail_off_app, lastraw_snoc, body_app, length_app by done. simpl (tail_off [e]).
  rewrite Nat2Z.inj_add, length_body_cons. simpl (body []). simpl. lia.
Qed.

(** Nothing is left behind the deleted entries. *)
Lemma delete_rest l pre (k : nat) : chain 0 pre → Forall ent_ok pre → in_u 16 l → l = UINT16_MAX ∨ l = Z.of_nat (length pre) + Z.of_nat k →
  11 + Z.of_nat (length (body pre)) < 2 ^ 32 →
  ∃ zl' R, (zl ← ZIPLIST_INCR_LENGTH (zmem (u32 (10 + Z.of_nat (length (body pre)) - lastraw 0 pre)) l (body pre)) (- Z.of_nat k); Some zl) = Some zl' ∧
    zl_rep zl' (pre ++ R) ∧ zpay <$> R = [].
Proof.
  intros Hc Hok Hl Hn Hlen. pose proof (tail_off_range pre Hok). pose proof (tail_off_last pre). rewrite uwrap_small by (unfold in_u; lia).
  destruct (incr_length (10 + Z.of_nat (length (body pre)) - lastraw 0 pre) l (body pre) (- Z.of_nat k) (length pre + k)) as (l' & -> & Hl' & Hn'); [done|lia|lia|].
  eexists _, []. split; [done|]. rewrite app_nil_r. split; [|done]. exists l'. split_and!; try done; [f_equal; lia|]. destruct Hn'; [by left|right; lia].
Qed.

Lemma zl_delete_spec zl pre es num : zl_rep zl (pre ++ es) → es ≠ [] →
  Z.of_nat (length (body (pre ++ es))) + 4 * Z.of_nat (length es) + 64 < 2 ^ 32 →
  ∃ zl' R, __ziplistDelete junk zl (10 + Z.of_nat (length (body pre))) num = Some zl' ∧ zl_rep zl' (pre ++ R) ∧
    zpay <$> R = zpay <$> drop (Z.to_nat num) es.
Proof.
  intros (l & -> & Hc & Hok & Hl & Hn & Hlen) Hne Hsz. pose proof Hok as [Hok1 Hok2]%Forall_app. unfold __ziplistDelete.
  set (a := 10 + Z.of_nat (length (body pre))). set (t := 10 + tail_off (pre ++ es)).
  assert (∃ f, zipEntry (zmem t l (body (pre ++ es))) a = Some f ∧ prevrawlen f = lastraw 0 pre ∧ zp f = a) as (f & -> & Ef & Ep).
  { destruct es as [|e es]; [done|]. apply Forall_cons in Hok2 as [He _]. rewrite body_app, body_cons, zmem_entry by done. eexists. split; [done|].
    apply chain_app in Hc as [_ [Hz _]]. done. }
  cbn [mbind option_bind]. rewrite body_app. rewrite skip_entries_spec; [|done|done|].
  2: { apply Nat2Z.inj_le. rewrite length_zmem, length_app. pose proof (length_body_ge es Hok2). lia. }
  cbn [mbind option_bind]. rewrite Ep, Ef, Z.sub_0_r.
  set (del := take (Z.to_nat num) es). set (post := drop (Z.to_nat num) es). assert (es = del ++ post) as Ees by (symmetry; apply take_drop). clearbody del post. subst es.
  rewrite <- body_app. set (B := Z.of_nat (length (body del))). replace (a + B - a) with B by lia.
  rewrite !body_app, !length_app in Hsz, Hlen. rewrite uwrap_small by (unfold in_u; lia). rewrite Z.add_0_l.
  destruct (Z.ltb_spec 0 B) as [HB|HB].
  2: { destruct del as [|e del]; [|apply Forall_app in Hok2 as [[He _]%Forall_cons _]; unfold B in HB; rewrite length_body_cons in HB; pose proof (raw_pos e He); lia].
       exists (zmem t l (body (pre ++ post))), post. split; [done|]. split; [|done]. exists l. split_and!; try done. rewrite body_app, length_app. lia. }
  assert (del ≠ []) as Hdel by (intros ->; done). destruct post as [|n rest].
  - rewrite app_nil_r in *. rewrite zmem_end by (unfold a, B; rewrite ?body_app, ?length_app; lia). cbn [mbind option_bind]. simpl negb. cbv iota.
    rewrite zmem_set_tail. cbn [mbind option_bind]. rewrite zmem_bytes by (rewrite body_app, length_app; lia). cbn [mbind option_bind]. rewrite body_app.
    rewrite zmem_shrink by (rewrite ?length_app; lia). cbn [mbind option_bind]. apply delete_rest; try done; [by apply chain_app in Hc as [? _]| |lia].
    by rewrite length_app, Nat2Z.inj_add in Hn.
  - pose proof Hok2 as [_ [Hnok Hrest]%Forall_cons]%Forall_app. pose proof Hc as [Hc1 [_ [_ Hc3]]%chain_app]%chain_app.
    destruct (delete_move l pre del n rest) as (Hn' & Hraw & K & EK & HK); [done..|rewrite !body_app, !length_app; lia|]. fold t a B in EK, HK.
    set (zl0 := zmem t l (body (pre ++ del ++ n :: rest))) in *.
    assert (∃ b, byte_at zl0 (a + B) = Some b ∧ (b =? ZIP_END) = false ∧ ZIP_DECODE_PREVLENSIZE zl0 (a + B) = Some (psize n)) as (b & -> & Hb & Hps).
    { unfold zl0. rewrite app_assoc, body_app, body_cons. apply zmem_first; [done|]. rewrite body_app, length_app. unfold a, B. lia. }
    cbn [mbind option_bind]. rewrite Hb. simpl negb. cbv iota. unfold zipPrevLenByteDiff. rewrite Hps. cbn [mbind option_bind]. rewrite EK. clear EK Hps. cbn [mbind option_bind].
    set (r := lastraw 0 pre) in *. set (n' := ZE _ r (zpay n)) in *. set (d := prevlen_size r - psize n) in *.
    pose proof (raw_pos n Hnok). rewrite !Nat2Z.inj_add, length_body_cons in Hsz. cbn [length] in Hsz.
    assert (Z.of_nat (length (body pre ++ ent_bytes n' ++ body rest)) = Z.of_nat (length (body pre)) + raw n' + Z.of_nat (length (body rest))) as HX by (rewrite !length_app; unfold raw; lia).
    assert (-4 ≤ d ≤ 4) as Hd by (unfold d, prevlen_size, psize; repeat case_match; lia).
    rewrite zmem_bytes by (rewrite length_app, Nat2Z.inj_add; lia). cbn [mbind option_bind]. rewrite zmem_shrink by (rewrite ?length_app, ?Nat2Z.inj_add in *; lia).
    cbn [mbind option_bind]. assert (a + tail_off (n' :: rest) = 10 + tail_off (pre ++ n' :: rest)) as -> by (rewrite tail_off_app by done; unfold a; lia).
    rewrite <- body_cons, <- body_app.
    destruct (delete_finish l pre (length del) n' rest d) as (zl' & R & E & Hrep & Hpay); try done.
    + apply chain_app. done.
    + destruct rest; [done|apply Hc3].
    + intros Ed. by rewrite Hraw, Ed, Z.add_0_r.
    + apply Forall_app. split; [done|]. by constructor.
    + rewrite !length_app in *. cbn [length] in *. destruct Hn; [by left|right; lia].
    + rewrite body_app, body_cons, HX. rewrite length_app in Hsz. cbn [length] in Hsz. lia.
    + exists zl', R. split; [exact E|]. split; [done|]. done.
Qed.
End delete.
