(* ===== verification/ZiplistQuery.v ===== *)
(** * ziplist.c: reading, searching and merging *)

From S2P Require Import Prelude Decimal Sds Util Ziplist ZiplistRep ZiplistEdit.

(** ** Positions *)

(** The offset of entry [i]. *)
Definition pos (es : list zent) (i : nat) : Z := 10 + Z.of_nat (length (body (take i es))).

Lemma zmem_prevlen t l A e R p : ent_ok e → p = 10 + Z.of_nat (length A) →
  ZIP_DECODE_PREVLEN (zmem t l (A ++ ent_bytes e ++ R)) p = Some (psize e, zprev e).
Proof. intros He ->. rewrite zmem_split. apply decode_prevlen; [done|]. by rewrite zmem_pos. Qed.

(** The parts of a block around entry [i]. *)
Lemma rep_split es i e : es !! i = Some e → body es = body (take i es) ++ ent_bytes e ++ body (drop (S i) es).
Proof. intros Hi. rewrite <- (take_drop_middle es i e Hi) at 1. by rewrite body_app, body_cons. Qed.

Lemma pos_S es i e : es !! i = Some e → pos es (S i) = pos es i + raw e.
Proof.
  intros Hi. unfold pos. rewrite (take_S_r es i e Hi), body_app, length_app, Nat2Z.inj_add. change (body [e]) with (ent_bytes e ++ []).
  rewrite app_nil_r. unfold raw. lia.
Qed.

Lemma pos_end es i : (length es ≤ i)%nat → pos es i = 10 + Z.of_nat (length (body es)).
Proof. intros Hi. unfold pos. by rewrite take_ge. Qed.

Lemma zprev_chain es i e : chain 0 es → es !! i = Some e → zprev e = lastraw 0 (take i es).
Proof.
  intros Hc Hi. rewrite <- (take_drop_middle es i e Hi) in Hc. apply chain_app in Hc as [_ [Hz _]]. done.
Qed.

(** What every reader sees at entry [i]. *)
Lemma rep_at zl es i e : zl_rep zl es → es !! i = Some e → ∃ A R, zl = A ++ ent_bytes e ++ R ∧ Z.of_nat (length A) = pos es i ∧ ent_ok e ∧ zprev e = lastraw 0 (take i es).
Proof.
  intros (l & -> & Hc & Hok & _) Hi. rewrite (rep_split es i e Hi), zmem_split. eexists _, _. split; [done|]. rewrite zmem_pos. split_and!; [done| |].
  - by apply (Forall_lookup_1 _ _ _ _ Hok Hi).
  - by apply zprev_chain.
Qed.

Lemma rep_byte zl es i : zl_rep zl es → ∃ b, byte_at zl (pos es i) = Some b ∧ (b =? ZIP_END) = bool_decide (length es ≤ i)%nat.
Proof.
  intros Hrep. destruct (decide (length es ≤ i)%nat) as [Hle|Hlt].
  - destruct Hrep as (l & -> & _). exists ZIP_END. rewrite pos_end by done. rewrite zmem_end by done. by rewrite bool_decide_true.
  - destruct (lookup_lt_is_Some_2 es i ltac:(lia)) as [e He]. destruct (rep_at zl es i e Hrep He) as (A & R & -> & HA & Hok & _).
    destruct (entry_first A e R (pos es i) Hok (eq_sym HA)) as (b & E & Hb & _). exists b. by rewrite bool_decide_false by lia.
Qed.

Lemma rep_raw zl es i e : zl_rep zl es → es !! i = Some e → zipRawEntryLength zl (pos es i) = Some (raw e).
Proof. intros Hrep Hi. destruct (rep_at zl es i e Hrep Hi) as (A & R & -> & HA & Hok & _). by apply raw_entry_length. Qed.

Lemma rep_prevlen zl es i e : zl_rep zl es → es !! i = Some e → ZIP_DECODE_PREVLEN zl (pos es i) = Some (psize e, lastraw 0 (take i es)).
Proof. intros Hrep Hi. destruct (rep_at zl es i e Hrep Hi) as (A & R & -> & HA & Hok & <-). by apply decode_prevlen. Qed.

Lemma rep_fuel zl es : zl_rep zl es → (length es < length zl)%nat.
Proof.
  intros (l & -> & _ & Hok & _). apply Nat2Z.inj_lt. rewrite length_zmem. pose proof (length_body_ge es Hok). lia.
Qed.

Lemma rep_tail zl es : zl_rep zl es → ZIPLIST_TAIL_OFFSET zl = Some (pos es (length es - 1)).
Proof.
  intros (l & -> & Hc & Hok & _ & _ & Hlen). pose proof (tail_off_range es Hok). rewrite zmem_tail by (unfold in_u; lia). f_equal. unfold pos.
  destruct es as [|e es _] using rev_ind; [done|]. rewrite tail_off_app by done. rewrite length_app, Nat.add_sub, take_app_length. simpl. lia.
Qed.

Lemma lastraw_take es i e : es !! i = Some e → lastraw 0 (take (S i) es) = raw e.
Proof. intros Hi. rewrite (take_S_r es i e Hi). apply lastraw_snoc. Qed.

(** ** The loops *)

Lemma index_forward_spec zl es : zl_rep zl es → ∀ fuel i k, (length es ≤ i + fuel)%nat →
  index_forward fuel zl (pos es i) (Z.of_nat k) =
    Some (pos es (i + k), if bool_decide (i + k < length es)%nat then -1 else Z.of_nat (i + k) - Z.of_nat (length es `max` i)).
Proof.
  intros Hrep fuel. induction fuel as [|f IH]; intros i k Hf; cbn [index_forward]; destruct (rep_byte zl es i Hrep) as (b & -> & Hb); cbn [mbind option_bind]; rewrite Hb; clear Hb.
  all: destruct (decide (length es ≤ i)%nat) as [Hle|Hlt]; [rewrite (bool_decide_true (length es ≤ i)%nat), (bool_decide_false (_ < _)%nat) by lia; rewrite !pos_end by lia; do 2 f_equal; lia|].
  { lia. }
  rewrite (bool_decide_false (length es ≤ i)%nat) by lia. destruct (lookup_lt_is_Some_2 es i ltac:(lia)) as [e He].
  destruct k as [|k]; [rewrite Nat.add_0_r, bool_decide_true by lia; done|].
  rewrite (proj2 (Z.eqb_neq _ _)) by lia. rewrite (rep_raw zl es i e Hrep He). cbn [mbind option_bind]. rewrite <- (pos_S es i e He).
  replace (Z.of_nat (S k) - 1) with (Z.of_nat k) by lia. rewrite IH by lia. replace (S i + k)%nat with (i + S k)%nat by lia. do 2 f_equal.
  case_bool_decide; lia.
Qed.

Lemma index_back_spec zl es : zl_rep zl es → ∀ j fuel k, (j < length es)%nat → (j < fuel)%nat →
  index_back fuel zl (pos es j) (lastraw 0 (take j es)) (Z.of_nat k) =
    Some (pos es (j - k), if bool_decide (k < j)%nat then -1 else Z.of_nat k - Z.of_nat j).
Proof.
  intros Hrep j. induction j as [|j IH]; intros fuel k Hj Hf.
  { destruct fuel; [lia|]. simpl. f_equal. f_equal. lia. }
  destruct fuel as [|f]; [lia|]. destruct (lookup_lt_is_Some_2 es j ltac:(lia)) as [e He]. rewrite (lastraw_take es j e He), (pos_S es j e He).
  destruct (rep_at zl es j e Hrep He) as (_ & _ & _ & _ & Hok & _). pose proof (raw_pos e Hok). cbn [index_back].
  rewrite (proj2 (Z.leb_gt _ _)) by lia. destruct k as [|k]; [rewrite bool_decide_true by lia; rewrite Nat.sub_0_r, (pos_S es j e He); done|].
  rewrite (proj2 (Z.eqb_neq _ _)) by lia. replace (pos es j + raw e - raw e) with (pos es j) by lia.
  rewrite (rep_prevlen zl es j e Hrep He). cbn [mbind option_bind]. replace (Z.of_nat (S k) - 1) with (Z.of_nat k) by lia. rewrite IH by lia.
  replace (S j - S k)%nat with (j - k)%nat by lia. do 2 f_equal. repeat case_bool_decide; lia.
Qed.

(** The entry an index stands for, counted from the end when it is negative. *)
Definition norm_index (n : nat) (i : Z) : option nat :=
  if (0 <=? i) && (i <? Z.of_nat n) then Some (Z.to_nat i)
  else if (- Z.of_nat n <=? i) && (i <? 0) then Some (Z.to_nat (Z.of_nat n + i)) else None.

Lemma index_spec zl es i : zl_rep zl es → - 2 ^ 31 < i → ziplistIndex zl i = Some (pos es <$> norm_index (length es) i).
Proof.
  intros Hrep Hi. unfold ziplistIndex, norm_index. pose proof (rep_fuel zl es Hrep) as Hf. destruct (Z.ltb_spec i 0) as [Hn|Hp].
  - rewrite (proj2 (Z.eqb_neq i (- 2 ^ 31))) by lia. rewrite (proj2 (Z.leb_gt 0 i)) by lia. simpl andb. rewrite andb_true_r. cbv iota.
    rewrite (rep_tail zl es Hrep). cbn [mbind option_bind]. set (j := (length es - 1)%nat). destruct (rep_byte zl es j Hrep) as (b & -> & Hb). cbn [mbind option_bind]. rewrite Hb.
    destruct (decide (length es ≤ j)%nat) as [Hle|Hlt].
    + rewrite bool_decide_true by done. simpl negb. cbv iota. cbn [mbind option_bind]. destruct (rep_byte zl es j Hrep) as (b' & -> & Hb'). cbn [mbind option_bind]. rewrite Hb'.
      rewrite bool_decide_true by done. simpl orb. cbv iota. unfold j in Hle. by rewrite (proj2 (Z.leb_gt (- Z.of_nat (length es)) i)) by lia.
    + rewrite bool_decide_false by done. simpl negb. cbv iota. destruct (lookup_lt_is_Some_2 es j ltac:(lia)) as [e He].
      rewrite (rep_prevlen zl es j e Hrep He). cbn [mbind option_bind]. replace (- i - 1) with (Z.of_nat (Z.to_nat (- i - 1))) by lia. rewrite index_back_spec; [|done|lia|lia].
      cbn [mbind option_bind]. set (k := Z.to_nat (- i - 1)). destruct (rep_byte zl es (j - k) Hrep) as (b' & -> & Hb'). cbn [mbind option_bind]. rewrite Hb'.
      rewrite bool_decide_false by lia. simpl orb. destruct (decide (k < j)%nat) as [Hk|Hk].
      * rewrite bool_decide_true by done. simpl. rewrite (proj2 (Z.leb_le _ _)) by lia. simpl. do 3 f_equal. lia.
      * rewrite bool_decide_false by done. destruct (Z.ltb_spec 0 (Z.of_nat k - Z.of_nat j)); [by rewrite (proj2 (Z.leb_gt (- Z.of_nat (length es)) i)) by lia; done|].
        rewrite (proj2 (Z.leb_le (- Z.of_nat (length es)) i)) by lia. simpl. do 3 f_equal. lia.
  - rewrite (proj2 (Z.leb_le 0 i)) by lia. replace i with (Z.of_nat (Z.to_nat i)) by lia. set (k := Z.to_nat i). change ZIPLIST_ENTRY_HEAD with (pos es 0).
    rewrite index_forward_spec; [|done|lia]. cbn [mbind option_bind]. rewrite Nat.add_0_l. destruct (rep_byte zl es k Hrep) as (b & -> & Hb). cbn [mbind option_bind]. rewrite Hb.
    rewrite Nat.max_0_r. destruct (decide (k < length es)%nat).
    + rewrite (bool_decide_true (k < _)%nat), bool_decide_false by lia. rewrite (proj2 (Z.ltb_lt (Z.of_nat k) (Z.of_nat (length es)))) by lia. simpl. by rewrite Nat2Z.id.
    + rewrite (bool_decide_true (_ ≤ k)%nat) by lia. rewrite (proj2 (Z.ltb_ge (Z.of_nat k) (Z.of_nat (length es)))) by lia.
      by rewrite !andb_false_r.
Qed.

Lemma next_spec zl es i : zl_rep zl es → ziplistNext zl (pos es i) = Some (if bool_decide (S i < length es)%nat then Some (pos es (S i)) else None).
Proof.
  intros Hrep. unfold ziplistNext. destruct (rep_byte zl es i Hrep) as (b & -> & Hb). cbn [mbind option_bind]. rewrite Hb.
  destruct (decide (length es ≤ i)%nat); [by rewrite bool_decide_true, bool_decide_false by lia|]. rewrite bool_decide_false by lia.
  destruct (lookup_lt_is_Some_2 es i ltac:(lia)) as [e He]. rewrite (rep_raw zl es i e Hrep He). cbn [mbind option_bind].
  rewrite <- (pos_S es i e He). destruct (rep_byte zl es (S i) Hrep) as (b' & -> & Hb'). cbn [mbind option_bind]. rewrite Hb'.
  destruct (decide (length es ≤ S i)%nat); [rewrite bool_decide_true, bool_decide_false by lia|rewrite bool_decide_false, bool_decide_true by lia]; done.
Qed.

(** The index of the entry before position [i]; the end mark is position [length es]. *)
Lemma prev_spec zl es i : zl_rep zl es → (i ≤ length es)%nat →
  ziplistPrev zl (pos es i) = Some (match i with O => None | S j => Some (pos es j) end).
Proof.
  intros Hrep Hi. unfold ziplistPrev. destruct (rep_byte zl es i Hrep) as (b & -> & Hb). cbn [mbind option_bind]. rewrite Hb.
  destruct (decide (length es ≤ i)%nat).
  - rewrite bool_decide_true by done. rewrite (rep_tail zl es Hrep). cbn [mbind option_bind]. assert (i = length es) as -> by lia.
    destruct (rep_byte zl es (length es - 1) Hrep) as (b' & -> & Hb'). cbn [mbind option_bind]. rewrite Hb'.
    destruct es as [|e es]; [done|]. rewrite bool_decide_false by (simpl; lia). simpl. by rewrite Nat.sub_0_r.
  - rewrite bool_decide_false by done. destruct i as [|j]; [done|]. destruct (lookup_lt_is_Some_2 es j ltac:(lia)) as [e He].
    destruct (lookup_lt_is_Some_2 es (S j) ltac:(lia)) as [e' He']. destruct (rep_at zl es j e Hrep He) as (_ & _ & _ & _ & Hok & _). pose proof (raw_pos e Hok).
    rewrite (proj2 (Z.eqb_neq _ _)) by (rewrite (pos_S es j e He); unfold pos, ZIPLIST_ENTRY_HEAD, ZIPLIST_HEADER_SIZE; lia).
    rewrite (rep_prevlen zl es (S j) e' Hrep He'). cbn [mbind option_bind]. rewrite (lastraw_take es j e He), (proj2 (Z.ltb_lt _ _)) by lia.
    rewrite (pos_S es j e He). do 2 f_equal. lia.
Qed.

(** ** Contents *)

Definition pay_zval (y : payload) : zval := match y with PStr s => ZStr s | PInt _ v => ZInt v end.

(** The string an entry stands for. *)
Definition pay_str (y : payload) : list Z := match y with PStr s => s | PInt _ v => decimal_z v end.
Definition zval_str (v : zval) : list Z := match v with ZStr s => s | ZInt v => decimal_z v end.

Lemma int_ok_s64 enc v : int_ok enc v → in_s 64 v.
Proof. unfold int_ok, in_s. lia. Qed.

Lemma pay_of_str s : pay_str (pay_of s) = s.
Proof. unfold pay_of. pose proof (try_encoding s) as H. destruct (zipTryEncoding s) as [[v enc]|]; [|done]. symmetry. apply H. Qed.

(** A string is stored as an integer exactly when it is the decimal form of a 64 bit integer. *)
Lemma try_encoding_decimal v : in_s 64 v → ∃ enc, zipTryEncoding (decimal_z v) = Some (v, enc) ∧ enc ≠ 0 ∧ enc ≠ UCHAR_MAX.
Proof.
  intros Hv. pose proof (decimal_z_length v). unfold zipTryEncoding. rewrite (proj2 (Z.leb_gt _ _)), (proj2 (Z.eqb_neq _ _)) by lia. simpl orb. cbv iota.
  rewrite (proj2 (string2ll_spec _ v)) by done. cbn [mbind option_bind]. eexists. split; [done|]. unfold UCHAR_MAX. unfold_zip. repeat case_match; lia.
Qed.

(** The parts of a block around the contents of entry [i]. *)
Lemma rep_data zl es i e : zl_rep zl es → es !! i = Some e → ∃ A R, zl = A ++ pay_data (zpay e) ++ R ∧
  Z.of_nat (length A) = pos es i + psize e + Z.of_nat (length (pay_head (zpay e))).
Proof.
  intros Hrep Hi. destruct (rep_at zl es i e Hrep Hi) as (A & R & -> & HA & _ & _).
  exists ((A ++ prev_bytes e) ++ pay_head (zpay e)), R. split; [unfold ent_bytes, pay_bytes; by rewrite <- !app_assoc|].
  rewrite !length_app, !Nat2Z.inj_add, length_prev_bytes. lia.
Qed.

Lemma read_string zl es i e s : zl_rep zl es → es !! i = Some e → zpay e = PStr s →
  mread zl (pos es i + psize e + Z.of_nat (length (pay_head (zpay e)))) (Z.of_nat (length s)) = Some s.
Proof. intros Hrep Hi Ey. destruct (rep_data zl es i e Hrep Hi) as (A & R & -> & <-). rewrite Ey. by rewrite mread_app. Qed.

Lemma read_integer zl es i e enc v : zl_rep zl es → es !! i = Some e → zpay e = PInt enc v →
  zipLoadInteger zl (pos es i + psize e + Z.of_nat (length (pay_head (zpay e)))) enc = Some v.
Proof.
  intros Hrep Hi Ey. destruct (rep_data zl es i e Hrep Hi) as (A & R & -> & <-). destruct Hrep as (_ & _ & _ & Hok & _).
  apply (Forall_lookup_1 _ _ _ _ Hok) in Hi as (_ & Hy & _). rewrite Ey in *. by apply load_integer.
Qed.

Lemma rep_entry zl es i e : zl_rep zl es → es !! i = Some e → ∃ z, zipEntry zl (pos es i) = Some z ∧ ZIP_IS_STR (encoding z) = is_pstr (zpay e) ∧
  encoding z = pay_enc (zpay e) ∧ zlen z = Z.of_nat (length (pay_data (zpay e))) ∧ headersize z = psize e + Z.of_nat (length (pay_head (zpay e))).
Proof.
  intros Hrep Hi. destruct (rep_at zl es i e Hrep Hi) as (A & R & -> & HA & Hok & _). rewrite zip_entry by done. eexists. split; [done|].
  split; [|done]. apply pay_enc_str, Hok.
Qed.

Lemma get_spec zl es i e : zl_rep zl es → es !! i = Some e → ziplistGet zl (Some (pos es i)) = Some (Some (pay_zval (zpay e))).
Proof.
  intros Hrep Hi. cbn [ziplistGet]. destruct (rep_byte zl es i Hrep) as (b & -> & Hb). cbn [mbind option_bind]. rewrite Hb.
  apply lookup_lt_Some in Hi as Hlt. rewrite bool_decide_false by lia. destruct (rep_entry zl es i e Hrep Hi) as (z & -> & Hs & He & Hl & Hh). cbn [mbind option_bind].
  rewrite Hs, He, Hl, Hh, Z.add_assoc. destruct (zpay e) as [s|enc v] eqn:Ey; simpl is_pstr; cbv iota.
  - pose proof (read_string zl es i e s Hrep Hi Ey) as E. rewrite Ey in E. simpl pay_data. by rewrite E.
  - pose proof (read_integer zl es i e enc v Hrep Hi Ey) as E. rewrite Ey in E. simpl pay_enc. by rewrite E.
Qed.

(** An integer entry is equal to a string when the string has an encoding with the same value. *)
Lemma compare_integer v s : in_s 64 v → match zipTryEncoding s with Some (v', _) => v =? v' | None => false end = bool_decide (decimal_z v = s).
Proof.
  intros Hv. case_bool_decide as E.
  - subst s. destruct (try_encoding_decimal v Hv) as (enc & -> & _). apply Z.eqb_refl.
  - pose proof (try_encoding s) as H. destruct (zipTryEncoding s) as [[v' enc]|]; [|done]. apply Z.eqb_neq. intros ->. destruct H as (_ & _ & ->). done.
Qed.

Lemma string_neq (s u : list Z) : Z.of_nat (length s) ≠ Z.of_nat (length u) → bool_decide (s = u) = false.
Proof. intros H. apply bool_decide_false. by intros ->. Qed.

Lemma entry_s64 zl es i e enc v : zl_rep zl es → es !! i = Some e → zpay e = PInt enc v → in_s 64 v.
Proof.
  intros (_ & _ & _ & Hok & _) Hi Ey. apply (Forall_lookup_1 _ _ _ _ Hok) in Hi as (_ & Hy & _). rewrite Ey in Hy. by apply (int_ok_s64 enc).
Qed.

Lemma compare_spec zl es i e s : zl_rep zl es → es !! i = Some e →
  ziplistCompare zl (pos es i) s = Some (bool_decide (pay_str (zpay e) = s)).
Proof.
  intros Hrep Hi. unfold ziplistCompare. destruct (rep_byte zl es i Hrep) as (b & -> & Hb). cbn [mbind option_bind]. rewrite Hb.
  apply lookup_lt_Some in Hi as Hlt. rewrite bool_decide_false by lia. destruct (rep_entry zl es i e Hrep Hi) as (z & -> & Hs & He & Hl & Hh). cbn [mbind option_bind].
  rewrite Hs, He, Hl, Hh, Z.add_assoc. destruct (zpay e) as [u|enc v] eqn:Ey; simpl is_pstr; cbv iota; simpl pay_str.
  - pose proof (read_string zl es i e u Hrep Hi Ey) as E. rewrite Ey in E. simpl pay_data. rewrite E. cbn [mbind option_bind].
    destruct (Z.eqb_spec (Z.of_nat (length u)) (Z.of_nat (length s))); [done|]. by rewrite string_neq.
  - pose proof (read_integer zl es i e enc v Hrep Hi Ey) as E. rewrite Ey in E. simpl pay_enc. rewrite E. cbn [mbind option_bind].
    rewrite <- (compare_integer v s) by (by apply (entry_s64 zl es i e enc)). by destruct (zipTryEncoding s) as [[v' enc']|].
Qed.

(** The remembered encoding of the string searched for. *)
Definition cache_ok (vstr : list Z) (venc vll : Z) : Prop :=
  venc = 0 ∨ (venc = UCHAR_MAX ∧ zipTryEncoding vstr = None) ∨ (venc ≠ 0 ∧ venc ≠ UCHAR_MAX ∧ zipTryEncoding vstr = Some (vll, venc)).

Lemma try_encoding_enc s v enc : zipTryEncoding s = Some (v, enc) → enc ≠ 0 ∧ enc ≠ UCHAR_MAX.
Proof.
  intros E. pose proof (try_encoding s) as H. rewrite E in H. destruct H as (_ & Hv & ->). destruct (try_encoding_decimal v Hv) as (enc' & E' & H).
  rewrite E in E'. injection E' as <-. done.
Qed.

Lemma find_compare_spec zl es i e vstr venc vll : zl_rep zl es → es !! i = Some e → cache_ok vstr venc vll →
  ∃ venc' vll', find_compare zl (pos es i + psize e + Z.of_nat (length (pay_head (zpay e)))) (pay_enc (zpay e)) (Z.of_nat (length (pay_data (zpay e)))) vstr venc vll =
    Some (bool_decide (pay_str (zpay e) = vstr), venc', vll') ∧ cache_ok vstr venc' vll'.
Proof.
  intros Hrep Hi Hc. unfold find_compare. pose proof Hrep as (_ & _ & _ & Hok & _). pose proof (Forall_lookup_1 _ _ _ _ Hok Hi) as (_ & Hy & _). rewrite (pay_enc_str _ Hy).
  destruct (zpay e) as [u|enc v] eqn:Ey; simpl is_pstr; cbv iota; simpl pay_str.
  - pose proof (read_string zl es i e u Hrep Hi Ey) as E. rewrite Ey in E. simpl pay_data. rewrite E. cbn [mbind option_bind]. exists venc, vll. split; [|done].
    destruct (Z.eqb_spec (Z.of_nat (length u)) (Z.of_nat (length vstr))); [done|]. by rewrite string_neq.
  - pose proof (read_integer zl es i e enc v Hrep Hi Ey) as E. rewrite Ey in E. simpl pay_enc. rewrite E. cbn [mbind option_bind].
    rewrite <- (compare_integer v vstr) by (by apply (entry_s64 zl es i e enc)).
    assert (∃ venc' vll', (if venc =? 0 then match zipTryEncoding vstr with Some (v, e) => (e, v) | None => (UCHAR_MAX, vll) end else (venc, vll)) = (venc', vll') ∧
      venc' ≠ 0 ∧ cache_ok vstr venc' vll') as (venc' & vll' & -> & Hne & Hc').
    { destruct (Z.eqb_spec venc 0) as [->|Hv]; [|exists venc, vll; done]. destruct (zipTryEncoding vstr) as [[v' e']|] eqn:Et.
      - exists e', v'. destruct (try_encoding_enc _ _ _ Et). split_and!; try done. right. right. done.
      - exists UCHAR_MAX, vll. split_and!; try done. right. left. done. }
    exists venc', vll'. split; [|done]. rewrite (proj2 (Z.eqb_neq venc' 0)) by done.
    destruct Hc' as [?|[[-> ->]|(_ & Hm & ->)]]; [done|done|]. rewrite (proj2 (Z.eqb_neq venc' UCHAR_MAX)) by done. done.
Qed.

(** The first match among the entries [cnt], [cnt + skip + 1], ... *)
Fixpoint find_in (skip cnt : nat) (v : list Z) (ss : list (list Z)) : option nat :=
  match ss with
  | [] => None
  | s :: ss' =>
      match cnt with
      | O => if bool_decide (s = v) then Some O else S <$> find_in skip skip v ss'
      | S c => S <$> find_in skip c v ss'
      end
  end.

Lemma find_in_spec skip v ss : ∀ cnt,
  match find_in skip cnt v ss with
  | Some k => ∃ j, k = (cnt + j * S skip)%nat ∧ ss !! k = Some v ∧ ∀ j', (j' < j)%nat → ss !! (cnt + j' * S skip)%nat ≠ Some v
  | None => ∀ j, ss !! (cnt + j * S skip)%nat ≠ Some v
  end.
Proof.
  induction ss as [|s ss IH]; intros cnt; cbn [find_in]; [by intros j|]. destruct cnt as [|c].
  - case_bool_decide as Es; [exists O; subst; split_and!; [done|done|lia]|]. specialize (IH skip). destruct (find_in skip skip v ss) as [k|]; simpl.
    + destruct IH as (j & -> & Hk & Hlt). exists (S j). split_and!; [simpl; lia|done|]. intros [|j'] Hj; [simpl; congruence|]. simpl. apply Hlt. lia.
    + intros [|j]; [simpl; congruence|]. simpl. apply IH.
  - specialize (IH c). destruct (find_in skip c v ss) as [k|]; simpl; [|apply IH]. destruct IH as (j & -> & Hk & Hlt). by exists j.
Qed.

Definition strings (es : list zent) : list (list Z) := (λ e, pay_str (zpay e)) <$> es.

Lemma find_loop_spec zl es vstr skip : zl_rep zl es → Z.of_nat skip < 2 ^ 31 → ∀ fuel i cnt venc vll, (length es ≤ i + fuel)%nat → cache_ok vstr venc vll →
  find_loop fuel zl (pos es i) vstr (Z.of_nat skip) (Z.of_nat cnt) venc vll = Some ((λ k, pos es (i + k)) <$> find_in skip cnt vstr (drop i (strings es))).
Proof.
  intros Hrep Hskip fuel. induction fuel as [|f IH]; intros i cnt venc vll Hf Hc; cbn [find_loop]; destruct (rep_byte zl es i Hrep) as (b & -> & Hb); cbn [mbind option_bind]; rewrite Hb; clear Hb.
  all: destruct (decide (length es ≤ i)%nat) as [Hle|Hlt]; [rewrite bool_decide_true by done; rewrite drop_ge by (unfold strings; by rewrite length_fmap); done|].
  { lia. }
  rewrite bool_decide_false by done. destruct (lookup_lt_is_Some_2 es i ltac:(lia)) as [e He].
  assert (∀ c, (λ k, pos es (S i + k)) <$> find_in skip c vstr (drop (S i) (strings es)) = (λ k, pos es (i + k)) <$> (S <$> find_in skip c vstr (drop (S i) (strings es)))) as Hshift.
  { intros c. destruct (find_in skip c vstr _); simpl; [|done]. do 2 f_equal. lia. }
  rewrite (drop_S (strings es) (pay_str (zpay e)) i) by (unfold strings; by rewrite list_lookup_fmap, He). cbn [find_in].
  destruct (rep_at zl es i e Hrep He) as (A & R & EA & HA & Hok & _).
  assert (ZIP_DECODE_PREVLENSIZE zl (pos es i) = Some (psize e)) as -> by (rewrite EA; destruct (entry_first A e R (pos es i) Hok (eq_sym HA)) as (? & _ & _ & E); exact E).
  cbn [mbind option_bind]. assert (ZIP_DECODE_LENGTH zl (pos es i + psize e) =
    Some (pay_enc (zpay e), Z.of_nat (length (pay_head (zpay e))), Z.of_nat (length (pay_data (zpay e))))) as -> by (rewrite EA; by apply decode_ent_length).
  cbn [mbind option_bind]. replace (pos es i + psize e + Z.of_nat (length (pay_head (zpay e))) + Z.of_nat (length (pay_data (zpay e)))) with (pos es (S i))
    by (rewrite (pos_S es i e He), raw_parts; lia).
  destruct cnt as [|c].
  - change (Z.of_nat 0 =? 0) with true. cbv iota. destruct (find_compare_spec zl es i e vstr venc vll Hrep He Hc) as (venc' & vll' & -> & Hc'). cbn [mbind option_bind].
    case_bool_decide; [simpl; by rewrite Nat.add_0_r|]. rewrite swrap_small by (unfold in_s; lia). rewrite IH by (done || lia). by rewrite Hshift.
  - rewrite (proj2 (Z.eqb_neq _ _)) by lia. replace (Z.of_nat (S c) - 1) with (Z.of_nat c) by lia. rewrite IH by (done || lia). by rewrite Hshift.
Qed.

Lemma count_spec zl es : zl_rep zl es → ∀ fuel i n, (length es ≤ i + fuel)%nat → (i ≤ length es)%nat →
  count_entries fuel zl (pos es i) n = Some (n + Z.of_nat (length es - i)).
Proof.
  intros Hrep fuel. induction fuel as [|f IH]; intros i n Hf Hi; cbn [count_entries]; destruct (rep_byte zl es i Hrep) as (b & -> & Hb); cbn [mbind option_bind]; rewrite Hb; clear Hb.
  all: destruct (decide (length es ≤ i)%nat) as [Hle|Hlt]; [rewrite bool_decide_true by done; f_equal; lia|].
  { lia. }
  rewrite bool_decide_false by done. destruct (lookup_lt_is_Some_2 es i ltac:(lia)) as [e He]. rewrite (rep_raw zl es i e Hrep He). cbn [mbind option_bind].
  rewrite <- (pos_S es i e He), IH by lia. f_equal. lia.
Qed.

Lemma len_spec zl es : zl_rep zl es → ∃ zl', ziplistLen zl = Some (zl', Z.of_nat (length es)) ∧ zl_rep zl' es.
Proof.
  intros Hrep. pose proof Hrep as (l & Ez & Hc & Hok & Hl & Hn & Hlen). unfold ziplistLen. assert (ZIPLIST_LENGTH zl = Some l) as -> by (rewrite Ez; by apply zmem_length). cbn [mbind option_bind].
  destruct (Z.ltb_spec l UINT16_MAX) as [Hlt|Hge].
  - exists zl. split; [|done]. destruct Hn as [->| ->]; [lia|done].
  - change ZIPLIST_HEADER_SIZE with (pos es 0). rewrite (count_spec zl es Hrep) by (pose proof (rep_fuel zl es Hrep); lia). cbn [mbind option_bind].
    rewrite Nat.sub_0_r, Z.add_0_l. destruct (Z.ltb_spec (Z.of_nat (length es)) UINT16_MAX); cbn [mbind option_bind]; [|by exists zl].
    rewrite Ez, zmem_set_length. cbn [mbind option_bind]. eexists. split; [done|]. exists (Z.of_nat (length es)). split_and!; try done; [unfold in_u, UINT16_MAX in *; lia|by right].
Qed.

(** ** Merging *)

Section merge.
Context (junk : Z).

(** Both directions leave the header of the first list with the two bodies. *)
Lemma merge_copy_spec t1 l1 X1 t2 l2 X2 append :
  let n1 := 11 + Z.of_nat (length X1) in let n2 := 11 + Z.of_nat (length X2) in
  merge_copy junk (zmem t1 l1 X1) (zmem t2 l2 X2) n1 n2 (n1 + n2 - 10 - 1) append = Some (zhdr n1 t1 l1 ++ (X1 ++ X2) ++ [ZIP_END]).
Proof.
  intros n1 n2. unfold merge_copy. set (h1 := zhdr n1 t1 l1). set (h2 := zhdr n2 t2 l2).
  assert (length h1 = 10%nat) as H1 by apply length_zhdr. assert (length h2 = 10%nat) as H2 by apply length_zhdr.
  assert (∀ z k, (length z ≤ k)%nat → mresize junk z k = z ++ replicate (k - length z) junk) as Hres by (intros z k Hk; unfold mresize; by rewrite take_ge).
  rewrite Hres by (apply Nat2Z.inj_le; destruct append; rewrite length_zmem; lia). destruct append.
  - replace (Z.to_nat _ - _)%nat with (length X2) by (pose proof (length_zmem t1 l1 X1); lia).
    unfold zmem. fold n1 n2 h1 h2. unfold ZIPLIST_HEADER_SIZE, ZIPLIST_END_SIZE. replace (h2 ++ X2 ++ [ZIP_END]) with (h2 ++ (X2 ++ [ZIP_END]) ++ []) by (by rewrite app_nil_r).
    rewrite mread_app by (rewrite ?length_app; simpl; lia). cbn [mbind option_bind].
    replace ((h1 ++ X1 ++ [ZIP_END]) ++ replicate (length X2) junk) with ((h1 ++ X1) ++ ([ZIP_END] ++ replicate (length X2) junk) ++ []) by (by rewrite app_nil_r, <- !app_assoc).
    rewrite mwrite_app by (rewrite ?length_app, ?length_replicate; simpl; lia). by rewrite app_nil_r, <- !app_assoc.
  - replace (Z.to_nat _ - _)%nat with (length X1) by (pose proof (length_zmem t2 l2 X2); lia).
    unfold zmem. fold n1 n2 h1 h2. unfold ZIPLIST_HEADER_SIZE, ZIPLIST_END_SIZE. set (W := (X2 ++ [ZIP_END]) ++ replicate (length X1) junk).
    assert (length W = length X1 + length (X2 ++ [ZIP_END]))%nat as HW by (unfold W; rewrite length_app, length_replicate; lia).
    rewrite (mmove_app _ h2 (X2 ++ [ZIP_END]) (replicate (length X1) junk) (h2 ++ take (length X1) W) (drop (length X1) W) []).
    + cbn [mbind option_bind]. replace (h1 ++ X1 ++ [ZIP_END]) with ([] ++ (h1 ++ X1) ++ [ZIP_END]) by (by rewrite <- !app_assoc).
      rewrite mread_app by (rewrite ?length_app; simpl; lia). cbn [mbind option_bind]. rewrite app_nil_r.
      pose proof (mwrite_app [] (h2 ++ take (length X1) W) (h1 ++ X1) (X2 ++ [ZIP_END]) 0) as Ew. cbn [app] in Ew.
      rewrite Ew by (rewrite ?length_app, ?length_take; lia || done). simpl. by rewrite <- !app_assoc.
    + by rewrite <- !app_assoc.
    + rewrite app_nil_r, <- !app_assoc, take_drop. unfold W. by rewrite <- !app_assoc.
    + lia.
    + rewrite length_app, length_take. lia.
    + rewrite length_app. simpl. lia.
    + rewrite length_drop. lia.
Qed.

(** The seam: the entries of the second list get the length of the last entry of the first. *)
Definition merged (es1 es2 : list zent) : list zent :=
  match last es1 with Some e => es1 ++ casc e es2 | None => es2 end.

Lemma merged_spec es1 es2 : chain 0 es1 → chain 0 es2 → Forall ent_ok (es1 ++ es2) →
  Z.of_nat (length (body (es1 ++ es2))) + 4 * Z.of_nat (length es2) + 64 < 2 ^ 32 →
  chain 0 (merged es1 es2) ∧ Forall ent_ok (merged es1 es2) ∧ zpay <$> merged es1 es2 = zpay <$> (es1 ++ es2) ∧
  Z.of_nat (length (body (merged es1 es2))) ≤ Z.of_nat (length (body (es1 ++ es2))) + 4 * Z.of_nat (length es2).
Proof.
  intros H1 H2 Hok Hlen. unfold merged. destruct es1 as [|e es1 _] using rev_ind; [split_and!; try done; simpl; lia|]. rewrite last_snoc.
  apply Forall_app in Hok as [Hok1 Hok2]. pose proof Hok1 as [_ [He _]%Forall_cons]%Forall_app. rewrite !body_app, !length_app in *.
  destruct (casc_ok e es2 He Hok2) as [Hcok Hclen]; [lia|]. split_and!.
  - apply chain_app. split; [done|]. rewrite lastraw_snoc. apply casc_chain. destruct es2; [done|apply H2].
  - by apply Forall_app.
  - by rewrite !fmap_app, casc_pay.
  - lia.
Qed.

Lemma merge_cascade l es1 es2 : chain 0 es2 → Forall ent_ok (es1 ++ es2) → es2 ≠ [] →
  Z.of_nat (length (body (es1 ++ es2))) + 4 * Z.of_nat (length es2) + 64 < 2 ^ 32 →
  __ziplistCascadeUpdate junk (zmem (10 + Z.of_nat (length (body es1)) + tail_off es2) l (body es1 ++ body es2)) (10 + tail_off es1) =
    Some (zmem (10 + tail_off (merged es1 es2)) l (body (merged es1 es2))).
Proof.
  intros H2 Hok Hne Hlen. unfold merged. rewrite body_app, length_app in Hlen. destruct es1 as [|e es1 _] using rev_ind.
  - destruct es2 as [|e es2]; [done|]. apply Forall_cons in Hok as [He Hok]. rewrite body_cons in *. cbn [length] in Hlen. rewrite length_app in Hlen. change (10 + tail_off []) with 10. change (body [] ++ ?x) with ([] ++ x).
    rewrite cascade_update_spec; [|done|done|done| |simpl; lia].
    + rewrite casc_id by apply H2. done.
    + simpl in *. rewrite length_app. lia.
  - rewrite last_snoc. apply Forall_app in Hok as [Hok1 Hok2]. pose proof Hok1 as [_ [He _]%Forall_cons]%Forall_app. rewrite tail_off_app by done. simpl (tail_off [e]). rewrite Z.add_0_r.
    rewrite !body_app, !length_app in *. change (body [e]) with (ent_bytes e ++ []) in *. rewrite app_nil_r in *. rewrite <- !app_assoc.
    assert (e :: casc e es2 ≠ []) by done. assert (tail_off (e :: es2) = raw e + tail_off es2) as Et by (by destruct es2).
    rewrite cascade_update_spec; [|done|done|done|rewrite !length_app; lia|unfold raw in *; lia].
    cbn [app]. rewrite tail_off_app, Z.add_assoc by done. done.
Qed.
End merge.

