(* ===== verification/ZiplistSpec.v ===== *)
(** * ziplist.c: a block is a list of strings

    The theorems on insertion, deletion, reading, searching and merging, stated
    on [zl_holds]: the block holds a list of strings. *)

From S2P Require Import Prelude Decimal Sds Util Ziplist ZiplistRep ZiplistEdit ZiplistQuery.

(** ** The list of strings a block holds *)

Definition zl_holds (zl : list Z) (ss : list (list Z)) : Prop := ∃ es, zl_rep zl es ∧ strings es = ss.

Lemma holds_size zl es : zl_rep zl es → Z.of_nat (length zl) = 11 + Z.of_nat (length (body es)).
Proof. intros (l & -> & _). apply length_zmem. Qed.

Lemma strings_length es : length (strings es) = length es.
Proof. apply length_fmap. Qed.

Lemma strings_pay es : strings es = pay_str <$> (zpay <$> es).
Proof. unfold strings. by rewrite <- list_fmap_compose. Qed.

Lemma strings_lookup es i s : strings es !! i = Some s → ∃ e, es !! i = Some e ∧ pay_str (zpay e) = s.
Proof. unfold strings. rewrite list_lookup_fmap. intros (e & He & ->)%fmap_Some. by exists e. Qed.

Lemma norm_index_lt n i k : norm_index n i = Some k → (k < n)%nat.
Proof.
  unfold norm_index. destruct (Z.leb_spec 0 i), (Z.ltb_spec i (Z.of_nat n)), (Z.leb_spec (- Z.of_nat n) i), (Z.ltb_spec i 0); simpl; intros [= <-]; lia.
Qed.

Lemma norm_index_nat n k : norm_index n (Z.of_nat k) = if bool_decide (k < n)%nat then Some k else None.
Proof.
  unfold norm_index. rewrite (proj2 (Z.leb_le 0 _)) by lia. rewrite (proj2 (Z.ltb_ge (Z.of_nat k) 0)), andb_false_r by lia. simpl andb.
  destruct (Z.ltb_spec (Z.of_nat k) (Z.of_nat n)); case_bool_decide; try lia; [by rewrite Nat2Z.id|done].
Qed.

Lemma fmap_if {A B} (f : A → B) (b : bool) x : f <$> (if b then Some x else None) = if b then Some (f x) else None.
Proof. by destruct b. Qed.

(** The empty block. *)
Lemma new_spec junk : ∃ zl, ziplistNew junk = Some zl ∧ zl_rep zl [].
Proof. eexists. split; [vm_compute; reflexivity|]. exists 0. split_and!; try done. by right. Qed.

Section theorems.
Context (junk : Z).

(** An insertion before entry [k], or at the end. *)
Lemma insert_at zl es k s : zl_rep zl es → (k ≤ length es)%nat → Z.of_nat (length zl) + Z.of_nat (length s) + 4 * Z.of_nat (length es) + 128 < 2 ^ 32 →
  ∃ zl', __ziplistInsert junk zl (pos es k) s = Some zl' ∧ zl_holds zl' (take k (strings es) ++ s :: drop k (strings es)).
Proof.
  intros Hrep Hk Hsz. rewrite (holds_size zl es Hrep) in Hsz. destruct (zl_insert_spec junk zl (take k es) (drop k es) s) as (zl' & R & E & HR & HP).
  - by rewrite take_drop.
  - rewrite take_drop, length_drop. lia.
  - exists zl'. split; [exact E|]. exists (take k es ++ R). split; [done|]. unfold strings. rewrite fmap_app, fmap_take, <- fmap_drop. f_equal.
    fold (strings R). rewrite strings_pay, HP. simpl. rewrite pay_of_str. f_equal. symmetry. apply strings_pay.
Qed.

(** A deletion of [num] entries from entry [k] on. *)
Lemma delete_at zl es k num : zl_rep zl es → (k < length es)%nat → Z.of_nat (length zl) + 4 * Z.of_nat (length es) + 64 < 2 ^ 32 →
  ∃ zl' es', __ziplistDelete junk zl (pos es k) num = Some zl' ∧ zl_rep zl' es' ∧ strings es' = take k (strings es) ++ drop (k + Z.to_nat num) (strings es) ∧ pos es' k = pos es k.
Proof.
  intros Hrep Hk Hsz. rewrite (holds_size zl es Hrep) in Hsz. destruct (zl_delete_spec junk zl (take k es) (drop k es) num) as (zl' & R & E & HR & HP).
  - by rewrite take_drop.
  - intros E. apply (f_equal length) in E. rewrite length_drop in E. simpl in E. lia.
  - rewrite take_drop, length_drop. lia.
  - exists zl', (take k es ++ R). split_and!; [exact E|done| |].
    + unfold strings. rewrite fmap_app, fmap_take, <- !fmap_drop. f_equal. fold (strings R). rewrite strings_pay, HP, drop_drop. symmetry. apply strings_pay.
    + unfold pos. rewrite take_app_le by (rewrite length_take; lia). by rewrite take_take, Nat.min_id.
Qed.

Lemma entry_end zl es : zl_rep zl es → ZIPLIST_ENTRY_END zl = Some (pos es (length es)).
Proof. intros (l & -> & _ & _ & _ & _ & Hl). unfold ZIPLIST_ENTRY_END. rewrite zmem_bytes by done. rewrite pos_end by done. simpl. f_equal. lia. Qed.

Lemma push_at zl es s where_ : zl_rep zl es → Z.of_nat (length zl) + Z.of_nat (length s) + 4 * Z.of_nat (length es) + 128 < 2 ^ 32 →
  ∃ zl', ziplistPush junk zl s where_ = Some zl' ∧ zl_holds zl' (if where_ =? ZIPLIST_HEAD then s :: strings es else strings es ++ [s]).
Proof.
  intros Hrep Hsz. unfold ziplistPush. destruct (where_ =? ZIPLIST_HEAD).
  - destruct (insert_at zl es 0 s Hrep) as (zl' & E & H); [lia|done|]. by exists zl'.
  - destruct (insert_at zl es (length es) s Hrep) as (zl' & E & H); [lia|done|]. rewrite (entry_end zl es Hrep).
    exists zl'. split; [exact E|]. by rewrite take_ge, drop_ge in H by (by rewrite strings_length).
Qed.

(** C25. Insertion: the entry an index stands for, from the front or (negative)
    from the back, is found, the new string is placed in front of it, and pushing
    places it at either end, whatever the sizes of the strings are and however many
    of the following entries have to be widened, shifted or re-linked. *)
Theorem ziplistInsert_refines zl ss s where_ : zl_holds zl ss →
  Z.of_nat (length zl) + Z.of_nat (length s) + 4 * Z.of_nat (length ss) + 128 < 2 ^ 32 →
  (∀ i k, - 2 ^ 31 < i → norm_index (length ss) i = Some k → ∃ p zl', ziplistIndex zl i = Some (Some p) ∧ ziplistInsert junk zl p s = Some zl' ∧ zl_holds zl' (take k ss ++ s :: drop k ss)) ∧
  (∃ zl', ziplistPush junk zl s where_ = Some zl' ∧ zl_holds zl' (if where_ =? ZIPLIST_HEAD then s :: ss else ss ++ [s])).
Proof.
  intros (es & Hrep & <-) Hsz. rewrite strings_length in *. split.
  - intros i k Hi Hk. rewrite (index_spec zl es i Hrep Hi), Hk. destruct (insert_at zl es k s Hrep) as (zl' & E & H); [apply norm_index_lt in Hk; lia|done|].
    exists (pos es k), zl'. done.
  - by apply push_at.
Qed.

(** C26. Deletion: a range given by its first index and a count is removed, the
    count being cut at the end of the list; an index outside of the list changes
    nothing. Deleting the entry at a pointer leaves the pointer at the entry that
    followed, so that a loop can go on from it. *)
Theorem ziplistDelete_refines zl ss i num : zl_holds zl ss → - 2 ^ 31 < i →
  Z.of_nat (length zl) + 4 * Z.of_nat (length ss) + 64 < 2 ^ 32 →
  match norm_index (length ss) i with
  | None => ziplistIndex zl i = Some None ∧ ziplistDeleteRange junk zl i num = Some zl
  | Some k =>
      (∃ zl', ziplistDeleteRange junk zl i num = Some zl' ∧ zl_holds zl' (take k ss ++ drop (k + Z.to_nat num) ss)) ∧
      (∃ p zl', ziplistIndex zl i = Some (Some p) ∧ ziplistDelete junk zl p = Some (zl', p) ∧ zl_holds zl' (take k ss ++ drop (k + 1) ss) ∧
        ziplistIndex zl' (Z.of_nat k) = Some (if bool_decide (k + 1 < length ss)%nat then Some p else None))
  end.
Proof.
  intros (es & Hrep & <-) Hi Hsz. rewrite strings_length in *. unfold ziplistDeleteRange. rewrite (index_spec zl es i Hrep Hi). cbn [mbind option_bind].
  destruct (norm_index (length es) i) as [k|] eqn:Hk; [|done]. apply norm_index_lt in Hk. simpl. split.
  - destruct (delete_at zl es k num Hrep Hk Hsz) as (zl' & es' & E & HR & HS & _). exists zl'. split; [exact E|]. by exists es'.
  - destruct (delete_at zl es k 1 Hrep Hk Hsz) as (zl' & es' & E & HR & HS & HP). exists (pos es k), zl'. unfold ziplistDelete. rewrite E. split_and!; try done; [by exists es'|].
    rewrite (index_spec zl' es') by (done || lia). assert (length es' = length es - 1)%nat as ->.
    { rewrite <- (strings_length es'), HS, length_app, length_take, length_drop, strings_length. lia. }
    rewrite norm_index_nat, fmap_if. rewrite HP. repeat case_bool_decide; (done || lia).
Qed.

(** Reading: an index, also a negative one, gives the entry at that place or
    NULL; its value is the string (as such, or as the integer whose decimal form it
    is), comparing it with a string is equality of strings, the next and previous
    entries are the neighbours in the list, and the previous entry of the end mark
    is the last one; the length is the number of strings even when the length field
    is saturated, and asking for it changes no contents. *)
Theorem ziplist_queries_correct zl ss : zl_holds zl ss →
  (∀ i, - 2 ^ 31 < i → norm_index (length ss) i = None → ziplistIndex zl i = Some None) ∧
  (∀ i k s, - 2 ^ 31 < i → norm_index (length ss) i = Some k → ss !! k = Some s → ∃ p v, ziplistIndex zl i = Some (Some p) ∧
     ziplistGet zl (Some p) = Some (Some v) ∧ zval_str v = s ∧ (∀ u, ziplistCompare zl p u = Some (bool_decide (s = u))) ∧
     ziplistNext zl p = ziplistIndex zl (Z.of_nat k + 1) ∧
     ziplistPrev zl p = (if bool_decide (k = 0%nat) then Some None else ziplistIndex zl (Z.of_nat k - 1))) ∧
  (∃ e, ZIPLIST_ENTRY_END zl = Some e ∧ ziplistPrev zl e = ziplistIndex zl (-1) ∧ ziplistNext zl e = Some None) ∧
  (∃ zl', ziplistLen zl = Some (zl', Z.of_nat (length ss)) ∧ zl_holds zl' ss).
Proof.
  intros (es & Hrep & <-). rewrite strings_length. split_and!.
  - intros i Hi Hn. by rewrite (index_spec zl es i Hrep Hi), Hn.
  - intros i k s Hi Hn Hs. rewrite !(index_spec zl es _ Hrep) by lia. rewrite Hn. apply strings_lookup in Hs as (e & He & <-).
    exists (pos es k), (pay_zval (zpay e)). apply lookup_lt_Some in He as Hk. split_and!; try done.
    + by apply get_spec.
    + by destruct (zpay e).
    + intros u. by apply (compare_spec zl es k e).
    + rewrite (next_spec zl es k Hrep). replace (Z.of_nat k + 1) with (Z.of_nat (S k)) by lia. by rewrite norm_index_nat, fmap_if.
    + rewrite (prev_spec zl es k Hrep) by lia. destruct k as [|k]; [done|]. rewrite bool_decide_false by done.
      replace (Z.of_nat (S k) - 1) with (Z.of_nat k) by lia. by rewrite norm_index_nat, bool_decide_true by lia.
  - exists (pos es (length es)). split_and!.
    + by apply entry_end.
    + rewrite (prev_spec zl es _ Hrep), (index_spec zl es _ Hrep) by lia. unfold norm_index. destruct es as [|e es]; [done|]. simpl andb. cbv iota.
      rewrite (proj2 (Z.leb_le _ _)) by (simpl; lia). simpl. do 3 f_equal. lia.
    + rewrite (next_spec zl es _ Hrep). by rewrite bool_decide_false by lia.
  - destruct (len_spec zl es Hrep) as (zl' & E & H'). exists zl'. split; [done|]. by exists es.
Qed.

(** Searching from the entry at a place of the list: of the entries [skip]
    apart the first one equal to the string is found, or NULL when there is none. *)
Theorem ziplistFind_correct zl ss k v skip : zl_holds zl ss → (k < length ss)%nat → Z.of_nat skip < 2 ^ 31 →
  ∃ p r, ziplistIndex zl (Z.of_nat k) = Some (Some p) ∧ ziplistFind zl p v (Z.of_nat skip) = Some r ∧
  match r with
  | Some q => ∃ j, ziplistIndex zl (Z.of_nat (k + j * S skip)) = Some (Some q) ∧ ss !! (k + j * S skip)%nat = Some v ∧
      ∀ j', (j' < j)%nat → ss !! (k + j' * S skip)%nat ≠ Some v
  | None => ∀ j, ss !! (k + j * S skip)%nat ≠ Some v
  end.
Proof.
  intros (es & Hrep & <-) Hk Hskip. rewrite strings_length in *. exists (pos es k), ((λ j, pos es (k + j)) <$> find_in skip 0 v (drop k (strings es))). split_and!.
  - by rewrite (index_spec zl es _ Hrep), norm_index_nat, bool_decide_true by lia.
  - unfold ziplistFind. apply (find_loop_spec zl es v skip Hrep Hskip _ k 0); [pose proof (rep_fuel zl es Hrep); lia|by left].
  - pose proof (find_in_spec skip v (drop k (strings es)) 0) as H. destruct (find_in skip 0 v _) as [n|]; simpl in *.
    + destruct H as (j & -> & Hs & Hlt). rewrite lookup_drop in Hs. exists j. split_and!.
      * apply lookup_lt_Some in Hs as Hl. rewrite strings_length in Hl. by rewrite (index_spec zl es _ Hrep), norm_index_nat, bool_decide_true by lia.
      * done.
      * intros j' Hj. specialize (Hlt j' Hj). by rewrite lookup_drop in Hlt.
    + intros j. specialize (H j). by rewrite lookup_drop in H.
Qed.

(** The block before the cascading update. *)
Lemma merge_prepare es1 es2 l1 l2 : Forall ent_ok (es1 ++ es2) → in_u 16 l1 → in_u 16 l2 →
  Z.of_nat (length (body es1)) + Z.of_nat (length (body es2)) + 64 < 2 ^ 32 →
  let l := if l1 + l2 <? UINT16_MAX then l1 + l2 else UINT16_MAX in
  ziplistMerge junk false (Some (zmem (10 + tail_off es1) l1 (body es1))) (Some (zmem (10 + tail_off es2) l2 (body es2))) =
    (target ← __ziplistCascadeUpdate junk (zmem (10 + Z.of_nat (length (body es1)) + tail_off es2) l (body es1 ++ body es2)) (10 + tail_off es1);
     Some (Some (target, l2 <=? l1))).
Proof.
  intros Hok H1 H2 Hlen l. apply Forall_app in Hok as [Hok1 Hok2]. pose proof (tail_off_range es1 Hok1). pose proof (tail_off_range es2 Hok2).
  unfold ziplistMerge. rewrite !zmem_bytes, !zmem_length, !zmem_tail by (done || lia || (unfold in_u; lia)). cbn [mbind option_bind].
  unfold ZIPLIST_HEADER_SIZE at 1, ZIPLIST_END_SIZE at 1. rewrite merge_copy_spec. cbn [mbind option_bind].
  set (n := 11 + Z.of_nat (length (body es1)) + (11 + Z.of_nat (length (body es2))) - ZIPLIST_HEADER_SIZE - ZIPLIST_END_SIZE).
  assert (set_le (zhdr (11 + Z.of_nat (length (body es1))) (10 + tail_off es1) l1 ++ (body es1 ++ body es2) ++ [ZIP_END]) 0 4 n =
    Some (zmem (10 + tail_off es1) l1 (body es1 ++ body es2))) as ->.
  { unfold zhdr. rewrite <- (app_assoc (le_bytes 4 _)). rewrite set_le_app0 by apply length_le_bytes. unfold zmem, zhdr. rewrite <- (app_assoc (le_bytes 4 _)).
    assert (n = 11 + Z.of_nat (length (body es1 ++ body es2))) as -> by (unfold n, ZIPLIST_HEADER_SIZE, ZIPLIST_END_SIZE; rewrite length_app; lia). done. }
  cbn [mbind option_bind]. rewrite zmem_set_length. cbn [mbind option_bind]. rewrite zmem_set_tail. cbn [mbind option_bind]. fold l.
  replace (u32 _) with (10 + Z.of_nat (length (body es1)) + tail_off es2); [done|]. unfold ZIPLIST_HEADER_SIZE, ZIPLIST_END_SIZE.
  rewrite uwrap_small by (unfold in_u; lia). lia.
Qed.

Lemma merge_length l1 l2 (n1 n2 : nat) : in_u 16 l1 → in_u 16 l2 → l1 = UINT16_MAX ∨ l1 = Z.of_nat n1 → l2 = UINT16_MAX ∨ l2 = Z.of_nat n2 →
  let l := if l1 + l2 <? UINT16_MAX then l1 + l2 else UINT16_MAX in in_u 16 l ∧ (l = UINT16_MAX ∨ l = Z.of_nat (n1 + n2)).
Proof. intros H1 H2 E1 E2 l. unfold l, in_u, UINT16_MAX in *. destruct (Z.ltb_spec (l1 + l2) 65535); lia. Qed.

Lemma merge_at z1 z2 ss1 ss2 : zl_holds z1 ss1 → zl_holds z2 ss2 → ss2 ≠ [] →
  Z.of_nat (length z1) + Z.of_nat (length z2) + 4 * Z.of_nat (length ss2) + 64 < 2 ^ 32 →
  ∃ z in_first, ziplistMerge junk false (Some z1) (Some z2) = Some (Some (z, in_first)) ∧ zl_holds z (ss1 ++ ss2).
Proof.
  intros (es1 & Hr1 & <-) (es2 & Hr2 & <-) Hne Hsz. rewrite strings_length, (holds_size _ _ Hr1), (holds_size _ _ Hr2) in Hsz.
  destruct Hr1 as (l1 & -> & Hc1 & Hok1 & Hl1 & Hn1 & _), Hr2 as (l2 & -> & Hc2 & Hok2 & Hl2 & Hn2 & _).
  assert (Forall ent_ok (es1 ++ es2)) as Hok by (by apply Forall_app). rewrite merge_prepare by (done || lia).
  assert (Z.of_nat (length (body (es1 ++ es2))) + 4 * Z.of_nat (length es2) + 64 < 2 ^ 32) as Hlen by (rewrite body_app, length_app; lia).
  rewrite merge_cascade by (try done; by intros ->). cbn [mbind option_bind]. eexists _, _. split; [done|].
  destruct (merged_spec es1 es2 Hc1 Hc2 Hok Hlen) as (Hc & Hok' & Hpay & Hl'). destruct (merge_length l1 l2 (length es1) (length es2)) as [Hl Hn]; [done..|].
  exists (merged es1 es2). split.
  - eexists. split; [done|]. split_and!; try done; [|lia]. rewrite <- (length_fmap zpay), Hpay, length_fmap, length_app. done.
  - rewrite strings_pay, Hpay, <- strings_pay. apply fmap_app.
Qed.

(** Merging appends the second list to the first one, with the seam between
    them repaired, in whichever of the two blocks is kept; NULL arguments and the
    same list twice are refused. *)
Lemma ziplistMerge_refines z1 z2 ss1 ss2 other : zl_holds z1 ss1 → zl_holds z2 ss2 → ss2 ≠ [] →
  Z.of_nat (length z1) + Z.of_nat (length z2) + 4 * Z.of_nat (length ss2) + 64 < 2 ^ 32 →
  (∃ z in_first, ziplistMerge junk false (Some z1) (Some z2) = Some (Some (z, in_first)) ∧ zl_holds z (ss1 ++ ss2)) ∧
  ziplistMerge junk true (Some z1) (Some z1) = Some None ∧
  ziplistMerge junk false None other = Some None ∧ ziplistMerge junk false other None = Some None.
Proof. intros H1 H2 Hne Hsz. split; [by apply merge_at|]. by destruct other. Qed.

(** Merging an empty list into one that is not empty loses the tail: the
    tail offset of the result is that of the end mark, so the last entry is not
    found from the back although the entries are all there. *)
Theorem ziplistMerge_empty_tail z1 z2 ss : zl_holds z1 ss → zl_holds z2 [] → ss ≠ [] → Z.of_nat (length z1) + 128 < 2 ^ 32 →
  ∃ z z' t in_first, ziplistMerge junk false (Some z1) (Some z2) = Some (Some (z, in_first)) ∧ ziplistIndex z (-1) = Some None ∧
    ziplistPrev z (Z.of_nat (length z1) - 1) = Some None ∧ set_le z 4 4 t = Some z' ∧ zl_holds z' ss.
Proof.
  intros (es1 & Hr1 & <-) (es2 & Hr2 & E2) Hne Hsz. apply fmap_nil_inv in E2 as ->. rewrite (holds_size _ _ Hr1) in *.
  destruct Hr1 as (l1 & -> & Hc1 & Hok1 & Hl1 & Hn1 & _), Hr2 as (l2 & -> & _ & _ & Hl2 & Hn2 & _).
  rewrite merge_prepare by (rewrite ?app_nil_r; try done; simpl; lia). simpl (tail_off []). simpl (body []). rewrite app_nil_r, Z.add_0_r.
  set (l := if _ <? _ then _ else _). set (p := 10 + Z.of_nat (length (body es1))). set (z := zmem p l (body es1)).
  assert (ZIPLIST_TAIL_OFFSET z = Some p) as Et by (apply zmem_tail; unfold in_u, p; lia). assert (byte_at z p = Some ZIP_END) as Ee by (by apply zmem_end).
  assert (in_u 32 p ∧ in_u 32 (p + 4)) as [Hp Hp4] by (unfold in_u, p; lia).
  exists z, (zmem (10 + tail_off es1) l (body es1)), (10 + tail_off es1), (l2 <=? l1). split_and!.
  - unfold __ziplistCascadeUpdate, z. rewrite zmem_bytes by lia. cbn [mbind option_bind]. destruct es1 as [|e es1 _] using rev_ind; [done|].
    apply Forall_app in Hok1 as [_ [He _]%Forall_cons]. destruct (length (zmem p l _)) as [|f] eqn:Ef; [apply (f_equal Z.of_nat) in Ef; rewrite length_zmem in Ef; lia|].
    rewrite tail_off_app by done. rewrite body_app in *. simpl (tail_off [e]). rewrite Z.add_0_r. cbn [cascade_loop]. change (body [e]) with (ent_bytes e ++ body []) in *.
    rewrite cascade_step_spec; [done|done|done|done|done|lia|done|done].
  - unfold ziplistIndex. change (-1 <? 0) with true. change (-1 =? - 2 ^ 31) with false. cbv iota. rewrite Et. cbn [mbind option_bind]. rewrite Ee. cbn [mbind option_bind]. simpl negb. cbv iota. cbn [mbind option_bind]. by rewrite Ee.
  - replace (11 + Z.of_nat (length (body es1)) - 1) with p by (unfold p; lia). unfold ziplistPrev. rewrite Ee. cbn [mbind option_bind]. simpl (_ =? _). cbv iota. rewrite Et. cbn [mbind option_bind]. by rewrite Ee.
  - apply zmem_set_tail.
  - exists es1. split; [|done]. destruct (merge_length l1 l2 (length es1) 0) as [Hl Hn]; [done..|]. rewrite Nat.add_0_r in Hn. exists l. split_and!; try done. lia.
Qed.

(** The strings pushed one after the other to the tail of a new list. *)
Definition push_all (ss : list (list Z)) : option (list Z) :=
  foldl (λ zl s, zl ← zl; ziplistPush junk zl s 1) (ziplistNew junk) ss.

Lemma raw_bound e : ent_ok e → raw e ≤ Z.of_nat (length (pay_str (zpay e))) + 14.
Proof.
  intros He. rewrite raw_parts. assert (psize e ≤ 5) by (unfold psize; case_match; lia). destruct (zpay e) as [s|enc v]; simpl.
  - unfold zipStoreEntryEncoding. simpl. repeat case_match; simpl; lia.
  - rewrite length_le_bytes. unfold int_width. repeat case_match; lia.
Qed.

Definition total (ss : list (list Z)) : Z := foldr (λ s n, Z.of_nat (length s) + 18 + n) 0 ss.

Lemma body_bound es : Forall ent_ok es → Z.of_nat (length (body es)) + 4 * Z.of_nat (length es) ≤ total (strings es).
Proof.
  induction es as [|e es IH]; intros Hok; [done|]. apply Forall_cons in Hok as [He Hok]. specialize (IH Hok). pose proof (raw_bound e He).
  rewrite length_body_cons. simpl. fold (strings es). lia.
Qed.

Lemma total_app ss1 ss2 : total (ss1 ++ ss2) = total ss1 + total ss2.
Proof. induction ss1 as [|s ss1 IH]; simpl; [done|]. lia. Qed.

Lemma total_nonneg ss : 0 ≤ total ss.
Proof. induction ss as [|s ss IH]; simpl; lia. Qed.

Lemma push_all_spec ss : total ss + 256 < 2 ^ 32 → ∃ zl, push_all ss = Some zl ∧ zl_holds zl ss.
Proof.
  induction ss as [|s ss IH] using rev_ind; intros Hsz.
  - destruct (new_spec junk) as (zl & E & H). exists zl. split; [done|]. by exists [].
  - rewrite total_app in Hsz. simpl in Hsz. destruct IH as (zl & E & es & Hrep & <-); [lia|]. unfold push_all in *. rewrite foldl_app, E. simpl.
    apply (push_at zl es s 1 Hrep). rewrite (holds_size zl es Hrep). pose proof Hrep as (_ & _ & _ & Hok & _). pose proof (body_bound es Hok). lia.
Qed.

(** What was pushed is what is read: after pushing any strings to a new
    list (integers are stored in their binary form, from 4 bits to 64) every
    index gives its string back and the length is the number of pushes. *)
Theorem ziplist_roundtrip ss : total ss + 256 < 2 ^ 32 → ∃ zl, push_all ss = Some zl ∧
  (∃ zl', ziplistLen zl = Some (zl', Z.of_nat (length ss))) ∧
  ∀ k s, ss !! k = Some s → ∃ p v, ziplistIndex zl (Z.of_nat k) = Some (Some p) ∧ ziplistGet zl (Some p) = Some (Some v) ∧ zval_str v = s.
Proof.
  intros Hsz. destruct (push_all_spec ss Hsz) as (zl & E & es & Hrep & <-). exists zl. rewrite strings_length. split_and!; [done| |].
  - destruct (len_spec zl es Hrep) as (zl' & El & _). by exists zl'.
  - intros k s (e & He & <-)%strings_lookup. exists (pos es k), (pay_zval (zpay e)). apply lookup_lt_Some in He as Hk.
    rewrite (index_spec zl es _ Hrep), norm_index_nat, bool_decide_true by lia. rewrite (get_spec zl es k e Hrep He). split_and!; try done. by destruct (zpay e).
Qed.
End theorems.

(** ** Examples *)

(** The strings 12, abc and -300. *)
Definition demo_strings : list (list Z) := [[49; 50]; [97; 98; 99]; [45; 51; 48; 48]].
Definition demo_zl : list Z := default [] (push_all 0 demo_strings).

Lemma demo_holds : zl_holds demo_zl demo_strings.
Proof.
  exists [ZE false 0 (PInt 253 12); ZE false 2 (PStr [97; 98; 99]); ZE false 5 (PInt ZIP_INT_16B (-300))]. split; [|done]. exists 3. split_and!.
  - vm_compute. reflexivity.
  - vm_compute. repeat split.
  - repeat apply Forall_cons_2; [..|done]; (split_and!; [simpl; unfold ZIP_BIG_PREVLEN; lia| |vm_compute; reflexivity]); simpl; unfold in_s; unfold_zip; unfold in_s; lia.
  - done.
  - by right.
  - vm_compute. reflexivity.
Defined.

(** Inserting 300 letters in front of the second entry. *)
Lemma ziplistInsert_refines_witness : ∃ p zl', ziplistIndex demo_zl (-2) = Some (Some p) ∧ ziplistInsert 0 demo_zl p (replicate 300 65) = Some zl' ∧
  zl_holds zl' [[49; 50]; replicate 300 65; [97; 98; 99]; [45; 51; 48; 48]].
Proof.
  destruct (ziplistInsert_refines 0 demo_zl demo_strings (replicate 300 65) 1 demo_holds) as [H _]; [vm_compute; reflexivity|].
  exact (H (-2) 1%nat eq_refl eq_refl).
Defined.

Lemma ziplistDelete_refines_witness : ∃ zl', ziplistDeleteRange 0 demo_zl (-2) 9 = Some zl' ∧ zl_holds zl' [[49; 50]].
Proof. exact (proj1 (ziplistDelete_refines 0 demo_zl demo_strings (-2) 9 demo_holds eq_refl eq_refl)). Defined.

Lemma ziplist_queries_correct_witness : ∃ zl', ziplistLen demo_zl = Some (zl', 3) ∧ zl_holds zl' demo_strings.
Proof. exact (proj2 (proj2 (proj2 (ziplist_queries_correct demo_zl demo_strings demo_holds)))). Defined.

Lemma ziplistFind_correct_witness : ∃ p r, ziplistIndex demo_zl 0 = Some (Some p) ∧ ziplistFind demo_zl p [45; 51; 48; 48] 1 = Some r.
Proof.
  destruct (ziplistFind_correct demo_zl demo_strings 0 [45; 51; 48; 48] 1 demo_holds) as (p & r & H1 & H2 & _); [vm_compute; lia|vm_compute; reflexivity|].
  exists p, r. split; [exact H1|exact H2].
Defined.

Lemma ziplistMerge_refines_witness : ∃ z in_first, ziplistMerge 0 false (Some demo_zl) (Some demo_zl) = Some (Some (z, in_first)) ∧
  zl_holds z (demo_strings ++ demo_strings).
Proof.
  exact (proj1 (ziplistMerge_refines 0 demo_zl demo_zl demo_strings demo_strings None demo_holds demo_holds ltac:(discriminate) eq_refl)).
Defined.

Lemma empty_holds : zl_holds [11; 0; 0; 0; 10; 0; 0; 0; 0; 0; 255] [].
Proof. exists []. split; [|done]. exists 0. split_and!; try done. by right. Defined.

Lemma ziplistMerge_empty_tail_witness : ∃ z z' t in_first,
  ziplistMerge 0 false (Some demo_zl) (Some [11; 0; 0; 0; 10; 0; 0; 0; 0; 0; 255]) = Some (Some (z, in_first)) ∧ ziplistIndex z (-1) = Some None ∧
    ziplistPrev z (Z.of_nat (length demo_zl) - 1) = Some None ∧ set_le z 4 4 t = Some z' ∧ zl_holds z' demo_strings.
Proof. exact (ziplistMerge_empty_tail 0 demo_zl _ demo_strings demo_holds empty_holds ltac:(discriminate) eq_refl). Defined.

Lemma ziplist_roundtrip_witness : ∃ zl, push_all 0 demo_strings = Some zl ∧ ∃ p v, ziplistIndex zl 2 = Some (Some p) ∧
  ziplistGet zl (Some p) = Some (Some v) ∧ zval_str v = [45; 51; 48; 48].
Proof.
  destruct (ziplist_roundtrip 0 demo_strings) as (zl & E & _ & H); [vm_compute; reflexivity|]. exists zl. split; [exact E|]. exact (H 2%nat _ eq_refl).
Defined.
