(* ===== verification/ZiplistApi.v ===== *)
(** * What the users of ziplists rely on

    The operations of Ziplist.v in terms of [zl_holds] and of [zl_at]: the
    offset [p] is that of entry [k] (or of the end mark) of a block that holds
    the strings [ss]. Quicklist.v and
    THash.v are verified against these laws only. *)

From S2P Require Import Prelude Decimal Sds Util Ziplist ZiplistRep ZiplistEdit ZiplistQuery ZiplistSpec.

Definition zl_at (b : list Z) (ss : list (list Z)) (k : nat) (p : Z) : Prop :=
  ∃ es, zl_rep b es ∧ strings es = ss ∧ p = pos es k ∧ (k ≤ length ss)%nat.

Lemma at_holds b ss k p : zl_at b ss k p → zl_holds b ss.
Proof. intros (es & Hr & Hs & _). by exists es. Qed.

Lemma total_bound es : Forall ent_ok es → total (strings es) ≤ Z.of_nat (length (body es)) + 40 * Z.of_nat (length es).
Proof.
  induction es as [|e es IH]; intros Hok; [done|]. apply Forall_cons in Hok as [He Hok]. specialize (IH Hok). rewrite length_body_cons. simpl. fold (strings es).
  assert (Z.of_nat (length (pay_str (zpay e))) ≤ raw e + 21); [|lia]. pose proof (raw_pos e He). rewrite raw_parts in *. destruct (zpay e) as [s|enc v]; simpl in *.
  - unfold psize in *. case_match; lia.
  - pose proof (decimal_z_length v). lia.
Qed.

(** Sizes of a block. *)
Lemma holds_sizes b ss : zl_holds b ss →
  11 + 2 * Z.of_nat (length ss) ≤ Z.of_nat (length b) ≤ 11 + total ss ∧ total ss ≤ Z.of_nat (length b) + 40 * Z.of_nat (length ss).
Proof.
  intros (es & Hr & <-). rewrite (holds_size b es Hr), strings_length. destruct Hr as (_ & _ & _ & Hok & _).
  pose proof (body_bound es Hok). pose proof (total_bound es Hok). pose proof (length_body_ge es Hok). lia.
Qed.

Lemma bloblen_holds b ss : zl_holds b ss → ziplistBlobLen b = Some (Z.of_nat (length b)).
Proof. intros (es & (l & -> & _ & _ & _ & _ & Hl) & _). unfold ziplistBlobLen. rewrite zmem_bytes, length_zmem by done. done. Qed.

Lemma new_holds junk : ∃ b, ziplistNew junk = Some b ∧ zl_holds b [].
Proof. destruct (new_spec junk) as (b & E & H). exists b. split; [done|]. by exists []. Qed.

Lemma len_holds b ss : zl_holds b ss → ∃ b', ziplistLen b = Some (b', Z.of_nat (length ss)) ∧ zl_holds b' ss.
Proof.
  intros (es & Hr & <-). destruct (len_spec b es Hr) as (b' & E & H'). exists b'. rewrite strings_length. split; [done|]. by exists es.
Qed.

Lemma index_holds b ss i : zl_holds b ss → - 2 ^ 31 < i → ∃ r, ziplistIndex b i = Some r ∧
  match norm_index (length ss) i with Some k => ∃ p, r = Some p ∧ zl_at b ss k p | None => r = None end.
Proof.
  intros (es & Hr & <-) Hi. rewrite (index_spec b es i Hr Hi), strings_length. eexists. split; [done|].
  destruct (norm_index (length es) i) as [k|] eqn:Ek; [|done]. apply norm_index_lt in Ek. exists (pos es k). split; [done|]. exists es. rewrite strings_length. split_and!; (done || lia).
Qed.

Lemma get_at b ss k p s : zl_at b ss k p → ss !! k = Some s →
  ∃ v, ziplistGet b (Some p) = Some (Some v) ∧ zval_str v = s ∧ (∀ n, v = ZInt n → in_s 64 n).
Proof.
  intros (es & Hr & <- & -> & _) (e & He & <-)%strings_lookup. exists (pay_zval (zpay e)). rewrite (get_spec b es k e Hr He).
  split_and!; [done|by destruct (zpay e)|]. intros n En. destruct (zpay e) as [|enc v] eqn:Ey; [done|]. injection En as <-. by apply (entry_s64 b es k e enc).
Qed.

Lemma compare_at b ss k p s u : zl_at b ss k p → ss !! k = Some s → ziplistCompare b p u = Some (bool_decide (s = u)).
Proof. intros (es & Hr & <- & -> & _) (e & He & <-)%strings_lookup. by apply compare_spec. Qed.

Lemma get_end b ss p : zl_at b ss (length ss) p → ziplistGet b (Some p) = Some None.
Proof.
  intros (es & Hr & <- & -> & _). rewrite strings_length. cbn [ziplistGet]. destruct (rep_byte b es (length es) Hr) as (x & -> & Hx). cbn [mbind option_bind].
  by rewrite Hx, bool_decide_true.
Qed.

Lemma next_at b ss k p : zl_at b ss k p → ∃ r, ziplistNext b p = Some r ∧
  if decide (S k < length ss)%nat then ∃ p', r = Some p' ∧ zl_at b ss (S k) p' else r = None.
Proof.
  intros (es & Hr & <- & -> & _). rewrite (next_spec b es k Hr), strings_length. eexists. split; [done|].
  case_bool_decide; [rewrite decide_True by done|by rewrite decide_False by done]. eexists. split; [done|]. exists es. rewrite strings_length. split_and!; (done || lia).
Qed.

Lemma prev_at b ss k p : zl_at b ss k p → ∃ r, ziplistPrev b p = Some r ∧
  match k with O => r = None | S j => ∃ p', r = Some p' ∧ zl_at b ss j p' end.
Proof.
  intros (es & Hr & <- & -> & Hk). rewrite strings_length in Hk. rewrite (prev_spec b es k Hr Hk). eexists. split; [done|].
  destruct k as [|j]; [done|]. eexists. split; [done|]. exists es. rewrite strings_length. split_and!; (done || lia).
Qed.

Lemma holds_room b ss : zl_holds b ss → total ss ≤ 2 ^ 31 → Z.of_nat (length b) + 4 * Z.of_nat (length ss) ≤ 11 + total ss.
Proof.
  intros (es & Hr & <-) _. rewrite (holds_size b es Hr), strings_length. destruct Hr as (_ & _ & _ & Hok & _). pose proof (body_bound es Hok). lia.
Qed.

(** Of the entries [skip] apart, one that is the string is found if there is any. *)
Lemma find_at b ss k p v skip : zl_at b ss k p → Z.of_nat skip < 2 ^ 31 →
  ∃ r, ziplistFind b p v (Z.of_nat skip) = Some r ∧
    match r with
    | Some q => ∃ j, zl_at b ss (k + j * S skip) q ∧ ss !! (k + j * S skip)%nat = Some v
    | None => ∀ j, ss !! (k + j * S skip)%nat ≠ Some v
    end.
Proof.
  intros (es & Hr & <- & -> & Hk) Hskip. eexists. split.
  { unfold ziplistFind. apply (find_loop_spec b es v skip Hr Hskip _ k 0); [pose proof (rep_fuel b es Hr); lia|by left]. }
  pose proof (find_in_spec skip v (drop k (strings es)) 0) as H. destruct (find_in skip 0 v _) as [n|]; simpl in *.
  - destruct H as (j & -> & Hs & _). rewrite lookup_drop in Hs. exists j. split; [|done]. apply lookup_lt_Some in Hs as Hl. exists es. split_and!; (done || lia).
  - intros j. specialize (H j). by rewrite lookup_drop in H.
Qed.

Section updates.
Context (junk : Z).

Lemma push_holds b ss v where_ : zl_holds b ss → total ss ≤ 2 ^ 31 → Z.of_nat (length v) ≤ 2 ^ 30 →
  ∃ b', ziplistPush junk b v where_ = Some b' ∧ zl_holds b' (if where_ =? ZIPLIST_HEAD then v :: ss else ss ++ [v]).
Proof.
  intros Hh Ht Hv. pose proof (holds_room b ss Hh Ht). destruct Hh as (es & Hr & <-). rewrite strings_length in *. apply push_at; [done|lia].
Qed.

Lemma insert_holds b ss k p v : zl_at b ss k p → total ss ≤ 2 ^ 31 → Z.of_nat (length v) ≤ 2 ^ 30 →
  ∃ b', ziplistInsert junk b p v = Some b' ∧ zl_holds b' (take k ss ++ v :: drop k ss).
Proof.
  intros Ha Ht Hv. pose proof (holds_room b ss (at_holds _ _ _ _ Ha) Ht). destruct Ha as (es & Hr & <- & -> & Hk). rewrite strings_length in *.
  by apply insert_at; [|lia|lia].
Qed.

Lemma delete_holds b ss k p : zl_at b ss k p → (k < length ss)%nat → total ss ≤ 2 ^ 31 →
  ∃ b', ziplistDelete junk b p = Some (b', p) ∧ zl_at b' (take k ss ++ drop (S k) ss) k p.
Proof.
  intros Ha Hk Ht. pose proof (holds_room b ss (at_holds _ _ _ _ Ha) Ht). destruct Ha as (es & Hr & <- & -> & _). rewrite strings_length in *.
  destruct (delete_at junk b es k 1 Hr Hk) as (b' & es' & E & HR & HS & HP); [lia|]. exists b'. unfold ziplistDelete. rewrite E. split; [done|].
  replace (k + Z.to_nat 1)%nat with (S k) in HS by lia. exists es'. split_and!; try done. rewrite length_app, length_take, strings_length. lia.
Qed.

Lemma delete_range_holds b ss i k num : zl_holds b ss → - 2 ^ 31 < i → norm_index (length ss) i = Some k → total ss ≤ 2 ^ 31 →
  ∃ b', ziplistDeleteRange junk b i num = Some b' ∧ zl_holds b' (take k ss ++ drop (k + Z.to_nat num) ss).
Proof.
  intros Hh Hi Hk Ht. pose proof (holds_room b ss Hh Ht). destruct Hh as (es & Hr & <-). rewrite strings_length in *.
  unfold ziplistDeleteRange. rewrite (index_spec b es i Hr Hi), Hk. cbn [mbind option_bind fmap option_fmap option_map]. apply norm_index_lt in Hk.
  destruct (delete_at junk b es k num Hr Hk) as (b' & es' & E & HR & HS & _); [lia|]. exists b'. split; [exact E|]. by exists es'.
Qed.

Lemma delete_range_none b ss i num : zl_holds b ss → - 2 ^ 31 < i → norm_index (length ss) i = None → ziplistDeleteRange junk b i num = Some b.
Proof.
  intros (es & Hr & <-) Hi Hk. rewrite strings_length in *. unfold ziplistDeleteRange. rewrite (index_spec b es i Hr Hi), Hk. done.
Qed.

Lemma merge_holds b1 b2 ss1 ss2 : zl_holds b1 ss1 → zl_holds b2 ss2 → ss2 ≠ [] → total ss1 ≤ 2 ^ 30 → total ss2 ≤ 2 ^ 30 →
  ∃ b in_first, ziplistMerge junk false (Some b1) (Some b2) = Some (Some (b, in_first)) ∧ zl_holds b (ss1 ++ ss2).
Proof.
  intros H1 H2 Hne Ht1 Ht2. pose proof (holds_sizes b1 ss1 H1). pose proof (holds_room b2 ss2 H2). apply merge_at; [done..|lia].
Qed.
End updates.
