(* ===== verification/Quicklist.v ===== *)
(** * quicklist.c: a doubly linked list of ziplists

    The nodes of a quicklist are nodes of the heap of Adlist.v: their links and
    a [qdata], the rest of the struct. A node holds a ziplist (Ziplist.v) or
    the LZF-compressed bytes of one (Lzf.v); taking one for the other, NULL
    dereferences and freed nodes are [None]. [junk] and [ljunk] are the contents
    of fresh memory, [alloc n] is a fresh block of [n] bytes. The fields [count],
    [fill] and [compress] have 16 bits, [fill] being signed. *)

From S2P Require Import Prelude Decimal Sds Util Adlist Lzf Ziplist.

Definition QUICKLIST_HEAD : Z := 0.
Definition QUICKLIST_TAIL : Z := -1.
Definition ENCODING_RAW : Z := 1.
Definition ENCODING_LZF : Z := 2.
Definition SIZE_SAFETY_LIMIT : Z := 8192.
Definition MIN_COMPRESS_BYTES : Z := 48.
Definition MIN_COMPRESS_IMPROVE : Z := 8.
Definition COMPRESS_MAX : Z := 2 ^ 16.
Definition FILL_MAX : Z := 2 ^ 15.
Definition optimization_level : list Z := [4096; 8192; 16384; 32768; 65536].

(** [node->zl]: NULL, a ziplist, or a quicklistLZF, whose [sz] is the length of the bytes. *)
Inductive qptr := QNull | QZl (b : list Z) | QLzf (compressed : list Z).

Record qdata := QData { zl : qptr; sz : Z; count : Z; qenc : Z; recompress : bool }.

Abbreviation quicklistNode := (listNode qdata).
Abbreviation qstore := (gmap positive (listNode qdata)).

Record quicklist := QList {
  qhead : option positive;
  qtail : option positive;
  qcount : Z;
  qlen : Z;
  fill : Z;
  compress : Z
}.

Definition set_qhead (q : quicklist) p := QList p (qtail q) (qcount q) (qlen q) (fill q) (compress q).
Definition set_qtail (q : quicklist) p := QList (qhead q) p (qcount q) (qlen q) (fill q) (compress q).
Definition set_qcount (q : quicklist) n := QList (qhead q) (qtail q) n (qlen q) (fill q) (compress q).
Definition set_qlen (q : quicklist) n := QList (qhead q) (qtail q) (qcount q) n (fill q) (compress q).

Definition set_zl (d : qdata) p := QData p (sz d) (count d) (qenc d) (recompress d).
Definition set_count (d : qdata) n := QData (zl d) (sz d) n (qenc d) (recompress d).
Definition set_recompress (d : qdata) b := QData (zl d) (sz d) (count d) (qenc d) b.

(** [node->f] and an assignment to fields of a node. *)
Definition data (h : qstore) (x : positive) : option qdata := value <$> h !! x.
Definition set_data (h : qstore) (x : positive) (d : qdata) : option qstore :=
  n ← h !! x; Some (<[x := LNode (prev n) (next n) d]> h).

(** [node->zl] used as a ziplist. *)
Definition zipl (d : qdata) : option (list Z) := match zl d with QZl b => Some b | _ => None end.

(** ** Options *)

Definition quicklistCreate : quicklist := QList None None 0 0 (-2) 0.

Definition quicklistSetCompressDepth (q : quicklist) (c : Z) : quicklist :=
  let c := if COMPRESS_MAX <? c then COMPRESS_MAX else if c <? 0 then 0 else c in
  QList (qhead q) (qtail q) (qcount q) (qlen q) (fill q) (u16 c).

Definition quicklistSetFill (q : quicklist) (f : Z) : quicklist :=
  let f := if FILL_MAX <? f then FILL_MAX else if f <? -5 then -5 else f in
  QList (qhead q) (qtail q) (qcount q) (qlen q) (s16 f) (compress q).

Definition quicklistSetOptions (q : quicklist) (f depth : Z) : quicklist :=
  quicklistSetCompressDepth (quicklistSetFill q f) depth.

Definition quicklistNew (f c : Z) : quicklist := quicklistSetOptions quicklistCreate f c.

Definition quicklistCount (q : quicklist) : Z := qcount q.

Definition quicklistCreateNode (h : qstore) : qstore * positive :=
  let node := fresh (dom h : gset positive) in
  (<[node := LNode None None (QData QNull 0 0 ENCODING_RAW false)]> h, node).

Fixpoint release_loop (k : nat) (h : qstore) (q : quicklist) (current : option positive) : option (qstore * quicklist) :=
  match k with
  | O => Some (h, q)
  | S k' =>
      x ← current;
      n ← h !! x;
      release_loop k' (delete x h) (set_qlen (set_qcount q (u64 (qcount q - count (value n)))) (u64 (qlen q - 1))) (next n)
  end.

Definition quicklistRelease (h : qstore) (q : quicklist) : option (qstore * quicklist) :=
  release_loop (Z.to_nat (qlen q)) h q (qhead q).

Section quicklist.
Context (junk : Z) (ljunk : Z → Z) (alloc : nat → list Z).

(** ** Compression *)

Definition __quicklistCompressNode (h : qstore) (x : positive) : option (qstore * bool) :=
  d ← data h x;
  if sz d <? MIN_COMPRESS_BYTES then Some (h, false) else
  b ← zipl d;
  inp ← mread b 0 (sz d);
  '(n, out) ← lzf_compress ljunk inp (sz d) (alloc (Z.to_nat (sz d)));
  if (n =? 0) || (sz d <=? u32 (n + MIN_COMPRESS_IMPROVE)) then Some (h, false) else
  h ← set_data h x (QData (QLzf (take (Z.to_nat n) out)) (sz d) (count d) ENCODING_LZF false);
  Some (h, true).

Definition quicklistCompressNode (h : qstore) (node : option positive) : option qstore :=
  match node with
  | None => Some h
  | Some x => d ← data h x; if qenc d =? ENCODING_RAW then '(h, _) ← __quicklistCompressNode h x; Some h else Some h
  end.

Definition __quicklistDecompressNode (h : qstore) (x : positive) : option (qstore * bool) :=
  d ← data h x;
  c ← match zl d with QLzf c => Some c | _ => None end;
  '(n, out) ← lzf_decompress c (sz d) (alloc (Z.to_nat (sz d)));
  if n =? 0 then Some (h, false) else
  h ← set_data h x (QData (QZl out) (sz d) (count d) ENCODING_RAW (recompress d));
  Some (h, true).

Definition quicklistDecompressNode (h : qstore) (node : option positive) : option qstore :=
  match node with
  | None => Some h
  | Some x => d ← data h x; if qenc d =? ENCODING_LZF then '(h, _) ← __quicklistDecompressNode h x; Some h else Some h
  end.

Definition quicklistDecompressNodeForUse (h : qstore) (x : positive) : option qstore :=
  d ← data h x;
  if qenc d =? ENCODING_LZF then
    '(h, _) ← __quicklistDecompressNode h x;
    d ← data h x;
    set_data h x (set_recompress d true)
  else Some h.

(** The bytes and their number. *)
Definition quicklistGetLzf (h : qstore) (x : positive) : option (list Z * Z) :=
  d ← data h x;
  match zl d with QLzf c => Some (c, Z.of_nat (length c)) | _ => None end.

(** [while (depth++ < quicklist->compress)]: [None] inside is the return in the loop. *)
Fixpoint compress_loop (k : nat) (h : qstore) (forward reverse node : option positive) (in_depth : bool) :
    option (qstore * option (option positive * option positive * bool)) :=
  match k with
  | O => Some (h, Some (forward, reverse, in_depth))
  | S k' =>
      h ← quicklistDecompressNode h forward;
      h ← quicklistDecompressNode h reverse;
      let in_depth := in_depth || bool_decide (forward = node) || bool_decide (reverse = node) in
      if bool_decide (forward = reverse) then Some (h, None) else
      f ← forward; nf ← h !! f;
      r ← reverse; nr ← h !! r;
      compress_loop k' h (next nf) (prev nr) node in_depth
  end.

Definition __quicklistCompress (h : qstore) (q : quicklist) (node : option positive) : option qstore :=
  if (compress q =? 0) || (qlen q <? compress q * 2) then Some h else
  '(h, r) ← compress_loop (Z.to_nat (compress q)) h (qhead q) (qtail q) node false;
  match r with
  | None => Some h
  | Some (forward, reverse, in_depth) =>
      let depth := compress q + 1 in
      h ← (if negb in_depth then quicklistCompressNode h node else Some h);
      if 2 <? depth then
        h ← quicklistCompressNode h forward;
        quicklistCompressNode h reverse
      else Some h
  end.

Definition quicklistCompress (h : qstore) (q : quicklist) (x : positive) : option qstore :=
  d ← data h x;
  if recompress d then quicklistCompressNode h (Some x) else __quicklistCompress h q (Some x).

Definition quicklistRecompressOnly (h : qstore) (x : positive) : option qstore :=
  d ← data h x;
  if recompress d then quicklistCompressNode h (Some x) else Some h.

(** ** Linking nodes *)

(** The links and the ends of the list. *)
Definition link_node (h : qstore) (q : quicklist) (old_node : option positive) (new_node : positive) (after : bool) : option (qstore * quicklist) :=
  '(h, q) ←
    (if after then
       h ← set_prev h new_node old_node;
       h ← when_some old_node (λ o,
             no ← h !! o;
             h ← set_next h new_node (next no);
             h ← when_some (next no) (λ y, set_prev h y (Some new_node)) h;
             set_next h o (Some new_node)) h;
       Some (h, if bool_decide (qtail q = old_node) then set_qtail q (Some new_node) else q)
     else
       h ← set_next h new_node old_node;
       h ← when_some old_node (λ o,
             no ← h !! o;
             h ← set_prev h new_node (prev no);
             h ← when_some (prev no) (λ y, set_next h y (Some new_node)) h;
             set_prev h o (Some new_node)) h;
       Some (h, if bool_decide (qhead q = old_node) then set_qhead q (Some new_node) else q));
  Some (h, if qlen q =? 0 then set_qtail (set_qhead q (Some new_node)) (Some new_node) else q).

Definition __quicklistInsertNode (h : qstore) (q : quicklist) (old_node : option positive) (new_node : positive) (after : bool) :
    option (qstore * quicklist) :=
  '(h, q) ← link_node h q old_node new_node after;
  h ← when_some old_node (λ o, quicklistCompress h q o) h;
  Some (h, set_qlen q (u64 (qlen q + 1))).

Definition _quicklistInsertNodeBefore (h : qstore) (q : quicklist) (old_node : option positive) (new_node : positive) :=
  __quicklistInsertNode h q old_node new_node false.

Definition _quicklistInsertNodeAfter (h : qstore) (q : quicklist) (old_node : option positive) (new_node : positive) :=
  __quicklistInsertNode h q old_node new_node true.

Definition unlink_node (h : qstore) (q : quicklist) (node : positive) : option (qstore * quicklist) :=
  n ← h !! node;
  h ← when_some (next n) (λ y, set_prev h y (prev n)) h;
  h ← when_some (prev n) (λ y, set_next h y (next n)) h;
  let q := if bool_decide (qtail q = Some node) then set_qtail q (prev n) else q in
  let q := if bool_decide (qhead q = Some node) then set_qhead q (next n) else q in
  Some (h, q).

Definition __quicklistDelNode (h : qstore) (q : quicklist) (node : positive) : option (qstore * quicklist) :=
  '(h, q) ← unlink_node h q node;
  h ← __quicklistCompress h q None;
  d ← data h node;
  Some (delete node h, set_qlen (set_qcount q (u64 (qcount q - count d))) (u64 (qlen q - 1))).

(** ** Limits *)

Definition _quicklistNodeSizeMeetsOptimizationRequirement (n f : Z) : bool :=
  if 0 <=? f then false else
  match optimization_level !! Z.to_nat (- f - 1) with Some l => n <=? l | None => false end.

Definition sizeMeetsSafetyLimit (n : Z) : bool := n <=? SIZE_SAFETY_LIMIT.

Definition _quicklistNodeAllowInsert (h : qstore) (node : option positive) (f n : Z) : option bool :=
  match node with
  | None => Some false
  | Some x =>
      d ← data h x;
      let overhead := (if n <? 254 then 1 else 5) + (if n <? 64 then 1 else if n <? 16384 then 2 else 5) in
      let new_sz := u32 (sz d + n + overhead) in
      Some (if _quicklistNodeSizeMeetsOptimizationRequirement new_sz f then true
            else if negb (sizeMeetsSafetyLimit new_sz) then false else count d <? f)
  end.

Definition _quicklistNodeAllowMerge (h : qstore) (a b : option positive) (f : Z) : option bool :=
  match a, b with
  | Some x, Some y =>
      dx ← data h x;
      dy ← data h y;
      let merge_sz := u32 (sz dx + sz dy - 11) in
      Some (if _quicklistNodeSizeMeetsOptimizationRequirement merge_sz f then true
            else if negb (sizeMeetsSafetyLimit merge_sz) then false else count dx + count dy <=? f)
  | _, _ => Some false
  end.

(** [node->zl = b; quicklistNodeUpdateSz(node)] *)
Definition store_zl (h : qstore) (x : positive) (b : list Z) : option qstore :=
  d ← data h x;
  n ← ziplistBlobLen b;
  set_data h x (QData (QZl b) n (count d) (qenc d) (recompress d)).

(** [node->count += k] *)
Definition add_count (h : qstore) (x : positive) (k : Z) : option qstore :=
  d ← data h x; set_data h x (set_count d (u16 (count d + k))).

(** ** Adding *)

(** The node at an end that takes the entry. *)
Definition push_existing (h : qstore) (node : option positive) (v : list Z) (where_ : Z) : option qstore :=
  x ← node;
  d ← data h x;
  b ← zipl d;
  b ← ziplistPush junk b v where_;
  store_zl h x b.

(** [quicklistCreateNode] with a ziplist of one entry. *)
Definition push_new (h : qstore) (v : list Z) (where_ : Z) : option (qstore * positive) :=
  let '(h, x) := quicklistCreateNode h in
  b ← ziplistNew junk;
  b ← ziplistPush junk b v where_;
  h ← store_zl h x b;
  Some (h, x).

Definition quicklistPushHead (h : qstore) (q : quicklist) (v : list Z) : option (qstore * quicklist * bool) :=
  let orig_head := qhead q in
  allow ← _quicklistNodeAllowInsert h (qhead q) (fill q) (Z.of_nat (length v));
  '(h, q) ←
    (if (allow : bool) then h ← push_existing h (qhead q) v ZIPLIST_HEAD; Some (h, q)
     else '(h, x) ← push_new h v ZIPLIST_HEAD; _quicklistInsertNodeBefore h q (qhead q) x);
  let q := set_qcount q (u64 (qcount q + 1)) in
  x ← qhead q;
  h ← add_count h x 1;
  Some (h, q, negb (bool_decide (orig_head = qhead q))).

Definition quicklistPushTail (h : qstore) (q : quicklist) (v : list Z) : option (qstore * quicklist * bool) :=
  let orig_tail := qtail q in
  allow ← _quicklistNodeAllowInsert h (qtail q) (fill q) (Z.of_nat (length v));
  '(h, q) ←
    (if (allow : bool) then h ← push_existing h (qtail q) v ZIPLIST_TAIL; Some (h, q)
     else '(h, x) ← push_new h v ZIPLIST_TAIL; _quicklistInsertNodeAfter h q (qtail q) x);
  let q := set_qcount q (u64 (qcount q + 1)) in
  x ← qtail q;
  h ← add_count h x 1;
  Some (h, q, negb (bool_decide (orig_tail = qtail q))).

Definition quicklistPush (h : qstore) (q : quicklist) (v : list Z) (where_ : Z) : option (qstore * quicklist) :=
  if where_ =? QUICKLIST_HEAD then '(h, q, _) ← quicklistPushHead h q v; Some (h, q)
  else if where_ =? QUICKLIST_TAIL then '(h, q, _) ← quicklistPushTail h q v; Some (h, q)
  else Some (h, q).

Definition quicklistAppendZiplist (h : qstore) (q : quicklist) (b : list Z) : option (qstore * quicklist) :=
  let '(h, x) := quicklistCreateNode h in
  '(b, n) ← ziplistLen b;
  h ← store_zl h x b;
  h ← add_count h x n;
  '(h, q) ← _quicklistInsertNodeAfter h q (qtail q) x;
  d ← data h x;
  Some (h, set_qcount q (u64 (qcount q + count d))).

(** An entry as a string; [ll2string] gives the decimal form (Util.v) in [longstr]. *)
Definition entry_string (v : zval) : option (list Z) :=
  match v with
  | ZStr s => Some s
  | ZInt n => '(buf, r) ← ll2string (replicate 32 0) n; Some (take (Z.to_nat r) buf)
  end.

(** [while (ziplistGet(p, ...))] *)
Fixpoint append_loop (fuel : nat) (h : qstore) (q : quicklist) (b : list Z) (p : option Z) : option (qstore * quicklist) :=
  match fuel with
  | O => None
  | S f =>
      v ← ziplistGet b p;
      match v with
      | None => Some (h, q)
      | Some v =>
          s ← entry_string v;
          '(h, q, _) ← quicklistPushTail h q s;
          x ← p;
          p ← ziplistNext b x;
          append_loop f h q b p
      end
  end.

Definition quicklistAppendValuesFromZiplist (h : qstore) (q : quicklist) (b : list Z) : option (qstore * quicklist) :=
  p ← ziplistIndex b 0;
  append_loop (S (length b)) h q b p.

Definition quicklistCreateFromZiplist (h : qstore) (f c : Z) (b : list Z) : option (qstore * quicklist) :=
  quicklistAppendValuesFromZiplist h (quicklistNew f c) b.

(** ** Finding *)

(** [value], [sz] and [longval] are one [zval]; [zi] is an offset in the ziplist of [node]. *)
Record quicklistEntry := QEntry { enode : option positive; ezi : option Z; evalue : option zval; eoffset : Z }.

(** [while (likely(n))]: the node and [accum]. *)
Fixpoint node_loop (fuel : nat) (h : qstore) (forward : bool) (n : option positive) (accum index : Z) : option (option positive * Z) :=
  match n with
  | None => Some (None, accum)
  | Some x =>
      nd ← h !! x;
      if index <? u64 (accum + count (value nd)) then Some (n, accum) else
      match fuel with
      | O => None
      | S f => node_loop f h forward (if forward then next nd else prev nd) (u64 (accum + count (value nd))) index
      end
  end.

(** [None] inside is the result 0; [-idx] overflows for LLONG_MIN. *)
Definition quicklistIndex (h : qstore) (q : quicklist) (idx : Z) : option (qstore * option quicklistEntry) :=
  if idx =? - 2 ^ 63 then None else
  let forward := negb (idx <? 0) in
  let index := if forward then idx else - idx - 1 in
  let n := if forward then qhead q else qtail q in
  if qcount q <=? index then Some (h, None) else
  '(n, accum) ← node_loop (Z.to_nat (qlen q)) h forward n 0 index;
  match n with
  | None => Some (h, None)
  | Some x =>
      let offset := if forward then s32 (u64 (index - accum)) else s32 (u64 (- index - 1 + accum)) in
      h ← quicklistDecompressNodeForUse h x;
      d ← data h x;
      b ← zipl d;
      zi ← ziplistIndex b offset;
      v ← ziplistGet b zi;
      Some (h, Some (QEntry (Some x) zi v offset))
  end.

(** ** Removing *)

(** [*p] and whether the node is gone. *)
Definition quicklistDelIndex (h : qstore) (q : quicklist) (x : positive) (p : Z) : option (qstore * quicklist * Z * bool) :=
  d ← data h x;
  b ← zipl d;
  '(b, p) ← ziplistDelete junk b p;
  h ← set_data h x (set_count (set_zl d (QZl b)) (u16 (count d - 1)));
  d ← data h x;
  '(h, q, gone) ←
    (if count d =? 0 then '(h, q) ← __quicklistDelNode h q x; Some (h, q, true)
     else h ← store_zl h x b; Some (h, q, false));
  Some (h, set_qcount q (u64 (qcount q - 1)), p, gone).

(** The index and the result of [ziplistGet]; [None] inside is the result 0. *)
Definition quicklistPopCustom (h : qstore) (q : quicklist) (where_ : Z) : option (qstore * quicklist * option zval) :=
  let pos := if where_ =? QUICKLIST_HEAD then 0 else -1 in
  if qcount q =? 0 then Some (h, q, None) else
  let node := if where_ =? QUICKLIST_HEAD then qhead q else if where_ =? QUICKLIST_TAIL then qtail q else None in
  match node with
  | None => Some (h, q, None)
  | Some x =>
      d ← data h x;
      b ← zipl d;
      p ← ziplistIndex b pos;
      v ← ziplistGet b p;
      match v with
      | None => Some (h, q, None)
      | Some v => p ← p; '(h, q, _, _) ← quicklistDelIndex h q x p; Some (h, q, Some v)
      end
  end.

Definition quicklistPop (h : qstore) (q : quicklist) (where_ : Z) : option (qstore * quicklist * option zval) :=
  if qcount q =? 0 then Some (h, q, None) else quicklistPopCustom h q where_.

(** [value] points into the ziplist of the tail unless the entry is a number: when the push changes that very block,
    [ziplistPush] reads it after it was reallocated and moved, and nothing is promised. *)
Definition is_str (v : zval) : bool := match v with ZStr _ => true | ZInt _ => false end.

Definition quicklistRotate (h : qstore) (q : quicklist) : option (qstore * quicklist) :=
  if qcount q <=? 1 then Some (h, q) else
  t ← qtail q;
  d ← data h t;
  b ← zipl d;
  p ← ziplistIndex b (-1);
  v ← ziplistGet b p;
  v ← v;
  s ← entry_string v;
  allow ← _quicklistNodeAllowInsert h (qhead q) (fill q) (Z.of_nat (length s));
  if is_str v && bool_decide (qhead q = qtail q) && allow then None else
  '(h, q, _) ← quicklistPushHead h q s;
  p ← (if qlen q =? 1 then
         t ← qtail q; d ← data h t; b ← zipl d; ziplistIndex b (-1)
       else Some p);
  p ← p;
  t ← qtail q;
  '(h, q, _, _) ← quicklistDelIndex h q t p;
  Some (h, q).

(** Whether the entry was found. *)
Definition quicklistReplaceAtIndex (h : qstore) (q : quicklist) (index : Z) (v : list Z) : option (qstore * bool) :=
  '(h, e) ← quicklistIndex h q index;
  match e with
  | None => Some (h, false)
  | Some e =>
      x ← enode e;
      d ← data h x;
      b ← zipl d;
      p ← ezi e;
      '(b, p) ← ziplistDelete junk b p;
      b ← ziplistInsert junk b p v;
      h ← store_zl h x b;
      h ← quicklistCompress h q x;
      Some (h, true)
  end.

(** ** Merging and splitting *)

(** The node that is kept, [None] inside for NULL. *)
Definition _quicklistZiplistMerge (h : qstore) (q : quicklist) (a b : positive) : option (qstore * quicklist * option positive) :=
  h ← quicklistDecompressNode h (Some a);
  h ← quicklistDecompressNode h (Some b);
  da ← data h a; za ← zipl da;
  db ← data h b; zb ← zipl db;
  r ← ziplistMerge junk (bool_decide (a = b)) (Some za) (Some zb);
  match r with
  | None => Some (h, q, None)
  | Some (z, in_first) =>
      let '(keep, nokeep) := if (in_first : bool) then (a, b) else (b, a) in
      '(z, n) ← ziplistLen z;
      dk ← data h keep;
      h ← set_data h keep (set_count (set_zl dk (QZl z)) (u16 n));
      h ← store_zl h keep z;
      dn ← data h nokeep;
      h ← set_data h nokeep (set_count (set_zl dn QNull) 0);
      '(h, q) ← __quicklistDelNode h q nokeep;
      h ← quicklistCompress h q keep;
      Some (h, q, Some keep)
  end.

(** [node->prev], [NULL] for NULL. *)
Definition prev_of (h : qstore) (p : option positive) : option (option positive) := when_some p (λ x, n ← h !! x; Some (prev n)) None.
Definition next_of (h : qstore) (p : option positive) : option (option positive) := when_some p (λ x, n ← h !! x; Some (next n)) None.

(** [if (_quicklistNodeAllowMerge(...)) _quicklistZiplistMerge(a, b)]: whether it was tried, and its result. *)
Definition merge_if (h : qstore) (q : quicklist) (allow : bool) (a b : option positive) : option (qstore * quicklist * option positive) :=
  if allow then x ← a; y ← b; _quicklistZiplistMerge h q x y else Some (h, q, None).

Definition _quicklistMergeNodes (h : qstore) (q : quicklist) (center : positive) : option (qstore * quicklist) :=
  let f := fill q in
  prev ← prev_of h (Some center);
  prev_prev ← prev_of h prev;
  next ← next_of h (Some center);
  next_next ← next_of h next;
  allow ← _quicklistNodeAllowMerge h prev prev_prev f;
  '(h, q, _) ← merge_if h q allow prev_prev prev;
  allow ← _quicklistNodeAllowMerge h next next_next f;
  '(h, q, _) ← merge_if h q allow next next_next;
  cprev ← prev_of h (Some center);
  allow ← _quicklistNodeAllowMerge h (Some center) cprev f;
  '(h, q, target) ← merge_if h q allow cprev (Some center);
  let target := if (allow : bool) then target else Some center in
  t ← target;
  tnext ← next_of h (Some t);
  allow ← _quicklistNodeAllowMerge h target tnext f;
  '(h, q, _) ← merge_if h q allow target tnext;
  Some (h, q).

(** The extents are unsigned ints: -1 is 2^32 - 1. *)
Definition _quicklistSplitNode (h : qstore) (node : positive) (offset : Z) (after : bool) : option (qstore * positive) :=
  d ← data h node;
  b ← zipl d;
  let '(h, new_node) := quicklistCreateNode h in
  copy ← mread b 0 (sz d);
  let orig_start := if after then offset + 1 else 0 in
  let orig_extent := if after then -1 else offset in
  let new_start := if after then 0 else offset in
  let new_extent := if after then offset + 1 else -1 in
  b ← ziplistDeleteRange junk b orig_start (u32 orig_extent);
  '(b, n) ← ziplistLen b;
  h ← set_data h node (set_count (set_zl d (QZl b)) (u16 n));
  h ← store_zl h node b;
  copy ← ziplistDeleteRange junk copy new_start (u32 new_extent);
  '(copy, n) ← ziplistLen copy;
  dn ← data h new_node;
  h ← set_data h new_node (set_count (set_zl dn (QZl copy)) (u16 n));
  h ← store_zl h new_node copy;
  Some (h, new_node).

(** ** Inserting *)

(** The entry goes into the ziplist of [x], at [p] or at an end. *)
Definition insert_into (h : qstore) (x : positive) (v : list Z) (at_ : list Z → option (option Z)) (where_ : Z) : option qstore :=
  h ← quicklistDecompressNodeForUse h x;
  d ← data h x;
  b ← zipl d;
  p ← at_ b;
  b ← match p with Some p => ziplistInsert junk b p v | None => ziplistPush junk b v where_ end;
  h ← add_count h x 1;
  h ← store_zl h x b;
  quicklistRecompressOnly h x.

Definition _quicklistInsert (h : qstore) (q : quicklist) (entry : quicklistEntry) (v : list Z) (after : bool) : option (qstore * quicklist) :=
  let n := Z.of_nat (length v) in
  match enode entry with
  | None =>
      let '(h, x) := quicklistCreateNode h in
      b ← ziplistNew junk;
      b ← ziplistPush junk b v ZIPLIST_HEAD;
      d ← data h x;
      h ← set_data h x (set_zl d (QZl b));
      '(h, q) ← __quicklistInsertNode h q None x after;
      h ← add_count h x 1;
      Some (h, set_qcount q (u64 (qcount q + 1)))
  | Some node =>
      nd ← h !! node;
      let next := next nd in
      let prev := prev nd in
      allow ← _quicklistNodeAllowInsert h (Some node) (fill q) n;
      let full := negb allow in
      allow_next ← _quicklistNodeAllowInsert h next (fill q) n;
      allow_prev ← _quicklistNodeAllowInsert h prev (fill q) n;
      let at_tail := after && (eoffset entry =? count (value nd)) in
      let full_next := at_tail && negb allow_next in
      let at_head := negb after && (eoffset entry =? 0) in
      let full_prev := at_head && negb allow_prev in
      '(h, q) ←
        (if negb full && after then
           h ← insert_into h node v (λ b, zi ← ezi entry; ziplistNext b zi) ZIPLIST_TAIL; Some (h, q)
         else if negb full && negb after then
           h ← insert_into h node v (λ b, zi ← ezi entry; Some (Some zi)) ZIPLIST_TAIL; Some (h, q)
         else if full && at_tail && bool_decide (next ≠ None) && negb full_next && after then
           x ← next; h ← insert_into h x v (λ _, Some None) ZIPLIST_HEAD; Some (h, q)
         else if full && at_head && bool_decide (prev ≠ None) && negb full_prev && negb after then
           x ← prev; h ← insert_into h x v (λ _, Some None) ZIPLIST_TAIL; Some (h, q)
         else if full && ((at_tail && bool_decide (next ≠ None) && full_next && after) ||
                          (at_head && bool_decide (prev ≠ None) && full_prev && negb after)) then
           '(h, x) ← push_new h v ZIPLIST_HEAD;
           h ← add_count h x 1;
           __quicklistInsertNode h q (Some node) x after
         else if full then
           h ← quicklistDecompressNodeForUse h node;
           '(h, x) ← _quicklistSplitNode h node (eoffset entry) after;
           h ← push_existing h (Some x) v (if after then ZIPLIST_HEAD else ZIPLIST_TAIL);
           h ← add_count h x 1;
           '(h, q) ← __quicklistInsertNode h q (Some node) x after;
           _quicklistMergeNodes h q node
         else Some (h, q));
      Some (h, set_qcount q (u64 (qcount q + 1)))
  end.

Definition quicklistInsertBefore (h : qstore) (q : quicklist) (entry : quicklistEntry) (v : list Z) := _quicklistInsert h q entry v false.
Definition quicklistInsertAfter (h : qstore) (q : quicklist) (entry : quicklistEntry) (v : list Z) := _quicklistInsert h q entry v true.

(** ** Removing a range *)

(** How many entries of the node are deleted, and whether it is the whole node. *)
Definition range_part (offset extent n : Z) : Z * bool :=
  if (offset =? 0) && (n <=? extent) then (n, true)
  else if (0 <=? offset) && (n <=? extent) then (u64 (n - offset), false)
  else if offset <? 0 then (Z.min (u64 (- offset)) extent, false)
  else (extent, false).

(** [while (extent)] *)
Fixpoint range_loop (fuel : nat) (h : qstore) (q : quicklist) (node : option positive) (offset extent : Z) : option (qstore * quicklist) :=
  if extent =? 0 then Some (h, q) else
  match fuel with
  | O => None
  | S f =>
      x ← node;
      nd ← h !! x;
      let next := next nd in
      let '(del, entire) := range_part offset extent (count (value nd)) in
      '(h, q) ←
        (if (entire : bool) then __quicklistDelNode h q x
         else
           h ← quicklistDecompressNodeForUse h x;
           d ← data h x;
           b ← zipl d;
           b ← ziplistDeleteRange junk b offset (u32 del);
           h ← store_zl h x b;
           h ← add_count h x (- del);
           let q := set_qcount q (u64 (qcount q - del)) in
           d ← data h x;
           if count d =? 0 then __quicklistDelNode h q x
           else h ← quicklistRecompressOnly h x; Some (h, q));
      range_loop f h q next 0 (u64 (extent - del))
  end.

(** Whether something was deleted. *)
Definition quicklistDelRange (h : qstore) (q : quicklist) (start cnt : Z) : option (qstore * quicklist * bool) :=
  if cnt <=? 0 then Some (h, q, false) else
  let extent := cnt in
  let extent :=
    if (0 <=? start) && (u64 (qcount q - start) <? extent) then u64 (qcount q - start)
    else if (start <? 0) && (u64 (- start) <? extent) then u64 (- start)
    else extent in
  '(h, e) ← quicklistIndex h q start;
  match e with
  | None => Some (h, q, false)
  | Some e =>
      '(h, q) ← range_loop (S (Z.to_nat (qlen q))) h q (enode e) (eoffset e) extent;
      Some (h, q, true)
  end.

(** ** Iterators *)

(** [fwd]: AL_START_HEAD. *)
Record quicklistIter := QIter { current : option positive; izi : option Z; ioffset : Z; fwd : bool }.

Definition quicklistGetIterator (q : quicklist) (direction : bool) : quicklistIter :=
  if direction then QIter (qhead q) None 0 true else QIter (qtail q) None (-1) false.

Definition quicklistGetIteratorAtIdx (h : qstore) (q : quicklist) (direction : bool) (idx : Z) : option (qstore * option quicklistIter) :=
  '(h, e) ← quicklistIndex h q idx;
  match e with
  | None => Some (h, None)
  | Some e => Some (h, Some (QIter (enode e) None (eoffset e) direction))
  end.

Definition quicklistReleaseIterator (h : qstore) (q : quicklist) (iter : quicklistIter) : option qstore :=
  match current iter with Some x => quicklistCompress h q x | None => Some h end.

(** [None] inside is the result 0. The recursion moves to another node. *)
Fixpoint quicklistNext (fuel : nat) (h : qstore) (q : quicklist) (iter : quicklistIter) : option (qstore * quicklistIter * option quicklistEntry) :=
  match current iter with
  | None => Some (h, iter, None)
  | Some x =>
      match fuel with
      | O => None
      | S f =>
          '(h, zi, offset) ←
            match izi iter with
            | None =>
                h ← quicklistDecompressNodeForUse h x;
                d ← data h x;
                b ← zipl d;
                zi ← ziplistIndex b (ioffset iter);
                Some (h, zi, ioffset iter)
            | Some p =>
                d ← data h x;
                b ← zipl d;
                zi ← (if fwd iter then ziplistNext b p else ziplistPrev b p);
                Some (h, zi, ioffset iter + (if fwd iter then 1 else -1))
            end;
          match zi with
          | Some p =>
              d ← data h x;
              b ← zipl d;
              v ← ziplistGet b (Some p);
              Some (h, QIter (Some x) (Some p) offset (fwd iter), Some (QEntry (Some x) (Some p) v offset))
          | None =>
              h ← quicklistCompress h q x;
              nd ← h !! x;
              quicklistNext f h q (if fwd iter then QIter (next nd) None 0 true else QIter (prev nd) None (-1) false)
          end
      end
  end.

Definition quicklistDelEntry (h : qstore) (q : quicklist) (iter : quicklistIter) (entry : quicklistEntry) : option (qstore * quicklist * quicklistIter) :=
  x ← enode entry;
  nd ← h !! x;
  p ← ezi entry;
  '(h, q, _, deleted_node) ← quicklistDelIndex h q x p;
  Some (h, q,
    if (deleted_node : bool)
    then (if fwd iter then QIter (next nd) None 0 true else QIter (prev nd) None (-1) false)
    else QIter (current iter) None (ioffset iter) (fwd iter)).

Definition quicklistCompare (b : list Z) (p : Z) (s : list Z) : option bool := ziplistCompare b p s.

(** ** Copying *)

Fixpoint copy_loop (fuel : nat) (h : qstore) (copy : quicklist) (current : option positive) : option (qstore * quicklist) :=
  match current with
  | None => Some (h, copy)
  | Some x =>
      match fuel with
      | O => None
      | S f =>
          c ← h !! x;
          let d := value c in
          z ← match zl d with
              | QLzf z => if qenc d =? ENCODING_LZF then Some (QLzf z) else None
              | QZl b => if qenc d =? ENCODING_RAW then z ← mread b 0 (sz d); Some (QZl z) else None
              | QNull => None
              end;
          let '(h, node) := quicklistCreateNode h in
          let copy := set_qcount copy (u64 (qcount copy + count d)) in
          h ← set_data h node (QData z (sz d) (count d) (qenc d) false);
          '(h, copy) ← _quicklistInsertNodeAfter h copy (qtail copy) node;
          copy_loop f h copy (next c)
      end
  end.

Definition quicklistDup (h : qstore) (orig : quicklist) : option (qstore * quicklist) :=
  copy_loop (Z.to_nat (qlen orig)) h (quicklistNew (fill orig) (compress orig)) (qhead orig).

End quicklist.
