(* ===== verification/QuicklistRep.v ===== *)
(** * quicklist.c: nodes, links and compression *)

From S2P Require Import Prelude Decimal Sds Util Adlist Lzf Ziplist ZiplistRep ZiplistEdit ZiplistQuery ZiplistSpec ZiplistApi Quicklist.

(** ** Nodes *)

Definition is_raw (d : qdata) : Prop := qenc d = ENCODING_RAW.

(** The bytes of the ziplist of a node, compressed or not. *)
Definition node_bytes (d : qdata) (b : list Z) : Prop :=
  (qenc d = ENCODING_RAW ∧ zl d = QZl b) ∨ (qenc d = ENCODING_LZF ∧ ∃ bs, zl d = QLzf (enc bs) ∧ decodes [] bs b).

(** The node holds the strings [ss]; there is at least one. *)
Record node_holds (d : qdata) (ss : list (list Z)) : Prop := {
  no_ne : ss ≠ [];
  no_total : total ss ≤ 2 ^ 30;
  no_small : Z.of_nat (length ss) < 2 ^ 16;
  no_bytes : ∃ b, zl_holds b ss ∧ sz d = Z.of_nat (length b) ∧ node_bytes d b
}.

(** The number of entries is recorded. *)
Definition node_ok (d : qdata) (ss : list (list Z)) : Prop := node_holds d ss ∧ count d = Z.of_nat (length ss).

Lemma node_raw d ss : node_holds d ss → is_raw d → ∃ b, zipl d = Some b ∧ zl_holds b ss ∧ sz d = Z.of_nat (length b).
Proof.
  intros [_ _ _ (b & Hb & Hs & [[_ E]|[E _]])] Hr; [|by rewrite Hr in E]. exists b. unfold zipl. by rewrite E.
Qed.

Lemma node_enc d ss : node_holds d ss → qenc d = ENCODING_RAW ∨ qenc d = ENCODING_LZF.
Proof. intros [_ _ _ (b & _ & _ & [[E _]|[E _]])]; auto. Qed.

(** ** Links *)

(** The nodes [ns] of the list [q], in order; the length field is not considered. *)
Record links (h : qstore) (q : quicklist) (ns : list (positive * qdata)) : Prop := {
  lk_nodup : NoDup ns.*1;
  lk_seg : dseg h None ns None;
  lk_head : qhead q = first_or ns None;
  lk_tail : qtail q = last_or ns None
}.

(** [h'] differs from [h] at the nodes [ns] only. *)
Definition frame (h h' : qstore) (ns : list (positive * qdata)) : Prop :=
  (dom h' : gset positive) = dom h ∧ ∀ y : positive, y ∉ ns.*1 → h' !! y = h !! y.

Lemma links_node h q a x d b : links h q (a ++ (x, d) :: b) → h !! x = Some (LNode (last_or a None) (first_or b None) d) ∧ data h x = Some d.
Proof. intros [_ Hs _ _]. apply dseg_parts in Hs as (Hx & _). split; [done|]. unfold data. by rewrite Hx. Qed.

(** Data of a node that is not in a list, or that is. *)
Lemma set_data_Some h x n d : h !! x = Some n → set_data h x d = Some (<[x := LNode (prev n) (next n) d]> h).
Proof. intros E. unfold set_data. by rewrite E. Qed.

Lemma links_set h q a x d b d' : links h q (a ++ (x, d) :: b) →
  ∃ h', set_data h x d' = Some h' ∧ links h' q (a ++ (x, d') :: b) ∧ dom h' = dom h ∧ (∀ y, y ≠ x → h' !! y = h !! y).
Proof.
  intros Hl. destruct (links_node h q a x d b Hl) as [Hx _]. rewrite (set_data_Some h x _ d' Hx). eexists. split; [done|].
  destruct Hl as [Hnd Hs Hh Ht]. rewrite fmap_app, fmap_cons in Hnd. pose proof Hnd as Hnd'. simpl in Hnd'. rewrite <- Permutation_middle in Hnd'. apply NoDup_cons in Hnd' as [Hxn _]. rewrite not_elem_of_app in Hxn. destruct Hxn.
  apply dseg_parts in Hs as (_ & Hsa & Hsb). split; [constructor|split_and!].
  - by rewrite fmap_app, fmap_cons.
  - apply dseg_join; [by apply dseg_insert..|]. apply lookup_insert_eq.
  - rewrite Hh, !first_or_app. by destruct a as [|[]].
  - rewrite Ht, !last_or_app, !last_or_cons. done.
  - rewrite dom_insert_L. apply elem_of_dom_2 in Hx. set_solver.
  - intros y Hy. by apply lookup_insert_ne.
Qed.

Lemma links_frame h h' q ns : links h q ns → (∀ y, y ∈ ns.*1 → h' !! y = h !! y) → links h' q ns.
Proof. intros [] Hf. constructor; try done. by eapply dseg_ext. Qed.

(** ** Compressing one node *)

(** [d'] holds the same ziplist; it has a flag only if [d] has. *)
Definition same_node (d d' : qdata) : Prop :=
  (∀ ss b, zl_holds b ss → sz d = Z.of_nat (length b) → node_bytes d b → node_bytes d' b) ∧ (recompress d = false → recompress d' = false) ∧ sz d' = sz d ∧ count d' = count d.

#[export] Instance same_node_refl : Reflexive same_node.
Proof. intros d. by split_and!. Qed.

#[export] Instance same_node_trans : Transitive same_node.
Proof.
  intros d1 d2 d3 (H1 & H2 & H3 & H4) (H1' & H2' & H3' & H4'). split_and!; [|auto|congruence|congruence]. intros ss b Hb Hs Hn. apply (H1' ss b Hb); [congruence|]. by apply (H1 ss).
Qed.

Lemma same_node_holds d d' ss : same_node d d' → node_holds d ss → node_holds d' ss.
Proof.
  intros (H1 & _ & H2 & _) [Hne Ht Hs (b & Hb & Hsz & Hnb)]. constructor; try done. exists b. split_and!; [done|congruence|]. by apply (H1 ss).
Qed.

(** Uncompressed before and after: the same bytes. *)
Lemma same_node_raw d d' ss b : same_node d d' → node_holds d ss → is_raw d → is_raw d' → zipl d = Some b → zipl d' = Some b.
Proof.
  intros (H1 & _) [_ _ _ (b' & Hb' & Hsz & Hnb)] Hr Hr' Hb. destruct (H1 ss b' Hb' Hsz Hnb) as [[_ E]|[E _]]; [|by rewrite Hr' in E].
  destruct Hnb as [[_ E']|[E' _]]; [|by rewrite Hr in E']. unfold zipl in *. rewrite E' in Hb. by rewrite E.
Qed.


(** ** By index *)

(** The pointer to node [i]. *)
Definition ptr (ns : list (positive * qdata)) (i : nat) : option positive := fst <$> ns !! i.

Definition same_nodes (ns ns' : list (positive * qdata)) : Prop := Forall2 (λ u v, u.1 = v.1 ∧ same_node u.2 v.2) ns ns'.

Lemma same_nodes_refl ns : same_nodes ns ns.
Proof. apply Forall_Forall2_diag, Forall_true. intros u. done. Qed.

Lemma same_nodes_trans ns1 ns2 ns3 : same_nodes ns1 ns2 → same_nodes ns2 ns3 → same_nodes ns1 ns3.
Proof.
  intros H1. revert ns3. induction H1 as [|u v l1 l2 [E1 E2] _ IH]; intros ns3 H2; inversion H2 as [|? w ? l3 [E1' E2'] H2']; subst; constructor; [|by apply IH].
  split; [congruence|by etrans].
Qed.

Lemma same_nodes_fst ns ns' : same_nodes ns ns' → ns'.*1 = ns.*1.
Proof. induction 1 as [|u v l l' [E _] _ IH]; [done|]. rewrite !fmap_cons. by rewrite E, IH. Qed.

Lemma same_nodes_length ns ns' : same_nodes ns ns' → length ns' = length ns.
Proof. intros H. by rewrite (Forall2_length _ _ _ H). Qed.

Lemma same_nodes_ok ns ns' sss : same_nodes ns ns' → Forall2 (λ nd, node_holds nd.2) ns sss → Forall2 (λ nd, node_holds nd.2) ns' sss.
Proof. intros H. revert sss. induction H as [|u v l l' [_ E] _ IH]; intros sss Hs; inversion Hs; subst; constructor; [by eapply same_node_holds|auto]. Qed.

Lemma same_nodes_insert ns i x d d' : ns !! i = Some (x, d) → same_node d d' → same_nodes ns (<[i := (x, d')]> ns).
Proof.
  intros Hi Hs. rewrite <- (list_insert_id ns i (x, d) Hi) at 1. apply Forall2_insert; [apply same_nodes_refl|done].
Qed.

Lemma ptr_fst ns ns' i : ns'.*1 = ns.*1 → ptr ns' i = ptr ns i.
Proof. intros E. unfold ptr. by rewrite <- !list_lookup_fmap, E. Qed.

Lemma ptr_first ns : first_or ns None = ptr ns 0.
Proof. by destruct ns as [|[]]. Qed.

Lemma ptr_last ns : last_or ns None = ptr ns (length ns - 1).
Proof. unfold last_or, ptr. rewrite last_lookup, Nat.sub_1_r. by destruct (ns !! _) as [[]|]. Qed.

(** The links of a node. *)
Lemma links_lookup h q ns i x d : links h q ns → ns !! i = Some (x, d) →
  h !! x = Some (LNode (if bool_decide (i = 0%nat) then None else ptr ns (i - 1)) (ptr ns (S i)) d).
Proof.
  intros Hl Hi. pose proof Hi as Hlt. apply lookup_lt_Some in Hlt. rewrite <- (take_drop_middle ns i (x, d) Hi) in Hl.
  destruct (links_node h q _ x d _ Hl) as [-> _]. do 2 f_equal.
  - rewrite ptr_last, length_take. unfold ptr. case_bool_decide as E; [by subst|]. rewrite lookup_take_lt by lia. do 2 f_equal. lia.
  - rewrite ptr_first. unfold ptr. rewrite lookup_drop. do 2 f_equal. lia.
Qed.

Lemma links_data h q ns i x d : links h q ns → ns !! i = Some (x, d) → data h x = Some d.
Proof. intros Hl Hi. unfold data. by rewrite (links_lookup h q ns i x d Hl Hi). Qed.

Lemma set_data_at h q ns i x d d' : links h q ns → ns !! i = Some (x, d) →
  ∃ h', set_data h x d' = Some h' ∧ links h' q (<[i := (x, d')]> ns) ∧ frame h h' ns.
Proof.
  intros Hl Hi. pose proof Hi as Hlt. apply lookup_lt_Some in Hlt. rewrite <- (take_drop_middle ns i (x, d) Hi) in Hl.
  destruct (links_set h q _ x d _ d' Hl) as (h' & E & Hl' & Hdom & Hf). exists h'. split; [done|]. rewrite insert_take_drop by done. split; [done|]. split; [done|].
  intros y Hy. apply Hf. intros ->. apply Hy. apply list_elem_of_fmap. exists (x, d). split; [done|]. by apply list_elem_of_lookup_2 in Hi.
Qed.

Lemma frame_one h h' ns i x d : ns !! i = Some (x, d) → frame h h' [(x, d)] → frame h h' ns.
Proof.
  intros Hi [Hd Hf]. split; [done|]. intros y Hy. apply Hf. simpl. intros ->%list_elem_of_singleton. apply Hy. apply list_elem_of_fmap. exists (x, d).
  split; [done|]. by apply list_elem_of_lookup_2 in Hi.
Qed.

Lemma frame_trans h h' h'' ns ns' : ns'.*1 = ns.*1 → frame h h' ns → frame h' h'' ns' → frame h h'' ns.
Proof. intros E [D1 F1] [D2 F2]. split; [congruence|]. intros y Hy. rewrite F2, F1 by congruence. done. Qed.

Lemma ok_at ns sss i x d : Forall2 (λ nd : positive * qdata, node_holds nd.2) ns sss → ns !! i = Some (x, d) → ∃ ss, sss !! i = Some ss ∧ node_holds d ss.
Proof. intros H Hi. destruct (Forall2_lookup_l _ _ _ _ _ H Hi) as (ss & Hs & Hok). by exists ss. Qed.


(** ** Ends of a list *)

(** Node [j] is among the first or the last [i] of [n] nodes. *)
Definition outer (n i j : nat) : Prop := (j < i ∨ n ≤ j + i)%nat.

Definition raw_outer (ns : list (positive * qdata)) (i : nat) : Prop :=
  ∀ j x d, ns !! j = Some (x, d) → outer (length ns) i j → is_raw d.

Lemma prev_next_at h q ns i x d : links h q ns → ns !! i = Some (x, d) → ∃ nd, h !! x = Some nd ∧ next nd = ptr ns (S i) ∧
  ((0 < i)%nat → prev nd = ptr ns (i - 1)) ∧ (i = 0%nat → prev nd = None).
Proof.
  intros Hl Hi. eexists. split; [exact (links_lookup h q ns i x d Hl Hi)|]. simpl. split_and!; [done| |]; intros ?; [rewrite bool_decide_false by lia|rewrite bool_decide_true by lia]; done.
Qed.

Lemma ptr_lookup ns i : (i < length ns)%nat → ∃ x d, ns !! i = Some (x, d) ∧ ptr ns i = Some x.
Proof. intros Hi. destruct (lookup_lt_is_Some_2 ns i Hi) as [[x d] E]. exists x, d. unfold ptr. by rewrite E. Qed.

Lemma ptr_inj h q ns i j : links h q ns → (i < length ns)%nat → ptr ns i = ptr ns j → i = j.
Proof.
  intros [Hnd _ _ _] Hi E. destruct (ptr_lookup ns i Hi) as (x & d & Hx & Ex). rewrite Ex in E. unfold ptr in E, Ex. rewrite <- list_lookup_fmap in E, Ex.
  by eapply NoDup_lookup.
Qed.


(** ** Linking nodes in and out *)

(** The heap agrees outside of [ns] and [x]. *)
Definition frame1 (h h' : qstore) (ns : list (positive * qdata)) (x : positive) : Prop :=
  (dom h' : gset positive) = dom h ∧ ∀ y, y ∉ ns.*1 → y ≠ x → h' !! y = h !! y.

(** A node that is in no list is put between [a] and [b]; the right neighbour is linked first. *)
Lemma splice_right h a b x d n : NoDup (a ++ b).*1 → x ∉ (a ++ b).*1 → dseg h None (a ++ b) None → h !! x = Some n → value n = d →
  ∃ h1 h2, (h ← set_prev h x (last_or a None); set_next h x (first_or b None)) = Some (<[x := LNode (last_or a None) (first_or b None) d]> h) ∧
    when_some (first_or b None) (λ y, set_prev (<[x := LNode (last_or a None) (first_or b None) d]> h) y (Some x)) (<[x := LNode (last_or a None) (first_or b None) d]> h) = Some h1 ∧
    when_some (last_or a None) (λ y, set_next h1 y (Some x)) h1 = Some h2 ∧
    NoDup (a ++ (x, d) :: b).*1 ∧ dseg h2 None (a ++ (x, d) :: b) None ∧ frame1 h h2 (a ++ b) x.
Proof.
  intros Hnd Hx Hs Hh Hd. set (h0 := <[x := _]> h). rewrite fmap_app in Hnd, Hx. rewrite not_elem_of_app in Hx. destruct Hx as [Hxa Hxb]. apply NoDup_app in Hnd as (Hna & Hab & Hnb).
  apply dseg_app in Hs as [Hsa Hsb]. assert (dseg h0 None a (first_or b None)) as Ha0 by (by apply dseg_insert). assert (dseg h0 (last_or a None) b None) as Hb0 by (by apply dseg_insert).
  destruct (link_right h0 b None (last_or a None) (Some x) Hnb Hb0) as (h1 & E1 & Hb1 & T1).
  assert (dseg h1 None a (first_or b None)) as Ha1 by (eapply touches_seg; [exact T1| |exact Ha0]; intros y Hy Hy'; by apply (Hab y)).
  destruct (link_left h1 a (first_or b None) (Some x) Hna Ha1) as (h2 & E2 & Ha2 & T2).
  assert (dseg h2 (Some x) b None) as Hb2 by (eapply touches_seg; [exact T2|exact Hab|exact Hb1]).
  destruct T1 as [D1 F1], T2 as [D2 F2]. exists h1, h2. split_and!; try done.
  - unfold set_prev, set_next. rewrite Hh. cbn [mbind option_bind]. rewrite lookup_insert_eq. cbn [mbind option_bind]. by rewrite insert_insert_eq, Hd.
  - rewrite fmap_app, fmap_cons. simpl. rewrite <- Permutation_middle. apply NoDup_cons. split; [by rewrite not_elem_of_app|]. by apply NoDup_app.
  - apply dseg_join; try done. rewrite F2, F1 by done. apply lookup_insert_eq.
  - split; [rewrite D2, D1; unfold h0; rewrite dom_insert_L; apply elem_of_dom_2 in Hh; set_solver|]. intros y Hy Hyx. rewrite fmap_app, not_elem_of_app in Hy. destruct Hy. rewrite F2, F1 by done. by apply lookup_insert_ne.
Qed.

(** The left neighbour first. *)
Lemma splice_left h a b x d n : NoDup (a ++ b).*1 → x ∉ (a ++ b).*1 → dseg h None (a ++ b) None → h !! x = Some n → value n = d →
  ∃ h1 h2, (h ← set_next h x (first_or b None); set_prev h x (last_or a None)) = Some (<[x := LNode (last_or a None) (first_or b None) d]> h) ∧
    when_some (last_or a None) (λ y, set_next (<[x := LNode (last_or a None) (first_or b None) d]> h) y (Some x)) (<[x := LNode (last_or a None) (first_or b None) d]> h) = Some h1 ∧
    when_some (first_or b None) (λ y, set_prev h1 y (Some x)) h1 = Some h2 ∧
    NoDup (a ++ (x, d) :: b).*1 ∧ dseg h2 None (a ++ (x, d) :: b) None ∧ frame1 h h2 (a ++ b) x.
Proof.
  intros Hnd Hx Hs Hh Hd. set (h0 := <[x := _]> h). rewrite fmap_app in Hnd, Hx. rewrite not_elem_of_app in Hx. destruct Hx as [Hxa Hxb]. pose proof Hnd as Hnd0.
  apply dseg_app in Hs as [Hsa Hsb]. assert (dseg h0 None a (first_or b None)) as Ha0 by (by apply dseg_insert). assert (dseg h0 (last_or a None) b None) as Hb0 by (by apply dseg_insert).
  destruct (link_both h0 a b (first_or b None) (last_or a None) (Some x) (Some x) Hnd0 Ha0 Hb0) as (h1 & h2 & E1 & E2 & Ha2 & Hb2 & [D F]).
  exists h1, h2. split_and!; try done.
  - unfold set_prev, set_next. rewrite Hh. cbn [mbind option_bind]. rewrite lookup_insert_eq. cbn [mbind option_bind]. by rewrite insert_insert_eq, Hd.
  - rewrite fmap_app, fmap_cons. simpl. rewrite <- Permutation_middle. apply NoDup_cons. split; [by rewrite not_elem_of_app|done].
  - apply dseg_join; try done. rewrite F by (rewrite fmap_app, not_elem_of_app; done). apply lookup_insert_eq.
  - split; [rewrite D; unfold h0; rewrite dom_insert_L; apply elem_of_dom_2 in Hh; set_solver|]. intros y Hy Hyx. rewrite F by done. by apply lookup_insert_ne.
Qed.

Definition same_fields (q q' : quicklist) : Prop := qcount q' = qcount q ∧ qlen q' = qlen q ∧ fill q' = fill q ∧ compress q' = compress q.

Lemma link_first h q x n after : links h q [] → qlen q = 0 → h !! x = Some n → prev n = None → next n = None →
  ∃ h' q', link_node h q None x after = Some (h', q') ∧ links h' q' [(x, value n)] ∧ frame1 h h' [] x ∧ same_fields q q'.
Proof.
  intros [_ _ Hh Ht] Hlen Hn Hp Hnx. set (d := value n). simpl in Hh, Ht.
  exists (<[x := LNode None None d]> h), (set_qtail (set_qhead q (Some x)) (Some x)). split_and!.
  - destruct q. simpl in *. subst. unfold link_node, set_prev, set_next. destruct after; rewrite Hn; cbn [mbind option_bind when_some qtail qhead]; rewrite ?Hp, ?Hnx; by simpl.
  - constructor; simpl; [apply NoDup_singleton|by rewrite lookup_insert_eq|done|done].
  - split; [rewrite dom_insert_L; apply elem_of_dom_2 in Hn; set_solver|intros y _ Hy; by apply lookup_insert_ne].
  - done.
Qed.

Lemma first_or_cons_none (ns : list (positive * qdata)) : first_or ns None = None → ns = [].
Proof. by destruct ns as [|[]]. Qed.

Lemma last_or_none (ns : list (positive * qdata)) : last_or ns None = None → ns = [].
Proof. destruct (list_snoc ns) as [->|(c & x & v & ->)]; [done|]. by rewrite last_or_snoc. Qed.

Lemma link_after h q a o d0 b x n : links h q (a ++ (o, d0) :: b) → 0 < qlen q → x ∉ (a ++ (o, d0) :: b).*1 → h !! x = Some n →
  ∃ h' q', link_node h q (Some o) x true = Some (h', q') ∧ links h' q' (a ++ (o, d0) :: (x, value n) :: b) ∧ frame1 h h' (a ++ (o, d0) :: b) x ∧ same_fields q q'.
Proof.
  intros Hl Hlen Hx Hn. set (d := value n). destruct (links_node h q a o d0 b Hl) as [Ho _]. destruct Hl as [Hnd Hs Hh Ht].
  assert (a ++ (o, d0) :: b = (a ++ [(o, d0)]) ++ b) as E by (by rewrite <- app_assoc). rewrite E in Hnd, Hs, Hx.
  assert (o ≠ x) as Hox by (intros ->; apply Hx; rewrite !fmap_app; set_solver).
  destruct (splice_right h (a ++ [(o, d0)]) b x d n Hnd Hx Hs Hn eq_refl) as (h1 & h2 & E0 & E1 & E2 & Hnd' & Hs' & Hf). rewrite last_or_snoc in *. cbn [when_some] in E2.
  unfold link_node. destruct (set_prev h x (Some o)) as [ha|] eqn:Ea; [|done]. cbn [mbind option_bind] in E0 |- *. cbn [when_some].
  assert (ha !! o = h !! o) as ->. { unfold set_prev in Ea. rewrite Hn in Ea. cbn in Ea. injection Ea as <-. by apply lookup_insert_ne. }
  rewrite Ho. cbn [mbind option_bind next]. rewrite E0. cbn [mbind option_bind]. rewrite E1. cbn [mbind option_bind]. rewrite E2. cbn [mbind option_bind].
  set (q1 := if bool_decide _ then _ else _). assert (same_fields q q1) as Hq by (unfold q1; by case_bool_decide). destruct Hq as (Hq1 & Hq2 & Hq3 & Hq4).
  rewrite Hq2, (proj2 (Z.eqb_neq _ 0)) by lia. exists h2, q1. split; [done|]. assert ((a ++ [(o, d0)]) ++ (x, d) :: b = a ++ (o, d0) :: (x, d) :: b) as E' by (by rewrite <- app_assoc).
  rewrite E' in Hnd', Hs'. split_and!; try done; [|by rewrite E].
  constructor; try done.
  - assert (qhead q1 = qhead q) as -> by (unfold q1; by case_bool_decide). rewrite Hh, !first_or_app. by destruct a as [|[]].
  - unfold q1. rewrite last_or_app, !last_or_cons in *. case_bool_decide as Eb; rewrite Ht in Eb.
    + simpl. destruct b as [|[y e] b]; [done|]. exfalso. destruct (last_or_in ((y, e) :: b) (Some o)) as [?|(z & Ez & Hz)]; [done|]. rewrite Ez in Eb. injection Eb as ->.
      rewrite !fmap_app in Hnd. apply NoDup_app in Hnd as (_ & Hd & _). apply (Hd o); [set_solver|done].
    + rewrite Ht. destruct b; [done|]. by apply last_or_nonempty.
Qed.

Lemma link_before h q a o d0 b x n : links h q (a ++ (o, d0) :: b) → 0 < qlen q → x ∉ (a ++ (o, d0) :: b).*1 → h !! x = Some n →
  ∃ h' q', link_node h q (Some o) x false = Some (h', q') ∧ links h' q' (a ++ (x, value n) :: (o, d0) :: b) ∧ frame1 h h' (a ++ (o, d0) :: b) x ∧ same_fields q q'.
Proof.
  intros Hl Hlen Hx Hn. set (d := value n). destruct (links_node h q a o d0 b Hl) as [Ho _]. destruct Hl as [Hnd Hs Hh Ht].
  assert (o ≠ x) as Hox by (intros ->; apply Hx; rewrite !fmap_app; set_solver).
  destruct (splice_left h a ((o, d0) :: b) x d n Hnd Hx Hs Hn eq_refl) as (h1 & h2 & E0 & E1 & E2 & Hnd' & Hs' & Hf). cbn [first_or when_some] in *.
  unfold link_node. destruct (set_next h x (Some o)) as [ha|] eqn:Ea; [|done]. cbn [mbind option_bind] in E0 |- *. cbn [when_some].
  assert (ha !! o = h !! o) as ->. { unfold set_next in Ea. rewrite Hn in Ea. cbn in Ea. injection Ea as <-. by apply lookup_insert_ne. }
  rewrite Ho. cbn [mbind option_bind prev]. rewrite E0. cbn [mbind option_bind]. rewrite E1. cbn [mbind option_bind]. rewrite E2. cbn [mbind option_bind].
  set (q1 := if bool_decide _ then _ else _). assert (same_fields q q1) as Hq by (unfold q1; by case_bool_decide). destruct Hq as (Hq1 & Hq2 & Hq3 & Hq4).
  rewrite Hq2, (proj2 (Z.eqb_neq _ 0)) by lia. exists h2, q1. split; [done|]. split_and!; try done. constructor; try done.
  - unfold q1. rewrite first_or_app in *. case_bool_decide as Eb; rewrite Hh in Eb.
    + simpl. destruct a as [|[y e] a]; [done|]. exfalso. simpl in Eb. injection Eb as ->. simpl in Hnd. apply NoDup_cons in Hnd as [Hd _]. apply Hd. rewrite fmap_app. set_solver.
    + rewrite Hh. by destruct a as [|[]].
  - assert (qtail q1 = qtail q) as -> by (unfold q1; by case_bool_decide). by rewrite Ht, !last_or_app, !last_or_cons.
Qed.

Lemma unlink_node_spec h q a x d b : links h q (a ++ (x, d) :: b) →
  ∃ h' q', unlink_node h q x = Some (h', q') ∧ links h' q' (a ++ b) ∧ data h' x = Some d ∧ x ∉ (a ++ b).*1 ∧ frame h h' (a ++ b) ∧ same_fields q q'.
Proof.
  intros [Hnd Hs Hh Ht]. destruct (dseg_parts h a x d b Hs) as (Hx & Hsa & Hsb). rewrite fmap_app, fmap_cons in Hnd. simpl in Hnd. rewrite <- Permutation_middle in Hnd. apply NoDup_cons in Hnd as [Hxn Hnd].
  pose proof Hxn as Hxn'. rewrite not_elem_of_app in Hxn'. destruct Hxn' as [Hxa Hxb]. apply NoDup_app in Hnd as (Hna & Hab & Hnb).
  destruct (link_right h b None (Some x) (last_or a None) Hnb Hsb) as (h1 & E1 & Hb1 & T1).
  assert (dseg h1 None a (Some x)) as Ha1 by (eapply touches_seg; [exact T1| |exact Hsa]; intros y Hy Hy'; by apply (Hab y)).
  destruct (link_left h1 a (Some x) (first_or b None) Hna Ha1) as (h2 & E2 & Ha2 & T2).
  assert (dseg h2 (last_or a None) b None) as Hb2 by (eapply touches_seg; [exact T2|exact Hab|exact Hb1]).
  destruct T1 as [D1 F1], T2 as [D2 F2]. unfold unlink_node. rewrite Hx. cbn [mbind option_bind prev next]. rewrite E1. cbn [mbind option_bind]. rewrite E2. cbn [mbind option_bind].
  set (q1 := if bool_decide (qtail q = Some x) then _ else _). set (q2 := if bool_decide (qhead q1 = Some x) then _ else _).
  assert (qhead q1 = qhead q) as Hq1 by (unfold q1; by case_bool_decide). assert (qtail q2 = qtail q1) as Hq2 by (unfold q2; by case_bool_decide).
  exists h2, q2. split; [done|]. split_and!.
  - constructor.
    + rewrite fmap_app. by apply NoDup_app.
    + by apply dseg_app.
    + unfold q2. rewrite Hq1, Hh. rewrite !first_or_app. destruct a as [|[y e] a]; simpl.
      * by rewrite bool_decide_true.
      * rewrite bool_decide_false by set_solver. by rewrite Hq1, Hh.
    + rewrite Hq2. unfold q1. rewrite last_or_app, last_or_cons in Ht. rewrite Ht, last_or_app. destruct b as [|[z e] b]; simpl.
      * by rewrite bool_decide_true.
      * rewrite bool_decide_false; [rewrite Ht; by apply last_or_nonempty|].
        destruct (last_or_in ((z, e) :: b) (Some x)) as [?|(w & Ew & Hw)]; [done|]. rewrite Ew. intros [= ->]. done.
  - unfold data. rewrite F2, F1 by done. by rewrite Hx.
  - by rewrite fmap_app.
  - split; [congruence|]. intros y Hy. rewrite fmap_app, not_elem_of_app in Hy. destruct Hy. by rewrite F2, F1.
  - unfold q2, q1. split_and!; by repeat case_bool_decide.
Qed.

(** ** Compression *)

Section compress.
Context (ljunk : Z → Z) (alloc : nat → list Z) (Halloc : ∀ n, length (alloc n) = n).

Lemma compress_node_spec h q a x d b ss : links h q (a ++ (x, d) :: b) → node_holds d ss →
  ∃ h' d', quicklistCompressNode ljunk alloc h (Some x) = Some h' ∧ links h' q (a ++ (x, d') :: b) ∧ same_node d d' ∧ frame h h' [(x, d)].
Proof.
  intros Hl Hok. destruct (links_node h q a x d b Hl) as [_ Hd]. unfold quicklistCompressNode. rewrite Hd. cbn [mbind option_bind].
  destruct (Z.eqb_spec (qenc d) ENCODING_RAW) as [Er|Er]; [|by exists h, d].
  unfold __quicklistCompressNode. rewrite Hd. cbn [mbind option_bind]. destruct (Z.ltb_spec (sz d) MIN_COMPRESS_BYTES) as [Hm|Hm]; [by exists h, d|].
  destruct (node_raw d ss Hok Er) as (z & Ez & Hz & Hsz). rewrite Ez. cbn [mbind option_bind]. destruct (holds_sizes z ss Hz) as [Hzl _]. pose proof (no_total _ _ Hok).
  assert (mread z 0 (sz d) = Some z) as ->.
  { pose proof (mread_app [] z [] 0 (sz d) eq_refl Hsz) as E. by rewrite app_nil_r in E. }
  cbn [mbind option_bind]. destruct (compress_spec ljunk z (sz d) ltac:(lia) (alloc (Z.to_nat (sz d)))) as (n & o & -> & Hn & _ & Hbs);
    [lia|rewrite Halloc; lia|lia|]. cbn [mbind option_bind]. destruct (Z.eqb_spec n 0) as [Hn0|Hn0]; [by exists h, d|]. simpl orb.
  destruct (_ <=? _); [by exists h, d|]. destruct (Hbs Hn0) as (bs & Hdec & ->).
  destruct (links_set h q a x d b (QData (QLzf (enc bs)) (sz d) (count d) ENCODING_LZF false) Hl) as (h' & -> & Hl' & Hdom & Hf). cbn [mbind option_bind].
  eexists h', _. split; [done|]. split; [exact Hl'|]. split_and!; try done; [|split; [done|]; intros y Hy; apply Hf; set_solver].
  split_and!; try done. intros ss' z' _ _ [[_ E]|[E _]]; [|by rewrite Er in E]. unfold zipl in Ez. rewrite E in Ez. injection Ez as ->. right. split; [done|]. by exists bs.
Qed.

Lemma decompress_node_spec h q a x d b ss : links h q (a ++ (x, d) :: b) → node_holds d ss →
  ∃ h' d', quicklistDecompressNode alloc h (Some x) = Some h' ∧ links h' q (a ++ (x, d') :: b) ∧ same_node d d' ∧ is_raw d' ∧
    recompress d' = recompress d ∧ (is_raw d → h' = h ∧ d' = d) ∧ frame h h' [(x, d)].
Proof.
  intros Hl Hok. destruct (links_node h q a x d b Hl) as [_ Hd]. unfold quicklistDecompressNode. rewrite Hd. cbn [mbind option_bind].
  destruct (Z.eqb_spec (qenc d) ENCODING_LZF) as [Er|Er].
  2: { exists h, d. split_and!; try done. unfold is_raw. destruct (node_enc d ss Hok); congruence. }
  unfold __quicklistDecompressNode. rewrite Hd. cbn [mbind option_bind]. pose proof Hok as [Hne Ht _ (z & Hz & Hsz & Hnb)].
  destruct Hnb as [[E _]|(_ & bs & Ez & Hdec)]; [by rewrite Er in E|]. rewrite Ez. cbn [mbind option_bind]. destruct (holds_sizes z ss Hz) as [Hzl _].
  rewrite Hsz, Nat2Z.id, (decompress_enc z bs) by (done || lia). cbn [mbind option_bind]. rewrite (proj2 (Z.eqb_neq _ _)) by lia.
  destruct (links_set h q a x d b (QData (QZl z) (Z.of_nat (length z)) (count d) ENCODING_RAW (recompress d)) Hl) as (h' & -> & Hl' & Hdom & Hf). cbn [mbind option_bind].
  eexists h', _. split; [done|]. split; [exact Hl'|]. split_and!; try done; [|by intros Hr; unfold is_raw in Hr; rewrite Er in Hr|split; [done|]; intros y Hy; apply Hf; set_solver].
  split_and!; try done. intros ss' z' Hz' Hs' Hnb'.
  destruct Hnb' as [[E _]|(_ & bs' & E' & Hdec')]; [by rewrite Er in E|]. left. split; [done|]. simpl. f_equal.
  rewrite Ez in E'. injection E' as Eb. destruct (holds_sizes z' ss' Hz') as [Hzl' _].
  pose proof (decompress_enc z bs (alloc (length z)) Hdec ltac:(lia) ltac:(lia) (Halloc _)) as D1.
  pose proof (decompress_enc z' bs' (alloc (length z)) Hdec' ltac:(lia) ltac:(lia) ltac:(rewrite Halloc; lia)) as D2.
  rewrite <- Hs', Hsz, <- Eb, D1 in D2. congruence.
Qed.
Lemma decompress_at h q ns sss i : links h q ns → Forall2 (λ nd, node_holds nd.2) ns sss →
  ∃ h' ns', quicklistDecompressNode alloc h (ptr ns i) = Some h' ∧ links h' q ns' ∧ same_nodes ns ns' ∧ frame h h' ns ∧
    (∀ x d, ns' !! i = Some (x, d) → is_raw d) ∧ (∀ j, j ≠ i → ns' !! j = ns !! j).
Proof.
  intros Hl Hok. unfold ptr. destruct (ns !! i) as [[x d]|] eqn:Hi; [|exists h, ns; split_and!; try done; [apply same_nodes_refl|congruence]]. simpl.
  destruct (ok_at ns sss i x d Hok Hi) as (ss & _ & Hd). pose proof Hi as Hlt. apply lookup_lt_Some in Hlt. rewrite <- (take_drop_middle ns i (x, d) Hi) in Hl.
  destruct (decompress_node_spec h q _ x d _ ss Hl Hd) as (h' & d' & E & Hl' & Hs & Hr & _ & _ & Hf). exists h', (<[i := (x, d')]> ns). split; [exact E|].
  rewrite insert_take_drop at 1 by done. split_and!; try done.
  - by apply (same_nodes_insert ns i x d).
  - by eapply frame_one.
  - intros x' d''. rewrite list_lookup_insert_eq by done. by intros [= <- <-].
  - intros j Hj. by rewrite list_lookup_insert_ne.
Qed.

Lemma compress_at h q ns sss p : links h q ns → Forall2 (λ nd, node_holds nd.2) ns sss → (∀ x, p = Some x → x ∈ ns.*1) →
  ∃ h' ns', quicklistCompressNode ljunk alloc h p = Some h' ∧ links h' q ns' ∧ same_nodes ns ns' ∧ frame h h' ns ∧
    (∀ j, ptr ns j ≠ p → ns' !! j = ns !! j).
Proof.
  intros Hl Hok Hp. destruct p as [x|]; [|exists h, ns; split_and!; try done; apply same_nodes_refl].
  destruct (proj1 (list_elem_of_fmap fst ns x) (Hp x eq_refl)) as ([x' d] & -> & Hin). apply list_elem_of_lookup_1 in Hin as [i Hi]. simpl.
  destruct (ok_at ns sss i x' d Hok Hi) as (ss & _ & Hd). pose proof Hi as Hlt. apply lookup_lt_Some in Hlt. rewrite <- (take_drop_middle ns i (x', d) Hi) in Hl.
  destruct (compress_node_spec h q _ x' d _ ss Hl Hd) as (h' & d' & E & Hl' & Hs & Hf). exists h', (<[i := (x', d')]> ns). split; [exact E|].
  rewrite insert_take_drop at 1 by done. split_and!; try done.
  - by apply (same_nodes_insert ns i x' d).
  - by eapply frame_one.
  - intros j Hj. destruct (decide (i = j)) as [->|]; [|by rewrite list_lookup_insert_ne]. unfold ptr in Hj. rewrite Hi in Hj. done.
Qed.

(** ** Compressing around the ends *)

Lemma compress_loop_spec q k : ∀ h ns sss i node ind c, c = (i + k)%nat → (2 * c ≤ length ns + 1)%nat → (2 * i ≤ length ns)%nat →
  links h q ns → Forall2 (λ nd, node_holds nd.2) ns sss → raw_outer ns i → (ind = false → ∀ j, (j < length ns)%nat → outer (length ns) i j → ptr ns j ≠ node) →
  ∃ h' ns' r, compress_loop alloc k h (ptr ns i) (ptr ns (length ns - 1 - i)) node ind = Some (h', r) ∧ links h' q ns' ∧ same_nodes ns ns' ∧ frame h h' ns ∧
    match r with
    | None => raw_outer ns' (length ns) ∧ (length ns + 1 = 2 * c)%nat
    | Some (f, rv, ind') => f = ptr ns c ∧ rv = ptr ns (length ns - 1 - c) ∧ raw_outer ns' c ∧ (2 * c ≤ length ns)%nat ∧
        (ind' = false → ∀ j, (j < length ns)%nat → outer (length ns) c j → ptr ns j ≠ node)
    end.
Proof.
  induction k as [|k IH]; intros h ns sss i node ind c Hc Hlen Hi Hl Hok Hraw Hind; cbn [compress_loop].
  { exists h, ns, (Some (ptr ns i, ptr ns (length ns - 1 - i), ind)). rewrite Nat.add_0_r in Hc. subst i. split_and!; try done. apply same_nodes_refl. }
  destruct (decompress_at h q ns sss i Hl Hok) as (h1 & ns1 & -> & Hl1 & Hs1 & Hf1 & Hr1 & Ho1). cbn [mbind option_bind].
  pose proof (same_nodes_fst _ _ Hs1) as E1. pose proof (same_nodes_length _ _ Hs1) as L1.
  destruct (decompress_at h1 q ns1 sss (length ns - 1 - i) Hl1 (same_nodes_ok _ _ _ Hs1 Hok)) as (h2 & ns2 & D2 & Hl2 & Hs2 & Hf2 & Hr2 & Ho2).
  rewrite (ptr_fst ns ns1 _ E1) in D2. rewrite D2. cbn [mbind option_bind].
  pose proof (same_nodes_trans _ _ _ Hs1 Hs2) as Hs. pose proof (same_nodes_fst _ _ Hs) as E2. pose proof (same_nodes_length _ _ Hs) as L2. pose proof (frame_trans _ _ _ _ _ E1 Hf1 Hf2) as Hf.
  assert (raw_outer ns2 (S i)) as Hraw2.
  { intros j x d Hj Hout. rewrite L2 in Hout. destruct (decide (j = length ns - 1 - i)%nat) as [->|Hj2]; [by eapply Hr2|]. rewrite Ho2 in Hj by done.
    destruct (decide (j = i)) as [->|Hj1]; [by eapply Hr1|]. rewrite Ho1 in Hj by done. pose proof (lookup_lt_Some _ _ _ Hj). apply (Hraw j x d Hj). unfold outer in *. lia. }
  case_bool_decide as Eq.
  - exists h2, ns2, None. apply (ptr_inj h q ns) in Eq; [|done|lia]. split_and!; try done; [|lia].
    intros j x d Hj Hout. pose proof (lookup_lt_Some _ _ _ Hj). apply (Hraw2 j x d Hj). unfold outer in *. lia.
  - assert (i ≠ length ns - 1 - i)%nat as Hne by congruence.
    destruct (ptr_lookup ns2 i ltac:(lia)) as (x & d & Hx & Px). destruct (ptr_lookup ns2 (length ns - 1 - i) ltac:(lia)) as (y & e & Hy & Py).
    rewrite (ptr_fst ns ns2 _ E2) in Px. rewrite (ptr_fst ns ns2 _ E2) in Py. rewrite Px, Py. cbn [mbind option_bind].
    destruct (prev_next_at h2 q ns2 i x d Hl2 Hx) as (nx & -> & Nx & _). cbn [mbind option_bind].
    destruct (prev_next_at h2 q ns2 _ y e Hl2 Hy) as (ny & -> & _ & Py' & _). cbn [mbind option_bind]. rewrite Nx, Py' by lia.
    replace (length ns - 1 - i - 1)%nat with (length ns2 - 1 - S i)%nat by lia.
    destruct (IH h2 ns2 sss (S i) node (ind || bool_decide (Some x = node) || bool_decide (Some y = node)) c) as (h' & ns' & r & E & Hl' & Hs' & Hf' & Hr); try done; try lia.
    + by eapply same_nodes_ok.
    + intros Hi' j Hj Hout. rewrite L2 in Hj, Hout. rewrite (ptr_fst ns ns2 _ E2). apply orb_false_iff in Hi' as [[Hi1 Hi2]%orb_false_iff Hi3].
      apply bool_decide_eq_false in Hi2, Hi3. destruct (decide (j = i)) as [->|]; [congruence|]. destruct (decide (j = length ns - 1 - i)%nat) as [->|]; [congruence|].
      apply Hind; [done|done|]. unfold outer in *. lia.
    + exists h', ns', r. split; [exact E|]. split; [done|]. split; [by eapply same_nodes_trans|]. split; [exact (frame_trans _ _ _ _ _ E2 Hf Hf')|].
      rewrite L2 in Hr. destruct r as [[[f rv] ind']|]; [|done]. destruct Hr as (-> & -> & Hr3 & Hr4 & Hr5). rewrite (ptr_fst ns ns2 c E2), (ptr_fst ns ns2 (length ns - 1 - c) E2). split_and!; try done.
      intros Hi' j Hj Hout. rewrite <- (ptr_fst ns ns2 _ E2). by apply Hr5.
Qed.

(** Compressing the node [p] keeps the ends uncompressed when it is not one of them. *)
Lemma compress_inner h q ns sss p : links h q ns → Forall2 (λ nd, node_holds nd.2) ns sss → (∀ x, p = Some x → x ∈ ns.*1) → raw_outer ns 1 →
  (∀ j, (j < length ns)%nat → outer (length ns) 1 j → ptr ns j ≠ p) →
  ∃ h' ns', quicklistCompressNode ljunk alloc h p = Some h' ∧ links h' q ns' ∧ same_nodes ns ns' ∧ frame h h' ns ∧ raw_outer ns' 1.
Proof.
  intros Hl Hok Hp Hraw Hin. destruct (compress_at h q ns sss p Hl Hok Hp) as (h' & ns' & E & Hl' & Hs & Hf & Ho). exists h', ns'. split_and!; try done.
  pose proof (same_nodes_length _ _ Hs) as L. intros j x d Hj Hout. pose proof (lookup_lt_Some _ _ _ Hj). rewrite L in *. rewrite Ho in Hj by (by apply Hin). by apply (Hraw j x d).
Qed.

Lemma ptr_in ns i x : ptr ns i = Some x → x ∈ ns.*1.
Proof. unfold ptr. rewrite <- list_lookup_fmap. apply list_elem_of_lookup_2. Qed.

Lemma raw_outer_mono ns i j : (i ≤ j)%nat → raw_outer ns j → raw_outer ns i.
Proof. intros Hij H k x d Hk Hout. apply (H k x d Hk). unfold outer in *. lia. Qed.

Definition idle (q : quicklist) : bool := (compress q =? 0) || (qlen q <? compress q * 2).

Lemma q_compress_spec h q ns sss node : links h q ns → Forall2 (λ nd, node_holds nd.2) ns sss → 0 ≤ compress q → (∀ x, node = Some x → x ∈ ns.*1) →
  qlen q ≤ Z.of_nat (length ns) + 1 →
  ∃ h' ns', __quicklistCompress ljunk alloc h q node = Some h' ∧ links h' q ns' ∧ same_nodes ns ns' ∧ frame h h' ns ∧
    if idle q then h' = h ∧ ns' = ns else raw_outer ns' 1 ∧ (Z.of_nat (length ns) < 2 * compress q → raw_outer ns' (length ns)).
Proof.
  intros Hl Hok Hc Hn Hlen. unfold __quicklistCompress. fold (idle q). destruct (idle q) eqn:Ei.
  { exists h, ns. split_and!; try done. apply same_nodes_refl. }
  apply orb_false_iff in Ei as [Ec%Z.eqb_neq El%Z.ltb_ge]. pose proof Hl as [_ _ Hh Ht]. rewrite Hh, Ht, ptr_first, ptr_last. set (c := Z.to_nat (compress q)).
  destruct (compress_loop_spec q c h ns sss 0 node false c) as (h1 & ns1 & r & E & Hl1 & Hs1 & Hf1 & Hr); try done; try lia.
  { intros j x d Hj Hout. apply lookup_lt_Some in Hj. unfold outer in Hout. lia. }
  { intros _ j Hj Hout. unfold outer in Hout. lia. }
  rewrite Nat.sub_0_r in E. rewrite E. cbn [mbind option_bind]. clear E. pose proof (same_nodes_fst _ _ Hs1) as E1. pose proof (same_nodes_length _ _ Hs1) as L1.
  destruct r as [[[f rv] ind]|].
  2: { destruct Hr as [Hr _]. exists h1, ns1. split_and!; try done. apply (raw_outer_mono _ 1 (length ns)); [lia|done]. }
  destruct Hr as (-> & -> & Hr & Hlen2 & Hind). pose proof (same_nodes_ok _ _ _ Hs1 Hok) as Hok1.
  assert (∃ h2 ns2, (if negb ind then quicklistCompressNode ljunk alloc h1 node else Some h1) = Some h2 ∧ links h2 q ns2 ∧ same_nodes ns1 ns2 ∧ frame h1 h2 ns1 ∧ raw_outer ns2 1)
    as (h2 & ns2 & -> & Hl2 & Hs2 & Hf2 & Hr2).
  { assert (raw_outer ns1 1) as Hr1 by (apply (raw_outer_mono _ 1 c); [lia|done]). destruct ind; simpl negb; cbv iota.
    - exists h1, ns1. split_and!; try done. apply same_nodes_refl.
    - apply (compress_inner h1 q ns1 sss); try done; [intros x Hx; rewrite E1; by apply Hn|]. intros j Hj Hout. rewrite (ptr_fst ns ns1 _ E1). rewrite L1 in *.
      apply Hind; [done|done|]. unfold outer in *. lia. }
  cbn [mbind option_bind]. pose proof (same_nodes_trans _ _ _ Hs1 Hs2) as Hs12. pose proof (same_nodes_fst _ _ Hs12) as E2. pose proof (same_nodes_length _ _ Hs12) as L2.
  pose proof (frame_trans _ _ _ _ _ E1 Hf1 Hf2) as Hf12. destruct (Z.ltb_spec 2 (compress q + 1)) as [Hc2|Hc2].
  2: { exists h2, ns2. split_and!; try done. lia. }
  assert (∀ i hh nn, links hh q nn → same_nodes ns nn → raw_outer nn 1 → (0 < i < length ns - 1)%nat →
    ∃ h' ns', quicklistCompressNode ljunk alloc hh (ptr ns i) = Some h' ∧ links h' q ns' ∧ same_nodes ns ns' ∧ frame hh h' nn ∧ raw_outer ns' 1) as Hstep.
  { intros i hh nn Hll Hss Hrr Hi. pose proof (same_nodes_fst _ _ Hss) as En. pose proof (same_nodes_length _ _ Hss) as Ln. rewrite <- (ptr_fst ns nn _ En).
    destruct (compress_inner hh q nn sss (ptr nn i) Hll (same_nodes_ok _ _ _ Hss Hok)) as (h' & ns' & E & Hl' & Hs' & Hf' & Hr'); try done; [intros x; apply ptr_in| |].
    - intros j Hj Hout Eq. apply (ptr_inj hh q nn) in Eq; [|done|done]. unfold outer in Hout. lia.
    - exists h', ns'. split_and!; try done. by eapply same_nodes_trans. }
  destruct (Hstep c h2 ns2) as (h3 & ns3 & -> & Hl3 & Hs3 & Hf3 & Hr3); try done; [lia|]. cbn [mbind option_bind].
  destruct (Hstep (length ns - 1 - c)%nat h3 ns3) as (h4 & ns4 & -> & Hl4 & Hs4 & Hf4 & Hr4); try done; [lia|].
  exists h4, ns4. split_and!; try done; [|lia]. eapply (frame_trans _ h3 _ _ ns3); [by apply same_nodes_fst| |done]. by eapply (frame_trans _ h2 _ _ ns2).
Qed.

(** ** The state of a list *)

(** Ends are not compressed, and nothing is when compression is off or the list is short. *)
Definition settled (c : Z) (ns : list (positive * qdata)) : Prop :=
  raw_outer ns 1 ∧ (c = 0 ∨ Z.of_nat (length ns) < 2 * c → raw_outer ns (length ns)) ∧ Forall (λ nd, recompress nd.2 = false) ns.

Lemma flags_same ns ns' : same_nodes ns ns' → Forall (λ nd, recompress nd.2 = false) ns → Forall (λ nd, recompress nd.2 = false) ns'.
Proof. induction 1 as [|u v l l' [_ (_ & Hf & _)] _ IH]; intros Hr; inversion Hr; subst; constructor; auto. Qed.
End compress.
