(* ===== verification/QuicklistOps.v ===== *)
(** * quicklist.c: the operations keep the contents *)

From S2P Require Import Prelude Decimal Sds Util Adlist Lzf Ziplist ZiplistRep ZiplistEdit ZiplistQuery ZiplistSpec ZiplistApi Quicklist QuicklistRep.

Section nodes.
Context (ljunk : Z → Z) (alloc : nat → list Z) (Halloc : ∀ n, length (alloc n) = n).

Abbreviation unflagged ns := (Forall (λ nd : positive * qdata, recompress nd.2 = false) ns).
Abbreviation hold ns sss := (Forall2 (λ nd : positive * qdata, node_holds nd.2) ns sss).

Lemma raw_all ns : raw_outer ns (length ns) ↔ Forall (λ nd, is_raw nd.2) ns.
Proof.
  split.
  - intros H. apply Forall_lookup. intros i [x d] Hi. apply (H i x d Hi). left. by eapply lookup_lt_Some.
  - intros H i x d Hi _. by apply (Forall_lookup_1 _ _ _ _ H Hi).
Qed.

Lemma all_raw_settled c ns : Forall (λ nd, is_raw nd.2) ns → unflagged ns → settled c ns.
Proof.
  intros Hr Hf. split_and!; [|by intros _; apply raw_all|done]. intros i x d Hi _. by apply (Forall_lookup_1 _ _ _ _ Hr Hi).
Qed.

Lemma settled_idle q ns : settled (compress q) ns → qlen q = Z.of_nat (length ns) → idle q = true → Forall (λ nd, is_raw nd.2) ns.
Proof. intros (_ & Hs & _) Hq Hi. apply raw_all, Hs. unfold idle in Hi. apply orb_true_iff in Hi as [?%Z.eqb_eq|?%Z.ltb_lt]; lia. Qed.

(** The compressing part of the operations that change the links, for lists of [qlen q] nodes before the change. *)
Lemma compress_settles h q ns sss node : links h q ns → hold ns sss → 0 ≤ compress q → (∀ x, node = Some x → x ∈ ns.*1) → qlen q ≤ Z.of_nat (length ns) + 1 →
  (idle q = true → Forall (λ nd, is_raw nd.2) ns) → unflagged ns →
  ∃ h' ns', __quicklistCompress ljunk alloc h q node = Some h' ∧ links h' q ns' ∧ same_nodes ns ns' ∧ frame h h' ns ∧ settled (compress q) ns'.
Proof.
  intros Hl Hok Hc Hn Hlen Hi Hf. destruct (q_compress_spec ljunk alloc Halloc h q ns sss node Hl Hok Hc Hn Hlen) as (h' & ns' & E & Hl' & Hs & Hfr & Hr).
  exists h', ns'. split_and!; try done. pose proof (flags_same ns ns' Hs Hf) as Hf'. destruct (idle q) eqn:Ei.
  - destruct Hr as [-> ->]. apply all_raw_settled; auto.
  - destruct Hr as [Hr1 Hr2]. split_and!; try done. rewrite (same_nodes_length _ _ Hs). intros [H0|H0]; [|by apply Hr2; lia].
    unfold idle in Ei. by rewrite H0 in Ei.
Qed.

Lemma app_cons_assoc {T} (a : list T) x b : a ++ x :: b = (a ++ [x]) ++ b.
Proof. by rewrite <- app_assoc. Qed.

Lemma insert_node_spec h q a b sss x n ss (after : bool) : links h q (a ++ b) → hold (a ++ (x, value n) :: b) sss → sss !! length a = Some ss →
  qlen q = Z.of_nat (length (a ++ b)) → Z.of_nat (length (a ++ b)) < 2 ^ 62 → 0 ≤ compress q → settled (compress q) (a ++ b) →
  x ∉ (a ++ b).*1 → h !! x = Some n → prev n = None → next n = None → is_raw (value n) → recompress (value n) = false →
  ((if after then a else b) = [] → a ++ b = []) →
  ∃ h' q' ns', __quicklistInsertNode ljunk alloc h q (if after then last_or a None else first_or b None) x after = Some (h', q') ∧
    links h' q' ns' ∧ same_nodes (a ++ (x, value n) :: b) ns' ∧ settled (compress q) ns' ∧ frame1 h h' (a ++ b) x ∧
    qcount q' = qcount q ∧ qlen q' = qlen q + 1 ∧ fill q' = fill q ∧ compress q' = compress q.
Proof.
  intros Hl Hok Hss Hlen Hsm Hc Hset Hx Hn Hp Hnx Hraw Hfl Hab. set (ns := a ++ (x, value n) :: b) in *.
  assert (∃ h1 q1, link_node h q (if after then last_or a None else first_or b None) x after = Some (h1, q1) ∧ links h1 q1 ns ∧ frame1 h h1 (a ++ b) x ∧ same_fields q q1)
    as (h1 & q1 & E1 & Hl1 & Hf1 & Hq1 & Hq2 & Hq3 & Hq4).
  { destruct (decide (a ++ b = [])) as [[-> ->]%app_eq_nil|Hne].
    - assert ((if after then last_or (@nil (positive * qdata)) None else first_or (@nil (positive * qdata)) None) = None) as -> by (by destruct after). by apply link_first.
    - destruct after.
      + destruct (list_snoc a) as [->|(a' & o & d0 & ->)]; [by destruct Hne; apply Hab|]. rewrite last_or_snoc. unfold ns. rewrite <- !app_assoc in *. simpl in *.
        apply link_after; try done. rewrite Hlen, !length_app. simpl. lia.
      + destruct b as [|[o d0] b]; [by destruct Hne; apply Hab|]. apply link_before; try done. rewrite Hlen, !length_app. simpl. lia. }
  unfold __quicklistInsertNode. rewrite E1. cbn [mbind option_bind].
  assert (unflagged ns) as Hfl1. { destruct Hset as (_ & _ & Hf). unfold ns. apply Forall_app in Hf as [Hfa Hfb]. apply Forall_app. split; [done|]. by constructor. }
  assert (idle q1 = true → Forall (λ nd, is_raw nd.2) ns) as Hidle.
  { unfold idle. rewrite Hq2, Hq4. fold (idle q). intros Hi. apply (settled_idle q _ Hset Hlen) in Hi. apply Forall_app in Hi as [Ha Hb]. apply Forall_app. split; [done|]. by constructor. }
  assert (∃ h2 ns2, when_some (if after then last_or a None else first_or b None) (λ o, quicklistCompress ljunk alloc h1 q1 o) h1 = Some h2 ∧
    links h2 q1 ns2 ∧ same_nodes ns ns2 ∧ frame h1 h2 ns ∧ settled (compress q) ns2) as (h2 & ns2 & -> & Hl2 & Hs2 & Hf2 & Hset2).
  { destruct (if after then last_or a None else first_or b None) as [o|] eqn:Eo; cbn [when_some].
    - assert (∃ i d0, ns !! i = Some (o, d0)) as (i & d0 & Hi).
      { destruct after; [destruct (list_snoc a) as [->|(a' & o' & d0 & ->)]|destruct b as [|[o' d0] b]]; try done.
        - rewrite last_or_snoc in Eo. injection Eo as ->. exists (length a'), d0. unfold ns. rewrite <- app_assoc. by apply list_lookup_middle.
        - injection Eo as ->. exists (S (length a)), d0. unfold ns. rewrite app_cons_assoc. apply list_lookup_middle. rewrite length_app. simpl. lia. }
      unfold quicklistCompress. rewrite (links_data h1 q1 ns i o d0 Hl1 Hi). cbn [mbind option_bind]. rewrite (Forall_lookup_1 _ _ _ _ Hfl1 Hi : recompress d0 = false).
      destruct (compress_settles h1 q1 ns sss (Some o) Hl1 Hok) as (h2 & ns2 & E & Hl2 & Hs2 & Hf2 & Hset2); try done; [lia| |rewrite Hq2, Hlen; unfold ns; rewrite !length_app; simpl; lia|].
      + intros y [= <-]. apply (ptr_in ns i). unfold ptr. by rewrite Hi.
      + rewrite Hq4 in Hset2. exists h2, ns2. done.
    - exists h1, ns. split_and!; try done; [apply same_nodes_refl|]. apply all_raw_settled; [|done]. assert (a ++ b = []) as [-> ->]%app_eq_nil; [|by repeat constructor].
      apply Hab. destruct after; [by apply last_or_none|by apply first_or_cons_none]. }
  cbn [mbind option_bind]. exists h2, (set_qlen q1 (u64 (qlen q1 + 1))), ns2. split; [done|]. split_and!; try done.
  - by destruct Hl2.
  - destruct Hf1 as [D1 F1], Hf2 as [D2 F2]. split; [congruence|]. intros y Hy Hyx. rewrite F2, F1; try done. unfold ns. rewrite fmap_app, fmap_cons in *. set_solver.
  - simpl. rewrite uwrap_small by (unfold in_u; lia). lia.
Qed.

Lemma del_node_spec h q a x d b sss : links h q (a ++ (x, d) :: b) → hold (a ++ b) sss → qlen q = Z.of_nat (length (a ++ (x, d) :: b)) → qlen q < 2 ^ 62 →
  0 ≤ compress q → settled (compress q) (a ++ (x, d) :: b) →
  ∃ h' q' ns', __quicklistDelNode ljunk alloc h q x = Some (h', q') ∧ links h' q' ns' ∧ same_nodes (a ++ b) ns' ∧ settled (compress q) ns' ∧
    (dom h' : gset positive) = dom h ∖ {[x]} ∧ (∀ y, y ∉ (a ++ (x, d) :: b).*1 → h' !! y = h !! y) ∧
    qcount q' = u64 (qcount q - count d) ∧ qlen q' = qlen q - 1 ∧ fill q' = fill q ∧ compress q' = compress q.
Proof.
  intros Hl Hok Hlen Hsm Hc Hset. destruct (unlink_node_spec h q a x d b Hl) as (h1 & q1 & E1 & Hl1 & Hd1 & Hx & Hf1 & Hq1 & Hq2 & Hq3 & Hq4).
  unfold __quicklistDelNode. rewrite E1. cbn [mbind option_bind]. pose proof Hset as (_ & _ & Hfl). rewrite length_app in Hlen. simpl in Hlen.
  destruct (compress_settles h1 q1 (a ++ b) sss None Hl1 Hok) as (h2 & ns2 & -> & Hl2 & Hs2 & Hf2 & Hset2); try done; [lia|rewrite length_app; lia| | |].
  - unfold idle. rewrite Hq2, Hq4. fold (idle q). intros Hi. apply (settled_idle q _ Hset) in Hi; [|rewrite length_app; simpl; lia].
    apply Forall_app in Hi as [Ha [_ Hb]%Forall_cons]. by apply Forall_app.
  - apply Forall_app in Hfl as [Ha [_ Hb]%Forall_cons]. by apply Forall_app.
  - cbn [mbind option_bind]. destruct Hf1 as [D1 F1], Hf2 as [D2 F2]. assert (data h2 x = Some d) as -> by (unfold data in *; by rewrite F2). cbn [mbind option_bind].
    eexists _, _, ns2. split; [done|]. rewrite Hq4 in Hset2. split_and!; try done.
    + destruct Hl2 as [Hnd Hs Hh Ht]. constructor; try done. apply dseg_delete; [|done]. by rewrite (same_nodes_fst _ _ Hs2).
    + rewrite dom_delete_L. congruence.
    + intros y Hy. rewrite fmap_app, fmap_cons in Hy. rewrite lookup_delete_ne by set_solver. rewrite F2, F1; [done|rewrite fmap_app; set_solver..].
    + simpl. by rewrite Hq1.
    + simpl. rewrite uwrap_small by (unfold in_u; lia). lia.
Qed.
End nodes.

(** ** The invariant *)

Record qok (h : qstore) (q : quicklist) (ns : list (positive * qdata)) (sss : list (list (list Z))) : Prop := {
  qo_links : links h q ns;
  qo_nodes : Forall2 (λ nd, node_ok nd.2) ns sss;
  qo_len : qlen q = Z.of_nat (length ns);
  qo_count : qcount q = Z.of_nat (length (concat sss));
  qo_small : Z.of_nat (length (concat sss)) < 2 ^ 48;
  qo_compress : 0 ≤ compress q;
  qo_settled : settled (compress q) ns
}.

Lemma ok_hold ns sss : Forall2 (λ nd : positive * qdata, node_ok nd.2) ns sss → Forall2 (λ nd : positive * qdata, node_holds nd.2) ns sss.
Proof. intros H. eapply Forall2_impl; [exact H|]. intros ?? [? _]. done. Qed.

Lemma same_nodes_node_ok ns ns' sss : same_nodes ns ns' → Forall2 (λ nd, node_ok nd.2) ns sss → Forall2 (λ nd, node_ok nd.2) ns' sss.
Proof.
  intros H. revert sss. induction H as [|u v l l' [_ E] _ IH]; intros sss Hs; inversion Hs as [|? ss ? ? [H1 H2]]; subst; constructor; [|auto]. split; [by eapply same_node_holds|]. destruct E as (_ & _ & _ & Ec). congruence.
Qed.

Lemma concat_ge (sss : list (list (list Z))) : Forall (λ ss, ss ≠ []) sss → (length sss ≤ length (concat sss))%nat.
Proof. induction 1 as [|ss sss Hs _ IH]; simpl; [done|]. rewrite length_app. destruct ss; [done|]. simpl. lia. Qed.

Lemma nodes_ne ns sss : Forall2 (λ nd : positive * qdata, node_ok nd.2) ns sss → Forall (λ ss, ss ≠ []) sss.
Proof. induction 1 as [|nd ss ns sss [H _] _ IH]; constructor; [apply H|done]. Qed.

Lemma qok_len h q ns sss : qok h q ns sss → length sss = length ns ∧ Z.of_nat (length ns) < 2 ^ 48.
Proof.
  intros Hq. pose proof (Forall2_length _ _ _ (qo_nodes _ _ _ _ Hq)) as E. split; [done|]. pose proof (concat_ge sss (nodes_ne _ _ (qo_nodes _ _ _ _ Hq))). pose proof (qo_small _ _ _ _ Hq). lia.
Qed.

Lemma concat_insert (sss : list (list (list Z))) i ss ss' : sss !! i = Some ss →
  concat sss = concat (take i sss) ++ ss ++ concat (drop (S i) sss) ∧ concat (<[i := ss']> sss) = concat (take i sss) ++ ss' ++ concat (drop (S i) sss).
Proof.
  intros Hi. split.
  - rewrite <- (take_drop_middle sss i ss Hi) at 1. by rewrite concat_app.
  - rewrite insert_take_drop by (by eapply lookup_lt_Some). by rewrite concat_app.
Qed.

Lemma settled_replace c ns i x d d' : settled c ns → ns !! i = Some (x, d) → is_raw d' → recompress d' = false → settled c (<[i := (x, d')]> ns).
Proof.
  intros (H1 & H2 & H3) Hi Hr Hf. assert (∀ k, raw_outer ns k → raw_outer (<[i := (x, d')]> ns) k) as Hk.
  { intros k H j y e Hj Hout. rewrite length_insert in Hout. destruct (decide (i = j)) as [->|].
    - rewrite list_lookup_insert_eq in Hj by (by eapply lookup_lt_Some). by injection Hj as <- <-.
    - rewrite list_lookup_insert_ne in Hj by done. by apply (H j y e). }
  unfold settled. rewrite length_insert. split_and!; [by apply Hk|intros Hc; by apply Hk, H2|]. by apply Forall_insert.
Qed.

(** The data of one node change. *)
Lemma qok_update h h' q ns sss i x d d' ss' : qok h q ns sss → ns !! i = Some (x, d) → links h' q (<[i := (x, d')]> ns) → node_ok d' ss' → is_raw d' → recompress d' = false →
  Z.of_nat (length (concat (<[i := ss']> sss))) < 2 ^ 48 →
  qok h' (set_qcount q (Z.of_nat (length (concat (<[i := ss']> sss))))) (<[i := (x, d')]> ns) (<[i := ss']> sss).
Proof.
  intros Hq Hi Hl Hok Hr Hf Hsm. constructor; simpl; try done.
  - by destruct Hl.
  - by apply Forall2_insert; [apply Hq|].
  - rewrite length_insert. apply Hq.
  - apply Hq.
  - eapply settled_replace; [apply Hq|done..].
Qed.

Lemma qok_at h q ns sss i x d : qok h q ns sss → ns !! i = Some (x, d) → ∃ ss, sss !! i = Some ss ∧ node_ok d ss ∧ recompress d = false.
Proof.
  intros Hq Hi. destruct (Forall2_lookup_l _ _ _ _ _ (qo_nodes _ _ _ _ Hq) Hi) as (ss & Hs & Hok). exists ss. split_and!; try done.
  destruct (qo_settled _ _ _ _ Hq) as (_ & _ & Hf). apply (Forall_lookup_1 _ _ _ _ Hf Hi).
Qed.

Lemma end_raw h q ns sss i x d : qok h q ns sss → ns !! i = Some (x, d) → (i = 0 ∨ S i = length ns)%nat → is_raw d.
Proof. intros Hq Hi Ho. destruct (qo_settled _ _ _ _ Hq) as (H & _). apply (H i x d Hi). unfold outer. lia. Qed.

(** ** Pieces of the operations *)

Section pieces.
Context (junk : Z).

Lemma add_count_at h q ns i x d k : links h q ns → ns !! i = Some (x, d) →
  ∃ h', add_count h x k = Some h' ∧ links h' q (<[i := (x, set_count d (u16 (count d + k)))]> ns) ∧ frame h h' ns.
Proof.
  intros Hl Hi. unfold add_count. rewrite (links_data h q ns i x d Hl Hi). cbn [mbind option_bind]. by apply (set_data_at h q ns i x d).
Qed.

Lemma store_zl_at h q ns i x d b ss : links h q ns → ns !! i = Some (x, d) → zl_holds b ss →
  ∃ h', store_zl h x b = Some h' ∧ links h' q (<[i := (x, QData (QZl b) (Z.of_nat (length b)) (count d) (qenc d) (recompress d))]> ns) ∧ frame h h' ns.
Proof.
  intros Hl Hi Hb. unfold store_zl. rewrite (links_data h q ns i x d Hl Hi). cbn [mbind option_bind]. rewrite (bloblen_holds b ss Hb). cbn [mbind option_bind].
  by apply (set_data_at h q ns i x d).
Qed.

(** A node with the ziplist [b]. *)
Lemma raw_holds b ss n r c : zl_holds b ss → ss ≠ [] → total ss ≤ 2 ^ 30 → Z.of_nat (length ss) < 2 ^ 16 → n = Z.of_nat (length b) →
  node_holds (QData (QZl b) n c ENCODING_RAW r) ss.
Proof. intros Hb Hne Ht Hs ->. constructor; try done. exists b. split_and!; try done. by left. Qed.

(** Room for one more string of [n] bytes. *)
Definition room (ss : list (list Z)) (n : Z) : Prop := Z.of_nat (length ss) + 1 < 2 ^ 16 ∧ total ss + n + 18 ≤ 2 ^ 30.

Lemma meets_small n f : _quicklistNodeSizeMeetsOptimizationRequirement n f = true → n ≤ 65536.
Proof.
  unfold _quicklistNodeSizeMeetsOptimizationRequirement. destruct (0 <=? f); [done|]. set (k := Z.to_nat (- f - 1)).
  destruct (optimization_level !! k) as [l|] eqn:E; [|done]. intros H%Z.leb_le. assert (l ≤ 65536); [|lia].
  assert (Forall (λ l, l ≤ 65536) optimization_level) as Ha by (repeat constructor; lia). apply (Forall_lookup_1 _ _ _ _ Ha E).
Qed.

Lemma allow_insert_spec h x d ss f n : data h x = Some d → node_ok d ss → 0 ≤ n ≤ 2 ^ 29 →
  ∃ r, _quicklistNodeAllowInsert h (Some x) f n = Some r ∧ (r = true → room ss n).
Proof.
  intros Hd [Hok Hc] Hn. unfold _quicklistNodeAllowInsert. rewrite Hd. cbn [mbind option_bind]. eexists. split; [done|].
  destruct Hok as [Hne Ht Hsm (b & Hb & Hsz & _)]. destruct (holds_sizes b ss Hb) as [Hb1 Hb2]. set (ov := (if n <? 254 then 1 else 5) + _). assert (2 ≤ ov ≤ 10) as Hov by (unfold ov; repeat case_match; lia).
  rewrite uwrap_small by (unfold in_u; lia). intros Hr. assert (sz d + n + ov ≤ 65536) as Hle.
  { destruct (_quicklistNodeSizeMeetsOptimizationRequirement _ f) eqn:Em; [by apply meets_small in Em|]. unfold sizeMeetsSafetyLimit, SIZE_SAFETY_LIMIT in Hr.
    destruct (Z.leb_spec (sz d + n + ov) 8192); [lia|done]. }
  split; lia.
Qed.

Lemma push_existing_at h q ns i x d ss v w : links h q ns → ns !! i = Some (x, d) → node_holds d ss → is_raw d → room ss (Z.of_nat (length v)) →
  ∃ h' d', push_existing junk h (Some x) v w = Some h' ∧ links h' q (<[i := (x, d')]> ns) ∧ frame h h' ns ∧ is_raw d' ∧ recompress d' = recompress d ∧
    count d' = count d ∧ node_holds d' (if w =? ZIPLIST_HEAD then v :: ss else ss ++ [v]).
Proof.
  intros Hl Hi Hok Hr [Hrm1 Hrm2]. unfold push_existing. cbn [mbind option_bind]. rewrite (links_data h q ns i x d Hl Hi). cbn [mbind option_bind].
  destruct (node_raw d ss Hok Hr) as (b & -> & Hb & _). cbn [mbind option_bind]. pose proof (total_nonneg ss). destruct (push_holds junk b ss v w Hb) as (b' & -> & Hb'); [lia|lia|]. cbn [mbind option_bind].
  destruct (store_zl_at h q ns i x d b' _ Hl Hi Hb') as (h' & -> & Hl' & Hf). eexists h', _. split; [done|]. split; [exact Hl'|]. split_and!; try done. simpl. rewrite Hr. apply raw_holds; try done.
  - case_match; [done|]. by destruct ss.
  - case_match; [simpl|rewrite total_app; simpl]; lia.
  - case_match; [simpl|rewrite length_app; simpl]; lia.
Qed.

Lemma push_new_spec h v w : Z.of_nat (length v) ≤ 2 ^ 29 → let x := fresh (dom h : gset positive) in
  ∃ d, push_new junk h v w = Some (<[x := LNode None None d]> h, x) ∧ is_raw d ∧ recompress d = false ∧ count d = 0 ∧ node_holds d [v].
Proof.
  intros Hv x. unfold push_new, quicklistCreateNode. fold x. destruct (new_holds junk) as (b0 & -> & Hb0). cbn [mbind option_bind].
  destruct (push_holds junk b0 [] v w Hb0) as (b & -> & Hb); [simpl; lia|lia|]. cbn [mbind option_bind]. assert (zl_holds b [v]) as Hb1 by (by destruct (w =? ZIPLIST_HEAD)).
  unfold store_zl, data, set_data. rewrite lookup_insert_eq. cbn [mbind option_bind fmap option_fmap option_map value]. rewrite (bloblen_holds b [v] Hb1). cbn [mbind option_bind]. rewrite insert_insert_eq.
  eexists. split; [done|]. split_and!; try done. simpl. apply raw_holds; try done. simpl. lia.
Qed.
End pieces.

Section ops.
Context (junk : Z) (ljunk : Z → Z) (alloc : nat → list Z) (Halloc : ∀ n, length (alloc n) = n).

(** A node that is in no list is linked into the list. *)
Lemma insert_new h q a b sa sb x d ss (after : bool) : qok h q (a ++ b) (sa ++ sb) → length sa = length a → x ∉ (a ++ b).*1 → h !! x = Some (LNode None None d) →
  is_raw d → recompress d = false → node_holds d ss → ((if after then a else b) = [] → a ++ b = []) →
  ∃ h' q' a' d' b', __quicklistInsertNode ljunk alloc h q (if after then last_or a None else first_or b None) x after = Some (h', q') ∧
    links h' q' (a' ++ (x, d') :: b') ∧ same_nodes a a' ∧ same_node d d' ∧ same_nodes b b' ∧
    Forall2 (λ nd, node_ok nd.2) a' sa ∧ Forall2 (λ nd, node_ok nd.2) b' sb ∧ settled (compress q) (a' ++ (x, d') :: b') ∧
    frame1 h h' (a ++ b) x ∧ qcount q' = qcount q ∧ qlen q' = qlen q + 1 ∧ fill q' = fill q ∧ compress q' = compress q.
Proof.
  intros Hq Hlen Hx Hn Hr Hf Hok Hab. pose proof (qok_len _ _ _ _ Hq) as [_ Hsm]. destruct Hq as [Hl Hnodes Hql _ _ Hc Hset].
  apply Forall2_app_inv in Hnodes as [Ha Hb]; [|done].
  destruct (insert_node_spec ljunk alloc Halloc h q a b (sa ++ ss :: sb) x (LNode None None d) ss after) as (h' & q' & ns' & E & Hl' & Hs & Hset' & Hfr & F1 & F2 & F3 & F4); try done.
  - apply Forall2_app; [by apply ok_hold|]. constructor; [done|by apply ok_hold].
  - rewrite <- Hlen. by apply list_lookup_middle.
  - lia.
  - apply Forall2_app_inv_l in Hs as (a' & ns2 & Ha' & Hs2 & ->). apply Forall2_cons_inv_l in Hs2 as ([x' d'] & b' & [Ex Hd'] & Hb' & ->). simpl in Ex, Hd'. subst x'.
    exists h', q', a', d', b'. split_and!; try done; by eapply same_nodes_node_ok.
Qed.

Lemma fresh_not_in h q ns : links h q ns → fresh (dom h : gset positive) ∉ ns.*1.
Proof. intros [_ Hs _ _]. by eapply fresh_notin. Qed.

Lemma links_insert_fresh h q ns n : links h q ns → links (<[fresh (dom h : gset positive) := n]> h) q ns.
Proof.
  intros Hl. pose proof (fresh_not_in h q ns Hl). eapply links_frame; [exact Hl|]. intros y Hy. apply lookup_insert_ne. by intros <-.
Qed.

Lemma qok_insert_fresh h q ns sss n : qok h q ns sss → qok (<[fresh (dom h : gset positive) := n]> h) q ns sss.
Proof. intros []. constructor; try done. by apply links_insert_fresh. Qed.

(** The list after a new node got its entry count. *)
Lemma qok_new h q a x d b sa ss sb q0 n : links h q (a ++ (x, d) :: b) → Forall2 (λ nd, node_ok nd.2) a sa → node_ok d ss → Forall2 (λ nd, node_ok nd.2) b sb →
  settled (compress q0) (a ++ (x, d) :: b) → compress q = compress q0 → 0 ≤ compress q0 → qlen q = Z.of_nat (length (a ++ b)) + 1 →
  n = Z.of_nat (length (concat (sa ++ ss :: sb))) → n < 2 ^ 48 →
  qok h (set_qcount q n) (a ++ (x, d) :: b) (sa ++ ss :: sb).
Proof.
  intros Hl Ha Hd Hb Hset Ec Hc Hlen -> Hsm. constructor; simpl; try done; [by destruct Hl|apply Forall2_app; [done|by constructor]|rewrite Hlen, !length_app; simpl; lia|lia|by rewrite Ec].
Qed.

Lemma u64_count n : 0 ≤ n < 2 ^ 48 → u64 (n + 1) = n + 1.
Proof. intros Hn. apply uwrap_small. unfold in_u. lia. Qed.

Lemma same_nodes_app_length a a' b b' : same_nodes a a' → same_nodes b b' → length (a' ++ b') = length (a ++ b).
Proof. intros Ha Hb. by rewrite !length_app, (same_nodes_length _ _ Ha), (same_nodes_length _ _ Hb). Qed.

Lemma settled_data c a x d d' b : settled c (a ++ (x, d) :: b) → qenc d' = qenc d → recompress d' = recompress d → settled c (a ++ (x, d') :: b).
Proof.
  intros (H1 & H2 & H3) He Hr. assert (∀ k, raw_outer (a ++ (x, d) :: b) k → raw_outer (a ++ (x, d') :: b) k) as Hk.
  { intros k H j y e Hj Hout. rewrite length_app in *. cbn [length] in *. destruct (decide (j = length a)) as [->|Hne].
    - rewrite list_lookup_middle in Hj by done. injection Hj as <- <-. unfold is_raw. rewrite He. apply (H (length a) x d); [by apply list_lookup_middle|]. by rewrite length_app.
    - apply (H j y e); [|by rewrite length_app]. destruct (decide (j < length a)%nat); [by rewrite !lookup_app_l in * by lia|]. rewrite !lookup_app_r in * by lia.
      destruct (j - length a)%nat eqn:Ej; [lia|]. done. }
  unfold settled. rewrite length_app in *. cbn [length] in *. split_and!; [by apply Hk|intros Hc; apply Hk; by apply H2|]. apply Forall_app in H3 as [Ha [Hd Hb]%Forall_cons]. apply Forall_app. split; [done|].
  constructor; [|done]. simpl. by rewrite Hr.
Qed.

(** A new node with the one string [v], at either end or between two nodes, as pushes do it. *)
Lemma push_new_at h q a b sa sb v w (after : bool) : qok h q (a ++ b) (sa ++ sb) → length sa = length a → ((if after then a else b) = [] → a ++ b = []) →
  Z.of_nat (length v) ≤ 2 ^ 29 → Z.of_nat (length (concat (sa ++ sb))) + 1 < 2 ^ 48 →
  ∃ h1 x h2 q2 h3 ns, push_new junk h v w = Some (h1, x) ∧
    __quicklistInsertNode ljunk alloc h1 q (if after then last_or a None else first_or b None) x after = Some (h2, q2) ∧
    add_count h2 x 1 = Some h3 ∧ qok h3 (set_qcount q2 (u64 (qcount q2 + 1))) ns (sa ++ [v] :: sb) ∧ (∃ a' d b', ns = a' ++ (x, d) :: b' ∧ same_nodes a a' ∧ same_nodes b b') ∧
    fill q2 = fill q ∧ compress q2 = compress q ∧ qhead q2 = first_or ns None ∧ qtail q2 = last_or ns None ∧ x ∉ (a ++ b).*1.
Proof.
  intros Hq Hlen Hab Hv Hsm. destruct (push_new_spec junk h v w Hv) as (d & -> & Hr & Hf & Hc0 & Hd). set (x := fresh (dom h : gset positive)) in *. set (h1 := <[x := LNode None None d]> h) in *.
  destruct (insert_new h1 q a b sa sb x d [v] after) as (h2 & q2 & a' & d' & b' & E2 & Hl2 & Ha & Hsd & Hb & Hoa & Hob & Hset & Hfr & F1 & F2 & F3 & F4); try done.
  - by apply qok_insert_fresh.
  - by apply (fresh_not_in h q), Hq.
  - apply lookup_insert_eq.
  - destruct (add_count_at h2 q2 (a' ++ (x, d') :: b') (length a') x d' 1 Hl2) as (h3 & E3 & Hl3 & _); [by apply list_lookup_middle|].
    assert (<[length a' := (x, set_count d' (u16 (count d' + 1)))]> (a' ++ (x, d') :: b') = a' ++ (x, set_count d' (u16 (count d' + 1))) :: b') as Ei.
    { rewrite insert_app_r_alt, Nat.sub_diag by done. done. }
    rewrite Ei in Hl3. eexists h1, x, h2, q2, h3, _. split; [done|]. split; [exact E2|]. split; [exact E3|].
    assert (qcount q = Z.of_nat (length (concat (sa ++ sb)))) as Hcnt by apply Hq. rewrite F1, Hcnt, u64_count by lia.
    assert (length (concat (sa ++ [v] :: sb)) = S (length (concat (sa ++ sb)))) as Hcc by (rewrite !concat_app, concat_cons, !length_app; simpl; lia).
    split_and!; try done.
    + eapply (qok_new h3 q2 a' x _ b' sa [v] sb q); try done.
      * pose proof Hsd as (_ & _ & _ & Hd4). split; [|simpl; by rewrite Hd4, Hc0]. destruct (same_node_holds _ _ [v] Hsd Hd) as [G1 G2 G3 G4]. constructor; try done.
      * by eapply settled_data.
      * apply Hq.
      * rewrite F2. rewrite (qo_len _ _ _ _ Hq). by rewrite (same_nodes_app_length a a' b b').
      * lia.
    + eexists a', _, b'. done.
    + apply Hl3.
    + apply Hl3.
    + by apply (fresh_not_in h q), Hq.
Qed.

(** An entry is added to a node that has room. *)
Lemma push_existing_ok h q ns sss i x d ss v w : qok h q ns sss → ns !! i = Some (x, d) → sss !! i = Some ss → is_raw d → room ss (Z.of_nat (length v)) →
  Z.of_nat (length (concat sss)) + 1 < 2 ^ 48 →
  ∃ h1 h2 ns', push_existing junk h (Some x) v w = Some h1 ∧ add_count h1 x 1 = Some h2 ∧
    qok h2 (set_qcount q (u64 (qcount q + 1))) ns' (<[i := if w =? ZIPLIST_HEAD then v :: ss else ss ++ [v]]> sss) ∧ (∃ d', ns' = <[i := (x, d')]> ns).
Proof.
  intros Hq Hi Hs Hr Hrm Hsm. destruct (qok_at _ _ _ _ _ _ _ Hq Hi) as (ss' & Hs' & [Hok Hc] & Hf). rewrite Hs in Hs'. injection Hs' as <-.
  destruct (push_existing_at junk h q ns i x d ss v w (qo_links _ _ _ _ Hq) Hi Hok Hr Hrm) as (h1 & d1 & E1 & Hl1 & _ & Hr1 & Hf1 & Hc1 & Hok1).
  pose proof (lookup_lt_Some _ _ _ Hi) as Hlt.
  destruct (add_count_at h1 q (<[i := (x, d1)]> ns) i x d1 1 Hl1) as (h2 & E2 & Hl2 & _); [by apply list_lookup_insert_eq|]. rewrite list_insert_insert_eq in Hl2.
  exists h1, h2, (<[i := (x, set_count d1 (u16 (count d1 + 1)))]> ns). split; [done|]. split; [done|]. set (ss' := if w =? ZIPLIST_HEAD then v :: ss else ss ++ [v]) in *.
  assert (length ss' = S (length ss)) as Hl' by (unfold ss'; case_match; [done|]; rewrite length_app; simpl; lia).
  destruct (concat_insert sss i ss ss' Hs) as [C1 C2]. assert (length (concat (<[i := ss']> sss)) = S (length (concat sss))) as Hcc by (rewrite C1, C2, !length_app; lia).
  split; [|by eexists]. rewrite (qo_count _ _ _ _ Hq), u64_count by lia. replace (Z.of_nat (length (concat sss)) + 1) with (Z.of_nat (length (concat (<[i := ss']> sss)))) by lia.
  eapply qok_update; try done.
  - split; [|simpl; rewrite Hl', Hc1, Hc, uwrap_small; [lia|destruct Hrm; unfold in_u; lia]]. destruct Hok1 as [G1 G2 G3 G4]. by constructor.
  - simpl. by rewrite Hf1.
  - lia.
Qed.

Lemma qhead_nth h q ns sss : qok h q ns sss → qhead q = ptr ns 0 ∧ qtail q = ptr ns (length ns - 1).
Proof. intros [[_ _ Hh Ht] _ _ _ _ _ _]. by rewrite Hh, Ht, ptr_first, ptr_last. Qed.

(** The next state of a list whose contents change. *)
Definition becomes (q : quicklist) (L : list (list Z)) (h' : qstore) (q' : quicklist) : Prop :=
  (∃ ns sss, qok h' q' ns sss ∧ concat sss = L) ∧ fill q' = fill q ∧ compress q' = compress q.

Lemma same_nodes_snoc ns x d ns' : same_nodes (ns ++ [(x, d)]) ns' → ∃ ns1 d', ns' = ns1 ++ [(x, d')] ∧ same_node d d'.
Proof.
  intros (ns1 & l & _ & Hl & ->)%Forall2_app_inv_l. apply Forall2_cons_inv_l in Hl as ([y e] & l' & [Ey He] & Hl & ->). apply Forall2_nil_inv_l in Hl as ->. simpl in Ey, He. subst y. by exists ns1, e.
Qed.

(** The node at a position, if there is one, has room for a string. *)
Lemma allow_at h q ns sss j n : qok h q ns sss → 0 ≤ n ≤ 2 ^ 29 →
  ∃ r, _quicklistNodeAllowInsert h (ptr ns j) (fill q) n = Some r ∧ (r = true → ∃ x d ss, ns !! j = Some (x, d) ∧ sss !! j = Some ss ∧ room ss n).
Proof.
  intros Hq Hn. unfold ptr. destruct (ns !! j) as [[x d]|] eqn:Hj; [|by exists false]. destruct (qok_at _ _ _ _ _ _ _ Hq Hj) as (ss & Hs & Hok & _).
  destruct (allow_insert_spec h x d ss (fill q) n) as (r & E & Hr); [by apply (links_data h q ns j), Hj; apply Hq|done|lia|]. exists r. split; [exact E|]. intros Hrt. exists x, d, ss. auto.
Qed.

(** A push at the head leaves the last node alone unless it is the only one. *)
Lemma push_head_ok h q ns sss v : qok h q ns sss → Z.of_nat (length v) ≤ 2 ^ 29 → Z.of_nat (length (concat sss)) + 1 < 2 ^ 48 →
  ∃ h' q' r ns' sss', quicklistPushHead junk ljunk alloc h q v = Some (h', q', r) ∧ qok h' q' ns' sss' ∧ concat sss' = v :: concat sss ∧ fill q' = fill q ∧ compress q' = compress q ∧
    (length ns' ≠ 1%nat → ∀ x d b, last ns = Some (x, d) → zipl d = Some b → last sss' = last sss ∧ ∃ d', last ns' = Some (x, d') ∧ zipl d' = Some b).
Proof.
  intros Hq Hv Hsm. unfold quicklistPushHead. destruct (qhead_nth _ _ _ _ Hq) as [Hh _]. rewrite Hh.
  destruct (allow_at h q ns sss 0 (Z.of_nat (length v)) Hq) as (r & -> & Hr); [lia|].
  cbn [mbind option_bind]. destruct r.
  - destruct (Hr eq_refl) as (x & d & ss & Hi & Hs & Hrm). assert (ptr ns 0 = Some x) as -> by (unfold ptr; by rewrite Hi).
    destruct (push_existing_ok h q ns sss 0 x d ss v ZIPLIST_HEAD Hq Hi Hs) as (h1 & h2 & ns' & -> & E2 & Hq2 & d' & ->); try done; [by apply (end_raw _ _ _ _ _ _ _ Hq Hi); left|].
    cbn [mbind option_bind qhead set_qcount]. rewrite Hh. assert (ptr ns 0 = Some x) as -> by (unfold ptr; by rewrite Hi). cbn [mbind option_bind]. rewrite E2. cbn [mbind option_bind].
    eexists _, _, _, _, _. split; [done|]. split; [exact Hq2|]. destruct sss as [|ss' sss]; [done|]. injection Hs as ->. split_and!; try done.
    destruct ns as [|u ns]; [done|]. injection Hi as ->. cbn [insert list_insert length]. intros Hne y e b Hy Hb. destruct ns as [|u ns]; [done|]. pose proof (qok_len _ _ _ _ Hq) as [Hln _].
    destruct sss; [done|]. split; [done|]. by exists e.
  - destruct (push_new_at h q [] ns [] sss v ZIPLIST_HEAD false Hq) as (h1 & x & h2 & q2 & h3 & ns' & -> & E2 & E3 & Hq3 & (a' & d & b' & -> & Ha & Hb) & F1 & F2 & F3 & _ & _); try done.
    destruct a'; [|by apply same_nodes_length in Ha]. simpl in F3. cbn [mbind option_bind]. unfold _quicklistInsertNodeBefore. rewrite ptr_first in E2. rewrite E2. cbn [mbind option_bind qhead set_qcount]. rewrite F3. cbn [mbind option_bind]. rewrite E3. cbn [mbind option_bind].
    eexists _, _, _, _, _. split; [done|]. split; [exact Hq3|]. split_and!; try done. intros _ y e z Hy Hz. destruct ns as [|u ns] using rev_ind; [done|]. clear IHns. rewrite last_snoc in Hy. injection Hy as ->.
    destruct (same_nodes_snoc ns y e b' Hb) as (ns' & e' & -> & Hse). pose proof (qok_len _ _ _ _ Hq) as [Hln _]. rewrite length_app in Hln. simpl in Hln.
    split; [by destruct sss; [simpl in Hln; lia|]|]. exists e'. split; [apply (last_snoc _ ((x, d) :: ns'))|].
    assert ((ns ++ [(y, e)]) !! length ns = Some (y, e)) as Hy by (by apply list_lookup_middle). destruct (qok_at _ _ _ _ _ _ _ Hq Hy) as (ss & _ & [Hok _] & _).
    eapply same_node_raw; [exact Hse|exact Hok| | |done]; [apply (end_raw _ _ _ _ _ _ _ Hq Hy); rewrite length_app; simpl; lia|].
    apply (end_raw _ _ _ _ (S (length ns')) y e' Hq3); [by apply (list_lookup_middle ns' [])|]. right. simpl. rewrite length_app. simpl. lia.
Qed.

Lemma push_tail_ok h q ns sss v : qok h q ns sss → Z.of_nat (length v) ≤ 2 ^ 29 → Z.of_nat (length (concat sss)) + 1 < 2 ^ 48 →
  ∃ h' q' r, quicklistPushTail junk ljunk alloc h q v = Some (h', q', r) ∧ becomes q (concat sss ++ [v]) h' q'.
Proof.
  intros Hq Hv Hsm. unfold quicklistPushTail. destruct (qhead_nth _ _ _ _ Hq) as [_ Ht]. rewrite Ht. set (i := (length ns - 1)%nat) in *. pose proof (qok_len _ _ _ _ Hq) as [Hln _].
  destruct (allow_at h q ns sss i (Z.of_nat (length v)) Hq) as (r & -> & Hr); [lia|].
  cbn [mbind option_bind]. destruct r.
  - destruct (Hr eq_refl) as (x & d & ss & Hi & Hs & Hrm). assert (ptr ns i = Some x) as Hp by (unfold ptr; by rewrite Hi). rewrite Hp. pose proof (lookup_lt_Some _ _ _ Hi) as Hlt.
    destruct (push_existing_ok h q ns sss i x d ss v ZIPLIST_TAIL Hq Hi Hs) as (h1 & h2 & ns' & -> & E2 & Hq2 & d' & ->); try done; [apply (end_raw _ _ _ _ _ _ _ Hq Hi); lia|].
    cbn [mbind option_bind qtail set_qcount]. rewrite Ht, Hp. cbn [mbind option_bind]. rewrite E2. cbn [mbind option_bind].
    eexists _, _, _. split; [done|]. split; [|done]. eexists _, _. split; [exact Hq2|]. destruct (concat_insert sss i ss (ss ++ [v]) Hs) as [C1 C2].
    change (ZIPLIST_TAIL =? ZIPLIST_HEAD) with false. cbv iota. rewrite C1, C2. rewrite (drop_ge sss (S i)) by lia. simpl. by rewrite !app_nil_r, <- app_assoc.
  - destruct (push_new_at h q ns [] sss [] v ZIPLIST_TAIL true) as (h1 & x & h2 & q2 & h3 & ns' & -> & E2 & E3 & Hq3 & (a' & d & b' & -> & Ha & Hb) & F1 & F2 & _ & F3 & _); try done; try (by rewrite !app_nil_r).
    destruct b'; [|by apply same_nodes_length in Hb]. rewrite last_or_snoc in F3. cbn [mbind option_bind]. unfold _quicklistInsertNodeAfter. unfold i. rewrite <- ptr_last. rewrite E2. cbn [mbind option_bind qtail set_qcount]. rewrite F3. cbn [mbind option_bind]. rewrite E3. cbn [mbind option_bind].
    eexists _, _, _. split; [done|]. split; [|done]. eexists _, _. split; [exact Hq3|]. by rewrite concat_app.
Qed.

(** The contents without entry [k] of node [i]. *)
Definition cut (ss : list (list Z)) (k : nat) : list (list Z) := take k ss ++ drop (S k) ss.

Lemma cut_length ss k : (k < length ss)%nat → length (cut ss k) = (length ss - 1)%nat.
Proof. intros Hk. unfold cut. rewrite length_app, length_take, length_drop. lia. Qed.

Lemma cut_total ss k : (k < length ss)%nat → total (cut ss k) ≤ total ss.
Proof.
  intros Hk. destruct (lookup_lt_is_Some_2 ss k Hk) as [s Hs]. unfold cut. rewrite <- (take_drop_middle ss k s Hs) at 3. rewrite !total_app. simpl. lia.
Qed.

Lemma split_at {T} (l : list T) i x : l !! i = Some x → l = take i l ++ x :: drop (S i) l.
Proof. intros Hi. symmetry. by apply take_drop_middle. Qed.

Lemma del_index_ok h q ns sss i x d ss b k p : qok h q ns sss → ns !! i = Some (x, d) → sss !! i = Some ss → is_raw d → zipl d = Some b → zl_at b ss k p → (k < length ss)%nat →
  ∃ h' q' gone ns', quicklistDelIndex junk ljunk alloc h q x p = Some (h', q', p, gone) ∧ fill q' = fill q ∧ compress q' = compress q ∧ gone = bool_decide (length ss = 1%nat) ∧
    if gone then qok h' q' ns' (take i sss ++ drop (S i) sss) ∧ ns'.*1 = (take i ns ++ drop (S i) ns).*1
    else qok h' q' ns' (<[i := cut ss k]> sss) ∧ ∃ d' b', ns' = <[i := (x, d')]> ns ∧ is_raw d' ∧ zipl d' = Some b' ∧ zl_at b' (cut ss k) k p.
Proof.
  intros Hq Hi Hs Hr Hb Hat Hk. destruct (qok_at _ _ _ _ _ _ _ Hq Hi) as (ss' & Hs' & [Hok Hc] & Hf). rewrite Hs in Hs'. injection Hs' as <-.
  pose proof (no_total _ _ Hok) as Ht. pose proof (no_small _ _ Hok) as Hsm. unfold quicklistDelIndex. rewrite (links_data h q ns i x d (qo_links _ _ _ _ Hq) Hi). cbn [mbind option_bind]. rewrite Hb. cbn [mbind option_bind].
  destruct (delete_holds junk b ss k p Hat Hk) as (b' & -> & Hat'); [lia|]. cbn [mbind option_bind]. fold (cut ss k) in Hat'. set (d1 := set_count _ _).
  destruct (set_data_at h q ns i x d d1 (qo_links _ _ _ _ Hq) Hi) as (h1 & -> & Hl1 & _). cbn [mbind option_bind]. pose proof (lookup_lt_Some _ _ _ Hi) as Hlt.
  assert (<[i := (x, d1)]> ns !! i = Some (x, d1)) as Hi1 by (by apply list_lookup_insert_eq). rewrite (links_data h1 q _ i x d1 Hl1 Hi1). cbn [mbind option_bind].
  assert (count d1 = Z.of_nat (length ss) - 1) as Hc1 by (unfold d1; simpl; rewrite Hc, uwrap_small; [done|unfold in_u; lia]). rewrite Hc1.
  assert (qcount q = Z.of_nat (length (concat sss))) as Hqc by apply Hq. pose proof (qo_small _ _ _ _ Hq) as Hsmall. pose proof (cut_length ss k Hk) as Hcl. pose proof (cut_total ss k Hk) as Hct.
  destruct (Z.eqb_spec (Z.of_nat (length ss) - 1) 0) as [H1|H1].
  - rewrite insert_take_drop in Hl1 by done. destruct (concat_insert sss i ss [] Hs) as [C1 _]. pose proof (Forall2_take _ _ _ i (qo_nodes _ _ _ _ Hq)) as Na. pose proof (Forall2_drop _ _ _ (S i) (qo_nodes _ _ _ _ Hq)) as Nb.
    destruct (del_node_spec ljunk alloc Halloc h1 q (take i ns) x d1 (drop (S i) ns) (take i sss ++ drop (S i) sss)) as (h2 & q2 & ns2 & -> & Hl2 & Hs2 & Hset & _ & _ & F1 & F2 & F3 & F4); try done.
    + by apply Forall2_app; apply ok_hold.
    + rewrite (qo_len _ _ _ _ Hq), length_app, length_take. simpl. rewrite length_drop. lia.
    + rewrite (qo_len _ _ _ _ Hq). pose proof (qok_len _ _ _ _ Hq). lia.
    + apply Hq.
    + pose proof (qo_settled _ _ _ _ Hq) as Hset. rewrite (split_at ns i (x, d) Hi) in Hset. by eapply settled_data.
    + cbn [mbind option_bind]. exists h2, (set_qcount q2 (u64 (qcount q2 - 1))), true, ns2. split; [done|]. split; [done|]. split; [done|]. split; [by rewrite bool_decide_true by lia|]. split; [|by apply same_nodes_fst].
      constructor; cbn [qlen qcount compress set_qcount]; [by destruct Hl2|eapply same_nodes_node_ok; [exact Hs2|by apply Forall2_app]| | | |rewrite F4; apply Hq|by rewrite F4].
      * rewrite F2, (qo_len _ _ _ _ Hq), (same_nodes_length _ _ Hs2), length_app, length_take, length_drop. lia.
      * rewrite F1, Hc1, Hqc, concat_app, length_app. rewrite C1, !length_app in *. rewrite !uwrap_small by (unfold in_u; try rewrite uwrap_small by (unfold in_u; lia); lia). lia.
      * rewrite concat_app, length_app. rewrite C1, !length_app in Hsmall. lia.
  - destruct (store_zl_at h1 q _ i x d1 b' _ Hl1 Hi1 (at_holds _ _ _ _ Hat')) as (h2 & -> & Hl2 & _). cbn [mbind option_bind]. rewrite list_insert_insert_eq in Hl2. set (d2 := QData _ _ _ _ _) in Hl2.
    destruct (concat_insert sss i ss (cut ss k) Hs) as [C1 C2]. assert (Z.of_nat (length (concat (<[i := cut ss k]> sss))) = Z.of_nat (length (concat sss)) - 1) as Hcc by (rewrite C1, C2, !length_app; lia).
    exists h2, (set_qcount q (u64 (qcount q - 1))), false, (<[i := (x, d2)]> ns). split; [done|]. split; [done|]. split; [done|]. split; [by rewrite bool_decide_false by lia|]. split.
    + rewrite Hqc, uwrap_small by (unfold in_u; lia). rewrite <- Hcc. eapply qok_update; try done; [|lia]. split; [|change (count d2) with (count d1); lia].
      unfold d2. simpl. rewrite Hr. apply raw_holds; try done; [by apply (at_holds _ _ _ _ Hat')|intros E; rewrite E in Hcl; simpl in Hcl; lia|lia|lia].
    + exists d2, b'. done.
Qed.

(** Entry [k] of node [i] is removed from the list. *)
Lemma del_index_becomes h q ns sss i x d ss b k p : qok h q ns sss → ns !! i = Some (x, d) → sss !! i = Some ss → is_raw d → zipl d = Some b → zl_at b ss k p → (k < length ss)%nat →
  ∃ h' q' gone, quicklistDelIndex junk ljunk alloc h q x p = Some (h', q', p, gone) ∧ becomes q (concat (take i sss) ++ cut ss k ++ concat (drop (S i) sss)) h' q'.
Proof.
  intros Hq Hi Hs Hr Hb Hat Hk. destruct (del_index_ok h q ns sss i x d ss b k p Hq Hi Hs Hr Hb Hat Hk) as (h' & q' & gone & ns' & E & F1 & F2 & Hg & H).
  exists h', q', gone. split; [done|]. split; [|done]. destruct gone.
  - destruct H as [H _]. symmetry in Hg. apply bool_decide_eq_true in Hg. exists ns', (take i sss ++ drop (S i) sss). split; [done|]. rewrite concat_app.
    pose proof (cut_length ss k Hk) as Hc. destruct (cut ss k); [done|]. simpl in Hc. lia.
  - destruct H as [H _]. exists ns', (<[i := cut ss k]> sss). split; [done|]. by apply (concat_insert sss i ss).
Qed.

Lemma concat_head (sss : list (list (list Z))) ss s ss' : sss !! 0%nat = Some ss → ss = s :: ss' →
  concat sss = s :: concat (take 0 sss) ++ cut ss 0 ++ concat (drop 1 sss).
Proof. intros Hs ->. destruct sss; [done|]. injection Hs as ->. done. Qed.

Lemma concat_tail (sss : list (list (list Z))) i ss s ss' : sss !! i = Some ss → S i = length sss → ss = ss' ++ [s] →
  concat sss = (concat (take i sss) ++ cut ss (length ss') ++ concat (drop (S i) sss)) ++ [s].
Proof.
  intros Hs Hi ->. destruct (concat_insert sss i _ [] Hs) as [-> _]. rewrite (drop_ge sss (S i)) by lia. unfold cut.
  rewrite take_app_length, (drop_ge (ss' ++ [s])) by (rewrite length_app; simpl; lia). simpl. by rewrite !app_nil_r, app_assoc.
Qed.

(** ** Pop *)

(** What a list of strings gives for a pop at either end. *)
Definition pop_end (where_ : Z) (L : list (list Z)) : option (list Z * list (list Z)) :=
  if where_ =? QUICKLIST_HEAD then match L with [] => None | s :: L => Some (s, L) end
  else match last L with None => None | Some s => Some (s, take (length L - 1) L) end.

Lemma pop_end_nil w : pop_end w [] = None.
Proof. unfold pop_end. by destruct (w =? QUICKLIST_HEAD). Qed.

Lemma pop_end_snoc L s : pop_end QUICKLIST_TAIL (L ++ [s]) = Some (s, L).
Proof. unfold pop_end. simpl. rewrite last_snoc, length_app. simpl. by rewrite Nat.add_sub, take_app_length. Qed.

Lemma node_entry h q ns sss i x d ss off k : qok h q ns sss → ns !! i = Some (x, d) → sss !! i = Some ss → is_raw d → - 2 ^ 31 < off → norm_index (length ss) off = Some k →
  ∃ b p s v, zipl d = Some b ∧ ziplistIndex b off = Some (Some p) ∧ ziplistGet b (Some p) = Some (Some v) ∧ zl_at b ss k p ∧ (k < length ss)%nat ∧ ss !! k = Some s ∧
    zval_str v = s ∧ (∀ n, v = ZInt n → in_s 64 n).
Proof.
  intros Hq Hi Hs Hr Ho Hk. destruct (qok_at _ _ _ _ _ _ _ Hq Hi) as (ss' & Hs' & [Hok _] & _). rewrite Hs in Hs'. injection Hs' as <-.
  destruct (node_raw d ss Hok Hr) as (b & Hb & Hbl & _). destruct (index_holds b ss off Hbl Ho) as (r & Er & Hr'). rewrite Hk in Hr'. destruct Hr' as (p & -> & Hat).
  pose proof (norm_index_lt _ _ _ Hk) as Hlt. destruct (lookup_lt_is_Some_2 ss k Hlt) as [s Hsk]. destruct (get_at b ss k p s Hat Hsk) as (v & Hv & Hvs & Hvn).
  exists b, p, s, v. split_and!; done.
Qed.

Lemma pop_ok h q ns sss w : qok h q ns sss → w = QUICKLIST_HEAD ∨ w = QUICKLIST_TAIL →
  ∃ h' q' r, quicklistPopCustom junk ljunk alloc h q w = Some (h', q', r) ∧
    match pop_end w (concat sss) with
    | None => r = None ∧ h' = h ∧ q' = q
    | Some (s, L) => (∃ v, r = Some v ∧ zval_str v = s ∧ (∀ n, v = ZInt n → in_s 64 n)) ∧ becomes q L h' q'
    end.
Proof.
  intros Hq Hw. unfold quicklistPopCustom. rewrite (qo_count _ _ _ _ Hq). pose proof (qok_len _ _ _ _ Hq) as [Hln _]. pose proof (nodes_ne _ _ (qo_nodes _ _ _ _ Hq)) as Hne.
  destruct (Z.eqb_spec (Z.of_nat (length (concat sss))) 0) as [H0|H0].
  { destruct (concat sss) eqn:E; [|done]. rewrite pop_end_nil. by eexists _, _, _. }
  set (i := if w =? QUICKLIST_HEAD then 0%nat else (length ns - 1)%nat). assert (length sss ≠ 0)%nat as Hn0. { intros E. apply length_zero_iff_nil in E. by rewrite E in H0. }
  assert ((if w =? QUICKLIST_HEAD then qhead q else if w =? QUICKLIST_TAIL then qtail q else None) = ptr ns i) as ->.
  { destruct (qhead_nth _ _ _ _ Hq) as [Hh Ht]. unfold i. destruct Hw as [-> | ->]; [exact Hh|exact Ht]. }
  destruct (lookup_lt_is_Some_2 ns i) as [[x d] Hi]; [unfold i; case_match; lia|]. unfold ptr. rewrite Hi. cbn [fmap option_fmap option_map fst].
  rewrite (links_data h q ns i x d (qo_links _ _ _ _ Hq) Hi). cbn [mbind option_bind]. destruct (qok_at _ _ _ _ _ _ _ Hq Hi) as (ss & Hs & [Hok _] & _).
  assert (is_raw d) as Hr by (apply (end_raw _ _ _ _ _ _ _ Hq Hi); unfold i; case_match; lia). pose proof (no_ne _ _ Hok) as Hss.
  set (off := if w =? QUICKLIST_HEAD then 0 else -1). set (k := if w =? QUICKLIST_HEAD then 0%nat else (length ss - 1)%nat).
  assert (0 < length ss)%nat as Hpos by (destruct ss; [done|simpl; lia]).
  destruct (node_entry h q ns sss i x d ss off k Hq Hi Hs Hr) as (b & p & s & v & Hb & EI & Hv & Hat & Hk & Hsk & Hvs & Hvn); [unfold off; case_match; lia| |].
  { unfold norm_index, off, k. destruct Hw as [-> | ->]; simpl.
    - by rewrite (proj2 (Z.ltb_lt _ _)) by lia.
    - rewrite andb_true_r, (proj2 (Z.leb_le _ _)) by lia. f_equal. lia. }
  rewrite Hb. cbn [mbind option_bind]. fold off. rewrite EI. cbn [mbind option_bind]. rewrite Hv. cbn [mbind option_bind].
  destruct (del_index_becomes h q ns sss i x d ss b k p Hq Hi Hs Hr Hb Hat Hk) as (h' & q' & gone & -> & Hbec). cbn [mbind option_bind]. eexists _, _, _. split; [done|].
  assert (pop_end w (concat sss) = Some (s, concat (take i sss) ++ cut ss k ++ concat (drop (S i) sss))) as ->; [|split; [by exists v|done]].
  unfold i, k in *. destruct Hw as [-> | ->]; change (QUICKLIST_HEAD =? QUICKLIST_HEAD) with true in *; change (QUICKLIST_TAIL =? QUICKLIST_HEAD) with false in *; cbv iota in *.
  - destruct ss as [|s' ss]; [done|]. injection Hsk as ->. by rewrite (concat_head sss _ s ss Hs eq_refl).
  - destruct (exists_last Hss) as (ss' & s' & ->). rewrite length_app in *. simpl in *. replace (length ss' + 1 - 1)%nat with (length ss') in * by lia.
    rewrite list_lookup_middle in Hsk by done. injection Hsk as ->. rewrite (concat_tail sss _ _ s ss' Hs) by (lia || done). apply pop_end_snoc.
Qed.

(** ** Rotate *)

Lemma entry_string_spec v : (∀ n, v = ZInt n → in_s 64 n) → entry_string v = Some (zval_str v).
Proof.
  intros Hn. destruct v as [s|n]; [done|]. unfold entry_string. specialize (Hn n eq_refl). pose proof (decimal_z_length n). rewrite ll2string_spec by (try done; simpl; lia).
  rewrite decide_True by (rewrite length_replicate; lia). cbn [mbind option_bind]. by rewrite Nat2Z.id, take_app_length.
Qed.

(** The entry at the end of the last node. *)
Lemma last_entry h q ns sss x d ss : qok h q ns sss → last ns = Some (x, d) → last sss = Some ss →
  ∃ b p s v, qtail q = Some x ∧ data h x = Some d ∧ zipl d = Some b ∧ ziplistIndex b (-1) = Some (Some p) ∧ ziplistGet b (Some p) = Some (Some v) ∧
    zl_at b ss (length ss - 1) p ∧ (length ss - 1 < length ss)%nat ∧ last (concat sss) = Some s ∧ zval_str v = s ∧ (∀ n, v = ZInt n → in_s 64 n).
Proof.
  intros Hq Hx Hss. destruct ns as [|u ns _] using rev_ind; [done|]. rewrite last_snoc in Hx. injection Hx as ->. destruct sss as [|u sss _] using rev_ind; [done|]. rewrite last_snoc in Hss. injection Hss as ->.
  pose proof (qok_len _ _ _ _ Hq) as [Hln _]. rewrite !length_app in Hln. simpl in Hln. assert ((ns ++ [(x, d)]) !! length ns = Some (x, d)) as Hi by (by apply list_lookup_middle).
  destruct (qok_at _ _ _ _ _ _ _ Hq Hi) as (ss' & Hs & [Hok _] & _). pose proof Hs as Hs2. rewrite list_lookup_middle in Hs2 by lia. injection Hs2 as <-. pose proof (no_ne _ _ Hok) as Hne.
  assert (is_raw d) as Hr by (apply (end_raw _ _ _ _ _ _ _ Hq Hi); rewrite length_app; simpl; lia). assert (0 < length ss)%nat as Hpos by (destruct ss; [done|simpl; lia]).
  destruct (node_entry h q _ _ _ x d ss (-1) (length ss - 1)%nat Hq Hi Hs Hr) as (b & p & s & v & Hb & EI & Hv & Hat & Hk & Hsk & Hvs & Hvn); [lia| |].
  { unfold norm_index. simpl. rewrite andb_true_r, (proj2 (Z.leb_le _ _)) by lia. f_equal. lia. }
  exists b, p, s, v. destruct (qhead_nth _ _ _ _ Hq) as [_ Ht]. split_and!; try done.
  - rewrite Ht. rewrite <- ptr_last. apply last_or_snoc.
  - by eapply links_data; [apply Hq|].
  - rewrite concat_app. simpl. rewrite app_nil_r, last_app. rewrite (last_lookup ss), <- Nat.sub_1_r, Hsk. done.
Qed.

(** The last string comes first. *)
Definition rotated (L : list (list Z)) : list (list Z) := match pop_end QUICKLIST_TAIL L with None => L | Some (s, L') => s :: L' end.

Lemma del_last_ok h q ns sss x d ss b p : qok h q ns sss → last ns = Some (x, d) → last sss = Some ss → zipl d = Some b → zl_at b ss (length ss - 1) p → 
  ∃ h' q' gone, quicklistDelIndex junk ljunk alloc h q x p = Some (h', q', p, gone) ∧ becomes q (take (length (concat sss) - 1) (concat sss)) h' q'.
Proof.
  intros Hq Hx Hss Hb Hat. rewrite last_lookup, <- Nat.sub_1_r in Hx. rewrite last_lookup, <- Nat.sub_1_r in Hss. pose proof (qok_len _ _ _ _ Hq) as [Hln _].
  rewrite Hln in Hss. pose proof (lookup_lt_Some _ _ _ Hx) as Hlt. destruct (qok_at _ _ _ _ _ _ _ Hq Hx) as (ss' & Hs & [Hok _] & _). rewrite Hs in Hss. injection Hss as ->. pose proof (no_ne _ _ Hok) as Hne.
  destruct (del_index_becomes h q ns sss _ x d ss b (length ss - 1)%nat p Hq Hx Hs) as (h' & q' & gone & E & Hbec); try done; [apply (end_raw _ _ _ _ _ _ _ Hq Hx); lia|destruct ss; [done|simpl; lia]|].
  exists h', q', gone. split; [done|]. destruct (exists_last Hne) as (ss' & s & ->). rewrite length_app in Hbec. simpl in Hbec. rewrite Nat.add_sub in Hbec.
  rewrite (concat_tail sss _ _ s ss' Hs) by (lia || done). rewrite length_app. simpl. by rewrite Nat.add_sub, take_app_length.
Qed.

(** With more than one node: otherwise the pushed string is read from the block that the push changes. *)
Lemma rotate_ok h q ns sss : qok h q ns sss → qlen q ≠ 1 → Forall (λ s, Z.of_nat (length s) ≤ 2 ^ 29) (concat sss) → Z.of_nat (length (concat sss)) + 1 < 2 ^ 48 →
  ∃ h' q', quicklistRotate junk ljunk alloc h q = Some (h', q') ∧ becomes q (rotated (concat sss)) h' q'.
Proof.
  intros Hq Hlen1 Hsz Hsm. unfold quicklistRotate. rewrite (qo_count _ _ _ _ Hq). pose proof (qok_len _ _ _ _ Hq) as [Hln _]. pose proof (nodes_ne _ _ (qo_nodes _ _ _ _ Hq)) as Hne.
  destruct (Z.leb_spec (Z.of_nat (length (concat sss))) 1) as [H0|H0].
  { exists h, q. split; [done|]. split; [|done]. exists ns, sss. split; [done|]. destruct (concat sss) as [|s [|]]; [done|done|simpl in H0; lia]. }
  destruct (last ns) as [[x d]|] eqn:Hx; [|apply last_None in Hx as ->; destruct sss; [simpl in H0; lia|done]].
  destruct (last sss) as [ss|] eqn:Hss; [|apply last_None in Hss as ->; simpl in H0; lia].
  destruct (last_entry h q ns sss x d ss Hq Hx Hss) as (b & p & s & v & Ht & Hd & Hb & EI & Hv & Hat & _ & Hls & Hvs & Hvn). rewrite Ht. cbn [mbind option_bind]. rewrite Hd. cbn [mbind option_bind].
  rewrite Hb. cbn [mbind option_bind]. rewrite EI. cbn [mbind option_bind]. rewrite Hv. cbn [mbind option_bind]. rewrite (entry_string_spec v Hvn), Hvs. cbn [mbind option_bind].
  destruct (qhead_nth _ _ _ _ Hq) as [Hhd Htl]. assert (Z.of_nat (length s) ≤ 2 ^ 29) as Hs29 by (rewrite last_lookup in Hls; apply (Forall_lookup_1 _ _ _ _ Hsz Hls)). destruct (allow_at h q ns sss 0 (Z.of_nat (length s)) Hq) as (al & Eal & _); [lia|].
  rewrite Hhd, Eal. cbn [mbind option_bind]. rewrite (bool_decide_false (ptr ns 0 = Some x)). 2: { rewrite <- Ht, Htl. intros E. apply (ptr_inj h q ns) in E; [|apply Hq|]; rewrite (qo_len _ _ _ _ Hq) in Hlen1; destruct ns; simpl in *; (done || lia). }
  rewrite andb_false_r. cbn [andb].
  destruct (push_head_ok h q ns sss s Hq) as (h1 & q1 & r & ns1 & sss1 & -> & Hq1 & C1 & F1 & F2 & Hlast); [done|done|].
  cbn [mbind option_bind]. rewrite (qo_len _ _ _ _ Hq1). pose proof (qok_len _ _ _ _ Hq1) as [Hln1 _]. pose proof (nodes_ne _ _ (qo_nodes _ _ _ _ Hq1)) as Hne1.
  assert (∃ p' y e b' ss', (if Z.of_nat (length ns1) =? 1 then t ← qtail q1; d ← data h1 t; b ← zipl d; ziplistIndex b (-1) else Some (Some p)) = Some (Some p') ∧
    qtail q1 = Some y ∧ last ns1 = Some (y, e) ∧ last sss1 = Some ss' ∧ zipl e = Some b' ∧ zl_at b' ss' (length ss' - 1) p') as (p' & y & e & b' & ss' & -> & Ht1 & Hy & Hss1 & Hb' & Hat').
  { destruct (last ns1) as [[y e]|] eqn:Hy; [|apply last_None in Hy as ->; by destruct sss1]. destruct (last sss1) as [ss'|] eqn:Hss1; [|apply last_None in Hss1 as ->; done].
    destruct (last_entry h1 q1 ns1 sss1 y e ss' Hq1 Hy Hss1) as (b' & p' & _ & _ & Ht1 & Hd1 & Hb' & EI1 & _ & Hat' & _). rewrite Ht1.
    destruct (Z.eqb_spec (Z.of_nat (length ns1)) 1) as [H1|H1].
    - cbn [mbind option_bind]. rewrite Hd1. cbn [mbind option_bind]. rewrite Hb'. cbn [mbind option_bind]. exists p', y, e, b', ss'. done.
    - destruct (Hlast ltac:(lia) x d b Hx Hb) as (Es & d' & Ey & Hb2). rewrite Hss in Es. injection Es as ->. injection Ey as -> ->. exists p, x, d', b, ss. rewrite Hb2 in Hb'. split_and!; done. }
  cbn [mbind option_bind]. rewrite Ht1. cbn [mbind option_bind].
  destruct (del_last_ok h1 q1 ns1 sss1 y e ss' b' p' Hq1 Hy Hss1 Hb' Hat') as (h2 & q2 & gone & -> & Hbec & F3 & F4). cbn [mbind option_bind]. exists h2, q2. split; [done|]. split; [|split; congruence].
  rewrite C1 in Hbec. simpl in Hbec. rewrite Nat.sub_0_r in Hbec. unfold rotated, pop_end. simpl. rewrite Hls.
  destruct (length (concat sss)) as [|n] eqn:El; [lia|]. simpl in Hbec. by rewrite Nat.sub_1_r.
Qed.
End ops.
