(* ===== verification/QuicklistAccess.v ===== *)
(** * quicklist.c: access by index, and the operations on it *)

From S2P Require Import Prelude Decimal Sds Util Adlist Lzf Ziplist ZiplistRep ZiplistEdit ZiplistQuery ZiplistSpec ZiplistApi Quicklist QuicklistRep QuicklistOps.

Abbreviation size sss := (Z.of_nat (length (concat sss))).

Lemma size_app (a b : list (list (list Z))) : size (a ++ b) = size a + size b.
Proof. rewrite concat_app, length_app. lia. Qed.

Lemma size_cons (ss : list (list Z)) (b : list (list (list Z))) : size (ss :: b) = Z.of_nat (length ss) + size b.
Proof. rewrite concat_cons, length_app. lia. Qed.

Lemma size_split (sss : list (list (list Z))) i ss : sss !! i = Some ss → size sss = size (take i sss) + Z.of_nat (length ss) + size (drop (S i) sss).
Proof. intros Hi. rewrite (split_at sss i ss Hi) at 1. rewrite size_app, size_cons. lia. Qed.

Lemma size_take_S (sss : list (list (list Z))) i ss : sss !! i = Some ss → size (take (S i) sss) = size (take i sss) + Z.of_nat (length ss).
Proof. intros Hi. rewrite (take_S_r _ _ ss Hi), size_app, size_cons. simpl. lia. Qed.

Lemma size_drop (sss : list (list (list Z))) i ss : sss !! i = Some ss → size (drop i sss) = Z.of_nat (length ss) + size (drop (S i) sss).
Proof. intros Hi. by rewrite (drop_S _ ss _ Hi), size_cons. Qed.

(** ** The node of an index *)

Lemma node_loop_forward h q ns sss index : qok h q ns sss → 0 ≤ index < size sss → ∀ f j, (length ns ≤ f + j)%nat → size (take j sss) ≤ index →
  ∃ i x d ss, node_loop f h true (ptr ns j) (size (take j sss)) index = Some (Some x, size (take i sss)) ∧
    ns !! i = Some (x, d) ∧ sss !! i = Some ss ∧ size (take i sss) ≤ index < size (take i sss) + Z.of_nat (length ss).
Proof.
  intros Hq Hidx f. pose proof (qo_small _ _ _ _ Hq) as Hsm. destruct (qok_len _ _ _ _ Hq) as [Hln _]. induction f as [|f IH]; intros j Hf Hj.
  { rewrite take_ge in Hj by lia. lia. }
  destruct (decide (j < length ns)%nat) as [Hlt|Hge]; [|rewrite take_ge in Hj by lia; lia]. destruct (lookup_lt_is_Some_2 ns j Hlt) as [[x d] Hx].
  destruct (qok_at _ _ _ _ _ _ _ Hq Hx) as (ss & Hs & [Hok Hc] & _). assert (ptr ns j = Some x) as -> by (unfold ptr; by rewrite Hx). cbn [node_loop].
  rewrite (links_lookup h q ns j x d (qo_links _ _ _ _ Hq) Hx). cbn [mbind option_bind value next]. rewrite Hc. pose proof (size_split sss j ss Hs). pose proof (size_take_S sss j ss Hs) as ES.
  rewrite uwrap_small by (unfold in_u; lia). destruct (Z.ltb_spec index (size (take j sss) + Z.of_nat (length ss))).
  - exists j, x, d, ss. split_and!; (done || lia).
  - rewrite <- ES. apply IH; lia.
Qed.

Lemma node_loop_backward h q ns sss index : qok h q ns sss → 0 ≤ index < size sss → ∀ f j, (j < length ns)%nat → (j < f)%nat → size (drop (S j) sss) ≤ index →
  ∃ i x d ss, node_loop f h false (ptr ns j) (size (drop (S j) sss)) index = Some (Some x, size (drop (S i) sss)) ∧
    ns !! i = Some (x, d) ∧ sss !! i = Some ss ∧ size (drop (S i) sss) ≤ index < size (drop (S i) sss) + Z.of_nat (length ss).
Proof.
  intros Hq Hidx f. pose proof (qo_small _ _ _ _ Hq) as Hsm. destruct (qok_len _ _ _ _ Hq) as [Hln _]. induction f as [|f IH]; intros j Hlt Hf Hj; [lia|].
  destruct (lookup_lt_is_Some_2 ns j Hlt) as [[x d] Hx]. destruct (qok_at _ _ _ _ _ _ _ Hq Hx) as (ss & Hs & [Hok Hc] & _). assert (ptr ns j = Some x) as -> by (unfold ptr; by rewrite Hx). cbn [node_loop].
  rewrite (links_lookup h q ns j x d (qo_links _ _ _ _ Hq) Hx). cbn [mbind option_bind value next prev]. rewrite Hc. pose proof (size_split sss j ss Hs). pose proof (size_drop sss j ss Hs) as ES.
  rewrite uwrap_small by (unfold in_u; lia). destruct (Z.ltb_spec index (size (drop (S j) sss) + Z.of_nat (length ss))) as [?|Hge].
  - exists j, x, d, ss. split_and!; (done || lia).
  - destruct j as [|j].
    + rewrite drop_0 in ES. lia.
    + rewrite bool_decide_false by lia. replace (S j - 1)%nat with j by lia. replace (size (drop (S (S j)) sss) + Z.of_nat (length ss)) with (size (drop (S j) sss)) by lia. apply IH; lia.
Qed.

Lemma fst_insert (ns : list (positive * qdata)) i x d d' : ns !! i = Some (x, d) → (<[i := (x, d')]> ns).*1 = ns.*1.
Proof. intros Hi. rewrite list_fmap_insert. apply list_insert_id. by rewrite list_lookup_fmap, Hi. Qed.

Lemma s32_u64 z : - 2 ^ 31 ≤ z < 2 ^ 31 → s32 (u64 z) = z.
Proof. intros Hz. unfold s32, u64, swrap, uwrap. rewrite <- Zplus_mod_idemp_l, <- Znumtheory.Zmod_div_mod by (lia || by exists (2 ^ 32)). rewrite Zplus_mod_idemp_l, Z.mod_small; lia. Qed.

Section access.
Context (ljunk : Z → Z) (alloc : nat → list Z) (Halloc : ∀ n, length (alloc n) = n).

Lemma for_use_at h q ns i x d ss : links h q ns → ns !! i = Some (x, d) → node_holds d ss →
  ∃ h' d', quicklistDecompressNodeForUse alloc h x = Some h' ∧ links h' q (<[i := (x, d')]> ns) ∧ node_holds d' ss ∧ is_raw d' ∧ count d' = count d ∧ data h' x = Some d' ∧
    (is_raw d → h' = h ∧ d' = d) ∧ frame h h' ns.
Proof.
  intros Hl Hi Hok. pose proof (links_data h q ns i x d Hl Hi) as Hd. pose proof (lookup_lt_Some _ _ _ Hi) as Hlt.
  unfold quicklistDecompressNodeForUse. rewrite Hd. cbn [mbind option_bind]. destruct (Z.eqb_spec (qenc d) ENCODING_LZF) as [Er|Er].
  2: { exists h, d. rewrite (list_insert_id ns i) by done. split_and!; try done. destruct (node_enc d ss Hok); done. }
  pose proof Hl as Hl0. rewrite <- (take_drop_middle ns i (x, d) Hi) in Hl0. destruct (decompress_node_spec alloc Halloc h q _ x d _ ss Hl0 Hok) as (h1 & d1 & E1 & Hl1 & Hs & Hr1 & _ & _ & Hf).
  unfold quicklistDecompressNode in E1. rewrite Hd in E1. cbn [mbind option_bind] in E1. rewrite (proj2 (Z.eqb_eq _ _) Er) in E1. destruct (__quicklistDecompressNode alloc h x) as [[h1' r]|]; [|done].
  cbn [mbind option_bind] in *. injection E1 as ->. rewrite <- (insert_take_drop ns i (x, d1)) in Hl1 by done.
  assert (<[i := (x, d1)]> ns !! i = Some (x, d1)) as Hi1 by (by apply list_lookup_insert_eq). rewrite (links_data h1 q _ i x d1 Hl1 Hi1). cbn [mbind option_bind].
  destruct (set_data_at h1 q _ i x d1 (set_recompress d1 true) Hl1 Hi1) as (h2 & -> & Hl2 & Hf2). rewrite list_insert_insert_eq in Hl2. exists h2, (set_recompress d1 true). split; [done|]. split; [done|].
  split_and!; try done.
  - destruct (same_node_holds d d1 ss Hs Hok) as [H1 H2 H3 H4]. by constructor.
  - simpl. apply Hs.
  - eapply links_data; [exact Hl2|]. by apply list_lookup_insert_eq.
  - intros Hr. by rewrite Hr in Er.
  - destruct Hf as [D1 F1], Hf2 as [D2 F2]. split; [congruence|]. intros y Hy. assert (y ≠ x) as Hne. { intros ->. apply Hy, list_elem_of_fmap. exists (x, d). split; [done|]. by eapply list_elem_of_lookup_2. }
    rewrite F2, F1; [done|set_solver|]. by rewrite (fst_insert ns i x d d1 Hi).
Qed.

(** Entry [k] of the node [i], whose strings are [ss], is string [m] of the list. *)
Definition entry_at (ns : list (positive * qdata)) (sss : list (list (list Z))) (m : nat) (e : quicklistEntry) : Prop :=
  ∃ i x d ss b k p v, ns !! i = Some (x, d) ∧ sss !! i = Some ss ∧ is_raw d ∧ zipl d = Some b ∧ zl_at b ss k p ∧ (k < length ss)%nat ∧ m = (length (concat (take i sss)) + k)%nat ∧
    ss !! k = Some (zval_str v) ∧ (∀ n, v = ZInt n → in_s 64 n) ∧ norm_index (length ss) (eoffset e) = Some k ∧
    enode e = Some x ∧ ezi e = Some p ∧ evalue e = Some v.

Lemma entry_lookup ns sss m e : entry_at ns sss m e → ∃ v, evalue e = Some v ∧ concat sss !! m = Some (zval_str v).
Proof.
  intros (i & x & d & ss & b & k & p & v & _ & Hs & _ & _ & _ & Hk & -> & Hv & _ & _ & _ & _ & E). exists v. split; [done|].
  destruct (concat_insert sss i ss [] Hs) as [-> _]. rewrite lookup_app_r by lia. rewrite lookup_app_l by lia. rewrite <- Hv. f_equal. lia.
Qed.

(** The list the way an access by index leaves it: a compressed node may have been decompressed for it. *)
Definition accessed (h : qstore) (q : quicklist) (ns : list (positive * qdata)) (sss : list (list (list Z))) (h' : qstore) (ns' : list (positive * qdata)) : Prop :=
  links h' q ns' ∧ Forall2 (λ nd, node_ok nd.2) ns' sss ∧ frame h h' ns ∧ ns'.*1 = ns.*1 ∧ (compress q = 0 → h' = h ∧ ns' = ns).

Lemma accessed_refl h q ns sss : qok h q ns sss → accessed h q ns sss h ns.
Proof. intros []. split_and!; try done. Qed.

Lemma plain_raw h q ns sss i x d : qok h q ns sss → compress q = 0 → ns !! i = Some (x, d) → is_raw d.
Proof.
  intros Hq Hc Hi. destruct (qo_settled _ _ _ _ Hq) as (_ & H & _). apply (H ltac:(by left) i x d Hi). left. by eapply lookup_lt_Some.
Qed.

(** The last part of [quicklistIndex], for entry [k] of node [i]. *)
Lemma access_entry h q ns sss i x d ss off k : qok h q ns sss → ns !! i = Some (x, d) → sss !! i = Some ss → - 2 ^ 31 < off → norm_index (length ss) off = Some k →
  ∃ h' ns' e, (h ← quicklistDecompressNodeForUse alloc h x; d ← data h x; b ← zipl d; zi ← ziplistIndex b off; v ← ziplistGet b zi; Some (h, Some (QEntry (Some x) zi v off))) = Some (h', Some e) ∧
    eoffset e = off ∧ entry_at ns' sss (length (concat (take i sss)) + k) e ∧ accessed h q ns sss h' ns'.
Proof.
  intros Hq Hi Hs Ho Hk. destruct (qok_at _ _ _ _ _ _ _ Hq Hi) as (ss' & Hs' & [Hok Hc] & _). rewrite Hs in Hs'. injection Hs' as <-. pose proof (lookup_lt_Some _ _ _ Hi) as Hlt.
  destruct (for_use_at h q ns i x d ss (qo_links _ _ _ _ Hq) Hi Hok) as (h1 & d1 & -> & Hl1 & Hok1 & Hr1 & Hc1 & Hd1 & Hid & Hf). cbn [mbind option_bind]. rewrite Hd1. cbn [mbind option_bind].
  destruct (node_raw d1 ss Hok1 Hr1) as (b & Hb & Hbl & _). rewrite Hb. cbn [mbind option_bind]. destruct (index_holds b ss off Hbl Ho) as (r & -> & Hr'). rewrite Hk in Hr'. destruct Hr' as (p & -> & Hat). cbn [mbind option_bind].
  pose proof (norm_index_lt _ _ _ Hk) as Hlk. destruct (lookup_lt_is_Some_2 ss k Hlk) as [s Hsk]. destruct (get_at b ss k p s Hat Hsk) as (v & -> & Hvs & Hvn). cbn [mbind option_bind].
  eexists h1, (<[i := (x, d1)]> ns), _. split; [done|]. split; [done|]. split.
  - exists i, x, d1, ss, b, k, p, v. rewrite list_lookup_insert_eq by done. rewrite Hvs. split_and!; done.
  - split_and!; try done.
    + rewrite <- (list_insert_id sss i ss Hs). apply Forall2_insert; [apply Hq|]. split; [done|]. simpl. congruence.
    + by apply (fst_insert ns i x d).
    + intros H0. destruct (Hid (plain_raw _ _ _ _ _ _ _ Hq H0 Hi)) as [-> ->]. split; [done|]. by apply list_insert_id.
Qed.

Lemma norm_index_range n i : norm_index n i = None ↔ Z.of_nat n ≤ (if i <? 0 then - i - 1 else i).
Proof.
  unfold norm_index. destruct (Z.ltb_spec i 0), (Z.leb_spec 0 i), (Z.ltb_spec i (Z.of_nat n)), (Z.leb_spec (- Z.of_nat n) i); simpl; split; intros H'; try done; try lia.
Qed.

Lemma norm_index_inv n i k : norm_index n i = Some k → i = if 0 <=? i then Z.of_nat k else Z.of_nat k - Z.of_nat n.
Proof.
  unfold norm_index. destruct (Z.leb_spec 0 i); cbn [andb]; [destruct (Z.ltb_spec i (Z.of_nat n))|]; cbn [andb]; try (intros [= <-]; lia); destruct (Z.leb_spec (- Z.of_nat n) i), (Z.ltb_spec i 0); cbn [andb]; try done; intros [= <-]; lia.
Qed.

Lemma index_ok h q ns sss idx : qok h q ns sss → - 2 ^ 63 < idx < 2 ^ 63 →
  match norm_index (length (concat sss)) idx with
  | None => quicklistIndex alloc h q idx = Some (h, None)
  | Some m => ∃ h' ns' e, quicklistIndex alloc h q idx = Some (h', Some e) ∧ entry_at ns' sss m e ∧ (0 ≤ idx ↔ 0 ≤ eoffset e) ∧ accessed h q ns sss h' ns'
  end.
Proof.
  intros Hq Hidx. unfold quicklistIndex. rewrite (proj2 (Z.eqb_neq idx (- 2 ^ 63))) by lia. rewrite (qo_count _ _ _ _ Hq). pose proof (qo_small _ _ _ _ Hq) as Hsm. destruct (qok_len _ _ _ _ Hq) as [Hln _].
  set (index := if negb (idx <? 0) then idx else - idx - 1). pose proof (norm_index_range (length (concat sss)) idx) as Hni.
  assert ((if idx <? 0 then - idx - 1 else idx) = index) as Ei by (unfold index; by destruct (idx <? 0)). rewrite Ei in Hni. destruct (Z.leb_spec (size sss) index) as [Hle|Hgt].
  { by rewrite (proj2 Hni Hle). }
  destruct (norm_index (length (concat sss)) idx) as [m|] eqn:Em; [|pose proof (proj1 Hni eq_refl); lia]. rewrite (qo_len _ _ _ _ Hq), Nat2Z.id. destruct (qhead_nth _ _ _ _ Hq) as [-> ->].
  assert (length ns ≠ 0)%nat as Hn0. { intros E. rewrite E in Hln. apply length_zero_iff_nil in Hln. rewrite Hln in Hgt. simpl in Hgt. unfold index in Hgt. destruct (Z.ltb_spec idx 0); simpl in Hgt; lia. }
  unfold norm_index in Em. destruct (Z.ltb_spec idx 0) as [Hneg|Hpos]; simpl negb in *; cbv iota in *.
  - destruct (node_loop_backward h q ns sss index Hq ltac:(unfold index; lia) (length ns) (length ns - 1)) as (i & x & d & ss & E & Hi & Hs & Hb); [lia|lia|rewrite drop_ge by lia; simpl; unfold index; lia|].
    rewrite drop_ge in E by lia. change (size []) with 0 in E. rewrite E. cbn [mbind option_bind]. pose proof (size_split sss i ss Hs) as Hsp. destruct (qok_at _ _ _ _ _ _ _ Hq Hi) as (ss' & Hs' & [Hok _] & _). rewrite Hs in Hs'. injection Hs' as <-.
    pose proof (no_small _ _ Hok). rewrite s32_u64 by lia. set (off := - index - 1 + _).
    destruct (access_entry h q ns sss i x d ss off (Z.to_nat (Z.of_nat (length ss) + off))%nat Hq Hi Hs) as (h' & ns' & e & -> & Eo & He & Hacc); [lia| |].
    { unfold norm_index. rewrite (proj2 (Z.leb_gt 0 off)), (proj2 (Z.leb_le _ off)), (proj2 (Z.ltb_lt off 0)) by lia. done. }
    exists h', ns', e. split_and!; try done; [|lia]. rewrite (proj2 (Z.leb_gt 0 idx)), (proj2 (Z.leb_le _ idx)) in Em by lia. injection Em as <-. match goal with |- entry_at _ _ ?a _ => match type of He with entry_at _ _ ?b _ => replace a with b; [done|lia] end end.
  - destruct (node_loop_forward h q ns sss index Hq ltac:(unfold index; lia) (length ns) 0) as (i & x & d & ss & E & Hi & Hs & Hb); [lia|simpl; unfold index; lia|].
    change (size (take 0 sss)) with 0 in E. rewrite E. cbn [mbind option_bind]. pose proof (size_split sss i ss Hs) as Hsp. destruct (qok_at _ _ _ _ _ _ _ Hq Hi) as (ss' & Hs' & [Hok _] & _). rewrite Hs in Hs'. injection Hs' as <-.
    pose proof (no_small _ _ Hok). rewrite s32_u64 by lia. set (off := index - _).
    destruct (access_entry h q ns sss i x d ss off (Z.to_nat off) Hq Hi Hs) as (h' & ns' & e & -> & Eo & He & Hacc); [lia| |].
    { unfold norm_index. rewrite (proj2 (Z.leb_le 0 off)), (proj2 (Z.ltb_lt off _)) by lia. done. }
    exists h', ns', e. split_and!; try done; [|lia]. rewrite (proj2 (Z.leb_le 0 idx)), (proj2 (Z.ltb_lt idx _)) in Em by lia. injection Em as <-. match goal with |- entry_at _ _ ?a _ => match type of He with entry_at _ _ ?b _ => replace a with b; [done|lia] end end.
Qed.

(** ** Lists without compression *)

Lemma plain_compress h q x d : compress q = 0 → data h x = Some d → recompress d = false → quicklistCompress ljunk alloc h q x = Some h.
Proof. intros Hc Hd Hf. unfold quicklistCompress. rewrite Hd. cbn [mbind option_bind]. rewrite Hf. unfold __quicklistCompress. by rewrite Hc. Qed.

Lemma plain_recompress h x d : data h x = Some d → recompress d = false → quicklistRecompressOnly ljunk alloc h x = Some h.
Proof. intros Hd Hf. unfold quicklistRecompressOnly. rewrite Hd. cbn [mbind option_bind]. by rewrite Hf. Qed.

Lemma total_sub sss i ss : sss !! i = Some ss → total ss ≤ total (concat sss).
Proof.
  intros Hi. destruct (concat_insert sss i ss [] Hi) as [-> _]. rewrite !total_app. pose proof (total_nonneg (concat (take i sss))). pose proof (total_nonneg (concat (drop (S i) sss))). lia.
Qed.

Lemma insert_concat (sss : list (list (list Z))) i ss k v : sss !! i = Some ss → (k < length ss)%nat →
  concat (<[i := <[k := v]> ss]> sss) = <[(length (concat (take i sss)) + k)%nat := v]> (concat sss).
Proof.
  intros Hs Hk. destruct (concat_insert sss i ss (<[k := v]> ss) Hs) as [-> ->]. rewrite insert_app_r. by rewrite insert_app_l by lia.
Qed.

Lemma replace_ok (junk : Z) h q ns sss idx v : qok h q ns sss → compress q = 0 → - 2 ^ 63 < idx < 2 ^ 63 → total (concat sss) + Z.of_nat (length v) + 18 ≤ 2 ^ 30 →
  match norm_index (length (concat sss)) idx with
  | None => quicklistReplaceAtIndex junk ljunk alloc h q idx v = Some (h, false)
  | Some m => ∃ h', quicklistReplaceAtIndex junk ljunk alloc h q idx v = Some (h', true) ∧ becomes q (<[m := v]> (concat sss)) h' q
  end.
Proof.
  intros Hq Hc Hidx Ht. unfold quicklistReplaceAtIndex. pose proof (index_ok h q ns sss idx Hq Hidx) as Hix. destruct (norm_index _ idx) as [m|]; [|by rewrite Hix].
  destruct Hix as (h0 & ns0 & e & -> & He & _ & (_ & _ & _ & _ & Hpl)). destruct (Hpl Hc) as [-> ->]. cbn [mbind option_bind].
  destruct He as (i & x & d & ss & b & k & p & w & Hi & Hs & Hr & Hb & Hat & Hk & -> & _ & _ & _ & -> & -> & _). cbn [mbind option_bind].
  destruct (qok_at _ _ _ _ _ _ _ Hq Hi) as (ss' & Hs' & [Hok Hcnt] & Hfl). rewrite Hs in Hs'. injection Hs' as <-.
  rewrite (links_data h q ns i x d (qo_links _ _ _ _ Hq) Hi). cbn [mbind option_bind]. rewrite Hb. cbn [mbind option_bind]. pose proof (total_sub sss i ss Hs) as Hts. pose proof (cut_total ss k Hk) as Hct.
  pose proof (no_total _ _ Hok). pose proof (total_nonneg ss). destruct (delete_holds junk b ss k p Hat Hk) as (b1 & -> & Hat1); [lia|]. cbn [mbind option_bind]. fold (cut ss k) in Hat1.
  destruct (insert_holds junk b1 (cut ss k) k p v Hat1) as (b2 & -> & Hb2); [lia|lia|]. cbn [mbind option_bind].
  assert (take k (cut ss k) ++ v :: drop k (cut ss k) = <[k := v]> ss) as Ev.
  { unfold cut. rewrite take_app_le, drop_app_ge, length_take, Nat.min_l, Nat.sub_diag, drop_0, take_take, Nat.min_id by (rewrite ?length_take; lia). by rewrite insert_take_drop. }
  rewrite Ev in Hb2. destruct (store_zl_at h q ns i x d b2 _ (qo_links _ _ _ _ Hq) Hi Hb2) as (h2 & -> & Hl2 & _). cbn [mbind option_bind]. set (d2 := QData _ _ _ _ _) in Hl2. pose proof (lookup_lt_Some _ _ _ Hi) as Hlt.
  assert (data h2 x = Some d2) as Hd2 by (by eapply (links_data h2 q _ i); [|apply list_lookup_insert_eq]). rewrite (plain_compress h2 q x d2 Hc Hd2) by done. cbn [mbind option_bind]. exists h2. split; [done|]. split; [|done].
  exists (<[i := (x, d2)]> ns), (<[i := <[k := v]> ss]> sss). split; [|by apply insert_concat]. 
  assert (length (concat (<[i := <[k := v]> ss]> sss)) = length (concat sss)) as El by (by rewrite insert_concat, length_insert).
  replace q with (set_qcount q (size (<[i := <[k := v]> ss]> sss))) at 1. 2: { rewrite El, <- (qo_count _ _ _ _ Hq). by destruct q. }
  eapply qok_update; try done; [|rewrite El; apply Hq]. split; [|simpl; by rewrite length_insert]. unfold d2. rewrite Hr. apply raw_holds; try done.
  - intros E. apply (f_equal length) in E. rewrite length_insert in E. simpl in E. lia.
  - rewrite insert_take_drop by done. unfold cut in Hct. rewrite total_app in *. simpl. lia.
  - rewrite length_insert. apply Hok.
Qed.
End access.
