(* ===== verification/QuicklistIter.v ===== *)
(** * quicklist.c: iterators

    Iteration does not depend on which nodes are compressed: the lemmas hold for
    [qrep], the links and contents of a list without what pushes and pops need
    to know about its ends. *)

From S2P Require Import Prelude Decimal Sds Util Adlist Lzf Ziplist ZiplistRep ZiplistEdit ZiplistQuery ZiplistSpec ZiplistApi Quicklist QuicklistRep QuicklistOps QuicklistAccess.

Record qrep (h : qstore) (q : quicklist) (ns : list (positive * qdata)) (sss : list (list (list Z))) : Prop := {
  qr_links : links h q ns;
  qr_nodes : Forall2 (λ nd, node_ok nd.2) ns sss;
  qr_len : qlen q = Z.of_nat (length ns);
  qr_compress : 0 ≤ compress q
}.

Lemma qok_rep h q ns sss : qok h q ns sss → qrep h q ns sss.
Proof. intros []. by constructor. Qed.

Lemma accessed_rep h q ns sss h' ns' : qok h q ns sss → accessed h q ns sss h' ns' → qrep h' q ns' sss.
Proof.
  intros Hq (Hl & Hn & _ & E & _). constructor; try done; [|apply Hq]. rewrite (qo_len _ _ _ _ Hq). by rewrite <- (length_fmap fst ns), <- E, length_fmap.
Qed.

(** Without compression nothing changes. *)
Definition plain (q : quicklist) (ns : list (positive * qdata)) : Prop := compress q = 0 ∧ Forall (λ nd, is_raw nd.2 ∧ recompress nd.2 = false) ns.

(** The nodes are the same ones, no other node changes. *)
Definition kept (q : quicklist) (h : qstore) (ns : list (positive * qdata)) (h' : qstore) (ns' : list (positive * qdata)) : Prop :=
  ns'.*1 = ns.*1 ∧ frame h h' ns ∧ (plain q ns → h' = h ∧ ns' = ns).

Lemma kept_refl q h ns : kept q h ns h ns.
Proof. by split_and!. Qed.

Lemma kept_trans q h1 ns1 h2 ns2 h3 ns3 : kept q h1 ns1 h2 ns2 → kept q h2 ns2 h3 ns3 → kept q h1 ns1 h3 ns3.
Proof.
  intros (E1 & F1 & P1) (E2 & F2 & P2). split; [congruence|]. split; [by eapply frame_trans|]. intros Hp. destruct (P1 Hp) as [-> ->]. by apply P2.
Qed.

Lemma qok_plain h q ns sss : qok h q ns sss → compress q = 0 → plain q ns.
Proof.
  intros Hq Hc. split; [done|]. apply Forall_lookup. intros i [x d] Hi. split; [by apply (plain_raw _ _ _ _ _ _ _ Hq Hc Hi)|]. by destruct (qok_at _ _ _ _ _ _ _ Hq Hi) as (_ & _ & _ & ?).
Qed.

#[local] Hint Resolve kept_refl kept_trans : core.

(** What an iterator has yet to visit in a node and after it. *)
Definition rest (f : bool) (ss : list (list Z)) (k : nat) : list (list Z) := if f then drop k ss else reverse (take k ss).
Definition rest_nodes (f : bool) (sss : list (list (list Z))) (i : nat) : list (list Z) := if f then concat (drop (S i) sss) else reverse (concat (take i sss)).

(** The offset that an iterator has for entry [k] of [n], counted from the end when it goes backwards. *)
Definition offset_of (f : bool) (n : nat) (k : Z) : Z := if f then k else k - Z.of_nat n.

(** [k] entries of the node are before the iterator. *)
Inductive it_rem (ns : list (positive * qdata)) (sss : list (list (list Z))) (it : quicklistIter) : list (list Z) → Prop :=
| it_end : current it = None → it_rem ns sss it []
| it_fresh i x d ss k : ns !! i = Some (x, d) → sss !! i = Some ss → current it = Some x → izi it = None → (k ≤ length ss)%nat →
    ioffset it = offset_of (fwd it) (length ss) (if fwd it then Z.of_nat k else Z.of_nat k - 1) →
    it_rem ns sss it (rest (fwd it) ss k ++ rest_nodes (fwd it) sss i)
| it_mid i x d ss b k p : ns !! i = Some (x, d) → sss !! i = Some ss → current it = Some x → izi it = Some p → is_raw d → zipl d = Some b → zl_at b ss k p → (k < length ss)%nat →
    ioffset it = offset_of (fwd it) (length ss) (Z.of_nat k) →
    it_rem ns sss it (rest (fwd it) ss (if fwd it then S k else k) ++ rest_nodes (fwd it) sss i).

Section iter.
Context (ljunk : Z → Z) (alloc : nat → list Z) (Halloc : ∀ n, length (alloc n) = n).

Lemma qrep_at h q ns sss i x d ss : qrep h q ns sss → ns !! i = Some (x, d) → sss !! i = Some ss → node_holds d ss ∧ data h x = Some d.
Proof.
  intros Hq Hi Hs. destruct (Forall2_lookup_lr _ _ _ _ _ _ (qr_nodes _ _ _ _ Hq) Hi Hs) as [Hok _]. split; [done|]. by eapply links_data; [apply Hq|].
Qed.

Lemma compress_rep h q ns sss i x d : qrep h q ns sss → ns !! i = Some (x, d) →
  ∃ h' ns', quicklistCompress ljunk alloc h q x = Some h' ∧ qrep h' q ns' sss ∧ ns'.*1 = ns.*1 ∧ kept q h ns h' ns'.
Proof.
  intros Hq Hi. unfold quicklistCompress. rewrite (links_data h q ns i x d (qr_links _ _ _ _ Hq) Hi). cbn [mbind option_bind]. pose proof (ok_hold _ _ (qr_nodes _ _ _ _ Hq)) as Hh.
  assert (x ∈ ns.*1) as Hx by (apply (ptr_in ns i); unfold ptr; by rewrite Hi).
  assert (∀ h' ns', links h' q ns' → same_nodes ns ns' → qrep h' q ns' sss) as Hrep.
  { intros h' ns' Hl Hs. constructor; [done|by eapply same_nodes_node_ok, Hq|rewrite (same_nodes_length _ _ Hs); apply Hq|apply Hq]. }
  destruct (recompress d) eqn:Efl.
  - destruct (compress_at ljunk alloc Halloc h q ns sss (Some x) (qr_links _ _ _ _ Hq) Hh) as (h' & ns' & E & Hl & Hs & Hf & _); [by intros ? [= <-]|].
    exists h', ns'. split_and!; [done|by apply Hrep|by apply same_nodes_fst|]. split; [by apply same_nodes_fst|]. split; [done|]. intros [_ Hpl]. destruct (Forall_lookup_1 _ _ _ _ Hpl Hi) as [_ E0]. simpl in E0. congruence.
  - destruct (q_compress_spec ljunk alloc Halloc h q ns sss (Some x) (qr_links _ _ _ _ Hq) Hh) as (h' & ns' & E & Hl & Hs & Hf & Hid); [apply Hq|by intros ? [= <-]|rewrite (qr_len _ _ _ _ Hq); lia|].
    exists h', ns'. split_and!; [done|by apply Hrep|by apply same_nodes_fst|]. split; [by apply same_nodes_fst|]. split; [done|]. intros [Hc _]. unfold idle in Hid. rewrite Hc in Hid. done.
Qed.

(** The iterator leaves node [i]. *)
Definition moved (f : bool) (nd : quicklistNode) : quicklistIter := if f then QIter (next nd) None 0 true else QIter (prev nd) None (-1) false.

Lemma leave_node h q ns sss i x d f : qrep h q ns sss → ns !! i = Some (x, d) →
  ∃ h' ns' nd, quicklistCompress ljunk alloc h q x = Some h' ∧ h' !! x = Some nd ∧ qrep h' q ns' sss ∧ ns'.*1 = ns.*1 ∧ kept q h ns h' ns' ∧
    it_rem ns' sss (moved f nd) (rest_nodes f sss i).
Proof.
  intros Hq Hi. destruct (compress_rep h q ns sss i x d Hq Hi) as (h' & ns' & -> & Hq' & Ef & Hfr). pose proof (f_equal (λ l, l !! i) Ef) as Hi'. simpl in Hi'. rewrite !list_lookup_fmap, Hi in Hi'.
  destruct (ns' !! i) as [[x' d']|] eqn:Hx'; [|done]. injection Hi' as ->. pose proof (links_lookup h' q ns' i x d' (qr_links _ _ _ _ Hq') Hx') as Hnd.
  eexists h', ns', _. split; [done|]. split; [exact Hnd|]. split_and!; try done. pose proof (Forall2_length _ _ _ (qr_nodes _ _ _ _ Hq')) as Hln. pose proof (lookup_lt_Some _ _ _ Hx') as Hlt. destruct f; unfold moved, rest_nodes; cbn [next prev].
  - destruct (ns' !! S i) as [[y e]|] eqn:Hy.
    + destruct (Forall2_lookup_l _ _ _ _ _ (qr_nodes _ _ _ _ Hq') Hy) as (ss & Hs & _). assert (ptr ns' (S i) = Some y) as -> by (unfold ptr; by rewrite Hy). rewrite (drop_S _ ss _ Hs).
      eapply (it_fresh ns' sss (QIter (Some y) None 0 true) (S i) y e ss 0); (done || simpl; lia).
    + assert (ptr ns' (S i) = None) as -> by (unfold ptr; by rewrite Hy). apply lookup_ge_None in Hy. rewrite drop_ge by lia. by apply it_end.
  - destruct i as [|i]; [by apply it_end|]. rewrite bool_decide_false by lia. replace (S i - 1)%nat with i by lia. destruct (lookup_lt_is_Some_2 ns' i ltac:(lia)) as [[y e] Hy].
    destruct (Forall2_lookup_l _ _ _ _ _ (qr_nodes _ _ _ _ Hq') Hy) as (ss & Hs & _). assert (ptr ns' i = Some y) as -> by (unfold ptr; by rewrite Hy). rewrite (take_S_r _ _ ss Hs), concat_app, reverse_app. simpl. rewrite app_nil_r.
    rewrite <- (take_ge ss (length ss)) at 1 by lia. eapply (it_fresh ns' sss (QIter (Some y) None (-1) false) i y e ss (length ss)); (done || simpl; lia).
Qed.

(** The entry that the iterator comes to. *)
Definition yields (ns : list (positive * qdata)) (sss : list (list (list Z))) (it : quicklistIter) (e : quicklistEntry) (s : list Z) : Prop :=
  ∃ i x d ss b k p v, ns !! i = Some (x, d) ∧ sss !! i = Some ss ∧ is_raw d ∧ zipl d = Some b ∧ zl_at b ss k p ∧ (k < length ss)%nat ∧ ss !! k = Some s ∧
    zval_str v = s ∧ (∀ n, v = ZInt n → in_s 64 n) ∧ eoffset e = offset_of (fwd it) (length ss) (Z.of_nat k) ∧
    e = QEntry (Some x) (Some p) (Some v) (eoffset e) ∧ it = QIter (Some x) (Some p) (eoffset e) (fwd it).

Lemma rest_cons f ss k s : ss !! k = Some s → rest f ss (if f then k else S k) = s :: rest f ss (if f then S k else k).
Proof. intros Hs. destruct f; simpl; [by apply drop_S|]. by rewrite (take_S_r _ _ _ Hs), reverse_snoc. Qed.

Lemma yields_rem ns sss it e s : yields ns sss it e s → ∃ i ss k, sss !! i = Some ss ∧ ss !! k = Some s ∧ it_rem ns sss it (rest (fwd it) ss (if fwd it then S k else k) ++ rest_nodes (fwd it) sss i).
Proof.
  intros (i & x & d & ss & b & k & p & v & Hi & Hs & Hr & Hb & Hat & Hk & Hsk & _ & _ & Ho & _ & Hit). exists i, ss, k. split_and!; try done.
  eapply it_mid; try done; rewrite Hit; simpl; done.
Qed.

(** The iterator stands at entry [j] of node [i]: the rest of [quicklistNext]. *)
Lemma deliver h q ns sss i x d ss b j p f : qrep h q ns sss → ns !! i = Some (x, d) → sss !! i = Some ss → is_raw d → zipl d = Some b → zl_at b ss j p → (j < length ss)%nat →
  ∃ s v, data h x = Some d ∧ ziplistGet b (Some p) = Some (Some v) ∧ ss !! j = Some s ∧
    let off := offset_of f (length ss) (Z.of_nat j) in yields ns sss (QIter (Some x) (Some p) off f) (QEntry (Some x) (Some p) (Some v) off) s.
Proof.
  intros Hq Hi Hs Hr Hb Hat Hj. destruct (qrep_at _ _ _ _ _ _ _ _ Hq Hi Hs) as [Hok Hd]. destruct (lookup_lt_is_Some_2 ss j Hj) as [s Hsj]. destruct (get_at b ss j p s Hat Hsj) as (v & Hv & Hvs & Hvn).
  exists s, v. split_and!; try done. exists i, x, d, ss, b, j, p, v. split_and!; done.
Qed.

Lemma use_rep h q ns sss i x d ss : qrep h q ns sss → ns !! i = Some (x, d) → sss !! i = Some ss →
  ∃ h' d', quicklistDecompressNodeForUse alloc h x = Some h' ∧ data h' x = Some d' ∧ node_holds d' ss ∧ is_raw d' ∧
    qrep h' q (<[i := (x, d')]> ns) sss ∧ (<[i := (x, d')]> ns).*1 = ns.*1 ∧ <[i := (x, d')]> ns !! i = Some (x, d') ∧ kept q h ns h' (<[i := (x, d')]> ns).
Proof.
  intros Hq Hi Hs. destruct (Forall2_lookup_lr _ _ _ _ _ _ (qr_nodes _ _ _ _ Hq) Hi Hs) as [Hok Hc]. pose proof (lookup_lt_Some _ _ _ Hi) as Hlt.
  destruct (for_use_at alloc Halloc h q ns i x d ss (qr_links _ _ _ _ Hq) Hi Hok) as (h1 & d1 & E & Hl1 & Hok1 & Hr1 & Hc1 & Hd1 & Hid & Hf). exists h1, d1. split_and!; try done.
  - constructor; [done| |by rewrite length_insert; apply Hq|apply Hq]. rewrite <- (list_insert_id sss i ss Hs). apply Forall2_insert; [apply Hq|]. split; [done|]. simpl. simpl in Hc. congruence.
  - by apply (fst_insert ns i x d).
  - by apply list_lookup_insert_eq.
  - split; [by apply (fst_insert ns i x d)|]. split; [done|]. intros [_ Hpl]. destruct (Hid (proj1 (Forall_lookup_1 _ _ _ _ Hpl Hi))) as [-> ->]. split; [done|]. by apply list_insert_id.
Qed.

Definition more (f : bool) (n k : nat) : bool := if f then (k <? n)%nat else (0 <? k)%nat.

Lemma offset_norm f n k : (k ≤ n)%nat → norm_index n (offset_of f n (if f then Z.of_nat k else Z.of_nat k - 1)) = if more f n k then Some (if f then k else (k - 1)%nat) else None.
Proof.
  intros Hk. unfold offset_of, norm_index, more. destruct f.
  - rewrite (proj2 (Z.leb_le 0 _)) by lia. destruct (Nat.ltb_spec k n).
    + rewrite (proj2 (Z.ltb_lt _ _)) by lia. simpl. f_equal. lia.
    + rewrite (proj2 (Z.ltb_ge _ (Z.of_nat n))), (proj2 (Z.ltb_ge _ 0)) by lia. simpl. by rewrite andb_false_r.
  - rewrite (proj2 (Z.leb_gt 0 _)), (proj2 (Z.ltb_lt _ 0)), andb_true_r by lia. simpl. destruct (Nat.ltb_spec 0 k).
    + rewrite (proj2 (Z.leb_le _ _)) by lia. f_equal. lia.
    + by rewrite (proj2 (Z.leb_gt _ _)) by lia.
Qed.

(** From an iterator that has not entered its node. *)
Lemma next_fresh f h q ns sss it i x d ss k : qrep h q ns sss → ns !! i = Some (x, d) → sss !! i = Some ss → current it = Some x → izi it = None → (k ≤ length ss)%nat →
  ioffset it = offset_of (fwd it) (length ss) (if fwd it then Z.of_nat k else Z.of_nat k - 1) →
  ∃ h' ns', qrep h' q ns' sss ∧ ns'.*1 = ns.*1 ∧ kept q h ns h' ns' ∧
    match rest (fwd it) ss k with
    | s :: R => ∃ it' e, quicklistNext ljunk alloc (S f) h q it = Some (h', it', Some e) ∧ yields ns' sss it' e s ∧ fwd it' = fwd it ∧ it_rem ns' sss it' (R ++ rest_nodes (fwd it) sss i)
    | [] => ∃ nd, quicklistNext ljunk alloc (S f) h q it = quicklistNext ljunk alloc f h' q (moved (fwd it) nd) ∧ it_rem ns' sss (moved (fwd it) nd) (rest_nodes (fwd it) sss i)
    end.
Proof.
  intros Hq Hi Hs Hc Hz Hk Ho. cbn [quicklistNext]. rewrite Hc, Hz. destruct (use_rep h q ns sss i x d ss Hq Hi Hs) as (h1 & d1 & -> & Hd1 & Hok1 & Hr1 & Hq1 & Ef & Hi1 & Hf). cbn [mbind option_bind].
  rewrite Hd1. cbn [mbind option_bind]. destruct (node_raw d1 ss Hok1 Hr1) as (b & Hb & Hbl & _). rewrite Hb. cbn [mbind option_bind]. pose proof (no_small _ _ Hok1) as Hsm.
  destruct (index_holds b ss (ioffset it) Hbl) as (r & -> & Hr); [rewrite Ho; unfold offset_of; destruct (fwd it); lia|]. cbn [mbind option_bind].
  rewrite Ho, offset_norm in Hr by done. set (j := if fwd it then k else (k - 1)%nat) in *. destruct (more (fwd it) (length ss) k) eqn:Em; unfold more in Em.
  - destruct Hr as (p & -> & Hat). rewrite Hd1. cbn [mbind option_bind]. rewrite Hb. cbn [mbind option_bind].
    destruct (deliver h1 q _ sss i x d1 ss b j p (fwd it) Hq1 Hi1 Hs Hr1 Hb Hat) as (s & v & _ & -> & Hsj & Hy); [unfold j; destruct (fwd it); apply Nat.ltb_lt in Em; lia|]. cbn [mbind option_bind].
    assert (k = if fwd it then j else S j) as Ek by (unfold j; destruct (fwd it); apply Nat.ltb_lt in Em; lia). exists h1, (<[i := (x, d1)]> ns). split; [done|]. split; [done|]. split; [done|]. rewrite Ek, (rest_cons _ _ _ _ Hsj).
    assert (ioffset it = offset_of (fwd it) (length ss) (Z.of_nat j)) as Eo by (rewrite Ho; unfold offset_of, j; destruct (fwd it); apply Nat.ltb_lt in Em; lia). rewrite Eo. eexists _, _. split; [done|]. split; [exact Hy|]. split; [done|].
    eapply (it_mid _ _ (QIter _ _ _ _)); try done. by apply lookup_lt_Some in Hsj.
  - subst r. destruct (leave_node h1 q _ sss i x d1 (fwd it) Hq1 Hi1) as (h2 & ns2 & nd & -> & Hnd & Hq2 & Ef2 & Hf2 & Hrem). cbn [mbind option_bind]. rewrite Hnd. cbn [mbind option_bind].
    exists h2, ns2. split; [done|]. split; [congruence|]. split; [by eapply kept_trans|]. assert (rest (fwd it) ss k = []) as ->; [|by exists nd].
    unfold rest. destruct (fwd it); apply Nat.ltb_ge in Em; [by apply drop_ge|]. assert (k = 0)%nat as -> by lia. done.
Qed.

(** From an iterator at entry [k]. *)
Lemma next_mid f h q ns sss it i x d ss b k p : qrep h q ns sss → ns !! i = Some (x, d) → sss !! i = Some ss → current it = Some x → izi it = Some p →
  is_raw d → zipl d = Some b → zl_at b ss k p → (k < length ss)%nat → ioffset it = offset_of (fwd it) (length ss) (Z.of_nat k) →
  ∃ h' ns', qrep h' q ns' sss ∧ ns'.*1 = ns.*1 ∧ kept q h ns h' ns' ∧
    match rest (fwd it) ss (if fwd it then S k else k) with
    | s :: R => ∃ it' e, quicklistNext ljunk alloc (S f) h q it = Some (h', it', Some e) ∧ yields ns' sss it' e s ∧ fwd it' = fwd it ∧ it_rem ns' sss it' (R ++ rest_nodes (fwd it) sss i)
    | [] => ∃ nd, quicklistNext ljunk alloc (S f) h q it = quicklistNext ljunk alloc f h' q (moved (fwd it) nd) ∧ it_rem ns' sss (moved (fwd it) nd) (rest_nodes (fwd it) sss i)
    end.
Proof.
  intros Hq Hi Hs Hc Hz Hr Hb Hat Hk Ho. cbn [quicklistNext]. rewrite Hc, Hz. destruct (qrep_at _ _ _ _ _ _ _ _ Hq Hi Hs) as [Hok Hd]. rewrite Hd. cbn [mbind option_bind]. rewrite Hb. cbn [mbind option_bind].
  set (k' := if fwd it then S k else k). set (j := if fwd it then S k else (k - 1)%nat).
  assert (∃ r, (if fwd it then ziplistNext b p else ziplistPrev b p) = Some r ∧ if more (fwd it) (length ss) k' then ∃ p', r = Some p' ∧ zl_at b ss j p' else r = None) as (r & -> & Hr').
  { unfold more, k', j. destruct (fwd it).
    - destruct (next_at b ss k p Hat) as (r & Er & Hr'). exists r. split; [done|]. destruct (Nat.ltb_spec (S k) (length ss)); [by rewrite decide_True in Hr'|by rewrite decide_False in Hr' by lia].
    - destruct (prev_at b ss k p Hat) as (r & Er & Hr'). exists r. split; [done|]. destruct k as [|k]; [done|]. simpl. by rewrite Nat.sub_0_r. }
  cbn [mbind option_bind]. destruct (more (fwd it) (length ss) k') eqn:Em; unfold more, k' in Em.
  - destruct Hr' as (p' & -> & Hat'). rewrite Hd. cbn [mbind option_bind]. rewrite Hb. cbn [mbind option_bind].
    destruct (deliver h q _ sss i x d ss b j p' (fwd it) Hq Hi Hs Hr Hb Hat') as (s & v & _ & -> & Hsj & Hy); [unfold j; destruct (fwd it); apply Nat.ltb_lt in Em; lia|]. cbn [mbind option_bind].
    exists h, ns. split; [done|]. split; [done|]. split; [done|]. assert (k' = if fwd it then j else S j) as -> by (unfold k', j; destruct (fwd it); apply Nat.ltb_lt in Em; lia). rewrite (rest_cons _ _ _ _ Hsj).
    assert (ioffset it + (if fwd it then 1 else -1) = offset_of (fwd it) (length ss) (Z.of_nat j)) as Eo by (rewrite Ho; unfold offset_of, j; destruct (fwd it); apply Nat.ltb_lt in Em; lia). rewrite Eo.
    eexists _, _. split; [done|]. split; [exact Hy|]. split; [done|]. eapply (it_mid _ _ (QIter _ _ _ _)); try done. by apply lookup_lt_Some in Hsj.
  - subst r. destruct (leave_node h q _ sss i x d (fwd it) Hq Hi) as (h2 & ns2 & nd & -> & Hnd & Hq2 & Ef2 & Hf2 & Hrem). cbn [mbind option_bind]. rewrite Hnd. cbn [mbind option_bind].
    exists h2, ns2. split; [done|]. split; [done|]. split; [done|]. assert (rest (fwd it) ss k' = []) as ->; [|by exists nd].
    unfold rest, k'. destruct (fwd it); apply Nat.ltb_ge in Em; [by apply drop_ge|]. assert (k = 0)%nat as -> by lia. done.
Qed.

Lemma rest_start f ss : rest f ss (if f then 0%nat else length ss) = if f then ss else reverse ss.
Proof. destruct f; simpl; [done|]. by rewrite take_ge. Qed.

Lemma moved_inv ns sss f nd R : it_rem ns sss (moved f nd) R → (current (moved f nd) = None ∧ R = []) ∨
  ∃ i x d ss, ns !! i = Some (x, d) ∧ sss !! i = Some ss ∧ current (moved f nd) = Some x ∧ R = (if f then ss else reverse ss) ++ rest_nodes f sss i.
Proof.
  assert (fwd (moved f nd) = f) as Ef by (by destruct f). assert (izi (moved f nd) = None) as Ez by (by destruct f). assert (ioffset (moved f nd) = if f then 0 else -1) as Eo by (by destruct f).
  destruct 1 as [|i x d ss k Hi Hs Hc _ Hk Ho|]; [by left| |congruence]. right. exists i, x, d, ss. split_and!; try done. rewrite Ef in *. f_equal. rewrite Eo in Ho. unfold offset_of in Ho.
  rewrite <- rest_start. f_equal. destruct f; lia.
Qed.

Lemma iter_next_spec f h q ns sss it R : qrep h q ns sss → it_rem ns sss it R →
  ∃ h' ns', qrep h' q ns' sss ∧ ns'.*1 = ns.*1 ∧ kept q h ns h' ns' ∧
    match R with
    | s :: R' => ∃ it' e, quicklistNext ljunk alloc (S (S f)) h q it = Some (h', it', Some e) ∧ yields ns' sss it' e s ∧ fwd it' = fwd it ∧ it_rem ns' sss it' R'
    | [] => ∃ it', quicklistNext ljunk alloc (S (S f)) h q it = Some (h', it', None) ∧ current it' = None
    end.
Proof.
  intros Hq Hit. assert (∀ h1 ns1 i nd, qrep h1 q ns1 sss → ns1.*1 = ns.*1 → kept q h ns h1 ns1 → it_rem ns1 sss (moved (fwd it) nd) (rest_nodes (fwd it) sss i) →
    ∃ h' ns', qrep h' q ns' sss ∧ ns'.*1 = ns.*1 ∧ kept q h ns h' ns' ∧ match rest_nodes (fwd it) sss i with
    | s :: R' => ∃ it' e, quicklistNext ljunk alloc (S f) h1 q (moved (fwd it) nd) = Some (h', it', Some e) ∧ yields ns' sss it' e s ∧ fwd it' = fwd it ∧ it_rem ns' sss it' R'
    | [] => ∃ it', quicklistNext ljunk alloc (S f) h1 q (moved (fwd it) nd) = Some (h', it', None) ∧ current it' = None end) as Hmove.
  { intros h1 ns1 i nd Hq1 Ef1 Hf1 Hm. destruct (moved_inv _ _ _ _ _ Hm) as [[Hc ->]|(j & x & d & ss & Hj & Hs & Hc & ER)].
    { exists h1, ns1. split_and!; try done. eexists. cbn [quicklistNext]. by rewrite Hc. }
    assert (fwd (moved (fwd it) nd) = fwd it) as Efw by (by destruct (fwd it)). destruct (qrep_at _ _ _ _ _ _ _ _ Hq1 Hj Hs) as [Hok _]. pose proof (no_ne _ _ Hok) as Hne.
    destruct (next_fresh f h1 q ns1 sss (moved (fwd it) nd) j x d ss (if fwd it then 0%nat else length ss)) as (h' & ns' & Hq' & Ef' & Hf' & Hres); try done.
    - by destruct (fwd it).
    - destruct (fwd it); lia.
    - destruct (fwd it); simpl; lia.
    - rewrite Efw, rest_start in Hres. exists h', ns'. split; [done|]. split; [congruence|]. split; [by eapply kept_trans|]. rewrite ER.
      destruct (if fwd it then ss else reverse ss) as [|s R1] eqn:Es; [|done]. destruct (fwd it); [by subst ss|]. apply (f_equal length) in Es. rewrite length_reverse in Es. by destruct ss. }
  destruct Hit as [Hc|i x d ss k Hi Hs Hc Hz Hk Ho|i x d ss b k p Hi Hs Hc Hz Hr Hb Hat Hk Ho].
  - exists h, ns. split_and!; try done. exists it. cbn [quicklistNext]. by rewrite Hc.
  - destruct (next_fresh (S f) h q ns sss it i x d ss k) as (h1 & ns1 & Hq1 & Ef1 & Hf1 & Hres); try done. destruct (rest (fwd it) ss k) as [|s R1]; [|by exists h1, ns1].
    destruct Hres as (nd & -> & Hrem). simpl app. by apply (Hmove h1 ns1).
  - destruct (next_mid (S f) h q ns sss it i x d ss b k p) as (h1 & ns1 & Hq1 & Ef1 & Hf1 & Hres); try done. destruct (rest (fwd it) ss _) as [|s R1]; [|by exists h1, ns1].
    destruct Hres as (nd & -> & Hrem). simpl app. by apply (Hmove h1 ns1).
Qed.

(** Whole traversals: the values that [quicklistNext] gives until it returns 0. *)
Fixpoint visit (n : nat) (h : qstore) (q : quicklist) (it : quicklistIter) : option (qstore * list zval) :=
  match n with
  | O => None
  | S n' =>
      '(h, it, e) ← quicklistNext ljunk alloc 2 h q it;
      match e with
      | None => Some (h, [])
      | Some e => v ← evalue e; '(h, vs) ← visit n' h q it; Some (h, v :: vs)
      end
  end.

Lemma visit_spec n : ∀ h q ns sss it R, qrep h q ns sss → it_rem ns sss it R → (length R < n)%nat →
  ∃ h' ns' vs, visit n h q it = Some (h', vs) ∧ zval_str <$> vs = R ∧ qrep h' q ns' sss ∧ ns'.*1 = ns.*1 ∧ kept q h ns h' ns'.
Proof.
  induction n as [|n IH]; intros h q ns sss it R Hq Hit Hn; [lia|]. cbn [visit]. destruct (iter_next_spec 0 h q ns sss it R Hq Hit) as (h1 & ns1 & Hq1 & Ef & Hf & Hres). destruct R as [|s R].
  - destruct Hres as (it' & -> & _). cbn [mbind option_bind]. by exists h1, ns1, [].
  - destruct Hres as (it' & e & -> & Hy & _ & Hrem). cbn [mbind option_bind]. destruct Hy as (? & ? & ? & ? & ? & ? & ? & v & _ & _ & _ & _ & _ & _ & _ & Hv & _ & _ & -> & _). cbn [evalue mbind option_bind].
    destruct (IH h1 q ns1 sss it' R Hq1 Hrem) as (h2 & ns2 & vs & -> & Hvs & Hq2 & Ef2 & Hf2); [simpl in Hn; lia|]. cbn [mbind option_bind]. exists h2, ns2, (v :: vs). split_and!; try done.
    + by rewrite fmap_cons, Hv, Hvs.
    + congruence.
    + by eapply kept_trans.
Qed.

(** The iterators at the ends. *)
Lemma iterator_rem h q ns sss (f : bool) : qrep h q ns sss → it_rem ns sss (quicklistGetIterator q f) (if f then concat sss else reverse (concat sss)).
Proof.
  intros Hq. pose proof (Forall2_length _ _ _ (qr_nodes _ _ _ _ Hq)) as Hln. destruct (qr_links _ _ _ _ Hq) as [_ _ Hh Ht]. unfold quicklistGetIterator. destruct f.
  - rewrite Hh, ptr_first. unfold ptr. destruct (ns !! 0%nat) as [[x d]|] eqn:Hx.
    + destruct (Forall2_lookup_l _ _ _ _ _ (qr_nodes _ _ _ _ Hq) Hx) as (ss & Hs & _). destruct sss as [|ss' sss]; [done|]. injection Hs as ->.
      eapply (it_fresh ns (ss :: sss) (QIter (Some x) None 0 true) 0 x d ss 0); (done || simpl; lia).
    + destruct ns; [|done]. destruct sss; [|done]. by apply it_end.
  - rewrite Ht, ptr_last. unfold ptr. destruct (ns !! (length ns - 1)%nat) as [[x d]|] eqn:Hx.
    + destruct (Forall2_lookup_l _ _ _ _ _ (qr_nodes _ _ _ _ Hq) Hx) as (ss & Hs & _). pose proof (lookup_lt_Some _ _ _ Hx) as Hlt. rewrite (split_at sss _ ss Hs) at 2. rewrite (drop_ge sss) by lia.
      rewrite concat_app, reverse_app. simpl. rewrite app_nil_r. rewrite <- (take_ge ss (length ss)) at 1 by lia. eapply (it_fresh ns sss (QIter (Some x) None (-1) false) (length ns - 1) x d ss (length ss)); (done || simpl; lia).
    + apply lookup_ge_None in Hx. destruct ns; [|simpl in Hx; lia]. destruct sss; [|done]. by apply it_end.
Qed.

(** An iterator that starts at an index, and [quicklistReleaseIterator]. *)
Lemma release_iterator h q ns sss it R : qrep h q ns sss → it_rem ns sss it R →
  ∃ h' ns', quicklistReleaseIterator ljunk alloc h q it = Some h' ∧ qrep h' q ns' sss ∧ ns'.*1 = ns.*1 ∧ kept q h ns h' ns'.
Proof.
  intros Hq Hit. unfold quicklistReleaseIterator. destruct Hit as [Hc|i x d ss k Hi _ Hc|i x d ss b k p Hi _ Hc]; rewrite Hc; [by exists h, ns|by eapply compress_rep..].
Qed.

Lemma iterator_at h q ns sss (f : bool) idx : qok h q ns sss → - 2 ^ 63 < idx < 2 ^ 63 → (0 ≤ idx ↔ f = true) →
  match norm_index (length (concat sss)) idx with
  | None => quicklistGetIteratorAtIdx alloc h q f idx = Some (h, None)
  | Some m => ∃ h' ns' it, quicklistGetIteratorAtIdx alloc h q f idx = Some (h', Some it) ∧ qrep h' q ns' sss ∧ ns'.*1 = ns.*1 ∧ kept q h ns h' ns' ∧
      it_rem ns' sss it (if f then drop m (concat sss) else reverse (take (S m) (concat sss)))
  end.
Proof.
  intros Hq Hidx Hf. unfold quicklistGetIteratorAtIdx. pose proof (index_ok alloc Halloc h q ns sss idx Hq Hidx) as Hix. destruct (norm_index _ idx) as [m|]; [|by rewrite Hix].
  destruct Hix as (h' & ns' & e & -> & He & Hsg & Hacc). cbn [mbind option_bind]. eexists h', ns', _. split; [done|]. split; [by eapply accessed_rep|]. destruct Hacc as (_ & _ & Hfr & Ef & Hpl). split; [done|]. split; [split; [done|]; split; [done|]; intros [Hc _]; auto|].
  destruct He as (i & x & d & ss & b & k & p & v & Hi & Hs & _ & _ & _ & Hk & -> & _ & _ & Ho & -> & _ & _). destruct (concat_insert sss i ss [] Hs) as [E _]. set (n := length (concat (take i sss))) in *.
  assert (eoffset e = if f then Z.of_nat k else Z.of_nat k - Z.of_nat (length ss)) as Eo.
  { pose proof (norm_index_inv _ _ _ Ho) as E0. destruct (Z.leb_spec 0 (eoffset e)) as [Hp|Hn], f; try done; exfalso; [apply Hsg, Hf in Hp; done|]. assert (0 ≤ eoffset e) by (by apply Hsg, Hf). lia. }
  destruct f.
  - rewrite E, drop_app_ge by lia. fold n. replace (n + k - n)%nat with k by lia. rewrite drop_app_le by lia. eapply (it_fresh ns' sss (QIter (Some x) None (eoffset e) true) i x d ss k); (done || simpl; lia).
  - rewrite E, take_app_ge by lia. fold n. replace (S (n + k) - n)%nat with (S k) by lia. rewrite take_app_le by lia. rewrite reverse_app. eapply (it_fresh ns' sss (QIter (Some x) None (eoffset e) false) i x d ss (S k)); (done || simpl; lia).
Qed.

(** ** Deleting while iterating, without compression *)

(** The iterator after the node [i] is gone. *)
Lemma moved_gone h q ns sss h' q' ns' i x d (f : bool) : qok h q ns sss → ns !! i = Some (x, d) → qok h' q' ns' (take i sss ++ drop (S i) sss) → ns'.*1 = (take i ns ++ drop (S i) ns).*1 →
  it_rem ns' (take i sss ++ drop (S i) sss) (moved f (LNode (if bool_decide (i = 0%nat) then None else ptr ns (i - 1)) (ptr ns (S i)) d)) (rest_nodes f sss i).
Proof.
  intros Hq Hi Hq' Ef. pose proof (qok_len _ _ _ _ Hq) as [Hln _]. pose proof (qok_len _ _ _ _ Hq') as [Hln' _]. pose proof (lookup_lt_Some _ _ _ Hi) as Hlt.
  assert (length (take i sss) = i) as Hti by (rewrite length_take; lia). assert (∀ j, fst <$> ns' !! j = if decide (j < i)%nat then ptr ns j else ptr ns (S j)) as Hp.
  { intros j. rewrite <- list_lookup_fmap, Ef, fmap_app. unfold ptr. destruct (decide (j < i)%nat).
    - rewrite lookup_app_l by (rewrite length_fmap, length_take; lia). rewrite list_lookup_fmap, lookup_take_lt by done. done.
    - rewrite lookup_app_r by (rewrite length_fmap, length_take; lia). rewrite length_fmap, length_take, list_lookup_fmap, lookup_drop. do 2 f_equal. lia. }
  unfold moved, rest_nodes. destruct f; cbn [next prev].
  + specialize (Hp i). rewrite decide_False in Hp by lia. rewrite <- Hp. destruct (ns' !! i) as [[y ey]|] eqn:Hyi; cbn [fmap option_fmap option_map fst].
    * destruct (qok_at _ _ _ _ _ _ _ Hq' Hyi) as (ss' & Hs' & _ & _). rewrite lookup_app_r, Hti, Nat.sub_diag in Hs' by lia.
      rewrite lookup_drop, Nat.add_0_r in Hs'. assert (concat (drop (S i) sss) = rest true ss' 0 ++ rest_nodes true (take i sss ++ drop (S i) sss) i) as ->.
      { unfold rest, rest_nodes. rewrite drop_app_ge by lia. rewrite Hti. replace (S i - i)%nat with 1%nat by lia. rewrite drop_drop. rewrite (drop_S _ ss' _ Hs'). by replace (S i + 1)%nat with (S (S i)) by lia. }
      eapply (it_fresh ns' _ (QIter (Some y) None 0 true) i y ey ss' 0); try done; [|simpl; lia]. by rewrite lookup_app_r, Hti, Nat.sub_diag, lookup_drop, Nat.add_0_r by lia.
    * apply lookup_ge_None in Hyi. rewrite length_app, Hti, length_drop in Hln'. rewrite (drop_ge sss) by lia. by apply it_end.
  + destruct i as [|i]; [by apply it_end|]. rewrite bool_decide_false by lia. replace (S i - 1)%nat with i by lia. specialize (Hp i). rewrite decide_True in Hp by lia. rewrite <- Hp.
    destruct (ns' !! i) as [[y ey]|] eqn:Hyi; [|apply lookup_ge_None in Hyi; rewrite length_app, Hti, length_drop in Hln'; lia]. cbn [fmap option_fmap option_map fst].
    destruct (qok_at _ _ _ _ _ _ _ Hq' Hyi) as (ss' & Hs' & _ & _). pose proof Hs' as Hs2. rewrite lookup_app_l, lookup_take_lt in Hs2 by lia.
    assert (reverse (concat (take (S i) sss)) = rest false ss' (length ss') ++ rest_nodes false (take (S i) sss ++ drop (S (S i)) sss) i) as ->.
    { unfold rest, rest_nodes. rewrite (take_ge ss') by lia. rewrite take_app_le, take_take, Nat.min_l by lia. rewrite (take_S_r _ _ ss' Hs2), concat_app, reverse_app. simpl. by rewrite app_nil_r. }
    eapply (it_fresh ns' _ (QIter (Some y) None (-1) false) i y ey ss' (length ss')); (done || simpl; lia).
Qed.

Lemma del_entry_ok (junk : Z) h q ns sss it e s : qok h q ns sss → compress q = 0 → yields ns sss it e s →
  ∃ h' q' it' ns' sss' A B, quicklistDelEntry junk ljunk alloc h q it e = Some (h', q', it') ∧ qok h' q' ns' sss' ∧ fill q' = fill q ∧ compress q' = 0 ∧ fwd it' = fwd it ∧
    concat sss = A ++ s :: B ∧ concat sss' = A ++ B ∧ it_rem ns' sss' it' (if fwd it then B else reverse A) ∧ it_rem ns sss it (if fwd it then B else reverse A).
Proof.
  intros Hq Hc Hy. destruct (yields_rem _ _ _ _ _ Hy) as (i0 & ss0 & k0 & Hs0 & Hk0 & Hrem).
  destruct Hy as (i & x & d & ss & b & k & p & v & Hi & Hs & Hr & Hb & Hat & Hk & Hsk & _ & _ & Ho & -> & Hit). unfold quicklistDelEntry. cbn [enode ezi mbind option_bind].
  pose proof (links_lookup h q ns i x d (qo_links _ _ _ _ Hq) Hi) as Hnd. rewrite Hnd. cbn [mbind option_bind].
  destruct (del_index_ok junk ljunk alloc Halloc h q ns sss i x d ss b k p Hq Hi Hs Hr Hb Hat Hk) as (h' & q' & gone & ns' & -> & F1 & F2 & Hg & Hres). cbn [mbind option_bind].
  destruct (concat_insert sss i ss (cut ss k) Hs) as [C1 C2]. set (A := concat (take i sss) ++ take k ss). set (B := drop (S k) ss ++ concat (drop (S i) sss)).
  assert (concat sss = A ++ s :: B) as CL. { rewrite C1. unfold A, B. rewrite <- (take_drop_middle ss k s Hsk) at 1. by rewrite <- !app_assoc. }
  assert (it_rem ns sss it (if fwd it then B else reverse A)) as HR.
  { assert (∀ f, (if (f : bool) then B else reverse A) = rest f ss (if f then S k else k) ++ rest_nodes f sss i) as -> by (intros []; [done|]; unfold A; by rewrite reverse_app).
    eapply it_mid; try done; by rewrite Hit. }
  destruct gone.
  - destruct Hres as [Hq' Ef]. symmetry in Hg. apply bool_decide_eq_true in Hg. assert (k = 0)%nat as -> by lia. assert (ss = [s]) as ->. { destruct ss as [|s' [|]]; try done. by injection Hsk as ->. }
    eexists h', q', _, ns', (take i sss ++ drop (S i) sss), A, B. split; [done|]. split_and!; try done; [by rewrite F2|by destruct (fwd it)|by rewrite concat_app; unfold A, B; rewrite app_nil_r| ].
    assert ((if fwd it then B else reverse A) = rest_nodes (fwd it) sss i) as -> by (unfold A, B; rewrite take_0, app_nil_r; by destruct (fwd it)). by eapply (moved_gone h q ns sss).
  - destruct Hres as (Hq' & d' & b' & -> & Hr' & Hb' & Hat'). pose proof (lookup_lt_Some _ _ _ Hi) as Hlt. pose proof (lookup_lt_Some _ _ _ Hs) as Hlt'. pose proof (cut_length ss k Hk) as Hcl.
    eexists h', q', _, _, _, A, B. split; [done|]. split; [exact Hq'|]. rewrite C2. split_and!; try done; [by rewrite F2|unfold A, B, cut; by rewrite <- !app_assoc|].
    assert (∀ f, (if (f : bool) then B else reverse A) = rest f (cut ss k) k ++ rest_nodes f (<[i := cut ss k]> sss) i) as ->.
    { assert (length (take k ss) = k) as Htk by (rewrite length_take; lia). intros []; unfold rest, rest_nodes, A, B, cut.
      - rewrite drop_insert_lt by lia. by rewrite drop_app_ge, Htk, Nat.sub_diag by lia.
      - rewrite take_insert_ge by lia. rewrite reverse_app. by rewrite take_app_le, take_take, Nat.min_id by lia. }
    rewrite Hit. cbn [current izi ioffset fwd]. eapply (it_fresh _ _ (QIter (Some x) None (eoffset _) (fwd it)) i x d' (cut ss k) k); try done.
    + by apply list_lookup_insert_eq.
    + by apply list_lookup_insert_eq.
    + lia.
    + cbn [ioffset eoffset fwd]. simpl in Ho. rewrite Ho. unfold offset_of. destruct (fwd it); [done|]. lia.
Qed.
End iter.
