(* ===== verification/QuicklistInsert.v ===== *)
(** * quicklist.c: splitting, merging and inserting, without compression *)

From S2P Require Import Prelude Decimal Sds Util Adlist Lzf Ziplist ZiplistRep ZiplistEdit ZiplistQuery ZiplistSpec ZiplistApi Quicklist QuicklistRep QuicklistOps QuicklistAccess QuicklistIter.

Section insert.
Context (junk : Z) (ljunk : Z → Z) (alloc : nat → list Z) (Halloc : ∀ n, length (alloc n) = n).

(** The list [q] without compression: its nodes and what each one holds. The total count is not
    considered: an insertion that splits a node updates it last. *)
Definition chain (h : qstore) (q : quicklist) (ids : list positive) (sss : list (list (list Z))) : Prop :=
  compress q = 0 ∧ in_u 64 (qcount q) ∧ ∃ ns, qok h (set_qcount q (size sss)) ns sss ∧ ns.*1 = ids.

Lemma links_count h q n ns : links h (set_qcount q n) ns ↔ links h q ns.
Proof. by split; intros []; constructor. Qed.

Lemma plain_decompress h q ns sss i x d : qok h q ns sss → compress q = 0 → ns !! i = Some (x, d) → quicklistDecompressNode alloc h (Some x) = Some h.
Proof.
  intros Hq Hc Hi. unfold quicklistDecompressNode. rewrite (links_data h q ns i x d (qo_links _ _ _ _ Hq) Hi). cbn [mbind option_bind]. by rewrite (plain_raw _ _ _ _ _ _ _ Hq Hc Hi).
Qed.

(** The node [y] is removed after the node [x] next to it got both contents. *)
Lemma merge_delete h q a x d b sss : links h q (a ++ (x, d) :: b) → Forall2 (λ nd, node_ok nd.2) (a ++ b) sss → compress q = 0 →
  Forall (λ nd, is_raw nd.2 ∧ recompress nd.2 = false) (a ++ (x, d) :: b) → count d = 0 → qlen q = Z.of_nat (length (a ++ (x, d) :: b)) → in_u 64 (qcount q) → size sss < 2 ^ 48 →
  ∃ h' q' ns', __quicklistDelNode ljunk alloc h q x = Some (h', q') ∧ qok h' (set_qcount q' (size sss)) ns' sss ∧ ns'.*1 = (a ++ b).*1 ∧ fill q' = fill q ∧ compress q' = 0 ∧ qcount q' = qcount q.
Proof.
  intros Hl Hn Hc Hpl H0 Hlen Hcnt Hsm. pose proof (concat_ge sss (nodes_ne _ _ Hn)) as Hge. pose proof (Forall2_length _ _ _ Hn) as Hln. rewrite length_app in Hln.
  assert (settled (compress q) (a ++ (x, d) :: b)) as Hset by (apply all_raw_settled; (eapply Forall_impl; [exact Hpl|]; by intros nd []); done).
  destruct (del_node_spec ljunk alloc Halloc h q a x d b sss Hl) as (h' & q' & ns' & E & Hl' & Hs & Hset' & _ & _ & F1 & F2 & F3 & F4); try done; [by apply ok_hold|rewrite Hlen, length_app; simpl; lia|lia|].
  exists h', q', ns'. split; [done|]. split; [|split_and!; [by apply same_nodes_fst|done|by rewrite F4|rewrite F1, H0, Z.sub_0_r; by apply uwrap_small]]. constructor; try done.
  - by apply links_count.
  - by eapply same_nodes_node_ok.
  - cbn [qlen set_qcount]. rewrite F2, Hlen, (same_nodes_length _ _ Hs), !length_app. simpl. lia.
  - cbn [compress set_qcount]. by rewrite F4, Hc.
  - cbn [compress set_qcount]. by rewrite F4.
Qed.

Lemma allow_merge_spec h q ns sss i j x y dx dy s1 s2 f : qok h q ns sss → ns !! i = Some (x, dx) → ns !! j = Some (y, dy) → sss !! i = Some s1 → sss !! j = Some s2 →
  ∃ r, _quicklistNodeAllowMerge h (Some x) (Some y) f = Some r ∧ _quicklistNodeAllowMerge h (Some y) (Some x) f = Some r ∧
    (r = true → total (s1 ++ s2) ≤ 2 ^ 30 ∧ Z.of_nat (length (s1 ++ s2)) < 2 ^ 16).
Proof.
  intros Hq Hi Hj Hs1 Hs2. destruct (qok_at _ _ _ _ _ _ _ Hq Hi) as (s1' & E1 & [Hx Hcx] & _). rewrite Hs1 in E1. injection E1 as <-. destruct (qok_at _ _ _ _ _ _ _ Hq Hj) as (s2' & E2 & [Hy Hcy] & _). rewrite Hs2 in E2. injection E2 as <-.
  unfold _quicklistNodeAllowMerge. rewrite (links_data h q ns i x dx (qo_links _ _ _ _ Hq) Hi), (links_data h q ns j y dy (qo_links _ _ _ _ Hq) Hj). cbn [mbind option_bind]. eexists. split; [done|].
  split; [by rewrite (Z.add_comm (sz dy)), (Z.add_comm (count dy))|]. destruct Hx as [_ Ht1 _ (b1 & Hb1 & Hz1 & _)], Hy as [_ Ht2 _ (b2 & Hb2 & Hz2 & _)]. pose proof (holds_sizes b1 s1 Hb1) as [L1 T1]. pose proof (holds_sizes b2 s2 Hb2) as [L2 T2].
  rewrite Hz1, Hz2, uwrap_small by (unfold in_u; lia). intros Hr. assert (Z.of_nat (length b1) + Z.of_nat (length b2) - 11 ≤ 65536) as Hle.
  { destruct (_quicklistNodeSizeMeetsOptimizationRequirement _ f) eqn:Em; [by apply meets_small in Em|]. unfold sizeMeetsSafetyLimit, SIZE_SAFETY_LIMIT in Hr.
    destruct (Z.leb_spec (Z.of_nat (length b1) + Z.of_nat (length b2) - 11) 8192); [lia|done]. }
  rewrite total_app, length_app. lia.
Qed.

(** Node [i] gets the contents [b] of [ss]. *)
Lemma fill_node h q ns i x d b ss : links h q ns → ns !! i = Some (x, d) → is_raw d → zl_holds b ss → ss ≠ [] → total ss ≤ 2 ^ 30 → Z.of_nat (length ss) < 2 ^ 16 →
  ∃ h1 h2 d', set_data h x (set_count (set_zl d (QZl b)) (u16 (Z.of_nat (length ss)))) = Some h1 ∧ store_zl h1 x b = Some h2 ∧ links h2 q (<[i := (x, d')]> ns) ∧ node_ok d' ss ∧
    is_raw d' ∧ recompress d' = recompress d ∧ frame h h2 ns.
Proof.
  intros Hl Hi Hr Hb Hne Ht Hsm. set (d1 := set_count _ _). destruct (set_data_at h q ns i x d d1 Hl Hi) as (h1 & E1 & Hl1 & Hf1). pose proof (lookup_lt_Some _ _ _ Hi) as Hlt.
  destruct (store_zl_at h1 q _ i x d1 b ss Hl1) as (h2 & E2 & Hl2 & Hf2); [by apply list_lookup_insert_eq|done|]. rewrite list_insert_insert_eq in Hl2. eexists h1, h2, _. split; [done|]. split; [done|]. split; [exact Hl2|].
  split_and!; try done.
  - split; [|simpl; rewrite uwrap_small; [done|unfold in_u; lia]]. simpl. rewrite Hr. by apply raw_holds.
  - eapply frame_trans; [|exact Hf1|exact Hf2]. by apply (fst_insert ns i x d).
Qed.

Lemma chain_size h q ids sss : chain h q ids sss → qlen q = Z.of_nat (length ids) ∧ length sss = length ids ∧ NoDup ids.
Proof.
  intros (_ & _ & ns & Hq & <-). pose proof (qok_len _ _ _ _ Hq) as [Hln _]. rewrite length_fmap. split_and!; [apply Hq|done|apply (lk_nodup _ _ _ (qo_links _ _ _ _ Hq))].
Qed.

Lemma chain_pair h q A x y B sss : chain h q (A ++ x :: y :: B) sss → ∃ a dx dy b, qok h (set_qcount q (size sss)) (a ++ (x, dx) :: (y, dy) :: b) sss ∧ a.*1 = A ∧ b.*1 = B ∧ compress q = 0 ∧ in_u 64 (qcount q).
Proof.
  intros (Hc & Hu & ns & Hq & Ens). apply fmap_app_inv in Ens as (a & ns1 & -> & E1 & ->). symmetry in E1. apply fmap_cons_inv in E1 as ([x' dx] & ns2 & -> & E2 & ->). symmetry in E2. apply fmap_cons_inv in E2 as ([y' dy] & b & -> & -> & ->).
  by exists a, dx, dy, b.
Qed.

(** The part of a merge that depends on the node that is kept, [x]. *)
Lemma merge_finish h q ns i x dx j y dy bm ss sss' ids : links h q ns → ns !! i = Some (x, dx) → ns !! j = Some (y, dy) → i ≠ j → Forall (λ nd, is_raw nd.2 ∧ recompress nd.2 = false) ns →
  zl_holds bm ss → ss ≠ [] → total ss ≤ 2 ^ 30 → Z.of_nat (length ss) < 2 ^ 16 → compress q = 0 → qlen q = Z.of_nat (length ns) → in_u 64 (qcount q) → size sss' < 2 ^ 48 →
  (∀ dx' dy', node_ok dx' ss → ∃ a b, <[j := (y, dy')]> (<[i := (x, dx')]> ns) = a ++ (y, dy') :: b ∧ Forall2 (λ nd, node_ok nd.2) (a ++ b) sss' ∧ (a ++ b).*1 = ids) →
  ∃ h' q', ('(z, n) ← ziplistLen bm; dk ← data h x; h ← set_data h x (set_count (set_zl dk (QZl z)) (u16 n)); h ← store_zl h x z; dn ← data h y; h ← set_data h y (set_count (set_zl dn QNull) 0);
    '(h, q) ← __quicklistDelNode ljunk alloc h q y; h ← quicklistCompress ljunk alloc h q x; Some (h, q, Some x)) = Some (h', q', Some x) ∧ chain h' q' ids sss' ∧ fill q' = fill q ∧ qcount q' = qcount q.
Proof.
  intros Hl Hx Hy Hij Hpl Hb Hne Ht Hsm Hc Hlen Hcnt Hsmall Hres. destruct (len_holds bm ss Hb) as (z & -> & Hz). cbn [mbind option_bind]. rewrite (links_data h q ns i x dx Hl Hx). cbn [mbind option_bind].
  destruct (Forall_lookup_1 _ _ _ _ Hpl Hx) as [Hrx Hfx]. destruct (Forall_lookup_1 _ _ _ _ Hpl Hy) as [Hry Hfy]. pose proof (lookup_lt_Some _ _ _ Hx). pose proof (lookup_lt_Some _ _ _ Hy).
  destruct (fill_node h q ns i x dx z ss Hl Hx Hrx Hz Hne Ht Hsm) as (h1 & h2 & dx' & -> & E2 & Hl2 & Hok & Hr' & Hf' & _). cbn [mbind option_bind]. rewrite E2. cbn [mbind option_bind].
  assert (<[i := (x, dx')]> ns !! j = Some (y, dy)) as Hy2 by (by rewrite list_lookup_insert_ne). rewrite (links_data h2 q _ j y dy Hl2 Hy2). cbn [mbind option_bind]. set (dy' := set_count _ _).
  destruct (set_data_at h2 q _ j y dy dy' Hl2 Hy2) as (h3 & -> & Hl3 & _). cbn [mbind option_bind]. destruct (Hres dx' dy' Hok) as (a & b & Eab & Hnodes & Eids).
  assert (Forall (λ nd, is_raw nd.2 ∧ recompress nd.2 = false) (<[j := (y, dy')]> (<[i := (x, dx')]> ns))) as Hpl3. { apply Forall_insert; [apply Forall_insert; [done|]|done]. simpl in *. by rewrite Hf'. }
  assert (length (a ++ (y, dy') :: b) = length ns) as Eln by (by rewrite <- Eab, !length_insert). rewrite Eab in Hl3, Hpl3.
  destruct (merge_delete h3 q a y dy' b sss' Hl3 Hnodes Hc Hpl3 eq_refl) as (h4 & q4 & ns4 & -> & Hq4 & E4 & F1 & F2 & F3); try done; [by rewrite Eln|]. cbn [mbind option_bind].
  assert (x ∈ ids) as Hxi.
  { rewrite <- Eids. assert ((x, dx') ∈ a ++ (y, dy') :: b) as Hin by (rewrite <- Eab; apply (list_elem_of_lookup_2 _ i); rewrite list_lookup_insert_ne by done; by apply list_lookup_insert_eq).
    assert (x ≠ y) as Hxy. { intros ->. pose proof (NoDup_lookup _ _ _ y (lk_nodup _ _ _ Hl) ltac:(by rewrite list_lookup_fmap, Hx) ltac:(by rewrite list_lookup_fmap, Hy)). done. }
    apply list_elem_of_fmap. exists (x, dx'). set_solver. }
  rewrite <- Eids, <- E4 in Hxi. apply list_elem_of_fmap in Hxi as ([x' d4] & -> & [k Hk]%list_elem_of_lookup_1). simpl.
  destruct (qok_at _ _ _ _ _ _ _ Hq4 Hk) as (_ & _ & _ & Hfl). rewrite (plain_compress ljunk alloc h4 q4 x' d4 F2) by (done || by apply (links_data h4 (set_qcount q4 (size sss')) ns4 k), Hk; apply Hq4). cbn [mbind option_bind].
  exists h4, q4. split; [done|]. split; [|done]. split; [done|]. split; [by rewrite F3|]. exists ns4. split; [done|]. congruence.
Qed.

(** [x] and [y] are neighbours: one of them, [z], is kept. *)
Lemma merge_ok h q A x y B sa s1 s2 sb : chain h q (A ++ x :: y :: B) (sa ++ s1 :: s2 :: sb) → length sa = length A → total (s1 ++ s2) ≤ 2 ^ 30 → Z.of_nat (length (s1 ++ s2)) < 2 ^ 16 →
  ∃ h' q' z, _quicklistZiplistMerge junk ljunk alloc h q x y = Some (h', q', Some z) ∧ (z = x ∨ z = y) ∧ chain h' q' (A ++ z :: B) (sa ++ (s1 ++ s2) :: sb) ∧ fill q' = fill q ∧ qcount q' = qcount q.
Proof.
  intros Hch Hla Ht Hsm. destruct (chain_pair _ _ _ _ _ _ _ Hch) as (a & dx & dy & b & Hq & <- & <- & Hc & Hu). rewrite length_fmap in Hla. set (ns := a ++ (x, dx) :: (y, dy) :: b) in *.
  assert (ns !! length a = Some (x, dx)) as Hx by (by apply list_lookup_middle). assert (ns !! S (length a) = Some (y, dy)) as Hy by (unfold ns; rewrite app_cons_assoc; apply list_lookup_middle; rewrite length_app; simpl; lia).
  destruct (qok_at _ _ _ _ _ _ _ Hq Hx) as (s1' & Hs1 & [Hox Hcx] & Hfx). rewrite list_lookup_middle in Hs1 by done. injection Hs1 as <-.
  destruct (qok_at _ _ _ _ _ _ _ Hq Hy) as (s2' & Hs2 & [Hoy Hcy] & Hfy). rewrite app_cons_assoc, list_lookup_middle in Hs2 by (rewrite length_app; simpl; lia). injection Hs2 as <-.
  unfold _quicklistZiplistMerge. rewrite (plain_decompress _ _ _ _ _ _ _ Hq Hc Hx). cbn [mbind option_bind]. rewrite (plain_decompress _ _ _ _ _ _ _ Hq Hc Hy). cbn [mbind option_bind].
  rewrite (links_data h _ ns _ x dx (qo_links _ _ _ _ Hq) Hx). cbn [mbind option_bind]. destruct (node_raw dx s1 Hox (plain_raw _ _ _ _ _ _ _ Hq Hc Hx)) as (b1 & -> & Hb1 & _). cbn [mbind option_bind].
  rewrite (links_data h _ ns _ y dy (qo_links _ _ _ _ Hq) Hy). cbn [mbind option_bind]. destruct (node_raw dy s2 Hoy (plain_raw _ _ _ _ _ _ _ Hq Hc Hy)) as (b2 & -> & Hb2 & _). cbn [mbind option_bind].
  assert (x ≠ y) as Hxy by (destruct (chain_size _ _ _ _ Hch) as (_ & _ & Hnd); apply NoDup_app in Hnd as (_ & _ & Hnd); apply NoDup_cons in Hnd as [Hnd _]; set_solver).
  rewrite bool_decide_false by done. destruct (merge_holds junk b1 b2 s1 s2 Hb1 Hb2) as (bm & in_first & -> & Hbm); [apply Hoy|apply Hox|apply Hoy|]. cbn [mbind option_bind].
  assert (s1 ++ s2 ≠ []) as Hne by (intros [E _]%app_eq_nil; by apply (no_ne _ _ Hox)). pose proof (qo_small _ _ _ _ Hq) as Hsmall. pose proof (qo_nodes _ _ _ _ Hq) as Hnodes. apply Forall2_app_inv in Hnodes as [Ha Hnodes]; [|done].
  apply Forall2_cons in Hnodes as [_ Hnodes]. apply Forall2_cons in Hnodes as [_ Hb]. destruct (qok_plain _ _ _ _ Hq Hc) as [_ Hpl].
  assert (size (sa ++ (s1 ++ s2) :: sb) = size (sa ++ s1 :: s2 :: sb)) as Hsz by (rewrite !size_app, !size_cons, length_app; lia).
  assert (∀ z dz, node_ok dz (s1 ++ s2) → Forall2 (λ nd, node_ok nd.2) (a ++ (z, dz) :: b) (sa ++ (s1 ++ s2) :: sb)) as Hnew by (intros z dz Hz; by apply Forall2_app; [|constructor]).
  destruct in_first; cbn beta iota.
  - destruct (merge_finish h q ns (length a) x dx (S (length a)) y dy bm (s1 ++ s2) (sa ++ (s1 ++ s2) :: sb) (a.*1 ++ x :: b.*1)) as (h' & q' & E & Hch' & F & F'); try done; try apply Hq; try lia; [by eapply links_count, Hq| |by exists h', q', x; split_and!; auto].
    intros dx' dy' Hok. exists (a ++ [(x, dx')]), b. rewrite <- !app_assoc. simpl. split_and!; [|by apply Hnew|by rewrite fmap_app].
    unfold ns. rewrite insert_app_r_alt, Nat.sub_diag by lia. simpl. rewrite insert_app_r_alt by lia. by replace (S (length a) - length a)%nat with 1%nat by lia.
  - destruct (merge_finish h q ns (S (length a)) y dy (length a) x dx bm (s1 ++ s2) (sa ++ (s1 ++ s2) :: sb) (a.*1 ++ y :: b.*1)) as (h' & q' & E & Hch' & F & F'); try done; try apply Hq; try lia; [by eapply links_count, Hq| |by exists h', q', y; split_and!; auto].
    intros dy' dx' Hok. exists a, ((y, dy') :: b). split_and!; [|by apply Hnew|by rewrite fmap_app].
    unfold ns. rewrite insert_app_r_alt by lia. replace (S (length a) - length a)%nat with 1%nat by lia. simpl. by rewrite insert_app_r_alt, Nat.sub_diag by lia.
Qed.

(** ** Merging around a node *)

Lemma chain_middle h q A x B sss : chain h q (A ++ x :: B) sss → ∃ a d b, qok h (set_qcount q (size sss)) (a ++ (x, d) :: b) sss ∧ a.*1 = A ∧ b.*1 = B ∧ compress q = 0 ∧ in_u 64 (qcount q).
Proof.
  intros (Hc & Hu & ns & Hq & Ens). apply fmap_app_inv in Ens as (a & ns1 & -> & E1 & ->). symmetry in E1. apply fmap_cons_inv in E1 as ([x' d] & b & -> & -> & ->). by exists a, d, b.
Qed.

Lemma last_or_fst (a : list (positive * qdata)) : last_or a None = last a.*1.
Proof. unfold last_or. rewrite fmap_last. by destruct (last a) as [[]|]. Qed.

Lemma first_or_fst (a : list (positive * qdata)) : first_or a None = head a.*1.
Proof. by destruct a as [|[]]. Qed.

Lemma chain_links h q A x B sss : chain h q (A ++ x :: B) sss → prev_of h (Some x) = Some (last A) ∧ next_of h (Some x) = Some (head B).
Proof.
  intros (a & d & b & Hq & <- & <- & _)%chain_middle. destruct (links_node h _ a x d b (qo_links _ _ _ _ Hq)) as [Hx _]. unfold prev_of, next_of. cbn [when_some]. rewrite Hx. cbn [mbind option_bind prev next].
  by rewrite last_or_fst, first_or_fst.
Qed.

Lemma try_merge h q A x y B sa s1 s2 sb f : chain h q (A ++ x :: y :: B) (sa ++ s1 :: s2 :: sb) → length sa = length A →
  ∃ allow h' q' r, _quicklistNodeAllowMerge h (Some x) (Some y) f = Some allow ∧ _quicklistNodeAllowMerge h (Some y) (Some x) f = Some allow ∧
    merge_if junk ljunk alloc h q allow (Some x) (Some y) = Some (h', q', r) ∧ (fill q' = fill q ∧ qcount q' = qcount q) ∧
    if allow then ∃ z, r = Some z ∧ (z = x ∨ z = y) ∧ chain h' q' (A ++ z :: B) (sa ++ (s1 ++ s2) :: sb) else h' = h ∧ q' = q.
Proof.
  intros Hch Hla. destruct (chain_pair _ _ _ _ _ _ _ Hch) as (a & dx & dy & b & Hq & <- & <- & Hc & Hu). rewrite length_fmap in Hla.
  destruct (allow_merge_spec h _ _ _ (length a) (S (length a)) x y dx dy s1 s2 f Hq) as (r & E1 & E2 & Hr).
  - by apply list_lookup_middle.
  - rewrite app_cons_assoc. apply list_lookup_middle. rewrite length_app. simpl. lia.
  - by apply list_lookup_middle.
  - rewrite app_cons_assoc. apply list_lookup_middle. rewrite length_app. simpl. lia.
  - unfold merge_if. destruct r; [|by eexists false, h, q, None; split_and!].
    destruct (Hr eq_refl) as [Ht Hs]. destruct (merge_ok h q a.*1 x y b.*1 sa s1 s2 sb Hch) as (h' & q' & z & E & Hz & Hch' & F); [by rewrite length_fmap|done..|].
    exists true, h', q', (Some z). split; [done|]. split; [done|]. split; [exact E|]. split; [done|]. by exists z.
Qed.

Lemma allow_none_r h p f : _quicklistNodeAllowMerge h p None f = Some false.
Proof. by destruct p. Qed.

Lemma snoc_parts {T} (l : list T) x : last l = Some x → ∃ l', l = l' ++ [x].
Proof. destruct l as [|y l _] using rev_ind; [done|]. rewrite last_snoc. intros [= ->]. by exists l. Qed.

Lemma snoc_len {T U} (l : list T) (m : list U) x : length m = length (l ++ [x]) → ∃ m' y, m = m' ++ [y] ∧ length m' = length l.
Proof. destruct m as [|y m _] using rev_ind; rewrite !length_app; simpl; [lia|]. intros E. exists m, y. split; [done|lia]. Qed.

Lemma chain_lens h q A x B sa s sb : chain h q (A ++ x :: B) (sa ++ s :: sb) → length sa = length A → length sb = length B.
Proof. intros (_ & H & _)%chain_size Hl. rewrite !length_app in H. simpl in H. lia. Qed.

(** The two nodes before [c]. *)
Lemma merge_before h q A c B sa s sb : chain h q (A ++ c :: B) (sa ++ s :: sb) → length sa = length A →
  ∃ pp allow h' q' r A' sa', prev_of h (last A) = Some pp ∧ _quicklistNodeAllowMerge h (last A) pp (fill q) = Some allow ∧ merge_if junk ljunk alloc h q allow pp (last A) = Some (h', q', r) ∧
    chain h' q' (A' ++ c :: B) (sa' ++ s :: sb) ∧ length sa' = length A' ∧ concat sa' = concat sa ∧ fill q' = fill q ∧ qcount q' = qcount q.
Proof.
  intros Hch Hl. destruct (last A) as [p|] eqn:Ep.
  2: { exists None, false, h, q, None, A, sa. split_and!; done. }
  apply snoc_parts in Ep as (A1 & ->). destruct (snoc_len _ _ _ Hl) as (sa1 & s2 & -> & Hl1). rewrite <- !app_assoc in Hch. simpl in Hch. destruct (chain_links _ _ _ _ _ _ Hch) as [-> _]. exists (last A1).
  destruct (last A1) as [pp|] eqn:Epp.
  2: { eexists false, h, q, None, (A1 ++ [p]), (sa1 ++ [s2]). rewrite allow_none_r, <- !app_assoc. split_and!; done. }
  apply snoc_parts in Epp as (A0 & ->). destruct (snoc_len _ _ _ Hl1) as (sa0 & s1 & -> & Hl0). rewrite <- !app_assoc in Hch. simpl in Hch.
  destruct (try_merge h q A0 pp p (c :: B) sa0 s1 s2 (s :: sb) (fill q) Hch Hl0) as (allow & h' & q' & r & _ & E2 & E3 & [F F'] & Hres). exists allow, h', q', r. destruct allow.
  - destruct Hres as (z & -> & _ & Hch'). exists (A0 ++ [z]), (sa0 ++ [s1 ++ s2]). rewrite <- !app_assoc. split_and!; try done; [rewrite !length_app; simpl; lia|]. rewrite !concat_app. simpl. by rewrite !app_nil_r, ?app_assoc.
  - destruct Hres as [-> ->]. exists ((A0 ++ [pp]) ++ [p]), ((sa0 ++ [s1]) ++ [s2]). rewrite <- !app_assoc. split_and!; try done. rewrite !length_app. simpl. lia.
Qed.

(** The two nodes after [c]. *)
Lemma merge_after h q A c B sa s sb : chain h q (A ++ c :: B) (sa ++ s :: sb) → length sa = length A → ∀ nn, (next_of h (head B) = Some nn) → 
  ∃ allow h' q' r B' sb', _quicklistNodeAllowMerge h (head B) nn (fill q) = Some allow ∧ merge_if junk ljunk alloc h q allow (head B) nn = Some (h', q', r) ∧
    chain h' q' (A ++ c :: B') (sa ++ s :: sb') ∧ concat sb' = concat sb ∧ fill q' = fill q ∧ qcount q' = qcount q.
Proof.
  intros Hch Hl nn Hnn. pose proof (chain_lens _ _ _ _ _ _ _ _ Hch Hl) as Hlb. destruct B as [|n B]; [by exists false, h, q, None, [], sb|]. destruct sb as [|s1 sb]; [done|].
  rewrite (app_cons_assoc A), (app_cons_assoc sa) in Hch. destruct (chain_links _ _ _ _ _ _ Hch) as [_ Hnx]. change (head (n :: B)) with (Some n) in *. rewrite Hnx in Hnn. injection Hnn as <-. destruct B as [|n2 B].
  { exists false, h, q, None, [n], (s1 :: sb). rewrite allow_none_r. rewrite (app_cons_assoc A), (app_cons_assoc sa). split_and!; done. }
  destruct sb as [|s2 sb]; [done|]. destruct (try_merge h q (A ++ [c]) n n2 B (sa ++ [s]) s1 s2 sb (fill q) Hch) as (allow & h' & q' & r & E1 & _ & E3 & [F F'] & Hres); [rewrite !length_app; simpl; lia|].
  exists allow, h', q', r. change (head (n2 :: B)) with (Some n2). destruct allow.
  - destruct Hres as (z & -> & _ & Hch'). exists (z :: B), ((s1 ++ s2) :: sb). rewrite (app_cons_assoc A), (app_cons_assoc sa). split_and!; try done. simpl. by rewrite <- app_assoc.
  - destruct Hres as [-> ->]. exists (n :: n2 :: B), (s1 :: s2 :: sb). rewrite (app_cons_assoc A), (app_cons_assoc sa). split_and!; done.
Qed.

Lemma merge_nodes_ok h q A c B sa s sb : chain h q (A ++ c :: B) (sa ++ s :: sb) → length sa = length A →
  ∃ h' q' ids' sss', _quicklistMergeNodes junk ljunk alloc h q c = Some (h', q') ∧ chain h' q' ids' sss' ∧ concat sss' = concat (sa ++ s :: sb) ∧ fill q' = fill q ∧ qcount q' = qcount q.
Proof.
  intros Hch Hl. unfold _quicklistMergeNodes. destruct (chain_links _ _ _ _ _ _ Hch) as [-> Hnx]. cbn [mbind option_bind].
  destruct (merge_before h q A c B sa s sb Hch Hl) as (pp & al1 & h1 & q1 & r1 & A1 & sa1 & -> & E1 & E2 & Hch1 & Hl1 & C1 & F1 & G1). cbn [mbind option_bind]. rewrite Hnx. cbn [mbind option_bind].
  assert (∃ nn, next_of h (head B) = Some nn ∧ next_of h1 (head B) = Some nn) as (nn & Hn0 & Hn1).
  { destruct B as [|n B]; [by exists None|]. exists (head B). change (head (n :: B)) with (Some n). rewrite (app_cons_assoc A) in Hch. rewrite (app_cons_assoc A1) in Hch1. destruct (chain_links _ _ _ _ _ _ Hch) as [_ ->]. by destruct (chain_links _ _ _ _ _ _ Hch1) as [_ ->]. }
  rewrite Hn0. cbn [mbind option_bind]. rewrite E1. cbn [mbind option_bind]. rewrite E2. cbn [mbind option_bind].
  destruct (merge_after h1 q1 A1 c B sa1 s sb Hch1 Hl1 nn Hn1) as (al2 & h2 & q2 & r2 & B2 & sb2 & E3 & E4 & Hch2 & C2 & F2 & G2). rewrite F1 in E3. rewrite E3. cbn [mbind option_bind]. rewrite E4. cbn [mbind option_bind].
  destruct (chain_links _ _ _ _ _ _ Hch2) as [-> _]. cbn [mbind option_bind].
  assert (∃ al3 h3 q3 r3 t A3 sa3 s3, _quicklistNodeAllowMerge h2 (Some c) (last A1) (fill q) = Some al3 ∧ merge_if junk ljunk alloc h2 q2 al3 (last A1) (Some c) = Some (h3, q3, r3) ∧
    (if al3 then r3 else Some c) = Some t ∧ chain h3 q3 (A3 ++ t :: B2) (sa3 ++ s3 :: sb2) ∧ length sa3 = length A3 ∧ concat sa3 ++ s3 = concat sa1 ++ s ∧ fill q3 = fill q2 ∧ qcount q3 = qcount q2) as
    (al3 & h3 & q3 & r3 & t & A3 & sa3 & s3 & -> & E6 & Et & Hch3 & Hl3 & C3 & F3 & G3).
  { destruct (last A1) as [p|] eqn:Ep; [|by exists false, h2, q2, None, c, A1, sa1, s; rewrite allow_none_r]. apply snoc_parts in Ep as (A0 & ->). destruct (snoc_len _ _ _ Hl1) as (sa0 & s0 & -> & Hl0). rewrite <- !app_assoc in Hch2. simpl in Hch2.
    destruct (try_merge h2 q2 A0 p c B2 sa0 s0 s sb2 (fill q) Hch2 Hl0) as (al3 & h3 & q3 & r3 & _ & E5 & E6 & [F F'] & Hres). exists al3, h3, q3, r3. destruct al3.
    - destruct Hres as (z & -> & _ & Hch'). exists z, A0, sa0, (s0 ++ s). split_and!; try done. rewrite concat_app. simpl. by rewrite app_nil_r, <- app_assoc.
    - destruct Hres as [-> ->]. exists c, (A0 ++ [p]), (sa0 ++ [s0]), s. rewrite <- !app_assoc. split_and!; try done. }
  cbn [mbind option_bind]. rewrite E6. cbn [mbind option_bind]. rewrite Et. cbn [mbind option_bind]. destruct (chain_links _ _ _ _ _ _ Hch3) as [_ ->]. cbn [mbind option_bind].
  assert (concat (sa3 ++ s3 :: sb2) = concat (sa ++ s :: sb)) as CC by (rewrite !concat_app; simpl; rewrite !app_assoc, C3, C2, C1; done).
  pose proof (chain_lens _ _ _ _ _ _ _ _ Hch3 Hl3) as Hlb. destruct B2 as [|n B2].
  { change (head []) with (@None positive). rewrite allow_none_r. cbn [mbind option_bind merge_if]. exists h3, q3, (A3 ++ [t]), (sa3 ++ s3 :: sb2). split_and!; try done; congruence. }
  destruct sb2 as [|s4 sb2]; [done|]. change (head (n :: B2)) with (Some n). destruct (try_merge h3 q3 A3 t n B2 sa3 s3 s4 sb2 (fill q) Hch3 Hl3) as (al4 & h4 & q4 & r4 & -> & _ & E8 & [F F'] & Hres). cbn [mbind option_bind]. rewrite E8. cbn [mbind option_bind]. destruct al4.
  - destruct Hres as (z & -> & _ & Hch'). eexists h4, q4, _, _. split; [done|]. split; [exact Hch'|]. split; [|split; congruence]. rewrite <- CC, !concat_app. simpl. by rewrite <- app_assoc.
  - destruct Hres as [-> ->]. eexists h3, q3, _, _. split; [done|]. split; [exact Hch3|]. split; [done|split; congruence].
Qed.

(** ** Splitting a node *)

(** A node outside of the list. *)
Lemma set_new h q ns x d d' : links h q ns → x ∉ ns.*1 → h !! x = Some (LNode None None d) →
  ∃ h', set_data h x d' = Some h' ∧ links h' q ns ∧ h' !! x = Some (LNode None None d') ∧ data h' x = Some d'.
Proof.
  intros Hl Hx Hn. rewrite (set_data_Some h x _ _ Hn). eexists. split; [done|]. unfold data. rewrite lookup_insert_eq. split_and!; try done. eapply links_frame; [exact Hl|]. intros y Hy. apply lookup_insert_ne. by intros <-.
Qed.

Lemma store_new h q ns x d b ss : links h q ns → x ∉ ns.*1 → h !! x = Some (LNode None None d) → zl_holds b ss →
  ∃ h', store_zl h x b = Some h' ∧ links h' q ns ∧ h' !! x = Some (LNode None None (QData (QZl b) (Z.of_nat (length b)) (count d) (qenc d) (recompress d))).
Proof.
  intros Hl Hx Hn Hb. unfold store_zl, data. rewrite Hn. cbn [fmap option_fmap option_map mbind option_bind value]. rewrite (bloblen_holds b ss Hb). cbn [mbind option_bind].
  destruct (set_new h q ns x d (QData (QZl b) (Z.of_nat (length b)) (count d) (qenc d) (recompress d)) Hl Hx Hn) as (h' & E & Hl' & Hn' & _). by exists h'.
Qed.

Lemma fill_new h q ns x d b ss n : links h q ns → x ∉ ns.*1 → h !! x = Some (LNode None None d) → zl_holds b ss →
  ∃ h1 h2, set_data h x (set_count (set_zl d (QZl b)) n) = Some h1 ∧ store_zl h1 x b = Some h2 ∧ links h2 q ns ∧
    h2 !! x = Some (LNode None None (QData (QZl b) (Z.of_nat (length b)) n (qenc d) (recompress d))).
Proof.
  intros Hl Hx Hn Hb. destruct (set_new h q ns x d (set_count (set_zl d (QZl b)) n) Hl Hx Hn) as (h1 & E1 & Hl1 & Hn1 & _). destruct (store_new h1 q ns x _ b ss Hl1 Hx Hn1 Hb) as (h2 & E2 & Hl2 & Hn2). by exists h1, h2.
Qed.

Lemma delete_part b ss i k num : zl_holds b ss → 0 ≤ i → k = Z.to_nat i → total ss ≤ 2 ^ 31 → (k ≤ length ss)%nat →
  ∃ b', ziplistDeleteRange junk b i num = Some b' ∧ zl_holds b' (take k ss ++ drop (k + Z.to_nat num) ss).
Proof.
  intros Hb Hi -> Ht Hk. destruct (decide (i < Z.of_nat (length ss))) as [Hlt|Hge].
  - apply delete_range_holds; try done; [lia|]. unfold norm_index. by rewrite (proj2 (Z.leb_le 0 i)), (proj2 (Z.ltb_lt i _)) by lia.
  - exists b. rewrite (delete_range_none junk b ss i num Hb); [|lia|]. 2: { apply norm_index_range. rewrite (proj2 (Z.ltb_ge i 0)) by lia. lia. }
    split; [done|]. by rewrite take_ge, drop_ge, app_nil_r by lia.
Qed.

(** What stays in the node and what goes to the new one. *)
Definition stay_part (after : bool) (k : nat) (ss : list (list Z)) := if after then take (S k) ss else drop k ss.
Definition new_part (after : bool) (k : nat) (ss : list (list Z)) := if after then drop (S k) ss else take k ss.

Lemma parts_total after k ss : total (stay_part after k ss) ≤ total ss ∧ total (new_part after k ss) ≤ total ss ∧ length (new_part after k ss) = (if after then length ss - S k else length ss `min` k)%nat.
Proof.
  destruct after; unfold stay_part, new_part.
  - pose proof (f_equal total (take_drop (S k) ss)) as E. rewrite total_app in E. rewrite length_drop. pose proof (total_nonneg (take (S k) ss)). pose proof (total_nonneg (drop (S k) ss)). lia.
  - pose proof (f_equal total (take_drop k ss)) as E. rewrite total_app in E. rewrite length_take. pose proof (total_nonneg (take k ss)). pose proof (total_nonneg (drop k ss)). lia.
Qed.

Lemma stay_parts after k ss : (k < length ss)%nat → stay_part after k ss ≠ [] ∧ (length (stay_part after k ss) ≤ length ss)%nat.
Proof.
  intros Hk. destruct after; unfold stay_part; (split; [intros E; apply (f_equal length) in E|]); rewrite ?length_take, ?length_drop in *; cbn [length] in *; lia.
Qed.

Lemma split_ok h q ns i x d ss k (after : bool) : links h q ns → ns !! i = Some (x, d) → node_holds d ss → is_raw d → (k < length ss)%nat →
  ∃ h' y d' b', _quicklistSplitNode junk h x (Z.of_nat k) after = Some (h', y) ∧ links h' q (<[i := (x, d')]> ns) ∧ node_ok d' (stay_part after k ss) ∧ is_raw d' ∧ recompress d' = recompress d ∧
    y ∉ ns.*1 ∧ zl_holds b' (new_part after k ss) ∧
    h' !! y = Some (LNode None None (QData (QZl b') (Z.of_nat (length b')) (Z.of_nat (length (new_part after k ss))) ENCODING_RAW false)).
Proof.
  intros Hl Hi Hok Hr Hk. unfold _quicklistSplitNode, quicklistCreateNode. rewrite (links_data h q ns i x d Hl Hi). cbn [mbind option_bind]. destruct (node_raw d ss Hok Hr) as (b & -> & Hb & Hsz). cbn [mbind option_bind].
  assert (mread b 0 (sz d) = Some b) as ->. { pose proof (mread_app [] b [] 0 (sz d) eq_refl Hsz) as E. by rewrite app_nil_r in E. } cbn [mbind option_bind].
  set (y := fresh (dom h : gset positive)). pose proof (fresh_not_in h q ns Hl) as Hy. set (h0 := <[y := _]> h). pose proof (links_insert_fresh h q ns (LNode None None (QData QNull 0 0 ENCODING_RAW false)) Hl) as Hl0. fold y h0 in Hl0. fold y in Hy.
  pose proof (no_total _ _ Hok) as Ht. pose proof (no_small _ _ Hok) as Hsm. destruct (parts_total after k ss) as (T1 & T2 & N2). destruct (stay_parts after k ss Hk) as [S1 S2].
  destruct (delete_part b ss (if after then Z.of_nat k + 1 else 0) (if after then S k else 0) (u32 (if after then -1 else Z.of_nat k)) Hb) as (b1 & -> & Hb1); [destruct after; lia..|]. cbn [mbind option_bind].
  assert (take (if after then S k else 0) ss ++ drop ((if after then S k else 0) + Z.to_nat (u32 (if after then -1 else Z.of_nat k))) ss = stay_part after k ss) as E1.
  { unfold stay_part. destruct after; [rewrite (drop_ge ss), app_nil_r; [done|]; change (u32 (-1)) with (2 ^ 32 - 1); lia|]. rewrite uwrap_small by (unfold in_u; lia). simpl. by rewrite Nat2Z.id. }
  rewrite E1 in Hb1. destruct (len_holds b1 _ Hb1) as (b1' & -> & Hb1'). cbn [mbind option_bind].
  destruct (fill_node h0 q ns i x d b1' _ Hl0 Hi Hr Hb1' S1) as (h1 & h2 & d' & -> & E2 & Hl2 & Hok' & Hr' & Hf' & Hfr); [lia|lia|]. cbn [mbind option_bind]. rewrite E2. cbn [mbind option_bind].
  destruct (delete_part b ss (if after then 0 else Z.of_nat k) (if after then 0 else k) (u32 (if after then Z.of_nat k + 1 else -1)) Hb) as (b2 & -> & Hb2); [destruct after; lia..|]. cbn [mbind option_bind].
  assert (take (if after then 0 else k) ss ++ drop ((if after then 0 else k) + Z.to_nat (u32 (if after then Z.of_nat k + 1 else -1))) ss = new_part after k ss) as E3.
  { unfold new_part. destruct after; [|rewrite (drop_ge ss), app_nil_r; [done|]; change (u32 (-1)) with (2 ^ 32 - 1); lia]. rewrite uwrap_small by (unfold in_u; lia). simpl. f_equal. lia. }
  rewrite E3 in Hb2. destruct (len_holds b2 _ Hb2) as (b2' & -> & Hb2'). cbn [mbind option_bind].
  assert (h2 !! y = Some (LNode None None (QData QNull 0 0 ENCODING_RAW false))) as Hn. { destruct Hfr as [_ Hfr]. rewrite Hfr by done. apply lookup_insert_eq. }
  assert (y ∉ (<[i := (x, d')]> ns).*1) as Hy2 by (by rewrite (fst_insert ns i x d)).
  destruct (fill_new h2 q _ y _ b2' _ (u16 (Z.of_nat (length (new_part after k ss)))) Hl2 Hy2 Hn Hb2') as (h3 & h4 & E4 & E5 & Hl4 & Hn4). assert (data h2 y = Some (QData QNull 0 0 ENCODING_RAW false)) as -> by (unfold data; by rewrite Hn). cbn [mbind option_bind].
  rewrite E4. cbn [mbind option_bind]. rewrite E5. cbn [mbind option_bind]. exists h4, y, d', b2'. split_and!; try done. rewrite Hn4. cbn [qenc recompress]. rewrite uwrap_small; [done|]. unfold in_u. destruct after; lia.
Qed.

(** ** Inserting *)

Definition spliced (L : list (list Z)) (m : nat) (v : list Z) : list (list Z) := take m L ++ v :: drop m L.

Lemma spliced_concat (sss : list (list (list Z))) i ss k v : sss !! i = Some ss → (k ≤ length ss)%nat →
  concat (<[i := spliced ss k v]> sss) = spliced (concat sss) (length (concat (take i sss)) + k) v.
Proof.
  intros Hs Hk. destruct (concat_insert sss i ss (spliced ss k v) Hs) as [E ->]. unfold spliced. rewrite E, take_app_add, drop_app_add. rewrite take_app_le, drop_app_le by lia. by rewrite <- !app_assoc.
Qed.

Lemma spliced_facts ss k v : (k ≤ length ss)%nat → length (spliced ss k v) = S (length ss) ∧ total (spliced ss k v) = total ss + total [v] ∧ spliced ss k v ≠ [].
Proof.
  intros Hk. unfold spliced. rewrite length_app, length_take. cbn [length]. rewrite length_drop. split; [lia|]. split; [|by destruct (take k ss)].
  pose proof (f_equal total (take_drop k ss)) as E. rewrite total_app in *. simpl. lia.
Qed.

Lemma insert_into_ok h q ns sss i x d ss k v at_ w : qok h q ns sss → compress q = 0 → ns !! i = Some (x, d) → sss !! i = Some ss → room ss (Z.of_nat (length v)) → (k ≤ length ss)%nat →
  size sss + 1 < 2 ^ 48 →
  (∀ b, zipl d = Some b → zl_holds b ss → ∃ p b', at_ b = Some p ∧ match p with Some p => ziplistInsert junk b p v | None => ziplistPush junk b v w end = Some b' ∧ zl_holds b' (spliced ss k v)) →
  ∃ h', insert_into junk ljunk alloc h x v at_ w = Some h' ∧ becomes q (spliced (concat sss) (length (concat (take i sss)) + k) v) h' (set_qcount q (u64 (qcount q + 1))).
Proof.
  intros Hq Hc Hi Hs [Hrm1 Hrm2] Hk Hsm Hat. destruct (qok_at _ _ _ _ _ _ _ Hq Hi) as (ss' & Hs' & [Hok Hcnt] & Hfl). rewrite Hs in Hs'. injection Hs' as <-. pose proof (plain_raw _ _ _ _ _ _ _ Hq Hc Hi) as Hr.
  unfold insert_into, quicklistDecompressNodeForUse. pose proof (links_data h q ns i x d (qo_links _ _ _ _ Hq) Hi) as Hd. rewrite Hd. cbn [mbind option_bind]. rewrite Hr. change (ENCODING_RAW =? ENCODING_LZF) with false. cbv iota. cbn [mbind option_bind]. rewrite Hd. cbn [mbind option_bind].
  destruct (node_raw d ss Hok Hr) as (b & Hb & Hbl & _). rewrite Hb. cbn [mbind option_bind]. destruct (Hat b Hb Hbl) as (p & b' & -> & E' & Hb'). cbn [mbind option_bind]. rewrite E'. cbn [mbind option_bind].
  destruct (add_count_at h q ns i x d 1 (qo_links _ _ _ _ Hq) Hi) as (h1 & -> & Hl1 & _). cbn [mbind option_bind]. pose proof (lookup_lt_Some _ _ _ Hi) as Hlt.
  destruct (store_zl_at h1 q _ i x (set_count d (u16 (count d + 1))) b' (spliced ss k v) Hl1) as (h2 & -> & Hl2 & _); [by apply list_lookup_insert_eq|done|]. cbn [mbind option_bind]. rewrite list_insert_insert_eq in Hl2. set (d2 := QData _ _ _ _ _) in Hl2.
  assert (data h2 x = Some d2) as Hd2 by (by eapply (links_data h2 q _ i); [|apply list_lookup_insert_eq]). rewrite (plain_recompress ljunk alloc h2 x d2 Hd2) by done. exists h2. split; [done|]. split; [|done].
  destruct (spliced_facts ss k v Hk) as (L1 & T1 & N1). simpl in T1. exists (<[i := (x, d2)]> ns), (<[i := spliced ss k v]> sss). split; [|by apply spliced_concat].
  assert (size (<[i := spliced ss k v]> sss) = size sss + 1) as Esz by (destruct (concat_insert sss i ss (spliced ss k v) Hs) as [-> ->]; rewrite !length_app, L1; lia).
  rewrite (qo_count _ _ _ _ Hq), u64_count by lia. rewrite <- Esz. eapply qok_update; try done; [|lia]. split.
  - unfold d2. cbn [snd qenc set_count count recompress]. rewrite Hr. apply raw_holds; (done || lia).
  - unfold d2. simpl. rewrite Hcnt, L1, uwrap_small by (unfold in_u; lia). lia.
Qed.

(** A new node goes next to the node [x]. *)
Lemma insert_plain h q a b sa sb y dy ss (after : bool) : links h q (a ++ b) → Forall2 (λ nd, node_ok nd.2) (a ++ b) (sa ++ sb) → length sa = length a → compress q = 0 →
  Forall (λ nd, is_raw nd.2 ∧ recompress nd.2 = false) (a ++ b) → qlen q = Z.of_nat (length (a ++ b)) → in_u 64 (qcount q) → size (sa ++ ss :: sb) < 2 ^ 48 →
  y ∉ (a ++ b).*1 → h !! y = Some (LNode None None dy) → is_raw dy → recompress dy = false → node_ok dy ss → ((if after then a else b) = [] → a ++ b = []) →
  ∃ h' q', __quicklistInsertNode ljunk alloc h q (if after then last_or a None else first_or b None) y after = Some (h', q') ∧ chain h' q' (a.*1 ++ y :: b.*1) (sa ++ ss :: sb) ∧ fill q' = fill q ∧ qcount q' = qcount q ∧ frame1 h h' (a ++ b) y.
Proof.
  intros Hl Hn Hla Hc Hpl Hlen Hu Hsm Hy Hhy Hr Hf [Hok Hcnt] Hab. pose proof (concat_ge _ (nodes_ne _ _ Hn)) as Hge. pose proof (Forall2_length _ _ _ Hn) as Hln. assert (size (sa ++ sb) ≤ size (sa ++ ss :: sb)) as Hle by (rewrite !size_app, size_cons; lia).
  apply Forall2_app_inv in Hn as [Ha Hb]; [|done]. assert (settled (compress q) (a ++ b)) as Hset by (apply all_raw_settled; (eapply Forall_impl; [exact Hpl|]; by intros nd []); done).
  assert (Forall2 (λ nd, node_ok nd.2) (a ++ (y, dy) :: b) (sa ++ ss :: sb)) as Hnew by (apply Forall2_app; [done|]; by constructor).
  destruct (insert_node_spec ljunk alloc Halloc h q a b (sa ++ ss :: sb) y (LNode None None dy) ss after Hl) as (h' & q' & ns' & E & Hl' & Hs & Hset' & Hfr & F1 & F2 & F3 & F4); try done; try lia.
  - by apply ok_hold.
  - rewrite <- Hla. by apply list_lookup_middle.
  - exists h', q'. split; [done|]. split_and!; try done. split; [by rewrite F4|]. split; [by rewrite F1|]. exists ns'. split; [|by rewrite (same_nodes_fst _ _ Hs), fmap_app, fmap_cons].
    constructor; cbn [qlen compress set_qcount qcount]; try done.
    + by apply links_count.
    + by eapply same_nodes_node_ok.
    + rewrite F2, Hlen, (same_nodes_length _ _ Hs), !length_app. simpl. lia.
    + lia.
    + by rewrite F4.
Qed.

Lemma chain_becomes q L h' q' ids sss : chain h' q' ids sss → concat sss = L → fill q' = fill q → compress q = 0 → qcount q' + 1 = Z.of_nat (length L) → Z.of_nat (length L) < 2 ^ 48 →
  becomes q L h' (set_qcount q' (u64 (qcount q' + 1))).
Proof.
  intros (Hc & Hu & ns & Hq & _) <- Hf Hc' Hn Hsm. rewrite Hn, uwrap_small by (unfold in_u; lia). split; [|split; [done|simpl; congruence]]. by exists ns, sss.
Qed.

(** Before or after entry [k] of the node, which has room. *)
Lemma insert_here h q ns sss i x d ss k p v (after : bool) zi : qok h q ns sss → compress q = 0 → ns !! i = Some (x, d) → sss !! i = Some ss → (k < length ss)%nat →
  (∀ b, zipl d = Some b → zl_at b ss k p) → zi = Some p → room ss (Z.of_nat (length v)) → size sss + 1 < 2 ^ 48 →
  ∃ h', insert_into junk ljunk alloc h x v (λ b, if after then zi ← zi; ziplistNext b zi else zi ← zi; Some (Some zi)) ZIPLIST_TAIL = Some h' ∧
    becomes q (spliced (concat sss) (length (concat (take i sss)) + (if after then S k else k)) v) h' (set_qcount q (u64 (qcount q + 1))).
Proof.
  intros Hq Hc Hi Hs Hk Hat -> Hrm Hsm. pose proof Hrm as [_ Hrm2]. pose proof (total_nonneg ss). apply (insert_into_ok h q ns sss i x d ss); try done; [destruct after; lia|]. intros b Hb Hbl. specialize (Hat b Hb). destruct after; cbn [mbind option_bind].
  - destruct (next_at b ss k p Hat) as (r & -> & Hr). case_decide as Hlt.
    + destruct Hr as (p' & -> & Hat'). destruct (insert_holds junk b ss (S k) p' v Hat') as (b' & E & Hb'); [lia|lia|]. by exists (Some p'), b'.
    + subst r. destruct (push_holds junk b ss v ZIPLIST_TAIL Hbl) as (b' & E & Hb'); [lia|lia|]. exists None, b'. split_and!; try done. unfold spliced. by rewrite take_ge, drop_ge by lia.
  - destruct (insert_holds junk b ss k p v Hat) as (b' & E & Hb'); [lia|lia|]. by exists (Some p), b'.
Qed.

(** The node is split at entry [k] and the string goes to the end of the new node that is next to that entry. *)
Lemma insert_split h q ns sss i x d ss k v (after : bool) : qok h q ns sss → compress q = 0 → ns !! i = Some (x, d) → sss !! i = Some ss → (k < length ss)%nat →
  total (concat sss) + Z.of_nat (length v) + 18 ≤ 2 ^ 30 → size sss + 1 < 2 ^ 48 →
  ∃ h0 y h1 h2 h3 q3 h4 q4, _quicklistSplitNode junk h x (Z.of_nat k) after = Some (h0, y) ∧ push_existing junk h0 (Some y) v (if after then ZIPLIST_HEAD else ZIPLIST_TAIL) = Some h1 ∧
    add_count h1 y 1 = Some h2 ∧ __quicklistInsertNode ljunk alloc h2 q (Some x) y after = Some (h3, q3) ∧ _quicklistMergeNodes junk ljunk alloc h3 q3 x = Some (h4, q4) ∧
    becomes q (spliced (concat sss) (length (concat (take i sss)) + (if after then S k else k)) v) h4 (set_qcount q4 (u64 (qcount q4 + 1))).
Proof.
  intros Hq Hc Hi Hs Hk Ht Hsm. destruct (qok_at _ _ _ _ _ _ _ Hq Hi) as (ss' & Hs' & [Hok Hcnt] & Hfl). rewrite Hs in Hs'. injection Hs' as <-. pose proof (plain_raw _ _ _ _ _ _ _ Hq Hc Hi) as Hr.
  destruct (split_ok h q ns i x d ss k after (qo_links _ _ _ _ Hq) Hi Hok Hr Hk) as (h0 & y & d' & b' & -> & Hl0 & Hok' & Hr' & Hf' & Hy & Hb' & Hn0). pose proof (total_sub sss i ss Hs) as Hts. pose proof (total_nonneg ss) as Hpos.
  destruct (parts_total after k ss) as (T1 & T2 & N2). pose proof (no_small _ _ Hok) as Hsm16. set (np := new_part after k ss) in *. assert (S (length np) ≤ length ss)%nat as Nnp by (rewrite N2; destruct after; lia). set (w := if after then ZIPLIST_HEAD else ZIPLIST_TAIL).
  destruct (push_holds junk b' np v w Hb') as (b2 & E2 & Hb2); [lia|lia|]. set (nss := if after then v :: np else np ++ [v]). assert (zl_holds b2 nss) as Hb3 by (unfold nss, w in *; by destruct after).
  assert (length nss = S (length np)) as Lnss by (unfold nss; destruct after; [done|]; rewrite length_app; simpl; lia). assert (total nss = total np + total [v]) as Tnss by (unfold nss; destruct after; [simpl|rewrite total_app; simpl]; lia). simpl in Tnss.
  pose proof (lookup_lt_Some _ _ _ Hi) as Hlt. pose proof (qok_len _ _ _ _ Hq) as [Hln _]. set (ns0 := <[i := (x, d')]> ns) in *. set (sp := stay_part after k ss) in *.
  set (dy := QData (QZl b') _ _ _ _) in Hn0. assert (y ∉ ns0.*1) as Hy0 by (by unfold ns0; rewrite (fst_insert ns i x d)).
  destruct (store_new h0 q ns0 y dy b2 nss Hl0 Hy0 Hn0 Hb3) as (h1 & E3 & Hl1 & Hn1). set (dy1 := QData _ _ (count dy) _ _) in Hn1. assert (data h1 y = Some dy1) as Hdy1 by (unfold data; by rewrite Hn1).
  destruct (set_new h1 q ns0 y dy1 (set_count dy1 (u16 (count dy1 + 1))) Hl1 Hy0 Hn1) as (h2 & E4 & Hl2 & Hn2 & _). set (dy2 := set_count _ _) in Hn2, E4.
  set (a := if after then take (S i) ns0 else take i ns0). set (b := if after then drop (S i) ns0 else drop i ns0). set (sa := if after then take i sss ++ [sp] else take i sss). set (sb := if after then drop (S i) sss else sp :: drop (S i) sss).
  assert (a ++ b = ns0) as Eab by (unfold a, b; destruct after; apply take_drop). assert (ns0 !! i = Some (x, d')) as Hi0 by (by apply list_lookup_insert_eq).
  assert (sa ++ sb = <[i := sp]> sss) as Esab by (unfold sa, sb; rewrite insert_take_drop by lia; destruct after; [by rewrite <- app_assoc|done]).
  assert ((if after then last_or a None else first_or b None) = Some x) as Eptr.
  { unfold a, b. destruct after; [by rewrite (take_S_r _ _ _ Hi0), last_or_snoc|]. by rewrite (drop_S _ _ _ Hi0). }
  assert (length sa = length a) as Hla by (unfold sa, a, ns0; destruct after; rewrite ?length_app, !length_take, ?length_insert; cbn [length]; lia).
  destruct (concat_insert sss i ss [] Hs) as [CL _]. assert (concat (sa ++ nss :: sb) = spliced (concat sss) (length (concat (take i sss)) + (if after then S k else k)) v) as CC.
  { rewrite CL. unfold spliced, sa, sb, nss, sp, np. rewrite take_app_add, drop_app_add. destruct after; unfold stay_part, new_part; rewrite !concat_app; simpl; rewrite ?app_nil_r, take_app_le, drop_app_le by lia; by rewrite <- !app_assoc. }
  assert (Z.of_nat (length (spliced (concat sss) (length (concat (take i sss)) + (if after then S k else k)) v)) = size sss + 1) as Lsp.
  { destruct (spliced_facts (concat sss) (length (concat (take i sss)) + (if after then S k else k)) v) as [-> _]; [|lia]. rewrite CL, !length_app. destruct after; lia. }
  destruct (insert_plain h2 q a b sa sb y dy2 nss after) as (h3 & q3 & E5 & Hch & F1 & F2 & _); rewrite ?Eab, ?Esab; try done.
  - apply Forall2_insert; [apply Hq|done].
  - unfold ns0. apply Forall_insert; [apply (qok_plain _ _ _ _ Hq Hc)|]. simpl. by rewrite Hf'.
  - unfold ns0. rewrite length_insert. apply Hq.
  - rewrite (qo_count _ _ _ _ Hq). unfold in_u. lia.
  - rewrite CC. lia.
  - split; [|unfold dy2, dy1, dy; cbn [count set_count]; rewrite Lnss, uwrap_small by (unfold in_u; lia); lia]. apply (raw_holds b2 nss _ false); try done; [by destruct nss|lia|lia].
  - intros E. exfalso. revert Eptr. destruct after; [rewrite E|rewrite E]; done.
  - rewrite Eptr in E5.
    assert (∃ A' B' sa' sb', a.*1 ++ y :: b.*1 = A' ++ x :: B' ∧ sa ++ nss :: sb = sa' ++ sp :: sb' ∧ length sa' = length A') as (A' & B' & sa' & sb' & EA & ES & EL).
    { unfold a, b, sa, sb. destruct after.
      - rewrite (take_S_r _ _ _ Hi0), fmap_app, <- !app_assoc. eexists _, _, _, _. split; [done|]. split; [done|]. unfold ns0. rewrite length_fmap, !length_take, length_insert. lia.
      - rewrite (drop_S _ _ _ Hi0), fmap_cons, (app_cons_assoc _ y), (app_cons_assoc _ nss). eexists _, _, _, _. split; [done|]. split; [done|]. unfold ns0. rewrite !length_app, length_fmap, !length_take, length_insert. simpl. lia. }
    rewrite EA, ES in Hch. destruct (merge_nodes_ok h3 q3 A' x B' sa' sp sb' Hch EL) as (h4 & q4 & ids & sss' & E6 & Hch4 & C4 & F3 & F4).
    exists h0, y, h1, h2, h3, q3, h4, q4. split; [done|]. split; [|split_and!; try done].
    + unfold push_existing. cbn [mbind option_bind]. assert (data h0 y = Some dy) as -> by (unfold data; by rewrite Hn0). cbn [mbind option_bind zipl dy zl]. fold w. rewrite E2. done.
    + unfold add_count. rewrite Hdy1. done.
    + apply (chain_becomes q _ h4 q4 ids sss'); try done; [by rewrite C4, <- ES, CC|congruence| |lia]. rewrite Lsp, F4, F2. by rewrite (qo_count _ _ _ _ Hq).
Qed.

(** A node of its own between two full nodes. *)
Lemma insert_between h q ns sss i x d v : qok h q ns sss → compress q = 0 → ns !! i = Some (x, d) → Z.of_nat (length v) ≤ 2 ^ 29 → size sss + 1 < 2 ^ 48 →
  ∃ h1 y h2 h3 q3, push_new junk h v ZIPLIST_HEAD = Some (h1, y) ∧ add_count h1 y 1 = Some h2 ∧ __quicklistInsertNode ljunk alloc h2 q (Some x) y false = Some (h3, q3) ∧
    becomes q (spliced (concat sss) (length (concat (take i sss))) v) h3 (set_qcount q3 (u64 (qcount q3 + 1))).
Proof.
  intros Hq Hc Hi Hv Hsm. destruct (push_new_spec junk h v ZIPLIST_HEAD Hv) as (dy & E1 & Hr & Hf & Hc0 & Hd). set (y := fresh (dom h : gset positive)) in *. set (h1 := <[y := _]> h) in *.
  pose proof (fresh_not_in h q ns (qo_links _ _ _ _ Hq)) as Hy. fold y in Hy. pose proof (links_insert_fresh h q ns (LNode None None dy) (qo_links _ _ _ _ Hq)) as Hl1. fold y h1 in Hl1.
  assert (h1 !! y = Some (LNode None None dy)) as Hn1 by apply lookup_insert_eq. destruct (set_new h1 q ns y dy (set_count dy (u16 (count dy + 1))) Hl1 Hy Hn1) as (h2 & E2 & Hl2 & Hn2 & _).
  pose proof (lookup_lt_Some _ _ _ Hi) as Hlt. pose proof (qok_len _ _ _ _ Hq) as [Hln _]. destruct (lookup_lt_is_Some_2 sss i ltac:(lia)) as [ss Hs]. pose proof (take_drop i ns) as Ens. pose proof (take_drop i sss) as Esss.
  assert (concat sss = concat (take i sss) ++ concat (drop i sss)) as CS by (by rewrite <- concat_app, Esss).
  assert (concat (take i sss ++ [v] :: drop i sss) = spliced (concat sss) (length (concat (take i sss))) v) as CC.
  { unfold spliced. by rewrite CS, take_app_length, drop_app_length, concat_app. }
  assert (Z.of_nat (length (spliced (concat sss) (length (concat (take i sss))) v)) = size sss + 1) as Lsp.
  { destruct (spliced_facts (concat sss) (length (concat (take i sss))) v) as [-> _]; [|lia]. rewrite CS, length_app. lia. }
  destruct (insert_plain h2 q (take i ns) (drop i ns) (take i sss) (drop i sss) y (set_count dy (u16 (count dy + 1))) [v] false) as (h3 & q3 & E3 & Hch & F1 & F2 & _); rewrite ?Ens, ?Esss; try done; try apply Hq.
  - rewrite !length_take. lia.
  - apply (qok_plain _ _ _ _ Hq Hc).
  - rewrite (qo_count _ _ _ _ Hq). unfold in_u. lia.
  - rewrite CC. lia.
  - split; [|simpl; by rewrite Hc0]. destruct Hd as [G1 G2 G3 G4]. by constructor.
  - intros E. apply (f_equal length) in E. rewrite length_drop in E. simpl in E. lia.
  - rewrite (drop_S _ _ _ Hi) in E3. cbn [first_or] in E3. exists h1, y, h2, h3, q3. split_and!; try done.
    + unfold add_count, data. rewrite Hn1. done.
    + apply (chain_becomes q _ h3 q3 _ _ Hch); try done; [|lia]. by rewrite Lsp, F2, (qo_count _ _ _ _ Hq).
Qed.

Lemma insert_ok h q ns sss m e v (after : bool) : qok h q ns sss → compress q = 0 → entry_at ns sss m e → 0 ≤ eoffset e → Z.of_nat (length v) ≤ 2 ^ 29 →
  total (concat sss) + Z.of_nat (length v) + 18 ≤ 2 ^ 30 → size sss + 1 < 2 ^ 48 →
  ∃ h' q', _quicklistInsert junk ljunk alloc h q e v after = Some (h', q') ∧ becomes q (spliced (concat sss) (if after then S m else m) v) h' q'.
Proof.
  intros Hq Hc (i & x & d & ss & b & k & p & w & Hi & Hs & Hr & Hb & Hat & Hk & -> & _ & _ & Hoff & Hx & Hz & _) Ho Hv Ht Hsm.
  assert (eoffset e = Z.of_nat k) as Ek. { pose proof (norm_index_inv _ _ _ Hoff) as E0. by rewrite (proj2 (Z.leb_le 0 _) Ho) in E0. }
  replace (if after then S (length (concat (take i sss)) + k) else (length (concat (take i sss)) + k))%nat with (length (concat (take i sss)) + (if after then S k else k))%nat by (destruct after; lia).
  destruct (qok_at _ _ _ _ _ _ _ Hq Hi) as (ss' & Hs' & [Hok Hcnt] & Hfl). rewrite Hs in Hs'. injection Hs' as <-. unfold _quicklistInsert. rewrite Hx. pose proof (links_lookup h q ns i x d (qo_links _ _ _ _ Hq) Hi) as Hnd. rewrite Hnd. cbn [mbind option_bind next prev value].
  assert (ptr ns i = Some x) as Hpx by (unfold ptr; by rewrite Hi). destruct (allow_at h q ns sss i (Z.of_nat (length v)) Hq) as (al & E0 & Hal); [lia|]. rewrite Hpx in E0. rewrite E0. cbn [mbind option_bind].
  destruct (allow_at h q ns sss (S i) (Z.of_nat (length v)) Hq) as (al1 & -> & _); [lia|]. cbn [mbind option_bind].
  assert (∃ al2, _quicklistNodeAllowInsert h (if bool_decide (i = 0%nat) then None else ptr ns (i - 1)) (fill q) (Z.of_nat (length v)) = Some al2 ∧
    (al2 = true → i ≠ 0%nat ∧ ∃ y dy s0, ns !! (i - 1)%nat = Some (y, dy) ∧ sss !! (i - 1)%nat = Some s0 ∧ room s0 (Z.of_nat (length v)))) as (al2 & -> & Hal2).
  { case_bool_decide; [by exists false|]. destruct (allow_at h q ns sss (i - 1) (Z.of_nat (length v)) Hq) as (al2 & E2 & H2); [lia|]. exists al2. split; [done|]. auto. }
  cbn [mbind option_bind]. rewrite Ek, Hcnt, (proj2 (Z.eqb_neq (Z.of_nat k) (Z.of_nat (length ss)))), andb_false_r by lia. cbn [andb negb]. rewrite ?andb_false_r. cbn [andb orb].
  destruct al; cbn [negb andb].
  { destruct (Hal eq_refl) as (x' & d' & ss' & E1 & E2 & Hrm). rewrite Hi in E1. injection E1 as <- <-. rewrite Hs in E2. injection E2 as <-.
    destruct (insert_here h q ns sss i x d ss k p v after (ezi e) Hq Hc Hi Hs Hk) as (h' & E & Hbec); [intros b' Hb'; rewrite Hb in Hb'; by injection Hb' as <-|done..|]. destruct after; cbn [andb negb]; rewrite E; cbn [mbind option_bind]; by eexists _, _. }
  assert (bool_decide ((if bool_decide (i = 0%nat) then None else ptr ns (i - 1)) ≠ None) = bool_decide (i ≠ 0%nat)) as Ebp.
  { apply bool_decide_ext. case_bool_decide as H0; [naive_solver|]. pose proof (lookup_lt_Some _ _ _ Hi). destruct (ptr_lookup ns (i - 1) ltac:(lia)) as (y & dy & _ & ->). naive_solver. }
  rewrite Ebp. set (at_head := negb after && (Z.of_nat k =? 0)).
  destruct (at_head && bool_decide (i ≠ 0%nat)) eqn:Eh.
  - apply andb_true_iff in Eh as [Eh Hi0%bool_decide_eq_true]. cbn [andb orb]. rewrite ?Eh. apply andb_true_iff in Eh as [Ea Ek0%Z.eqb_eq]. destruct after; [done|]. rewrite ?(bool_decide_true (i ≠ 0%nat)) by done. cbn [negb andb]. assert (k = 0%nat) as -> by lia. rewrite Nat.add_0_r.
    destruct al2; cbn [negb andb orb].
    + destruct (Hal2 eq_refl) as (_ & y & dy & s0 & Hy & Hs0 & Hrm). rewrite bool_decide_false by done. unfold ptr at 1. rewrite Hy. cbn [fmap option_fmap option_map mbind option_bind fst].
      destruct (insert_into_ok h q ns sss (i - 1) y dy s0 (length s0) v (λ _, Some None) ZIPLIST_TAIL Hq Hc Hy Hs0 Hrm) as (h' & -> & Hbec); [lia|done| |].
      * intros b' _ Hbl. destruct Hrm as [_ Hrm2]. pose proof (total_nonneg s0). destruct (push_holds junk b' s0 v ZIPLIST_TAIL Hbl) as (b2 & E & Hb2); [lia|lia|]. exists None, b2. split_and!; try done. unfold spliced. by rewrite take_ge, drop_ge by lia.
      * cbn [mbind option_bind]. eexists _, _. split; [done|]. assert (length (concat (take i sss)) = length (concat (take (i - 1) sss)) + length s0)%nat as ->; [|done].
        pose proof (size_take_S sss (i - 1) s0 Hs0) as E. replace (S (i - 1)) with i in E by lia. lia.
    + destruct (insert_between h q ns sss i x d v Hq Hc Hi Hv Hsm) as (h1 & y & h2 & h3 & q3 & -> & E2 & E3 & Hbec). cbn [mbind option_bind]. rewrite E2. cbn [mbind option_bind]. rewrite E3. cbn [mbind option_bind]. by eexists _, _.
  - destruct (insert_split h q ns sss i x d ss k v after Hq Hc Hi Hs Hk Ht Hsm) as (h0 & y & h1 & h2 & h3 & q3 & h4 & q4 & E1 & E2 & E3 & E4 & E5 & Hbec).
    rewrite ?Eh. cbn [andb orb].
    unfold quicklistDecompressNodeForUse. rewrite (links_data h q ns i x d (qo_links _ _ _ _ Hq) Hi). cbn [mbind option_bind]. rewrite Hr. change (ENCODING_RAW =? ENCODING_LZF) with false. cbv iota. cbn [mbind option_bind].
    rewrite E1. cbn [mbind option_bind]. rewrite E2. cbn [mbind option_bind]. rewrite E3. cbn [mbind option_bind]. rewrite E4. cbn [mbind option_bind]. rewrite E5. cbn [mbind option_bind]. by eexists _, _.
Qed.
End insert.
