(* ===== verification/QuicklistRange.v ===== *)
(** * quicklist.c: removing ranges, copying, loading and releasing *)

From S2P Require Import Prelude Decimal Sds Util Adlist Lzf Ziplist ZiplistRep ZiplistEdit ZiplistQuery ZiplistSpec ZiplistApi Quicklist QuicklistRep QuicklistOps QuicklistAccess QuicklistIter QuicklistInsert.

(** [L] without the [n] strings from [m] on. *)
Definition cut_range {T} (L : list T) (m n : nat) : list T := take m L ++ drop (m + n) L.

Lemma cut_range_0 {T} (L : list T) m : cut_range L m 0 = L.
Proof. unfold cut_range. rewrite Nat.add_0_r. apply take_drop. Qed.

Lemma cut_range_twice {T} (L : list T) m a b : (m ≤ length L)%nat → cut_range (cut_range L m a) m b = cut_range L m (a + b).
Proof.
  intros Hm. unfold cut_range. rewrite take_app_le, take_take, Nat.min_id by (rewrite length_take; lia). f_equal. rewrite drop_app_ge by (rewrite length_take; lia). rewrite length_take, drop_drop. f_equal. lia.
Qed.

Lemma cut_range_concat (sss : list (list (list Z))) i ss k n : sss !! i = Some ss → (k + n ≤ length ss)%nat →
  cut_range (concat sss) (length (concat (take i sss)) + k) n = concat (take i sss) ++ cut_range ss k n ++ concat (drop (S i) sss).
Proof.
  intros Hs Hk. destruct (concat_insert sss i ss [] Hs) as [-> _]. unfold cut_range. rewrite take_app_add, <- Nat.add_assoc, drop_app_add. rewrite take_app_le, drop_app_le by lia. by rewrite <- !app_assoc.
Qed.

Lemma cut_range_facts (ss : list (list Z)) k n : (k + n ≤ length ss)%nat → length (cut_range ss k n) = (length ss - n)%nat ∧ total (cut_range ss k n) ≤ total ss.
Proof.
  intros Hk. unfold cut_range. rewrite length_app, length_take, length_drop. split; [lia|]. pose proof (f_equal total (take_drop k ss)) as E1. pose proof (f_equal total (take_drop n (drop k ss))) as E2.
  rewrite total_app in *. rewrite drop_drop in E2. pose proof (total_nonneg (take n (drop k ss))). lia.
Qed.

(** ** Releasing *)

Lemma release_loop_ok : ∀ ns h q p, NoDup ns.*1 → dseg h p ns None → Forall (λ nd, 0 ≤ count nd.2) ns → in_u 64 (qcount q) → in_u 64 (qlen q) → Z.of_nat (length ns) ≤ qlen q → foldr (λ nd n, count nd.2 + n) 0 ns ≤ qcount q →
  ∃ h' q', release_loop (length ns) h q (first_or ns None) = Some (h', q') ∧ (dom h' : gset positive) = dom h ∖ list_to_set ns.*1 ∧ (∀ y, y ∉ ns.*1 → h' !! y = h !! y) ∧
    qcount q' = qcount q - foldr (λ nd n, count nd.2 + n) 0 ns ∧ qlen q' = qlen q - Z.of_nat (length ns).
Proof.
  induction ns as [|[x d] ns IH]; intros h q p Hnd Hs Hp Hc Hl Hle1 Hle2; cbn [release_loop length first_or].
  { exists h, q. simpl. split_and!; try done; [set_solver|lia|lia]. }
  destruct Hs as [Hx Hs]. cbn [mbind option_bind]. rewrite Hx. cbn [mbind option_bind next value]. rewrite fmap_cons in Hnd. apply NoDup_cons in Hnd as [Hxn Hnd]. apply Forall_cons in Hp as [Hpd Hp]. simpl in Hpd, Hle1, Hle2.
  assert (0 ≤ foldr (λ nd n, count nd.2 + n) 0 ns) as Hpos by (clear -Hp; induction Hp; simpl in *; lia). unfold in_u in Hc, Hl. rewrite !uwrap_small by (unfold in_u; lia).
  destruct (IH (delete x h) (set_qlen (set_qcount q (qcount q - count d)) (qlen q - 1)) (Some x)) as (h' & q' & -> & D & F & C & L); try done; cbn [qcount qlen set_qlen set_qcount]; try (unfold in_u; lia); [by apply dseg_delete|].
  exists h', q'. cbn [foldr snd]. split_and!; try done.
  - rewrite D, dom_delete_L, fmap_cons. set_solver.
  - intros y Hy. rewrite fmap_cons in Hy. rewrite F by set_solver. apply lookup_delete_ne. set_solver.
  - rewrite C. cbn [qcount set_qlen set_qcount]. lia.
  - rewrite L. cbn [qlen set_qlen]. lia.
Qed.

Lemma counts_sum ns sss : Forall2 (λ nd : positive * qdata, node_ok nd.2) ns sss → foldr (λ nd n, count nd.2 + n) 0 ns = size sss.
Proof. induction 1 as [|nd ss ns sss [_ Hc] _ IH]; [done|]. cbn [foldr]. rewrite IH, Hc, size_cons. done. Qed.

Lemma release_ok h q ns sss : qok h q ns sss → ∃ h' q', quicklistRelease h q = Some (h', q') ∧ (dom h' : gset positive) = dom h ∖ list_to_set ns.*1 ∧ (∀ y, y ∉ ns.*1 → h' !! y = h !! y) ∧ qcount q' = 0 ∧ qlen q' = 0.
Proof.
  intros Hq. pose proof (qok_len _ _ _ _ Hq) as [_ Hln]. pose proof (qo_small _ _ _ _ Hq) as Hsm. pose proof (counts_sum _ _ (qo_nodes _ _ _ _ Hq)) as Hsum. destruct (qo_links _ _ _ _ Hq) as [Hnd Hs Hh _]. unfold quicklistRelease. rewrite (qo_len _ _ _ _ Hq), Nat2Z.id, Hh.
  destruct (release_loop_ok ns h q None Hnd Hs) as (h' & q' & E & D & F & C & L); rewrite ?(qo_count _ _ _ _ Hq), ?(qo_len _ _ _ _ Hq), ?Hsum; try (unfold in_u; lia).
  - apply Forall_lookup. intros i [x d] Hi. destruct (qok_at _ _ _ _ _ _ _ Hq Hi) as (ss & _ & [_ Hc] & _). simpl. lia.
  - exists h', q'. split_and!; try done; [rewrite C, (qo_count _ _ _ _ Hq), Hsum; lia|rewrite L, (qo_len _ _ _ _ Hq); lia].
Qed.

Section range.
Context (junk : Z) (ljunk : Z → Z) (alloc : nat → list Z) (Halloc : ∀ n, length (alloc n) = n).

(** A whole node is removed, for every depth of compression. *)
Lemma del_whole h q ns sss i x d ss : qok h q ns sss → ns !! i = Some (x, d) → sss !! i = Some ss →
  ∃ h' q' ns', __quicklistDelNode ljunk alloc h q x = Some (h', q') ∧ qok h' q' ns' (take i sss ++ drop (S i) sss) ∧ ns'.*1 = (take i ns ++ drop (S i) ns).*1 ∧ fill q' = fill q ∧ compress q' = compress q.
Proof.
  intros Hq Hi Hs. destruct (qok_at _ _ _ _ _ _ _ Hq Hi) as (ss' & Hs' & [Hok Hc] & _). rewrite Hs in Hs'. injection Hs' as <-. pose proof (split_at ns i _ Hi) as Ens. pose proof (lookup_lt_Some _ _ _ Hi) as Hlt. pose proof (qok_len _ _ _ _ Hq) as [Hln Hsm48].
  pose proof (Forall2_take _ _ _ i (qo_nodes _ _ _ _ Hq)) as Na. pose proof (Forall2_drop _ _ _ (S i) (qo_nodes _ _ _ _ Hq)) as Nb. pose proof (size_split sss i ss Hs) as Hsz. pose proof (qo_small _ _ _ _ Hq) as Hsm. pose proof (qo_count _ _ _ _ Hq) as Hcnt.
  destruct (del_node_spec ljunk alloc Halloc h q (take i ns) x d (drop (S i) ns) (take i sss ++ drop (S i) sss)) as (h' & q' & ns' & E & Hl' & Hs2 & Hset & _ & _ & F1 & F2 & F3 & F4); try (rewrite <- Ens; apply Hq).
  - apply Forall2_app; by apply ok_hold.
  - rewrite (qo_len _ _ _ _ Hq). lia.
  - apply Hq.
  - exists h', q', ns'. split; [done|]. split; [|split; [by apply same_nodes_fst|done]]. constructor; try done.
    + by eapply same_nodes_node_ok, Forall2_app.
    + rewrite F2, (qo_len _ _ _ _ Hq), (same_nodes_length _ _ Hs2), length_app, length_take, length_drop. lia.
    + rewrite F1, Hc, Hcnt, size_app, uwrap_small by (unfold in_u; lia). lia.
    + rewrite size_app. lia.
    + rewrite F4. apply Hq.
    + by rewrite F4.
Qed.

(** The entries of node [i] that one round of the loop removes. *)
Lemma range_part_spec k n ext off : (k < n)%nat → Z.of_nat n < 2 ^ 16 → 0 < ext < 2 ^ 62 → (off = Z.of_nat k ∨ off = Z.of_nat k - Z.of_nat n) → (off = Z.of_nat k → k = 0%nat ∨ Z.of_nat n ≤ ext ∨ Z.of_nat k + ext ≤ Z.of_nat n) →
  let del := Z.min (Z.of_nat (n - k)) ext in range_part off ext (Z.of_nat n) = (del, (off =? 0) && (Z.of_nat n <=? ext)).
Proof.
  intros Hk Hn He Ho Hg del. unfold range_part. destruct (Z.eqb_spec off 0) as [H0|H0], (Z.leb_spec (Z.of_nat n) ext) as [H1|H1]; cbn [andb].
  - f_equal. unfold del. lia.
  - rewrite (proj2 (Z.leb_le 0 off)) by lia. cbn [andb]. rewrite (proj2 (Z.ltb_ge off 0)) by lia. f_equal. unfold del. lia.
  - destruct (Z.leb_spec 0 off); cbn [andb].
    + rewrite uwrap_small by (unfold in_u; lia). f_equal. unfold del. lia.
    + rewrite (proj2 (Z.ltb_lt off 0)) by lia. rewrite uwrap_small by (unfold in_u; lia). f_equal. unfold del. lia.
  - rewrite andb_false_r. destruct (Z.ltb_spec off 0).
    + rewrite uwrap_small by (unfold in_u; lia). f_equal. unfold del. lia.
    + f_equal. unfold del. specialize (Hg ltac:(lia)). lia.
Qed.

(** One round of the loop on node [i], for lists without compression. *)
Definition range_round (h : qstore) (q : quicklist) (x : positive) (offset del : Z) (entire : bool) : option (qstore * quicklist) :=
  if entire then __quicklistDelNode ljunk alloc h q x
  else
    h ← quicklistDecompressNodeForUse alloc h x;
    d ← data h x;
    b ← zipl d;
    b ← ziplistDeleteRange junk b offset (u32 del);
    h ← store_zl h x b;
    h ← add_count h x (- del);
    let q := set_qcount q (u64 (qcount q - del)) in
    d ← data h x;
    if count d =? 0 then __quicklistDelNode ljunk alloc h q x
    else h ← quicklistRecompressOnly ljunk alloc h x; Some (h, q).

(** After the node [i] is gone. *)
Lemma round_gone (ns : list (positive * qdata)) (sss : list (list (list Z))) i x d ss k n (ns' : list (positive * qdata)) : ns !! i = Some (x, d) → sss !! i = Some ss → length sss = length ns →
  ns'.*1 = (take i ns ++ drop (S i) ns).*1 → n = length ss → (k + n ≤ length ss)%nat →
  concat (take i sss ++ drop (S i) sss) = concat (take i sss) ++ cut_range ss k n ++ concat (drop (S i) sss) ∧
  ((k + n = length ss)%nat → ∃ j, ptr ns' j = ptr ns (S i) ∧ concat (take j (take i sss ++ drop (S i) sss)) = concat (take i sss) ++ take k ss ∧ (length ns' - j = length ns - S i)%nat).
Proof.
  intros Hi Hs Hln Ef -> Hkn. pose proof (lookup_lt_Some _ _ _ Hi) as Hlt. assert (k = 0%nat) as -> by lia. unfold cut_range. rewrite (drop_ge ss) by lia. rewrite take_0. split; [by rewrite concat_app|]. intros _. exists i. split_and!.
  - unfold ptr. rewrite <- !list_lookup_fmap, Ef, fmap_app, lookup_app_r by (rewrite length_fmap, length_take; lia). rewrite length_fmap, length_take, !list_lookup_fmap, lookup_drop. do 2 f_equal. lia.
  - rewrite take_app_le, take_take, Nat.min_id, app_nil_r by (rewrite length_take; lia). done.
  - rewrite <- (length_fmap fst ns'), Ef, length_fmap, length_app, length_take, length_drop. lia.
Qed.

Lemma range_round_ok h q ns sss i x d ss k off n entire : qok h q ns sss → compress q = 0 → ns !! i = Some (x, d) → sss !! i = Some ss → (k < length ss)%nat → (0 < n)%nat → (k + n ≤ length ss)%nat →
  norm_index (length ss) off = Some k → - 2 ^ 31 < off → (entire = true → n = length ss) →
  ∃ h' q' ns' sss', range_round h q x off (Z.of_nat n) entire = Some (h', q') ∧ qok h' q' ns' sss' ∧ fill q' = fill q ∧ compress q' = 0 ∧
    concat sss' = concat (take i sss) ++ cut_range ss k n ++ concat (drop (S i) sss) ∧
    ((k + n = length ss)%nat → ∃ j, ptr ns' j = ptr ns (S i) ∧ concat (take j sss') = concat (take i sss) ++ take k ss ∧ (length ns' - j = length ns - S i)%nat).
Proof.
  intros Hq Hc Hi Hs Hk Hn Hkn Hoff Ho Hent. pose proof (lookup_lt_Some _ _ _ Hi) as Hlt. pose proof (qok_len _ _ _ _ Hq) as [Hln _]. unfold range_round.
  pose proof (round_gone ns sss i x d ss k n) as Hgone.
  destruct entire.
  { destruct (del_whole h q ns sss i x d ss Hq Hi Hs) as (h' & q' & ns' & E & Hq' & Ef & F1 & F2). exists h', q', ns', (take i sss ++ drop (S i) sss). destruct (Hgone ns' Hi Hs Hln Ef (Hent eq_refl) Hkn).
    split_and!; try done. congruence. }
  clear Hent. destruct (qok_at _ _ _ _ _ _ _ Hq Hi) as (ss' & Hs' & [Hok Hcnt] & Hfl). rewrite Hs in Hs'. injection Hs' as <-. pose proof (plain_raw _ _ _ _ _ _ _ Hq Hc Hi) as Hr. pose proof (no_total _ _ Hok) as Ht. pose proof (no_small _ _ Hok) as Hsm16.
  unfold quicklistDecompressNodeForUse. pose proof (links_data h q ns i x d (qo_links _ _ _ _ Hq) Hi) as Hd. rewrite Hd. cbn [mbind option_bind]. rewrite Hr. change (ENCODING_RAW =? ENCODING_LZF) with false. cbv iota. cbn [mbind option_bind]. rewrite Hd. cbn [mbind option_bind].
  destruct (node_raw d ss Hok Hr) as (b & -> & Hb & _). cbn [mbind option_bind]. destruct (delete_range_holds junk b ss off k (u32 (Z.of_nat n)) Hb Ho Hoff) as (b' & -> & Hb'); [lia|]. cbn [mbind option_bind].
  rewrite uwrap_small, Nat2Z.id in Hb' by (unfold in_u; lia). fold (cut_range ss k n) in Hb'. destruct (store_zl_at h q ns i x d b' _ (qo_links _ _ _ _ Hq) Hi Hb') as (h1 & -> & Hl1 & _). cbn [mbind option_bind]. set (d1 := QData _ _ _ _ _) in Hl1.
  destruct (add_count_at h1 q _ i x d1 (- Z.of_nat n) Hl1) as (h2 & -> & Hl2 & _); [by apply list_lookup_insert_eq|]. cbn [mbind option_bind]. rewrite list_insert_insert_eq in Hl2. set (d2 := set_count d1 _) in Hl2.
  assert (<[i := (x, d2)]> ns !! i = Some (x, d2)) as Hi2 by (by apply list_lookup_insert_eq). rewrite (links_data h2 q _ i x d2 Hl2 Hi2). cbn [mbind option_bind].
  assert (count d2 = Z.of_nat (length ss - n)) as Hc2 by (unfold d2, d1; simpl; rewrite Hcnt, uwrap_small by (unfold in_u; lia); lia). destruct (cut_range_facts ss k n Hkn) as [Lc Tc].
  pose proof (qo_count _ _ _ _ Hq) as Hqc. pose proof (qo_small _ _ _ _ Hq) as Hsm. pose proof (size_split sss i ss Hs) as Hsz.
  assert (u64 (qcount q - Z.of_nat n) = size sss - Z.of_nat n) as -> by (rewrite Hqc, uwrap_small by (unfold in_u; lia); done). destruct (Z.eqb_spec (count d2) 0) as [H0|H0].
  - assert (n = length ss) as En by lia. pose proof (proj2 (links_count h2 q (size sss - Z.of_nat n) _) Hl2) as Hl3. rewrite insert_take_drop in Hl3 by done.
    destruct (qok_plain _ _ _ _ Hq Hc) as [_ Hpl]. assert (Forall (λ nd, is_raw nd.2 ∧ recompress nd.2 = false) (take i ns ++ (x, d2) :: drop (S i) ns)) as Hpl2 by (rewrite <- insert_take_drop by done; by apply Forall_insert).
    destruct (merge_delete ljunk alloc Halloc h2 (set_qcount q (size sss - Z.of_nat n)) (take i ns) x d2 (drop (S i) ns) (take i sss ++ drop (S i) sss) Hl3) as (h3 & q3 & ns3 & -> & Hq3 & Ef & F1 & F2 & F3); try done.
    + apply Forall2_app; [apply Forall2_take, Hq|apply Forall2_drop, Hq].
    + cbn [qlen set_qcount]. rewrite (qo_len _ _ _ _ Hq), length_app, length_take. simpl. rewrite length_drop. lia.
    + cbn [qcount set_qcount]. unfold in_u. lia.
    + rewrite size_app. lia.
    + assert (set_qcount q3 (size (take i sss ++ drop (S i) sss)) = q3) as Eq3. { destruct q3. unfold set_qcount in *. simpl in *. rewrite F3, size_app. f_equal. lia. } rewrite Eq3 in Hq3.
      exists h3, q3, ns3, (take i sss ++ drop (S i) sss). destruct (Hgone ns3 Hi Hs Hln Ef En Hkn). split_and!; done.
  - assert (n ≠ length ss) as En by lia. rewrite (plain_recompress ljunk alloc h2 x d2) by (done || by eapply links_data). cbn [mbind option_bind].
    destruct (concat_insert sss i ss (cut_range ss k n) Hs) as [CL CC]. assert (size (<[i := cut_range ss k n]> sss) = size sss - Z.of_nat n) as Esz by (rewrite CL, CC, !length_app, Lc; lia).
    eexists h2, _, (<[i := (x, d2)]> ns), (<[i := cut_range ss k n]> sss). split; [done|]. split_and!; try done.
    + rewrite <- Esz. eapply qok_update; try done; [|lia]. split; [|by rewrite Lc]. unfold d2, d1. cbn [snd set_count qenc count recompress]. rewrite Hr. apply raw_holds; try done; [|lia|rewrite Lc; lia]. intros E. rewrite E in Lc. simpl in Lc. lia.
    + intros Hend. exists (S i). split_and!.
      * apply ptr_fst. by apply (fst_insert ns i x d).
      * rewrite (take_S_r _ i (cut_range ss k n)) by (apply list_lookup_insert_eq; lia). rewrite take_insert_ge, concat_app by lia. simpl. rewrite app_nil_r. unfold cut_range. by rewrite Hend, (drop_ge ss), app_nil_r by lia.
      * by rewrite length_insert.
Qed.

(** The first round: the loop goes on after the node, or ends. *)
Lemma range_step f h q ns sss i x d ss k off ext : qok h q ns sss → compress q = 0 → ns !! i = Some (x, d) → sss !! i = Some ss → (k < length ss)%nat → 0 < ext →
  Z.of_nat k + ext ≤ size (drop i sss) → (off = Z.of_nat k ∨ off = Z.of_nat k - Z.of_nat (length ss)) →
  (off = Z.of_nat k → k = 0%nat ∨ Z.of_nat (length ss) ≤ ext ∨ Z.of_nat k + ext ≤ Z.of_nat (length ss)) →
  ∃ h' q' ns' sss' j n, range_loop junk ljunk alloc (S f) h q (ptr ns i) off ext = range_loop junk ljunk alloc f h' q' (ptr ns' j) 0 (ext - Z.of_nat n) ∧ qok h' q' ns' sss' ∧
    fill q' = fill q ∧ compress q' = 0 ∧ Z.of_nat n ≤ ext ∧ concat sss' = cut_range (concat sss) (length (concat (take i sss)) + k) n ∧
    (Z.of_nat n < ext → length (concat (take j sss')) = (length (concat (take i sss)) + k)%nat ∧ ext - Z.of_nat n ≤ size (drop j sss') ∧ (length ns' - j = length ns - S i)%nat).
Proof.
  intros Hq Hc Hi Hs Hk He Hsz Ho Hg. destruct (qok_at _ _ _ _ _ _ _ Hq Hi) as (ss' & Hs' & [Hok Hcnt] & Hfl). rewrite Hs in Hs'. injection Hs' as <-. pose proof (no_small _ _ Hok) as Hsm16. pose proof (qo_small _ _ _ _ Hq) as Hsm48.
  pose proof (size_split sss i ss Hs) as Hsp. pose proof (size_drop sss i ss Hs) as Hdr.
  assert (ptr ns i = Some x) as -> by (unfold ptr; by rewrite Hi). cbn [range_loop]. rewrite (proj2 (Z.eqb_neq ext 0)) by lia. cbn [mbind option_bind]. rewrite (links_lookup h q ns i x d (qo_links _ _ _ _ Hq) Hi). cbn [mbind option_bind next value]. rewrite Hcnt.
  rewrite (range_part_spec k (length ss) ext off) by (done || lia). set (n := Z.to_nat (Z.min (Z.of_nat (length ss - k)) ext)). assert (Z.min (Z.of_nat (length ss - k)) ext = Z.of_nat n) as En by lia. rewrite En.
  destruct (range_round_ok h q ns sss i x d ss k off n ((off =? 0) && (Z.of_nat (length ss) <=? ext)) Hq Hc Hi Hs Hk) as (h' & q' & ns' & sss' & E & Hq' & F1 & F2 & CC & Hend); [lia|lia| |lia| |].
  { unfold norm_index. destruct Ho as [-> | ->].
    - rewrite (proj2 (Z.leb_le 0 _)), (proj2 (Z.ltb_lt _ _)) by lia. simpl. f_equal. lia.
    - rewrite (proj2 (Z.leb_gt 0 _)), (proj2 (Z.leb_le _ _)), (proj2 (Z.ltb_lt _ 0)) by lia. simpl. f_equal. lia. }
  { intros [H0%Z.eqb_eq H1%Z.leb_le]%andb_true_iff. lia. }
  unfold range_round in E. rewrite E. cbn [mbind option_bind]. rewrite uwrap_small by (unfold in_u; lia).
  assert (concat sss' = cut_range (concat sss) (length (concat (take i sss)) + k) n) as CR by (rewrite CC; symmetry; apply cut_range_concat; [done|lia]).
  destruct (decide (Z.of_nat n < ext)) as [Hlt|Hge].
  - destruct (Hend ltac:(lia)) as (j & Ej & Cj & Lj). exists h', q', ns', sss', j, n. rewrite <- Ej. split; [done|]. split_and!; try done; [lia|]. intros _.
    assert (length (concat (take j sss')) = length (concat (take i sss)) + k)%nat as Ltj by (rewrite Cj, length_app, length_take; lia). split_and!; try done.
    assert (size sss' = size (take j sss') + size (drop j sss')) as E1 by (rewrite <- size_app; by rewrite take_drop). assert (length (concat sss') = length (concat sss) - n)%nat as E2. { rewrite CR. unfold cut_range. rewrite length_app, length_take, length_drop. lia. } lia.
  - exists h', q', ns', sss', 0%nat, n. split; [|split_and!; try done; lia]. assert (ext - Z.of_nat n = 0) as -> by lia. by destruct f.
Qed.

Lemma range_loop_ok f : ∀ h q ns sss i ext, qok h q ns sss → compress q = 0 → 0 ≤ ext ≤ size (drop i sss) → (length ns - i ≤ f)%nat →
  ∃ h' q', range_loop junk ljunk alloc f h q (ptr ns i) 0 ext = Some (h', q') ∧ becomes q (cut_range (concat sss) (length (concat (take i sss))) (Z.to_nat ext)) h' q'.
Proof.
  induction f as [|f IH]; intros h q ns sss i ext Hq Hc Hext Hf; pose proof (qok_len _ _ _ _ Hq) as [Hln _];
    (destruct (decide (ext = 0)) as [->|Hne]; [exists h, q; split; [done|]; split; [|done]; exists ns, sss; split; [done|]; simpl; by rewrite cut_range_0|]);
    (destruct (decide (i < length ns)%nat) as [Hlt|Hge]; [|rewrite drop_ge in Hext by lia; simpl in Hext; lia]); [lia|].
  destruct (lookup_lt_is_Some_2 ns i Hlt) as [[x d] Hi]. destruct (qok_at _ _ _ _ _ _ _ Hq Hi) as (ss & Hs & [Hok _] & _). pose proof (no_ne _ _ Hok) as Hss. assert (0 < length ss)%nat by (destruct ss; [done|simpl; lia]).
  destruct (range_step f h q ns sss i x d ss 0 0 ext Hq Hc Hi Hs) as (h1 & q1 & ns1 & sss1 & j & n & -> & Hq1 & F1 & F2 & Hn & CC & Hmore); try lia; try (by left). rewrite Nat.add_0_r in *.
  assert (length (concat (take i sss)) ≤ length (concat sss))%nat as Hle by (pose proof (size_split sss i ss Hs); lia). destruct (decide (Z.of_nat n < ext)) as [Hl|Hl].
  - destruct (Hmore Hl) as (Lj & Hj & Lns). destruct (IH h1 q1 ns1 sss1 j (ext - Z.of_nat n) Hq1 F2) as (h' & q' & -> & Hbec & G1 & G2); [lia|lia|]. exists h', q'. split; [done|]. split; [|split; congruence].
    rewrite CC, Lj, cut_range_twice in Hbec by done. by replace (n + Z.to_nat (ext - Z.of_nat n))%nat with (Z.to_nat ext) in Hbec by lia.
  - assert (ext = Z.of_nat n) as -> by lia. rewrite Z.sub_diag. assert (range_loop junk ljunk alloc f h1 q1 (ptr ns1 j) 0 0 = Some (h1, q1)) as -> by (by destruct f). exists h1, q1. split; [done|]. split; [|split; congruence]. exists ns1, sss1. by rewrite Nat2Z.id.
Qed.

(** Where [quicklistDelRange] removes the range: the start is 0 or counted from
    the end, or the range begins with a node, ends in the node it begins in, or
    is at least as long as that node. *)
Definition clean_range (sss : list (list (list Z))) (start cnt : Z) : Prop :=
  start ≤ 0 ∨ ∀ i ss k, sss !! i = Some ss → (k < length ss)%nat → start = Z.of_nat (length (concat (take i sss)) + k) →
    let extent := Z.min cnt (Z.of_nat (length (concat sss)) - start) in
    k = 0%nat ∨ Z.of_nat k + extent ≤ Z.of_nat (length ss) ∨ Z.of_nat (length ss) ≤ extent.

Lemma del_range_ok h q ns sss start cnt : qok h q ns sss → compress q = 0 → - 2 ^ 63 < start < 2 ^ 63 → clean_range sss start cnt → cnt < 2 ^ 63 →
  match norm_index (length (concat sss)) start with
  | Some m => if 0 <? cnt then ∃ h' q', quicklistDelRange junk ljunk alloc h q start cnt = Some (h', q', true) ∧ becomes q (cut_range (concat sss) m (Z.to_nat cnt)) h' q'
      else quicklistDelRange junk ljunk alloc h q start cnt = Some (h, q, false)
  | None => quicklistDelRange junk ljunk alloc h q start cnt = Some (h, q, false)
  end.
Proof.
  intros Hq Hc Hst Hclean Hcnt. unfold quicklistDelRange. rewrite (Z.leb_antisym 0 cnt). destruct (Z.ltb_spec 0 cnt) as [Hp|Hp]; simpl negb; cbv iota; [|by destruct (norm_index _ start)].
  pose proof (index_ok alloc Halloc h q ns sss start Hq ltac:(lia)) as Hix. destruct (norm_index (length (concat sss)) start) as [m|] eqn:Em; [|by rewrite Hix].
  destruct Hix as (h0 & ns0 & e & E & He & Hsg & (_ & _ & _ & _ & Hpl)). destruct (Hpl Hc) as [-> ->]. rewrite E. cbn [mbind option_bind]. pose proof (qo_small _ _ _ _ Hq) as Hsm. pose proof (qo_count _ _ _ _ Hq) as Hqc.
  destruct He as (i & x & d & ss & b & k & p & v & Hi & Hs & _ & _ & _ & Hk & -> & _ & _ & Hoff & Hx & _ & _). rewrite Hx. set (ext := if (0 <=? start) && _ then _ else _). pose proof (norm_index_lt _ _ _ Em) as Hm.
  assert (ext = Z.min cnt (size sss - Z.of_nat (length (concat (take i sss)) + k))) as Eext.
  { unfold ext. rewrite Hqc. pose proof (norm_index_inv _ _ _ Em) as E0. destruct (Z.leb_spec 0 start) as [H0|H0]; cbn [andb].
    - rewrite uwrap_small by (unfold in_u; lia). rewrite (proj2 (Z.ltb_ge start 0)) by lia. destruct (Z.ltb_spec (size sss - start) cnt); simpl; lia.
    - rewrite (proj2 (Z.ltb_lt start 0)) by lia. cbn [andb]. rewrite uwrap_small by (unfold in_u; lia). destruct (Z.ltb_spec (- start) cnt); lia. }
  pose proof (size_split sss i ss Hs) as Hsp. pose proof (size_drop sss i ss Hs) as Hdr. rewrite (qo_len _ _ _ _ Hq), Nat2Z.id. assert (ptr ns i = Some x) as <- by (unfold ptr; by rewrite Hi).
  destruct (range_step (length ns) h q ns sss i x d ss k (eoffset e) ext Hq Hc Hi Hs Hk) as (h1 & q1 & ns1 & sss1 & j & n & -> & Hq1 & F1 & F2 & Hn & CC & Hmore); [lia|lia| | |].
  { pose proof (norm_index_inv _ _ _ Hoff) as E0. destruct (0 <=? eoffset e); auto. }
  { intros Eo. pose proof (norm_index_inv _ _ _ Em) as E0. assert (0 ≤ start) as H0 by (apply Hsg; lia). rewrite (proj2 (Z.leb_le 0 start) H0) in E0.
    destruct Hclean as [Hle|Hclean]; [left; lia|]. pose proof (Hclean i ss k Hs Hk ltac:(lia)) as Hcase. simpl in Hcase. rewrite <- E0 in Eext. unfold size in *. lia. }
  assert (cut_range (concat sss) (length (concat (take i sss)) + k) (Z.to_nat cnt) = cut_range (concat sss) (length (concat (take i sss)) + k) (Z.to_nat ext)) as ->.
  { unfold cut_range. f_equal. destruct (decide (ext = cnt)) as [->|]; [done|]. rewrite !drop_ge by lia. done. }
  destruct (decide (Z.of_nat n < ext)) as [Hl|Hl].
  - destruct (Hmore Hl) as (Lj & Hj & Lns). destruct (range_loop_ok (length ns) h1 q1 ns1 sss1 j (ext - Z.of_nat n) Hq1 F2) as (h' & q' & -> & Hbec & G1 & G2); [lia|lia|]. cbn [mbind option_bind]. exists h', q'. split; [done|]. split; [|split; congruence].
    rewrite CC, Lj, cut_range_twice in Hbec by lia. by replace (n + Z.to_nat (ext - Z.of_nat n))%nat with (Z.to_nat ext) in Hbec by lia.
  - assert (ext = Z.of_nat n) as Een by lia. rewrite Een, Z.sub_diag. assert (range_loop junk ljunk alloc (length ns) h1 q1 (ptr ns1 j) 0 0 = Some (h1, q1)) as -> by (by destruct (length ns)). cbn [mbind option_bind]. exists h1, q1. split; [done|]. split; [|split; congruence]. exists ns1, sss1. by rewrite Nat2Z.id.
Qed.

(** ** Lists made of ziplists *)

Lemma new_qok h f c : qok h (quicklistNew f c) [] [].
Proof.
  constructor; try done.
  - constructor; try done. apply NoDup_nil_2.
  - apply (uwrap_range 16). lia.
Qed.

Lemma append_ziplist_ok h q ns sss b ss : qok h q ns sss → zl_holds b ss → ss ≠ [] → total ss ≤ 2 ^ 30 → Z.of_nat (length ss) < 2 ^ 16 → size sss + Z.of_nat (length ss) < 2 ^ 48 →
  ∃ h' q', quicklistAppendZiplist ljunk alloc h q b = Some (h', q') ∧ becomes q (concat sss ++ ss) h' q'.
Proof.
  intros Hq Hb Hne Ht Hsm16 Hsm. unfold quicklistAppendZiplist, quicklistCreateNode. set (y := fresh (dom h : gset positive)). set (d0 := QData QNull 0 0 ENCODING_RAW false). set (h0 := <[y := LNode None None d0]> h).
  destruct (len_holds b ss Hb) as (b1 & -> & Hb1). cbn [mbind option_bind]. pose proof (fresh_not_in h q ns (qo_links _ _ _ _ Hq)) as Hy. fold y in Hy. pose proof (qok_insert_fresh h q ns sss (LNode None None d0) Hq) as Hq0. fold y h0 in Hq0.
  assert (h0 !! y = Some (LNode None None d0)) as Hn0 by apply lookup_insert_eq. destruct (store_new h0 q ns y d0 b1 ss (qo_links _ _ _ _ Hq0) Hy Hn0 Hb1) as (h1 & -> & Hl1 & Hn1). cbn [mbind option_bind]. set (d1 := QData _ _ _ _ _) in Hn1.
  unfold add_count. assert (data h1 y = Some d1) as -> by (unfold data; by rewrite Hn1). cbn [mbind option_bind]. set (d2 := set_count d1 _). destruct (set_new h1 q ns y d1 d2 Hl1 Hy Hn1) as (h2 & -> & Hl2 & Hn2 & _). cbn [mbind option_bind].
  assert (node_ok d2 ss) as [Hok2 Hc2]. { split; [|unfold d2; simpl; rewrite uwrap_small; [done|unfold in_u; lia]]. by apply raw_holds. }
  assert (qok h2 q ns sss) as Hq2 by (destruct Hq; by constructor).
  destruct (insert_new ljunk alloc Halloc h2 q ns [] sss [] y d2 ss true) as (h3 & q3 & a' & d' & b' & E3 & Hl3 & Ha & Hsd & Hb3 & Hoa & Hob & Hset & _ & F1 & F2 & F3 & F4); try (by rewrite !app_nil_r); try done; [by apply qok_len in Hq as []|].
  unfold _quicklistInsertNodeAfter. rewrite (lk_tail _ _ _ (qo_links _ _ _ _ Hq)), E3. cbn [mbind option_bind]. destruct b'; [|by apply same_nodes_length in Hb3]. pose proof Hsd as (_ & _ & _ & Hcd).
  assert (data h3 y = Some d') as -> by (apply (links_data h3 q3 (a' ++ [(y, d')]) (length a')); [done|by apply list_lookup_middle]). cbn [mbind option_bind]. rewrite Hcd, Hc2, F1, (qo_count _ _ _ _ Hq). rewrite uwrap_small by (unfold in_u; lia).
  eexists _, _. split; [done|]. split; [|done]. exists (a' ++ [(y, d')]), (sss ++ [ss]). split; [|by rewrite concat_app; simpl; rewrite app_nil_r].
  assert (length (concat (sss ++ [ss])) = length (concat sss) + length ss)%nat as Lc by (rewrite concat_app, length_app; simpl; rewrite app_nil_r; lia).
  apply (qok_new h3 q3 a' y d' [] sss ss [] q); try done; try lia; try apply Hq; try rewrite Lc; try lia.
  - split; [by eapply same_node_holds|congruence].
  - rewrite F2, (qo_len _ _ _ _ Hq), app_nil_r, (same_nodes_length _ _ Ha). done.
Qed.

Lemma append_loop_ok b ss : zl_holds b ss → Forall (λ s, Z.of_nat (length s) ≤ 2 ^ 29) ss → ∀ n k p h q ns sss, (length ss - k < n)%nat → (k ≤ length ss)%nat →
  (if decide (k < length ss)%nat then ∃ o, p = Some o ∧ zl_at b ss k o else p = None) → qok h q ns sss →
  size sss + Z.of_nat (length ss - k) < 2 ^ 48 →
  ∃ h' q', append_loop junk ljunk alloc n h q b p = Some (h', q') ∧ becomes q (concat sss ++ drop k ss) h' q'.
Proof.
  intros Hb Hss. induction n as [|n IH]; intros k p h q ns sss Hn Hk Hp Hq Hsm; [lia|]. cbn [append_loop]. case_decide as Hlt.
  - destruct Hp as (o & -> & Hat). destruct (lookup_lt_is_Some_2 ss k Hlt) as [s Hs]. destruct (get_at b ss k o s Hat Hs) as (v & -> & Hv & Hvn). cbn [mbind option_bind]. rewrite (entry_string_spec v Hvn), Hv. cbn [mbind option_bind].
    destruct (push_tail_ok junk ljunk alloc Halloc h q ns sss s Hq) as (h1 & q1 & r & -> & (ns1 & sss1 & Hq1 & C1) & F1 & F2); [apply (Forall_lookup_1 _ _ _ _ Hss Hs)|lia|]. cbn [mbind option_bind].
    destruct (next_at b ss k o Hat) as (r' & -> & Hr). cbn [mbind option_bind]. assert (length (concat sss1) = S (length (concat sss))) as L1 by (rewrite C1, length_app; simpl; lia).
    destruct (IH (S k) r' h1 q1 ns1 sss1) as (h2 & q2 & -> & Hbec & G1 & G2); try done; try lia. exists h2, q2. split; [done|]. split; [|split; congruence]. by rewrite (drop_S _ _ _ Hs), app_cons_assoc, <- C1.
  - subst p. cbn [ziplistGet mbind option_bind]. exists h, q. split; [done|]. split; [|done]. exists ns, sss. split; [done|]. by rewrite drop_ge, app_nil_r by lia.
Qed.

Lemma append_values_ok h q ns sss b ss : qok h q ns sss → zl_holds b ss → Forall (λ s, Z.of_nat (length s) ≤ 2 ^ 29) ss → size sss + Z.of_nat (length ss) < 2 ^ 48 →
  ∃ h' q', quicklistAppendValuesFromZiplist junk ljunk alloc h q b = Some (h', q') ∧ becomes q (concat sss ++ ss) h' q'.
Proof.
  intros Hq Hb Hss Hsm. unfold quicklistAppendValuesFromZiplist. destruct (index_holds b ss 0 Hb) as (r & -> & Hr); [lia|]. cbn [mbind option_bind]. pose proof (holds_sizes b ss Hb) as [Hl _].
  destruct (append_loop_ok b ss Hb Hss (S (length b)) 0 r h q ns sss) as (h' & q' & -> & Hbec); try done; try lia; [|by exists h', q'].
  unfold norm_index in Hr. case_decide as H0.
  - rewrite (proj2 (Z.ltb_lt 0 _)) in Hr by lia. done.
  - rewrite (proj2 (Z.ltb_ge 0 _)) in Hr by lia. simpl in Hr. by rewrite andb_false_r in Hr.
Qed.

(** ** Copying a list without compression *)

Lemma dup_loop_ok orig ns sss : compress orig = 0 → ∀ f i h copy ids, qok h orig ns sss → chain h copy ids (take i sss) → qcount copy = size (take i sss) → (∀ y, y ∈ ids → y ∉ ns.*1) → (length ns - i ≤ f)%nat → (i ≤ length ns)%nat →
  ∃ h' copy' ids', copy_loop ljunk alloc f h copy (ptr ns i) = Some (h', copy') ∧ qok h' orig ns sss ∧ chain h' copy' ids' sss ∧ qcount copy' = size sss ∧ (∀ y, y ∈ ids' → y ∉ ns.*1) ∧ fill copy' = fill copy.
Proof.
  intros Hc. induction f as [|f IH]; intros i h copy ids Hq Hch Hcnt Hdis Hf Hi; pose proof (qok_len _ _ _ _ Hq) as [Hln _];
    (destruct (decide (i < length ns)%nat) as [Hlt|Hge]; [|assert (ptr ns i = None) as -> by (unfold ptr; by rewrite lookup_ge_None_2 by lia); rewrite take_ge in * by lia; by exists h, copy, ids]); [lia|].
  destruct (lookup_lt_is_Some_2 ns i Hlt) as [[x d] Hx]. destruct (qok_at _ _ _ _ _ _ _ Hq Hx) as (ss & Hs & [Hok Hcd] & Hfl). pose proof (plain_raw _ _ _ _ _ _ _ Hq Hc Hx) as Hr. assert (ptr ns i = Some x) as -> by (unfold ptr; by rewrite Hx). cbn [copy_loop].
  rewrite (links_lookup h orig ns i x d (qo_links _ _ _ _ Hq) Hx). cbn [mbind option_bind value next]. destruct (node_raw d ss Hok Hr) as (b & Hz & Hb & Hsz). unfold zipl in Hz. destruct (zl d) as [|b'|]; try done. injection Hz as ->. rewrite Hr. change (ENCODING_RAW =? ENCODING_RAW) with true. cbv iota.
  assert (mread b 0 (sz d) = Some b) as ->. { pose proof (mread_app [] b [] 0 (sz d) eq_refl Hsz) as E. by rewrite app_nil_r in E. } cbn [mbind option_bind].
  unfold quicklistCreateNode. set (y := fresh (dom h : gset positive)). set (h0 := <[y := _]> h). pose proof Hch as (Hc2 & Hu & ns2 & Hq2 & Eids). pose proof (fresh_not_in h _ ns (qo_links _ _ _ _ Hq)) as Hy1. pose proof (fresh_not_in h _ ns2 (qo_links _ _ _ _ Hq2)) as Hy2. fold y in Hy1, Hy2.
  pose proof (qok_insert_fresh h orig ns sss (LNode None None (QData QNull 0 0 ENCODING_RAW false)) Hq) as Hq0. pose proof (qok_insert_fresh h _ ns2 _ (LNode None None (QData QNull 0 0 ENCODING_RAW false)) Hq2) as Hq20. fold y h0 in Hq0, Hq20.
  set (dn := QData (QZl b) (sz d) (count d) ENCODING_RAW false). assert (h0 !! y = Some (LNode None None (QData QNull 0 0 ENCODING_RAW false))) as Hn0 by apply lookup_insert_eq.
  assert (set_data h0 y dn = Some (<[y := LNode None None dn]> h0)) as -> by (by rewrite (set_data_Some h0 y _ dn Hn0)). cbn [mbind option_bind]. set (h1 := <[y := LNode None None dn]> h0).
  assert (∀ q l m, qok h0 q l m → y ∉ l.*1 → qok h1 q l m) as Hkeep. { intros q l m [Hl] Hy. constructor; try done. eapply links_frame; [exact Hl|]. intros z Hzz. apply lookup_insert_ne. by intros <-. }
  set (copy1 := set_qcount copy (u64 (qcount copy + count d))). pose proof (size_split sss i ss Hs) as Hsp. pose proof (qo_small _ _ _ _ Hq) as Hsm. pose proof (size_take_S sss i ss Hs) as HS. assert (qcount copy1 = size (take (S i) sss)) as Hcnt1 by (unfold copy1; simpl; rewrite Hcnt, Hcd, uwrap_small by (unfold in_u; lia); lia).
  pose proof (Hkeep _ _ _ Hq20 Hy2) as Hq21. destruct (insert_plain ljunk alloc Halloc h1 copy1 ns2 [] (take i sss) [] y dn ss true) as (h2 & copy2 & E2 & Hch2 & F1 & F2 & Hfr); rewrite ?app_nil_r; try done.
  - apply (proj2 (links_count h1 copy _ ns2)), (proj1 (links_count h1 copy (size (take i sss)) ns2)), Hq21.
  - apply Hq2.
  - by destruct (qok_len _ _ _ _ Hq2).
  - apply (qok_plain _ _ _ _ Hq2 Hc2).
  - apply Hq2.
  - rewrite Hcnt1. unfold in_u. lia.
  - rewrite <- (take_S_r _ _ ss Hs). lia.
  - apply lookup_insert_eq.
  - split; [|done]. unfold dn. rewrite Hsz. by apply raw_holds; try apply Hok.
  - unfold _quicklistInsertNodeAfter. assert (qtail copy1 = last_or ns2 None) as -> by apply (lk_tail _ _ _ (qo_links _ _ _ _ Hq2)). rewrite E2. cbn [mbind option_bind].
    destruct (IH (S i) h2 copy2 (ns2.*1 ++ [y])) as (h' & copy' & ids' & E & R1 & R2 & R3 & R4 & R5); try done; try lia.
    + pose proof (Hkeep _ _ _ Hq0 Hy1) as [Hl]. constructor; try done. eapply links_frame; [exact Hl|]. destruct Hfr as [_ Hfr]. intros z Hzn. rewrite app_nil_r in Hfr. apply Hfr; [|by intros ->]. rewrite Eids. intros Hin. by apply (Hdis z).
    + by rewrite (take_S_r _ _ ss Hs).
    + intros z. rewrite Eids. intros [Hzi|Hzi]%elem_of_app; [by apply Hdis|]. apply list_elem_of_singleton in Hzi as ->. done.
    + exists h', copy', ids'. split_and!; try done. by rewrite R5, F1.
Qed.
End range.
