(* ===== verification/QuicklistSpec.v ===== *)
(** * quicklist.c: what a quicklist promises

    [ql_holds h q L]: the list [q] in the heap [h] holds the strings [L], its
    counters are exact and its ends are not compressed. *)

From S2P Require Import Prelude Decimal Sds Util Adlist Lzf Ziplist ZiplistRep ZiplistEdit ZiplistQuery ZiplistSpec ZiplistApi Quicklist QuicklistRep QuicklistOps QuicklistAccess QuicklistIter QuicklistInsert QuicklistRange.

Definition ql_holds (h : qstore) (q : quicklist) (L : list (list Z)) : Prop := ∃ ns sss, qok h q ns sss ∧ concat sss = L.

(** The strings of every node. *)
Definition ql_nodes (h : qstore) (q : quicklist) (sss : list (list (list Z))) : Prop := ∃ ns, qok h q ns sss.

(** ** The ends, for every depth of compression *)

Inductive end_op := PushHead (v : list Z) | PushTail (v : list Z) | PopHead | PopTail.

Definition small_op (o : end_op) : Prop := match o with PushHead v | PushTail v => Z.of_nat (length v) ≤ 2 ^ 29 | _ => True end.

(** On the sequence of strings: the result of a pop and the next sequence. *)
Definition end_spec (o : end_op) (L : list (list Z)) : option (list Z) * list (list Z) :=
  match o with
  | PushHead v => (None, v :: L)
  | PushTail v => (None, L ++ [v])
  | PopHead => match pop_end QUICKLIST_HEAD L with None => (None, L) | Some (s, L) => (Some s, L) end
  | PopTail => match pop_end QUICKLIST_TAIL L with None => (None, L) | Some (s, L) => (Some s, L) end
  end.

Fixpoint end_specs (ops : list end_op) (L : list (list Z)) : list (option (list Z)) * list (list Z) :=
  match ops with
  | [] => ([], L)
  | o :: ops => let '(r, L) := end_spec o L in let '(rs, L) := end_specs ops L in (r :: rs, L)
  end.

Section spec.
Context (junk : Z) (ljunk : Z → Z) (alloc : nat → list Z) (Halloc : ∀ n, length (alloc n) = n).

(** The same calls on a quicklist; the string of a popped value. *)
Definition end_exec (o : end_op) (h : qstore) (q : quicklist) : option (option (list Z) * qstore * quicklist) :=
  let push v w := '(h, q) ← quicklistPush junk ljunk alloc h q v w; Some (@None (list Z), h, q) in
  let pop w := '(h, q, r) ← quicklistPop junk ljunk alloc h q w; Some (option_map zval_str r, h, q) in
  match o with
  | PushHead v => push v QUICKLIST_HEAD
  | PushTail v => push v QUICKLIST_TAIL
  | PopHead => pop QUICKLIST_HEAD
  | PopTail => pop QUICKLIST_TAIL
  end.

Fixpoint end_execs (ops : list end_op) (h : qstore) (q : quicklist) : option (list (option (list Z)) * qstore * quicklist) :=
  match ops with
  | [] => Some ([], h, q)
  | o :: ops => '(r, h, q) ← end_exec o h q; '(rs, h, q) ← end_execs ops h q; Some (r :: rs, h, q)
  end.

Lemma end_spec_sizes o L : Forall (λ s, Z.of_nat (length s) ≤ 2 ^ 29) L → small_op o → Forall (λ s, Z.of_nat (length s) ≤ 2 ^ 29) (end_spec o L).2 ∧ (length (end_spec o L).2 ≤ S (length L))%nat.
Proof.
  intros HL Ho. assert (∀ s L', pop_end QUICKLIST_TAIL L = Some (s, L') → L = L' ++ [s]) as Htail.
  { intros s L' E. destruct L as [|x l _] using rev_ind; [done|]. rewrite pop_end_snoc in E. by injection E as -> ->. }
  destruct o; simpl in *.
  - split; [by constructor|lia].
  - split; [apply Forall_app; by repeat constructor|rewrite length_app; simpl; lia].
  - unfold pop_end. simpl. destruct L; simpl; [split; [done|lia]|]. apply Forall_cons in HL as [_ ?]. split; [done|lia].
  - destruct (pop_end QUICKLIST_TAIL L) as [[s L']|] eqn:E; simpl; [|split; [done|lia]]. pose proof (Htail _ _ eq_refl) as EL. clear Htail E. subst L. apply Forall_app in HL as [? _]. rewrite length_app. simpl. split; [done|lia].
Qed.

Lemma pop_exec h q L w : ql_holds h q L → w = QUICKLIST_HEAD ∨ w = QUICKLIST_TAIL →
  ∃ h' q' r, quicklistPop junk ljunk alloc h q w = Some (h', q', r) ∧ fill q' = fill q ∧ compress q' = compress q ∧
    match pop_end w L with None => r = None ∧ ql_holds h' q' L | Some (s, L') => option_map zval_str r = Some s ∧ ql_holds h' q' L' end.
Proof.
  intros (ns & sss & Hq & <-) Hw. destruct (pop_ok junk ljunk alloc Halloc h q ns sss w Hq Hw) as (h' & q' & r & E & Hres). exists h', q', r. split.
  - unfold quicklistPop. destruct (qcount q =? 0) eqn:E0; [|done]. unfold quicklistPopCustom in E. by rewrite E0 in E.
  - destruct (pop_end w (concat sss)) as [[s L']|].
    + destruct Hres as [(v & -> & Hv & _) (Hb & F1 & F2)]. split_and!; try done. simpl. by rewrite Hv.
    + destruct Hres as (-> & -> & ->). split_and!; try done. by exists ns, sss.
Qed.

Lemma end_exec_ok o h q L : ql_holds h q L → Forall (λ s, Z.of_nat (length s) ≤ 2 ^ 29) L → small_op o → Z.of_nat (length L) + 1 < 2 ^ 48 →
  ∃ h' q', end_exec o h q = Some ((end_spec o L).1, h', q') ∧ ql_holds h' q' (end_spec o L).2 ∧ fill q' = fill q ∧ compress q' = compress q.
Proof.
  intros Hh HL Ho Hsm. destruct o; cbn [end_exec end_spec small_op] in *.
  - destruct Hh as (ns & sss & Hq & <-). destruct (push_head_ok junk ljunk alloc Halloc h q ns sss v Hq Ho Hsm) as (h' & q' & r & ns' & sss' & E & Hq' & C & F1 & F2 & _). unfold quicklistPush. simpl. rewrite E. cbn [mbind option_bind]. exists h', q'. split_and!; try done. by exists ns', sss'.
  - destruct Hh as (ns & sss & Hq & <-). destruct (push_tail_ok junk ljunk alloc Halloc h q ns sss v Hq Ho Hsm) as (h' & q' & r & E & Hb & F1 & F2). unfold quicklistPush. simpl. rewrite E. cbn [mbind option_bind]. by exists h', q'.
  - destruct (pop_exec h q L QUICKLIST_HEAD Hh) as (h' & q' & r & -> & F1 & F2 & Hres); [by left|]. cbn [mbind option_bind]. exists h', q'. destruct (pop_end QUICKLIST_HEAD L) as [[s L']|]; [destruct Hres as [-> ?]; done|]. by destruct Hres as [-> ?].
  - destruct (pop_exec h q L QUICKLIST_TAIL Hh) as (h' & q' & r & -> & F1 & F2 & Hres); [by right|]. cbn [mbind option_bind]. exists h', q'. destruct (pop_end QUICKLIST_TAIL L) as [[s L']|]; [destruct Hres as [-> ?]; done|]. by destruct Hres as [-> ?].
Qed.

Lemma end_execs_ok ops : ∀ h q L, ql_holds h q L → Forall (λ s, Z.of_nat (length s) ≤ 2 ^ 29) L → Forall small_op ops → Z.of_nat (length L) + Z.of_nat (length ops) < 2 ^ 48 →
  ∃ h' q', end_execs ops h q = Some ((end_specs ops L).1, h', q') ∧ ql_holds h' q' (end_specs ops L).2 ∧ fill q' = fill q ∧ compress q' = compress q.
Proof.
  induction ops as [|o ops IH]; intros h q L Hh HL Ho Hsm; [by exists h, q|]. apply Forall_cons in Ho as [Ho Hos]. cbn [end_execs end_specs]. simpl in Hsm.
  destruct (end_exec_ok o h q L Hh HL Ho) as (h1 & q1 & E1 & Hh1 & F1 & F2); [lia|]. destruct (end_spec_sizes o L HL Ho) as [HL1 Hlen]. rewrite E1. cbn [mbind option_bind]. destruct (end_spec o L) as [r L1]. simpl in *.
  destruct (IH h1 q1 L1 Hh1 HL1 Hos) as (h2 & q2 & E2 & Hh2 & G1 & G2); [lia|]. rewrite E2. cbn [mbind option_bind]. destruct (end_specs ops L1) as [rs L2]. simpl in *. exists h2, q2. split_and!; try done; congruence.
Qed.
End spec.

Section theorems.
Context (junk : Z) (ljunk : Z → Z) (alloc : nat → list Z).

Lemma new_holds_nil h f c : ql_holds h (quicklistNew f c) [].
Proof. exists [], []. split; [apply new_qok|done]. Qed.

(** C27. Any sequence of pushes and pops on a new quicklist, with any
    fill factor and any depth of compression, behaves like the same operations
    on a sequence of strings: every pop returns the string at that end (none
    when the list is empty) and the list holds exactly the remaining strings,
    although inner nodes are compressed and decompressed on the way. *)
Theorem quicklist_ends_refine (Halloc : ∀ n, length (alloc n) = n) ops f c h : Forall small_op ops → Z.of_nat (length ops) < 2 ^ 48 →
  ∃ h' q', end_execs junk ljunk alloc ops h (quicklistNew f c) = Some ((end_specs ops []).1, h', q') ∧ ql_holds h' q' (end_specs ops []).2 ∧
    quicklistCount q' = Z.of_nat (length (end_specs ops []).2).
Proof.
  intros Ho Hn. destruct (end_execs_ok junk ljunk alloc Halloc ops h (quicklistNew f c) [] (new_holds_nil h f c)) as (h' & q' & E & Hh & _ & _); [constructor|done|simpl; lia|].
  exists h', q'. split_and!; try done. destruct Hh as (ns & sss & Hq & <-). apply Hq.
Qed.

(** The contents of a list whose nodes are compressed in any way. *)
Definition ql_reads (h : qstore) (q : quicklist) (L : list (list Z)) : Prop := ∃ ns sss, qrep h q ns sss ∧ concat sss = L.

(** C28. Reading a quicklist of any depth of compression: [quicklistIndex] finds
    the string of every index, from either end, and nothing outside; the
    iterators from both ends visit every string once, in order; a list that was
    read this way holds the same strings. *)
Theorem quicklist_reads_correct (Halloc : ∀ n, length (alloc n) = n) h q L idx : ql_holds h q L → - 2 ^ 63 < idx < 2 ^ 63 →
  match norm_index (length L) idx with
  | None => quicklistIndex alloc h q idx = Some (h, None)
  | Some m => ∃ h' e v, quicklistIndex alloc h q idx = Some (h', Some e) ∧ evalue e = Some v ∧ L !! m = Some (zval_str v) ∧ ql_reads h' q L
  end ∧
  ∀ direction : bool, ∃ h' vs, visit ljunk alloc (S (length L)) h q (quicklistGetIterator q direction) = Some (h', vs) ∧
    zval_str <$> vs = (if direction then L else reverse L) ∧ ql_reads h' q L.
Proof.
  intros (ns & sss & Hq & <-) Hidx. split.
  - pose proof (index_ok alloc Halloc h q ns sss idx Hq Hidx) as Hix. destruct (norm_index _ idx) as [m|]; [|done]. destruct Hix as (h' & ns' & e & E & He & _ & Hacc).
    destruct (entry_lookup ns' sss m e He) as (v & Ev & Hv). exists h', e, v. split_and!; try done. exists ns', sss. split; [by eapply accessed_rep|done].
  - intros f. pose proof (qok_rep _ _ _ _ Hq) as Hr. destruct (visit_spec ljunk alloc Halloc (S (length (concat sss))) h q ns sss (quicklistGetIterator q f) _ Hr (iterator_rem h q ns sss f Hr)) as (h' & ns' & vs & E & Hvs & Hr' & _).
    + destruct f; rewrite ?length_reverse; lia.
    + exists h', vs. split_and!; try done. by exists ns', sss.
Qed.

(** C29. Editing a quicklist without compression (compress = 0) is editing the
    sequence. [quicklistReplaceAtIndex] replaces the string of any index;
    [quicklistInsertBefore] and [quicklistInsertAfter] put a string next to the
    entry that [quicklistIndex] found for an index that is not negative, whether
    the node has room, a neighbour has, or the node is split and merged;
    [quicklistDelRange] removes the range if it is clean ([clean_range]): its
    start is 0 or negative, or it begins with a node, ends in the node it begins
    in, or is at least as long as that node. [delrange_overrun] and
    [stale_recompress_flag] show what happens to other ranges and with
    compression. The strings of the list have at most 2^30 - 18 bytes together
    and are less than 2^48; the index is not the least 64-bit integer. *)
Theorem quicklist_edits_refine (Halloc : ∀ n, length (alloc n) = n) h q sss idx v start cnt : let L := concat sss in ql_nodes h q sss → compress q = 0 → - 2 ^ 63 < idx < 2 ^ 63 →
  Z.of_nat (length v) ≤ 2 ^ 29 → total L + Z.of_nat (length v) + 18 ≤ 2 ^ 30 → Z.of_nat (length L) + 1 < 2 ^ 48 → - 2 ^ 63 < start < 2 ^ 63 → clean_range sss start cnt → 0 < cnt < 2 ^ 63 →
  (∃ h', quicklistReplaceAtIndex junk ljunk alloc h q idx v = Some (h', bool_decide (norm_index (length L) idx ≠ None)) ∧
    ql_holds h' q (match norm_index (length L) idx with Some m => <[m := v]> L | None => L end)) ∧
  (∀ m h1 e, 0 ≤ idx → norm_index (length L) idx = Some m → quicklistIndex alloc h q idx = Some (h1, Some e) →
    (∃ h' q', quicklistInsertBefore junk ljunk alloc h1 q e v = Some (h', q') ∧ ql_holds h' q' (take m L ++ v :: drop m L)) ∧
    (∃ h' q', quicklistInsertAfter junk ljunk alloc h1 q e v = Some (h', q') ∧ ql_holds h' q' (take (S m) L ++ v :: drop (S m) L))) ∧
  (∃ h' q' r, quicklistDelRange junk ljunk alloc h q start cnt = Some (h', q', r) ∧
    match norm_index (length L) start with
    | Some m => r = true ∧ ql_holds h' q' (take m L ++ drop (m + Z.to_nat cnt) L)
    | None => r = false ∧ ql_holds h' q' L
    end).
Proof.
  intros L (ns & Hq) Hc Hidx Hv Ht Hsm Hst Hclean Hcnt. unfold L in *. split_and!.
  - pose proof (replace_ok ljunk alloc Halloc junk h q ns sss idx v Hq Hc Hidx Ht) as Hr. destruct (norm_index _ idx) as [m|].
    + destruct Hr as (h' & E & Hb & _). exists h'. split; [|done]. by rewrite bool_decide_true.
    + exists h. rewrite bool_decide_false by auto. split; [done|]. by exists ns, sss.
  - intros m h1 e Hpos Hm E. pose proof (index_ok alloc Halloc h q ns sss idx Hq Hidx) as Hix. rewrite Hm in Hix. destruct Hix as (h' & ns' & e' & E' & He & Hsg & (_ & _ & _ & _ & Hpl)). destruct (Hpl Hc) as [-> ->]. rewrite E in E'. injection E' as -> ->.
    unfold quicklistInsertBefore, quicklistInsertAfter. split.
    + destruct (insert_ok junk ljunk alloc Halloc h q ns sss m e' v false Hq Hc He) as (h2 & q2 & E2 & Hb & _); try done; [by apply Hsg|]. by exists h2, q2.
    + destruct (insert_ok junk ljunk alloc Halloc h q ns sss m e' v true Hq Hc He) as (h2 & q2 & E2 & Hb & _); try done; [by apply Hsg|]. by exists h2, q2.
  - pose proof (del_range_ok junk ljunk alloc Halloc h q ns sss start cnt Hq Hc Hst Hclean) as Hd. destruct (norm_index _ start) as [m|].
    + rewrite (proj2 (Z.ltb_lt 0 cnt)) in Hd by lia. destruct Hd as (h' & q' & E & Hb & _); [lia|]. by exists h', q', true.
    + exists h, q, false. rewrite Hd by lia. split_and!; try done. by exists ns, sss.
Qed.

(** Lists in bulk: loading the values of a ziplist, or appending it as a
    node, adds exactly its strings; a copy without compression holds the same
    strings in nodes of its own and leaves the original alone; rotating a list
    of several nodes moves the last string to the front; releasing a list frees
    each of its nodes once and nothing else. *)
Theorem quicklist_bulk_correct (Halloc : ∀ n, length (alloc n) = n) h q L b ss : ql_holds h q L → zl_holds b ss → ss ≠ [] → Forall (λ s, Z.of_nat (length s) ≤ 2 ^ 29) (L ++ ss) → total ss ≤ 2 ^ 30 → Z.of_nat (length ss) < 2 ^ 16 →
  Z.of_nat (length L) + Z.of_nat (length ss) < 2 ^ 48 →
  (∃ h' q', quicklistAppendZiplist ljunk alloc h q b = Some (h', q') ∧ ql_holds h' q' (L ++ ss)) ∧
  (∃ h' q', quicklistAppendValuesFromZiplist junk ljunk alloc h q b = Some (h', q') ∧ ql_holds h' q' (L ++ ss)) ∧
  (∀ f c h0, ∃ h' q', quicklistCreateFromZiplist junk ljunk alloc h0 f c b = Some (h', q') ∧ ql_holds h' q' ss) ∧
  (compress q = 0 → ∃ h' q', quicklistDup ljunk alloc h q = Some (h', q') ∧ ql_holds h' q' L ∧ ql_holds h' q L) ∧
  (qlen q ≠ 1 → ∃ h' q', quicklistRotate junk ljunk alloc h q = Some (h', q') ∧ ql_holds h' q' (rotated L)) ∧
  (∃ h' q' xs, quicklistRelease h q = Some (h', q') ∧ (dom h' : gset positive) = dom h ∖ list_to_set xs ∧ NoDup xs ∧ Z.of_nat (length xs) = qlen q ∧ (∀ y, y ∉ xs → h' !! y = h !! y)).
Proof.
  intros (ns & sss & Hq & <-) Hb Hne [HL Hss]%Forall_app Ht H16 Hsm. split_and!.
  - destruct (append_ziplist_ok ljunk alloc Halloc h q ns sss b ss Hq Hb) as (h' & q' & E & Hh & _); try done. by exists h', q'.
  - destruct (append_values_ok junk ljunk alloc Halloc h q ns sss b ss Hq Hb Hss Hsm) as (h' & q' & E & Hh & _). by exists h', q'.
  - intros f c h0. unfold quicklistCreateFromZiplist. destruct (append_values_ok junk ljunk alloc Halloc h0 (quicklistNew f c) [] [] b ss (new_qok h0 f c) Hb Hss) as (h' & q' & E & Hh & _); [simpl; lia|]. by exists h', q'.
  - intros Hc. unfold quicklistDup. rewrite Hc. pose proof (new_qok h (fill q) 0) as Hn. destruct (qhead_nth _ _ _ _ Hq) as [-> _]. rewrite (qo_len _ _ _ _ Hq), Nat2Z.id.
    destruct (dup_loop_ok ljunk alloc Halloc q ns sss Hc (length ns) 0 h (quicklistNew (fill q) 0) []) as (h' & q' & ids & E & Hq' & (_ & _ & ns' & Hch & _) & Hcnt & _ & _); try done; [|set_solver|lia|lia|].
    + split; [done|]. split; [done|]. by exists [].
    + exists h', q'. split_and!; try done; [|by exists ns, sss]. exists ns', sss. split; [|done]. assert (set_qcount q' (size sss) = q') as <-; [|done]. destruct q'. unfold set_qcount in *. simpl in *. by rewrite Hcnt.
  - intros H1. assert (0 < length ss)%nat by (destruct ss; [done|simpl; lia]). destruct (rotate_ok junk ljunk alloc Halloc h q ns sss Hq H1 HL) as (h' & q' & E & Hh & _); [lia|]. by exists h', q'.
  - destruct (release_ok h q ns sss Hq) as (h' & q' & E & D & F & _). exists h', q', ns.*1. split_and!; try done; [apply (lk_nodup _ _ _ (qo_links _ _ _ _ Hq))|]. rewrite length_fmap. symmetry. apply Hq.
Qed.
End theorems.

(** ** Examples *)

Definition zeros (n : nat) : list Z := replicate n 0.

Lemma zeros_length n : length (zeros n) = n.
Proof. apply length_replicate. Qed.

Definition abc : list (list Z) := [[97]; [98; 98]; [45; 55]].

(** A list with these strings, in nodes of at most two entries. *)
Lemma sample_list c : ∃ h q, ql_holds h q abc ∧ compress q = u16 (if COMPRESS_MAX <? c then COMPRESS_MAX else if c <? 0 then 0 else c).
Proof.
  destruct (end_execs_ok 0 (λ _, 0) zeros zeros_length [PushTail [97]; PushTail [98; 98]; PushTail [45; 55]] ∅ (quicklistNew 2 c) [] (new_holds_nil ∅ 2 c)) as (h & q & _ & Hh & _ & Hc); [constructor|repeat constructor; simpl; lia|simpl; lia|].
  exists h, q. split; [done|]. by rewrite Hc.
Qed.

Lemma quicklist_ends_refine_witness : Forall small_op [PushTail [97]; PushHead [98]; PopTail; PopHead; PopHead] ∧
  ∃ h' q', end_execs 0 (λ _, 0) zeros [PushTail [97]; PushHead [98]; PopTail; PopHead; PopHead] ∅ (quicklistNew 1 1) = Some ([None; None; Some [97]; Some [98]; None], h', q') ∧
    ql_holds h' q' [] ∧ quicklistCount q' = 0.
Proof.
  assert (Forall small_op [PushTail [97]; PushHead [98]; PopTail; PopHead; PopHead]) as Ho by (repeat constructor; simpl; lia). split; [exact Ho|].
  exact (quicklist_ends_refine 0 (λ _, 0) zeros zeros_length _ 1 1 ∅ Ho ltac:(simpl; lia)).
Defined.

Lemma quicklist_reads_correct_witness : ∃ h q, ql_holds h q abc ∧ compress q = 1 ∧ (∃ h' e v, quicklistIndex zeros h q (-1) = Some (h', Some e) ∧ evalue e = Some v ∧ zval_str v = [45; 55]) ∧
  ∃ h' vs, visit (λ _, 0) zeros 4 h q (quicklistGetIterator q false) = Some (h', vs) ∧ zval_str <$> vs = [[45; 55]; [98; 98]; [97]].
Proof.
  destruct (sample_list 1) as (h & q & Hh & Hc). exists h, q. split; [exact Hh|]. split; [exact Hc|]. destruct (quicklist_reads_correct (λ _, 0) zeros zeros_length h q abc (-1) Hh ltac:(lia)) as [H1 H2]. split.
  - destruct H1 as (h' & e & v & E & Ev & Hv & _). exists h', e, v. split_and!; [exact E|exact Ev|]. by injection Hv.
  - destruct (H2 false) as (h' & vs & E & Hvs & _). exists h', vs. by split.
Defined.

Lemma quicklist_edits_refine_witness : ∃ h q, ql_holds h q abc ∧ compress q = 0 ∧ (∃ h', quicklistReplaceAtIndex 0 (λ _, 0) zeros h q 1 [120] = Some (h', true) ∧ ql_holds h' q [[97]; [120]; [45; 55]]) ∧
  ∃ h' q' r, quicklistDelRange 0 (λ _, 0) zeros h q (-2) 5 = Some (h', q', r) ∧ r = true ∧ ql_holds h' q' [[97]].
Proof.
  destruct (sample_list 0) as (h & q & Hh & Hc). exists h, q. split; [exact Hh|]. split; [exact Hc|]. destruct Hh as (ns & sss & Hq & EL).
  destruct (quicklist_edits_refine 0 (λ _, 0) zeros zeros_length h q sss 1 [120] (-2) 5 (ex_intro _ ns Hq) Hc) as (H1 & _ & H3); [lia|simpl; lia|rewrite EL; simpl; lia|rewrite EL; simpl; lia|lia|left; lia|lia|].
  rewrite EL in H1, H3. split; [exact H1|exact H3].
Defined.

Lemma quicklist_bulk_correct_witness : ∃ h q b, ql_holds h q abc ∧ zl_holds b [[120]] ∧ (∃ h' q', quicklistAppendZiplist (λ _, 0) zeros h q b = Some (h', q') ∧ ql_holds h' q' (abc ++ [[120]])) ∧
  ∃ h' q', quicklistDup (λ _, 0) zeros h q = Some (h', q') ∧ ql_holds h' q' abc ∧ ql_holds h' q abc.
Proof.
  destruct (sample_list 0) as (h & q & Hh & Hc). destruct (new_holds 0) as (b0 & _ & Hb0). destruct (push_holds 0 b0 [] [120] 0 Hb0) as (b & _ & Hb); [simpl; lia..|]. exists h, q, b. split; [exact Hh|]. split; [exact Hb|].
  destruct (quicklist_bulk_correct 0 (λ _, 0) zeros zeros_length h q abc b [[120]] Hh Hb) as (H1 & _ & _ & H4 & _ & _); [done|repeat constructor; simpl; lia|simpl; lia..|]. split; [exact H1|exact (H4 Hc)].
Defined.

(** ** Where the code and the sequence part *)

(** Deleting 7 strings from index 5 of two nodes of 10: the first node is told to delete more entries than it has left,
    nothing is deleted in the second one, and the count is 2 too small. *)
Definition ten_and_ten : option (qstore * quicklist) :=
  foldl (λ st c, '(h, q) ← st; '(h, q, _) ← quicklistPushTail 0 (λ _, 0) zeros h q [c]; Some (h, q)) (Some (∅, quicklistNew 10 0)) (seqZ 65 20).

Example delrange_overrun :
  ('(h, q) ← ten_and_ten; '(h, q, _) ← quicklistDelRange 0 (λ _, 0) zeros h q 5 7; '(h, vs) ← visit (λ _, 0) zeros 21 h q (quicklistGetIterator q true); Some (length vs, qcount q)) = Some (15%nat, 13).
Proof. vm_compute. reflexivity. Qed.

(** The flag of a node that was decompressed for [quicklistIndex] stays set: when the node has become the first one,
    replacing an entry compresses it, and the next pop takes the compressed bytes for a ziplist. *)
Definition five_long : option (qstore * quicklist) :=
  foldl (λ st c, '(h, q) ← st; '(h, q, _) ← quicklistPushTail 0 (λ _, 0) zeros h q (replicate 60 c); Some (h, q)) (Some (∅, quicklistNew 2 1)) (seqZ 65 5).

Example stale_recompress_flag :
  ('(h, q) ← five_long; '(h, _) ← quicklistIndex zeros h q 2; '(h, q, _) ← quicklistPop 0 (λ _, 0) zeros h q QUICKLIST_HEAD; '(h, q, _) ← quicklistPop 0 (λ _, 0) zeros h q QUICKLIST_HEAD;
    '(h, _) ← quicklistReplaceAtIndex 0 (λ _, 0) zeros h q 0 (replicate 60 70); quicklistPop 0 (λ _, 0) zeros h q QUICKLIST_HEAD) = None.
Proof. vm_compute. reflexivity. Qed.

(** A list of one node, whose last string is pushed to the front of the block it is read from. *)
Example rotate_overlap :
  ('(h, q, _) ← quicklistPushTail 0 (λ _, 0) zeros ∅ (quicklistNew 10 0) [97]; '(h, q, _) ← quicklistPushTail 0 (λ _, 0) zeros h q [98]; quicklistRotate 0 (λ _, 0) zeros h q) = None.
Proof. vm_compute. reflexivity. Qed.
