(* ===== verification/Keyspace.v ===== *)
(** * The keyspace as the commands see it

    Keys that have not expired, with their values ([V] is a parameter: each
    file of commands has the values of its types and "some other type"). A
    command appends its replies and its events (modified keys, notifications)
    and counts its changes in [dirty]. *)

From stdpp Require Import strings.
From S2P Require Import Prelude Decimal Util.

(** The classes of notifications of server.h that the commands use. *)
Inductive nclass := NOTIFY_GENERIC | NOTIFY_STRING | NOTIFY_LIST | NOTIFY_SET | NOTIFY_HASH | NOTIFY_EXPIRED.

(** Modified keys, notifications, and the deletion of expired keys sent to slaves
    and to the append only file ([propagateExpire]). *)
Inductive event := SignalModified (k : list Z) | Notify (type : nclass) (name : string) (k : list Z) | PropagateExpire (k : list Z).

Inductive reply := RLong (n : Z) | RBulk (s : list Z) | RNullBulk | RMultiLen (n : Z) | REmptyMulti | ROk | RWrongType | RNoKey | RSyntax | ROutOfRange | RError (msg : string).

Section server.
Context {V : Type}.

Record server := Server { keys : gmap (list Z) V; dirty : Z; events : list event; replies : list reply }.

Definition with_keys (s : server) k := Server k (dirty s) (events s) (replies s).
Definition addReply (s : server) (r : reply) : server := Server (keys s) (dirty s) (events s) (replies s ++ [r]).
Definition log (s : server) (e : event) : server := Server (keys s) (dirty s) (events s ++ [e]) (replies s).
Definition add_dirty (s : server) (n : Z) : server := Server (keys s) (dirty s + n) (events s) (replies s).
Definition add_replies (s : server) (rs : list reply) : server := Server (keys s) (dirty s) (events s) (replies s ++ rs).
Definition set_key (s : server) (k : list Z) (v : V) : server := with_keys s (<[k := v]> (keys s)).
Definition dbDelete (s : server) (k : list Z) : server := with_keys s (delete k (keys s)).

(** [getLongFromObjectOrReply(c, o, &v, msg)] with a string; [inr] is the state after the error. *)
Definition getLongFromObject (s : server) (o : list Z) (msg : string) : Z + server :=
  match string2ll o with Some v => inl v | None => inr (addReply s (RError msg)) end.

Definition getLongFromObjectOrReply (s : server) (o : list Z) : Z + server := getLongFromObject s o "value is not an integer or out of range".
End server.

Arguments server : clear implicits.

(** [strcasecmp] with a lower case word: the bytes up to the first NUL. *)
Fixpoint c_string (s : list Z) : list Z := match s with [] => [] | c :: s => if c =? 0 then [] else c :: c_string s end.
Definition lower (c : Z) : Z := if (65 <=? c) && (c <=? 90) then c + 32 else c.
Definition is_word (o word : list Z) : bool := bool_decide (lower <$> c_string o = word).

(** The same for the specifications: an argument is a keyword, in any case. *)
Definition word_bytes (w : string) : list Z := (λ c, Z.of_N (Ascii.N_of_ascii c)) <$> String.list_ascii_of_string w.
Definition keyword (w : string) (arg : list Z) : bool := bool_decide (lower <$> c_string arg = word_bytes w).

(** ** What a command does

    An outcome: the keys after it, the changes it counts, its events and its
    replies; [refines] relates a command to it through a relation of values. *)

Record outcome (A : Type) := Outcome { o_keys : gmap (list Z) A; o_dirty : Z; o_events : list event; o_replies : list reply }.
Arguments Outcome {A} o_keys o_dirty o_events o_replies.
Arguments o_keys {A} o.
Arguments o_dirty {A} o.
Arguments o_events {A} o.
Arguments o_replies {A} o.

Definition answer {A} (D : gmap (list Z) A) (r : reply) : outcome A := Outcome D 0 [] [r].

Definition with_int {A} (D : gmap (list Z) A) (o : list Z) (f : Z → outcome A) : outcome A :=
  match string2ll o with None => answer D (RError "value is not an integer or out of range") | Some n => f n end.

Section refinement.
Context {V A : Type} (R : V → A → Prop).

Definition keys_ok (K : gmap (list Z) V) (D : gmap (list Z) A) : Prop := ∀ k, option_Forall2 R (K !! k) (D !! k).

Definition refines_by (s : server V) (o : outcome A) (r : option (server V)) : Prop :=
  ∃ s', r = Some s' ∧ keys_ok (keys s') (o_keys o) ∧ dirty s' = dirty s + o_dirty o ∧ events s' = events s ++ o_events o ∧ replies s' = replies s ++ o_replies o.

Lemma keys_insert K D k v a : keys_ok K D → R v a → keys_ok (<[k := v]> K) (<[k := a]> D).
Proof. intros HK Hva k'. destruct (decide (k = k')) as [<-|]; [rewrite !lookup_insert_eq; by constructor|]. rewrite !lookup_insert_ne by done. apply HK. Qed.

Lemma keys_delete K D k : keys_ok K D → keys_ok (delete k K) (delete k D).
Proof. intros HK k'. destruct (decide (k = k')) as [<-|]; [rewrite !lookup_delete_eq; constructor|]. rewrite !lookup_delete_ne by done. apply HK. Qed.

Lemma keys_same K D k v a : keys_ok K D → D !! k = Some a → R v a → keys_ok (<[k := v]> K) D.
Proof. intros HK HD Hva k'. destruct (decide (k = k')) as [<-|]; [rewrite lookup_insert_eq, HD; by constructor|]. rewrite lookup_insert_ne by done. apply HK. Qed.

Lemma keys_cases K D k : keys_ok K D → (K !! k = None ∧ D !! k = None) ∨ ∃ v a, K !! k = Some v ∧ D !! k = Some a ∧ R v a.
Proof. intros HK. pose proof (HK k) as Hk. destruct (K !! k), (D !! k); inversion Hk; subst; [right; by eexists _, _|by left]. Qed.

Lemma answer_ok s D r : keys_ok (keys s) D → refines_by s (answer D r) (Some (addReply s r)).
Proof. intros HK. exists (addReply s r). split_and!; try done; simpl; rewrite ?app_nil_r; (done || lia). Qed.

Lemma with_int_ok s D o f g : keys_ok (keys s) D → (∀ n, string2ll o = Some n → in_s 64 n → refines_by s (f n) (g n)) →
  refines_by s (with_int D o f) (match getLongFromObjectOrReply s o with inr s => Some s | inl n => g n end).
Proof.
  intros HK Hf. unfold with_int, getLongFromObjectOrReply, getLongFromObject. destruct (string2ll o) as [n|] eqn:E; [|by apply answer_ok]. apply Hf; [done|]. by apply string2ll_spec in E as [? _].
Qed.
End refinement.

(** ** Sequences of commands

    [C] are the commands of a file, with their outcome [spec], the condition
    [fits] under which it is specified, and their execution [exec]. *)
Section sequences.
Context {C V A : Type} (R : V → A → Prop) (spec : C → gmap (list Z) A → outcome A) (fits : C → gmap (list Z) A → bool) (exec : C → server V → option (server V)).

(** The outcome of commands one after another. *)
Fixpoint run_specs (cs : list C) (D : gmap (list Z) A) : outcome A :=
  match cs with
  | [] => Outcome D 0 [] []
  | c :: cs => let o := spec c D in let o' := run_specs cs (o_keys o) in Outcome (o_keys o') (o_dirty o + o_dirty o') (o_events o ++ o_events o') (o_replies o ++ o_replies o')
  end.

Fixpoint runs_fit (cs : list C) (D : gmap (list Z) A) : bool := match cs with [] => true | c :: cs => fits c D && runs_fit cs (o_keys (spec c D)) end.

Fixpoint execs (cs : list C) (s : server V) : option (server V) := match cs with [] => Some s | c :: cs => s ← exec c s; execs cs s end.

Lemma runs_refine : (∀ c s D, keys_ok R (keys s) D → fits c D = true → refines_by R s (spec c D) (exec c s)) →
  ∀ cs s D, keys_ok R (keys s) D → runs_fit cs D = true → refines_by R s (run_specs cs D) (execs cs s).
Proof.
  intros Hexec cs. induction cs as [|c cs IH]; intros s D HK Hfit.
  { exists s. split_and!; simpl; rewrite ?app_nil_r; (done || lia). }
  cbn [runs_fit] in Hfit. apply andb_prop in Hfit as [Hc Hcs]. destruct (Hexec c s D HK Hc) as (s1 & E1 & HK1 & Hd1 & He1 & Hr1).
  destruct (IH s1 _ HK1 Hcs) as (s2 & E2 & HK2 & Hd2 & He2 & Hr2). exists s2. cbn [execs]. rewrite E1. cbn [mbind option_bind]. split_and!; simpl; try done.
  - lia.
  - by rewrite He2, He1, <- app_assoc.
  - by rewrite Hr2, Hr1, <- app_assoc.
Qed.
End sequences.

(** The remaining steps when the server after the command is known. *)
Ltac settle_server := eexists; split; [reflexivity|]; split_and!; simpl; rewrite ?app_nil_r, <- ?app_assoc; simpl; try (done || lia).
