(* ===== verification/TList.v ===== *)
(** * t_list.c: the list commands

    A key holds a list or a value of another type. The nodes of a list are in a
    store of its own ([KList]): lists share no nodes, and strings go from one to
    another by value. [None] stands for undefined behaviour. The
    arguments are strings. Blocking commands are not modelled. *)

From stdpp Require Import strings.
From S2P Require Import Prelude Decimal Sds Util Adlist Lzf Ziplist Quicklist Keyspace.

Definition LIST_HEAD : Z := 0.
Definition LIST_TAIL : Z := 1.

Inductive kval := KList (h : qstore) (q : quicklist) | KOther.

Abbreviation lserver := (server kval).
Abbreviation NotifyList := (Notify NOTIFY_LIST).
Abbreviation NotifyGeneric := (Notify NOTIFY_GENERIC).

Definition set_list (s : lserver) (k : list Z) (h : qstore) (q : quicklist) : lserver := set_key s k (KList h q).

Definition w_after : list Z := [97; 102; 116; 101; 114].
Definition w_before : list Z := [98; 101; 102; 111; 114; 101].

Section commands.
Context (junk : Z) (ljunk : Z → Z) (alloc : nat → list Z).
(** [server.list_max_ziplist_size] and [server.list_compress_depth] *)
Context (list_max_ziplist_size list_compress_depth : Z).

(** [lookupKeyWriteOrReply(c, k, reply)] followed by [checkType(c, o, OBJ_LIST)]: [inr] when the command returns. *)
Definition lookup_list (s : lserver) (k : list Z) (absent : reply) : (qstore * quicklist) + lserver :=
  match keys s !! k with
  | None => inr (addReply s absent)
  | Some KOther => inr (addReply s RWrongType)
  | Some (KList h q) => inl (h, q)
  end.

Definition new_list : qstore * quicklist := (∅, quicklistSetOptions quicklistCreate list_max_ziplist_size list_compress_depth).

Definition listTypePush (h : qstore) (q : quicklist) (v : list Z) (where_ : Z) : option (qstore * quicklist) :=
  quicklistPush junk ljunk alloc h q v (if where_ =? LIST_HEAD then QUICKLIST_HEAD else QUICKLIST_TAIL).

(** The popped object as a string. *)
Definition listTypePop (h : qstore) (q : quicklist) (where_ : Z) : option (qstore * quicklist * option (list Z)) :=
  '(h, q, r) ← quicklistPopCustom junk ljunk alloc h q (if where_ =? LIST_HEAD then QUICKLIST_HEAD else QUICKLIST_TAIL);
  match r with None => Some (h, q, None) | Some v => v ← entry_string v; Some (h, q, Some v) end.

Definition listTypeLength (q : quicklist) : Z := quicklistCount q.

(** [li->iter], NULL when the index does not exist. *)
Definition listTypeInitIterator (h : qstore) (q : quicklist) (index direction : Z) : option (qstore * option quicklistIter) :=
  quicklistGetIteratorAtIdx alloc h q (negb (direction =? LIST_HEAD)) index.

Definition listTypeNext (h : qstore) (q : quicklist) (li : option quicklistIter) : option (qstore * option quicklistIter * option quicklistEntry) :=
  match li with
  | None => Some (h, None, None)
  | Some it => '(h, it, e) ← quicklistNext ljunk alloc 2 h q it; Some (h, Some it, e)
  end.

Definition listTypeGet (e : quicklistEntry) : option (list Z) := v ← evalue e; entry_string v.

Definition listTypeInsert (h : qstore) (q : quicklist) (e : quicklistEntry) (v : list Z) (where_ : Z) : option (qstore * quicklist) :=
  if where_ =? LIST_TAIL then quicklistInsertAfter junk ljunk alloc h q e v
  else if where_ =? LIST_HEAD then quicklistInsertBefore junk ljunk alloc h q e v else Some (h, q).

Definition listTypeEqual (h : qstore) (e : quicklistEntry) (o : list Z) : option bool :=
  x ← enode e; d ← data h x; b ← zipl d; p ← ezi e; quicklistCompare b p o.

Definition listTypeDelete (h : qstore) (q : quicklist) (it : quicklistIter) (e : quicklistEntry) : option (qstore * quicklist * quicklistIter) :=
  quicklistDelEntry junk ljunk alloc h q it e.

(** ** Commands *)

(** [for (j = 2; j < c->argc; j++)] *)
Fixpoint push_loop (h : qstore) (q : quicklist) (vs : list (list Z)) (where_ : Z) : option (qstore * quicklist) :=
  match vs with
  | [] => Some (h, q)
  | v :: vs => '(h, q) ← listTypePush h q v where_; push_loop h q vs where_
  end.

(** The events after a push. *)
Definition pushed_events (s : lserver) (k : list Z) (where_ : Z) : lserver :=
  log (log s (SignalModified k)) (NotifyList (if where_ =? LIST_HEAD then "lpush" else "rpush") k).

Definition pushGenericCommand (s : lserver) (k : list Z) (vs : list (list Z)) (where_ : Z) : option lserver :=
  match keys s !! k with
  | Some KOther => Some (addReply s RWrongType)
  | lobj =>
      let pushed := Z.of_nat (length vs) in
      match vs, lobj with
      | [], Some (KList _ q) => Some (addReply s (RLong (listTypeLength q)))
      | [], _ => Some (addReply s (RLong 0))
      | _, _ =>
          let '(h, q) := match lobj with Some (KList h q) => (h, q) | _ => new_list end in
          '(h, q) ← push_loop h q vs where_;
          Some (add_dirty (pushed_events (addReply (set_list s k h q) (RLong (listTypeLength q))) k where_) pushed)
      end
  end.

Definition pushxGenericCommand (s : lserver) (k : list Z) (vs : list (list Z)) (where_ : Z) : option lserver :=
  match lookup_list s k (RLong 0) with
  | inr s => Some s
  | inl (h, q) =>
      '(h, q) ← push_loop h q vs where_;
      let s := addReply (set_list s k h q) (RLong (listTypeLength q)) in
      let s := match vs with [] => s | _ => pushed_events s k where_ end in
      Some (add_dirty s (Z.of_nat (length vs)))
  end.

(** [while (listTypeNext(iter, &entry))] of LINSERT: whether it inserted. *)
Fixpoint insert_loop (n : nat) (h : qstore) (q : quicklist) (iter : option quicklistIter) (pivot v : list Z) (where_ : Z) : option (qstore * quicklist * bool) :=
  match n with
  | O => None
  | S n =>
      '(h, iter, e) ← listTypeNext h q iter;
      match e with
      | None => Some (h, q, false)
      | Some e =>
          eq ← listTypeEqual h e pivot;
          if (eq : bool) then '(h, q) ← listTypeInsert h q e v where_; Some (h, q, true)
          else insert_loop n h q iter pivot v where_
      end
  end.

Definition linsertCommand (s : lserver) (k place pivot v : list Z) : option lserver :=
  match (if is_word place w_after then Some LIST_TAIL else if is_word place w_before then Some LIST_HEAD else None) with
  | None => Some (addReply s RSyntax)
  | Some where_ =>
      match lookup_list s k (RLong 0) with
      | inr s => Some s
      | inl (h, q) =>
          '(h, iter) ← listTypeInitIterator h q 0 LIST_TAIL;
          '(h, q, inserted) ← insert_loop (S (Z.to_nat (listTypeLength q))) h q iter pivot v where_;
          let s := set_list s k h q in
          if (inserted : bool) then Some (addReply (add_dirty (log (log s (SignalModified k)) (NotifyList "linsert" k)) 1) (RLong (listTypeLength q)))
          else Some (addReply s (RLong (-1)))
      end
  end.

Definition llenCommand (s : lserver) (k : list Z) : option lserver :=
  match lookup_list s k (RLong 0) with inr s => Some s | inl (_, q) => Some (addReply s (RLong (listTypeLength q))) end.

Definition lindexCommand (s : lserver) (k i : list Z) : option lserver :=
  match lookup_list s k RNullBulk with
  | inr s => Some s
  | inl (h, q) =>
      match getLongFromObjectOrReply s i with
      | inr s => Some s
      | inl index =>
          '(h, e) ← quicklistIndex alloc h q index;
          let s := set_list s k h q in
          match e with None => Some (addReply s RNullBulk) | Some e => v ← listTypeGet e; Some (addReply s (RBulk v)) end
      end
  end.

Definition lsetCommand (s : lserver) (k i v : list Z) : option lserver :=
  match lookup_list s k RNoKey with
  | inr s => Some s
  | inl (h, q) =>
      match getLongFromObjectOrReply s i with
      | inr s => Some s
      | inl index =>
          '(h, replaced) ← quicklistReplaceAtIndex junk ljunk alloc h q index v;
          let s := set_list s k h q in
          if (replaced : bool) then Some (add_dirty (log (log (addReply s ROk) (SignalModified k)) (NotifyList "lset" k)) 1)
          else Some (addReply s ROutOfRange)
      end
  end.

Definition popGenericCommand (s : lserver) (k : list Z) (where_ : Z) : option lserver :=
  match lookup_list s k RNullBulk with
  | inr s => Some s
  | inl (h, q) =>
      '(h, q, value) ← listTypePop h q where_;
      let s := set_list s k h q in
      match value with
      | None => Some (addReply s RNullBulk)
      | Some v =>
          let s := log (addReply s (RBulk v)) (NotifyList (if where_ =? LIST_HEAD then "lpop" else "rpop") k) in
          let s := if listTypeLength q =? 0 then dbDelete (log s (NotifyGeneric "del" k)) k else s in
          Some (add_dirty (log s (SignalModified k)) 1)
      end
  end.

(** Negative indexes are converted: [start] and [end] of LRANGE and LTRIM. *)
Definition convert_range (llen start end_ : Z) : Z * Z :=
  let start := if start <? 0 then llen + start else start in
  let end_ := if end_ <? 0 then llen + end_ else end_ in
  (if start <? 0 then 0 else start, end_).

(** [while (rangelen--)] *)
Fixpoint range_replies (n : nat) (s : lserver) (h : qstore) (q : quicklist) (iter : option quicklistIter) : option (lserver * qstore) :=
  match n with
  | O => Some (s, h)
  | S n =>
      '(h, iter, e) ← listTypeNext h q iter;
      e ← e;
      v ← listTypeGet e;
      range_replies n (addReply s (RBulk v)) h q iter
  end.

Definition lrangeCommand (s : lserver) (k a b : list Z) : option lserver :=
  match getLongFromObjectOrReply s a with
  | inr s => Some s
  | inl start =>
  match getLongFromObjectOrReply s b with
  | inr s => Some s
  | inl end_ =>
  match lookup_list s k REmptyMulti with
  | inr s => Some s
  | inl (h, q) =>
      let llen := listTypeLength q in
      let '(start, end_) := convert_range llen start end_ in
      if (end_ <? start) || (llen <=? start) then Some (addReply s REmptyMulti) else
      let end_ := if llen <=? end_ then llen - 1 else end_ in
      let rangelen := end_ - start + 1 in
      let s := addReply s (RMultiLen rangelen) in
      '(h, iter) ← listTypeInitIterator h q start LIST_TAIL;
      '(s, h) ← range_replies (Z.to_nat rangelen) s h q iter;
      Some (set_list s k h q)
  end end end.

Definition ltrimCommand (s : lserver) (k a b : list Z) : option lserver :=
  match getLongFromObjectOrReply s a with
  | inr s => Some s
  | inl start =>
  match getLongFromObjectOrReply s b with
  | inr s => Some s
  | inl end_ =>
  match lookup_list s k ROk with
  | inr s => Some s
  | inl (h, q) =>
      let llen := listTypeLength q in
      let '(start, end_) := convert_range llen start end_ in
      let '(ltrim, rtrim) :=
        if (end_ <? start) || (llen <=? start) then (llen, 0)
        else let end_ := if llen <=? end_ then llen - 1 else end_ in (start, llen - end_ - 1) in
      '(h, q, _) ← quicklistDelRange junk ljunk alloc h q 0 ltrim;
      '(h, q, _) ← quicklistDelRange junk ljunk alloc h q (- rtrim) rtrim;
      let s := log (set_list s k h q) (NotifyList "ltrim" k) in
      let s := if listTypeLength q =? 0 then log (dbDelete s k) (NotifyGeneric "del" k) else s in
      Some (addReply (add_dirty (log s (SignalModified k)) 1) ROk)
  end end end.

(** [while (listTypeNext(li, &entry))] of LREM: the number of removed entries. *)
Fixpoint remove_loop (n : nat) (h : qstore) (q : quicklist) (li : option quicklistIter) (obj : list Z) (toremove removed : Z) : option (qstore * quicklist * Z) :=
  match n with
  | O => None
  | S n =>
      '(h, li, e) ← listTypeNext h q li;
      match e with
      | None => Some (h, q, removed)
      | Some e =>
          eq ← listTypeEqual h e obj;
          if (eq : bool) then
            it ← li;
            '(h, q, it) ← listTypeDelete h q it e;
            let removed := removed + 1 in
            if negb (toremove =? 0) && (removed =? toremove) then Some (h, q, removed)
            else remove_loop n h q (Some it) obj toremove removed
          else remove_loop n h q li obj toremove removed
      end
  end.

Definition lremCommand (s : lserver) (k c obj : list Z) : option lserver :=
  match getLongFromObjectOrReply s c with
  | inr s => Some s
  | inl toremove =>
  match lookup_list s k (RLong 0) with
  | inr s => Some s
  | inl (h, q) =>
      if toremove =? - 2 ^ 63 then None else
      let backward := toremove <? 0 in
      let toremove := if backward then - toremove else toremove in
      '(h, li) ← (if backward then listTypeInitIterator h q (-1) LIST_HEAD else listTypeInitIterator h q 0 LIST_TAIL);
      '(h, q, removed) ← remove_loop (S (Z.to_nat (listTypeLength q))) h q li obj toremove 0;
      let s := add_dirty (set_list s k h q) removed in
      let s := if removed =? 0 then s else log (log s (SignalModified k)) (NotifyList "lrem" k) in
      let s := if listTypeLength q =? 0 then log (dbDelete s k) (NotifyGeneric "del" k) else s in
      Some (addReply s (RLong removed))
  end end.

Definition rpoplpushHandlePush (s : lserver) (dstkey value : list Z) : option lserver :=
  let '(h, q) := match keys s !! dstkey with Some (KList h q) => (h, q) | _ => new_list end in
  let s := log s (SignalModified dstkey) in
  '(h, q) ← listTypePush h q value LIST_HEAD;
  Some (addReply (log (set_list s dstkey h q) (NotifyList "lpush" dstkey)) (RBulk value)).

(** [sobj] after the push is what the source key holds: the destination may be the same list. *)
Definition rpoplpushCommand (s : lserver) (src dst : list Z) : option lserver :=
  match lookup_list s src RNullBulk with
  | inr s => Some s
  | inl (h, q) =>
      if listTypeLength q =? 0 then Some (addReply s RNullBulk) else
      match keys s !! dst with
      | Some KOther => Some (addReply s RWrongType)
      | _ =>
          '(h, q, value) ← listTypePop h q LIST_TAIL;
          v ← value;
          s ← rpoplpushHandlePush (set_list s src h q) dst v;
          let s := log s (NotifyList "rpop" src) in
          n ← match keys s !! src with Some (KList _ q) => Some (listTypeLength q) | _ => None end;
          let s := if n =? 0 then log (dbDelete s src) (NotifyGeneric "del" src) else s in
          Some (add_dirty (log s (SignalModified src)) 1)
      end
  end.
End commands.
