(* ===== verification/TListSpec.v ===== *)
(** * t_list.c: the list commands on sequences of strings

    [spec] says what every command does to a database of sequences: keys,
    changes, events and replies. [list_commands_refine] relates any sequence of
    commands of TList.v, on quicklists without compression, to it. *)

From stdpp Require Import strings.
From S2P Require Import Prelude Decimal Sds Util Adlist Lzf Ziplist ZiplistRep ZiplistEdit ZiplistQuery ZiplistSpec ZiplistApi Quicklist QuicklistRep QuicklistOps QuicklistAccess QuicklistIter QuicklistInsert QuicklistRange QuicklistSpec Keyspace TList.

Abbreviation smalls L := (Forall (λ s : list Z, Z.of_nat (length s) ≤ 2 ^ 29) L).

(** ** Where an iterator stands *)

Lemma it_rem_det ns sss it R R' : NoDup ns.*1 → it_rem ns sss it R → it_rem ns sss it R' → R = R'.
Proof.
  intros Hnd H1 H2. assert (∀ i j x d d', ns !! i = Some (x, d) → ns !! j = Some (x, d') → i = j) as Hinj.
  { intros i j x d d' Hi Hj. apply (NoDup_lookup ns.*1 i j x Hnd); by rewrite list_lookup_fmap, ?Hi, ?Hj. }
  destruct H1 as [Hc|i x d ss k Hi Hs Hc Hz Hk Ho|i x d ss b k p Hi Hs Hc Hz Hr Hb Hat Hk Ho]; destruct H2 as [Hc'|i' x' d' ss' k' Hi' Hs' Hc' Hz' Hk' Ho'|i' x' d' ss' b' k' p' Hi' Hs' Hc' Hz' Hr' Hb' Hat' Hk' Ho']; try congruence.
  - rewrite Hc in Hc'. injection Hc' as <-. pose proof (Hinj _ _ _ _ _ Hi Hi') as <-. rewrite Hs in Hs'. injection Hs' as <-. assert (k = k') as -> by (rewrite Ho in Ho'; unfold offset_of in Ho'; destruct (fwd it); lia). done.
  - rewrite Hc in Hc'. injection Hc' as <-. pose proof (Hinj _ _ _ _ _ Hi Hi') as <-. rewrite Hs in Hs'. injection Hs' as <-. assert (k = k') as -> by (rewrite Ho in Ho'; unfold offset_of in Ho'; destruct (fwd it); lia). done.
Qed.

Lemma yields_parts ns sss it e s : yields ns sss it e s → ∃ A B, concat sss = A ++ s :: B ∧ it_rem ns sss it (if fwd it then B else reverse A) ∧ (fwd it = true → entry_at ns sss (length A) e ∧ 0 ≤ eoffset e).
Proof.
  intros Hy. pose proof Hy as (i & x & d & ss & b & k & p & v & Hi & Hs & Hr & Hb & Hat & Hk & Hsk & Hv & Hvn & Ho & He & Hit).
  exists (concat (take i sss) ++ take k ss), (drop (S k) ss ++ concat (drop (S i) sss)). destruct (concat_insert sss i ss [] Hs) as [C1 _]. split_and!.
  - rewrite C1. rewrite <- (take_drop_middle ss k s Hsk) at 1. by rewrite <- !app_assoc.
  - assert (∀ f, (if (f : bool) then drop (S k) ss ++ concat (drop (S i) sss) else reverse (concat (take i sss) ++ take k ss)) = rest f ss (if f then S k else k) ++ rest_nodes f sss i) as -> by (intros []; [done|]; by rewrite reverse_app).
    eapply it_mid; try done; by rewrite Hit.
  - intros Hf. rewrite Hf in Ho. unfold offset_of in Ho. split; [|lia]. exists i, x, d, ss, b, k, p, v. rewrite length_app, length_take, Nat.min_l by lia. split_and!; try done; rewrite ?Hv; try done; try (by rewrite He).
    unfold norm_index. rewrite Ho, (proj2 (Z.leb_le 0 _)), (proj2 (Z.ltb_lt _ _)) by lia. simpl. f_equal. lia.
Qed.

Section loops.
Context (junk : Z) (ljunk : Z → Z) (alloc : nat → list Z) (Halloc : ∀ n, length (alloc n) = n).

Lemma equal_ok h q ns sss it e s o : qrep h q ns sss → yields ns sss it e s → listTypeEqual h e o = Some (bool_decide (s = o)).
Proof.
  intros Hq (i & x & d & ss & b & k & p & v & Hi & Hs & _ & Hb & Hat & _ & Hsk & _ & _ & _ & -> & _). unfold listTypeEqual, quicklistCompare. cbn [enode ezi mbind option_bind].
  rewrite (links_data h q ns i x d (qr_links _ _ _ _ Hq) Hi). cbn [mbind option_bind]. rewrite Hb. cbn [mbind option_bind]. by eapply compare_at.
Qed.

(** One step of an iterator over a list without compression. *)
Lemma plain_next h q ns sss it R : qok h q ns sss → compress q = 0 → it_rem ns sss it R →
  match R with
  | [] => ∃ it', listTypeNext ljunk alloc h q (Some it) = Some (h, Some it', None)
  | s :: R' => ∃ it' e, listTypeNext ljunk alloc h q (Some it) = Some (h, Some it', Some e) ∧ yields ns sss it' e s ∧ fwd it' = fwd it ∧ it_rem ns sss it' R'
  end.
Proof.
  intros Hq Hc Hit. destruct (iter_next_spec ljunk alloc Halloc 0 h q ns sss it R (qok_rep _ _ _ _ Hq) Hit) as (h' & ns' & _ & _ & (_ & _ & Hpl) & Hres). destruct (Hpl (qok_plain _ _ _ _ Hq Hc)) as [-> ->]. unfold listTypeNext. destruct R as [|s R].
  - destruct Hres as (it' & -> & _). cbn [mbind option_bind]. by exists it'.
  - destruct Hres as (it' & e & -> & Hy & Hf & Hrem). cbn [mbind option_bind]. by exists it', e.
Qed.

(** The iterator at an end of the list. *)
Lemma start_iterator h q ns sss (f : bool) : qok h q ns sss → compress q = 0 →
  ∃ li, listTypeInitIterator alloc h q (if f then 0 else -1) (if f then LIST_TAIL else LIST_HEAD) = Some (h, li) ∧
    match li with None => concat sss = [] | Some it => fwd it = f ∧ it_rem ns sss it (if f then concat sss else reverse (concat sss)) end.
Proof.
  intros Hq Hc. unfold listTypeInitIterator. assert (negb ((if f then LIST_TAIL else LIST_HEAD) =? LIST_HEAD) = f) as -> by (by destruct f). set (idx := if f then 0 else -1).
  pose proof (iterator_at alloc Halloc h q ns sss f idx Hq ltac:(unfold idx; destruct f; lia) ltac:(unfold idx; destruct f; split; (done || lia))) as Hit.
  destruct (norm_index (length (concat sss)) idx) as [m|] eqn:Em.
  - destruct Hit as (h' & ns' & it & E & _ & _ & (_ & _ & Hpl) & Hrem). destruct (Hpl (qok_plain _ _ _ _ Hq Hc)) as [-> ->]. exists (Some it). split; [exact E|]. split.
    + unfold quicklistGetIteratorAtIdx in E. destruct (quicklistIndex alloc h q idx) as [[h1 [e|]]|]; cbn [mbind option_bind] in E; try done. by injection E as _ <-.
    + pose proof (norm_index_inv _ _ _ Em) as E0. pose proof (norm_index_lt _ _ _ Em) as Hm. unfold idx in E0. destruct f; simpl in E0.
      * assert (m = 0%nat) as -> by lia. done.
      * rewrite take_ge in Hrem by lia. done.
  - exists None. split; [exact Hit|]. apply norm_index_range in Em. apply length_zero_iff_nil. unfold idx in Em. destruct f; simpl in Em; lia.
Qed.
End loops.

(** ** The loops of the commands *)

(** The list after [vs] were pushed one after another. *)
Definition pushed (where_ : Z) (vs L : list (list Z)) : list (list Z) := if where_ =? LIST_HEAD then reverse vs ++ L else L ++ vs.

(** The index of the first [pivot]. *)
Fixpoint index_of (pivot : list Z) (L : list (list Z)) : option nat :=
  match L with [] => None | s :: L => if bool_decide (s = pivot) then Some 0%nat else S <$> index_of pivot L end.

(** Without the first [lim] strings equal to [obj]; without any of them when [lim] is 0. *)
Fixpoint remove_upto (lim : Z) (obj : list Z) (L : list (list Z)) : list (list Z) :=
  match L with
  | [] => []
  | s :: L => if bool_decide (s = obj) then if lim =? 1 then L else remove_upto (lim - 1) obj L else s :: remove_upto lim obj L
  end.

Definition dir (f : bool) (L : list (list Z)) : list (list Z) := if f then L else reverse L.

Lemma holds_length h q L : ql_holds h q L → listTypeLength q = Z.of_nat (length L).
Proof. intros (ns & sss & Hq & <-). apply Hq. Qed.

Section command_loops.
Context (junk : Z) (ljunk : Z → Z) (alloc : nat → list Z) (Halloc : ∀ n, length (alloc n) = n).

Lemma push_loop_ok w vs : w = LIST_HEAD ∨ w = LIST_TAIL → ∀ h q L, ql_holds h q L → smalls vs → Z.of_nat (length L) + Z.of_nat (length vs) < 2 ^ 48 →
  ∃ h' q', push_loop junk ljunk alloc h q vs w = Some (h', q') ∧ ql_holds h' q' (pushed w vs L) ∧ compress q' = compress q.
Proof.
  intros Hw. induction vs as [|v vs IH]; intros h q L Hh Hvs Hn.
  { exists h, q. split_and!; try done. unfold pushed. destruct (w =? LIST_HEAD); [done|]. by rewrite app_nil_r. }
  apply Forall_cons in Hvs as [Hv Hvs]. simpl in Hn.
  assert (∃ h' q', listTypePush junk ljunk alloc h q v w = Some (h', q') ∧ ql_holds h' q' (pushed w [v] L) ∧ compress q' = compress q) as (h1 & q1 & E1 & H1 & F1).
  { destruct Hh as (ns & sss & Hq & <-). unfold listTypePush, quicklistPush, pushed. destruct Hw as [-> | ->]; simpl.
    - destruct (push_head_ok junk ljunk alloc Halloc h q ns sss v Hq Hv) as (h' & q' & r & ns' & sss' & E & Hq' & C & _ & F2 & _); [lia|]. rewrite E. cbn [mbind option_bind]. exists h', q'. split_and!; try done. by exists ns', sss'.
    - destruct (push_tail_ok junk ljunk alloc Halloc h q ns sss v Hq Hv) as (h' & q' & r & E & Hb & _ & F2); [lia|]. rewrite E. cbn [mbind option_bind]. by exists h', q'. }
  cbn [push_loop]. rewrite E1. cbn [mbind option_bind].
  destruct (IH h1 q1 _ H1 Hvs) as (h2 & q2 & E2 & H2 & F2).
  { unfold pushed. destruct (w =? LIST_HEAD); simpl; rewrite ?length_app; simpl; lia. }
  exists h2, q2. split_and!; try done; [|congruence]. unfold pushed in *. destruct (w =? LIST_HEAD).
  - rewrite reverse_cons, <- app_assoc. done.
  - by rewrite <- app_assoc in H2.
Qed.

Lemma pop_list_ok h q L w : ql_holds h q L → w = LIST_HEAD ∨ w = LIST_TAIL →
  ∃ h' q' r, listTypePop junk ljunk alloc h q w = Some (h', q', r) ∧ compress q' = compress q ∧
    match pop_end (if w =? LIST_HEAD then QUICKLIST_HEAD else QUICKLIST_TAIL) L with None => r = None ∧ h' = h ∧ q' = q | Some (s, L') => r = Some s ∧ ql_holds h' q' L' end.
Proof.
  intros (ns & sss & Hq & <-) Hw. unfold listTypePop. destruct (pop_ok junk ljunk alloc Halloc h q ns sss (if w =? LIST_HEAD then QUICKLIST_HEAD else QUICKLIST_TAIL) Hq) as (h' & q' & r & -> & Hres).
  { destruct Hw as [-> | ->]; [by left|by right]. }
  cbn [mbind option_bind]. destruct (pop_end _ (concat sss)) as [[s L']|].
  - destruct Hres as [(v & -> & Hv & Hvn) (Hb & _ & F2)]. rewrite (entry_string_spec v Hvn). cbn [mbind option_bind]. exists h', q', (Some (zval_str v)). split_and!; try done. by rewrite Hv.
  - destruct Hres as (-> & -> & ->). by exists h, q, None.
Qed.

(** The step of a loop over the list: what was passed is [A]. *)
Lemma loop_step h q ns sss it s R A : qok h q ns sss → compress q = 0 → it_rem ns sss it (s :: R) → dir (fwd it) (concat sss) = A ++ s :: R →
  ∃ it' e, listTypeNext ljunk alloc h q (Some it) = Some (h, Some it', Some e) ∧ fwd it' = fwd it ∧ yields ns sss it' e s ∧ it_rem ns sss it' R ∧
    dir (fwd it) (concat sss) = (A ++ [s]) ++ R ∧ (∀ o, listTypeEqual h e o = Some (bool_decide (s = o))) ∧ (fwd it = true → entry_at ns sss (length A) e ∧ 0 ≤ eoffset e).
Proof.
  intros Hq Hc Hit Hd. destruct (plain_next ljunk alloc Halloc h q ns sss it _ Hq Hc Hit) as (it' & e & E & Hy & Hf & Hrem). exists it', e. rewrite <- app_assoc. split_and!; try done.
  - intros o. apply (equal_ok h q ns sss it' e s o (qok_rep _ _ _ _ Hq) Hy).
  - intros Hf'. destruct (yields_parts ns sss it' e s Hy) as (A' & B & HC & Hrem' & He). rewrite Hf, Hf' in *. pose proof (it_rem_det ns sss it' _ _ (lk_nodup _ _ _ (qo_links _ _ _ _ Hq)) Hrem Hrem') as ->.
    unfold dir in Hd. rewrite HC in Hd. apply app_inj_2 in Hd as [-> _]; [|done]. by apply He.
Qed.

Lemma insert_loop_ok w pivot v n : w = LIST_HEAD ∨ w = LIST_TAIL → ∀ h q ns sss it R A, qok h q ns sss → compress q = 0 → it_rem ns sss it R → fwd it = true → concat sss = A ++ R →
  (length R < n)%nat → Z.of_nat (length v) ≤ 2 ^ 29 → total (concat sss) + Z.of_nat (length v) + 18 ≤ 2 ^ 30 → size sss + 1 < 2 ^ 48 →
  match index_of pivot R with
  | None => insert_loop junk ljunk alloc n h q (Some it) pivot v w = Some (h, q, false)
  | Some i => ∃ h' q', insert_loop junk ljunk alloc n h q (Some it) pivot v w = Some (h', q', true) ∧ becomes q (spliced (concat sss) (length A + (if w =? LIST_TAIL then S i else i)) v) h' q'
  end.
Proof.
  intros Hw. induction n as [|n IH]; intros h q ns sss it R A Hq Hc Hit Hf HC Hn Hv Ht Hsm; [lia|]. cbn [insert_loop]. destruct R as [|s R].
  { destruct (plain_next ljunk alloc Halloc h q ns sss it [] Hq Hc Hit) as [it' ->]. done. }
  destruct (loop_step h q ns sss it s R A Hq Hc Hit) as (it' & e & -> & Hf' & Hy & Hrem & HC' & Heq & He); [by rewrite Hf|]. rewrite Hf in *. cbn [mbind option_bind index_of]. rewrite (Heq pivot). cbn [mbind option_bind]. case_bool_decide as Es.
  - destruct (He eq_refl) as [He1 He2]. destruct (insert_ok junk ljunk alloc Halloc h q ns sss (length A) e v (w =? LIST_TAIL) Hq Hc He1 He2 Hv Ht Hsm) as (h' & q' & E & Hb).
    exists h', q'. unfold listTypeInsert, quicklistInsertAfter, quicklistInsertBefore. destruct Hw as [-> | ->]; simpl in *; rewrite E; cbn [mbind option_bind]; split; try done.
    + by rewrite Nat.add_0_r.
    + by rewrite Nat.add_1_r.
  - specialize (IH h q ns sss it' R (A ++ [s]) Hq Hc Hrem ltac:(congruence) HC' ltac:(simpl in Hn; lia) Hv Ht Hsm). destruct (index_of pivot R) as [i|]; simpl; [|done].
    rewrite length_app in IH. simpl in IH. replace (length A + (if (w =? LIST_TAIL)%Z then S (S i) else S i))%nat with (length A + 1 + (if (w =? LIST_TAIL)%Z then S i else i))%nat by (destruct (w =? LIST_TAIL); lia). done.
Qed.

Lemma range_replies_ok n h q ns sss : qok h q ns sss → compress q = 0 → ∀ it R s, it_rem ns sss it R → (n ≤ length R)%nat →
  range_replies ljunk alloc n s h q (Some it) = Some (add_replies s (RBulk <$> take n R), h).
Proof.
  intros Hq Hc. induction n as [|n IH]; intros it R s Hit Hn.
  { simpl. unfold add_replies. rewrite app_nil_r. by destruct s. }
  destruct R as [|x R]; simpl in Hn; [lia|]. cbn [range_replies]. destruct (plain_next ljunk alloc Halloc h q ns sss it _ Hq Hc Hit) as (it' & e & -> & Hy & _ & Hrem). cbn [mbind option_bind].
  assert (listTypeGet e = Some x) as ->.
  { destruct Hy as (i & y & d & ss & b & k & p & v & _ & _ & _ & _ & _ & _ & _ & <- & Hvn & _ & -> & _). unfold listTypeGet. cbn [evalue mbind option_bind]. by apply entry_string_spec. }
  cbn [mbind option_bind]. rewrite (IH it' R _ Hrem) by lia. unfold add_replies, addReply. simpl. by rewrite <- app_assoc.
Qed.

Lemma remove_upto_length lim obj L : (length (remove_upto lim obj L) ≤ length L)%nat.
Proof. revert lim. induction L as [|s L IH]; intros lim; simpl; [lia|]. case_bool_decide; [|simpl; specialize (IH lim); lia]. destruct (lim =? 1); [lia|]. specialize (IH (lim - 1)). lia. Qed.

Lemma remove_loop_ok obj n : ∀ h q ns sss it R A toremove removed, qok h q ns sss → compress q = 0 → it_rem ns sss it R → dir (fwd it) (concat sss) = A ++ R → (length R < n)%nat → 0 ≤ removed →
  ∃ h' q' L', remove_loop junk ljunk alloc n h q (Some it) obj toremove removed = Some (h', q', removed + (Z.of_nat (length R) - Z.of_nat (length (remove_upto (toremove - removed) obj R)))) ∧
    ql_holds h' q' L' ∧ compress q' = 0 ∧ dir (fwd it) L' = A ++ remove_upto (toremove - removed) obj R.
Proof.
  induction n as [|n IH]; intros h q ns sss it R A tr rd Hq Hc Hit HC Hn Hrd; [lia|]. cbn [remove_loop]. destruct R as [|s R].
  { destruct (plain_next ljunk alloc Halloc h q ns sss it [] Hq Hc Hit) as [it' ->]. cbn [mbind option_bind]. exists h, q, (concat sss). split_and!; try done; [do 2 f_equal; simpl; lia|]. by exists ns, sss. }
  destruct (loop_step h q ns sss it s R A Hq Hc Hit HC) as (it' & e & -> & Hf & Hy & Hrem & HC' & Heq & _). cbn [mbind option_bind remove_upto]. rewrite (Heq obj). cbn [mbind option_bind]. simpl in Hn. case_bool_decide as Es.
  - destruct (del_entry_ok ljunk alloc Halloc junk h q ns sss it' e s Hq Hc Hy) as (h1 & q1 & it1 & ns1 & sss1 & A1 & B1 & E & Hq1 & _ & Hc1 & Hf1 & E1 & E2 & Hrem1 & Hrem2).
    unfold listTypeDelete. rewrite E. cbn [mbind option_bind]. pose proof (it_rem_det ns sss it' _ _ (lk_nodup _ _ _ (qo_links _ _ _ _ Hq)) Hrem Hrem2) as ER. rewrite <- ER in Hrem1.
    assert (dir (fwd it) (concat sss1) = A ++ R) as HC1.
    { rewrite <- Hf. unfold dir in *. rewrite E2. rewrite E1, <- Hf in HC. destruct (fwd it'); subst R.
      - apply app_inj_2 in HC as [-> _]; done.
      - rewrite reverse_app, reverse_cons, <- app_assoc in HC. simpl in HC. apply app_inj_2 in HC as [E3 _]; [|done]. by rewrite reverse_app, E3. }
    assert (negb (tr =? 0) && (rd + 1 =? tr) = (tr - rd =? 1)) as ->. { destruct (Z.eqb_spec tr 0), (Z.eqb_spec (rd + 1) tr), (Z.eqb_spec (tr - rd) 1); simpl; (done || lia). }
    destruct (tr - rd =? 1).
    + exists h1, q1, (concat sss1). split_and!; try done; [do 2 f_equal; simpl; lia|]. by exists ns1, sss1.
    + destruct (IH h1 q1 ns1 sss1 it1 R A tr (rd + 1) Hq1 Hc1 Hrem1) as (h2 & q2 & L2 & E3 & Hh2 & Hc2 & HL2); [congruence|lia|lia|]. replace (tr - (rd + 1)) with (tr - rd - 1) in * by lia.
      exists h2, q2, L2. split_and!; try done; [|by rewrite <- Hf, <- Hf1]. rewrite E3. do 2 f_equal. simpl. lia.
  - destruct (IH h q ns sss it' R (A ++ [s]) tr rd Hq Hc Hrem) as (h2 & q2 & L2 & E3 & Hh2 & Hc2 & HL2); [congruence|lia|lia|]. exists h2, q2, L2. rewrite <- app_assoc in HL2. split_and!; try done; [|by rewrite <- Hf].
    rewrite E3. do 2 f_equal. simpl. lia.
Qed.
End command_loops.

(** ** The commands on sequences of strings *)

Inductive aval := AList (L : list (list Z)) | AOther.

Abbreviation db := (gmap (list Z) aval).

Abbreviation outcome := (Keyspace.outcome aval).

Inductive command :=
  | LPUSH (k : list Z) (vs : list (list Z)) | RPUSH (k : list Z) (vs : list (list Z))
  | LPUSHX (k : list Z) (vs : list (list Z)) | RPUSHX (k : list Z) (vs : list (list Z))
  | LINSERT (k place pivot v : list Z) | LLEN (k : list Z) | LINDEX (k i : list Z) | LSET (k i v : list Z)
  | LPOP (k : list Z) | RPOP (k : list Z) | LRANGE (k a b : list Z) | LTRIM (k a b : list Z) | LREM (k c v : list Z) | RPOPLPUSH (src dst : list Z).

(** A list without strings is no key. *)
Definition store (D : db) (k : list Z) (L : list (list Z)) : db := match L with [] => delete k D | _ => <[k := AList L]> D end.
Definition gone (L : list (list Z)) (k : list Z) : list event := match L with [] => [NotifyGeneric "del" k] | _ => [] end.

Definition with_list (D : db) (k : list Z) (absent : reply) (f : list (list Z) → outcome) : outcome :=
  match D !! k with None => answer D absent | Some AOther => answer D RWrongType | Some (AList L) => f L end.

(** The strings of [L], which begins at index [i], whose index is in a range. *)
Fixpoint within (lo hi i : Z) (L : list (list Z)) : list (list Z) :=
  match L with
  | [] => []
  | s :: L => if bool_decide (lo ≤ i ≤ hi) then s :: within lo hi (i + 1) L else within lo hi (i + 1) L
  end.

(** The strings from [a] to [b], negative indexes counting from the end. *)
Definition position (L : list (list Z)) (a : Z) : Z := if bool_decide (a < 0) then Z.of_nat (length L) + a else a.
Definition sub (L : list (list Z)) (a b : Z) : list (list Z) := within (position L a) (position L b) 0 L.

Definition push_events (vs : list (list Z)) (k : list Z) (name : string) : list event := match vs with [] => [] | _ => [SignalModified k; NotifyList name k] end.

Definition push_spec (D : db) (k : list Z) (vs : list (list Z)) (where_ : Z) (name : string) (L : list (list Z)) : outcome :=
  let L := pushed where_ vs L in Outcome (store D k L) (Z.of_nat (length vs)) (push_events vs k name) [RLong (Z.of_nat (length L))].

Definition pop_spec (D : db) (k : list Z) (where_ : Z) (name : string) (L : list (list Z)) : outcome :=
  match pop_end where_ L with
  | None => answer D RNullBulk
  | Some (s, L) => Outcome (store D k L) 1 (NotifyList name k :: gone L k ++ [SignalModified k]) [RBulk s]
  end.

Definition list_or_nil (o : option aval) : list (list Z) := match o with Some (AList L) => L | _ => [] end.

Definition spec (c : command) (D : db) : outcome :=
  match c with
  | LPUSH k vs => match D !! k with Some AOther => answer D RWrongType | o => push_spec D k vs LIST_HEAD "lpush" (list_or_nil o) end
  | RPUSH k vs => match D !! k with Some AOther => answer D RWrongType | o => push_spec D k vs LIST_TAIL "rpush" (list_or_nil o) end
  | LPUSHX k vs => with_list D k (RLong 0) (push_spec D k vs LIST_HEAD "lpush")
  | RPUSHX k vs => with_list D k (RLong 0) (push_spec D k vs LIST_TAIL "rpush")
  | LINSERT k place pivot v =>
      let insert (after : bool) := with_list D k (RLong 0) (λ L, match index_of pivot L with
        | None => answer D (RLong (-1))
        | Some i => let L := spliced L (if after then S i else i) v in
            Outcome (store D k L) 1 [SignalModified k; NotifyList "linsert" k] [RLong (Z.of_nat (length L))] end) in
      if keyword "after" place then insert true else if keyword "before" place then insert false else answer D RSyntax
  | LLEN k => with_list D k (RLong 0) (λ L, answer D (RLong (Z.of_nat (length L))))
  | LINDEX k i => with_list D k RNullBulk (λ L, with_int D i (λ i, answer D (match norm_index (length L) i ≫= (L !!.) with None => RNullBulk | Some s => RBulk s end)))
  | LSET k i v => with_list D k RNoKey (λ L, with_int D i (λ i, match norm_index (length L) i with
      | None => answer D ROutOfRange
      | Some m => Outcome (store D k (<[m := v]> L)) 1 [SignalModified k; NotifyList "lset" k] [ROk] end))
  | LPOP k => with_list D k RNullBulk (pop_spec D k QUICKLIST_HEAD "lpop")
  | RPOP k => with_list D k RNullBulk (pop_spec D k QUICKLIST_TAIL "rpop")
  | LRANGE k a b => with_int D a (λ a, with_int D b (λ b, with_list D k REmptyMulti (λ L,
      Outcome D 0 [] (match sub L a b with [] => [REmptyMulti] | L' => RMultiLen (Z.of_nat (length L')) :: (RBulk <$> L') end))))
  | LTRIM k a b => with_int D a (λ a, with_int D b (λ b, with_list D k ROk (λ L,
      Outcome (store D k (sub L a b)) 1 (NotifyList "ltrim" k :: gone (sub L a b) k ++ [SignalModified k]) [ROk])))
  | LREM k c v => with_int D c (λ n, with_list D k (RLong 0) (λ L,
      let L' := dir (0 <=? n) (remove_upto (Z.abs n) v (dir (0 <=? n) L)) in let removed := Z.of_nat (length L) - Z.of_nat (length L') in
      Outcome (store D k L') removed ((if removed =? 0 then [] else [SignalModified k; NotifyList "lrem" k]) ++ gone L' k) [RLong removed]))
  | RPOPLPUSH src dst => with_list D src RNullBulk (λ L, match pop_end QUICKLIST_TAIL L, D !! dst with
      | None, _ => answer D RNullBulk
      | _, Some AOther => answer D RWrongType
      | Some (s, L), _ =>
          let D := <[src := AList L]> D in let D := <[dst := AList (s :: list_or_nil (D !! dst))]> D in let L := list_or_nil (D !! src) in
          Outcome (store D src L) 1 (SignalModified dst :: NotifyList "lpush" dst :: NotifyList "rpop" src :: gone L src ++ [SignalModified src]) [RBulk s]
      end)
  end.

(** The sizes the commands are specified for: strings of at most 512 MB, lists
    of fewer than 2^48 strings and, where a string is put into the middle of a
    list, a list of at most 1 GB; the least [long] is no count and no index. *)
Definition small (v : list Z) : bool := Z.of_nat (length v) <=? 2 ^ 29.
Definition room_for (v : list Z) (L : list (list Z)) : bool := small v && (total L + Z.of_nat (length v) + 18 <=? 2 ^ 30) && (Z.of_nat (length L) + 1 <? 2 ^ 48).
Definition not_least (o : list Z) : bool := match string2ll o with Some n => negb (n =? - 2 ^ 63) | None => true end.
Definition fits (c : command) (D : db) : bool :=
  match c with
  | LPUSH k vs | RPUSH k vs | LPUSHX k vs | RPUSHX k vs => forallb small vs && (Z.of_nat (length (list_or_nil (D !! k))) + Z.of_nat (length vs) <? 2 ^ 48)
  | LINSERT k _ _ v => room_for v (list_or_nil (D !! k))
  | LSET k i v => room_for v (list_or_nil (D !! k)) && not_least i
  | LINDEX _ i => not_least i
  | LREM _ c _ => not_least c
  | RPOPLPUSH _ dst => Z.of_nat (length (list_or_nil (D !! dst))) + 1 <? 2 ^ 48
  | _ => true
  end.

(** ** Keys and lists *)

Definition holds_val (v : kval) (a : aval) : Prop :=
  match v, a with KList h q, AList L => ql_holds h q L ∧ compress q = 0 ∧ L ≠ [] ∧ smalls L | KOther, AOther => True | _, _ => False end.

Abbreviation srv_ok := (keys_ok holds_val).
Abbreviation refines := (refines_by holds_val).

Lemma srv_insert K D k h q L : srv_ok K D → ql_holds h q L → compress q = 0 → L ≠ [] → smalls L → srv_ok (<[k := KList h q]> K) (store D k L).
Proof. intros HK Hh Hc Hne Hs. destruct L; [done|]. by apply keys_insert. Qed.

Lemma srv_same K D k h q L : srv_ok K D → D !! k = Some (AList L) → ql_holds h q L → compress q = 0 → srv_ok (<[k := KList h q]> K) D.
Proof.
  intros HK HD Hh Hc. destruct (keys_cases holds_val K D k HK) as [[_ E]|(v & a & _ & E & Hva)]; [congruence|]. rewrite HD in E. injection E as <-. apply (keys_same holds_val K D k _ _ HK HD). destruct v; [|done]. simpl in *. naive_solver.
Qed.

(** The key with its list removed when nothing is left of it. *)
Lemma srv_store K D k h q L : srv_ok K D → ql_holds h q L → compress q = 0 → smalls L →
  srv_ok (if listTypeLength q =? 0 then delete k (<[k := KList h q]> K) else <[k := KList h q]> K) (store D k L) ∧ (listTypeLength q =? 0) = bool_decide (L = []).
Proof.
  intros HK Hh Hc Hs. rewrite (holds_length _ _ _ Hh). destruct L as [|s L].
  - simpl. split; [|done]. rewrite delete_insert_eq. by apply keys_delete.
  - simpl length. rewrite (proj2 (Z.eqb_neq _ 0)) by lia. split; [by apply srv_insert|done].
Qed.

Lemma with_list_ok s D k absent f g : srv_ok (keys s) D →
  (∀ h q L, keys s !! k = Some (KList h q) → D !! k = Some (AList L) → ql_holds h q L → compress q = 0 → L ≠ [] → smalls L → refines s (f L) (g h q)) →
  refines s (with_list D k absent f) (match lookup_list s k absent with inr s => Some s | inl (h, q) => g h q end).
Proof.
  intros HK Hf. unfold with_list, lookup_list. pose proof (HK k) as Hk. destruct (keys s !! k) as [[h q|]|] eqn:EK; inversion Hk as [v a Hva E1 E2|E1 E2]; subst; try (by apply answer_ok).
  - destruct a as [L|]; [|done]. destruct Hva as (? & ? & ? & ?). by apply Hf.
  - destruct a as [L|]; [done|]. by apply answer_ok.
Qed.

(** ** Each command *)

Lemma pushed_facts w vs L : length (pushed w vs L) = (length vs + length L)%nat ∧ (smalls vs → smalls L → smalls (pushed w vs L)) ∧ (L ≠ [] ∨ vs ≠ [] → pushed w vs L ≠ []).
Proof.
  assert (length (pushed w vs L) = (length vs + length L)%nat) as E by (unfold pushed; destruct (w =? LIST_HEAD); rewrite length_app, ?length_reverse; lia). split_and!; [done| |].
  - intros Hv HL. unfold pushed. destruct (w =? LIST_HEAD); apply Forall_app; split; try done. by apply Forall_reverse.
  - intros H0 E0. rewrite E0 in E. destruct H0 as [H0|H0]; apply H0, length_zero_iff_nil; simpl in E; lia.
Qed.

Lemma small_all vs : forallb small vs = true → smalls vs.
Proof. intros H. rewrite forallb_forall in H. apply Forall_forall. intros v Hv. apply Z.leb_le, H. by apply list_elem_of_In. Qed.

Section refinement.
Context (junk : Z) (ljunk : Z → Z) (alloc : nat → list Z) (Halloc : ∀ n, length (alloc n) = n) (fill : Z).

Lemma new_list_holds : let '(h, q) := new_list fill 0 in ql_holds h q [] ∧ compress q = 0.
Proof. split; [|done]. exists [], []. split; [apply (new_qok ∅ fill 0)|done]. Qed.

Lemma push_store s D k vs w h q L : srv_ok (keys s) D → ql_holds h q L → compress q = 0 → smalls L → vs ≠ [] ∨ L ≠ [] → smalls vs → Z.of_nat (length L) + Z.of_nat (length vs) < 2 ^ 48 → w = LIST_HEAD ∨ w = LIST_TAIL →
  ∃ h' q', push_loop junk ljunk alloc h q vs w = Some (h', q') ∧ srv_ok (<[k := KList h' q']> (keys s)) (store D k (pushed w vs L)) ∧ listTypeLength q' = Z.of_nat (length (pushed w vs L)).
Proof.
  intros HK Hh Hc HL Hne Hvs Hn Hw. destruct (push_loop_ok junk ljunk alloc Halloc w vs Hw h q L Hh Hvs Hn) as (h' & q' & E & Hh' & Hc'). destruct (pushed_facts w vs L) as (_ & F1 & F2).
  exists h', q'. split_and!; [done| |by eapply holds_length]. apply srv_insert; try done; [congruence|apply F2; tauto|by apply F1].
Qed.

Lemma push_ok s D k vs w name : srv_ok (keys s) D → w = LIST_HEAD ∧ name = "lpush" ∨ w = LIST_TAIL ∧ name = "rpush" → smalls vs → Z.of_nat (length (list_or_nil (D !! k))) + Z.of_nat (length vs) < 2 ^ 48 →
  refines s (match D !! k with Some AOther => answer D RWrongType | o => push_spec D k vs w name (list_or_nil o) end) (pushGenericCommand junk ljunk alloc fill 0 s k vs w).
Proof.
  intros HK Hw Hvs Hn. unfold pushGenericCommand. assert (w = LIST_HEAD ∨ w = LIST_TAIL) as Hw' by tauto. assert ((if w =? LIST_HEAD then "lpush" else "rpush") = name) as Ename by (destruct Hw as [[-> ->]|[-> ->]]; done).
  pose proof (HK k) as Hk. destruct (keys s !! k) as [[h q|]|] eqn:EK, (D !! k) as [[L|]|] eqn:ED; inversion Hk as [? ? Hva|]; subst; try (by destruct Hva).
  - destruct Hva as (Hh & Hc & Hne & HL). simpl in Hn. destruct vs as [|v vs].
    + unfold push_spec. cbn [list_or_nil]. assert (pushed w [] L = L) as -> by (unfold pushed; destruct (w =? LIST_HEAD); [done|apply app_nil_r]). rewrite (holds_length _ _ _ Hh). settle_server.
      unfold store. destruct L; [done|]. rewrite insert_id by done. done.
    + destruct (push_store s D k (v :: vs) w h q L) as (h' & q' & -> & HK' & Elen); try done; [by left|]. cbn [mbind option_bind]. rewrite Elen. unfold push_spec, pushed_events. settle_server.
  - by apply answer_ok.
  - simpl in Hn. destruct vs as [|v vs].
    + unfold push_spec. cbn [list_or_nil]. assert (pushed w [] [] = []) as -> by (unfold pushed; by destruct (w =? LIST_HEAD)). settle_server. rewrite delete_id; done.
    + pose proof new_list_holds as Hnew. destruct (new_list fill 0) as [h q]. destruct Hnew as [Hh Hc]. destruct (push_store s D k (v :: vs) w h q []) as (h' & q' & -> & HK' & Elen); try done; [by left|]. cbn [mbind option_bind]. rewrite Elen. unfold push_spec, pushed_events. settle_server.
Qed.

Lemma pushx_ok s D k vs w name : srv_ok (keys s) D → w = LIST_HEAD ∧ name = "lpush" ∨ w = LIST_TAIL ∧ name = "rpush" → smalls vs → Z.of_nat (length (list_or_nil (D !! k))) + Z.of_nat (length vs) < 2 ^ 48 →
  refines s (with_list D k (RLong 0) (push_spec D k vs w name)) (pushxGenericCommand junk ljunk alloc s k vs w).
Proof.
  intros HK Hw Hvs Hn. unfold pushxGenericCommand. assert (w = LIST_HEAD ∨ w = LIST_TAIL) as Hw' by tauto. assert ((if w =? LIST_HEAD then "lpush" else "rpush") = name) as Ename by (destruct Hw as [[-> ->]|[-> ->]]; done).
  apply with_list_ok; [done|]. intros h q L EK ED Hh Hc Hne HL. rewrite ED in Hn. destruct (push_store s D k vs w h q L) as (h' & q' & -> & HK' & Elen); try done; [by right|]. cbn [mbind option_bind]. rewrite Elen. unfold push_spec, pushed_events. rewrite Ename.
  destruct vs; settle_server.
Qed.

Lemma spliced_small L m v : smalls L → Z.of_nat (length v) ≤ 2 ^ 29 → smalls (spliced L m v) ∧ spliced L m v ≠ [].
Proof. intros HL Hv. unfold spliced. split; [apply Forall_app; split; [by apply Forall_take|]; constructor; [done|by apply Forall_drop]|]. by destruct (take m L). Qed.

Lemma linsert_ok s D k place pivot v : srv_ok (keys s) D → room_for v (list_or_nil (D !! k)) = true → refines s (spec (LINSERT k place pivot v) D) (linsertCommand junk ljunk alloc s k place pivot v).
Proof.
  intros HK Hroom. unfold linsertCommand. cbn [spec].
  assert (∀ after : bool, refines s (with_list D k (RLong 0) (λ L, match index_of pivot L with None => answer D (RLong (-1)) | Some i => let L := spliced L (if after then S i else i) v in Outcome (store D k L) 1 [SignalModified k; NotifyList "linsert" k] [RLong (Z.of_nat (length L))] end))
    (match lookup_list s k (RLong 0) with inr s => Some s | inl (h, q) =>
      '(h, iter) ← listTypeInitIterator alloc h q 0 LIST_TAIL;
      '(h, q, inserted) ← insert_loop junk ljunk alloc (S (Z.to_nat (listTypeLength q))) h q iter pivot v (if after then LIST_TAIL else LIST_HEAD);
      let s := set_list s k h q in
      if (inserted : bool) then Some (addReply (add_dirty (log (log s (SignalModified k)) (NotifyList "linsert" k)) 1) (RLong (listTypeLength q)))
      else Some (addReply s (RLong (-1))) end)) as Hins.
  { intros after. apply with_list_ok; [done|]. intros h q L EK ED Hh Hc Hne HL. rewrite ED in Hroom. unfold room_for in Hroom. simpl in Hroom. apply andb_prop in Hroom as [[Hv Ht]%andb_prop Hn]. apply Z.leb_le in Hv, Ht. apply Z.ltb_lt in Hn.
    pose proof (holds_length _ _ _ Hh) as Elen. destruct Hh as (ns & sss & Hq & <-). destruct (start_iterator alloc Halloc h q ns sss true Hq Hc) as (li & -> & Hli). cbn [mbind option_bind]. destruct li as [it|]; [|done]. destruct Hli as [Hf Hrem].
    pose proof (insert_loop_ok junk ljunk alloc Halloc (if after then LIST_TAIL else LIST_HEAD) pivot v (S (Z.to_nat (listTypeLength q))) ltac:(destruct after; auto) h q ns sss it (concat sss) [] Hq Hc Hrem Hf eq_refl ltac:(rewrite Elen, Nat2Z.id; apply Nat.lt_succ_diag_r) Hv Ht Hn) as Hres.
    destruct (index_of pivot (concat sss)) as [i|].
    - destruct Hres as (h' & q' & -> & Hb & _ & Hc'). cbn [mbind option_bind]. simpl length in Hb. assert ((0 + (if ((if after then LIST_TAIL else LIST_HEAD) =? LIST_TAIL)%Z then S i else i))%nat = (if after then S i else i)) as Ei by (by destruct after). rewrite Ei in Hb. rewrite (holds_length _ _ _ Hb). settle_server.
      destruct (spliced_small (concat sss) (if after then S i else i) v HL Hv) as [S1 S2]. apply srv_insert; try done. congruence.
    - rewrite Hres. cbn [mbind option_bind]. settle_server. eapply srv_same; try done. by exists ns, sss. }
  change (keyword "after" place) with (is_word place w_after). change (keyword "before" place) with (is_word place w_before).
  destruct (is_word place w_after); [apply (Hins true)|]. destruct (is_word place w_before); [apply (Hins false)|]. by apply answer_ok.
Qed.

Lemma llen_ok s D k : srv_ok (keys s) D → refines s (spec (LLEN k) D) (llenCommand s k).
Proof. intros HK. apply with_list_ok; [done|]. intros h q L EK ED Hh Hc Hne HL. rewrite (holds_length _ _ _ Hh). by apply answer_ok. Qed.

Lemma least_range o n : not_least o = true → string2ll o = Some n → in_s 64 n → - 2 ^ 63 < n < 2 ^ 63.
Proof. unfold not_least. intros H E Hn. rewrite E in H. apply negb_true_iff, Z.eqb_neq in H. unfold in_s in Hn. simpl in *. lia. Qed.

Lemma lindex_ok s D k i : srv_ok (keys s) D → not_least i = true → refines s (spec (LINDEX k i) D) (lindexCommand alloc s k i).
Proof.
  intros HK Hi. apply with_list_ok; [done|]. intros h q L EK ED Hh Hc Hne HL. apply with_int_ok; [done|]. intros n En Hn. pose proof (least_range i n Hi En Hn) as Hr. pose proof Hh as Hh0. destruct Hh as (ns & sss & Hq & <-).
  pose proof (index_ok alloc Halloc h q ns sss n Hq Hr) as Hix. destruct (norm_index (length (concat sss)) n) as [m|] eqn:Em; cbn [mbind option_bind].
  - destruct Hix as (h' & ns' & e & -> & He & _ & (_ & _ & _ & _ & Hpl)). destruct (Hpl Hc) as [-> ->]. cbn [mbind option_bind]. destruct (entry_lookup ns sss m e He) as (v & Ev & ->).
    destruct He as (i0 & x & d & ss & b & k0 & p & v' & _ & _ & _ & _ & _ & _ & _ & _ & Hvn & _ & _ & _ & Ev'). rewrite Ev in Ev'. injection Ev' as <-.
    unfold listTypeGet. rewrite Ev. cbn [mbind option_bind]. rewrite (entry_string_spec v Hvn). cbn [mbind option_bind]. settle_server. by eapply srv_same.
  - rewrite Hix. cbn [mbind option_bind]. settle_server. by eapply srv_same.
Qed.

Lemma lset_ok s D k i v : srv_ok (keys s) D → room_for v (list_or_nil (D !! k)) && not_least i = true → refines s (spec (LSET k i v) D) (lsetCommand junk ljunk alloc s k i v).
Proof.
  intros HK [Hroom Hi]%andb_prop. apply with_list_ok; [done|]. intros h q L EK ED Hh Hc Hne HL. apply with_int_ok; [done|]. intros n En Hn. pose proof (least_range i n Hi En Hn) as Hr. pose proof Hh as Hh0. destruct Hh as (ns & sss & Hq & <-).
  rewrite ED in Hroom. unfold room_for, small in Hroom. cbn [list_or_nil] in Hroom. apply andb_prop in Hroom as [[Hv Ht]%andb_prop _]. apply Z.leb_le in Hv, Ht.
  pose proof (replace_ok ljunk alloc Halloc junk h q ns sss n v Hq Hc Hr Ht) as Hres. destruct (norm_index (length (concat sss)) n) as [m|] eqn:Em.
  - destruct Hres as (h' & -> & Hb & _ & _). cbn [mbind option_bind]. settle_server. apply srv_insert; try done; [|by apply Forall_insert].
    intros E0. apply (f_equal length) in E0. rewrite length_insert in E0. by apply length_zero_iff_nil in E0.
  - rewrite Hres. cbn [mbind option_bind]. settle_server. by eapply srv_same.
Qed.

Lemma pop_end_small w L s L' : pop_end w L = Some (s, L') → w = QUICKLIST_HEAD ∨ w = QUICKLIST_TAIL → smalls L → Z.of_nat (length s) ≤ 2 ^ 29 ∧ smalls L'.
Proof.
  intros E [-> | ->] HL.
  - destruct L; [done|]. injection E as -> ->. by apply Forall_cons in HL.
  - destruct L as [|x L _] using rev_ind; [done|]. rewrite pop_end_snoc in E. injection E as -> ->. apply Forall_app in HL as [? Hx]. by apply Forall_cons in Hx as [? _].
Qed.

Lemma pop_ok_list s D k w name : srv_ok (keys s) D → w = LIST_HEAD ∧ name = "lpop" ∨ w = LIST_TAIL ∧ name = "rpop" →
  refines s (with_list D k RNullBulk (pop_spec D k (if w =? LIST_HEAD then QUICKLIST_HEAD else QUICKLIST_TAIL) name)) (popGenericCommand junk ljunk alloc s k w).
Proof.
  intros HK Hw. assert (w = LIST_HEAD ∨ w = LIST_TAIL) as Hw' by tauto. assert ((if w =? LIST_HEAD then "lpop" else "rpop") = name) as Ename by (destruct Hw as [[-> ->]|[-> ->]]; done).
  apply with_list_ok; [done|]. intros h q L EK ED Hh Hc Hne HL. destruct (pop_list_ok junk ljunk alloc Halloc h q L w Hh Hw') as (h' & q' & r & -> & Hc' & Hres). cbn [mbind option_bind]. unfold pop_spec. rewrite Ename.
  destruct (pop_end _ L) as [[x L']|] eqn:Ep.
  - destruct Hres as [-> Hh']. apply pop_end_small in Ep as [_ HL']; [|destruct Hw' as [-> | ->]; [by left|by right]|done].
    destruct (srv_store (keys s) D k h' q' L') as [HK' E0]; try done; [congruence|]. rewrite E0 in *. destruct L'; simpl in *; settle_server.
  - destruct Hres as (-> & -> & ->). settle_server. by eapply srv_same.
Qed.

Lemma within_take lo hi L : ∀ i, within lo hi i L = take (Z.to_nat (hi - Z.max lo i + 1)) (drop (Z.to_nat (Z.max lo i - i)) L).
Proof.
  induction L as [|s L IH]; intros i; cbn [within]; [by rewrite drop_nil, take_nil|]. rewrite IH. case_bool_decide as Hb.
  - replace (Z.max lo i - i) with 0 by lia. replace (Z.max lo (i + 1) - (i + 1)) with 0 by lia. simpl. replace (Z.to_nat (hi - Z.max lo i + 1)) with (S (Z.to_nat (hi - Z.max lo (i + 1) + 1))) by lia. done.
  - destruct (decide (hi < Z.max lo i)).
    + replace (Z.to_nat (hi - Z.max lo i + 1)) with 0%nat by lia. by replace (Z.to_nat (hi - Z.max lo (i + 1) + 1)) with 0%nat by lia.
    + replace (Z.to_nat (Z.max lo i - i)) with (S (Z.to_nat (Z.max lo (i + 1) - (i + 1)))) by lia. simpl. do 2 f_equal. lia.
Qed.

(** What LRANGE and LTRIM do with the indexes. *)
Lemma sub_range (L : list (list Z)) a b s e : convert_range (Z.of_nat (length L)) a b = (s, e) →
  sub L a b = if (e <? s) || (Z.of_nat (length L) <=? s) then [] else take (Z.to_nat (e - s + 1)) (drop (Z.to_nat s) L).
Proof.
  intros E. unfold sub. rewrite within_take. assert (s = Z.max (position L a) 0 ∧ e = position L b) as [-> ->].
  { unfold convert_range in E. unfold position. injection E as <- <-. destruct (Z.ltb_spec a 0), (Z.ltb_spec b 0); repeat case_bool_decide; try lia; case_match; try lia;
      repeat match goal with H : (_ <? _) = true |- _ => apply Z.ltb_lt in H | H : (_ <? _) = false |- _ => apply Z.ltb_ge in H end; lia. }
  rewrite Z.sub_0_r. destruct (Z.ltb_spec (position L b) (Z.max (position L a) 0)); simpl; [by replace (Z.to_nat (position L b - Z.max (position L a) 0 + 1)) with 0%nat by lia|].
  destruct (Z.leb_spec (Z.of_nat (length L)) (Z.max (position L a) 0)); [|done]. rewrite drop_ge by lia. apply take_nil.
Qed.

Lemma range_length (L : list (list Z)) a b s e : convert_range (Z.of_nat (length L)) a b = (s, e) → 0 ≤ s.
Proof. unfold convert_range. intros [= <- <-]. destruct (a <? 0), (Z.ltb_spec a 0), (Z.ltb_spec (Z.of_nat (length L) + a) 0); simpl; repeat case_match; lia. Qed.

(** The range clipped at the end of the list. *)
Lemma clip_range (L : list (list Z)) s e : 0 ≤ s → ((e <? s) || (Z.of_nat (length L) <=? s)) = false → let e' := if Z.of_nat (length L) <=? e then Z.of_nat (length L) - 1 else e in
  0 < e' - s + 1 ≤ Z.of_nat (length L) - s ∧ take (Z.to_nat (e - s + 1)) (drop (Z.to_nat s) L) = take (Z.to_nat (e' - s + 1)) (drop (Z.to_nat s) L).
Proof.
  intros Hs [H1 H2]%orb_false_elim. apply Z.ltb_ge in H1. apply Z.leb_gt in H2. destruct (Z.leb_spec (Z.of_nat (length L)) e); simpl; [|split; [lia|done]]. split; [lia|]. rewrite !take_ge by (rewrite length_drop; lia). done.
Qed.

Lemma lrange_ok s D k a b : srv_ok (keys s) D → refines s (spec (LRANGE k a b) D) (lrangeCommand ljunk alloc s k a b).
Proof.
  intros HK. apply with_int_ok; [done|]. intros na _ Ha. apply with_int_ok; [done|]. intros nb _ Hb. apply with_list_ok; [done|]. intros h q L EK ED Hh Hc Hne HL. rewrite (holds_length _ _ _ Hh).
  destruct (convert_range (Z.of_nat (length L)) na nb) as [st en] eqn:Ec. rewrite (sub_range L na nb st en Ec). pose proof (range_length L na nb st en Ec) as Hst. destruct ((en <? st) || (Z.of_nat (length L) <=? st)) eqn:Eo; [by apply answer_ok|].
  destruct (clip_range L st en Hst Eo) as [Hn ->]. set (n := _ - st + 1) in *. pose proof Hh as Hh0. destruct Hh as (ns & sss & Hq & <-). pose proof (qo_small _ _ _ _ Hq) as Hsm. apply orb_false_elim in Eo as [_ Eo]. apply Z.leb_gt in Eo.
  pose proof (iterator_at alloc Halloc h q ns sss true st Hq ltac:(unfold size in *; simpl in *; lia) ltac:(split; [done|lia])) as Hit.
  destruct (norm_index (length (concat sss)) st) as [m|] eqn:Em.
  2: { apply norm_index_range in Em. rewrite (proj2 (Z.ltb_ge st 0) Hst) in Em. lia. }
  pose proof (norm_index_inv _ _ _ Em) as Em'. rewrite (proj2 (Z.leb_le 0 st) Hst) in Em'. destruct Hit as (h' & ns' & it & E & _ & _ & (_ & _ & Hpl) & Hrem). destruct (Hpl (qok_plain _ _ _ _ Hq Hc)) as [-> ->].
  unfold listTypeInitIterator. simpl negb. rewrite E. cbn [mbind option_bind]. assert (Z.to_nat st = m) as -> by lia.
  rewrite (range_replies_ok ljunk alloc Halloc (Z.to_nat n) h q ns sss Hq Hc it _ _ Hrem) by (rewrite length_drop; lia). cbn [mbind option_bind].
  assert (length (take (Z.to_nat n) (drop m (concat sss))) = Z.to_nat n) as El by (rewrite length_take, length_drop; lia). set (R := take (Z.to_nat n) _) in *.
  destruct R as [|r R]; [simpl in El; lia|]. rewrite El. replace (Z.of_nat (Z.to_nat n)) with n by lia.
  settle_server. by eapply srv_same.
Qed.

(** One [quicklistDelRange] of LTRIM. *)
Lemma del_range_holds h q L st n : ql_holds h q L → compress q = 0 → - Z.of_nat (length L) ≤ st ≤ 0 → 0 ≤ n < 2 ^ 63 → (st = 0 → (n = 0 ∨ L ≠ [])) →
  ∃ h' q' r, quicklistDelRange junk ljunk alloc h q st n = Some (h', q', r) ∧ compress q' = 0 ∧ ql_holds h' q' (cut_range L (if st <? 0 then Z.to_nat (Z.of_nat (length L) + st) else 0%nat) (Z.to_nat n)).
Proof.
  intros (ns & sss & Hq & <-) Hc Hst Hn H0. pose proof (qo_small _ _ _ _ Hq) as Hsm. pose proof (del_range_ok junk ljunk alloc Halloc h q ns sss st n Hq Hc ltac:(unfold size in *; simpl in *; lia) ltac:(left; lia) ltac:(lia)) as Hd.
  destruct (norm_index (length (concat sss)) st) as [m|] eqn:Em.
  - pose proof (norm_index_inv _ _ _ Em) as Em'. assert ((if st <? 0 then Z.to_nat (Z.of_nat (length (concat sss)) + st) else 0%nat) = m) as ->.
    { destruct (Z.ltb_spec st 0), (Z.leb_spec 0 st); lia. }
    destruct (Z.ltb_spec 0 n).
    + destruct Hd as (h' & q' & -> & Hb & _ & Hc'). exists h', q', true. split_and!; try done. congruence.
    + assert (n = 0) as -> by lia. exists h, q, false. split_and!; try done. simpl Z.to_nat. rewrite cut_range_0. by exists ns, sss.
  - apply norm_index_range in Em. exists h, q, false. split_and!; try done. destruct (Z.ltb_spec st 0); [lia|]. assert (st = 0) as -> by lia. destruct (H0 eq_refl) as [-> |Hne].
    + simpl Z.to_nat. rewrite cut_range_0. by exists ns, sss.
    + destruct (concat sss); [done|]. simpl in Em. lia.
Qed.

Lemma trim_ends_ok h q L lt rt : ql_holds h q L → compress q = 0 → L ≠ [] → 0 ≤ lt → 0 ≤ rt → lt + rt ≤ Z.of_nat (length L) < 2 ^ 48 →
  ∃ h1 q1 r1 h2 q2 r2, quicklistDelRange junk ljunk alloc h q 0 lt = Some (h1, q1, r1) ∧ quicklistDelRange junk ljunk alloc h1 q1 (- rt) rt = Some (h2, q2, r2) ∧
    compress q2 = 0 ∧ ql_holds h2 q2 (take (length L - Z.to_nat lt - Z.to_nat rt) (drop (Z.to_nat lt) L)).
Proof.
  intros Hh Hc Hne Hlt Hrt Hn. destruct (del_range_holds h q L 0 lt Hh Hc) as (h1 & q1 & r1 & E1 & Hc1 & Hh1); [lia|simpl in *; lia|by right|]. simpl in Hh1.
  unfold cut_range in Hh1. simpl in Hh1. set (L1 := drop (Z.to_nat lt) L) in *. assert (length L1 = (length L - Z.to_nat lt)%nat) as El by apply length_drop.
  destruct (del_range_holds h1 q1 L1 (- rt) rt Hh1 Hc1) as (h2 & q2 & r2 & E2 & Hc2 & Hh2); [lia|simpl in *; lia|intros; left; lia|].
  exists h1, q1, r1, h2, q2, r2. split_and!; try done. unfold cut_range in Hh2. destruct (Z.ltb_spec (- rt) 0).
  - rewrite (drop_ge L1), app_nil_r in Hh2 by lia. replace (length L - Z.to_nat lt - Z.to_nat rt)%nat with (Z.to_nat (Z.of_nat (length L1) + - rt)) by lia. done.
  - assert (rt = 0) as -> by lia. simpl in Hh2. rewrite take_ge by lia. done.
Qed.

Lemma ltrim_ok s D k a b : srv_ok (keys s) D → refines s (spec (LTRIM k a b) D) (ltrimCommand junk ljunk alloc s k a b).
Proof.
  intros HK. apply with_int_ok; [done|]. intros na _ _. apply with_int_ok; [done|]. intros nb _ _. apply with_list_ok; [done|]. intros h q L EK ED Hh Hc Hne HL. rewrite (holds_length _ _ _ Hh).
  assert (Z.of_nat (length L) < 2 ^ 48) as Hsm. { destruct Hh as (ns & sss & Hq & <-). pose proof (qo_small _ _ _ _ Hq). lia. }
  destruct (convert_range (Z.of_nat (length L)) na nb) as [st en] eqn:Ec. pose proof (range_length L na nb st en Ec) as Hst.
  assert (∃ lt rt, (if (en <? st) || (Z.of_nat (length L) <=? st) then (Z.of_nat (length L), 0) else (st, Z.of_nat (length L) - (if Z.of_nat (length L) <=? en then Z.of_nat (length L) - 1 else en) - 1)) = (lt, rt) ∧
    0 ≤ lt ∧ 0 ≤ rt ∧ lt + rt ≤ Z.of_nat (length L) ∧ sub L na nb = take (length L - Z.to_nat lt - Z.to_nat rt) (drop (Z.to_nat lt) L)) as (lt & rt & Elr & H1 & H2 & H3 & Hsub).
  { rewrite (sub_range L na nb st en Ec). destruct ((en <? st) || (Z.of_nat (length L) <=? st)) eqn:Eo.
    - eexists _, _. split; [done|]. split_and!; try lia. rewrite drop_ge by lia. by rewrite take_nil.
    - destruct (clip_range L st en Hst Eo) as [Hn ->]. eexists _, _. split; [done|]. split_and!; try lia. f_equal. lia. }
  cbv zeta. rewrite Elr, Hsub. destruct (trim_ends_ok h q L lt rt Hh Hc Hne H1 H2) as (h1 & q1 & r1 & h2 & q2 & r2 & -> & E2 & Hc2 & Hh2); [lia|]. cbn [mbind option_bind]. rewrite E2. cbn [mbind option_bind].
  set (L' := take _ _) in *. assert (smalls L') as HL' by (by apply Forall_take, Forall_drop). destruct (srv_store (keys s) D k h2 q2 L') as [HK' E0]; try done. rewrite E0 in *. clearbody L'. destruct L'; simpl in *; settle_server.
Qed.

Lemma dir_facts f (L : list (list Z)) : dir f (dir f L) = L ∧ length (dir f L) = length L ∧ (smalls L → smalls (dir f L)).
Proof. destruct f; simpl; [done|]. rewrite reverse_involutive, length_reverse. split_and!; try done. apply Forall_reverse. Qed.

Lemma remove_upto_small lim obj L : smalls L → smalls (remove_upto lim obj L).
Proof.
  intros H. revert lim. induction H as [|s L Hs HL IH]; intros lim; simpl; [constructor|]. case_bool_decide; [|by constructor]. by destruct (lim =? 1).
Qed.

Lemma lrem_ok s D k c v : srv_ok (keys s) D → not_least c = true → refines s (spec (LREM k c v) D) (lremCommand junk ljunk alloc s k c v).
Proof.
  intros HK Hl. apply with_int_ok; [done|]. intros n En Hn. pose proof (least_range c n Hl En Hn) as Hr. apply with_list_ok; [done|]. intros h q L EK ED Hh Hc Hne HL. rewrite (proj2 (Z.eqb_neq n (- 2 ^ 63))) by lia. cbv zeta.
  pose proof (holds_length _ _ _ Hh) as Elen. destruct Hh as (ns & sss & Hq & <-). set (f := 0 <=? n). assert ((n <? 0) = negb f) as -> by (unfold f; apply Z.ltb_antisym).
  destruct (start_iterator alloc Halloc h q ns sss f Hq Hc) as (li & E & Hli). assert ((if negb f then listTypeInitIterator alloc h q (-1) LIST_HEAD else listTypeInitIterator alloc h q 0 LIST_TAIL) = Some (h, li)) as -> by (by destruct f). cbn [mbind option_bind].
  assert ((if negb f then - n else n) = Z.abs n) as ->. { unfold f. destruct (Z.leb_spec 0 n); simpl; lia. }
  destruct li as [it|]; [|done]. destruct Hli as [Hf Hrem]. destruct (dir_facts f (concat sss)) as (D1 & D2 & D3).
  destruct (remove_loop_ok junk ljunk alloc Halloc v (S (Z.to_nat (listTypeLength q))) h q ns sss it (dir f (concat sss)) [] (Z.abs n) 0 Hq Hc) as (h' & q' & L' & -> & Hh' & Hc' & HL'); [by destruct f|by rewrite Hf| |lia|].
  { rewrite D2, Elen, Nat2Z.id. apply Nat.lt_succ_diag_r. }
  cbn [mbind option_bind]. rewrite Hf, Z.sub_0_r in *. simpl in HL'. set (R := remove_upto (Z.abs n) v (dir f (concat sss))) in *. destruct (dir_facts f R) as (_ & R2 & R3). destruct (dir_facts f L') as (L1 & _ & _).
  assert (dir f R = L') as EL by (by rewrite <- HL'). rewrite EL in *. assert (smalls L') as HsL by (apply R3, remove_upto_small, D3, HL). destruct (srv_store (keys s) D k h' q' L') as [HK' E0]; try done.
  rewrite D2, <- R2, Z.add_0_l. set (rd := _ - _). rewrite E0 in *. destruct (rd =? 0), L'; simpl in *; settle_server.
Qed.

Lemma push_one h q L v : ql_holds h q L → compress q = 0 → Z.of_nat (length v) ≤ 2 ^ 29 → Z.of_nat (length L) + 1 < 2 ^ 48 →
  ∃ h' q', listTypePush junk ljunk alloc h q v LIST_HEAD = Some (h', q') ∧ ql_holds h' q' (v :: L) ∧ compress q' = 0.
Proof.
  intros Hh Hc Hv Hn. destruct (push_loop_ok junk ljunk alloc Halloc LIST_HEAD [v] (or_introl eq_refl) h q L Hh) as (h' & q' & E & Hh' & Hc'); [by constructor|simpl; lia|].
  cbn [push_loop] in E. destruct (listTypePush _ _ _ _ _ _ _) as [[h1 q1]|]; [|done]. cbn [mbind option_bind] in E. injection E as -> ->. exists h', q'. split_and!; try done. congruence.
Qed.

Lemma store_twice D src dst L a : src ≠ dst → store (<[dst := a]> (<[src := AList L]> D)) src L = store (<[dst := a]> D) src L.
Proof. intros Hne. rewrite insert_insert_ne by done. destruct L; simpl; [by rewrite delete_insert_eq|by rewrite insert_insert_eq]. Qed.

(** What the destination holds before the push. *)
Lemma dst_list s D dst : srv_ok (keys s) D → D !! dst ≠ Some AOther →
  let '(h, q) := match keys s !! dst with Some (KList h q) => (h, q) | _ => new_list fill 0 end in ql_holds h q (list_or_nil (D !! dst)) ∧ compress q = 0 ∧ smalls (list_or_nil (D !! dst)).
Proof.
  intros HK Hd. pose proof (HK dst) as Hk. pose proof new_list_holds as Hnew. destruct (keys s !! dst) as [[h q|]|], (D !! dst) as [[L|]|]; inversion Hk as [? ? Hva|]; subst; try (by destruct Hva).
  - simpl in Hva. naive_solver.
  - destruct (new_list fill 0). simpl. destruct Hnew. by split_and!.
Qed.

Lemma rpoplpush_ok s D src dst : srv_ok (keys s) D → Z.of_nat (length (list_or_nil (D !! dst))) + 1 < 2 ^ 48 → refines s (spec (RPOPLPUSH src dst) D) (rpoplpushCommand junk ljunk alloc fill 0 s src dst).
Proof.
  intros HK Hn. apply with_list_ok; [done|]. intros h q L EK ED Hh Hc Hne HL. rewrite (holds_length _ _ _ Hh). rewrite (proj2 (Z.eqb_neq _ 0)) by (destruct L; simpl; [done|lia]).
  destruct (pop_list_ok junk ljunk alloc Halloc h q L LIST_TAIL Hh (or_intror eq_refl)) as (h1 & q1 & r & E1 & Hc1 & Hres). simpl in Hres. destruct (pop_end QUICKLIST_TAIL L) as [[x L1]|] eqn:Ep.
  2: { destruct L as [|y L _] using rev_ind; [done|]. by rewrite pop_end_snoc in Ep. }
  destruct Hres as [-> Hh1]. destruct (pop_end_small _ _ _ _ Ep (or_intror eq_refl) HL) as [Hx HL1]. assert (length L = S (length L1)) as Elen.
  { destruct L as [|y L _] using rev_ind; [done|]. rewrite pop_end_snoc in Ep. injection Ep as -> ->. rewrite length_app. simpl. lia. }
  pose proof (HK dst) as Hk. assert (D !! dst = Some AOther ∨ D !! dst ≠ Some AOther) as [Ed|Ed] by (destruct (D !! dst) as [[]|]; auto).
  { rewrite Ed in *. inversion Hk as [v a Hva E2|]; subst. destruct v; [done|]. by apply answer_ok. }
  assert (∀ r : option lserver, match keys s !! dst with Some KOther => Some (addReply s RWrongType) | _ => r end = r) as ->.
  { intros r. destruct (keys s !! dst) as [[]|]; try done. inversion Hk as [? a Hva|]; subst. by destruct a. }
  assert (∀ a b : outcome, match D !! dst with Some AOther => a | _ => b end = b) as -> by (intros; by destruct (D !! dst) as [[]|]).
  rewrite E1. cbn [mbind option_bind]. unfold rpoplpushHandlePush. cbn [keys set_list set_key with_keys]. destruct (decide (src = dst)) as [<- |Hd].
  - rewrite !lookup_insert_eq. cbv beta iota zeta. rewrite ED in Hn. cbn [list_or_nil] in Hn. destruct (push_one h1 q1 L1 x Hh1) as (h2 & q2 & -> & Hh2 & Hc2); [congruence|done|lia|]. cbn [mbind option_bind]. simpl keys. rewrite !lookup_insert_eq. cbn [mbind option_bind list_or_nil].
    rewrite (holds_length _ _ _ Hh2). cbn [length]. rewrite (proj2 (Z.eqb_neq (Z.of_nat (S (length L1))) 0)) by lia. settle_server. rewrite !insert_insert_eq. apply (srv_insert _ _ _ _ _ (x :: L1)); try done. by constructor.
  - rewrite !(lookup_insert_ne _ src dst) by done. pose proof (dst_list s D dst HK Ed) as Hdst. destruct (match keys s !! dst with Some (KList h q) => (h, q) | _ => new_list fill 0 end) as [h0 q0]. destruct Hdst as (Hh0 & Hc0 & HL0).
    destruct (push_one h0 q0 _ x Hh0 Hc0 Hx Hn) as (h2 & q2 & -> & Hh2 & Hc2). cbn [mbind option_bind]. simpl keys. rewrite !(lookup_insert_ne _ dst src), !lookup_insert_eq by done. cbn [mbind option_bind list_or_nil].
    assert (srv_ok (<[dst := KList h2 q2]> (keys s)) (<[dst := AList (x :: list_or_nil (D !! dst))]> D)) as HK2 by (apply (srv_insert _ _ _ _ _ (x :: _)); try done; by constructor).
    destruct (srv_store _ _ src h1 q1 L1 HK2 Hh1) as [HK' E0]; [congruence|done|]. rewrite E0 in *. rewrite store_twice by done. rewrite insert_insert_ne in HK' by done. destruct L1; simpl in *; settle_server.
Qed.
End refinement.

(** ** Sequences of commands *)

Section sequences.
Context (junk : Z) (ljunk : Z → Z) (alloc : nat → list Z) (fill depth : Z).

Definition exec (c : command) (s : lserver) : option lserver :=
  match c with
  | LPUSH k vs => pushGenericCommand junk ljunk alloc fill depth s k vs LIST_HEAD
  | RPUSH k vs => pushGenericCommand junk ljunk alloc fill depth s k vs LIST_TAIL
  | LPUSHX k vs => pushxGenericCommand junk ljunk alloc s k vs LIST_HEAD
  | RPUSHX k vs => pushxGenericCommand junk ljunk alloc s k vs LIST_TAIL
  | LINSERT k place pivot v => linsertCommand junk ljunk alloc s k place pivot v
  | LLEN k => llenCommand s k
  | LINDEX k i => lindexCommand alloc s k i
  | LSET k i v => lsetCommand junk ljunk alloc s k i v
  | LPOP k => popGenericCommand junk ljunk alloc s k LIST_HEAD
  | RPOP k => popGenericCommand junk ljunk alloc s k LIST_TAIL
  | LRANGE k a b => lrangeCommand ljunk alloc s k a b
  | LTRIM k a b => ltrimCommand junk ljunk alloc s k a b
  | LREM k c v => lremCommand junk ljunk alloc s k c v
  | RPOPLPUSH src dst => rpoplpushCommand junk ljunk alloc fill depth s src dst
  end.
End sequences.

Lemma exec_ok junk ljunk alloc (Halloc : ∀ n, length (alloc n) = n) fill c s D : srv_ok (keys s) D → fits c D = true → refines s (spec c D) (exec junk ljunk alloc fill 0 c s).
Proof.
  intros HK Hfit. destruct c; cbn [fits exec] in *.
  1,2: apply andb_prop in Hfit as [Hv%small_all Hn%Z.ltb_lt]; apply push_ok; tauto.
  1,2: apply andb_prop in Hfit as [Hv%small_all Hn%Z.ltb_lt]; apply pushx_ok; tauto.
  - by apply linsert_ok.
  - by apply llen_ok.
  - by apply lindex_ok.
  - by apply lset_ok.
  - apply (pop_ok_list junk ljunk alloc Halloc s D k LIST_HEAD "lpop"); [done|by left].
  - apply (pop_ok_list junk ljunk alloc Halloc s D k LIST_TAIL "rpop"); [done|by right].
  - by apply lrange_ok.
  - by apply ltrim_ok.
  - by apply lrem_ok.
  - apply Z.ltb_lt in Hfit. by apply rpoplpush_ok.
Qed.

(** C30. The list commands on quicklists without compression (the default,
    list-compress-depth 0) behave like the same commands on sequences of
    strings: any sequence of LPUSH, RPUSH, LPUSHX, RPUSHX, LINSERT, LLEN, LINDEX,
    LSET, LPOP, RPOP, LRANGE, LTRIM, LREM and RPOPLPUSH, in any order, with keys
    that are missing or of another type, sends exactly the specified replies and
    errors, counts the changes, raises the events of the keyspace, and leaves
    every key with the specified strings. No key is left with an empty list. The
    ranges of LRANGE and LTRIM are specified index by index ([within]). The
    commands have to fit ([fits]): strings of at most 512 MB, lists of fewer than
    2^48 strings and, for LINSERT and LSET, of at most 1 GB, and no index of
    LINDEX or LSET and no count of LREM is the least 64-bit integer, whose
    negation overflows. *)
Theorem list_commands_refine junk ljunk alloc (Halloc : ∀ n, length (alloc n) = n) fill cs s D : srv_ok (keys s) D → runs_fit spec fits cs D = true →
  refines s (run_specs spec cs D) (execs (exec junk ljunk alloc fill 0) cs s).
Proof. intros HK Hfit. apply (runs_refine holds_val spec fits (exec junk ljunk alloc fill 0)); [|done..]. intros. by apply exec_ok. Qed.

Definition example_commands : list command :=
  [RPUSH [108] [[97]; [98]; [49; 50]; [97]]; LINSERT [108] [65; 70; 84; 69; 82] [98] [99]; LREM [108] [45; 49] [97]; LSET [108] [48] [122]; RPOPLPUSH [108] [109];
   LRANGE [108] [48] [45; 49]; LTRIM [108] [49] [49]; LPOP [108]; LLEN [108]; LINDEX [109] [48]].

Lemma list_commands_refine_witness : runs_fit spec fits example_commands ∅ = true ∧ refines (Server ∅ 0 [] []) (run_specs spec example_commands ∅) (execs (exec 0 (λ _, 0) (repeat 0) (-2) 0) example_commands (Server ∅ 0 [] [])).
Proof.
  split; [vm_compute; reflexivity|]. apply (list_commands_refine 0 (λ _, 0) (repeat 0) (repeat_length 0)).
  - intros k. rewrite !lookup_empty. constructor.
  - vm_compute. reflexivity.
Defined.

Example example_replies : (replies <$> execs (exec 0 (λ _, 0) (repeat 0) (-2) 0) example_commands (Server ∅ 0 [] [])) =
  Some [RLong 4; RLong 5; RLong 1; ROk; RBulk [49; 50]; RMultiLen 3; RBulk [122]; RBulk [98]; RBulk [99]; ROk; RBulk [98]; RLong 0; RBulk [49; 50]].
Proof. vm_compute. reflexivity. Qed.
