(* ===== verification/TSet.v ===== *)
(** * t_set.c: sets

    A set is an intset while all of its elements are integers and there are few
    of them, and a dict without values otherwise.  The functions [setType*] hide
    the encodings; the commands are built on them, on a keyspace whose other
    values are of some other type.

    Strings are lists of bytes.  The object at a key is known by the key: two
    pointers to objects of the keyspace are equal exactly when the keys are.
    [None] stands for undefined behaviour, a failed assertion or a panic.

    Parameters: the hash of strings, whether dicts may be resized, the contents
    of fresh memory, the addresses of tables (for the fingerprint of iterators),
    the configured bound of intsets and the sort of the C library. *)

From stdpp Require Import strings.
From S2P Require Import Prelude Decimal Util Dict DictIter MapApi Intset SdsText Keyspace.

Inductive sobj := SIntset (is_ : intset) | SHt (d : dict (list Z) unit) | NotSet.

Abbreviation sserver := (server sobj).
Abbreviation NotifySet := (Notify NOTIFY_SET).
Abbreviation NotifyGeneric := (Notify NOTIFY_GENERIC).

(** [setTypeIterator], and what [setTypeNext] hands out. *)
Inductive setTypeIterator := SiHt (di : dictIterator (list Z)) | SiIntset (ii : Z).
Inductive setele := ESds (s : list Z) | ELl (v : Z).

Inductive setop := SET_OP_UNION | SET_OP_DIFF.

Section sets.
Context (hash : list Z → Z) (cr : bool) (junk : Z) (addr : nat → Z) (set_max_intset_entries : Z).
Context (qsort : ∀ A, (A → A → Z) → list A → list A).

Definition dictSdsKeyCompare (key1 key2 : list Z) : bool := bool_decide (key1 = key2).

Definition setDictType : dictType (list Z) unit :=
  DictType hash None None (Some dictSdsKeyCompare) true false.

(** The bytes of [sdsfromlonglong(v)], and [addReplyBulkLongLong]. *)
Definition ll_bytes (v : Z) : option (list Z) :=
  '(b, len) ← sdsll2str (replicate (Z.to_nat SDS_LLSTR_SIZE) junk) v; Some (take (Z.to_nat len) b).

Definition bulk_ll (v : Z) : option reply :=
  '(b, len) ← ll2string (replicate 64 junk) v; Some (RBulk (take (Z.to_nat len) b)).

(** ** The two encodings *)

Definition setTypeSize (subject : sobj) : option Z :=
  match subject with
  | SHt d => Some (dictSize d)
  | SIntset is_ => Some (intsetLen is_)
  | NotSet => None
  end.

Definition setTypeCreate (value : list Z) : sobj :=
  match string2ll value with Some _ => SIntset intsetNew | None => SHt dictCreate end.

Definition setTypeInitIterator (subject : sobj) : option setTypeIterator :=
  match subject with
  | SHt _ => Some (SiHt dictGetIterator)
  | SIntset _ => Some (SiIntset 0)
  | NotSet => None
  end.

(** An unsafe iterator does not change the table it walks. *)
Definition setTypeNext (subject : sobj) (si : setTypeIterator) : option (setTypeIterator * option setele) :=
  match si, subject with
  | SiHt di, SHt d => '(_, di, de) ← dictNext addr d di; Some (SiHt di, option_map ESds de)
  | SiIntset ii, SIntset is_ => llele ← intsetGet is_ (u32 ii); Some (SiIntset (s32 (ii + 1)), option_map ELl llele)
  | _, _ => None
  end.

Definition setTypeReleaseIterator (subject : sobj) (si : setTypeIterator) : option unit :=
  match si, subject with
  | SiHt di, SHt d => _ ← dictReleaseIterator addr d di; Some tt
  | SiIntset _, _ => Some tt
  | _, _ => None
  end.

(** [setTypeNextObject] on what [setTypeNext] returned. *)
Definition element_sds (e : setele) : option (list Z) :=
  match e with ESds s => Some s | ELl v => ll_bytes v end.

(** [si = setTypeInitIterator(o); while (setTypeNext(si, ...) != -1) body;
    setTypeReleaseIterator(si)]: the object [get s] is read in the state [s] of
    the moment. *)
Fixpoint set_each {S} (fuel : nat) (get : S → option sobj) (body : setele → S → option S)
    (si : setTypeIterator) (s : S) : option S :=
  match fuel with
  | O => None
  | Datatypes.S fuel =>
      o ← get s;
      '(si, e) ← setTypeNext o si;
      match e with
      | None => _ ← setTypeReleaseIterator o si; Some s
      | Some e => s ← body e s; set_each fuel get body si s
      end
  end.

Definition set_iterate {S} (get : S → option sobj) (body : setele → S → option S) (s : S) : option S :=
  o ← get s;
  size ← setTypeSize o;
  si ← setTypeInitIterator o;
  set_each (2 + Z.to_nat size) get body si s.

(** To a hash table, from an intset. *)
Definition convert_element (e : setele) (d : dict (list Z) unit) : option (dict (list Z) unit) :=
  match e with
  | ELl intele =>
      element ← ll_bytes intele;
      '(d, rc) ← dictAdd setDictType cr d element tt;
      if rc =? DICT_OK then Some d else None
  | ESds _ => None
  end.

Definition setTypeConvert (is_ : intset) : option (dict (list Z) unit) :=
  let d := (dictExpand dictCreate (intsetLen is_)).1 in
  set_iterate (λ _, Some (SIntset is_)) convert_element d.

(** Whether the value was added.  [dictSetKey] puts a copy of the key into the
    entry. *)
Definition setTypeAdd (subject : sobj) (value : list Z) : option (sobj * bool) :=
  match subject with
  | SHt ht =>
      '(ht, de, _) ← dictAddRaw setDictType cr ht value;
      match de with
      | Some de => ht ← dictSetVal setDictType ht de tt; Some (SHt ht, true)
      | None => Some (SHt ht, false)
      end
  | SIntset is_ =>
      match string2ll value with
      | Some llval =>
          '(is_, success) ← intsetAdd junk is_ llval;
          if success =? 0 then Some (SIntset is_, false)
          else if set_max_intset_entries <? intsetLen is_
          then d ← setTypeConvert is_; Some (SHt d, true)
          else Some (SIntset is_, true)
      | None =>
          d ← setTypeConvert is_;
          '(d, rc) ← dictAdd setDictType cr d value tt;
          if rc =? DICT_OK then Some (SHt d, true) else None
      end
  | NotSet => None
  end.

Definition setTypeRemove (setobj : sobj) (value : list Z) : option (sobj * bool) :=
  match setobj with
  | SHt d =>
      '(d, rc, _) ← dictDelete setDictType d value;
      if rc =? DICT_OK
      then Some (SHt (if htNeedsResize d then (dictResize cr d).1 else d), true)
      else Some (SHt d, false)
  | SIntset is_ =>
      match string2ll value with
      | Some llval =>
          '(is_, success) ← intsetRemove junk is_ llval;
          Some (SIntset is_, negb (success =? 0))
      | None => Some (SIntset is_, false)
      end
  | NotSet => None
  end.

Definition setTypeIsMember (subject : sobj) (value : list Z) : option (sobj * bool) :=
  match subject with
  | SHt d => '(d, de) ← dictFind setDictType d value; Some (SHt d, bool_decide (is_Some de))
  | SIntset is_ =>
      match string2ll value with
      | Some llval => b ← intsetFind is_ llval; Some (SIntset is_, b)
      | None => Some (SIntset is_, false)
      end
  | NotSet => None
  end.

(** ** Commands on elements *)

(** [for (j = 2; j < c->argc; j++) if (setTypeAdd(set,c->argv[j]->ptr)) added++] *)
Fixpoint sadd_loop (set : sobj) (vals : list (list Z)) (added : Z) : option (sobj * Z) :=
  match vals with
  | [] => Some (set, added)
  | v :: vals => '(set, b) ← setTypeAdd set v; sadd_loop set vals (if b : bool then added + 1 else added)
  end.

Definition saddCommand (s : sserver) (k : list Z) (vals : list (list Z)) : option sserver :=
  match keys s !! k, vals with
  | _, [] => None
  | Some NotSet, _ => Some (addReply s RWrongType)
  | o, v :: _ =>
      '(set, added) ← sadd_loop (match o with Some set => set | None => setTypeCreate v end) vals 0;
      let s := set_key s k set in
      let s := if 0 <? added then log (log s (SignalModified k)) (NotifySet "sadd" k) else s in
      Some (addReply (add_dirty s added) (RLong added))
  end.

(** The set after the loop, [deleted] and [keyremoved]. *)
Fixpoint srem_loop (set : sobj) (vals : list (list Z)) (deleted : Z) : option (sobj * Z * bool) :=
  match vals with
  | [] => Some (set, deleted, false)
  | v :: vals =>
      '(set, b) ← setTypeRemove set v;
      if b : bool then
        size ← setTypeSize set;
        if size =? 0 then Some (set, deleted + 1, true) else srem_loop set vals (deleted + 1)
      else srem_loop set vals deleted
  end.

Definition sremCommand (s : sserver) (k : list Z) (vals : list (list Z)) : option sserver :=
  match keys s !! k with
  | None => Some (addReply s (RLong 0))
  | Some NotSet => Some (addReply s RWrongType)
  | Some set =>
      '(set, deleted, keyremoved) ← srem_loop set vals 0;
      let s := if keyremoved : bool then dbDelete s k else set_key s k set in
      let s :=
        if 0 <? deleted then
          let s := log (log s (SignalModified k)) (NotifySet "srem" k) in
          add_dirty (if keyremoved then log s (NotifyGeneric "del" k) else s) deleted
        else s in
      Some (addReply s (RLong deleted))
  end.

Definition smoveCommand (s : sserver) (src dst ele : list Z) : option sserver :=
  match keys s !! src, keys s !! dst with
  | None, _ => Some (addReply s (RLong 0))
  | Some NotSet, _ => Some (addReply s RWrongType)
  | Some _, Some NotSet => Some (addReply s RWrongType)
  | Some srcset, dstset =>
      if decide (src = dst) then
        '(srcset, b) ← setTypeIsMember srcset ele;
        Some (addReply (set_key s src srcset) (RLong (if b : bool then 1 else 0)))
      else
        '(srcset, removed) ← setTypeRemove srcset ele;
        let s := set_key s src srcset in
        if negb removed then Some (addReply s (RLong 0)) else
        let s := log s (NotifySet "srem" src) in
        size ← setTypeSize srcset;
        let s := if size =? 0 then log (dbDelete s src) (NotifyGeneric "del" src) else s in
        let dstset := match dstset with Some dstset => dstset | None => setTypeCreate ele end in
        let s := add_dirty (log (log s (SignalModified src)) (SignalModified dst)) 1 in
        '(dstset, added) ← setTypeAdd dstset ele;
        let s := set_key s dst dstset in
        let s := if added : bool then log (add_dirty s 1) (NotifySet "sadd" dst) else s in
        Some (addReply s (RLong 1))
  end.

Definition sismemberCommand (s : sserver) (k ele : list Z) : option sserver :=
  match keys s !! k with
  | None => Some (addReply s (RLong 0))
  | Some NotSet => Some (addReply s RWrongType)
  | Some set =>
      '(set, b) ← setTypeIsMember set ele;
      Some (addReply (set_key s k set) (RLong (if b : bool then 1 else 0)))
  end.

Definition scardCommand (s : sserver) (k : list Z) : option sserver :=
  match keys s !! k with
  | None => Some (addReply s (RLong 0))
  | Some NotSet => Some (addReply s RWrongType)
  | Some o => n ← setTypeSize o; Some (addReply s (RLong n))
  end.

(** ** Intersection *)

Definition card (s : sserver) (k : list Z) : Z := default 0 (keys s !! k ≫= setTypeSize).

Definition qsortCompareSetsByCardinality (s : sserver) (s1 s2 : list Z) : Z :=
  if card s s2 <? card s s1 then 1 else if card s s1 <? card s s2 then -1 else 0.

(** [NULL] is an empty set. *)
Definition qsortCompareSetsByRevCardinality (s : sserver) (o1 o2 : option (list Z)) : Z :=
  let first := match o1 with Some k => card s k | None => 0 end in
  let second := match o2 with Some k => card s k | None => 0 end in
  if first <? second then 1 else if second <? first then -1 else 0.

(** The loop over the keys of [sinterGenericCommand]: the state after an early
    return. *)
Fixpoint sinter_lookup (s : sserver) (setkeys : list (list Z)) (dstkey : option (list Z)) : option sserver :=
  match setkeys with
  | [] => None
  | k :: setkeys =>
      match keys s !! k with
      | None =>
          match dstkey with
          | Some dst =>
              let s := if decide (is_Some (keys s !! dst))
                       then add_dirty (log (dbDelete s dst) (SignalModified dst)) 1 else s in
              Some (addReply s (RLong 0))
          | None => Some (addReply s REmptyMulti)
          end
      | Some NotSet => Some (addReply s RWrongType)
      | Some _ => sinter_lookup s setkeys dstkey
      end
  end.

(** The test of an element of [first] against the other sets, with the tables as
    the lookups leave them. *)
Fixpoint in_all (s : sserver) (e : setele) (first : list Z) (others : list (list Z)) : option (sserver * bool) :=
  match others with
  | [] => Some (s, true)
  | k :: others =>
      if decide (k = first) then in_all s e first others else
      o ← keys s !! k;
      '(o, b) ←
        match e, o with
        | ELl intobj, SIntset is_ => b ← intsetFind is_ intobj; Some (o, b)
        | ELl intobj, _ => elesds ← ll_bytes intobj; setTypeIsMember o elesds
        | ESds elesds, _ => setTypeIsMember o elesds
        end;
      let s := set_key s k o in
      if b : bool then in_all s e first others else Some (s, false)
  end.

(** The state of the loops over elements: the keyspace, [dstset], the elements
    sent so far and [cardinality]. *)
Record acc := Acc { a_s : sserver; a_dst : sobj; a_out : list reply; a_card : Z }.

Definition sinter_element (dstkey : option (list Z)) (first : list Z) (others : list (list Z))
    (e : setele) (a : acc) : option acc :=
  '(s, all) ← in_all (a_s a) e first others;
  if all : bool then
    match dstkey with
    | None =>
        r ← match e with ESds elesds => Some (RBulk elesds) | ELl intobj => bulk_ll intobj end;
        Some (Acc s (a_dst a) (a_out a ++ [r]) (a_card a + 1))
    | Some _ =>
        elesds ← element_sds e;
        '(dst, _) ← setTypeAdd (a_dst a) elesds;
        Some (Acc s dst (a_out a) (a_card a))
    end
  else Some (Acc s (a_dst a) (a_out a) (a_card a)).

(** The end of the commands that store: [dstset] takes the place of [dstkey]. *)
Definition store_result (s : sserver) (dstkey : list Z) (dstset : sobj) (name : string) : option sserver :=
  let deleted := bool_decide (is_Some (keys s !! dstkey)) in
  let s := dbDelete s dstkey in
  size ← setTypeSize dstset;
  let s :=
    if 0 <? size then log (addReply (set_key s dstkey dstset) (RLong size)) (NotifySet name dstkey)
    else
      let s := addReply s (RLong 0) in
      if deleted then log s (NotifyGeneric "del" dstkey) else s in
  Some (add_dirty (log s (SignalModified dstkey)) 1).

Definition sinterGenericCommand (s : sserver) (setkeys : list (list Z)) (dstkey : option (list Z)) :
    option sserver :=
  match sinter_lookup s setkeys dstkey with
  | Some s => Some s
  | None =>
      match qsort _ (qsortCompareSetsByCardinality s) setkeys with
      | [] => None
      | first :: others =>
          a ← set_iterate (λ a, keys (a_s a) !! first) (sinter_element dstkey first others)
                (Acc s (SIntset intsetNew) [] 0);
          match dstkey with
          | Some dst => store_result (a_s a) dst (a_dst a) "sinterstore"
          | None => Some (add_replies (a_s a) (RMultiLen (a_card a) :: a_out a))
          end
      end
  end.

(** ** Union and difference *)

(** The loop over the keys: [NULL] for a missing key, [None] for an error. *)
Fixpoint sunion_lookup (s : sserver) (setkeys : list (list Z)) : option (list (option (list Z))) :=
  match setkeys with
  | [] => Some []
  | k :: setkeys =>
      match keys s !! k with
      | Some NotSet => None
      | Some _ => sets ← sunion_lookup s setkeys; Some (Some k :: sets)
      | None => sets ← sunion_lookup s setkeys; Some (None :: sets)
      end
  end.

(** [algo_one_work] and [algo_two_work]. *)
Fixpoint diff_work (s : sserver) (first : list Z) (sets : list (option (list Z))) (one two : Z) : Z * Z :=
  match sets with
  | [] => (one, two)
  | None :: sets => diff_work s first sets one two
  | Some k :: sets => diff_work s first sets (s64 (one + card s first)) (s64 (two + card s k))
  end.

(** The algorithm, 1 or 2, and the array of sets, reordered for the first. *)
Definition diff_plan (s : sserver) (sets : list (option (list Z))) : Z * list (option (list Z)) :=
  match sets with
  | Some first :: others =>
      let (one, two) := diff_work s first sets 0 0 in
      let diff_algo := if Z.quot one 2 <=? two then 1 else 2 in
      (diff_algo,
       if diff_algo =? 1 then Some first :: qsort _ (qsortCompareSetsByRevCardinality s) others else sets)
  | _ => (1, sets)
  end.

(** [if (setTypeAdd(dstset,ele)) cardinality++] *)
Definition add_element (e : setele) (a : acc) : option acc :=
  ele ← element_sds e;
  '(dst, b) ← setTypeAdd (a_dst a) ele;
  Some (Acc (a_s a) dst (a_out a) (if b : bool then a_card a + 1 else a_card a)).

(** [if (setTypeRemove(dstset,ele)) cardinality--] *)
Definition remove_element (e : setele) (a : acc) : option acc :=
  ele ← element_sds e;
  '(dst, b) ← setTypeRemove (a_dst a) ele;
  Some (Acc (a_s a) dst (a_out a) (if b : bool then a_card a - 1 else a_card a)).

Definition each_of (k : list Z) (body : setele → acc → option acc) (a : acc) : option acc :=
  set_iterate (λ a, keys (a_s a) !! k) body a.

Fixpoint union_loop (sets : list (option (list Z))) (a : acc) : option acc :=
  match sets with
  | [] => Some a
  | None :: sets => union_loop sets a
  | Some k :: sets => a ← each_of k add_element a; union_loop sets a
  end.

(** Whether no other set has the element. *)
Fixpoint in_none (s : sserver) (ele first : list Z) (others : list (option (list Z))) : option (sserver * bool) :=
  match others with
  | [] => Some (s, true)
  | None :: others => in_none s ele first others
  | Some k :: others =>
      if decide (k = first) then Some (s, false) else
      o ← keys s !! k;
      '(o, b) ← setTypeIsMember o ele;
      let s := set_key s k o in
      if b : bool then Some (s, false) else in_none s ele first others
  end.

Definition diff_element (first : list Z) (others : list (option (list Z))) (e : setele) (a : acc) : option acc :=
  ele ← element_sds e;
  '(s, none) ← in_none (a_s a) ele first others;
  if none : bool then
    '(dst, _) ← setTypeAdd (a_dst a) ele;
    Some (Acc s dst (a_out a) (a_card a + 1))
  else Some (Acc s (a_dst a) (a_out a) (a_card a)).

(** The sets after the first one, in the second algorithm. *)
Fixpoint diff_remove_loop (sets : list (option (list Z))) (a : acc) : option acc :=
  match sets with
  | [] => Some a
  | None :: sets => diff_remove_loop sets a
  | Some k :: sets =>
      a ← each_of k remove_element a;
      if a_card a =? 0 then Some a else diff_remove_loop sets a
  end.

Definition union_diff (op : setop) (diff_algo : Z) (sets : list (option (list Z))) (a : acc) : option acc :=
  match op, sets with
  | SET_OP_UNION, _ => union_loop sets a
  | SET_OP_DIFF, Some first :: others =>
      if diff_algo =? 1 then each_of first (diff_element first others) a
      else a ← each_of first add_element a; if a_card a =? 0 then Some a else diff_remove_loop others a
  | SET_OP_DIFF, _ => Some a
  end.

Definition send_element (e : setele) (s : sserver) : option sserver :=
  ele ← element_sds e; Some (addReply s (RBulk ele)).

Definition sunionDiffGenericCommand (s : sserver) (setkeys : list (list Z)) (dstkey : option (list Z))
    (op : setop) : option sserver :=
  match sunion_lookup s setkeys with
  | None => Some (addReply s RWrongType)
  | Some sets =>
      let (diff_algo, sets) := match op with SET_OP_DIFF => diff_plan s sets | SET_OP_UNION => (1, sets) end in
      a ← union_diff op diff_algo sets (Acc s (SIntset intsetNew) [] 0);
      match dstkey with
      | None =>
          set_iterate (λ _, Some (a_dst a)) send_element (addReply (a_s a) (RMultiLen (a_card a)))
      | Some dst =>
          store_result (a_s a) dst (a_dst a)
            (match op with SET_OP_UNION => "sunionstore" | SET_OP_DIFF => "sdiffstore" end)
      end
  end.

Definition sinterCommand s setkeys := sinterGenericCommand s setkeys None.
Definition sinterstoreCommand s dst setkeys := sinterGenericCommand s setkeys (Some dst).
Definition sunionCommand s setkeys := sunionDiffGenericCommand s setkeys None SET_OP_UNION.
Definition sunionstoreCommand s dst setkeys := sunionDiffGenericCommand s setkeys (Some dst) SET_OP_UNION.
Definition sdiffCommand s setkeys := sunionDiffGenericCommand s setkeys None SET_OP_DIFF.
Definition sdiffstoreCommand s dst setkeys := sunionDiffGenericCommand s setkeys (Some dst) SET_OP_DIFF.
End sets.
