(* ===== verification/TSetRep.v ===== *)
(** * t_set.c: what a set object stands for

    A set object stands for a finite set of strings.  The functions [setType*]
    are its operations, whatever the encoding, conversions included; a loop over
    a set visits each of its elements once, as long as its body does not touch
    the set. *)

From S2P Require Import Prelude Decimal Util Dict DictIter MapApi Intset SdsText Keyspace TSet.

(** ** Tables stay small enough for iterators *)

Section sizes.
Context {K V : Type} `{Countable K} (type : dictType K V) `{!DictTypeOk type}.
Implicit Types (d : dict K V).

Lemma expandIfNeeded_sizes cr d : dict_wf type d → sizes_ok d → sizes_ok (_dictExpandIfNeeded cr d).1.
Proof.
  intros Hwf Hs. destruct (expandIfNeeded_spec type cr d Hwf) as (d' & E & _). rewrite E.
  by apply (expandIfNeeded_evolves type cr d d' Hwf Hs).
Qed.

Lemma set_ht_sizes d t h' : sizes_ok d → size h' = size (get_ht d t) → sizes_ok (set_ht d t h').
Proof. intros [Hs0 Hs1] E. unfold sizes_ok. destruct t; simpl in *; by rewrite E. Qed.

Lemma dictSetVal_sizes d r x d' : sizes_ok d → dictSetVal type d r x = Some d' → sizes_ok d'.
Proof.
  intros Hs Hset. unfold dictSetVal in Hset. apply bind_Some in Hset as (c & _ & Hset). apply bind_Some in Hset as (e & _ & Hset).
  apply bind_Some in Hset as (h' & (Hsz & _)%set_bucket_inv & [= <-]). by apply set_ht_sizes.
Qed.

Lemma dictAddRaw_sizes cr d k d' e ex : dict_wf type d → sizes_ok d →
  dictAddRaw type cr d k = Some (d', e, ex) → sizes_ok d'.
Proof.
  intros Hwf Hs Hraw. unfold dictAddRaw in Hraw. destruct (maybe_step_sizes type d Hwf Hs) as (d1 & E & Hwf1 & Hs1 & _).
  rewrite E in Hraw. cbn [mbind option_bind] in Hraw. apply bind_Some in Hraw as ([[d2 idx] ex2] & Hki & Hraw).
  assert (sizes_ok d2) as Hs2.
  { unfold _dictKeyIndex in Hki. pose proof (expandIfNeeded_sizes cr d1 Hwf1 Hs1) as Hx.
    destruct (_dictExpandIfNeeded cr d1) as [d3 rc]. destruct (rc =? DICT_ERR); [by injection Hki as <- _ _|].
    apply bind_Some in Hki as (r & _ & Hr). destruct r; by injection Hr as <- _ _. }
  destruct (idx =? -1); [by injection Hraw as <- _ _|]. apply bind_Some in Hraw as (c & _ & Hraw).
  apply bind_Some in Hraw as (h' & (Hsz & _)%set_bucket_inv & [= <- _ _]). by apply set_ht_sizes.
Qed.

Lemma dictAdd_sizes cr d k x d' rc : dict_wf type d → sizes_ok d → dictAdd type cr d k x = Some (d', rc) → sizes_ok d'.
Proof.
  intros Hwf Hs Ha. unfold dictAdd in Ha. apply bind_Some in Ha as ([[d1 e] ex] & Hraw & Ha).
  apply dictAddRaw_sizes in Hraw; [|done..]. destruct e as [e|]; [|by injection Ha as <- _].
  apply bind_Some in Ha as (d2 & Hset & [= <- _]). by eapply dictSetVal_sizes.
Qed.

Lemma dictFind_sizes d k d' r : dict_wf type d → sizes_ok d → dictFind type d k = Some (d', r) → sizes_ok d'.
Proof.
  intros Hwf Hs Hf. unfold dictFind in Hf. destruct (_ =? 0) in Hf; [by injection Hf as <- _|].
  destruct (maybe_step_sizes type d Hwf Hs) as (d1 & E & _ & Hs1 & _). rewrite E in Hf. cbn [mbind option_bind] in Hf.
  by apply bind_Some in Hf as (? & _ & [= <- _]).
Qed.

Lemma dictGenericDelete_sizes d k nf d' he fr : dict_wf type d → sizes_ok d →
  dictGenericDelete type d k nf = Some (d', he, fr) → sizes_ok d'.
Proof.
  intros Hwf Hs Hg. unfold dictGenericDelete in Hg. destruct (_ && _) in Hg; [by injection Hg as <- _ _|].
  destruct (maybe_step_sizes type d Hwf Hs) as (d1 & E & _ & Hs1 & _). rewrite E in Hg. cbn [mbind option_bind] in Hg.
  apply bind_Some in Hg as (r & _ & Hg). destruct r as [[t i p]|]; [|by injection Hg as <- _ _].
  apply bind_Some in Hg as (c & _ & Hg). apply bind_Some in Hg as (e & _ & Hg).
  apply bind_Some in Hg as (h' & (Hsz & _)%set_bucket_inv & [= <- _ _]). by apply set_ht_sizes.
Qed.

Lemma dictExpand_sizes d sz : dict_wf type d → sizes_ok d → 0 ≤ sz ≤ 2 ^ 60 → sizes_ok (dictExpand d sz).1.
Proof.
  intros Hwf Hs Hsz. destruct (dictExpand_cases type d sz Hwf) as [[-> _]|(d' & E & _)]; [unfold in_u; lia|done|].
  rewrite E. by eapply expand_sizes.
Qed.

Lemma dictResize_ok cr d : dict_wf type d → sizes_ok d → Z.of_nat (length (entries d)) < 2 ^ 31 →
  let d' := (dictResize cr d).1 in dict_wf type d' ∧ sizes_ok d' ∧ dict_map d' = dict_map d.
Proof.
  intros Hwf Hs Hmax. unfold dictResize. destruct (_ || _); [done|].
  pose proof (used_bounds type _ Hwf) as (Hu0 & Hu1 & Hu & _).
  rewrite (swrap_small 32) by (unfold in_s; simpl; lia). set (m := if used (ht0 d) <? DICT_HT_INITIAL_SIZE then DICT_HT_INITIAL_SIZE else used (ht0 d)).
  assert (0 ≤ m < 2 ^ 31) by (unfold m, DICT_HT_INITIAL_SIZE; destruct (used (ht0 d) <? 4); lia).
  rewrite uwrap_small by (unfold in_u; lia).
  destruct (dictExpand_cases type d m Hwf) as [[-> _]|(d' & E & _ & _ & _ & [Hwf' He _ _] & _)]; [unfold in_u; lia|done|].
  rewrite E. simpl. split; [done|]. split; [by eapply expand_sizes; [..|exact E]; [|done|lia]|]. unfold dict_map. by rewrite He.
Qed.
End sizes.

(** ** Representation *)

Lemma size_list_to_set_le (l : list (list Z)) : (base.size (list_to_set l : gset (list Z)) ≤ length l)%nat.
Proof.
  induction l as [|x l IH]; [done|]. cbn [list_to_set length].
  pose proof (size_union_alt {[x]} (list_to_set l : gset (list Z))) as Hu. rewrite size_singleton in Hu.
  assert (base.size ((list_to_set l : gset (list Z)) ∖ {[x]}) ≤ base.size (list_to_set l : gset (list Z)))%nat
    by (apply subseteq_size; set_solver). unfold elements in *. lia.
Qed.

Section rep.
Context (hash : list Z → Z) (Hhash : ∀ k, in_u 64 (hash k)) (cr : bool) (junk : Z) (Hjunk : byte_ok junk).
Context (addr : nat → Z) (max : Z) (Hmax : 0 ≤ max < MAX_INTSET).

Abbreviation stype := (setDictType hash).

#[local] Instance setDictType_ok : DictTypeOk stype.
Proof.
  split; [done| |done]. intros cmp [= <-] a b. unfold dictSdsKeyCompare. by rewrite bool_decide_eq_true.
Qed.

Definition ht_ok_set (d : dict (list Z) unit) (X : gset (list Z)) : Prop :=
  dict_wf stype d ∧ sizes_ok d ∧ dom (dict_map d) = X.

Definition ints (vs : list Z) : gset (list Z) := list_to_set (decimal_z <$> vs).

(** An intset is never longer than the configured bound. *)
Definition set_ok (o : sobj) (X : gset (list Z)) : Prop :=
  match o with
  | SIntset is_ => ∃ vs, intset_repr is_ vs ∧ Z.of_nat (length vs) ≤ max ∧ ints vs = X
  | SHt d => ht_ok_set d X
  | NotSet => False
  end.

(** *** Integers and their strings *)

Lemma repr_in_s is_ vs : intset_repr is_ vs → Forall (in_s 64) vs.
Proof.
  intros Hr. eapply Forall_impl; [apply (ir_range _ _ Hr)|]. intros v Hv. eapply in_s_mono; [|exact Hv].
  destruct (ir_enc _ _ Hr) as [->|[->| ->]]; lia.
Qed.

Lemma decimal_z_inj v w : in_s 64 v → in_s 64 w → decimal_z v = decimal_z w → v = w.
Proof.
  intros Hv Hw E. assert (string2ll (decimal_z v) = Some v) as H1 by (by apply string2ll_spec).
  assert (string2ll (decimal_z v) = Some w) as H2 by (apply string2ll_spec; by rewrite E). congruence.
Qed.

Lemma elem_of_ints vs s : Forall (in_s 64) vs →
  s ∈ ints vs ↔ ∃ v, string2ll s = Some v ∧ v ∈ vs.
Proof.
  intros Hall. unfold ints. rewrite elem_of_list_to_set, list_elem_of_fmap. rewrite Forall_forall in Hall. split.
  - intros (v & -> & Hv). exists v. split; [|done]. apply string2ll_spec. auto.
  - intros (v & [_ ->]%string2ll_spec & Hv). by exists v.
Qed.

Lemma ints_member vs s v : Forall (in_s 64) vs → string2ll s = Some v → (s ∈ ints vs ↔ v ∈ vs).
Proof. intros Hall E. rewrite elem_of_ints by done. rewrite E. naive_solver. Qed.

Lemma ints_perm vs vs' : vs ≡ₚ vs' → ints vs = ints vs'.
Proof. intros Hp. unfold ints. apply set_eq. intros x. by rewrite !elem_of_list_to_set, Hp. Qed.

Lemma ints_cons v vs : ints (v :: vs) = {[decimal_z v]} ∪ ints vs.
Proof. done. Qed.

Lemma decimals_nodup vs : Forall (in_s 64) vs → NoDup vs → NoDup (decimal_z <$> vs).
Proof.
  intros Hall Hnd. rewrite Forall_forall in Hall. apply (NoDup_fmap_2_strong decimal_z); [|done].
  intros x y Hx Hy. apply decimal_z_inj; auto.
Qed.

Lemma sorted_nodup vs : StronglySorted Z.lt vs → NoDup vs.
Proof.
  induction 1 as [|v vs Hs IH Hall]; constructor; [|done]. intros Hv. rewrite Forall_forall in Hall.
  specialize (Hall v Hv). lia.
Qed.

Lemma ints_size is_ vs : intset_repr is_ vs → base.size (ints vs) = length vs.
Proof.
  intros Hr. unfold ints. rewrite size_list_to_set, length_fmap; [done|].
  apply decimals_nodup; [by eapply repr_in_s|]. apply sorted_nodup, (ir_sorted _ _ Hr).
Qed.

Lemma ll_bytes_ok v : in_s 64 v → ll_bytes junk v = Some (decimal_z v).
Proof.
  intros Hv. unfold ll_bytes. destruct (ll2str_spec (replicate (Z.to_nat SDS_LLSTR_SIZE) junk) v Hv) as (rest & ->); [done|].
  cbn [mbind option_bind]. by rewrite Nat2Z.id, take_app_length.
Qed.

Lemma bulk_ll_ok v : in_s 64 v → bulk_ll junk v = Some (RBulk (decimal_z v)).
Proof.
  intros Hv. unfold bulk_ll. pose proof (decimal_z_length v) as [Hl1 Hl2].
  rewrite ll2string_spec, decide_True by (done || (rewrite length_replicate; lia)). cbn [mbind option_bind].
  by rewrite Nat2Z.id, take_app_length.
Qed.

(** *** Sizes *)

Lemma ht_size d X : ht_ok_set d X → dictSize d = Z.of_nat (base.size X) ∧ Z.of_nat (length (entries d)) = Z.of_nat (base.size X).
Proof.
  intros (Hwf & _ & <-). rewrite (dictSize_entries stype d Hwf), <- (size_dict_map stype d Hwf). by rewrite size_dom.
Qed.

Lemma setTypeSize_ok o X : set_ok o X → setTypeSize o = Some (Z.of_nat (base.size X)).
Proof.
  destruct o as [is_|d|]; simpl; [| |done].
  - intros (vs & Hr & _ & <-). unfold intsetLen. by rewrite (ints_size is_ vs Hr), (ir_length _ _ Hr).
  - intros Hd. by destruct (ht_size d X Hd) as [-> _].
Qed.

(** *** Hash tables *)

Lemma ht_elem d X s : ht_ok_set d X → (s ∈ X ↔ is_Some (dict_map d !! s)).
Proof. intros (_ & _ & <-). by rewrite elem_of_dom. Qed.

Lemma ht_create : ht_ok_set dictCreate ∅.
Proof. split; [apply dictCreate_wf|]. split; [by split|]. done. Qed.

Lemma ht_room d X : ht_ok_set d X → Z.of_nat (base.size X) < 2 ^ 31 →
  Z.of_nat (length (entries d)) < MAX_ENTRIES ∧ Z.of_nat (base.size (dict_map d)) < MAX_ENTRIES.
Proof.
  intros Hd Hx. pose proof Hd as (Hwf & _ & HX). destruct (ht_size d X Hd) as [_ He].
  rewrite (size_dict_map stype d Hwf). unfold MAX_ENTRIES. lia.
Qed.

Lemma ht_dictAdd d X s : ht_ok_set d X → Z.of_nat (base.size X) < 2 ^ 31 →
  ∃ d' rc, dictAdd stype cr d s tt = Some (d', rc) ∧ ht_ok_set d' ({[s]} ∪ X) ∧ (s ∉ X → rc = DICT_OK).
Proof.
  intros Hd Hx. pose proof Hd as (Hwf & Hs & HX). destruct (ht_room d X Hd Hx) as [_ Hroom].
  destruct (dictAdd_spec stype cr d s tt Hwf Hroom) as (d' & rc & E & Hwf' & Hcase). exists d', rc. split; [done|].
  pose proof (dictAdd_sizes stype cr d s tt d' rc Hwf Hs E) as Hs'.
  destruct Hcase as [(Hin & -> & Hm)|(Hn & -> & Hm)].
  - apply (ht_elem d X) in Hin; [|done]. split; [|done]. split; [done|]. split; [done|]. rewrite Hm, HX. set_solver.
  - split; [|done]. split; [done|]. split; [done|]. rewrite Hm. unfold map_set. by rewrite dom_insert_L, HX.
Qed.

Lemma ht_add d X s : ht_ok_set d X → Z.of_nat (base.size X) < 2 ^ 31 →
  ∃ o', setTypeAdd hash cr junk addr max (SHt d) s = Some (o', bool_decide (s ∉ X)) ∧ set_ok o' ({[s]} ∪ X).
Proof.
  intros Hd Hx. pose proof Hd as (Hwf & Hs & HX). destruct (ht_room d X Hd Hx) as [Hroom _].
  destruct (dictAddRaw_spec stype cr d s Hwf Hroom) as (d1 & e & ex & E & Hwf1 & Hcase). simpl. rewrite E. cbn [mbind option_bind].
  pose proof (dictAddRaw_sizes stype cr d s d1 e ex Hwf Hs E) as Hs1.
  destruct Hcase as [(Hin & -> & Hm & _)|(Hn & _ & Hm & r & -> & Hr)].
  - apply (ht_elem d X) in Hin; [|done]. eexists. rewrite bool_decide_false by auto. split; [done|]. simpl.
    split; [done|]. split; [done|]. rewrite Hm, HX. set_solver.
  - destruct (set_after stype d1 r _ tt Hwf1 Hr) as (d2 & E2 & Hwf2 & Hm2). rewrite E2. cbn [mbind option_bind].
    assert (s ∉ X) as Hni. { rewrite (ht_elem d X) by done. rewrite Hn. by apply is_Some_None. }
    eexists. rewrite bool_decide_true by done. split; [done|]. simpl. split; [done|].
    split; [by eapply dictSetVal_sizes|]. rewrite Hm2, Hm. unfold map_set. simpl. rewrite !dom_insert_L, HX. set_solver.
Qed.

Lemma ht_remove d X s : ht_ok_set d X → Z.of_nat (base.size X) < 2 ^ 31 →
  ∃ o', setTypeRemove hash cr junk (SHt d) s = Some (o', bool_decide (s ∈ X)) ∧ set_ok o' (X ∖ {[s]}).
Proof.
  intros Hd Hx. pose proof Hd as (Hwf & Hs & HX). simpl. unfold dictDelete.
  destruct (dictGenericDelete_spec stype d s false Hwf) as (d1 & he & fr & E & Hwf1 & Hm & Hcase). rewrite E. cbn [mbind option_bind].
  pose proof (dictGenericDelete_sizes stype d s false d1 he fr Hwf Hs E) as Hs1.
  assert (ht_ok_set d1 (X ∖ {[s]})) as Hd1. { split; [done|]. split; [done|]. by rewrite Hm, dom_delete_L, HX. }
  destruct he as [he|].
  - destruct Hcase as (_ & Hl & _). eexists. rewrite bool_decide_true by (rewrite (ht_elem d X) by done; by rewrite Hl).
    split; [done|]. destruct (htNeedsResize d1); [|done].
    destruct (dictResize_ok stype cr d1 Hwf1 Hs1) as (Hwf2 & Hs2 & Hm2).
    + destruct (ht_size d1 _ Hd1) as [_ ->]. assert (base.size (X ∖ {[s]}) ≤ base.size X)%nat by (apply subseteq_size; set_solver). lia.
    + split; [done|]. split; [done|]. rewrite Hm2. apply Hd1.
  - destruct Hcase as [Hl _]. eexists. rewrite bool_decide_false; [done|]. rewrite (ht_elem d X) by done. rewrite Hl. by apply is_Some_None.
Qed.

Lemma ht_member d X s : ht_ok_set d X →
  ∃ o', setTypeIsMember hash (SHt d) s = Some (o', bool_decide (s ∈ X)) ∧ set_ok o' X.
Proof.
  intros Hd. pose proof Hd as (Hwf & Hs & HX). simpl.
  destruct (dictFind_spec stype d s Hwf) as (d1 & r & E & Hwf1 & Hm & Hcase). rewrite E. cbn [mbind option_bind].
  exists (SHt d1). split; [|split; [done|]; split; [exact (dictFind_sizes stype d s d1 r Hwf Hs E)|by rewrite Hm]].
  do 2 f_equal. apply bool_decide_ext. rewrite (ht_elem d X) by done. destruct r as [r|].
  - destruct Hcase as (e & _ & _ & ->). split; eauto.
  - rewrite Hcase. split; intros Hx; by apply is_Some_None in Hx.
Qed.

(** *** Intsets *)

Lemma intset_create : set_ok (SIntset intsetNew) ∅.
Proof.
  exists []. split; [|split; [simpl; lia|done]]. split; simpl; [by left|done|done|apply SSorted_nil|by apply Forall_nil|unfold MAX_INTSET; lia].
Qed.

Lemma create_ok v : set_ok (setTypeCreate v) ∅.
Proof. unfold setTypeCreate. destruct (string2ll v); [apply intset_create|apply ht_create]. Qed.

Lemma intset_find is_ vs v : intset_repr is_ vs → in_s 64 v → intsetFind is_ v = Some (bool_decide (v ∈ vs)).
Proof. intros Hr Hv. by destruct (intset_queries_correct is_ vs v 0 0 Hr Hv ltac:(lia) ltac:(lia)) as [-> _]. Qed.

Lemma intset_get is_ vs i : intset_repr is_ vs → 0 ≤ i → intsetGet is_ i = Some (vs !! Z.to_nat i).
Proof. intros Hr Hi. by destruct (intset_queries_correct is_ vs 0 0 i Hr ltac:(unfold in_s; simpl; lia) ltac:(lia) Hi) as (_ & -> & _). Qed.

Lemma intset_remove is_ X s : set_ok (SIntset is_) X →
  ∃ o', setTypeRemove hash cr junk (SIntset is_) s = Some (o', bool_decide (s ∈ X)) ∧ set_ok o' (X ∖ {[s]}).
Proof.
  intros (vs & Hr & Hlen & <-). simpl. pose proof (repr_in_s is_ vs Hr) as Hall. destruct (string2ll s) as [v|] eqn:Es.
  - assert (in_s 64 v ∧ s = decimal_z v) as [Hv Ev] by (by apply string2ll_spec).
    destruct (intsetRemove_correct junk is_ vs v Hr Hv) as (is' & ok & -> & _ & Hcase). cbn [mbind option_bind].
    pose proof (ints_member vs s v Hall Es) as Hmem. destruct Hcase as [(-> & Hn & ->)|(-> & vs' & Hr' & Hp)].
    + eexists. rewrite bool_decide_false by tauto. split; [done|]. exists vs. split; [done|]. split; [done|]. set_solver.
    + eexists. rewrite bool_decide_true; cycle 1. { apply Hmem. rewrite Hp. by left. } split; [done|].
      exists vs'. split; [done|]. pose proof (Permutation_length Hp) as Hpl. simpl in Hpl. split; [lia|].
      rewrite (ints_perm _ _ Hp), ints_cons, <- Ev. assert (s ∉ ints vs') as Hni.
      { rewrite (ints_member vs' s v); [|by eapply repr_in_s|done]. pose proof (sorted_nodup vs (ir_sorted _ _ Hr)) as Hnd.
        rewrite Hp in Hnd. by apply NoDup_cons in Hnd as [? _]. }
      set_solver.
  - assert (s ∉ ints vs) as Hni by (rewrite elem_of_ints by done; rewrite Es; naive_solver).
    eexists. rewrite bool_decide_false by done. split; [done|]. exists vs. split; [done|]. split; [done|]. set_solver.
Qed.

Lemma intset_member is_ X s : set_ok (SIntset is_) X →
  ∃ o', setTypeIsMember hash (SIntset is_) s = Some (o', bool_decide (s ∈ X)) ∧ set_ok o' X.
Proof.
  intros HX. pose proof HX as (vs & Hr & Hlen & <-). pose proof (repr_in_s is_ vs Hr) as Hall. simpl. destruct (string2ll s) as [v|] eqn:Es.
  - assert (in_s 64 v) as Hv by (by apply string2ll_spec in Es as []). rewrite (intset_find is_ vs v Hr Hv). cbn [mbind option_bind].
    exists (SIntset is_). split; [|done]. do 2 f_equal. apply bool_decide_ext. by rewrite (ints_member vs s v).
  - exists (SIntset is_). split; [|done]. do 2 f_equal. symmetry. apply bool_decide_eq_false.
    rewrite elem_of_ints by done. rewrite Es. naive_solver.
Qed.

(** ** Loops over a set *)

(** [es] are the elements of [X], each once, in the order of the encoding. *)
Definition enumerates (es : list setele) (X : gset (list Z)) : Prop :=
  ∃ l, NoDup l ∧ list_to_set l = X ∧ Forall2 (λ e s, element_sds junk e = Some s ∧
    match e with ELl v => in_s 64 v ∧ s = decimal_z v | ESds s' => s' = s end) es l.

(** The body, run on one element after another. *)
Fixpoint run_body {S} (body : setele → S → option S) (es : list setele) (s : S) : option S :=
  match es with
  | [] => Some s
  | e :: es => s ← body e s; run_body body es s
  end.

Definition keeps {S} (get : S → option sobj) (o : sobj) (body : setele → S → option S) : Prop :=
  ∀ e s s', get s = Some o → body e s = Some s' → get s' = Some o.

Lemma each_intset {S} is_ vs (get : S → option sobj) body n fuel s : intset_repr is_ vs →
  get s = Some (SIntset is_) → keeps get (SIntset is_) body → (n ≤ length vs)%nat → (length vs - n < fuel)%nat →
  set_each addr fuel get body (SiIntset (Z.of_nat n)) s = run_body body (ELl <$> drop n vs) s.
Proof.
  intros Hr. revert n s. induction fuel as [|fuel IH]; intros n s Hg Hk Hn Hf; [lia|]. cbn [set_each]. rewrite Hg.
  pose proof (ir_bound _ _ Hr) as Hb. unfold MAX_INTSET in Hb.
  cbn [mbind option_bind setTypeNext]. rewrite (uwrap_small 32) by (unfold in_u; lia).
  rewrite (intset_get is_ vs (Z.of_nat n)) by (done || lia). cbn [mbind option_bind]. rewrite Nat2Z.id.
  destruct (vs !! n) as [v|] eqn:Ev; cbn [option_map].
  - rewrite (drop_S _ _ _ Ev). cbn [fmap list_fmap run_body]. destruct (body (ELl v) s) as [s'|] eqn:Eb; [|done]. cbn [mbind option_bind].
    rewrite (swrap_small 32) by (unfold in_s; simpl; lia). replace (Z.of_nat n + 1) with (Z.of_nat (Datatypes.S n)) by lia.
    pose proof (lookup_lt_Some _ _ _ Ev). rewrite IH; try done; try lia. by eapply Hk.
  - apply lookup_ge_None in Ev. by rewrite drop_ge by done.
Qed.

Lemma each_ht {S} d (get : S → option sobj) body it fuel s : dict_wf stype d → sizes_ok d → iter_ok d it →
  it_safe it = false → (it_started it = true → it_fingerprint it = Some (dictFingerprint addr d)) →
  get s = Some (SHt d) → keeps get (SHt d) body → (length (pending d it) < fuel)%nat →
  set_each addr fuel get body (SiHt it) s = run_body body (ESds <$> pending d it) s.
Proof.
  intros Hwf Hs. revert it s. induction fuel as [|fuel IH]; intros it s Hok Hsf Hfp Hg Hk Hf; [lia|]. cbn [set_each]. rewrite Hg.
  cbn [mbind option_bind setTypeNext].
  destruct (dictNext_spec stype addr d it Hwf Hs Hok) as (d' & it' & r & -> & Hd & Hsf' & Hst' & Hfp' & Hr & Hnext).
  { intros Hx. congruence. }
  assert (d' = d ∧ it_fingerprint it' = Some (dictFingerprint addr d)) as [-> Hfp1].
  { unfold it_begin in Hd, Hfp'. destruct (it_started it) eqn:Est; [split; [done|]; rewrite Hfp'; auto|].
    rewrite Hsf in Hd, Hfp'. done. }
  cbn [mbind option_bind]. destruct (pending d it) as [|k ks] eqn:Ep; subst r; cbn [head option_map].
  - cbn [setTypeReleaseIterator]. unfold dictReleaseIterator. rewrite Hst', Hsf', Hsf, Hfp1, decide_True by done. done.
  - destruct Hnext as (Hok' & Hp' & _); [done|]. cbn [fmap list_fmap run_body].
    destruct (body (ESds k) s) as [s'|] eqn:Eb; [|done]. cbn [mbind option_bind].
    rewrite IH; try done; [by rewrite Hp'|congruence|by eapply Hk|]. rewrite Hp'. simpl in *. lia.
Qed.

(** A loop over a set runs its body on every element once. *)
Lemma set_iterate_ok {S} (get : S → option sobj) o X body s : set_ok o X → get s = Some o → keeps get o body →
  ∃ es, enumerates es X ∧ set_iterate addr get body s = run_body body es s.
Proof.
  intros HX Hg Hk. unfold set_iterate. rewrite Hg. cbn [mbind option_bind]. rewrite (setTypeSize_ok o X HX). cbn [mbind option_bind].
  destruct o as [is_|d|]; [| |done]; cbn [setTypeInitIterator mbind option_bind].
  - destruct HX as (vs & Hr & Hlen & <-). exists (ELl <$> vs). pose proof (repr_in_s is_ vs Hr) as Hall. split.
    + exists (decimal_z <$> vs). split; [by apply decimals_nodup, sorted_nodup, (ir_sorted _ _ Hr)|]. split; [done|].
      rewrite Forall2_fmap. apply Forall_Forall2_diag. eapply Forall_impl; [exact Hall|]. intros v Hv. simpl. by rewrite ll_bytes_ok.
    + rewrite Nat2Z.id, (ints_size is_ vs Hr). change 0 with (Z.of_nat 0). rewrite (each_intset is_ vs); try done; [lia|]. lia.
  - pose proof HX as (Hwf & Hs & HX'). destruct (ht_size d X HX) as [_ Hsz]. exists (ESds <$> Dict.keys (entries d)). split.
    + exists (Dict.keys (entries d)). split; [apply (wf_keys _ _ Hwf)|]. split.
      * rewrite <- HX'. apply set_eq. intros x. rewrite elem_of_list_to_set, elem_of_dom.
        destruct (decide (x ∈ Dict.keys (entries d))) as [Hin|Hni].
        -- split; [|done]. intros _. destruct (dict_map d !! x) eqn:E; [eauto|]. by apply dict_map_None in E.
        -- split; [done|]. apply dict_map_None in Hni. rewrite Hni. intros Hx. by apply is_Some_None in Hx.
      * rewrite Forall2_fmap_l. apply Forall_Forall2_diag, Forall_true. done.
    + rewrite (each_ht d get body dictGetIterator); try done; [by rewrite (fresh_pending d false)|exact (fresh_iter_ok stype d false Hwf)|].
      change dictGetIterator with (DI (-1) 0 false (@None (list Z)) None None). rewrite (fresh_pending d false).
      unfold Dict.keys. rewrite length_fmap. lia.
Qed.

(** ** Conversion, and the operations on both encodings *)

Lemma presized_ok n : 0 ≤ n < 2 ^ 31 → ht_ok_set (dictExpand dictCreate n).1 ∅.
Proof.
  intros Hn. pose proof (dictCreate_wf stype) as Hwf0.
  pose proof (dictExpand_sizes stype dictCreate n Hwf0 ltac:(by split) ltac:(lia)) as Hs.
  destruct (dictExpand_cases stype dictCreate n Hwf0) as [[E _]|(d' & E & _ & _ & _ & [Hw He _ _] & _)];
    [unfold in_u; lia|rewrite E; apply ht_create|]. rewrite E in Hs |- *. split; [done|]. split; [done|].
  unfold dict_map. simpl. by rewrite He.
Qed.

Lemma convert_run vs2 : ∀ vs1 d, Forall (in_s 64) (vs1 ++ vs2) → NoDup (vs1 ++ vs2) →
  Z.of_nat (length (vs1 ++ vs2)) < 2 ^ 31 → ht_ok_set d (ints vs1) →
  ∃ d', run_body (convert_element hash cr junk) (ELl <$> vs2) d = Some d' ∧ ht_ok_set d' (ints (vs1 ++ vs2)).
Proof.
  induction vs2 as [|v vs2 IH]; intros vs1 d Hall Hnd Hlen Hd.
  { rewrite app_nil_r. by exists d. }
  cbn [fmap list_fmap run_body convert_element]. pose proof Hall as Hall'. rewrite Forall_app, Forall_cons in Hall'.
  destruct Hall' as (Hall1 & Hv & _). rewrite (ll_bytes_ok v Hv). cbn [mbind option_bind].
  assert (decimal_z v ∉ ints vs1) as Hni.
  { rewrite (ints_member vs1 _ v); [|done|by apply string2ll_spec]. apply NoDup_app in Hnd as (_ & Hdis & _).
    intros Hx. apply (Hdis v Hx). by left. }
  destruct (ht_dictAdd d (ints vs1) (decimal_z v) Hd) as (d' & rc & -> & Hd' & Hrc).
  { pose proof (size_list_to_set_le (decimal_z <$> vs1)) as Hsz. rewrite length_fmap in Hsz. rewrite length_app in Hlen.
    unfold ints. lia. }
  cbn [mbind option_bind]. rewrite (Hrc Hni). simpl. rewrite (app_assoc vs1 [v] vs2 : vs1 ++ v :: vs2 = _) in *.
  apply (IH (vs1 ++ [v])); try done. assert (ints (vs1 ++ [v]) = {[decimal_z v]} ∪ ints vs1) as ->; [|done].
  rewrite <- ints_cons. apply ints_perm. by rewrite Permutation_app_comm.
Qed.

Lemma convert_ok is_ vs : intset_repr is_ vs →
  ∃ d, setTypeConvert hash cr junk addr is_ = Some d ∧ ht_ok_set d (ints vs).
Proof.
  intros Hr. pose proof (ir_bound _ _ Hr) as Hb. unfold MAX_INTSET in Hb.
  unfold setTypeConvert, set_iterate. cbn [mbind option_bind setTypeSize setTypeInitIterator]. unfold intsetLen.
  rewrite (ir_length _ _ Hr), Nat2Z.id. change (SiIntset 0) with (SiIntset (Z.of_nat 0)).
  rewrite (each_intset is_ vs); try done; [|lia..]. rewrite drop_0.
  apply (convert_run vs []); simpl.
  - by eapply repr_in_s.
  - apply sorted_nodup, (ir_sorted _ _ Hr).
  - lia.
  - apply presized_ok. lia.
Qed.

Lemma intset_add is_ X s : set_ok (SIntset is_) X → Z.of_nat (base.size X) < 2 ^ 31 →
  ∃ o', setTypeAdd hash cr junk addr max (SIntset is_) s = Some (o', bool_decide (s ∉ X)) ∧ set_ok o' ({[s]} ∪ X).
Proof.
  intros (vs & Hr & Hlen & <-) Hx. simpl. pose proof (repr_in_s is_ vs Hr) as Hall. destruct (string2ll s) as [v|] eqn:Es.
  - assert (in_s 64 v ∧ s = decimal_z v) as [Hv Ev] by (by apply string2ll_spec).
    destruct (intsetAdd_spec junk Hjunk is_ vs v Hr Hv) as (is' & ok & -> & _ & Hcase); [lia|]. cbn [mbind option_bind].
    pose proof (ints_member vs s v Hall Es) as Hmem. destruct Hcase as [(-> & Hin & ->)|(-> & Hni & vs' & Hr' & Hp)].
    + eexists. rewrite bool_decide_false by tauto. split; [done|]. exists vs. split; [done|]. split; [done|]. set_solver.
    + rewrite bool_decide_true by tauto. assert (ints vs' = {[s]} ∪ ints vs) as <-.
      { rewrite (ints_perm _ _ Hp), ints_cons. by rewrite Ev. }
      simpl. unfold intsetLen. rewrite (ir_length _ _ Hr'). destruct (Z.ltb_spec max (Z.of_nat (length vs'))) as [Hgt|Hle].
      * destruct (convert_ok is' vs' Hr') as (d & -> & Hd). cbn [mbind option_bind]. by eexists.
      * eexists. split; [done|]. by exists vs'.
  - assert (s ∉ ints vs) as Hni by (rewrite elem_of_ints by done; rewrite Es; naive_solver).
    destruct (convert_ok is_ vs Hr) as (d & -> & Hd). cbn [mbind option_bind].
    destruct (ht_dictAdd d _ s Hd Hx) as (d' & rc & -> & Hd' & Hrc). cbn [mbind option_bind]. rewrite (Hrc Hni), bool_decide_true by done. by eexists.
Qed.

Lemma setTypeAdd_ok o X s : set_ok o X → Z.of_nat (base.size X) < 2 ^ 31 →
  ∃ o', setTypeAdd hash cr junk addr max o s = Some (o', bool_decide (s ∉ X)) ∧ set_ok o' ({[s]} ∪ X).
Proof. destruct o as [is_|d|]; [apply intset_add|apply ht_add|done]. Qed.

Lemma setTypeRemove_ok o X s : set_ok o X → Z.of_nat (base.size X) < 2 ^ 31 →
  ∃ o', setTypeRemove hash cr junk o s = Some (o', bool_decide (s ∈ X)) ∧ set_ok o' (X ∖ {[s]}).
Proof. destruct o as [is_|d|]; [intros ? _; by apply intset_remove|apply ht_remove|done]. Qed.

Lemma setTypeIsMember_ok o X s : set_ok o X →
  ∃ o', setTypeIsMember hash o s = Some (o', bool_decide (s ∈ X)) ∧ set_ok o' X.
Proof. destruct o as [is_|d|]; [apply intset_member|apply ht_member|done]. Qed.
End rep.
