(* ===== verification/TSetCmd.v ===== *)
(** * t_set.c: the commands as operations on finite sets

    The keyspace stands for a map from keys to non-empty finite sets of strings
    (or a value of some other type).  This file has the specification of every
    command on that map, and the proofs for the commands on single elements.  An
    array of elements is sent in some order, each element once. *)

From stdpp Require Import strings.
From S2P Require Import Prelude Decimal Util Dict DictIter MapApi Intset SdsText Keyspace TSet TSetRep.

(** ** Specification *)

Abbreviation bytes := (list Z).
Abbreviation db := (gmap (list Z) (option (gset (list Z)))).

(** One reply, or an array of the elements of a set in any order. *)
Inductive areply := AOne (r : reply) | AArray (X : gset bytes).

Definition reply_sent (rs : list reply) (a : areply) : Prop :=
  match a with
  | AOne r => rs = [r]
  | AArray X => ∃ es, es ≡ₚ elements X ∧ rs = RMultiLen (Z.of_nat (base.size X)) :: (RBulk <$> es)
  end.

Record sout := SOut { so_keys : db; so_dirty : Z; so_events : list event; so_reply : areply }.

Definition sanswer (D : db) (r : reply) : sout := SOut D 0 [] (AOne r).

(** Empty sets are not stored. *)
Definition put (D : db) (k : bytes) (X : gset bytes) : db :=
  if decide (X = ∅) then delete k D else <[k := Some X]> D.

Definition zsize (X : gset bytes) : Z := Z.of_nat (base.size X).

Inductive scommand :=
  | SADD (k : bytes) (vals : list bytes)
  | SREM (k : bytes) (vals : list bytes)
  | SMOVE (src dst ele : bytes)
  | SISMEMBER (k ele : bytes)
  | SCARD (k : bytes)
  | SINTER (ks : list bytes)
  | SINTERSTORE (dst : bytes) (ks : list bytes)
  | SUNION (ks : list bytes)
  | SUNIONSTORE (dst : bytes) (ks : list bytes)
  | SDIFF (ks : list bytes)
  | SDIFFSTORE (dst : bytes) (ks : list bytes).

(** A command on the set at a key that exists. *)
Definition with_set (D : db) (k : bytes) (f : gset bytes → sout) : sout :=
  match D !! k with
  | None => sanswer D (RLong 0)
  | Some None => sanswer D RWrongType
  | Some (Some X) => f X
  end.

Definition sadd_spec (D : db) (k : bytes) (vals : list bytes) : sout :=
  match D !! k with
  | Some None => sanswer D RWrongType
  | o =>
      let X := default ∅ (mjoin o) in
      let Y := list_to_set vals ∪ X in
      let n := zsize Y - zsize X in
      SOut (<[k := Some Y]> D) n (if 0 <? n then [SignalModified k; NotifySet "sadd" k] else []) (AOne (RLong n))
  end.

Definition srem_spec (D : db) (k : bytes) (vals : list bytes) : sout :=
  with_set D k (λ X,
    let Y := X ∖ list_to_set vals in
    let n := zsize X - zsize Y in
    SOut (put D k Y) n
      (if 0 <? n then [SignalModified k; NotifySet "srem" k] ++ (if decide (Y = ∅) then [NotifyGeneric "del" k] else []) else [])
      (AOne (RLong n))).

Definition smove_spec (D : db) (src dst ele : bytes) : sout :=
  with_set D src (λ X,
    match D !! dst with
    | Some None => sanswer D RWrongType
    | o =>
        let Y := default ∅ (mjoin o) in
        if decide (src = dst) then sanswer D (RLong (if decide (ele ∈ X) then 1 else 0))
        else if decide (ele ∈ X) then
          let X' := X ∖ {[ele]} in
          SOut (<[dst := Some ({[ele]} ∪ Y)]> (put D src X')) (if decide (ele ∈ Y) then 1 else 2)
            ([NotifySet "srem" src] ++ (if decide (X' = ∅) then [NotifyGeneric "del" src] else []) ++
             [SignalModified src; SignalModified dst] ++ (if decide (ele ∈ Y) then [] else [NotifySet "sadd" dst]))
            (AOne (RLong 1))
        else sanswer D (RLong 0)
    end).

(** The result of a command in the place of [dst]. *)
Definition store_spec (D : db) (dst : bytes) (Y : gset bytes) (name : string) : sout :=
  SOut (put D dst Y) 1
    ((if decide (Y = ∅) then (if decide (is_Some (D !! dst)) then [NotifyGeneric "del" dst] else [])
      else [NotifySet name dst]) ++ [SignalModified dst])
    (AOne (RLong (zsize Y))).

(** The sets at some keys, up to the first key that is missing or of another type. *)
Inductive lookups := LMissing | LWrong | LSets (l : list (gset bytes)).

Fixpoint look_sets (D : db) (ks : list bytes) : lookups :=
  match ks with
  | [] => LSets []
  | k :: ks =>
      match D !! k with
      | None => LMissing
      | Some None => LWrong
      | Some (Some X) => match look_sets D ks with LSets l => LSets (X :: l) | r => r end
      end
  end.

(** A missing key is an empty set; [None] when a key is of another type. *)
Fixpoint look_all (D : db) (ks : list bytes) : option (list (gset bytes)) :=
  match ks with
  | [] => Some []
  | k :: ks =>
      match D !! k with
      | Some None => None
      | o => l ← look_all D ks; Some (default ∅ (mjoin o) :: l)
      end
  end.

Definition inter_list (l : list (gset bytes)) : gset bytes :=
  match l with [] => ∅ | X :: l => foldr (∩) X l end.
Definition diff_list (l : list (gset bytes)) : gset bytes :=
  match l with [] => ∅ | X :: l => X ∖ ⋃ l end.

Definition sinter_spec (D : db) (ks : list bytes) : sout :=
  match look_sets D ks with
  | LMissing => sanswer D REmptyMulti
  | LWrong => sanswer D RWrongType
  | LSets l => SOut D 0 [] (AArray (inter_list l))
  end.

Definition sinterstore_spec (D : db) (dst : bytes) (ks : list bytes) : sout :=
  match look_sets D ks with
  | LMissing =>
      if decide (is_Some (D !! dst)) then SOut (delete dst D) 1 [SignalModified dst] (AOne (RLong 0))
      else sanswer D (RLong 0)
  | LWrong => sanswer D RWrongType
  | LSets l => store_spec D dst (inter_list l) "sinterstore"
  end.

Definition combine_spec (D : db) (ks : list bytes) (f : list (gset bytes) → gset bytes) : sout :=
  match look_all D ks with None => sanswer D RWrongType | Some l => SOut D 0 [] (AArray (f l)) end.

Definition combinestore_spec (D : db) (dst : bytes) (ks : list bytes) (f : list (gset bytes) → gset bytes)
    (name : string) : sout :=
  match look_all D ks with None => sanswer D RWrongType | Some l => store_spec D dst (f l) name end.

Definition set_spec (c : scommand) (D : db) : sout :=
  match c with
  | SADD k vals => sadd_spec D k vals
  | SREM k vals => srem_spec D k vals
  | SMOVE src dst ele => smove_spec D src dst ele
  | SISMEMBER k ele => with_set D k (λ X, sanswer D (RLong (if decide (ele ∈ X) then 1 else 0)))
  | SCARD k => with_set D k (λ X, sanswer D (RLong (zsize X)))
  | SINTER ks => sinter_spec D ks
  | SINTERSTORE dst ks => sinterstore_spec D dst ks
  | SUNION ks => combine_spec D ks union_list
  | SUNIONSTORE dst ks => combinestore_spec D dst ks union_list "sunionstore"
  | SDIFF ks => combine_spec D ks diff_list
  | SDIFFSTORE dst ks => combinestore_spec D dst ks diff_list "sdiffstore"
  end.

(** The arguments the arity of the commands asks for, and fewer than 2^31
    elements: the counters of the code are [int]s. *)
Definition size_at (D : db) (k : bytes) : Z := match D !! k with Some (Some X) => zsize X | _ => 0 end.
Definition sizes (D : db) (ks : list bytes) : Z := foldr (λ k n, size_at D k + 1 + n) 0 ks.

Definition set_fits (c : scommand) (D : db) : bool :=
  match c with
  | SADD k vals => (0 <? Z.of_nat (length vals)) && (size_at D k + Z.of_nat (length vals) <? 2 ^ 31)
  | SREM k _ | SISMEMBER k _ | SCARD k => size_at D k <? 2 ^ 31
  | SMOVE src dst _ => size_at D src + size_at D dst <? 2 ^ 31
  | SINTER ks | SINTERSTORE _ ks | SUNION ks | SUNIONSTORE _ ks | SDIFF ks | SDIFFSTORE _ ks =>
      (0 <? Z.of_nat (length ks)) && (sizes D ks <? 2 ^ 31)
  end.

(** *** Sizes of sets *)

Lemma zsize_diff (X Y : gset bytes) : zsize (X ∖ Y) ≤ zsize X ∧ (zsize (X ∖ Y) = zsize X → X ∖ Y = X).
Proof.
  unfold zsize. assert (X ∖ Y ⊆ X) as Hsub by set_solver. pose proof (subseteq_size _ _ Hsub). split; [lia|].
  intros E. apply set_eq_subseteq. split; [done|]. apply Nat2Z.inj in E. intros x Hx. destruct (decide (x ∈ Y)) as [Hy|]; [|set_solver].
  exfalso. assert (X ∖ Y ⊂ X) as Hss by set_solver. apply subset_size in Hss. lia.
Qed.

Lemma zsize_zero (X : gset bytes) : (0 <? zsize X) = negb (bool_decide (X = ∅)).
Proof.
  unfold zsize. destruct (decide (X = ∅)) as [-> |Hne]; [by rewrite bool_decide_true, size_empty|]. rewrite bool_decide_false by done.
  apply Z.ltb_lt. assert (base.size X ≠ 0%nat); [|lia]. intros E. apply Hne, leibniz_equiv. by apply size_empty_iff.
Qed.

Lemma zsize_add (x : bytes) (Y : gset bytes) : zsize ({[x]} ∪ Y) = if decide (x ∈ Y) then zsize Y else zsize Y + 1.
Proof.
  unfold zsize. destruct (decide (x ∈ Y)); [by replace ({[x]} ∪ Y) with Y by set_solver|].
  rewrite size_union, size_singleton by set_solver. lia.
Qed.

Lemma zsize_remove (x : bytes) (Y : gset bytes) : zsize (Y ∖ {[x]}) = if decide (x ∈ Y) then zsize Y - 1 else zsize Y.
Proof.
  destruct (decide (x ∈ Y)) as [Hx|Hx]; [|by replace (Y ∖ {[x]}) with Y by set_solver].
  assert (Y = {[x]} ∪ Y ∖ {[x]}) as E by (by apply union_difference_singleton_L). rewrite E at 2. rewrite zsize_add, decide_False by set_solver. lia.
Qed.

Lemma zsize_union_le (X Y : gset bytes) : zsize (X ∪ Y) ≤ zsize X + zsize Y.
Proof.
  unfold zsize. rewrite size_union_alt. assert (base.size (Y ∖ X) ≤ base.size Y)%nat by (apply subseteq_size; set_solver). lia.
Qed.

(** ** The commands on elements *)

Section commands.
Context (hash : list Z → Z) (Hhash : ∀ k, in_u 64 (hash k)) (cr : bool) (junk : Z) (Hjunk : byte_ok junk).
Context (addr : nat → Z) (max : Z) (Hmax : 0 ≤ max < MAX_INTSET).

Abbreviation set_ok := (TSetRep.set_ok hash max).

(** What the object at a key stands for. *)
Definition obj_ok (o : sobj) (a : option (gset bytes)) : Prop :=
  match a with Some X => set_ok o X ∧ X ≠ ∅ | None => o = NotSet end.

Definition refines_set (s : sserver) (o : sout) (r : option sserver) : Prop :=
  ∃ s' rs, r = Some s' ∧ keys_ok obj_ok (keys s') (so_keys o) ∧ dirty s' = dirty s + so_dirty o ∧
    events s' = events s ++ so_events o ∧ replies s' = replies s ++ rs ∧ reply_sent rs (so_reply o).

Lemma sanswer_ok s D r : keys_ok obj_ok (keys s) D → refines_set s (sanswer D r) (Some (addReply s r)).
Proof.
  intros HK. exists (addReply s r), [r]. simpl. rewrite app_nil_r. split_and!; try done. lia.
Qed.

(** The cases of a lookup of a set. *)
Lemma with_set_ok s D k f g : keys_ok obj_ok (keys s) D →
  (∀ o X, keys s !! k = Some o → D !! k = Some (Some X) → set_ok o X → X ≠ ∅ → refines_set s (f X) (g o)) →
  refines_set s (with_set D k f)
    (match keys s !! k with
     | None => Some (addReply s (RLong 0))
     | Some NotSet => Some (addReply s RWrongType)
     | Some o => g o
     end).
Proof.
  intros HK Hf. unfold with_set. destruct (keys_cases obj_ok _ _ k HK) as [[-> ->]|(o & a & E1 & E2 & Ho)]; [by apply sanswer_ok|].
  rewrite E1, E2. destruct a as [X|]; simpl in Ho; [|subst o; by apply sanswer_ok].
  destruct Ho as [Ho Hne]. destruct o as [is_|d|]; [by apply (Hf (SIntset is_))|by apply (Hf (SHt d))|done].
Qed.

Lemma sadd_loop_ok vals : ∀ o X added, set_ok o X → zsize X + Z.of_nat (length vals) < 2 ^ 31 →
  ∃ o', sadd_loop hash cr junk addr max o vals added = Some (o', added + (zsize (list_to_set vals ∪ X) - zsize X)) ∧
    set_ok o' (list_to_set vals ∪ X).
Proof.
  unfold zsize. induction vals as [|v vals IH]; intros o X added Ho Hlen; cbn [sadd_loop list_to_set length].
  { exists o. rewrite (left_id_L ∅ (∪)). rewrite Z.sub_diag, Z.add_0_r. done. }
  destruct (setTypeAdd_ok hash Hhash cr junk Hjunk addr max Hmax o X v Ho) as (o1 & -> & Ho1); [simpl in Hlen; lia|].
  cbn [mbind option_bind]. assert (list_to_set vals ∪ ({[v]} ∪ X) = {[v]} ∪ list_to_set vals ∪ X) as Eu by set_solver.
  destruct (decide (v ∈ X)) as [Hin|Hni].
  - rewrite bool_decide_false by auto. assert ({[v]} ∪ X = X) as Ex by set_solver. rewrite Ex in Ho1.
    destruct (IH o1 X added Ho1) as (o' & -> & Ho'); [simpl in Hlen; lia|]. rewrite <- Eu, Ex. by exists o'.
  - rewrite bool_decide_true by done. assert (base.size ({[v]} ∪ X) = S (base.size X)) as Hsz.
    { rewrite size_union by set_solver. by rewrite size_singleton. }
    destruct (IH o1 ({[v]} ∪ X) (added + 1) Ho1) as (o' & -> & Ho'); [simpl in Hlen; lia|]. rewrite Eu in *. exists o'.
    split; [|done]. do 2 f_equal. rewrite Hsz. lia.
Qed.

Lemma saddCommand_ok s D k vals : keys_ok obj_ok (keys s) D → set_fits (SADD k vals) D = true →
  refines_set s (sadd_spec D k vals) (saddCommand hash cr junk addr max s k vals).
Proof.
  intros HK [Hv%Z.ltb_lt Hfit%Z.ltb_lt]%andb_prop. unfold sadd_spec, saddCommand, size_at in *.
  destruct vals as [|v vals]; [simpl in Hv; lia|].
  assert (∀ o X, set_ok o X → default ∅ (mjoin (D !! k)) = X → D !! k ≠ Some None → zsize X + Z.of_nat (length (v :: vals)) < 2 ^ 31 →
    refines_set s
      (let Y := list_to_set (v :: vals) ∪ X in let n := zsize Y - zsize X in
       SOut (<[k := Some Y]> D) n (if 0 <? n then [SignalModified k; NotifySet "sadd" k] else []) (AOne (RLong n)))
      ('(set, added) ← sadd_loop hash cr junk addr max o (v :: vals) 0;
       let s := set_key s k set in
       let s := if 0 <? added then log (log s (SignalModified k)) (NotifySet "sadd" k) else s in
       Some (addReply (add_dirty s added) (RLong added)))) as Hgo.
  { intros o X Ho _ _ Hlen. destruct (sadd_loop_ok (v :: vals) o X 0 Ho Hlen) as (o' & -> & Ho'). cbn [mbind option_bind].
    set (Y := list_to_set (v :: vals) ∪ X) in *. rewrite Z.add_0_l. set (n := zsize Y - zsize X).
    eexists _, [RLong n]. split; [done|]. assert (keys_ok obj_ok (<[k := o']> (keys s)) (<[k := Some Y]> D)) as HK'.
    { apply keys_insert; [done|]. split; [done|]. unfold Y. set_solver. }
    destruct (0 <? n); simpl; rewrite <- ?app_assoc; split_and!; try done. by rewrite app_nil_r. }
  destruct (keys_cases obj_ok _ _ k HK) as [[E1 E2]|(o & a & E1 & E2 & Ho)]; rewrite E1, E2 in *.
  - apply (Hgo (setTypeCreate v) ∅); try done. by apply create_ok.
  - destruct a as [X|]; simpl in Ho; [|subst o; by apply sanswer_ok]. destruct Ho as [Ho _].
    destruct o as [is_|d|]; [by apply (Hgo (SIntset is_) X)|by apply (Hgo (SHt d) X)|done].
Qed.

Lemma srem_loop_ok vals : ∀ o X deleted, set_ok o X → X ≠ ∅ → zsize X < 2 ^ 31 →
  ∃ o', srem_loop hash cr junk o vals deleted =
      Some (o', deleted + (zsize X - zsize (X ∖ list_to_set vals)), bool_decide (X ∖ list_to_set vals = ∅)) ∧
    set_ok o' (X ∖ list_to_set vals).
Proof.
  unfold zsize. induction vals as [|v vals IH]; intros o X deleted Ho Hne Hlen; cbn [srem_loop list_to_set].
  { exists o. rewrite (difference_empty_L X), bool_decide_false by done. rewrite Z.sub_diag, Z.add_0_r. done. }
  destruct (setTypeRemove_ok hash Hhash cr junk Hjunk max Hmax o X v Ho) as (o1 & -> & Ho1); [done|]. cbn [mbind option_bind].
  assert (X ∖ {[v]} ∖ list_to_set vals = X ∖ ({[v]} ∪ list_to_set vals)) as Ed by set_solver.
  destruct (decide (v ∈ X)) as [Hin|Hni].
  - rewrite bool_decide_true by done. rewrite (setTypeSize_ok hash max o1 _ Ho1). cbn [mbind option_bind].
    assert (base.size X = S (base.size (X ∖ {[v]}))) as Hsz.
    { assert (X = {[v]} ∪ X ∖ {[v]}) as Eq by (apply union_difference_singleton_L; done). rewrite Eq at 1. rewrite size_union by set_solver. by rewrite size_singleton. }
    destruct (Z.eqb_spec (Z.of_nat (base.size (X ∖ {[v]}))) 0) as [E0|E0].
    + assert (X ∖ {[v]} = ∅) as Ee by (apply leibniz_equiv, size_empty_iff; lia). rewrite Ee in *.
      assert (X ∖ ({[v]} ∪ list_to_set vals) = ∅) as -> by set_solver. rewrite bool_decide_true by done. exists o1. split; [|done].
      do 3 f_equal. rewrite Hsz, size_empty. lia.
    + destruct (IH o1 (X ∖ {[v]}) (deleted + 1) Ho1) as (o' & -> & Ho'); [intros E; rewrite E, size_empty in E0; lia|lia|].
      rewrite Ed in *. exists o'. split; [|done]. do 3 f_equal. lia.
  - rewrite bool_decide_false by done. assert (X ∖ {[v]} = X) as Ex by set_solver. rewrite Ex in Ho1, Ed.
    destruct (IH o1 X deleted Ho1 Hne Hlen) as (o' & -> & Ho'). rewrite Ed in *. by exists o'.
Qed.

Lemma put_set K D k o X : keys_ok obj_ok K D → set_ok o X → X ≠ ∅ → keys_ok obj_ok (<[k := o]> K) (put D k X).
Proof. intros HK Ho Hne. unfold put. rewrite decide_False by done. by apply keys_insert. Qed.

Lemma put_empty K D k : keys_ok obj_ok K D → keys_ok obj_ok (delete k K) (put D k ∅).
Proof. intros HK. unfold put. rewrite decide_True by done. by apply keys_delete. Qed.

Lemma sremCommand_ok s D k vals : keys_ok obj_ok (keys s) D → set_fits (SREM k vals) D = true →
  refines_set s (srem_spec D k vals) (sremCommand hash cr junk s k vals).
Proof.
  intros HK Hfit%Z.ltb_lt. unfold srem_spec, sremCommand, size_at in *.
  apply (with_set_ok s D k _ (λ set, '(set, deleted, keyremoved) ← srem_loop hash cr junk set vals 0; _) HK).
  intros o X Ek ED Ho Hne. rewrite ED in Hfit. destruct (srem_loop_ok vals o X 0 Ho Hne Hfit) as (o' & -> & Ho'). cbn [mbind option_bind].
  set (Y := X ∖ list_to_set vals) in *. rewrite Z.add_0_l. set (n := zsize X - zsize Y).
  destruct (zsize_diff X (list_to_set vals)) as [Hle Heq]. fold Y in Hle, Heq.
  assert (keys_ok obj_ok (if bool_decide (Y = ∅) then delete k (keys s) else <[k := o']> (keys s)) (put D k Y)) as HK'.
  { destruct (decide (Y = ∅)) as [E|E].
    - rewrite bool_decide_true, E by done. by apply put_empty.
    - rewrite bool_decide_false by done. by apply put_set. }
  destruct (Z.ltb_spec 0 n) as [Hn|Hn].
  - destruct (decide (Y = ∅)) as [E|E]; [rewrite bool_decide_true in * by done|rewrite bool_decide_false in * by done];
      (eexists _, [RLong n]; split; [done|]; simpl; rewrite <- ?app_assoc; by split_and!).
  - assert (Y = X) as EY by (apply Heq; unfold n in Hn; lia). rewrite bool_decide_false in * by (rewrite EY; done).
    eexists _, [RLong n]. split; [done|]. simpl. rewrite app_nil_r. split_and!; try done. unfold n in *. lia.
Qed.

Lemma sismemberCommand_ok s D k ele : keys_ok obj_ok (keys s) D →
  refines_set s (set_spec (SISMEMBER k ele) D) (sismemberCommand hash s k ele).
Proof.
  intros HK. unfold sismemberCommand, set_spec.
  apply (with_set_ok s D k _ (λ set, '(set, b) ← setTypeIsMember hash set ele; _) HK). intros o X Ek ED Ho Hne.
  destruct (setTypeIsMember_ok hash Hhash max Hmax o X ele Ho) as (o' & -> & Ho'). cbn [mbind option_bind].
  eexists _, [_]. split; [done|]. simpl. rewrite app_nil_r. split_and!; try done; [by eapply keys_same|lia|].
  destruct (decide (ele ∈ X)); [by rewrite bool_decide_true|by rewrite bool_decide_false].
Qed.

Lemma scardCommand_ok s D k : keys_ok obj_ok (keys s) D →
  refines_set s (set_spec (SCARD k) D) (scardCommand s k).
Proof.
  intros HK. unfold scardCommand, set_spec. apply (with_set_ok s D k _ (λ set, n ← setTypeSize set; _) HK). intros o X Ek ED Ho Hne.
  rewrite (setTypeSize_ok hash max o X Ho). by apply sanswer_ok.
Qed.

(** SMOVE between two keys, when both are sets or the destination is missing. *)
Lemma smove_between s D src dst ele o X od Y : keys_ok obj_ok (keys s) D → src ≠ dst →
  D !! src = Some (Some X) → set_ok o X → X ≠ ∅ → zsize X < 2 ^ 31 →
  set_ok od Y → zsize Y < 2 ^ 31 →
  refines_set s
    (if decide (ele ∈ X) then
       let X' := X ∖ {[ele]} in
       SOut (<[dst := Some ({[ele]} ∪ Y)]> (put D src X')) (if decide (ele ∈ Y) then 1 else 2)
         ([NotifySet "srem" src] ++ (if decide (X' = ∅) then [NotifyGeneric "del" src] else []) ++
          [SignalModified src; SignalModified dst] ++ (if decide (ele ∈ Y) then [] else [NotifySet "sadd" dst]))
         (AOne (RLong 1))
     else sanswer D (RLong 0))
    ('(srcset, removed) ← setTypeRemove hash cr junk o ele;
     let s := set_key s src srcset in
     if negb removed then Some (addReply s (RLong 0)) else
     let s := log s (NotifySet "srem" src) in
     size ← setTypeSize srcset;
     let s := if size =? 0 then log (dbDelete s src) (NotifyGeneric "del" src) else s in
     let s := add_dirty (log (log s (SignalModified src)) (SignalModified dst)) 1 in
     '(dstset, added) ← setTypeAdd hash cr junk addr max od ele;
     let s := set_key s dst dstset in
     let s := if added : bool then log (add_dirty s 1) (NotifySet "sadd" dst) else s in
     Some (addReply s (RLong 1))).
Proof.
  intros HK Hsd ED Ho Hne Hx Hod Hy.
  destruct (setTypeRemove_ok hash Hhash cr junk Hjunk max Hmax o X ele Ho Hx) as (o' & -> & Ho'). cbn [mbind option_bind].
  destruct (decide (ele ∈ X)) as [Hin|Hni].
  2: { rewrite bool_decide_false by done. eexists _, [_]. split; [done|]. simpl. rewrite app_nil_r. split_and!; try done; [|lia].
       eapply keys_same; [done|done|]. split; [|done]. by replace (X ∖ {[ele]}) with X in Ho' by set_solver. }
  rewrite bool_decide_true by done. cbn [negb]. rewrite (setTypeSize_ok hash max o' _ Ho'). cbn [mbind option_bind].
  destruct (setTypeAdd_ok hash Hhash cr junk Hjunk addr max Hmax od Y ele Hod Hy) as (od' & -> & Hod'). cbn [mbind option_bind].
  set (X' := X ∖ {[ele]}) in *. set (Y' := {[ele]} ∪ Y) in *.
  assert (keys_ok obj_ok (<[dst := od']> (if Z.of_nat (base.size X') =? 0 then delete src (<[src := o']> (keys s)) else <[src := o']> (keys s)))
    (<[dst := Some Y']> (put D src X'))) as HK'.
  { apply keys_insert; [|split; [done|unfold Y'; set_solver]]. destruct (Z.eqb_spec (Z.of_nat (base.size X')) 0) as [E|E].
    - assert (X' = ∅) as -> by (apply leibniz_equiv, size_empty_iff; lia). rewrite delete_insert_eq. by apply put_empty.
    - apply put_set; [done|done|]. intros ->. rewrite size_empty in E. lia. }
  assert ((Z.of_nat (base.size X') =? 0) = bool_decide (X' = ∅)) as Esz.
  { destruct (Z.eqb_spec (Z.of_nat (base.size X')) 0) as [E|E]; symmetry.
    - apply bool_decide_eq_true, leibniz_equiv, size_empty_iff. lia.
    - apply bool_decide_eq_false. intros ->. rewrite size_empty in E. lia. }
  rewrite Esz in *. destruct (decide (X' = ∅)) as [E|E]; [rewrite (bool_decide_true (X' = ∅)) in * by done|rewrite (bool_decide_false (X' = ∅)) in * by done];
    (destruct (decide (ele ∈ Y)) as [Hy'|Hy']; [rewrite bool_decide_false by auto|rewrite bool_decide_true by done]);
    (eexists _, [_]; split; [done|]; simpl; rewrite <- ?app_assoc; split_and!; (done || lia)).
Qed.

Lemma smoveCommand_ok s D src dst ele : keys_ok obj_ok (keys s) D → set_fits (SMOVE src dst ele) D = true →
  refines_set s (smove_spec D src dst ele) (smoveCommand hash cr junk addr max s src dst ele).
Proof.
  intros HK Hfit%Z.ltb_lt. unfold smove_spec, smoveCommand, with_set, size_at in *.
  destruct (keys_cases obj_ok _ _ src HK) as [[E1 E2]|(o & a & E1 & E2 & Ho)]; rewrite E1, E2 in *; [by apply sanswer_ok|].
  destruct a as [X|]; simpl in Ho; [|subst o; by apply sanswer_ok]. destruct Ho as [Ho Hne].
  assert (0 ≤ zsize X) by (unfold zsize; lia).
  assert (∀ s' b, setTypeIsMember hash o ele = Some (s', b) → src = dst →
    refines_set s (sanswer D (RLong (if decide (ele ∈ X) then 1 else 0))) (Some (addReply (set_key s src s') (RLong (if b : bool then 1 else 0))))) as Hself.
  { intros s' b Em _. destruct (setTypeIsMember_ok hash Hhash max Hmax o X ele Ho) as (o' & Em' & Ho'). rewrite Em in Em'. injection Em' as -> ->.
    eexists _, [_]. split; [done|]. simpl. rewrite app_nil_r. split_and!; try done; [by eapply keys_same|lia|].
    destruct (decide (ele ∈ X)); [by rewrite bool_decide_true|by rewrite bool_decide_false]. }
  destruct (setTypeIsMember_ok hash Hhash max Hmax o X ele Ho) as (om & Em & _).
  destruct (keys_cases obj_ok _ _ dst HK) as [[F1 F2]|(od & ad & F1 & F2 & Hod)]; rewrite F1, F2 in *.
  - cbn match in Hfit. pose proof (λ Hsd, smove_between s D src dst ele o X (setTypeCreate ele) ∅ HK Hsd E2 Ho Hne ltac:(lia) (create_ok hash max Hmax ele) ltac:(done)) as Hgo.
    destruct o as [is_|d|]; [| |done]; (destruct (decide (src = dst)) as [Es|Es]; [rewrite Em; cbn [mbind option_bind]; by apply Hself|by apply Hgo]).
  - destruct ad as [Y|]; simpl in Hod; [|subst od; destruct o as [is_|d|]; [by apply sanswer_ok|by apply sanswer_ok|done]].
    destruct Hod as [Hod HneY]. assert (0 ≤ zsize Y) by (unfold zsize; lia). cbn match in Hfit.
    pose proof (λ Hsd, smove_between s D src dst ele o X od Y HK Hsd E2 Ho Hne ltac:(lia) Hod ltac:(lia)) as Hgo.
    destruct o as [is_|d|]; [| |done]; (destruct od as [is2|d2|]; [| |done]);
      (destruct (decide (src = dst)) as [Es|Es]; [rewrite Em; cbn [mbind option_bind]; by apply Hself|by apply Hgo]).
Qed.
End commands.
