(* ===== verification/TSetSpec.v ===== *)
(** * t_set.c: the commands refine operations on finite sets

    Intersection, union and difference are loops over sets that look elements up
    in other sets of the keyspace, or build a set of their own; each loop is
    proved with an invariant over the elements seen so far.  All the commands
    together then refine their specification on finite sets. *)

From stdpp Require Import strings.
From S2P Require Import Prelude Decimal Util Dict DictIter MapApi Intset SdsText Keyspace TSet TSetRep TSetCmd.

(** ** Loops with an invariant *)

Section loops.
Context (hash : list Z → Z) (Hhash : ∀ k, in_u 64 (hash k)) (cr : bool) (junk : Z) (Hjunk : byte_ok junk).
Context (addr : nat → Z) (max : Z) (Hmax : 0 ≤ max < MAX_INTSET).

Abbreviation set_ok := (TSetRep.set_ok hash max).
Abbreviation obj_ok := (obj_ok hash max).

(** The element [e] is the string [x]. *)
Definition elem_ok (e : setele) (x : bytes) : Prop :=
  element_sds junk e = Some x ∧ match e with ELl v => in_s 64 v ∧ x = decimal_z v | ESds s => s = x end.

Lemma run_body_inv {S} (body : setele → S → option S) (I : list bytes → S → Prop) es l2 :
  Forall2 elem_ok es l2 → ∀ l1 s, NoDup (l1 ++ l2) → I l1 s →
  (∀ l1' x e s, l1' ++ [x] `prefix_of` l1 ++ l2 → x ∉ l1' → elem_ok e x → I l1' s →
     ∃ s', body e s = Some s' ∧ I (l1' ++ [x]) s') →
  ∃ s', run_body body es s = Some s' ∧ I (l1 ++ l2) s'.
Proof.
  induction 1 as [|e x es l2 He Hes IH]; intros l1 s Hnd HI Hstep; cbn [run_body].
  { exists s. by rewrite app_nil_r. }
  assert (x ∉ l1) as Hx. { apply NoDup_app in Hnd as (_ & Hd & _). intros Hx. apply (Hd x Hx). by left. }
  rewrite (app_assoc l1 [x] l2 : l1 ++ x :: l2 = _) in *.
  destruct (Hstep l1 x e s) as (s' & -> & HI'); [by apply prefix_app_r|done|done|done|]. cbn [mbind option_bind].
  by apply IH.
Qed.

Lemma iterate_inv {S} (get : S → option sobj) o X body s (I : list bytes → S → Prop) :
  set_ok o X → get s = Some o → keeps get o body → I [] s →
  (∀ l x e s, x ∈ X → x ∉ l → (length l < base.size X)%nat → elem_ok e x → I l s →
     ∃ s', body e s = Some s' ∧ I (l ++ [x]) s') →
  ∃ l s', NoDup l ∧ list_to_set l = X ∧ set_iterate addr get body s = Some s' ∧ I l s'.
Proof.
  intros Ho Hg Hk HI Hstep. destruct (set_iterate_ok hash junk addr max get o X body s Ho Hg Hk) as (es & (l & Hnd & HX & Hall) & ->).
  destruct (run_body_inv body I es l Hall [] s Hnd HI) as (s' & Hrun & HI').
  - intros l1 x e s1 [l2 Hl] Hx He HI1. simpl in Hl. apply Hstep; try done.
    + rewrite <- HX, elem_of_list_to_set, Hl, !elem_of_app. left; right. by left.
    + rewrite <- HX, (size_list_to_set l Hnd), Hl, !length_app. simpl. lia.
  - by exists l, s'.
Qed.

(** ** Intersection *)

Definition set_at (D : db) (k : bytes) : gset bytes := match D !! k with Some (Some X) => X | _ => ∅ end.
Definition are_sets (D : db) (ks : list bytes) : Prop := ∀ k, k ∈ ks → ∃ X, D !! k = Some (Some X).

Lemma size_at_set D k : size_at D k = zsize (set_at D k).
Proof. unfold size_at, set_at. by destruct (D !! k) as [[X|]|]. Qed.

Lemma at_key K D k : keys_ok obj_ok K D → (∃ X, D !! k = Some (Some X)) →
  ∃ o, K !! k = Some o ∧ set_ok o (set_at D k) ∧ set_at D k ≠ ∅ ∧ D !! k = Some (Some (set_at D k)).
Proof.
  intros HK [X HD]. unfold set_at. rewrite HD. destruct (keys_cases obj_ok _ _ k HK) as [[_ E]|(o & a & E1 & E2 & Ho)]; [congruence|].
  rewrite HD in E2. injection E2 as <-. destruct Ho as [Ho Hne]. by exists o.
Qed.

(** The test of one element in one set. *)
Lemma elem_member o X e x : set_ok o X → elem_ok e x →
  ∃ o', match e, o with
        | ELl v, SIntset is_ => b ← intsetFind is_ v; Some (o, b)
        | ELl v, _ => elesds ← ll_bytes junk v; setTypeIsMember hash o elesds
        | ESds s, _ => setTypeIsMember hash o s
        end = Some (o', bool_decide (x ∈ X)) ∧ set_ok o' X.
Proof.
  intros Ho [He Hx]. pose proof (setTypeIsMember_ok hash Hhash max Hmax o X x Ho) as Hm. destruct e as [s|v]; [by subst s|].
  destruct Hx as [Hv ->]. simpl in He. destruct o as [is_|d|]; [|by rewrite He|done].
  pose proof Ho as (vs & Hr & _ & HX). rewrite (intset_find is_ vs v Hr Hv). cbn [mbind option_bind]. exists (SIntset is_). split; [|done].
  do 2 f_equal. apply bool_decide_ext. rewrite <- HX, (ints_member max Hmax vs _ v); [done|by eapply repr_in_s|by apply string2ll_spec].
Qed.

Definition in_sets (D : db) (x : bytes) (ks : list bytes) : bool := forallb (λ k, bool_decide (x ∈ set_at D k)) ks.

Lemma in_all_ok e x first D : elem_ok e x → x ∈ set_at D first → ∀ others s, keys_ok obj_ok (keys s) D → are_sets D others →
  ∃ K, in_all hash junk s e first others = Some (with_keys s K, in_sets D x others) ∧ keys_ok obj_ok K D.
Proof.
  intros He Hx. induction others as [|k others IH]; intros s HK Hsets; cbn [in_all in_sets forallb].
  { exists (keys s). split; [by destruct s|done]. }
  assert (are_sets D others) as Hsets' by (intros k' ?; apply Hsets; by right).
  destruct (decide (k = first)) as [->|Hne].
  { rewrite bool_decide_true by done. by apply IH. }
  destruct (at_key _ _ k HK) as (o & Ek & Ho & Hne' & HD); [apply Hsets; by left|]. rewrite Ek. cbn [mbind option_bind].
  destruct (elem_member o _ e x Ho He) as (o' & -> & Ho'). cbn [mbind option_bind].
  assert (keys_ok obj_ok (<[k := o']> (keys s)) D) as HK' by (by eapply keys_same).
  destruct (decide (x ∈ set_at D k)) as [Hin|Hni].
  - rewrite bool_decide_true by done. destruct (IH (set_key s k o') HK' Hsets') as (K & -> & HK2). by exists K.
  - rewrite bool_decide_false by done. by exists (<[k := o']> (keys s)).
Qed.

Lemma in_all_keeps e first others : ∀ s s' b, in_all hash junk s e first others = Some (s', b) → keys s' !! first = keys s !! first.
Proof.
  induction others as [|k others IH]; intros s s' b; cbn [in_all]; [by intros [= <- _]|].
  destruct (decide (k = first)) as [->|Hne]; [apply IH|]. intros (o & _ & H)%bind_Some. apply bind_Some in H as ([o' b'] & _ & H).
  destruct b'; [apply IH in H; rewrite H|injection H as <- _]; simpl; by rewrite lookup_insert_ne.
Qed.

(** The elements of [l] that are in all the others are kept: sent, or stored. *)
Definition kept (D : db) (others l : list bytes) : list bytes := filter (λ x, in_sets D x others = true) l.

Definition inter_inv (dstkey : option bytes) (D : db) (s : sserver) (others l : list bytes) (a : acc) : Prop :=
  ∃ K, a_s a = with_keys s K ∧ keys_ok obj_ok K D ∧
    match dstkey with
    | None => a_out a = RBulk <$> kept D others l ∧ a_card a = Z.of_nat (length (kept D others l))
    | Some _ => set_ok (a_dst a) (list_to_set (kept D others l))
    end.

Lemma kept_snoc D others l x : kept D others (l ++ [x]) = kept D others l ++ (if in_sets D x others then [x] else []).
Proof. unfold kept. rewrite filter_app. f_equal. rewrite filter_cons, filter_nil. by destruct (in_sets D x others). Qed.

Lemma kept_size D others l : (base.size (list_to_set (kept D others l) : gset bytes) ≤ length l)%nat.
Proof. etrans; [apply size_list_to_set_le|]. apply length_filter. Qed.

Lemma sinter_element_ok dstkey D s first others l x e a : x ∈ set_at D first → are_sets D others →
  Z.of_nat (length l) < 2 ^ 31 → elem_ok e x → inter_inv dstkey D s others l a →
  ∃ a', sinter_element hash cr junk addr max dstkey first others e a = Some a' ∧ inter_inv dstkey D s others (l ++ [x]) a'.
Proof.
  intros Hx Hsets Hlen He (K & Ea & HK & Hinv). unfold sinter_element, inter_inv. rewrite Ea, kept_snoc.
  destruct (in_all_ok e x first D He Hx others (with_keys s K) HK Hsets) as (K' & -> & HK'). cbn [mbind option_bind].
  destruct (in_sets D x others); rewrite ?app_nil_r; [|by eexists; split; [done|]; exists K'].
  destruct dstkey as [dst|].
  - destruct He as [-> _]. cbn [mbind option_bind]. pose proof (kept_size D others l).
    destruct (setTypeAdd_ok hash Hhash cr junk Hjunk addr max Hmax _ _ x Hinv) as (o' & -> & Ho'); [lia|]. cbn [mbind option_bind].
    eexists. split; [done|]. exists K'. split; [done|]. split; [done|]. simpl. by rewrite list_to_set_app_L, list_to_set_singleton_L, (comm_L (∪)).
  - assert (match e with ESds elesds => Some (RBulk elesds) | ELl intobj => bulk_ll junk intobj end = Some (RBulk x)) as ->.
    { destruct He as [_ He]. destruct e as [y|v]; [by subst y|]. destruct He as [Hv ->]. by rewrite bulk_ll_ok. }
    cbn [mbind option_bind]. eexists. split; [done|]. exists K'. split; [done|]. split; [done|]. simpl. destruct Hinv as [-> ->].
    rewrite fmap_app, length_app. simpl. split; [done|lia].
Qed.

Lemma sinter_element_keeps dstkey first others o :
  keeps (λ a, keys (a_s a) !! first) o (sinter_element hash cr junk addr max dstkey first others).
Proof.
  intros e a a' Hg. unfold sinter_element. intros ([s b] & Hin & H)%bind_Some. apply in_all_keeps in Hin. rewrite Hg in Hin. cbn match in H.
  destruct b; [|by injection H as <-]. destruct dstkey as [dst|].
  - apply bind_Some in H as (y & _ & H). apply bind_Some in H as ([o' b] & _ & H). by injection H as <-.
  - apply bind_Some in H as (y & _ & H). by injection H as <-.
Qed.

(** *** The keys *)

Lemma sizes_cons D k ks : sizes D (k :: ks) = size_at D k + 1 + sizes D ks.
Proof. done. Qed.

Lemma sizes_nonneg D ks : 0 ≤ sizes D ks.
Proof. induction ks as [|k ks IH]; [done|]. rewrite sizes_cons, size_at_set. unfold zsize. lia. Qed.

Lemma sizes_at D k ks : k ∈ ks → zsize (set_at D k) < sizes D ks.
Proof.
  induction ks as [|k' ks IH]; [by intros ?%elem_of_nil|]. rewrite sizes_cons, size_at_set. pose proof (sizes_nonneg D ks).
  intros [-> |Hin%IH]%elem_of_cons; unfold zsize in *; lia.
Qed.

Lemma sinter_lookup_ok s D dstkey ks : keys_ok obj_ok (keys s) D →
  match look_sets D ks with
  | LSets l => sinter_lookup s ks dstkey = None ∧ are_sets D ks ∧ l = set_at D <$> ks
  | LWrong => sinter_lookup s ks dstkey = Some (addReply s RWrongType)
  | LMissing =>
      sinter_lookup s ks dstkey = Some
        match dstkey with
        | Some dst => addReply (if decide (is_Some (keys s !! dst)) then add_dirty (log (dbDelete s dst) (SignalModified dst)) 1 else s) (RLong 0)
        | None => addReply s REmptyMulti
        end
  end.
Proof.
  intros HK. induction ks as [|k ks IH]; cbn [look_sets sinter_lookup].
  { split; [done|]. split; [|done]. by intros k ?%elem_of_nil. }
  destruct (keys_cases obj_ok _ _ k HK) as [[E1 E2]|(o & a & E1 & E2 & Ho)]; rewrite E1, E2; [by destruct dstkey|].
  destruct a as [X|]; simpl in Ho; [|by subst o]. destruct Ho as [Ho _].
  assert (∀ A (x y : A), match o with NotSet => x | _ => y end = y) as Hset by (intros; by destruct o). rewrite Hset.
  destruct (look_sets D ks) as [| |l]; try done. destruct IH as (-> & Hs & ->). split; [done|]. split.
  - intros k' [-> | Hk']%elem_of_cons; [by exists X|by apply Hs].
  - unfold set_at at 2. simpl. unfold set_at at 1. by rewrite E2.
Qed.

Lemma elem_of_inter_list l x : x ∈ inter_list l ↔ l ≠ [] ∧ ∀ X, X ∈ l → x ∈ X.
Proof.
  destruct l as [|X l]; simpl; [set_solver|]. split.
  - intros H. split; [done|]. revert H. induction l as [|Y l IH]; simpl; [set_solver|]. rewrite elem_of_intersection. intros [Hy Hf] Z.
    specialize (IH Hf). rewrite !elem_of_cons. intros [-> |[-> |Hz]]; [apply IH; by left|done|]. apply IH. by right.
  - intros [_ H]. induction l as [|Y l IH]; simpl; [apply H; by left|]. apply elem_of_intersection. split; [apply H; right; by left|].
    apply IH. intros Z [-> |Hz]%elem_of_cons; apply H; [by left|by do 2 right].
Qed.

Lemma in_sets_true D x ks : in_sets D x ks = true ↔ ∀ k, k ∈ ks → x ∈ set_at D k.
Proof.
  unfold in_sets. rewrite forallb_forall. setoid_rewrite <- list_elem_of_In. split; intros H k Hk.
  - apply (bool_decide_eq_true (x ∈ set_at D k)). by apply H.
  - apply (bool_decide_eq_true (x ∈ set_at D k)). by apply H.
Qed.

Lemma kept_inter D first others ks l : ks ≡ₚ first :: others → list_to_set l = set_at D first →
  list_to_set (kept D others l) = inter_list (set_at D <$> ks).
Proof.
  intros Hp Hl. apply set_eq. intros x. unfold kept. rewrite elem_of_list_to_set, list_elem_of_filter, in_sets_true, elem_of_inter_list.
  rewrite <- (elem_of_list_to_set (C := gset bytes)), Hl. assert (∀ k, k ∈ ks ↔ k ∈ first :: others) as Hin by (intros k; by rewrite Hp). split.
  - intros [Ho Hx]. split; [by destruct ks as [|]; [apply Permutation_nil_l in Hp|]|].
    intros X (k & -> & [-> |Hk]%Hin%elem_of_cons)%list_elem_of_fmap; [done|by apply Ho].
  - intros [_ H]. split; [intros k Hk|]; apply H, list_elem_of_fmap_2, Hin; [by right|by left].
Qed.

(** *** The results *)

Lemma keys_is_Some K D k : keys_ok obj_ok K D → (is_Some (K !! k) ↔ is_Some (D !! k)).
Proof.
  intros HK. destruct (keys_cases obj_ok _ _ k HK) as [[-> ->]|(o & a & -> & -> & _)]; [done|]. split; eauto.
Qed.

Lemma store_result_ok s K D dst o Y name : keys_ok obj_ok K D → set_ok o Y →
  refines_set hash max s (store_spec D dst Y name) (store_result (with_keys s K) dst o name).
Proof.
  intros HK Ho. unfold store_result, store_spec. rewrite (setTypeSize_ok hash max o Y Ho). cbn [mbind option_bind].
  fold (zsize Y). rewrite zsize_zero. pose proof (keys_is_Some K D dst HK) as Hd. destruct (decide (Y = ∅)) as [-> |Hne].
  - rewrite (bool_decide_true (∅ = ∅)) by done. cbn [negb]. simpl (keys (with_keys s K)).
    assert (keys_ok obj_ok (delete dst K) (put D dst ∅)) as HK' by (by apply put_empty).
    destruct (decide (is_Some (D !! dst))) as [Hs|Hn].
    + rewrite bool_decide_true by tauto. eexists _, [RLong 0]. split; [done|]. simpl. rewrite <- app_assoc. by split_and!.
    + rewrite bool_decide_false by tauto. eexists _, [RLong 0]. split; [done|]. simpl. by split_and!.
  - rewrite (bool_decide_false (Y = ∅)) by done. cbn [negb]. eexists _, [RLong (zsize Y)]. split; [done|]. simpl. rewrite <- app_assoc, insert_delete_eq.
    split_and!; try done. by apply put_set.
Qed.

Context (qsort : ∀ A, (A → A → Z) → list A → list A) (Hqsort : ∀ A cmp (l : list A), qsort A cmp l ≡ₚ l).

Lemma sinterGeneric_ok s D ks dstkey : keys_ok obj_ok (keys s) D → 0 < Z.of_nat (length ks) → sizes D ks < 2 ^ 31 →
  refines_set hash max s (match dstkey with None => sinter_spec D ks | Some dst => sinterstore_spec D dst ks end)
    (sinterGenericCommand hash cr junk addr max qsort s ks dstkey).
Proof.
  intros HK Hks Hsize. unfold sinterGenericCommand, sinter_spec, sinterstore_spec. pose proof (sinter_lookup_ok s D dstkey ks HK) as Hlook.
  destruct (look_sets D ks) as [| |ls].
  - rewrite Hlook. destruct dstkey as [dst|]; [|by apply sanswer_ok]. pose proof (keys_is_Some _ D dst HK) as Hd.
    destruct (decide (is_Some (D !! dst))) as [Hs|Hn]; [rewrite decide_True by tauto|rewrite decide_False by tauto; by apply sanswer_ok].
    eexists _, [RLong 0]. split; [done|]. simpl. split_and!; try done. by apply keys_delete.
  - rewrite Hlook. destruct dstkey; by apply sanswer_ok.
  - destruct Hlook as (-> & Hsets & ->). set (l0 := qsort _ _ ks). assert (ks ≡ₚ l0) as Hp by (symmetry; apply Hqsort).
    destruct l0 as [|first others]; [apply Permutation_length in Hp; simpl in *; lia|].
    assert (first ∈ ks) as Hf by (rewrite Hp; by left).
    assert (are_sets D others) as Hso by (intros k Hk; apply Hsets; rewrite Hp; by right).
    destruct (at_key _ _ first HK (Hsets first Hf)) as (o & Eo & Ho & _ & _). pose proof (sizes_at D first ks Hf) as Hsz. unfold zsize in Hsz.
    destruct (iterate_inv (λ a, keys (a_s a) !! first) o (set_at D first) (sinter_element hash cr junk addr max dstkey first others)
      (Acc s (SIntset intsetNew) [] 0) (inter_inv dstkey D s others) Ho Eo) as (l & a & Hnd & Hl & -> & K & Ea & HK' & Hinv).
    + apply sinter_element_keeps.
    + exists (keys s). split; [by destruct s|]. split; [done|]. destruct dstkey; [by apply intset_create|done].
    + intros l x e a Hx _ Hlen He Hinv. apply sinter_element_ok; try done. lia.
    + cbn [mbind option_bind]. rewrite Ea. pose proof (kept_inter D first others ks l Hp Hl) as Hk. destruct dstkey as [dst|].
      * apply store_result_ok; [done|]. by rewrite <- Hk.
      * destruct Hinv as [-> ->]. assert (NoDup (kept D others l)) as Hndk by (by apply NoDup_filter).
        eexists _, _. split; [done|]. simpl. rewrite app_nil_r. split_and!; try done; [lia|]. rewrite <- Hk. exists (kept D others l). split.
        -- by rewrite (elements_list_to_set (C := gset bytes)).
        -- by rewrite (size_list_to_set (C := gset bytes)).
Qed.

(** ** Union and difference *)

(** The set of an entry of the array [sets]: [NULL] is empty. *)
Definition oset (D : db) (o : option bytes) : gset bytes := match o with Some k => set_at D k | None => ∅ end.
Definition osets_ok (D : db) (sets : list (option bytes)) : Prop := ∀ k, Some k ∈ sets → ∃ X, D !! k = Some (Some X).
Definition total (D : db) (sets : list (option bytes)) : Z := foldr (λ o n, zsize (oset D o) + n) 0 sets.

Lemma osets_ok_cons D o sets : osets_ok D (o :: sets) → osets_ok D sets.
Proof. intros H k Hk. apply H. by right. Qed.

Lemma total_cons D o sets : total D (o :: sets) = zsize (oset D o) + total D sets.
Proof. done. Qed.

Lemma card_total_nonneg D sets : 0 ≤ total D sets.
Proof. induction sets as [|o sets IH]; [done|]. rewrite total_cons. unfold zsize. lia. Qed.

Lemma sunion_lookup_ok s D ks : keys_ok obj_ok (keys s) D →
  match look_all D ks with
  | None => sunion_lookup s ks = None
  | Some l => ∃ sets, sunion_lookup s ks = Some sets ∧ l = oset D <$> sets ∧ osets_ok D sets ∧ total D sets ≤ sizes D ks
  end.
Proof.
  intros HK. induction ks as [|k ks IH]; cbn [look_all sunion_lookup].
  { exists []. split_and!; try done. by intros k ?%elem_of_nil. }
  destruct (keys_cases obj_ok _ _ k HK) as [[E1 E2]|(o & a & E1 & E2 & Ho)]; rewrite E1, E2.
  - destruct (look_all D ks) as [l|]; cbn [mbind option_bind]; [|by rewrite IH]. destruct IH as (sets & -> & -> & Hs & Ht). exists (None :: sets).
    rewrite total_cons, sizes_cons, size_at_set. simpl. split_and!; try done; [|unfold zsize; rewrite size_empty; lia].
    intros k' [?|Hk']%elem_of_cons; [done|by apply Hs].
  - destruct a as [X|]; simpl in Ho; [|by subst o]. destruct Ho as [Ho _].
    assert (∀ A (x y : A), match o with NotSet => x | _ => y end = y) as Hset by (intros; by destruct o). rewrite Hset.
    destruct (look_all D ks) as [l|]; cbn [mbind option_bind]; [|by rewrite IH]. destruct IH as (sets & -> & -> & Hs & Ht). exists (Some k :: sets).
    rewrite total_cons, sizes_cons, size_at_set. simpl. split_and!; try done; [by unfold set_at; rewrite E2| |lia].
    intros k' [[= ->]|Hk']%elem_of_cons; [by exists X|by apply Hs].
Qed.

(** The loops build a set and count its elements; lookups may move the tables of
    the keyspace along. *)
Definition built (s : sserver) (D : db) (Y : gset bytes) (a : acc) : Prop :=
  ∃ K, a_s a = with_keys s K ∧ keys_ok obj_ok K D ∧ set_ok (a_dst a) Y ∧ a_card a = zsize Y.

Lemma add_element_ok s D Y e x a : built s D Y a → elem_ok e x → zsize Y < 2 ^ 31 →
  ∃ a', add_element hash cr junk addr max e a = Some a' ∧ built s D ({[x]} ∪ Y) a'.
Proof.
  intros (K & Ea & HK & Ho & Hc) [He _] Hy. unfold add_element. rewrite He. cbn [mbind option_bind].
  destruct (setTypeAdd_ok hash Hhash cr junk Hjunk addr max Hmax _ Y x Ho Hy) as (o' & -> & Ho'). cbn [mbind option_bind].
  eexists. split; [done|]. exists K. split; [done|]. split; [done|]. split; [done|]. simpl. rewrite zsize_add, Hc.
  destruct (decide (x ∈ Y)); [by rewrite bool_decide_false by auto|by rewrite bool_decide_true].
Qed.

Lemma remove_element_ok s D Y e x a : built s D Y a → elem_ok e x → zsize Y < 2 ^ 31 →
  ∃ a', remove_element hash cr junk e a = Some a' ∧ built s D (Y ∖ {[x]}) a'.
Proof.
  intros (K & Ea & HK & Ho & Hc) [He _] Hy. unfold remove_element. rewrite He. cbn [mbind option_bind].
  destruct (setTypeRemove_ok hash Hhash cr junk Hjunk max Hmax _ Y x Ho Hy) as (o' & -> & Ho'). cbn [mbind option_bind].
  eexists. split; [done|]. exists K. split; [done|]. split; [done|]. split; [done|]. simpl. rewrite zsize_remove, Hc.
  destruct (decide (x ∈ Y)); [by rewrite bool_decide_true|by rewrite bool_decide_false].
Qed.

(** A loop over the set at [k], whose body builds [f l] from the elements [l]. *)
Lemma each_of_ok s D k body f a : built s D (f []) a → (∃ X, D !! k = Some (Some X)) →
  (∀ o, keeps (λ a, keys (a_s a) !! k) o body) →
  (∀ l x e a, x ∈ set_at D k → x ∉ l → (length l < base.size (set_at D k))%nat → elem_ok e x → built s D (f l) a →
     ∃ a', body e a = Some a' ∧ built s D (f (l ++ [x])) a') →
  ∃ l a', each_of addr k body a = Some a' ∧ list_to_set l = set_at D k ∧ built s D (f l) a'.
Proof.
  intros Hb Hk Hkeep Hstep. pose proof Hb as (K & Ea & HK & _). destruct (at_key _ _ k HK Hk) as (o & Eo & Ho & _ & _).
  destruct (iterate_inv (λ a, keys (a_s a) !! k) o (set_at D k) body a (λ l, built s D (f l)) Ho) as (l & a' & _ & Hl & Ha' & Hb'); try done.
  - by rewrite Ea.
  - by exists l, a'.
Qed.

Lemma add_keeps k o : keeps (λ a, keys (a_s a) !! k) o (add_element hash cr junk addr max).
Proof.
  intros e a a' Hg. unfold add_element. intros (y & _ & H)%bind_Some. apply bind_Some in H as ([o' b] & _ & H). by injection H as <-.
Qed.

Lemma remove_keeps k o : keeps (λ a, keys (a_s a) !! k) o (remove_element hash cr junk).
Proof.
  intros e a a' Hg. unfold remove_element. intros (y & _ & H)%bind_Some. apply bind_Some in H as ([o' b] & _ & H). by injection H as <-.
Qed.

Lemma add_each_ok s D Y k a : built s D Y a → (∃ X, D !! k = Some (Some X)) → zsize Y + zsize (set_at D k) < 2 ^ 31 →
  ∃ a', each_of addr k (add_element hash cr junk addr max) a = Some a' ∧ built s D (set_at D k ∪ Y) a'.
Proof.
  intros Hb Hk Hsz. destruct (each_of_ok s D k (add_element hash cr junk addr max) (λ l, list_to_set l ∪ Y) a) as (l & a' & E & Hl & Hb').
  - simpl. by rewrite (left_id_L ∅ (∪)).
  - done.
  - apply add_keeps.
  - intros l x e a1 _ _ Hlen He Hb1. destruct (add_element_ok s D _ e x a1 Hb1 He) as (a2 & E2 & Hb2).
    + pose proof (zsize_union_le (list_to_set l) Y). pose proof (size_list_to_set_le l). unfold zsize in *. lia.
    + exists a2. split; [done|]. rewrite list_to_set_app_L, list_to_set_singleton_L, (comm_L (∪) (list_to_set l)), <- (assoc_L (∪)). done.
  - exists a'. split; [done|]. by rewrite <- Hl.
Qed.

Lemma remove_each_ok s D Y k a : built s D Y a → (∃ X, D !! k = Some (Some X)) → zsize Y < 2 ^ 31 →
  ∃ a', each_of addr k (remove_element hash cr junk) a = Some a' ∧ built s D (Y ∖ set_at D k) a'.
Proof.
  intros Hb Hk Hsz. destruct (each_of_ok s D k (remove_element hash cr junk) (λ l, Y ∖ list_to_set l) a) as (l & a' & E & Hl & Hb').
  - simpl. by rewrite difference_empty_L.
  - done.
  - apply remove_keeps.
  - intros l x e a1 _ _ Hlen He Hb1. destruct (remove_element_ok s D _ e x a1 Hb1 He) as (a2 & E2 & Hb2).
    + destruct (zsize_diff Y (list_to_set l)). lia.
    + exists a2. split; [done|]. by rewrite list_to_set_app_L, list_to_set_singleton_L, <- difference_difference_l_L.
  - exists a'. split; [done|]. by rewrite <- Hl.
Qed.

Lemma union_loop_ok s D : ∀ sets Y a, built s D Y a → osets_ok D sets → zsize Y + total D sets < 2 ^ 31 →
  ∃ a', union_loop hash cr junk addr max sets a = Some a' ∧ built s D (Y ∪ ⋃ (oset D <$> sets)) a'.
Proof.
  induction sets as [|[k|] sets IH]; intros Y a Hb Hs Hsz; cbn [union_loop fmap list_fmap union_list oset]; rewrite ?total_cons in Hsz.
  - exists a. simpl. by rewrite (right_id_L ∅ (∪)).
  - pose proof (card_total_nonneg D sets). simpl (oset D (Some k)) in Hsz. destruct (add_each_ok s D Y k a Hb) as (a1 & -> & Hb1); [apply Hs; by left|lia|].
    cbn [mbind option_bind]. destruct (IH _ a1 Hb1 (osets_ok_cons _ _ _ Hs)) as (a2 & E2 & Hb2).
    { pose proof (zsize_union_le (set_at D k) Y). lia. }
    exists a2. split; [done|]. simpl. rewrite (assoc_L (∪)), (comm_L (∪) Y). done.
  - destruct (IH Y a Hb (osets_ok_cons _ _ _ Hs)) as (a2 & E2 & Hb2); [unfold zsize in *; lia|].
    exists a2. split; [done|]. simpl. by rewrite (left_id_L ∅ (∪)).
Qed.

Lemma in_none_ok x first D : x ∈ set_at D first → ∀ others s, keys_ok obj_ok (keys s) D → osets_ok D others →
  ∃ K, in_none hash s x first others = Some (with_keys s K, bool_decide (x ∉ ⋃ (oset D <$> others))) ∧ keys_ok obj_ok K D.
Proof.
  intros Hx. induction others as [|[k|] others IH]; intros s HK Hs; cbn [in_none fmap list_fmap union_list foldr oset].
  { exists (keys s). split; [|done]. rewrite bool_decide_true by set_solver. by destruct s. }
  - destruct (decide (k = first)) as [->|Hne].
    { exists (keys s). split; [|done]. rewrite bool_decide_false by set_solver. by destruct s. }
    destruct (at_key _ _ k HK) as (o & Ek & Ho & Hne' & HD); [apply Hs; by left|]. rewrite Ek. cbn [mbind option_bind].
    destruct (setTypeIsMember_ok hash Hhash max Hmax o _ x Ho) as (o' & -> & Ho'). cbn [mbind option_bind].
    assert (keys_ok obj_ok (<[k := o']> (keys s)) D) as HK' by (by eapply keys_same). destruct (decide (x ∈ set_at D k)) as [Hin|Hni].
    + rewrite (bool_decide_true (x ∈ set_at D k)) by done. exists (<[k := o']> (keys s)). rewrite bool_decide_false by set_solver. done.
    + rewrite (bool_decide_false (x ∈ set_at D k)) by done. destruct (IH (set_key s k o') HK' (osets_ok_cons _ _ _ Hs)) as (K & -> & HK2).
      exists K. split; [|done]. do 2 f_equal. apply bool_decide_ext. set_solver.
  - destruct (IH s HK (osets_ok_cons _ _ _ Hs)) as (K & -> & HK2). exists K. split; [|done]. do 2 f_equal. apply bool_decide_ext. set_solver.
Qed.

Lemma in_none_keeps ele first others : ∀ s s' b, in_none hash s ele first others = Some (s', b) → keys s' !! first = keys s !! first.
Proof.
  induction others as [|[k|] others IH]; intros s s' b; cbn [in_none]; [by intros [= <- _]| |apply IH].
  destruct (decide (k = first)) as [->|Hne]; [by intros [= <- _]|]. intros (o & _ & H)%bind_Some. apply bind_Some in H as ([o' b'] & _ & H).
  destruct b'; [injection H as <- _|apply IH in H; rewrite H]; simpl; by rewrite lookup_insert_ne.
Qed.

Lemma diff_keeps first others o : keeps (λ a, keys (a_s a) !! first) o (diff_element hash cr junk addr max first others).
Proof.
  intros e a a' Hg. unfold diff_element. intros (y & _ & H)%bind_Some. apply bind_Some in H as ([s b] & Hin & H).
  apply in_none_keeps in Hin. rewrite Hg in Hin. destruct b; [|by injection H as <-]. apply bind_Some in H as ([o' b] & _ & H). by injection H as <-.
Qed.

(** The first algorithm: the elements of [first] that no other set has. *)
Lemma diff_one_ok s D first others a : built s D ∅ a → osets_ok D (Some first :: others) → zsize (set_at D first) < 2 ^ 31 →
  ∃ a', each_of addr first (diff_element hash cr junk addr max first others) a = Some a' ∧
    built s D (set_at D first ∖ ⋃ (oset D <$> others)) a'.
Proof.
  intros Hb Hs Hsz. set (U := ⋃ (oset D <$> others)).
  destruct (each_of_ok s D first (diff_element hash cr junk addr max first others) (λ l, list_to_set l ∖ U) a) as (l & a' & E & Hl & Hb').
  - simpl. by replace (∅ ∖ U) with (∅ : gset bytes) by set_solver.
  - apply Hs. by left.
  - apply diff_keeps.
  - intros l x e a1 Hx Hxl Hlen [He _] (K & Ea & HK & Ho & Hc). unfold diff_element. rewrite He, Ea. cbn [mbind option_bind].
    destruct (in_none_ok x first D Hx others (with_keys s K) HK (osets_ok_cons _ _ _ Hs)) as (K' & -> & HK'). cbn [mbind option_bind]. fold U.
    rewrite list_to_set_app_L, list_to_set_singleton_L, difference_union_distr_l_L. destruct (decide (x ∈ U)) as [Hu|Hu].
    + rewrite bool_decide_false by auto. eexists. split; [done|]. exists K'. split; [done|]. split; [done|].
      by replace (list_to_set l ∖ U ∪ {[x]} ∖ U) with (list_to_set l ∖ U) by set_solver.
    + rewrite bool_decide_true by done. destruct (setTypeAdd_ok hash Hhash cr junk Hjunk addr max Hmax _ _ x Ho) as (o' & -> & Ho').
      { destruct (zsize_diff (list_to_set l) U). pose proof (size_list_to_set_le l). unfold zsize in *. lia. }
      cbn [mbind option_bind]. eexists. split; [done|]. exists K'. split; [done|]. split; [done|].
      replace (list_to_set l ∖ U ∪ {[x]} ∖ U) with ({[x]} ∪ list_to_set l ∖ U) by set_solver. split; [done|]. simpl.
      rewrite zsize_add, decide_False by set_solver. lia.
  - exists a'. split; [done|]. by rewrite <- Hl.
Qed.

Lemma diff_remove_ok s D : ∀ sets Y a, built s D Y a → osets_ok D sets → zsize Y < 2 ^ 31 →
  ∃ a', diff_remove_loop hash cr junk addr sets a = Some a' ∧ built s D (Y ∖ ⋃ (oset D <$> sets)) a'.
Proof.
  induction sets as [|[k|] sets IH]; intros Y a Hb Hs Hsz; cbn [diff_remove_loop fmap list_fmap union_list foldr oset].
  - exists a. by rewrite difference_empty_L.
  - destruct (remove_each_ok s D Y k a Hb) as (a1 & -> & Hb1); [apply Hs; by left|done|]. cbn [mbind option_bind].
    destruct (Z.eqb_spec (a_card a1) 0) as [E|E].
    + exists a1. split; [done|]. destruct Hb1 as (K & ? & ? & ? & Hc). assert (Y ∖ set_at D k = ∅) as Ee.
      { apply leibniz_equiv, size_empty_iff. unfold zsize in Hc. lia. }
      exists K. by replace (Y ∖ (set_at D k ∪ ⋃ (oset D <$> sets))) with (Y ∖ set_at D k) by set_solver.
    + destruct (IH _ a1 Hb1 (osets_ok_cons _ _ _ Hs)) as (a2 & E2 & Hb2); [destruct (zsize_diff Y (set_at D k)); lia|].
      exists a2. split; [done|]. by rewrite <- difference_difference_l_L.
  - destruct (IH Y a Hb (osets_ok_cons _ _ _ Hs) Hsz) as (a2 & E2 & Hb2). exists a2. split; [done|]. by rewrite (left_id_L ∅ (∪)).
Qed.

Lemma union_list_perm (l l' : list (gset bytes)) : l ≡ₚ l' → ⋃ l = ⋃ l'.
Proof. intros Hp. apply set_eq. intros x. rewrite !elem_of_union_list. by setoid_rewrite Hp. Qed.

Lemma diff_plan_ok s first others : ∃ algo others', diff_plan qsort s (Some first :: others) = (algo, Some first :: others') ∧ others' ≡ₚ others.
Proof.
  unfold diff_plan. destruct (diff_work s first (Some first :: others) 0 0) as [one two].
  destruct (Z.quot one 2 <=? two); eexists _, _; split; [done|apply Hqsort|done|done].
Qed.

(** The set that the two commands compute. *)
Definition op_list (op : setop) (l : list (gset bytes)) : gset bytes :=
  match op with SET_OP_UNION => ⋃ l | SET_OP_DIFF => diff_list l end.

Lemma union_diff_ok s D op sets a : built s D ∅ a → osets_ok D sets → total D sets < 2 ^ 31 →
  let (algo, sets') := match op with SET_OP_DIFF => diff_plan qsort s sets | SET_OP_UNION => (1, sets) end in
  ∃ a', union_diff hash cr junk addr max op algo sets' a = Some a' ∧ built s D (op_list op (oset D <$> sets)) a'.
Proof.
  intros Hb Hs Hsz. destruct op; cbn [op_list].
  { destruct (union_loop_ok s D sets ∅ a Hb Hs) as (a' & E & Hb'); [done|]. exists a'. split; [done|]. by rewrite (left_id_L ∅ (∪)) in Hb'. }
  destruct sets as [|[first|] others].
  - exists a. done.
  - destruct (diff_plan_ok s first others) as (algo & others' & -> & Hp). rewrite total_cons in Hsz. simpl (oset D (Some first)) in Hsz.
    pose proof (card_total_nonneg D others). cbn [diff_list fmap list_fmap oset union_diff].
    rewrite <- (union_list_perm (oset D <$> others')) by (by rewrite Hp).
    assert (osets_ok D (Some first :: others')) as Hs' by (intros k; rewrite Hp; apply Hs). destruct (algo =? 1).
    + apply diff_one_ok; [done|done|lia].
    + destruct (add_each_ok s D ∅ first a Hb) as (a1 & -> & Hb1); [apply Hs; by left|unfold zsize in *; rewrite size_empty; lia|]. rewrite (right_id_L ∅ (∪)) in Hb1.
      cbn [mbind option_bind]. destruct (Z.eqb_spec (a_card a1) 0) as [E|E]; [|apply diff_remove_ok; [done|by eapply osets_ok_cons|lia]].
      exists a1. split; [done|]. destruct Hb1 as (K & ? & ? & ? & Hc). assert (set_at D first = ∅) as Ee.
      { apply leibniz_equiv, size_empty_iff. unfold zsize in Hc. lia. }
      exists K. by replace (set_at D first ∖ ⋃ (oset D <$> others')) with (set_at D first) by set_solver.
  - exists a. split; [done|]. cbn [diff_list fmap list_fmap oset]. by replace (∅ ∖ ⋃ (oset D <$> others)) with (∅ : gset bytes) by set_solver.
Qed.

Lemma send_all_ok o Y s : set_ok o Y →
  ∃ es, es ≡ₚ elements Y ∧ set_iterate addr (λ _, Some o) (send_element junk) s = Some (add_replies s (RBulk <$> es)).
Proof.
  intros Ho. destruct (iterate_inv (λ _ : sserver, Some o) o Y (send_element junk) s (λ l s', s' = add_replies s (RBulk <$> l)) Ho) as (l & s' & Hnd & <- & E & ->); try done.
  - destruct s. unfold add_replies. simpl. by rewrite app_nil_r.
  - intros l x e s' _ _ _ [He _] ->. unfold send_element. rewrite He. cbn [mbind option_bind]. eexists. split; [done|].
    unfold add_replies, addReply. simpl. by rewrite fmap_app, <- app_assoc.
  - exists l. split; [by rewrite (elements_list_to_set (C := gset bytes))|done].
Qed.

Lemma sunionDiffGeneric_ok s D ks dstkey op name : keys_ok obj_ok (keys s) D → sizes D ks < 2 ^ 31 →
  name = (match op with SET_OP_UNION => "sunionstore" | SET_OP_DIFF => "sdiffstore" end)%string →
  refines_set hash max s (match dstkey with None => combine_spec D ks (op_list op) | Some dst => combinestore_spec D dst ks (op_list op) name end)
    (sunionDiffGenericCommand hash cr junk addr max qsort s ks dstkey op).
Proof.
  intros HK Hsz ->. unfold sunionDiffGenericCommand, combine_spec, combinestore_spec. pose proof (sunion_lookup_ok s D ks HK) as Hlook.
  destruct (look_all D ks) as [l|]; [|rewrite Hlook; destruct dstkey; by apply sanswer_ok]. destruct Hlook as (sets & -> & -> & Hs & Ht).
  pose proof (union_diff_ok s D op sets (Acc s (SIntset intsetNew) [] 0)) as Hud.
  destruct (match op with SET_OP_UNION => (1, sets) | SET_OP_DIFF => diff_plan qsort s sets end) as [algo sets']. destruct Hud as (a & -> & K & Ea & HK' & Ho & Hc).
  { exists (keys s). split; [by destruct s|]. split; [done|]. split; [by apply intset_create|]. by unfold zsize; rewrite size_empty. }
  { done. } { lia. }
  cbn [mbind option_bind]. rewrite Ea, Hc. set (Y := op_list op (oset D <$> sets)) in *. destruct dstkey as [dst|]; [by apply store_result_ok|].
  destruct (send_all_ok (a_dst a) Y (addReply (with_keys s K) (RMultiLen (zsize Y))) Ho) as (es & Hp & ->).
  eexists _, _. split; [done|]. simpl. rewrite app_nil_r, <- app_assoc. split_and!; try done; [lia|]. by exists es.
Qed.

(** ** All the commands *)

Definition set_exec (c : scommand) (s : sserver) : option sserver :=
  match c with
  | SADD k vals => saddCommand hash cr junk addr max s k vals
  | SREM k vals => sremCommand hash cr junk s k vals
  | SMOVE src dst ele => smoveCommand hash cr junk addr max s src dst ele
  | SISMEMBER k ele => sismemberCommand hash s k ele
  | SCARD k => scardCommand s k
  | SINTER ks => sinterCommand hash cr junk addr max qsort s ks
  | SINTERSTORE dst ks => sinterstoreCommand hash cr junk addr max qsort s dst ks
  | SUNION ks => sunionCommand hash cr junk addr max qsort s ks
  | SUNIONSTORE dst ks => sunionstoreCommand hash cr junk addr max qsort s dst ks
  | SDIFF ks => sdiffCommand hash cr junk addr max qsort s ks
  | SDIFFSTORE dst ks => sdiffstoreCommand hash cr junk addr max qsort s dst ks
  end.

Lemma set_exec_ok c s D : keys_ok obj_ok (keys s) D → set_fits c D = true → refines_set hash max s (set_spec c D) (set_exec c s).
Proof.
  intros HK Hfit. destruct c as [k vals|k vals|src dst ele|k ele|k|ks|dst ks|ks|dst ks|ks|dst ks]; cbn [set_exec set_spec];
    try (by apply saddCommand_ok || by apply sremCommand_ok || by apply smoveCommand_ok || by apply sismemberCommand_ok || by apply scardCommand_ok);
    cbn [set_fits] in Hfit; apply andb_prop in Hfit as [Hks%Z.ltb_lt Hsz%Z.ltb_lt].
  - by apply (sinterGeneric_ok s D ks None).
  - by apply (sinterGeneric_ok s D ks (Some dst)).
  - by apply (sunionDiffGeneric_ok s D ks None SET_OP_UNION _ HK Hsz eq_refl).
  - by apply (sunionDiffGeneric_ok s D ks (Some dst) SET_OP_UNION _ HK Hsz eq_refl).
  - by apply (sunionDiffGeneric_ok s D ks None SET_OP_DIFF _ HK Hsz eq_refl).
  - by apply (sunionDiffGeneric_ok s D ks (Some dst) SET_OP_DIFF _ HK Hsz eq_refl).
Qed.

Definition sexecs (cs : list scommand) (s : sserver) : option sserver := foldl (λ r c, s ← r; set_exec c s) (Some s) cs.
End loops.

(** The outcome of commands one after another. *)
Record souts := SOuts { ss_keys : db; ss_dirty : Z; ss_events : list event; ss_replies : list areply }.

Fixpoint set_specs (cs : list scommand) (D : db) : souts :=
  match cs with
  | [] => SOuts D 0 [] []
  | c :: cs =>
      let o := set_spec c D in
      let os := set_specs cs (so_keys o) in
      SOuts (ss_keys os) (so_dirty o + ss_dirty os) (so_events o ++ ss_events os) (so_reply o :: ss_replies os)
  end.

Fixpoint sets_fit (cs : list scommand) (D : db) : bool :=
  match cs with [] => true | c :: cs => set_fits c D && sets_fit cs (so_keys (set_spec c D)) end.

(** C31. Any sequence of SADD, SREM, SMOVE, SISMEMBER, SCARD, SINTER, SUNION, SDIFF
    and the three commands that store their result, on any keyspace whose sets
    are intsets or hash tables, runs to its end and does what the operations on
    finite sets say: the same sets at the same keys (none of them empty), the
    same changes counted, the same events in the same order, the same replies,
    with the elements of a result sent once each, in some order.  It holds for
    every hash function, resizing policy, bound of intsets and sort that
    permutes its array, and whichever algorithm SDIFF chooses. *)
Theorem set_commands_refine (hash : list Z → Z) (cr : bool) (junk : Z) (addr : nat → Z) (max : Z)
    (qsort : ∀ A, (A → A → Z) → list A → list A) cs s D :
  (∀ k, in_u 64 (hash k)) → byte_ok junk → 0 ≤ max < MAX_INTSET → (∀ A cmp (l : list A), qsort A cmp l ≡ₚ l) →
  keys_ok (obj_ok hash max) (keys s) D → sets_fit cs D = true →
  ∃ s' rss, sexecs hash cr junk addr max qsort cs s = Some s' ∧
    keys_ok (obj_ok hash max) (keys s') (ss_keys (set_specs cs D)) ∧
    dirty s' = dirty s + ss_dirty (set_specs cs D) ∧
    events s' = events s ++ ss_events (set_specs cs D) ∧
    replies s' = replies s ++ concat rss ∧ Forall2 reply_sent rss (ss_replies (set_specs cs D)).
Proof.
  intros Hhash Hjunk Hmax Hqsort. revert s D. unfold sexecs. induction cs as [|c cs IH]; intros s D HK Hfit; cbn [foldl set_specs].
  { exists s, []. simpl. rewrite !app_nil_r. split_and!; try done. lia. }
  cbn [sets_fit] in Hfit. apply andb_prop in Hfit as [Hc Hcs]. cbn [mbind option_bind].
  destruct (set_exec_ok hash Hhash cr junk Hjunk addr max Hmax qsort Hqsort c s D HK Hc) as (s1 & rs & -> & HK1 & Hd1 & He1 & Hr1 & Hs1).
  destruct (IH s1 _ HK1 Hcs) as (s2 & rss & E2 & HK2 & Hd2 & He2 & Hr2 & Hs2). exists s2, (rs :: rss). simpl. split_and!; try done.
  - lia.
  - by rewrite He2, He1, app_assoc.
  - by rewrite Hr2, Hr1, app_assoc.
  - by constructor.
Qed.

(** Sets of integers and of words; SDIFF with both algorithms, an intset that
    becomes a table, a key of another type. *)
Definition b (s : string) : bytes := Z.of_N ∘ Ascii.N_of_ascii <$> String.list_ascii_of_string s.

Fixpoint insert_by {A} (cmp : A → A → Z) (x : A) (l : list A) : list A :=
  match l with [] => [x] | y :: l => if cmp x y <=? 0 then x :: y :: l else y :: insert_by cmp x l end.
Definition sort_by A (cmp : A → A → Z) (l : list A) : list A := foldr (insert_by cmp) [] l.

Lemma sort_by_perm A cmp (l : list A) : sort_by A cmp l ≡ₚ l.
Proof.
  assert (∀ x (l : list A), insert_by cmp x l ≡ₚ x :: l) as Hi.
  { intros x. induction l0 as [|y l0 IH]; simpl; [done|]. destruct (cmp x y <=? 0); [done|]. rewrite IH. apply Permutation_swap. }
  induction l as [|x l IH]; simpl; [done|]. by rewrite Hi, IH.
Qed.

Definition sample_hash (k : bytes) : Z := u64 (foldl (λ h c, h * 33 + c) 5381 k).
Definition sample_server : sserver := Server {[ b "list" := NotSet ]} 0 [] [].
Definition sample_commands : list scommand :=
  [ SADD (b "a") [b "1"; b "2"; b "3"]; SADD (b "b") [b "3"; b "x"; b "4"]; SADD (b "a") [b "2"; b "5"; b "6"];
    SINTER [b "a"; b "b"]; SINTERSTORE (b "c") [b "b"; b "a"; b "a"]; SUNIONSTORE (b "u") [b "a"; b "none"; b "b"];
    SDIFF [b "u"; b "c"; b "c"; b "c"]; SDIFFSTORE (b "d") [b "u"; b "a"; b "b"; b "c"]; SDIFF [b "c"; b "a"; b "a"];
    SMOVE (b "c") (b "a") (b "3"); SREM (b "a") [b "1"; b "9"]; SCARD (b "a"); SISMEMBER (b "b") (b "x");
    SADD (b "list") [b "1"]; SINTERSTORE (b "u") [b "u"; b "none"]; SUNION [b "a"; b "list"] ].

Example sample_replies :
  option_map replies (sexecs sample_hash true 170 (λ n, Z.of_nat n) 4 sort_by sample_commands sample_server) = Some
    ([ RLong 3; RLong 3; RLong 2; RMultiLen 1; RBulk (b "3"); RLong 1; RLong 7; RMultiLen 6 ] ++
     (RBulk ∘ b <$> ["4"; "5"; "6"; "x"; "1"; "2"]%string) ++
     [ RLong 0; RMultiLen 0; RLong 1; RLong 1; RLong 4; RLong 1; RWrongType; RLong 0; RWrongType ]).
Proof. by vm_compute. Qed.

Lemma set_commands_refine_witness :
  ∃ s' rss, sexecs sample_hash true 170 (λ n, Z.of_nat n) 4 sort_by sample_commands sample_server = Some s' ∧
    keys_ok (obj_ok sample_hash 4) (keys s') (ss_keys (set_specs sample_commands {[ b "list" := None ]})) ∧
    dirty s' = dirty sample_server + ss_dirty (set_specs sample_commands {[ b "list" := None ]}) ∧
    events s' = events sample_server ++ ss_events (set_specs sample_commands {[ b "list" := None ]}) ∧
    replies s' = replies sample_server ++ concat rss ∧
    Forall2 reply_sent rss (ss_replies (set_specs sample_commands {[ b "list" := None ]})).
Proof.
  apply (set_commands_refine sample_hash true 170 (λ n, Z.of_nat n) 4 sort_by sample_commands sample_server {[ b "list" := None ]}).
  - intros k. by apply uwrap_range.
  - by unfold byte_ok.
  - by unfold MAX_INTSET.
  - apply sort_by_perm.
  - intros k. unfold sample_server. simpl. destruct (decide (k = b "list")) as [->|Hne].
    + rewrite !lookup_singleton_eq. by constructor.
    + rewrite !lookup_singleton_ne by done. constructor.
  - by vm_compute.
Defined.
