(* ===== verification/THash.v ===== *)
(** * t_hash.c: hashes

    A hash is a ziplist of fields and values, one after the other, while it is
    small, and a dict otherwise.  The functions [hashType*] hide the encodings;
    the commands are built on them, on a keyspace whose other values are of some
    other type.

    Strings are lists of bytes.  [None] stands for undefined behaviour, a failed
    assertion or a panic.  Ownership of strings (the flags of [hashTypeSet] and
    the calls of [sdsfree]) is not modelled.

    Parameters: the hash of strings, whether dicts may be resized, the contents
    of fresh memory, the addresses of tables (for the fingerprint of iterators)
    and the two configured bounds of ziplists. *)

From stdpp Require Import strings.
From S2P Require Import Prelude Decimal Util Dict DictIter MapApi SdsText Ziplist Keyspace TSet.

Inductive hobj := HZiplist (zl : list Z) | HHt (d : dict (list Z) (list Z)) | NotHash.

Abbreviation hserver := (server hobj).
Abbreviation NotifyHash := (Notify NOTIFY_HASH).

(** [hashTypeIterator]; the entry of a dict is known by its key. *)
Inductive hashTypeIterator :=
  | HiZiplist (fptr vptr : option Z)
  | HiHt (di : dictIterator (list Z)) (de : option (list Z)).

Inductive what := OBJ_HASH_KEY | OBJ_HASH_VALUE.

Section hashes.
Context (hash : list Z → Z) (cr : bool) (junk : Z) (addr : nat → Z).
Context (hash_max_ziplist_entries hash_max_ziplist_value : Z).

Definition hashDictType : dictType (list Z) (list Z) :=
  DictType hash None None (Some dictSdsKeyCompare) true true.

(** [createHashObject] *)
Definition createHashObject : option hobj := zl ← ziplistNew junk; Some (HZiplist zl).

(** ** Reading a field *)

(** The entry of the field, from the head of the ziplist. *)
Definition find_field (zl field : list Z) : option (option Z) :=
  fptr ← ziplistIndex zl ZIPLIST_HEAD;
  match fptr with
  | None => Some None
  | Some fptr => ziplistFind zl fptr field 1
  end.

(** [None] inside is the result -1. *)
Definition hashTypeGetFromZiplist (zl field : list Z) : option (option zval) :=
  fptr ← find_field zl field;
  match fptr with
  | None => Some None
  | Some fptr =>
      vptr ← ziplistNext zl fptr;
      vptr ← vptr;
      ret ← ziplistGet zl (Some vptr);
      v ← ret;
      Some (Some v)
  end.

(** [None] inside is [NULL]. *)
Definition hashTypeGetFromHashTable (d : dict (list Z) (list Z)) (field : list Z) :
    option (dict (list Z) (list Z) * option (list Z)) :=
  '(d, de) ← dictFind hashDictType d field;
  match de with
  | None => Some (d, None)
  | Some de => e ← deref d de; v ← v e; Some (d, Some v)
  end.

(** The value as a string or as a number; [None] inside is [C_ERR]. *)
Definition hashTypeGetValue (o : hobj) (field : list Z) : option (hobj * option zval) :=
  match o with
  | HZiplist zl => r ← hashTypeGetFromZiplist zl field; Some (o, r)
  | HHt d => '(d, value) ← hashTypeGetFromHashTable d field; Some (HHt d, option_map ZStr value)
  | NotHash => None
  end.

Definition hashTypeGetValueLength (o : hobj) (field : list Z) : option (hobj * Z) :=
  match o with
  | HZiplist zl =>
      r ← hashTypeGetFromZiplist zl field;
      Some (o, match r with
               | None => 0
               | Some (ZStr vstr) => Z.of_nat (length vstr)
               | Some (ZInt vll) => sdigits10 vll
               end)
  | HHt d =>
      '(d, aux) ← hashTypeGetFromHashTable d field;
      Some (HHt d, match aux with None => 0 | Some aux => Z.of_nat (length aux) end)
  | NotHash => None
  end.

Definition hashTypeExists (o : hobj) (field : list Z) : option (hobj * bool) :=
  match o with
  | HZiplist zl => r ← hashTypeGetFromZiplist zl field; Some (o, bool_decide (is_Some r))
  | HHt d => '(d, value) ← hashTypeGetFromHashTable d field; Some (HHt d, bool_decide (is_Some value))
  | NotHash => None
  end.

(** [ziplistLen] may write the length into the header. *)
Definition hashTypeLength (o : hobj) : option (hobj * Z) :=
  match o with
  | HZiplist zl => '(zl, n) ← ziplistLen zl; Some (HZiplist zl, n `div` 2)
  | HHt d => Some (o, dictSize d)
  | NotHash => None
  end.

(** ** Iterators *)

Definition hashTypeInitIterator (subject : hobj) : option hashTypeIterator :=
  match subject with
  | HZiplist _ => Some (HiZiplist None None)
  | HHt _ => Some (HiHt dictGetIterator None)
  | NotHash => None
  end.

Definition hashTypeReleaseIterator (subject : hobj) (hi : hashTypeIterator) : option unit :=
  match hi, subject with
  | HiHt di _, HHt d => _ ← dictReleaseIterator addr d di; Some tt
  | HiZiplist _ _, _ => Some tt
  | _, _ => None
  end.

(** The iterator and whether there is a next entry.  An unsafe iterator does not
    change the table it walks. *)
Definition hashTypeNext (subject : hobj) (hi : hashTypeIterator) : option (hashTypeIterator * bool) :=
  match hi, subject with
  | HiZiplist fptr vptr, HZiplist zl =>
      fptr' ← match fptr, vptr with
              | None, None => ziplistIndex zl 0
              | Some _, Some vptr => ziplistNext zl vptr
              | _, _ => None
              end;
      match fptr' with
      | None => Some (hi, false)
      | Some fptr' => vptr ← ziplistNext zl fptr'; vptr ← vptr; Some (HiZiplist (Some fptr') (Some vptr), true)
      end
  | HiHt di _, HHt d =>
      '(_, di, de) ← dictNext addr d di;
      Some (HiHt di de, bool_decide (is_Some de))
  | _, _ => None
  end.

Definition hashTypeCurrentFromZiplist (zl : list Z) (hi : hashTypeIterator) (w : what) : option zval :=
  match hi with
  | HiZiplist fptr vptr => ret ← ziplistGet zl (match w with OBJ_HASH_KEY => fptr | OBJ_HASH_VALUE => vptr end); ret
  | HiHt _ _ => None
  end.

Definition hashTypeCurrentFromHashTable (d : dict (list Z) (list Z)) (hi : hashTypeIterator) (w : what) : option (list Z) :=
  match hi with
  | HiHt _ (Some de) => match w with OBJ_HASH_KEY => Some de | OBJ_HASH_VALUE => v ← dict_map d !! de; v end
  | _ => None
  end.

Definition hashTypeCurrentObject (subject : hobj) (hi : hashTypeIterator) (w : what) : option zval :=
  match subject with
  | HZiplist zl => hashTypeCurrentFromZiplist zl hi w
  | HHt d => ele ← hashTypeCurrentFromHashTable d hi w; Some (ZStr ele)
  | NotHash => None
  end.

Definition hashTypeCurrentObjectNewSds (subject : hobj) (hi : hashTypeIterator) (w : what) : option (list Z) :=
  r ← hashTypeCurrentObject subject hi w;
  match r with ZStr s => Some s | ZInt n => ll_bytes junk n end.

(** [hi = hashTypeInitIterator(o); while (hashTypeNext(hi) != C_ERR) body;
    hashTypeReleaseIterator(hi)] *)
Fixpoint hash_each {S} (fuel : nat) (o : hobj) (body : hashTypeIterator → S → option S)
    (hi : hashTypeIterator) (s : S) : option S :=
  match fuel with
  | O => None
  | Datatypes.S fuel =>
      '(hi, more) ← hashTypeNext o hi;
      if more : bool then s ← body hi s; hash_each fuel o body hi s
      else _ ← hashTypeReleaseIterator o hi; Some s
  end.

(** As many turns as there can be entries, and one more. *)
Definition hash_fuel (o : hobj) : nat :=
  match o with HZiplist zl => S (length zl) | HHt d => S (Z.to_nat (dictSize d)) | NotHash => O end.

Definition hash_iterate {S} (o : hobj) (body : hashTypeIterator → S → option S) (s : S) : option S :=
  hi ← hashTypeInitIterator o;
  hash_each (hash_fuel o) o body hi s.

(** ** Conversion *)

Definition convert_pair (o : hobj) (hi : hashTypeIterator) (d : dict (list Z) (list Z)) : option (dict (list Z) (list Z)) :=
  key ← hashTypeCurrentObjectNewSds o hi OBJ_HASH_KEY;
  value ← hashTypeCurrentObjectNewSds o hi OBJ_HASH_VALUE;
  '(d, ret) ← dictAdd hashDictType cr d key value;
  if ret =? DICT_OK then Some d else None.

(** To [OBJ_ENCODING_HT]. *)
Definition hashTypeConvertZiplist (zl : list Z) : option hobj :=
  let o := HZiplist zl in
  d ← hash_iterate o (convert_pair o) dictCreate;
  Some (HHt d).

Definition hashTypeConvert (o : hobj) : option hobj :=
  match o with HZiplist zl => hashTypeConvertZiplist zl | _ => None end.

(** The arguments [argv[start..end]]. *)
Definition hashTypeTryConversion (o : hobj) (args : list (list Z)) : option hobj :=
  match o with
  | HZiplist _ =>
      if existsb (λ a, hash_max_ziplist_value <? Z.of_nat (length a)) args then hashTypeConvert o else Some o
  | _ => Some o
  end.

(** ** Updates *)

(** Whether a field was updated, rather than added. *)
Definition hashTypeSet (o : hobj) (field value : list Z) : option (hobj * bool) :=
  match o with
  | HZiplist zl =>
      fptr ← find_field zl field;
      '(zl, update) ←
        match fptr with
        | Some fptr =>
            vptr ← ziplistNext zl fptr;
            vptr ← vptr;
            '(zl, vptr) ← ziplistDelete junk zl vptr;
            zl ← ziplistInsert junk zl vptr value;
            Some (zl, true)
        | None =>
            zl ← ziplistPush junk zl field ZIPLIST_TAIL;
            zl ← ziplistPush junk zl value ZIPLIST_TAIL;
            Some (zl, false)
        end;
      '(o, n) ← hashTypeLength (HZiplist zl);
      o ← if hash_max_ziplist_entries <? n then hashTypeConvert o else Some o;
      Some (o, update)
  | HHt d =>
      '(d, de) ← dictFind hashDictType d field;
      match de with
      | Some de => d ← dictSetVal hashDictType d de value; Some (HHt d, true)
      | None => '(d, _) ← dictAdd hashDictType cr d field value; Some (HHt d, false)
      end
  | NotHash => None
  end.

Definition hashTypeDelete (o : hobj) (field : list Z) : option (hobj * bool) :=
  match o with
  | HZiplist zl =>
      fptr ← find_field zl field;
      match fptr with
      | None => Some (o, false)
      | Some fptr =>
          '(zl, fptr) ← ziplistDelete junk zl fptr;
          '(zl, fptr) ← ziplistDelete junk zl fptr;
          Some (HZiplist zl, true)
      end
  | HHt d =>
      '(d, rc, _) ← dictDelete hashDictType d field;
      if rc =? DICT_OK
      then Some (HHt (if htNeedsResize d then (dictResize cr d).1 else d), true)
      else Some (HHt d, false)
  | NotHash => None
  end.

(** ** Commands that write *)

(** [inr] is the state after the error. *)
Definition hashTypeLookupWriteOrCreate (s : hserver) (k : list Z) : option (hserver * hobj + hserver) :=
  match keys s !! k with
  | None => o ← createHashObject; Some (inl (set_key s k o, o))
  | Some NotHash => Some (inr (addReply s RWrongType))
  | Some o => Some (inl (s, o))
  end.

(** The end of the commands that set fields. *)
Definition hash_changed (s : hserver) (k : list Z) (name : string) : hserver :=
  add_dirty (log (log s (SignalModified k)) (NotifyHash name k)) 1.

Definition hsetnxCommand (s : hserver) (k field value : list Z) : option hserver :=
  r ← hashTypeLookupWriteOrCreate s k;
  match r with
  | inr s => Some s
  | inl (s, o) =>
      o ← hashTypeTryConversion o [field; value];
      '(o, b) ← hashTypeExists o field;
      if b : bool then Some (addReply (set_key s k o) (RLong 0))
      else
        '(o, _) ← hashTypeSet o field value;
        Some (hash_changed (addReply (set_key s k o) (RLong 1)) k "hset")
  end.

(** [for (i = 2; i < c->argc; i += 2) created += !hashTypeSet(...)] *)
Fixpoint hset_loop (o : hobj) (args : list (list Z)) (created : Z) : option (hobj * Z) :=
  match args with
  | field :: value :: args =>
      '(o, update) ← hashTypeSet o field value;
      hset_loop o args (if update : bool then created else created + 1)
  | _ => Some (o, created)
  end.

(** [args] are the arguments after the key; [c->argc] is two more.  [cmdname[1]]
    is 's' or 'S' for HSET. *)
Definition hsetCommand (s : hserver) (cmdname k : list Z) (args : list (list Z)) : option hserver :=
  if (Z.of_nat (length args) + 2) mod 2 =? 1
  then Some (addReply s (RError "wrong number of arguments for HMSET"))
  else
    r ← hashTypeLookupWriteOrCreate s k;
    match r with
    | inr s => Some s
    | inl (s, o) =>
        o ← hashTypeTryConversion o args;
        '(o, created) ← hset_loop o args 0;
        c1 ← cmdname !! 1%nat;
        let s := addReply (set_key s k o) (if (c1 =? 115) || (c1 =? 83) then RLong created else ROk) in
        Some (hash_changed s k "hset")
    end.

Definition hincrbyCommand (s : hserver) (k field incr : list Z) : option hserver :=
  match getLongFromObjectOrReply s incr with
  | inr s => Some s
  | inl incr =>
      r ← hashTypeLookupWriteOrCreate s k;
      match r with
      | inr s => Some s
      | inl (s, o) =>
          '(o, r) ← hashTypeGetValue o field;
          let s := set_key s k o in
          match (match r with None => Some 0 | Some (ZInt value) => Some value | Some (ZStr vstr) => string2ll vstr end) with
          | None => Some (addReply s (RError "hash value is not an integer"))
          | Some oldvalue =>
              if ((incr <? 0) && (oldvalue <? 0) && (incr <? s64 (LLONG_MIN - oldvalue))) ||
                 ((0 <? incr) && (0 <? oldvalue) && (s64 (LLONG_MAX - oldvalue) <? incr))
              then Some (addReply s (RError "increment or decrement would overflow"))
              else
                let value := s64 (oldvalue + incr) in
                new ← ll_bytes junk value;
                '(o, _) ← hashTypeSet o field new;
                Some (hash_changed (addReply (set_key s k o) (RLong value)) k "hincrby")
          end
      end
  end.

(** A command on a hash that exists, with its reply to a missing key. *)
Definition with_hash (s : hserver) (k : list Z) (missing : reply) (f : hobj → option hserver) : option hserver :=
  match keys s !! k with
  | None => Some (addReply s missing)
  | Some NotHash => Some (addReply s RWrongType)
  | Some o => f o
  end.

(** The loop of HDEL: the hash, [deleted] and [keyremoved]. *)
Fixpoint hdel_loop (o : hobj) (fields : list (list Z)) (deleted : Z) : option (hobj * Z * bool) :=
  match fields with
  | [] => Some (o, deleted, false)
  | field :: fields =>
      '(o, b) ← hashTypeDelete o field;
      if b : bool then
        '(o, n) ← hashTypeLength o;
        if n =? 0 then Some (o, deleted + 1, true) else hdel_loop o fields (deleted + 1)
      else hdel_loop o fields deleted
  end.

Definition hdelCommand (s : hserver) (k : list Z) (fields : list (list Z)) : option hserver :=
  with_hash s k (RLong 0) (λ o,
    '(o, deleted, keyremoved) ← hdel_loop o fields 0;
    let s := if keyremoved : bool then dbDelete s k else set_key s k o in
    let s :=
      if 0 <? deleted then
        let s := log (log s (SignalModified k)) (NotifyHash "hdel" k) in
        add_dirty (if keyremoved then log s (NotifyGeneric "del" k) else s) deleted
      else s in
    Some (addReply s (RLong deleted))).

(** ** Commands that read *)

Definition reply_zval (v : zval) : option reply :=
  match v with ZStr s => Some (RBulk s) | ZInt n => bulk_ll junk n end.

(** The hash after the lookup, and the reply. *)
Definition addHashFieldToReply (o : option hobj) (field : list Z) : option (option hobj * reply) :=
  match o with
  | None => Some (None, RNullBulk)
  | Some (HZiplist zl) =>
      r ← hashTypeGetFromZiplist zl field;
      match r with
      | None => Some (o, RNullBulk)
      | Some v => r ← reply_zval v; Some (o, r)
      end
  | Some (HHt d) =>
      '(d, value) ← hashTypeGetFromHashTable d field;
      Some (Some (HHt d), match value with None => RNullBulk | Some value => RBulk value end)
  | Some NotHash => None
  end.

Definition store_hash (s : hserver) (k : list Z) (o : option hobj) : hserver :=
  match o with Some o => set_key s k o | None => s end.

Definition hgetCommand (s : hserver) (k field : list Z) : option hserver :=
  with_hash s k RNullBulk (λ o, '(o, r) ← addHashFieldToReply (Some o) field; Some (addReply (store_hash s k o) r)).

Fixpoint hmget_loop (o : option hobj) (fields : list (list Z)) : option (option hobj * list reply) :=
  match fields with
  | [] => Some (o, [])
  | field :: fields =>
      '(o, r) ← addHashFieldToReply o field;
      '(o, rs) ← hmget_loop o fields;
      Some (o, r :: rs)
  end.

Definition hmgetCommand (s : hserver) (k : list Z) (fields : list (list Z)) : option hserver :=
  match keys s !! k with
  | Some NotHash => Some (addReply s RWrongType)
  | o =>
      '(o, rs) ← hmget_loop o fields;
      Some (add_replies (store_hash s k o) (RMultiLen (Z.of_nat (length fields)) :: rs))
  end.

Definition hlenCommand (s : hserver) (k : list Z) : option hserver :=
  with_hash s k (RLong 0) (λ o, '(o, n) ← hashTypeLength o; Some (addReply (set_key s k o) (RLong n))).

Definition hstrlenCommand (s : hserver) (k field : list Z) : option hserver :=
  with_hash s k (RLong 0) (λ o, '(o, n) ← hashTypeGetValueLength o field; Some (addReply (set_key s k o) (RLong n))).

Definition hexistsCommand (s : hserver) (k field : list Z) : option hserver :=
  with_hash s k (RLong 0) (λ o,
    '(o, b) ← hashTypeExists o field;
    Some (addReply (set_key s k o) (RLong (if b : bool then 1 else 0)))).

Definition addHashIteratorCursorToReply (o : hobj) (hi : hashTypeIterator) (w : what) : option reply :=
  match o with
  | HZiplist zl => v ← hashTypeCurrentFromZiplist zl hi w; reply_zval v
  | HHt d => value ← hashTypeCurrentFromHashTable d hi w; Some (RBulk value)
  | NotHash => None
  end.

(** The body of the loop: the replies so far, and [count]. *)
Definition hgetall_pair (o : hobj) (flag_key flag_value : bool) (hi : hashTypeIterator) (acc : list reply * Z) :
    option (list reply * Z) :=
  let '(out, count) := acc in
  '(out, count) ← if flag_key then r ← addHashIteratorCursorToReply o hi OBJ_HASH_KEY; Some (out ++ [r], count + 1)
                  else Some (out, count);
  if flag_value then r ← addHashIteratorCursorToReply o hi OBJ_HASH_VALUE; Some (out ++ [r], count + 1)
  else Some (out, count).

(** [flags & OBJ_HASH_KEY] and [flags & OBJ_HASH_VALUE]. *)
Definition genericHgetallCommand (s : hserver) (k : list Z) (flag_key flag_value : bool) : option hserver :=
  with_hash s k REmptyMulti (λ o,
    let multiplier := (if flag_key then 1 else 0) + (if flag_value then 1 else 0) in
    '(o, n) ← hashTypeLength o;
    let length := s32 (n * multiplier) in
    '(out, count) ← hash_iterate o (hgetall_pair o flag_key flag_value) ([], 0);
    if count =? length then Some (add_replies (set_key s k o) (RMultiLen length :: out)) else None).

Definition hkeysCommand s k := genericHgetallCommand s k true false.
Definition hvalsCommand s k := genericHgetallCommand s k false true.
Definition hgetallCommand s k := genericHgetallCommand s k true true.
End hashes.
