(* ===== verification/THashRep.v ===== *)
(** * t_hash.c: what a hash object stands for

    A hash object stands for a finite map from fields to values.  The functions
    [hashType*] are its operations, whatever the encoding, conversions included;
    a loop over a hash visits each of its fields once. *)

From S2P Require Import Prelude Decimal Util Dict DictIter MapApi SdsText Ziplist ZiplistQuery ZiplistSpec ZiplistApi Keyspace TSet TSetRep THash.

Abbreviation bytes := (list Z).
Abbreviation pairs := (list (list Z * list Z)).
Abbreviation hmap := (gmap (list Z) (list Z)).

(** ** Fields and values in a row *)

Fixpoint flat (l : pairs) : list bytes := match l with [] => [] | (f, x) :: l => f :: x :: flat l end.

Lemma flat_length l : length (flat l) = (2 * length l)%nat.
Proof. induction l as [|[f x] l IH]; simpl; lia. Qed.

Lemma flat_app l1 l2 : flat (l1 ++ l2) = flat l1 ++ flat l2.
Proof. induction l1 as [|[f x] l1 IH]; simpl; congruence. Qed.

Lemma flat_field l j : flat l !! (2 * j)%nat = fst <$> l !! j.
Proof.
  revert j. induction l as [|[f x] l IH]; intros [|j]; try done. replace (2 * S j)%nat with (S (S (2 * j))) by lia. apply IH.
Qed.

Lemma flat_value l j : flat l !! S (2 * j)%nat = snd <$> l !! j.
Proof.
  revert j. induction l as [|[f x] l IH]; intros [|j]; try done. replace (2 * S j)%nat with (S (S (2 * j))) by lia. apply IH.
Qed.

Lemma flat_split l j f x : l !! j = Some (f, x) →
  ∃ l1 l2, l = l1 ++ (f, x) :: l2 ∧ (2 * j)%nat = length (flat l1).
Proof.
  intros Hl. exists (take j l), (drop (S j) l). split; [by rewrite take_drop_middle|].
  rewrite flat_length, length_take_le; [done|]. apply lookup_lt_Some in Hl. lia.
Qed.

(** ** Size of a hash *)

Definition weight (l : pairs) : Z := total (flat l).

Lemma weight_cons f x l : weight ((f, x) :: l) = Z.of_nat (length f) + Z.of_nat (length x) + 36 + weight l.
Proof. unfold weight. simpl. lia. Qed.

Lemma weight_perm l l' : l ≡ₚ l' → weight l = weight l'.
Proof. induction 1 as [|[f x] l l' _ IH|[f x] [g y] l|l1 l2 l3 _ IH1 _ IH2]; rewrite ?weight_cons; try lia. Qed.

Lemma weight_length l : 36 * Z.of_nat (length l) ≤ weight l.
Proof. induction l as [|[f x] l IH]; [done|]. rewrite weight_cons. simpl. lia. Qed.

Definition hweight (M : hmap) : Z := weight (map_to_list M).

Lemma hweight_list l : NoDup l.*1 → hweight (list_to_map l) = weight l.
Proof. intros Hnd. by apply weight_perm, map_to_list_to_map. Qed.

Lemma hweight_size M : 36 * Z.of_nat (base.size M) ≤ hweight M.
Proof. pose proof (weight_length (map_to_list M)) as H. by rewrite length_map_to_list in H. Qed.

Lemma hweight_new (M : hmap) f x : M !! f = None → hweight (<[f := x]> M) = Z.of_nat (length f) + Z.of_nat (length x) + 36 + hweight M.
Proof. intros Hf. unfold hweight. by rewrite (weight_perm _ _ (map_to_list_insert M f x Hf)), weight_cons. Qed.

Lemma hweight_delete (M : hmap) f : hweight (delete f M) ≤ hweight M.
Proof.
  destruct (M !! f) as [x|] eqn:E; [|by rewrite delete_id]. rewrite <- (insert_delete_id M f x E) at 2.
  rewrite hweight_new by apply lookup_delete_eq. lia.
Qed.

Lemma hweight_insert (M : hmap) f x : hweight (<[f := x]> M) ≤ Z.of_nat (length f) + Z.of_nat (length x) + 36 + hweight M.
Proof.
  rewrite <- insert_delete_eq, hweight_new by apply lookup_delete_eq. pose proof (hweight_delete M f). lia.
Qed.

(** ** Lists of pairs and maps *)

Lemma pairs_lookup (l : pairs) j f x : NoDup l.*1 → l !! j = Some (f, x) → (list_to_map l : hmap) !! f = Some x.
Proof. intros Hnd Hl. apply elem_of_list_to_map_1; [done|]. by eapply list_elem_of_lookup_2. Qed.

Lemma pairs_missing (l : pairs) f : f ∉ l.*1 → (list_to_map l : hmap) !! f = None.
Proof. apply not_elem_of_list_to_map_1. Qed.

Lemma pairs_middle (l1 l2 : pairs) f x : NoDup (l1 ++ (f, x) :: l2).*1 →
  f ∉ (l1 ++ l2).*1 ∧ NoDup (l1 ++ l2).*1 ∧ (list_to_map (l1 ++ (f, x) :: l2) : hmap) = <[f := x]> (list_to_map (l1 ++ l2)).
Proof.
  intros Hnd. assert (l1 ++ (f, x) :: l2 ≡ₚ (f, x) :: l1 ++ l2) as Hp by (symmetry; apply Permutation_middle).
  rewrite (list_to_map_proper _ _ Hnd Hp). rewrite Hp in Hnd. cbn in Hnd. apply NoDup_cons in Hnd as [? ?]. done.
Qed.

Lemma pairs_replace (l1 l2 : pairs) f x y : NoDup (l1 ++ (f, x) :: l2).*1 →
  NoDup (l1 ++ (f, y) :: l2).*1 ∧ (list_to_map (l1 ++ (f, y) :: l2) : hmap) = <[f := y]> (list_to_map (l1 ++ (f, x) :: l2)).
Proof.
  intros Hnd. assert (NoDup (l1 ++ (f, y) :: l2).*1) as Hnd' by (by rewrite fmap_app in *). split; [done|].
  destruct (pairs_middle _ _ _ _ Hnd) as (_ & _ & ->). destruct (pairs_middle _ _ _ _ Hnd') as (_ & _ & ->). by rewrite insert_insert_eq.
Qed.

Lemma pairs_remove (l1 l2 : pairs) f x : NoDup (l1 ++ (f, x) :: l2).*1 →
  NoDup (l1 ++ l2).*1 ∧ (list_to_map (l1 ++ l2) : hmap) = delete f (list_to_map (l1 ++ (f, x) :: l2)).
Proof.
  intros Hnd. destruct (pairs_middle _ _ _ _ Hnd) as (Hni & Hnd' & ->). split; [done|].
  by rewrite delete_insert_id by (by apply pairs_missing).
Qed.

Lemma pairs_append (l : pairs) f x : NoDup l.*1 → f ∉ l.*1 →
  NoDup (l ++ [(f, x)]).*1 ∧ (list_to_map (l ++ [(f, x)]) : hmap) = <[f := x]> (list_to_map l).
Proof.
  intros Hnd Hni. assert (NoDup (l ++ [(f, x)]).*1) as Hnd'.
  { rewrite fmap_app. apply NoDup_app. split; [done|]. split; [|apply NoDup_singleton]. intros g Hg Hf. apply list_elem_of_singleton in Hf as ->. done. }
  split; [done|]. destruct (pairs_middle l [] f x Hnd') as (_ & _ & ->). by rewrite app_nil_r.
Qed.

(** The pairs of a map in the order of its fields [ks]. *)
Lemma pairs_of_keys (M : hmap) ks : NoDup ks → list_to_set ks = dom M →
  ∃ l : pairs, l.*1 = ks ∧ l ≡ₚ map_to_list M ∧ Forall (λ p, M !! p.1 = Some p.2) l.
Proof.
  intros Hnd Hks. set (l := (λ k, (k, default [] (M !! k))) <$> ks : pairs). exists l.
  assert (l.*1 = ks) as E by (unfold l; rewrite <- list_fmap_compose; apply list_fmap_id).
  assert (∀ k, k ∈ ks → is_Some (M !! k)) as Hin.
  { intros k Hk. apply elem_of_dom. rewrite <- Hks. by apply elem_of_list_to_set. }
  assert (Forall (λ p, M !! p.1 = Some p.2) l) as Hall.
  { unfold l. apply Forall_fmap, Forall_forall. intros k [x Hx]%Hin. simpl. by rewrite Hx. }
  split; [done|]. split; [|done]. assert (list_to_map l = M) as EM; [|rewrite <- EM; symmetry; apply map_to_list_to_map; by rewrite E].
  apply map_eq. intros k. destruct (M !! k) as [x|] eqn:Ex.
  - assert (k ∈ ks) as Hk. { rewrite <- (elem_of_list_to_set (C := gset bytes)), Hks. by apply elem_of_dom. }
    apply elem_of_list_to_map_1; [by rewrite E|]. apply list_elem_of_fmap. exists k. by rewrite Ex.
  - apply pairs_missing. rewrite E. intros [x Hx]%Hin. congruence.
Qed.

(** ** Loops *)

Fixpoint run_each {A S} (body : A → S → option S) (xs : list A) (s : S) : option S :=
  match xs with
  | [] => Some s
  | x :: xs => s ← body x s; run_each body xs s
  end.

Lemma run_each_inv {A B S} (R : A → B → Prop) (body : A → S → option S) (I : list B → S → Prop) xs l2 :
  Forall2 R xs l2 → ∀ l1 s, I l1 s →
  (∀ l1' y x s, l1' ++ [y] `prefix_of` l1 ++ l2 → R x y → I l1' s → ∃ s', body x s = Some s' ∧ I (l1' ++ [y]) s') →
  ∃ s', run_each body xs s = Some s' ∧ I (l1 ++ l2) s'.
Proof.
  induction 1 as [|x y xs l2 Hxy Hxs IH]; intros l1 s HI Hstep; cbn [run_each].
  { exists s. by rewrite app_nil_r. }
  rewrite (app_assoc l1 [y] l2 : l1 ++ y :: l2 = _) in *.
  destruct (Hstep l1 y x s) as (s' & -> & HI'); [by apply prefix_app_r|done|done|]. cbn [mbind option_bind]. by apply IH.
Qed.

(** ** Representation *)

Definition zint (z : zval) : Prop := ∀ n, z = ZInt n → in_s 64 n.

(** What a lookup found. *)
Definition found (r : option zval) (x : option bytes) : Prop :=
  match r with None => x = None | Some z => x = Some (zval_str z) ∧ zint z end.

Section rep.
Context (hash : list Z → Z) (Hhash : ∀ k, in_u 64 (hash k)) (cr : bool) (junk : Z) (addr : nat → Z) (max maxv : Z) (Hmax : 0 ≤ max).

Abbreviation htype := (hashDictType hash).

#[local] Instance hashDictType_ok : DictTypeOk htype.
Proof.
  split; [done| |done]. intros cmp [= <-] a b. unfold dictSdsKeyCompare. by rewrite bool_decide_eq_true.
Qed.

Definition zl_pairs (b : bytes) (l : pairs) (M : hmap) : Prop := zl_holds b (flat l) ∧ NoDup l.*1 ∧ list_to_map l = M.

Definition ht_hash (d : dict bytes bytes) (M : hmap) : Prop := dict_inv htype d ∧ sizes_ok d ∧ vals d = M.

(** A ziplist never has more pairs than configured. *)
Definition hash_ok (o : hobj) (M : hmap) : Prop :=
  match o with
  | HZiplist b => ∃ l, zl_pairs b l M ∧ Z.of_nat (length l) ≤ max
  | HHt d => ht_hash d M
  | NotHash => False
  end.

(** The iterator stands on this pair. *)
Definition cursor_ok (o : hobj) (hi : hashTypeIterator) (p : bytes * bytes) : Prop :=
  ∃ zf zv, hashTypeCurrentObject o hi OBJ_HASH_KEY = Some zf ∧ zval_str zf = p.1 ∧ zint zf ∧
    hashTypeCurrentObject o hi OBJ_HASH_VALUE = Some zv ∧ zval_str zv = p.2 ∧ zint zv.

(** *** Ziplists *)

Lemma norm_index_0 n : norm_index n 0 = match n with O => None | S _ => Some O end.
Proof. destruct n as [|n]; [done|]. unfold norm_index. rewrite (proj2 (Z.ltb_lt 0 (Z.of_nat (S n)))) by lia. done. Qed.

Lemma zl_index b l : zl_holds b (flat l) →
  ∃ r, ziplistIndex b 0 = Some r ∧ match r with Some p => l ≠ [] ∧ zl_at b (flat l) 0 p | None => l = [] end.
Proof.
  intros Hb. destruct (index_holds b (flat l) 0 Hb ltac:(lia)) as (r & E & Hr). exists r. split; [done|].
  rewrite norm_index_0 in Hr. destruct l as [|[f x] l]; simpl in Hr; [by subst r|]. destruct Hr as (p & -> & Hp). done.
Qed.

Lemma find_field_ok b l field : zl_holds b (flat l) →
  ∃ r, find_field b field = Some r ∧
    match r with Some p => ∃ j x, zl_at b (flat l) (2 * j) p ∧ l !! j = Some (field, x) | None => field ∉ l.*1 end.
Proof.
  intros Hb. unfold find_field, ZIPLIST_HEAD. destruct (zl_index b l Hb) as (r & -> & Hr). cbn [mbind option_bind]. destruct r as [p|].
  2: { exists None. split; [done|]. subst l. by apply not_elem_of_nil. }
  destruct Hr as [_ Hp]. destruct (find_at b (flat l) 0 p field 1 Hp ltac:(lia)) as (r & E & Hr). exists r. split; [exact E|].
  destruct r as [q|].
  - destruct Hr as (j & Hq & Hj). replace (0 + j * 2)%nat with (2 * j)%nat in * by lia. rewrite flat_field in Hj.
    apply fmap_Some in Hj as ([f x] & Hl & ->). by exists j, x.
  - intros ([f x] & -> & [j Hj]%list_elem_of_lookup_1)%list_elem_of_fmap. specialize (Hr j). replace (0 + j * 2)%nat with (2 * j)%nat in Hr by lia.
    rewrite flat_field, Hj in Hr. done.
Qed.

(** From a field to its value. *)
Lemma value_at b l j p f x : zl_at b (flat l) (2 * j) p → l !! j = Some (f, x) →
  ∃ q, ziplistNext b p = Some (Some q) ∧ zl_at b (flat l) (S (2 * j)) q.
Proof.
  intros Hp Hl. destruct (next_at _ _ _ _ Hp) as (r & E & Hr). apply lookup_lt_Some in Hl.
  rewrite decide_True in Hr by (rewrite flat_length; lia). destruct Hr as (q & -> & Hq). by exists q.
Qed.

Lemma zl_get_ok b l M field : zl_pairs b l M → ∃ r, hashTypeGetFromZiplist b field = Some r ∧ found r (M !! field).
Proof.
  intros (Hb & Hnd & <-). unfold hashTypeGetFromZiplist. destruct (find_field_ok b l field Hb) as (r & -> & Hr). cbn [mbind option_bind].
  destruct r as [p|]; [|exists None; split; [done|]; by apply pairs_missing]. destruct Hr as (j & x & Hp & Hl).
  destruct (value_at _ _ _ _ _ _ Hp Hl) as (q & -> & Hq). cbn [mbind option_bind].
  destruct (get_at _ _ _ _ x Hq) as (z & -> & Hz & Hint); [by rewrite flat_value, Hl|]. cbn [mbind option_bind].
  exists (Some z). split; [done|]. split; [|exact Hint]. rewrite Hz. by eapply pairs_lookup.
Qed.

Lemma zl_update b l M j p q field x value : zl_pairs b l M → l !! j = Some (field, x) → zl_at b (flat l) (S (2 * j)) q →
  weight l ≤ 2 ^ 30 → Z.of_nat (length value) ≤ 2 ^ 30 → p = q →
  ∃ b1 b' l', ziplistDelete junk b p = Some (b1, p) ∧ ziplistInsert junk b1 p value = Some b' ∧
    zl_pairs b' l' (<[field := value]> M) ∧ length l' = length l.
Proof.
  intros (Hb & Hnd & <-) Hl Hq Hw Hv ->. destruct (flat_split l j field x Hl) as (l1 & l2 & -> & Ej).
  assert (flat (l1 ++ (field, x) :: l2) = flat l1 ++ field :: x :: flat l2) as Ef by (by rewrite flat_app). unfold weight in Hw. rewrite Ef in *.
  assert (S (2 * j) = length (flat l1 ++ [field])) as Ek by (rewrite length_app; simpl; lia).
  assert (flat l1 ++ field :: x :: flat l2 = (flat l1 ++ [field]) ++ x :: flat l2) as Es by (by rewrite <- app_assoc).
  destruct (delete_holds junk b _ _ q Hq) as (b1 & E1 & H1); [rewrite !length_app in *; simpl in *; lia|lia|].
  rewrite Es, Ek, take_app_length, drop_app_ge in H1 by lia. replace (S (length _) - length _)%nat with 1%nat in H1 by lia. simpl in H1. rewrite drop_0 in H1.
  destruct (insert_holds junk b1 _ _ q value H1) as (b' & E2 & H2); [|done|].
  { rewrite Es, total_app in Hw. rewrite total_app. simpl in Hw. lia. }
  rewrite take_app_length, drop_app_length, <- app_assoc in H2.
  destruct (pairs_replace l1 l2 field x value Hnd) as [Hnd' <-].
  exists b1, b', (l1 ++ (field, value) :: l2). split_and!; try done; [|by rewrite !length_app].
  split_and!; try done. by rewrite flat_app.
Qed.

Lemma zl_append b l M field value : zl_pairs b l M → field ∉ l.*1 → weight l ≤ 2 ^ 30 →
  Z.of_nat (length field) ≤ 2 ^ 29 → Z.of_nat (length value) ≤ 2 ^ 30 →
  ∃ b1 b', ziplistPush junk b field ZIPLIST_TAIL = Some b1 ∧ ziplistPush junk b1 value ZIPLIST_TAIL = Some b' ∧
    zl_pairs b' (l ++ [(field, value)]) (<[field := value]> M).
Proof.
  intros (Hb & Hnd & <-) Hni Hw Hf Hv. unfold weight in Hw. destruct (push_holds junk b (flat l) field ZIPLIST_TAIL Hb) as (b1 & E1 & H1); [lia|lia|].
  simpl in H1. destruct (push_holds junk b1 _ value ZIPLIST_TAIL H1) as (b' & E2 & H2); [|done|].
  { rewrite total_app. simpl. lia. }
  simpl in H2. destruct (pairs_append l field value Hnd Hni) as [Hnd' <-]. exists b1, b'. split_and!; try done. split_and!; try done.
  by rewrite flat_app, (app_assoc (flat l) [field] [value] : flat l ++ flat [(field, value)] = _).
Qed.

Lemma zl_remove b l M j p field x : zl_pairs b l M → l !! j = Some (field, x) → zl_at b (flat l) (2 * j) p → weight l ≤ 2 ^ 30 →
  ∃ b1 b' l', ziplistDelete junk b p = Some (b1, p) ∧ ziplistDelete junk b1 p = Some (b', p) ∧
    zl_pairs b' l' (delete field M) ∧ S (length l') = length l.
Proof.
  intros (Hb & Hnd & <-) Hl Hp Hw. destruct (flat_split l j field x Hl) as (l1 & l2 & -> & Ej). unfold weight in Hw. rewrite flat_app in *. cbn [flat] in *.
  rewrite Ej in Hp. rewrite total_app in Hw. simpl in Hw.
  destruct (delete_holds junk b _ _ p Hp) as (b1 & E1 & H1); [rewrite length_app; simpl; lia|rewrite total_app; simpl; lia|].
  rewrite take_app_length, drop_app_ge in H1 by lia. replace (S (length _) - length _)%nat with 1%nat in H1 by lia. simpl in H1. rewrite ?drop_0 in H1.
  destruct (delete_holds junk b1 _ _ p H1) as (b' & E2 & H2); [rewrite length_app; simpl; lia|rewrite total_app; simpl; lia|].
  rewrite take_app_length, drop_app_ge in H2 by lia. replace (S (length _) - length _)%nat with 1%nat in H2 by lia. simpl in H2. rewrite ?drop_0 in H2.
  destruct (pairs_remove l1 l2 field x Hnd) as [Hnd' <-]. exists b1, b', (l1 ++ l2). split_and!; try done; [|rewrite !length_app; simpl; lia].
  split_and!; try done. rewrite flat_app. by eapply at_holds.
Qed.

(** The iterator stands on pair [n - 1]. *)
Definition zi_at (b : bytes) (l : pairs) (n : nat) (hi : hashTypeIterator) : Prop :=
  match n with
  | O => hi = HiZiplist None None
  | S m => ∃ fp vp, hi = HiZiplist (Some fp) (Some vp) ∧ zl_at b (flat l) (2 * m) fp ∧ zl_at b (flat l) (S (2 * m)) vp
  end.

Lemma zi_next b l n hi : zl_holds b (flat l) → (n ≤ length l)%nat → zi_at b l n hi →
  if decide (n < length l)%nat then ∃ hi', hashTypeNext addr (HZiplist b) hi = Some (hi', true) ∧ zi_at b l (S n) hi'
  else hashTypeNext addr (HZiplist b) hi = Some (hi, false).
Proof.
  intros Hb Hn Hi.
  assert (∃ fp vp r, hi = HiZiplist fp vp ∧
    (match fp, vp with None, None => ziplistIndex b 0 | Some _, Some vp => ziplistNext b vp | _, _ => None end) = Some r ∧
    if decide (n < length l)%nat then ∃ p, r = Some p ∧ zl_at b (flat l) (2 * n) p else r = None) as (fp & vp & r & -> & E & Hr).
  { destruct n as [|m]; cbn [zi_at] in Hi.
    - exists None, None. destruct (zl_index b l Hb) as (r & E & Hr). exists r. split_and!; try done. destruct r as [p|].
      + destruct Hr as [Hne Hp]. rewrite decide_True by (destruct l; [done|simpl; lia]). by exists p.
      + rewrite decide_False by (rewrite Hr; simpl; lia). done.
    - destruct Hi as (fp & vp & -> & _ & Hvp). exists (Some fp), (Some vp). destruct (next_at _ _ _ _ Hvp) as (r & E & Hr). exists r. split_and!; try done.
      rewrite flat_length in Hr. replace (S (S (2 * m))) with (2 * S m)%nat in Hr by lia. destruct (decide (S m < length l)%nat).
      + rewrite (decide_True (P := (2 * S m < 2 * length l)%nat)) in Hr by lia. exact Hr.
      + rewrite (decide_False (P := (2 * S m < 2 * length l)%nat)) in Hr by lia. exact Hr. }
  cbn [hashTypeNext]. rewrite E. cbn [mbind option_bind]. destruct (decide (n < length l)%nat) as [Hlt|Hge]; [|by subst r].
  destruct Hr as (p & -> & Hp). destruct (lookup_lt_is_Some_2 l n Hlt) as [[f x] Hl].
  destruct (value_at _ _ _ _ _ _ Hp Hl) as (q & -> & Hq). cbn [mbind option_bind]. eexists. split; [done|]. by exists p, q.
Qed.

Lemma zi_cursor b l n hi p : l !! n = Some p → zi_at b l (S n) hi → cursor_ok (HZiplist b) hi p.
Proof.
  intros Hl (fp & vp & -> & Hf & Hv).
  destruct (get_at _ _ _ _ p.1 Hf) as (zf & Ef & Hzf & Hif); [by rewrite flat_field, Hl|].
  destruct (get_at _ _ _ _ p.2 Hv) as (zv & Ev & Hzv & Hiv); [by rewrite flat_value, Hl|].
  exists zf, zv. cbn [hashTypeCurrentObject hashTypeCurrentFromZiplist]. by rewrite Ef, Ev.
Qed.

Lemma each_zl {S} b l (body : hashTypeIterator → S → option S) fuel : zl_holds b (flat l) →
  ∀ n hi, zi_at b l n hi → (n ≤ length l)%nat → (length l - n < fuel)%nat →
  ∃ his, Forall2 (cursor_ok (HZiplist b)) his (drop n l) ∧ ∀ s, hash_each addr fuel (HZiplist b) body hi s = run_each body his s.
Proof.
  intros Hb. induction fuel as [|fuel IH]; intros n hi Hi Hn Hf; [lia|]. pose proof (zi_next b l n hi Hb Hn Hi) as Hnext.
  destruct (decide (n < length l)%nat) as [Hlt|Hge].
  - destruct Hnext as (hi' & E & Hi'). destruct (IH (Datatypes.S n) hi' Hi') as (his & Hall & Hrun); [lia|lia|].
    destruct (lookup_lt_is_Some_2 l n Hlt) as [p Hp]. rewrite (drop_S _ _ _ Hp). exists (hi' :: his). split; [constructor; [by eapply zi_cursor|done]|].
    intros s. cbn [hash_each run_each]. rewrite E. cbn [mbind option_bind]. destruct (body hi' s); [|done]. apply Hrun.
  - exists []. rewrite drop_ge by lia. split; [done|]. intros s. cbn [hash_each run_each]. rewrite Hnext. cbn [mbind option_bind].
    destruct n as [|m]; [simpl in Hi; by subst hi|]. by destruct Hi as (fp & vp & -> & _).
Qed.

Lemma iterate_zl {S} b l (body : hashTypeIterator → S → option S) : zl_holds b (flat l) →
  ∃ his, Forall2 (cursor_ok (HZiplist b)) his l ∧ ∀ s, hash_iterate addr (HZiplist b) body s = run_each body his s.
Proof.
  intros Hb. destruct (each_zl b l body (hash_fuel (HZiplist b)) Hb 0 (HiZiplist None None)) as (his & Hall & Hrun); [done|lia| |by exists his].
  pose proof (holds_sizes b _ Hb). simpl. rewrite flat_length in *. lia.
Qed.

(** *** Cursors *)

Lemma current_sds o hi p : cursor_ok o hi p →
  hashTypeCurrentObjectNewSds junk o hi OBJ_HASH_KEY = Some p.1 ∧ hashTypeCurrentObjectNewSds junk o hi OBJ_HASH_VALUE = Some p.2.
Proof.
  intros (zf & zv & Ef & <- & Hif & Ev & <- & Hiv). unfold hashTypeCurrentObjectNewSds. rewrite Ef, Ev. cbn [mbind option_bind].
  split; [destruct zf|destruct zv]; try done; simpl; apply ll_bytes_ok; auto.
Qed.

Lemma reply_zval_ok z : zint z → reply_zval junk z = Some (RBulk (zval_str z)).
Proof. intros Hz. destruct z as [s|n]; [done|]. apply bulk_ll_ok. auto. Qed.

Lemma current_reply o hi p : cursor_ok o hi p →
  addHashIteratorCursorToReply junk o hi OBJ_HASH_KEY = Some (RBulk p.1) ∧ addHashIteratorCursorToReply junk o hi OBJ_HASH_VALUE = Some (RBulk p.2).
Proof.
  assert (∀ w z, hashTypeCurrentObject o hi w = Some z → zint z → addHashIteratorCursorToReply junk o hi w = Some (RBulk (zval_str z))) as Hw.
  { intros w z E Hz. unfold addHashIteratorCursorToReply, hashTypeCurrentObject in *. destruct o as [zl|d|]; [|by apply bind_Some in E as (x & -> & [= <-])|done].
    rewrite E. by apply reply_zval_ok. }
  intros (zf & zv & Ef & <- & Hif & Ev & <- & Hiv). split; by apply Hw.
Qed.

(** *** Hash tables *)

Lemma ht_new : ht_hash dictCreate ∅.
Proof. split; [|by split]. split; [apply dictCreate_wf|done]. Qed.

Lemma ht_size_hash d M : ht_hash d M → dictSize d = Z.of_nat (base.size M) ∧ Z.of_nat (length (entries d)) = Z.of_nat (base.size M).
Proof.
  intros (Hi & _ & <-). rewrite (size_vals htype d Hi), (dictSize_entries htype d (proj1 Hi)), <- (size_dict_map htype d (proj1 Hi)). done.
Qed.

Lemma ht_get_ok d M field : ht_hash d M →
  ∃ d', hashTypeGetFromHashTable hash d field = Some (d', M !! field) ∧ ht_hash d' M.
Proof.
  intros (Hi & Hs & <-). unfold hashTypeGetFromHashTable. destruct (find_spec htype eq_refl d field Hi) as (d' & r & E & Hi' & Hv & Hr).
  pose proof (dictFind_sizes htype d field d' r (proj1 Hi) Hs E) as Hs'. rewrite E. cbn [mbind option_bind]. exists d'. split; [|done].
  destruct r as [r|]; [|by rewrite Hr]. destruct Hr as (x & Hx & -> & _). apply bind_Some in Hx as (e & -> & Ee). cbn [mbind option_bind]. by rewrite Ee.
Qed.

Lemma ht_put d M field value : ht_hash d M → Z.of_nat (base.size M) < MAX_ENTRIES →
  ∃ d', hashTypeSet hash cr junk addr max (HHt d) field value = Some (HHt d', bool_decide (is_Some (M !! field))) ∧ ht_hash d' (<[field := value]> M).
Proof.
  intros (Hi & Hs & <-) Hsz. cbn [hashTypeSet]. destruct (find_spec htype eq_refl d field Hi) as (d1 & r & E & Hi1 & Hv & Hr).
  pose proof (dictFind_sizes htype d field d1 r (proj1 Hi) Hs E) as Hs1. rewrite E. cbn [mbind option_bind]. destruct r as [r|].
  - destruct Hr as (x & _ & -> & Hput). destruct (Hput value) as (d2 & E2 & Hi2 & Hv2). rewrite E2. cbn [mbind option_bind]. exists d2.
    split; [done|]. split_and!; try done. by eapply dictSetVal_sizes.
  - rewrite Hr. destruct (add_spec htype eq_refl cr d1 field value Hi1) as (d2 & E2 & Hi2 & Hv2); [by rewrite Hv|by rewrite Hv|]. rewrite E2. cbn [mbind option_bind].
    exists d2. rewrite bool_decide_false by apply is_Some_None. split; [done|]. split_and!; try done; [|by rewrite Hv2, Hv].
    by eapply dictAdd_sizes; [apply Hi1|done|exact E2].
Qed.

Lemma ht_delete d M field : ht_hash d M → Z.of_nat (base.size M) < 2 ^ 31 →
  ∃ d', hashTypeDelete hash cr junk (HHt d) field = Some (HHt d', bool_decide (is_Some (M !! field))) ∧ ht_hash d' (delete field M).
Proof.
  intros Hd Hsz. pose proof Hd as (Hi & Hs & HM). cbn [hashTypeDelete]. unfold dictDelete.
  destruct (dictGenericDelete_spec htype d field false (proj1 Hi)) as (d1 & he & fr & E & Hwf1 & Hm & Hcase). rewrite E. cbn [mbind option_bind].
  pose proof (dictGenericDelete_sizes htype d field false d1 he fr (proj1 Hi) Hs E) as Hs1.
  assert (ht_hash d1 (delete field M)) as Hd1.
  { split_and!; [|done|].
    - split; [done|]. intros j. rewrite Hm. intros [_ Hj]%lookup_delete_Some. by apply (proj2 Hi j).
    - rewrite <- HM. unfold vals. by rewrite Hm, omap_delete. }
  destruct he as [he|]; simpl.
  - destruct Hcase as (_ & Hl & _). eexists. rewrite bool_decide_true; cycle 1.
    { rewrite <- HM, vals_lookup, Hl. pose proof (proj2 Hi field) as Hn. rewrite Hl in Hn. destruct (v he); [|done]. by eexists. }
    split; [done|]. destruct (htNeedsResize d1); [|done]. destruct (dictResize_ok htype cr d1 Hwf1 Hs1) as (Hwf2 & Hs2 & Hm2).
    + destruct (ht_size_hash d1 _ Hd1) as [_ ->]. assert (base.size (delete field M) ≤ base.size M)%nat; [|lia].
      apply map_subseteq_size. apply delete_subseteq.
    + destruct Hd1 as (Hi1 & _ & HM1). split_and!; [by eapply inv_eq|done|]. rewrite <- HM1. by apply vals_eq.
  - destruct Hcase as [Hl _]. eexists. rewrite bool_decide_false; [done|]. rewrite <- HM, vals_lookup, Hl. apply is_Some_None.
Qed.

Lemma each_ht_hash {S} d (body : hashTypeIterator → S → option S) fuel : dict_wf htype d → sizes_ok d →
  ∀ it de, iter_ok d it → it_safe it = false → (it_started it = true → it_fingerprint it = Some (dictFingerprint addr d)) →
  (length (pending d it) < fuel)%nat →
  ∃ his, Forall2 (λ hi k, ∃ di, hi = HiHt di (Some k)) his (pending d it) ∧
    ∀ s, hash_each addr fuel (HHt d) body (HiHt it de) s = run_each body his s.
Proof.
  intros Hwf Hs. induction fuel as [|fuel IH]; intros it de Hok Hsf Hfp Hf; [lia|].
  destruct (dictNext_spec htype addr d it Hwf Hs Hok) as (d' & it' & r & En & Hd & Hsf' & Hst' & Hfp' & Hr & Hnext).
  { intros Hx. congruence. }
  assert (d' = d ∧ it_fingerprint it' = Some (dictFingerprint addr d)) as [-> Hfp1].
  { unfold it_begin in Hd, Hfp'. destruct (it_started it) eqn:Est; [split; [done|]; rewrite Hfp'; auto|].
    rewrite Hsf in Hd, Hfp'. done. }
  destruct (pending d it) as [|k ks] eqn:Ep; subst r; cbn [head] in *.
  - exists []. split; [done|]. intros s. cbn [hash_each hashTypeNext]. rewrite En. cbn [mbind option_bind].
    rewrite bool_decide_false by apply is_Some_None. cbn [hashTypeReleaseIterator run_each]. unfold dictReleaseIterator. rewrite Hst', Hsf', Hsf, Hfp1, decide_True by done. done.
  - destruct Hnext as (Hok' & Hp' & _); [done|]. destruct (IH it' (Some k) Hok') as (his & Hall & Hrun); [congruence|done|rewrite Hp'; simpl in *; lia|].
    exists (HiHt it' (Some k) :: his). split; [constructor; [by eexists|by rewrite Hp' in Hall]|].
    intros s. cbn [hash_each hashTypeNext run_each]. rewrite En. cbn [mbind option_bind]. rewrite bool_decide_true by by eexists.
    destruct (body _ s); [|done]. apply Hrun.
Qed.

Lemma ht_cursor d M hi p : ht_hash d M → M !! p.1 = Some p.2 → (∃ di, hi = HiHt di (Some p.1)) → cursor_ok (HHt d) hi p.
Proof.
  intros (_ & _ & <-) Hp [di ->]. rewrite vals_lookup in Hp. apply bind_Some in Hp as (y & Hy & Ey). simpl in Ey. subst y.
  exists (ZStr p.1), (ZStr p.2). cbn. rewrite Hy. cbn. by split_and!.
Qed.

Lemma ht_cursors d M his l : ht_hash d M → Forall (λ p, M !! p.1 = Some p.2) l →
  Forall2 (λ hi p, ∃ di, hi = HiHt di (Some p.1)) his l → Forall2 (cursor_ok (HHt d)) his l.
Proof.
  intros Hd Hl Hall. induction Hall as [|hi p his l Hh Hall IH]; [done|]. apply Forall_cons in Hl as [Hp Hl].
  constructor; [by eapply ht_cursor|by apply IH].
Qed.

(** A loop over a hash runs its body on every pair once. *)
Lemma hash_iterate_ok {S} o M (body : hashTypeIterator → S → option S) : hash_ok o M →
  ∃ l his, l ≡ₚ map_to_list M ∧ Forall2 (cursor_ok o) his l ∧ ∀ s, hash_iterate addr o body s = run_each body his s.
Proof.
  destruct o as [b|d|]; simpl; [| |done].
  - intros (l & (Hb & Hnd & <-) & _). destruct (iterate_zl b l body Hb) as (his & Hall & Hrun). exists l, his. split_and!; try done.
    symmetry. by apply map_to_list_to_map.
  - intros Hd. pose proof Hd as (Hi & Hs & HM). pose proof (proj1 Hi) as Hwf. destruct (ht_size_hash d M Hd) as [E1 E2].
    destruct (each_ht_hash d body (hash_fuel (HHt d)) Hwf Hs dictGetIterator None) as (his & Hall & Hrun); try done.
    { exact (fresh_iter_ok htype d false Hwf). }
    { change dictGetIterator with (DI (-1) 0 false (@None bytes) None None). rewrite (fresh_pending d false). unfold Dict.keys. rewrite length_fmap. simpl. lia. }
    change dictGetIterator with (DI (-1) 0 false (@None bytes) None None) in Hall. rewrite (fresh_pending d false) in Hall.
    destruct (pairs_of_keys M (Dict.keys (entries d))) as (l & El & Hp & Hl).
    { apply (wf_keys _ _ Hwf). }
    { rewrite <- HM. apply set_eq. intros x. rewrite elem_of_list_to_set, elem_of_dom.
      destruct (decide (x ∈ Dict.keys (entries d))) as [Hin|Hni].
      - split; [|done]. intros _. destruct (vals d !! x) eqn:E; [by eexists|]. by apply (inv_None htype d x Hi), dict_map_None in E.
      - split; [done|]. apply dict_map_None, (inv_None htype d x Hi) in Hni. rewrite Hni. intros Hx. by apply is_Some_None in Hx. }
    exists l, his. split; [done|]. split; [|exact Hrun]. rewrite <- El, Forall2_fmap_r in Hall.
    by eapply ht_cursors.
Qed.

(** ** The operations on both encodings *)

Lemma create_hash_ok : ∃ o, createHashObject junk = Some o ∧ hash_ok o ∅.
Proof.
  unfold createHashObject. destruct (new_holds junk) as (b & -> & Hb). eexists. split; [done|]. exists []. split; [|done]. split_and!; try done. apply NoDup_nil_2.
Qed.

Lemma convert_hash_ok b l M : zl_pairs b l M → Z.of_nat (length l) < MAX_ENTRIES →
  ∃ o, hashTypeConvert hash cr junk addr (HZiplist b) = Some o ∧ hash_ok o M.
Proof.
  intros (Hb & Hnd & <-) Hlen. cbn [hashTypeConvert]. unfold hashTypeConvertZiplist.
  destruct (iterate_zl b l (convert_pair hash cr junk (HZiplist b)) Hb) as (his & Hall & ->).
  destruct (run_each_inv _ (convert_pair hash cr junk (HZiplist b)) (λ l1 d, ht_hash d (list_to_map l1)) _ _ Hall [] dictCreate) as (d & -> & Hd); [apply ht_new| |by exists (HHt d)].
  intros l1 [f x] hi d [l2 Hpre] Hcur Hd. simpl in Hpre. unfold convert_pair. destruct (current_sds _ _ _ Hcur) as [-> ->]. cbn [mbind option_bind fst snd].
  rewrite Hpre, <- app_assoc in Hnd. pose proof Hnd as Hnd'. rewrite fmap_app in Hnd'. apply NoDup_app in Hnd' as (Hn1 & Hdis & _).
  assert (f ∉ l1.*1) as Hf by (intros Hx; apply (Hdis f Hx); by left). destruct (pairs_append l1 f x Hn1 Hf) as [_ Eap].
  destruct Hd as (Hi & Hs & HM). destruct (add_spec htype eq_refl cr d f x Hi) as (d' & E & Hi' & HM').
  { rewrite HM. by apply pairs_missing. }
  { rewrite HM. pose proof (map_to_list_to_map (M := gmap bytes) l1 Hn1) as Hp%Permutation_length. rewrite length_map_to_list in Hp. rewrite Hp. rewrite Hpre, !length_app in Hlen. lia. }
  rewrite E. cbn [mbind option_bind]. simpl. exists d'. split; [done|]. split_and!; [done| |by rewrite HM', HM, Eap].
  by eapply dictAdd_sizes; [apply Hi|done|exact E].
Qed.

Lemma zl_pairs_size b l M : zl_pairs b l M → length l = base.size M ∧ weight l = hweight M.
Proof.
  intros (_ & Hnd & <-). rewrite hweight_list by done. split; [|done].
  pose proof (map_to_list_to_map (M := gmap bytes) l Hnd) as Hp%Permutation_length. by rewrite length_map_to_list in Hp.
Qed.

Lemma tryConversion_ok o M args : hash_ok o M → hweight M ≤ 2 ^ 30 →
  ∃ o', hashTypeTryConversion hash cr junk addr maxv o args = Some o' ∧ hash_ok o' M.
Proof.
  intros Ho Hw. destruct o as [b|d|]; cbn [hashTypeTryConversion]; [|by eexists|done]. destruct (existsb _ args); [|by eexists].
  destruct Ho as (l & Hl & _). eapply convert_hash_ok; [done|]. destruct (zl_pairs_size _ _ _ Hl) as [-> _].
  pose proof (hweight_size M). unfold MAX_ENTRIES. lia.
Qed.

Lemma hashTypeGetValue_ok o M field : hash_ok o M →
  ∃ o' r, hashTypeGetValue hash o field = Some (o', r) ∧ hash_ok o' M ∧ found r (M !! field).
Proof.
  intros Ho. destruct o as [b|d|]; cbn [hashTypeGetValue]; [| |done].
  - pose proof Ho as (l & Hl & _). destruct (zl_get_ok b l M field Hl) as (r & -> & Hr). cbn [mbind option_bind]. by exists (HZiplist b), r.
  - destruct (ht_get_ok d M field Ho) as (d' & -> & Hd'). cbn [mbind option_bind]. eexists _, _. split; [done|]. split; [exact Hd'|].
    destruct (M !! field); simpl; [|done]. split; [done|]. by intros n [=].
Qed.

(** The other readers, in terms of this one. *)
Lemma getValueLength_eq o field : hashTypeGetValueLength hash o field =
  ('(o, r) ← hashTypeGetValue hash o field;
   Some (o, match r with None => 0 | Some (ZStr s) => Z.of_nat (length s) | Some (ZInt n) => sdigits10 n end)).
Proof.
  destruct o as [b|d|]; simpl; [| |done]; [by destruct (hashTypeGetFromZiplist b field)|].
  destruct (hashTypeGetFromHashTable hash d field) as [[d' [x|]]|]; done.
Qed.

Lemma exists_eq o field : hashTypeExists hash o field = ('(o, r) ← hashTypeGetValue hash o field; Some (o, bool_decide (is_Some r))).
Proof.
  destruct o as [b|d|]; simpl; [| |done]; [by destruct (hashTypeGetFromZiplist b field)|].
  destruct (hashTypeGetFromHashTable hash d field) as [[d' [x|]]|]; done.
Qed.

Lemma field_reply_eq o field : o ≠ NotHash → addHashFieldToReply hash junk (Some o) field =
  ('(o, r) ← hashTypeGetValue hash o field;
   match r with None => Some (Some o, RNullBulk) | Some z => r ← reply_zval junk z; Some (Some o, r) end).
Proof.
  intros Ho. destruct o as [b|d|]; simpl; [| |done]; [by destruct (hashTypeGetFromZiplist b field)|].
  destruct (hashTypeGetFromHashTable hash d field) as [[d' [x|]]|]; done.
Qed.

Lemma hash_ok_not o M : hash_ok o M → o ≠ NotHash.
Proof. by destruct o. Qed.

Lemma hashTypeGetValueLength_ok o M field : hash_ok o M →
  ∃ o', hashTypeGetValueLength hash o field = Some (o', match M !! field with None => 0 | Some x => Z.of_nat (length x) end) ∧ hash_ok o' M.
Proof.
  intros Ho. rewrite getValueLength_eq. destruct (hashTypeGetValue_ok o M field Ho) as (o' & r & -> & Ho' & Hr). cbn [mbind option_bind].
  exists o'. split; [|done]. destruct r as [z|]; [|by rewrite Hr]. destruct Hr as [-> Hz]. destruct z as [s|n]; [done|].
  destruct (ll2string_correct [] n 0 (Hz n eq_refl)) as (_ & _ & ->); [done|done|done].
Qed.

Lemma found_is_Some r x : found r x → bool_decide (is_Some r) = bool_decide (is_Some x).
Proof. destruct r as [z|]; simpl; [intros [-> _]|intros ->]; done. Qed.

Lemma hashTypeExists_ok o M field : hash_ok o M →
  ∃ o', hashTypeExists hash o field = Some (o', bool_decide (is_Some (M !! field))) ∧ hash_ok o' M.
Proof.
  intros Ho. rewrite exists_eq. destruct (hashTypeGetValue_ok o M field Ho) as (o' & r & -> & Ho' & Hr). cbn [mbind option_bind].
  exists o'. by rewrite (found_is_Some _ _ Hr).
Qed.

Lemma field_reply_ok o M field : hash_ok o M →
  ∃ o', addHashFieldToReply hash junk (Some o) field = Some (Some o', match M !! field with None => RNullBulk | Some x => RBulk x end) ∧ hash_ok o' M.
Proof.
  intros Ho. rewrite field_reply_eq by (by eapply hash_ok_not). destruct (hashTypeGetValue_ok o M field Ho) as (o' & r & -> & Ho' & Hr). cbn [mbind option_bind].
  exists o'. destruct r as [z|]; [|by rewrite Hr]. destruct Hr as [-> Hz]. by rewrite reply_zval_ok.
Qed.

Lemma hashTypeLength_ok o M : hash_ok o M → ∃ o', hashTypeLength o = Some (o', Z.of_nat (base.size M)) ∧ hash_ok o' M.
Proof.
  intros Ho. destruct o as [b|d|]; cbn [hashTypeLength]; [| |done].
  - destruct Ho as (l & Hl & Hlen). destruct (zl_pairs_size _ _ _ Hl) as [Hsz _]. destruct Hl as (Hb & Hnd & HM). destruct (len_holds _ _ Hb) as (b' & -> & Hb').
    cbn [mbind option_bind]. exists (HZiplist b'). split; [|by exists l]. do 2 f_equal. rewrite flat_length, Hsz. rewrite Nat2Z.inj_mul, Z.mul_comm. by apply Z.div_mul.
  - destruct (ht_size_hash d M Ho) as [-> _]. by eexists.
Qed.

(** After an update of a ziplist: its length, and the conversion. *)
Lemma zl_settle b l M : zl_pairs b l M → Z.of_nat (length l) < MAX_ENTRIES →
  ∃ o', ('(o, n) ← hashTypeLength (HZiplist b); if max <? n then hashTypeConvert hash cr junk addr o else Some o) = Some o' ∧ hash_ok o' M.
Proof.
  intros Hl Hlen. pose proof Hl as (Hb & Hnd & HM). cbn [hashTypeLength]. destruct (len_holds _ _ Hb) as (b' & -> & Hb'). cbn [mbind option_bind].
  rewrite flat_length, Nat2Z.inj_mul, Z.mul_comm, Z.div_mul by done. assert (zl_pairs b' l M) as Hl' by done.
  destruct (Z.ltb_spec max (Z.of_nat (length l))); [by eapply convert_hash_ok|]. eexists. split; [done|]. exists l. split; [done|lia].
Qed.

Lemma hashTypeSet_ok o M field value : hash_ok o M →
  hweight M + Z.of_nat (length field) + Z.of_nat (length value) ≤ 2 ^ 29 →
  ∃ o', hashTypeSet hash cr junk addr max o field value = Some (o', bool_decide (is_Some (M !! field))) ∧ hash_ok o' (<[field := value]> M).
Proof.
  intros Ho Hw. pose proof (hweight_size M) as Hsz. destruct o as [b|d|]; [| |done].
  2: { destruct (ht_put d M field value Ho) as (d' & -> & Hd'); [unfold MAX_ENTRIES; lia|]. by exists (HHt d'). }
  cbn [hashTypeSet]. destruct Ho as (l & Hl & Hlen). destruct (zl_pairs_size _ _ _ Hl) as [Hn Hwl]. pose proof Hl as (Hb & Hnd & HM).
  destruct (find_field_ok b l field Hb) as (r & -> & Hr). cbn [mbind option_bind]. destruct r as [p|].
  - destruct Hr as (j & x & Hp & Hj). destruct (value_at _ _ _ _ _ _ Hp Hj) as (q & -> & Hq). cbn [mbind option_bind].
    destruct (zl_update b l M j q q field x value Hl Hj Hq) as (b1 & b' & l' & -> & E2 & Hl' & Hlen'); [lia|lia|done|]. cbn [mbind option_bind]. rewrite E2. cbn [mbind option_bind].
    destruct (zl_settle b' l' _ Hl') as (o' & E & Ho'); [unfold MAX_ENTRIES; lia|]. apply bind_Some in E as ([o1 n] & -> & E). cbn [mbind option_bind]. rewrite E. cbn [mbind option_bind].
    exists o'. rewrite bool_decide_true; [done|]. rewrite <- HM, (pairs_lookup l j field x Hnd Hj). by eexists.
  - destruct (zl_append b l M field value Hl Hr) as (b1 & b' & -> & E2 & Hl'); [lia..|]. cbn [mbind option_bind]. rewrite E2. cbn [mbind option_bind].
    destruct (zl_settle b' _ _ Hl') as (o' & E & Ho'); [rewrite length_app; simpl; unfold MAX_ENTRIES; lia|].
    apply bind_Some in E as ([o1 n] & -> & E). cbn [mbind option_bind]. rewrite E. cbn [mbind option_bind].
    exists o'. rewrite bool_decide_false; [done|]. rewrite <- HM, (pairs_missing l field Hr). apply is_Some_None.
Qed.

Lemma hashTypeDelete_ok o M field : hash_ok o M → hweight M ≤ 2 ^ 30 →
  ∃ o', hashTypeDelete hash cr junk o field = Some (o', bool_decide (is_Some (M !! field))) ∧ hash_ok o' (delete field M).
Proof.
  intros Ho Hw. pose proof (hweight_size M) as Hsz. destruct o as [b|d|]; [| |done].
  2: { destruct (ht_delete d M field Ho) as (d' & -> & Hd'); [lia|]. by exists (HHt d'). }
  cbn [hashTypeDelete]. destruct Ho as (l & Hl & Hlen). destruct (zl_pairs_size _ _ _ Hl) as [Hn Hwl]. pose proof Hl as (Hb & Hnd & HM).
  destruct (find_field_ok b l field Hb) as (r & -> & Hr). cbn [mbind option_bind]. destruct r as [p|].
  - destruct Hr as (j & x & Hp & Hj). destruct (zl_remove b l M j p field x Hl Hj Hp) as (b1 & b' & l' & -> & E2 & Hl' & Hlen'); [lia|].
    cbn [mbind option_bind]. rewrite E2. cbn [mbind option_bind]. exists (HZiplist b'). rewrite bool_decide_true; [|rewrite <- HM, (pairs_lookup l j field x Hnd Hj); by eexists].
    split; [done|]. exists l'. split; [done|lia].
  - assert (M !! field = None) as Ef by (rewrite <- HM; by apply pairs_missing). exists (HZiplist b). rewrite bool_decide_false by (rewrite Ef; apply is_Some_None).
    split; [done|]. rewrite delete_id by done. by exists l.
Qed.
End rep.
