(* ===== verification/THashSpec.v ===== *)
(** * t_hash.c: the commands refine operations on finite maps

    The keyspace stands for a map from keys to non-empty finite maps from fields
    to values (or a value of some other type).  This file has the specification
    of every command on that map and the proof that the commands meet it, for
    both encodings and every conversion between them.  HKEYS, HVALS and HGETALL
    send the pairs in some order, each of them once. *)

From stdpp Require Import strings.
From S2P Require Import Prelude Decimal Util Dict MapApi SdsText Ziplist ZiplistSpec Keyspace TSet THash THashRep.

(** ** Specification *)

Abbreviation hdb := (gmap (list Z) (option (gmap (list Z) (list Z)))).

(** Given replies, or the pairs of a map in any order. *)
Inductive hreply := HReplies (rs : list reply) | HPairs (flag_key flag_value : bool) (M : hmap).

Definition select (flag_key flag_value : bool) (p : bytes * bytes) : list reply :=
  (if flag_key then [RBulk p.1] else []) ++ (if flag_value then [RBulk p.2] else []).

Definition per_pair (flag_key flag_value : bool) : Z := (if flag_key then 1 else 0) + (if flag_value then 1 else 0).

Definition hsize (M : hmap) : Z := Z.of_nat (base.size M).

Definition hreply_sent (rs : list reply) (a : hreply) : Prop :=
  match a with
  | HReplies rs' => rs = rs'
  | HPairs fk fv M => ∃ l, l ≡ₚ map_to_list M ∧ rs = RMultiLen (hsize M * per_pair fk fv) :: concat (select fk fv <$> l)
  end.

Record hout := HOut { ho_keys : hdb; ho_dirty : Z; ho_events : list event; ho_reply : hreply }.

Definition hanswer (D : hdb) (r : reply) : hout := HOut D 0 [] (HReplies [r]).

Inductive hcommand :=
  | HSET (cmdname k : bytes) (args : list bytes)
  | HSETNX (k field value : bytes)
  | HINCRBY (k field incr : bytes)
  | HDEL (k : bytes) (fields : list bytes)
  | HGET (k field : bytes)
  | HMGET (k : bytes) (fields : list bytes)
  | HLEN (k : bytes)
  | HSTRLEN (k field : bytes)
  | HEXISTS (k field : bytes)
  | HKEYS (k : bytes)
  | HVALS (k : bytes)
  | HGETALL (k : bytes).

Definition hset_word : bytes := [104; 115; 101; 116].
Definition hmset_word : bytes := [104; 109; 115; 101; 116].

(** A missing key is an empty hash. *)
Definition hash_at (D : hdb) (k : bytes) : hmap := default ∅ (mjoin (D !! k)).

(** A command that creates the hash, and a command on a hash that exists. *)
Definition on_hash (D : hdb) (k : bytes) (f : hmap → hout) : hout :=
  match D !! k with Some None => hanswer D RWrongType | _ => f (hash_at D k) end.

Definition on_existing (D : hdb) (k : bytes) (missing : reply) (f : hmap → hout) : hout :=
  match D !! k with None => hanswer D missing | Some None => hanswer D RWrongType | Some (Some M) => f M end.

(** [M] at [k], counted as one change. *)
Definition changed (D : hdb) (k : bytes) (M : hmap) (name : string) (r : reply) : hout :=
  HOut (<[k := Some M]> D) 1 [SignalModified k; NotifyHash name k] (HReplies [r]).

(** Later pairs win. *)
Fixpoint set_all (args : list bytes) (M : hmap) : hmap :=
  match args with field :: value :: args => set_all args (<[field := value]> M) | _ => M end.

Definition hset_spec (D : hdb) (cmdname k : bytes) (args : list bytes) : hout :=
  if Nat.odd (length args) then hanswer D (RError "wrong number of arguments for HMSET")
  else on_hash D k (λ M,
    let M' := set_all args M in
    changed D k M' "hset" (if is_word cmdname hset_word then RLong (hsize M' - hsize M) else ROk)).

Definition hsetnx_spec (D : hdb) (k field value : bytes) : hout :=
  on_hash D k (λ M,
    match M !! field with
    | Some _ => hanswer D (RLong 0)
    | None => changed D k (<[field := value]> M) "hset" (RLong 1)
    end).

(** The value of a field as a number; a missing field is 0. *)
Definition number_at (M : hmap) (field : bytes) : option Z :=
  match M !! field with None => Some 0 | Some x => string2ll x end.

Definition hincrby_spec (D : hdb) (k field incr : bytes) : hout :=
  match string2ll incr with
  | None => hanswer D (RError "value is not an integer or out of range")
  | Some incr =>
      on_hash D k (λ M,
        match number_at M field with
        | None => hanswer D (RError "hash value is not an integer")
        | Some old =>
            let value := old + incr in
            if (LLONG_MIN <=? value) && (value <=? LLONG_MAX)
            then changed D k (<[field := decimal_z value]> M) "hincrby" (RLong value)
            else hanswer D (RError "increment or decrement would overflow")
        end)
  end.

Definition without (fields : list bytes) (M : hmap) : hmap := foldl (λ M f, delete f M) M fields.

(** Empty hashes are not stored. *)
Definition hdel_spec (D : hdb) (k : bytes) (fields : list bytes) : hout :=
  on_existing D k (RLong 0) (λ M,
    let M' := without fields M in
    let n := hsize M - hsize M' in
    HOut (if decide (M' = ∅) then delete k D else <[k := Some M']> D) n
      (if 0 <? n then [SignalModified k; NotifyHash "hdel" k] ++ (if decide (M' = ∅) then [NotifyGeneric "del" k] else []) else [])
      (HReplies [RLong n])).

Definition field_reply (M : hmap) (field : bytes) : reply := match M !! field with None => RNullBulk | Some x => RBulk x end.

Definition hash_spec (c : hcommand) (D : hdb) : hout :=
  match c with
  | HSET cmdname k args => hset_spec D cmdname k args
  | HSETNX k field value => hsetnx_spec D k field value
  | HINCRBY k field incr => hincrby_spec D k field incr
  | HDEL k fields => hdel_spec D k fields
  | HGET k field => on_existing D k RNullBulk (λ M, hanswer D (field_reply M field))
  | HMGET k fields => on_hash D k (λ M, HOut D 0 [] (HReplies (RMultiLen (Z.of_nat (length fields)) :: (field_reply M <$> fields))))
  | HLEN k => on_existing D k (RLong 0) (λ M, hanswer D (RLong (hsize M)))
  | HSTRLEN k field => on_existing D k (RLong 0) (λ M, hanswer D (RLong (Z.of_nat (length (default [] (M !! field))))))
  | HEXISTS k field => on_existing D k (RLong 0) (λ M, hanswer D (RLong (if decide (is_Some (M !! field)) then 1 else 0)))
  | HKEYS k => on_existing D k REmptyMulti (λ M, HOut D 0 [] (HPairs true false M))
  | HVALS k => on_existing D k REmptyMulti (λ M, HOut D 0 [] (HPairs false true M))
  | HGETALL k => on_existing D k REmptyMulti (λ M, HOut D 0 [] (HPairs true true M))
  end.

(** The name of the command and the number of arguments that the table of
    commands asks for, and hashes of less than 2^29 bytes (with 18 more for each
    string): the offsets of ziplists are 32 bits wide. *)
Definition hash_fits (c : hcommand) (D : hdb) : bool :=
  match c with
  | HSET cmdname k args =>
      (is_word cmdname hset_word || is_word cmdname hmset_word) && (2 <=? Z.of_nat (length args)) &&
      (hweight (hash_at D k) + total args <=? 2 ^ 29)
  | HSETNX k field value => hweight (hash_at D k) + total [field; value] <=? 2 ^ 29
  | HINCRBY k field _ => hweight (hash_at D k) + total [field] + 20 <=? 2 ^ 29
  | HDEL k _ | HGET k _ | HMGET k _ | HLEN k | HSTRLEN k _ | HEXISTS k _ | HKEYS k | HVALS k | HGETALL k =>
      hweight (hash_at D k) <=? 2 ^ 29
  end.

(** *** Sizes *)

Lemma hsize_insert (M : hmap) f x : hsize (<[f := x]> M) = if decide (is_Some (M !! f)) then hsize M else hsize M + 1.
Proof. unfold hsize. rewrite map_size_insert. destruct (M !! f); [by rewrite decide_True by by eexists|]. rewrite decide_False by apply is_Some_None. lia. Qed.

Lemma hsize_delete (M : hmap) f : hsize (delete f M) = if decide (is_Some (M !! f)) then hsize M - 1 else hsize M.
Proof.
  destruct (M !! f) as [x|] eqn:E.
  - rewrite decide_True by by eexists. rewrite <- (insert_delete_id M f x E) at 2. rewrite hsize_insert, decide_False; [lia|].
    rewrite lookup_delete_eq. apply is_Some_None.
  - rewrite decide_False by apply is_Some_None. by rewrite delete_id.
Qed.

Lemma hsize_zero (M : hmap) : (hsize M =? 0) = bool_decide (M = ∅).
Proof.
  unfold hsize. destruct (decide (M = ∅)) as [-> | Hne]; [by rewrite bool_decide_true, map_size_empty|]. rewrite bool_decide_false by done.
  apply Z.eqb_neq. intros E. apply Hne, map_size_empty_iff. lia.
Qed.

Lemma without_size fields : ∀ M, hsize (without fields M) ≤ hsize M ∧ (hsize (without fields M) = hsize M → without fields M = M).
Proof.
  induction fields as [|f fields IH]; intros M; [done|]. unfold without in *. cbn [foldl]. destruct (IH (delete f M)) as [H1 H2].
  rewrite hsize_delete in *. destruct (M !! f) as [x|] eqn:E.
  - rewrite decide_True in * by by eexists. split; [lia|]. intros. lia.
  - rewrite decide_False in * by apply is_Some_None. by rewrite delete_id in * by done.
Qed.

Lemma without_empty fields : without fields ∅ = ∅.
Proof. induction fields as [|f fields IH]; [done|]. unfold without in *. cbn [foldl]. by rewrite delete_empty. Qed.

Lemma number_range M field n : number_at M field = Some n → in_s 64 n.
Proof. unfold number_at. destruct (M !! field); [by intros [? _]%string2ll_spec|]. intros [= <-]. unfold in_s. simpl. lia. Qed.

(** The names of the two commands differ in the second letter. *)
Lemma c_string_lookup s n c : c_string s !! n = Some c → s !! n = Some c.
Proof.
  revert n. induction s as [|d s IH]; intros [|n]; simpl; try done; destruct (d =? 0); try done. apply IH.
Qed.

Lemma cmdname_letter o w c : is_word o w = true → w !! 1%nat = Some c → ∃ c1, o !! 1%nat = Some c1 ∧ lower c1 = c.
Proof.
  intros Hw%bool_decide_eq_true Hc. rewrite <- Hw, list_lookup_fmap in Hc. apply fmap_Some in Hc as (c1 & Hc1 & ->). exists c1.
  split; [by apply c_string_lookup|done].
Qed.

Lemma cmdname_reply o : is_word o hset_word || is_word o hmset_word = true →
  ∃ c1, o !! 1%nat = Some c1 ∧ (c1 =? 115) || (c1 =? 83) = is_word o hset_word.
Proof.
  intros Ho. destruct (is_word o hset_word) eqn:Es.
  - destruct (cmdname_letter o hset_word 115 Es eq_refl) as (c1 & -> & Hc). exists c1. split; [done|]. unfold lower in Hc. destruct (_ && _) in Hc; lia.
  - destruct (cmdname_letter o hmset_word 109 Ho eq_refl) as (c1 & -> & Hc). exists c1. split; [done|]. unfold lower in Hc.
    destruct ((65 <=? c1) && (c1 <=? 90)) eqn:E; lia.
Qed.

Lemma odd_args n : ((Z.of_nat n + 2) mod 2 =? 1) = Nat.odd n.
Proof.
  destruct (Nat.odd n) eqn:E.
  - apply Nat.odd_spec in E as [m ->]. apply Z.eqb_eq. replace (Z.of_nat (2 * m + 1) + 2) with (1 + (Z.of_nat m + 1) * 2) by lia. by rewrite Z_mod_plus_full.
  - assert (Nat.even n = true) as [m ->]%Nat.even_spec by (rewrite <- Nat.negb_odd; by rewrite E).
    apply Z.eqb_neq. replace (Z.of_nat (2 * m) + 2) with ((Z.of_nat m + 1) * 2) by lia. by rewrite Z_mod_mult.
Qed.

(** ** The commands *)

Section commands.
Context (hash : list Z → Z) (Hhash : ∀ k, in_u 64 (hash k)) (cr : bool) (junk : Z) (addr : nat → Z) (max maxv : Z) (Hmax : 0 ≤ max).

Abbreviation hash_ok := (THashRep.hash_ok hash max).

(** What the object at a key stands for. *)
Definition hobj_ok (o : hobj) (a : option hmap) : Prop :=
  match a with Some M => hash_ok o M ∧ M ≠ ∅ | None => o = NotHash end.

Definition refines_hash (s : hserver) (o : hout) (r : option hserver) : Prop :=
  ∃ s' rs, r = Some s' ∧ keys_ok hobj_ok (keys s') (ho_keys o) ∧ dirty s' = dirty s + ho_dirty o ∧
    events s' = events s ++ ho_events o ∧ replies s' = replies s ++ rs ∧ hreply_sent rs (ho_reply o).

Lemma hanswer_ok s K D r : keys_ok hobj_ok K D → refines_hash s (hanswer D r) (Some (addReply (with_keys s K) r)).
Proof.
  intros HK. eexists _, [r]. split; [done|]. simpl. rewrite app_nil_r. split_and!; try done. lia.
Qed.

Lemma hanswer_same s D r : keys_ok hobj_ok (keys s) D → refines_hash s (hanswer D r) (Some (addReply s r)).
Proof. intros HK. pose proof (hanswer_ok s (keys s) D r HK) as H. by destruct s. Qed.

Lemma hash_changed_ok s D k o M name r : keys_ok hobj_ok (keys s) D → hash_ok o M → M ≠ ∅ →
  refines_hash s (changed D k M name r) (Some (hash_changed (addReply (set_key s k o) r) k name)).
Proof.
  intros HK Ho Hne. eexists _, [r]. split; [done|]. simpl. rewrite <- app_assoc. split_and!; try done. by apply keys_insert.
Qed.

(** The cases of a lookup of a hash that is not created. *)
Lemma with_hash_ok s D k missing f g : keys_ok hobj_ok (keys s) D →
  (∀ o M, D !! k = Some (Some M) → hash_at D k = M → hash_ok o M → M ≠ ∅ → refines_hash s (f M) (g o)) →
  refines_hash s (on_existing D k missing f) (with_hash s k missing g).
Proof.
  intros HK Hf. unfold on_existing, with_hash. destruct (keys_cases hobj_ok _ _ k HK) as [[-> ->]|(o & a & E1 & E2 & Ho)]; [by apply hanswer_same|].
  rewrite E1, E2. destruct a as [M|]; simpl in Ho; [|subst o; by apply hanswer_same]. destruct Ho as [Ho Hne].
  assert (hash_at D k = M) as Ea by (unfold hash_at; by rewrite E2). destruct o as [b|d|]; [by apply Hf|by apply Hf|done].
Qed.

(** The cases of a lookup that creates the hash: the new hash is written before
    anything else sees it. *)
Lemma write_hash_ok s D k f g : keys_ok hobj_ok (keys s) D →
  (∀ s' o, (∀ o', set_key s' k o' = set_key s k o') → hash_ok o (hash_at D k) → (hash_at D k ≠ ∅ → D !! k = Some (Some (hash_at D k))) →
     refines_hash s (f (hash_at D k)) (g s' o)) →
  refines_hash s (on_hash D k f)
    (r ← hashTypeLookupWriteOrCreate junk s k; match r with inr s => Some s | inl (s, o) => g s o end).
Proof.
  intros HK Hf. unfold on_hash, hashTypeLookupWriteOrCreate, hash_at in *.
  destruct (keys_cases hobj_ok _ _ k HK) as [[E1 E2]|(o & a & E1 & E2 & Ho)]; rewrite E1, E2 in *; cbn [mjoin option_join default from_option id] in *.
  - destruct (create_hash_ok hash junk max Hmax) as (o & -> & Ho). cbn [mbind option_bind]. apply Hf; try done.
    intros o'. unfold set_key, with_keys. simpl. by rewrite insert_insert_eq.
  - destruct a as [M|]; cbn [mjoin option_join default from_option id hobj_ok] in *; [|subst o; by apply hanswer_same]. destruct Ho as [Ho Hne].
    destruct o as [b|d|]; [by apply Hf|by apply Hf|done].
Qed.

(** *** Commands that write *)

Lemma hset_loop_ok n : ∀ args o M created, (length args < n)%nat → hash_ok o M → hweight M + total args ≤ 2 ^ 29 →
  ∃ o', hset_loop hash cr junk addr max o args created = Some (o', created + (hsize (set_all args M) - hsize M)) ∧ hash_ok o' (set_all args M).
Proof.
  induction n as [|n IH]; intros args o M created Hn Ho Hw; [lia|].
  destruct args as [|field [|value args]]; cbn [hset_loop set_all]; try (exists o; split; [do 2 f_equal; lia|done]).
  simpl in Hw, Hn. pose proof (total_nonneg args).
  destruct (hashTypeSet_ok hash Hhash cr junk addr max o M field value Ho) as (o1 & -> & Ho1); [lia|]. cbn [mbind option_bind].
  pose proof (hweight_insert M field value) as Hwi.
  destruct (IH args o1 (<[field := value]> M) (if bool_decide (is_Some (M !! field)) then created else created + 1)) as (o' & -> & Ho'); [lia|done|lia|].
  exists o'. split; [|done]. do 2 f_equal. rewrite (hsize_insert M field value). case_bool_decide; [rewrite decide_True by done|rewrite decide_False by done]; lia.
Qed.

Lemma set_all_nonempty n : ∀ args M, (length args < n)%nat → M ≠ ∅ ∨ (2 ≤ length args)%nat → set_all args M ≠ ∅.
Proof.
  induction n as [|n IH]; intros args M Hn Hne; [lia|]. destruct args as [|field [|value args]]; simpl in *; try (destruct Hne; [done|lia]).
  apply IH; [lia|]. left. apply insert_non_empty.
Qed.

Lemma hsetCommand_ok s D cmdname k args : keys_ok hobj_ok (keys s) D → hash_fits (HSET cmdname k args) D = true →
  refines_hash s (hset_spec D cmdname k args) (hsetCommand hash cr junk addr max maxv s cmdname k args).
Proof.
  intros HK. cbn [hash_fits]. intros [[Hc Hlen%Z.leb_le]%andb_prop Hw%Z.leb_le]%andb_prop. unfold hset_spec, hsetCommand. rewrite odd_args.
  destruct (Nat.odd (length args)); [by apply hanswer_same|]. destruct (cmdname_reply cmdname Hc) as (c1 & Hc1 & Hr). pose proof (total_nonneg args).
  apply write_hash_ok; [done|]. intros s' o Hs Ho _. destruct (tryConversion_ok hash Hhash cr junk addr max maxv o _ args Ho) as (o1 & -> & Ho1); [lia|].
  cbn [mbind option_bind]. destruct (hset_loop_ok _ args o1 _ 0 (Nat.lt_succ_diag_r _) Ho1 Hw) as (o2 & -> & Ho2). cbn [mbind option_bind]. rewrite Hc1. cbn [mbind option_bind].
  rewrite Hs, Hr, Z.add_0_l. apply hash_changed_ok; try done. eapply set_all_nonempty; [apply Nat.lt_succ_diag_r|]. right. lia.
Qed.

Lemma hsetnxCommand_ok s D k field value : keys_ok hobj_ok (keys s) D → hash_fits (HSETNX k field value) D = true →
  refines_hash s (hsetnx_spec D k field value) (hsetnxCommand hash cr junk addr max maxv s k field value).
Proof.
  intros HK. cbn [hash_fits]. intros Hw%Z.leb_le. cbn [total foldr] in Hw. unfold hsetnx_spec, hsetnxCommand.
  apply write_hash_ok; [done|]. intros s' o Hs Ho Hex. destruct (tryConversion_ok hash Hhash cr junk addr max maxv o _ [field; value] Ho) as (o1 & -> & Ho1); [lia|].
  cbn [mbind option_bind]. destruct (hashTypeExists_ok hash Hhash max o1 _ field Ho1) as (o2 & -> & Ho2). cbn [mbind option_bind].
  destruct (hash_at D k !! field) as [x|] eqn:E.
  - rewrite bool_decide_true by by eexists. rewrite Hs. apply hanswer_ok. assert (hash_at D k ≠ ∅) as Hne by (intros E0; rewrite E0 in E; done).
    by eapply keys_same; [done|by apply Hex|].
  - rewrite bool_decide_false by apply is_Some_None.
    destruct (hashTypeSet_ok hash Hhash cr junk addr max o2 _ field value Ho2) as (o3 & -> & Ho3); [lia|]. cbn [mbind option_bind]. rewrite Hs.
    apply hash_changed_ok; try done. apply insert_non_empty.
Qed.

(** The test of the code against the sum. *)
Lemma incr_test old incr : in_s 64 old → in_s 64 incr →
  ((incr <? 0) && (old <? 0) && (incr <? s64 (LLONG_MIN - old))) || ((0 <? incr) && (0 <? old) && (s64 (LLONG_MAX - old) <? incr)) =
  negb ((LLONG_MIN <=? old + incr) && (old + incr <=? LLONG_MAX)).
Proof.
  unfold in_s, LLONG_MIN, LLONG_MAX. simpl. intros Ho Hi.
  destruct (Z.ltb_spec old 0) as [H1|H1]; [rewrite (swrap_small 64 (- 2 ^ 63 - old)) by (unfold in_s; simpl; lia)|rewrite (swrap_small 64 (2 ^ 63 - 1 - old)) by (unfold in_s; simpl; lia)]; lia.
Qed.

Lemma hincrbyCommand_ok s D k field incr : keys_ok hobj_ok (keys s) D → hash_fits (HINCRBY k field incr) D = true →
  refines_hash s (hincrby_spec D k field incr) (hincrbyCommand hash cr junk addr max s k field incr).
Proof.
  intros HK. cbn [hash_fits]. intros Hw%Z.leb_le. cbn [total foldr] in Hw. unfold hincrby_spec, hincrbyCommand, getLongFromObjectOrReply, getLongFromObject.
  destruct (string2ll incr) as [i|] eqn:Ei; [|by apply hanswer_same]. assert (in_s 64 i) as Hi by (by apply string2ll_spec in Ei as []).
  apply write_hash_ok; [done|]. intros s' o Hs Ho Hex. set (M := hash_at D k) in *.
  destruct (hashTypeGetValue_ok hash Hhash max o M field Ho) as (o1 & r & -> & Ho1 & Hr). cbn [mbind option_bind]. rewrite Hs.
  assert ((match r with None => Some 0 | Some (ZInt value) => Some value | Some (ZStr vstr) => string2ll vstr end) = number_at M field) as ->.
  { unfold number_at. destruct r as [[vs|n]|]; simpl in Hr; [by destruct Hr as [-> _]| |by rewrite Hr]. destruct Hr as [-> Hn]. simpl. symmetry. apply string2ll_spec. auto. }
  assert (M !! field ≠ None → keys_ok hobj_ok (<[k := o1]> (keys s)) D) as Hsame.
  { intros Hf. assert (M ≠ ∅) as Hne by (intros E0; rewrite E0 in Hf; done). by eapply keys_same; [done|by apply Hex|]. }
  destruct (number_at M field) as [old|] eqn:En.
  2: { apply (hanswer_ok s (<[k := o1]> (keys s))), Hsame. unfold number_at in En. by destruct (M !! field). }
  pose proof (number_range _ _ _ En) as Hold. rewrite (incr_test old i Hold Hi). destruct ((LLONG_MIN <=? old + i) && (old + i <=? LLONG_MAX)) eqn:Et; cbn [negb].
  2: { apply (hanswer_ok s (<[k := o1]> (keys s))), Hsame. intros Hf. unfold number_at in En. rewrite Hf in En. injection En as <-.
       unfold LLONG_MIN, LLONG_MAX, in_s in *. simpl in *. lia. }
  assert (in_s 64 (old + i)) as Hv by (unfold LLONG_MIN, LLONG_MAX, in_s in *; simpl; lia).
  rewrite (swrap_small 64) by done. rewrite TSetRep.ll_bytes_ok by done. cbn [mbind option_bind]. pose proof (decimal_z_length (old + i)).
  destruct (hashTypeSet_ok hash Hhash cr junk addr max o1 M field (decimal_z (old + i)) Ho1) as (o2 & -> & Ho2); [lia|]. cbn [mbind option_bind].
  assert (set_key (set_key s k o1) k o2 = set_key s k o2) as -> by (unfold set_key, with_keys; simpl; by rewrite insert_insert_eq).
  apply hash_changed_ok; try done. apply insert_non_empty.
Qed.

Lemma hdel_loop_ok fields : ∀ o M deleted, hash_ok o M → M ≠ ∅ → hweight M ≤ 2 ^ 29 →
  ∃ o', hdel_loop hash cr junk o fields deleted =
      Some (o', deleted + (hsize M - hsize (without fields M)), bool_decide (without fields M = ∅)) ∧ hash_ok o' (without fields M).
Proof.
  induction fields as [|f fields IH]; intros o M deleted Ho Hne Hw; cbn [hdel_loop].
  { exists o. unfold without. cbn [foldl]. rewrite bool_decide_false by done. split; [|done]. do 3 f_equal. lia. }
  destruct (hashTypeDelete_ok hash Hhash cr junk max o M f Ho) as (o1 & -> & Ho1); [lia|]. cbn [mbind option_bind].
  change (without (f :: fields) M) with (without fields (delete f M)). pose proof (hweight_delete M f). pose proof (hsize_delete M f) as Hsz.
  destruct (M !! f) as [x|] eqn:E.
  - rewrite bool_decide_true by by eexists. rewrite decide_True in Hsz by by eexists. destruct (hashTypeLength_ok hash max o1 _ Ho1) as (o2 & -> & Ho2). cbn [mbind option_bind].
    fold (hsize (delete f M)). rewrite hsize_zero. destruct (decide (delete f M = ∅)) as [E0|E0].
    + rewrite bool_decide_true by done. rewrite E0 in *. rewrite without_empty, bool_decide_true by done. exists o2. split; [|done]. do 3 f_equal. lia.
    + rewrite bool_decide_false by done. destruct (IH o2 _ (deleted + 1) Ho2 E0) as (o' & -> & Ho'); [lia|]. exists o'. split; [|done]. do 3 f_equal. lia.
  - rewrite bool_decide_false by apply is_Some_None. rewrite delete_id in * by done. by apply IH.
Qed.

Lemma hdelCommand_ok s D k fields : keys_ok hobj_ok (keys s) D → hash_fits (HDEL k fields) D = true →
  refines_hash s (hdel_spec D k fields) (hdelCommand hash cr junk s k fields).
Proof.
  intros HK. cbn [hash_fits]. intros Hw%Z.leb_le. unfold hdel_spec, hdelCommand. apply with_hash_ok; [done|]. intros o M ED Ea Ho Hne. rewrite Ea in Hw.
  destruct (hdel_loop_ok fields o M 0 Ho Hne Hw) as (o' & -> & Ho'). cbn [mbind option_bind]. destruct (without_size fields M) as [Hle Heq].
  set (M' := without fields M) in *. rewrite Z.add_0_l. set (n := hsize M - hsize M') in *.
  assert (keys_ok hobj_ok (if bool_decide (M' = ∅) then delete k (keys s) else <[k := o']> (keys s)) (if decide (M' = ∅) then delete k D else <[k := Some M']> D)) as HK'.
  { destruct (decide (M' = ∅)) as [E|E]; [rewrite bool_decide_true by done; by apply keys_delete|rewrite bool_decide_false by done; by apply keys_insert]. }
  destruct (Z.ltb_spec 0 n) as [Hn|Hn].
  - destruct (decide (M' = ∅)) as [E|E]; [rewrite bool_decide_true in * by done|rewrite bool_decide_false in * by done];
      (eexists _, [RLong n]; split; [done|]; simpl; rewrite <- ?app_assoc; by split_and!).
  - assert (M' = M) as EM by (apply Heq; unfold n in Hn; lia). rewrite bool_decide_false in * by (rewrite EM; done).
    eexists _, [RLong n]. split; [done|]. simpl. rewrite app_nil_r. split_and!; try done. unfold n in *. lia.
Qed.

(** *** Commands that read *)

(** The hash is written back as the lookup left it. *)
Lemma read_back s D k o M r : keys_ok hobj_ok (keys s) D → D !! k = Some (Some M) → hash_ok o M → M ≠ ∅ →
  refines_hash s (hanswer D r) (Some (addReply (set_key s k o) r)).
Proof. intros HK HD Ho Hne. apply (hanswer_ok s (<[k := o]> (keys s))). by eapply keys_same. Qed.

Lemma hgetCommand_ok s D k field : keys_ok hobj_ok (keys s) D →
  refines_hash s (hash_spec (HGET k field) D) (hgetCommand hash junk s k field).
Proof.
  intros HK. apply with_hash_ok; [done|]. intros o M ED _ Ho Hne. destruct (field_reply_ok hash Hhash junk max o M field Ho) as (o' & -> & Ho').
  cbn [mbind option_bind]. by apply (read_back s D k o' M).
Qed.

Lemma hstrlenCommand_ok s D k field : keys_ok hobj_ok (keys s) D →
  refines_hash s (hash_spec (HSTRLEN k field) D) (hstrlenCommand hash s k field).
Proof.
  intros HK. apply with_hash_ok; [done|]. intros o M ED _ Ho Hne. destruct (hashTypeGetValueLength_ok hash Hhash max o M field Ho) as (o' & -> & Ho').
  cbn [mbind option_bind]. assert (Z.of_nat (length (default [] (M !! field))) = match M !! field with None => 0 | Some x => Z.of_nat (length x) end) as -> by (by destruct (M !! field)).
  by apply (read_back s D k o' M).
Qed.

Lemma hexistsCommand_ok s D k field : keys_ok hobj_ok (keys s) D →
  refines_hash s (hash_spec (HEXISTS k field) D) (hexistsCommand hash s k field).
Proof.
  intros HK. apply with_hash_ok; [done|]. intros o M ED _ Ho Hne. destruct (hashTypeExists_ok hash Hhash max o M field Ho) as (o' & -> & Ho').
  cbn [mbind option_bind]. case_bool_decide; [rewrite decide_True by done|rewrite decide_False by done]; by apply (read_back s D k o' M).
Qed.

Lemma hlenCommand_ok s D k : keys_ok hobj_ok (keys s) D → refines_hash s (hash_spec (HLEN k) D) (hlenCommand s k).
Proof.
  intros HK. apply with_hash_ok; [done|]. intros o M ED _ Ho Hne. destruct (hashTypeLength_ok hash max o M Ho) as (o' & -> & Ho').
  cbn [mbind option_bind]. by apply (read_back s D k o' M).
Qed.

Lemma hmget_loop_ok fields : ∀ o M, hash_ok o M →
  ∃ o', hmget_loop hash junk (Some o) fields = Some (Some o', field_reply M <$> fields) ∧ hash_ok o' M.
Proof.
  induction fields as [|f fields IH]; intros o M Ho; cbn [hmget_loop]; [by exists o|].
  destruct (field_reply_ok hash Hhash junk max o M f Ho) as (o1 & -> & Ho1). cbn [mbind option_bind]. destruct (IH o1 M Ho1) as (o' & -> & Ho'). cbn [mbind option_bind].
  by exists o'.
Qed.

Lemma hmget_missing fields : hmget_loop hash junk None fields = Some (None, field_reply ∅ <$> fields).
Proof. induction fields as [|f fields IH]; [done|]. cbn [hmget_loop addHashFieldToReply mbind option_bind]. by rewrite IH. Qed.

Lemma hmgetCommand_ok s D k fields : keys_ok hobj_ok (keys s) D →
  refines_hash s (hash_spec (HMGET k fields) D) (hmgetCommand hash junk s k fields).
Proof.
  intros HK. cbn [hash_spec]. unfold on_hash, hmgetCommand, hash_at.
  assert (∀ K M, keys_ok hobj_ok K D → refines_hash s (HOut D 0 [] (HReplies (RMultiLen (Z.of_nat (length fields)) :: (field_reply M <$> fields))))
    (Some (add_replies (with_keys s K) (RMultiLen (Z.of_nat (length fields)) :: (field_reply M <$> fields))))) as Hgo.
  { intros K M HK'. eexists _, _. split; [done|]. simpl. rewrite app_nil_r. split_and!; try done. lia. }
  destruct (keys_cases hobj_ok _ _ k HK) as [[E1 E2]|(o & a & E1 & E2 & Ho)]; rewrite E1, E2; cbn [mjoin option_join default from_option id].
  - rewrite hmget_missing. cbn [mbind option_bind store_hash]. pose proof (Hgo (keys s) ∅ HK) as H. by destruct s.
  - destruct a as [M|]; simpl in Ho; [|subst o; by apply hanswer_same]. destruct Ho as [Ho Hne]. destruct (hmget_loop_ok fields o M Ho) as (o' & E & Ho').
    destruct o as [b|d|]; [| |done]; rewrite E; cbn [mbind option_bind store_hash]; apply (Hgo (<[k := o']> (keys s))); by eapply keys_same.
Qed.

Lemma hgetall_run fk fv o his l : Forall2 (cursor_ok o) his l →
  run_each (hgetall_pair junk o fk fv) his ([], 0) = Some (concat (select fk fv <$> l), Z.of_nat (length l) * per_pair fk fv).
Proof.
  intros Hall.
  destruct (run_each_inv _ (hgetall_pair junk o fk fv) (λ l1 acc, acc = (concat (select fk fv <$> l1), Z.of_nat (length l1) * per_pair fk fv)) _ _ Hall [] ([], 0)) as (acc & -> & ->); [done| |done].
  intros l1 p hi acc _ Hcur ->. destruct (current_reply junk o hi p Hcur) as [E1 E2]. unfold hgetall_pair. rewrite E1, E2.
  rewrite fmap_app, concat_app, length_app. unfold per_pair, select. destruct fk, fv; cbn [mbind option_bind]; (eexists; split; [done|]); simpl; rewrite ?app_nil_r, <- ?app_assoc; f_equal; lia.
Qed.

Lemma genericHgetall_ok s D k fk fv : keys_ok hobj_ok (keys s) D → hweight (hash_at D k) ≤ 2 ^ 29 →
  refines_hash s (on_existing D k REmptyMulti (λ M, HOut D 0 [] (HPairs fk fv M))) (genericHgetallCommand junk addr s k fk fv).
Proof.
  intros HK Hw. apply with_hash_ok; [done|]. intros o M ED Ea Ho Hne. rewrite Ea in Hw. destruct (hashTypeLength_ok hash max o M Ho) as (o' & -> & Ho'). cbn [mbind option_bind].
  destruct (hash_iterate_ok hash addr max o' M (hgetall_pair junk o' fk fv) Ho') as (l & his & Hp & Hall & ->). rewrite (hgetall_run fk fv o' his l Hall). cbn [mbind option_bind].
  fold (per_pair fk fv). pose proof (hweight_size M). assert (length l = base.size M) as -> by (rewrite Hp; apply length_map_to_list).
  rewrite (swrap_small 32), Z.eqb_refl by (unfold in_s, per_pair; destruct fk, fv; simpl; lia).
  eexists _, _. split; [done|]. simpl. rewrite app_nil_r. split_and!; try done; [by eapply keys_same|lia|]. by exists l.
Qed.

(** ** All the commands *)

Definition hash_exec (c : hcommand) (s : hserver) : option hserver :=
  match c with
  | HSET cmdname k args => hsetCommand hash cr junk addr max maxv s cmdname k args
  | HSETNX k field value => hsetnxCommand hash cr junk addr max maxv s k field value
  | HINCRBY k field incr => hincrbyCommand hash cr junk addr max s k field incr
  | HDEL k fields => hdelCommand hash cr junk s k fields
  | HGET k field => hgetCommand hash junk s k field
  | HMGET k fields => hmgetCommand hash junk s k fields
  | HLEN k => hlenCommand s k
  | HSTRLEN k field => hstrlenCommand hash s k field
  | HEXISTS k field => hexistsCommand hash s k field
  | HKEYS k => hkeysCommand junk addr s k
  | HVALS k => hvalsCommand junk addr s k
  | HGETALL k => hgetallCommand junk addr s k
  end.

Lemma hash_exec_ok c s D : keys_ok hobj_ok (keys s) D → hash_fits c D = true → refines_hash s (hash_spec c D) (hash_exec c s).
Proof.
  intros HK Hfit. destruct c; cbn [hash_exec hash_spec];
    try (by apply hsetCommand_ok || by apply hsetnxCommand_ok || by apply hincrbyCommand_ok || by apply hdelCommand_ok || by apply hgetCommand_ok ||
         by apply hmgetCommand_ok || by apply hlenCommand_ok || by apply hstrlenCommand_ok || by apply hexistsCommand_ok);
    cbn [hash_fits] in Hfit; apply Z.leb_le in Hfit; by apply genericHgetall_ok.
Qed.

Definition hexecs (cs : list hcommand) (s : hserver) : option hserver := foldl (λ r c, s ← r; hash_exec c s) (Some s) cs.
End commands.

(** The outcome of commands one after another. *)
Record houts := HOuts { hs_keys : hdb; hs_dirty : Z; hs_events : list event; hs_replies : list hreply }.

Fixpoint hash_specs (cs : list hcommand) (D : hdb) : houts :=
  match cs with
  | [] => HOuts D 0 [] []
  | c :: cs =>
      let o := hash_spec c D in
      let os := hash_specs cs (ho_keys o) in
      HOuts (hs_keys os) (ho_dirty o + hs_dirty os) (ho_events o ++ hs_events os) (ho_reply o :: hs_replies os)
  end.

Fixpoint hashes_fit (cs : list hcommand) (D : hdb) : bool :=
  match cs with [] => true | c :: cs => hash_fits c D && hashes_fit cs (ho_keys (hash_spec c D)) end.

(** C32. Any sequence of HSET, HMSET, HSETNX, HINCRBY, HDEL, HGET, HMGET, HLEN, HSTRLEN,
    HEXISTS, HKEYS, HVALS and HGETALL, on any keyspace whose hashes are ziplists
    or hash tables, runs to its end and does what the operations on finite maps
    say: the same hashes at the same keys (none of them empty, also after an
    error), the same changes counted, the same events in the same order, the same
    replies, with the pairs of a hash sent once each, in some order.  HINCRBY
    refuses exactly the sums that are not 64-bit numbers.  It holds for every
    hash function, resizing policy and bounds of ziplists. *)
Theorem hash_commands_refine (hash : list Z → Z) (cr : bool) (junk : Z) (addr : nat → Z) (max maxv : Z) cs s D :
  (∀ k, in_u 64 (hash k)) → 0 ≤ max → keys_ok (hobj_ok hash max) (keys s) D → hashes_fit cs D = true →
  ∃ s' rss, hexecs hash cr junk addr max maxv cs s = Some s' ∧
    keys_ok (hobj_ok hash max) (keys s') (hs_keys (hash_specs cs D)) ∧
    dirty s' = dirty s + hs_dirty (hash_specs cs D) ∧
    events s' = events s ++ hs_events (hash_specs cs D) ∧
    replies s' = replies s ++ concat rss ∧ Forall2 hreply_sent rss (hs_replies (hash_specs cs D)).
Proof.
  intros Hhash Hmax. revert s D. unfold hexecs. induction cs as [|c cs IH]; intros s D HK Hfit; cbn [foldl hash_specs].
  { exists s, []. simpl. rewrite !app_nil_r. split_and!; try done. lia. }
  cbn [hashes_fit] in Hfit. apply andb_prop in Hfit as [Hc Hcs]. cbn [mbind option_bind].
  destruct (hash_exec_ok hash Hhash cr junk addr max maxv Hmax c s D HK Hc) as (s1 & rs & -> & HK1 & Hd1 & He1 & Hr1 & Hs1).
  destruct (IH s1 _ HK1 Hcs) as (s2 & rss & E2 & HK2 & Hd2 & He2 & Hr2 & Hs2). exists s2, (rs :: rss). simpl. split_and!; try done.
  - lia.
  - by rewrite He2, He1, app_assoc.
  - by rewrite Hr2, Hr1, app_assoc.
  - by constructor.
Qed.

(** Numbers and words; a ziplist that becomes a table because of a long value,
    and another because of its length; errors of HINCRBY; a key of another type. *)
Definition w (s : string) : bytes := Z.of_N ∘ Ascii.N_of_ascii <$> String.list_ascii_of_string s.

Definition demo_hash (k : bytes) : Z := u64 (foldl (λ h c, h * 33 + c) 5381 k).
Definition demo_server : hserver := Server {[ w "list" := NotHash ]} 0 [] [].
Definition demo_commands : list hcommand :=
  [ HSET (w "hset") (w "a") [w "x"; w "1"; w "y"; w "two"; w "x"; w "12"]; HSETNX (w "a") (w "y") (w "3"); HINCRBY (w "a") (w "x") (w "-20");
    HINCRBY (w "a") (w "y") (w "1"); HGET (w "a") (w "x"); HSET (w "HMSET") (w "a") [w "z"; w "long value"]; HGET (w "a") (w "x");
    HSET (w "hset") (w "b") [w "1"; w "9223372036854775800"; w "2"; w "b"; w "3"; w "c"]; HINCRBY (w "b") (w "1") (w "8"); HINCRBY (w "b") (w "1") (w "7");
    HMGET (w "b") [w "1"; w "none"; w "3"]; HSTRLEN (w "a") (w "x"); HLEN (w "a"); HDEL (w "a") [w "y"; w "q"; w "y"]; HEXISTS (w "a") (w "y");
    HDEL (w "a") [w "x"; w "z"; w "x"]; HGETALL (w "a"); HKEYS (w "b"); HSET (w "hset") (w "list") [w "1"; w "2"]; HSET (w "hset") (w "a") [w "1"; w "2"; w "3"];
    HINCRBY (w "c") (w "n") (w "5"); HGETALL (w "c"); HLEN (w "list") ].

Example hash_replies :
  option_map replies (hexecs demo_hash true 170 (λ n, Z.of_nat n) 2 5 demo_commands demo_server) = Some
    ([ RLong 2; RLong 0; RLong (-8); RError "hash value is not an integer"; RBulk (w "-8"); ROk; RBulk (w "-8"); RLong 3;
       RError "increment or decrement would overflow"; RLong 9223372036854775807; RMultiLen 3; RBulk (w "9223372036854775807"); RNullBulk; RBulk (w "c");
       RLong 2; RLong 3; RLong 1; RLong 0; RLong 2; REmptyMulti; RMultiLen 3; RBulk (w "3"); RBulk (w "1"); RBulk (w "2"); RWrongType;
       RError "wrong number of arguments for HMSET"; RLong 5; RMultiLen 2; RBulk (w "n"); RBulk (w "5"); RWrongType ]).
Proof. by vm_compute. Qed.

(** HSET converts a hash that gets a long field, HINCRBY does not. *)
Example hincrby_long_field :
  let run c := s ← hash_exec demo_hash true 170 (λ n, Z.of_nat n) 2 5 c demo_server; o ← keys s !! w "k"; Some (match o with HZiplist _ => true | _ => false end) in
  run (HSET (w "hset") (w "k") [w "a long field"; w "1"]) = Some false ∧ run (HINCRBY (w "k") (w "a long field") (w "1")) = Some true.
Proof. by vm_compute. Qed.

Lemma hash_commands_refine_witness :
  ∃ s' rss, hexecs demo_hash true 170 (λ n, Z.of_nat n) 2 5 demo_commands demo_server = Some s' ∧
    keys_ok (hobj_ok demo_hash 2) (keys s') (hs_keys (hash_specs demo_commands {[ w "list" := None ]})) ∧
    dirty s' = dirty demo_server + hs_dirty (hash_specs demo_commands {[ w "list" := None ]}) ∧
    events s' = events demo_server ++ hs_events (hash_specs demo_commands {[ w "list" := None ]}) ∧
    replies s' = replies demo_server ++ concat rss ∧
    Forall2 hreply_sent rss (hs_replies (hash_specs demo_commands {[ w "list" := None ]})).
Proof.
  apply (hash_commands_refine demo_hash true 170 (λ n, Z.of_nat n) 2 5 demo_commands demo_server {[ w "list" := None ]}).
  - intros k. by apply uwrap_range.
  - done.
  - intros k. unfold demo_server. simpl. destruct (decide (k = w "list")) as [->|Hne].
    + rewrite !lookup_singleton_eq. by constructor.
    + rewrite !lookup_singleton_ne by done. constructor.
  - by vm_compute.
Defined.
