(* ===== verification/Db.v ===== *)
(** * db.c, expire.c: the keyspace with expiration times

    A database has a dict of keys and a dict of the times, in milliseconds, at
    which keys expire.  Expired keys stay until they are looked up: the lookups
    delete them on a master, and hide them from reads on a slave.  The values are
    a parameter [V] of this file.

    The clock is read once per command.  [None] stands for a failed assertion or
    undefined behaviour.  Access times, statistics and the freeing of values in
    the background are not visible here; the cluster is disabled. *)

From stdpp Require Import strings.
From S2P Require Import Prelude Decimal Util Keyspace.

(** What the functions read of the server: [server.masterhost], [server.loading],
    whether the client is not the master and its command only reads, [mstime()]. *)
Record env := Env { masterhost : bool; loading : bool; readonly : bool; mstime : Z }.

Abbreviation NotifyGeneric := (Notify NOTIFY_GENERIC).

Inductive unit_ := UNIT_SECONDS | UNIT_MILLISECONDS.

(** [x] as a [long long]; an overflow is undefined. *)
Definition ll (x : Z) : option Z := if bool_decide (in_s 64 x) then Some x else None.

Definition milliseconds (unit : unit_) (t : Z) : option Z :=
  match unit with UNIT_SECONDS => ll (t * 1000) | UNIT_MILLISECONDS => Some t end.

Section db.
Context {V : Type}.

Record redisDb := RedisDb { srv : server V; expires : gmap (list Z) Z }.
Implicit Types d : redisDb.

Definition on_srv (f : server V → server V) d : redisDb := RedisDb (f (srv d)) (expires d).
Definition reply_db d (r : reply) : redisDb := on_srv (λ s, addReply s r) d.
Definition log_db d (e : event) : redisDb := on_srv (λ s, log s e) d.
Definition dirty_db d (n : Z) : redisDb := on_srv (λ s, add_dirty s n) d.

(** ** Expiration *)

Definition getExpire d (key : list Z) : option Z :=
  match expires d !! key with
  | None => Some (-1)
  | Some when => if bool_decide (is_Some (keys (srv d) !! key)) then Some when else None
  end.

Definition keyIsExpired (E : env) d (key : list Z) : option bool :=
  when ← getExpire d key;
  Some (if when <? 0 then false else if loading E then false else when <? mstime E).

(** [dbAsyncDelete] does the same and may leave the freeing to another thread. *)
Definition dbSyncDelete d (key : list Z) : redisDb * bool :=
  (RedisDb (Keyspace.dbDelete (srv d) key) (delete key (expires d)), bool_decide (is_Some (keys (srv d) !! key))).

Definition expireIfNeeded (E : env) d (key : list Z) : option (redisDb * bool) :=
  expired ← keyIsExpired E d key;
  Some (if negb expired then (d, false)
        else if masterhost E then (d, true)
        else dbSyncDelete (log_db (log_db d (PropagateExpire key)) (Notify NOTIFY_EXPIRED "expired" key)) key).

Definition removeExpire d (key : list Z) : option (redisDb * bool) :=
  if bool_decide (is_Some (keys (srv d) !! key))
  then Some (RedisDb (srv d) (delete key (expires d)), bool_decide (is_Some (expires d !! key))) else None.

Definition setExpire d (key : list Z) (when : Z) : option redisDb :=
  if bool_decide (is_Some (keys (srv d) !! key)) then Some (RedisDb (srv d) (<[key := when]> (expires d))) else None.

(** ** Lookups and updates *)

Definition lookupKey d (key : list Z) : option V := keys (srv d) !! key.

Definition lookupKeyRead (E : env) d (key : list Z) : option (redisDb * option V) :=
  '(d, expired) ← expireIfNeeded E d key;
  Some (d, if expired && (negb (masterhost E) || readonly E) then None else lookupKey d key).

Definition lookupKeyWrite (E : env) d (key : list Z) : option (redisDb * option V) :=
  '(d, _) ← expireIfNeeded E d key; Some (d, lookupKey d key).

Definition dbAdd d (key : list Z) (val : V) : option redisDb :=
  match lookupKey d key with Some _ => None | None => Some (on_srv (λ s, set_key s key val) d) end.

Definition dbOverwrite d (key : list Z) (val : V) : option redisDb :=
  match lookupKey d key with Some _ => Some (on_srv (λ s, set_key s key val) d) | None => None end.

Definition setKey (E : env) d (key : list Z) (val : V) : option redisDb :=
  '(d, o) ← lookupKeyWrite E d key;
  d ← match o with None => dbAdd d key val | Some _ => dbOverwrite d key val end;
  '(d, _) ← removeExpire d key;
  Some (log_db d (SignalModified key)).

(** ** Commands on keys *)

Fixpoint del_loop (E : env) d (ks : list (list Z)) (numdel : Z) : option (redisDb * Z) :=
  match ks with
  | [] => Some (d, numdel)
  | k :: ks =>
      '(d, _) ← expireIfNeeded E d k;
      let (d, deleted) := dbSyncDelete d k in
      if deleted : bool
      then del_loop E (dirty_db (log_db (log_db d (SignalModified k)) (NotifyGeneric "del" k)) 1) ks (numdel + 1)
      else del_loop E d ks numdel
  end.

Definition delGenericCommand (E : env) d (ks : list (list Z)) : option redisDb :=
  '(d, numdel) ← del_loop E d ks 0; Some (reply_db d (RLong numdel)).

(** [if (lookupKeyRead(c->db,c->argv[j])) count++] *)
Fixpoint count_loop (E : env) d (ks : list (list Z)) (count : Z) : option (redisDb * Z) :=
  match ks with
  | [] => Some (d, count)
  | k :: ks => '(d, o) ← lookupKeyRead E d k; count_loop E d ks (if bool_decide (is_Some o) then count + 1 else count)
  end.

Definition existsCommand (E : env) d (ks : list (list Z)) : option redisDb :=
  '(d, count) ← count_loop E d ks 0; Some (reply_db d (RLong count)).

Definition touchCommand (E : env) d (ks : list (list Z)) : option redisDb :=
  '(d, touched) ← count_loop E d ks 0; Some (reply_db d (RLong touched)).

Definition renameGenericCommand (E : env) d (src dst : list Z) (nx : bool) : option redisDb :=
  let samekey := bool_decide (src = dst) in
  '(d, o) ← lookupKeyWrite E d src;
  match o with
  | None => Some (reply_db d RNoKey)
  | Some o =>
      if samekey then Some (reply_db d (if nx then RLong 0 else ROk)) else
      expire ← getExpire d src;
      '(d, old) ← lookupKeyWrite E d dst;
      if bool_decide (is_Some old) && nx then Some (reply_db d (RLong 0)) else
      let d := if bool_decide (is_Some old) then (dbSyncDelete d dst).1 else d in
      d ← dbAdd d dst o;
      d ← (if negb (expire =? -1) then setExpire d dst expire else Some d);
      let d := (dbSyncDelete d src).1 in
      let d := log_db (log_db d (SignalModified src)) (SignalModified dst) in
      let d := log_db (log_db d (NotifyGeneric "rename_from" src)) (NotifyGeneric "rename_to" dst) in
      Some (reply_db (dirty_db d 1) (if nx then RLong 1 else ROk))
  end.

(** [inr] is the database after the error. *)
Definition getLongLongFromObjectOrReply d (o : list Z) : Z + redisDb :=
  match string2ll o with Some v => inl v | None => inr (reply_db d (RError "value is not an integer or out of range")) end.

Definition expireGenericCommand (E : env) d (key param : list Z) (basetime : Z) (unit : unit_) : option redisDb :=
  match getLongLongFromObjectOrReply d param with
  | inr d => Some d
  | inl when =>
      when ← milliseconds unit when;
      when ← ll (when + basetime);
      '(d, o) ← lookupKeyWrite E d key;
      match o with
      | None => Some (reply_db d (RLong 0))
      | Some _ =>
          if (when <=? mstime E) && negb (loading E) && negb (masterhost E) then
            let (d, deleted) := dbSyncDelete d key in
            if negb deleted then None else
            let d := log_db (log_db (dirty_db d 1) (SignalModified key)) (NotifyGeneric "del" key) in
            Some (reply_db d (RLong 1))
          else
            d ← setExpire d key when;
            Some (dirty_db (log_db (log_db (reply_db d (RLong 1)) (SignalModified key)) (NotifyGeneric "expire" key)) 1)
      end
  end.

Definition expireCommand (E : env) d key param := expireGenericCommand E d key param (mstime E) UNIT_SECONDS.
Definition expireatCommand (E : env) d key param := expireGenericCommand E d key param 0 UNIT_SECONDS.
Definition pexpireCommand (E : env) d key param := expireGenericCommand E d key param (mstime E) UNIT_MILLISECONDS.
Definition pexpireatCommand (E : env) d key param := expireGenericCommand E d key param 0 UNIT_MILLISECONDS.

Definition ttlGenericCommand (E : env) d (key : list Z) (output_ms : bool) : option redisDb :=
  '(d, o) ← lookupKeyRead E d key;
  match o with
  | None => Some (reply_db d (RLong (-2)))
  | Some _ =>
      expire ← getExpire d key;
      ttl ← (if negb (expire =? -1) then ttl ← ll (expire - mstime E); Some (if ttl <? 0 then 0 else ttl) else Some (-1));
      if ttl =? -1 then Some (reply_db d (RLong (-1)))
      else if output_ms then Some (reply_db d (RLong ttl))
      else t ← ll (ttl + 500); Some (reply_db d (RLong (Z.quot t 1000)))
  end.

Definition persistCommand (E : env) d (key : list Z) : option redisDb :=
  '(d, o) ← lookupKeyWrite E d key;
  match o with
  | None => Some (reply_db d (RLong 0))
  | Some _ =>
      '(d, removed) ← removeExpire d key;
      Some (if removed : bool then dirty_db (reply_db d (RLong 1)) 1 else reply_db d (RLong 0))
  end.
End db.

Arguments redisDb : clear implicits.
