(* ===== verification/DbRep.v ===== *)
(** * db.c: what a database stands for

    At a time, a database stands for the map of its keys that have not expired,
    with their values and expiration times.  On a master the lookups return what
    this map has, and evict expired keys without changing it; the changes of the
    database are insertions into the map and deletions from it. *)

From stdpp Require Import strings.
From S2P Require Import Prelude Decimal Util Keyspace Db.

(** The events of an expired key that is evicted, and those of commands. *)
Definition expiry_event (e : event) : bool :=
  match e with PropagateExpire _ => true | Notify NOTIFY_EXPIRED _ _ => true | _ => false end.

(** Not expired at time [t]. *)
Definition alive (t : Z) (w : option Z) : bool := match w with Some w => t <=? w | None => true end.

Definition live {A} (t : Z) (D : gmap (list Z) (A * option Z)) : gmap (list Z) (A * option Z) :=
  filter (λ p, alive t p.2.2 = true) D.

Section rep.
Context {V A : Type} (R : V → A → Prop).
Implicit Types (d : redisDb V) (D : gmap (list Z) (A * option Z)).

Definition visible (t : Z) d (k : list Z) : option (V * option Z) :=
  match keys (srv d) !! k with
  | Some v => if alive t (expires d !! k) then Some (v, expires d !! k) else None
  | None => None
  end.

Definition value_ok (x : V * option Z) (y : A * option Z) : Prop := R x.1 y.1 ∧ x.2 = y.2.

Record db_rep (t : Z) d D : Prop := {
  rep_expires k w : expires d !! k = Some w → in_u 63 w ∧ is_Some (keys (srv d) !! k);
  rep_view k : option_Forall2 value_ok (visible t d k) (D !! k)
}.

(** Time passes. *)
Lemma rep_later t t' d D : t ≤ t' → db_rep t d D → db_rep t' d (live t' D).
Proof.
  intros Ht [He Hv]. split; [done|]. intros k. specialize (Hv k). unfold live. rewrite map_lookup_filter.
  unfold visible in *. destruct (keys (srv d) !! k) as [v|]; [|inversion Hv; constructor].
  assert (alive t' (expires d !! k) = true → alive t (expires d !! k) = true) as Hmono.
  { destruct (expires d !! k) as [w|]; simpl; rewrite ?Z.leb_le; [lia|done]. }
  destruct (alive t (expires d !! k)) eqn:Ea.
  - inversion Hv as [x [a w] [Hr Hw] E1 E2|]. subst x. simpl in *. subst w. destruct (alive t' (expires d !! k)) eqn:Ea'.
    + rewrite option_guard_True by done. by constructor.
    + rewrite option_guard_False by (simpl; congruence). constructor.
  - inversion Hv. destruct (alive t' (expires d !! k)); [by specialize (Hmono eq_refl)|constructor].
Qed.

(** The key has been looked up: it is not there, or has not expired. *)
Definition settled (t : Z) d (k : list Z) : Prop := alive t (expires d !! k) = true.

Lemma settled_view t d k : settled t d k → visible t d k = option_map (λ v, (v, expires d !! k)) (keys (srv d) !! k).
Proof. unfold settled, visible. intros ->. by destruct (keys (srv d) !! k). Qed.

Lemma rep_cases t d D k : db_rep t d D → settled t d k →
  (keys (srv d) !! k = None ∧ expires d !! k = None ∧ D !! k = None) ∨
  ∃ v a, keys (srv d) !! k = Some v ∧ D !! k = Some (a, expires d !! k) ∧ R v a.
Proof.
  intros [He Hv] Hs. specialize (Hv k). rewrite (settled_view t d k Hs) in Hv. destruct (keys (srv d) !! k) as [v|] eqn:Ek; simpl in Hv.
  - right. inversion Hv as [x [a w] [Hr Hw] E1 E2|]. subst x. simpl in *. subst w. by exists v, a.
  - left. inversion Hv. split; [done|]. split; [|done]. destruct (expires d !! k) as [w|] eqn:Ew; [|done].
    apply He in Ew as [_ Hk]. rewrite Ek in Hk. by apply is_Some_None in Hk.
Qed.

(** The database after a change of one key. *)
Definition upd d (k : list Z) (x : option (V * option Z)) : redisDb V :=
  RedisDb (with_keys (srv d) (partial_alter (λ _, option_map fst x) k (keys (srv d))))
    (partial_alter (λ _, x ≫= snd) k (expires d)).

Lemma upd_lookup d k x : keys (srv (upd d k x)) !! k = option_map fst x.
Proof. simpl. by rewrite lookup_partial_alter_eq. Qed.

Lemma upd_expires d k x : expires (upd d k x) !! k = x ≫= snd.
Proof. simpl. by rewrite lookup_partial_alter_eq. Qed.

Lemma upd_upd d k x y : upd (upd d k x) k y = upd d k y.
Proof.
  unfold upd, with_keys. simpl. f_equal; [f_equal|]; apply map_eq; intros k'; (destruct (decide (k = k')) as [<-|];
    [by rewrite !lookup_partial_alter_eq|by rewrite !lookup_partial_alter_ne]).
Qed.

(** The same after other parts of the server changed. *)
Lemma upd_again d d' k x y : keys (srv d') = keys (srv (upd d k x)) → expires d' = expires (upd d k x) →
  keys (srv (upd d' k y)) = keys (srv (upd d k y)) ∧ expires (upd d' k y) = expires (upd d k y).
Proof.
  intros Ek Ee. rewrite <- (upd_upd d k x y). unfold upd at 1 3. simpl. rewrite Ek, Ee. done.
Qed.

Definition fresh_ok (t : Z) (w : option Z) : Prop := match w with Some w => in_u 63 w ∧ t ≤ w | None => True end.

Lemma fresh_alive t w : fresh_ok t w → alive t w = true.
Proof. destruct w as [w|]; [|done]. simpl. intros [_ Hw]. by apply Z.leb_le. Qed.

Lemma rep_upd t d D k x y : db_rep t d D → option_Forall2 value_ok x y → fresh_ok t (x ≫= snd) →
  db_rep t (upd d k x) (partial_alter (λ _, y) k D) ∧ settled t (upd d k x) k.
Proof.
  intros [He Hv] Hxy Hf. pose proof (fresh_alive t _ Hf) as Hal. split; [split|].
  - intros k' w. simpl. destruct (decide (k = k')) as [<-|Hne].
    + rewrite !lookup_partial_alter_eq. destruct x as [[v w']|]; [|done]. simpl in *. intros ->. split; [apply Hf|by eexists].
    + rewrite !lookup_partial_alter_ne by done. apply He.
  - intros k'. unfold visible. simpl. destruct (decide (k = k')) as [<-|Hne].
    + rewrite !lookup_partial_alter_eq. destruct x as [[v w]|]; simpl in *; [by rewrite Hal|done].
    + rewrite !lookup_partial_alter_ne by done. apply Hv.
  - unfold settled. simpl. by rewrite lookup_partial_alter_eq.
Qed.

Lemma rep_same t d d' D : db_rep t d D → keys (srv d') = keys (srv d) → expires d' = expires d → db_rep t d' D.
Proof. intros [He Hv] Ek Ee. split; [by rewrite Ek, Ee|]. intros k. unfold visible. rewrite Ek, Ee. apply Hv. Qed.

Lemma settled_upd t d k k' x : settled t d k' → k' ≠ k → settled t (upd d k x) k'.
Proof. intros Hs Hne. unfold settled. simpl. by rewrite lookup_partial_alter_ne. Qed.

(** *** What a part of a command does besides: nothing, or evict expired keys *)
Definition quiet d d' : Prop :=
  dirty (srv d') = dirty (srv d) ∧ replies (srv d') = replies (srv d) ∧
  ∃ evs, events (srv d') = events (srv d) ++ evs ∧ filter (λ e, expiry_event e = false) evs = [].

Lemma quiet_refl d : quiet d d.
Proof. split_and!; try done. exists []. by rewrite app_nil_r. Qed.

Lemma quiet_trans d1 d2 d3 : quiet d1 d2 → quiet d2 d3 → quiet d1 d3.
Proof.
  intros (H1 & H2 & e1 & H3 & H4) (H5 & H6 & e2 & H7 & H8). split_and!; [congruence|congruence|]. exists (e1 ++ e2).
  rewrite H7, H3, app_assoc, filter_app, H4, H8. done.
Qed.
End rep.

(** ** Lookups on a master *)

Section lookups.
Context {V A : Type} (R : V → A → Prop) (E : env) (Hmaster : masterhost E = false) (Hload : loading E = false).
Implicit Types (d : redisDb V) (D : gmap (list Z) (A * option Z)).

Abbreviation db_rep := (db_rep R (mstime E)).

Lemma expireIfNeeded_ok d D k : db_rep d D →
  ∃ d', expireIfNeeded E d k = Some (d', negb (alive (mstime E) (expires d !! k))) ∧
    db_rep d' D ∧ settled (mstime E) d' k ∧ quiet d d' ∧
    (alive (mstime E) (expires d !! k) = false → keys (srv d') !! k = None ∧ D !! k = None).
Proof.
  intros Hrep. pose proof Hrep as [He Hv]. unfold expireIfNeeded, keyIsExpired, getExpire, settled.
  destruct (expires d !! k) as [w|] eqn:Ew; [|by exists d; rewrite Ew; split_and!; try done; apply quiet_refl].
  destruct (He k w Ew) as [Hw Hk]. unfold in_u in Hw. rewrite bool_decide_true by done. cbn [mbind option_bind].
  rewrite (proj2 (Z.ltb_ge w 0)), Hload by lia. simpl (alive _ _). destruct (Z.ltb_spec w (mstime E)) as [Hlt|Hge]; simpl (negb _).
  - rewrite (proj2 (Z.leb_gt _ _)), Hmaster by done. unfold dbSyncDelete. cbn [negb]. rewrite bool_decide_true by done. eexists. split; [done|].
    assert (D !! k = None) as HD. { specialize (Hv k). unfold visible in Hv. destruct Hk as [v Hk]. rewrite Hk, Ew in Hv. simpl in Hv.
      rewrite (proj2 (Z.leb_gt _ _)) in Hv by done. by inversion Hv. }
    destruct (rep_upd R (mstime E) d D k None None Hrep) as [Hrep' Hs']; [constructor|done|]. split_and!.
    + rewrite <- (delete_id D k HD). by eapply (rep_same R _ (upd d k None)).
    + simpl. by rewrite lookup_delete_eq.
    + split_and!; try done. eexists [_; _]. simpl. by rewrite <- app_assoc.
    + intros _. simpl. by rewrite lookup_delete_eq.
  - rewrite (proj2 (Z.leb_le _ _)) by done. simpl. exists d. rewrite Ew. simpl. rewrite (proj2 (Z.leb_le _ _)) by done.
    split_and!; try done. apply quiet_refl.
Qed.

Lemma lookupWrite_ok d D k : db_rep d D →
  ∃ d', lookupKeyWrite E d k = Some (d', keys (srv d') !! k) ∧ db_rep d' D ∧ settled (mstime E) d' k ∧ quiet d d'.
Proof.
  intros Hrep. unfold lookupKeyWrite. destruct (expireIfNeeded_ok d D k Hrep) as (d' & -> & Hrep' & Hs & Hq & _). by exists d'.
Qed.

Lemma lookupRead_ok d D k : db_rep d D →
  ∃ d', lookupKeyRead E d k = Some (d', keys (srv d') !! k) ∧ db_rep d' D ∧ settled (mstime E) d' k ∧ quiet d d'.
Proof.
  intros Hrep. unfold lookupKeyRead. destruct (expireIfNeeded_ok d D k Hrep) as (d' & -> & Hrep' & Hs & Hq & Hx). cbn [mbind option_bind].
  exists d'. split; [|done]. do 2 f_equal. rewrite Hmaster. destruct (alive _ _); simpl; [done|]. by destruct (Hx eq_refl) as [-> _].
Qed.

(** On a settled key the functions that change the database are [upd]. *)
Lemma dbAdd_upd d k v : keys (srv d) !! k = None → expires d !! k = None → dbAdd d k v = Some (upd d k (Some (v, None))).
Proof.
  intros Hk He. unfold dbAdd, lookupKey. rewrite Hk. unfold upd, on_srv, set_key. simpl. do 2 f_equal. symmetry. exact (delete_id (expires d) k He).
Qed.

Lemma dbOverwrite_upd d k v v0 : keys (srv d) !! k = Some v0 → dbOverwrite d k v = Some (upd d k (Some (v, expires d !! k))).
Proof.
  intros Hk. unfold dbOverwrite, lookupKey. rewrite Hk. unfold upd, on_srv, set_key. simpl. do 2 f_equal. symmetry.
  apply partial_alter_self.
Qed.

Lemma setExpire_upd d k v w : keys (srv d) !! k = Some v → setExpire d k w = Some (upd d k (Some (v, Some w))).
Proof.
  intros Hk. unfold setExpire. rewrite bool_decide_true by eauto. unfold upd. simpl. do 2 f_equal. destruct d as [[K ? ? ?] X]. unfold with_keys. simpl in *. f_equal.
  symmetry. exact (insert_id K k v Hk).
Qed.

Lemma removeExpire_upd d k v : keys (srv d) !! k = Some v →
  removeExpire d k = Some (upd d k (Some (v, None)), bool_decide (is_Some (expires d !! k))).
Proof.
  intros Hk. unfold removeExpire. rewrite bool_decide_true by eauto. unfold upd. simpl. do 3 f_equal. destruct d as [[K ? ? ?] X]. unfold with_keys. simpl in *. f_equal.
  symmetry. exact (insert_id K k v Hk).
Qed.

Lemma dbSyncDelete_upd d k : dbSyncDelete d k = (upd d k None, bool_decide (is_Some (keys (srv d) !! k))).
Proof. done. Qed.
End lookups.

(** On a slave nothing is evicted: lookups leave the database as it is, reads of
    clients do not see expired keys, writes do. *)
Lemma slave_lookups {V} (E : env) (d : redisDb V) k b : masterhost E = true → keyIsExpired E d k = Some b →
  lookupKeyRead E d k = Some (d, if b && readonly E then None else keys (srv d) !! k) ∧
  lookupKeyWrite E d k = Some (d, keys (srv d) !! k).
Proof.
  intros Hs Hb. unfold lookupKeyRead, lookupKeyWrite, expireIfNeeded. rewrite Hb, Hs. cbn [mbind option_bind]. by destruct b.
Qed.
