(* ===== verification/TString.v ===== *)
(** * t_string.c, object.c: strings

    A string object holds its bytes, in an allocation of its own (RAW) or
    embedded (EMBSTR), or an integer whose decimal form is its contents (INT);
    small integers may be shared between keys, and shared objects are never
    modified.  Every other object belongs to one key.  An argument of a command
    is a list of bytes.

    [None] stands for undefined behaviour, a failed assertion or an allocation
    that cannot succeed.  [no_shared] is whether the eviction policy forbids
    shared integers. *)

From stdpp Require Import strings.
From S2P Require Import Prelude Decimal Util Keyspace Db.

(** [shared]: the object is one of [shared.integers]; values of other types are
    told apart by a number. *)
Inductive robj := ORaw (s : list Z) | OEmbstr (s : list Z) | OInt (v : Z) (shared : bool) | OOther (id : Z).

Abbreviation strdb := (redisDb robj).
Abbreviation NotifyString := (Notify NOTIFY_STRING).

Definition OBJ_ENCODING_EMBSTR_SIZE_LIMIT : nat := 44.
Definition OBJ_SHARED_INTEGERS : Z := 10000.

Definition createStringObject (s : list Z) : robj :=
  if bool_decide (length s ≤ OBJ_ENCODING_EMBSTR_SIZE_LIMIT)%nat then OEmbstr s else ORaw s.

(** The bytes of [getDecodedObject(o)], which [addReplyBulk] sends as well. *)
Definition getDecodedObject (o : robj) : option (list Z) :=
  match o with
  | ORaw s | OEmbstr s => Some s
  | OInt v _ => '(buf, len) ← ll2string (replicate 32 0) v; Some (take (Z.to_nat len) buf)
  | OOther _ => None
  end.

Definition stringObjectLen (o : robj) : option Z :=
  match o with
  | ORaw s | OEmbstr s => Some (Z.of_nat (length s))
  | OInt v _ => Some (sdigits10 v)
  | OOther _ => None
  end.

(** [C_ERR] is [Some None]. *)
Definition getLongLongFromObject (o : option robj) : option (option Z) :=
  match o with
  | None => Some (Some 0)
  | Some (ORaw s | OEmbstr s) => Some (string2ll s)
  | Some (OInt v _) => Some (Some v)
  | Some (OOther _) => None
  end.

Section strings.
Context (no_shared : bool).

(** The object of an argument: nothing else refers to it. *)
Definition tryObjectEncoding (o : robj) : option robj :=
  match o with
  | OOther _ => None
  | OInt _ _ => Some o
  | ORaw s | OEmbstr s =>
      match (if bool_decide (length s ≤ 20)%nat then string2l s else None) with
      | Some value =>
          Some (OInt value (negb no_shared && (0 <=? value) && (value <? OBJ_SHARED_INTEGERS)))
      | None =>
          if bool_decide (length s ≤ OBJ_ENCODING_EMBSTR_SIZE_LIMIT)%nat then Some (OEmbstr s) else Some o
      end
  end.

Definition encoded (s : list Z) : option robj := tryObjectEncoding (createStringObject s).

(** On a 64-bit target every [long long] is a [long]. *)
Definition createStringObjectFromLongLongForValue (value : Z) : robj :=
  OInt value (negb no_shared && (0 <=? value) && (value <? OBJ_SHARED_INTEGERS)).

Definition checkStringLength (d : strdb) (size : Z) : option strdb :=
  if 512 * 1024 * 1024 <? size then Some (reply_db d (RError "string exceeds maximum allowed size (512MB)")) else None.

(** ** SET *)

Record setflags := SetFlags { f_nx : bool; f_xx : bool; f_ex : bool; f_px : bool }.

(** [None] is the syntax error. *)
Fixpoint parse_set (argv : list (list Z)) (flags : setflags) (expire : option (list Z)) (unit : unit_) :
    option (setflags * option (list Z) * unit_) :=
  match argv with
  | [] => Some (flags, expire, unit)
  | a :: argv =>
      if is_word a [110; 120] && negb (f_xx flags) then parse_set argv (SetFlags true (f_xx flags) (f_ex flags) (f_px flags)) expire unit
      else if is_word a [120; 120] && negb (f_nx flags) then parse_set argv (SetFlags (f_nx flags) true (f_ex flags) (f_px flags)) expire unit
      else
        match argv with
        | [] => None
        | next :: argv =>
            if is_word a [101; 120] && negb (f_px flags) then parse_set argv (SetFlags (f_nx flags) (f_xx flags) true (f_px flags)) (Some next) UNIT_SECONDS
            else if is_word a [112; 120] && negb (f_ex flags) then parse_set argv (SetFlags (f_nx flags) (f_xx flags) (f_ex flags) true) (Some next) UNIT_MILLISECONDS
            else None
        end
  end.

Definition no_flags : setflags := SetFlags false false false false.

(** The time of the option, in milliseconds; [inr] is the database after an error. *)
Definition expire_option (d : strdb) (name : string) (expire : list Z) (unit : unit_) : option (Z + strdb) :=
  match getLongLongFromObjectOrReply d expire with
  | inr d => Some (inr d)
  | inl ms =>
      if ms <=? 0 then Some (inr (reply_db d (RError ("invalid expire time in " +:+ name))))
      else ms ← milliseconds unit ms; Some (inl ms)
  end.

Definition setGenericCommand (E : env) (d : strdb) (name : string) (flags : setflags) (key : list Z) (val : robj)
    (expire : option (list Z)) (unit : unit_) (ok_reply abort_reply : reply) : option strdb :=
  ms ← match expire with None => Some (inl 0) | Some e => expire_option d name e unit end;
  match ms with
  | inr d => Some d
  | inl ms =>
      '(d, aborted) ←
        (if f_nx flags then '(d, o) ← lookupKeyWrite E d key; Some (d, bool_decide (is_Some o)) else Some (d, false));
      '(d, aborted) ←
        (if negb aborted && f_xx flags then '(d, o) ← lookupKeyWrite E d key; Some (d, negb (bool_decide (is_Some o))) else Some (d, aborted));
      if aborted : bool then Some (reply_db d abort_reply) else
      d ← setKey E d key val;
      let d := dirty_db d 1 in
      d ← match expire with Some _ => when ← ll (mstime E + ms); setExpire d key when | None => Some d end;
      let d := log_db d (NotifyString "set" key) in
      let d := match expire with Some _ => log_db d (NotifyGeneric "expire" key) | None => d end in
      Some (reply_db d ok_reply)
  end.

Definition setCommand (E : env) (d : strdb) (key val : list Z) (argv : list (list Z)) : option strdb :=
  match parse_set argv no_flags None UNIT_SECONDS with
  | None => Some (reply_db d RSyntax)
  | Some (flags, expire, unit) => val ← encoded val; setGenericCommand E d "set" flags key val expire unit ROk RNullBulk
  end.

Definition setnxCommand (E : env) (d : strdb) (key val : list Z) : option strdb :=
  val ← encoded val;
  setGenericCommand E d "setnx" (SetFlags true false false false) key val None UNIT_SECONDS (RLong 1) (RLong 0).

Definition setexCommand (E : env) (d : strdb) (key expire val : list Z) : option strdb :=
  val ← encoded val; setGenericCommand E d "setex" no_flags key val (Some expire) UNIT_SECONDS ROk RNullBulk.

Definition psetexCommand (E : env) (d : strdb) (key expire val : list Z) : option strdb :=
  val ← encoded val; setGenericCommand E d "psetex" no_flags key val (Some expire) UNIT_MILLISECONDS ROk RNullBulk.

(** ** Reading *)

(** The flag is [C_ERR]. *)
Definition getGenericCommand (E : env) (d : strdb) (key : list Z) : option (strdb * bool) :=
  '(d, o) ← lookupKeyRead E d key;
  match o with
  | None => Some (reply_db d RNullBulk, false)
  | Some (OOther _) => Some (reply_db d RWrongType, true)
  | Some o => s ← getDecodedObject o; Some (reply_db d (RBulk s), false)
  end.

Definition getCommand (E : env) (d : strdb) (key : list Z) : option strdb :=
  '(d, _) ← getGenericCommand E d key; Some d.

Definition getsetCommand (E : env) (d : strdb) (key val : list Z) : option strdb :=
  '(d, err) ← getGenericCommand E d key;
  if err : bool then Some d else
  val ← encoded val;
  d ← setKey E d key val;
  Some (dirty_db (log_db d (NotifyString "set" key)) 1).

Definition getrangeCommand (E : env) (d : strdb) (key startarg endarg : list Z) : option strdb :=
  match getLongLongFromObjectOrReply d startarg with
  | inr d => Some d
  | inl start =>
      match getLongLongFromObjectOrReply d endarg with
      | inr d => Some d
      | inl end_ =>
          '(d, o) ← lookupKeyRead E d key;
          match o with
          | None => Some (reply_db d (RBulk []))
          | Some (OOther _) => Some (reply_db d RWrongType)
          | Some o =>
              str ← getDecodedObject o;
              let strlen := Z.of_nat (length str) in
              if (start <? 0) && (end_ <? 0) && (end_ <? start) then Some (reply_db d (RBulk [])) else
              let start := if start <? 0 then s64 (u64 (strlen + start)) else start in
              let end_ := if end_ <? 0 then s64 (u64 (strlen + end_)) else end_ in
              let start := if start <? 0 then 0 else start in
              let end_ := if end_ <? 0 then 0 else end_ in
              let end_ := if strlen <=? end_ then s64 (u64 (strlen - 1)) else end_ in
              if (end_ <? start) || (strlen =? 0) then Some (reply_db d (RBulk []))
              else p ← mread str start (end_ - start + 1); Some (reply_db d (RBulk p))
          end
      end
  end.

Fixpoint mget_loop (E : env) (d : strdb) (ks : list (list Z)) : option strdb :=
  match ks with
  | [] => Some d
  | k :: ks =>
      '(d, o) ← lookupKeyRead E d k;
      r ← match o with
          | None | Some (OOther _) => Some RNullBulk
          | Some o => s ← getDecodedObject o; Some (RBulk s)
          end;
      mget_loop E (reply_db d r) ks
  end.

Definition mgetCommand (E : env) (d : strdb) (ks : list (list Z)) : option strdb :=
  mget_loop E (reply_db d (RMultiLen (Z.of_nat (length ks)))) ks.

Definition strlenCommand (E : env) (d : strdb) (key : list Z) : option strdb :=
  '(d, o) ← lookupKeyRead E d key;
  match o with
  | None => Some (reply_db d (RLong 0))
  | Some (OOther _) => Some (reply_db d RWrongType)
  | Some o => n ← stringObjectLen o; Some (reply_db d (RLong n))
  end.

(** ** Changing a string *)

(** The object at [key] becomes a raw string of its own. *)
Definition dbUnshareStringValue (d : strdb) (key : list Z) (o : robj) : option (strdb * list Z) :=
  match o with
  | ORaw s => Some (d, s)
  | OOther _ => None
  | _ => s ← getDecodedObject o; d ← dbOverwrite d key (ORaw s); Some (d, s)
  end.

(** [sdsgrowzero] on the bytes: a string of [n] bytes; more than [PTRDIFF_MAX] bytes are never allocated. *)
Definition grow_string (s : list Z) (n : Z) : option (list Z) :=
  if 2 ^ 63 <=? n then None else Some (s ++ replicate (Z.to_nat n - length s) 0).

Definition setrangeCommand (E : env) (d : strdb) (key offsetarg value : list Z) : option strdb :=
  match getLongLongFromObjectOrReply d offsetarg with
  | inr d => Some d
  | inl offset =>
      if offset <? 0 then Some (reply_db d (RError "offset is out of range")) else
      let newlen := u64 (offset + Z.of_nat (length value)) in
      '(d, o) ← lookupKeyWrite E d key;
      r ← match o with
          | None =>
              if bool_decide (value = []) then Some (inr (reply_db d (RLong 0))) else
              match checkStringLength d (s64 newlen) with
              | Some d => Some (inr d)
              | None => s ← grow_string [] newlen; d ← dbAdd d key (ORaw s); Some (inl (d, s))
              end
          | Some (OOther _) => Some (inr (reply_db d RWrongType))
          | Some o =>
              olen ← stringObjectLen o;
              if bool_decide (value = []) then Some (inr (reply_db d (RLong olen))) else
              match checkStringLength d (s64 newlen) with
              | Some d => Some (inr d)
              | None => '(d, s) ← dbUnshareStringValue d key o; Some (inl (d, s))
              end
          end;
      match r with
      | inr d => Some d
      | inl (d, s) =>
          s ← grow_string s newlen;
          s ← mwrite s offset value;
          d ← dbOverwrite d key (ORaw s);
          let d := dirty_db (log_db (log_db d (SignalModified key)) (NotifyString "setrange" key)) 1 in
          Some (reply_db d (RLong (Z.of_nat (length s))))
      end
  end.

Definition appendCommand (E : env) (d : strdb) (key append : list Z) : option strdb :=
  '(d, o) ← lookupKeyWrite E d key;
  r ← match o with
      | None =>
          v ← encoded append;
          d ← dbAdd d key v;
          totlen ← stringObjectLen v;
          Some (inl (d, totlen))
      | Some (OOther _) => Some (inr (reply_db d RWrongType))
      | Some o =>
          olen ← stringObjectLen o;
          match checkStringLength d (s64 (u64 (olen + Z.of_nat (length append)))) with
          | Some d => Some (inr d)
          | None =>
              '(d, s) ← dbUnshareStringValue d key o;
              let s := s ++ append in
              d ← dbOverwrite d key (ORaw s);
              Some (inl (d, Z.of_nat (length s)))
          end
      end;
  match r with
  | inr d => Some d
  | inl (d, totlen) =>
      let d := dirty_db (log_db (log_db d (SignalModified key)) (NotifyString "append" key)) 1 in
      Some (reply_db d (RLong totlen))
  end.

(** ** MSET *)

Fixpoint any_exists (E : env) (d : strdb) (kvs : list (list Z * list Z)) : option (strdb * bool) :=
  match kvs with
  | [] => Some (d, false)
  | (k, _) :: kvs => '(d, o) ← lookupKeyWrite E d k; if bool_decide (is_Some o) then Some (d, true) else any_exists E d kvs
  end.

Fixpoint mset_loop (E : env) (d : strdb) (kvs : list (list Z * list Z)) : option strdb :=
  match kvs with
  | [] => Some d
  | (k, v) :: kvs => v ← encoded v; d ← setKey E d k v; mset_loop E (log_db d (NotifyString "set" k)) kvs
  end.

(** The pairs of the arguments; [None] when one is left. *)
Fixpoint pairs (argv : list (list Z)) : option (list (list Z * list Z)) :=
  match argv with
  | [] => Some []
  | [_] => None
  | k :: v :: argv => kvs ← pairs argv; Some ((k, v) :: kvs)
  end.

Definition msetGenericCommand (E : env) (d : strdb) (argv : list (list Z)) (nx : bool) : option strdb :=
  match pairs argv with
  | None => Some (reply_db d (RError "wrong number of arguments for MSET"))
  | Some kvs =>
      '(d, found) ← (if nx then any_exists E d kvs else Some (d, false));
      if found : bool then Some (reply_db d (RLong 0)) else
      d ← mset_loop E d kvs;
      Some (reply_db (dirty_db d (Z.of_nat (length kvs))) (if nx then RLong 1 else ROk))
  end.

(** ** Counters *)

Definition incrDecrCommand (E : env) (d : strdb) (key : list Z) (incr : Z) : option strdb :=
  '(d, o) ← lookupKeyWrite E d key;
  match o with
  | Some (OOther _) => Some (reply_db d RWrongType)
  | _ =>
      value ← getLongLongFromObject o;
      match value with
      | None => Some (reply_db d (RError "value is not an integer or out of range"))
      | Some oldvalue =>
          if ((incr <? 0) && (oldvalue <? 0) && (incr <? LLONG_MIN - oldvalue)) ||
             ((0 <? incr) && (0 <? oldvalue) && (LLONG_MAX - oldvalue <? incr))
          then Some (reply_db d (RError "increment or decrement would overflow")) else
          value ← ll (oldvalue + incr);
          d ← match o with
              | Some (OInt _ false as o) =>
                  if (value <? 0) || (OBJ_SHARED_INTEGERS <=? value) then dbOverwrite d key (OInt value false)
                  else dbOverwrite d key (createStringObjectFromLongLongForValue value)
              | Some _ => dbOverwrite d key (createStringObjectFromLongLongForValue value)
              | None => dbAdd d key (createStringObjectFromLongLongForValue value)
              end;
          let d := dirty_db (log_db (log_db d (SignalModified key)) (NotifyString "incrby" key)) 1 in
          Some (reply_db d (RLong value))
      end
  end.

Definition incrCommand E d key := incrDecrCommand E d key 1.
Definition decrCommand E d key := incrDecrCommand E d key (-1).

Definition incrbyCommand (E : env) (d : strdb) (key arg : list Z) : option strdb :=
  match getLongLongFromObjectOrReply d arg with inr d => Some d | inl incr => incrDecrCommand E d key incr end.

Definition decrbyCommand (E : env) (d : strdb) (key arg : list Z) : option strdb :=
  match getLongLongFromObjectOrReply d arg with inr d => Some d | inl incr => incr ← ll (- incr); incrDecrCommand E d key incr end.
End strings.
