(* ===== verification/KeySpec.v ===== *)
(** * The commands on strings and keys, as operations on a map

    The specification of t_string.c and of the commands of db.c and expire.c that
    are modelled: a map from the keys that have not expired to strings (or values
    of other types) and their expiration times, changed at a given time. *)

From stdpp Require Import strings.
From S2P Require Import Prelude Decimal Util Keyspace Db TString.

(** ** Specification *)

Abbreviation bytes := (list Z).

Inductive aval := AStr (s : list Z) | AOther (id : Z).

Abbreviation kdb := (gmap (list Z) (aval * option Z)).
Abbreviation kout := (outcome (aval * option Z)).

Inductive kcommand :=
  | SET (k v : bytes) (opts : list bytes)
  | SETNX (k v : bytes)
  | SETEX (k t v : bytes)
  | PSETEX (k t v : bytes)
  | GET (k : bytes)
  | GETSET (k v : bytes)
  | SETRANGE (k off v : bytes)
  | GETRANGE (k a b : bytes)
  | MGET (ks : list bytes)
  | MSET (argv : list bytes)
  | MSETNX (argv : list bytes)
  | INCR (k : bytes)
  | DECR (k : bytes)
  | INCRBY (k n : bytes)
  | DECRBY (k n : bytes)
  | APPEND (k v : bytes)
  | STRLEN (k : bytes)
  | DEL (ks : list bytes)
  | EXISTS (ks : list bytes)
  | TOUCH (ks : list bytes)
  | RENAME (src dst : bytes)
  | RENAMENX (src dst : bytes)
  | EXPIRE (k t : bytes)
  | EXPIREAT (k t : bytes)
  | PEXPIRE (k t : bytes)
  | PEXPIREAT (k t : bytes)
  | TTL (k : bytes)
  | PTTL (k : bytes)
  | PERSIST (k : bytes).

(** A command on the string at a key. *)
Definition on_string (D : kdb) (k : bytes) (none : kout) (f : bytes → option Z → kout) : kout :=
  match D !! k with
  | None => none
  | Some (AOther _, _) => answer D RWrongType
  | Some (AStr s, w) => f s w
  end.

Definition scale (unit : unit_) (n : Z) : Z := match unit with UNIT_SECONDS => n * 1000 | UNIT_MILLISECONDS => n end.

Definition put_spec (D : kdb) (k v : bytes) (w : option Z) (r : reply) : kout :=
  Outcome (<[k := (AStr v, w)]> D) 1
    ([SignalModified k; NotifyString "set" k] ++ (if w then [NotifyGeneric "expire" k] else [])) [r].

Definition setgen_spec (t : Z) (D : kdb) (name : string) (nx xx : bool) (k v : bytes) (expire : option bytes)
    (unit : unit_) (ok abort : reply) : kout :=
  let go w :=
    if (nx && bool_decide (is_Some (D !! k))) || (xx && negb (bool_decide (is_Some (D !! k))))
    then answer D abort else put_spec D k v w ok in
  match expire with
  | None => go None
  | Some e => with_int D e (λ n, if n <=? 0 then answer D (RError ("invalid expire time in " +:+ name)) else go (Some (t + scale unit n)))
  end.

(** The options of SET: NX, XX, EX seconds, PX milliseconds, in any case and any
    order.  NX excludes XX and EX excludes PX; an option that is repeated counts,
    and of several times the last one. *)
Inductive set_option := IfAbsent | IfPresent | Lasting (unit : unit_) (arg : bytes).

Fixpoint set_options (opts : list bytes) : option (list set_option) :=
  match opts with
  | [] => Some []
  | a :: rest =>
      if keyword "nx" a then cons IfAbsent <$> set_options rest
      else if keyword "xx" a then cons IfPresent <$> set_options rest
      else
        match rest with
        | [] => None
        | arg :: rest =>
            if keyword "ex" a then cons (Lasting UNIT_SECONDS arg) <$> set_options rest
            else if keyword "px" a then cons (Lasting UNIT_MILLISECONDS arg) <$> set_options rest
            else None
        end
  end.

Definition if_absent (os : list set_option) : bool := existsb (λ o, match o with IfAbsent => true | _ => false end) os.
Definition if_present (os : list set_option) : bool := existsb (λ o, match o with IfPresent => true | _ => false end) os.
Definition in_seconds (os : list set_option) : bool := existsb (λ o, match o with Lasting UNIT_SECONDS _ => true | _ => false end) os.
Definition in_millis (os : list set_option) : bool := existsb (λ o, match o with Lasting UNIT_MILLISECONDS _ => true | _ => false end) os.
Definition lasting (os : list set_option) : option (bytes * unit_) :=
  last (omap (λ o, match o with Lasting unit arg => Some (arg, unit) | _ => None end) os).

Definition conflict (os : list set_option) : bool := (if_absent os && if_present os) || (in_seconds os && in_millis os).

(** Whether the key must be absent, whether it must be present, and the time. *)
Definition set_arguments (opts : list bytes) : option (bool * bool * option (bytes * unit_)) :=
  os ← set_options opts; if conflict os then None else Some (if_absent os, if_present os, lasting os).

Definition set_spec (t : Z) (D : kdb) (k v : bytes) (opts : list bytes) : kout :=
  match set_arguments opts with
  | None => answer D RSyntax
  | Some (nx, xx, None) => setgen_spec t D "set" nx xx k v None UNIT_SECONDS ROk RNullBulk
  | Some (nx, xx, Some (arg, unit)) => setgen_spec t D "set" nx xx k v (Some arg) unit ROk RNullBulk
  end.

Definition get_reply (D : kdb) (k : bytes) : reply :=
  match D !! k with None => RNullBulk | Some (AOther _, _) => RWrongType | Some (AStr s, _) => RBulk s end.

Definition getset_spec (D : kdb) (k v : bytes) : kout :=
  match D !! k with
  | Some (AOther _, _) => answer D RWrongType
  | _ => put_spec D k v None (get_reply D k)
  end.

(** The bytes from index [a] to index [b]; negative indexes count from the end,
    and become 0 when they are still negative. *)
Definition substring (s : bytes) (a b : Z) : bytes :=
  let n := Z.of_nat (length s) in
  let index i := if i <? 0 then Z.max 0 (n + i) else i in
  if (a <? 0) && (b <? 0) && (b <? a) then []
  else take (Z.to_nat (Z.min (n - 1) (index b) + 1 - index a)) (drop (Z.to_nat (index a)) s).

Definition padded (s : bytes) (n : nat) : bytes := s ++ replicate (n - length s) 0.

Definition overwrite (s : bytes) (off : nat) (v : bytes) : bytes :=
  let s := padded s (off + length v) in take off s ++ v ++ drop (off + length v) s.

Definition MAX_STRING : Z := 512 * 1024 * 1024.
Definition too_long : reply := RError "string exceeds maximum allowed size (512MB)".

(** The string at a key is changed, its expiration time stays. *)
Definition change_spec (D : kdb) (k v : bytes) (w : option Z) (name : string) (r : reply) : kout :=
  Outcome (<[k := (AStr v, w)]> D) 1 [SignalModified k; NotifyString name k] [r].

Definition setrange_spec (D : kdb) (k off v : bytes) : kout :=
  with_int D off (λ n,
    if n <? 0 then answer D (RError "offset is out of range") else
    let go s w :=
      if bool_decide (v = []) then answer D (RLong (Z.of_nat (length s)))
      else if MAX_STRING <? n + Z.of_nat (length v) then answer D too_long
      else let s' := overwrite s (Z.to_nat n) v in change_spec D k s' w "setrange" (RLong (Z.of_nat (length s'))) in
    on_string D k (go [] None) go).

Definition getrange_spec (D : kdb) (k a b : bytes) : kout :=
  with_int D a (λ a, with_int D b (λ b,
    on_string D k (answer D (RBulk [])) (λ s _, answer D (RBulk (substring s a b))))).

Definition append_spec (D : kdb) (k v : bytes) : kout :=
  on_string D k (change_spec D k v None "append" (RLong (Z.of_nat (length v)))) (λ s w,
    if MAX_STRING <? Z.of_nat (length (s ++ v)) then answer D too_long
    else change_spec D k (s ++ v) w "append" (RLong (Z.of_nat (length (s ++ v))))).

Definition mget_reply (D : kdb) (k : bytes) : reply :=
  match D !! k with Some (AStr s, _) => RBulk s | _ => RNullBulk end.

Definition set_pairs (D : kdb) (kvs : list (bytes * bytes)) : kdb := foldl (λ D p, <[p.1 := (AStr p.2, None)]> D) D kvs.

(** The keys are the arguments at even places, each followed by its value. *)
Definition keys_values (argv : list bytes) : list (bytes * bytes) :=
  (λ i, (argv !!! (2 * i), argv !!! (2 * i + 1)))%nat <$> seq 0 (Nat.div2 (length argv)).

Definition mset_spec (D : kdb) (argv : list bytes) (nx : bool) : kout :=
  let kvs := keys_values argv in
  if Nat.odd (length argv) then answer D (RError "wrong number of arguments for MSET")
  else if nx && existsb (λ p, bool_decide (is_Some (D !! p.1))) kvs then answer D (RLong 0)
  else Outcome (set_pairs D kvs) (Z.of_nat (length kvs))
         (concat ((λ p, [SignalModified p.1; NotifyString "set" p.1]) <$> kvs)) [if nx then RLong 1 else ROk].

Definition incr_spec (D : kdb) (k : bytes) (incr : Z) : kout :=
  let go v w :=
    if bool_decide (in_s 64 (v + incr)) then change_spec D k (decimal_z (v + incr)) w "incrby" (RLong (v + incr))
    else answer D (RError "increment or decrement would overflow") in
  on_string D k (go 0 None) (λ s w, with_int D s (λ v, go v w)).

(** Keys are deleted one after another. *)
Fixpoint del_keys (D : kdb) (ks : list bytes) : kdb * list bytes :=
  match ks with
  | [] => (D, [])
  | k :: ks =>
      match D !! k with
      | None => del_keys D ks
      | Some _ => let (D, deleted) := del_keys (delete k D) ks in (D, k :: deleted)
      end
  end.

Definition del_spec (D : kdb) (ks : list bytes) : kout :=
  let (D, deleted) := del_keys D ks in
  Outcome D (Z.of_nat (length deleted)) (concat ((λ k, [SignalModified k; NotifyGeneric "del" k]) <$> deleted))
    [RLong (Z.of_nat (length deleted))].

Definition exists_spec (D : kdb) (ks : list bytes) : kout :=
  answer D (RLong (Z.of_nat (length (filter (λ k, is_Some (D !! k)) ks)))).

Definition rename_spec (D : kdb) (src dst : bytes) (nx : bool) : kout :=
  match D !! src with
  | None => answer D RNoKey
  | Some x =>
      if decide (src = dst) then answer D (if nx then RLong 0 else ROk)
      else if nx && bool_decide (is_Some (D !! dst)) then answer D (RLong 0)
      else Outcome (delete src (<[dst := x]> D)) 1
             [SignalModified src; SignalModified dst; NotifyGeneric "rename_from" src; NotifyGeneric "rename_to" dst]
             [if nx then RLong 1 else ROk]
  end.

Definition expire_spec (t : Z) (D : kdb) (k param : bytes) (base : Z) (unit : unit_) : kout :=
  with_int D param (λ n,
    let when := scale unit n + base in
    match D !! k with
    | None => answer D (RLong 0)
    | Some (a, _) =>
        if when <=? t then Outcome (delete k D) 1 [SignalModified k; NotifyGeneric "del" k] [RLong 1]
        else Outcome (<[k := (a, Some when)]> D) 1 [SignalModified k; NotifyGeneric "expire" k] [RLong 1]
    end).

Definition ttl_spec (t : Z) (D : kdb) (k : bytes) (ms : bool) : kout :=
  answer D (RLong
    match D !! k with
    | None => -2
    | Some (_, None) => -1
    | Some (_, Some w) => if ms then w - t else (w - t + 500) / 1000
    end).

Definition persist_spec (D : kdb) (k : bytes) : kout :=
  match D !! k with
  | Some (a, Some _) => Outcome (<[k := (a, None)]> D) 1 [] [RLong 1]
  | _ => answer D (RLong 0)
  end.

Definition key_spec (t : Z) (c : kcommand) (D : kdb) : kout :=
  match c with
  | SET k v opts => set_spec t D k v opts
  | SETNX k v => setgen_spec t D "setnx" true false k v None UNIT_SECONDS (RLong 1) (RLong 0)
  | SETEX k e v => setgen_spec t D "setex" false false k v (Some e) UNIT_SECONDS ROk RNullBulk
  | PSETEX k e v => setgen_spec t D "psetex" false false k v (Some e) UNIT_MILLISECONDS ROk RNullBulk
  | GET k => answer D (get_reply D k)
  | GETSET k v => getset_spec D k v
  | SETRANGE k off v => setrange_spec D k off v
  | GETRANGE k a b => getrange_spec D k a b
  | MGET ks => Outcome D 0 [] (RMultiLen (Z.of_nat (length ks)) :: (mget_reply D <$> ks))
  | MSET argv => mset_spec D argv false
  | MSETNX argv => mset_spec D argv true
  | INCR k => incr_spec D k 1
  | DECR k => incr_spec D k (-1)
  | INCRBY k n => with_int D n (λ n, incr_spec D k n)
  | DECRBY k n => with_int D n (λ n, incr_spec D k (- n))
  | APPEND k v => append_spec D k v
  | STRLEN k => on_string D k (answer D (RLong 0)) (λ s _, answer D (RLong (Z.of_nat (length s))))
  | DEL ks => del_spec D ks
  | EXISTS ks | TOUCH ks => exists_spec D ks
  | RENAME src dst => rename_spec D src dst false
  | RENAMENX src dst => rename_spec D src dst true
  | EXPIRE k p => expire_spec t D k p t UNIT_SECONDS
  | EXPIREAT k p => expire_spec t D k p 0 UNIT_SECONDS
  | PEXPIRE k p => expire_spec t D k p t UNIT_MILLISECONDS
  | PEXPIREAT k p => expire_spec t D k p 0 UNIT_MILLISECONDS
  | TTL k => ttl_spec t D k false
  | PTTL k => ttl_spec t D k true
  | PERSIST k => persist_spec D k
  end.

(** The arithmetic of the command does not overflow, and strings are shorter than
    2^62 bytes. *)
Definition int_fits (f : Z → bool) (arg : bytes) : bool := match string2ll arg with Some n => f n | None => true end.

(** The time of an option of SET, which has to be positive. *)
Definition option_fits (t : Z) (unit : unit_) (arg : bytes) : bool :=
  int_fits (λ n, (n <=? 0) || (bool_decide (in_s 64 (scale unit n)) && bool_decide (in_s 64 (t + scale unit n)))) arg.

Definition time_fits (base : Z) (unit : unit_) (arg : bytes) : bool :=
  int_fits (λ n, bool_decide (in_s 64 (scale unit n)) && bool_decide (in_s 64 (scale unit n + base))) arg.

Definition length_at (D : kdb) (k : bytes) : Z := match D !! k with Some (AStr s, _) => Z.of_nat (length s) | _ => 0 end.

Definition key_fits (t : Z) (c : kcommand) (D : kdb) : bool :=
  match c with
  | SET _ _ opts =>
      match set_arguments opts with Some (_, _, Some (arg, unit)) => option_fits t unit arg | _ => true end
  | SETEX _ e _ => option_fits t UNIT_SECONDS e
  | PSETEX _ e _ => option_fits t UNIT_MILLISECONDS e
  | SETRANGE _ off v => int_fits (λ n, n + Z.of_nat (length v) <? 2 ^ 63) off
  | GETRANGE k _ _ => length_at D k <? 2 ^ 62
  | APPEND k v => length_at D k + Z.of_nat (length v) <? 2 ^ 62
  | DECRBY _ n => int_fits (λ n, negb (n =? - 2 ^ 63)) n
  | EXPIRE _ p => time_fits t UNIT_SECONDS p
  | EXPIREAT _ p => time_fits 0 UNIT_SECONDS p
  | PEXPIRE _ p => time_fits t UNIT_MILLISECONDS p
  | PEXPIREAT _ p => time_fits 0 UNIT_MILLISECONDS p
  | TTL k => match D !! k with Some (_, Some w) => w - t + 500 <? 2 ^ 63 | _ => true end
  | _ => true
  end.
