(* ===== verification/TStringSpec.v ===== *)
(** * t_string.c, db.c, expire.c: the commands refine operations on a map

    A database stands, at a time, for the map of its keys that have not expired.
    Each command answers, counts, notifies and changes this map as KeySpec.v says;
    the eviction of expired keys, whenever a lookup does it, is not visible apart
    from its own events. *)

From stdpp Require Import strings.
From S2P Require Import Prelude Decimal Util Keyspace Db DbRep TString KeySpec.

(** ** Objects *)

Definition obj_rep (o : robj) (a : aval) : Prop :=
  match o, a with
  | ORaw s, AStr s' | OEmbstr s, AStr s' => s' = s
  | OInt v _, AStr s' => in_s 64 v ∧ s' = decimal_z v
  | OOther i, AOther j => j = i
  | _, _ => False
  end.

Lemma decoded_ok o s : obj_rep o (AStr s) → getDecodedObject o = Some s.
Proof.
  destruct o as [s'|s'|v sh|id]; cbn [getDecodedObject obj_rep]; try (by intros ->); [|done]. intros [Hv ->]. pose proof (decimal_z_length v) as [Hl1 Hl2].
  rewrite ll2string_spec, decide_True by (done || (rewrite length_replicate; lia)). cbn [mbind option_bind].
  by rewrite Nat2Z.id, take_app_length.
Qed.

Lemma objectLen_ok o s : obj_rep o (AStr s) → stringObjectLen o = Some (Z.of_nat (length s)).
Proof.
  destruct o as [s'|s'|v sh|id]; simpl; try (by intros ->); [|done]. intros [Hv ->].
  destruct (ll2string_correct [] v 0 Hv) as (_ & _ & ->); [unfold in_u; lia|done|done].
Qed.

Lemma longlong_ok o s : obj_rep o (AStr s) → getLongLongFromObject (Some o) = Some (string2ll s).
Proof.
  destruct o as [s'|s'|v sh|id]; simpl; try (by intros ->); [|done]. intros H. f_equal. symmetry. by apply string2ll_spec.
Qed.

Lemma encoded_ok no_shared s : ∃ o, encoded no_shared s = Some o ∧ obj_rep o (AStr s).
Proof.
  unfold encoded, createStringObject.
  assert (∀ o, o = ORaw s ∨ o = OEmbstr s → ∃ o', tryObjectEncoding no_shared o = Some o' ∧ obj_rep o' (AStr s)) as Hgo; [|by destruct (bool_decide _); apply Hgo; auto].
  intros o Ho. pose proof (string2l_eq s) as Hl.
  destruct (if bool_decide (length s ≤ 20)%nat then string2ll s else None) as [v|] eqn:Ev.
  - assert (string2ll s = Some v) as Es by (by destruct (bool_decide _)). apply string2ll_spec in Es. destruct Ho as [-> | ->]; cbn [tryObjectEncoding]; rewrite Hl, Ev; eexists; split; done.
  - destruct Ho as [-> | ->]; cbn [tryObjectEncoding]; rewrite Hl, Ev; (destruct (bool_decide (length s ≤ OBJ_ENCODING_EMBSTR_SIZE_LIMIT)%nat); by eexists).
Qed.

Lemma commands_only evs : Forall (λ e, expiry_event e = false) evs → filter (λ e, expiry_event e = false) evs = evs.
Proof. induction 1 as [|e evs He _ IH]; [done|]. by rewrite filter_cons_True, IH. Qed.

Section refinement.
Context (no_shared : bool) (E : env) (Hmaster : masterhost E = false) (Hload : loading E = false) (Hnow : 0 ≤ mstime E).
Implicit Types (d : strdb) (D : kdb) (o : kout).

Abbreviation rep := (db_rep obj_rep (mstime E)).

Definition refines_key d o (r : option strdb) : Prop :=
  ∃ d', r = Some d' ∧ rep d' (o_keys o) ∧ dirty (srv d') = dirty (srv d) + o_dirty o ∧
    (∃ evs, events (srv d') = events (srv d) ++ evs ∧ filter (λ e, expiry_event e = false) evs = o_events o) ∧
    replies (srv d') = replies (srv d) ++ o_replies o.

Lemma refines_quiet d d1 o r : quiet d d1 → refines_key d1 o r → refines_key d o r.
Proof.
  intros (Hd & Hr & evs & He & Hf) (d' & -> & Hrep & Hd' & (evs' & He' & Hf') & Hr'). exists d'. split; [done|]. split; [done|].
  split; [congruence|]. split; [|congruence]. exists (evs ++ evs'). rewrite He', He, app_assoc, filter_app, Hf, Hf'. done.
Qed.

Lemma kanswer_ok d D r : rep d D → refines_key d (answer D r) (Some (reply_db d r)).
Proof.
  intros Hrep. exists (reply_db d r). split; [done|]. split; [by eapply rep_same|]. simpl. split; [lia|]. split; [|done].
  exists []. by rewrite app_nil_r.
Qed.

(** The same with an argument that is a number. *)
Lemma kwith_int_ok d D arg f g : rep d D → (∀ n, string2ll arg = Some n → in_s 64 n → refines_key d (f n) (g n)) →
  refines_key d (with_int D arg f) (match getLongLongFromObjectOrReply d arg with inr d => Some d | inl n => g n end).
Proof.
  intros Hrep Hf. unfold with_int, getLongLongFromObjectOrReply. destruct (string2ll arg) as [n|] eqn:En; [|by apply kanswer_ok].
  apply Hf; [done|]. by apply string2ll_spec in En as [? _].
Qed.

(** The end of a command that changed one key and logged [evs]. *)
Lemma changed_ok d D d' k y dirt evs rs : rep d' (partial_alter (λ _, y) k D) →
  dirty (srv d') = dirty (srv d) + dirt → events (srv d') = events (srv d) ++ evs → Forall (λ e, expiry_event e = false) evs →
  replies (srv d') = replies (srv d) ++ rs → refines_key d (Outcome (partial_alter (λ _, y) k D) dirt evs rs) (Some d').
Proof.
  intros Hrep Hd He Hall Hr. exists d'. split_and!; try done. exists evs. split; [done|]. by apply commands_only.
Qed.

Lemma setKey_ok d D k v : rep d D →
  ∃ d1, quiet d d1 ∧ rep d1 D ∧ setKey E d k v = Some (log_db (upd d1 k (Some (v, None))) (SignalModified k)).
Proof.
  intros Hrep. unfold setKey. destruct (lookupWrite_ok obj_rep E Hmaster Hload d D k Hrep) as (d1 & -> & Hrep1 & Hs & Hq). cbn [mbind option_bind].
  exists d1. split; [done|]. split; [done|]. destruct (rep_cases obj_rep _ d1 D k Hrep1 Hs) as [(Ek & Ee & _)|(v0 & a & Ek & _ & _)]; rewrite Ek.
  - rewrite dbAdd_upd by done. cbn [mbind option_bind]. rewrite (removeExpire_upd _ k v) by (by rewrite upd_lookup). cbn [mbind option_bind]. by rewrite upd_upd.
  - erewrite dbOverwrite_upd by done. cbn [mbind option_bind]. rewrite (removeExpire_upd _ k v) by (by rewrite upd_lookup). cbn [mbind option_bind]. by rewrite upd_upd.
Qed.

(** *** One key is looked up *)

Lemma write_at d D k (f : strdb → option robj → option strdb) o : rep d D →
  (∀ d1, rep d1 D → keys (srv d1) !! k = None → expires d1 !! k = None → D !! k = None → refines_key d1 o (f d1 None)) →
  (∀ d1 v a w, rep d1 D → fresh_ok (mstime E) w → expires d1 !! k = w → keys (srv d1) !! k = Some v → D !! k = Some (a, w) → obj_rep v a →
     refines_key d1 o (f d1 (Some v))) →
  refines_key d o ('(d1, x) ← lookupKeyWrite E d k; f d1 x).
Proof.
  intros Hrep Hnone Hsome. destruct (lookupWrite_ok obj_rep E Hmaster Hload d D k Hrep) as (d1 & -> & Hrep1 & Hs & Hq). cbn [mbind option_bind].
  apply (refines_quiet d d1); [done|]. destruct (rep_cases obj_rep _ d1 D k Hrep1 Hs) as [(Ek & Ee & HD)|(v & a & Ek & HD & Ho)]; rewrite Ek; [by apply Hnone|].
  eapply Hsome; try done. unfold settled, fresh_ok, alive in *. destruct (expires d1 !! k) as [w|] eqn:Ew; [|done].
  split; [by apply (rep_expires _ _ _ _ Hrep1 k)|lia].
Qed.

Lemma read_at d D k (f : strdb → option robj → option strdb) o : rep d D →
  (∀ d1, rep d1 D → expires d1 !! k = None → D !! k = None → refines_key d1 o (f d1 None)) →
  (∀ d1 v a w, rep d1 D → fresh_ok (mstime E) w → expires d1 !! k = w → keys (srv d1) !! k = Some v → D !! k = Some (a, w) → obj_rep v a →
     refines_key d1 o (f d1 (Some v))) →
  refines_key d o ('(d1, x) ← lookupKeyRead E d k; f d1 x).
Proof.
  intros Hrep Hnone Hsome. destruct (lookupRead_ok obj_rep E Hmaster Hload d D k Hrep) as (d1 & Er & Hrep1 & Hs & Hq).
  destruct (lookupWrite_ok obj_rep E Hmaster Hload d D k Hrep) as (d2 & Ew & _).
  assert (d2 = d1) as ->.
  { unfold lookupKeyRead, lookupKeyWrite in Er, Ew. destruct (expireIfNeeded E d k) as [[d3 b]|]; [|done]. cbn [mbind option_bind] in *. congruence. }
  rewrite Er. rewrite <- Ew. apply (write_at d D k f o Hrep); [|done]. intros. by apply Hnone.
Qed.

Lemma rep_put d D k v a w : rep d D → obj_rep v a → fresh_ok (mstime E) w → rep (upd d k (Some (v, w))) (<[k := (a, w)]> D).
Proof. intros Hrep Ho Hw. apply (rep_upd obj_rep (mstime E) d D k (Some (v, w)) (Some (a, w)) Hrep); [by constructor|done]. Qed.

Lemma rep_del d D k : rep d D → rep (upd d k None) (delete k D).
Proof. intros Hrep. apply (rep_upd obj_rep (mstime E) d D k None None Hrep); [constructor|done]. Qed.

(** The end of a command that put a string. *)
Lemma put_done d1 D d' k v a w dirt evs rs : rep d1 D → obj_rep v a → fresh_ok (mstime E) w →
  keys (srv d') = keys (srv (upd d1 k (Some (v, w)))) → expires d' = expires (upd d1 k (Some (v, w))) →
  dirty (srv d') = dirty (srv d1) + dirt → events (srv d') = events (srv d1) ++ evs → Forall (λ e, expiry_event e = false) evs →
  replies (srv d') = replies (srv d1) ++ rs → refines_key d1 (Outcome (<[k := (a, w)]> D) dirt evs rs) (Some d').
Proof.
  intros Hrep Ho Hw Ek Ee Hd He Hall Hr. apply (changed_ok d1 D d' k (Some (a, w))); try done. by eapply rep_same; [by apply rep_put|..].
Qed.

Lemma del_done d1 D d' k dirt evs rs : rep d1 D →
  keys (srv d') = keys (srv (upd d1 k None)) → expires d' = expires (upd d1 k None) →
  dirty (srv d') = dirty (srv d1) + dirt → events (srv d') = events (srv d1) ++ evs → Forall (λ e, expiry_event e = false) evs →
  replies (srv d') = replies (srv d1) ++ rs → refines_key d1 (Outcome (delete k D) dirt evs rs) (Some d').
Proof.
  intros Hrep Ek Ee Hd He Hall Hr. apply (changed_ok d1 D d' k None); try done. by eapply rep_same; [by apply rep_del|..].
Qed.

(** ** SET *)

Lemma set_guard_ok d D flags k : rep d D →
  ∃ d1, quiet d d1 ∧ rep d1 D ∧
    ('(d, aborted) ← (if f_nx flags then '(d, o) ← lookupKeyWrite E d k; Some (d, bool_decide (is_Some o)) else Some (d, false));
     (if negb aborted && f_xx flags then '(d, o) ← lookupKeyWrite E d k; Some (d, negb (bool_decide (is_Some o))) else Some (d, aborted))) =
    Some (d1, (f_nx flags && bool_decide (is_Some (D !! k))) || (f_xx flags && negb (bool_decide (is_Some (D !! k))))).
Proof.
  intros Hrep. assert (∀ d, rep d D → ∃ d1, quiet d d1 ∧ rep d1 D ∧
    ∃ x : option robj, lookupKeyWrite E d k = Some (d1, x) ∧ bool_decide (is_Some x) = bool_decide (is_Some (D !! k))) as Hlook.
  { intros d0 Hrep0. destruct (lookupWrite_ok obj_rep E Hmaster Hload d0 D k Hrep0) as (d1 & -> & Hrep1 & Hs & Hq). exists d1. split_and!; try done.
    eexists. split; [done|]. apply bool_decide_ext. destruct (rep_cases obj_rep _ d1 D k Hrep1 Hs) as [(-> & _ & ->)|(v & a & -> & -> & _)]; [done|split; eauto]. }
  destruct (f_nx flags).
  - destruct (Hlook d Hrep) as (d1 & Hq1 & Hrep1 & o1 & -> & Eo1). cbn [mbind option_bind]. rewrite Eo1.
    destruct (bool_decide (is_Some (D !! k))); [by exists d1|]. cbn [negb andb orb]. destruct (f_xx flags); [|by exists d1].
    destruct (Hlook d1 Hrep1) as (d2 & Hq2 & Hrep2 & o2 & -> & Eo2). cbn [mbind option_bind]. rewrite Eo2. exists d2. split; [by eapply quiet_trans|done].
  - cbn [mbind option_bind negb andb orb]. destruct (f_xx flags); [|by exists d; split; [apply quiet_refl|]]. destruct (Hlook d Hrep) as (d1 & Hq1 & Hrep1 & o1 & -> & Eo1). cbn [mbind option_bind]. rewrite Eo1. by exists d1.
Qed.

Lemma ll_ok x : in_s 64 x → ll x = Some x.
Proof. intros Hx. unfold ll. by rewrite bool_decide_true. Qed.

Lemma milliseconds_ok unit n : in_s 64 (scale unit n) → milliseconds unit n = Some (scale unit n).
Proof. destruct unit; simpl; [apply ll_ok|done]. Qed.

Lemma setgen_ok d D name flags k s v expire unit ok abort : rep d D → obj_rep v (AStr s) →
  (∀ e, expire = Some e → option_fits (mstime E) unit e = true) →
  refines_key d (setgen_spec (mstime E) D name (f_nx flags) (f_xx flags) k s expire unit ok abort)
    (setGenericCommand E d name flags k v expire unit ok abort).
Proof.
  intros Hrep Hv Hfit. unfold setgen_spec, setGenericCommand.
  set (b := (f_nx flags && bool_decide (is_Some (D !! k))) || (f_xx flags && negb (bool_decide (is_Some (D !! k))))).
  assert (∀ ms w (withexp : bool), (if withexp then in_s 64 (mstime E + ms) ∧ w = Some (mstime E + ms) ∧ 0 < ms else w = None) →
    refines_key d (if b then answer D abort else put_spec D k s w ok)
      ('(d, aborted) ← (if f_nx flags then '(d, o) ← lookupKeyWrite E d k; Some (d, bool_decide (is_Some o)) else Some (d, false));
       '(d, aborted) ← (if negb aborted && f_xx flags then '(d, o) ← lookupKeyWrite E d k; Some (d, negb (bool_decide (is_Some o))) else Some (d, aborted));
       if aborted : bool then Some (reply_db d abort) else
       d ← setKey E d k v;
       let d := dirty_db d 1 in
       d ← (if withexp then when ← ll (mstime E + ms); setExpire d k when else Some d);
       let d := log_db d (NotifyString "set" k) in
       let d := if withexp then log_db d (NotifyGeneric "expire" k) else d in
       Some (reply_db d ok))) as Hgo.
  { intros ms w withexp Hw. destruct (set_guard_ok d D flags k Hrep) as (d1 & Hq & Hrep1 & Hg). fold b in Hg.
    apply bind_Some in Hg as ([d0 b0] & -> & Hg). cbn [mbind option_bind]. rewrite Hg. cbn [mbind option_bind]. apply (refines_quiet d d1); [done|].
    destruct b; [by apply kanswer_ok|]. destruct (setKey_ok d1 D k v Hrep1) as (d2 & Hq2 & Hrep2 & ->). cbn [mbind option_bind]. apply (refines_quiet d1 d2); [done|].
    unfold put_spec. destruct withexp.
    - destruct Hw as (Hin & -> & Hms). rewrite (ll_ok _ Hin). cbn [mbind option_bind]. rewrite (setExpire_upd _ k v) by (simpl; by rewrite lookup_partial_alter_eq). cbn [mbind option_bind].
      destruct (upd_again d2 (dirty_db (log_db (upd d2 k (Some (v, None))) (SignalModified k)) 1) k (Some (v, None)) (Some (v, Some (mstime E + ms)))) as [Ek Ee]; [done..|].
      eapply (put_done d2 D _ k v); try done; [|simpl; by rewrite <- !app_assoc|by repeat constructor].
      split; [|lia]. unfold in_s, in_u in *. simpl in Hin. lia.
    - subst w. cbn [mbind option_bind]. eapply (put_done d2 D _ k v); try done; [simpl; by rewrite <- !app_assoc|by repeat constructor]. }
  destruct expire as [e|]; [|exact (Hgo 0 None false eq_refl)].
  unfold expire_option. specialize (Hfit e eq_refl). unfold option_fits, int_fits in Hfit.
  unfold with_int, getLongLongFromObjectOrReply. destruct (string2ll e) as [n|]; [|by apply kanswer_ok].
  destruct (Z.leb_spec n 0) as [Hn|Hn]; [by apply kanswer_ok|]. simpl in Hfit. apply andb_prop in Hfit as [H1%bool_decide_eq_true H2%bool_decide_eq_true].
  rewrite milliseconds_ok by done. cbn [mbind option_bind]. apply (Hgo _ _ true). split; [done|]. split; [done|]. destruct unit; simpl; lia.
Qed.

(** *** The options *)

(** The time of the options, after one that was read before. *)
Definition expire_after (expire : option bytes) (unit : unit_) (os : list set_option) : option bytes * unit_ :=
  match lasting os with Some (arg, unit) => (Some arg, unit) | None => (expire, unit) end.

Lemma lasting_cons unit arg os expire unit' : expire_after expire unit' (Lasting unit arg :: os) = expire_after (Some arg) unit os.
Proof. unfold expire_after, lasting. cbn [omap list_omap]. by destruct (omap _ os) as [|x l] using rev_ind; [|rewrite app_comm_cons, !last_snoc]. Qed.

(** What was read before and the options that follow. *)
Definition set_after (flags : setflags) (expire : option bytes) (unit : unit_) (os : list set_option) : option (setflags * option bytes * unit_) :=
  let nx := f_nx flags || if_absent os in let xx := f_xx flags || if_present os in
  let ex := f_ex flags || in_seconds os in let px := f_px flags || in_millis os in
  if (nx && xx) || (ex && px) then None
  else Some (SetFlags nx xx ex px, (expire_after expire unit os).1, (expire_after expire unit os).2).

(** An argument is one keyword at most. *)
Lemma keyword_unique w w' a : word_bytes w ≠ word_bytes w' → keyword w a = true → keyword w' a = false.
Proof. unfold keyword. intros Hne ->%bool_decide_eq_true. by apply bool_decide_false. Qed.

Lemma options_stop (m : option (list set_option)) (o : set_option) flags expire unit : (∀ os, set_after flags expire unit (o :: os) = None) →
  (os ← cons o <$> m; set_after flags expire unit os) = None.
Proof. intros H. destruct m as [os|]; [apply H|done]. Qed.

Lemma options_go (m : option (list set_option)) (o : set_option) flags expire unit flags' expire' unit' :
  (∀ os, set_after flags expire unit (o :: os) = set_after flags' expire' unit' os) →
  (os ← m; set_after flags' expire' unit' os) = os ← cons o <$> m; set_after flags expire unit os.
Proof. intros H. destruct m as [os|]; [symmetry; apply H|done]. Qed.

Lemma parse_set_options opts flags expire unit : f_nx flags && f_xx flags = false → f_ex flags && f_px flags = false →
  parse_set opts flags expire unit = os ← set_options opts; set_after flags expire unit os.
Proof.
  remember (length opts) as n eqn:Hn. revert opts Hn flags expire unit.
  induction (lt_wf n) as [n _ IH]. intros opts -> [nx xx ex px] expire unit Hnx Hex; cbn [f_nx f_xx f_ex f_px] in *.
  destruct opts as [|a rest]; cbn [parse_set set_options].
  { cbn [mbind option_bind]. unfold set_after. cbn [if_absent if_present in_seconds in_millis existsb f_nx f_xx f_ex f_px]. by rewrite !orb_false_r, Hnx, Hex. }
  change (is_word a [110; 120]) with (keyword "nx" a). change (is_word a [120; 120]) with (keyword "xx" a).
  change (is_word a [101; 120]) with (keyword "ex" a). change (is_word a [112; 120]) with (keyword "px" a).
  pose proof (keyword_unique "nx" "xx" a ltac:(done)) as N1. pose proof (keyword_unique "nx" "ex" a ltac:(done)) as N2.
  pose proof (keyword_unique "nx" "px" a ltac:(done)) as N3. pose proof (keyword_unique "xx" "ex" a ltac:(done)) as N4.
  pose proof (keyword_unique "xx" "px" a ltac:(done)) as N5. pose proof (keyword_unique "ex" "px" a ltac:(done)) as N6.
  destruct (keyword "nx" a) eqn:E1; [|destruct (keyword "xx" a) eqn:E2].
  - rewrite N1, N2, N3 by done. cbn [f_xx andb negb]. destruct xx; cbn [negb].
    + rewrite options_stop by (intros os; unfold set_after; cbn; by rewrite orb_true_r). by destruct rest.
    + rewrite (IH (length rest)) by (simpl; (done || lia)). apply options_go. intros os. unfold set_after. cbn. by rewrite orb_true_r.
  - rewrite N4, N5 by done. cbn [f_nx andb negb]. destruct nx; cbn [negb].
    + rewrite options_stop by (intros os; unfold set_after; cbn; by rewrite orb_true_r). by destruct rest.
    + rewrite (IH (length rest)) by (simpl; (done || lia)). apply options_go. intros os. unfold set_after. cbn. by rewrite orb_true_r.
  - cbn [andb]. destruct rest as [|arg rest]; [done|]. destruct (keyword "ex" a) eqn:E3; [|destruct (keyword "px" a) eqn:E4; [|done]].
    + rewrite N6 by done. cbn [f_px andb negb]. destruct px; cbn [negb].
      * rewrite options_stop; [done|]. intros os. unfold set_after. cbn. by rewrite !orb_true_r.
      * rewrite (IH (length rest)) by (simpl; (done || lia)). apply options_go. intros os. unfold set_after. rewrite lasting_cons. cbn. by rewrite orb_true_r.
    + cbn [f_ex andb negb]. destruct ex; cbn [negb].
      * rewrite options_stop; [done|]. intros os. unfold set_after. cbn. by rewrite !orb_true_r.
      * rewrite (IH (length rest)) by (simpl; (done || lia)). apply options_go. intros os. unfold set_after. rewrite lasting_cons. cbn. by rewrite orb_true_r.
Qed.

(** The options of a command, as setCommand reads them. *)
Lemma parse_set_arguments opts :
  match set_arguments opts with
  | None => parse_set opts no_flags None UNIT_SECONDS = None
  | Some (nx, xx, w) => ∃ ex px, parse_set opts no_flags None UNIT_SECONDS =
      Some (SetFlags nx xx ex px, fst <$> w, match w with Some (_, unit) => unit | None => UNIT_SECONDS end)
  end.
Proof.
  rewrite parse_set_options by done. unfold set_arguments. destruct (set_options opts) as [os|]; [|done]. cbn [mbind option_bind].
  unfold set_after, conflict, expire_after. cbn [f_nx f_xx f_ex f_px no_flags orb]. destruct (_ || _); [done|].
  eexists _, _. by destruct (lasting os) as [[arg unit]|].
Qed.

Lemma set_cmd_ok d D k v opts : rep d D → key_fits (mstime E) (SET k v opts) D = true →
  refines_key d (set_spec (mstime E) D k v opts) (setCommand no_shared E d k v opts).
Proof.
  intros Hrep Hfit. unfold set_spec, setCommand. cbn [key_fits] in Hfit. pose proof (parse_set_arguments opts) as Hargs.
  destruct (set_arguments opts) as [[[nx xx] w]|]; [|rewrite Hargs; by apply kanswer_ok]. destruct Hargs as (ex & px & ->).
  destruct (encoded_ok no_shared v) as (o & -> & Ho). cbn [mbind option_bind].
  destruct w as [[arg unit]|]; apply (setgen_ok d D "set" (SetFlags nx xx ex px)); try done. by intros e [= <-].
Qed.

Lemma setnx_ok d D k v : rep d D → refines_key d (key_spec (mstime E) (SETNX k v) D) (setnxCommand no_shared E d k v).
Proof.
  intros Hrep. unfold setnxCommand. destruct (encoded_ok no_shared v) as (o & -> & Ho). cbn [mbind option_bind]. by apply (setgen_ok d D "setnx" (SetFlags true false false false)).
Qed.

Lemma setex_ok d D k e v unit name : rep d D → option_fits (mstime E) unit e = true →
  refines_key d (setgen_spec (mstime E) D name false false k v (Some e) unit ROk RNullBulk)
    (val ← encoded no_shared v; setGenericCommand E d name no_flags k val (Some e) unit ROk RNullBulk).
Proof.
  intros Hrep Hfit. destruct (encoded_ok no_shared v) as (o & -> & Ho). cbn [mbind option_bind]. apply (setgen_ok d D name no_flags); [done|done|]. by intros e' [= <-].
Qed.

(** ** Reading *)

(** A value that is no string is of another type. *)
Ltac on_value v := destruct v as [?s|?s|?n ?sh|?id].

Lemma get_generic_ok d D k : rep d D →
  ∃ d1 r, quiet d d1 ∧ rep d1 D ∧ getGenericCommand E d k = Some (reply_db d1 (get_reply D k), r) ∧
    r = match D !! k with Some (AOther _, _) => true | _ => false end.
Proof.
  intros Hrep. unfold getGenericCommand, get_reply. destruct (lookupRead_ok obj_rep E Hmaster Hload d D k Hrep) as (d1 & -> & Hrep1 & Hs & Hq). cbn [mbind option_bind].
  exists d1. destruct (rep_cases obj_rep _ d1 D k Hrep1 Hs) as [(-> & _ & ->)|(v & a & -> & -> & Ho)]; [by eexists|].
  destruct a as [s|id].
  - pose proof (decoded_ok v s Ho) as Hd. on_value v; [| | |done]; rewrite Hd; cbn [mbind option_bind]; by eexists.
  - on_value v; try done. by eexists.
Qed.

Lemma get_ok d D k : rep d D → refines_key d (answer D (get_reply D k)) (getCommand E d k).
Proof.
  intros Hrep. unfold getCommand. destruct (get_generic_ok d D k Hrep) as (d1 & r & Hq & Hrep1 & -> & _). cbn [mbind option_bind].
  apply (refines_quiet d d1); [done|]. by apply kanswer_ok.
Qed.

Lemma getset_ok d D k v : rep d D → refines_key d (getset_spec D k v) (getsetCommand no_shared E d k v).
Proof.
  intros Hrep. unfold getsetCommand, getset_spec. destruct (get_generic_ok d D k Hrep) as (d1 & r & Hq & Hrep1 & -> & ->). cbn [mbind option_bind].
  apply (refines_quiet d d1); [done|]. destruct (encoded_ok no_shared v) as (o & -> & Ho). cbn [mbind option_bind].
  assert (refines_key d1 (put_spec D k v None (get_reply D k))
    (d ← setKey E (reply_db d1 (get_reply D k)) k o; Some (dirty_db (log_db d (NotifyString "set" k)) 1))) as Hgo.
  { destruct (setKey_ok (reply_db d1 (get_reply D k)) D k o) as (d2 & (Hd & Hr & evs & He & Hf) & Hrep2 & ->); [by eapply rep_same|]. cbn [mbind option_bind].
    eexists. split; [done|]. split; [by eapply rep_same; [by apply rep_put|..]|]. simpl. split; [simpl in Hd; lia|]. split; [|by rewrite Hr].
    exists (evs ++ [SignalModified k; NotifyString "set" k]). rewrite He, <- !app_assoc, filter_app, Hf. done. }
  destruct (D !! k) as [[[s|id] w]|] eqn:HD; [exact Hgo| |exact Hgo]. unfold get_reply. rewrite HD. by apply kanswer_ok.
Qed.

Lemma strlen_ok d D k : rep d D → refines_key d (key_spec (mstime E) (STRLEN k) D) (strlenCommand E d k).
Proof.
  intros Hrep. unfold strlenCommand. cbn [key_spec]. unfold on_string. apply (read_at d D k (λ d1 x, match x with None => _ | Some _ => _ end)); [done| |].
  - intros d1 Hrep1 _ ->. by apply kanswer_ok.
  - intros d1 v a w Hrep1 _ _ _ -> Ho. destruct a as [s|id].
    + pose proof (objectLen_ok v s Ho) as Hd. on_value v; [| | |done]; rewrite Hd; cbn [mbind option_bind]; by apply kanswer_ok.
    + on_value v; try done. by apply kanswer_ok.
Qed.

Lemma substring_ok s a b : Z.of_nat (length s) < 2 ^ 62 → in_s 64 a → in_s 64 b →
  let strlen := Z.of_nat (length s) in
  (if (a <? 0) && (b <? 0) && (b <? a) then Some []
   else
     let start := if a <? 0 then s64 (u64 (strlen + a)) else a in
     let end_ := if b <? 0 then s64 (u64 (strlen + b)) else b in
     let start := if start <? 0 then 0 else start in
     let end_ := if end_ <? 0 then 0 else end_ in
     let end_ := if strlen <=? end_ then s64 (u64 (strlen - 1)) else end_ in
     if (end_ <? start) || (strlen =? 0) then Some [] else mread s start (end_ - start + 1)) = Some (substring s a b).
Proof.
  intros Hs Ha Hb. cbn zeta. unfold substring. destruct ((a <? 0) && (b <? 0) && (b <? a)); [done|].
  assert (∀ i, in_s 64 i → i < 0 → s64 (u64 (Z.of_nat (length s) + i)) = Z.of_nat (length s) + i) as Hidx.
  { intros i Hi Hneg. rewrite swrap_uwrap by lia. apply swrap_small; unfold in_s in *; simpl in *; lia. }
  set (n := Z.of_nat (length s)) in *.
  set (ia := if a <? 0 then Z.max 0 (n + a) else a). set (ib := if b <? 0 then Z.max 0 (n + b) else b).
  assert ((if (if a <? 0 then s64 (u64 (n + a)) else a) <? 0 then 0 else (if a <? 0 then s64 (u64 (n + a)) else a)) = ia ∧ 0 ≤ ia) as [-> Hia].
  { unfold ia. destruct (Z.ltb_spec a 0); [rewrite Hidx by done; destruct (Z.ltb_spec (n + a) 0); lia|]. destruct (Z.ltb_spec a 0); lia. }
  assert ((if (if b <? 0 then s64 (u64 (n + b)) else b) <? 0 then 0 else (if b <? 0 then s64 (u64 (n + b)) else b)) = ib ∧ 0 ≤ ib) as [-> Hib].
  { unfold ib. destruct (Z.ltb_spec b 0); [rewrite Hidx by done; destruct (Z.ltb_spec (n + b) 0); lia|]. destruct (Z.ltb_spec b 0); lia. }
  assert ((if n <=? ib then s64 (u64 (n - 1)) else ib) = Z.min (n - 1) ib) as ->.
  { destruct (Z.leb_spec n ib); [|lia]. rewrite swrap_uwrap, swrap_small by (unfold in_s; simpl; lia). lia. }
  destruct (Z.ltb_spec (Z.min (n - 1) ib) ia) as [Hlt|Hge]; cbn [orb].
  { replace (Z.to_nat (Z.min (n - 1) ib + 1 - ia)) with 0%nat by lia. done. }
  destruct (Z.eqb_spec n 0) as [E0|E0]; [lia|]. unfold mread. rewrite decide_True by lia. do 3 f_equal. lia.
Qed.

Lemma getrange_ok d D k a b : rep d D → length_at D k < 2 ^ 62 →
  refines_key d (getrange_spec D k a b) (getrangeCommand E d k a b).
Proof.
  intros Hrep Hlen. unfold getrangeCommand, getrange_spec. apply kwith_int_ok; [done|]. intros na _ Ha. apply kwith_int_ok; [done|]. intros nb _ Hb.
  unfold on_string, length_at in *. apply (read_at d D k (λ d1 x, match x with None => _ | Some _ => _ end)); [done| |].
  - intros d1 Hrep1 _ ->. by apply kanswer_ok.
  - intros d1 v av w Hrep1 _ _ _ HD Ho. rewrite HD in *. destruct av as [s|id]; [|on_value v; try done; by apply kanswer_ok].
    pose proof (substring_ok s na nb Hlen Ha Hb) as Hsub. cbn zeta in Hsub. pose proof (decoded_ok v s Ho) as Hd.
    on_value v; [| | |done]; rewrite Hd; cbn [mbind option_bind];
      (destruct ((na <? 0) && (nb <? 0) && (nb <? na)); [injection Hsub as <-; by apply kanswer_ok|]);
      (destruct (_ || _); [injection Hsub as <-; by apply kanswer_ok|]); rewrite Hsub; cbn [mbind option_bind]; by apply kanswer_ok.
Qed.

Lemma mget_loop_ok D ks : ∀ d, rep d D →
  ∃ d', mget_loop E d ks = Some d' ∧ rep d' D ∧ dirty (srv d') = dirty (srv d) ∧ replies (srv d') = replies (srv d) ++ (mget_reply D <$> ks) ∧
    ∃ evs, events (srv d') = events (srv d) ++ evs ∧ filter (λ e, expiry_event e = false) evs = [].
Proof.
  induction ks as [|k ks IH]; intros d Hrep; cbn [mget_loop].
  { exists d. rewrite app_nil_r. split_and!; try done. exists []. by rewrite app_nil_r. }
  destruct (lookupRead_ok obj_rep E Hmaster Hload d D k Hrep) as (d1 & -> & Hrep1 & Hs & (Hd & Hr & evs & He & Hf)). cbn [mbind option_bind].
  assert (∃ r, match keys (srv d1) !! k with None | Some (OOther _) => Some RNullBulk | Some o => s ← getDecodedObject o; Some (RBulk s) end = Some r ∧ r = mget_reply D k) as (r & -> & ->).
  { unfold mget_reply. destruct (rep_cases obj_rep _ d1 D k Hrep1 Hs) as [(-> & _ & ->)|(v & a & -> & -> & Ho)]; [by eexists|]. destruct a as [s|id].
    - pose proof (decoded_ok v s Ho) as Hdec. on_value v; [| | |done]; rewrite Hdec; by eexists.
    - on_value v; try done. by eexists. }
  cbn [mbind option_bind]. destruct (IH (reply_db d1 (mget_reply D k))) as (d2 & E2 & Hrep2 & Hd2 & Hr2 & evs2 & He2 & Hf2); [by eapply rep_same|].
  exists d2. split; [done|]. split; [done|]. simpl in *. split; [congruence|]. split; [by rewrite Hr2, Hr, <- app_assoc|].
  exists (evs ++ evs2). rewrite He2, He, app_assoc, filter_app, Hf, Hf2. done.
Qed.

Lemma mget_ok d D ks : rep d D → refines_key d (key_spec (mstime E) (MGET ks) D) (mgetCommand E d ks).
Proof.
  intros Hrep. unfold mgetCommand. cbn [key_spec]. destruct (mget_loop_ok D ks (reply_db d (RMultiLen (Z.of_nat (length ks))))) as (d' & -> & Hrep' & Hd & Hr & evs & He & Hf);
    [by eapply rep_same|]. exists d'. split; [done|]. split; [done|]. simpl in *. split; [lia|]. split; [by exists evs|]. by rewrite Hr, <- app_assoc.
Qed.

(** ** Changing a string *)

Lemma unshare_ok d k v s : obj_rep v (AStr s) → keys (srv d) !! k = Some v →
  ∃ d', dbUnshareStringValue d k v = Some (d', s) ∧ keys (srv d') = keys (srv (upd d k (Some (ORaw s, expires d !! k)))) ∧
    expires d' = expires (upd d k (Some (ORaw s, expires d !! k))) ∧
    dirty (srv d') = dirty (srv d) ∧ events (srv d') = events (srv d) ∧ replies (srv d') = replies (srv d).
Proof.
  intros Ho Hk. unfold dbUnshareStringValue. pose proof (decoded_ok v s Ho) as Hd. assert (∀ u, dbOverwrite d k u = Some (upd d k (Some (u, expires d !! k)))) as Hov
    by (intros; by eapply dbOverwrite_upd).
  on_value v; simpl in Ho; try done; [|rewrite Hd; cbn [mbind option_bind]; rewrite Hov; by eexists..].
  subst s0. exists d. split; [done|]. simpl. split; [symmetry; exact (insert_id _ _ _ Hk)|]. split; [|done]. symmetry. apply partial_alter_self.
Qed.

(** The end of a command that changes a string in place. *)
Definition changed (d : strdb) (k : bytes) (name : string) (r : reply) : strdb :=
  reply_db (dirty_db (log_db (log_db d (SignalModified k)) (NotifyString name k)) 1) r.

Lemma change_ok d1 D k v s w d' name r : rep d1 D → obj_rep v (AStr s) → fresh_ok (mstime E) w →
  keys (srv d') = keys (srv (upd d1 k (Some (v, w)))) → expires d' = expires (upd d1 k (Some (v, w))) →
  dirty (srv d') = dirty (srv d1) → events (srv d') = events (srv d1) → replies (srv d') = replies (srv d1) →
  refines_key d1 (change_spec D k s w name r) (Some (changed d' k name r)).
Proof.
  intros Hrep Ho Hw Ek Ee Hd He Hr. eapply (put_done d1 D _ k v); try done; simpl; [by rewrite Hd|by rewrite He, <- app_assoc|by repeat constructor|by rewrite Hr].
Qed.

(** The same when the string was made raw before. *)
Lemma rewrite_ok d1 D k s s' w d' name r : rep d1 D → fresh_ok (mstime E) w →
  keys (srv d') = keys (srv (upd d1 k (Some (ORaw s, w)))) → expires d' = expires (upd d1 k (Some (ORaw s, w))) →
  dirty (srv d') = dirty (srv d1) → events (srv d') = events (srv d1) → replies (srv d') = replies (srv d1) →
  ∃ d2, dbOverwrite d' k (ORaw s') = Some d2 ∧ refines_key d1 (change_spec D k s' w name r) (Some (changed d2 k name r)).
Proof.
  intros Hrep Hw Ek Ee Hd He Hr. assert (keys (srv d') !! k = Some (ORaw s)) as Hk by (rewrite Ek; by rewrite upd_lookup).
  eexists. split; [exact (dbOverwrite_upd d' k _ _ Hk)|]. assert (expires d' !! k = w) as -> by (rewrite Ee; by rewrite upd_expires).
  destruct (upd_again d1 d' k _ (Some (ORaw s', w)) Ek Ee) as [Ek' Ee']. by apply (change_ok d1 D k (ORaw s')).
Qed.

Lemma grown_ok s n : 0 ≤ n < 2 ^ 63 → grow_string s n = Some (padded s (Z.to_nat n)).
Proof. intros Hn. unfold grow_string. by rewrite (proj2 (Z.leb_gt _ _)) by lia. Qed.

Lemma overwrite_ok s n v : 0 ≤ n → mwrite (padded s (Z.to_nat (n + Z.of_nat (length v)))) n v = Some (overwrite s (Z.to_nat n) v).
Proof.
  intros Hn. unfold mwrite, overwrite. replace (Z.to_nat (n + Z.of_nat (length v))) with (Z.to_nat n + length v)%nat by lia.
  rewrite decide_True; [done|]. unfold padded. rewrite length_app, length_replicate. lia.
Qed.

Lemma padded_twice s n : padded (padded s n) n = padded s n.
Proof. unfold padded at 1. replace (n - length (padded s n))%nat with 0%nat; [by rewrite app_nil_r|]. unfold padded. rewrite length_app, length_replicate. lia. Qed.

Lemma setrange_ok d D k off v : rep d D → key_fits (mstime E) (SETRANGE k off v) D = true →
  refines_key d (setrange_spec D k off v) (setrangeCommand E d k off v).
Proof.
  intros Hrep Hfit. unfold setrangeCommand, setrange_spec. apply kwith_int_ok; [done|]. intros n En Hn. cbn [key_fits] in Hfit. unfold int_fits in Hfit.
  rewrite En in Hfit. apply Z.ltb_lt in Hfit. destruct (Z.ltb_spec n 0) as [?|Hn0]; [by apply kanswer_ok|].
  set (len := Z.of_nat (length v)) in *. rewrite (uwrap_small 64) by (unfold in_u; lia). rewrite (swrap_small 64) by (unfold in_s; simpl; lia).
  unfold on_string. apply (write_at d D k (λ d x, r ← _; _)); [done| |].
  - intros d1 Hrep1 Hk He HD. rewrite HD. case_bool_decide; [by apply kanswer_ok|]. unfold checkStringLength. fold MAX_STRING too_long.
    destruct (MAX_STRING <? n + len); [by apply kanswer_ok|]. rewrite (grown_ok []) by lia. cbn [mbind option_bind]. rewrite dbAdd_upd by done. cbn [mbind option_bind].
    rewrite grown_ok by lia. cbn [mbind option_bind]. rewrite padded_twice. unfold len. rewrite overwrite_ok by done. cbn [mbind option_bind].
    destruct (rewrite_ok d1 D k (padded [] (Z.to_nat (n + Z.of_nat (length v)))) (overwrite [] (Z.to_nat n) v) None (upd d1 k (Some (ORaw (padded [] (Z.to_nat (n + Z.of_nat (length v)))), None))) "setrange"
      (RLong (Z.of_nat (length (overwrite [] (Z.to_nat n) v)))) Hrep1) as (d2 & -> & Hok); done.
  - intros d1 o a w Hrep1 Hw Ew Hk HD Ho. rewrite HD. destruct a as [s|id]; [|on_value o; try done; by apply kanswer_ok].
    pose proof (objectLen_ok o s Ho) as Hl. destruct (unshare_ok d1 k o s Ho Hk) as (d2 & Hun & Ek & Ee & Hd & Hev & Hr). rewrite Ew in Ek, Ee.
    assert (∀ x, match o with OOther _ => x | _ => olen ← stringObjectLen o;
       if bool_decide (v = []) then Some (inr (reply_db d1 (RLong olen))) else
       match checkStringLength d1 (n + len) with
       | Some d => Some (inr d)
       | None => '(d, s) ← dbUnshareStringValue d1 k o; Some (inl (d, s))
       end end = if bool_decide (v = []) then Some (inr (reply_db d1 (RLong (Z.of_nat (length s))))) else
         if MAX_STRING <? n + len then Some (inr (reply_db d1 too_long)) else Some (inl (d2, s))) as Hr1.
    { intros x. unfold checkStringLength. fold MAX_STRING too_long. rewrite Hl, Hun. cbn [mbind option_bind]. on_value o; [| | |done]; (case_bool_decide; [done|]); by destruct (MAX_STRING <? n + len). }
    rewrite Hr1. case_bool_decide; [by apply kanswer_ok|]. destruct (MAX_STRING <? n + len); [by apply kanswer_ok|]. cbn [mbind option_bind].
    rewrite grown_ok by lia. cbn [mbind option_bind]. unfold len. rewrite overwrite_ok by done. cbn [mbind option_bind].
    destruct (rewrite_ok d1 D k s (overwrite s (Z.to_nat n) v) w d2 "setrange" (RLong (Z.of_nat (length (overwrite s (Z.to_nat n) v)))) Hrep1 Hw Ek Ee Hd Hev Hr) as (d3 & -> & Hok); done.
Qed.

Lemma append_ok d D k v : rep d D → key_fits (mstime E) (APPEND k v) D = true →
  refines_key d (append_spec D k v) (appendCommand no_shared E d k v).
Proof.
  intros Hrep Hfit%Z.ltb_lt. unfold appendCommand, append_spec, on_string, length_at in *. apply (write_at d D k (λ d x, r ← _; _)); [done| |].
  - intros d1 Hrep1 Hk He HD. rewrite HD. destruct (encoded_ok no_shared v) as (o & -> & Ho). cbn [mbind option_bind]. rewrite dbAdd_upd by done. cbn [mbind option_bind].
    rewrite (objectLen_ok o v Ho). cbn [mbind option_bind]. by apply (change_ok d1 D k o v None).
  - intros d1 o a w Hrep1 Hw Ew Hk HD Ho. rewrite HD in *. destruct a as [s|id]; [|on_value o; try done; by apply kanswer_ok].
    pose proof (objectLen_ok o s Ho) as Hl. destruct (unshare_ok d1 k o s Ho Hk) as (d2 & Hun & Ek & Ee & Hd & Hev & Hr). rewrite Ew in Ek, Ee.
    destruct (rewrite_ok d1 D k s (s ++ v) w d2 "append" (RLong (Z.of_nat (length (s ++ v)))) Hrep1 Hw Ek Ee Hd Hev Hr) as (d3 & Hov & Hok).
    assert (∀ x, match o with OOther _ => x | _ => olen ← stringObjectLen o;
       match checkStringLength d1 (s64 (u64 (olen + Z.of_nat (length v)))) with
       | Some d => Some (inr d)
       | None => '(d, s) ← dbUnshareStringValue d1 k o; let s := s ++ v in d ← dbOverwrite d k (ORaw s); Some (inl (d, Z.of_nat (length s)))
       end end = if MAX_STRING <? Z.of_nat (length (s ++ v)) then Some (inr (reply_db d1 too_long)) else Some (inl (d3, Z.of_nat (length (s ++ v))))) as Hr1.
    { intros x. unfold checkStringLength. fold MAX_STRING too_long. rewrite Hl, Hun. cbn [mbind option_bind]. rewrite Hov. cbn [mbind option_bind].
      rewrite swrap_uwrap, swrap_small by (unfold in_s; simpl; lia). rewrite length_app, Nat2Z.inj_add. on_value o; [| | |done]; by destruct (MAX_STRING <? _). }
    rewrite Hr1. destruct (MAX_STRING <? Z.of_nat (length (s ++ v))); [by apply kanswer_ok|exact Hok].
Qed.

(** ** Counters *)

(** The test for an overflow is exact. *)
Lemma overflow_test v incr : in_s 64 v → in_s 64 incr →
  ((incr <? 0) && (v <? 0) && (incr <? LLONG_MIN - v)) || ((0 <? incr) && (0 <? v) && (LLONG_MAX - v <? incr)) = negb (bool_decide (in_s 64 (v + incr))).
Proof.
  unfold in_s, LLONG_MIN, LLONG_MAX. change (64 - 1) with 63. intros Hv Hi.
  destruct (decide (- 2 ^ 63 ≤ v + incr < 2 ^ 63)) as [Hin|Hout]; [rewrite bool_decide_true by done|rewrite bool_decide_false by done]; simpl (negb _).
  - apply orb_false_iff. split; rewrite !andb_false_iff, ?Z.ltb_ge; lia.
  - apply orb_true_iff. rewrite !andb_true_iff, !Z.ltb_lt. lia.
Qed.

Lemma incr_ok d D k incr : rep d D → in_s 64 incr → refines_key d (incr_spec D k incr) (incrDecrCommand no_shared E d k incr).
Proof.
  intros Hrep Hi. unfold incrDecrCommand, incr_spec, on_string.
  apply (write_at d D k (λ d x, match x with Some (OOther _) => _ | _ => _ end)); [done| |].
  - intros d1 Hrep1 Hk He HD. rewrite HD. cbn [getLongLongFromObject mbind option_bind]. rewrite overflow_test by (done || (unfold in_s; simpl; lia)).
    case_bool_decide as Hin; cbn [negb]; [|by apply kanswer_ok]. rewrite (ll_ok _ Hin). cbn [mbind option_bind]. rewrite dbAdd_upd by done. cbn [mbind option_bind].
    by apply (change_ok d1 D k (createStringObjectFromLongLongForValue no_shared (0 + incr))).
  - intros d1 o a w Hrep1 Hw Ew Hk HD Ho. rewrite HD. destruct a as [s|id]; [|on_value o; try done; by apply kanswer_ok].
    pose proof (longlong_ok o s Ho) as Hl.
    assert (refines_key d1 (with_int D s (λ v, if bool_decide (in_s 64 (v + incr)) then change_spec D k (decimal_z (v + incr)) w "incrby" (RLong (v + incr))
        else answer D (RError "increment or decrement would overflow")))
      (match string2ll s with
       | None => Some (reply_db d1 (RError "value is not an integer or out of range"))
       | Some oldvalue =>
          if ((incr <? 0) && (oldvalue <? 0) && (incr <? LLONG_MIN - oldvalue)) || ((0 <? incr) && (0 <? oldvalue) && (LLONG_MAX - oldvalue <? incr))
          then Some (reply_db d1 (RError "increment or decrement would overflow")) else
          value ← ll (oldvalue + incr);
          d ← match Some o with
              | Some (OInt _ false as o) =>
                  if (value <? 0) || (OBJ_SHARED_INTEGERS <=? value) then dbOverwrite d1 k (OInt value false)
                  else dbOverwrite d1 k (createStringObjectFromLongLongForValue no_shared value)
              | Some _ => dbOverwrite d1 k (createStringObjectFromLongLongForValue no_shared value)
              | None => dbAdd d1 k (createStringObjectFromLongLongForValue no_shared value)
              end;
          let d := dirty_db (log_db (log_db d (SignalModified k)) (NotifyString "incrby" k)) 1 in
          Some (reply_db d (RLong value))
       end)) as Hgo.
    { unfold with_int. destruct (string2ll s) as [n|] eqn:En; [|by apply kanswer_ok]. apply string2ll_spec in En as [Hn _]. rewrite overflow_test by done.
      case_bool_decide as Hin; cbn [negb]; [|by apply kanswer_ok]. rewrite (ll_ok _ Hin). cbn [mbind option_bind].
      assert (∀ sh, ∃ d2, dbOverwrite d1 k (OInt (n + incr) sh) = Some d2 ∧
        refines_key d1 (change_spec D k (decimal_z (n + incr)) w "incrby" (RLong (n + incr))) (Some (changed d2 k "incrby" (RLong (n + incr))))) as Hov.
      { intros sh. eexists. split; [exact (dbOverwrite_upd d1 k (OInt (n + incr) sh) _ Hk)|]. rewrite Ew. by apply (change_ok d1 D k (OInt (n + incr) sh)). }
      unfold createStringObjectFromLongLongForValue. destruct (Hov false) as (d2 & E2 & Hok2).
      destruct (Hov (negb no_shared && (0 <=? n + incr) && (n + incr <? OBJ_SHARED_INTEGERS))) as (d3 & E3 & Hok3).
      destruct o as [s0|s0|n0 [|]|id]; try (rewrite E3; exact Hok3). destruct (_ || _); [rewrite E2; exact Hok2|rewrite E3; exact Hok3]. }
    on_value o; [| | |done]; rewrite Hl; exact Hgo.
Qed.

(** ** MSET *)

Lemma any_exists_ok D kvs : ∀ d, rep d D →
  ∃ d1, any_exists E d kvs = Some (d1, existsb (λ p, bool_decide (is_Some (D !! p.1))) kvs) ∧ quiet d d1 ∧ rep d1 D.
Proof.
  induction kvs as [|[k v] kvs IH]; intros d Hrep; cbn [any_exists existsb]; [by exists d; split; [done|split; [apply quiet_refl|done]]|].
  destruct (lookupWrite_ok obj_rep E Hmaster Hload d D k Hrep) as (d1 & -> & Hrep1 & Hs & Hq). cbn [mbind option_bind fst].
  destruct (rep_cases obj_rep _ d1 D k Hrep1 Hs) as [(-> & _ & ->)|(o & a & -> & -> & _)]; [|by exists d1].
  destruct (IH d1 Hrep1) as (d2 & -> & Hq2 & Hrep2). exists d2. split; [done|]. split; [by eapply quiet_trans|done].
Qed.

(** What a loop of SETs did. *)
Lemma mset_loop_ok kvs : ∀ d D, rep d D →
  ∃ d', mset_loop no_shared E d kvs = Some d' ∧ rep d' (set_pairs D kvs) ∧ dirty (srv d') = dirty (srv d) ∧ replies (srv d') = replies (srv d) ∧
    ∃ evs, events (srv d') = events (srv d) ++ evs ∧
      filter (λ e, expiry_event e = false) evs = concat ((λ p, [SignalModified p.1; NotifyString "set" p.1]) <$> kvs).
Proof.
  induction kvs as [|[k v] kvs IH]; intros d D Hrep; cbn [mset_loop].
  { exists d. split_and!; try done. exists []. by rewrite app_nil_r. }
  destruct (encoded_ok no_shared v) as (o & -> & Ho). cbn [mbind option_bind].
  destruct (setKey_ok d D k o Hrep) as (d1 & (Hd & Hr & evs & He & Hf) & Hrep1 & ->). cbn [mbind option_bind].
  destruct (IH (log_db (log_db (upd d1 k (Some (o, None))) (SignalModified k)) (NotifyString "set" k)) (<[k := (AStr v, None)]> D)) as (d2 & E2 & Hrep2 & Hd2 & Hr2 & evs2 & He2 & Hf2).
  { by eapply rep_same; [by apply rep_put|..]. }
  exists d2. split; [done|]. split; [done|]. simpl in *. split; [congruence|]. split; [congruence|].
  exists (evs ++ [SignalModified k; NotifyString "set" k] ++ evs2). rewrite He2, He, <- !app_assoc, !filter_app, Hf, Hf2. done.
Qed.

Lemma keys_values_cons k v argv : keys_values (k :: v :: argv) = (k, v) :: keys_values argv.
Proof.
  unfold keys_values. cbn [length Nat.div2 seq fmap list_fmap]. f_equal. rewrite <- fmap_S_seq, <- list_fmap_compose.
  apply list_fmap_ext. intros _ i _. unfold compose. replace (2 * S i)%nat with (S (S (2 * i))) by lia. done.
Qed.

Lemma pairs_keys argv : pairs argv = if Nat.odd (length argv) then None else Some (keys_values argv).
Proof.
  remember (length argv) as n eqn:Hn. revert argv Hn. induction (lt_wf n) as [n _ IH]. intros argv ->.
  destruct argv as [|k [|v argv]]; [done..|]. cbn [pairs]. rewrite (IH (length argv)), keys_values_cons by (simpl; (done || lia)).
  change (Nat.odd (length (k :: v :: argv))) with (Nat.odd (length argv)). by destruct (Nat.odd _).
Qed.

Lemma mset_ok d D argv nx : rep d D → refines_key d (mset_spec D argv nx) (msetGenericCommand no_shared E d argv nx).
Proof.
  intros Hrep. unfold mset_spec, msetGenericCommand. rewrite pairs_keys. destruct (Nat.odd (length argv)); [by apply kanswer_ok|].
  cbv zeta. set (kvs := keys_values argv).
  assert (∀ d1, rep d1 D → refines_key d1 (Outcome (set_pairs D kvs) (Z.of_nat (length kvs)) (concat ((λ p, [SignalModified p.1; NotifyString "set" p.1]) <$> kvs)) [if nx then RLong 1 else ROk])
    (d ← mset_loop no_shared E d1 kvs; Some (reply_db (dirty_db d (Z.of_nat (length kvs))) (if nx then RLong 1 else ROk)))) as Hgo.
  { intros d1 Hrep1. destruct (mset_loop_ok kvs d1 D Hrep1) as (d2 & -> & Hrep2 & Hd & Hr & evs & He & Hf). cbn [mbind option_bind].
    eexists. split; [done|]. split; [by eapply rep_same|]. simpl. split; [congruence|]. split; [by exists evs|congruence]. }
  destruct nx; cbn [andb].
  - destruct (any_exists_ok D kvs d Hrep) as (d1 & -> & Hq & Hrep1). cbn [mbind option_bind]. apply (refines_quiet d d1); [done|].
    destruct (existsb _ kvs); [by apply kanswer_ok|by apply Hgo].
  - cbn [mbind option_bind]. by apply Hgo.
Qed.

(** ** Commands on keys *)

Lemma del_loop_ok ks : ∀ d D n, rep d D → let (D', deleted) := del_keys D ks in
  ∃ d', del_loop E d ks n = Some (d', n + Z.of_nat (length deleted)) ∧ rep d' D' ∧
    dirty (srv d') = dirty (srv d) + Z.of_nat (length deleted) ∧ replies (srv d') = replies (srv d) ∧
    ∃ evs, events (srv d') = events (srv d) ++ evs ∧
      filter (λ e, expiry_event e = false) evs = concat ((λ k, [SignalModified k; NotifyGeneric "del" k]) <$> deleted).
Proof.
  induction ks as [|k ks IH]; intros d D n Hrep; cbn [del_loop del_keys].
  { exists d. simpl. rewrite !Z.add_0_r. split_and!; try done. exists []. by rewrite app_nil_r. }
  destruct (expireIfNeeded_ok obj_rep E Hmaster Hload d D k Hrep) as (d1 & -> & Hrep1 & Hs & (Hd & Hr & evs & He & Hf) & _). cbn [mbind option_bind].
  rewrite dbSyncDelete_upd. destruct (rep_cases obj_rep _ d1 D k Hrep1 Hs) as [(Ek & Ee & HD)|(o & a & Ek & HD & _)]; rewrite Ek, HD.
  - rewrite bool_decide_false by (by apply is_Some_None). pose proof (IH (upd d1 k None) D n) as IH'. destruct (del_keys D ks) as [D' deleted].
    destruct IH' as (d2 & E2 & Hrep2 & Hd2 & Hr2 & evs2 & He2 & Hf2). { rewrite <- (delete_id D k HD). by apply rep_del. }
    exists d2. split; [done|]. split; [done|]. simpl in *. split; [congruence|]. split; [congruence|].
    exists (evs ++ evs2). rewrite He2, He, app_assoc, filter_app, Hf. done.
  - rewrite bool_decide_true by eauto.
    pose proof (IH (dirty_db (log_db (log_db (upd d1 k None) (SignalModified k)) (NotifyGeneric "del" k)) 1) (delete k D) (n + 1)) as IH'.
    destruct (del_keys (delete k D) ks) as [D' deleted]. destruct IH' as (d2 & E2 & Hrep2 & Hd2 & Hr2 & evs2 & He2 & Hf2).
    { by eapply rep_same; [by apply rep_del|..]. }
    exists d2. rewrite E2. simpl in *. split; [do 2 f_equal; lia|]. split; [done|]. split; [lia|]. split; [congruence|].
    exists (evs ++ [SignalModified k; NotifyGeneric "del" k] ++ evs2). rewrite He2, He, <- !app_assoc, !filter_app, Hf, Hf2. done.
Qed.

Lemma del_ok d D ks : rep d D → refines_key d (del_spec D ks) (delGenericCommand E d ks).
Proof.
  intros Hrep. unfold del_spec, delGenericCommand. pose proof (del_loop_ok ks d D 0 Hrep) as Hl. destruct (del_keys D ks) as [D' deleted].
  destruct Hl as (d' & -> & Hrep' & Hd & Hr & evs & He & Hf). cbn [mbind option_bind]. eexists. split; [done|]. split; [by eapply rep_same|]. simpl.
  split; [done|]. split; [by exists evs|]. by rewrite Hr, Z.add_0_l.
Qed.

Lemma count_loop_ok D ks : ∀ d n, rep d D →
  ∃ d1, count_loop E d ks n = Some (d1, n + Z.of_nat (length (filter (λ k, is_Some (D !! k)) ks))) ∧ quiet d d1 ∧ rep d1 D.
Proof.
  induction ks as [|k ks IH]; intros d n Hrep; cbn [count_loop].
  { exists d. simpl. rewrite Z.add_0_r. split; [done|]. split; [apply quiet_refl|done]. }
  destruct (lookupRead_ok obj_rep E Hmaster Hload d D k Hrep) as (d1 & -> & Hrep1 & Hs & Hq). cbn [mbind option_bind].
  destruct (rep_cases obj_rep _ d1 D k Hrep1 Hs) as [(-> & _ & HD)|(o & a & -> & HD & _)].
  - rewrite filter_cons_False by (rewrite HD; by apply is_Some_None). destruct (IH d1 n Hrep1) as (d2 & E2 & Hq2 & Hrep2). exists d2. split; [done|]. split; [by eapply quiet_trans|done].
  - rewrite filter_cons_True by (rewrite HD; eauto). destruct (IH d1 (n + 1) Hrep1) as (d2 & E2 & Hq2 & Hrep2). exists d2.
    rewrite bool_decide_true by eauto. rewrite E2. cbn [length]. split; [do 2 f_equal; lia|]. split; [by eapply quiet_trans|done].
Qed.

Lemma exists_ok d D ks : rep d D → refines_key d (exists_spec D ks) ('(d, n) ← count_loop E d ks 0; Some (reply_db d (RLong n))).
Proof.
  intros Hrep. unfold exists_spec. destruct (count_loop_ok D ks d 0 Hrep) as (d1 & -> & Hq & Hrep1). cbn [mbind option_bind]. rewrite Z.add_0_l.
  apply (refines_quiet d d1); [done|]. by apply kanswer_ok.
Qed.

Lemma getExpire_ok d D k v w : rep d D → expires d !! k = w → keys (srv d) !! k = Some v →
  getExpire d k = Some (match w with Some w => w | None => -1 end).
Proof. intros Hrep Ew Hk. unfold getExpire. rewrite Ew. destruct w; [|done]. by rewrite bool_decide_true by eauto. Qed.

Lemma quiet_upd d k x : quiet d (upd d k x).
Proof. split_and!; try done. exists []. by rewrite app_nil_r. Qed.

(** A value and its expiration time are put at a key without a value. *)
Lemma place_ok d D k v w : rep d D → fresh_ok (mstime E) w → keys (srv d) !! k = None → expires d !! k = None →
  (d ← dbAdd d k v; let e := match w with Some w => w | None => -1 end in if negb (e =? -1) then setExpire d k e else Some d) = Some (upd d k (Some (v, w))).
Proof.
  intros Hrep Hw Hk He. rewrite dbAdd_upd by done. cbn [mbind option_bind]. destruct w as [w|]; [|done]. destruct Hw as [Hw _]. unfold in_u in Hw.
  rewrite (proj2 (Z.eqb_neq w (-1))) by lia. cbn [negb]. rewrite (setExpire_upd _ k v) by (by rewrite upd_lookup). by rewrite upd_upd.
Qed.

Lemma rename_ok d D src dst nx : rep d D → refines_key d (rename_spec D src dst nx) (renameGenericCommand E d src dst nx).
Proof.
  intros Hrep. unfold renameGenericCommand, rename_spec. apply (write_at d D src (λ d x, match x with None => _ | Some _ => _ end)); [done| |].
  { intros d1 Hrep1 _ _ ->. by apply kanswer_ok. }
  intros d1 v a w Hrep1 Hw Ew Hk HD Ho. rewrite HD. destruct (decide (src = dst)) as [Heq|Hne]; [rewrite (bool_decide_true (src = dst)) by done; by apply kanswer_ok|].
  rewrite (bool_decide_false (src = dst)) by done. rewrite (getExpire_ok d1 D src v w Hrep1 Ew Hk). cbn [mbind option_bind].
  assert (∀ d2, rep d2 D → refines_key d2 (Outcome (delete src (<[dst := (a, w)]> D)) 1
      [SignalModified src; SignalModified dst; NotifyGeneric "rename_from" src; NotifyGeneric "rename_to" dst] [if nx then RLong 1 else ROk])
    (let d := (dbSyncDelete (upd d2 dst (Some (v, w))) src).1 in
     let d := log_db (log_db d (SignalModified src)) (SignalModified dst) in
     let d := log_db (log_db d (NotifyGeneric "rename_from" src)) (NotifyGeneric "rename_to" dst) in
     Some (reply_db (dirty_db d 1) (if nx then RLong 1 else ROk)))) as Hgo.
  { intros d2 Hrep2. apply (refines_quiet d2 (upd d2 dst (Some (v, w)))); [apply quiet_upd|].
    apply (del_done (upd d2 dst (Some (v, w))) (<[dst := (a, w)]> D)); try done; [by apply rep_put|simpl; by rewrite <- !app_assoc|by repeat constructor]. }
  apply (write_at d1 D dst (λ d old, if bool_decide (is_Some old) && nx then _ else _)); [done| |].
  - intros d2 Hrep2 Hk2 He2 HD2. rewrite HD2, !bool_decide_false, andb_false_r by (by apply is_Some_None). cbn [andb].
    pose proof (place_ok d2 D dst v w Hrep2 Hw Hk2 He2) as Hp. apply bind_Some in Hp as (d3 & -> & Hp). cbn [mbind option_bind]. cbn zeta in Hp. rewrite Hp. by apply Hgo.
  - intros d2 v2 a2 w2 Hrep2 _ _ Hk2 HD2 _. rewrite HD2, !bool_decide_true by eauto. cbn [andb]. destruct nx; [by apply kanswer_ok|]. cbn [andb].
    rewrite dbSyncDelete_upd. cbn [fst]. pose proof (place_ok (upd d2 dst None) (delete dst D) dst v w) as Hp.
    rewrite upd_lookup, upd_expires, upd_upd in Hp. specialize (Hp (rep_del d2 D dst Hrep2) Hw eq_refl eq_refl).
    apply bind_Some in Hp as (d3 & -> & Hp). cbn [mbind option_bind]. cbn zeta in Hp. rewrite Hp. by apply Hgo.
Qed.

Lemma expire_ok d D k param base unit : rep d D → time_fits base unit param = true →
  refines_key d (expire_spec (mstime E) D k param base unit) (expireGenericCommand E d k param base unit).
Proof.
  intros Hrep Hfit. unfold expireGenericCommand, expire_spec. apply kwith_int_ok; [done|]. intros n En Hn. unfold time_fits, int_fits in Hfit. rewrite En in Hfit.
  apply andb_prop in Hfit as [H1%bool_decide_eq_true H2%bool_decide_eq_true]. rewrite milliseconds_ok by done. cbn [mbind option_bind].
  rewrite (ll_ok _ H2). cbn [mbind option_bind]. set (when := scale unit n + base) in *.
  apply (write_at d D k (λ d x, match x with None => _ | Some _ => _ end)); [done| |].
  - intros d1 Hrep1 _ _ ->. by apply kanswer_ok.
  - intros d1 v a w Hrep1 Hw Ew Hk HD Ho. rewrite HD, Hload, Hmaster. cbn [negb]. rewrite !andb_true_r. destruct (Z.leb_spec when (mstime E)) as [Hle|Hgt].
    + rewrite dbSyncDelete_upd, Hk, bool_decide_true by eauto. cbn [negb].
      apply (del_done d1 D); try done; [simpl; by rewrite <- !app_assoc|by repeat constructor].
    + rewrite (setExpire_upd d1 k v when Hk). cbn [mbind option_bind].
      eapply (put_done d1 D _ k v); try done; [|simpl; by rewrite <- !app_assoc|by repeat constructor]. split; [|lia]. unfold in_s, in_u in *. simpl in H2. lia.
Qed.

Lemma ttl_ok d D k (ms : bool) : rep d D → key_fits (mstime E) (if ms then PTTL k else TTL k) D = true →
  refines_key d (ttl_spec (mstime E) D k ms) (ttlGenericCommand E d k ms).
Proof.
  intros Hrep Hfit. unfold ttlGenericCommand, ttl_spec. apply (read_at d D k (λ d x, match x with None => _ | Some _ => _ end)); [done| |].
  - intros d1 Hrep1 _ ->. by apply kanswer_ok.
  - intros d1 v a w Hrep1 Hw Ew Hk HD Ho. rewrite HD, (getExpire_ok d1 D k v w Hrep1 Ew Hk). cbn [mbind option_bind]. destruct w as [w|]; [|by apply kanswer_ok].
    destruct Hw as [Hw Hle]. unfold in_u in Hw. rewrite (proj2 (Z.eqb_neq w (-1))) by lia. cbn [negb]. rewrite ll_ok by (unfold in_s; simpl; lia). cbn [mbind option_bind].
    rewrite (proj2 (Z.ltb_ge _ 0)) by lia. rewrite (proj2 (Z.eqb_neq _ (-1))) by lia. destruct ms; [by apply kanswer_ok|]. cbn [key_fits] in Hfit. rewrite HD in Hfit.
    apply Z.ltb_lt in Hfit. rewrite ll_ok by (unfold in_s; simpl; lia). cbn [mbind option_bind]. rewrite Z.quot_div_nonneg by lia. by apply kanswer_ok.
Qed.

Lemma persist_ok d D k : rep d D → refines_key d (persist_spec D k) (persistCommand E d k).
Proof.
  intros Hrep. unfold persistCommand, persist_spec. apply (write_at d D k (λ d x, match x with None => _ | Some _ => _ end)); [done| |].
  - intros d1 Hrep1 _ _ ->. by apply kanswer_ok.
  - intros d1 v a w Hrep1 Hw Ew Hk HD Ho. rewrite HD, (removeExpire_upd d1 k v Hk), Ew. cbn [mbind option_bind]. destruct w as [w|].
    + rewrite bool_decide_true by eauto. eapply (put_done d1 D _ k v); try done. simpl. by rewrite app_nil_r.
    + rewrite bool_decide_false by (by apply is_Some_None). apply (refines_quiet d1 (upd d1 k (Some (v, None)))); [apply quiet_upd|]. apply kanswer_ok.
      rewrite <- (insert_id D k (a, None) HD). by apply rep_put.
Qed.

(** ** All the commands *)

Definition key_exec (c : kcommand) d : option strdb :=
  match c with
  | SET k v opts => setCommand no_shared E d k v opts
  | SETNX k v => setnxCommand no_shared E d k v
  | SETEX k e v => setexCommand no_shared E d k e v
  | PSETEX k e v => psetexCommand no_shared E d k e v
  | GET k => getCommand E d k
  | GETSET k v => getsetCommand no_shared E d k v
  | SETRANGE k off v => setrangeCommand E d k off v
  | GETRANGE k a b => getrangeCommand E d k a b
  | MGET ks => mgetCommand E d ks
  | MSET argv => msetGenericCommand no_shared E d argv false
  | MSETNX argv => msetGenericCommand no_shared E d argv true
  | INCR k => incrCommand no_shared E d k
  | DECR k => decrCommand no_shared E d k
  | INCRBY k n => incrbyCommand no_shared E d k n
  | DECRBY k n => decrbyCommand no_shared E d k n
  | APPEND k v => appendCommand no_shared E d k v
  | STRLEN k => strlenCommand E d k
  | DEL ks => delGenericCommand E d ks
  | EXISTS ks => existsCommand E d ks
  | TOUCH ks => touchCommand E d ks
  | RENAME src dst => renameGenericCommand E d src dst false
  | RENAMENX src dst => renameGenericCommand E d src dst true
  | EXPIRE k p => expireCommand E d k p
  | EXPIREAT k p => expireatCommand E d k p
  | PEXPIRE k p => pexpireCommand E d k p
  | PEXPIREAT k p => pexpireatCommand E d k p
  | TTL k => ttlGenericCommand E d k false
  | PTTL k => ttlGenericCommand E d k true
  | PERSIST k => persistCommand E d k
  end.

Lemma incrby_ok d D k n (neg : bool) : rep d D → (neg = true → int_fits (λ n, negb (n =? - 2 ^ 63)) n = true) →
  refines_key d (with_int D n (λ n, incr_spec D k (if neg then - n else n)))
    (match getLongLongFromObjectOrReply d n with inr d => Some d | inl i => i ← (if neg then ll (- i) else Some i); incrDecrCommand no_shared E d k i end).
Proof.
  intros Hrep Hfit. apply kwith_int_ok; [done|]. intros i En Hi. unfold int_fits in Hfit. rewrite En in Hfit. destruct neg.
  - specialize (Hfit eq_refl). apply negb_true_iff, Z.eqb_neq in Hfit. assert (in_s 64 (- i)) as Hi' by (unfold in_s in *; simpl in *; lia).
    rewrite (ll_ok _ Hi'). cbn [mbind option_bind]. by apply incr_ok.
  - cbn [mbind option_bind]. by apply incr_ok.
Qed.

Lemma key_exec_ok c d D : rep d D → key_fits (mstime E) c D = true → refines_key d (key_spec (mstime E) c D) (key_exec c d).
Proof.
  intros Hrep Hfit. assert (in_s 64 1 ∧ in_s 64 (-1)) as [H1 Hm1] by (unfold in_s; simpl; lia). destruct c; cbn [key_exec key_spec].
  - by apply set_cmd_ok.
  - by apply setnx_ok.
  - by apply setex_ok.
  - by apply setex_ok.
  - by apply get_ok.
  - by apply getset_ok.
  - by apply setrange_ok.
  - apply getrange_ok; [done|]. by apply Z.ltb_lt.
  - by apply mget_ok.
  - by apply mset_ok.
  - by apply mset_ok.
  - by apply incr_ok.
  - by apply incr_ok.
  - by apply (incrby_ok d D k n false).
  - by apply (incrby_ok d D k n true).
  - by apply append_ok.
  - by apply strlen_ok.
  - by apply del_ok.
  - by apply exists_ok.
  - by apply exists_ok.
  - by apply rename_ok.
  - by apply rename_ok.
  - by apply expire_ok.
  - by apply expire_ok.
  - by apply expire_ok.
  - by apply expire_ok.
  - by apply ttl_ok.
  - by apply ttl_ok.
  - by apply persist_ok.
Qed.
End refinement.

(** ** Sequences of commands, each at its time *)

Fixpoint key_specs (tcs : list (Z * kcommand)) (D : kdb) : kout :=
  match tcs with
  | [] => Outcome D 0 [] []
  | (t, c) :: tcs =>
      let o := key_spec t c (live t D) in
      let os := key_specs tcs (o_keys o) in
      Outcome (o_keys os) (o_dirty o + o_dirty os) (o_events o ++ o_events os) (o_replies o ++ o_replies os)
  end.

Fixpoint keys_fit (tcs : list (Z * kcommand)) (D : kdb) : bool :=
  match tcs with [] => true | (t, c) :: tcs => key_fits t c (live t D) && keys_fit tcs (o_keys (key_spec t c (live t D))) end.

(** The clock does not go back. *)
Fixpoint clock_ok (t0 : Z) (tcs : list (Z * kcommand)) : bool :=
  match tcs with [] => true | (t, _) :: tcs => (t0 <=? t) && clock_ok t tcs end.

Definition last_time (t0 : Z) (tcs : list (Z * kcommand)) : Z := foldl (λ _ tc, tc.1) t0 tcs.

(** On a master that is not loading. *)
Definition master (ro : bool) (t : Z) : env := Env false false ro t.

Fixpoint key_execs (no_shared ro : bool) (tcs : list (Z * kcommand)) (d : strdb) : option strdb :=
  match tcs with [] => Some d | (t, c) :: tcs => d ← key_exec no_shared (master ro t) c d; key_execs no_shared ro tcs d end.

(** C33. Any sequence of the commands on strings (SET with its options to STRLEN)
    and on keys (DEL, EXISTS, RENAME, EXPIRE, TTL, PERSIST, ...), each at its time
    on a clock that does not go back, runs to its end on a master and does what
    the specification says of the map of keys that have not expired: replies and
    errors, the changes counted, the events apart from those of evictions, and
    the values and expiration times.  So an expired key is never seen, whether it
    was evicted or not, integers and short strings are encoded without being
    noticed, and the test for overflow of INCR and DECR is exact.  The options of
    SET and the pairs of MSET are read by the specification on its own.
    The server is a master and not loading, and [keys_fit] leaves out the commands
    on which the code computes outside of 64 bits: a SETRANGE whose offset and
    length add up to 2^63 or more, a time of SET, SETEX, PSETEX and the EXPIRE
    family that is not a 64-bit number of milliseconds, DECRBY of the least
    integer, a TTL within 500 of 2^63; and GETRANGE and APPEND on strings of 2^62
    bytes or more. *)
Theorem key_commands_refine no_shared ro tcs t0 d D : 0 ≤ t0 → clock_ok t0 tcs = true →
  db_rep obj_rep t0 d D → keys_fit tcs D = true →
  ∃ d' evs, key_execs no_shared ro tcs d = Some d' ∧ db_rep obj_rep (last_time t0 tcs) d' (o_keys (key_specs tcs D)) ∧
    dirty (srv d') = dirty (srv d) + o_dirty (key_specs tcs D) ∧
    events (srv d') = events (srv d) ++ evs ∧ filter (λ e, expiry_event e = false) evs = o_events (key_specs tcs D) ∧
    replies (srv d') = replies (srv d) ++ o_replies (key_specs tcs D).
Proof.
  revert t0 d D. induction tcs as [|[t c] tcs IH]; intros t0 d D Ht0 Hclock Hrep Hfit; cbn [key_execs key_specs].
  { exists d, []. simpl. rewrite !app_nil_r. split_and!; try done. lia. }
  cbn [clock_ok keys_fit] in *. apply andb_prop in Hclock as [Ht%Z.leb_le Hclock]. apply andb_prop in Hfit as [Hc Hcs].
  pose proof (rep_later obj_rep t0 t d D Ht Hrep) as Hrep1.
  destruct (key_exec_ok no_shared (master ro t) eq_refl eq_refl ltac:(simpl; lia) c d (live t D) Hrep1 Hc) as (d1 & -> & Hrep2 & Hd1 & (evs1 & He1 & Hf1) & Hr1).
  cbn [mbind option_bind]. destruct (IH t d1 _ ltac:(lia) Hclock Hrep2 Hcs) as (d2 & evs2 & E2 & Hrep3 & Hd2 & He2 & Hf2 & Hr2).
  exists d2, (evs1 ++ evs2). simpl in *. split; [done|]. split; [done|]. split; [lia|]. split; [by rewrite He2, He1, app_assoc|]. split; [by rewrite filter_app, Hf1, Hf2|].
  by rewrite Hr2, Hr1, app_assoc.
Qed.

Definition str (s : string) : bytes := Z.of_N ∘ Ascii.N_of_ascii <$> String.list_ascii_of_string s.

Definition sample_db : strdb := RedisDb (Server {[ str "list" := OOther 1 ]} 0 [] []) ∅.

Definition sample_run : list (Z * kcommand) :=
  [ (1000, SET (str "a") (str "41") [str "Ex"; str "2"]); (1500, INCR (str "a")); (1600, TTL (str "a")); (3000, GET (str "a"));
    (3001, GET (str "a")); (3001, SET (str "a") (str "x") [str "XX"]); (3002, INCRBY (str "n") (str "9223372036854775807"));
    (3003, INCR (str "n")); (3004, APPEND (str "n") (str "0")); (3004, INCR (str "n")); (3005, SETRANGE (str "b") (str "2") (str "cd"));
    (3006, GETRANGE (str "b") (str "-3") (str "-1")); (3007, MSETNX [str "p"; str "1"; str "b"; str "2"]); (3008, PEXPIRE (str "b") (str "100"));
    (3009, RENAME (str "b") (str "c")); (3050, PTTL (str "c")); (3060, PERSIST (str "c")); (4000, MGET [str "c"; str "list"; str "b"]);
    (4001, DECRBY (str "list") (str "1")); (4002, EXPIREAT (str "c") (str "4")); (4003, DEL [str "c"; str "n"]); (4004, EXISTS [str "list"; str "n"; str "list"]) ].

Example sample_run_replies :
  option_map (λ d, replies (srv d)) (key_execs false true sample_run sample_db) = Some
    [ ROk; RLong 42; RLong 1; RBulk (str "42"); RNullBulk; RNullBulk; RLong 9223372036854775807; RError "increment or decrement would overflow";
      RLong 20; RError "value is not an integer or out of range"; RLong 4; RBulk [0; 99; 100]; RLong 0; RLong 1; ROk; RLong 58; RLong 1;
      RMultiLen 3; RBulk [0; 0; 99; 100]; RNullBulk; RNullBulk; RWrongType; RLong 1; RLong 1; RLong 2 ].
Proof. by vm_compute. Qed.

Lemma key_commands_refine_witness :
  ∃ d' evs, key_execs false true sample_run sample_db = Some d' ∧
    db_rep obj_rep (last_time 1000 sample_run) d' (o_keys (key_specs sample_run {[ str "list" := (AOther 1, None) ]})) ∧
    dirty (srv d') = dirty (srv sample_db) + o_dirty (key_specs sample_run {[ str "list" := (AOther 1, None) ]}) ∧
    events (srv d') = events (srv sample_db) ++ evs ∧
    filter (λ e, expiry_event e = false) evs = o_events (key_specs sample_run {[ str "list" := (AOther 1, None) ]}) ∧
    replies (srv d') = replies (srv sample_db) ++ o_replies (key_specs sample_run {[ str "list" := (AOther 1, None) ]}).
Proof.
  apply (key_commands_refine false true sample_run 1000 sample_db {[ str "list" := (AOther 1, None) ]}).
  - lia.
  - by vm_compute.
  - split; [by intros k w|]. intros k. unfold visible, sample_db. simpl. destruct (decide (k = str "list")) as [->|Hne].
    + rewrite !lookup_singleton_eq, lookup_empty. by constructor.
    + rewrite !lookup_singleton_ne by done. constructor.
  - by vm_compute.
Defined.

(** ** Where the conditions are needed *)

(** The length check of SETRANGE wraps around: the offset 2^63 - 1 passes it. *)
Example setrange_wraps : setrangeCommand (master true 0) sample_db (str "k") (str "9223372036854775807") (str "ab") = None.
Proof. by vm_compute. Qed.

(** A number of seconds overflows when it becomes milliseconds. *)
Example setex_overflow : setexCommand false (master true 0) sample_db (str "k") (str "9223372036854776") (str "v") = None.
Proof. by vm_compute. Qed.

(** DECRBY negates the least number. *)
Example decrby_least : decrbyCommand false (master true 0) sample_db (str "k") (str "-9223372036854775808") = None.
Proof. by vm_compute. Qed.

(** A range that ends before the string has its first byte. *)
Example getrange_before : substring (str "abc") (-10) (-5) = str "a".
Proof. by vm_compute. Qed.
