(* ===== verification/Multi.v ===== *)
(** * multi.c: transactions

    MULTI, EXEC, DISCARD, WATCH and UNWATCH of many clients, and the part of
    processCommand (server.c) that refuses, queues or runs a command.  A client
    has its flags, its queue and the list of keys it watches; every database maps
    watched keys to the clients that watch them.

    What the other commands do is behind the interface [Commands]: a command
    changes the dataset and the database its client has selected, signals the
    keys it modifies, and sends replies.

    [None] stands for a failed assertion or a null pointer.  Monitors, the
    cluster and blocked clients are not modelled. *)

From stdpp Require Import strings.
From S2P Require Import Prelude Decimal Util Keyspace.

Abbreviation key := (list Z).

(** [signalModifiedKey(db, key)], and [signalFlushedDb(dbid)] with the keys that
    exist at that moment; -1 stands for all databases. *)
Inductive effect := Modified (dbid : Z) (k : key) | Flushed (dbid : Z) (present : Z → key → bool).

Class Commands (X C : Type) := {
  run : C → Z → X → X * Z * list effect * list reply;
  cmd_write : C → bool;
  cmd_readonly_or_admin : C → bool
}.

(** A queued command, and a request. *)
Inductive qcmd (C : Type) := QUnwatch | QCommand (c : C).
Arguments QUnwatch {C}.
Arguments QCommand {C} c.

Inductive request (C : Type) := RExec | RDiscard | RMulti | RWatch (ks : list key) | RQueueable (q : qcmd C).
Arguments RExec {C}.
Arguments RDiscard {C}.
Arguments RMulti {C}.
Arguments RWatch {C} ks.
Arguments RQueueable {C} q.

(** The conditions of processCommand, for the request at hand. *)
Record gate := Gate {
  g_unknown : bool; g_arity : bool; g_noauth : bool; g_oom : bool; g_denyoom : bool; g_diskerr : bool;
  g_noreplicas : bool; g_roslave : bool; g_pubsub : bool; g_masterdown : bool; g_loading : bool; g_slowscript : bool
}.

Inductive mreply :=
  | MOk | MQueued | MError (msg : string) | MExecAbort | MNullMulti | MMultiLen (n : Z) | MReplies (rs : list reply).

(** In the order of what slaves and the append only file get: MULTI, a command
    that was called (it is sent if it changed the dataset), and the EXEC that is
    sent because MULTI was. *)
Inductive prop (C : Type) := PropMulti | PropCall (q : qcmd C) | PropExec.
Arguments PropMulti {C}.
Arguments PropCall {C} q.
Arguments PropExec {C}.

Section multi.
Context {X C : Type} `{!Commands X C}.

Record client := Client {
  c_multi : bool;        (* CLIENT_MULTI *)
  c_dirty_cas : bool;    (* CLIENT_DIRTY_CAS *)
  c_dirty_exec : bool;   (* CLIENT_DIRTY_EXEC *)
  c_commands : list (qcmd C);
  c_cmd_write : bool;    (* CMD_WRITE in mstate.cmd_flags *)
  c_watched : list (Z * key);
  c_db : Z;
  c_replies : list mreply
}.

Record mserver := MServer {
  m_data : X;
  m_clients : gmap Z client;
  m_watchers : gmap (Z * key) (list Z);  (* watched_keys of every database *)
  m_props : list (prop C)
}.
Implicit Types (m : mserver) (c : client) (id : Z).

Definition new_client : client := Client false false false [] false [] 0 [].

Definition set_client m id c : mserver := MServer (m_data m) (<[id := c]> (m_clients m)) (m_watchers m) (m_props m).
Definition set_watchers m w : mserver := MServer (m_data m) (m_clients m) w (m_props m).
Definition on_client m id (f : client → client) : mserver :=
  MServer (m_data m) (alter f id (m_clients m)) (m_watchers m) (m_props m).
Definition add_prop m (p : prop C) : mserver := MServer (m_data m) (m_clients m) (m_watchers m) (m_props m ++ [p]).

Definition with_watched c l : client :=
  Client (c_multi c) (c_dirty_cas c) (c_dirty_exec c) (c_commands c) (c_cmd_write c) l (c_db c) (c_replies c).
Definition with_db c n : client :=
  Client (c_multi c) (c_dirty_cas c) (c_dirty_exec c) (c_commands c) (c_cmd_write c) (c_watched c) n (c_replies c).
Definition say c (r : mreply) : client :=
  Client (c_multi c) (c_dirty_cas c) (c_dirty_exec c) (c_commands c) (c_cmd_write c) (c_watched c) (c_db c) (c_replies c ++ [r]).
Definition set_cas c (b : bool) : client :=
  Client (c_multi c) b (c_dirty_exec c) (c_commands c) (c_cmd_write c) (c_watched c) (c_db c) (c_replies c).

Definition reply_to m id (r : mreply) : mserver := on_client m id (λ c, say c r).

(** ** WATCH *)

Definition watchForKey m id (k : key) : option mserver :=
  c ← m_clients m !! id;
  if decide ((c_db c, k) ∈ c_watched c) then Some m else
  let clients := default [] (m_watchers m !! (c_db c, k)) in
  let m := set_watchers m (<[(c_db c, k) := clients ++ [id]]> (m_watchers m)) in
  Some (set_client m id (with_watched c (c_watched c ++ [(c_db c, k)]))).

(** [listDelNode(clients,listSearchKey(clients,c))] *)
Fixpoint del_first (id : Z) (l : list Z) : option (list Z) :=
  match l with
  | [] => None
  | i :: l => if i =? id then Some l else l ← del_first id l; Some (i :: l)
  end.

Fixpoint unwatch_loop (w : gmap (Z * key) (list Z)) id (watched : list (Z * key)) : option (gmap (Z * key) (list Z)) :=
  match watched with
  | [] => Some w
  | wk :: watched =>
      clients ← w !! wk;
      clients ← del_first id clients;
      unwatch_loop (match clients with [] => delete wk w | _ => <[wk := clients]> w end) id watched
  end.

Definition unwatchAllKeys m id : option mserver :=
  c ← m_clients m !! id;
  w ← unwatch_loop (m_watchers m) id (c_watched c);
  Some (set_client (set_watchers m w) id (with_watched c [])).

Fixpoint mark_dirty (cs : gmap Z client) (ids : list Z) : gmap Z client :=
  match ids with [] => cs | id :: ids => mark_dirty (alter (λ c, set_cas c true) id cs) ids end.

Definition touchWatchedKey m (dbid : Z) (k : key) : mserver :=
  match m_watchers m !! (dbid, k) with
  | None => m
  | Some clients => MServer (m_data m) (mark_dirty (m_clients m) clients) (m_watchers m) (m_props m)
  end.

Definition flush_touches (dbid : Z) (present : Z → key → bool) (wk : Z * key) : bool :=
  ((dbid =? -1) || (wk.1 =? dbid)) && present wk.1 wk.2.

Definition touchWatchedKeysOnFlush m (dbid : Z) (present : Z → key → bool) : mserver :=
  MServer (m_data m)
    ((λ c, if existsb (flush_touches dbid present) (c_watched c) then set_cas c true else c) <$> m_clients m)
    (m_watchers m) (m_props m).

Definition signal m (e : effect) : mserver :=
  match e with Modified dbid k => touchWatchedKey m dbid k | Flushed dbid present => touchWatchedKeysOnFlush m dbid present end.

(** ** Transactions *)

Definition discardTransaction m id : option mserver :=
  let m := on_client m id (λ c, Client false false false [] false (c_watched c) (c_db c) (c_replies c)) in
  unwatchAllKeys m id.

Definition flagTransaction m id : mserver :=
  on_client m id (λ c,
    Client (c_multi c) (c_dirty_cas c) (c_dirty_exec c || c_multi c) (c_commands c) (c_cmd_write c) (c_watched c) (c_db c) (c_replies c)).

Definition queueMultiCommand m id (q : qcmd C) : mserver :=
  on_client m id (λ c,
    Client (c_multi c) (c_dirty_cas c) (c_dirty_exec c) (c_commands c ++ [q])
      (c_cmd_write c || match q with QCommand cmd => cmd_write cmd | QUnwatch => false end) (c_watched c) (c_db c) (c_replies c)).

Definition multiCommand m id : option mserver :=
  c ← m_clients m !! id;
  if c_multi c then Some (reply_to m id (MError "MULTI calls can not be nested"))
  else Some (set_client m id (say (Client true (c_dirty_cas c) (c_dirty_exec c) (c_commands c) (c_cmd_write c) (c_watched c) (c_db c) (c_replies c)) MOk)).

Definition discardCommand m id : option mserver :=
  c ← m_clients m !! id;
  if negb (c_multi c) then Some (reply_to m id (MError "DISCARD without MULTI"))
  else m ← discardTransaction m id; Some (reply_to m id MOk).

Fixpoint watch_loop m id (ks : list key) : option mserver :=
  match ks with [] => Some m | k :: ks => m ← watchForKey m id k; watch_loop m id ks end.

Definition watchCommand m id (ks : list key) : option mserver :=
  c ← m_clients m !! id;
  if c_multi c then Some (reply_to m id (MError "WATCH inside MULTI is not allowed"))
  else m ← watch_loop m id ks; Some (reply_to m id MOk).

Definition unwatchCommand m id : option mserver :=
  m ← unwatchAllKeys m id;
  Some (on_client m id (λ c, say (set_cas c false) MOk)).

(** [call(c, ...)] of a command that can be queued. *)
Definition call m id (q : qcmd C) : option mserver :=
  m ← match q with
      | QUnwatch => unwatchCommand m id
      | QCommand cmd =>
          c ← m_clients m !! id;
          let '(x, n, effects, rs) := run cmd (c_db c) (m_data m) in
          let m := foldl signal (MServer x (m_clients m) (m_watchers m) (m_props m)) effects in
          Some (on_client m id (λ c, say (with_db c n) (MReplies rs)))
      end;
  Some (add_prop m (PropCall q)).

Definition is_readonly_or_admin (q : qcmd C) : bool :=
  match q with QUnwatch => false | QCommand cmd => cmd_readonly_or_admin cmd end.

Fixpoint exec_loop m id (commands : list (qcmd C)) (must_propagate : bool) : option (mserver * bool) :=
  match commands with
  | [] => Some (m, must_propagate)
  | q :: commands =>
      let now := negb must_propagate && negb (is_readonly_or_admin q) in
      m ← call (if now then add_prop m PropMulti else m) id q;
      exec_loop m id commands (must_propagate || now)
  end.

(** [roslave]: the instance is now a read-only slave. *)
Definition execCommand m id (roslave : bool) : option mserver :=
  c ← m_clients m !! id;
  if negb (c_multi c) then Some (reply_to m id (MError "EXEC without MULTI"))
  else if c_dirty_cas c || c_dirty_exec c then
    discardTransaction (reply_to m id (if c_dirty_exec c then MExecAbort else MNullMulti)) id
  else if roslave && c_cmd_write c then
    discardTransaction (reply_to m id (MError "Transaction contains write commands but instance is now a read-only slave. EXEC aborted.")) id
  else
    m ← unwatchAllKeys m id;
    '(m, must_propagate) ← exec_loop (reply_to m id (MMultiLen (Z.of_nat (length (c_commands c))))) id (c_commands c) false;
    m ← discardTransaction m id;
    Some (if must_propagate : bool then add_prop m PropExec else m).

(** ** processCommand *)

(** The first condition that refuses the request, and whether it is flagged. *)
Definition refuse (g : gate) (multi exec write : bool) : option (string * bool) :=
  if g_unknown g then Some ("unknown command"%string, true)
  else if g_arity g then Some ("wrong number of arguments"%string, true)
  else if g_noauth g then Some ("noauth"%string, true)
  else if g_oom g && (g_denyoom g || (multi && negb exec)) then Some ("oom"%string, true)
  else if g_diskerr g then Some ("bgsave or misconf"%string, true)
  else if g_noreplicas g then Some ("noreplicas"%string, true)
  else if g_roslave g && write then Some ("readonly"%string, false)
  else if g_pubsub g then Some ("only (P)SUBSCRIBE / (P)UNSUBSCRIBE / PING / QUIT allowed in this context"%string, false)
  else if g_masterdown g then Some ("masterdown"%string, true)
  else if g_loading g then Some ("loading"%string, false)
  else if g_slowscript g then Some ("slowscript"%string, true)
  else None.

Definition request_write (r : request C) : bool := match r with RQueueable (QCommand cmd) => cmd_write cmd | _ => false end.
Definition is_exec (r : request C) : bool := match r with RExec => true | _ => false end.

Definition processCommand m id (g : gate) (r : request C) : option mserver :=
  c ← m_clients m !! id;
  match refuse g (c_multi c) (is_exec r) (request_write r) with
  | Some (msg, flag) => Some (reply_to (if flag : bool then flagTransaction m id else m) id (MError msg))
  | None =>
      match r with
      | RExec => execCommand m id (g_roslave g)
      | RDiscard => discardCommand m id
      | RMulti => multiCommand m id
      | RWatch ks => watchCommand m id ks
      | RQueueable q =>
          if c_multi c then Some (reply_to (queueMultiCommand m id q) id MQueued) else call m id q
      end
  end.

(** A client connects, and [freeClient]. *)
Definition connect m id : option mserver :=
  match m_clients m !! id with Some _ => None | None => Some (set_client m id new_client) end.

Definition freeClient m id : option mserver :=
  m ← unwatchAllKeys m id;
  Some (MServer (m_data m) (delete id (m_clients m)) (m_watchers m) (m_props m)).

Inductive step := Connect (id : Z) | Disconnect (id : Z) | Request (id : Z) (g : gate) (r : request C).

Definition serve m (s : step) : option mserver :=
  match s with
  | Connect id => connect m id
  | Disconnect id => freeClient m id
  | Request id g r => processCommand m id g r
  end.

Fixpoint serves m (ss : list step) : option mserver :=
  match ss with [] => Some m | s :: ss => m ← serve m s; serves m ss end.
End multi.

Arguments client : clear implicits.
Arguments mserver : clear implicits.
Arguments step : clear implicits.
