(* ===== verification/MultiSpec.v ===== *)
(** * multi.c: WATCH is optimistic locking

    In the specification every key has a version, which grows when the key is
    modified.  A client remembers the versions of the keys it watches; EXEC runs
    its queue when they are still the versions of the keys, and nothing else is
    run in between.  The lists of watchers and the flags of clients in multi.c
    implement this for every interleaving of the requests of many clients. *)

From stdpp Require Import strings.
From S2P Require Import Prelude Decimal Util Keyspace Db DbRep TString KeySpec TStringSpec Multi.

Section spec.
Context {X C : Type} `{!Commands X C}.

(** ** Specification *)

Record aclient := AClient {
  a_multi : bool; a_error : bool; a_queue : list (qcmd C); a_write : bool;
  a_watch : list ((Z * key) * nat);  (* the keys with their versions *)
  a_db : Z; a_replies : list mreply
}.

Record astate := AState {
  s_data : X; s_ver : Z * key → nat; s_clients : gmap Z aclient; s_props : list (prop C)
}.
Implicit Types (s : astate) (a : aclient) (id : Z) (ver : Z * key → nat).

(** Some key was modified since it is watched. *)
Definition stale ver a : bool := existsb (λ p, negb (p.2 =? ver p.1)%nat) (a_watch a).

Definition bump ver (P : Z * key → bool) : Z * key → nat := λ wk, if P wk then S (ver wk) else ver wk.

Definition effect_on (e : effect) (wk : Z * key) : bool :=
  match e with Modified dbid k => bool_decide (wk = (dbid, k)) | Flushed dbid present => flush_touches dbid present wk end.

Definition with_client s id a : astate := AState (s_data s) (s_ver s) (<[id := a]> (s_clients s)) (s_props s).
Definition a_prop s (p : prop C) : astate := AState (s_data s) (s_ver s) (s_clients s) (s_props s ++ [p]).

Definition a_say a (r : mreply) : aclient :=
  AClient (a_multi a) (a_error a) (a_queue a) (a_write a) (a_watch a) (a_db a) (a_replies a ++ [r]).
Definition a_forget a : aclient := AClient (a_multi a) (a_error a) (a_queue a) (a_write a) [] (a_db a) (a_replies a).
Definition a_reset a : aclient := AClient false false [] false [] (a_db a) (a_replies a).
Definition a_flag a : aclient :=
  AClient (a_multi a) (a_error a || a_multi a) (a_queue a) (a_write a) (a_watch a) (a_db a) (a_replies a).

Definition a_call s id a (q : qcmd C) : astate * aclient :=
  match q with
  | QUnwatch => (a_prop s (PropCall q), a_say (a_forget a) MOk)
  | QCommand cmd =>
      let '(x, n, effects, rs) := run cmd (a_db a) (s_data s) in
      (a_prop (AState x (foldl (λ ver e, bump ver (effect_on e)) (s_ver s) effects) (s_clients s) (s_props s)) (PropCall q),
       AClient (a_multi a) (a_error a) (a_queue a) (a_write a) (a_watch a) n (a_replies a ++ [MReplies rs]))
  end.

(** The queue is run command after command; MULTI is sent before the first one
    that may write, and EXEC after the last one then. *)
Fixpoint a_run s id a (queue : list (qcmd C)) (sent : bool) : astate * aclient * bool :=
  match queue with
  | [] => (s, a, sent)
  | q :: queue =>
      let now := negb sent && negb (is_readonly_or_admin q) in
      let (s, a) := a_call (if now then a_prop s PropMulti else s) id a q in
      a_run s id a queue (sent || now)
  end.

Definition a_exec s id a (roslave : bool) : astate :=
  if negb (a_multi a) then with_client s id (a_say a (MError "EXEC without MULTI"))
  else if a_error a then with_client s id (a_reset (a_say a MExecAbort))
  else if stale (s_ver s) a then with_client s id (a_reset (a_say a MNullMulti))
  else if roslave && a_write a then
    with_client s id (a_reset (a_say a (MError "Transaction contains write commands but instance is now a read-only slave. EXEC aborted.")))
  else
    let '(s, a, sent) := a_run s id (a_say (a_forget a) (MMultiLen (Z.of_nat (length (a_queue a))))) (a_queue a) false in
    let s := with_client s id (a_reset a) in
    if sent then a_prop s PropExec else s.

Definition a_watch_key ver a (k : key) : aclient :=
  if decide ((a_db a, k) ∈ (fst <$> a_watch a)) then a
  else AClient (a_multi a) (a_error a) (a_queue a) (a_write a) (a_watch a ++ [((a_db a, k), ver (a_db a, k))]) (a_db a) (a_replies a).

Definition a_process s id (g : gate) (r : request C) : option astate :=
  a ← s_clients s !! id;
  Some
    match refuse g (a_multi a) (is_exec r) (request_write r) with
    | Some (msg, flag) => with_client s id (a_say (if flag : bool then a_flag a else a) (MError msg))
    | None =>
        match r with
        | RExec => a_exec s id a (g_roslave g)
        | RDiscard => with_client s id (if a_multi a then a_say (a_reset a) MOk else a_say a (MError "DISCARD without MULTI"))
        | RMulti =>
            with_client s id
              (if a_multi a then a_say a (MError "MULTI calls can not be nested")
               else a_say (AClient true (a_error a) (a_queue a) (a_write a) (a_watch a) (a_db a) (a_replies a)) MOk)
        | RWatch ks =>
            with_client s id
              (if a_multi a then a_say a (MError "WATCH inside MULTI is not allowed")
               else a_say (foldl (a_watch_key (s_ver s)) a ks) MOk)
        | RQueueable q =>
            if a_multi a then
              with_client s id
                (a_say (AClient (a_multi a) (a_error a) (a_queue a ++ [q])
                   (a_write a || match q with QCommand cmd => cmd_write cmd | QUnwatch => false end) (a_watch a) (a_db a) (a_replies a)) MQueued)
            else let (s, a) := a_call s id a q in with_client s id a
        end
    end.

(** [None] when the client is not connected, or already is. *)
Definition a_serve s (st : step C) : option astate :=
  match st with
  | Connect id => match s_clients s !! id with Some _ => None | None => Some (with_client s id (AClient false false [] false [] 0 [])) end
  | Disconnect id => _ ← s_clients s !! id; Some (AState (s_data s) (s_ver s) (delete id (s_clients s)) (s_props s))
  | Request id g r => a_process s id g r
  end.

Fixpoint a_serves s (ss : list (step C)) : option astate :=
  match ss with [] => Some s | st :: ss => s ← a_serve s st; a_serves s ss end.

(** ** Watchers *)

(** [f id] are the keys that the client [id] watches. *)
Definition watchers_ok (f : Z → list (Z * key)) (w : gmap (Z * key) (list Z)) : Prop :=
  (∀ wk id, id ∈ default [] (w !! wk) ↔ wk ∈ f id) ∧ (∀ wk l, w !! wk = Some l → NoDup l ∧ l ≠ []).

Lemma del_first_ok id l : id ∈ l → NoDup l → ∃ l', del_first id l = Some l' ∧ NoDup l' ∧ ∀ i, i ∈ l' ↔ i ∈ l ∧ i ≠ id.
Proof.
  induction l as [|i l IH]; intros Hin Hnd; [by apply elem_of_nil in Hin|]. apply NoDup_cons in Hnd as [Hi Hnd]. cbn [del_first].
  destruct (Z.eqb_spec i id) as [->|Hne].
  - exists l. split; [done|]. split; [done|]. intros j. rewrite elem_of_cons. split; [|tauto]. intros Hj. split; [by right|]. by intros ->.
  - apply elem_of_cons in Hin as [?|Hin]; [congruence|]. destruct (IH Hin Hnd) as (l' & -> & Hnd' & Hl'). exists (i :: l'). split; [done|]. split.
    + apply NoDup_cons. split; [|done]. rewrite Hl'. tauto.
    + intros j. rewrite !elem_of_cons, Hl'. naive_solver.
Qed.

Lemma unwatch_loop_ok id l : ∀ f w, watchers_ok f w → f id = l → NoDup l →
  ∃ w', unwatch_loop w id l = Some w' ∧ watchers_ok (λ i, if decide (i = id) then [] else f i) w'.
Proof.
  induction l as [|wk l IH]; intros f w [Hw Hne] Hf Hnd; cbn [unwatch_loop].
  { exists w. split; [done|]. split; [|done]. intros wk i. rewrite Hw. destruct (decide (i = id)) as [->|]; [by rewrite Hf|done]. }
  assert (id ∈ default [] (w !! wk)) as Hid by (rewrite Hw, Hf; by left).
  destruct (w !! wk) as [cl|] eqn:Ewk; [|by apply elem_of_nil in Hid]. cbn [mbind option_bind]. destruct (Hne wk cl Ewk) as [Hcl _].
  destruct (del_first_ok id cl Hid Hcl) as (cl' & -> & Hnd' & Hcl'). cbn [mbind option_bind]. apply NoDup_cons in Hnd as [Hwk Hnd].
  set (w1 := match cl' with [] => delete wk w | _ => <[wk := cl']> w end).
  assert (∀ wk', default [] (w1 !! wk') = if decide (wk' = wk) then cl' else default [] (w !! wk')) as Hw1.
  { intros wk'. unfold w1. destruct (decide (wk' = wk)) as [->|Hn]; destruct cl'; rewrite ?lookup_delete_eq, ?lookup_insert_eq, ?lookup_delete_ne, ?lookup_insert_ne; done. }
  destruct (IH (λ i, if decide (i = id) then l else f i) w1) as (w' & E' & Hw'); [|by rewrite decide_True|done|].
  - split.
    + intros wk' i. rewrite Hw1. destruct (decide (wk' = wk)) as [->|Hn].
      * rewrite Hcl'. pose proof (Hw wk i) as Hwi. rewrite Ewk in Hwi. simpl in Hwi. rewrite Hwi. destruct (decide (i = id)) as [->|]; [|tauto]. rewrite Hf. naive_solver.
      * rewrite Hw. destruct (decide (i = id)) as [->|]; [|done]. rewrite Hf, elem_of_cons. naive_solver.
    + intros wk' l'. unfold w1. destruct cl' as [|j cl'].
      * destruct (decide (wk' = wk)) as [->|Hn]; [by rewrite lookup_delete_eq|rewrite lookup_delete_ne by done; apply Hne].
      * destruct (decide (wk' = wk)) as [->|Hn]; [rewrite lookup_insert_eq; by intros [= <-]|rewrite lookup_insert_ne by done; apply Hne].
  - exists w'. split; [done|]. destruct Hw' as [H1 H2]. split; [|done]. intros wk' i. rewrite H1. by destruct (decide (i = id)).
Qed.

Lemma watchers_ext f g w : (∀ i, f i = g i) → watchers_ok f w → watchers_ok g w.
Proof. intros Hfg [H1 H2]. split; [|done]. intros wk i. by rewrite H1, Hfg. Qed.

Lemma watch_add f w id wk : watchers_ok f w → wk ∉ f id →
  watchers_ok (λ i, if decide (i = id) then f id ++ [wk] else f i) (<[wk := default [] (w !! wk) ++ [id]]> w).
Proof.
  intros [Hw Hne] Hwk. split.
  - intros wk' i. destruct (decide (wk' = wk)) as [->|Hn].
    + rewrite lookup_insert_eq. simpl. rewrite elem_of_app, list_elem_of_singleton, Hw. destruct (decide (i = id)) as [->|]; [rewrite elem_of_app, list_elem_of_singleton; naive_solver|naive_solver].
    + rewrite lookup_insert_ne, Hw by done. destruct (decide (i = id)) as [->|]; [|done]. rewrite elem_of_app, list_elem_of_singleton. naive_solver.
  - intros wk' l. destruct (decide (wk' = wk)) as [->|Hn]; [|rewrite lookup_insert_ne by done; apply Hne]. rewrite lookup_insert_eq. intros [= <-]. split; [|by destruct (default [] (w !! wk))].
    apply NoDup_app. split; [|split; [|apply NoDup_singleton]].
    + destruct (w !! wk) as [l|] eqn:E; [by apply (Hne wk l)|apply NoDup_nil_2].
    + intros i Hi ->%list_elem_of_singleton. by apply Hwk, Hw.
Qed.

(** ** Simulation *)

Definition client_ok ver (c : client C) a : Prop :=
  c = Client (a_multi a) (stale ver a) (a_error a) (a_queue a) (a_write a) (fst <$> a_watch a) (a_db a) (a_replies a) ∧
  NoDup (fst <$> a_watch a) ∧ Forall (λ p, (p.2 ≤ ver p.1)%nat) (a_watch a).

Definition watched_of (cs : gmap Z (client C)) (id : Z) : list (Z * key) := match cs !! id with Some c => c_watched c | None => [] end.

Record sim (m : mserver X C) s : Prop := {
  sim_data : m_data m = s_data s;
  sim_props : m_props m = s_props s;
  sim_clients id : option_Forall2 (client_ok (s_ver s)) (m_clients m !! id) (s_clients s !! id);
  sim_watchers : watchers_ok (watched_of (m_clients m)) (m_watchers m)
}.
Implicit Types m : mserver X C.

Lemma sim_client m s id a : sim m s → s_clients s !! id = Some a → ∃ c, m_clients m !! id = Some c ∧ client_ok (s_ver s) c a.
Proof. intros Hsim Ha. pose proof (sim_clients _ _ Hsim id) as Hc. rewrite Ha in Hc. inversion Hc; subst. eauto. Qed.

Lemma on_client_set m id c f : m_clients m !! id = Some c → on_client m id f = set_client m id (f c).
Proof.
  intros Hc. unfold on_client, set_client. f_equal. apply map_eq. intros i. destruct (decide (i = id)) as [->|Hn].
  - by rewrite lookup_alter_eq, lookup_insert_eq, Hc.
  - by rewrite lookup_alter_ne, lookup_insert_ne.
Qed.

Lemma clients_insert m s id c a : (∀ i, option_Forall2 (client_ok (s_ver s)) (m_clients m !! i) (s_clients s !! i)) → client_ok (s_ver s) c a →
  ∀ i, option_Forall2 (client_ok (s_ver s)) (<[id := c]> (m_clients m) !! i) (<[id := a]> (s_clients s) !! i).
Proof. intros H Hca i. destruct (decide (i = id)) as [->|Hn]; [rewrite !lookup_insert_eq; by constructor|rewrite !lookup_insert_ne by done; apply H]. Qed.

(** The client changes, but not what it watches. *)
Lemma sim_set m s id c c' a' : sim m s → m_clients m !! id = Some c → client_ok (s_ver s) c' a' → c_watched c' = c_watched c →
  sim (set_client m id c') (with_client s id a').
Proof.
  intros [H1 H2 H3 H4] Hc Hok Hw. split; [done|done|exact (clients_insert m s id c' a' H3 Hok)|]. simpl. eapply watchers_ext; [|done]. intros i. unfold watched_of.
  destruct (decide (i = id)) as [->|Hn]; [by rewrite lookup_insert_eq, Hc, Hw|by rewrite lookup_insert_ne].
Qed.

Lemma sim_say m s id a r : sim m s → s_clients s !! id = Some a → sim (reply_to m id r) (with_client s id (a_say a r)).
Proof.
  intros Hsim Ha. destruct (sim_client m s id a Hsim Ha) as (c & Hc & -> & Hok). unfold reply_to. rewrite (on_client_set _ _ _ _ Hc).
  by eapply sim_set.
Qed.

(** The client forgets what it watches, whatever its flags are in between. *)
Lemma sim_unwatch m s id c c1 : sim m s → m_clients m !! id = Some c → NoDup (c_watched c) → c_watched c1 = c_watched c →
  ∃ w, unwatchAllKeys (set_client m id c1) id = Some (set_client (set_watchers m w) id (with_watched c1 [])) ∧
    ∀ c' a', client_ok (s_ver s) c' a' → c_watched c' = [] → sim (set_client (set_watchers m w) id c') (with_client s id a').
Proof.
  intros [H1 H2 H3 H4] Hc Hnd Hw. unfold unwatchAllKeys. simpl. rewrite lookup_insert_eq. cbn [mbind option_bind]. rewrite Hw.
  destruct (unwatch_loop_ok id (c_watched c) _ _ H4) as (w & -> & Hwok); [unfold watched_of; by rewrite Hc|done|]. cbn [mbind option_bind]. exists w. split.
  - unfold set_client, set_watchers. simpl. do 2 f_equal. apply insert_insert_eq.
  - intros c' a' Hok Hw'. split; [done|done|exact (clients_insert m s id c' a' H3 Hok)|]. simpl. eapply watchers_ext; [|exact Hwok]. intros i. unfold watched_of.
    destruct (decide (i = id)) as [->|Hn]; [by rewrite lookup_insert_eq, Hw'|by rewrite lookup_insert_ne].
Qed.

(** *** Modified keys *)

Lemma stale_bump ver P a : Forall (λ p, (p.2 ≤ ver p.1)%nat) (a_watch a) → stale (bump ver P) a = stale ver a || existsb P (fst <$> a_watch a).
Proof.
  unfold stale. induction 1 as [|[wk v] l Hv _ IH]; [done|]. simpl in *. rewrite IH. unfold bump at 1. destruct (P wk).
  - rewrite (proj2 (Nat.eqb_neq v (S (ver wk)))) by lia. simpl. by rewrite orb_true_r.
  - simpl. by rewrite orb_assoc.
Qed.

Lemma client_bump ver P c a : client_ok ver c a →
  client_ok (bump ver P) (if existsb P (c_watched c) then set_cas c true else c) a.
Proof.
  intros (-> & Hnd & Hall). simpl. split; [|split; [done|]].
  - rewrite stale_bump by done. destruct (existsb P (fst <$> a_watch a)); unfold set_cas; simpl; [by rewrite orb_true_r|by rewrite orb_false_r].
  - eapply Forall_impl; [done|]. intros [wk v] Hp. unfold bump. simpl in *. destruct (P wk); lia.
Qed.

Lemma mark_dirty_lookup ids : ∀ (cs : gmap Z (client C)) i, mark_dirty cs ids !! i = (if decide (i ∈ ids) then (λ c, set_cas c true) <$> cs !! i else cs !! i).
Proof.
  induction ids as [|id ids IH]; intros cs i; cbn [mark_dirty]; [by rewrite decide_False by apply not_elem_of_nil|]. rewrite IH.
  destruct (decide (i = id)) as [->|Hn].
  - rewrite lookup_alter_eq, (decide_True (P := id ∈ id :: ids)) by (by left). destruct (decide (id ∈ ids)); [|done]. by destruct (cs !! id).
  - rewrite lookup_alter_ne by done. destruct (decide (i ∈ ids)) as [Hi|Hi]; [by rewrite decide_True by (by right)|].
    rewrite decide_False; [done|]. rewrite elem_of_cons. naive_solver.
Qed.

(** A signal that marks the clients that watch a key of [P]. *)
Lemma sim_mark m s P cs' : sim m s →
  (∀ i, cs' !! i = (λ c, if existsb P (c_watched c) then set_cas c true else c) <$> m_clients m !! i) →
  sim (MServer (m_data m) cs' (m_watchers m) (m_props m)) (AState (s_data s) (bump (s_ver s) P) (s_clients s) (s_props s)).
Proof.
  intros [H1 H2 H3 H4] Hcs. split; [done|done| |].
  - intros i. simpl. rewrite Hcs. specialize (H3 i). inversion H3 as [c a Hca E1 E2|E1 E2]; simpl; constructor. by apply client_bump.
  - simpl. eapply watchers_ext; [|done]. intros i. unfold watched_of. rewrite Hcs. destruct (m_clients m !! i) as [c|]; [|done]. simpl. by destruct (existsb P (c_watched c)).
Qed.

Lemma sim_signal m s e : sim m s → sim (signal m e) (AState (s_data s) (bump (s_ver s) (effect_on e)) (s_clients s) (s_props s)).
Proof.
  intros Hsim. destruct e as [dbid k|dbid present]; cbn [signal effect_on].
  - assert (∀ l, existsb (λ wk, bool_decide (wk = (dbid, k))) l = bool_decide ((dbid, k) ∈ l)) as Hex.
    { induction l as [|wk l IH]; [done|]. simpl. rewrite IH. destruct (decide (wk = (dbid, k))) as [->|Hn].
      - rewrite (bool_decide_true ((dbid, k) = _)), (bool_decide_true (_ ∈ _ :: _)) by (done || by left). done.
      - rewrite (bool_decide_false (wk = _)) by done. simpl. apply bool_decide_ext. rewrite elem_of_cons. naive_solver. }
    pose proof (sim_watchers _ _ Hsim) as [Hw _]. unfold touchWatchedKey. destruct (m_watchers m !! (dbid, k)) as [ids|] eqn:Ew.
    + apply sim_mark; [done|]. intros i. rewrite mark_dirty_lookup. pose proof (Hw (dbid, k) i) as Hwi. rewrite Ew in Hwi. simpl in Hwi. unfold watched_of in Hwi.
      destruct (m_clients m !! i) as [c|]; simpl; [|by destruct (decide _)]. rewrite Hex. destruct (decide (i ∈ ids)) as [Hi|Hi].
      * by rewrite bool_decide_true by tauto.
      * by rewrite bool_decide_false by tauto.
    + destruct m as [x cs w ps]. apply (sim_mark (MServer x cs w ps) s _ cs); [done|]. intros i. simpl in *. pose proof (Hw (dbid, k) i) as Hwi. rewrite Ew in Hwi.
      simpl in Hwi. unfold watched_of in Hwi. destruct (cs !! i) as [c|]; [|done]. simpl. rewrite Hex, bool_decide_false; [done|]. intros Hin. by apply Hwi, elem_of_nil in Hin.
  - apply sim_mark; [done|]. intros i. apply lookup_fmap.
Qed.

(** ** Commands *)

Lemma with_twice s id a a' : with_client (with_client s id a) id a' = with_client s id a'.
Proof. unfold with_client. simpl. f_equal. apply insert_insert_eq. Qed.

Lemma set_twice m id c c' : set_client (set_client m id c) id c' = set_client m id c'.
Proof. unfold set_client. simpl. f_equal. apply insert_insert_eq. Qed.

Lemma set_same m id c : m_clients m !! id = Some c → set_client m id c = m.
Proof. intros Hc. destruct m as [x cs w ps]. unfold set_client. simpl in *. f_equal. by apply insert_id. Qed.

Lemma sim_at m s id a : sim m (with_client s id a) → ∃ c, m_clients m !! id = Some c ∧ client_ok (s_ver s) c a.
Proof. intros Hsim. apply (sim_client m (with_client s id a)); [done|]. simpl. by rewrite lookup_insert_eq. Qed.

Lemma sim_prop m s p : sim m s → sim (add_prop m p) (a_prop s p).
Proof. intros [H1 H2 H3 H4]. split; simpl; [done|by rewrite H2|done|done]. Qed.

(** The client [id] changes, but not what it watches. *)
Lemma sim_change m s id a c c' a' : sim m (with_client s id a) → m_clients m !! id = Some c → client_ok (s_ver s) c' a' → c_watched c' = c_watched c →
  sim (set_client m id c') (with_client s id a').
Proof. intros Hsim Hc Hok Hw. rewrite <- (with_twice s id a a'). by eapply sim_set. Qed.

Lemma forget_ok m s id a c c1 c2 a2 : sim m (with_client s id a) → m_clients m !! id = Some c → client_ok (s_ver s) c a → c_watched c1 = c_watched c →
  client_ok (s_ver s) c2 a2 → c_watched c2 = [] →
  ∃ m2, unwatchAllKeys (set_client m id c1) id = Some m2 ∧ m_clients m2 !! id = Some (with_watched c1 []) ∧ sim (set_client m2 id c2) (with_client s id a2).
Proof.
  intros Hsim Hc Hok Hw Hok2 Hw2. destruct (sim_unwatch m (with_client s id a) id c c1 Hsim Hc) as (w & -> & Hset); [|done|].
  - destruct Hok as (-> & Hnd & _). done.
  - eexists. split; [done|]. simpl. rewrite lookup_insert_eq. split; [done|]. rewrite set_twice, <- (with_twice s id a a2). by apply Hset.
Qed.

Lemma signals_ok effects : ∀ m s, sim m s →
  sim (foldl signal m effects) (AState (s_data s) (foldl (λ ver e, bump ver (effect_on e)) (s_ver s) effects) (s_clients s) (s_props s)).
Proof.
  induction effects as [|e effects IH]; intros m s Hsim; cbn [foldl]; [by destruct s|]. apply (IH _ (AState (s_data s) (bump (s_ver s) (effect_on e)) (s_clients s) (s_props s))).
  by apply sim_signal.
Qed.

Lemma call_ok m s id a q : sim m (with_client s id a) →
  let (s', a') := a_call s id a q in ∃ m', call m id q = Some m' ∧ sim m' (with_client s' id a').
Proof.
  intros Hsim. destruct (sim_at m s id a Hsim) as (c & Hc & Hok). unfold call, a_call. destruct q as [|cmd].
  - unfold unwatchCommand. destruct (forget_ok m s id a c c (say (set_cas (with_watched c []) false) MOk) (a_say (a_forget a) MOk) Hsim Hc Hok) as (m2 & E2 & Hc2 & Hs2); [done| |done|].
    + destruct Hok as (-> & _ & _). split; [done|]. split; [apply NoDup_nil_2|done].
    + rewrite (set_same m id c Hc) in E2. rewrite E2. cbn [mbind option_bind]. eexists. split; [done|]. rewrite (on_client_set _ _ _ _ Hc2).
      by apply (sim_prop _ (with_client s id (a_say (a_forget a) MOk))).
  - rewrite Hc. cbn [mbind option_bind]. destruct Hok as (-> & Hnd & Hall). simpl (c_db _). rewrite (sim_data _ _ Hsim : m_data m = s_data s).
    destruct (run cmd (a_db a) (s_data s)) as [[[x n] effects] rs]. eexists. split; [done|].
    assert (sim (MServer x (m_clients m) (m_watchers m) (m_props m)) (with_client (AState x (s_ver s) (s_clients s) (s_props s)) id a)) as Hsim0.
    { destruct Hsim as [H1 H2 H3 H4]. by split. }
    pose proof (signals_ok effects _ _ Hsim0) as Hsim1. simpl in Hsim1. set (ver' := foldl _ (s_ver s) effects) in *.
    set (s1 := AState x ver' (s_clients s) (s_props s)). change (AState x ver' (<[id := a]> (s_clients s)) (s_props s)) with (with_client s1 id a) in Hsim1.
    destruct (sim_at _ s1 id a Hsim1) as (c1 & Hc1 & Hok1). rewrite (on_client_set _ _ _ _ Hc1).
    apply (sim_prop _ (with_client s1 id _)). eapply sim_change; [done|done| |]; destruct Hok1 as (-> & Hnd1 & Hall1); [|done]. by split.
Qed.

Lemma exec_loop_ok queue : ∀ m s id a sent, sim m (with_client s id a) →
  let '(s', a', sent') := a_run s id a queue sent in ∃ m', exec_loop m id queue sent = Some (m', sent') ∧ sim m' (with_client s' id a').
Proof.
  induction queue as [|q queue IH]; intros m s id a sent Hsim; cbn [a_run exec_loop]; [by exists m|].
  set (now := negb sent && negb (is_readonly_or_admin q)). set (m0 := if now then add_prop m PropMulti else m). set (s0 := if now then a_prop s PropMulti else s).
  assert (sim m0 (with_client s0 id a)) as Hsim0. { unfold m0, s0. destruct now; [|done]. by apply (sim_prop m (with_client s id a)). }
  pose proof (call_ok m0 s0 id a q Hsim0) as Hcall. destruct (a_call s0 id a q) as [s1 a1]. destruct Hcall as (m1 & -> & Hsim1). cbn [mbind option_bind]. by apply IH.
Qed.

(** [discardTransaction] *)
Lemma discard_ok m s id a : sim m (with_client s id a) → ∃ m', discardTransaction m id = Some m' ∧ sim m' (with_client s id (a_reset a)).
Proof.
  intros Hsim. destruct (sim_at m s id a Hsim) as (c & Hc & Hok). unfold discardTransaction. rewrite (on_client_set _ _ _ _ Hc).
  set (c1 := Client _ _ _ _ _ _ _ _).
  destruct (forget_ok m s id a c c1 (with_watched c1 []) (a_reset a) Hsim Hc Hok) as (m2 & E2 & Hc2 & Hs2); [done| |done|].
  - destruct Hok as (-> & _ & _). split; [done|]. split; [apply NoDup_nil_2|done].
  - exists m2. split; [done|]. by rewrite (set_same m2 id _ Hc2) in Hs2.
Qed.

Lemma exec_cmd_ok m s id a roslave : sim m (with_client s id a) → ∃ m', execCommand m id roslave = Some m' ∧ sim m' (a_exec s id a roslave).
Proof.
  intros Hsim. destruct (sim_at m s id a Hsim) as (c & Hc & Hok). pose proof Hok as (Ec & Hnd & Hall). unfold execCommand, a_exec. rewrite Hc. cbn [mbind option_bind].
  assert (∀ r, sim (reply_to m id r) (with_client s id (a_say a r))) as Hsay.
  { intros r. rewrite <- (with_twice s id a). apply sim_say; [done|]. simpl. by rewrite lookup_insert_eq. }
  assert (∀ r, ∃ m', discardTransaction (reply_to m id r) id = Some m' ∧ sim m' (with_client s id (a_reset (a_say a r)))) as Hdis by (intros r; by apply discard_ok).
  rewrite Ec. simpl. destruct (a_multi a) eqn:Em; [|by eexists]. simpl. destruct (a_error a) eqn:Ee; [rewrite orb_true_r; apply Hdis|]. rewrite orb_false_r. destruct (stale (s_ver s) a) eqn:Est; [apply Hdis|].
  destruct (roslave && a_write a); [apply Hdis|].
  destruct (forget_ok m s id a c c (with_watched c []) (a_forget a) Hsim Hc Hok) as (m2 & E2 & Hc2 & Hs2); [done| |done|].
  { rewrite Ec. split; [unfold a_forget; simpl; by rewrite Em, Ee|]. split; [apply NoDup_nil_2|done]. }
  rewrite (set_same m id c Hc) in E2. rewrite E2. cbn [mbind option_bind]. rewrite (set_same m2 id _ Hc2) in Hs2.
  set (len := MMultiLen _). pose proof (sim_say m2 _ id (a_forget a) len Hs2) as Hs3. rewrite with_twice in Hs3. specialize (Hs3 ltac:(simpl; by rewrite lookup_insert_eq)).
  pose proof (exec_loop_ok (a_queue a) _ s id _ false Hs3) as Hloop. destruct (a_run s id _ (a_queue a) false) as [[s4 a4] sent]. destruct Hloop as (m4 & -> & Hs4). cbn [mbind option_bind].
  destruct (discard_ok m4 s4 id a4 Hs4) as (m5 & -> & Hs5). cbn [mbind option_bind]. eexists. split; [done|]. destruct sent; [|done]. by apply sim_prop.
Qed.

Lemma watch_ok m s id a k : sim m (with_client s id a) →
  ∃ m', watchForKey m id k = Some m' ∧ sim m' (with_client s id (a_watch_key (s_ver s) a k)).
Proof.
  intros Hsim. destruct (sim_at m s id a Hsim) as (c & Hc & Hok). pose proof Hok as (Ec & Hnd & Hall). unfold watchForKey, a_watch_key. rewrite Hc. cbn [mbind option_bind].
  assert (c_db c = a_db a ∧ c_watched c = fst <$> a_watch a) as [-> Hw] by (by rewrite Ec). rewrite Hw. destruct (decide _) as [Hin|Hni]; [by exists m|].
  eexists. split; [done|]. set (wk := (a_db a, k)) in *. destruct Hsim as [H1 H2 H3 H4]. split; [done|done| |].
  - simpl in *. intros i. specialize (H3 i). destruct (decide (i = id)) as [->|Hn]; [|rewrite !lookup_insert_ne in * by done; done]. rewrite !lookup_insert_eq. constructor. split; [|split]; simpl.
    + rewrite Ec. unfold with_watched. simpl. rewrite fmap_app. simpl. f_equal. unfold stale. simpl. rewrite existsb_app. simpl. by rewrite Nat.eqb_refl, !orb_false_r.
    + rewrite fmap_app. apply NoDup_app. split; [done|]. split; [|apply NoDup_singleton]. intros x Hx ->%list_elem_of_singleton. done.
    + apply Forall_app. split; [done|]. by constructor.
  - simpl in *. assert (watched_of (m_clients m) id = fst <$> a_watch a) as Ew by (unfold watched_of; by rewrite Hc).
    eapply watchers_ext; [|apply (watch_add _ _ id wk H4); by rewrite Ew]. intros i. simpl. unfold watched_of. destruct (decide (i = id)) as [->|Hn]; [|by rewrite lookup_insert_ne].
    rewrite lookup_insert_eq, Hc. simpl. by rewrite Hw.
Qed.

Lemma watch_loop_ok ks : ∀ m s id a, sim m (with_client s id a) →
  ∃ m', watch_loop m id ks = Some m' ∧ sim m' (with_client s id (foldl (a_watch_key (s_ver s)) a ks)).
Proof.
  induction ks as [|k ks IH]; intros m s id a Hsim; cbn [watch_loop foldl]; [by exists m|].
  destruct (watch_ok m s id a k Hsim) as (m1 & -> & Hsim1). cbn [mbind option_bind]. by apply IH.
Qed.

Lemma process_ok m s s' id g r : sim m s → a_process s id g r = Some s' → ∃ m', processCommand m id g r = Some m' ∧ sim m' s'.
Proof.
  intros Hsim Hp. unfold a_process in Hp. apply bind_Some in Hp as (a & Ha & Hp). injection Hp as <-.
  destruct (sim_client m s id a Hsim Ha) as (c & Hc & Hok). pose proof Hok as (Ec & Hnd & Hall).
  assert (sim m (with_client s id a)) as Hsim' by (rewrite <- (set_same m id c Hc); by eapply sim_set).
  unfold processCommand. rewrite Hc. cbn [mbind option_bind]. assert (c_multi c = a_multi a) as -> by (by rewrite Ec).
  assert (∀ r a', sim m (with_client s id a') → sim (reply_to m id r) (with_client s id (a_say a' r))) as Hsay.
  { intros r' a' Hs. rewrite <- (with_twice s id a'). apply sim_say; [done|]. simpl. by rewrite lookup_insert_eq. }
  assert (∀ m1 r a', sim m1 (with_client s id a') → sim (reply_to m1 id r) (with_client s id (a_say a' r))) as Hsay1.
  { intros m1 r' a' Hs. rewrite <- (with_twice s id a'). apply sim_say; [done|]. simpl. by rewrite lookup_insert_eq. }
  destruct (refuse g (a_multi a) (is_exec r) (request_write r)) as [[msg flag]|].
  { eexists. split; [done|]. apply Hsay1. destruct flag; [|done]. unfold flagTransaction. rewrite (on_client_set _ _ _ _ Hc).
    eapply sim_change; [done|done| |done]. by rewrite Ec. }
  destruct r as [| | |ks|q].
  - by apply exec_cmd_ok.
  - unfold discardCommand. rewrite Hc. cbn [mbind option_bind]. assert (c_multi c = a_multi a) as -> by (by rewrite Ec). destruct (a_multi a); cbn [negb]; [|by eexists; split; [done|apply Hsay]].
    destruct (discard_ok m s id a Hsim') as (m1 & -> & Hs1). cbn [mbind option_bind]. eexists. split; [done|]. by apply Hsay1.
  - unfold multiCommand. rewrite Hc. cbn [mbind option_bind]. assert (c_multi c = a_multi a) as -> by (by rewrite Ec). destruct (a_multi a); [by eexists; split; [done|apply Hsay]|].
    eexists. split; [done|]. eapply sim_change; [done|done| |done]. rewrite Ec. by split.
  - unfold watchCommand. rewrite Hc. cbn [mbind option_bind]. assert (c_multi c = a_multi a) as -> by (by rewrite Ec). destruct (a_multi a); [by eexists; split; [done|apply Hsay]|].
    destruct (watch_loop_ok ks m s id a Hsim') as (m1 & -> & Hs1). cbn [mbind option_bind]. eexists. split; [done|]. by apply Hsay1.
  - destruct (a_multi a) eqn:Em.
    + eexists. split; [done|]. apply Hsay1. unfold queueMultiCommand. rewrite (on_client_set _ _ _ _ Hc). eapply sim_change; [done|done| |done]. rewrite Ec. by split.
    + pose proof (call_ok m s id a q Hsim') as Hcall. by destruct (a_call s id a q) as [s1 a1].
Qed.

Lemma serve_ok m s s' st : sim m s → a_serve s st = Some s' → ∃ m', serve m st = Some m' ∧ sim m' s'.
Proof.
  intros Hsim Hs. destruct st as [id|id|id g r]; cbn [serve a_serve] in *.
  - unfold connect. pose proof (sim_clients _ _ Hsim id) as Hid. destruct (s_clients s !! id); [done|]. injection Hs as <-. inversion Hid as [|E1 E2].
    eexists. split; [done|]. destruct Hsim as [H1 H2 H3 H4]. split; [done|done| |].
    + apply (clients_insert m s); [done|]. split; [done|]. split; [apply NoDup_nil_2|done].
    + simpl. eapply watchers_ext; [|done]. intros i. unfold watched_of. destruct (decide (i = id)) as [->|Hn]; [by rewrite lookup_insert_eq, <- E1|by rewrite lookup_insert_ne].
  - apply bind_Some in Hs as (a & Ha & [= <-]). destruct (sim_client m s id a Hsim Ha) as (c & Hc & Hok). unfold freeClient.
    destruct (sim_unwatch m s id c c Hsim Hc) as (w & E & Hset); [by destruct Hok as (-> & Hnd & _)|done|]. rewrite (set_same m id c Hc) in E. rewrite E. cbn [mbind option_bind].
    eexists. split; [done|]. destruct (Hset (Client (a_multi a) false (a_error a) (a_queue a) (a_write a) [] (a_db a) (a_replies a)) (a_forget a)) as [H1 H2 H3 H4]; [by split; [done|split; [apply NoDup_nil_2|]]|done|].
    split; [done|done| |].
    + intros i. simpl in *. specialize (H3 i). destruct (decide (i = id)) as [->|Hn]; [rewrite !lookup_delete_eq; constructor|]. rewrite !lookup_delete_ne, !lookup_insert_ne in * by done. exact H3.
    + simpl in *. eapply watchers_ext; [|exact H4]. intros i. unfold watched_of. destruct (decide (i = id)) as [->|Hn]; [by rewrite lookup_insert_eq, lookup_delete_eq|].
      by rewrite lookup_insert_ne, lookup_delete_ne, lookup_insert_ne.
  - by eapply process_ok.
Qed.

Lemma serves_ok ss : ∀ m s s', sim m s → a_serves s ss = Some s' → ∃ m', serves m ss = Some m' ∧ sim m' s'.
Proof.
  induction ss as [|st ss IH]; intros m s s' Hsim Hs; cbn [serves a_serves] in *; [injection Hs as <-; by exists m|].
  apply bind_Some in Hs as (s1 & Hs1 & Hs). destruct (serve_ok m s s1 st Hsim Hs1) as (m1 & -> & Hsim1). cbn [mbind option_bind]. by eapply IH.
Qed.

Definition start (x : X) : mserver X C := MServer x ∅ ∅ [].
Definition a_start (x : X) : astate := AState x (λ _, 0%nat) ∅ [].

Lemma start_ok x : sim (start x) (a_start x).
Proof.
  split; [done|done| |].
  - intros id. simpl. rewrite !lookup_empty. constructor.
  - split; [|by intros wk l]. intros wk id. simpl. unfold watched_of. rewrite !lookup_empty. simpl. by split; intros ?%elem_of_nil.
Qed.

(** C34. Whatever the commands do, and however the requests of the clients
    interleave, transactions are optimistic locking: EXEC runs the queue of its
    client, in order and with nothing in between, exactly when no request was
    refused with a flag since MULTI and the version of every key it watches is the
    one it had when the client began to watch it; otherwise it runs nothing and
    says why.  Dataset, replies of every client and what is sent to slaves are
    those of the specification, the flag of a client says whether it is stale,
    and no assertion of the code fails. *)
Theorem transactions_refine (x : X) (ss : list (step C)) s' : a_serves (a_start x) ss = Some s' →
  ∃ m', serves (start x) ss = Some m' ∧ m_data m' = s_data s' ∧ m_props m' = s_props s' ∧
    ∀ id, option_Forall2 (λ c a, c_replies c = a_replies a ∧ c_db c = a_db a ∧ c_multi c = a_multi a ∧ c_commands c = a_queue a ∧
      c_dirty_exec c = a_error a ∧ c_dirty_cas c = stale (s_ver s') a) (m_clients m' !! id) (s_clients s' !! id).
Proof.
  intros Hs. destruct (serves_ok ss (start x) (a_start x) s' (start_ok x) Hs) as (m' & E & [H1 H2 H3 H4]). exists m'. split_and!; try done.
  intros id. specialize (H3 id). inversion H3 as [c a (-> & _ & _) E1 E2|]; by constructor.
Qed.
End spec.

(** ** The commands on strings and keys

    One database, at a fixed time; the keys a command signals are those of its
    [SignalModified] events. *)

Definition modified_of (dbid : Z) (e : event) : option effect :=
  match e with SignalModified k => Some (Modified dbid k) | _ => None end.

Definition run_key (t : Z) (c : kcommand) (dbid : Z) (d : strdb) : strdb * Z * list effect * list reply :=
  match key_exec false (master true t) c d with
  | Some d' =>
      (d', dbid, omap (modified_of dbid) (drop (length (events (srv d))) (events (srv d'))),
       drop (length (replies (srv d))) (replies (srv d')))
  | None => (d, dbid, [], [])
  end.

Definition only_reads (c : kcommand) : bool :=
  match c with GET _ | MGET _ | STRLEN _ | GETRANGE _ _ _ | EXISTS _ | TOUCH _ | TTL _ | PTTL _ => true | _ => false end.

#[export] Instance key_Commands : Commands strdb kcommand :=
  {| run := run_key 1000; cmd_write c := negb (only_reads c); cmd_readonly_or_admin := only_reads |}.

Definition open_gate : gate := Gate false false false false false false false false false false false false.

Definition ask (id : Z) (c : kcommand) : step kcommand := Request id open_gate (RQueueable (QCommand c)).

(** The second client changes a watched key, then one that is not watched. *)
Definition sample_steps : list (step kcommand) :=
  [ Connect 1; Connect 2; ask 2 (SET (str "a") (str "5") []);
    Request 1 open_gate (RWatch [str "a"; str "b"]); Request 1 open_gate RMulti; ask 1 (INCR (str "a"));
    ask 2 (SET (str "b") (str "x") []); Request 1 open_gate RExec;
    Request 1 open_gate (RWatch [str "a"]); Request 1 open_gate RMulti; ask 1 (INCR (str "a")); ask 1 (GET (str "a"));
    ask 2 (SET (str "b") (str "y") []); Request 1 open_gate RExec; Disconnect 2 ].

Definition empty_db : strdb := RedisDb (Server ∅ 0 [] []) ∅.

Example sample_transactions :
  option_map (λ m, c_replies <$> m_clients m !! 1) (serves (start empty_db) sample_steps) = Some (Some
    [ MOk; MOk; MQueued; MNullMulti; MOk; MOk; MQueued; MQueued; MMultiLen 2; MReplies [RLong 6]; MReplies [RBulk (str "6")] ]).
Proof. by vm_compute. Qed.

Lemma transactions_refine_witness :
  ∃ s', a_serves (a_start empty_db) sample_steps = Some s' ∧
  ∃ m', serves (start empty_db) sample_steps = Some m' ∧ m_data m' = s_data s' ∧ m_props m' = s_props s' ∧
    ∀ id, option_Forall2 (λ c a, c_replies c = a_replies a ∧ c_db c = a_db a ∧ c_multi c = a_multi a ∧ c_commands c = a_queue a ∧
      c_dirty_exec c = a_error a ∧ c_dirty_cas c = stale (s_ver s') a) (m_clients m' !! id) (s_clients s' !! id).
Proof.
  destruct (a_serves (a_start empty_db) sample_steps) as [s'|] eqn:E; [|by vm_compute in E].
  exists s'. split; [done|]. exact (transactions_refine empty_db sample_steps s' E).
Defined.

(** A command that a read-only slave refuses is not flagged: the transaction is
    run without it. *)
Definition roslave_gate : gate := Gate false false false false false false false true false false false false.

Example roslave_not_flagged :
  option_map (λ m, c_replies <$> m_clients m !! 1)
    (serves (start empty_db)
       [ Connect 1; Request 1 open_gate RMulti; ask 1 (GET (str "a"));
         Request 1 roslave_gate (RQueueable (QCommand (INCR (str "a")))); Request 1 roslave_gate RExec ]) = Some (Some
    [ MOk; MQueued; MError "readonly"; MMultiLen 1; MReplies [RNullBulk] ]).
Proof. by vm_compute. Qed.
