(* ===== verification/Bitops.v ===== *)
(** * bitops.c: strings as arrays of bits

    [bits s] is the bitmap of a string: bit 0 is the most significant bit of the
    first byte. Counting, searching and the integer fields of BITFIELD are
    modelled the way the code computes them (words, masks, shifts, alignment of
    the address) and proved to be the obvious operations on [bits s]. A shift by
    the width of the type is undefined behaviour ([None]). *)

From S2P Require Import Prelude.

(** ** Bitmaps *)

Definition byte_bits (b : Z) : list bool := (λ i, Z.testbit b (7 - Z.of_nat i)) <$> seq 0 8.
Definition bits (s : list Z) : list bool := concat (byte_bits <$> s).

Definition ones_in (l : list bool) : Z := foldr (λ b n, Z.b2z b + n) 0 l.

(** The number whose binary digits are [l], most significant first. *)
Definition bin_val (l : list bool) : Z := foldl (λ v b, 2 * v + Z.b2z b) 0 l.

(** ** Counting *)

Definition bitsinbyte : list Z := [0;1;1;2;1;2;2;3;1;2;2;3;2;3;3;4;1;2;2;3;2;3;3;4;2;3;3;4;3;4;4;5;1;2;2;3;2;3;3;4;2;3;3;4;3;4;4;5;2;3;3;4;3;4;4;5;3;4;4;5;4;5;5;6;1;2;2;3;2;3;3;4;2;3;3;4;3;4;4;5;2;3;3;4;3;4;4;5;3;4;4;5;4;5;5;6;2;3;3;4;3;4;4;5;3;4;4;5;4;5;5;6;3;4;4;5;4;5;5;6;4;5;5;6;5;6;6;7;1;2;2;3;2;3;3;4;2;3;3;4;3;4;4;5;2;3;3;4;3;4;4;5;3;4;4;5;4;5;5;6;2;3;3;4;3;4;4;5;3;4;4;5;4;5;5;6;3;4;4;5;4;5;5;6;4;5;5;6;5;6;6;7;2;3;3;4;3;4;4;5;3;4;4;5;4;5;5;6;3;4;4;5;4;5;5;6;4;5;5;6;5;6;6;7;3;4;4;5;4;5;5;6;4;5;5;6;5;6;6;7;4;5;5;6;5;6;6;7;5;6;6;7;6;7;7;8].

(** [while ((unsigned long)p & 3 && count)]: the bits so far and the bytes left. *)
Fixpoint count_unaligned (addr : Z) (s : list Z) (n : Z) : option (Z * list Z) :=
  match s with
  | [] => Some (n, [])
  | b :: s' =>
      if Z.land addr 3 =? 0 then Some (n, s)
      else k ← bitsinbyte !! Z.to_nat b; count_unaligned (addr + 1) s' (u64 (n + k))
  end.

Definition pair_sums (aux : Z) : Z :=
  let aux := u32 (aux - Z.land (Z.shiftr aux 1) 0x55555555) in
  u32 (Z.land aux 0x33333333 + Z.land (Z.shiftr aux 2) 0x33333333).

Definition nibble_sums (aux : Z) : Z := Z.land (u32 (aux + Z.shiftr aux 4)) 0x0F0F0F0F.

(** The bits of seven words. *)
Definition count_words (ws : list Z) : Z := Z.shiftr (u32 (u32 (foldr Z.add 0 ((λ w, nibble_sums (pair_sums w)) <$> ws)) * 0x01010101)) 24.

Fixpoint words (k : nat) (s : list Z) : list Z := match k with O => [] | S k => le_val (take 4 s) :: words k (drop 4 s) end.

(** [while (count >= 28)] *)
Fixpoint count_blocks (fuel : nat) (s : list Z) (n : Z) : Z * list Z :=
  match fuel with
  | O => (n, s)
  | S f => if decide (28 ≤ length s)%nat then count_blocks f (drop 28 s) (u64 (n + count_words (words 7 s))) else (n, s)
  end.

(** [while (count--)] *)
Fixpoint count_bytes (s : list Z) (n : Z) : option Z :=
  match s with [] => Some n | b :: s => k ← bitsinbyte !! Z.to_nat b; count_bytes s (u64 (n + k)) end.

(** [redisPopcount(s, count)], [s] the bytes at the address [addr]. *)
Definition redisPopcount (addr : Z) (s : list Z) : option Z :=
  '(n, s) ← count_unaligned addr s 0;
  let '(n, s) := count_blocks (length s) s n in
  count_bytes s n.

(** ** Searching *)

(** [while ((unsigned long)c & (sizeof( *l)-1) && count)]: found, the bytes left, the position. *)
Fixpoint skip_bytes (addr : Z) (s : list Z) (skipval pos : Z) : bool * list Z * Z :=
  match s with
  | [] => (false, [], pos)
  | b :: s' => if Z.land addr 7 =? 0 then (false, s, pos) else if negb (b =? skipval) then (true, s, pos) else skip_bytes (addr + 1) s' skipval (pos + 8)
  end.

(** [while (count >= sizeof( *l))] *)
Fixpoint skip_words (fuel : nat) (s : list Z) (skipval pos : Z) : list Z * Z :=
  match fuel with
  | O => (s, pos)
  | S f => if decide (8 ≤ length s)%nat then (if negb (le_val (take 8 s) =? skipval) then (s, pos) else skip_words f (drop 8 s) skipval (pos + 64)) else (s, pos)
  end.

(** [for (j = 0; j < sizeof( *l); j++)]: the next bytes in big endian, padded with zeros. *)
Fixpoint load_word (n : nat) (s : list Z) (word : Z) : Z :=
  match n with
  | O => word
  | S n => let word := u64 (Z.shiftl word 8) in match s with [] => load_word n [] word | b :: s => load_word n s (Z.lor word b) end
  end.

(** [while (one)]; [None] is the panic behind the loop. *)
Fixpoint scan_word (n : nat) (one word bit pos : Z) : option Z :=
  match n with
  | O => None
  | S n => if one =? 0 then None else if Z.b2z (negb (Z.land one word =? 0)) =? bit then Some pos else scan_word n (Z.shiftr one 1) word bit (pos + 1)
  end.

Definition redisBitpos (addr : Z) (s : list Z) (bit : Z) : option Z :=
  let '(found, s, pos) := skip_bytes addr s (if bit =? 0 then 255 else 0) 0 in
  let '(s, pos) := if found then (s, pos) else skip_words (length s) s (if bit =? 0 then 2 ^ 64 - 1 else 0) pos in
  let word := load_word 8 s 0 in
  if (bit =? 1) && (word =? 0) then Some (-1)
  else scan_word 65 (unot 64 (Z.shiftr (2 ^ 64 - 1) 1)) word bit pos.

(** ** Integers of 1 to 64 bits at any position *)

Fixpoint set_loop (n : nat) (p : list Z) (offset value : Z) : option (list Z) :=
  match n with
  | O => Some p
  | S n' =>
      let bitval := Z.b2z (negb (Z.land value (Z.shiftl 1 (Z.of_nat n')) =? 0)) in
      let byte := Z.shiftr offset 3 in
      let bit := 7 - Z.land offset 7 in
      byteval ← p !! Z.to_nat byte;
      let byteval := Z.land byteval (Z.lnot (Z.shiftl 1 bit)) in
      let byteval := Z.lor byteval (Z.shiftl bitval bit) in
      set_loop n' (<[Z.to_nat byte := Z.land byteval 255]> p) (u64 (offset + 1)) value
  end.

Definition setUnsignedBitfield (p : list Z) (offset nbits value : Z) : option (list Z) := set_loop (Z.to_nat nbits) p offset value.

Definition setSignedBitfield (p : list Z) (offset nbits value : Z) : option (list Z) := setUnsignedBitfield p offset nbits (u64 value).

Fixpoint get_loop (n : nat) (p : list Z) (offset value : Z) : option Z :=
  match n with
  | O => Some value
  | S n' =>
      byteval ← p !! Z.to_nat (Z.shiftr offset 3);
      let bitval := Z.land (Z.shiftr byteval (7 - Z.land offset 7)) 1 in
      get_loop n' p (u64 (offset + 1)) (Z.lor (u64 (Z.shiftl value 1)) bitval)
  end.

Definition getUnsignedBitfield (p : list Z) (offset nbits : Z) : option Z := get_loop (Z.to_nat nbits) p offset 0.

(** [((uint64_t)-1) << n] *)
Definition ones_above (n : Z) : option Z := if n <? 64 then Some (u64 (Z.shiftl (2 ^ 64 - 1) n)) else None.

Definition getSignedBitfield (p : list Z) (offset nbits : Z) : option Z :=
  u ← getUnsignedBitfield p offset nbits;
  if Z.land u (Z.shiftl 1 (nbits - 1)) =? 0 then Some (s64 u)
  else m ← ones_above nbits; Some (s64 (Z.lor u m)).

Inductive owtype := BFOVERFLOW_WRAP | BFOVERFLOW_SAT | BFOVERFLOW_FAIL.

#[global] Instance owtype_eq_dec : EqDecision owtype.
Proof. solve_decision. Defined.

(** The result and what is stored in [*limit]. The differences [maxincr] and
    [minincr] are computed with wrap-around. *)
Definition checkUnsignedBitfieldOverflow (value incr nbits : Z) (ow : owtype) : option (Z * option Z) :=
  let max := if nbits =? 64 then 2 ^ 64 - 1 else u64 (Z.shiftl 1 nbits) - 1 in
  let maxincr := s64 (max - value) in
  let minincr := s64 (- value) in
  let handle_wrap := mask ← ones_above nbits; Some (1, Some (Z.land (u64 (value + incr)) (unot 64 mask))) in
  if (max <? value) || ((0 <? incr) && (maxincr <? incr)) then
    match ow with BFOVERFLOW_WRAP => handle_wrap | BFOVERFLOW_SAT => Some (1, Some max) | BFOVERFLOW_FAIL => Some (1, None) end
  else if (incr <? 0) && (incr <? minincr) then
    match ow with BFOVERFLOW_WRAP => handle_wrap | BFOVERFLOW_SAT => Some (-1, Some 0) | BFOVERFLOW_FAIL => Some (-1, None) end
  else Some (0, None).

Definition checkSignedBitfieldOverflow (value incr nbits : Z) (ow : owtype) : option (Z * option Z) :=
  let max := if nbits =? 64 then 2 ^ 63 - 1 else Z.shiftl 1 (nbits - 1) - 1 in
  let min := - max - 1 in
  let maxincr := s64 (max - value) in
  let minincr := s64 (min - value) in
  let handle_wrap :=
    mask ← ones_above nbits;
    let msb := Z.shiftl 1 (nbits - 1) in
    let c := u64 (u64 value + u64 incr) in
    Some (1, Some (s64 (if Z.land c msb =? 0 then Z.land c (unot 64 mask) else Z.lor c mask))) in
  if (max <? value) || (negb (nbits =? 64) && (maxincr <? incr)) || ((0 <=? value) && (0 <? incr) && (maxincr <? incr)) then
    match ow with BFOVERFLOW_WRAP => handle_wrap | BFOVERFLOW_SAT => Some (1, Some max) | BFOVERFLOW_FAIL => Some (1, None) end
  else if (value <? min) || (negb (nbits =? 64) && (incr <? minincr)) || ((value <? 0) && (incr <? 0) && (incr <? minincr)) then
    match ow with BFOVERFLOW_WRAP => handle_wrap | BFOVERFLOW_SAT => Some (-1, Some min) | BFOVERFLOW_FAIL => Some (-1, None) end
  else Some (0, None).

Example popcount_ex : redisPopcount 1 (replicate 40 0xA7) = Some 200. Proof. vm_compute. reflexivity. Qed.
Example bitpos_ex : redisBitpos 3 (replicate 20 0 ++ [0x10; 255]) 1 = Some 163. Proof. vm_compute. reflexivity. Qed.
Example field_ex : setUnsignedBitfield [0; 0] 7 5 23 = Some [1; 0x70]. Proof. vm_compute. reflexivity. Qed.

(** ** The bitmap of a string *)

Lemma byte_bits_length b : length (byte_bits b) = 8%nat.
Proof. done. Qed.

Lemma bits_cons b s : bits (b :: s) = byte_bits b ++ bits s.
Proof. done. Qed.

Lemma bits_app s t : bits (s ++ t) = bits s ++ bits t.
Proof. unfold bits. by rewrite fmap_app, concat_app. Qed.

Lemma length_bits s : length (bits s) = (8 * length s)%nat.
Proof. induction s as [|b s IH]; [done|]. rewrite bits_cons, length_app, IH, byte_bits_length. simpl. lia. Qed.

Lemma byte_bits_lookup b i : (i < 8)%nat → byte_bits b !! i = Some (Z.testbit b (7 - Z.of_nat i)).
Proof. intros Hi. unfold byte_bits. by rewrite list_lookup_fmap, lookup_seq_lt. Qed.

Lemma bits_lookup s i b : s !! (i / 8)%nat = Some b → bits s !! i = Some (Z.testbit b (7 - Z.of_nat i `mod` 8)).
Proof.
  revert i. induction s as [|c s IH]; intros i Hi; [done|]. rewrite bits_cons. pose proof (Nat.div_mod_eq i 8) as E. pose proof (Nat.mod_upper_bound i 8 ltac:(lia)) as Hm. destruct (decide (i < 8)%nat) as [Hl|Hl].
  - rewrite Nat.div_small in Hi by done. injection Hi as ->. rewrite lookup_app_l by done. rewrite byte_bits_lookup by done. rewrite Z.mod_small by lia. done.
  - rewrite lookup_app_r by (rewrite byte_bits_length; lia). rewrite byte_bits_length. rewrite (IH (i - 8)%nat).
    + do 3 f_equal. rewrite Nat2Z.inj_sub by lia. apply (Z.mod_unique_pos _ _ ((Z.of_nat i - 8) `div` 8 + 1)); pose proof (Z.mod_pos_bound (Z.of_nat i - 8) 8 ltac:(lia)); pose proof (Z.div_mod (Z.of_nat i - 8) 8 ltac:(lia)); lia.
    + destruct (i / 8)%nat as [|k] eqn:Ek; [lia|]. assert ((i - 8) / 8 = k)%nat as -> by (symmetry; apply (Nat.div_unique _ _ _ (i mod 8)%nat); lia). done.
Qed.

Lemma bits_replicate k b : bits (replicate k b) = concat (replicate k (byte_bits b)).
Proof. unfold bits. by rewrite fmap_replicate. Qed.

(** A property of every byte, by enumeration. *)
Lemma byte_cases (P : Z → bool) : forallb (λ i, P (Z.of_nat i)) (seq 0 256) = true → ∀ b, byte_ok b → P b = true.
Proof.
  intros H b Hb. rewrite forallb_forall in H. unfold in_u in Hb. simpl in Hb. specialize (H (Z.to_nat b)). rewrite Z2Nat.id in H by lia. apply H, in_seq. lia.
Qed.

(** ** Counting *)

Definition pop8 (b : Z) : Z := ones_in (byte_bits b).

Lemma ones_in_app l l' : ones_in (l ++ l') = ones_in l + ones_in l'.
Proof. induction l as [|b l IH]; simpl; [done|]. rewrite IH. lia. Qed.

Lemma ones_in_range l : 0 ≤ ones_in l ≤ Z.of_nat (length l).
Proof. induction l as [|[] l IH]; simpl; lia. Qed.

Lemma ones_cons b s : ones_in (bits (b :: s)) = pop8 b + ones_in (bits s).
Proof. by rewrite bits_cons, ones_in_app. Qed.

Lemma ones_bits_range s : 0 ≤ ones_in (bits s) ≤ 8 * Z.of_nat (length s).
Proof. pose proof (ones_in_range (bits s)) as H. rewrite length_bits in H. lia. Qed.

Lemma table_spec b : byte_ok b → bitsinbyte !! Z.to_nat b = Some (pop8 b).
Proof. intros Hb. apply (bool_decide_unpack _), Is_true_true. revert b Hb. apply (byte_cases (λ b, bool_decide (bitsinbyte !! Z.to_nat b = Some (pop8 b)))). vm_compute. reflexivity. Qed.

Lemma mask_bytes bs k m : Forall byte_ok bs → 0 ≤ k ≤ 8 → 0 ≤ m < 2 ^ (8 - k) →
  Z.land (Z.shiftr (le_val bs) k) (le_val (replicate (length bs) m)) = le_val ((λ b, Z.land (Z.shiftr b k) m) <$> bs).
Proof.
  intros Hbs Hk Hm. induction Hbs as [|b bs Hb Hbs IH]; [simpl; by rewrite Z.shiftr_0_l|]. cbn [le_val length replicate fmap list_fmap]. rewrite <- IH. pose proof (le_val_range bs Hbs) as Hr.
  assert (0 ≤ le_val (replicate (length bs) m)) as HM. { apply le_val_range. apply Forall_replicate. split; [lia|]. apply Z.lt_le_trans with (2 ^ (8 - k)); [lia|]. apply Z.pow_le_mono_r; lia. }
  assert (0 ≤ m < 2 ^ 8) as Hm8 by (split; [lia|]; apply Z.lt_le_trans with (2 ^ (8 - k)); [lia|]; apply Z.pow_le_mono_r; lia).
  change 256 with (2 ^ 8). rewrite <- (le_val_lor b (le_val bs) 8), <- (le_val_lor m _ 8) by (done || lia). rewrite <- le_val_lor; [|lia|apply (land_range_r _ m 8); [lia|exact Hm8]].
  apply Z.bits_inj'. intros i Hi. rewrite !Z.land_spec, !Z.lor_spec, !Z.shiftr_spec, !Z.lor_spec by lia. destruct (decide (i < 8)) as [Hl|Hl].
  - rewrite !(Z.shiftl_spec_low _ 8 i), !orb_false_r by done. rewrite Z.land_spec, Z.shiftr_spec by lia. destruct (decide (i + k < 8)) as [Hik|Hik].
    + by rewrite (Z.shiftl_spec_low _ 8 (i + k)), orb_false_r by done.
    + assert (Z.testbit m i = false) as ->; [|by rewrite !andb_false_r]. apply (testbit_above m (8 - k)); [exact Hm|lia].
  - rewrite !(Z.shiftl_spec _ 8) by lia. rewrite (testbit_above b 8 (i + k)), (testbit_above m 8 i) by (done || lia). rewrite Z.land_spec, (testbit_above m 8 i), andb_false_r by (done || lia). simpl. rewrite Z.land_spec, Z.shiftr_spec by lia. do 2 f_equal. lia.
Qed.

Lemma le_val_sum (f g : Z → Z) bs : le_val (f <$> bs) + le_val (g <$> bs) = le_val ((λ b, f b + g b) <$> bs).
Proof. induction bs as [|b bs IH]; [done|]. rewrite !fmap_cons. cbn [le_val]. rewrite <- IH. lia. Qed.

Lemma le_val_diff (f : Z → Z) bs : le_val bs - le_val (f <$> bs) = le_val ((λ b, b - f b) <$> bs).
Proof. induction bs as [|b bs IH]; [done|]. rewrite !fmap_cons. cbn [le_val]. rewrite <- IH. lia. Qed.

Definition sums2 (b : Z) : Z := b - Z.land (Z.shiftr b 1) 0x55.
Definition sums4 (b : Z) : Z := Z.land (sums2 b) 0x33 + Z.land (Z.shiftr (sums2 b) 2) 0x33.

Lemma word_range bs : Forall byte_ok bs → length bs = 4%nat → in_u 32 (le_val bs).
Proof. intros H Hl. pose proof (le_val_range bs H) as Hr. rewrite Hl in Hr. exact Hr. Qed.

Lemma byte_prop (P : Z → Prop) `{∀ b, Decision (P b)} : forallb (λ i, bool_decide (P (Z.of_nat i))) (seq 0 256) = true → ∀ b, byte_ok b → P b.
Proof. intros E b Hb. apply (bool_decide_unpack _), Is_true_true. revert b Hb. by apply (byte_cases (λ b, bool_decide (P b))). Qed.

Lemma pair_sums_bytes bs : Forall byte_ok bs → length bs = 4%nat → pair_sums (le_val bs) = le_val (sums4 <$> bs).
Proof.
  intros Hbs Hl. unfold pair_sums. change 0x55555555 with (le_val (replicate 4 0x55)). change 0x33333333 with (le_val (replicate 4 0x33)). rewrite <- Hl. rewrite mask_bytes by (done || lia). rewrite le_val_diff.
  assert (Forall byte_ok (sums2 <$> bs)) as H2. { apply Forall_fmap. eapply Forall_impl; [exact Hbs|]. apply (byte_prop (λ b, byte_ok (sums2 b))). vm_compute. reflexivity. }
  assert (Forall byte_ok (sums4 <$> bs)) as H4. { apply Forall_fmap. eapply Forall_impl; [exact Hbs|]. apply (byte_prop (λ b, byte_ok (sums4 b))). vm_compute. reflexivity. }
  change (λ b : Z, b - Z.land (b ≫ 1) 0x55) with sums2. rewrite (uwrap_small 32 (le_val (sums2 <$> bs))) by (apply word_range; [done|by rewrite length_fmap]).
  replace (length bs) with (length (sums2 <$> bs)) by apply length_fmap. rewrite (mask_bytes (sums2 <$> bs) 2) by (done || lia). rewrite <- (Z.shiftr_0_r (le_val (sums2 <$> bs))) at 1. rewrite (mask_bytes (sums2 <$> bs) 0) by (done || lia).
  rewrite le_val_sum, <- list_fmap_compose. rewrite uwrap_small; [done|]. apply word_range; [exact H4|by rewrite length_fmap].
Qed.

(** The nibbles of a byte are at most 4 after the first two steps. *)
Definition low_nibbles (c : Z) : Prop := byte_ok c ∧ Z.land c 15 ≤ 4 ∧ Z.shiftr c 4 ≤ 4.

Lemma nibble_bytes cs : Forall low_nibbles cs → Z.land (le_val cs + Z.shiftr (le_val cs) 4) (le_val (replicate (length cs) 15)) = le_val ((λ c, Z.land (c + Z.shiftr c 4) 15) <$> cs) ∧ le_val cs `mod` 16 ≤ 4.
Proof.
  induction 1 as [|c cs (Hc & Hlo & Hhi) Hcs [IH IHm]]; [done|]. cbn [le_val length replicate fmap list_fmap]. assert (Forall byte_ok cs) as Hok by (eapply Forall_impl; [exact Hcs|]; by intros ? []). pose proof (le_val_range cs Hok) as Hr.
  rewrite <- IH. set (H := le_val cs) in *. unfold in_u in Hc. change (2 ^ 8) with 256 in Hc. rewrite Z.shiftr_div_pow2 in * by lia. change (2 ^ 4) with 16 in *. change 15 with (Z.ones 4) in Hlo. rewrite Z.land_ones in Hlo by lia. change (2 ^ 4) with 16 in Hlo. split.
  - pose proof (Z.div_mod H 16 ltac:(lia)) as Ed. pose proof (Z.mod_pos_bound H 16 ltac:(lia)) as Hm. pose proof (Z.div_mod c 16 ltac:(lia)) as Ec. pose proof (Z.mod_pos_bound c 16 ltac:(lia)) as Hcm.
    assert ((c + 256 * H) `div` 16 = c `div` 16 + 16 * H) as ->. { replace (c + 256 * H) with (c + 16 * H * 16) by lia. rewrite Z.div_add by lia. lia. }
    replace (c + 256 * H + (c `div` 16 + 16 * H)) with (c + c `div` 16 + 16 * (H `mod` 16) + 2 ^ 8 * (H + H `div` 16)) by lia. set (M := le_val (replicate (length cs) 15)). assert (0 ≤ M) as HM by (apply le_val_range, Forall_replicate; done).
    change (15 + 256 * M) with (15 + 2 ^ 8 * M). set (L := c + c `div` 16 + 16 * (H `mod` 16)). assert (0 ≤ L < 2 ^ 8) as HL by (unfold L; simpl; lia).
    assert (0 ≤ H `div` 16) as Hd by (apply Z.div_pos; lia). rewrite <- (le_val_lor L), <- (le_val_lor 15) by lia. assert (Z.land L 15 = Z.land (c + c `div` 16) 15) as EL.
    { change 15 with (Z.ones 4). rewrite !Z.land_ones by lia. change (2 ^ 4) with 16. unfold L. replace (16 * (H `mod` 16)) with (H `mod` 16 * 16) by lia. by rewrite Z.mod_add by lia. }
    rewrite !Z.shiftr_div_pow2 by lia. change (2 ^ 4) with 16. rewrite <- EL. change (256 * Z.land (H + H `div` 16) M) with (2 ^ 8 * Z.land (H + H `div` 16) M). rewrite <- le_val_lor; [|lia|apply (land_range_r _ 15 8); [lia|done]].
    apply Z.bits_inj'. intros i Hi. rewrite !Z.land_spec, !Z.lor_spec. destruct (decide (i < 8)) as [Hl|Hl].
    + rewrite !(Z.shiftl_spec_low _ 8 i), !orb_false_r by done. by rewrite Z.land_spec.
    + rewrite !(Z.shiftl_spec _ 8) by lia. rewrite (testbit_above L 8 i), (testbit_above 15 8 i) by (done || lia). rewrite Z.land_spec, (testbit_above 15 8 i), andb_false_r by (done || lia). simpl. by rewrite Z.land_spec.
  - replace (c + 256 * H) with (c + 16 * H * 16) by lia. rewrite Z.mod_add by lia. done.
Qed.

Lemma word_count bs : Forall byte_ok bs → length bs = 4%nat → nibble_sums (pair_sums (le_val bs)) = le_val (pop8 <$> bs).
Proof.
  intros Hbs Hl. rewrite pair_sums_bytes by done. unfold nibble_sums. assert (Forall low_nibbles (sums4 <$> bs)) as Hn.
  { apply Forall_fmap. eapply Forall_impl; [exact Hbs|]. apply (byte_prop (λ b, low_nibbles (sums4 b))). vm_compute. reflexivity. }
  assert (Forall (λ c, 0 ≤ c ≤ 0x44) (sums4 <$> bs)) as Hs. { apply Forall_fmap. eapply Forall_impl; [exact Hbs|]. apply (byte_prop (λ b, 0 ≤ sums4 b ≤ 0x44)). vm_compute. reflexivity. }
  destruct (nibble_bytes _ Hn) as [E _]. rewrite length_fmap, Hl in E. change 0x0F0F0F0F with (le_val (replicate 4 15)). rewrite uwrap_small.
  - rewrite E, <- list_fmap_compose. f_equal. apply list_fmap_ext. intros i b Hb. apply (Forall_lookup_1 _ _ _ _ Hbs) in Hb. revert b Hb. apply (byte_prop (λ b, Z.land (sums4 b + Z.shiftr (sums4 b) 4) 15 = pop8 b)). vm_compute. reflexivity.
  - destruct bs as [|a [|b [|c [|d [|]]]]]; try done. repeat (apply Forall_cons in Hs as [? Hs]). set (w := le_val _). assert (0 ≤ w ≤ 0x44444444) as Hw by (unfold w; cbn [fmap list_fmap le_val]; lia).
    rewrite Z.shiftr_div_pow2 by lia. assert (0 ≤ w `div` 2 ^ 4 ≤ w) by (split; [apply Z.div_pos; lia|apply Z.div_le_upper_bound; lia]). split; lia.
Qed.

Lemma words_count k s : Forall byte_ok s → (4 * k ≤ length s)%nat → ∃ a b c d, foldr Z.add 0 ((λ w, nibble_sums (pair_sums w)) <$> words k s) = le_val [a; b; c; d] ∧
  (0 ≤ a ≤ 8 * Z.of_nat k ∧ 0 ≤ b ≤ 8 * Z.of_nat k ∧ 0 ≤ c ≤ 8 * Z.of_nat k ∧ 0 ≤ d ≤ 8 * Z.of_nat k) ∧ a + b + c + d = ones_in (bits (take (4 * k) s)).
Proof.
  revert s. induction k as [|k IH]; intros s Hs Hl.
  { exists 0, 0, 0, 0. split_and!; (done || lia). }
  destruct s as [|x0 [|x1 [|x2 [|x3 s]]]]; try (simpl in Hl; lia). assert (Hs0 := Hs). repeat (apply Forall_cons in Hs as [? Hs]). destruct (IH s Hs) as (a & b & c & d & E & (Ha & Hb & Hc & Hd) & Hsum); [simpl in Hl; lia|].
  exists (pop8 x0 + a), (pop8 x1 + b), (pop8 x2 + c), (pop8 x3 + d). replace (4 * S k)%nat with (S (S (S (S (4 * k))))) by lia. cbn [words]. change (drop 4 (x0 :: x1 :: x2 :: x3 :: s)) with s. change (take 4 (x0 :: x1 :: x2 :: x3 :: s)) with [x0; x1; x2; x3]. rewrite fmap_cons. cbn [foldr]. rewrite word_count; [|by rewrite !Forall_cons|done]. rewrite E.
  assert (∀ x, 0 ≤ pop8 x ≤ 8) as Hp. { intros x. pose proof (ones_in_range (byte_bits x)) as Hx. rewrite byte_bits_length in Hx. unfold pop8. lia. } pose proof (Hp x0). pose proof (Hp x1). pose proof (Hp x2). pose proof (Hp x3).
  split_and!; try lia; [cbn [fmap list_fmap le_val]; lia|]. rewrite !firstn_cons, !ones_cons. lia.
Qed.

Lemma block_count s : Forall byte_ok s → (28 ≤ length s)%nat → count_words (words 7 s) = ones_in (bits (take 28 s)).
Proof.
  intros Hs Hl. destruct (words_count 7 s Hs) as (a & b & c & d & E & (Ha & Hb & Hc & Hd) & Hsum); [lia|]. unfold count_words. rewrite E. change (4 * 7)%nat with 28%nat in Hsum. rewrite <- Hsum. rewrite (uwrap_small 32 (le_val [a; b; c; d])) by (split; cbn [le_val]; lia). cbn [le_val]. rewrite Z.shiftr_div_pow2 by lia. unfold uwrap. simpl Z.pow.
  symmetry. apply (Z.div_unique _ _ _ (a + 256 * (a + b) + 65536 * (a + b + c))); [left; lia|].
  rewrite (Z.mod_eq _ 4294967296) by lia. set (p := _ * 16843009). assert (p `div` 4294967296 = (b + c + d) + 256 * (c + d) + 65536 * d) as ->; [|unfold p; lia].
  symmetry. apply (Z.div_unique _ _ _ (a + 256 * (a + b) + 65536 * (a + b + c) + 16777216 * (a + b + c + d))); [left; lia|unfold p; lia].
Qed.

Lemma count_unaligned_ok addr s n : Forall byte_ok s → 0 ≤ n → n + 8 * Z.of_nat (length s) < 2 ^ 64 →
  ∃ n' s', count_unaligned addr s n = Some (n', s') ∧ Forall byte_ok s' ∧ n ≤ n' ∧ n' + ones_in (bits s') = n + ones_in (bits s) ∧ n' + 8 * Z.of_nat (length s') ≤ n + 8 * Z.of_nat (length s).
Proof.
  intros Hs. revert addr n. induction Hs as [|b s Hb Hs IH]; intros addr n Hn Hlt; cbn [count_unaligned].
  { exists n, []. split_and!; (done || lia). }
  destruct (Z.land addr 3 =? 0). { exists n, (b :: s). split_and!; try lia; [done|by constructor]. }
  rewrite (table_spec b Hb). cbn [mbind option_bind]. pose proof (ones_in_range (byte_bits b)) as Hp. rewrite byte_bits_length in Hp. change (ones_in (byte_bits b)) with (pop8 b) in Hp. cbn [length] in *. rewrite uwrap_small by (split; lia).
  destruct (IH (addr + 1) (n + pop8 b)) as (n' & s' & E & Hs' & Hle & Hsum & Hlen); [lia|lia|]. exists n', s'. rewrite ones_cons. split_and!; (done || lia).
Qed.

Lemma count_blocks_ok f s n : Forall byte_ok s → 0 ≤ n → n + 8 * Z.of_nat (length s) < 2 ^ 64 →
  ∃ n' s', count_blocks f s n = (n', s') ∧ Forall byte_ok s' ∧ n ≤ n' ∧ n' + ones_in (bits s') = n + ones_in (bits s) ∧ n' + 8 * Z.of_nat (length s') ≤ n + 8 * Z.of_nat (length s).
Proof.
  revert s n. induction f as [|f IH]; intros s n Hs Hn Hlt; cbn [count_blocks]; [exists n, s; split_and!; (done || lia)|]. destruct (decide (28 ≤ length s)%nat) as [Hl|]; [|exists n, s; split_and!; (done || lia)].
  rewrite (block_count s Hs Hl). assert (ones_in (bits s) = ones_in (bits (take 28 s)) + ones_in (bits (drop 28 s))) as -> by (by rewrite <- ones_in_app, <- bits_app, take_drop).
  pose proof (ones_bits_range (take 28 s)) as Hr. rewrite length_take, Nat.min_l in Hr by lia. rewrite uwrap_small by (split; lia).
  destruct (IH (drop 28 s) (n + ones_in (bits (take 28 s)))) as (n' & s' & E & Hs' & Hle & Hsum & Hlen); [by apply Forall_drop|lia|rewrite length_drop; lia|]. rewrite length_drop in Hlen. exists n', s'. split_and!; (done || lia).
Qed.

Lemma count_bytes_ok s n : Forall byte_ok s → 0 ≤ n → n + 8 * Z.of_nat (length s) < 2 ^ 64 → count_bytes s n = Some (n + ones_in (bits s)).
Proof.
  intros Hs. revert n. induction Hs as [|b s Hb Hs IH]; intros n Hn Hlt; cbn [count_bytes]; [by rewrite Z.add_0_r|]. rewrite (table_spec b Hb). cbn [mbind option_bind]. pose proof (ones_in_range (byte_bits b)) as Hp. rewrite byte_bits_length in Hp. change (ones_in (byte_bits b)) with (pop8 b) in Hp. cbn [length] in *.
  rewrite uwrap_small by (split; lia). rewrite IH by lia. rewrite ones_cons. f_equal. lia.
Qed.

Lemma popcount_ok addr s : Forall byte_ok s → Z.of_nat (length s) < 2 ^ 60 → redisPopcount addr s = Some (ones_in (bits s)).
Proof.
  intros Hs Hl. unfold redisPopcount. destruct (count_unaligned_ok addr s 0 Hs) as (n1 & s1 & -> & Hs1 & Hn1 & Hsum1 & Hlen1); [lia|lia|]. cbn [mbind option_bind].
  destruct (count_blocks_ok (length s1) s1 n1 Hs1) as (n2 & s2 & -> & Hs2 & Hn2 & Hsum2 & Hlen2); [lia|lia|]. rewrite count_bytes_ok by (done || lia). f_equal. lia.
Qed.

(** ** Searching *)

(** The index of the first [b]. *)
Fixpoint first_bit (b : bool) (l : list bool) : option nat :=
  match l with [] => None | x :: l => if Bool.eqb x b then Some 0%nat else S <$> first_bit b l end.

Lemma first_bit_app_some b l l' i : first_bit b l = Some i → first_bit b (l ++ l') = Some i.
Proof. revert i. induction l as [|x l IH]; intros i H; simpl in *; [done|]. destruct (Bool.eqb x b); [done|]. destruct (first_bit b l); [|done]. by rewrite (IH _ eq_refl). Qed.

Lemma first_bit_app_none b l l' : first_bit b l = None → first_bit b (l ++ l') = (λ i, length l + i)%nat <$> first_bit b l'.
Proof. induction l as [|x l IH]; intros H; simpl in *; [by destruct (first_bit b l')|]. destruct (Bool.eqb x b); [done|]. destruct (first_bit b l); [done|]. rewrite (IH eq_refl). by destruct (first_bit b l'). Qed.

Lemma first_bit_none b l : first_bit b l = None ↔ Forall (λ x, x = negb b) l.
Proof.
  induction l as [|x l IH]; simpl; [split; [constructor|done]|]. rewrite Forall_cons, <- IH. destruct (Bool.eqb_spec x b) as [->|Hx].
  - split; [done|]. intros [E _]. by destruct b.
  - destruct (first_bit b l); simpl; split; try done; intros; [naive_solver|]. split; [|done]. by destruct x, b.
Qed.

Definition skip (b : bool) : Z := if b then 0 else 255.

Lemma skip_bits b k : first_bit b (bits (replicate k (skip b))) = None.
Proof.
  apply first_bit_none. rewrite bits_replicate. apply Forall_concat, Forall_replicate. destruct b; by repeat constructor.
Qed.

Lemma other_bits b x : byte_ok x → x ≠ skip b → first_bit b (byte_bits x) ≠ None.
Proof.
  assert (∀ x, byte_ok x → x ≠ skip true → first_bit true (byte_bits x) ≠ None) as H1 by (apply (byte_prop (λ x, x ≠ skip true → first_bit true (byte_bits x) ≠ None)); vm_compute; reflexivity).
  assert (∀ x, byte_ok x → x ≠ skip false → first_bit false (byte_bits x) ≠ None) as H0 by (apply (byte_prop (λ x, x ≠ skip false → first_bit false (byte_bits x) ≠ None)); vm_compute; reflexivity).
  destruct b; auto.
Qed.

Lemma skip_bytes_ok b addr s pos : ∃ k s' found, skip_bytes addr s (skip b) pos = (found, s', pos + 8 * Z.of_nat k) ∧ s = replicate k (skip b) ++ s' ∧ (found = true → ∃ x t, s' = x :: t ∧ x ≠ skip b).
Proof.
  revert addr pos. induction s as [|x s IH]; intros addr pos; cbn [skip_bytes].
  { exists 0%nat, [], false. split_and!; try done. f_equal. lia. }
  destruct (Z.land addr 7 =? 0). { exists 0%nat, (x :: s), false. split_and!; try done. f_equal. lia. }
  destruct (Z.eqb_spec x (skip b)) as [->|Hx]; simpl negb; cbv iota.
  - destruct (IH (addr + 1) (pos + 8)) as (k & s' & found & -> & -> & Hf). exists (S k), s', found. split_and!; try done. f_equal. lia.
  - exists 0%nat, (x :: s), true. split_and!; [f_equal; lia|done|]. intros _. by exists x, s.
Qed.

Definition skip_word (b : bool) : Z := if b then 0 else 2 ^ 64 - 1.

Lemma le_val_eq bs bs' : Forall byte_ok bs → Forall byte_ok bs' → length bs = length bs' → le_val bs = le_val bs' → bs = bs'.
Proof. intros H H' Hl E. rewrite <- (le_bytes_val bs H), <- (le_bytes_val bs' H'). by rewrite E, Hl. Qed.

Lemma skip_words_ok b f s pos : Forall byte_ok s → (length s ≤ f)%nat → ∃ k s', skip_words f s (skip_word b) pos = (s', pos + 8 * Z.of_nat k) ∧ s = replicate k (skip b) ++ s' ∧
  ((length s' < 8)%nat ∨ (8 ≤ length s')%nat ∧ take 8 s' ≠ replicate 8 (skip b)).
Proof.
  revert s pos. induction f as [|f IH]; intros s pos Hs Hf; cbn [skip_words].
  { exists 0%nat, s. split_and!; [f_equal; lia|done|left; lia]. }
  destruct (decide (8 ≤ length s)%nat) as [Hl|Hl]; [|exists 0%nat, s; split_and!; [f_equal; lia|done|left; lia]].
  assert (le_val (replicate 8 (skip b)) = skip_word b) as Esk by (by destruct b).
  destruct (Z.eqb_spec (le_val (take 8 s)) (skip_word b)) as [E|E]; simpl negb; cbv iota.
  - assert (take 8 s = replicate 8 (skip b)) as Et. { apply le_val_eq; [by apply Forall_take|apply Forall_replicate; by destruct b|rewrite length_take, length_replicate; lia|congruence]. }
    destruct (IH (drop 8 s) (pos + 64)) as (k & s' & -> & Ed & Hend); [by apply Forall_drop|rewrite length_drop; lia|]. exists (8 + k)%nat, s'. split_and!; [f_equal; lia| |done].
    rewrite replicate_add, <- app_assoc, <- Ed, <- Et. by rewrite take_drop.
  - exists 0%nat, s. split_and!; [f_equal; lia|done|]. right. split; [done|]. congruence.
Qed.

Lemma bin_val_from v l : foldl (λ v b, 2 * v + Z.b2z b) v l = v * 2 ^ Z.of_nat (length l) + bin_val l.
Proof.
  revert v. unfold bin_val. induction l as [|b l IH] using rev_ind; intros v; simpl; [lia|]. rewrite !foldl_app. simpl. rewrite IH. rewrite length_app. simpl. rewrite Nat2Z.inj_add, Z.pow_add_r by lia. change (2 ^ Z.of_nat 1) with 2. lia.
Qed.

Lemma bin_val_app l l' : bin_val (l ++ l') = bin_val l * 2 ^ Z.of_nat (length l') + bin_val l'.
Proof. unfold bin_val at 1. rewrite foldl_app. apply bin_val_from. Qed.

Lemma bin_val_range l : 0 ≤ bin_val l < 2 ^ Z.of_nat (length l).
Proof.
  induction l as [|b l IH] using rev_ind; [done|]. rewrite bin_val_app, length_app. simpl length. rewrite Nat2Z.inj_add, Z.pow_add_r by lia. change (2 ^ Z.of_nat 1) with 2. destruct b; cbn; lia.
Qed.

Lemma bin_val_bit l i b : l !! i = Some b → Z.testbit (bin_val l) (Z.of_nat (length l) - 1 - Z.of_nat i) = b.
Proof.
  revert i. induction l as [|x l IH] using rev_ind; intros i Hi; [done|]. rewrite bin_val_app, length_app. simpl length. change (2 ^ Z.of_nat 1) with 2. assert (bin_val [x] = Z.b2z x) as -> by (by destruct x). rewrite Z.mul_comm.
  pose proof (lookup_lt_Some _ _ _ Hi) as Hlt. rewrite length_app in Hlt. simpl in Hlt. destruct (decide (i < length l)%nat) as [Hl|Hl].
  - rewrite lookup_app_l in Hi by done. rewrite <- (IH i Hi). replace (Z.of_nat (length l + 1) - 1 - Z.of_nat i) with (Z.succ (Z.of_nat (length l) - 1 - Z.of_nat i)) by lia. destruct x; simpl Z.b2z; [apply Z.testbit_odd_succ; lia|]. rewrite Z.add_0_r. apply Z.testbit_even_succ. lia.
  - assert (i = length l) as -> by lia. rewrite lookup_app_r, Nat.sub_diag in Hi by lia. injection Hi as <-. replace (Z.of_nat (length l + 1) - 1 - Z.of_nat (length l)) with 0 by lia. destruct x; simpl Z.b2z; [apply Z.testbit_odd_0|rewrite Z.add_0_r; apply Z.testbit_even_0].
Qed.

Lemma byte_val x : byte_ok x → bin_val (byte_bits x) = x.
Proof. revert x. apply (byte_prop (λ x, bin_val (byte_bits x) = x)). vm_compute. reflexivity. Qed.

Lemma load_word_ok n s w : Forall byte_ok s → 0 ≤ w → (w + 1) * 2 ^ (8 * Z.of_nat n) ≤ 2 ^ 64 →
  load_word n s w = w * 2 ^ (8 * Z.of_nat n) + bin_val (take (8 * n) (bits s ++ replicate (8 * n) false)).
Proof.
  revert s w. induction n as [|n IH]; intros s w Hs Hw Hlt; [unfold bin_val; simpl; lia|]. cbn [load_word]. replace (8 * Z.of_nat (S n)) with (8 * Z.of_nat n + 8) in * by lia. rewrite Z.pow_add_r in * by lia.
  pose proof (Z.pow_pos_nonneg 2 (8 * Z.of_nat n) ltac:(lia) ltac:(lia)) as Hp. rewrite Z.shiftl_mul_pow2 by lia. change (2 ^ 8) with 256 in *.
  rewrite (uwrap_small 64) by (split; nia). replace (8 * S n)%nat with (8 + 8 * n)%nat by lia. destruct s as [|x s].
  - rewrite IH by (done || nia). rewrite replicate_add. change (bits [] ++ ?l) with l. rewrite take_app_add' by done. rewrite bin_val_app. change (bin_val (replicate 8 false)) with 0. lia.
  - apply Forall_cons in Hs as [Hx Hs]. assert (Z.lor (w * 256) x = w * 256 + x) as ->. { rewrite Z.lor_comm. change (w * 256) with (w * 2 ^ 8). rewrite <- (Z.shiftl_mul_pow2 w 8) by lia. rewrite le_val_lor by (done || lia). rewrite Z.shiftl_mul_pow2 by lia. lia. }
    unfold in_u in Hx. change (2 ^ 8) with 256 in Hx. rewrite IH by (done || nia). rewrite bits_cons, <- app_assoc, take_app_add' by done. rewrite bin_val_app, (byte_val x Hx).
    rewrite length_take, length_app, length_replicate, Nat.min_l by lia. replace (Z.of_nat (8 * n)) with (8 * Z.of_nat n) by lia. assert (take (8 * n) (bits s ++ replicate (8 + 8 * n) false) = take (8 * n) (bits s ++ replicate (8 * n) false)) as ->; [|lia].
    rewrite (Nat.add_comm 8), replicate_add, app_assoc. apply take_app_le. rewrite length_app, length_replicate. lia.
Qed.

Lemma land_pow2 k w : 0 ≤ k → negb (Z.land (2 ^ k) w =? 0) = Z.testbit w k.
Proof.
  intros Hk. destruct (Z.testbit w k) eqn:Hb.
  - apply negb_true_iff, Z.eqb_neq. intros E. apply (f_equal (λ z, Z.testbit z k)) in E. rewrite Z.land_spec, Z.pow2_bits_true, Hb, Z.bits_0 in E by lia. done.
  - apply negb_false_iff, Z.eqb_eq, Z.bits_inj'. intros j Hj. rewrite Z.land_spec, Z.bits_0, Z.pow2_bits_eqb by lia. destruct (Z.eqb_spec k j) as [<-|]; [by rewrite Hb|done].
Qed.

Lemma scan_word_ok n l b i pos : length l = 64%nat → (i ≤ 64)%nat → (64 < n + i)%nat → first_bit b (drop i l) ≠ None →
  scan_word n (2 ^ (63 - Z.of_nat i)) (bin_val l) (Z.b2z b) pos = (λ j, pos + Z.of_nat j) <$> first_bit b (drop i l).
Proof.
  intros Hl. revert i pos. induction n as [|n IH]; intros i pos Hi Hn Hne; [lia|]. cbn [scan_word]. destruct (decide (i = 64%nat)) as [->|Hi'].
  { by rewrite drop_ge in Hne by lia. }
  destruct (lookup_lt_is_Some_2 l i) as [x Hx]; [lia|]. rewrite (drop_S _ _ _ Hx) in *. cbn [first_bit] in *. pose proof (Z.pow_pos_nonneg 2 (63 - Z.of_nat i) ltac:(lia) ltac:(lia)) as Hp. rewrite (proj2 (Z.eqb_neq _ 0)) by lia.
  pose proof (bin_val_bit l i x Hx) as Hb. rewrite Hl in Hb. replace (Z.of_nat 64 - 1 - Z.of_nat i) with (63 - Z.of_nat i) in Hb by lia. rewrite land_pow2, Hb by lia.
  assert ((Z.b2z x =? Z.b2z b) = Bool.eqb x b) as -> by (by destruct x, b). destruct (Bool.eqb x b); [simpl; f_equal; lia|].
  destruct (decide (i = 63%nat)) as [->|].
  { rewrite drop_ge in Hne by lia. done. }
  rewrite Z.shiftr_div_pow2 by lia. change (2 ^ 1) with 2. replace (2 ^ (63 - Z.of_nat i) `div` 2) with (2 ^ (63 - Z.of_nat (S i))).
  2: { replace (63 - Z.of_nat i) with (63 - Z.of_nat (S i) + 1) by lia. rewrite Z.pow_add_r by lia. change (2 ^ 1) with 2. by rewrite Z.div_mul by lia. }
  rewrite IH by (try lia; destruct (first_bit b (drop (S i) l)); done). destruct (first_bit b (drop (S i) l)); simpl; [f_equal; lia|done].
Qed.

Lemma first_bit_lookup b l i : first_bit b l = Some i → l !! i = Some b.
Proof. revert i. induction l as [|x l IH]; intros i H; simpl in H; [done|]. destruct (Bool.eqb_spec x b) as [->|]; [by injection H as <-|]. destruct (first_bit b l) as [j|]; [|done]. injection H as <-. by apply IH. Qed.

Lemma bits_take k s : bits (take k s) = take (8 * k) (bits s).
Proof.
  revert k. induction s as [|x s IH]; intros [|k]; try done. rewrite firstn_cons, !bits_cons, IH. replace (8 * S k)%nat with (8 + 8 * k)%nat by lia. by rewrite take_app_add' by done.
Qed.

Lemma bits_drop k s : bits (drop k s) = drop (8 * k) (bits s).
Proof.
  revert k. induction s as [|x s IH]; intros [|k]; try done. rewrite skipn_cons, !bits_cons, IH. replace (8 * S k)%nat with (8 + 8 * k)%nat by lia. by rewrite drop_app_add' by done.
Qed.

Lemma all_skip b t : Forall byte_ok t → first_bit b (bits t) = None → t = replicate (length t) (skip b).
Proof.
  induction 1 as [|x t Hx Ht IH]; intros H; [done|]. rewrite bits_cons in H. simpl. destruct (decide (x = skip b)) as [->|Hne].
  - f_equal. apply IH. rewrite first_bit_app_none in H by apply (skip_bits b 1). by destruct (first_bit b (bits t)).
  - pose proof (other_bits b x Hx Hne) as Ho. destruct (first_bit b (byte_bits x)) as [i|] eqn:E; [|done]. by rewrite (first_bit_app_some _ _ _ _ E) in H.
Qed.

Lemma bin_val_zero l : Forall (λ x, x = false) l → bin_val l = 0.
Proof. induction l as [|x l IH] using rev_ind; [done|]. rewrite Forall_app. intros [Hl Hx]. apply Forall_cons in Hx as [-> _]. rewrite bin_val_app, (IH Hl). done. Qed.

(** Where the word is loaded: the part before it has no such bit. *)
Lemma skipped_ok b addr s : Forall byte_ok s → ∃ k s',
  (let '(found, s, pos) := skip_bytes addr s (skip b) 0 in if found then (s, pos) else skip_words (length s) s (skip_word b) pos) = (s', 8 * Z.of_nat k) ∧
  s = replicate k (skip b) ++ s' ∧ ((length s' < 8)%nat ∨ first_bit b (take 64 (bits s')) ≠ None).
Proof.
  intros Hs. destruct (skip_bytes_ok b addr s 0) as (k1 & s1 & found & -> & -> & Hf). apply Forall_app in Hs as [_ Hs1]. destruct found.
  - destruct (Hf eq_refl) as (x & t & -> & Hx). exists k1, (x :: t). split_and!; [done|done|right]. apply Forall_cons in Hs1 as [Hxo _]. pose proof (other_bits b x Hxo Hx) as Ho. rewrite bits_cons. change 64%nat with (8 + 56)%nat. rewrite take_app_add' by done.
    destruct (first_bit b (byte_bits x)) as [i|] eqn:E; [|done]. by rewrite (first_bit_app_some _ _ _ _ E).
  - destruct (skip_words_ok b (length s1) s1 (0 + 8 * Z.of_nat k1) Hs1) as (k2 & s2 & -> & -> & Hend); [lia|]. exists (k1 + k2)%nat, s2. split_and!; [f_equal; lia|by rewrite replicate_add, <- app_assoc|]. destruct Hend as [|[Hl Hne]]; [by left|right].
    intros E. apply Hne. apply Forall_app in Hs1 as [_ Hs2]. change 64%nat with (8 * 8)%nat in E. rewrite <- bits_take in E. rewrite (all_skip b (take 8 s2)) at 1; [|by apply Forall_take|done]. by rewrite length_take, Nat.min_l by lia.
Qed.

Lemma bitpos_ok addr s b : Forall byte_ok s →
  redisBitpos addr s (Z.b2z b) = Some (match first_bit b (bits s) with Some i => Z.of_nat i | None => if b then -1 else 8 * Z.of_nat (length s) end).
Proof.
  intros Hs. unfold redisBitpos. assert ((if Z.b2z b =? 0 then 255 else 0) = skip b) as -> by (by destruct b). assert ((if Z.b2z b =? 0 then 2 ^ 64 - 1 else 0) = skip_word b) as -> by (by destruct b).
  destruct (skipped_ok b addr s Hs) as (k & s2 & E & -> & Hend). destruct (skip_bytes addr _ (skip b) 0) as [[found s1] pos1]. rewrite E. clear E found s1 pos1. apply Forall_app in Hs as [_ Hs].
  rewrite (load_word_ok 8 s2 0) by (done || lia). rewrite Z.mul_0_l, Z.add_0_l. change (8 * 8)%nat with 64%nat. set (l := take 64 _). assert (length l = 64%nat) as Hl by (unfold l; rewrite length_take, length_app, length_replicate; lia).
  change (unot 64 (Z.shiftr (2 ^ 64 - 1) 1)) with (2 ^ (63 - Z.of_nat 0)). rewrite bits_app, first_bit_app_none, length_bits, length_app, !length_replicate by apply skip_bits.
  assert (∀ i, first_bit b (take 64 (bits s2)) = Some i → first_bit b l = Some i) as Hpre. { intros i Hi. unfold l. rewrite take_app. by apply first_bit_app_some. }
  destruct (first_bit b (take 64 (bits s2))) as [i|] eqn:Ei.
  - specialize (Hpre i eq_refl). rewrite <- (take_drop 64 (bits s2)), (first_bit_app_some _ _ _ _ Ei). cbn [fmap option_fmap option_map]. rewrite (proj2 (andb_false_iff _ _)).
    2: { destruct b; [right|by left]. apply Z.eqb_neq. intros E. pose proof (bin_val_bit l i true (first_bit_lookup _ _ _ Hpre)) as Hb. by rewrite E, Z.bits_0 in Hb. }
    rewrite (scan_word_ok 65 l b 0); rewrite ?drop_0, ?Hpre; (done || lia || idtac). simpl. f_equal. lia.
  - destruct Hend as [Hend|]; [|done]. rewrite take_ge in Ei by (rewrite length_bits; lia). rewrite Ei. cbn [fmap option_fmap option_map]. assert (l = bits s2 ++ replicate (64 - 8 * length s2) false) as El.
    { unfold l. rewrite take_app, take_ge by (rewrite length_bits; lia). by rewrite length_bits, take_replicate, Nat.min_l by lia. }
    apply first_bit_none in Ei as Hall. destruct b.
    + rewrite (bin_val_zero l); [done|]. rewrite El. apply Forall_app. split; [done|by apply Forall_replicate].
    + cbn [Z.b2z Z.eqb andb]. assert (first_bit false l = Some (8 * length s2)%nat) as Hfl.
      { rewrite El, first_bit_app_none, length_bits by done. destruct (64 - 8 * length s2)%nat as [|m] eqn:Em; [lia|]. simpl. f_equal. lia. }
      change 0 with (Z.b2z false) at 1. rewrite (scan_word_ok 65 l false 0); rewrite ?drop_0, ?Hfl; (done || lia || idtac). simpl. f_equal. lia.
Qed.

Lemma bits_inj s t : Forall byte_ok s → Forall byte_ok t → bits s = bits t → s = t.
Proof.
  intros Hs. revert t. induction Hs as [|x s Hx Hs IH]; intros [|y t] Ht E; try done. apply Forall_cons in Ht as [Hy Ht]. rewrite !bits_cons in E. apply app_inj_1 in E as [E1 E2]; [|done]. f_equal; [|by apply IH]. by rewrite <- (byte_val x Hx), E1, byte_val.
Qed.

(** ** Integers in a bitmap *)

(** The last [n] binary digits of [v], most significant first. *)
Fixpoint bin_digits (n : nat) (v : Z) : list bool := match n with O => [] | S n => Z.testbit v (Z.of_nat n) :: bin_digits n v end.

Lemma length_digits n v : length (bin_digits n v) = n.
Proof. induction n; simpl; congruence. Qed.

Lemma bin_val_cons b l : bin_val (b :: l) = Z.b2z b * 2 ^ Z.of_nat (length l) + bin_val l.
Proof. change (b :: l) with ([b] ++ l). rewrite bin_val_app. by destruct b. Qed.

Lemma bin_val_digits n v : bin_val (bin_digits n v) = v `mod` 2 ^ Z.of_nat n.
Proof.
  induction n as [|n IH]; cbn [bin_digits]; [symmetry; apply Z.mod_1_r|]. rewrite bin_val_cons, IH, length_digits. rewrite Nat2Z.inj_succ, Z.pow_succ_r, (Z.mul_comm 2) by lia. pose proof (Z.pow_pos_nonneg 2 (Z.of_nat n) ltac:(lia) ltac:(lia)). rewrite Z.rem_mul_r by lia. rewrite Z.testbit_spec' by lia. lia.
Qed.

Definition set_bit_in (b : Z) (j : nat) (v : bool) : Z := Z.land (Z.lor (Z.land b (Z.lnot (Z.shiftl 1 (7 - Z.of_nat j)))) (Z.shiftl (Z.b2z v) (7 - Z.of_nat j))) 255.

Lemma set_byte_bits b j v : byte_ok b → (j < 8)%nat → byte_bits (set_bit_in b j v) = <[j := v]> (byte_bits b) ∧ byte_ok (set_bit_in b j v).
Proof.
  intros Hb Hj. assert (Forall (λ j, Forall (λ v, byte_bits (set_bit_in b j v) = <[j := v]> (byte_bits b) ∧ byte_ok (set_bit_in b j v)) [true; false]) (seq 0 8)) as H.
  { revert b Hb. apply (byte_prop (λ b, Forall (λ j, Forall (λ v, byte_bits (set_bit_in b j v) = <[j := v]> (byte_bits b) ∧ byte_ok (set_bit_in b j v)) [true; false]) (seq 0 8))). vm_compute. reflexivity. }
  rewrite Forall_forall in H. specialize (H j ltac:(apply elem_of_seq; lia)). rewrite Forall_forall in H. apply H. destruct v; set_solver.
Qed.

Lemma bits_insert s k b b' j v : s !! k = Some b → byte_bits b' = <[j := v]> (byte_bits b) → (j < 8)%nat → bits (<[k := b']> s) = <[(8 * k + j)%nat := v]> (bits s).
Proof.
  revert k. induction s as [|x s IH]; intros [|k] Hk Hb Hj; try done.
  - injection Hk as ->. change (<[0%nat := b']> (b :: s)) with (b' :: s). rewrite !bits_cons, Hb, insert_app_l by (rewrite byte_bits_length; lia). done.
  - change (<[S k := b']> (x :: s)) with (x :: <[k := b']> s). rewrite !bits_cons, insert_app_r_alt by (rewrite byte_bits_length; lia). rewrite byte_bits_length. f_equal. replace (8 * S k + j - 8)%nat with (8 * k + j)%nat by lia. by apply IH.
Qed.

Lemma offset_parts o : Z.to_nat (Z.shiftr (Z.of_nat o) 3) = (o / 8)%nat ∧ Z.land (Z.of_nat o) 7 = Z.of_nat (o mod 8).
Proof.
  split.
  - rewrite Z.shiftr_div_pow2 by lia. change (2 ^ 3) with (Z.of_nat 8). by rewrite <- Nat2Z.inj_div, Nat2Z.id.
  - change 7 with (Z.ones 3). rewrite Z.land_ones by lia. change (2 ^ 3) with (Z.of_nat 8). by rewrite Nat2Z.inj_mod.
Qed.

(** The byte of a bit. *)
Lemma byte_of_bit p o : (o < length (bits p))%nat → ∃ b, p !! (o / 8)%nat = Some b.
Proof. rewrite length_bits. intros H. apply lookup_lt_is_Some_2. apply Nat.Div0.div_lt_upper_bound. lia. Qed.

Lemma set_loop_ok n p o v : Forall byte_ok p → (o + n ≤ length (bits p))%nat → Z.of_nat (o + n) < 2 ^ 64 →
  ∃ p', set_loop n p (Z.of_nat o) v = Some p' ∧ Forall byte_ok p' ∧ bits p' = take o (bits p) ++ bin_digits n v ++ drop (o + n) (bits p).
Proof.
  revert p o. induction n as [|n IH]; intros p o Hp Hl Hlt.
  { exists p. split_and!; try done. simpl. by rewrite Nat.add_0_r, take_drop. }
  cbn [set_loop bin_digits]. destruct (byte_of_bit p o) as [b Hb]; [lia|]. destruct (offset_parts o) as [-> ->]. rewrite Hb. cbn [mbind option_bind]. assert (negb (Z.land v (Z.shiftl 1 (Z.of_nat n)) =? 0) = Z.testbit v (Z.of_nat n)) as -> by (by rewrite Z.shiftl_1_l, Z.land_comm, land_pow2 by lia).
  pose proof (Forall_lookup_1 _ _ _ _ Hp Hb) as Hbo. pose proof (Nat.mod_upper_bound o 8 ltac:(lia)) as Hm. destruct (set_byte_bits b (o mod 8) (Z.testbit v (Z.of_nat n)) Hbo Hm) as [Hbits Hok]. unfold set_bit_in in Hbits, Hok. set (b' := Z.land _ 255) in *.
  rewrite uwrap_small by (split; lia). replace (Z.of_nat o + 1) with (Z.of_nat (S o)) by lia. pose proof (bits_insert p _ b b' _ _ Hb Hbits Hm) as Hi. rewrite <- Nat.div_mod_eq in Hi.
  destruct (IH (<[(o / 8)%nat := b']> p) (S o)) as (p' & E & Hp' & Hbits'); [by apply Forall_insert|rewrite Hi, length_insert; lia|lia|]. exists p'. split_and!; try done. rewrite Hbits', Hi.
  rewrite (take_S_r _ _ (Z.testbit v (Z.of_nat n))) by (rewrite list_lookup_insert_eq; [done|lia]). rewrite take_insert_ge by lia. rewrite drop_insert_lt by lia. rewrite <- app_assoc. simpl. by replace (S (o + n)) with (o + S n)%nat by lia.
Qed.

Lemma get_loop_ok n p o v : (o + n ≤ length (bits p))%nat → Z.of_nat (o + n) < 2 ^ 64 → 0 ≤ v → (v + 1) * 2 ^ Z.of_nat n ≤ 2 ^ 64 →
  get_loop n p (Z.of_nat o) v = Some (v * 2 ^ Z.of_nat n + bin_val (take n (drop o (bits p)))).
Proof.
  revert o v. induction n as [|n IH]; intros o v Hl Hlt Hv Hsm; [simpl; f_equal; unfold bin_val; simpl; lia|]. cbn [get_loop]. destruct (byte_of_bit p o) as [b Hb]; [lia|]. destruct (offset_parts o) as [-> ->]. rewrite Hb. cbn [mbind option_bind].
  rewrite Nat2Z.inj_succ, Z.pow_succ_r in * by lia. pose proof (Z.pow_pos_nonneg 2 (Z.of_nat n) ltac:(lia) ltac:(lia)) as Hp. rewrite Z.shiftl_mul_pow2 by lia. change (2 ^ 1) with 2. rewrite !uwrap_small by (split; (lia || nia)).
  pose proof (bits_lookup p o b Hb) as Hx. change 8 with (Z.of_nat 8) in Hx. rewrite <- Nat2Z.inj_mod in Hx. set (x := Z.testbit b _) in Hx.
  assert (Z.land (Z.shiftr b (7 - Z.of_nat (o mod 8))) 1 = Z.b2z x) as ->. { change 1 with (Z.ones 1) at 1. rewrite Z.land_ones by lia. unfold x. change (2 ^ 1) with 2. rewrite <- Z.bit0_mod, Z.shiftr_spec by lia. done. }
  assert (Z.lor (v * 2) (Z.b2z x) = 2 * v + Z.b2z x) as ->. { rewrite Z.lor_comm. change (v * 2) with (v * 2 ^ 1). rewrite <- Z.shiftl_mul_pow2 by lia. rewrite le_val_lor; [change (2 ^ 1) with 2; lia|lia|]. destruct x; simpl; lia. }
  replace (Z.of_nat o + 1) with (Z.of_nat (S o)) by lia. rewrite IH; [|lia|lia|destruct x; simpl; lia|destruct x; simpl Z.b2z; nia].
  rewrite (drop_S _ _ _ Hx), firstn_cons, bin_val_cons. f_equal. rewrite length_take, length_drop, Nat.min_l by lia. lia.
Qed.

(** ** Signs and overflow *)

Lemma swrap_cases w x : 0 < w → swrap w x = (if x `mod` 2 ^ w <? 2 ^ (w - 1) then x `mod` 2 ^ w else x `mod` 2 ^ w - 2 ^ w).
Proof.
  intros Hw. pose proof (Z.pow_pos_nonneg 2 (w - 1) ltac:(lia) ltac:(lia)) as Hp. assert (2 ^ w = 2 * 2 ^ (w - 1)) as E by (rewrite <- Z.pow_succ_r by lia; f_equal; lia). pose proof (Z.mod_pos_bound x (2 ^ w) ltac:(lia)) as Hm.
  unfold swrap. rewrite <- Z.add_mod_idemp_l by lia. set (m := x `mod` 2 ^ w) in *. destruct (Z.ltb_spec m (2 ^ (w - 1))).
  - rewrite Z.mod_small by lia. lia.
  - rewrite <- (Z.mod_unique_pos (m + 2 ^ (w - 1)) (2 ^ w) 1 (m - 2 ^ (w - 1))); lia.
Qed.

Lemma ones_above_val w : 0 ≤ w < 64 → ones_above w = Some (Z.shiftl (Z.ones (64 - w)) w).
Proof.
  intros Hw. unfold ones_above. rewrite (proj2 (Z.ltb_lt w 64)) by lia. f_equal. unfold uwrap. rewrite <- Z.land_ones by lia. change (2 ^ 64 - 1) with (Z.ones 64). apply Z.bits_inj'. intros i Hi. rewrite Z.land_spec, testbit_ones_in by lia. destruct (decide (i < w)) as [Hl|Hl].
  - by rewrite !Z.shiftl_spec_low by done.
  - rewrite !Z.shiftl_spec, !testbit_ones_in by lia. repeat case_bool_decide; try done; lia.
Qed.

Lemma unot_ones_above w : 0 ≤ w < 64 → unot 64 (Z.shiftl (Z.ones (64 - w)) w) = Z.ones w.
Proof.
  intros Hw. unfold unot. apply Z.bits_inj'. intros i Hi. rewrite Z.lxor_spec, !testbit_ones_in by lia. destruct (decide (i < w)) as [Hl|Hl].
  - rewrite Z.shiftl_spec_low by done. rewrite !bool_decide_true by lia. done.
  - rewrite Z.shiftl_spec, testbit_ones_in by lia. repeat case_bool_decide; try done; lia.
Qed.

Lemma lor_ones_above c w : in_u 64 c → 0 ≤ w < 64 → Z.lor c (Z.shiftl (Z.ones (64 - w)) w) = c `mod` 2 ^ w + (2 ^ 64 - 2 ^ w).
Proof.
  intros Hc Hw. pose proof (Z.pow_pos_nonneg 2 w ltac:(lia) ltac:(lia)) as Hp. assert (2 ^ w * Z.ones (64 - w) = 2 ^ 64 - 2 ^ w) as <-.
  { rewrite Z.ones_equiv, <- Z.sub_1_r. rewrite Z.mul_sub_distr_l, <- Z.pow_add_r by lia. replace (w + (64 - w)) with 64 by lia. lia. }
  rewrite <- le_val_lor by (try apply Z.mod_pos_bound; lia). rewrite <- Z.land_ones by lia. apply Z.bits_inj'. intros i Hi. rewrite !Z.lor_spec, Z.land_spec, testbit_ones_in by lia. destruct (decide (i < w)) as [Hl|Hl].
  - by rewrite bool_decide_true, andb_true_r by lia.
  - rewrite (bool_decide_false (i < w)), andb_false_r by lia. rewrite Z.shiftl_spec, testbit_ones_in by lia. case_bool_decide; [by rewrite orb_true_r|]. rewrite (testbit_above c 64 i) by (done || lia). done.
Qed.

Lemma top_bit w u : 0 < w → (Z.land u (Z.shiftl 1 (w - 1)) =? 0) = (u `mod` 2 ^ w <? 2 ^ (w - 1)).
Proof.
  intros Hw. rewrite Z.shiftl_1_l, Z.land_comm. rewrite <- (negb_involutive (_ =? 0)), land_pow2 by lia. pose proof (Z.pow_pos_nonneg 2 (w - 1) ltac:(lia) ltac:(lia)) as Hp. assert (2 ^ w = 2 ^ (w - 1) * 2) as E by (rewrite Z.mul_comm, <- Z.pow_succ_r by lia; f_equal; lia).
  rewrite E, Z.rem_mul_r by lia. pose proof (Z.mod_pos_bound u (2 ^ (w - 1)) ltac:(lia)) as Hm. pose proof (Z.testbit_spec' u (w - 1) ltac:(lia)) as Hb. rewrite <- Hb. destruct (Z.testbit u (w - 1)); simpl; symmetry; [apply Z.ltb_ge|apply Z.ltb_lt]; lia.
Qed.

(** Extending the sign of the last [w] bits of a word. *)
Lemma sign_extend c w : in_u 64 c → 0 < w < 64 → s64 (if Z.land c (Z.shiftl 1 (w - 1)) =? 0 then c `mod` 2 ^ w else Z.lor c (Z.shiftl (Z.ones (64 - w)) w)) = swrap w c.
Proof.
  intros Hc Hw. rewrite top_bit, (swrap_cases w c), lor_ones_above by (lia || done). pose proof (Z.pow_pos_nonneg 2 w ltac:(lia) ltac:(lia)) as Hp. pose proof (Z.mod_pos_bound c (2 ^ w) ltac:(lia)) as Hm. assert (2 ^ w ≤ 2 ^ 63) as H63 by (apply Z.pow_le_mono_r; lia). assert (2 ^ w = 2 * 2 ^ (w - 1)) as E by (rewrite <- Z.pow_succ_r by lia; f_equal; lia).
  destruct (Z.ltb_spec (c `mod` 2 ^ w) (2 ^ (w - 1))).
  - apply swrap_small; [lia|]. split; [|]; simpl; lia.
  - transitivity (s64 (c `mod` 2 ^ w - 2 ^ w)); [|apply swrap_small; [lia|split; simpl; lia]]. rewrite <- (swrap_uwrap 64 (_ + _)), <- (swrap_uwrap 64 (_ - _)) by lia. f_equal. unfold uwrap.
    replace (c `mod` 2 ^ w + (2 ^ 64 - 2 ^ w)) with (c `mod` 2 ^ w - 2 ^ w + 1 * 2 ^ 64) by lia. by rewrite Z.mod_add by lia.
Qed.

Lemma get_signed_ok p o w : (o + Z.to_nat w ≤ length (bits p))%nat → Z.of_nat (o + Z.to_nat w) < 2 ^ 64 → 0 < w ≤ 64 → let u := bin_val (take (Z.to_nat w) (drop o (bits p))) in
  getSignedBitfield p (Z.of_nat o) w = if (w =? 64) && (2 ^ 63 <=? u) then None else Some (swrap w u).
Proof.
  intros Hl Hlt Hw u. unfold getSignedBitfield, getUnsignedBitfield. rewrite get_loop_ok; [|done|done|lia|rewrite Z2Nat.id, Z.mul_1_l by lia; apply Z.pow_le_mono_r; lia]. rewrite Z.mul_0_l, Z.add_0_l. fold u. cbn [mbind option_bind].
  assert (0 ≤ u < 2 ^ w) as Hu. { pose proof (bin_val_range (take (Z.to_nat w) (drop o (bits p)))) as H. rewrite length_take, length_drop, Nat.min_l, Z2Nat.id in H by lia. exact H. }
  assert (in_u 64 u) as H64. { assert (2 ^ w ≤ 2 ^ 64) by (apply Z.pow_le_mono_r; lia). split; lia. } destruct (Z.eqb_spec w 64) as [->|Hne].
  - rewrite top_bit by lia. rewrite (Z.mod_small u) by lia. destruct (Z.ltb_spec u (2 ^ (64 - 1))), (Z.leb_spec (2 ^ 63) u); simpl andb; cbv iota; try (simpl in *; lia); done.
  - simpl andb. cbv iota. rewrite ones_above_val by lia. cbn [mbind option_bind]. rewrite <- (sign_extend u w H64) by lia. destruct (Z.land u _ =? 0); [|done]. by rewrite Z.mod_small by lia.
Qed.

Lemma mod64_mod a w : 0 ≤ w ≤ 64 → u64 a `mod` 2 ^ w = a `mod` 2 ^ w.
Proof.
  intros Hw. unfold uwrap. replace (2 ^ 64) with (2 ^ w * 2 ^ (64 - w)) by (rewrite <- Z.pow_add_r by lia; f_equal; lia). pose proof (Z.pow_pos_nonneg 2 w ltac:(lia) ltac:(lia)). pose proof (Z.pow_pos_nonneg 2 (64 - w) ltac:(lia) ltac:(lia)).
  rewrite <- Znumtheory.Zmod_div_mod; [done|lia|lia|by exists (2 ^ (64 - w)); lia].
Qed.

(** The outcome of a check: no overflow, or the value that is stored instead. *)
Definition bounded (lo hi x : Z) (wrapped : Z) (ow : owtype) : Z * option Z :=
  if bool_decide (lo ≤ x ≤ hi) then (0, None)
  else match ow with
    | BFOVERFLOW_WRAP => (1, Some wrapped)
    | BFOVERFLOW_SAT => if hi <? x then (1, Some hi) else (-1, Some lo)
    | BFOVERFLOW_FAIL => (if hi <? x then 1 else -1, None)
    end.

Lemma check_unsigned_ok value incr w ow : 1 ≤ w ≤ 63 → in_s 64 incr → in_u w value ∨ in_u 64 value ∧ incr = 0 →
  checkUnsignedBitfieldOverflow value incr w ow = Some (bounded 0 (2 ^ w - 1) (value + incr) ((value + incr) `mod` 2 ^ w) ow).
Proof.
  intros Hw Hi Hv. assert (2 ^ w ≤ 2 ^ 63) as H63 by (apply Z.pow_le_mono_r; lia). assert (2 ≤ 2 ^ w) as H2 by (change 2 with (2 ^ 1) at 1; apply Z.pow_le_mono_r; lia). unfold checkUnsignedBitfieldOverflow. rewrite (proj2 (Z.eqb_neq w 64)) by lia. rewrite Z.shiftl_1_l.
  rewrite (uwrap_small 64 (2 ^ w)) by (split; simpl in *; lia). rewrite ones_above_val by lia. cbn [mbind option_bind]. rewrite unot_ones_above, Z.land_ones by lia.
  rewrite mod64_mod by lia.
  unfold bounded. assert (∀ z, in_s 64 z → s64 z = z) as Hs by (intros; by apply swrap_small). unfold in_s in Hi. simpl Z.pow in Hi.
  destruct (Z.ltb_spec (2 ^ w - 1) value) as [Hb|Hb].
  - simpl orb. destruct Hv as [Hv|[Hv ->]]; [unfold in_u in Hv; lia|]. rewrite Z.add_0_r, bool_decide_false, (proj2 (Z.ltb_lt (2 ^ w - 1) value)) by lia. by destruct ow.
  - assert (0 ≤ value) by (destruct Hv as [[]|[[]]]; lia). rewrite !Hs by (split; simpl in *; lia). destruct (Z.ltb_spec 0 incr), (Z.ltb_spec (2 ^ w - 1 - value) incr), (Z.ltb_spec incr 0), (Z.ltb_spec incr (- value)); simpl; try lia; case_bool_decide; try lia; try done; destruct (Z.ltb_spec (2 ^ w - 1) (value + incr)); try lia; by destruct ow.
Qed.

(** The conditions of [checkSignedBitfieldOverflow], [M] the first value that is too large. *)
Lemma signed_conditions M w value incr : 1 ≤ M → (if w =? 64 then M = 2 ^ 63 else 2 * M ≤ 2 ^ 63) → in_s 64 incr → - M ≤ value < M ∨ in_s 64 value ∧ incr = 0 ∧ M - 2 ^ 63 ≤ value →
  let over := (M - 1 <? value) || (negb (w =? 64) && (s64 (M - 1 - value) <? incr)) || ((0 <=? value) && (0 <? incr) && (s64 (M - 1 - value) <? incr)) in
  let under := (value <? - M) || (negb (w =? 64) && (incr <? s64 (- M - value))) || ((value <? 0) && (incr <? 0) && (incr <? s64 (- M - value))) in
  over = (M - 1 <? value + incr) ∧ (over = false → under = (value + incr <? - M)).
Proof.
  intros HM Hw Hi Hv. unfold in_s in *. change (2 ^ (64 - 1)) with (2 ^ 63) in *. assert (∀ z, - 2 ^ 63 ≤ z < 2 ^ 63 → s64 z = z) as Hs by (intros; by apply swrap_small). cbv zeta.
  assert (value < M → negb (w =? 64) = true ∨ 0 ≤ value → s64 (M - 1 - value) = M - 1 - value) as H1 by (intros ? ?; apply Hs; destruct (w =? 64); simpl in *; naive_solver lia).
  assert (- M ≤ value < M → negb (w =? 64) = true ∨ value < 0 → s64 (- M - value) = - M - value) as H2 by (intros ? ?; apply Hs; destruct (w =? 64); simpl in *; naive_solver lia).
  assert (∀ a b : bool, (a = true ↔ b = true) → a = b) as Hbool by (intros [] []; naive_solver). split.
  - apply Hbool. rewrite !orb_true_iff, !andb_true_iff, !Z.ltb_lt, Z.leb_le. destruct (w =? 64); simpl in *; naive_solver lia.
  - rewrite !orb_false_iff, !andb_false_iff, !Z.ltb_ge, Z.leb_gt. intros Ho. apply Hbool. rewrite !orb_true_iff, !andb_true_iff, !Z.ltb_lt. destruct (w =? 64); simpl in *; naive_solver lia.
Qed.

(** [handle_wrap] *)
Lemma signed_wrap value incr w : 1 ≤ w ≤ 63 →
  (mask ← ones_above w; let msb := 2 ^ (w - 1) in let c := u64 (u64 value + u64 incr) in
   Some (1, Some (s64 (if Z.land c msb =? 0 then Z.land c (unot 64 mask) else Z.lor c mask)))) = Some (1, Some (swrap w (value + incr))).
Proof.
  intros Hw. rewrite ones_above_val by lia. cbn [mbind option_bind]. do 3 f_equal. rewrite unot_ones_above, Z.land_ones by lia. rewrite <- Z.shiftl_1_l. rewrite sign_extend by (try apply uwrap_range; lia).
  assert (∀ a, swrap w (u64 a) = swrap w a) as Hsu. { intros a. rewrite <- (swrap_uwrap w (u64 a)), <- (swrap_uwrap w a) by lia. f_equal. apply mod64_mod. lia. }
  rewrite Hsu. rewrite <- (Hsu (value + incr)), <- (Hsu (u64 value + u64 incr)). f_equal. unfold uwrap. by rewrite <- Z.add_mod by lia.
Qed.

(** What the signed check gives: for a value so far below the range that the
    distance to the maximum overflows, an overflow instead of an underflow. *)
Definition signed_check (value incr w : Z) (ow : owtype) : option (Z * option Z) :=
  if decide (w = 64 ∧ ow = BFOVERFLOW_WRAP ∧ ¬ in_s 64 (value + incr)) then None
  else if decide (¬ in_s w value ∧ value < 2 ^ (w - 1) - 2 ^ 63) then
    Some (1, match ow with BFOVERFLOW_WRAP => Some (swrap w value) | BFOVERFLOW_SAT => Some (2 ^ (w - 1) - 1) | BFOVERFLOW_FAIL => None end)
  else Some (bounded (- 2 ^ (w - 1)) (2 ^ (w - 1) - 1) (value + incr) (swrap w (value + incr)) ow).

Lemma check_signed_ok value incr w ow : 1 ≤ w ≤ 64 → in_s 64 incr → in_s w value ∨ in_s 64 value ∧ incr = 0 →
  checkSignedBitfieldOverflow value incr w ow = signed_check value incr w ow.
Proof.
  intros Hw Hi Hv. assert (1 ≤ 2 ^ (w - 1) ≤ 2 ^ 63) as H63 by (split; [change 1 with (2 ^ 0) at 1|]; apply Z.pow_le_mono_r; lia). unfold checkSignedBitfieldOverflow, signed_check. rewrite !Z.shiftl_1_l. assert ((if w =? 64 then 2 ^ 63 - 1 else 2 ^ (w - 1) - 1) = 2 ^ (w - 1) - 1) as -> by (destruct (Z.eqb_spec w 64) as [->|]; done).
  set (wrap := mbind _ (ones_above w)). assert (wrap = if w =? 64 then None else Some (1, Some (swrap w (value + incr)))) as Ew.
  { destruct (Z.eqb_spec w 64) as [->|]; [done|]. apply signed_wrap. lia. }
  clearbody wrap. set (M := 2 ^ (w - 1)) in *. replace (- (M - 1) - 1) with (- M) by lia.
  assert (if w =? 64 then M = 2 ^ 63 else 2 * M ≤ 2 ^ 63) as HM. { destruct (Z.eqb_spec w 64) as [->|]; [done|]. unfold M. rewrite <- Z.pow_succ_r by lia. apply Z.pow_le_mono_r; lia. }
  assert (∀ z, in_s w z ↔ - M ≤ z ≤ M - 1) as Hin by (intros z; unfold in_s; fold M; lia). rewrite !Hin in Hv.
  destruct (decide (¬ in_s w value ∧ value < M - 2 ^ 63)) as [[Hout Hfar]|Hnear]; rewrite Hin in *.
  - destruct Hv as [Hv|[Hv ->]]; [lia|]. unfold in_s in Hv. change (2 ^ (64 - 1)) with (2 ^ 63) in Hv. destruct (Z.eqb_spec w 64) as [->|Hne]; [change M with (2 ^ 63) in *; lia|].
    assert (s64 (M - 1 - value) < 0) as Hs.
    { assert (s64 (M - 1 - value) = M - 1 - value - 2 ^ 64) as ->; [|lia]. unfold swrap. change (2 ^ (64 - 1)) with (2 ^ 63). rewrite <- (Z.mod_unique_pos (M - 1 - value + 2 ^ 63) (2 ^ 64) 1 (M - 1 - value - 2 ^ 63)) by lia. lia. }
    simpl negb. simpl andb. rewrite (proj2 (Z.ltb_lt (s64 (M - 1 - value)) 0)) by done. rewrite orb_true_r. cbn [orb]. rewrite decide_False by (intros [? _]; done). rewrite Z.add_0_r in Ew. rewrite Ew. by destruct ow.
  - destruct (signed_conditions M w value incr) as [Ho Hu]; [lia|done|done| |].
    { destruct Hv as [Hv|[Hv ->]]; [left; lia|]. destruct (decide (- M ≤ value ≤ M - 1)); [left; lia|right]. split_and!; [apply Hv..|done|lia]. }
    unfold bounded. rewrite Ho in *. destruct (decide (w = 64 ∧ ow = BFOVERFLOW_WRAP ∧ ¬ in_s 64 (value + incr))) as [(-> & -> & Hovf)|Hdef].
    + change (64 =? 64) with true in Ew. cbv iota in Ew. rewrite Hin in Hovf. destruct (Z.ltb_spec (M - 1) (value + incr)); [done|]. rewrite (Hu eq_refl). by rewrite (proj2 (Z.ltb_lt _ _)) by lia.
    + assert (ow = BFOVERFLOW_WRAP → ¬ in_s w (value + incr) → wrap = Some (1, Some (swrap w (value + incr)))) as Hwrap.
      { intros -> Ho'. rewrite Ew. destruct (Z.eqb_spec w 64) as [->|]; [|done]. by destruct Hdef. }
      rewrite Hin in Hwrap. destruct (Z.ltb_spec (M - 1) (value + incr)).
      * rewrite bool_decide_false by lia. destruct ow; try done. apply Hwrap; [done|lia].
      * rewrite (Hu eq_refl). destruct (Z.ltb_spec (value + incr) (- M)); [rewrite bool_decide_false by lia|by rewrite bool_decide_true by lia]. destruct ow; try done. apply Hwrap; [done|lia].
Qed.

(** ** Theorems *)

Lemma set_unsigned_ok p o w v : Forall byte_ok p → 0 ≤ w → (o + Z.to_nat w ≤ length (bits p))%nat → Z.of_nat (o + Z.to_nat w) < 2 ^ 64 →
  ∃ p', setUnsignedBitfield p (Z.of_nat o) w v = Some p' ∧ Forall byte_ok p' ∧ bits p' = take o (bits p) ++ bin_digits (Z.to_nat w) v ++ drop (o + Z.to_nat w) (bits p).
Proof. intros. by apply set_loop_ok. Qed.

Lemma field_of o n l v : (o + n ≤ length l)%nat → let l' := take o l ++ bin_digits n v ++ drop (o + n) l in take n (drop o l') = bin_digits n v ∧ length l' = length l ∧ ∀ i, (i < o ∨ o + n ≤ i)%nat → l' !! i = l !! i.
Proof.
  intros Hl l'. assert (length (take o l) = o) as Ht by (rewrite length_take; lia). split_and!.
  - unfold l'. rewrite drop_app_length' by done. by rewrite take_app_length' by (by rewrite length_digits).
  - unfold l'. rewrite !length_app, Ht, length_digits, length_drop. lia.
  - intros i [Hi|Hi]; unfold l'; [by rewrite lookup_app_l, lookup_take_lt by lia|]. rewrite lookup_app_r, lookup_app_r by (rewrite ?length_digits; lia). rewrite Ht, length_digits, lookup_drop. f_equal. lia.
Qed.

(** [redisPopcount] counts the set bits of a string of any length at any
    address, seven words at a time or byte by byte, and [redisBitpos] finds the
    first bit with the given value; without one it returns -1 when it looks for
    a set bit and the bit behind the string when it looks for a clear one. *)
Theorem bit_queries_correct addr s (b : bool) : Forall byte_ok s → Z.of_nat (length s) < 2 ^ 60 →
  redisPopcount addr s = Some (ones_in (bits s)) ∧
  redisBitpos addr s (Z.b2z b) = Some (match first_bit b (bits s) with Some i => Z.of_nat i | None => if b then -1 else 8 * Z.of_nat (length s) end).
Proof. intros Hs Hl. split; [by apply popcount_ok|by apply bitpos_ok]. Qed.

Lemma bit_queries_correct_witness : redisPopcount 5 (replicate 60 0x81) = Some 120 ∧ redisBitpos 5 (replicate 60 255) 0 = Some 480.
Proof.
  split.
  - destruct (bit_queries_correct 5 (replicate 60 0x81) true) as [-> _]; [apply Forall_replicate; done|simpl; lia|vm_compute; reflexivity].
  - change 0 with (Z.b2z false). destruct (bit_queries_correct 5 (replicate 60 255) false) as [_ ->]; [apply Forall_replicate; done|simpl; lia|vm_compute; reflexivity].
Defined.

(** An integer of 1 to 64 bits written at any bit offset is read back: the
    unsigned functions keep the value modulo 2^w, the signed ones every value
    that fits; no other bit changes. The exception is a negative integer of 64
    bits, whose reading shifts by the width of the type, which is undefined. *)
Theorem bitfield_roundtrip p offset w v : Forall byte_ok p → 0 ≤ offset → 1 ≤ w ≤ 64 → offset + w ≤ 8 * Z.of_nat (length p) → Z.of_nat (length p) < 2 ^ 60 →
  (∃ p', setUnsignedBitfield p offset w v = Some p' ∧ getUnsignedBitfield p' offset w = Some (v `mod` 2 ^ w) ∧ Forall byte_ok p' ∧ length p' = length p ∧
    ∀ i, Z.of_nat i < offset ∨ offset + w ≤ Z.of_nat i → bits p' !! i = bits p !! i) ∧
  (in_s w v → ∃ p', setSignedBitfield p offset w v = Some p' ∧ getSignedBitfield p' offset w = if (w =? 64) && (v <? 0) then None else Some v).
Proof.
  intros Hp Ho Hw Hl Hlen. assert (∃ o, offset = Z.of_nat o) as [o ->] by (exists (Z.to_nat offset); lia). assert (o + Z.to_nat w ≤ length (bits p))%nat as Hb by (rewrite length_bits; lia). assert (Z.of_nat (o + Z.to_nat w) < 2 ^ 64) as Hlt by lia. assert (1 ≤ 2 ^ w ≤ 2 ^ 64) as Hpow by (split; [change 1 with (2 ^ 0) at 1|]; apply Z.pow_le_mono_r; lia). split.
  - destruct (set_unsigned_ok p o w v Hp) as (p' & E & Hp' & Hbits); [lia|done|done|]. destruct (field_of o (Z.to_nat w) (bits p) v Hb) as (F1 & F2 & F3). rewrite <- Hbits in F1, F2, F3. exists p'. split_and!; try done.
    + unfold getUnsignedBitfield. rewrite get_loop_ok; [|lia|done|lia|rewrite Z2Nat.id; lia]. rewrite F1, bin_val_digits, Z2Nat.id by lia. f_equal.
    + rewrite !length_bits in F2. lia.
    + intros i Hi. apply F3. lia.
  - intros Hv. unfold setSignedBitfield. destruct (set_unsigned_ok p o w (u64 v) Hp) as (p' & E & Hp' & Hbits); [lia|done|done|]. destruct (field_of o (Z.to_nat w) (bits p) (u64 v) Hb) as (F1 & F2 & _). rewrite <- Hbits in F1, F2. exists p'. split; [done|].
    rewrite get_signed_ok by (try done; lia). rewrite F1, bin_val_digits, Z2Nat.id by lia.
    rewrite mod64_mod by lia.
    change (v `mod` 2 ^ w) with (uwrap w v). rewrite swrap_uwrap, (swrap_small w v) by (done || lia). destruct (Z.eqb_spec w 64) as [->|]; [|done]. simpl andb. unfold in_s in Hv. change (2 ^ (64 - 1)) with (2 ^ 63) in Hv. assert ((2 ^ 63 <=? u64 v) = (v <? 0)) as ->; [|done].
    unfold uwrap. destruct (Z.ltb_spec v 0).
    + rewrite <- (Z.mod_unique_pos v (2 ^ 64) (-1) (v + 2 ^ 64)) by lia. apply Z.leb_le. lia.
    + rewrite Z.mod_small by lia. apply Z.leb_gt. lia.
Qed.

Lemma bitfield_roundtrip_witness : ∃ p', setSignedBitfield [1; 2; 3; 4] 5 11 (-300) = Some p' ∧ getSignedBitfield p' 5 11 = Some (-300).
Proof. apply (proj2 (bitfield_roundtrip [1; 2; 3; 4] 5 11 (-300) ltac:(repeat constructor; done) ltac:(lia) ltac:(lia) ltac:(simpl; lia) ltac:(simpl; lia))). split; simpl; lia. Defined.

(** C37. The overflow checks of BITFIELD, for every width that the command
    accepts, every field and 64-bit increment, and every 64-bit value that is set
    (increment 0). The unsigned check is exact: it reports an overflow exactly
    when the sum does not fit, 1 above and -1 below the range (wrapping always
    gives 1), and the wrapped or the saturated value, although the differences it
    compares with are computed at 64 bits. So is the signed check, with two
    exceptions: wrapping a sum that leaves 64 bits at width 64 is undefined, and
    a value below the range whose distance to the maximum is 2^63 or more is
    reported as too large and saturated to the maximum. *)
Theorem bitfield_overflow_bounds value incr w ow : in_s 64 incr →
  (1 ≤ w ≤ 63 → in_u w value ∨ in_u 64 value ∧ incr = 0 →
    checkUnsignedBitfieldOverflow value incr w ow = Some (bounded 0 (2 ^ w - 1) (value + incr) ((value + incr) `mod` 2 ^ w) ow)) ∧
  (1 ≤ w ≤ 64 → in_s w value ∨ in_s 64 value ∧ incr = 0 →
    checkSignedBitfieldOverflow value incr w ow =
      if decide (w = 64 ∧ ow = BFOVERFLOW_WRAP ∧ ¬ in_s 64 (value + incr)) then None
      else if decide (¬ in_s w value ∧ value < 2 ^ (w - 1) - 2 ^ 63) then
        Some (1, match ow with BFOVERFLOW_WRAP => Some (swrap w value) | BFOVERFLOW_SAT => Some (2 ^ (w - 1) - 1) | BFOVERFLOW_FAIL => None end)
      else Some (bounded (- 2 ^ (w - 1)) (2 ^ (w - 1) - 1) (value + incr) (swrap w (value + incr)) ow)).
Proof. intros Hi. split; intros; [by apply check_unsigned_ok|by apply check_signed_ok]. Qed.

Lemma bitfield_overflow_bounds_witness : checkUnsignedBitfieldOverflow 250 10 8 BFOVERFLOW_WRAP = Some (1, Some 4) ∧ checkSignedBitfieldOverflow (-100) (-100) 8 BFOVERFLOW_SAT = Some (-1, Some (-128)).
Proof.
  split.
  - rewrite (proj1 (bitfield_overflow_bounds 250 10 8 BFOVERFLOW_WRAP ltac:(split; simpl; lia))); [vm_compute; reflexivity|lia|left; split; simpl; lia].
  - rewrite (proj2 (bitfield_overflow_bounds (-100) (-100) 8 BFOVERFLOW_SAT ltac:(split; simpl; lia))); [|lia|left; split; simpl; lia].
    rewrite decide_False by lia. rewrite decide_False by (intros [_ H]; simpl in H; lia). reflexivity.
Defined.

(** Saturating the least 64-bit integer into 8 bits gives the maximum: the
    distance to it overflows before the value is compared with the minimum. *)
Example saturate_least : checkSignedBitfieldOverflow (- 2 ^ 63) 0 8 BFOVERFLOW_SAT = Some (1, Some 127).
Proof. vm_compute. reflexivity. Qed.

(** Wrapping at 64 bits shifts by the width of the type. *)
Example wrap_64 : checkSignedBitfieldOverflow (2 ^ 63 - 1) 1 64 BFOVERFLOW_WRAP = None.
Proof. vm_compute. reflexivity. Qed.
