(* ===== verification/BitCmd.v ===== *)
(** * bitops.c: the commands on bitmaps

    SETBIT, GETBIT, BITCOUNT, BITPOS, BITOP and BITFIELD on a keyspace of
    strings. A string object is raw or holds an integer, whose decimal form is
    its contents; values of other types are refused. [addr k] is the address of
    the bytes of the string at [k], on which the loops over words depend.
    [None] stands for undefined behaviour. *)

From stdpp Require Import strings.
From S2P Require Import Prelude Decimal Util Keyspace Bitops.

Inductive kstr := StrRaw (s : list Z) | StrInt (n : Z) | NotString.

Abbreviation bserver := (server kstr).
Abbreviation NotifyString := (Notify NOTIFY_STRING).

Definition LONG_STR_SIZE : nat := 21.

(** [getObjectReadOnlyString] of a string object; [llbuf] has arbitrary contents. *)
Definition getObjectReadOnlyString (o : kstr) : option (list Z) :=
  match o with
  | StrRaw s => Some s
  | StrInt n => '(llbuf, len) ← ll2string (replicate LONG_STR_SIZE 0) n; Some (take (Z.to_nat len) llbuf)
  | NotString => None
  end.

Definition off_err : reply := RError "bit offset is not an integer or out of range".
Definition type_err : reply := RError "Invalid bitfield type. Use something like i16 u8. Note that u64 is not supported but i64 is.".

(** [getBitOffsetFromArgument(c, o, &offset, hash, bits)]: [inr] is the error. *)
Definition getBitOffsetFromArgument (o : list Z) (hash : bool) (nbits : Z) : option (Z + reply) :=
  let usehash := match o with c :: _ => (c =? 35) && hash && (0 <? nbits) | [] => false end in
  match string2ll (if usehash then tail o else o) with
  | None => Some (inr off_err)
  | Some loffset =>
      let loffset := if usehash then loffset * nbits else loffset in
      if bool_decide (in_s 64 loffset) then
        if (loffset <? 0) || (512 * 1024 * 1024 <=? Z.shiftr loffset 3) then Some (inr off_err) else Some (inl loffset)
      else None
  end.

(** [getBitfieldTypeFromArgument]: the sign and the width. *)
Definition getBitfieldTypeFromArgument (o : list Z) : (bool * Z) + reply :=
  match o with
  | [] => inr type_err
  | c :: p =>
      if (c =? 105) || (c =? 117) then
        let sign := c =? 105 in
        match string2ll (c_string p) with
        | None => inr type_err
        | Some llbits => if (llbits <? 1) || (sign && (64 <? llbits)) || (negb sign && (63 <? llbits)) then inr type_err else inl (sign, llbits)
        end
      else inr type_err
  end.

(** [sdsgrowzero] on the bytes of a string. *)
Definition growzero (s : list Z) (n : nat) : list Z := s ++ replicate (n - length s) 0.

(** [lookupStringForBitCommand(c, maxbit)]: the bytes of the string, or the state after the error. *)
Definition lookupStringForBitCommand (s : bserver) (k : list Z) (maxbit : Z) : option (list Z + bserver) :=
  let byte := Z.to_nat (Z.shiftr maxbit 3) in
  match keys s !! k with
  | None => Some (inl (replicate (S byte) 0))
  | Some NotString => Some (inr (addReply s RWrongType))
  | Some o => p ← getObjectReadOnlyString o; Some (inl (growzero p (S byte)))
  end.

Section commands.
Context (addr : list Z → Z).

Definition setbitCommand (s : bserver) (k offset bit_ : list Z) : option bserver :=
  r ← getBitOffsetFromArgument offset false 0;
  match r with
  | inr e => Some (addReply s e)
  | inl bitoffset =>
      match getLongFromObject s bit_ "bit is not an integer or out of range" with
      | inr s => Some s
      | inl on =>
          if negb ((on =? 0) || (on =? 1)) then Some (addReply s (RError "bit is not an integer or out of range")) else
          r ← lookupStringForBitCommand s k bitoffset;
          match r with
          | inr s => Some s
          | inl p =>
              let byte := Z.to_nat (Z.shiftr bitoffset 3) in
              byteval ← p !! byte;
              let bit := 7 - Z.land bitoffset 7 in
              let bitval := Z.land byteval (Z.shiftl 1 bit) in
              let byteval := Z.land byteval (Z.lnot (Z.shiftl 1 bit)) in
              let byteval := Z.lor byteval (Z.shiftl (Z.land on 1) bit) in
              let s := set_key s k (StrRaw (<[byte := u8 byteval]> p)) in
              let s := add_dirty (log (log s (SignalModified k)) (NotifyString "setbit" k)) 1 in
              Some (addReply s (RLong (if bitval =? 0 then 0 else 1)))
          end
      end
  end.

Definition getbitCommand (s : bserver) (k offset : list Z) : option bserver :=
  r ← getBitOffsetFromArgument offset false 0;
  match r with
  | inr e => Some (addReply s e)
  | inl bitoffset =>
      match keys s !! k with
      | None => Some (addReply s (RLong 0))
      | Some NotString => Some (addReply s RWrongType)
      | Some o =>
          p ← getObjectReadOnlyString o;
          let bit := 7 - Z.land bitoffset 7 in
          let bitval := match p !! Z.to_nat (Z.shiftr bitoffset 3) with Some b => Z.land b (Z.shiftl 1 bit) | None => 0 end in
          Some (addReply s (RLong (if bitval =? 0 then 0 else 1)))
      end
  end.

(** Negative indexes of BITCOUNT and BITPOS. *)
Definition convert_bytes (strlen start end_ : Z) : Z * Z :=
  let start := if start <? 0 then strlen + start else start in
  let end_ := if end_ <? 0 then strlen + end_ else end_ in
  let start := if start <? 0 then 0 else start in
  let end_ := if end_ <? 0 then 0 else end_ in
  (start, if strlen <=? end_ then strlen - 1 else end_).

(** [redisPopcount(p + start, end - start + 1)] *)
Definition bitcountCommand (s : bserver) (k : list Z) (args : list (list Z)) : option bserver :=
  match keys s !! k with
  | None => Some (addReply s (RLong 0))
  | Some NotString => Some (addReply s RWrongType)
  | Some o =>
      p ← getObjectReadOnlyString o;
      let strlen := Z.of_nat (length p) in
      let count start end_ :=
        if end_ <? start then Some (addReply s (RLong 0))
        else bs ← mread p start (end_ - start + 1); n ← redisPopcount (addr k + start) bs; Some (addReply s (RLong n)) in
      match args with
      | [a; b] =>
          match getLongFromObjectOrReply s a with
          | inr s => Some s
          | inl start =>
              match getLongFromObjectOrReply s b with
              | inr s => Some s
              | inl end_ =>
                  if (start <? 0) && (end_ <? 0) && (end_ <? start) then Some (addReply s (RLong 0))
                  else let '(start, end_) := convert_bytes strlen start end_ in count start end_
              end
          end
      | [] => count 0 (strlen - 1)
      | _ => Some (addReply s RSyntax)
      end
  end.

Definition bitposCommand (s : bserver) (k bit_ : list Z) (args : list (list Z)) : option bserver :=
  match getLongFromObjectOrReply s bit_ with
  | inr s => Some s
  | inl bit =>
      if negb (bit =? 0) && negb (bit =? 1) then Some (addReply s (RError "The bit argument must be 1 or 0.")) else
      match keys s !! k with
      | None => Some (addReply s (RLong (if bit =? 0 then 0 else -1)))
      | Some NotString => Some (addReply s RWrongType)
      | Some o =>
          p ← getObjectReadOnlyString o;
          let strlen := Z.of_nat (length p) in
          let find start end_ (end_given : bool) :=
            if end_ <? start then Some (addReply s (RLong (-1)))
            else
              let bytes := end_ - start + 1 in
              bs ← mread p start bytes;
              pos ← redisBitpos (addr k + start) bs bit;
              if end_given && (bit =? 0) && (pos =? bytes * 8) then Some (addReply s (RLong (-1)))
              else Some (addReply s (RLong (if pos =? -1 then pos else pos + start * 8))) in
          match args with
          | [] => find 0 (strlen - 1) false
          | [a] =>
              match getLongFromObjectOrReply s a with
              | inr s => Some s
              | inl start => let '(start, end_) := convert_bytes strlen start (strlen - 1) in find start end_ false
              end
          | [a; b] =>
              match getLongFromObjectOrReply s a with
              | inr s => Some s
              | inl start =>
                  match getLongFromObjectOrReply s b with
                  | inr s => Some s
                  | inl end_ => let '(start, end_) := convert_bytes strlen start end_ in find start end_ true
                  end
              end
          | _ => Some (addReply s RSyntax)
          end
      end
  end.
End commands.

(** ** BITOP *)

Inductive bitop := BITOP_AND | BITOP_OR | BITOP_XOR | BITOP_NOT.

Definition op2 (op : bitop) : Z → Z → Z := match op with BITOP_AND => Z.land | BITOP_OR => Z.lor | BITOP_XOR => Z.lxor | BITOP_NOT => λ a _, a end.

Definition parse_op (name : list Z) : option bitop :=
  if is_word name [97; 110; 100] then Some BITOP_AND else if is_word name [111; 114] then Some BITOP_OR
  else if is_word name [120; 111; 114] then Some BITOP_XOR else if is_word name [110; 111; 116] then Some BITOP_NOT else None.

(** The four words of 8 bytes at the start of a block of 32. *)
Definition words4 (s : list Z) : list Z := (λ i, le_val (take 8 (drop (8 * i) s))) <$> seq 0 4.

(** One round of the fast path: 32 bytes of the result from 32 bytes of every source. *)
Definition fast_round (op : bitop) (lres : list Z) (others : list (list Z)) : list Z :=
  let ws := foldl (λ ws src, zip_with (op2 op) ws (words4 src)) (words4 lres) others in
  concat (le_bytes 8 <$> (match op with BITOP_NOT => unot 64 <$> ws | _ => ws end)).

(** [while (minlen >= sizeof(unsigned long) * 4)]: the result bytes so far and their number [j]. *)
Fixpoint fast_loop (fuel : nat) (op : bitop) (src : list (list Z)) (minlen j : nat) (res : list Z) : list Z * nat :=
  match fuel with
  | O => (res, j)
  | S f =>
      if decide (32 ≤ minlen)%nat then
        fast_loop f op src (minlen - 32) (j + 32) (res ++ fast_round op (take 32 (drop j (default [] (head src)))) ((λ s, take 32 (drop j s)) <$> tail src))
      else (res, j)
  end.

(** [output] for the byte [j]. *)
Definition slow_byte (op : bitop) (src : list (list Z)) (j : nat) : Z :=
  let at_ s := default 0 (s !! j) in
  let output := at_ (default [] (head src)) in
  let output := match op with BITOP_NOT => unot 8 output | _ => output end in
  foldl (λ output s, op2 op output (at_ s)) output (tail src).

Definition bitop_bytes (op : bitop) (src : list (list Z)) (minlen maxlen : nat) : list Z :=
  let '(res, j) := if decide ((32 ≤ minlen)%nat ∧ (length src ≤ 16)%nat) then fast_loop minlen op src minlen 0 [] else ([], 0%nat) in
  res ++ (slow_byte op src <$> seq j (maxlen - j)).

(** The source strings; [inr] when one of them is not a string. *)
Fixpoint load_sources (s : bserver) (ks : list (list Z)) : option (list (list Z) + bserver) :=
  match ks with
  | [] => Some (inl [])
  | k :: ks =>
      match keys s !! k with
      | Some NotString => Some (inr (addReply s RWrongType))
      | o =>
          p ← match o with None => Some [] | Some o => getObjectReadOnlyString o end;
          r ← load_sources s ks;
          Some (match r with inl ps => inl (p :: ps) | inr s => inr s end)
      end
  end.

Definition min_len (lens : list nat) : nat := match lens with [] => 0%nat | l :: ls => foldl Nat.min l ls end.

Definition bitopCommand (s : bserver) (name target : list Z) (ks : list (list Z)) : option bserver :=
  match parse_op name with
  | None => Some (addReply s RSyntax)
  | Some op =>
      if match op with BITOP_NOT => negb (Nat.eqb (length ks) 1) | _ => false end then Some (addReply s (RError "BITOP NOT must be called with a single source key.")) else
      r ← load_sources s ks;
      match r with
      | inr s => Some s
      | inl src =>
          let lens := length <$> src in
          let maxlen := foldr Nat.max 0%nat lens in
          let s :=
            if decide (0 < maxlen)%nat then log (log (set_key s target (StrRaw (bitop_bytes op src (min_len lens) maxlen))) (SignalModified target)) (NotifyString "set" target)
            else match keys s !! target with Some _ => log (log (dbDelete s target) (SignalModified target)) (Notify NOTIFY_GENERIC "del" target) | None => s end in
          Some (addReply (add_dirty s 1) (RLong (Z.of_nat maxlen)))
      end
  end.

(** ** BITFIELD *)

Inductive opcode := BITFIELDOP_GET | BITFIELDOP_SET | BITFIELDOP_INCRBY.

Record bitfieldOp := BitfieldOp { bf_offset : Z; bf_i64 : Z; bf_opcode : opcode; bf_owtype : owtype; bf_bits : Z; bf_sign : bool }.

(** The arguments from [j] on: operations, [readonly] and [highest_write_offset], or the error. *)
Fixpoint parse_ops (fuel : nat) (args : list (list Z)) (ow : owtype) (ops : list bitfieldOp) (readonly : bool) (highest : Z) : option (list bitfieldOp * bool * Z + reply) :=
  match fuel with
  | O => None
  | S f =>
      match args with
      | [] => Some (inl (ops, readonly, highest))
      | sub :: rest =>
          let remargs := Z.of_nat (length rest) in
          let code :=
            if is_word sub [103; 101; 116] && (2 <=? remargs) then Some BITFIELDOP_GET
            else if is_word sub [115; 101; 116] && (3 <=? remargs) then Some BITFIELDOP_SET
            else if is_word sub [105; 110; 99; 114; 98; 121] && (3 <=? remargs) then Some BITFIELDOP_INCRBY else None in
          match code, rest with
          | None, a :: rest =>
              if is_word sub [111; 118; 101; 114; 102; 108; 111; 119] then
                if is_word a [119; 114; 97; 112] then parse_ops f rest BFOVERFLOW_WRAP ops readonly highest
                else if is_word a [115; 97; 116] then parse_ops f rest BFOVERFLOW_SAT ops readonly highest
                else if is_word a [102; 97; 105; 108] then parse_ops f rest BFOVERFLOW_FAIL ops readonly highest
                else Some (inr (RError "Invalid OVERFLOW type specified"))
              else Some (inr RSyntax)
          | Some code, ty :: off :: rest =>
              match getBitfieldTypeFromArgument ty with
              | inr e => Some (inr e)
              | inl (sign, nbits) =>
                  r ← getBitOffsetFromArgument off true nbits;
                  match r with
                  | inr e => Some (inr e)
                  | inl bitoffset =>
                      match code, rest with
                      | BITFIELDOP_GET, _ => parse_ops f rest ow (ops ++ [BitfieldOp bitoffset 0 code ow nbits sign]) readonly highest
                      | _, v :: rest =>
                          match string2ll v with
                          | None => Some (inr (RError "value is not an integer or out of range"))
                          | Some i64 => parse_ops f rest ow (ops ++ [BitfieldOp bitoffset i64 code ow nbits sign]) false (if highest <? bitoffset + nbits - 1 then bitoffset + nbits - 1 else highest)
                          end
                      | _, [] => None
                      end
                  end
              end
          | _, _ => Some (inr RSyntax)
          end
      end
  end.

(** SET and INCRBY: the string after it and the reply. The sum of two [int64_t]
    is undefined when it does not fit. *)
Definition write_op (p : list Z) (op : bitfieldOp) : option (list Z * reply) :=
  let incrby := match bf_opcode op with BITFIELDOP_INCRBY => true | _ => false end in
  let fail := match bf_owtype op with BFOVERFLOW_FAIL => true | _ => false end in
  if bf_sign op then
    oldval ← getSignedBitfield p (bf_offset op) (bf_bits op);
    newval ← (if incrby then if bool_decide (in_s 64 (oldval + bf_i64 op)) then Some (oldval + bf_i64 op) else None else Some (bf_i64 op));
    '(overflow, wrapped) ← (if incrby then checkSignedBitfieldOverflow oldval (bf_i64 op) (bf_bits op) (bf_owtype op) else checkSignedBitfieldOverflow newval 0 (bf_bits op) (bf_owtype op));
    let newval := if overflow =? 0 then newval else default 0 wrapped in
    let retval := if incrby then newval else oldval in
    if negb (negb (overflow =? 0) && fail) then p ← setSignedBitfield p (bf_offset op) (bf_bits op) newval; Some (p, RLong retval)
    else Some (p, RNullBulk)
  else
    oldval ← getUnsignedBitfield p (bf_offset op) (bf_bits op);
    let newval := if incrby then u64 (oldval + bf_i64 op) else u64 (bf_i64 op) in
    '(overflow, wrapped) ← (if incrby then checkUnsignedBitfieldOverflow oldval (bf_i64 op) (bf_bits op) (bf_owtype op) else checkUnsignedBitfieldOverflow newval 0 (bf_bits op) (bf_owtype op));
    let newval := if overflow =? 0 then newval else default 0 wrapped in
    let retval := if incrby then newval else oldval in
    if negb (negb (overflow =? 0) && fail) then p ← setUnsignedBitfield p (bf_offset op) (bf_bits op) newval; Some (p, RLong (s64 retval))
    else Some (p, RNullBulk).

(** GET: through a buffer of 9 bytes that is padded with zeros. *)
Definition read_op (src : list Z) (op : bitfieldOp) : option reply :=
  let byte := Z.shiftr (bf_offset op) 3 in
  let buf := take 9 (drop (Z.to_nat byte) src ++ replicate 9 0) in
  if bf_sign op then v ← getSignedBitfield buf (bf_offset op - byte * 8) (bf_bits op); Some (RLong v)
  else v ← getUnsignedBitfield buf (bf_offset op - byte * 8) (bf_bits op); Some (RLong (s64 v)).

(** [for (j = 0; j < numops; j++)]: the string, the replies and the changes. *)
Fixpoint run_ops (p : list Z) (ops : list bitfieldOp) : option (list Z * list reply * Z) :=
  match ops with
  | [] => Some (p, [], 0)
  | op :: ops =>
      match bf_opcode op with
      | BITFIELDOP_GET => r ← read_op p op; '(p, rs, n) ← run_ops p ops; Some (p, r :: rs, n)
      | _ => '(p, r) ← write_op p op; '(p, rs, n) ← run_ops p ops; Some (p, r :: rs, n + 1)
      end
  end.

Definition bitfieldCommand (s : bserver) (k : list Z) (args : list (list Z)) : option bserver :=
  r ← parse_ops (S (length args)) args BFOVERFLOW_WRAP [] true 0;
  match r with
  | inr e => Some (addReply s e)
  | inl (ops, readonly, highest) =>
      r ← (if (readonly : bool) then
             match keys s !! k with
             | None => Some (inl [])
             | Some NotString => Some (inr (addReply s RWrongType))
             | Some o => p ← getObjectReadOnlyString o; Some (inl p)
             end
           else lookupStringForBitCommand s k highest);
      match r with
      | inr s => Some s
      | inl p =>
          '(p, rs, changes) ← run_ops p ops;
          let s := if (readonly : bool) then s else set_key s k (StrRaw p) in
          let s := add_replies s (RMultiLen (Z.of_nat (length ops)) :: rs) in
          Some (if changes =? 0 then s else add_dirty (log (log s (SignalModified k)) (NotifyString "setbit" k)) changes)
      end
  end.
