(* ===== verification/BitSpec.v ===== *)
(** * bitops.c: the commands on arrays of bits

    [spec] says what every command does to a database of bitmaps; the theorem
    [bit_commands_refine] relates any sequence of commands of BitCmd.v to it. *)

From stdpp Require Import strings.
From S2P Require Import Prelude Decimal Util Keyspace Bitops BitCmd.

Inductive aval := ABits (B : list bool) | ANot.
Abbreviation db := (gmap (list Z) aval).
Abbreviation outcome := (Keyspace.outcome aval).

(** A string of at most 2^30 bytes and its bits. *)
Definition string_bits (p : list Z) (B : list bool) : Prop := Forall byte_ok p ∧ bits p = B ∧ Z.of_nat (length p) < 2 ^ 30.

Definition holds_val (v : kstr) (a : aval) : Prop :=
  match a with ABits B => ∃ p, getObjectReadOnlyString v = Some p ∧ string_bits p B | ANot => v = NotString end.

Abbreviation srv_ok := (keys_ok holds_val).
Abbreviation refines := (refines_by holds_val).

(** ** Specification *)

Inductive command := SETBIT (k off b : list Z) | GETBIT (k off : list Z) | BITCOUNT (k : list Z) (args : list (list Z)) | BITPOS (k b : list Z) (args : list (list Z))
  | BITOP (name target : list Z) (ks : list (list Z)) | BITFIELD (k : list Z) (args : list (list Z)).

Definition with_string (D : db) (k : list Z) (absent : outcome) (f : list bool → outcome) : outcome :=
  match D !! k with None => absent | Some ANot => answer D RWrongType | Some (ABits B) => f B end.

Definition bitmap (o : option aval) : list bool := match o with Some (ABits B) => B | _ => [] end.

(** Strings grow by whole bytes so that bit [m] exists. *)
Definition grown (B : list bool) (m : nat) : list bool := B ++ replicate (8 * S (m / 8) - length B) false.

Definition nbytes (B : list bool) : Z := Z.of_nat (length B / 8).

(** A bit offset is a number from 0 to 2^32 - 1; in BITFIELD, [#n] is the
    offset of the integer [n] in an array of integers of [w] bits. *)
Definition bit_number (array : option Z) (arg : list Z) : option Z :=
  m ← match array, arg with
    | Some w, c :: n => if c =? 35 then (λ n, n * w) <$> string2ll n else string2ll arg
    | _, _ => string2ll arg
    end;
  if bool_decide (0 ≤ m < 2 ^ 32) then Some m else None.

(** The first and the last byte of a range: negative indexes count from the
    end, and both are moved into the string. *)
Definition from_start (n i : Z) : Z := if bool_decide (i < 0) then Z.max 0 (n + i) else i.
Definition byte_span (n a b : Z) : Z * Z := (from_start n a, Z.min (n - 1) (from_start n b)).

(** The bits of the bytes from [s] to [e]. *)
Definition byte_range (B : list bool) (s e : Z) : list bool := take (8 * Z.to_nat (e - s + 1)) (drop (8 * Z.to_nat s) B).

Definition setbit_events (k : list Z) : list event := [SignalModified k; NotifyString "setbit" k].

(** BITPOS in a range of bytes. *)
Definition find_spec (B : list bool) (b : bool) (s e : Z) (end_given : bool) : Z :=
  if e <? s then -1
  else match first_bit b (byte_range B s e) with
    | Some i => Z.of_nat i + s * 8
    | None => if b || end_given then -1 else (e + 1) * 8
    end.

(** BITOP: the name of the operation. *)
Definition named_op (name : list Z) : option bitop :=
  if keyword "and" name then Some BITOP_AND else if keyword "or" name then Some BITOP_OR
  else if keyword "xor" name then Some BITOP_XOR else if keyword "not" name then Some BITOP_NOT else None.

(** BITOP: bit [i] of the result; shorter bitmaps are padded with zeros. *)
Definition bit_of (B : list bool) (i : nat) : bool := default false (B !! i).
Definition combine_bit (op : bitop) (l : list bool) : bool :=
  match op, l with
  | _, [] => false
  | BITOP_AND, b :: l => foldl andb b l
  | BITOP_OR, b :: l => foldl orb b l
  | BITOP_XOR, b :: l => foldl xorb b l
  | BITOP_NOT, b :: _ => negb b
  end.
Definition combine (op : bitop) (Bs : list (list bool)) : list bool := (λ i, combine_bit op ((λ B, bit_of B i) <$> Bs)) <$> seq 0 (foldr Nat.max 0%nat (length <$> Bs)).

(** BITFIELD: integers at bit offsets. [None] where the code is undefined or
    wrong: the field is a negative integer of 64 bits, the sum of a signed field
    and its increment does not fit in 64 bits, or a signed field is set, with
    saturation, to a value below its range and 2^63 or more below its maximum. *)
Definition field (B : list bool) (o w : nat) : Z := bin_val (take w (drop o (B ++ replicate (o + w) false))).
Definition put (B : list bool) (o w : nat) (v : Z) : list bool := take o B ++ bin_digits w v ++ drop (o + w) B.

Definition op_spec (B : list bool) (op : bitfieldOp) : option (list bool * reply) :=
  let o := Z.to_nat (bf_offset op) in
  let w := bf_bits op in
  let n := Z.to_nat w in
  let incrby := match bf_opcode op with BITFIELDOP_INCRBY => true | _ => false end in
  let u := field B o n in
  let lo := if bf_sign op then - 2 ^ (w - 1) else 0 in
  let hi := if bf_sign op then 2 ^ (w - 1) - 1 else 2 ^ w - 1 in
  let old := if bf_sign op then swrap w u else u in
  if bf_sign op && (w =? 64) && (2 ^ 63 <=? u) then None else
  match bf_opcode op with
  | BITFIELDOP_GET => Some (B, RLong old)
  | _ =>
      let x := if incrby then old + bf_i64 op else if bf_sign op then bf_i64 op else u64 (bf_i64 op) in
      let wrapped := if bf_sign op then swrap w x else x `mod` 2 ^ w in
      let '(overflow, limit) := bounded lo hi x wrapped (bf_owtype op) in
      let new := default x limit in
      if bf_sign op && incrby && negb (bool_decide (in_s 64 x)) then None
      else if bf_sign op && (negb incrby && match bf_owtype op with BFOVERFLOW_SAT => true | _ => false end && (x <? lo) && (x <? 2 ^ (w - 1) - 2 ^ 63)) then None
      else match bf_owtype op with
        | BFOVERFLOW_FAIL => if overflow =? 0 then Some (put B o n new, RLong (if incrby then new else old)) else Some (B, RNullBulk)
        | _ => Some (put B o n new, RLong (if incrby then new else old))
        end
  end.

Fixpoint ops_spec (B : list bool) (ops : list bitfieldOp) : option (list bool * list reply) :=
  match ops with
  | [] => Some (B, [])
  | op :: ops => '(B, r) ← op_spec B op; '(B, rs) ← ops_spec B ops; Some (B, r :: rs)
  end.

Definition is_write (op : bitfieldOp) : bool := match bf_opcode op with BITFIELDOP_GET => false | _ => true end.
Definition writes (ops : list bitfieldOp) : Z := Z.of_nat (length (List.filter is_write ops)).

Definition readonly (ops : list bitfieldOp) : bool := forallb (λ op, negb (is_write op)) ops.

(** The last bit that is written. *)
Definition highest_from (h : Z) (ops : list bitfieldOp) : Z := foldl (λ h op, if is_write op then Z.max h (bf_offset op + bf_bits op - 1) else h) h ops.

(** BITFIELD: the type of an integer, [i] and 1 to 64 bits or [u] and 1 to 63. *)
Definition field_type (ty : list Z) : option (bool * Z) :=
  match ty with
  | [] => None
  | c :: n =>
      w ← string2ll (c_string n);
      if c =? 105 then if bool_decide (1 ≤ w ≤ 64) then Some (true, w) else None
      else if c =? 117 then if bool_decide (1 ≤ w ≤ 63) then Some (false, w) else None
      else None
  end.

(** One operation, with the value if it has one. *)
Definition field_op (code : opcode) (ow : owtype) (ty off : list Z) (v : option (list Z)) : bitfieldOp + reply :=
  match field_type ty with
  | None => inr type_err
  | Some (sign, w) =>
      match bit_number (Some w) off with
      | None => inr off_err
      | Some m =>
          match v with
          | None => inl (BitfieldOp m 0 code ow w sign)
          | Some v => match string2ll v with None => inr (RError "value is not an integer or out of range") | Some n => inl (BitfieldOp m n code ow w sign) end
          end
      end
  end.

Definition and_then (r : bitfieldOp + reply) (l : list bitfieldOp + reply) : list bitfieldOp + reply :=
  match r, l with inr e, _ => inr e | inl _, inr e => inr e | inl op, inl ops => inl (op :: ops) end.

Definition policy (a : list Z) : option owtype :=
  if keyword "wrap" a then Some BFOVERFLOW_WRAP else if keyword "sat" a then Some BFOVERFLOW_SAT else if keyword "fail" a then Some BFOVERFLOW_FAIL else None.

(** The operations: GET type offset, SET type offset value, INCRBY type offset
    value, and OVERFLOW policy, which holds for the operations behind it. The
    first argument that is not right is the error. *)
Fixpoint fields_of (args : list (list Z)) (ow : owtype) : list bitfieldOp + reply :=
  match args with
  | [] => inl []
  | sub :: [] => inr RSyntax
  | sub :: ty :: rest1 =>
      let otherwise :=
        if keyword "overflow" sub then match policy ty with Some ow => fields_of rest1 ow | None => inr (RError "Invalid OVERFLOW type specified") end
        else inr RSyntax in
      match rest1 with
      | [] => otherwise
      | off :: rest2 =>
          if keyword "get" sub then and_then (field_op BITFIELDOP_GET ow ty off None) (fields_of rest2 ow) else
          match rest2 with
          | [] => otherwise
          | v :: rest3 =>
              if keyword "set" sub then and_then (field_op BITFIELDOP_SET ow ty off (Some v)) (fields_of rest3 ow)
              else if keyword "incrby" sub then and_then (field_op BITFIELDOP_INCRBY ow ty off (Some v)) (fields_of rest3 ow)
              else otherwise
          end
      end
  end.

(** The bits that the operations of BITFIELD work on. *)
Definition field_bits (o : option aval) (ops : list bitfieldOp) : list bool := if readonly ops then bitmap o else grown (bitmap o) (Z.to_nat (highest_from 0 ops)).

Definition spec (c : command) (D : db) : outcome :=
  match c with
  | SETBIT k off b =>
      match bit_number None off with
      | Some m =>
          match string2ll b with
          | Some n =>
              if (n =? 0) || (n =? 1) then
                with_string D k (Outcome (<[k := ABits (<[Z.to_nat m := n =? 1]> (grown [] (Z.to_nat m)))]> D) 1 (setbit_events k) [RLong 0]) (λ B,
                  Outcome (<[k := ABits (<[Z.to_nat m := n =? 1]> (grown B (Z.to_nat m)))]> D) 1 (setbit_events k) [RLong (Z.b2z (bit_of B (Z.to_nat m)))])
              else answer D (RError "bit is not an integer or out of range")
          | None => answer D (RError "bit is not an integer or out of range")
          end
      | _ => answer D off_err
      end
  | GETBIT k off =>
      match bit_number None off with
      | Some m => with_string D k (answer D (RLong 0)) (λ B, answer D (RLong (Z.b2z (bit_of B (Z.to_nat m)))))
      | _ => answer D off_err
      end
  | BITCOUNT k args => with_string D k (answer D (RLong 0)) (λ B,
      let count s e := answer D (RLong (if e <? s then 0 else ones_in (byte_range B s e))) in
      match args with
      | [] => count 0 (nbytes B - 1)
      | [a; b] => with_int D a (λ a, with_int D b (λ b,
          if (a <? 0) && (b <? 0) && (b <? a) then answer D (RLong 0) else let '(s, e) := byte_span (nbytes B) a b in count s e))
      | _ => answer D RSyntax
      end)
  | BITPOS k b args => with_int D b (λ b,
      if negb (b =? 0) && negb (b =? 1) then answer D (RError "The bit argument must be 1 or 0.") else
      with_string D k (answer D (RLong (if b =? 0 then 0 else -1))) (λ B,
        match args with
        | [] => answer D (RLong (find_spec B (b =? 1) 0 (nbytes B - 1) false))
        | [a] => with_int D a (λ a, let '(s, e) := byte_span (nbytes B) a (nbytes B - 1) in answer D (RLong (find_spec B (b =? 1) s e false)))
        | [a; c] => with_int D a (λ a, with_int D c (λ c, let '(s, e) := byte_span (nbytes B) a c in answer D (RLong (find_spec B (b =? 1) s e true))))
        | _ => answer D RSyntax
        end))
  | BITOP name target ks =>
      match named_op name with
      | None => answer D RSyntax
      | Some op =>
          if match op with BITOP_NOT => negb (Nat.eqb (length ks) 1) | _ => false end then answer D (RError "BITOP NOT must be called with a single source key.")
          else if existsb (λ k, match D !! k with Some ANot => true | _ => false end) ks then answer D RWrongType
          else
            let B := combine op ((λ k, bitmap (D !! k)) <$> ks) in
            match B, D !! target with
            | [], None => Outcome D 1 [] [RLong 0]
            | [], Some _ => Outcome (delete target D) 1 [SignalModified target; Notify NOTIFY_GENERIC "del" target] [RLong 0]
            | _, _ => Outcome (<[target := ABits B]> D) 1 [SignalModified target; NotifyString "set" target] [RLong (nbytes B)]
            end
      end
  | BITFIELD k args =>
      match fields_of args BFOVERFLOW_WRAP with
      | inr e => answer D e
      | inl ops =>
          if match D !! k with Some ANot => true | _ => false end then answer D RWrongType
          else match ops_spec (field_bits (D !! k) ops) ops with
            | Some (B, rs) => Outcome (if readonly ops then D else <[k := ABits B]> D) (writes ops) (if writes ops =? 0 then [] else setbit_events k) (RMultiLen (Z.of_nat (length ops)) :: rs)
            | None => answer D RSyntax
            end
      end
  end.

(** No offset of the form #n is so large that its product with a width overflows. *)
Definition hash_safe (arg : list Z) : bool := match arg with 35 :: n => match string2ll n with Some n => bool_decide (in_s 57 n) | None => true end | _ => true end.

(** The commands whose behaviour is defined, see [op_spec] for BITFIELD. *)
Definition defined (c : command) (D : db) : bool :=
  match c with
  | BITFIELD k args =>
      forallb hash_safe args && match fields_of args BFOVERFLOW_WRAP with
      | inl ops => match ops_spec (field_bits (D !! k) ops) ops with Some _ => true | None => false end
      | inr _ => true
      end
  | _ => true
  end.

(** ** Strings and their bits *)

Lemma string_length p B : string_bits p B → length B = (8 * length p)%nat ∧ nbytes B = Z.of_nat (length p).
Proof. intros (_ & <- & _). rewrite length_bits. split; [done|]. unfold nbytes. rewrite length_bits, Nat.mul_comm, Nat.div_mul by lia. done. Qed.

Lemma zero_bits n : bits (replicate n 0) = replicate (8 * n) false.
Proof. induction n as [|n IH]; [done|]. replace (8 * S n)%nat with (8 + 8 * n)%nat by lia. rewrite replicate_add. change (replicate (S n) 0) with (0 :: replicate n 0). rewrite bits_cons, IH. done. Qed.

Lemma growzero_bits p B m : string_bits p B → Z.of_nat m < 2 ^ 32 + 64 → string_bits (growzero p (S (m / 8))) (grown B m) ∧ (m < length (grown B m))%nat.
Proof.
  intros Hp Hm. destruct (string_length p B Hp) as [Hl _]. destruct Hp as (Hp & HB & Hn). pose proof (Nat.div_mod_eq m 8). pose proof (Nat.mod_upper_bound m 8 ltac:(lia)). split.
  - split_and!.
    + apply Forall_app. split; [done|by apply Forall_replicate].
    + unfold growzero, grown. rewrite bits_app, HB, zero_bits. do 2 f_equal. lia.
    + unfold growzero. rewrite length_app, length_replicate. lia.
  - unfold grown. rewrite length_app, length_replicate. lia.
Qed.

Lemma empty_bits : string_bits [] [].
Proof. split_and!; [constructor|done|done]. Qed.

Lemma grown_lookup B m i : bit_of (grown B m) i = bit_of B i.
Proof.
  unfold bit_of, grown. destruct (decide (i < length B)%nat); [by rewrite lookup_app_l by lia|]. rewrite lookup_app_r by lia. rewrite (lookup_ge_None_2 B i) by lia. simpl. destruct (_ !! _) eqn:E; [|done]. by apply lookup_replicate in E as [-> _].
Qed.

Lemma range_bits p B s n : string_bits p B → 0 ≤ s → 0 ≤ n → s + n ≤ Z.of_nat (length p) →
  ∃ bs, mread p s n = Some bs ∧ Forall byte_ok bs ∧ Z.of_nat (length bs) = n ∧ bits bs = byte_range B s (s + n - 1).
Proof.
  intros (Hp & <- & Hlen) Hs Hn Hl. exists (take (Z.to_nat n) (drop (Z.to_nat s) p)). split_and!.
  - unfold mread. by rewrite decide_True by lia.
  - by apply Forall_take, Forall_drop.
  - rewrite length_take, length_drop. lia.
  - unfold byte_range. rewrite bits_take, bits_drop. by replace (s + n - 1 - s + 1) with n by lia.
Qed.

(** What a key holds. *)
Lemma string_cases K D k : srv_ok K D → (K !! k = None ∧ D !! k = None) ∨ (K !! k = Some NotString ∧ D !! k = Some ANot) ∨
  ∃ o p B, K !! k = Some o ∧ o ≠ NotString ∧ D !! k = Some (ABits B) ∧ getObjectReadOnlyString o = Some p ∧ string_bits p B.
Proof.
  intros HK. destruct (keys_cases holds_val K D k HK) as [?|(v & a & E1 & E2 & Hva)]; [by left|right]. destruct a as [B|]; simpl in Hva; [|subst; by left]. right. destruct Hva as (p & Hp & HB). exists v, p, B. split_and!; try done. by intros ->.
Qed.

(** A command that looks a key up: the three cases. *)
Lemma with_string_ok s D k absent f (g0 : option bserver) (g : list Z → option bserver) : srv_ok (keys s) D →
  (D !! k = None → refines s absent g0) → (∀ p B, D !! k = Some (ABits B) → string_bits p B → refines s (f B) (g p)) →
  refines s (with_string D k absent f) (match keys s !! k with None => g0 | Some NotString => Some (addReply s RWrongType) | Some o => p ← getObjectReadOnlyString o; g p end).
Proof.
  intros HK H0 H1. unfold with_string. destruct (string_cases (keys s) D k HK) as [[-> E]|[[-> ->]|(o & p & B & -> & Ho & E & Hp & HB)]].
  - rewrite E. by apply H0.
  - by apply answer_ok.
  - rewrite E. destruct o; try done; rewrite Hp; by apply (H1 p B).
Qed.

(** The bounds of an offset. *)
Lemma offset_bounds n : in_s 64 n → (if (n <? 0) || (512 * 1024 * 1024 <=? Z.shiftr n 3) then Some (inr off_err) else Some (inl n)) =
  Some (match (if bool_decide (0 ≤ n < 2 ^ 32) then Some n else None) with Some m => inl m | None => inr off_err end).
Proof.
  intros Hn. rewrite Z.shiftr_div_pow2 by lia. change (2 ^ 3) with 8. pose proof (Z.div_mod n 8 ltac:(lia)). pose proof (Z.mod_pos_bound n 8 ltac:(lia)).
  case_bool_decide as Hb; destruct (Z.ltb_spec n 0), (Z.leb_spec (512 * 1024 * 1024) (n / 8)); simpl; try done; lia.
Qed.

Lemma offset_plain off : getBitOffsetFromArgument off false 0 = Some (match bit_number None off with Some m => inl m | None => inr off_err end).
Proof.
  unfold getBitOffsetFromArgument, bit_number. assert ((match off with [] => false | c :: _ => (c =? 35) && false && (0 <? 0) end) = false) as -> by (destruct off; [done|]; by rewrite andb_false_r).
  destruct (string2ll off) as [n|] eqn:E; [|done]. apply string2ll_spec in E as [Hn _]. rewrite bool_decide_true by done. by apply offset_bounds.
Qed.

Lemma bit_number_range a off m : bit_number a off = Some m → 0 ≤ m < 2 ^ 32.
Proof. unfold bit_number. destruct (match a with Some _ => _ | None => _ end) as [n|]; [|done]. cbn [mbind option_bind]. case_bool_decide; [|done]. by intros [= <-]. Qed.

Lemma offset_defined off : (getBitOffsetFromArgument off false 0 = Some (inr off_err) ∧ bit_number None off = None) ∨
  ∃ m, getBitOffsetFromArgument off false 0 = Some (inl (Z.of_nat m)) ∧ bit_number None off = Some (Z.of_nat m) ∧ Z.of_nat m < 2 ^ 32.
Proof.
  rewrite offset_plain. destruct (bit_number None off) as [m|] eqn:E; [right|by left]. apply bit_number_range in E. exists (Z.to_nat m). rewrite Z2Nat.id by lia. split_and!; [done|done|lia].
Qed.

(** ** SETBIT, GETBIT *)

(** The byte and the mask of a bit. *)
Lemma bit_in p m b : p !! (m / 8)%nat = Some b → (if Z.land b (Z.shiftl 1 (7 - Z.land (Z.of_nat m) 7)) =? 0 then 0 else 1) = Z.b2z (bit_of (bits p) m).
Proof.
  intros Hb. pose proof (bits_lookup p m b Hb) as Hx. unfold bit_of. rewrite Hx. simpl default. destruct (offset_parts m) as [_ ->]. pose proof (Nat.mod_upper_bound m 8 ltac:(lia)). change 8 with (Z.of_nat 8). rewrite <- Nat2Z.inj_mod. rewrite Z.shiftl_1_l, Z.land_comm.
  pose proof (land_pow2 (7 - Z.of_nat (m mod 8)) b ltac:(lia)) as Hl. rewrite <- Hl. by destruct (Z.land _ b =? 0).
Qed.

Lemma set_bit_ok p B m v : string_bits p B → (m < length B)%nat → ∃ b, p !! (m / 8)%nat = Some b ∧
  string_bits (<[(m / 8)%nat := u8 (Z.lor (Z.land b (Z.lnot (Z.shiftl 1 (7 - Z.land (Z.of_nat m) 7)))) (Z.shiftl (Z.b2z v) (7 - Z.land (Z.of_nat m) 7)))]> p) (<[m := v]> B).
Proof.
  intros (Hp & <- & Hn) Hm. destruct (byte_of_bit p m Hm) as [b Hb]. exists b. split; [done|]. pose proof (Forall_lookup_1 _ _ _ _ Hp Hb) as Hbo. pose proof (Nat.mod_upper_bound m 8 ltac:(lia)) as Hlt. destruct (offset_parts m) as [_ ->].
  destruct (set_byte_bits b (m mod 8) v Hbo Hlt) as [Hbits Hok]. unfold set_bit_in in *. set (x := Z.lor _ _) in *. assert (u8 x = Z.land x 255) as -> by (unfold uwrap; by rewrite <- Z.land_ones by lia). split_and!.
  - by apply Forall_insert.
  - rewrite (bits_insert p (m / 8) b _ (m mod 8) v Hb Hbits Hlt). by rewrite <- Nat.div_mod_eq.
  - by rewrite length_insert.
Qed.

Lemma lookup_for_ok s D k m : srv_ok (keys s) D → Z.of_nat m < 2 ^ 32 + 64 →
  (D !! k = Some ANot ∧ lookupStringForBitCommand s k (Z.of_nat m) = Some (inr (addReply s RWrongType))) ∨
  D !! k ≠ Some ANot ∧ ∃ p, lookupStringForBitCommand s k (Z.of_nat m) = Some (inl p) ∧ string_bits p (grown (bitmap (D !! k)) m) ∧ (m < length (grown (bitmap (D !! k)) m))%nat.
Proof.
  intros HK Hm. unfold lookupStringForBitCommand. destruct (offset_parts m) as [-> _]. destruct (string_cases (keys s) D k HK) as [[-> E]|[[-> E]|(o & p & B & -> & Ho & E & Hp & HB)]]; rewrite E.
  - right. split; [done|]. exists (replicate (S (m / 8)) 0). split; [done|]. destruct (growzero_bits [] [] m empty_bits Hm) as [H1 H2]. unfold growzero in H1. rewrite Nat.sub_0_r in H1. done.
  - by left.
  - right. split; [done|]. exists (growzero p (S (m / 8))). split; [destruct o; try done; by rewrite Hp|]. by apply growzero_bits.
Qed.

Lemma setbit_ok s D k off b : srv_ok (keys s) D → refines s (spec (SETBIT k off b) D) (setbitCommand s k off b).
Proof.
  intros HK. unfold setbitCommand. cbn [spec]. destruct (offset_defined off) as [[-> ->]|(m & -> & -> & Hm)]; cbn [mbind option_bind]; [by apply answer_ok|]. unfold getLongFromObject. destruct (string2ll b) as [n|]; [|by apply answer_ok]. destruct ((n =? 0) || (n =? 1)) eqn:En; simpl negb; cbv iota; [|by apply answer_ok].
  rewrite Nat2Z.id. assert (Z.land n 1 = Z.b2z (n =? 1)) as ->. { apply orb_prop in En as [E|E]; apply Z.eqb_eq in E; by subst n. } clear En. set (v := n =? 1).
  destruct (lookup_for_ok s D k m HK) as [[E ->]|(Hne & p & -> & Hp & Hlt)]; [lia| |]; cbn [mbind option_bind].
  { unfold with_string. rewrite E. by apply answer_ok. }
  destruct (set_bit_ok p _ m v Hp Hlt) as (b0 & Hb & Hset). destruct (offset_parts m) as [Eb _]. rewrite Eb, Hb. cbn [mbind option_bind]. rewrite (bit_in p m b0 Hb). destruct Hp as (_ & -> & _). rewrite grown_lookup.
  unfold with_string. destruct (D !! k) as [[B|]|]; [| |]; try done; settle_server; (apply keys_insert; [done|]; by eexists).
Qed.

Lemma getbit_ok s D k off : srv_ok (keys s) D → refines s (spec (GETBIT k off) D) (getbitCommand s k off).
Proof.
  intros HK. unfold getbitCommand. cbn [spec]. destruct (offset_defined off) as [[-> ->]|(m & -> & -> & Hm)]; cbn [mbind option_bind]; [by apply answer_ok|]. rewrite Nat2Z.id. apply (with_string_ok s D k _ _ _ (λ p, Some (addReply s (RLong (if match p !! Z.to_nat (Z.shiftr (Z.of_nat m) 3) with Some b => Z.land b (Z.shiftl 1 (7 - Z.land (Z.of_nat m) 7)) | None => 0 end =? 0 then 0 else 1))))); [done|by intros; apply answer_ok|].
  intros p B ED Hp. destruct (offset_parts m) as [-> _]. destruct Hp as (_ & <- & _). destruct (p !! (m / 8)%nat) as [b|] eqn:Eb.
  - rewrite (bit_in p m b Eb). by apply answer_ok.
  - unfold bit_of. rewrite lookup_ge_None_2; [by apply answer_ok|]. rewrite length_bits. apply lookup_ge_None in Eb. pose proof (Nat.div_mod_eq m 8). lia.
Qed.

(** ** BITCOUNT, BITPOS *)

Lemma convert_bytes_span n a b : 0 ≤ n → convert_bytes n a b = byte_span n a b.
Proof.
  intros Hn. unfold convert_bytes, byte_span, from_start. repeat case_bool_decide; repeat case_match;
    repeat match goal with H : (_ <? _) = _ |- _ => first [apply Z.ltb_lt in H|apply Z.ltb_ge in H] | H : (_ <=? _) = _ |- _ => first [apply Z.leb_le in H|apply Z.leb_gt in H] end; f_equal; lia.
Qed.

Lemma byte_span_ok n a b s e : 0 ≤ n → byte_span n a b = (s, e) → 0 ≤ s ∧ e < n.
Proof. unfold byte_span, from_start. intros Hn [= <- <-]. repeat case_bool_decide; lia. Qed.

Section queries.
Context (addr : list Z → Z).

Lemma count_ok s D k p B st e : srv_ok (keys s) D → string_bits p B → 0 ≤ st → e < nbytes B →
  refines s (answer D (RLong (if e <? st then 0 else ones_in (byte_range B st e))))
    (if e <? st then Some (addReply s (RLong 0)) else bs ← mread p st (e - st + 1); n ← redisPopcount (addr k + st) bs; Some (addReply s (RLong n))).
Proof.
  intros HK Hp Hst He. destruct (string_length p B Hp) as [_ En]. destruct (Z.ltb_spec e st); [by apply answer_ok|]. assert (Z.of_nat (length p) < 2 ^ 30) as Hn by apply Hp.
  destruct (range_bits p B st (e - st + 1) Hp) as (bs & -> & Hbs & Hlen & Hbits); [lia|lia|lia|]. cbn [mbind option_bind]. rewrite popcount_ok by (try done; lia). cbn [mbind option_bind]. rewrite Hbits. replace (st + (e - st + 1) - 1) with e by lia. by apply answer_ok.
Qed.

Lemma bitcount_ok s D k args : srv_ok (keys s) D → refines s (spec (BITCOUNT k args) D) (bitcountCommand addr s k args).
Proof.
  intros HK. unfold bitcountCommand. cbn [spec]. apply (with_string_ok s D k _ _ _ (λ p, match args with [] => _ | _ => _ end)); [done|by intros; apply answer_ok|]. intros p B ED Hp. destruct (string_length p B Hp) as [_ En].
  destruct args as [|a [|b [|]]]; [| by apply answer_ok | | by apply answer_ok].
  - rewrite <- En. apply (count_ok s D k p B 0 (nbytes B - 1)); (done || lia).
  - apply with_int_ok; [done|]. intros na _ _. apply with_int_ok; [done|]. intros nb _ _. rewrite <- En. destruct ((na <? 0) && (nb <? 0) && (nb <? na)); [by apply answer_ok|]. rewrite convert_bytes_span by (unfold nbytes; lia). destruct (byte_span (nbytes B) na nb) as [st e] eqn:Ec. apply byte_span_ok in Ec as [H1 H2]; [|unfold nbytes; lia]. by apply count_ok.
Qed.

Lemma find_ok s D k p B bit st e g : srv_ok (keys s) D → string_bits p B → bit = 0 ∨ bit = 1 → 0 ≤ st → e < nbytes B →
  refines s (answer D (RLong (find_spec B (bit =? 1) st e g)))
    (if e <? st then Some (addReply s (RLong (-1)))
     else let bytes := e - st + 1 in bs ← mread p st bytes; pos ← redisBitpos (addr k + st) bs bit;
       if g && (bit =? 0) && (pos =? bytes * 8) then Some (addReply s (RLong (-1))) else Some (addReply s (RLong (if pos =? -1 then pos else pos + st * 8)))).
Proof.
  intros HK Hp Hbit Hst He. destruct (string_length p B Hp) as [_ En]. unfold find_spec. destruct (Z.ltb_spec e st); [by apply answer_ok|]. cbv zeta.
  destruct (range_bits p B st (e - st + 1) Hp) as (bs & -> & Hbs & Hlen & Hbits); [lia|lia|lia|]. cbn [mbind option_bind]. assert (bit = Z.b2z (bit =? 1)) as Eb by (destruct Hbit; by subst). rewrite Eb at 2. rewrite (bitpos_ok _ bs (bit =? 1) Hbs), Hbits. cbn [mbind option_bind].
  replace (st + (e - st + 1) - 1) with e in * by lia. assert (length (byte_range B st e) = (8 * length bs)%nat) as Hrl by (rewrite <- Hbits; apply length_bits). destruct (first_bit (bit =? 1) (byte_range B st e)) as [i|] eqn:Ei.
  - apply first_bit_lookup, lookup_lt_Some in Ei. rewrite (proj2 (Z.eqb_neq (Z.of_nat i) ((e - st + 1) * 8))) by lia. rewrite andb_false_r, (proj2 (Z.eqb_neq (Z.of_nat i) (-1))) by lia. by apply answer_ok.
  - destruct Hbit as [-> | ->]; simpl Z.eqb; cbv iota; simpl orb.
    + rewrite Hlen, (Z.mul_comm 8), Z.eqb_refl, andb_true_r. destruct g; simpl andb; cbv iota; [by apply answer_ok|]. rewrite (proj2 (Z.eqb_neq _ (-1))) by lia. replace ((e - st + 1) * 8 + st * 8) with ((e + 1) * 8) by lia. by apply answer_ok.
    + rewrite andb_false_r. simpl. by apply answer_ok.
Qed.

Lemma bitpos_cmd_ok s D k b args : srv_ok (keys s) D → refines s (spec (BITPOS k b args) D) (bitposCommand addr s k b args).
Proof.
  intros HK. unfold bitposCommand. cbn [spec]. apply with_int_ok; [done|]. intros bit _ _. destruct (negb (bit =? 0) && negb (bit =? 1)) eqn:Eb; [by apply answer_ok|].
  assert (bit = 0 ∨ bit = 1) as Hbit. { destruct (Z.eqb_spec bit 0); [by left|]. destruct (Z.eqb_spec bit 1); [by right|done]. }
  apply (with_string_ok s D k _ _ _ (λ p, match args with [] => _ | _ => _ end)); [done|by intros; apply answer_ok|]. intros p B ED Hp. destruct (string_length p B Hp) as [_ En]. assert (0 ≤ nbytes B) by (unfold nbytes; lia).
  destruct args as [|a [|c [|]]]; [| | |by apply answer_ok]; rewrite <- ?En.
  - apply (find_ok s D k p B bit 0 (nbytes B - 1) false); (done || lia).
  - apply with_int_ok; [done|]. intros na _ _. rewrite <- ?En. rewrite convert_bytes_span by (unfold nbytes; lia). destruct (byte_span (nbytes B) na (nbytes B - 1)) as [st e] eqn:Ec. apply byte_span_ok in Ec as [H1 H2]; [|done]. by apply (find_ok s D k p B bit st e false).
  - apply with_int_ok; [done|]. intros na _ _. apply with_int_ok; [done|]. intros nc _ _. rewrite <- ?En. rewrite convert_bytes_span by (unfold nbytes; lia). destruct (byte_span (nbytes B) na nc) as [st e] eqn:Ec. apply byte_span_ok in Ec as [H1 H2]; [|done]. by apply (find_ok s D k p B bit st e true).
Qed.
End queries.

(** ** BITOP *)

Definition bop2 (op : bitop) : bool → bool → bool := match op with BITOP_AND => andb | BITOP_OR => orb | BITOP_XOR => xorb | BITOP_NOT => λ a _, a end.

Lemma op2_testbit op a b i : Z.testbit (op2 op a b) i = bop2 op (Z.testbit a i) (Z.testbit b i).
Proof. destruct op; simpl; [apply Z.land_spec|apply Z.lor_spec|apply Z.lxor_spec|done]. Qed.

Lemma op2_ok op a b : byte_ok a → byte_ok b → byte_ok (op2 op a b).
Proof. intros Ha Hb. destruct op; simpl; [by apply land_range_r|by apply lor_range|by apply lxor_range|done]. Qed.

Lemma op2_split op x X y Y : byte_ok x → byte_ok y → 0 ≤ X → 0 ≤ Y → op2 op (x + 256 * X) (y + 256 * Y) = op2 op x y + 256 * op2 op X Y.
Proof.
  intros Hx Hy HX HY. change 256 with (2 ^ 8). rewrite <- (le_val_lor x), <- (le_val_lor y) by (done || lia). rewrite <- le_val_lor by (lia || by apply op2_ok). apply Z.bits_inj'. intros i Hi. rewrite op2_testbit, !Z.lor_spec. destruct (decide (i < 8)) as [Hl|Hl].
  - rewrite !Z.shiftl_spec_low, !orb_false_r by done. by rewrite op2_testbit.
  - rewrite !Z.shiftl_spec by lia. rewrite (testbit_above x 8), (testbit_above y 8), (testbit_above (op2 op x y) 8) by (try apply op2_ok; done || lia). simpl. by rewrite op2_testbit.
Qed.

Lemma le_val_op2 op xs ys : Forall byte_ok xs → Forall byte_ok ys → length xs = length ys → op2 op (le_val xs) (le_val ys) = le_val (zip_with (op2 op) xs ys).
Proof.
  intros Hxs. revert ys. induction Hxs as [|x xs Hx Hxs IH]; intros [|y ys] Hys Hl; try done; [by destruct op|]. apply Forall_cons in Hys as [Hy Hys]. cbn [le_val zip_with]. rewrite op2_split, IH; try done; [simpl in Hl; lia|by apply le_val_range|by apply le_val_range].
Qed.

Lemma zip_ok op xs ys : Forall byte_ok xs → Forall byte_ok ys → Forall byte_ok (zip_with (op2 op) xs ys).
Proof. intros Hxs. revert ys. induction Hxs as [|x xs Hx Hxs IH]; intros [|y ys] Hys; simpl; try constructor; apply Forall_cons in Hys as [Hy Hys]; [by apply op2_ok|by apply IH]. Qed.

Lemma word_not bs : Forall byte_ok bs → length bs = 8%nat → le_bytes 8 (unot 64 (le_val bs)) = unot 8 <$> bs.
Proof.
  intros Hb Hl. assert (unot 64 (le_val bs) = le_val (unot 8 <$> bs)) as ->.
  { change (unot 64 (le_val bs)) with (op2 BITOP_XOR (le_val bs) (le_val (replicate 8 255))). rewrite le_val_op2; [|done|by apply Forall_replicate|by rewrite length_replicate]. rewrite <- Hl, zip_with_replicate_r by done. done. }
  rewrite <- Hl at 1. rewrite <- (length_fmap (unot 8) bs). apply le_bytes_val. apply Forall_fmap. eapply Forall_impl; [exact Hb|]. intros x Hx. apply lxor_range; (done || lia).
Qed.

(** A block of 32 bytes as four words. *)
Lemma words4_split a b c d : length a = 8%nat → length b = 8%nat → length c = 8%nat → words4 (a ++ b ++ c ++ d) = [le_val a; le_val b; le_val c; le_val (take 8 d)].
Proof. destruct a as [|? [|? [|? [|? [|? [|? [|? [|? [|]]]]]]]]]; try done. destruct b as [|? [|? [|? [|? [|? [|? [|? [|? [|]]]]]]]]]; try done. by destruct c as [|? [|? [|? [|? [|? [|? [|? [|? [|]]]]]]]]]. Qed.

Lemma block32 (x : list Z) : length x = 32%nat → ∃ a b c d, x = a ++ b ++ c ++ d ∧ length a = 8%nat ∧ length b = 8%nat ∧ length c = 8%nat ∧ length d = 8%nat.
Proof.
  intros Hx. exists (take 8 x), (take 8 (drop 8 x)), (take 8 (drop 16 x)), (drop 24 x). split_and!; rewrite ?length_take, ?length_drop; try lia.
  change 24%nat with (16 + 8)%nat. rewrite <- (drop_drop x 8 16), take_drop. change 16%nat with (8 + 8)%nat. by rewrite <- (drop_drop x 8 8), !take_drop.
Qed.

Lemma words4_zip op x y : Forall byte_ok x → Forall byte_ok y → length x = 32%nat → length y = 32%nat → zip_with (op2 op) (words4 x) (words4 y) = words4 (zip_with (op2 op) x y).
Proof.
  intros Hx Hy Lx Ly. destruct (block32 x Lx) as (a & b & c & d & -> & ? & ? & ? & ?). destruct (block32 y Ly) as (a' & b' & c' & d' & -> & ? & ? & ? & ?). rewrite !Forall_app in *. destruct Hx as (? & ? & ? & ?), Hy as (? & ? & ? & ?).
  rewrite !zip_with_app by congruence. rewrite !words4_split by (rewrite ?length_zip_with; lia). rewrite !take_ge by (rewrite ?length_zip_with; lia). cbn [zip_with]. by rewrite !le_val_op2 by (done || congruence).
Qed.

Lemma words4_bytes x : Forall byte_ok x → length x = 32%nat → concat (le_bytes 8 <$> words4 x) = x ∧ concat (le_bytes 8 <$> (unot 64 <$> words4 x)) = unot 8 <$> x.
Proof.
  intros Hx Lx. destruct (block32 x Lx) as (a & b & c & d & -> & La & Lb & Lc & Ld). rewrite !Forall_app in Hx. destruct Hx as (Ha & Hb & Hc & Hd). rewrite words4_split, (take_ge d) by (done || lia). cbn [fmap list_fmap concat]. rewrite !word_not by done. rewrite !app_nil_r. split.
  - pose proof (le_bytes_val a Ha) as Ea. pose proof (le_bytes_val b Hb) as Eb. pose proof (le_bytes_val c Hc) as Ec. pose proof (le_bytes_val d Hd) as Ed. rewrite La in Ea. rewrite Lb in Eb. rewrite Lc in Ec. rewrite Ld in Ed. by rewrite Ea, Eb, Ec, Ed.
  - change (list_fmap Z Z (unot 8)) with (fmap (M := list) (unot 8)). by rewrite !fmap_app.
Qed.

Lemma fold_words op others x : Forall byte_ok x → length x = 32%nat → Forall (λ y, Forall byte_ok y ∧ length y = 32%nat) others →
  foldl (λ ws src, zip_with (op2 op) ws (words4 src)) (words4 x) others = words4 (foldl (zip_with (op2 op)) x others) ∧ Forall byte_ok (foldl (zip_with (op2 op)) x others) ∧ length (foldl (zip_with (op2 op)) x others) = 32%nat ∧
  ∀ i a, x !! i = Some a → foldl (zip_with (op2 op)) x others !! i = Some (foldl (λ v s, op2 op v (default 0 (s !! i))) a others).
Proof.
  intros Hx Lx Ho. revert x Hx Lx. induction Ho as [|y others [Hy Ly] Ho IH]; intros x Hx Lx; [done|]. cbn [foldl]. rewrite words4_zip by done. destruct (IH (zip_with (op2 op) x y)) as (E & Hb & Hl & Hlk); [by apply zip_ok|rewrite length_zip_with; lia|]. split_and!; try done.
  intros i a Hi. destruct (lookup_lt_is_Some_2 y i) as [b Hb']; [apply lookup_lt_Some in Hi; lia|]. rewrite Hb'. simpl default. apply Hlk. rewrite lookup_zip_with, Hi, Hb'. done.
Qed.

(** ** The fast path is the slow one *)

Lemma fold_at op (src : list (list Z)) j i v : (i < 32)%nat → foldl (λ v s, op2 op v (default 0 (s !! i))) v ((λ s, take 32 (drop j s)) <$> src) = foldl (λ v s, op2 op v (default 0 (s !! (j + i)%nat))) v src.
Proof. intros Hi. revert v. induction src as [|s src IH]; intros v; [done|]. rewrite fmap_cons. cbn [foldl]. rewrite lookup_take_lt, lookup_drop by lia. apply IH. Qed.

Lemma fast_round_ok op src j : src ≠ [] → Forall (λ s, Forall byte_ok s ∧ (j + 32 ≤ length s)%nat) src →
  fast_round op (take 32 (drop j (default [] (head src)))) ((λ s, take 32 (drop j s)) <$> tail src) = slow_byte op src <$> seq j 32.
Proof.
  intros Hne Hs. destruct src as [|s0 src]; [done|]. change (default [] (head (s0 :: src))) with s0. change (tail (s0 :: src)) with src. apply Forall_cons in Hs as [[H0 L0] Hs]. set (x := take 32 (drop j s0)). assert (Forall byte_ok x) as Hx by (by apply Forall_take, Forall_drop). assert (length x = 32%nat) as Lx by (unfold x; rewrite length_take, length_drop; lia).
  destruct (fold_words op ((λ s, take 32 (drop j s)) <$> src) x Hx Lx) as (E & Hb & Hl & Hlk).
  { apply Forall_fmap. eapply Forall_impl; [exact Hs|]. intros s [? ?]. split; [by apply Forall_take, Forall_drop|]. rewrite length_take, length_drop. lia. }
  unfold fast_round. rewrite E. set (z := foldl (zip_with (op2 op)) x _) in *. destruct (words4_bytes z Hb Hl) as [W1 W2].
  assert (concat (le_bytes 8 <$> (match op with BITOP_NOT => unot 64 <$> words4 z | _ => words4 z end)) = match op with BITOP_NOT => unot 8 <$> z | _ => z end) as -> by (by destruct op).
  apply list_eq. intros i. rewrite list_lookup_fmap. destruct (decide (i < 32)%nat) as [Hi|Hi].
  - rewrite lookup_seq_lt by done. simpl. destruct (lookup_lt_is_Some_2 x i) as [a Ha]; [lia|]. specialize (Hlk i a Ha). assert (s0 !! (j + i)%nat = Some a) as Ha0. { unfold x in Ha. by rewrite lookup_take_lt, lookup_drop in Ha by lia. }
    assert (foldl (λ v s, op2 op v (default 0 (s !! i))) a ((λ s, take 32 (drop j s)) <$> src) = foldl (λ v s, op2 op v (default 0 (s !! (j + i)%nat))) a src) as Ef by (by apply fold_at).
    rewrite Ef in Hlk. unfold slow_byte. change (default [] (head (s0 :: src))) with s0. change (tail (s0 :: src)) with src. rewrite Ha0. change (default 0 (Some a)) with a. destruct op; rewrite ?list_lookup_fmap, Hlk; try done. simpl. f_equal.
    assert (∀ v l, foldl (λ (a : Z) (_ : list Z), a) v l = v) as Hid by (intros v l; revert v; induction l; simpl; auto). by rewrite !Hid.
  - rewrite (lookup_ge_None_2 (seq j 32)) by (rewrite length_seq; lia). simpl. destruct op; rewrite ?list_lookup_fmap, (lookup_ge_None_2 z) by lia; done.
Qed.

Lemma fast_loop_ok op src f minlen j : src ≠ [] → Forall (λ s, Forall byte_ok s ∧ (j + minlen ≤ length s)%nat) src →
  ∃ j', fast_loop f op src minlen j (slow_byte op src <$> seq 0 j) = (slow_byte op src <$> seq 0 j', j') ∧ (j' ≤ j + minlen)%nat.
Proof.
  intros Hne. revert minlen j. induction f as [|f IH]; intros minlen j Hs; cbn [fast_loop]; [exists j; split; [done|lia]|]. destruct (decide (32 ≤ minlen)%nat); [|exists j; split; [done|lia]].
  rewrite fast_round_ok; [|done|eapply Forall_impl; [exact Hs|]; intros ? [? ?]; split; [done|lia]]. rewrite <- fmap_app, <- seq_app. destruct (IH (minlen - 32)%nat (j + 32)%nat) as (j' & E & Hj).
  { eapply Forall_impl; [exact Hs|]. intros ? [? ?]. split; [done|lia]. }
  exists j'. split; [exact E|lia].
Qed.

Lemma bit_of_bits s i : bit_of (bits s) i = Z.testbit (default 0 (s !! (i / 8)%nat)) (7 - Z.of_nat i `mod` 8).
Proof.
  unfold bit_of. destruct (s !! (i / 8)%nat) as [b|] eqn:E; [by rewrite (bits_lookup s i b E)|]. simpl. rewrite Z.testbit_0_l, lookup_ge_None_2; [done|]. apply lookup_ge_None in E. rewrite length_bits. pose proof (Nat.div_mod_eq i 8). lia.
Qed.

Lemma slow_testbit op src j k : src ≠ [] → 0 ≤ k < 8 → Z.testbit (slow_byte op src j) k = combine_bit op ((λ s, Z.testbit (default 0 (s !! j)) k) <$> src).
Proof.
  intros Hne Hk. destruct src as [|s0 src]; [done|]. unfold slow_byte. change (default [] (head (s0 :: src))) with s0. change (tail (s0 :: src)) with src. rewrite fmap_cons.
  assert (∀ v, Z.testbit (foldl (λ output s, op2 op output (default 0 (s !! j))) v src) k = foldl (bop2 op) (Z.testbit v k) ((λ s, Z.testbit (default 0 (s !! j)) k) <$> src)) as Hf.
  { clear Hne. induction src as [|s src IH]; intros v; [done|]. rewrite fmap_cons. cbn [foldl]. by rewrite IH, op2_testbit. }
  rewrite Hf. destruct op; try done. simpl combine_bit. assert (∀ (b : bool) l, foldl (bop2 BITOP_NOT) b l = b) as Hid by (intros b l; revert b; induction l; simpl; auto). rewrite Hid. unfold unot. rewrite Z.lxor_spec, testbit_ones_in, bool_decide_true by lia. apply xorb_true_r.
Qed.

Lemma slow_bits op src n : src ≠ [] → bits (slow_byte op src <$> seq 0 n) = (λ i, combine_bit op ((λ B, bit_of B i) <$> (bits <$> src))) <$> seq 0 (8 * n).
Proof.
  intros Hne. apply list_eq. intros i. rewrite list_lookup_fmap. destruct (decide (i < 8 * n)%nat) as [Hi|Hi].
  - rewrite lookup_seq_lt by done. simpl. assert (i / 8 < n)%nat as Hd by (apply Nat.Div0.div_lt_upper_bound; lia). rewrite (bits_lookup _ i (slow_byte op src (i / 8))) by (rewrite list_lookup_fmap, lookup_seq_lt by done; done).
    rewrite slow_testbit by (done || (pose proof (Z.mod_pos_bound (Z.of_nat i) 8); lia)). do 2 f_equal. rewrite <- list_fmap_compose. apply list_fmap_ext. intros ? s _. simpl. by rewrite bit_of_bits.
  - rewrite !lookup_ge_None_2; [done|rewrite length_seq; lia|rewrite length_bits, length_fmap, length_seq; lia].
Qed.

Lemma min_len_le l lens : l ∈ lens → (min_len lens ≤ l)%nat.
Proof.
  destruct lens as [|x lens]; [by rewrite elem_of_nil|]. simpl. revert x. assert (∀ lens x, foldl Nat.min x lens ≤ x)%nat as Hx. { clear. intros lens. induction lens as [|y lens IH]; intros x; simpl; [lia|]. specialize (IH (x `min` y)%nat). lia. }
  induction lens as [|y lens IH]; intros x Hl; simpl.
  - apply list_elem_of_singleton in Hl as ->. lia.
  - rewrite !elem_of_cons in Hl. destruct Hl as [->|[->|Hl]]; [etrans; [apply Hx|lia]|etrans; [apply Hx|lia]|]. apply IH. rewrite elem_of_cons. by right.
Qed.

Lemma max_len_le (l : nat) lens : l ∈ lens → (l ≤ foldr Nat.max 0 lens)%nat.
Proof. induction lens as [|x lens IH]; [by rewrite elem_of_nil|]. rewrite elem_of_cons. simpl. intros [->|H]; [lia|]. specialize (IH H). lia. Qed.

Lemma bitop_bytes_ok op src maxlen : src ≠ [] → Forall (Forall byte_ok) src → Forall (λ s, length s ≤ maxlen)%nat src → bitop_bytes op src (min_len (length <$> src)) maxlen = slow_byte op src <$> seq 0 maxlen.
Proof.
  intros Hne Hs Hm. unfold bitop_bytes. destruct (decide _) as [[_ _]|]; [|simpl; by rewrite Nat.sub_0_r].
  assert (∀ s, s ∈ src → (min_len (length <$> src) ≤ length s)%nat) as Hmin by (intros s Hin; apply min_len_le; by apply list_elem_of_fmap_2).
  destruct (fast_loop_ok op src (min_len (length <$> src)) (min_len (length <$> src)) 0 Hne) as (j & E & Hj).
  { apply Forall_forall. intros s Hin. split; [by eapply Forall_forall in Hs|]. by apply Hmin. }
  change (slow_byte op src <$> seq 0 0) with (@nil Z) in E. rewrite E. rewrite <- fmap_app, <- seq_app. do 2 f_equal. destruct src as [|s0 src]; [done|]. specialize (Hmin s0 ltac:(set_solver)). apply Forall_cons in Hm as [? _]. lia.
Qed.

Lemma slow_ok op src n : src ≠ [] → Forall (Forall byte_ok) src → Forall byte_ok (slow_byte op src <$> seq 0 n).
Proof.
  intros Hne Hs. apply Forall_fmap, Forall_forall. intros j _. simpl. destruct src as [|s0 src]; [done|]. apply Forall_cons in Hs as [H0 Hs]. unfold slow_byte. change (default [] (head (s0 :: src))) with s0. change (tail (s0 :: src)) with src.
  assert (∀ s, Forall byte_ok s → byte_ok (default 0 (s !! j))) as Hd. { intros s H. destruct (s !! j) eqn:E; simpl; [by eapply Forall_lookup_1 in H|split; lia]. }
  assert (byte_ok (match op with BITOP_NOT => unot 8 (default 0 (s0 !! j)) | _ => default 0 (s0 !! j) end)) as Hv by (destruct op; auto; apply lxor_range; (done || lia || auto)). revert Hv. generalize (match op with BITOP_NOT => unot 8 (default 0 (s0 !! j)) | _ => default 0 (s0 !! j) end) as v.
  induction Hs as [|s src Hs1 Hs IH]; intros v Hv; simpl; [done|]. apply IH, op2_ok; auto.
Qed.

Lemma load_ok s D ks : srv_ok (keys s) D →
  if existsb (λ k, match D !! k with Some ANot => true | _ => false end) ks then load_sources s ks = Some (inr (addReply s RWrongType))
  else ∃ src, load_sources s ks = Some (inl src) ∧ Forall2 string_bits src ((λ k, bitmap (D !! k)) <$> ks).
Proof.
  intros HK. induction ks as [|k ks IH]; [by exists []|]. cbn [existsb load_sources]. rewrite fmap_cons. destruct (string_cases (keys s) D k HK) as [[-> E]|[[-> E]|(o & p & B & -> & Ho & E & Hp & HB)]]; rewrite E; simpl orb; cbv iota.
  - cbn [mbind option_bind]. destruct (existsb _ ks); [by rewrite IH|]. destruct IH as (src & -> & Hsrc). exists ([] :: src). split; [done|]. constructor; [apply empty_bits|done].
  - done.
  - destruct (existsb _ ks).
    + destruct o; try done; rewrite Hp; cbn [mbind option_bind]; by rewrite IH.
    + destruct IH as (src & EL & Hsrc). exists (p :: src). split; [|by constructor]. destruct o; try done; rewrite Hp; cbn [mbind option_bind]; by rewrite EL.
Qed.

Lemma max_bits src Bs : Forall2 string_bits src Bs → foldr Nat.max 0%nat (length <$> Bs) = (8 * foldr Nat.max 0 (length <$> src))%nat ∧ Z.of_nat (foldr Nat.max 0%nat (length <$> src)) < 2 ^ 30 ∧ Forall (Forall byte_ok) src ∧ bits <$> src = Bs.
Proof.
  induction 1 as [|p B src Bs Hp Hs (IH1 & IH2 & IH3 & IH4)]; [done|]. rewrite !fmap_cons. cbn [foldr]. destruct (string_length p B Hp) as [Hl _]. destruct Hp as (Hp & HB & Hn). rewrite IH1, Hl, HB, IH4. split_and!; [lia|lia|by constructor|done].
Qed.

Lemma bitop_ok s D name target ks : srv_ok (keys s) D → refines s (spec (BITOP name target ks) D) (bitopCommand s name target ks).
Proof.
  intros HK. unfold bitopCommand. cbn [spec]. change (named_op name) with (parse_op name). destruct (parse_op name) as [op|]; [|by apply answer_ok]. destruct (match op with BITOP_NOT => negb (Nat.eqb (length ks) 1) | _ => false end); [by apply answer_ok|]. pose proof (load_ok s D ks HK) as Hload.
  destruct (existsb _ ks); [rewrite Hload; by apply answer_ok|]. destruct Hload as (src & -> & Hsrc). cbn [mbind option_bind]. set (Bs := (λ k, bitmap (D !! k)) <$> ks) in *. destruct (max_bits src Bs Hsrc) as (Hmax & Hsm & Hok & Hbits). set (n := foldr Nat.max 0%nat (length <$> src)) in *.
  assert (length (combine op Bs) = (8 * n)%nat) as Hlen by (unfold combine; by rewrite length_fmap, length_seq). destruct (decide (0 < n)%nat) as [Hn|Hn].
  - assert (src ≠ []) as Hne by (intros ->; unfold n in Hn; simpl in Hn; lia). assert (string_bits (bitop_bytes op src (min_len (length <$> src)) n) (combine op Bs)) as Hres.
    { rewrite bitop_bytes_ok by (try done; apply Forall_forall; intros s0 Hin; apply max_len_le; by apply list_elem_of_fmap_2). split_and!; [by apply slow_ok| |rewrite length_fmap, length_seq; lia]. rewrite slow_bits by done. unfold combine. by rewrite Hmax, Hbits. }
    assert (nbytes (combine op Bs) = Z.of_nat n) as Hnb by (unfold nbytes; rewrite Hlen, Nat.mul_comm, Nat.div_mul by lia; done). destruct (combine op Bs) as [|b0 B] eqn:EB; [simpl in Hlen; lia|]. rewrite <- EB in *.
    rewrite Hnb. settle_server. apply keys_insert; [done|]. by eexists.
  - assert (n = 0%nat) as En by lia. rewrite En in Hlen. apply length_zero_iff_nil in Hlen as ->. rewrite En. destruct (keys_cases holds_val (keys s) D target HK) as [[-> ->]|(v & a & -> & -> & _)]; settle_server. by apply keys_delete.
Qed.

(** ** BITFIELD: the arguments *)

Definition op_ok (op : bitfieldOp) : Prop := 0 ≤ bf_offset op < 2 ^ 32 ∧ 1 ≤ bf_bits op ≤ (if bf_sign op then 64 else 63) ∧ in_s 64 (bf_i64 op).

Definition ops_ok (ops : list bitfieldOp) (readonly : bool) (highest : Z) : Prop :=
  Forall (λ op, op_ok op ∧ (is_write op = true → readonly = false ∧ bf_offset op + bf_bits op - 1 ≤ highest)) ops ∧ 0 ≤ highest < 2 ^ 32 + 64.

Lemma type_range ty sign w : getBitfieldTypeFromArgument ty = inl (sign, w) → 1 ≤ w ≤ (if sign then 64 else 63).
Proof.
  unfold getBitfieldTypeFromArgument. destruct ty as [|c p]; [done|]. destruct ((c =? 105) || (c =? 117)); [|done]. destruct (string2ll (c_string p)) as [n|]; [|done]. set (b := c =? 105). destruct (_ || _ || _) eqn:E; [done|]. intros [= <- <-].
  apply orb_false_elim in E as [[E1 E2]%orb_false_elim E3]. apply Z.ltb_ge in E1. destruct b; simpl in *; [apply Z.ltb_ge in E2|apply Z.ltb_ge in E3]; lia.
Qed.

Lemma offset_range o hash w m : getBitOffsetFromArgument o hash w = Some (inl m) → 0 ≤ m < 2 ^ 32.
Proof.
  unfold getBitOffsetFromArgument. set (u := match o with [] => false | _ => _ end). destruct (string2ll _) as [n|]; [|done]. set (l := if u then _ else _). case_bool_decide; [|done]. destruct (_ || _) eqn:E; [done|]. intros [= <-]. apply orb_false_elim in E as [E1 E2]. apply Z.ltb_ge in E1. apply Z.leb_gt in E2. rewrite Z.shiftr_div_pow2 in E2 by lia. change (2 ^ 3) with 8 in E2.
  pose proof (Z.div_mod l 8 ltac:(lia)). pose proof (Z.mod_pos_bound l 8 ltac:(lia)). simpl. lia.
Qed.

Lemma ops_snoc ops ro hi op ro' hi' : ops_ok ops ro hi → op_ok op → (ro = false → ro' = false) → hi ≤ hi' < 2 ^ 32 + 64 → (is_write op = true → ro' = false ∧ bf_offset op + bf_bits op - 1 ≤ hi') → ops_ok (ops ++ [op]) ro' hi'.
Proof.
  intros [Hops Hhi] Hop Hro Hle Hw. split; [|lia]. apply Forall_app. split; [|by apply Forall_singleton].
  eapply Forall_impl; [exact Hops|]. intros op' [Hok Hw']. split; [done|]. intros H. specialize (Hw' H). destruct Hw'. split; [auto|lia].
Qed.

Lemma parse_ok f : ∀ args ow ops ro hi, ops_ok ops ro hi → match parse_ops f args ow ops ro hi with Some (inl (ops', ro', hi')) => ops_ok ops' ro' hi' | _ => True end.
Proof.
  induction f as [|f IH]; intros args ow ops ro hi Hops; [done|]. cbn [parse_ops]. destruct args as [|sub rest]; [done|]. cbv zeta. set (code := if _ && (2 <=? _) then _ else _). destruct code as [code|].
  - destruct rest as [|ty [|off rest]]; try done. destruct (getBitfieldTypeFromArgument ty) as [[sign w]|] eqn:Et; [|done]. apply type_range in Et. destruct (getBitOffsetFromArgument off true w) as [[m|]|] eqn:Eo; try done. apply offset_range in Eo. cbn [mbind option_bind].
    assert (w ≤ 64) by (destruct sign; lia). assert (∀ c v, in_s 64 v → op_ok (BitfieldOp m v c ow w sign)) as Hop by (by intros; split_and!; simpl; try lia).
    assert (∀ c n rest, (c = BITFIELDOP_GET → False) → in_s 64 n → match parse_ops f rest ow (ops ++ [BitfieldOp m n c ow w sign]) false (if hi <? m + w - 1 then m + w - 1 else hi) with Some (inl (ops', ro', hi')) => ops_ok ops' ro' hi' | _ => True end) as Hwr.
    { intros c n rest' Hc Hn. apply IH. apply (ops_snoc ops ro hi); [done|by apply Hop|done| |]; [destruct Hops|intros _; simpl]; destruct (Z.ltb_spec hi (m + w - 1)); try split; (done || lia). }
    destruct code.
    + apply IH. apply (ops_snoc ops ro hi); [done| |done|destruct Hops; lia|done]. apply Hop. split; simpl; lia.
    + destruct rest as [|v rest]; [done|]. destruct (string2ll v) as [n|] eqn:Ev; [|done]. apply string2ll_spec in Ev as [Hn _]. by apply Hwr.
    + destruct rest as [|v rest]; [done|]. destruct (string2ll v) as [n|] eqn:Ev; [|done]. apply string2ll_spec in Ev as [Hn _]. by apply Hwr.
  - destruct rest as [|a rest]; [done|]. destruct (is_word sub _); [|done]. destruct (is_word a _); [by apply IH|]. destruct (is_word a _); [by apply IH|]. destruct (is_word a _); [by apply IH|done].
Qed.

(** The parser ends: it is undefined only for an offset #n that overflows. *)
Lemma offset_hash off w : hash_safe off = true → 1 ≤ w ≤ 64 → getBitOffsetFromArgument off true w = Some (match bit_number (Some w) off with Some m => inl m | None => inr off_err end).
Proof.
  intros Hs Hw. unfold getBitOffsetFromArgument, bit_number. rewrite (proj2 (Z.ltb_lt 0 w)) by lia.
  assert (∀ n, string2ll off = Some n → in_s 64 n) as Hn by (intros n Hn; apply string2ll_spec in Hn; apply Hn).
  destruct off as [|c p].
  { destruct (string2ll []) as [n|]; [|done]. specialize (Hn n eq_refl). rewrite bool_decide_true by done. by apply offset_bounds. }
  rewrite !andb_true_r. destruct (Z.eqb_spec c 35) as [->|Hc]; cbn [tail].
  - destruct (string2ll p) as [n|] eqn:E; [|done]. cbn [mbind option_bind fmap option_fmap option_map]. simpl in Hs. rewrite E in Hs. apply bool_decide_eq_true in Hs.
    assert (in_s 64 (n * w)) as Hin by (unfold in_s in *; change (2 ^ (57 - 1)) with 72057594037927936 in Hs; change (2 ^ (64 - 1)) with 9223372036854775808; nia).
    rewrite bool_decide_true by done. by apply offset_bounds.
  - destruct (string2ll (c :: p)) as [n|]; [|done]. specialize (Hn n eq_refl). rewrite bool_decide_true by done. by apply offset_bounds.
Qed.

Lemma type_field ty : getBitfieldTypeFromArgument ty = match field_type ty with Some t => inl t | None => inr type_err end.
Proof.
  unfold getBitfieldTypeFromArgument, field_type. destruct ty as [|c p]; [done|]. destruct (string2ll (c_string p)) as [w|]; [|by destruct (_ || _)]. cbn [mbind option_bind].
  destruct (c =? 105); simpl; [|destruct (c =? 117); simpl; [|done]];
    destruct (Z.ltb_spec w 1), (Z.ltb_spec 64 w), (Z.ltb_spec 63 w); simpl; case_bool_decide; try done; lia.
Qed.

Lemma field_type_range ty sign w : field_type ty = Some (sign, w) → 1 ≤ w ≤ (if sign then 64 else 63).
Proof. intros E. apply type_range with ty. by rewrite type_field, E. Qed.

(** The result of parsing: the operations are appended. *)
Definition parse_result (ops : list bitfieldOp) (ro : bool) (hi : Z) (r : list bitfieldOp + reply) : option (list bitfieldOp * bool * Z + reply) :=
  Some (match r with inl new => inl (ops ++ new, ro && readonly new, highest_from hi new) | inr e => inr e end).

Lemma parse_result_cons ops ro hi op r : parse_result ops ro hi (and_then (inl op) r) =
  parse_result (ops ++ [op]) (ro && negb (is_write op)) (if is_write op then Z.max hi (bf_offset op + bf_bits op - 1) else hi) r.
Proof. destruct r as [new|e]; [|done]. unfold parse_result, and_then, readonly. cbn [forallb highest_from foldl]. by rewrite <- app_assoc, andb_assoc. Qed.

(** An operation: its type, its offset and, for SET and INCRBY, its value. *)
Lemma parse_one f code ow ops ro hi ty off v rest : (∀ ops ro hi, parse_ops f rest ow ops ro hi = parse_result ops ro hi (fields_of rest ow)) → hash_safe off = true →
  code = BITFIELDOP_GET ∧ v = None ∨ code ≠ BITFIELDOP_GET ∧ is_Some v →
  match getBitfieldTypeFromArgument ty with
  | inr e => Some (inr e)
  | inl (sign, nbits) =>
      r ← getBitOffsetFromArgument off true nbits;
      match r with
      | inr e => Some (inr e)
      | inl bitoffset =>
          match v with
          | None => parse_ops f rest ow (ops ++ [BitfieldOp bitoffset 0 code ow nbits sign]) ro hi
          | Some v =>
              match string2ll v with
              | None => Some (inr (RError "value is not an integer or out of range"))
              | Some i64 => parse_ops f rest ow (ops ++ [BitfieldOp bitoffset i64 code ow nbits sign]) false (if hi <? bitoffset + nbits - 1 then bitoffset + nbits - 1 else hi)
              end
          end
      end
  end = parse_result ops ro hi (and_then (field_op code ow ty off v) (fields_of rest ow)).
Proof.
  intros IH Hs Hv. unfold field_op. rewrite type_field. destruct (field_type ty) as [[sign w]|] eqn:Et; [|done]. apply field_type_range in Et. rewrite (offset_hash off w Hs) by (destruct sign; lia).
  cbn [mbind option_bind]. destruct (bit_number (Some w) off) as [m|]; [|done]. destruct Hv as [[-> ->]|[Hne [a ->]]].
  - rewrite IH, parse_result_cons. simpl. by rewrite andb_true_r.
  - destruct (string2ll a) as [n|]; [|done]. rewrite IH, parse_result_cons. assert (is_write (BitfieldOp m n code ow w sign) = true) as -> by (by destruct code). simpl negb. rewrite andb_false_r. simpl.
    f_equal. destruct (Z.ltb_spec hi (m + w - 1)); lia.
Qed.

Lemma parse_fields f : ∀ args ow ops ro hi, forallb hash_safe args = true → (length args < f)%nat →
  parse_ops f args ow ops ro hi = parse_result ops ro hi (fields_of args ow).
Proof.
  induction f as [|f IH]; intros args ow ops ro hi Hs Hl; [lia|]. destruct args as [|sub rest]; [cbn; unfold parse_result; by rewrite (app_nil_r ops), andb_true_r|].
  cbn [parse_ops]. cbv zeta. change (is_word sub [103; 101; 116]) with (keyword "get" sub). change (is_word sub [115; 101; 116]) with (keyword "set" sub).
  change (is_word sub [105; 110; 99; 114; 98; 121]) with (keyword "incrby" sub). change (is_word sub [111; 118; 101; 114; 102; 108; 111; 119]) with (keyword "overflow" sub).
  simpl forallb in Hs. simpl length in Hl. apply andb_prop in Hs as [_ Hs]. destruct rest as [|ty rest1]; [by rewrite !andb_false_r|]. simpl forallb in Hs. apply andb_prop in Hs as [_ Hs]. simpl length in Hl.
  set (otherwise := if keyword "overflow" sub then match policy ty with Some ow => fields_of rest1 ow | None => inr (RError "Invalid OVERFLOW type specified") end else inr RSyntax).
  assert (Hother : (if keyword "overflow" sub then
      if is_word ty [119; 114; 97; 112] then parse_ops f rest1 BFOVERFLOW_WRAP ops ro hi
      else if is_word ty [115; 97; 116] then parse_ops f rest1 BFOVERFLOW_SAT ops ro hi
      else if is_word ty [102; 97; 105; 108] then parse_ops f rest1 BFOVERFLOW_FAIL ops ro hi
      else Some (inr (RError "Invalid OVERFLOW type specified")) else Some (inr RSyntax)) = parse_result ops ro hi otherwise).
  { unfold otherwise. destruct (keyword "overflow" sub); [|done]. unfold policy. change (is_word ty [119; 114; 97; 112]) with (keyword "wrap" ty). change (is_word ty [115; 97; 116]) with (keyword "sat" ty).
    change (is_word ty [102; 97; 105; 108]) with (keyword "fail" ty). destruct (keyword "wrap" ty); [apply IH; (done || lia)|]. destruct (keyword "sat" ty); [apply IH; (done || lia)|]. destruct (keyword "fail" ty); [apply IH; (done || lia)|done]. }
  destruct rest1 as [|off rest2]; [rewrite !andb_false_r; exact Hother|]. simpl forallb in Hs. simpl length in Hl. apply andb_prop in Hs as [Ho Hs].
  rewrite (proj2 (Z.leb_le 2 _)) by (cbn [length]; lia). rewrite andb_true_r. cbn [fields_of]. destruct (keyword "get" sub).
  { apply (parse_one f BITFIELDOP_GET ow ops ro hi ty off None rest2); [intros; apply IH; (done || lia)|done|by left]. }
  destruct rest2 as [|v rest3]; [rewrite !andb_false_r; exact Hother|]. simpl forallb in Hs. simpl length in Hl. apply andb_prop in Hs as [_ Hs].
  rewrite (proj2 (Z.leb_le 3 _)) by (cbn [length]; lia). rewrite !andb_true_r. destruct (keyword "set" sub).
  { apply (parse_one f BITFIELDOP_SET ow ops ro hi ty off (Some v) rest3); [intros; apply IH; (done || lia)|done|right; by split; [|eexists]]. }
  destruct (keyword "incrby" sub); [|exact Hother].
  apply (parse_one f BITFIELDOP_INCRBY ow ops ro hi ty off (Some v) rest3); [intros; apply IH; (done || lia)|done|right; by split; [|eexists]].
Qed.

(** ** BITFIELD: the operations *)

Lemma padded_lookup B o w n i : (i < w)%nat → (o + w ≤ length B + n)%nat → take w (drop o (B ++ replicate n false)) !! i = Some (bit_of B (o + i)).
Proof.
  intros Hi Hn. rewrite lookup_take_lt, lookup_drop by done. unfold bit_of. destruct (decide (o + i < length B)%nat).
  - rewrite lookup_app_l by done. destruct (lookup_lt_is_Some_2 B (o + i)) as [b ->]; done.
  - rewrite lookup_app_r, (lookup_ge_None_2 B) by lia. apply lookup_replicate_2. lia.
Qed.

Lemma padded_length B o w n : (o + w ≤ length B + n)%nat → length (take w (drop o (B ++ replicate n false))) = w.
Proof. intros. rewrite length_take, length_drop, length_app, length_replicate. lia. Qed.

(** The padding does not matter as long as it is long enough. *)
Lemma padded_eq B B' o o' w n n' : (o + w ≤ length B + n)%nat → (o' + w ≤ length B' + n')%nat → (∀ i, (i < w)%nat → bit_of B (o + i) = bit_of B' (o' + i)) →
  take w (drop o (B ++ replicate n false)) = take w (drop o' (B' ++ replicate n' false)).
Proof.
  intros H H' HB. apply list_eq. intros i. destruct (decide (i < w)%nat); [by rewrite !padded_lookup, HB by done|]. rewrite !lookup_ge_None_2; rewrite ?padded_length; (done || lia).
Qed.

Lemma field_inside B o w : (o + w ≤ length B)%nat → field B o w = bin_val (take w (drop o B)).
Proof. intros H. unfold field. f_equal. rewrite <- (app_nil_r B) at 2. apply (padded_eq B B o o w (o + w) 0); (done || lia). Qed.

Lemma field_range B o w : 0 ≤ field B o w < 2 ^ Z.of_nat w.
Proof. unfold field. pose proof (bin_val_range (take w (drop o (B ++ replicate (o + w) false)))) as H. rewrite padded_length in H by lia. done. Qed.

Lemma digits_u64 n v : (n ≤ 64)%nat → bin_digits n (u64 v) = bin_digits n v.
Proof. intros Hn. induction n as [|n IH]; [done|]. cbn [bin_digits]. rewrite IH by lia. f_equal. unfold uwrap. rewrite Z.mod_pow2_bits_low by lia. done. Qed.

Lemma put_ok p B o w v : string_bits p B → 0 ≤ w ≤ 64 → (o + Z.to_nat w ≤ length B)%nat →
  ∃ p', setUnsignedBitfield p (Z.of_nat o) w v = Some p' ∧ setSignedBitfield p (Z.of_nat o) w v = Some p' ∧ string_bits p' (put B o (Z.to_nat w) v).
Proof.
  intros Hp Hw Ho. destruct (string_length p B Hp) as [Hl _]. destruct Hp as (Hp & <- & Hn). unfold setSignedBitfield. destruct (set_unsigned_ok p o w v Hp) as (p' & E & Hp' & Hb); [lia|done|lia|]. exists p'.
  assert (setUnsignedBitfield p (Z.of_nat o) w (u64 v) = Some p') as E'.
  { destruct (set_unsigned_ok p o w (u64 v) Hp) as (p2 & E2 & Hp2 & Hb2); [lia|done|lia|]. rewrite E2. f_equal. rewrite digits_u64, <- Hb in Hb2 by lia. by apply bits_inj. }
  split_and!; try done. assert (length (bits p') = length (bits p)) as Hlen. { rewrite Hb. by destruct (field_of o (Z.to_nat w) (bits p) v Ho) as (_ & F & _). } rewrite !length_bits in Hlen. split_and!; [done|done|]. replace (length p') with (length p) by lia. done.
Qed.

Lemma get_field p B o w : string_bits p B → 0 < w ≤ 64 → (o + Z.to_nat w ≤ length B)%nat →
  getUnsignedBitfield p (Z.of_nat o) w = Some (field B o (Z.to_nat w)) ∧
  getSignedBitfield p (Z.of_nat o) w = if (w =? 64) && (2 ^ 63 <=? field B o (Z.to_nat w)) then None else Some (swrap w (field B o (Z.to_nat w))).
Proof.
  intros Hp Hw Ho. destruct (string_length p B Hp) as [Hl _]. destruct Hp as (Hp & <- & Hn). rewrite field_inside by done. split.
  - unfold getUnsignedBitfield. rewrite get_loop_ok; [f_equal; lia|done|lia|lia|]. rewrite Z2Nat.id, Z.mul_1_l by lia. apply Z.pow_le_mono_r; lia.
  - apply get_signed_ok; (done || lia).
Qed.

(** GET through the buffer of 9 bytes. *)
Lemma buffer_ok p B o : string_bits p B → ∃ B', string_bits (take 9 (drop (o / 8) p ++ replicate 9 0)) B' ∧ length B' = 72%nat ∧ ∀ i, (i < 72)%nat → bit_of B' i = bit_of B (8 * (o / 8) + i).
Proof.
  intros (Hp & <- & Hn). exists (bits (take 9 (drop (o / 8) p ++ replicate 9 0))). assert (length (take 9 (drop (o / 8) p ++ replicate 9 0)) = 9%nat) as Hl by (rewrite length_take, length_app, length_replicate; lia). split_and!.
  - split_and!; [|done|rewrite Hl; lia]. apply Forall_take, Forall_app. split; [by apply Forall_drop|by apply Forall_replicate].
  - by rewrite length_bits, Hl.
  - intros i Hi. rewrite bits_take, bits_app, bits_drop, zero_bits. unfold bit_of at 1. rewrite lookup_take_lt by lia. unfold bit_of. destruct (decide (8 * (o / 8) + i < length (bits p))%nat).
    + by rewrite lookup_app_l, lookup_drop by (rewrite length_drop; lia).
    + rewrite lookup_app_r by (rewrite length_drop; lia). rewrite (lookup_ge_None_2 (bits p)) by lia. change (default false None) with false. rewrite length_drop. destruct (replicate _ _ !! _) eqn:E; [|done]. by apply lookup_replicate in E as [-> _].
Qed.

Lemma read_ok p B op B' r : string_bits p B → op_ok op → bf_opcode op = BITFIELDOP_GET → op_spec B op = Some (B', r) → read_op p op = Some r ∧ B' = B.
Proof.
  intros Hp (Ho & Hw & _) Hg. unfold op_spec, read_op. rewrite Hg. set (w := bf_bits op) in *. assert (w ≤ 64) as Hw64 by (destruct (bf_sign op); lia). assert (∃ o, bf_offset op = Z.of_nat o) as [o Eo] by (exists (Z.to_nat (bf_offset op)); lia). rewrite Eo, Nat2Z.id.
  destruct (offset_parts o) as [-> _]. assert (Z.of_nat o - Z.shiftr (Z.of_nat o) 3 * 8 = Z.of_nat (o mod 8)) as ->. { rewrite Z.shiftr_div_pow2 by lia. change (2 ^ 3) with (Z.of_nat 8). change 8 with (Z.of_nat 8). rewrite <- Nat2Z.inj_div. pose proof (Nat.div_mod_eq o 8). lia. }
  destruct (buffer_ok p B o Hp) as (Bb & Hb & Hlb & Hbb). pose proof (Nat.mod_upper_bound o 8 ltac:(lia)) as Hm. pose proof (Nat.div_mod_eq o 8) as Ed. destruct (get_field _ Bb (o mod 8) w Hb) as [-> ->]; [lia|lia|].
  assert (field Bb (o mod 8) (Z.to_nat w) = field B o (Z.to_nat w)) as ->. { unfold field. f_equal. apply padded_eq; [lia|lia|]. intros i Hi. rewrite Hbb by lia. f_equal. lia. }
  pose proof (field_range B o (Z.to_nat w)) as Hr. rewrite Z2Nat.id in Hr by lia. set (u := field B o (Z.to_nat w)) in *. destruct (bf_sign op); simpl andb; cbv iota.
  - destruct ((w =? 64) && (2 ^ 63 <=? u)); [done|]. intros [= <- <-]. done.
  - intros [= <- <-]. cbn [mbind option_bind]. split; [|done]. do 2 f_equal. apply swrap_small; [lia|]. assert (2 ^ w ≤ 2 ^ 63) by (apply Z.pow_le_mono_r; lia). split; simpl in *; lia.
Qed.


(** What SET and INCRBY do after the check. *)
Lemma commit_ok (set : Z → option (list Z)) (conv : Z → Z) (putf : Z → list bool) (P : list Z → list bool → Prop) p B lo hi x wr ow ovf lim new0 old (incrby : bool) B' r :
  bounded lo hi x wr ow = (ovf, lim) → lo ≤ hi → lo ≤ wr ≤ hi → (lo ≤ x ≤ hi → new0 = x) → (∀ v, lo ≤ v ≤ hi → conv v = v) → conv old = old → (∀ v, ∃ p', set v = Some p' ∧ P p' (putf v)) → P p B →
  match ow with
  | BFOVERFLOW_FAIL => if ovf =? 0 then Some (putf (default x lim), RLong (if incrby then default x lim else old)) else Some (B, RNullBulk)
  | _ => Some (putf (default x lim), RLong (if incrby then default x lim else old))
  end = Some (B', r) →
  ∃ p', (let newval := if ovf =? 0 then new0 else default 0 lim in
         let retval := if incrby then newval else old in
         if negb (negb (ovf =? 0) && match ow with BFOVERFLOW_FAIL => true | _ => false end) then p ← set newval; Some (p, RLong (conv retval)) else Some (p, RNullBulk)) = Some (p', r) ∧ P p' B'.
Proof.
  intros Eb Hlh Hwr Hn Hc Hold Hset HP Hr. cbv zeta.
  assert ((ovf = 0 ∧ lim = None ∧ lo ≤ x ≤ hi) ∨ (∃ l, (ovf =? 0) = false ∧ lim = Some l ∧ lo ≤ l ≤ hi ∧ ow ≠ BFOVERFLOW_FAIL) ∨ ((ovf =? 0) = false ∧ lim = None ∧ ow = BFOVERFLOW_FAIL)) as [(-> & -> & Hx)|[(l & E0 & -> & Hl & How)|(E0 & -> & ->)]].
  { unfold bounded in Eb. case_bool_decide; [left; by injection Eb as <- <-|right]. destruct ow; [left|left|right].
    - injection Eb as <- <-. by exists wr.
    - destruct (hi <? x); injection Eb as <- <-; [exists hi|exists lo]; split_and!; (done || lia).
    - destruct (hi <? x); by injection Eb as <- <-. }
  - rewrite (Hn Hx). simpl in *. destruct (Hset x) as (p' & -> & HP'). exists p'. cbn [mbind option_bind]. assert (conv (if incrby then x else old) = if incrby then x else old) as -> by (destruct incrby; auto). destruct ow; by injection Hr as <- <-.
  - rewrite E0 in *. simpl in *. destruct (Hset l) as (p' & Es & HP'). exists p'. assert (conv (if incrby then l else old) = if incrby then l else old) as -> by (destruct incrby; auto). destruct ow; try done; simpl; rewrite Es; cbn [mbind option_bind]; by injection Hr as <- <-.
  - rewrite E0 in *. simpl in *. injection Hr as <- <-. by exists p.
Qed.

Lemma write_ok p B op B' r : string_bits p B → op_ok op → is_write op = true → bf_offset op + bf_bits op ≤ Z.of_nat (length B) → op_spec B op = Some (B', r) →
  ∃ p', write_op p op = Some (p', r) ∧ string_bits p' B' ∧ length B' = length B.
Proof.
  intros Hp (Ho & Hw & Hi) Hwr Hin. unfold op_spec, write_op. set (w := bf_bits op) in *. assert (w ≤ 64) as Hw64 by (destruct (bf_sign op); lia). assert (∃ o, bf_offset op = Z.of_nat o) as [o Eo] by (exists (Z.to_nat (bf_offset op)); lia). rewrite Eo, Nat2Z.id in *.
  destruct (get_field p B o w Hp) as [-> ->]; [lia|lia|]. pose proof (field_range B o (Z.to_nat w)) as Hr. rewrite Z2Nat.id in Hr by lia. set (u := field B o (Z.to_nat w)) in *. set (incrby := match bf_opcode op with BITFIELDOP_INCRBY => true | _ => false end) in *. clearbody incrby.
  assert (∀ (a : option (list bool * reply)) b, match bf_opcode op with BITFIELDOP_GET => a | _ => b end = b) as -> by (intros; unfold is_write in Hwr; by destruct (bf_opcode op)).
  set (P := λ p' B', string_bits p' B' ∧ length B' = length B). assert (∀ v, ∃ p', setUnsignedBitfield p (Z.of_nat o) w v = Some p' ∧ setSignedBitfield p (Z.of_nat o) w v = Some p' ∧ P p' (put B o (Z.to_nat w) v)) as Hput.
  { intros v. destruct (put_ok p B o w v Hp) as (p' & E1 & E2 & H); [lia|lia|]. exists p'. split; [done|]. split; [done|]. split; [done|]. unfold put. rewrite !length_app, length_take, length_digits, length_drop. lia. }
  destruct (bf_sign op); simpl andb; cbv iota.
  - destruct ((w =? 64) && (2 ^ 63 <=? u)); [done|]. cbn [mbind option_bind]. set (old := swrap w u). assert (in_s w old) as Hold by (apply swrap_range; lia). set (x := if incrby then old + bf_i64 op else bf_i64 op). assert (1 ≤ 2 ^ (w - 1) ≤ 2 ^ 63) as H63 by (split; [change 1 with (2 ^ 0) at 1|]; apply Z.pow_le_mono_r; lia).
    destruct (bounded (- 2 ^ (w - 1)) (2 ^ (w - 1) - 1) x (swrap w x) (bf_owtype op)) as [ovf lim] eqn:Eb. destruct (incrby && negb (bool_decide (in_s 64 x))) eqn:Eu1; [done|]. destruct (negb incrby && _ && (x <? - 2 ^ (w - 1)) && (x <? 2 ^ (w - 1) - 2 ^ 63)) eqn:Eu2; [done|].
    assert (in_s 64 x) as Hx64. { unfold x in *. destruct incrby; [|done]. simpl in Eu1. by case_bool_decide. }
    assert ((if incrby then if bool_decide (in_s 64 (old + bf_i64 op)) then Some (old + bf_i64 op) else None else Some (bf_i64 op)) = Some x) as ->.
    { unfold x in *. destruct incrby; [|done]. by rewrite bool_decide_true. }
    cbn [mbind option_bind].
    assert (∃ ovf', (if incrby then checkSignedBitfieldOverflow old (bf_i64 op) w (bf_owtype op) else checkSignedBitfieldOverflow x 0 w (bf_owtype op)) = Some (ovf', lim) ∧ (ovf' =? 0) = (ovf =? 0)) as (ovf' & -> & Eovf).
    { destruct incrby; unfold x in *; rewrite check_signed_ok; [|lia|done|by left| |lia|done|by right]; unfold signed_check.
      - rewrite decide_False by (by intros (_ & _ & ?)). rewrite decide_False by (by intros [? _]). rewrite Eb. by exists ovf.
      - rewrite Z.add_0_r. rewrite decide_False by (by intros (_ & _ & ?)). destruct (decide _) as [[Hout Hfar]|Hnear]; [|rewrite Eb; by exists ovf].
        assert (bf_i64 op < - 2 ^ (w - 1)) as Hlow by (unfold in_s in Hout; lia). exists 1. unfold bounded in Eb. rewrite bool_decide_false in Eb by lia. rewrite (proj2 (Z.ltb_ge _ (bf_i64 op))) in Eb by lia.
        rewrite (proj2 (Z.ltb_lt _ _) Hlow), (proj2 (Z.ltb_lt _ _) Hfar), !andb_true_r in Eu2. destruct (bf_owtype op); [by injection Eb as <- <-|done|by injection Eb as <- <-]. }
    cbn [mbind option_bind]. rewrite Eovf. apply (commit_ok (setSignedBitfield p (Z.of_nat o) w) (λ v, v) (put B o (Z.to_nat w)) P p B _ _ x _ _ ovf lim _ old incrby B' r Eb); try done; [lia|pose proof (swrap_range w x ltac:(lia)) as [? ?]; lia|].
    intros v. destruct (Hput v) as (p' & _ & E & H). by exists p'.
  - set (x := if incrby then u + bf_i64 op else u64 (bf_i64 op)). assert (2 ≤ 2 ^ w ≤ 2 ^ 63) as H63 by (split; [change 2 with (2 ^ 1) at 1|]; apply Z.pow_le_mono_r; lia).
    destruct (bounded 0 (2 ^ w - 1) x (x `mod` 2 ^ w) (bf_owtype op)) as [ovf lim] eqn:Eb. cbn [mbind option_bind].
    assert ((if incrby then checkUnsignedBitfieldOverflow u (bf_i64 op) w (bf_owtype op) else checkUnsignedBitfieldOverflow (if incrby then u64 (u + bf_i64 op) else u64 (bf_i64 op)) 0 w (bf_owtype op)) = Some (ovf, lim)) as ->.
    { rewrite <- Eb. unfold x. destruct incrby; [apply check_unsigned_ok; try done; by left|]. rewrite <- (Z.add_0_r (u64 (bf_i64 op))) at 2 3. apply check_unsigned_ok; [done|split; simpl; lia|]. right. split; [apply uwrap_range; lia|done]. }
    cbn [mbind option_bind]. apply (commit_ok (setUnsignedBitfield p (Z.of_nat o) w) s64 (put B o (Z.to_nat w)) P p B _ _ x _ _ ovf lim _ u incrby B' r Eb); try done; [lia|pose proof (Z.mod_pos_bound x (2 ^ w) ltac:(lia)); lia| | | |].
    + intros Hx. unfold x in *. destruct incrby; [|done]. apply uwrap_small. split; simpl in *; lia.
    + intros v Hv. apply swrap_small; [lia|]. split; simpl in *; lia.
    + apply swrap_small; [lia|]. split; simpl in *; lia.
    + intros v. destruct (Hput v) as (p' & E & _ & H). by exists p'.
Qed.

Lemma run_ok ops ro hi : Forall (λ op, op_ok op ∧ (is_write op = true → ro = false ∧ bf_offset op + bf_bits op - 1 ≤ hi)) ops → ∀ p B B' rs, string_bits p B → (ro = false → hi < Z.of_nat (length B)) → ops_spec B ops = Some (B', rs) →
  ∃ p', run_ops p ops = Some (p', rs, writes ops) ∧ string_bits p' B' ∧ (ro = true → p' = p ∧ B' = B).
Proof.
  induction 1 as [|op ops [Hop Hw] Hops IH]; intros p B B' rs Hp Hhi Hr; cbn [ops_spec run_ops] in *; [injection Hr as <- <-; by exists p|].
  destruct (op_spec B op) as [[B1 r]|] eqn:E1; [|done]. cbn [mbind option_bind] in Hr. destruct (ops_spec B1 ops) as [[B2 rs']|] eqn:E2; [|done]. cbn [mbind option_bind] in Hr. injection Hr as <- <-. unfold writes. cbn [List.filter]. destruct (is_write op) eqn:Eop.
  - destruct (Hw eq_refl) as [-> Hle]. specialize (Hhi eq_refl). destruct (write_ok p B op B1 r Hp Hop Eop ltac:(lia) E1) as (p1 & Ew & Hp1 & Hl1). destruct (IH p1 B1 B2 rs' Hp1 ltac:(intros _; lia) E2) as (p2 & Er & Hp2 & _).
    exists p2. split_and!; [|done|done]. unfold is_write in Eop. destruct (bf_opcode op); try done; rewrite Ew; cbn [mbind option_bind]; rewrite Er; cbn [mbind option_bind]; do 2 f_equal; unfold writes; cbn [length]; lia.
  - assert (bf_opcode op = BITFIELDOP_GET) as Eg by (unfold is_write in Eop; by destruct (bf_opcode op)). destruct (read_ok p B op B1 r Hp Hop Eg E1) as [Er ->]. destruct (IH p B B2 rs' Hp Hhi E2) as (p2 & Er2 & Hp2 & Hro). exists p2. rewrite Eg, Er. cbn [mbind option_bind]. rewrite Er2. done.
Qed.

Lemma bitfield_ok s D k args : srv_ok (keys s) D → defined (BITFIELD k args) D = true → refines s (spec (BITFIELD k args) D) (bitfieldCommand s k args).
Proof.
  intros HK Hd. unfold bitfieldCommand. cbn [spec defined] in *. apply andb_prop in Hd as [Hs Hd]. pose proof (parse_ok (S (length args)) args BFOVERFLOW_WRAP [] true 0) as Hp.
  rewrite (parse_fields (S (length args)) args BFOVERFLOW_WRAP [] true 0 Hs ltac:(lia)) in *. unfold parse_result in *. destruct (fields_of args BFOVERFLOW_WRAP) as [ops|e]; [|by apply answer_ok]. cbn [mbind option_bind app andb] in *. unfold field_bits in *.
  set (ro := readonly ops) in *. set (hi := highest_from 0 ops) in *. clearbody ro hi. destruct Hp as [Hops Hhi]; [by split; [constructor|lia]|]. destruct (ops_spec _ ops) as [[B' rs]|] eqn:Er; [|done]. clear Hd.
  assert (writes ops ≠ 0 → ro = false) as Hro. { intros Hne. destruct ro; [|done]. destruct Hne. unfold writes. clear Er. induction Hops as [|op ops [_ Hw] _ IH]; [done|]. cbn [List.filter]. destruct (is_write op); [by destruct (Hw eq_refl)|done]. }
  assert (∃ hn, hi = Z.of_nat hn) as [hn ->] by (exists (Z.to_nat hi); lia). rewrite Nat2Z.id in *. destruct ro.
  - assert (writes ops = 0) as Ew by (destruct (Z.eq_dec (writes ops) 0); [done|]; by specialize (Hro n)).
    destruct (string_cases (keys s) D k HK) as [[-> E]|[[-> E]|(o & p & B & -> & Ho & E & Hpo & HB)]]; rewrite E in *; cbn [mbind option_bind bitmap] in *.
    + destruct (run_ok ops true _ Hops [] [] B' rs empty_bits ltac:(done) Er) as (p' & -> & _ & _). cbn [mbind option_bind]. rewrite Ew. simpl. settle_server.
    + by apply answer_ok.
    + destruct (run_ok ops true _ Hops p B B' rs HB ltac:(done) Er) as (p' & Erun & _ & _). rewrite Hpo. assert (∀ a b : option (list Z + bserver), match o with NotString => b | _ => a end = a) as Hm by (intros; by destruct o). rewrite Hm. cbn [mbind option_bind]. rewrite Erun. cbn [mbind option_bind]. rewrite Ew. simpl. settle_server.
  - destruct (lookup_for_ok s D k hn HK) as [[E ->]|(Hne & p & -> & Hp & Hlt)]; [lia| |]; cbn [mbind option_bind].
    { rewrite E. by apply answer_ok. }
    destruct (run_ok ops false _ Hops p _ B' rs Hp ltac:(intros _; lia) Er) as (p' & -> & Hp' & _). cbn [mbind option_bind]. assert (∀ a b : outcome, (if match D !! k with Some ANot => true | _ => false end then a else b) = b) as -> by (intros; by destruct (D !! k) as [[]|]).
    assert (holds_val (StrRaw p') (ABits B')) as Hv by (by exists p'). destruct (writes ops =? 0) eqn:Ew; [apply Z.eqb_eq in Ew; rewrite Ew|]; settle_server; by apply keys_insert.
Qed.

(** ** Sequences of commands *)

Definition exec (addr : list Z → Z) (c : command) (s : bserver) : option bserver :=
  match c with
  | SETBIT k off b => setbitCommand s k off b
  | GETBIT k off => getbitCommand s k off
  | BITCOUNT k args => bitcountCommand addr s k args
  | BITPOS k b args => bitposCommand addr s k b args
  | BITOP name target ks => bitopCommand s name target ks
  | BITFIELD k args => bitfieldCommand s k args
  end.

(** C35. The commands on bitmaps behave like operations on arrays of bits: any
    sequence of SETBIT, GETBIT, BITCOUNT, BITPOS, BITOP and BITFIELD, with
    missing keys, keys of other types, malformed arguments, ranges and offsets
    behind the end, on strings of less than 2^30 bytes, sends exactly the
    specified replies and errors, counts the changes, raises the events and
    leaves the specified bits. BITOP gives the same bits with and without its
    fast path, and the fields of BITFIELD overflow by wrapping, saturating or
    failing as requested. The arguments have their own grammar in the
    specification ([fields_of], [bit_number], [byte_span], [named_op]). Excluded
    are only ([defined]) the BITFIELD calls with an offset [#n], n not between
    -2^56 and 2^56, those that find a negative integer in a field of type i64,
    those whose sum of a signed field and its increment does not fit in 64 bits,
    and those that set, with saturation, a signed field to a value below its
    range and 2^63 or more below its maximum: there the code is undefined or
    stores the wrong limit. *)
Theorem bit_commands_refine addr cs s D : srv_ok (keys s) D → runs_fit spec defined cs D = true → refines s (run_specs spec cs D) (execs (exec addr) cs s).
Proof.
  intros HK Hd. apply (runs_refine holds_val spec defined (exec addr)); [|done..]. clear. intros c s D HK Hd. destruct c; cbn [exec].
  - by apply setbit_ok.
  - by apply getbit_ok.
  - by apply bitcount_ok.
  - by apply bitpos_cmd_ok.
  - by apply bitop_ok.
  - by apply bitfield_ok.
Qed.

Definition example_commands : list command :=
  [SETBIT [107] [49; 48] [49]; GETBIT [107] [49; 48]; BITFIELD [107] [[83; 69; 84]; [117; 56]; [48]; [50; 53; 48]; [105; 110; 99; 114; 98; 121]; [117; 56]; [48]; [49; 48]; [79; 86; 69; 82; 70; 76; 79; 87]; [115; 97; 116]; [105; 110; 99; 114; 98; 121]; [105; 53]; [35; 49]; [49; 48; 48]];
   BITCOUNT [107] []; BITPOS [107] [49] [[48]; [45; 49]]; BITOP [78; 79; 84] [109] [[107]]; BITCOUNT [109] [[48]; [48]]].

Lemma bit_commands_refine_witness : runs_fit spec defined example_commands ∅ = true ∧ refines (Server ∅ 0 [] []) (run_specs spec example_commands ∅) (execs (exec (λ _, 0)) example_commands (Server ∅ 0 [] [])).
Proof.
  split; [vm_compute; reflexivity|]. apply (bit_commands_refine (λ _, 0)).
  - intros k. rewrite !lookup_empty. constructor.
  - vm_compute. reflexivity.
Defined.

Example bit_example_replies : (replies <$> execs (exec (λ _, 0)) example_commands (Server ∅ 0 [] [])) =
  Some [RLong 0; RLong 1; RMultiLen 3; RLong 0; RLong 4; RLong 15; RLong 5; RLong 6; RLong 2; RLong 6].
Proof. vm_compute. reflexivity. Qed.
