(* ===== verification/HllFloat.v ===== *)
(** * hyperloglog.c: the estimate

    The arithmetic of [hllCount] on doubles: the estimate of the cardinality
    from the histogram of the registers (Ertl's estimator, [hllSigma] and
    [hllTau]).  Doubles are IEEE binary64 with rounding to nearest even, the
    operations those of [SpecFloat]; [pow(x,2)] is [x*x], as compilers expand
    it; the long double argument of [llroundl] is a double here, and its
    conversion is exact.  The two loops end for every histogram of 16384
    registers ([estimate_ends]); the estimate is [None] exactly when [llroundl]
    gets a value outside of the range of its result. *)

From stdpp Require Import list.
From Stdlib Require Import SpecFloat.
From S2P Require Import Prelude.

(** ** Doubles *)

Abbreviation double := spec_float.
Definition dadd : double → double → double := SFadd 53 1024.
Definition dsub : double → double → double := SFsub 53 1024.
Definition dmul : double → double → double := SFmul 53 1024.
Definition ddiv : double → double → double := SFdiv 53 1024.
Definition dsqrt : double → double := SFsqrt 53 1024.
Definition of_int (n : Z) : double := binary_normalize 53 1024 n 0 false.
Definition d0 : double := S754_zero false.
Definition d1 : double := S754_finite false 4503599627370496 (-52).
Definition dhalf : double := S754_finite false 4503599627370496 (-53).

(** 0.721347520444481703680 *)
Definition HLL_ALPHA_INF : double := S754_finite false 6497320848556798 (-53).

(** [llroundl]: halves are rounded away from zero; a value out of the range of
    the result, an infinity or NaN has no specified result. *)
Definition llroundl (x : double) : option Z :=
  match x with
  | S754_zero _ => Some 0
  | S754_finite s m e =>
      let a := if 0 <=? e then Z.pos m * 2 ^ e else (2 * Z.pos m + 2 ^ (- e)) / 2 ^ (- e + 1) in
      let v := if s then - a else a in
      if (- 2 ^ 63 <=? v) && (v <? 2 ^ 63) then Some v else None
  | _ => None
  end.

(** [(uint64_t) E]: undefined for a value that does not fit. The value is an
    integer that was rounded from a double, so [E] holds it exactly. *)
Definition to_uint64 (v : Z) : option Z := if v <? 0 then None else Some v.

(** [do ... while(zPrime != z)] *)
Fixpoint sigma_loop (fuel : nat) (x y z : double) : option double :=
  match fuel with
  | O => None
  | S f =>
      let x := dmul x x in
      let zPrime := z in
      let z := dadd z (dmul x y) in
      let y := dadd y y in
      if SFeqb zPrime z then Some z else sigma_loop f x y z
  end.

Definition loop_fuel : nat := Z.to_nat 1100.

Definition hllSigma (x : double) : option double :=
  if SFeqb x d1 then Some (S754_infinity false) else sigma_loop loop_fuel x d1 x.

Fixpoint tau_loop (fuel : nat) (x y z : double) : option double :=
  match fuel with
  | O => None
  | S f =>
      let x := dsqrt x in
      let zPrime := z in
      let y := dmul y dhalf in
      let z := dsub z (dmul (dmul (dsub d1 x) (dsub d1 x)) y) in
      if SFeqb zPrime z then Some z else tau_loop f x y z
  end.

Definition hllTau (x : double) : option double :=
  if SFeqb x d0 || SFeqb x d1 then Some d0 else
  z ← tau_loop loop_fuel x d1 (dsub d1 x); Some (ddiv z (of_int 3)).

(** [for (j = HLL_Q; j >= 1; --j) { z += reghisto[j]; z *= 0.5; }] *)
Fixpoint histo_sum (reghisto : list Z) (j : nat) (z : double) : double :=
  match j with
  | O => z
  | S j' => histo_sum reghisto j' (dmul (dadd z (of_int (nth j reghisto 0))) dhalf)
  end.

(** What is rounded. *)
Definition raw_estimate (reghisto : list Z) : option double :=
  let m := of_int 16384 in
  tau ← hllTau (ddiv (dsub m (of_int (nth 51 reghisto 0))) m);
  let z := histo_sum reghisto 50 (dmul m tau) in
  sigma ← hllSigma (ddiv (of_int (nth 0 reghisto 0)) m);
  let z := dadd z (dmul m sigma) in
  Some (ddiv (dmul (dmul HLL_ALPHA_INF m) m) z).

Definition estimate (reghisto : list Z) : option Z :=
  q ← raw_estimate reghisto;
  v ← llroundl q;
  to_uint64 v.


(** ** Rounding *)

Abbreviation fexp64 := (fexp 53 1024).
Abbreviation round64 := (binary_round_aux 53 1024).

Lemma fexp64_eq e : fexp64 e = Z.max (e - 53) (-1074).
Proof. done. Qed.

Lemma digits_pos p : Z.pos (digits2_pos p) = Z.log2 (Z.pos p) + 1.
Proof.
  induction p as [p IH|p IH|]; simpl digits2_pos; [rewrite (Pos2Z.inj_xI p), Z.log2_succ_double by lia|rewrite (Pos2Z.inj_xO p), Z.log2_double by lia|done];
    rewrite Pos2Z.inj_succ; lia.
Qed.

(** The number of digits bounds the number. *)
Lemma digits_le m n : 0 ≤ m → 0 ≤ n → (Zdigits2 m ≤ n ↔ m < 2 ^ n).
Proof.
  intros Hm Hn. destruct m as [|p|]; [|simpl; rewrite digits_pos|lia].
  - split; [|done]. intros _. by apply Z.pow_pos_nonneg.
  - rewrite (Z.log2_lt_pow2 (Z.pos p) n) by lia. lia.
Qed.

Lemma digits_nonneg m : 0 ≤ Zdigits2 m.
Proof. by destruct m. Qed.

Lemma digits_bound m : 0 ≤ m → m < 2 ^ Zdigits2 m.
Proof. intros Hm. apply digits_le; [done|apply digits_nonneg|lia]. Qed.

Lemma div_lt_iff a b q : 0 < b → (a / b < q ↔ a < b * q).
Proof. intros Hb. pose proof (Z.mul_div_le a b Hb). pose proof (Z.mul_succ_div_gt a b Hb). split; nia. Qed.

Lemma digits_div m s : 0 ≤ m → 0 ≤ s → Zdigits2 (m / 2 ^ s) = Z.max 0 (Zdigits2 m - s).
Proof.
  intros Hm Hs. pose proof (Z.pow_pos_nonneg 2 s ltac:(lia) Hs) as Hp. assert (0 ≤ m / 2 ^ s) as Hq by (by apply Z.div_pos).
  assert (∀ n, 0 ≤ n → Zdigits2 (m / 2 ^ s) ≤ n ↔ Zdigits2 m ≤ n + s) as Heq.
  { intros n Hn. rewrite (digits_le m), digits_le, div_lt_iff, Z.add_comm, Z.pow_add_r by lia. done. }
  pose proof (digits_nonneg (m / 2 ^ s)) as H1. pose proof (digits_nonneg m).
  pose proof (proj1 (Heq _ H1) ltac:(lia)). pose proof (proj2 (Heq (Z.max 0 (Zdigits2 m - s)) ltac:(lia)) ltac:(lia)). lia.
Qed.

Lemma iter_pos_nat {A} (f : A → A) p x : SpecFloat.iter_pos f p x = Nat.iter (Pos.to_nat p) f x.
Proof.
  revert x. induction p as [p IH|p IH|]; intros x; cbn [SpecFloat.iter_pos]; [| |done]; rewrite !IH.
  - rewrite <- Nat.iter_add, Pos2Nat.inj_xI, Nat.iter_succ_r. f_equal. lia.
  - rewrite <- Nat.iter_add, Pos2Nat.inj_xO. f_equal. lia.
Qed.

Lemma shr_1_m r : 0 ≤ shr_m r → shr_m (shr_1 r) = shr_m r / 2.
Proof.
  destruct r as [[|[p|p|]|] r s]; simpl; intros; try done; try lia.
  - rewrite Pos2Z.inj_xI, Z.add_comm, Z.mul_comm, Z.div_add by lia. done.
  - rewrite Pos2Z.inj_xO, Z.mul_comm, Z.div_mul by lia. done.
Qed.

Lemma shr_iter n r : 0 ≤ shr_m r → shr_m (Nat.iter n shr_1 r) = shr_m r / 2 ^ Z.of_nat n.
Proof.
  intros Hr. induction n as [|n IH]; [by rewrite Z.div_1_r|]. rewrite Nat.iter_succ, shr_1_m, IH.
  - rewrite Z.div_div by (try apply Z.pow_nonzero; lia). rewrite Nat2Z.inj_succ, Z.pow_succ_r by lia. f_equal. lia.
  - rewrite IH. apply Z.div_pos; [done|]. apply Z.pow_pos_nonneg; lia.
Qed.

(** The shift: the mantissa loses the digits below the new exponent. *)
Lemma shr_fexp_m m e l : 0 ≤ m → let e' := Z.max e (fexp64 (Zdigits2 m + e)) in
  (shr_fexp 53 1024 m e l).2 = e' ∧ shr_m (shr_fexp 53 1024 m e l).1 = m / 2 ^ (e' - e).
Proof.
  intros Hm. simpl. unfold shr_fexp, shr. assert (shr_m (shr_record_of_loc m l) = m) as E by (by destruct l as [|[]]).
  destruct (fexp64 (Zdigits2 m + e) - e) as [|p|p] eqn:Ed; cbn [fst snd].
  - rewrite Z.max_l, Z.sub_diag, Z.div_1_r by lia. done.
  - rewrite Z.max_r by lia. rewrite iter_pos_nat, shr_iter by (by rewrite E). rewrite E, Ed, positive_nat_Z. split; [lia|done].
  - rewrite Z.max_l, Z.sub_diag, Z.div_1_r by lia. done.
Qed.

Lemma round_even_range m l : m ≤ round_nearest_even m l ≤ m + 1.
Proof. destruct l as [|[]]; simpl; try lia. destruct (Z.even m); lia. Qed.

(** Rounding shifts, adds at most 1 and shifts again. *)
Lemma round_cases s mx ex l : 0 ≤ mx → ∃ e1 m1 e2,
  e1 = Z.max ex (fexp64 (Zdigits2 mx + ex)) ∧ mx / 2 ^ (e1 - ex) ≤ m1 ≤ mx / 2 ^ (e1 - ex) + 1 ∧ e2 = Z.max e1 (fexp64 (Zdigits2 m1 + e1)) ∧
  round64 s mx ex l = match m1 / 2 ^ (e2 - e1) with Z0 => S754_zero s | Z.pos m => if e2 <=? 971 then S754_finite s m e2 else S754_infinity s | _ => S754_nan end.
Proof.
  intros Hm. unfold binary_round_aux. destruct (shr_fexp_m mx ex l Hm) as [E1 E2]. destruct (shr_fexp 53 1024 mx ex l) as [mrs e1]. simpl in E1, E2.
  set (m1 := round_nearest_even (shr_m mrs) (loc_of_shr_record mrs)). pose proof (round_even_range (shr_m mrs) (loc_of_shr_record mrs)) as Hr. fold m1 in Hr.
  assert (0 ≤ m1) as Hm1 by (pose proof (Z.div_pos mx (2 ^ (Z.max ex (fexp64 (Zdigits2 mx + ex)) - ex)) Hm ltac:(apply Z.pow_pos_nonneg; lia)); lia).
  destruct (shr_fexp_m m1 e1 loc_Exact Hm1) as [E3 E4]. destruct (shr_fexp 53 1024 m1 e1 loc_Exact) as [mrs2 e2]. simpl in E3, E4.
  exists e1, m1, e2. rewrite <- E1 in E2. split_and!; [done|lia|lia|done|]. rewrite E4, <- E3. done.
Qed.

(** A float that is 0 or finite and below [2 ^ K]. *)
Definition upto (K : Z) (s : bool) (f : double) : Prop :=
  f = S754_zero s ∨ ∃ m e, f = S754_finite s m e ∧ Zdigits2 (Z.pos m) + e ≤ K ∧ -1074 ≤ e.

Lemma digits_succ m n : 0 ≤ n → m ≤ n + 1 → 0 ≤ m → Zdigits2 m ≤ Zdigits2 n + 1.
Proof.
  intros Hn Hm H0. pose proof (digits_nonneg n). apply digits_le; [done|lia|]. pose proof (digits_bound n Hn). rewrite Z.pow_add_r by lia. lia.
Qed.

Lemma round_upto s mx ex l K : 0 ≤ mx → Zdigits2 mx + ex ≤ K → -1000 ≤ K ≤ 900 → upto (K + 1) s (round64 s mx ex l).
Proof.
  intros Hm Hd HK. destruct (round_cases s mx ex l Hm) as (e1 & m1 & e2 & E1 & Hm1 & E2 & ->). pose proof (digits_nonneg mx).
  assert (ex ≤ e1 ∧ e1 ≤ K ∧ -1074 ≤ e1) as (He1 & He1' & He1'') by (rewrite E1, fexp64_eq; lia).
  assert (0 ≤ mx / 2 ^ (e1 - ex)) as Hq by (apply Z.div_pos; [done|apply Z.pow_pos_nonneg; lia]).
  pose proof (digits_succ m1 _ Hq ltac:(lia) ltac:(lia)) as Hd1. rewrite digits_div in Hd1 by lia.
  assert (e1 ≤ e2 ∧ e2 ≤ K) as [He2 He2'] by (rewrite E2, fexp64_eq; lia).
  pose proof (digits_div m1 (e2 - e1) ltac:(lia) ltac:(lia)) as Hd2. destruct (m1 / 2 ^ (e2 - e1)) as [|m|m] eqn:Em; [by left| |].
  - right. rewrite (proj2 (Z.leb_le _ _)) by lia. exists m, e2. split_and!; [done| |lia]. pose proof (eq_refl : Zdigits2 (Z.pos m) = Z.pos (digits2_pos m)). lia.
  - pose proof (Z.div_pos m1 (2 ^ (e2 - e1)) ltac:(lia) ltac:(apply Z.pow_pos_nonneg; lia)). lia.
Qed.

(** Positive, maybe infinite. *)
Definition nonneg (f : double) : Prop := match f with S754_zero _ | S754_infinity false | S754_finite false _ _ => True | _ => False end.

Lemma round_sign s mx ex l : 0 ≤ mx → match round64 s mx ex l with S754_zero s' | S754_infinity s' | S754_finite s' _ _ => s' = s | S754_nan => False end.
Proof.
  intros Hm. destruct (round_cases s mx ex l Hm) as (e1 & m1 & e2 & E1 & Hm1 & E2 & ->).
  assert (0 ≤ mx / 2 ^ (e1 - ex)) as Hq by (apply Z.div_pos; [done|apply Z.pow_pos_nonneg; lia]).
  pose proof (Z.div_pos m1 (2 ^ (e2 - e1)) ltac:(lia) ltac:(apply Z.pow_pos_nonneg; lia)) as H0.
  destruct (m1 / 2 ^ (e2 - e1)); [done|by destruct (e2 <=? 971)|done].
Qed.

Lemma round_nonneg mx ex l : 0 ≤ mx → nonneg (round64 false mx ex l).
Proof. intros Hm. pose proof (round_sign false mx ex l Hm). by destruct (round64 false mx ex l) as [|[]| |[]]. Qed.

(** Values that have few digits are not rounded. *)
Lemma round_exact s m e : fexp64 (Z.pos (digits2_pos m) + e) = e → e ≤ 971 → round64 s (Z.pos m) e loc_Exact = S754_finite s m e.
Proof.
  intros E He. unfold binary_round_aux, shr_fexp, shr. simpl Zdigits2. rewrite E, Z.sub_diag. simpl. rewrite E, Z.sub_diag. simpl. by rewrite (proj2 (Z.leb_le _ _)).
Qed.

(** Less than half a unit in the last place is rounded to 0. *)
Lemma round_zero s mx ex n : 0 ≤ mx → mx < 2 ^ Z.of_nat n → fexp64 (Zdigits2 mx + ex) - ex = Z.of_nat (S n) → round64 s mx ex loc_Exact = S754_zero s.
Proof.
  intros Hm Hlt Hs. unfold binary_round_aux.
  assert (shr_fexp 53 1024 mx ex loc_Exact = (shr_1 (Nat.iter n shr_1 (shr_record_of_loc mx loc_Exact)), ex + Z.pos (Pos.of_succ_nat n))) as ->.
  { unfold shr_fexp, shr. rewrite Hs. change (Z.of_nat (S n)) with (Z.pos (Pos.of_succ_nat n)). cbv iota. by rewrite iter_pos_nat, SuccNat2Pos.id_succ, Nat.iter_succ. }
  pose proof (shr_iter n (shr_record_of_loc mx loc_Exact) Hm) as E. change (shr_m (shr_record_of_loc mx loc_Exact)) with mx in E. rewrite Z.div_small in E by lia.
  destruct (Nat.iter n shr_1 (shr_record_of_loc mx loc_Exact)) as [m r b]. simpl in E. subst m. simpl shr_1. cbn [shr_m].
  assert (round_nearest_even 0 (loc_of_shr_record {| shr_m := 0; shr_r := false; shr_s := r || b |}) = 0) as -> by (by destruct (r || b)).
  pose proof (shr_fexp_m 0 (ex + Z.pos (Pos.of_succ_nat n)) loc_Exact ltac:(lia)) as [_ E]. destruct (shr_fexp 53 1024 0 _ loc_Exact) as [mrs e2]. simpl in E.
  rewrite Z.div_0_l in E by (apply Z.pow_nonzero; lia). by rewrite E.
Qed.

Lemma iter_xO n m : Z.pos (Nat.iter n xO m) = Z.pos m * 2 ^ Z.of_nat n.
Proof. induction n as [|n IH]; [simpl; lia|]. rewrite Nat.iter_succ, Pos2Z.inj_xO, IH, Nat2Z.inj_succ, Z.pow_succ_r by lia. lia. Qed.

Lemma shl_align_eq m e e' : e' ≤ e → shl_align m e e' = (Z.to_pos (Z.pos m * 2 ^ (e - e')), e').
Proof.
  intros He. unfold shl_align. destruct (e' - e) as [|p|p] eqn:E; [|lia|].
  - assert (e' = e) as -> by lia. by rewrite Z.sub_diag, Z.mul_1_r.
  - f_equal. apply Pos2Z.inj. rewrite Z2Pos.id by (apply Z.mul_pos_pos; [lia|apply Z.pow_pos_nonneg; lia]).
    rewrite Pos2Nat.inj_iter. etrans; [apply (iter_xO (Pos.to_nat p) m)|]. rewrite positive_nat_Z. do 2 f_equal. lia.
Qed.

(** The sum or difference of two aligned numbers. *)
Lemma normalize_upto n e K : Zdigits2 (Z.abs n) + e ≤ K → -1000 ≤ K ≤ 900 → -1074 ≤ e →
  upto (K + 1) (if n <? 0 then true else false) (binary_normalize 53 1024 n e false).
Proof.
  intros Hd HK He. assert (∀ s p, Z.pos (digits2_pos p) + e ≤ K → upto (K + 1) s (binary_round 53 1024 s p e)) as Hgen.
  { intros s p Hp. unfold binary_round. set (e' := fexp64 (Z.pos (digits2_pos p) + e)).
    destruct (decide (e' ≤ e)) as [Hle|Hgt]; [rewrite (shl_align_eq p e e' Hle)|].
    - apply round_upto; [lia| |done]. pose proof (Z.pow_pos_nonneg 2 (e - e') ltac:(lia) ltac:(lia)). rewrite Z2Pos.id by lia.
      enough (Zdigits2 (Z.pos p * 2 ^ (e - e')) ≤ K - e') by lia. apply digits_le; [lia|pose proof (Zgt_pos_0 (digits2_pos p)); lia|].
      replace (K - e') with ((K - e) + (e - e')) by lia. rewrite Z.pow_add_r by lia. apply Z.mul_lt_mono_pos_r; [done|]. apply digits_le; [lia|lia|simpl; lia].
    - unfold shl_align. destruct (e' - e) eqn:E; [lia| |lia]. by apply round_upto. }
  destruct n as [|p|p]; [by left|by apply Hgen|by apply Hgen].
Qed.

Lemma mul_upto s t K L x y : upto K s x → upto L t y → -1000 ≤ K + L ≤ 900 → upto (K + L + 1) (xorb s t) (dmul x y).
Proof.
  intros [->|(m & e & -> & Hm & _)] [->|(n & f & -> & Hn & _)] HK; [by left..|]. unfold dmul, SFmul. apply round_upto; [lia| |done].
  rewrite Pos2Z.inj_mul. simpl in Hm, Hn. enough (Zdigits2 (Z.pos m * Z.pos n) ≤ Zdigits2 (Z.pos m) + Zdigits2 (Z.pos n)) by (simpl Zdigits2 in *; lia).
  pose proof (digits_bound (Z.pos m) ltac:(lia)). pose proof (digits_bound (Z.pos n) ltac:(lia)). pose proof (digits_nonneg (Z.pos m)). pose proof (digits_nonneg (Z.pos n)).
  apply digits_le; [lia|lia|]. rewrite Z.pow_add_r by lia. nia.
Qed.

Lemma sqrt_upto K x : upto K false x → -1000 ≤ K ≤ 900 → upto ((K + 1) / 2 + 1) false (dsqrt x).
Proof.
  pose proof (Z.mul_div_le (K + 1) 2 ltac:(lia)). pose proof (Z.mul_succ_div_gt (K + 1) 2 ltac:(lia)).
  intros [->|(m & e & -> & Hm & He)] HK; [by left|]. unfold dsqrt, SFsqrt, SFsqrt_core_binary.
  set (e' := Z.min _ _). set (s := e - 2 * e'). assert (0 ≤ s) as Hs.
  { unfold s, e'. rewrite !Z.div2_div. pose proof (Z.mul_div_le e 2 ltac:(lia)). lia. }
  assert (match s with Z0 => Z.pos m | Z.pos _ => Z.shiftl (Z.pos m) s | Z.neg _ => 0 end = Z.pos m * 2 ^ s) as ->.
  { destruct s; [lia|by apply Z.shiftl_mul_pow2|lia]. }
  pose proof (Z.pow_pos_nonneg 2 s ltac:(lia) Hs). pose proof (Z.sqrtrem_spec (Z.pos m * 2 ^ s) ltac:(lia)) as Hq. destruct (Z.sqrtrem (Z.pos m * 2 ^ s)) as [q r].
  assert (0 ≤ q) as Hq0 by lia. apply (round_upto _ _ _ _ ((K + 1) / 2)); [done| |lia]. destruct (decide (q = 0)) as [->|Hne].
  { exfalso. lia. }
  assert (Zdigits2 q = Z.log2 q + 1) as -> by (destruct q; [done|apply digits_pos|lia]).
  assert (2 * Z.log2 q < Zdigits2 (Z.pos m) + s) as Hlog.
  { apply (Z.pow_lt_mono_r_iff 2); [lia|pose proof (digits_nonneg (Z.pos m)); lia|]. pose proof (Z.log2_spec q ltac:(lia)) as [Hl _].
    pose proof (digits_bound (Z.pos m) ltac:(lia)). rewrite Z.pow_add_r by (try apply digits_nonneg; lia). replace (2 * Z.log2 q) with (Z.log2 q + Z.log2 q) by lia.
    pose proof (Z.log2_nonneg q). rewrite Z.pow_add_r by lia. nia. }
  unfold s in Hlog. lia.
Qed.

(** [1 - x] *)
Lemma sub_one_upto K x : upto K false x → 1 ≤ K ≤ 900 → ∃ s, upto (K + 1) s (dsub d1 x).
Proof.
  intros [->|(m & e & -> & Hm & He)] HK.
  { exists false. right. eexists _, _. split; [done|]. split; simpl; lia. }
  unfold dsub, SFsub, d1. set (ez := Z.min (-52) e). rewrite !shl_align_eq by lia. cbn [fst cond_Zopp].
  pose proof (Z.pow_pos_nonneg 2 (-52 - ez) ltac:(lia) ltac:(lia)). pose proof (Z.pow_pos_nonneg 2 (e - ez) ltac:(lia) ltac:(lia)). rewrite !Z2Pos.id by lia.
  eexists. apply normalize_upto; [|lia|lia]. enough (Zdigits2 (Z.abs (4503599627370496 * 2 ^ (-52 - ez) - Z.pos m * 2 ^ (e - ez))) ≤ K - ez) by lia.
  assert (4503599627370496 * 2 ^ (-52 - ez) < 2 ^ (K - ez)) as H1.
  { change 4503599627370496 with (2 ^ 52). rewrite <- Z.pow_add_r by lia. apply Z.pow_lt_mono_r; lia. }
  assert (Z.pos m * 2 ^ (e - ez) < 2 ^ (K - ez)) as H2.
  { destruct (decide (0 ≤ K - e)) as [Hk|Hk]; [|pose proof (Zgt_pos_0 (digits2_pos m)); simpl in Hm; lia].
    replace (K - ez) with ((K - e) + (e - ez)) by lia. rewrite (Z.pow_add_r 2 (K - e)) by lia. apply Z.mul_lt_mono_pos_r; [done|]. apply digits_le; lia. }
  apply digits_le; lia.
Qed.

Definition half_iter (n : nat) (y : double) : double := Nat.iter n (λ y, dmul y dhalf) y.

Lemma eqb_refl f : f ≠ S754_nan → SFeqb f f = true.
Proof.
  intros Hf. unfold SFeqb, SFcompare. destruct f as [| [] | |[] m e]; try done; rewrite Z.compare_refl; change (Pos.compare_cont Eq m m) with (Pos.compare m m); by rewrite Pos.compare_refl.
Qed.

Lemma sub_finite_nan z t s K : z ≠ S754_nan → upto K s t → dsub z t ≠ S754_nan.
Proof.
  intros Hz [->|(n & f & -> & _)]; unfold dsub, SFsub; destruct z as [s0|s0| |s0 m e]; try done; [by destruct s0, s|].
  assert (∀ k g, binary_normalize 53 1024 k g false ≠ S754_nan) as Hn.
  { intros k g. unfold binary_normalize, binary_round. destruct k as [|p|p]; [done| |]; destruct (shl_align _ _ _) as [mz ez]; intros E;
      [pose proof (round_sign false (Z.pos mz) ez loc_Exact ltac:(lia)) as H|pose proof (round_sign true (Z.pos mz) ez loc_Exact ltac:(lia)) as H]; by rewrite E in H. }
  apply Hn.
Qed.

Lemma sub_zero z s : z ≠ S754_nan → SFeqb z (dsub z (S754_zero s)) = true.
Proof. intros Hz. destruct z as [s0|s0| |s0 m e]; [by destruct s0, s|by destruct s0|done|]. by apply eqb_refl. Qed.

(** The loop of [hllTau] ends when [y] is 0 at the latest. *)
Lemma tau_loop_ends n : ∀ x y z, upto 10 false x → z ≠ S754_nan → (∀ i, (i ≤ n)%nat → upto 1 false (half_iter (S i) y)) → half_iter (S n) y = S754_zero false →
  ∃ r, tau_loop (S n) x y z = Some r.
Proof.
  induction n as [|n IH]; intros x y z Hx Hz Hy H0; cbn [tau_loop].
  all: pose proof (sqrt_upto 10 x Hx ltac:(lia)) as Hx1; change ((10 + 1) / 2 + 1) with 6 in Hx1.
  all: destruct (sub_one_upto 6 (dsqrt x) Hx1 ltac:(lia)) as [s Hs]; pose proof (mul_upto _ _ _ _ _ _ Hs Hs ltac:(lia)) as Hsq; set (sq := dmul _ _) in *.
  all: pose proof (Hy 0%nat ltac:(lia)) as Hy1; change (half_iter 1 y) with (dmul y dhalf) in Hy1.
  - change (half_iter 1 y) with (dmul y dhalf) in H0. rewrite H0. assert (∃ s', dmul sq (S754_zero false) = S754_zero s') as [s' ->].
    { destruct Hsq as [->|(m & e & -> & _)]; by eexists. }
    rewrite sub_zero by done. eauto.
  - case_match; [eauto|]. apply IH.
    + destruct Hx1 as [->|(m & e & -> & H1 & H2)]; [by left|right]. exists m, e. split_and!; [done|lia|done].
    + eapply sub_finite_nan; [done|]. eapply mul_upto; [done..|lia].
    + intros i Hi. specialize (Hy (S i) ltac:(lia)). unfold half_iter in *. by rewrite Nat.iter_succ_r in Hy.
    + unfold half_iter in *. by rewrite Nat.iter_succ_r in H0.
Qed.

Lemma half_upto K y : upto K false y → -999 ≤ K ≤ 900 → upto K false (dmul y dhalf).
Proof.
  intros [->|(m & e & -> & Hm & He)] HK; [by left|]. unfold dmul, SFmul, dhalf. replace K with ((K - 1) + 1) at 1 by lia. apply round_upto; [lia| |lia].
  rewrite Pos2Z.inj_mul. pose proof (digits_nonneg (Z.pos m)). enough (Zdigits2 (Z.pos m * 4503599627370496) ≤ Zdigits2 (Z.pos m) + 52) by lia.
  apply digits_le; [lia|lia|]. rewrite Z.pow_add_r by lia. pose proof (digits_bound (Z.pos m) ltac:(lia)). change 4503599627370496 with (2 ^ 52). lia.
Qed.

Lemma tau_ends x : upto 10 false x → ∃ r, hllTau x = Some r.
Proof.
  intros Hx. unfold hllTau. destruct (SFeqb x d0 || SFeqb x d1); [eauto|]. assert (∃ r, tau_loop loop_fuel x d1 (dsub d1 x) = Some r) as [r ->]; [|eauto].
  apply (tau_loop_ends (pred loop_fuel)); [done| | |vm_compute; reflexivity].
  - destruct (sub_one_upto 10 x Hx ltac:(lia)) as [s [->|(m & e & -> & _)]]; done.
  - intros i _. unfold half_iter. induction (S i) as [|j IH]; [|rewrite Nat.iter_succ; apply half_upto; [done|lia]].
    right. eexists _, _. split; [done|]. split; simpl; lia.
Qed.

(** ** The loop of [hllSigma] *)

(** At most [N / 2 ^ 53]. *)
Definition below (N : Z) (x : double) : Prop :=
  x = S754_zero false ∨ ∃ m e, x = S754_finite false m e ∧ -1074 ≤ e ≤ -53 ∧ Z.pos m * 2 ^ (e + 1074) ≤ N * 2 ^ 1021.

(** Rounding adds at most one unit. *)
Lemma round_below m ex l e1 N : e1 = Z.max ex (fexp64 (Zdigits2 m + ex)) → 0 ≤ m → e1 ≤ -53 → 0 ≤ N → N + 1 < 2 ^ 53 →
  m / 2 ^ (e1 - ex) * 2 ^ (e1 + 1074) ≤ N * 2 ^ 1021 → below (N + 1) (round64 false m ex l).
Proof.
  intros E1 Hm He1 HN0 HN Hle. destruct (round_cases false m ex l Hm) as (e1' & m1 & e2 & E1' & Hm1 & E2 & ->). rewrite <- E1 in E1'. subst e1'.
  assert (ex ≤ e1 ∧ -1074 ≤ e1) as [He He'] by (rewrite E1, fexp64_eq; lia).
  assert (0 ≤ m / 2 ^ (e1 - ex)) as Hq by (apply Z.div_pos; [done|apply Z.pow_pos_nonneg; lia]).
  pose proof (Z.pow_pos_nonneg 2 (e1 + 1074) ltac:(lia) ltac:(lia)) as Hp. pose proof (Z.pow_le_mono_r 2 (e1 + 1074) 1021 ltac:(lia) ltac:(lia)) as Hp2.
  assert (m1 * 2 ^ (e1 + 1074) ≤ (N + 1) * 2 ^ 1021) as Hv by (generalize dependent (2 ^ 1021); intros; nia).
  assert (Zdigits2 m1 + e1 ≤ 0) as Hd.
  { enough (Zdigits2 m1 ≤ - e1) by lia. apply digits_le; [lia|lia|]. apply (Z.mul_lt_mono_pos_r (2 ^ (e1 + 1074))); [done|]. rewrite <- Z.pow_add_r by lia.
    replace (- e1 + (e1 + 1074)) with (53 + 1021) by lia. rewrite (Z.pow_add_r 2 53 1021) by lia. pose proof (Z.pow_pos_nonneg 2 1021 ltac:(lia) ltac:(lia)). generalize dependent (2 ^ 1021). intros. nia. }
  assert (e1 ≤ e2 ∧ e2 ≤ -53) as [He2 He2'] by (rewrite E2, fexp64_eq; lia).
  pose proof (Z.pow_pos_nonneg 2 (e2 - e1) ltac:(lia) ltac:(lia)) as Hp3. pose proof (Z.mul_div_le m1 (2 ^ (e2 - e1)) Hp3) as Hdiv. pose proof (Z.div_pos m1 (2 ^ (e2 - e1)) ltac:(lia) Hp3).
  destruct (m1 / 2 ^ (e2 - e1)) as [|m2|] eqn:Em; [by left| |lia]. right. rewrite (proj2 (Z.leb_le _ _)) by lia. exists m2, e2. split_and!; [done|lia|lia|].
  replace (e2 + 1074) with ((e2 - e1) + (e1 + 1074)) by lia. rewrite Z.pow_add_r by lia. generalize dependent (2 ^ 1021). intros. nia.
Qed.

Lemma square_below N x : below N x → 0 ≤ N < 2 ^ 53 → N * N / 2 ^ 53 + 2 < 2 ^ 53 → below (N * N / 2 ^ 53 + 2) (dmul x x).
Proof.
  intros [->|(m & e & -> & He & Hv)] HN HN2; [by left|]. unfold dmul, SFmul. simpl xorb. set (M := Z.pos (m * m)). assert (M = Z.pos m * Z.pos m) as EM by (by rewrite <- Pos2Z.inj_mul).
  pose proof (Z.pow_pos_nonneg 2 (e + 1074) ltac:(lia) ltac:(lia)) as Hp. assert (0 < 2 ^ 1021) as Hc by (apply Z.pow_pos_nonneg; lia).
  assert (Z.pos m < 2 ^ (- e)) as Hm.
  { apply (Z.mul_lt_mono_pos_r (2 ^ (e + 1074))); [done|]. rewrite <- Z.pow_add_r by lia. replace (- e + (e + 1074)) with (53 + 1021) by lia. rewrite (Z.pow_add_r 2 53) by lia.
    generalize dependent (2 ^ 1021). intros. nia. }
  assert (Zdigits2 M + (e + e) ≤ 0) as Hd.
  { enough (Zdigits2 M ≤ - e + - e) by lia. apply digits_le; [lia|lia|]. rewrite Z.pow_add_r by lia. nia. }
  pose proof (digits_nonneg M). set (e1 := Z.max (e + e) (fexp64 (Zdigits2 M + (e + e)))). assert (e + e ≤ e1 ≤ -53) as He1 by (unfold e1; rewrite fexp64_eq; lia). assert (-1074 ≤ e1) as He1' by (unfold e1; rewrite fexp64_eq; lia).
  replace (N * N / 2 ^ 53 + 2) with ((N * N / 2 ^ 53 + 1) + 1) by lia. apply (round_below M (e + e) loc_Exact e1); [done|lia|lia| |lia|].
  { pose proof (Z.div_pos (N * N) (2 ^ 53) ltac:(nia) ltac:(lia)). lia. }
  pose proof (Z.pow_pos_nonneg 2 (e1 - (e + e)) ltac:(lia) ltac:(lia)) as Hp2. pose proof (Z.mul_div_le M (2 ^ (e1 - (e + e))) Hp2) as Hq. set (q := M / 2 ^ (e1 - (e + e))) in *.
  assert (q * 2 ^ (e1 + 1074) * 2 ^ 53 * 2 ^ 1021 ≤ N * N * 2 ^ 1021 * 2 ^ 1021) as Hsq.
  { replace (q * 2 ^ (e1 + 1074) * 2 ^ 53 * 2 ^ 1021) with (2 ^ (e1 - (e + e)) * q * (2 ^ (e + 1074) * 2 ^ (e + 1074))).
    - transitivity (M * (2 ^ (e + 1074) * 2 ^ (e + 1074))); [apply Z.mul_le_mono_nonneg_r; lia|]. rewrite EM.
      replace (Z.pos m * Z.pos m * (2 ^ (e + 1074) * 2 ^ (e + 1074))) with ((Z.pos m * 2 ^ (e + 1074)) * (Z.pos m * 2 ^ (e + 1074))) by ring.
      replace (N * N * 2 ^ 1021 * 2 ^ 1021) with ((N * 2 ^ 1021) * (N * 2 ^ 1021)) by ring. apply Z.mul_le_mono_nonneg; lia.
    - rewrite (Z.mul_comm _ q), <- !Z.mul_assoc. f_equal. rewrite <- !Z.pow_add_r by lia. f_equal. lia. }
  apply (Z.mul_le_mono_pos_r _ _ (2 ^ 1021)) in Hsq; [|done]. pose proof (Z.mul_succ_div_gt (N * N) (2 ^ 53) ltac:(lia)) as Hdiv.
  generalize dependent (2 ^ 1021). intros. nia.
Qed.

Definition sq_iter (n : nat) (x : double) : double := Nat.iter n (λ x, dmul x x) x.

(** The bounds of the first squares, and their magnitude then. *)
Fixpoint bounds (n : nat) (N : Z) : bool :=
  match n with
  | O => N <=? 4
  | S n => (0 <=? N) && (N <? 2 ^ 53) && (N * N / 2 ^ 53 + 2 <? 2 ^ 53) && bounds n (N * N / 2 ^ 53 + 2)
  end.

Lemma squares_below n : ∀ N x, bounds n N = true → below N x → below 4 (sq_iter n x) ∧ ∀ i, (i ≤ n)%nat → ∃ N, below N (sq_iter i x).
Proof.
  induction n as [|n IH]; intros N x Hb Hx; cbn [bounds] in Hb.
  - apply Z.leb_le in Hb. assert (below 4 x) as H4.
    { destruct Hx as [->|(m & e & -> & He & Hv)]; [by left|right]. exists m, e. split_and!; [done|lia|lia|]. etrans; [done|]. apply Z.mul_le_mono_nonneg_r; [|done]. apply Z.pow_nonneg. lia. }
    split; [done|]. intros i Hi. assert (i = O) as -> by lia. by exists 4.
  - apply andb_true_iff in Hb as [Hb Hn]. apply andb_true_iff in Hb as [Hb H3%Z.ltb_lt]. apply andb_true_iff in Hb as [H1%Z.leb_le H2%Z.ltb_lt].
    destruct (IH _ (dmul x x) Hn (square_below N x Hx ltac:(lia) H3)) as [HA HB]. unfold sq_iter in *. rewrite Nat.iter_succ_r. split; [done|].
    intros [|i] Hi; [by exists N|]. rewrite Nat.iter_succ_r. apply HB. lia.
Qed.

Lemma below_upto x : below 4 x → upto (-50) false x.
Proof.
  intros [->|(m & e & -> & He & Hv)]; [by left|right]. exists m, e. split_and!; [done| |lia].
  pose proof (Z.pow_pos_nonneg 2 (e + 1074) ltac:(lia) ltac:(lia)) as Hp. assert (Z.pos m * 2 ^ (e + 1074) < 2 ^ 1024) as Hlt.
  { eapply Z.le_lt_trans; [done|]. change 4 with (2 ^ 2). rewrite <- Z.pow_add_r by lia. apply Z.pow_lt_mono_r; lia. }
  destruct (decide (e ≤ -50)) as [Hle|]; [|exfalso; lia]. enough (Zdigits2 (Z.pos m) ≤ -50 - e) by lia. apply digits_le; [lia|lia|].
  apply (Z.mul_lt_mono_pos_r (2 ^ (e + 1074))); [done|]. rewrite <- Z.pow_add_r by lia. by replace (-50 - e + (e + 1074)) with 1024 by lia.
Qed.

Lemma square_zero x : upto (-540) false x → dmul x x = S754_zero false.
Proof.
  intros [->|(m & e & -> & Hm & He)]; [done|]. unfold dmul, SFmul. simpl xorb. set (M := Z.pos (m * m)).
  assert (M < 2 ^ (-540 - e + (-540 - e))) as HM.
  { pose proof (Zgt_pos_0 (digits2_pos m)). simpl in Hm. unfold M. rewrite Pos2Z.inj_mul, Z.pow_add_r by lia. assert (Z.pos m < 2 ^ (-540 - e)) by (apply digits_le; simpl; lia). nia. }
  assert (e ≤ -540) as He' by (pose proof (digits_nonneg (Z.pos m)); lia).
  assert (Zdigits2 M ≤ -540 - e + (-540 - e)) as Hd by (apply digits_le; lia).
  apply (round_zero false M (e + e) (Z.to_nat (-1075 - (e + e)))); [lia| |].
  - rewrite Z2Nat.id by lia. eapply Z.lt_le_trans; [exact HM|]. apply Z.pow_le_mono_r; lia.
  - rewrite fexp64_eq, Nat2Z.inj_succ, Z2Nat.id by lia. lia.
Qed.

Definition posfin (f : double) : Prop := match f with S754_zero _ | S754_finite false _ _ => True | _ => False end.

Lemma upto_posfin K x : upto K false x → posfin x.
Proof. by intros [->|(m & e & -> & _)]. Qed.

Lemma small_squares x : upto (-50) false x → sq_iter 5 x = S754_zero false ∧ ∀ i, (i ≤ 5)%nat → posfin (sq_iter i x).
Proof.
  intros H0. pose proof (mul_upto _ _ _ _ _ _ H0 H0 ltac:(lia)) as H1. pose proof (mul_upto _ _ _ _ _ _ H1 H1 ltac:(lia)) as H2. pose proof (mul_upto _ _ _ _ _ _ H2 H2 ltac:(lia)) as H3.
  pose proof (mul_upto _ _ _ _ _ _ H3 H3 ltac:(lia)) as H4. simpl in H1, H2, H3, H4.
  assert (sq_iter 5 x = S754_zero false) as H5.
  { apply square_zero. destruct H4 as [->|(m & e & -> & Hm & He)]; [by left|right]. exists m, e. split_and!; [done|lia|done]. }
  split; [done|]. intros i Hi. destruct i as [|[|[|[|[|[|]]]]]]; [by eapply upto_posfin..|by rewrite H5|lia].
Qed.

Lemma squares_end N x : bounds 30 N = true → below N x → sq_iter 35 x = S754_zero false ∧ ∀ i, (i ≤ 35)%nat → posfin (sq_iter i x).
Proof.
  intros Hb Hx. destruct (squares_below 30 N x Hb Hx) as [H4 Hi]. destruct (small_squares _ (below_upto _ H4)) as [H0 Hj].
  assert (∀ i, sq_iter (i + 30) x = sq_iter i (sq_iter 30 x)) as Hadd by (intros i; apply Nat.iter_add). split; [by rewrite <- H0, <- Hadd|].
  intros i Hle. destruct (decide (i ≤ 30)%nat) as [Hle'|Hgt].
  - destruct (Hi i Hle') as [N' [-> |(m & e & -> & _)]]; done.
  - replace i with ((i - 30) + 30)%nat by lia. rewrite Hadd. apply Hj. lia.
Qed.

Lemma mul_nonneg x m e : posfin x → nonneg (dmul x (S754_finite false m e)).
Proof. destruct x as [| | |[] mx ex]; intros H; try done. apply round_nonneg. lia. Qed.

Lemma add_nonneg z t : nonneg z → nonneg t → nonneg (dadd z t).
Proof.
  intros Hz Ht. destruct z as [s|[]| |[] m e]; try done; destruct t as [s'|[]| |[] n f]; try done; [by destruct s, s'|].
  unfold dadd, SFadd, cond_Zopp. set (mz := fst (shl_align m e _)). set (nz := fst (shl_align n f _)). set (k := Z.min e f). change (Z.pos mz + Z.pos nz) with (Z.pos (mz + nz)).
  unfold binary_normalize, binary_round. destruct (shl_align (mz + nz) k _) as [p g]. apply round_nonneg. lia.
Qed.

Lemma add_zero z s : nonneg z → SFeqb z (dadd z (S754_zero s)) = true.
Proof. intros Hz. destruct z as [s0|[]| |[] m e]; try done; [by destruct s0, s|]. by apply eqb_refl. Qed.

Definition dbl_iter (n : nat) (y : double) : double := Nat.iter n (λ y, dadd y y) y.
Definition normal (y : double) : bool := match y with S754_finite false _ _ => true | _ => false end.

(** The loop of [hllSigma] ends when [x] is 0 at the latest; [y] is finite until then. *)
Lemma sigma_loop_ends n : ∀ x y z, nonneg z → (∀ i, (i ≤ n)%nat → posfin (sq_iter i x)) → sq_iter n x = S754_zero false →
  (∀ i, (i ≤ n)%nat → normal (dbl_iter i y) = true) → ∃ r, sigma_loop (S n) x y z = Some r.
Proof.
  induction n as [|n IH]; intros x y z Hz Hx H0 Hy; cbn [sigma_loop]; pose proof (Hy O ltac:(lia)) as Hy0; change (dbl_iter 0 y) with y in Hy0; destruct y as [| | |[] m e]; try done.
  - change (sq_iter 0 x) with x in H0. subst x. change (dmul (S754_zero false) (S754_zero false)) with (S754_zero false). change (dmul (S754_zero false) _) with (S754_zero false).
    rewrite add_zero by done. eauto.
  - case_match; [eauto|]. pose proof (Hx 1%nat ltac:(lia)) as Hx1. change (sq_iter 1 x) with (dmul x x) in Hx1. apply IH.
    + apply add_nonneg; [done|]. by apply mul_nonneg.
    + intros i Hi. specialize (Hx (S i) ltac:(lia)). unfold sq_iter in *. by rewrite Nat.iter_succ_r in Hx.
    + unfold sq_iter in *. by rewrite Nat.iter_succ_r in H0.
    + intros i Hi. specialize (Hy (S i) ltac:(lia)). unfold dbl_iter in *. by rewrite Nat.iter_succ_r in Hy.
Qed.

(** More fuel does not change the result. *)
Lemma sigma_loop_more n k : ∀ x y z r, sigma_loop n x y z = Some r → sigma_loop (n + k) x y z = Some r.
Proof. induction n as [|n IH]; intros x y z r; [done|]. cbn [sigma_loop Nat.add]. case_match; [done|]. apply IH. Qed.

Lemma sigma_ends N x : bounds 30 N = true → below N x → ∃ r, hllSigma x = Some r.
Proof.
  intros Hb Hx. destruct (squares_end N x Hb Hx) as [H0 Hi]. unfold hllSigma. case_match; [eauto|]. destruct (sigma_loop_ends 35 x d1 x) as [r Hr].
  - destruct Hx as [->|(m & e & -> & _)]; done.
  - done.
  - done.
  - intros i Hle. assert (∀ j, (j ≤ 35)%nat → forallb (λ i, normal (dbl_iter i d1)) (seq 0 36) = true → normal (dbl_iter j d1) = true) as Hall.
    { intros j Hj Hf. rewrite forallb_forall in Hf. apply Hf. apply in_seq. lia. }
    apply Hall; [done|]. vm_compute. reflexivity.
  - exists r. apply (sigma_loop_more 36 (loop_fuel - 36)) in Hr. by replace (36 + (loop_fuel - 36))%nat with loop_fuel in Hr by (vm_compute; reflexivity).
Qed.

(** ** The arguments of [hllSigma] and [hllTau] *)

(** A small integer: a mantissa of 53 digits. *)
Lemma of_int_eq c : 0 < c → c < 2 ^ 15 → ∃ m, of_int c = S754_finite false m (Zdigits2 c - 53) ∧ Z.pos m = c * 2 ^ (53 - Zdigits2 c) ∧ 1 ≤ Zdigits2 c ≤ 15.
Proof.
  intros Hc Hc2. destruct c as [|p|]; [lia| |lia]. unfold of_int, binary_normalize, binary_round. rewrite Z.add_0_r. change (Z.pos (digits2_pos p)) with (Zdigits2 (Z.pos p)).
  assert (1 ≤ Zdigits2 (Z.pos p) ≤ 15) as Hd by (split; [simpl; lia|apply digits_le; lia]). set (d := Zdigits2 (Z.pos p)) in *.
  assert (fexp64 d = d - 53) as E by (rewrite fexp64_eq; lia). rewrite E, shl_align_eq by lia.
  replace (0 - (d - 53)) with (53 - d) by lia. pose proof (Z.pow_pos_nonneg 2 (53 - d) ltac:(lia) ltac:(lia)). set (m := Z.to_pos (Z.pos p * 2 ^ (53 - d))).
  assert (Z.pos m = Z.pos p * 2 ^ (53 - d)) as Em by (unfold m; rewrite Z2Pos.id; [done|lia]). exists m. split_and!; [|done|lia|lia].
  apply round_exact; [|lia]. assert (Z.pos (digits2_pos m) = 53) as ->; [|rewrite fexp64_eq; lia]. change (Zdigits2 (Z.pos m) = 53). rewrite Em.
  pose proof (digits_le (Z.pos p * 2 ^ (53 - d)) 53 ltac:(lia) ltac:(lia)) as [_ H1]. pose proof (digits_le (Z.pos p * 2 ^ (53 - d)) 52 ltac:(lia) ltac:(lia)) as [H2 _].
  assert (Z.pos p * 2 ^ (53 - d) < 2 ^ 53) as H3.
  { replace 53 with (d + (53 - d)) at 2 by lia. rewrite Z.pow_add_r by lia. apply Z.mul_lt_mono_pos_r; [done|]. apply digits_bound. lia. }
  assert (2 ^ 52 ≤ Z.pos p * 2 ^ (53 - d)) as H4.
  { replace 52 with ((d - 1) + (53 - d)) by lia. rewrite Z.pow_add_r by lia. apply Z.mul_le_mono_pos_r; [done|]. apply Z.nlt_ge. intros Hlt. apply digits_le in Hlt; lia. }
  specialize (H1 H3). destruct (decide (Zdigits2 (Z.pos p * 2 ^ (53 - d)) ≤ 52)); [specialize (H2 ltac:(done)); lia|lia].
Qed.

(** The quotient by 16384 before it is rounded. *)
Lemma div_m_eq m e : ddiv (S754_finite false m e) (of_int 16384) =
  let e' := Z.min (fexp64 (Zdigits2 (Z.pos m) + e - 15)) (e + 38) in round64 false (Z.pos m * 2 ^ (e + 38 - e') / 2 ^ 52) e' (new_location (2 ^ 52) ((Z.pos m * 2 ^ (e + 38 - e')) mod 2 ^ 52)).
Proof.
  change (of_int 16384) with (S754_finite false 4503599627370496 (-38)). unfold ddiv, SFdiv, SFdiv_core_binary.
  change (Zdigits2 4503599627370496) with 53. replace (Zdigits2 (Z.pos m) + e - (53 + -38)) with (Zdigits2 (Z.pos m) + e - 15) by lia. replace (e - -38) with (e + 38) by lia.
  set (e' := Z.min _ _). assert (0 ≤ e + 38 - e') as Hs by lia.
  assert (match e + 38 - e' with Z0 => Z.pos m | Z.pos _ => Z.shiftl (Z.pos m) (e + 38 - e') | Z.neg _ => 0 end = Z.pos m * 2 ^ (e + 38 - e')) as ->.
  { destruct (e + 38 - e'); [lia|by apply Z.shiftl_mul_pow2|lia]. }
  change 4503599627370496 with (2 ^ 52). unfold Z.div, Z.modulo. by destruct (Z.div_eucl _ _).
Qed.

Lemma digits_shift m s : 0 < m → 0 ≤ s → Zdigits2 (m * 2 ^ s) ≤ Zdigits2 m + s.
Proof.
  intros Hm Hs. pose proof (Z.pow_pos_nonneg 2 s ltac:(lia) Hs). pose proof (digits_nonneg m). apply digits_le; [lia|lia|]. rewrite Z.pow_add_r by lia.
  apply Z.mul_lt_mono_pos_r; [done|]. apply digits_bound. lia.
Qed.

Lemma div_m_upto K x : upto K false x → -900 ≤ K ≤ 900 → upto (K - 13) false (ddiv x (of_int 16384)).
Proof.
  intros [->|(m & e & -> & Hm & He)] HK; [by left|]. rewrite div_m_eq. cbv zeta. set (e' := Z.min _ _). assert (e' ≤ K - 14 ∧ 0 ≤ e + 38 - e') as [He' Hs] by (unfold e'; rewrite fexp64_eq; lia).
  replace (K - 13) with ((K - 14) + 1) by lia. pose proof (Z.pow_pos_nonneg 2 (e + 38 - e') ltac:(lia) Hs) as Hp.
  apply round_upto; [apply Z.div_pos; lia| |lia]. rewrite digits_div by lia. pose proof (digits_shift (Z.pos m) _ ltac:(lia) Hs). lia.
Qed.

Lemma digits_53 c m : 0 < c → Z.pos m = c * 2 ^ (53 - Zdigits2 c) → 1 ≤ Zdigits2 c ≤ 15 → Zdigits2 (Z.pos m) ≤ 53.
Proof. intros Hc -> Hd. pose proof (digits_shift c (53 - Zdigits2 c) Hc ltac:(lia)). lia. Qed.

Lemma fraction_below c : 0 ≤ c < 16384 → below (16383 * 2 ^ 39 + 1) (ddiv (of_int c) (of_int 16384)).
Proof.
  intros Hc. destruct (decide (c = 0)) as [->|Hne]; [by left|].
  destruct (of_int_eq c ltac:(lia) ltac:(lia)) as (m & -> & Em & Hd). assert (Zdigits2 c ≤ 14) as Hd' by (apply digits_le; lia). rewrite div_m_eq. cbv zeta.
  pose proof (digits_53 c m ltac:(lia) Em Hd) as H53. set (d := Zdigits2 c) in *. set (e' := Z.min _ _).
  assert (e' ≤ d - 68 ∧ -1074 ≤ e') as [He' He''] by (unfold e'; rewrite fexp64_eq; simpl Zdigits2 in *; lia).
  set (s := d - 53 + 38 - e'). pose proof (Z.pow_pos_nonneg 2 s ltac:(lia) ltac:(lia)) as Hp. pose proof (digits_shift (Z.pos m) s ltac:(lia) ltac:(lia)) as Hds.
  set (q := Z.pos m * 2 ^ s / 2 ^ 52). assert (0 ≤ q) as Hq by (apply Z.div_pos; lia). assert (Zdigits2 q = Z.max 0 (Zdigits2 (Z.pos m * 2 ^ s) - 52)) as Hdq by (apply digits_div; lia).
  set (e1 := Z.max e' (fexp64 (Zdigits2 q + e'))). assert (e' ≤ e1 ≤ -53) as He1 by (unfold e1; rewrite fexp64_eq; lia).
  apply (round_below q e' _ e1); [done|done|lia|lia|lia|].
  pose proof (Z.pow_pos_nonneg 2 (e1 - e') ltac:(lia) ltac:(lia)) as Hp1. pose proof (Z.pow_pos_nonneg 2 (e' + 1074) ltac:(lia) ltac:(lia)) as Hp2.
  replace (e1 + 1074) with ((e1 - e') + (e' + 1074)) by lia. rewrite Z.pow_add_r, Z.mul_assoc by lia.
  transitivity (q * 2 ^ (e' + 1074)). { apply Z.mul_le_mono_pos_r; [done|]. rewrite Z.mul_comm. by apply Z.mul_div_le. }
  assert (q * 2 ^ 52 ≤ Z.pos m * 2 ^ s) as Hq2 by (rewrite Z.mul_comm; apply Z.mul_div_le; lia).
  assert (q * 2 ^ (e' + 1074) * 2 ^ 52 ≤ 16383 * 2 ^ 39 * 2 ^ 1021 * 2 ^ 52) as Hle; [|apply (Z.mul_le_mono_pos_r _ _ (2 ^ 52)); [lia|done]].
  transitivity (Z.pos m * 2 ^ s * 2 ^ (e' + 1074)).
  { rewrite <- Z.mul_assoc, (Z.mul_comm (2 ^ (e' + 1074))), Z.mul_assoc. by apply Z.mul_le_mono_pos_r. }
  rewrite Em, <- !Z.mul_assoc, <- !Z.pow_add_r by lia. replace (53 - d + (s + (e' + 1074))) with (39 + (1021 + 52)) by lia. apply Z.mul_le_mono_nonneg_r; [apply Z.pow_nonneg; lia|lia].
Qed.

Lemma complement_upto c : 0 ≤ c ≤ 16384 → upto 16 false (dsub (of_int 16384) (of_int c)).
Proof.
  intros Hc. destruct (decide (c = 0)) as [->|Hne]; [right; eexists _, _; split; [vm_compute; reflexivity|]; split; simpl; lia|].
  destruct (of_int_eq c ltac:(lia) ltac:(lia)) as (m & -> & Em & Hd). change (of_int 16384) with (S754_finite false 4503599627370496 (-38)).
  unfold dsub, SFsub, cond_Zopp. set (d := Zdigits2 c) in *. replace (Z.min (-38) (d - 53)) with (d - 53) by lia. rewrite !shl_align_eq by lia. cbn [fst].
  pose proof (Z.pow_pos_nonneg 2 (53 - d) ltac:(lia) ltac:(lia)) as Hp. replace (-38 - (d - 53)) with (15 - d) by lia. pose proof (Z.pow_pos_nonneg 2 (15 - d) ltac:(lia) ltac:(lia)) as Hp1.
  rewrite Z.sub_diag, Z.mul_1_r. rewrite !Z2Pos.id by lia. rewrite Em.
  assert (4503599627370496 * 2 ^ (15 - d) = 16384 * 2 ^ (53 - d)) as E16.
  { change 4503599627370496 with (2 ^ 52). change 16384 with (2 ^ 14). rewrite <- !Z.pow_add_r by lia. f_equal. lia. }
  rewrite E16. set (n := 16384 * 2 ^ (53 - d) - c * 2 ^ (53 - d)). assert (0 ≤ n) as Hn by nia.
  pose proof (normalize_upto n (d - 53) 15) as Hup. rewrite (proj2 (Z.ltb_ge n 0)) in Hup by done. apply Hup; [|lia|lia].
  enough (Zdigits2 (Z.abs n) ≤ 15 + (53 - d)) by lia. rewrite Z.abs_eq by done. apply digits_le; [done|lia|]. rewrite Z.pow_add_r by lia. nia.
Qed.

(** The loops end: for the histogram of 16384 registers there is a number to round. *)
Theorem estimate_ends h : 0 ≤ nth 0 h 0 ≤ 16384 → 0 ≤ nth 51 h 0 ≤ 16384 → ∃ q, raw_estimate h = Some q ∧ estimate h = (v ← llroundl q; to_uint64 v).
Proof.
  intros H0 H51. assert (∃ q, raw_estimate h = Some q) as [q Hq].
  { unfold raw_estimate. destruct (tau_ends (ddiv (dsub (of_int 16384) (of_int (nth 51 h 0))) (of_int 16384))) as [t ->].
    { destruct (div_m_upto 16 _ (complement_upto _ H51) ltac:(lia)) as [->|(m & e & -> & Hm & He)]; [by left|right]. exists m, e. split_and!; [done|lia|done]. }
    cbn [mbind option_bind]. assert (∃ r, hllSigma (ddiv (of_int (nth 0 h 0)) (of_int 16384)) = Some r) as [r ->]; [|cbn [mbind option_bind]; eauto].
    destruct (decide (nth 0 h 0 = 16384)) as [-> |Hne]; [exists (S754_infinity false); vm_compute; reflexivity|].
    apply (sigma_ends (16383 * 2 ^ 39 + 1)); [vm_compute; reflexivity|]. apply fraction_below. lia. }
  exists q. split; [done|]. unfold estimate. by rewrite Hq.
Qed.

Lemma estimate_range h v : estimate h = Some v → 0 ≤ v < 2 ^ 63.
Proof.
  unfold estimate. destruct (raw_estimate h) as [q|]; [|done]. cbn [mbind option_bind]. destruct (llroundl q) as [w|] eqn:E; [|done]. cbn [mbind option_bind]. unfold to_uint64.
  destruct (Z.ltb_spec w 0) as [|Hw]; [done|]. intros [= <-]. split; [done|]. unfold llroundl in E. destruct q as [s|s| |s m e]; try done; [by injection E as <-|].
  destruct (_ && _) eqn:Eb in E; [|done]. injection E as <-. apply andb_true_iff in Eb as [_ Eb%Z.ltb_lt]. done.
Qed.

(** No element, and few of them. *)
Example estimate_few : (λ n, estimate ((16384 - n) :: n :: replicate 62 0)) <$> [0; 1; 2; 3; 10; 100] = [Some 0; Some 1; Some 2; Some 3; Some 10; Some 100].
Proof. vm_compute. reflexivity. Qed.

(** Every register at 51, the longest pattern: the sum is 0 and [llroundl] gets an infinity. *)
Example estimate_full : let h := replicate 51 0 ++ 16384 :: replicate 12 0 in raw_estimate h = Some (S754_infinity false) ∧ estimate h = None.
Proof. vm_compute. split; reflexivity. Qed.
