(* ===== verification/Hll.v ===== *)
(** * hyperloglog.c: the two representations and the commands

    A HyperLogLog is a string: a header of 16 bytes (magic, encoding, cached
    cardinality) and 16384 registers, packed in 6 bits each (dense) or as a
    sequence of opcodes for runs of registers (sparse).  A string is the list of
    its bytes; while it is accessed, the terminating NUL is part of the memory,
    and [sdsMakeRoomFor] gives three more bytes with arbitrary contents.
    Pointers are offsets from the start of the string.  [None] stands for an
    access out of bounds, a failed assertion, an overflow of an [int] or an
    estimate that [hllCount] cannot convert to an integer.

    Parameters: the contents of fresh memory and the bound of sparse strings. *)

From stdpp Require Import strings.
From S2P Require Import Prelude Decimal Util Ziplist Keyspace Bitops BitCmd HllFloat.

Definition HLL_P : Z := 14.
Definition HLL_Q : Z := 50.
Definition HLL_REGISTERS : Z := 16384.
Definition HLL_P_MASK : Z := HLL_REGISTERS - 1.
Definition HLL_BITS : Z := 6.
Definition HLL_REGISTER_MAX : Z := 63.
Definition HLL_HDR_SIZE : Z := 16.
Definition HLL_DENSE_SIZE : Z := HLL_HDR_SIZE + (HLL_REGISTERS * HLL_BITS + 7) / 8.
Definition HLL_DENSE : Z := 0.
Definition HLL_SPARSE : Z := 1.
Definition HLL_MAX_ENCODING : Z := 1.

(** Addition of [int]s. *)
Definition int_add (a b : Z) : option Z := if decide (in_s 32 (a + b)) then Some (a + b) else None.

(** ** Macros *)

(** The registers start at [p]. *)
Definition HLL_DENSE_GET_REGISTER (m : list Z) (p regnum : Z) : option Z :=
  let byte := regnum * HLL_BITS / 8 in
  let fb := Z.land (regnum * HLL_BITS) 7 in
  let fb8 := 8 - fb in
  b0 ← byte_at m (p + byte);
  b1 ← byte_at m (p + byte + 1);
  Some (Z.land (Z.lor (Z.shiftr b0 fb) (Z.shiftl b1 fb8)) HLL_REGISTER_MAX).

(** What the two bytes of a register become. *)
Definition set_low (b v fb : Z) : Z :=
  u8 (Z.lor (u8 (Z.land b (Z.lnot (Z.shiftl HLL_REGISTER_MAX fb)))) (Z.shiftl v fb)).
Definition set_high (b v fb8 : Z) : Z :=
  u8 (Z.lor (u8 (Z.land b (Z.lnot (Z.shiftr HLL_REGISTER_MAX fb8)))) (Z.shiftr v fb8)).

Definition HLL_DENSE_SET_REGISTER (m : list Z) (p regnum v : Z) : option (list Z) :=
  let byte := regnum * HLL_BITS / 8 in
  let fb := Z.land (regnum * HLL_BITS) 7 in
  let fb8 := 8 - fb in
  b0 ← byte_at m (p + byte);
  m ← mwrite m (p + byte) [set_low b0 v fb];
  b1 ← byte_at m (p + byte + 1);
  mwrite m (p + byte + 1) [set_high b1 v fb8].

Definition HLL_SPARSE_XZERO_BIT : Z := 64.
Definition HLL_SPARSE_VAL_BIT : Z := 128.
Definition HLL_SPARSE_IS_ZERO (b : Z) : bool := Z.land b 192 =? 0.
Definition HLL_SPARSE_IS_XZERO (b : Z) : bool := Z.land b 192 =? HLL_SPARSE_XZERO_BIT.
Definition HLL_SPARSE_IS_VAL (b : Z) : bool := negb (Z.land b HLL_SPARSE_VAL_BIT =? 0).
Definition HLL_SPARSE_ZERO_LEN (b : Z) : Z := Z.land b 63 + 1.
Definition HLL_SPARSE_XZERO_LEN (b b1 : Z) : Z := Z.lor (Z.shiftl (Z.land b 63) 8) b1 + 1.
Definition HLL_SPARSE_VAL_VALUE (b : Z) : Z := Z.land (Z.shiftr b 2) 31 + 1.
Definition HLL_SPARSE_VAL_LEN (b : Z) : Z := Z.land b 3 + 1.
Definition HLL_SPARSE_VAL_MAX_VALUE : Z := 32.
Definition HLL_SPARSE_VAL_MAX_LEN : Z := 4.
Definition HLL_SPARSE_ZERO_MAX_LEN : Z := 64.
Definition HLL_SPARSE_XZERO_MAX_LEN : Z := 16384.
Definition HLL_SPARSE_VAL_SET (v len : Z) : list Z :=
  [u8 (Z.lor (Z.lor (Z.shiftl (v - 1) 2) (len - 1)) HLL_SPARSE_VAL_BIT)].
Definition HLL_SPARSE_ZERO_SET (len : Z) : list Z := [u8 (len - 1)].
Definition HLL_SPARSE_XZERO_SET (len : Z) : list Z :=
  [u8 (Z.lor (Z.shiftr (len - 1) 8) HLL_SPARSE_XZERO_BIT); u8 (Z.land (len - 1) 255)].

(** [HLL_INVALIDATE_CACHE] and [HLL_VALID_CACHE] on byte [card[7]] of the header. *)
Definition HLL_INVALIDATE_CACHE (m : list Z) : option (list Z) :=
  b ← byte_at m 15; mwrite m 15 [u8 (Z.lor b 128)].
Definition HLL_VALID_CACHE (m : list Z) : option bool := b ← byte_at m 15; Some (Z.land b 128 =? 0).

Definition encoding (m : list Z) : option Z := byte_at m 4.

(** ** Hashing *)

Definition murmur_m : Z := 14313749767032793493.

(** The loop over 8 bytes at a time, and the bytes that are left. *)
Fixpoint murmur_loop (data : list Z) (h : Z) : list Z * Z :=
  match data with
  | d0 :: d1 :: d2 :: d3 :: d4 :: d5 :: d6 :: d7 :: data =>
      let k := le_val [d0; d1; d2; d3; d4; d5; d6; d7] in
      let k := u64 (k * murmur_m) in
      let k := Z.lxor k (Z.shiftr k 47) in
      let k := u64 (k * murmur_m) in
      murmur_loop data (u64 (Z.lxor h k * murmur_m))
  | _ => (data, h)
  end.

(** The cases of the switch fall through to the next. *)
Definition MurmurHash64A (key : list Z) (seed : Z) : Z :=
  let h := Z.lxor seed (u64 (Z.of_nat (length key) * murmur_m)) in
  let '(data, h) := murmur_loop key h in
  let tail i h := match data !! i with Some d => Z.lxor h (Z.shiftl d (8 * Z.of_nat i)) | None => h end in
  let h := tail 0%nat (tail 1%nat (tail 2%nat (tail 3%nat (tail 4%nat (tail 5%nat (tail 6%nat h)))))) in
  let h := match data with [] => h | _ => u64 (h * murmur_m) end in
  let h := Z.lxor h (Z.shiftr h 47) in
  let h := u64 (h * murmur_m) in
  Z.lxor h (Z.shiftr h 47).

(** [while((hash & bit) == 0) { count++; bit <<= 1; }] *)
Fixpoint pat_loop (fuel : nat) (hash bit count : Z) : option Z :=
  match fuel with
  | O => None
  | S fuel => if Z.land hash bit =? 0 then pat_loop fuel hash (u64 (Z.shiftl bit 1)) (count + 1) else Some count
  end.

(** The register and the length of the pattern. *)
Definition hllPatLen (ele : list Z) : option (Z * Z) :=
  let hash := MurmurHash64A ele 2915580697 in
  let index := Z.land hash HLL_P_MASK in
  let hash := Z.shiftr hash HLL_P in
  let hash := Z.lor hash (Z.shiftl 1 HLL_Q) in
  count ← pat_loop 51 hash 1 1;
  Some (s32 index, count).

(** ** Dense representation *)

(** On a string [s], whose terminator is accessed with the last register. *)
Definition hllDenseSet (s : list Z) (index count : Z) : option (list Z * Z) :=
  let m := s ++ [0] in
  oldcount ← HLL_DENSE_GET_REGISTER m HLL_HDR_SIZE index;
  if oldcount <? count then
    m ← HLL_DENSE_SET_REGISTER m HLL_HDR_SIZE index count;
    Some (take (length s) m, 1)
  else Some (s, 0).

Definition hllDenseAdd (s ele : list Z) : option (list Z * Z) :=
  '(index, count) ← hllPatLen ele;
  hllDenseSet s index (u8 count).

(** [reghisto[reg] += n] *)
Definition histo_add (reghisto : list Z) (reg n : Z) : option (list Z) :=
  c ← reghisto !! Z.to_nat reg;
  c ← int_add c n;
  Some (<[Z.to_nat reg := c]> reghisto).

Fixpoint histo_all (reghisto : list Z) (regs : list Z) : option (list Z) :=
  match regs with
  | [] => Some reghisto
  | r :: regs => h ← histo_add reghisto r 1; histo_all h regs
  end.

(** [r0] ... [r15] *)
Definition dense16 (r : list Z) : option (list Z) :=
  match r with
  | [b0; b1; b2; b3; b4; b5; b6; b7; b8; b9; b10; b11] =>
      Some [ Z.land b0 63; Z.land (Z.lor (Z.shiftr b0 6) (Z.shiftl b1 2)) 63; Z.land (Z.lor (Z.shiftr b1 4) (Z.shiftl b2 4)) 63; Z.land (Z.shiftr b2 2) 63;
             Z.land b3 63; Z.land (Z.lor (Z.shiftr b3 6) (Z.shiftl b4 2)) 63; Z.land (Z.lor (Z.shiftr b4 4) (Z.shiftl b5 4)) 63; Z.land (Z.shiftr b5 2) 63;
             Z.land b6 63; Z.land (Z.lor (Z.shiftr b6 6) (Z.shiftl b7 2)) 63; Z.land (Z.lor (Z.shiftr b7 4) (Z.shiftl b8 4)) 63; Z.land (Z.shiftr b8 2) 63;
             Z.land b9 63; Z.land (Z.lor (Z.shiftr b9 6) (Z.shiftl b10 2)) 63; Z.land (Z.lor (Z.shiftr b10 4) (Z.shiftl b11 4)) 63; Z.land (Z.shiftr b11 2) 63 ]
  | _ => None
  end.

Fixpoint dense_histo (turns : nat) (m : list Z) (r : Z) (reghisto : list Z) : option (list Z) :=
  match turns with
  | O => Some reghisto
  | S turns =>
      bs ← mread m r 12;
      regs ← dense16 bs;
      h ← histo_all reghisto regs;
      dense_histo turns m (r + 12) h
  end.

Definition hllDenseRegHisto (s reghisto : list Z) : option (list Z) :=
  dense_histo (Z.to_nat 1024) s HLL_HDR_SIZE reghisto.

(** ** Sparse representation: reading *)

(** [while(runlen--) { HLL_DENSE_SET_REGISTER(hdr->registers,idx,regval); idx++; }] *)
Fixpoint set_run (runlen : nat) (m : list Z) (idx regval : Z) : option (list Z) :=
  match runlen with
  | O => Some m
  | S runlen => m ← HLL_DENSE_SET_REGISTER m HLL_HDR_SIZE idx regval; set_run runlen m (idx + 1) regval
  end.

(** The opcodes from [p] on: the dense memory and [idx]. *)
Fixpoint to_dense_loop (fuel : nat) (sp : list Z) (p end_ idx : Z) (m : list Z) : option (list Z * Z) :=
  if p <? end_ then
    match fuel with
    | O => None
    | S fuel =>
        b ← byte_at sp p;
        if HLL_SPARSE_IS_ZERO b then
          idx ← int_add idx (HLL_SPARSE_ZERO_LEN b); to_dense_loop fuel sp (p + 1) end_ idx m
        else if HLL_SPARSE_IS_XZERO b then
          b1 ← byte_at sp (p + 1);
          idx ← int_add idx (HLL_SPARSE_XZERO_LEN b b1); to_dense_loop fuel sp (p + 2) end_ idx m
        else
          let runlen := HLL_SPARSE_VAL_LEN b in
          n ← int_add runlen idx;
          if HLL_REGISTERS <? n then Some (m, idx) else
          m ← set_run (Z.to_nat runlen) m idx (HLL_SPARSE_VAL_VALUE b);
          to_dense_loop fuel sp (p + 1) end_ n m
    end
  else Some (m, idx).

(** [None] inside is [C_ERR]. *)
Definition hllSparseToDense (s : list Z) : option (option (list Z)) :=
  e ← encoding s;
  if e =? HLL_DENSE then Some (Some s) else
  hdr ← mread s 0 HLL_HDR_SIZE;
  let dense := replicate (Z.to_nat HLL_DENSE_SIZE) 0 ++ [0] in
  m ← mwrite dense 0 hdr;
  m ← mwrite m 4 [HLL_DENSE];
  '(m, idx) ← to_dense_loop (length s) (s ++ [0]) HLL_HDR_SIZE (Z.of_nat (length s)) 0 m;
  if idx =? HLL_REGISTERS then Some (Some (take (Z.to_nat HLL_DENSE_SIZE) m)) else Some None.

Fixpoint sparse_histo (fuel : nat) (sp : list Z) (p end_ idx : Z) (reghisto : list Z) : option (list Z * Z) :=
  if p <? end_ then
    match fuel with
    | O => None
    | S fuel =>
        b ← byte_at sp p;
        if HLL_SPARSE_IS_ZERO b then
          let runlen := HLL_SPARSE_ZERO_LEN b in
          idx ← int_add idx runlen; h ← histo_add reghisto 0 runlen; sparse_histo fuel sp (p + 1) end_ idx h
        else if HLL_SPARSE_IS_XZERO b then
          b1 ← byte_at sp (p + 1);
          let runlen := HLL_SPARSE_XZERO_LEN b b1 in
          idx ← int_add idx runlen; h ← histo_add reghisto 0 runlen; sparse_histo fuel sp (p + 2) end_ idx h
        else
          let runlen := HLL_SPARSE_VAL_LEN b in
          idx ← int_add idx runlen; h ← histo_add reghisto (HLL_SPARSE_VAL_VALUE b) runlen;
          sparse_histo fuel sp (p + 1) end_ idx h
    end
  else Some (reghisto, idx).

(** The histogram and [invalid]. *)
Definition hllSparseRegHisto (s reghisto : list Z) : option (list Z * bool) :=
  '(h, idx) ← sparse_histo (length s) (s ++ [0]) HLL_HDR_SIZE (Z.of_nat (length s)) 0 reghisto;
  Some (h, negb (idx =? HLL_REGISTERS)).

(** Words of 8 bytes. *)
Fixpoint raw_histo (words : nat) (registers reghisto : list Z) : option (list Z) :=
  match words with
  | O => Some reghisto
  | S words =>
      bytes ← mread registers 0 8;
      h ← (if le_val bytes =? 0 then histo_add reghisto 0 8 else histo_all reghisto bytes);
      raw_histo words (drop 8 registers) h
  end.

Definition hllRawRegHisto (registers reghisto : list Z) : option (list Z) :=
  raw_histo (Z.to_nat (HLL_REGISTERS / 8)) registers reghisto.

(** ** Sparse representation: updates *)

Section hll.
Context (junk : Z) (hll_sparse_max_bytes : Z).

(** The opcode at [p] that covers [index], the first register it covers, the
    opcode before it and its span. *)
Fixpoint locate (fuel : nat) (m : list Z) (p end_ first : Z) (prev : option Z) (span index : Z) :
    option (Z * Z * option Z * Z) :=
  if p <? end_ then
    match fuel with
    | O => None
    | S fuel =>
        b ← byte_at m p;
        '(span, oplen) ←
          (if HLL_SPARSE_IS_ZERO b then Some (HLL_SPARSE_ZERO_LEN b, 1)
           else if HLL_SPARSE_IS_VAL b then Some (HLL_SPARSE_VAL_LEN b, 1)
           else b1 ← byte_at m (p + 1); Some (HLL_SPARSE_XZERO_LEN b b1, 2));
        if index <=? first + span - 1 then Some (p, first, prev, span)
        else locate fuel m (p + oplen) end_ (first + span) (Some p) span index
    end
  else Some (p, first, prev, span).

(** A run of zeroes. *)
Definition zero_seq (len : Z) : list Z :=
  if HLL_SPARSE_ZERO_MAX_LEN <? len then HLL_SPARSE_XZERO_SET len else HLL_SPARSE_ZERO_SET len.

(** The new sequence in place of the opcode. *)
Definition split_seq (is_val : bool) (b index first last count : Z) : list Z :=
  let run len := if is_val then HLL_SPARSE_VAL_SET (HLL_SPARSE_VAL_VALUE b) len else zero_seq len in
  (if index =? first then [] else run (index - first)) ++
  HLL_SPARSE_VAL_SET count 1 ++
  (if index =? last then [] else run (last - index)).

(** The scan for adjacent opcodes that can be merged: the memory and the end of
    the string, whose length [sdsIncrLen] keeps up to date. *)
Fixpoint merge_loop (scanlen : nat) (m : list Z) (p end_ : Z) : option (list Z * Z) :=
  if p <? end_ then
    match scanlen with
    | O => Some (m, end_)
    | S scanlen =>
        b ← byte_at m p;
        if HLL_SPARSE_IS_XZERO b then merge_loop scanlen m (p + 2) end_
        else if HLL_SPARSE_IS_ZERO b then merge_loop scanlen m (p + 1) end_
        else if p + 1 <? end_ then
          b1 ← byte_at m (p + 1);
          let len := HLL_SPARSE_VAL_LEN b + HLL_SPARSE_VAL_LEN b1 in
          if HLL_SPARSE_IS_VAL b1 && (HLL_SPARSE_VAL_VALUE b =? HLL_SPARSE_VAL_VALUE b1) && (len <=? HLL_SPARSE_VAL_MAX_LEN) then
            m ← mwrite m (p + 1) (HLL_SPARSE_VAL_SET (HLL_SPARSE_VAL_VALUE b) len);
            m ← mmove m p (p + 1) (end_ - p);
            m ← mwrite m (end_ - 1) [0];
            merge_loop scanlen m p (end_ - 1)
          else merge_loop scanlen m (p + 1) end_
        else merge_loop scanlen m (p + 1) end_
    end
  else Some (m, end_).

(** From the label [updated] on. *)
Definition sparse_updated (m : list Z) (prev : option Z) (end_ : Z) : option (list Z * Z) :=
  '(m, end_) ← merge_loop 5 m (default HLL_HDR_SIZE prev) end_;
  m ← HLL_INVALIDATE_CACHE m;
  Some (take (Z.to_nat end_) m, 1).

(** From the label [promote] on. *)
Definition sparse_promote (s : list Z) (index count : Z) : option (list Z * Z) :=
  r ← hllSparseToDense s;
  match r with
  | None => Some (s, -1)
  | Some s => '(s, dense_retval) ← hllDenseSet s index count; if dense_retval =? 1 then Some (s, 1) else None
  end.

Definition hllSparseSet (s : list Z) (index count : Z) : option (list Z * Z) :=
  if HLL_SPARSE_VAL_MAX_VALUE <? count then sparse_promote s index count else
  let m := s ++ 0 :: replicate 3 junk in
  let end_ := Z.of_nat (length s) in
  '(p, first, prev, span) ← locate (length s) m HLL_HDR_SIZE end_ 0 None 0 index;
  if span =? 0 then Some (s, -1) else
  b ← byte_at m p;
  let is_zero := HLL_SPARSE_IS_ZERO b in
  let is_xzero := HLL_SPARSE_IS_XZERO b in
  let is_val := negb is_zero && negb is_xzero in
  let next := if is_xzero then p + 2 else p + 1 in
  let next := if end_ <=? next then None else Some next in
  runlen ← (if is_zero then Some (HLL_SPARSE_ZERO_LEN b)
            else if is_xzero then b1 ← byte_at m (p + 1); Some (HLL_SPARSE_XZERO_LEN b b1)
            else Some (HLL_SPARSE_VAL_LEN b));
  if is_val && (count <=? HLL_SPARSE_VAL_VALUE b) then Some (s, 0) else
  if (is_val || is_zero) && (runlen =? 1) then
    m ← mwrite m p (HLL_SPARSE_VAL_SET count 1);
    sparse_updated m prev end_
  else
    let seq := split_seq is_val b index first (first + span - 1) count in
    let seqlen := Z.of_nat (length seq) in
    let oldlen := if is_xzero then 2 else 1 in
    let deltalen := seqlen - oldlen in
    if (0 <? deltalen) && (hll_sparse_max_bytes <? end_ + deltalen) then sparse_promote s index count else
    m ← match next with
        | Some next => if deltalen =? 0 then Some m else mmove m (next + deltalen) next (end_ - next)
        | None => Some m
        end;
    m ← mwrite m (end_ + deltalen) [0];
    m ← mwrite m p seq;
    sparse_updated m prev (end_ + deltalen).

Definition hllSparseAdd (s ele : list Z) : option (list Z * Z) :=
  '(index, count) ← hllPatLen ele;
  hllSparseSet s index (u8 count).

(** ** Both representations *)

Definition hllAdd (s ele : list Z) : option (list Z * Z) :=
  e ← encoding s;
  if e =? HLL_DENSE then hllDenseAdd s ele
  else if e =? HLL_SPARSE then hllSparseAdd s ele
  else Some (s, -1).

(** The cardinality and [invalid]. *)
Definition hllCount (s : list Z) : option (Z * bool) :=
  e ← encoding s;
  let reghisto := replicate 64 0 in
  if e =? HLL_DENSE then h ← hllDenseRegHisto s reghisto; card ← estimate h; Some (card, false)
  else if e =? HLL_SPARSE then '(h, invalid) ← hllSparseRegHisto s reghisto; card ← estimate h; Some (card, invalid)
  else None.

(** [hllCount] on [HLL_RAW] registers. *)
Definition hllCountRaw (registers : list Z) : option Z :=
  h ← hllRawRegHisto registers (replicate 64 0); estimate h.

(** [if (val > max[i]) max[i] = val] *)
Definition max_reg (max : list Z) (i val : Z) : option (list Z) :=
  x ← max !! Z.to_nat i;
  Some (if x <? val then <[Z.to_nat i := val]> max else max).

Fixpoint merge_dense (n : nat) (m : list Z) (i : Z) (max : list Z) : option (list Z) :=
  match n with
  | O => Some max
  | S n =>
      val ← HLL_DENSE_GET_REGISTER m HLL_HDR_SIZE i;
      max ← max_reg max i val;
      merge_dense n m (i + 1) max
  end.

Fixpoint max_run (runlen : nat) (max : list Z) (i regval : Z) : option (list Z) :=
  match runlen with
  | O => Some max
  | S runlen => max ← max_reg max i regval; max_run runlen max (i + 1) regval
  end.

Fixpoint merge_sparse (fuel : nat) (sp : list Z) (p end_ i : Z) (max : list Z) : option (list Z * Z) :=
  if p <? end_ then
    match fuel with
    | O => None
    | S fuel =>
        b ← byte_at sp p;
        if HLL_SPARSE_IS_ZERO b then
          i ← int_add i (HLL_SPARSE_ZERO_LEN b); merge_sparse fuel sp (p + 1) end_ i max
        else if HLL_SPARSE_IS_XZERO b then
          b1 ← byte_at sp (p + 1);
          i ← int_add i (HLL_SPARSE_XZERO_LEN b b1); merge_sparse fuel sp (p + 2) end_ i max
        else
          let runlen := HLL_SPARSE_VAL_LEN b in
          if HLL_REGISTERS <? runlen + i then Some (max, i) else
          max ← max_run (Z.to_nat runlen) max i (HLL_SPARSE_VAL_VALUE b);
          merge_sparse fuel sp (p + 1) end_ (i + runlen) max
    end
  else Some (max, i).

(** The registers and whether the result is [C_OK]. *)
Definition hllMerge (max s : list Z) : option (list Z * bool) :=
  e ← encoding s;
  if e =? HLL_DENSE then max ← merge_dense (Z.to_nat HLL_REGISTERS) (s ++ [0]) 0 max; Some (max, true)
  else
    '(max, i) ← merge_sparse (length s) (s ++ [0]) HLL_HDR_SIZE (Z.of_nat (length s)) 0 max;
    Some (max, i =? HLL_REGISTERS).

(** ** Commands *)

(** [while(aux) { ... }] of [createHLLObject]. *)
Fixpoint create_loop (fuel : nat) (s : list Z) (p aux : Z) : option (list Z * Z) :=
  if aux =? 0 then Some (s, p) else
  match fuel with
  | O => None
  | S fuel =>
      let xzero := if aux <? HLL_SPARSE_XZERO_MAX_LEN then aux else HLL_SPARSE_XZERO_MAX_LEN in
      s ← mwrite s p (HLL_SPARSE_XZERO_SET xzero);
      create_loop fuel s (p + 2) (aux - xzero)
  end.

Definition createHLLObject : option (list Z) :=
  let sparselen := HLL_HDR_SIZE + (HLL_REGISTERS + (HLL_SPARSE_XZERO_MAX_LEN - 1)) / HLL_SPARSE_XZERO_MAX_LEN * 2 in
  '(s, p) ← create_loop 2 (replicate (Z.to_nat sparselen) 0) HLL_HDR_SIZE HLL_REGISTERS;
  if p =? sparselen then
    s ← mwrite s 0 [72; 89; 76; 76];
    mwrite s 4 [HLL_SPARSE]
  else None.

Definition wrong_hll : reply := RError "-WRONGTYPE Key is not a valid HyperLogLog string value.".
Definition invalid_hll_err : reply := RError "-INVALIDOBJ Corrupted HLL object detected".

(** The string, or the error. *)
Definition isHLLObjectOrReply (o : kstr) : list Z + reply :=
  match o with
  | NotString => inr RWrongType
  | StrInt _ => inr wrong_hll
  | StrRaw s =>
      let e := default 255 (encoding s) in
      if (Z.of_nat (length s) <? HLL_HDR_SIZE) || negb (bool_decide (take 4 s = [72; 89; 76; 76])) ||
         (HLL_MAX_ENCODING <? e) || ((e =? HLL_DENSE) && negb (Z.of_nat (length s) =? HLL_DENSE_SIZE))
      then inr wrong_hll else inl s
  end.

(** The elements of PFADD: the string and [updated]; [inr] after a result -1. *)
Fixpoint pfadd_loop (s : list Z) (eles : list (list Z)) (updated : Z) : option (list Z * Z + list Z) :=
  match eles with
  | [] => Some (inl (s, updated))
  | ele :: eles =>
      '(s, retval) ← hllAdd s ele;
      if retval =? -1 then Some (inr s) else pfadd_loop s eles (if retval =? 1 then updated + 1 else updated)
  end.

Definition pfaddCommand (s : bserver) (k : list Z) (eles : list (list Z)) : option bserver :=
  r ← match keys s !! k with
      | None => o ← createHLLObject; Some (inl (o, 1))
      | Some o => Some (match isHLLObjectOrReply o with inl v => inl (v, 0) | inr e => inr e end)
      end;
  match r with
  | inr e => Some (addReply s e)
  | inl (o, updated) =>
      r ← pfadd_loop o eles updated;
      match r with
      | inr o => Some (addReply (set_key s k (StrRaw o)) invalid_hll_err)
      | inl (o, updated) =>
          if negb (updated =? 0) then
            o ← HLL_INVALIDATE_CACHE o;
            let s := log (log (set_key s k (StrRaw o)) (SignalModified k)) (NotifyString "pfadd" k) in
            Some (addReply (add_dirty s 1) (RLong 1))
          else Some (addReply (set_key s k (StrRaw o)) (RLong 0))
      end
  end.

(** The loop over the keys of PFCOUNT and PFMERGE: the registers and whether one
    of the strings is dense, or the error. *)
Fixpoint merge_keys (s : bserver) (ks : list (list Z)) (max : list Z) (use_dense : bool) :
    option (list Z * bool + reply) :=
  match ks with
  | [] => Some (inl (max, use_dense))
  | k :: ks =>
      match keys s !! k with
      | None => merge_keys s ks max use_dense
      | Some o =>
          match isHLLObjectOrReply o with
          | inr e => Some (inr e)
          | inl v =>
              e ← encoding v;
              '(max, ok) ← hllMerge max v;
              if ok : bool then merge_keys s ks max (use_dense || (e =? HLL_DENSE)) else Some (inr invalid_hll_err)
          end
      end
  end.

Definition pfcountCommand (s : bserver) (ks : list (list Z)) : option bserver :=
  match ks with
  | [k] =>
      match keys s !! k with
      | None => Some (addReply s (RLong 0))
      | Some o =>
          match isHLLObjectOrReply o with
          | inr e => Some (addReply s e)
          | inl v =>
              valid ← HLL_VALID_CACHE v;
              if valid : bool then
                card ← get_le v 8 8;
                Some (addReply (set_key s k (StrRaw v)) (RLong (s64 card)))
              else
                '(card, invalid) ← hllCount v;
                if invalid : bool then Some (addReply (set_key s k (StrRaw v)) invalid_hll_err) else
                v ← set_le v 8 8 card;
                let s := add_dirty (log (set_key s k (StrRaw v)) (SignalModified k)) 1 in
                Some (addReply s (RLong (s64 card)))
          end
      end
  | _ =>
      r ← merge_keys s ks (replicate (Z.to_nat HLL_REGISTERS) 0) false;
      match r with
      | inr e => Some (addReply s e)
      | inl (registers, _) => card ← hllCountRaw registers; Some (addReply s (RLong (s64 card)))
      end
  end.

(** The registers [j], [j + 1], ... written to the destination. *)
Fixpoint write_registers (max : list Z) (j : Z) (s : list Z) : option (list Z) :=
  match max with
  | [] => Some s
  | v :: max =>
      s ← (if v =? 0 then Some s else
           e ← encoding s;
           if e =? HLL_DENSE then '(s, _) ← hllDenseSet s j v; Some s
           else if e =? HLL_SPARSE then '(s, _) ← hllSparseSet s j v; Some s
           else Some s);
      write_registers max (j + 1) s
  end.

Definition pfmergeCommand (s : bserver) (k : list Z) (ks : list (list Z)) : option bserver :=
  r ← merge_keys s (k :: ks) (replicate (Z.to_nat HLL_REGISTERS) 0) false;
  match r with
  | inr e => Some (addReply s e)
  | inl (max, use_dense) =>
      o ← match keys s !! k with None => createHLLObject | Some (StrRaw v) => Some v | Some _ => None end;
      r ← (if use_dense : bool then hllSparseToDense o else Some (Some o));
      match r with
      | None => Some (addReply (set_key s k (StrRaw o)) invalid_hll_err)
      | Some o =>
          o ← write_registers max 0 o;
          o ← HLL_INVALIDATE_CACHE o;
          let s := log (log (set_key s k (StrRaw o)) (SignalModified k)) (NotifyString "pfadd" k) in
          Some (addReply (add_dirty s 1) ROk)
      end
  end.
End hll.
