(* ===== verification/HllRep.v ===== *)
(** * hyperloglog.c: the registers that a string stands for

    Dense: 16384 numbers of 6 bits, four of them in three bytes.  Sparse: the
    runs that the opcodes describe, one after another.  The operations on the
    bytes are those on the list of registers. *)

From S2P Require Import Prelude Ziplist ZiplistRep Hll.

(** ** Small tables *)

Definition zrange (n : nat) : list Z := Z.of_nat <$> seq 0 n.

Lemma elem_of_zrange n x : 0 ≤ x < Z.of_nat n → x ∈ zrange n.
Proof. intros Hx. apply list_elem_of_fmap. exists (Z.to_nat x). rewrite elem_of_seq. lia. Qed.

(** A property of two small numbers, by looking at all of them. *)
Lemma all_pairs (f : Z → Z → bool) n1 n2 : forallb (λ a, forallb (f a) (zrange n2)) (zrange n1) = true →
  ∀ a b, 0 ≤ a < Z.of_nat n1 → 0 ≤ b < Z.of_nat n2 → f a b = true.
Proof.
  intros H a b Ha%elem_of_zrange%list_elem_of_In Hb%elem_of_zrange%list_elem_of_In.
  rewrite forallb_forall in H. specialize (H a Ha). rewrite forallb_forall in H. by apply H.
Qed.

Definition reg_ok (r : Z) : Prop := 0 ≤ r < 64.

(** The bytes of a register, read and written. *)
Lemma get_0 : ∀ a b, 0 ≤ a < Z.of_nat 256 → 0 ≤ b < Z.of_nat 256 → (Z.land (Z.lor (Z.shiftr a 0) (Z.shiftl b 8)) 63 =? a mod 64) = true.
Proof. apply all_pairs. by vm_compute. Qed.

Lemma get_6 : ∀ a b, 0 ≤ a < Z.of_nat 256 → 0 ≤ b < Z.of_nat 256 → (Z.land (Z.lor (Z.shiftr a 6) (Z.shiftl b 2)) 63 =? a / 64 + 4 * (b mod 16)) = true.
Proof. apply all_pairs. by vm_compute. Qed.

Lemma get_4 : ∀ a b, 0 ≤ a < Z.of_nat 256 → 0 ≤ b < Z.of_nat 256 → (Z.land (Z.lor (Z.shiftr a 4) (Z.shiftl b 4)) 63 =? a / 16 + 16 * (b mod 4)) = true.
Proof. apply all_pairs. by vm_compute. Qed.

Lemma get_2 : ∀ a b, 0 ≤ a < Z.of_nat 256 → 0 ≤ b < Z.of_nat 256 → (Z.land (Z.lor (Z.shiftr a 2) (Z.shiftl b 6)) 63 =? a / 4) = true.
Proof. apply all_pairs. by vm_compute. Qed.

Lemma low_0 : ∀ a v, 0 ≤ a < Z.of_nat 256 → 0 ≤ v < Z.of_nat 64 → (set_low a v 0 =? v + 64 * (a / 64)) && (set_high a v 8 =? a) = true.
Proof. apply all_pairs. by vm_compute. Qed.

Lemma low_6 : ∀ a v, 0 ≤ a < Z.of_nat 256 → 0 ≤ v < Z.of_nat 64 → (set_low a v 6 =? a mod 64 + 64 * (v mod 4)) && (set_high a v 2 =? v / 4 + 16 * (a / 16)) = true.
Proof. apply all_pairs. by vm_compute. Qed.

Lemma low_4 : ∀ a v, 0 ≤ a < Z.of_nat 256 → 0 ≤ v < Z.of_nat 64 → (set_low a v 4 =? a mod 16 + 16 * (v mod 16)) && (set_high a v 4 =? v / 16 + 4 * (a / 4)) = true.
Proof. apply all_pairs. by vm_compute. Qed.

Lemma low_2 : ∀ a v, 0 ≤ a < Z.of_nat 256 → 0 ≤ v < Z.of_nat 64 → (set_low a v 2 =? a mod 4 + 4 * v) && (set_high a v 6 =? a) = true.
Proof. apply all_pairs. by vm_compute. Qed.

(** ** Packed registers *)

Fixpoint pack (regs : list Z) : list Z :=
  match regs with
  | r0 :: r1 :: r2 :: r3 :: regs =>
      r0 + 64 * (r1 mod 4) :: r1 / 4 + 16 * (r2 mod 16) :: r2 / 16 + 4 * r3 :: pack regs
  | _ => []
  end.

(** Groups of four. *)
Inductive fours : nat → list Z → Prop :=
  | fours_nil : fours 0 []
  | fours_cons n r0 r1 r2 r3 regs : fours n regs → fours (S n) (r0 :: r1 :: r2 :: r3 :: regs).

Lemma fours_of n : ∀ regs, length regs = (4 * n)%nat → fours n regs.
Proof.
  induction n as [|n IH]; intros regs Hl.
  { destruct regs; [constructor|simpl in Hl; lia]. }
  destruct regs as [|r0 [|r1 [|r2 [|r3 regs]]]]; simpl in Hl; try lia. constructor. apply IH. lia.
Qed.

Lemma fours_length n regs : fours n regs → length regs = (4 * n)%nat.
Proof. induction 1; simpl; lia. Qed.

Lemma pack_length n regs : fours n regs → length (pack regs) = (3 * n)%nat.
Proof. induction 1; simpl; lia. Qed.

Lemma pack_app n regs regs' : fours n regs → pack (regs ++ regs') = pack regs ++ pack regs'.
Proof. induction 1; simpl; congruence. Qed.

Lemma div_mod_range a n : 0 < n → 0 ≤ a mod n < n.
Proof. apply Z.mod_pos_bound. Qed.

Lemma group_bytes r0 r1 r2 r3 : reg_ok r0 → reg_ok r1 → reg_ok r2 → reg_ok r3 →
  0 ≤ r0 + 64 * (r1 mod 4) < 256 ∧ 0 ≤ r1 / 4 + 16 * (r2 mod 16) < 256 ∧ 0 ≤ r2 / 16 + 4 * r3 < 256.
Proof. unfold reg_ok. intros. Z.to_euclidean_division_equations. lia. Qed.

Lemma pack_bytes n regs : fours n regs → Forall reg_ok regs → Forall byte_ok (pack regs).
Proof.
  induction 1 as [|n r0 r1 r2 r3 regs _ IH]; intros Hall; [constructor|]. rewrite !Forall_cons in Hall. destruct Hall as (H0 & H1 & H2 & H3 & Hall).
  destruct (group_bytes r0 r1 r2 r3 H0 H1 H2 H3) as (A & B & C). simpl. rewrite !Forall_cons. unfold in_u. change (2 ^ 8) with 256. split_and!; try lia. by apply IH.
Qed.

Lemma byte_mid m1 b m2 p : p = Z.of_nat (length m1) → byte_at (m1 ++ b :: m2) p = Some b.
Proof. intros ->. unfold byte_at. rewrite (mread_app m1 [b] m2) by done. done. Qed.

Lemma write_mid m1 b b' m2 p : p = Z.of_nat (length m1) → mwrite (m1 ++ b :: m2) p [b'] = Some (m1 ++ b' :: m2).
Proof. intros ->. by apply (mwrite_app m1 [b] [b'] m2). Qed.

(** The group of a register. *)
Lemma group_of n regs i : length regs = (4 * n)%nat → (i < length regs)%nat →
  ∃ q k A r0 r1 r2 r3 B, (i = 4 * q + k)%nat ∧ (k < 4)%nat ∧ fours q A ∧ regs = A ++ r0 :: r1 :: r2 :: r3 :: B ∧ fours (n - S q) B.
Proof.
  intros Hl Hi. exists (i / 4)%nat, (i mod 4)%nat. set (q := (i / 4)%nat). pose proof (Nat.div_mod i 4 ltac:(lia)) as Hd. pose proof (Nat.mod_upper_bound i 4 ltac:(lia)) as Hm. fold q in Hd.
  assert (length (take (4 * q) regs) = (4 * q)%nat) as Hta by (apply length_take_le; lia).
  assert (length (drop (4 * q) regs) = (4 * S (n - S q))%nat) as Htd by (rewrite length_drop; lia). pose proof (fours_of _ _ Htd) as Hf.
  inversion Hf as [|? r0 r1 r2 r3 B HB E1 E2]. exists (take (4 * q) regs), r0, r1, r2, r3, B. split_and!; try done; try lia.
  - by apply fours_of.
  - rewrite E2. by rewrite take_drop.
Qed.

Definition byte_off (k : nat) : Z := match k with O | S O => 0 | S (S O) => 1 | _ => 2 end.
Definition bit_off (k : nat) : Z := match k with O => 0 | S O => 6 | S (S O) => 4 | _ => 2 end.

Lemma reg_offset q k : (k < 4)%nat →
  Z.of_nat (4 * q + k) * HLL_BITS / 8 = 3 * Z.of_nat q + byte_off k ∧
  Z.land (Z.of_nat (4 * q + k) * HLL_BITS) 7 = bit_off k.
Proof.
  intros Hk. unfold HLL_BITS. split.
  - replace (Z.of_nat (4 * q + k) * 6) with (3 * Z.of_nat q * 8 + Z.of_nat k * 6) by lia. rewrite Z.div_add_l by lia. f_equal.
    by destruct k as [|[|[|[|k]]]]; [..|lia].
  - change 7 with (Z.ones 3). rewrite Z.land_ones by lia. change (2 ^ 3) with 8.
    replace (Z.of_nat (4 * q + k) * 6) with (Z.of_nat k * 6 + 3 * Z.of_nat q * 8) by lia. rewrite Z_mod_plus_full.
    by destruct k as [|[|[|[|k]]]]; [..|lia].
Qed.

(** The three bytes of a group and what follows them. *)
Lemma group_mem H n q A r0 r1 r2 r3 B t T : fours q A → fours n B →
  let b0 := r0 + 64 * (r1 mod 4) in let b1 := r1 / 4 + 16 * (r2 mod 16) in let b2 := r2 / 16 + 4 * r3 in
  ∃ M1 b3 M2, pack B ++ t :: T = b3 :: M2 ∧ length M1 = (length H + 3 * q)%nat ∧ M1 = H ++ pack A ∧
    H ++ pack (A ++ r0 :: r1 :: r2 :: r3 :: B) ++ t :: T = M1 ++ b0 :: b1 :: b2 :: b3 :: M2.
Proof.
  intros HA HB b0 b1 b2. exists (H ++ pack A). assert (∃ b3 M2, pack B ++ t :: T = b3 :: M2) as (b3 & M2 & E) by (destruct (pack B); eauto).
  exists b3, M2. split_and!; try done; [by rewrite length_app, (pack_length q A HA)|].
  rewrite (pack_app q A _ HA). cbn [pack]. rewrite <- !app_assoc. cbn [app]. by rewrite E.
Qed.

Lemma split_regs q A r0 r1 r2 r3 (B : list Z) k : fours q A → (k < 4)%nat →
  (A ++ r0 :: r1 :: r2 :: r3 :: B) !! (4 * q + k)%nat = [r0; r1; r2; r3] !! k ∧
  ∀ v, <[(4 * q + k)%nat := v]> (A ++ r0 :: r1 :: r2 :: r3 :: B) = A ++ <[k := v]> [r0; r1; r2; r3] ++ B.
Proof.
  intros HA Hk. pose proof (fours_length q A HA) as Hl. split.
  - rewrite lookup_app_r by lia. replace (4 * q + k - length A)%nat with k by lia.
    destruct k as [|[|[|[|k]]]]; [done..|lia].
  - intros v. rewrite insert_app_r_alt by lia. replace (4 * q + k - length A)%nat with k by lia.
    destruct k as [|[|[|[|k]]]]; [done..|lia].
Qed.

Lemma group_ok q A r0 r1 r2 r3 B : fours q A → Forall reg_ok (A ++ r0 :: r1 :: r2 :: r3 :: B) →
  Forall reg_ok B ∧ reg_ok r0 ∧ reg_ok r1 ∧ reg_ok r2 ∧ reg_ok r3.
Proof. intros _. rewrite Forall_app, !Forall_cons. tauto. Qed.

(** A register lies in two adjacent bytes. *)
Lemma get_pair M1 x y M2 p regnum fb : p + regnum * HLL_BITS / 8 = Z.of_nat (length M1) → Z.land (regnum * HLL_BITS) 7 = fb →
  HLL_DENSE_GET_REGISTER (M1 ++ x :: y :: M2) p regnum = Some (Z.land (Z.lor (Z.shiftr x fb) (Z.shiftl y (8 - fb))) 63).
Proof.
  intros Ep Ef. unfold HLL_DENSE_GET_REGISTER. rewrite Ef, Ep, (byte_mid M1 x (y :: M2) (Z.of_nat (length M1))) by done. cbn [mbind option_bind].
  rewrite (app_assoc M1 [x] (y :: M2) : M1 ++ x :: y :: M2 = _), byte_mid by (rewrite length_app; simpl; lia). done.
Qed.

Lemma set_pair M1 x y M2 p regnum fb v : p + regnum * HLL_BITS / 8 = Z.of_nat (length M1) → Z.land (regnum * HLL_BITS) 7 = fb →
  HLL_DENSE_SET_REGISTER (M1 ++ x :: y :: M2) p regnum v = Some (M1 ++ set_low x v fb :: set_high y v (8 - fb) :: M2).
Proof.
  intros Ep Ef. unfold HLL_DENSE_SET_REGISTER. rewrite Ef, Ep, (byte_mid M1 x (y :: M2) (Z.of_nat (length M1))) by done. cbn [mbind option_bind]. rewrite write_mid by done. cbn [mbind option_bind].
  rewrite (app_assoc M1 [_] (y :: M2) : M1 ++ set_low x v fb :: y :: M2 = _), byte_mid by (rewrite length_app; simpl; lia). cbn [mbind option_bind].
  rewrite write_mid by (rewrite length_app; simpl; lia). by rewrite <- app_assoc.
Qed.

Lemma next_byte n B t T b3 M2 : fours n B → Forall reg_ok B → byte_ok t → pack B ++ t :: T = b3 :: M2 → byte_ok b3.
Proof.
  intros HB Hall Ht Eb. pose proof (pack_bytes n B HB Hall) as Hf. destruct (pack B) as [|x l]; simpl in *; injection Eb as <- _; [done|by apply Forall_inv in Hf].
Qed.

Ltac reg_arith := unfold reg_ok, in_u in *; Z.to_euclidean_division_equations; lia.

(** The registers in memory: header [H], packed registers and at least the NUL. *)
Lemma dense_get H n regs i v t T : length regs = (4 * n)%nat → Forall reg_ok regs → byte_ok t → regs !! i = Some v →
  HLL_DENSE_GET_REGISTER (H ++ pack regs ++ t :: T) (Z.of_nat (length H)) (Z.of_nat i) = Some v.
Proof.
  intros Hl Hall Ht Hi. destruct (group_of n regs i Hl) as (q & k & A & r0 & r1 & r2 & r3 & B & -> & Hk & HA & -> & HB); [by eapply lookup_lt_Some|].
  destruct (split_regs q A r0 r1 r2 r3 B k HA Hk) as [Elk _]. rewrite Elk in Hi. destruct (group_ok q A r0 r1 r2 r3 B HA Hall) as (HallB & H0 & H1 & H2 & H3).
  destruct (group_mem H _ q A r0 r1 r2 r3 B t T HA HB) as (M1 & b3 & M2 & Eb & Hlen & _ & ->). destruct (group_bytes r0 r1 r2 r3 H0 H1 H2 H3) as (B0 & B1 & B2).
  pose proof (next_byte _ B t T b3 M2 HB HallB Ht Eb) as B3. unfold in_u in B3. simpl in B3. destruct (reg_offset q k Hk) as [Eo Ef].
  destruct k as [|[|[|[|k]]]]; [| | | |lia]; injection Hi as <-.
  - rewrite (get_pair M1 _ _ _ _ _ 0) by (rewrite ?Eo, ?Ef; simpl; lia). f_equal. etrans; [apply Z.eqb_eq, get_0; lia|reg_arith].
  - rewrite (get_pair M1 _ _ _ _ _ 6) by (rewrite ?Eo, ?Ef; simpl; lia). f_equal. etrans; [apply Z.eqb_eq, get_6; lia|reg_arith].
  - rewrite (app_assoc M1 [_] _ : M1 ++ r0 + 64 * (r1 mod 4) :: _ = _), (get_pair (M1 ++ [_]) _ _ _ _ _ 4) by (rewrite ?Eo, ?Ef, ?length_app; simpl; lia).
    f_equal. etrans; [apply Z.eqb_eq, get_4; lia|reg_arith].
  - rewrite (app_assoc M1 [_; _] _ : M1 ++ r0 + 64 * (r1 mod 4) :: _ :: _ = _), (get_pair (M1 ++ [_; _]) _ _ _ _ _ 2) by (rewrite ?Eo, ?Ef, ?length_app; simpl; lia).
    f_equal. etrans; [apply Z.eqb_eq, get_2; lia|reg_arith].
Qed.

Lemma dense_set H n regs i v t T : length regs = (4 * n)%nat → Forall reg_ok regs → byte_ok t → reg_ok v → (i < length regs)%nat →
  HLL_DENSE_SET_REGISTER (H ++ pack regs ++ t :: T) (Z.of_nat (length H)) (Z.of_nat i) v = Some (H ++ pack (<[i := v]> regs) ++ t :: T).
Proof.
  intros Hl Hall Ht Hv Hi. destruct (group_of n regs i Hl Hi) as (q & k & A & r0 & r1 & r2 & r3 & B & -> & Hk & HA & -> & HB).
  destruct (split_regs q A r0 r1 r2 r3 B k HA Hk) as [_ Eins]. rewrite Eins. destruct (group_ok q A r0 r1 r2 r3 B HA Hall) as (HallB & H0 & H1 & H2 & H3).
  destruct (group_mem H _ q A r0 r1 r2 r3 B t T HA HB) as (M1 & b3 & M2 & Eb & Hlen & EM & ->). destruct (group_bytes r0 r1 r2 r3 H0 H1 H2 H3) as (B0 & B1 & B2).
  pose proof (next_byte _ B t T b3 M2 HB HallB Ht Eb) as B3. unfold in_u in B3. simpl in B3. destruct (reg_offset q k Hk) as [Eo Ef].
  rewrite (pack_app q A _ HA), <- !app_assoc, (app_assoc H), <- EM. unfold reg_ok in Hv. clear EM.
  destruct k as [|[|[|[|k]]]]; [| | | |lia]; cbn [app insert list_insert pack]; rewrite Eb.
  - rewrite (set_pair M1 _ _ _ _ _ 0) by (rewrite ?Eo, ?Ef; simpl; lia). pose proof (low_0 (r0 + 64 * (r1 mod 4)) v ltac:(lia) ltac:(lia)) as [E1%Z.eqb_eq _]%andb_prop.
    pose proof (low_0 (r1 / 4 + 16 * (r2 mod 16)) v ltac:(lia) ltac:(lia)) as [_ E2%Z.eqb_eq]%andb_prop. rewrite E1, (E2 : set_high _ _ (8 - 0) = _). do 2 f_equal. f_equal. reg_arith.
  - rewrite (set_pair M1 _ _ _ _ _ 6) by (rewrite ?Eo, ?Ef; simpl; lia). pose proof (low_6 (r0 + 64 * (r1 mod 4)) v ltac:(lia) ltac:(lia)) as [E1%Z.eqb_eq _]%andb_prop.
    pose proof (low_6 (r1 / 4 + 16 * (r2 mod 16)) v ltac:(lia) ltac:(lia)) as [_ E2%Z.eqb_eq]%andb_prop. rewrite E1, (E2 : set_high _ _ (8 - 6) = _). do 3 f_equal; [reg_arith|f_equal; reg_arith].
  - rewrite (app_assoc M1 [_] _ : M1 ++ r0 + 64 * (r1 mod 4) :: _ = _), (set_pair (M1 ++ [_]) _ _ _ _ _ 4) by (rewrite ?Eo, ?Ef, ?length_app; simpl; lia).
    pose proof (low_4 (r1 / 4 + 16 * (r2 mod 16)) v ltac:(lia) ltac:(lia)) as [E1%Z.eqb_eq _]%andb_prop. pose proof (low_4 (r2 / 16 + 4 * r3) v ltac:(lia) ltac:(lia)) as [_ E2%Z.eqb_eq]%andb_prop.
    rewrite E1, (E2 : set_high _ _ (8 - 4) = _), <- app_assoc. cbn [app]. do 4 f_equal; [reg_arith|f_equal; reg_arith].
  - rewrite (app_assoc M1 [_; _] _ : M1 ++ r0 + 64 * (r1 mod 4) :: _ :: _ = _), (set_pair (M1 ++ [_; _]) _ _ _ _ _ 2) by (rewrite ?Eo, ?Ef, ?length_app; simpl; lia).
    pose proof (low_2 (r2 / 16 + 4 * r3) v ltac:(lia) ltac:(lia)) as [E1%Z.eqb_eq _]%andb_prop. pose proof (low_2 b3 v ltac:(lia) ltac:(lia)) as [_ E2%Z.eqb_eq]%andb_prop.
    rewrite E1, (E2 : set_high _ _ (8 - 2) = _), <- app_assoc. cbn [app]. do 5 f_equal. reg_arith.
Qed.

(** ** Operations on registers *)

(** A register becomes at least [c]. *)
Definition raise (regs : list Z) (i : nat) (c : Z) : list Z :=
  match regs !! i with Some r => if r <? c then <[i := c]> regs else regs | None => regs end.

Lemma raise_length regs i c : length (raise regs i c) = length regs.
Proof. unfold raise. destruct (regs !! i) as [r|]; [|done]. destruct (r <? c); [apply length_insert|done]. Qed.

Lemma raise_ok (P : Z → Prop) regs i c : Forall P regs → P c → Forall P (raise regs i c).
Proof. intros Hr Hc. unfold raise. destruct (regs !! i) as [r|]; [|done]. destruct (r <? c); [by apply Forall_insert|done]. Qed.

Definition full (regs : list Z) : Prop := Z.of_nat (length regs) = HLL_REGISTERS ∧ Forall reg_ok regs.

Lemma raise_full regs i c : full regs → reg_ok c → full (raise regs i c).
Proof. intros [Hl Hr] Hc. split; [by rewrite raise_length|by apply raise_ok]. Qed.

Lemma full_at regs i : full regs → 0 ≤ i < HLL_REGISTERS → ∃ r, regs !! Z.to_nat i = Some r ∧ reg_ok r.
Proof.
  intros [Hl Hr] Hi. unfold HLL_REGISTERS in *. destruct (lookup_lt_is_Some_2 regs (Z.to_nat i)) as [r E]; [lia|]. exists r. split; [done|].
  by eapply Forall_lookup_1 in Hr.
Qed.

(** *** Histograms *)

Definition bump (h : list Z) (r n : Z) : list Z := alter (λ c, c + n) (Z.to_nat r) h.
Definition histogram_from (h regs : list Z) : list Z := foldl (λ h r, bump h r 1) h regs.
Definition histogram (regs : list Z) : list Z := histogram_from (replicate 64 0) regs.

Lemma bump_insert h r n c : h !! Z.to_nat r = Some c → bump h r n = <[Z.to_nat r := c + n]> h.
Proof. intros Hc. unfold bump. rewrite list_insert_alter. apply list_alter_ext; [|done]. intros x Hx. congruence. Qed.

Definition hist_ok (h : list Z) (n : Z) : Prop := length h = 64%nat ∧ Forall (λ c, 0 ≤ c ≤ n) h.

Lemma hist_zero : hist_ok (replicate 64 0) 0.
Proof. split; [done|]. apply Forall_replicate. lia. Qed.

Lemma histo_add_ok h r k n : hist_ok h n → reg_ok r → 0 ≤ k → n + k < 2 ^ 31 → histo_add h r k = Some (bump h r k) ∧ hist_ok (bump h r k) (n + k).
Proof.
  intros [Hl Hh] Hr Hk Hn. unfold reg_ok in Hr. destruct (lookup_lt_is_Some_2 h (Z.to_nat r)) as [c Hc]; [lia|].
  pose proof (Forall_lookup_1 _ _ _ _ Hh Hc) as Hcn. simpl in Hcn. split.
  - unfold histo_add, int_add. rewrite Hc. cbn [mbind option_bind]. rewrite decide_True by (unfold in_s; simpl; lia). cbn [mbind option_bind].
    by rewrite (bump_insert h r k c).
  - split; [unfold bump; by rewrite length_alter|]. apply Forall_alter.
    + eapply Forall_impl; [exact Hh|]. simpl. lia.
    + intros x Hx _. rewrite Hc in Hx. injection Hx as <-. lia.
Qed.

Lemma histo_all_ok regs : ∀ h n, hist_ok h n → Forall reg_ok regs → n + Z.of_nat (length regs) < 2 ^ 31 →
  histo_all h regs = Some (histogram_from h regs) ∧ hist_ok (histogram_from h regs) (n + Z.of_nat (length regs)).
Proof.
  induction regs as [|r regs IH]; intros h n Hh Hr Hn; simpl in *; [by rewrite Z.add_0_r|]. apply Forall_cons in Hr as [Hr Hrs].
  destruct (histo_add_ok h r 1 n Hh Hr ltac:(lia) ltac:(lia)) as [-> Hh']. cbn [mbind option_bind].
  destruct (IH (bump h r 1) (n + 1) Hh' Hrs ltac:(lia)) as [-> Hh'']. split; [done|]. by replace (n + Z.of_nat (S (length regs))) with (n + 1 + Z.of_nat (length regs)) by lia.
Qed.

Lemma bump_bump h r a b : bump (bump h r a) r b = bump h r (a + b).
Proof. unfold bump. rewrite list_alter_alter_eq. apply list_alter_ext; [|done]. intros x _. simpl. lia. Qed.

(** A run of [n] equal registers. *)
Lemma bump_run h v n : (Z.to_nat v < length h)%nat → histogram_from h (replicate n v) = bump h v (Z.of_nat n).
Proof.
  revert h. induction n as [|n IH]; intros h Hv.
  - simpl. unfold bump. symmetry. apply list_alter_id. lia.
  - cbn [replicate]. unfold histogram_from in *. cbn [foldl]. rewrite IH by (unfold bump; by rewrite length_alter). rewrite bump_bump. f_equal. lia.
Qed.

Lemma histogram_app h a b : histogram_from h (a ++ b) = histogram_from (histogram_from h a) b.
Proof. apply foldl_app. Qed.

(** ** The dense representation *)

Lemma quad r0 r1 r2 r3 : reg_ok r0 → reg_ok r1 → reg_ok r2 → reg_ok r3 →
  let b0 := r0 + 64 * (r1 mod 4) in let b1 := r1 / 4 + 16 * (r2 mod 16) in let b2 := r2 / 16 + 4 * r3 in
  Z.land b0 63 = r0 ∧ Z.land (Z.lor (Z.shiftr b0 6) (Z.shiftl b1 2)) 63 = r1 ∧
  Z.land (Z.lor (Z.shiftr b1 4) (Z.shiftl b2 4)) 63 = r2 ∧ Z.land (Z.shiftr b2 2) 63 = r3.
Proof.
  intros H0 H1 H2 H3 b0 b1 b2. destruct (group_bytes r0 r1 r2 r3 H0 H1 H2 H3) as (B0 & B1 & B2). fold b0 in B0. fold b1 in B1. fold b2 in B2. split_and!.
  - change 63 with (Z.ones 6). rewrite Z.land_ones by lia. unfold b0. reg_arith.
  - etrans; [apply Z.eqb_eq, get_6; lia|]. unfold b0, b1. reg_arith.
  - etrans; [apply Z.eqb_eq, get_4; lia|]. unfold b1, b2. reg_arith.
  - change 63 with (Z.ones 6). rewrite Z.land_ones, Z.shiftr_div_pow2 by lia. unfold b2. reg_arith.
Qed.

Lemma dense16_pack regs : length regs = 16%nat → Forall reg_ok regs → dense16 (pack regs) = Some regs.
Proof.
  intros Hl Hr. pose proof (fours_of 4 regs Hl) as Hf.
  inversion Hf as [|? a0 a1 a2 a3 l1 F1]; subst. inversion F1 as [|? b0 b1 b2 b3 l2 F2]; subst. inversion F2 as [|? c0 c1 c2 c3 l3 F3]; subst. inversion F3 as [|? d0 d1 d2 d3 l4 F4]; subst.
  inversion F4; subst. rewrite !Forall_cons in Hr. destruct_and! Hr. cbn [pack dense16].
  destruct (quad a0 a1 a2 a3) as (-> & -> & -> & ->); [done..|]. destruct (quad b0 b1 b2 b3) as (-> & -> & -> & ->); [done..|].
  destruct (quad c0 c1 c2 c3) as (-> & -> & -> & ->); [done..|]. destruct (quad d0 d1 d2 d3) as (-> & -> & -> & ->); [done..|]. done.
Qed.

Lemma dense_histo_ok turns : ∀ X regs h n, length regs = (16 * turns)%nat → Forall reg_ok regs → hist_ok h n → n + Z.of_nat (length regs) < 2 ^ 31 →
  dense_histo turns (X ++ pack regs) (Z.of_nat (length X)) h = Some (histogram_from h regs).
Proof.
  induction turns as [|turns IH]; intros X regs h n Hl Hr Hh Hn; cbn [dense_histo].
  { destruct regs; [done|simpl in Hl; lia]. }
  rewrite <- (take_drop 16 regs) in *. set (A := take 16 regs) in *. set (B := drop 16 regs) in *. rewrite length_app in *.
  assert (length A = 16%nat) as HA by (unfold A; rewrite length_take_le; [done|]; rewrite <- (take_drop 16 regs), length_app; unfold A, B in *; lia).
  pose proof (fours_of 4 A HA) as FA. apply Forall_app in Hr as [HrA HrB]. rewrite (pack_app 4 A B FA).
  rewrite (mread_app X (pack A) (pack B)) by (try done; by rewrite (pack_length 4 A FA)). cbn [mbind option_bind]. rewrite (dense16_pack A HA HrA). cbn [mbind option_bind].
  destruct (histo_all_ok A h n Hh HrA ltac:(lia)) as [-> Hh']. cbn [mbind option_bind].
  replace (Z.of_nat (length X) + 12) with (Z.of_nat (length (X ++ pack A))) by (rewrite length_app, (pack_length 4 A FA); lia).
  rewrite (app_assoc X). rewrite (IH (X ++ pack A) B _ _ ltac:(lia) HrB Hh' ltac:(lia)). by rewrite histogram_app.
Qed.

Lemma hllDenseRegHisto_ok H regs : length H = 16%nat → full regs → hllDenseRegHisto (H ++ pack regs) (replicate 64 0) = Some (histogram regs).
Proof.
  intros HH [Hl Hr]. unfold hllDenseRegHisto. replace HLL_HDR_SIZE with (Z.of_nat (length H)) by (by rewrite HH). unfold HLL_REGISTERS in Hl. apply (dense_histo_ok (Z.to_nat 1024) H regs _ 0 ltac:(lia) Hr hist_zero).
  rewrite Hl. lia.
Qed.

(** On the whole string, with its terminator. *)
Lemma hllDenseSet_ok H regs i c : length H = 16%nat → full regs → 0 ≤ i < HLL_REGISTERS → reg_ok c →
  hllDenseSet (H ++ pack regs) i c = Some (H ++ pack (raise regs (Z.to_nat i) c), if decide (raise regs (Z.to_nat i) c = regs) then 0 else 1).
Proof.
  intros HH Hf Hi Hc. destruct (full_at regs i Hf Hi) as (r & Er & Hr). destruct Hf as [Hl Hall]. unfold HLL_REGISTERS in *. unfold hllDenseSet. rewrite <- app_assoc.
  replace HLL_HDR_SIZE with (Z.of_nat (length H)) by (by rewrite HH). assert (i = Z.of_nat (Z.to_nat i)) as Ei by lia. set (j := Z.to_nat i) in *. rewrite Ei. clear Ei.
  rewrite (dense_get H (Z.to_nat 4096) regs j r 0 []) by (done || (unfold HLL_REGISTERS in *; lia)). cbn [mbind option_bind]. unfold raise. rewrite Er. destruct (Z.ltb_spec r c) as [Hlt|Hge].
  - rewrite (dense_set H (Z.to_nat 4096) regs j c 0 []) by (done || (apply lookup_lt_Some in Er; lia)). cbn [mbind option_bind]. rewrite decide_False.
    + do 2 f_equal. rewrite (app_assoc H), take_app_le, take_ge; [done|..]; rewrite !length_app, !(pack_length (Z.to_nat 4096)) by (apply fours_of; rewrite ?length_insert; lia); lia.
    + intros E. apply (f_equal (.!! j)) in E. rewrite list_lookup_insert_eq, Er in E by (by eapply lookup_lt_Some). injection E as ->. lia.
  - by rewrite decide_True.
Qed.

(** *** The maximum of two lists of registers *)

Lemma max_reg_ok P x X v : max_reg (P ++ x :: X) (Z.of_nat (length P)) v = Some (P ++ Z.max x v :: X).
Proof.
  unfold max_reg. rewrite Nat2Z.id, list_lookup_middle by done. cbn [mbind option_bind]. f_equal. destruct (Z.ltb_spec x v).
  - rewrite insert_app_r_alt, Nat.sub_diag by lia. simpl. do 2 f_equal. lia.
  - do 2 f_equal. lia.
Qed.

Lemma merge_dense_ok H regs t T : length H = 16%nat → full regs → byte_ok t → ∀ R n P X, regs = take (length P) regs ++ R → length R = n → length X = n →
  merge_dense n (H ++ pack regs ++ t :: T) (Z.of_nat (length P)) (P ++ X) = Some (P ++ zip_with Z.max X R).
Proof.
  intros HH [Hl Hall] Ht R. unfold HLL_REGISTERS in Hl. induction R as [|r R IH]; intros n P X HR Hn HX; simpl in Hn; subst n; cbn [merge_dense].
  { by destruct X. }
  destruct X as [|x X]; [done|]. assert (length (take (length P) regs) = length P) as Htl.
  { apply (f_equal length) in HR. rewrite length_app, length_take in HR. rewrite length_take. simpl in HR. lia. }
  assert (regs !! length P = Some r) as Er. { rewrite HR, lookup_app_r by lia. by rewrite Htl, Nat.sub_diag. }
  replace HLL_HDR_SIZE with (Z.of_nat (length H)) by (by rewrite HH). rewrite (dense_get H (Z.to_nat 4096) regs (length P) r t T) by (done || lia). cbn [mbind option_bind]. rewrite max_reg_ok. cbn [mbind option_bind].
  replace (Z.of_nat (length P) + 1) with (Z.of_nat (length (P ++ [Z.max x r]))) by (rewrite length_app; simpl; lia).
  rewrite (app_assoc P [Z.max x r] X : P ++ Z.max x r :: X = _). rewrite (IH (length R) (P ++ [Z.max x r]) X); [by rewrite <- app_assoc| |done|simpl in HX; lia].
  rewrite length_app. simpl. replace (length P + 1)%nat with (S (length P)) by lia. rewrite (take_S_r _ _ r Er), <- app_assoc. done.
Qed.
