(* ===== verification/HllSparse.v ===== *)
(** * hyperloglog.c: the sparse representation

    The opcodes of a sparse string as a sequence of runs, the loops that read
    them, and [hllSparseSet]: whatever opcode covers the register, and whether
    it is replaced, split, merged with its neighbours or the string is promoted
    to the dense representation, the register is raised and no other register
    changes. *)

From S2P Require Import Prelude Ziplist Hll HllRep.

(** ** Opcodes *)

Inductive opcode := OZero (n : Z) | OXZero (n : Z) | OVal (v n : Z).

Definition op_ok (o : opcode) : Prop :=
  match o with
  | OZero n => 1 ≤ n ≤ 64
  | OXZero n => 1 ≤ n ≤ 16384
  | OVal v n => 1 ≤ v ≤ 32 ∧ 1 ≤ n ≤ 4
  end.

Definition enc (o : opcode) : list Z :=
  match o with
  | OZero n => HLL_SPARSE_ZERO_SET n
  | OXZero n => HLL_SPARSE_XZERO_SET n
  | OVal v n => HLL_SPARSE_VAL_SET v n
  end.

Definition op_span (o : opcode) : Z := match o with OZero n | OXZero n | OVal _ n => n end.
Definition op_val (o : opcode) : Z := match o with OVal v _ => v | _ => 0 end.
Definition run (o : opcode) : list Z := replicate (Z.to_nat (op_span o)) (op_val o).

Definition encs (ops : list opcode) : list Z := concat (enc <$> ops).
Definition expand (ops : list opcode) : list Z := concat (run <$> ops).

Lemma encs_app a b : encs (a ++ b) = encs a ++ encs b.
Proof. unfold encs. by rewrite fmap_app, concat_app. Qed.

Lemma expand_app a b : expand (a ++ b) = expand a ++ expand b.
Proof. unfold expand. by rewrite fmap_app, concat_app. Qed.

Lemma expand_cons o ops : expand (o :: ops) = run o ++ expand ops.
Proof. done. Qed.

Lemma encs_cons o ops : encs (o :: ops) = enc o ++ encs ops.
Proof. done. Qed.

Lemma encs_one o : encs [o] = enc o.
Proof. apply app_nil_r. Qed.

Lemma expand_one o : expand [o] = run o.
Proof. apply app_nil_r. Qed.

Lemma op_span_pos o : op_ok o → 1 ≤ op_span o ≤ 16384.
Proof. destruct o; simpl; lia. Qed.

Lemma op_val_ok o : op_ok o → 0 ≤ op_val o ≤ 32.
Proof. destruct o; simpl; lia. Qed.

Lemma run_length o : op_ok o → Z.of_nat (length (run o)) = op_span o.
Proof. intros Ho%op_span_pos. unfold run. rewrite length_replicate. lia. Qed.

Lemma expand_ok ops : Forall op_ok ops → Forall (λ r, 0 ≤ r ≤ 32) (expand ops).
Proof.
  induction 1 as [|o ops Ho _ IH]; [constructor|]. rewrite expand_cons. apply Forall_app. split; [|done]. apply Forall_replicate. by apply op_val_ok.
Qed.

(** *** Bytes of the opcodes *)

Lemma zero_op_bits : ∀ a b, 0 ≤ a < Z.of_nat 1 → 0 ≤ b < Z.of_nat 64 →
  let x := u8 (b + 1 - 1) in HLL_SPARSE_IS_ZERO x && negb (HLL_SPARSE_IS_XZERO x) && negb (HLL_SPARSE_IS_VAL x) && (HLL_SPARSE_ZERO_LEN x =? b + 1) = true.
Proof. apply (all_pairs (λ a b, let x := u8 (b + 1 - 1) in _)). by vm_compute. Qed.

Lemma xzero_bits : ∀ a b, 0 ≤ a < Z.of_nat 64 → 0 ≤ b < Z.of_nat 256 →
  match HLL_SPARSE_XZERO_SET (256 * a + b + 1) with
  | [x; y] => HLL_SPARSE_IS_XZERO x && negb (HLL_SPARSE_IS_ZERO x) && negb (HLL_SPARSE_IS_VAL x) && (HLL_SPARSE_XZERO_LEN x y =? 256 * a + b + 1)
  | _ => false
  end = true.
Proof. apply (all_pairs (λ a b, match HLL_SPARSE_XZERO_SET (256 * a + b + 1) with [x; y] => _ | _ => false end)). by vm_compute. Qed.

Lemma val_bits : ∀ a b, 0 ≤ a < Z.of_nat 32 → 0 ≤ b < Z.of_nat 4 →
  match HLL_SPARSE_VAL_SET (a + 1) (b + 1) with
  | [x] => HLL_SPARSE_IS_VAL x && negb (HLL_SPARSE_IS_ZERO x) && negb (HLL_SPARSE_IS_XZERO x) && (HLL_SPARSE_VAL_VALUE x =? a + 1) && (HLL_SPARSE_VAL_LEN x =? b + 1)
  | _ => false
  end = true.
Proof. apply (all_pairs (λ a b, match HLL_SPARSE_VAL_SET (a + 1) (b + 1) with [x] => _ | _ => false end)). by vm_compute. Qed.

(** What the code sees of an opcode. *)
Definition sees (o : opcode) (x : Z) (tl : list Z) : Prop :=
  match o with
  | OZero n => tl = [] ∧ HLL_SPARSE_IS_ZERO x = true ∧ HLL_SPARSE_IS_XZERO x = false ∧ HLL_SPARSE_IS_VAL x = false ∧ HLL_SPARSE_ZERO_LEN x = n
  | OXZero n => ∃ y, tl = [y] ∧ HLL_SPARSE_IS_ZERO x = false ∧ HLL_SPARSE_IS_XZERO x = true ∧ HLL_SPARSE_IS_VAL x = false ∧ HLL_SPARSE_XZERO_LEN x y = n
  | OVal v n => tl = [] ∧ HLL_SPARSE_IS_ZERO x = false ∧ HLL_SPARSE_IS_XZERO x = false ∧ HLL_SPARSE_IS_VAL x = true ∧
      HLL_SPARSE_VAL_VALUE x = v ∧ HLL_SPARSE_VAL_LEN x = n
  end.

Lemma enc_sees o : op_ok o → ∃ x tl, enc o = x :: tl ∧ sees o x tl.
Proof.
  destruct o as [n|n|v n]; simpl; intros Ho.
  - eexists _, []. split; [done|]. pose proof (zero_op_bits 0 (n - 1) ltac:(lia) ltac:(lia)) as E. simpl in E. replace (n - 1 + 1 - 1) with (n - 1) in E by lia.
    destruct (HLL_SPARSE_IS_ZERO _), (HLL_SPARSE_IS_XZERO _), (HLL_SPARSE_IS_VAL _); try done. simpl in E. split_and!; try done. lia.
  - eexists _, [_]. split; [done|]. pose proof (xzero_bits ((n - 1) / 256) ((n - 1) mod 256) ltac:(Z.to_euclidean_division_equations; lia) ltac:(apply Z.mod_pos_bound; lia)) as E.
    replace (256 * ((n - 1) / 256) + (n - 1) mod 256 + 1) with n in E by (pose proof (Z.div_mod (n - 1) 256); lia). cbn [HLL_SPARSE_XZERO_SET] in E. eexists. split; [done|].
    destruct (HLL_SPARSE_IS_ZERO _), (HLL_SPARSE_IS_XZERO _), (HLL_SPARSE_IS_VAL _); try done. simpl in E. split_and!; try done. lia.
  - eexists _, []. split; [done|]. pose proof (val_bits (v - 1) (n - 1) ltac:(lia) ltac:(lia)) as E. replace (v - 1 + 1) with v in E by lia. replace (n - 1 + 1) with n in E by lia.
    cbn [HLL_SPARSE_VAL_SET] in E. destruct (HLL_SPARSE_IS_ZERO _), (HLL_SPARSE_IS_XZERO _), (HLL_SPARSE_IS_VAL _); try done. simpl in E. split_and!; try done; lia.
Qed.

Lemma enc_length o : op_ok o → (1 ≤ length (enc o) ≤ 2)%nat ∧ length (enc o) = match o with OXZero _ => 2%nat | _ => 1%nat end.
Proof. destruct o; simpl; lia. Qed.

Lemma encs_length ops : Forall op_ok ops → (length ops ≤ length (encs ops) ≤ 2 * length ops)%nat.
Proof. induction 1 as [|o ops Ho _ IH]; [simpl; lia|]. rewrite encs_cons, length_app. pose proof (enc_length o Ho). simpl. lia. Qed.

Lemma expand_length ops : Forall op_ok ops → (length ops ≤ length (expand ops))%nat.
Proof. induction 1 as [|o ops Ho _ IH]; [simpl; lia|]. rewrite expand_cons, length_app. pose proof (run_length o Ho). pose proof (op_span_pos o Ho). simpl. lia. Qed.

(** The bytes of an opcode in memory. *)
Lemma read_op X o R p : op_ok o → p = Z.of_nat (length X) → ∃ x tl, enc o = x :: tl ∧ sees o x tl ∧ byte_at (X ++ enc o ++ R) p = Some x ∧
  (∀ y, tl = [y] → byte_at (X ++ enc o ++ R) (p + 1) = Some y).
Proof.
  intros Ho ->. destruct (enc_sees o Ho) as (x & tl & E & Hs). exists x, tl. rewrite E. split_and!; try done.
  - by rewrite (byte_mid X x (tl ++ R)).
  - intros y ->. change (X ++ [x; y] ++ R) with (X ++ [x] ++ y :: R). rewrite app_assoc. apply byte_mid. rewrite length_app. simpl. lia.
Qed.

(** ** Reading the opcodes *)

Lemma int_add_ok a b : 0 ≤ a → 0 ≤ b → a + b < 2 ^ 31 → int_add a b = Some (a + b).
Proof. intros. unfold int_add. rewrite decide_True by (unfold in_s; simpl; lia). done. Qed.

(** Whether there is another opcode. *)
Lemma more_ops X o ops : op_ok o → (Z.of_nat (length X) <? Z.of_nat (length (X ++ encs (o :: ops)))) = true.
Proof. intros Ho. apply Z.ltb_lt. rewrite encs_cons, !length_app. pose proof (enc_length o Ho). lia. Qed.

Lemma no_ops (X : list Z) : (Z.of_nat (length X) <? Z.of_nat (length (X ++ encs []))) = false.
Proof. apply Z.ltb_ge. rewrite app_nil_r. lia. Qed.

(** The memory and the end of the opcodes, seen from behind the first one. *)
Lemma next_op X o ops R p : p = Z.of_nat (length X) + Z.of_nat (length (enc o)) →
  X ++ encs (o :: ops) ++ R = (X ++ enc o) ++ encs ops ++ R ∧ p = Z.of_nat (length (X ++ enc o)) ∧
  length (X ++ encs (o :: ops)) = length ((X ++ enc o) ++ encs ops).
Proof. intros ->. rewrite encs_cons, <- !app_assoc, !length_app. split_and!; [done|lia|lia]. Qed.

Lemma set_run_ok H n v : length H = 16%nat → reg_ok v → ∀ D Z0, full (D ++ replicate n 0 ++ Z0) →
  set_run n (H ++ pack (D ++ replicate n 0 ++ Z0) ++ [0]) (Z.of_nat (length D)) v = Some (H ++ pack (D ++ replicate n v ++ Z0) ++ [0]).
Proof.
  intros HH Hv. induction n as [|n IH]; intros D Z0 Hf; cbn [set_run]; [done|]. pose proof Hf as [Hl Hall]. unfold HLL_REGISTERS in Hl.
  replace HLL_HDR_SIZE with (Z.of_nat (length H)) by (by rewrite HH).
  rewrite (dense_set H (Z.to_nat 4096) _ (length D) v 0 []); [|lia|done|done|done|rewrite length_app; simpl; lia]. cbn [mbind option_bind replicate app].
  rewrite insert_app_r_alt, Nat.sub_diag by lia. cbn [insert list_insert].
  replace (Z.of_nat (length D) + 1) with (Z.of_nat (length (D ++ [v]))) by (rewrite length_app; simpl; lia).
  rewrite (app_assoc D [v] (replicate n 0 ++ Z0) : D ++ v :: replicate n 0 ++ Z0 = _).
  rewrite IH; [by rewrite <- app_assoc|]. split; [unfold HLL_REGISTERS; rewrite !length_app in *; simpl in *; lia|].
  rewrite !Forall_app in *. cbn [replicate] in Hall. rewrite Forall_cons in Hall. split_and!; try apply Hall. by constructor.
Qed.

Lemma to_dense_ok H R : length H = 16%nat → ∀ ops fuel X D z, (length ops ≤ fuel)%nat → Forall op_ok ops →
  full (D ++ expand ops ++ replicate z 0) → Forall reg_ok D →
  to_dense_loop fuel (X ++ encs ops ++ R) (Z.of_nat (length X)) (Z.of_nat (length (X ++ encs ops))) (Z.of_nat (length D))
    (H ++ pack (D ++ replicate (length (expand ops) + z) 0) ++ [0]) =
  Some (H ++ pack (D ++ expand ops ++ replicate z 0) ++ [0], Z.of_nat (length (D ++ expand ops))).
Proof.
  intros HH. induction ops as [|o ops IH]; intros fuel X D z Hfu Hops Hf HD.
  { destruct fuel; cbn [to_dense_loop]; rewrite no_ops; simpl; by rewrite app_nil_r. }
  apply Forall_cons in Hops as [Ho Hops]. destruct fuel as [|fuel]; [simpl in Hfu; lia|]. cbn [to_dense_loop]. rewrite more_ops by done.
  pose proof (run_length o Ho) as Hrl. pose proof (op_span_pos o Ho) as Hsp. rewrite expand_cons in *.
  assert (Z.of_nat (length D) + op_span o ≤ 16384) as Hb. { destruct Hf as [Hl _]. unfold HLL_REGISTERS in Hl. rewrite !length_app in Hl. lia. }
  assert (∀ p m, p = Z.of_nat (length X) + Z.of_nat (length (enc o)) → m = H ++ pack (D ++ run o ++ replicate (length (expand ops) + z) 0) ++ [0] →
    to_dense_loop fuel (X ++ encs (o :: ops) ++ R) p (Z.of_nat (length (X ++ encs (o :: ops)))) (Z.of_nat (length D) + op_span o) m =
    Some (H ++ pack (D ++ (run o ++ expand ops) ++ replicate z 0) ++ [0], Z.of_nat (length (D ++ run o ++ expand ops)))) as Hgo.
  { intros p m Hp ->. destruct (next_op X o ops R p Hp) as (-> & -> & ->). rewrite <- Hrl, <- Nat2Z.inj_add, <- length_app, (app_assoc D (run o)).
    rewrite IH; [by rewrite <- !app_assoc|simpl in Hfu; lia|done|by rewrite <- !app_assoc in *|]. apply Forall_app. split; [done|]. apply Forall_replicate. pose proof (op_val_ok o Ho). unfold reg_ok. lia. }
  destruct (read_op X o (encs ops ++ R) _ Ho eq_refl) as (x & tl & Ee & Hs & Hx & Hy). rewrite encs_cons, <- app_assoc. rewrite Hx. cbn [mbind option_bind].
  rewrite encs_cons, <- app_assoc in Hgo. replace (length (run o ++ expand ops) + z)%nat with (length (run o) + (length (expand ops) + z))%nat by (rewrite length_app; lia).
  rewrite replicate_add. destruct o as [n|n|v n]; simpl in Hs.
  - destruct Hs as (-> & -> & _ & _ & ->). rewrite int_add_ok by (simpl in *; lia). cbn [mbind option_bind]. apply Hgo; [by rewrite Ee|]. unfold run. rewrite length_replicate. done.
  - destruct Hs as (y & -> & -> & -> & _ & Hn). rewrite (Hy y eq_refl). cbn [mbind option_bind]. rewrite Hn, int_add_ok by (simpl in *; lia). cbn [mbind option_bind].
    apply Hgo; [by rewrite Ee|]. unfold run. rewrite length_replicate. done.
  - destruct Hs as (-> & -> & -> & _ & -> & ->). simpl in Hsp, Hb. rewrite int_add_ok by (simpl in *; lia). cbn [mbind option_bind]. unfold HLL_REGISTERS. rewrite (proj2 (Z.ltb_ge _ _)) by lia.
    unfold run at 1. rewrite length_replicate. simpl (op_span _). rewrite set_run_ok; [|done|unfold reg_ok; simpl in Ho; lia|].
    + cbn [mbind option_bind]. rewrite (Z.add_comm n). apply Hgo; [by rewrite Ee|done].
    + destruct Hf as [Hl Hall]. split; [rewrite !length_app, !length_replicate in *; simpl in *; lia|]. rewrite !Forall_app in *. split_and!; [done|apply Forall_replicate; done|apply Forall_replicate; done].
Qed.

Lemma sparse_histo_ok R : ∀ ops fuel X h n, (length ops ≤ fuel)%nat → Forall op_ok ops → hist_ok h n → 0 ≤ n → n + Z.of_nat (length (expand ops)) < 2 ^ 31 →
  sparse_histo fuel (X ++ encs ops ++ R) (Z.of_nat (length X)) (Z.of_nat (length (X ++ encs ops))) n h =
  Some (histogram_from h (expand ops), n + Z.of_nat (length (expand ops))).
Proof.
  induction ops as [|o ops IH]; intros fuel X h n Hfu Hops Hh Hn Hlen.
  { destruct fuel; cbn [sparse_histo]; rewrite no_ops; simpl; by rewrite Z.add_0_r. }
  apply Forall_cons in Hops as [Ho Hops]. destruct fuel as [|fuel]; [simpl in Hfu; lia|]. cbn [sparse_histo]. rewrite more_ops by done.
  pose proof (run_length o Ho) as Hrl. pose proof (op_span_pos o Ho) as Hsp. pose proof (op_val_ok o Ho) as Hval. rewrite expand_cons in *. rewrite length_app in Hlen.
  destruct (histo_add_ok h (op_val o) (op_span o) n Hh) as [Eh Hh']; [unfold reg_ok; lia|lia|lia|].
  assert (∀ p, p = Z.of_nat (length X) + Z.of_nat (length (enc o)) →
    (idx ← int_add n (op_span o); h ← histo_add h (op_val o) (op_span o);
     sparse_histo fuel (X ++ encs (o :: ops) ++ R) p (Z.of_nat (length (X ++ encs (o :: ops)))) idx h) =
    Some (histogram_from h (run o ++ expand ops), n + Z.of_nat (length (run o ++ expand ops)))) as Hgo.
  { intros p Hp. rewrite int_add_ok, Eh by lia. cbn [mbind option_bind]. destruct (next_op X o ops R p Hp) as (-> & -> & ->).
    rewrite IH; [|simpl in Hfu; lia|done|done|lia|lia]. rewrite histogram_app. unfold run at 1. rewrite bump_run by (destruct Hh as [-> _]; lia).
    rewrite Z2Nat.id by lia. do 2 f_equal. rewrite length_app. lia. }
  destruct (read_op X o (encs ops ++ R) _ Ho eq_refl) as (x & tl & Ee & Hs & Hx & Hy). rewrite encs_cons, <- app_assoc. rewrite Hx. cbn [mbind option_bind].
  rewrite encs_cons, <- app_assoc, Ee in Hgo. rewrite Ee in *. destruct o as [k|k|v k]; simpl in Hs.
  - destruct Hs as (-> & -> & _ & _ & ->). by apply Hgo.
  - destruct Hs as (y & -> & -> & -> & _ & E). rewrite (Hy y eq_refl). cbn [mbind option_bind]. rewrite E. by apply Hgo.
  - destruct Hs as (-> & -> & -> & _ & -> & ->). by apply Hgo.
Qed.

Lemma max_run_ok n v : ∀ P X0 X, length X0 = n → max_run n (P ++ X0 ++ X) (Z.of_nat (length P)) v = Some (P ++ zip_with Z.max X0 (replicate n v) ++ X).
Proof.
  induction n as [|n IH]; intros P X0 X Hl; cbn [max_run]; destruct X0 as [|x X0]; try done. cbn [app]. rewrite max_reg_ok. cbn [mbind option_bind].
  replace (Z.of_nat (length P) + 1) with (Z.of_nat (length (P ++ [Z.max x v]))) by (rewrite length_app; simpl; lia).
  rewrite (app_assoc P [Z.max x v] (X0 ++ X) : P ++ Z.max x v :: X0 ++ X = _), IH by (simpl in Hl; lia). by rewrite <- app_assoc.
Qed.

Lemma zip_max_zero X : Forall (λ x, 0 ≤ x) X → zip_with Z.max X (replicate (length X) 0) = X.
Proof. induction 1 as [|x X Hx _ IH]; [done|]. simpl. rewrite IH. f_equal. lia. Qed.

Lemma merge_sparse_ok R : ∀ ops fuel X P M, (length ops ≤ fuel)%nat → Forall op_ok ops → Forall (λ x, 0 ≤ x) M → length M = length (expand ops) →
  Z.of_nat (length P) + Z.of_nat (length M) ≤ HLL_REGISTERS →
  merge_sparse fuel (X ++ encs ops ++ R) (Z.of_nat (length X)) (Z.of_nat (length (X ++ encs ops))) (Z.of_nat (length P)) (P ++ M) =
  Some (P ++ zip_with Z.max M (expand ops), Z.of_nat (length P) + Z.of_nat (length M)).
Proof.
  unfold HLL_REGISTERS. induction ops as [|o ops IH]; intros fuel X P M Hfu Hops HM Hl Hlen.
  { destruct M; [|done]. destruct fuel; cbn [merge_sparse]; rewrite no_ops; simpl; by rewrite Z.add_0_r. }
  apply Forall_cons in Hops as [Ho Hops]. destruct fuel as [|fuel]; [simpl in Hfu; lia|]. cbn [merge_sparse]. rewrite more_ops by done.
  pose proof (run_length o Ho) as Hrl. pose proof (op_span_pos o Ho) as Hsp. rewrite expand_cons in *. rewrite length_app in Hl.
  rewrite <- (take_drop (length (run o)) M) in *. set (M0 := take (length (run o)) M) in *. set (M1 := drop (length (run o)) M) in *.
  rewrite length_app in Hl, Hlen. apply Forall_app in HM as [HM0 HM1].
  assert (length M0 = length (run o)) as HL0. { unfold M0. rewrite length_take_le; [done|]. rewrite <- (take_drop (length (run o)) M), length_app. unfold M0, M1 in *. lia. }
  assert (∀ p, p = Z.of_nat (length X) + Z.of_nat (length (enc o)) →
    merge_sparse fuel (X ++ encs (o :: ops) ++ R) p (Z.of_nat (length (X ++ encs (o :: ops)))) (Z.of_nat (length P) + op_span o) (P ++ zip_with Z.max M0 (run o) ++ M1) =
    Some (P ++ zip_with Z.max (M0 ++ M1) (run o ++ expand ops), Z.of_nat (length P) + Z.of_nat (length (M0 ++ M1)))) as Hgo.
  { intros p Hp. destruct (next_op X o ops R p Hp) as (-> & -> & ->). assert (length (zip_with Z.max M0 (run o)) = length M0) as Hz by (rewrite length_zip_with; lia).
    replace (Z.of_nat (length P) + op_span o) with (Z.of_nat (length (P ++ zip_with Z.max M0 (run o)))) by (rewrite length_app, Hz; lia).
    rewrite (app_assoc P). rewrite IH; [|simpl in Hfu; lia|done|done|lia|rewrite length_app, Hz; lia]. rewrite zip_with_app, <- app_assoc by done. do 2 f_equal. rewrite !length_app, Hz. lia. }
  destruct (read_op X o (encs ops ++ R) _ Ho eq_refl) as (x & tl & Ee & Hs & Hx & Hy). rewrite encs_cons, <- app_assoc. rewrite Hx. cbn [mbind option_bind].
  rewrite encs_cons, <- app_assoc, Ee in Hgo. rewrite Ee in *. destruct o as [k|k|v k]; simpl in Hs, Hsp.
  - destruct Hs as (-> & -> & _ & _ & ->). rewrite int_add_ok by (simpl in *; lia). cbn [mbind option_bind]. unfold run in Hgo at 1. simpl in Hgo.
    unfold run in HL0. rewrite length_replicate in HL0. simpl in HL0. rewrite <- HL0, zip_max_zero in Hgo by done. by apply Hgo.
  - destruct Hs as (y & -> & -> & -> & _ & E). rewrite (Hy y eq_refl). cbn [mbind option_bind]. rewrite E, int_add_ok by (simpl in *; lia). cbn [mbind option_bind]. unfold run in Hgo at 1. simpl in Hgo.
    unfold run in HL0. rewrite length_replicate in HL0. simpl in HL0. rewrite <- HL0, zip_max_zero in Hgo by done. by apply Hgo.
  - destruct Hs as (-> & -> & -> & _ & -> & ->). unfold HLL_REGISTERS. rewrite (proj2 (Z.ltb_ge _ _)) by (simpl in *; lia). unfold run in HL0. rewrite length_replicate in HL0. simpl in HL0.
    rewrite max_run_ok by done. cbn [mbind option_bind]. by apply Hgo.
Qed.

(** ** Locating a register *)

Definition prev_pos (base : Z) (ops : list opcode) : option Z :=
  match reverse ops with [] => None | o :: _ => Some (base + Z.of_nat (length (encs ops)) - Z.of_nat (length (enc o))) end.

Lemma prev_snoc base ops o : prev_pos base (ops ++ [o]) = Some (base + Z.of_nat (length (encs ops))).
Proof. unfold prev_pos. rewrite reverse_app. simpl. rewrite encs_app, length_app. unfold encs at 2. simpl. rewrite app_nil_r. f_equal. lia. Qed.

Lemma locate_ok H R index : ∀ ops2 fuel ops1 span, (length ops2 ≤ fuel)%nat → Forall op_ok ops2 →
  Z.of_nat (length (expand ops1)) ≤ index < Z.of_nat (length (expand (ops1 ++ ops2))) →
  ∃ A o B, ops1 ++ ops2 = A ++ o :: B ∧ Z.of_nat (length (expand A)) ≤ index < Z.of_nat (length (expand A)) + op_span o ∧
    locate fuel (H ++ encs (ops1 ++ ops2) ++ R) (Z.of_nat (length (H ++ encs ops1))) (Z.of_nat (length (H ++ encs (ops1 ++ ops2))))
      (Z.of_nat (length (expand ops1))) (prev_pos (Z.of_nat (length H)) ops1) span index =
    Some (Z.of_nat (length (H ++ encs A)), Z.of_nat (length (expand A)), prev_pos (Z.of_nat (length H)) A, op_span o).
Proof.
  induction ops2 as [|o ops IH]; intros fuel ops1 span Hfu Hops Hi; [rewrite app_nil_r in Hi; lia|].
  apply Forall_cons in Hops as [Ho Hops]. destruct fuel as [|fuel]; [simpl in Hfu; lia|]. cbn [locate].
  assert (H ++ encs (ops1 ++ o :: ops) ++ R = (H ++ encs ops1) ++ enc o ++ encs ops ++ R) as EM by (rewrite encs_app, encs_cons, <- !app_assoc; done).
  assert (H ++ encs (ops1 ++ o :: ops) = (H ++ encs ops1) ++ encs (o :: ops)) as EE by (rewrite encs_app, <- !app_assoc; done).
  rewrite EE, (more_ops (H ++ encs ops1) o ops Ho), <- EE. pose proof (run_length o Ho) as Hrl. pose proof (op_span_pos o Ho) as Hsp.
  destruct (read_op (H ++ encs ops1) o (encs ops ++ R) _ Ho eq_refl) as (x & tl & Ee & Hs & Hx & Hy). rewrite <- EM in Hx, Hy. rewrite Hx. cbn [mbind option_bind].
  assert ((if HLL_SPARSE_IS_ZERO x then Some (HLL_SPARSE_ZERO_LEN x, 1) else if HLL_SPARSE_IS_VAL x then Some (HLL_SPARSE_VAL_LEN x, 1)
    else b1 ← byte_at (H ++ encs (ops1 ++ o :: ops) ++ R) (Z.of_nat (length (H ++ encs ops1)) + 1); Some (HLL_SPARSE_XZERO_LEN x b1, 2)) =
    Some (op_span o, Z.of_nat (length (enc o)))) as ->.
  { destruct o as [k|k|v k]; simpl in Hs.
    - destruct Hs as (-> & -> & _ & _ & ->). done.
    - destruct Hs as (y & -> & -> & _ & -> & E). rewrite (Hy y eq_refl). cbn [mbind option_bind]. by rewrite E.
    - destruct Hs as (-> & -> & _ & -> & _ & ->). done. }
  cbn [mbind option_bind]. destruct (Z.leb_spec index (Z.of_nat (length (expand ops1)) + op_span o - 1)) as [Hle|Hgt].
  - exists ops1, o, ops. split_and!; try done; lia.
  - assert (Z.of_nat (length (expand (ops1 ++ [o]))) = Z.of_nat (length (expand ops1)) + op_span o) as Hx1.
    { rewrite expand_app, length_app. unfold expand at 2. simpl. rewrite app_nil_r. lia. }
    assert (ops1 ++ o :: ops = (ops1 ++ [o]) ++ ops) as Eops by (by rewrite <- app_assoc).
    destruct (IH fuel (ops1 ++ [o]) (op_span o)) as (A & o' & B & EA & HA & E); [simpl in Hfu; lia|done|rewrite <- Eops; lia|].
    exists A, o', B. split; [by rewrite Eops|]. split; [done|]. rewrite <- E, Hx1, prev_snoc, <- Eops. f_equal.
    + rewrite encs_app, !length_app. unfold encs at 3. simpl. rewrite app_nil_r. lia.
    + f_equal. rewrite length_app. lia.
Qed.

(** ** Replacing an opcode *)

(** [Y] in the place of [X0], when the bytes behind were moved. *)
Lemma splice_writes (P Q Y B : list Z) s S : length Q = length Y →
  (m ← mwrite (P ++ Q ++ B ++ s :: S) (Z.of_nat (length (P ++ Y ++ B))) [0]; mwrite m (Z.of_nat (length P)) Y) = Some (P ++ Y ++ B ++ 0 :: S).
Proof.
  intros HQ. rewrite !app_assoc. rewrite (write_mid _ s 0 S) by (rewrite !length_app; lia). cbn [mbind option_bind]. rewrite <- !app_assoc. by rewrite (mwrite_app P Q Y (B ++ 0 :: S)) by done.
Qed.

Lemma take_drop_split (l : list Z) n : (n ≤ length l)%nat → ∃ a b, l = a ++ b ∧ length a = n.
Proof. intros Hn. exists (take n l), (drop n l). split; [by rewrite take_drop|by apply length_take_le]. Qed.

(** The move of what is behind the opcode. *)
Lemma splice_move (P X0 B T Y : list Z) : (length Y ≤ length X0 + length T)%nat →
  ∃ Q s S, length Q = length Y ∧
    match (if Z.of_nat (length (P ++ X0 ++ B)) <=? Z.of_nat (length (P ++ X0)) then None else Some (Z.of_nat (length (P ++ X0)))) with
    | Some next => if Z.of_nat (length Y) - Z.of_nat (length X0) =? 0 then Some (P ++ X0 ++ B ++ 0 :: T)
                   else mmove (P ++ X0 ++ B ++ 0 :: T) (next + (Z.of_nat (length Y) - Z.of_nat (length X0))) next (Z.of_nat (length (P ++ X0 ++ B)) - next)
    | None => Some (P ++ X0 ++ B ++ 0 :: T)
    end = Some (P ++ Q ++ B ++ s :: S).
Proof.
  intros HY. destruct (Z.leb_spec (Z.of_nat (length (P ++ X0 ++ B))) (Z.of_nat (length (P ++ X0)))) as [Hle|Hgt].
  { assert (B = []) as -> by (destruct B; [done|rewrite !length_app in Hle; simpl in Hle; lia]). cbn [app].
    destruct (take_drop_split (X0 ++ 0 :: T) (length Y)) as (Q & [|s S] & E & HQ); [rewrite length_app; simpl; lia| |].
    - apply (f_equal length) in E. rewrite !length_app in E. simpl in E. lia.
    - exists Q, s, S. split; [done|]. by rewrite E. }
  destruct (Z.eqb_spec (Z.of_nat (length Y) - Z.of_nat (length X0)) 0) as [E0|E0]; [exists X0, 0, T; split; [lia|done]|].
  destruct (take_drop_split (X0 ++ B ++ 0 :: T) (length Y)) as (Q & W & EW & HQ); [rewrite !length_app; simpl; lia|].
  destruct (take_drop_split W (length B)) as (W1 & W2 & -> & HW1). { apply (f_equal length) in EW. rewrite !length_app in EW. simpl in EW. lia. }
  destruct W2 as [|s S]. { apply (f_equal length) in EW. rewrite !length_app in EW. simpl in EW. lia. }
  exists Q, s, S. split; [done|]. unfold mmove. rewrite (app_assoc P X0), (mread_app (P ++ X0) B (0 :: T)) by (try done; rewrite !length_app; lia). cbn [mbind option_bind].
  rewrite <- (app_assoc P X0), EW, (app_assoc P Q), (mwrite_app (P ++ Q) W1 B (s :: S)) by (try done; rewrite !length_app; lia). by rewrite <- !app_assoc.
Qed.

(** ** Merging adjacent opcodes *)

Lemma op_cursor H A o R p : p = Z.of_nat (length (H ++ encs A)) → H ++ encs (A ++ o :: []) ++ R = (H ++ encs A) ++ enc o ++ R ∧
  p + Z.of_nat (length (enc o)) = Z.of_nat (length (H ++ encs (A ++ [o]))).
Proof. intros ->. rewrite encs_app, encs_one, !length_app, <- !app_assoc. split; [done|lia]. Qed.

(** The bytes of two opcodes become one. *)
Lemma merge_two P x x2 z Y T p end_ : p = Z.of_nat (length P) → end_ = Z.of_nat (length P) + 2 + Z.of_nat (length Y) →
  (m ← mwrite ((P ++ [x]) ++ x2 :: Y ++ 0 :: T) (p + 1) [z]; m ← mmove m p (p + 1) (end_ - p); mwrite m (end_ - 1) [0]) = Some (P ++ z :: Y ++ 0 :: 0 :: T).
Proof.
  intros -> ->. rewrite (write_mid _ x2 z) by (rewrite length_app; simpl; lia). cbn [mbind option_bind].
  assert ((P ++ [x]) ++ z :: Y ++ 0 :: T = (P ++ [x]) ++ (z :: Y ++ [0]) ++ T) as -> by (simpl; by rewrite <- (app_assoc Y)). unfold mmove.
  rewrite mread_app by (rewrite ?length_app; simpl; rewrite ?length_app; simpl; lia). cbn [mbind option_bind].
  assert ((P ++ [x]) ++ (z :: Y ++ [0]) ++ T = P ++ (x :: z :: Y) ++ [0] ++ T) as -> by (rewrite <- !app_assoc; simpl; by rewrite <- app_assoc).
  rewrite (mwrite_app P (x :: z :: Y) (z :: Y ++ [0])) by (try done; simpl; rewrite length_app; simpl; lia). cbn [mbind option_bind].
  assert (P ++ (z :: Y ++ [0]) ++ [0] ++ T = (P ++ z :: Y) ++ 0 :: 0 :: T) as -> by (rewrite <- !app_assoc; simpl; by rewrite <- app_assoc).
  rewrite write_mid by (rewrite length_app; simpl; lia). by rewrite <- app_assoc.
Qed.

Lemma merge_loop_ok H scanlen : ∀ A B T, Forall op_ok (A ++ B) →
  ∃ ops T', merge_loop scanlen (H ++ encs (A ++ B) ++ 0 :: T) (Z.of_nat (length (H ++ encs A))) (Z.of_nat (length (H ++ encs (A ++ B)))) =
    Some (H ++ encs ops ++ 0 :: T', Z.of_nat (length (H ++ encs ops))) ∧ Forall op_ok ops ∧ expand ops = expand (A ++ B).
Proof.
  induction scanlen as [|scanlen IH]; intros A B T Hok; cbn [merge_loop].
  { exists (A ++ B), T. split; [|done]. by destruct (_ <? _). }
  destruct B as [|o B]. { exists (A ++ []), T. split; [|done]. rewrite (proj2 (Z.ltb_ge _ _)); [done|]. rewrite app_nil_r. lia. }
  assert (op_ok o) as Ho by (rewrite Forall_app, Forall_cons in Hok; tauto).
  assert (H ++ encs (A ++ o :: B) ++ 0 :: T = (H ++ encs A) ++ enc o ++ encs B ++ 0 :: T) as EM by (rewrite encs_app, encs_cons, <- !app_assoc; done).
  assert (length (H ++ encs (A ++ o :: B)) = (length (H ++ encs A) + length (enc o) + length (encs B))%nat) as EL by (rewrite encs_app, encs_cons, !length_app; lia).
  pose proof (enc_length o Ho) as [Hel Hel']. rewrite (proj2 (Z.ltb_lt _ _)) by lia.
  destruct (read_op (H ++ encs A) o (encs B ++ 0 :: T) _ Ho eq_refl) as (x & tl & Ee & Hs & Hx & _). rewrite <- EM in Hx. rewrite Hx. cbn [mbind option_bind].
  assert (∀ p, p = Z.of_nat (length (H ++ encs A)) + Z.of_nat (length (enc o)) →
    ∃ ops T', merge_loop scanlen (H ++ encs (A ++ o :: B) ++ 0 :: T) p (Z.of_nat (length (H ++ encs (A ++ o :: B)))) =
      Some (H ++ encs ops ++ 0 :: T', Z.of_nat (length (H ++ encs ops))) ∧ Forall op_ok ops ∧ expand ops = expand (A ++ o :: B)) as Hgo.
  { intros p ->. destruct (op_cursor H A o [] _ eq_refl) as [_ ->]. rewrite (app_assoc A [o] B : A ++ o :: B = _) in *. by apply IH. }
  rewrite Ee in *. destruct o as [k|k|v k]; simpl in Hs.
  - destruct Hs as (-> & -> & -> & _). by apply Hgo.
  - destruct Hs as (y & -> & _ & -> & _). by apply Hgo.
  - destruct Hs as (-> & -> & -> & _ & -> & ->). destruct B as [|o2 B].
    { rewrite (proj2 (Z.ltb_ge _ _)) by (rewrite EL; simpl; lia). by apply Hgo. }
    assert (op_ok o2) as Ho2 by (rewrite Forall_app, !Forall_cons in Hok; tauto). pose proof (enc_length o2 Ho2) as [Hel2 _].
    rewrite (proj2 (Z.ltb_lt _ _)) by (rewrite EL, encs_cons, (length_app (enc o2)); simpl; lia).
    destruct (read_op ((H ++ encs A) ++ [x]) o2 (encs B ++ 0 :: T) (Z.of_nat (length (H ++ encs A)) + 1) Ho2) as (x2 & tl2 & Ee2 & Hs2 & Hx2 & _); [rewrite (length_app _ [x]); simpl; lia|].
    assert (H ++ encs (A ++ OVal v k :: o2 :: B) ++ 0 :: T = ((H ++ encs A) ++ [x]) ++ enc o2 ++ encs B ++ 0 :: T) as EM2 by (rewrite EM, encs_cons, <- !app_assoc; done).
    rewrite <- EM2 in Hx2. rewrite Hx2. cbn [mbind option_bind].
    destruct (HLL_SPARSE_IS_VAL x2 && (v =? HLL_SPARSE_VAL_VALUE x2) && (k + HLL_SPARSE_VAL_LEN x2 <=? HLL_SPARSE_VAL_MAX_LEN)) eqn:Ec; [|by apply Hgo].
    apply andb_prop in Ec as [[Hv Ev%Z.eqb_eq]%andb_prop Hk%Z.leb_le]. destruct o2 as [k2|k2|v2 k2]; simpl in Hs2; [destruct Hs2 as (_ & _ & _ & ? & _); congruence|destruct Hs2 as (? & _ & _ & _ & ? & _); congruence|].
    destruct Hs2 as (-> & _ & _ & _ & Ev2 & Ek2). rewrite Ev2 in Ev. clear Ev2. subst v2. rewrite Ek2 in *. unfold HLL_SPARSE_VAL_MAX_LEN in Hk. simpl in Ho, Ho2. rewrite EM2, Ee2.
    assert (op_ok (OVal v (k + k2))) as Hnew by (simpl; lia). destruct (enc_sees _ Hnew) as (z & tlz & Ez & Hsz). destruct Hsz as (-> & _). simpl in Ez. rewrite Ez.
    pose proof (merge_two (H ++ encs A) x x2 z (encs B) T _ (Z.of_nat (length (H ++ encs (A ++ OVal v k :: OVal v k2 :: B)))) eq_refl) as Em.
    apply bind_Some in Em as (m1 & E1 & Em); [|rewrite EL, encs_cons, (length_app (enc _)); simpl; lia]. apply bind_Some in Em as (m2 & E2 & E3).
    cbn [app] in E1 |- *. rewrite E1. cbn [mbind option_bind]. rewrite E2. cbn [mbind option_bind]. rewrite E3. cbn [mbind option_bind].
    set (o := OVal v (k + k2)) in *. set (T1 := 0 :: T).
    assert ((H ++ encs A) ++ z :: encs B ++ 0 :: T1 = H ++ encs (A ++ o :: B) ++ 0 :: T1) as ->.
    { rewrite encs_app, encs_cons. simpl enc. by rewrite Ez, <- !app_assoc. }
    assert (Z.of_nat (length (H ++ encs (A ++ OVal v k :: OVal v k2 :: B))) - 1 = Z.of_nat (length (H ++ encs (A ++ o :: B)))) as ->.
    { rewrite EL, (encs_app A), !encs_cons, !length_app. simpl. lia. }
    destruct (IH A (o :: B) T1) as (ops & T' & E & Hops & Hex).
    { rewrite Forall_app, !Forall_cons in *. tauto. }
    exists ops, T'. split; [exact E|]. split; [done|]. rewrite Hex, !expand_app, !expand_cons. f_equal. rewrite app_assoc. f_equal.
    unfold run, o. simpl. rewrite Z2Nat.inj_add by lia. apply replicate_add.
Qed.

(** ** Headers *)

Definition HLL_MAGIC : list Z := [72; 89; 76; 76].

Definition hdr_ok (H : list Z) : Prop := length H = 16%nat ∧ take 4 H = HLL_MAGIC ∧ Forall byte_ok H.

(** The registers [regs] as a string; dense or sparse. *)
Definition hll_rep (s regs : list Z) : Prop :=
  full regs ∧ ∃ H body, s = H ++ body ∧ hdr_ok H ∧
    ((H !! 4%nat = Some HLL_DENSE ∧ body = pack regs) ∨
     (H !! 4%nat = Some HLL_SPARSE ∧ ∃ ops, Forall op_ok ops ∧ expand ops = regs ∧ body = encs ops)).

Lemma hdr_insert H i b : hdr_ok H → (4 ≤ i)%nat → byte_ok b → hdr_ok (<[i := b]> H).
Proof. intros (Hl & Hm & Hb) Hi Hbo. split_and!; [by rewrite length_insert|by rewrite take_insert_ge|by apply Forall_insert]. Qed.

Lemma hdr_byte H R i b : hdr_ok H → H !! i = Some b → byte_at (H ++ R) (Z.of_nat i) = Some b.
Proof.
  intros _ Hi. rewrite <- (take_drop_middle H i b Hi), <- app_assoc. apply byte_mid. rewrite length_take_le; [done|]. apply lookup_lt_Some in Hi. lia.
Qed.

Lemma hdr_write H R i b : hdr_ok H → (i < 16)%nat → mwrite (H ++ R) (Z.of_nat i) [b] = Some (<[i := b]> H ++ R).
Proof.
  intros (Hl & _) Hi. destruct (lookup_lt_is_Some_2 H i) as [x Hx]; [lia|]. rewrite (insert_take_drop H i b) by lia. rewrite <- (take_drop_middle H i x Hx) at 1.
  rewrite <- !app_assoc. apply write_mid. rewrite length_take_le; [done|]. lia.
Qed.

Definition invalidate (H : list Z) : list Z := match H !! 15%nat with Some b => <[15%nat := u8 (Z.lor b 128)]> H | None => H end.

Lemma invalidate_ok H R : hdr_ok H → HLL_INVALIDATE_CACHE (H ++ R) = Some (invalidate H ++ R) ∧ hdr_ok (invalidate H) ∧ invalidate H !! 4%nat = H !! 4%nat.
Proof.
  intros Hh. pose proof Hh as (Hl & _). unfold HLL_INVALIDATE_CACHE, invalidate. destruct (lookup_lt_is_Some_2 H 15) as [b Hb]; [lia|]. rewrite Hb.
  change 15 with (Z.of_nat 15). rewrite (hdr_byte H R 15 b) by done. cbn [mbind option_bind]. rewrite hdr_write by (done || lia). split_and!; [done| |by rewrite list_lookup_insert_ne].
  apply hdr_insert; [done|lia|]. by apply uwrap_range.
Qed.

Lemma rep_encoding s regs : hll_rep s regs → ∃ e, encoding s = Some e ∧ (e = HLL_DENSE ∨ e = HLL_SPARSE).
Proof.
  intros (_ & H & body & -> & Hh & [[He _]|[He _]]); unfold encoding; change 4 with (Z.of_nat 4); rewrite (hdr_byte H body 4 _ Hh He); eauto.
Qed.

(** ** Promotion to the dense representation *)

Lemma pack_zeros n : pack (replicate (4 * n) 0) = replicate (3 * n) 0.
Proof. induction n as [|n IH]; [done|]. replace (4 * S n)%nat with (4 + 4 * n)%nat by lia. replace (3 * S n)%nat with (3 + 3 * n)%nat by lia. rewrite !replicate_add, <- IH. done. Qed.

Lemma hllSparseToDense_ok s regs : hll_rep s regs →
  ∃ s', hllSparseToDense s = Some (Some s') ∧ hll_rep s' regs ∧ ∃ H, s' = H ++ pack regs ∧ hdr_ok H ∧ H !! 4%nat = Some HLL_DENSE.
Proof.
  intros (Hf & H & body & -> & Hh & Hcase). unfold hllSparseToDense. destruct Hcase as [[He ->]|[He (ops & Hops & Hex & ->)]].
  - unfold encoding. change 4 with (Z.of_nat 4). rewrite (hdr_byte H _ 4 _ Hh He). cbn [mbind option_bind]. simpl. eexists. split; [done|]. split; [|by exists H].
    split; [done|]. exists H, (pack regs). split_and!; try done. by left.
  - pose proof Hh as (HH & _). unfold encoding. change 4 with (Z.of_nat 4) at 1. rewrite (hdr_byte H _ 4 _ Hh He). cbn [mbind option_bind]. simpl (HLL_SPARSE =? HLL_DENSE). cbv iota.
    assert (mread (H ++ encs ops) 0 HLL_HDR_SIZE = Some H) as -> by (apply (mread_app [] H (encs ops)); [done|by rewrite HH]). cbn [mbind option_bind].
    assert (replicate (Z.to_nat HLL_DENSE_SIZE) 0 ++ [0] = replicate 16 0 ++ replicate (3 * Z.to_nat 4096) 0 ++ [0]) as ->.
    { rewrite app_assoc, <- replicate_add. f_equal. }
    assert (mwrite (replicate 16 0 ++ replicate (3 * Z.to_nat 4096) 0 ++ [0]) 0 H = Some (H ++ replicate (3 * Z.to_nat 4096) 0 ++ [0])) as -> by (apply (mwrite_app [] (replicate 16 0) H); [done|by rewrite HH]). cbn [mbind option_bind]. change 4 with (Z.of_nat 4). rewrite (hdr_write H) by (done || lia). cbn [mbind option_bind].
    set (H' := <[4%nat := HLL_DENSE]> H). assert (hdr_ok H') as Hh' by (apply hdr_insert; [done|lia|done]). pose proof Hh' as (HH' & _).
    pose proof (to_dense_ok H' [0] HH' ops (length (H ++ encs ops)) H [] 0) as E. rewrite Hex in E. cbn [app length] in E. rewrite Nat.add_0_r in E. simpl (replicate 0 0) in E. rewrite !app_nil_r in E.
    assert (replicate (length regs) 0 = replicate (4 * Z.to_nat 4096) 0) as Er by (f_equal; destruct Hf as [Hl _]; unfold HLL_REGISTERS in Hl; lia). rewrite Er, pack_zeros in E.
    change (Z.of_nat 0) with 0 in E.
    replace HLL_HDR_SIZE with (Z.of_nat (length H)) by (by rewrite HH). rewrite <- (app_assoc H). rewrite E; [|rewrite length_app; pose proof (encs_length ops Hops); lia|done|done|constructor].
    cbn [mbind option_bind]. pose proof Hf as [Hl _]. rewrite Hl, Z.eqb_refl.
    assert (take (Z.to_nat HLL_DENSE_SIZE) (H' ++ pack regs ++ [0]) = H' ++ pack regs) as ->.
    { rewrite app_assoc. apply take_app_length'. rewrite length_app, HH', (pack_length (Z.to_nat 4096)); [done|]. apply fours_of. unfold HLL_REGISTERS in Hl. lia. }
    assert (H' !! 4%nat = Some HLL_DENSE) as He' by (apply list_lookup_insert_eq; lia).
    eexists. split; [done|]. split; [|by exists H']. split; [done|]. exists H', (pack regs). split_and!; try done. by left.
Qed.

Lemma dense_rep H regs : hdr_ok H → H !! 4%nat = Some HLL_DENSE → full regs → hll_rep (H ++ pack regs) regs.
Proof. intros Hh He Hf. split; [done|]. exists H, (pack regs). split_and!; try done. by left. Qed.

(** The result of an update: whether a register changed. *)
Definition set_result (s regs : list Z) (i : nat) (c : Z) (s' : list Z) (r : Z) : Prop :=
  hll_rep s' (raise regs i c) ∧ if decide (raise regs i c = regs) then r = 0 ∧ s' = s else r = 1.

Lemma dense_set_result s regs i c : hll_rep s regs → encoding s = Some HLL_DENSE → 0 ≤ i < HLL_REGISTERS → reg_ok c →
  ∃ s' r, hllDenseSet s i c = Some (s', r) ∧ set_result s regs (Z.to_nat i) c s' r.
Proof.
  intros (Hf & H & body & -> & Hh & Hcase) Hen Hi Hc. destruct Hcase as [[He ->]|[He _]].
  - rewrite (hllDenseSet_ok H regs i c) by (done || apply Hh). eexists _, _. split; [done|]. split; [by apply dense_rep, raise_full|].
    destruct (decide (raise regs (Z.to_nat i) c = regs)) as [-> |]; done.
  - unfold encoding in Hen. change 4 with (Z.of_nat 4) in Hen. rewrite (hdr_byte H body 4 _ Hh He) in Hen. done.
Qed.

Lemma promote_ok s regs i c r : hll_rep s regs → 0 ≤ i < HLL_REGISTERS → reg_ok c → regs !! Z.to_nat i = Some r → r < c →
  ∃ s' rc, sparse_promote s i c = Some (s', rc) ∧ set_result s regs (Z.to_nat i) c s' rc.
Proof.
  intros Hs Hi Hc Hr Hlt. unfold sparse_promote. destruct (hllSparseToDense_ok s regs Hs) as (s1 & -> & Hs1 & H & -> & Hh & He). cbn [mbind option_bind].
  pose proof Hs as [Hf _]. rewrite (hllDenseSet_ok H regs i c) by (done || apply Hh). cbn [mbind option_bind].
  assert (raise regs (Z.to_nat i) c ≠ regs) as Hne.
  { unfold raise. rewrite Hr, (proj2 (Z.ltb_lt _ _)) by done. intros E. apply (f_equal (.!! Z.to_nat i)) in E. rewrite list_lookup_insert_eq, Hr in E by (by eapply lookup_lt_Some). injection E as ->. lia. }
  rewrite decide_False by done. simpl. eexists _, _. split; [done|]. split; [by apply dense_rep, raise_full|]. by rewrite decide_False.
Qed.

(** ** Splitting an opcode *)

Definition part (o : opcode) (len : Z) : opcode :=
  match o with OVal v _ => OVal v len | _ => if HLL_SPARSE_ZERO_MAX_LEN <? len then OXZero len else OZero len end.

Definition split_op (o : opcode) (k c : Z) : list opcode :=
  (if k =? 0 then [] else [part o k]) ++ [OVal c 1] ++ (if k =? op_span o - 1 then [] else [part o (op_span o - 1 - k)]).

Lemma part_ok o len : op_ok o → 1 ≤ len ≤ op_span o → op_ok (part o len) ∧ run (part o len) = replicate (Z.to_nat len) (op_val o) ∧
  (length (enc (part o len)) ≤ length (enc o))%nat.
Proof.
  intros Ho Hl. unfold part, HLL_SPARSE_ZERO_MAX_LEN. destruct o as [n|n|v n]; simpl in *.
  - rewrite (proj2 (Z.ltb_ge _ _)) by lia. split_and!; [simpl; lia|done|done].
  - destruct (Z.ltb_spec 64 len); (split_and!; [simpl; lia|done|simpl; lia]).
  - split_and!; [lia..|done|done].
Qed.

Lemma split_op_ok o k c : op_ok o → 0 ≤ k < op_span o → 1 ≤ c ≤ 32 → Forall op_ok (split_op o k c).
Proof.
  intros Ho Hk Hc. unfold split_op. rewrite !Forall_app. split_and!.
  - destruct (Z.eqb_spec k 0); constructor; [|constructor]. apply part_ok; [done|lia].
  - constructor; [simpl; lia|constructor].
  - destruct (Z.eqb_spec k (op_span o - 1)); constructor; [|constructor]. apply part_ok; [done|lia].
Qed.

Lemma split_op_expand o k c : op_ok o → 0 ≤ k < op_span o → expand (split_op o k c) = <[Z.to_nat k := c]> (run o).
Proof.
  intros Ho Hk. unfold split_op. rewrite !expand_app. set (v := op_val o).
  assert (expand (if k =? 0 then [] else [part o k]) = replicate (Z.to_nat k) v) as ->.
  { destruct (Z.eqb_spec k 0) as [-> |]; [done|]. rewrite expand_one. apply part_ok; [done|lia]. }
  assert (expand (if k =? op_span o - 1 then [] else [part o (op_span o - 1 - k)]) = replicate (Z.to_nat (op_span o - 1 - k)) v) as ->.
  { destruct (Z.eqb_spec k (op_span o - 1)) as [-> |]; [by rewrite Z.sub_diag|]. rewrite expand_one. apply part_ok; [done|lia]. }
  rewrite expand_one. unfold run at 1 2. fold v. replace (Z.to_nat (op_span o)) with (Z.to_nat k + S (Z.to_nat (op_span o - 1 - k)))%nat by lia.
  rewrite replicate_add, insert_app_r_alt by (rewrite length_replicate; lia). by rewrite length_replicate, Nat.sub_diag.
Qed.

Lemma split_op_length o k c : op_ok o → 0 ≤ k < op_span o → (length (encs (split_op o k c)) ≤ length (enc o) + 3)%nat.
Proof.
  intros Ho Hk. pose proof (enc_length o Ho) as [He _]. unfold split_op. rewrite !encs_app, !length_app, encs_one. simpl (length (enc (OVal c 1))).
  assert (∀ len (b : bool), (b = false → 1 ≤ len ≤ op_span o) → (length (encs (if b then [] else [part o len])) ≤ length (enc o))%nat) as Hp.
  { intros len [] Hl; [simpl; lia|]. rewrite encs_one. by apply part_ok; [|apply Hl]. }
  pose proof (Hp k (k =? 0) ltac:(lia)) as H1. pose proof (Hp (op_span o - 1 - k) (k =? op_span o - 1) ltac:(lia)) as H2.
  assert (o = o) as _ by done. destruct o as [n|n|v n]; simpl in *; lia.
Qed.

Lemma split_seq_ok o x tl index first c : op_ok o → enc o = x :: tl → sees o x tl → first ≤ index < first + op_span o →
  split_seq (negb (HLL_SPARSE_IS_ZERO x) && negb (HLL_SPARSE_IS_XZERO x)) x index first (first + op_span o - 1) c = encs (split_op o (index - first) c).
Proof.
  intros Ho Ee Hs Hi. unfold split_seq, split_op. set (iv := negb (HLL_SPARSE_IS_ZERO x) && negb (HLL_SPARSE_IS_XZERO x)).
  assert (∀ len, (if iv then HLL_SPARSE_VAL_SET (HLL_SPARSE_VAL_VALUE x) len else zero_seq len) = enc (part o len)) as Hrun.
  { intros len. unfold iv, zero_seq. destruct o as [n|n|v n]; simpl in Hs.
    - destruct Hs as (_ & -> & _). simpl. by destruct (_ <? len).
    - destruct Hs as (y & _ & -> & -> & _). simpl. by destruct (_ <? len).
    - destruct Hs as (_ & -> & -> & _ & -> & _). done. }
  rewrite !Hrun, !encs_app, encs_one. f_equal; [|f_equal].
  - destruct (Z.eqb_spec index first), (Z.eqb_spec (index - first) 0); try lia; [done|]. by rewrite encs_one.
  - destruct (Z.eqb_spec index (first + op_span o - 1)), (Z.eqb_spec (index - first) (op_span o - 1)); try lia; [done|]. rewrite encs_one. do 2 f_equal. lia.
Qed.

(** What [hllSparseSet] knows of the opcode. *)
Lemma op_facts o x tl m p c : op_ok o → enc o = x :: tl → sees o x tl → (∀ y, tl = [y] → byte_at m (p + 1) = Some y) → 1 ≤ c →
  let is_zero := HLL_SPARSE_IS_ZERO x in let is_xzero := HLL_SPARSE_IS_XZERO x in
  (if is_zero then Some (HLL_SPARSE_ZERO_LEN x) else if is_xzero then b1 ← byte_at m (p + 1); Some (HLL_SPARSE_XZERO_LEN x b1)
   else Some (HLL_SPARSE_VAL_LEN x)) = Some (op_span o) ∧ Z.of_nat (length (enc o)) = (if is_xzero then 2 else 1) ∧
  (negb is_zero && negb is_xzero && (c <=? HLL_SPARSE_VAL_VALUE x)) = (c <=? op_val o) ∧ (negb is_zero && negb is_xzero || is_zero) = negb is_xzero.
Proof.
  intros Ho Ee Hs Hy Hc. rewrite Ee. destruct o as [n|n|v n]; simpl in Hs.
  - destruct Hs as (-> & -> & -> & _ & ->). split_and!; try done. symmetry. apply Z.leb_gt. simpl. lia.
  - destruct Hs as (y & -> & -> & -> & _ & E). rewrite (Hy y eq_refl). cbn [mbind option_bind]. rewrite E. split_and!; try done. symmetry. apply Z.leb_gt. simpl. lia.
  - destruct Hs as (-> & -> & -> & _ & -> & ->). done.
Qed.

(** The registers after the split. *)
Lemma raise_split A o B k c : op_ok o → 0 ≤ k < op_span o →
  let regs := expand (A ++ o :: B) in let i := (length (expand A) + Z.to_nat k)%nat in
  regs !! i = Some (op_val o) ∧ (op_val o < c → raise regs i c = expand (A ++ split_op o k c ++ B) ∧ raise regs i c ≠ regs) ∧ (c ≤ op_val o → raise regs i c = regs).
Proof.
  intros Ho Hk regs i. assert (regs !! i = Some (op_val o)) as Hr.
  { unfold regs, i. rewrite expand_app, expand_cons, lookup_app_r by lia. replace (length (expand A) + Z.to_nat k - length (expand A))%nat with (Z.to_nat k) by lia.
    rewrite lookup_app_l by (unfold run; rewrite length_replicate; lia). unfold run. apply lookup_replicate_2. lia. }
  split; [done|]. unfold raise. rewrite Hr. split.
  - intros Hlt. rewrite (proj2 (Z.ltb_lt _ _)) by done. split.
    + unfold regs, i. rewrite !expand_app, expand_cons, (split_op_expand o k c Ho Hk), insert_app_r. f_equal. rewrite insert_app_l; [done|]. unfold run. rewrite length_replicate. lia.
    + intros E. apply (f_equal (.!! i)) in E. rewrite list_lookup_insert_eq, Hr in E by (by eapply lookup_lt_Some). injection E as ->. lia.
  - intros Hge. by rewrite (proj2 (Z.ltb_ge _ _)).
Qed.

(** ** [hllSparseSet] *)

Lemma updated_ok H A C T : hdr_ok H → H !! 4%nat = Some HLL_SPARSE → Forall op_ok (A ++ C) → full (expand (A ++ C)) →
  ∃ s', sparse_updated (H ++ encs (A ++ C) ++ 0 :: T) (prev_pos (Z.of_nat (length H)) A) (Z.of_nat (length (H ++ encs (A ++ C)))) = Some (s', 1) ∧ hll_rep s' (expand (A ++ C)).
Proof.
  intros Hh He Hok Hf. pose proof Hh as (HH & _). unfold sparse_updated.
  assert (∃ A' C', A ++ C = A' ++ C' ∧ default HLL_HDR_SIZE (prev_pos (Z.of_nat (length H)) A) = Z.of_nat (length (H ++ encs A'))) as (A' & C' & EA & ->).
  { destruct A as [|o A] using rev_ind.
    - exists [], C. split; [done|]. simpl. rewrite app_nil_r, HH. done.
    - exists A, ([o] ++ C). split; [by rewrite <- app_assoc|]. rewrite prev_snoc. simpl. rewrite length_app. lia. }
  rewrite EA in *. destruct (merge_loop_ok H 5 A' C' T Hok) as (ops & T' & -> & Hops & Hex). cbn [mbind option_bind].
  destruct (invalidate_ok H (encs ops ++ 0 :: T') Hh) as (-> & Hh' & He'). cbn [mbind option_bind]. eexists. split; [done|].
  pose proof Hh' as (HH' & _). rewrite Nat2Z.id, app_assoc, take_app_length' by (rewrite !length_app, HH, HH'; done).
  split; [done|]. exists (invalidate H), (encs ops). split_and!; try done. right. split; [by rewrite He'|]. by exists ops.
Qed.

Section sparse_set.
Context (junk max_bytes : Z).

Lemma hllSparseSet_ok H ops index c : hdr_ok H → H !! 4%nat = Some HLL_SPARSE → Forall op_ok ops → full (expand ops) → 0 ≤ index < HLL_REGISTERS → 1 ≤ c < 64 →
  ∃ s' r, hllSparseSet junk max_bytes (H ++ encs ops) index c = Some (s', r) ∧ set_result (H ++ encs ops) (expand ops) (Z.to_nat index) c s' r.
Proof.
  intros Hh He Hops Hf Hi Hc. assert (hll_rep (H ++ encs ops) (expand ops)) as Hrep.
  { split; [done|]. exists H, (encs ops). split_and!; try done. right. split; [done|]. by exists ops. }
  assert (reg_ok c) as Hcr by (unfold reg_ok; lia). pose proof Hh as (HH & _). unfold hllSparseSet, HLL_SPARSE_VAL_MAX_VALUE. destruct (Z.ltb_spec 32 c) as [Hbig|Hsmall].
  { destruct (full_at _ _ Hf Hi) as (r & Hr & _). apply (promote_ok _ _ _ _ r); try done. pose proof (Forall_lookup_1 _ _ _ _ (expand_ok ops Hops) Hr). simpl in *. lia. }
  set (T := replicate 3 junk).
  destruct (locate_ok H (0 :: T) index ops (length (H ++ encs ops)) [] 0) as (A & o & B & EA & HA & El); [rewrite length_app; pose proof (encs_length ops Hops); lia|done| |].
  { simpl. destruct Hf as [Hl _]. lia. }
  cbn [app] in EA, El. rewrite app_nil_r in El. rewrite <- (app_assoc H). replace HLL_HDR_SIZE with (Z.of_nat (length H)) by (by rewrite HH).
  change (Z.of_nat (length (expand []))) with 0 in El. change (prev_pos (Z.of_nat (length H)) []) with (@None Z) in El. rewrite El. cbn [mbind option_bind]. clear El.
  subst ops. assert (op_ok o) as Ho by (rewrite Forall_app, Forall_cons in Hops; tauto). pose proof (op_span_pos o Ho) as Hsp. destruct (Z.eqb_spec (op_span o) 0); [lia|].
  set (k := index - Z.of_nat (length (expand A))). assert (Z.to_nat index = (length (expand A) + Z.to_nat k)%nat) as Ei by (unfold k; lia).
  destruct (raise_split A o B k c Ho ltac:(unfold k; lia)) as (Hr & Hlt & Hge). rewrite <- Ei in Hr, Hlt, Hge.
  assert (H ++ encs (A ++ o :: B) ++ 0 :: T = (H ++ encs A) ++ enc o ++ encs B ++ 0 :: T) as EM by (rewrite encs_app, encs_cons, <- !app_assoc; done).
  destruct (read_op (H ++ encs A) o (encs B ++ 0 :: T) _ Ho eq_refl) as (x & tl & Ee & Hs & Hx & Hy). rewrite <- EM in Hx, Hy. rewrite Hx. cbn [mbind option_bind].
  destruct (op_facts o x tl _ _ c Ho Ee Hs Hy ltac:(lia)) as (-> & Hel & -> & ->). set (is_xzero := HLL_SPARSE_IS_XZERO x) in *.
  cbn [mbind option_bind]. destruct (Z.leb_spec c (op_val o)) as [Hno|Hup].
  { eexists _, _. split; [done|]. split; [by rewrite Hge|]. by rewrite Hge, decide_True. }
  destruct (Hlt Hup) as [Eraise Hne]. rewrite Forall_app, Forall_cons in Hops. destruct Hops as (HopsA & _ & HopsB).
  assert (Forall op_ok (A ++ split_op o k c ++ B)) as Hops'. { rewrite !Forall_app. split_and!; try done. apply split_op_ok; [done|unfold k; lia|lia]. }
  assert (full (expand (A ++ split_op o k c ++ B))) as Hf' by (rewrite <- Eraise; by apply raise_full).
  assert (∀ T' end_, end_ = Z.of_nat (length (H ++ encs (A ++ split_op o k c ++ B))) → ∃ s' r, sparse_updated (H ++ encs (A ++ split_op o k c ++ B) ++ 0 :: T') (prev_pos (Z.of_nat (length H)) A) end_ = Some (s', r) ∧
    set_result (H ++ encs (A ++ o :: B)) (expand (A ++ o :: B)) (Z.to_nat index) c s' r) as Hdone.
  { intros T' end_ ->. destruct (updated_ok H A (split_op o k c ++ B) T' Hh He Hops' Hf') as (s' & E & Hs'). exists s', 1. split; [exact E|]. split; [by rewrite Eraise|]. by rewrite decide_False. }
  rewrite EM. destruct (negb is_xzero && (op_span o =? 1)) eqn:E1.
  - apply andb_prop in E1 as [Ex%negb_true_iff E1%Z.eqb_eq]. assert (k = 0) as Ek by (unfold k; lia).
    assert (split_op o k c = [OVal c 1]) as Esp by (unfold split_op; rewrite Ek, E1; done). rewrite Ex in Hel.
    rewrite (mwrite_app (H ++ encs A) (enc o) (HLL_SPARSE_VAL_SET c 1)) by (try done; simpl; lia). cbn [mbind option_bind]. rewrite Esp in Hdone.
    assert ((H ++ encs A) ++ HLL_SPARSE_VAL_SET c 1 ++ encs B ++ 0 :: T = H ++ encs (A ++ [OVal c 1] ++ B) ++ 0 :: T) as -> by (rewrite !encs_app, encs_one, <- !app_assoc; done).
    apply Hdone. rewrite !encs_app, encs_cons, encs_one, !length_app. simpl. lia.
  - unfold is_xzero in *. rewrite (split_seq_ok o x tl index _ c Ho Ee Hs) by lia. fold k. set (Y := encs (split_op o k c)) in *.
    assert (∃ s' r, sparse_promote (H ++ encs (A ++ o :: B)) index c = Some (s', r) ∧ set_result (H ++ encs (A ++ o :: B)) (expand (A ++ o :: B)) (Z.to_nat index) c s' r) as Hprom by (by eapply promote_ok).
    destruct ((0 <? _) && (max_bytes <? _)); [exact Hprom|]. clear Hprom.
    assert ((if HLL_SPARSE_IS_XZERO x then Z.of_nat (length (H ++ encs A)) + 2 else Z.of_nat (length (H ++ encs A)) + 1) = Z.of_nat (length ((H ++ encs A) ++ enc o))) as -> by (rewrite (length_app _ (enc o)); destruct (HLL_SPARSE_IS_XZERO x); lia).
    assert (H ++ encs (A ++ o :: B) = (H ++ encs A) ++ enc o ++ encs B) as EN by (rewrite encs_app, encs_cons, <- !app_assoc; done). rewrite EN in *. rewrite <- Hel.
    destruct (splice_move (H ++ encs A) (enc o) (encs B) T Y) as (Q & s & S & HQ & ->); [unfold Y; pose proof (split_op_length o k c Ho ltac:(unfold k; lia)); simpl; lia|]. cbn [mbind option_bind].
    assert (Z.of_nat (length ((H ++ encs A) ++ enc o ++ encs B)) + (Z.of_nat (length Y) - Z.of_nat (length (enc o))) = Z.of_nat (length ((H ++ encs A) ++ Y ++ encs B))) as Eend by (rewrite !length_app; lia).
    rewrite Eend. pose proof (splice_writes (H ++ encs A) Q Y (encs B) s S HQ) as Ew. apply bind_Some in Ew as (m1 & -> & Ew). cbn [mbind option_bind]. rewrite Ew. cbn [mbind option_bind].
    assert ((H ++ encs A) ++ Y ++ encs B ++ 0 :: S = H ++ encs (A ++ split_op o k c ++ B) ++ 0 :: S) as -> by (rewrite !encs_app, <- !app_assoc; done).
    apply Hdone. rewrite !encs_app, !length_app. fold Y. lia.
Qed.
End sparse_set.
