(* ===== verification/HllSpec.v ===== *)
(** * hyperloglog.c: the commands refine operations on registers

    A HyperLogLog stands for 16384 registers.  PFADD raises the register of an
    element to the length of the pattern of its hash, PFMERGE takes the maximum
    of registers, PFCOUNT is the estimate from the histogram of the maximum; the
    representation and its conversions are not visible, and neither is the
    cache, but for the changes that PFCOUNT counts when it fills it. *)

From stdpp Require Import strings.
From S2P Require Import Prelude Decimal Util Ziplist Keyspace Bitops BitCmd HllFloat Hll HllRep HllSparse.

(** ** Specification *)

(** Zeroes before the first 1, at most [n]. *)
Fixpoint zeros (n : nat) (w : Z) : Z := match n with O => 0 | S n => if Z.odd w then 0 else 1 + zeros n (w / 2) end.

(** The register of an element, and its pattern. *)
Definition pattern (ele : list Z) : nat * Z :=
  let h := MurmurHash64A ele 2915580697 in (Z.to_nat (h mod 2 ^ 14), 1 + zeros 50 (h / 2 ^ 14)).

Definition add_ele (regs ele : list Z) : list Z := let (i, c) := pattern ele in raise regs i c.
Definition no_regs : list Z := replicate (Z.to_nat HLL_REGISTERS) 0.
Definition max_regs : list Z → list Z → list Z := zip_with Z.max.

(** A HyperLogLog, with whether its cardinality is cached; a string that is none;
    a value of another type. *)
Inductive aval := AHLL (regs : list Z) (cached : bool) | AInvalid | AType.

Abbreviation hlldb := (gmap (list Z) aval).

Definition not_hll (a : aval) : option reply := match a with AHLL _ _ => None | AInvalid => Some wrong_hll | AType => Some RWrongType end.

(** The registers of several keys together, or the error. *)
Fixpoint merged (D : hlldb) (ks : list (list Z)) (M : list Z) : list Z + reply :=
  match ks with
  | [] => inl M
  | k :: ks =>
      match D !! k with
      | None => merged D ks M
      | Some (AHLL regs _) => merged D ks (max_regs M regs)
      | Some AInvalid => inr wrong_hll
      | Some AType => inr RWrongType
      end
  end.

Inductive hllcommand := PFADD (k : list Z) (eles : list (list Z)) | PFCOUNT (ks : list (list Z)) | PFMERGE (k : list Z) (ks : list (list Z)).

(** The estimate, where it can be converted to an integer. *)
Definition cardinality (regs : list Z) : Z := default 0 (estimate (histogram regs)).

Definition pf_changed (D : hlldb) (k regs : list Z) (r : reply) : outcome aval :=
  Outcome (<[k := AHLL regs false]> D) 1 [SignalModified k; NotifyString "pfadd" k] [r].

Definition hll_spec (c : hllcommand) (D : hlldb) : outcome aval :=
  match c with
  | PFADD k eles =>
      match D !! k with
      | Some AInvalid => answer D wrong_hll
      | Some AType => answer D RWrongType
      | None => pf_changed D k (foldl add_ele no_regs eles) (RLong 1)
      | Some (AHLL regs _) =>
          let regs' := foldl add_ele regs eles in
          if decide (regs' = regs) then answer D (RLong 0) else pf_changed D k regs' (RLong 1)
      end
  | PFCOUNT [k] =>
      match D !! k with
      | None => answer D (RLong 0)
      | Some AInvalid => answer D wrong_hll
      | Some AType => answer D RWrongType
      | Some (AHLL regs cached) =>
          let card := cardinality regs in
          if cached : bool then answer D (RLong card)
          else Outcome (<[k := AHLL regs true]> D) 1 [SignalModified k] [RLong card]
      end
  | PFCOUNT ks =>
      match merged D ks no_regs with
      | inl M => answer D (RLong (cardinality M))
      | inr e => answer D e
      end
  | PFMERGE k ks =>
      match merged D (k :: ks) no_regs with
      | inl M => pf_changed D k M ROk
      | inr e => answer D e
      end
  end.

(** A cardinality is asked for only where the estimate can be converted. *)
Definition hll_fits (c : hllcommand) (D : hlldb) : bool :=
  match c with
  | PFCOUNT [k] => match D !! k with Some (AHLL regs _) => bool_decide (is_Some (estimate (histogram regs))) | _ => true end
  | PFCOUNT ks => match merged D ks no_regs with inl M => bool_decide (is_Some (estimate (histogram M))) | inr _ => true end
  | _ => true
  end.

(** ** Patterns *)

Lemma low_bits h i : 0 ≤ i → Z.testbit h i = Z.odd (h / 2 ^ i).
Proof. intros Hi. rewrite Z.testbit_odd, Z.shiftr_div_pow2 by done. done. Qed.

Lemma pat_step fuel hash bit count : pat_loop (S fuel) hash bit count = if Z.land hash bit =? 0 then pat_loop fuel hash (u64 (Z.shiftl bit 1)) (count + 1) else Some count.
Proof. done. Qed.

Lemma pat_loop_ok w hash : (∀ j, 0 ≤ j < 50 → Z.testbit hash j = Z.testbit w j) → Z.testbit hash 50 = true → ∀ n i, i + Z.of_nat n = 50 → 0 ≤ i →
  pat_loop (S n) hash (2 ^ i) (1 + i) = Some (1 + i + zeros n (w / 2 ^ i)).
Proof.
  intros Hlow Hhigh. induction n as [|n IH]; intros i Hn Hi; rewrite pat_step; cbn [zeros].
  - assert (i = 50) as -> by lia. pose proof (land_pow2 50 hash ltac:(lia)) as E. rewrite Hhigh, Z.land_comm in E. destruct (Z.land hash (2 ^ 50) =? 0); [done|]. f_equal.
  - pose proof (land_pow2 i hash Hi) as E. rewrite Hlow, low_bits, Z.land_comm in E by lia. destruct (Z.land hash (2 ^ i) =? 0); simpl in E; rewrite <- E; [|f_equal; lia].
    assert (u64 (Z.shiftl (2 ^ i) 1) = 2 ^ (i + 1)) as ->.
    { rewrite Z.shiftl_mul_pow2 by lia. rewrite <- Z.pow_add_r by lia. apply uwrap_small. split; [apply Z.pow_nonneg; lia|]. apply Z.pow_lt_mono_r; lia. }
    replace (1 + i + 1) with (1 + (i + 1)) by lia. rewrite (IH (i + 1)) by lia. rewrite Z.div_div by (try apply Z.pow_nonzero; lia). rewrite Z.pow_add_r by lia. f_equal. change (2 ^ 1) with 2. lia.
Qed.

Lemma zeros_range n w : 0 ≤ zeros n w ≤ Z.of_nat n.
Proof. revert w. induction n as [|n IH]; intros w; cbn [zeros]; [lia|]. specialize (IH (w / 2)). destruct (Z.odd w); lia. Qed.

Lemma pattern_ok ele : let (i, c) := pattern ele in 0 ≤ Z.of_nat i < HLL_REGISTERS ∧ 1 ≤ c < 64.
Proof.
  unfold pattern. generalize (MurmurHash64A ele 2915580697). intros h. pose proof (zeros_range 50 (h / 2 ^ 14)) as Hz. pose proof (Z.mod_pos_bound h (2 ^ 14) ltac:(done)) as Hm.
  rewrite Z2Nat.id by apply Hm. change HLL_REGISTERS with (2 ^ 14). split; [done|]. revert Hz. generalize (zeros 50 (h / 2 ^ 14)). lia.
Qed.

Lemma hllPatLen_ok ele : let (i, c) := pattern ele in hllPatLen ele = Some (Z.of_nat i, c).
Proof.
  unfold pattern, hllPatLen. generalize (MurmurHash64A ele 2915580697). intros h. cbv zeta. pose proof (Z.mod_pos_bound h (2 ^ 14) ltac:(done)) as Hm. rewrite Z2Nat.id by apply Hm.
  set (hash := Z.lor (Z.shiftr h HLL_P) (Z.shiftl 1 HLL_Q)).
  assert (pat_loop 51 hash (2 ^ 0) (1 + 0) = Some (1 + 0 + zeros 50 (h / 2 ^ 14 / 2 ^ 0))) as E.
  { apply (pat_loop_ok (h / 2 ^ 14) hash); [| |done|done]; unfold hash, HLL_P, HLL_Q.
    - intros j Hj. rewrite Z.lor_spec, Z.shiftl_1_l, Z.pow2_bits_false, orb_false_r, Z.shiftr_div_pow2 by lia. done.
    - rewrite Z.lor_spec, Z.shiftl_1_l, Z.pow2_bits_true by lia. apply orb_true_r. }
  change (2 ^ 0) with 1 in E. change (1 + 0) with 1 in E. rewrite E, Z.div_1_r. cbn [mbind option_bind]. do 2 f_equal.
  change HLL_P_MASK with (Z.ones 14). rewrite Z.land_ones by done. apply swrap_small; [done|]. change (2 ^ 14) with 16384 in *. unfold in_s. change (2 ^ (32 - 1)) with 2147483648. lia.
Qed.

(** ** Registers *)

Lemma full_no_regs : full no_regs.
Proof. unfold no_regs, full. rewrite length_replicate. split; [unfold HLL_REGISTERS; lia|]. apply Forall_replicate. unfold reg_ok. lia. Qed.

Lemma raise_le regs i c : Forall2 Z.le regs (raise regs i c).
Proof.
  unfold raise. assert (Forall2 Z.le regs regs) as Hrefl by (apply Forall_Forall2_diag, Forall_true; lia). destruct (regs !! i) as [r|] eqn:E; [|done].
  destruct (Z.ltb_spec r c); [|done]. rewrite <- (list_insert_id regs i r E) at 1. apply Forall2_insert; [done|lia].
Qed.

Lemma le_antisym (a b : list Z) : Forall2 Z.le a b → Forall2 Z.le b a → a = b.
Proof. induction 1 as [|x y a b Hxy _ IH]; intros Hba; [done|]. inversion Hba; subst. f_equal; [lia|]. by apply IH. Qed.

Lemma adds_le eles : ∀ regs, Forall2 Z.le regs (foldl add_ele regs eles).
Proof.
  induction eles as [|e eles IH]; intros regs; simpl; [apply Forall_Forall2_diag, Forall_true; lia|]. etrans; [|apply IH]. unfold add_ele. destruct (pattern e). apply raise_le.
Qed.

Lemma adds_full eles : ∀ regs, full regs → full (foldl add_ele regs eles).
Proof.
  induction eles as [|e eles IH]; intros regs Hf; simpl; [done|]. apply IH. unfold add_ele. pose proof (pattern_ok e) as Hp. destruct (pattern e) as [i c]. apply raise_full; [done|]. unfold reg_ok. lia.
Qed.

Lemma max_ok M regs : Forall reg_ok M → Forall reg_ok regs → Forall reg_ok (max_regs M regs).
Proof.
  intros HM. revert regs. induction HM as [|x M Hx _ IH]; intros regs Hr; [constructor|]. destruct Hr as [|r regs Hr Hrs]; [constructor|].
  simpl. constructor; [unfold reg_ok in *; lia|by apply IH].
Qed.

Lemma max_full M regs : full M → full regs → full (max_regs M regs).
Proof. intros [Hl HM] [Hl' Hr]. split; [|by apply max_ok]. unfold max_regs. rewrite length_zip_with. lia. Qed.

Lemma max_le_l M : ∀ regs, length M = length regs → Forall2 Z.le M (max_regs M regs).
Proof. induction M as [|x M IH]; intros [|r regs] Hl; simpl in *; try done. constructor; [lia|]. apply IH. lia. Qed.

Lemma max_le_r M : ∀ regs, length M = length regs → Forall2 Z.le regs (max_regs M regs).
Proof. induction M as [|x M IH]; intros [|r regs] Hl; simpl in *; try done. constructor; [lia|]. apply IH. lia. Qed.

Lemma max_of_le regs M : Forall2 Z.le regs M → max_regs regs M = M.
Proof. unfold max_regs. induction 1 as [|x y a b Hxy _ IH]; simpl; [done|]. rewrite IH. f_equal. lia. Qed.

(** ** Operations on one string *)

Section strings.
Context (junk max_bytes : Z).

Lemma hll_cases s regs : hll_rep s regs →
  (encoding s = Some HLL_DENSE ∧ ∃ H, s = H ++ pack regs ∧ hdr_ok H ∧ full regs) ∨
  (encoding s = Some HLL_SPARSE ∧ ∃ H ops, s = H ++ encs ops ∧ hdr_ok H ∧ H !! 4%nat = Some HLL_SPARSE ∧ Forall op_ok ops ∧ expand ops = regs ∧ full regs).
Proof.
  intros (Hf & H & body & -> & Hh & [[He ->]|[He (ops & Hops & Hex & ->)]]); [left|right]; unfold encoding; change 4 with (Z.of_nat 4); rewrite (hdr_byte H _ 4 _ Hh He).
  - split; [done|]. by exists H.
  - split; [done|]. by exists H, ops.
Qed.

Lemma sparse_set_result s regs i c : hll_rep s regs → encoding s = Some HLL_SPARSE → 0 ≤ i < HLL_REGISTERS → 1 ≤ c < 64 →
  ∃ s' r, hllSparseSet junk max_bytes s i c = Some (s', r) ∧ set_result s regs (Z.to_nat i) c s' r.
Proof.
  intros Hs Hen Hi Hc. destruct (hll_cases s regs Hs) as [[He _]|(_ & H & ops & -> & Hh & He & Hops & <- & Hf)]; [by rewrite He in Hen|]. by apply hllSparseSet_ok.
Qed.

(** A register of either representation. *)
Definition set_either (s : list Z) (i c : Z) : option (list Z * Z) :=
  e ← encoding s; if e =? HLL_DENSE then hllDenseSet s i c else if e =? HLL_SPARSE then hllSparseSet junk max_bytes s i c else Some (s, -1).

Lemma set_either_ok s regs i c : hll_rep s regs → 0 ≤ i < HLL_REGISTERS → 1 ≤ c < 64 →
  ∃ s' r, set_either s i c = Some (s', r) ∧ set_result s regs (Z.to_nat i) c s' r.
Proof.
  intros Hs Hi Hc. unfold set_either. destruct (rep_encoding s regs Hs) as (e & He & [-> | ->]); rewrite He; cbn [mbind option_bind].
  - simpl. apply dense_set_result; try done. unfold reg_ok. lia.
  - simpl. by apply sparse_set_result.
Qed.

Lemma hllAdd_ok s regs ele : hll_rep s regs →
  ∃ s' r, hllAdd junk max_bytes s ele = Some (s', r) ∧ hll_rep s' (add_ele regs ele) ∧ if decide (add_ele regs ele = regs) then r = 0 ∧ s' = s else r = 1.
Proof.
  intros Hs. pose proof (hllPatLen_ok ele) as Hp. pose proof (pattern_ok ele) as Hr. unfold add_ele. destruct (pattern ele) as [i c]. destruct Hr as [Hi Hc].
  destruct (set_either_ok s regs (Z.of_nat i) c Hs Hi Hc) as (s' & r & E & Hres). rewrite Nat2Z.id in Hres. exists s', r. split; [|exact Hres].
  unfold hllAdd. rewrite <- E. unfold set_either, hllDenseAdd, hllSparseAdd. rewrite Hp. cbn [mbind option_bind]. rewrite uwrap_small by (split; [lia|change (2 ^ 8) with 256; lia]). done.
Qed.

(** The loop of PFADD: unchanged, or with more updates and other registers. *)
Lemma pfadd_loop_ok eles : ∀ s regs u, hll_rep s regs → 0 ≤ u →
  ∃ s' u', pfadd_loop junk max_bytes s eles u = Some (inl (s', u')) ∧ hll_rep s' (foldl add_ele regs eles) ∧
    if decide (foldl add_ele regs eles = regs) then u' = u ∧ s' = s else u < u'.
Proof.
  induction eles as [|e eles IH]; intros s regs u Hs Hu; cbn [pfadd_loop foldl].
  { exists s, u. by rewrite decide_True. }
  destruct (hllAdd_ok s regs e Hs) as (s1 & r & -> & Hs1 & Hr). cbn [mbind option_bind]. set (regs1 := add_ele regs e) in *.
  assert (r ≠ -1) as Hne by (destruct (decide (regs1 = regs)); lia). rewrite (proj2 (Z.eqb_neq _ _) Hne).
  destruct (IH s1 regs1 (if r =? 1 then u + 1 else u) Hs1) as (s2 & u2 & -> & Hs2 & Hc); [destruct (r =? 1); lia|]. exists s2, u2. split; [done|]. split; [done|].
  pose proof (adds_le eles regs1) as Hle. assert (Forall2 Z.le regs regs1) as Hle0 by (unfold regs1, add_ele; destruct (pattern e); apply raise_le).
  destruct (decide (regs1 = regs)) as [E|E].
  - destruct Hr as [-> ->]. rewrite E in *. simpl in Hc. destruct (decide (foldl add_ele regs eles = regs)); [done|lia].
  - rewrite Hr in Hc. simpl in Hc. rewrite decide_False by (intros E2; rewrite E2 in Hle; by apply E, le_antisym). destruct (decide (foldl add_ele regs1 eles = regs1)); lia.
Qed.

Lemma hllCount_ok s regs : hll_rep s regs → hllCount s = (card ← estimate (histogram regs); Some (card, false)).
Proof.
  intros Hs. unfold hllCount. destruct (hll_cases s regs Hs) as [(-> & H & -> & Hh & Hf)|(-> & H & ops & -> & Hh & He & Hops & Hex & Hf)]; cbn [mbind option_bind].
  - change (HLL_DENSE =? HLL_DENSE) with true. cbv iota zeta. rewrite (hllDenseRegHisto_ok H regs); [done|apply Hh|done].
  - change (HLL_SPARSE =? HLL_DENSE) with false. change (HLL_SPARSE =? HLL_SPARSE) with true. cbv iota zeta. unfold hllSparseRegHisto. rewrite <- app_assoc. destruct Hf as [Hl _].
    replace HLL_HDR_SIZE with (Z.of_nat (length H)) by (by rewrite (proj1 Hh)). rewrite (sparse_histo_ok [0] ops (length (H ++ encs ops)) H (replicate 64 0) 0); try done.
    + cbn [mbind option_bind]. rewrite Hex, Hl. done.
    + rewrite length_app. pose proof (encs_length ops Hops). lia.
    + apply hist_zero.
    + rewrite Hex, Hl. done.
Qed.

Lemma hllMerge_ok s regs M : hll_rep s regs → full M → hllMerge M s = Some (max_regs M regs, true).
Proof.
  intros Hs [HlM HM]. unfold hllMerge. destruct (hll_cases s regs Hs) as [(-> & H & -> & Hh & Hf)|(-> & H & ops & -> & Hh & He & Hops & Hex & Hf)]; cbn [mbind option_bind]; rewrite <- app_assoc.
  - simpl (HLL_DENSE =? HLL_DENSE). cbv iota. pose proof Hf as [Hl _]. pose proof (merge_dense_ok H regs 0 [] (proj1 Hh) Hf ltac:(done) regs (Z.to_nat HLL_REGISTERS) [] M) as E. cbn [app length] in E. change (Z.of_nat 0) with 0 in E. rewrite E; [done|by rewrite take_0|lia|lia].
  - change (HLL_SPARSE =? HLL_DENSE) with false. cbv iota. pose proof Hf as [Hl _].
    pose proof (merge_sparse_ok [0] ops (length (H ++ encs ops)) H [] M) as E. cbn [app length] in E. change (Z.of_nat 0) with 0 in E.
    replace HLL_HDR_SIZE with (Z.of_nat (length H)) by (by rewrite (proj1 Hh)). rewrite E; try done.
    + cbn [mbind option_bind]. rewrite Hex, Z.add_0_l, HlM, Z.eqb_refl. done.
    + rewrite length_app. pose proof (encs_length ops Hops). lia.
    + eapply Forall_impl; [exact HM|]. unfold reg_ok. simpl. lia.
    + rewrite Hex. lia.
    + rewrite Z.add_0_l, HlM. done.
Qed.

(** The histogram of raw registers, eight at a time. *)
Lemma zero_word bytes : Forall reg_ok bytes → le_val bytes = 0 → bytes = replicate (length bytes) 0.
Proof.
  induction 1 as [|b bytes Hb Hbs IH]; intros E; [done|]. cbn [le_val length replicate] in *. assert (0 ≤ le_val bytes) as Hn. { assert (Forall byte_ok bytes) as Hbb by (eapply Forall_impl; [exact Hbs|]; unfold reg_ok, in_u; change (2 ^ 8) with 256; simpl; lia). exact (proj1 (le_val_range bytes Hbb)). }
  unfold reg_ok in Hb. assert (b = 0 ∧ le_val bytes = 0) as [-> E'] by lia. f_equal. by apply IH.
Qed.

Lemma raw_histo_ok words : ∀ regs h n, length regs = (8 * words)%nat → Forall reg_ok regs → hist_ok h n → 0 ≤ n → n + Z.of_nat (length regs) < 2 ^ 31 →
  raw_histo words regs h = Some (histogram_from h regs).
Proof.
  induction words as [|words IH]; intros regs h n Hl Hr Hh Hn0 Hn; cbn [raw_histo].
  { destruct regs; [done|simpl in Hl; lia]. }
  rewrite <- (take_drop 8 regs) in Hr |- * at 1. apply Forall_app in Hr as [H1 H2]. assert (length (take 8 regs) = 8%nat) as Hl8 by (rewrite length_take; lia).
  assert (mread (take 8 regs ++ drop 8 regs) 0 8 = Some (take 8 regs)) as -> by (apply (mread_app [] (take 8 regs)); [done|by rewrite Hl8]). cbn [mbind option_bind].
  assert ((if le_val (take 8 regs) =? 0 then histo_add h 0 8 else histo_all h (take 8 regs)) = Some (histogram_from h (take 8 regs)) ∧ hist_ok (histogram_from h (take 8 regs)) (n + 8)) as [-> Hh'].
  { destruct (histo_all_ok (take 8 regs) h n Hh H1) as [E1 E2]; [rewrite Hl8; lia|]. rewrite Hl8 in E2. split; [|done]. destruct (Z.eqb_spec (le_val (take 8 regs)) 0) as [E|]; [|done].
    rewrite (zero_word _ H1 E), Hl8, bump_run by (destruct Hh as [-> _]; simpl; lia). apply (histo_add_ok h 0 8 n Hh); [unfold reg_ok; lia|lia|lia]. }
  cbn [mbind option_bind]. rewrite (IH _ _ (n + 8)); [|rewrite length_drop; lia|done|done|lia|rewrite length_drop; lia].
  by rewrite <- histogram_app, take_drop.
Qed.

Lemma hllCountRaw_ok M : full M → hllCountRaw M = estimate (histogram M).
Proof.
  intros [Hl HM]. unfold hllCountRaw, hllRawRegHisto. unfold HLL_REGISTERS in Hl. rewrite (raw_histo_ok (Z.to_nat (HLL_REGISTERS / 8)) M _ 0); [done| |done|apply hist_zero|lia|rewrite Hl; done].
  change (HLL_REGISTERS / 8) with 2048. lia.
Qed.
End strings.

(** ** Headers and the cache *)

(** The header of a HyperLogLog can be replaced. *)
Lemma hll_hdr s regs : hll_rep s regs → ∃ H body, s = H ++ body ∧ hdr_ok H ∧ ∀ H', hdr_ok H' → H' !! 4%nat = H !! 4%nat → hll_rep (H' ++ body) regs.
Proof.
  intros (Hf & H & body & -> & Hh & Hc). exists H, body. split_and!; [done|done|]. intros H' Hh' He. split; [done|]. exists H', body. split_and!; [done|done|]. by rewrite He.
Qed.

Lemma valid_cache_at H body b : hdr_ok H → H !! 15%nat = Some b → HLL_VALID_CACHE (H ++ body) = Some (Z.land b 128 =? 0).
Proof. intros Hh Hb. unfold HLL_VALID_CACHE. change 15 with (Z.of_nat 15). rewrite (hdr_byte H body 15 b Hh Hb). done. Qed.

Lemma invalidated s regs : hll_rep s regs → ∃ s', HLL_INVALIDATE_CACHE s = Some s' ∧ hll_rep s' regs ∧ HLL_VALID_CACHE s' = Some false.
Proof.
  intros Hs. destruct (hll_hdr s regs Hs) as (H & body & -> & Hh & Hrep). destruct (invalidate_ok H body Hh) as (-> & Hh' & He). exists (invalidate H ++ body). split_and!; [done|by apply Hrep|].
  destruct (lookup_lt_is_Some_2 H 15) as [b Hb]; [rewrite (proj1 Hh); lia|]. assert (invalidate H !! 15%nat = Some (u8 (Z.lor b 128))) as Hb' by (unfold invalidate; rewrite Hb; apply list_lookup_insert_eq; rewrite (proj1 Hh); lia).
  rewrite (valid_cache_at _ body _ Hh' Hb'). f_equal. apply Z.eqb_neq. intros E. apply (f_equal (λ z, Z.testbit z 7)) in E. rewrite Z.land_spec, Z.bits_0 in E. unfold u8, uwrap in E.
  rewrite Z.mod_pow2_bits_low, Z.lor_spec in E by lia. change (Z.testbit 128 7) with true in E. by rewrite orb_true_r in E.
Qed.

Lemma stored s regs card : hll_rep s regs → 0 ≤ card < 2 ^ 63 → ∃ s', set_le s 8 8 card = Some s' ∧ hll_rep s' regs ∧ HLL_VALID_CACHE s' = Some true ∧ get_le s' 8 8 = Some card.
Proof.
  intros Hs Hc. destruct (hll_hdr s regs Hs) as (H & body & -> & Hh & Hrep). pose proof Hh as (Hl & Hm & Hb). set (C := le_bytes 8 card).
  assert (hdr_ok (take 8 H ++ C)) as Hh'.
  { split_and!; [rewrite length_app, length_take, Hl; done|rewrite take_app_le, take_take by (rewrite length_take; lia); done|]. apply Forall_app. split; [by apply Forall_take|]. apply le_bytes_ok. }
  exists ((take 8 H ++ C) ++ body). unfold set_le, get_le. split_and!.
  - rewrite <- (take_drop 8 H) at 1. rewrite <- !app_assoc. apply mwrite_app; [rewrite length_take, Hl; done|rewrite length_drop, Hl; done].
  - apply Hrep; [done|]. rewrite lookup_app_l by (rewrite length_take; lia). rewrite lookup_take_lt by lia. done.
  - assert ((take 8 H ++ C) !! 15%nat = Some (card / 2 ^ 56)) as Hb'.
    { rewrite lookup_app_r by (rewrite length_take; lia). rewrite length_take, Hl. simpl. rewrite !Z.div_div by lia. change (256 * _) with (2 ^ 56). f_equal. apply Z.mod_small. split; [apply Z.div_pos; lia|]. apply Z.div_lt_upper_bound; lia. }
    rewrite (valid_cache_at _ body _ Hh' Hb'). f_equal. apply Z.eqb_eq. assert (0 ≤ card / 2 ^ 56 < 2 ^ 7) as Hq by (split; [apply Z.div_pos; lia|apply Z.div_lt_upper_bound; lia]).
    change 128 with (2 ^ 7). rewrite <- (Z.mod_small _ _ Hq). apply Z.bits_inj'. intros n Hn. rewrite Z.land_spec, Z.bits_0. destruct (decide (n = 7)) as [-> |]; [by rewrite Z.mod_pow2_bits_high by lia|]. by rewrite Z.pow2_bits_false, andb_false_r by lia.
  - rewrite <- app_assoc. assert (mread (take 8 H ++ C ++ body) 8 (Z.of_nat 8) = Some C) as -> by (apply mread_app; [rewrite length_take, Hl; done|done]). change (Some (le_val C) = Some card). f_equal. unfold C. rewrite le_val_bytes. apply Z.mod_small. change (256 ^ Z.of_nat 8) with (2 ^ 64). lia.
Qed.

Lemma rep_recognised s regs : hll_rep s regs → isHLLObjectOrReply (StrRaw s) = inl s.
Proof.
  intros Hs. unfold isHLLObjectOrReply. destruct (hll_cases s regs Hs) as [(-> & H & -> & Hh & Hf)|(-> & H & ops & -> & Hh & He & Hops & Hex & Hf)]; pose proof Hh as (Hl & Hm & Hb); cbn [default].
  all: rewrite (proj2 (Z.ltb_ge _ _)) by (rewrite length_app, Hl; unfold HLL_HDR_SIZE; lia); rewrite take_app_le by lia; rewrite bool_decide_true by exact Hm; simpl.
  - rewrite length_app, Hl. destruct Hf as [Hl' _]. unfold HLL_REGISTERS in Hl'. rewrite (pack_length (Z.to_nat 4096)) by (apply fours_of; lia). done.
  - done.
Qed.

Lemma created : ∃ s, createHLLObject = Some s ∧ hll_rep s no_regs.
Proof.
  set (H := [72; 89; 76; 76; 1] ++ replicate 11 0). assert (createHLLObject = Some (H ++ encs [OXZero 16384])) as E by (vm_compute; reflexivity). exists (H ++ encs [OXZero 16384]). split; [exact E|].
  split; [apply full_no_regs|]. exists H, (encs [OXZero 16384]). split; [done|]. split.
  - split_and!; [done|done|]. apply Forall_app. split; [|by apply Forall_replicate]. repeat constructor; done.
  - right. split; [done|]. exists [OXZero 16384]. split_and!; [|by rewrite expand_one|done]. constructor; [simpl; lia|constructor].
Qed.

(** ** Commands *)

Section commands.
Context (junk max_bytes : Z).

(** A cached cardinality is the estimate, where that can be converted. *)
Definition cache_ok (s regs : list Z) (cached : bool) : Prop :=
  HLL_VALID_CACHE s = Some cached ∧ (cached = true → get_le s 8 8 = estimate (histogram regs)).

Definition val_ok (o : kstr) (a : aval) : Prop :=
  match a with
  | AHLL regs cached => ∃ s, o = StrRaw s ∧ hll_rep s regs ∧ cache_ok s regs cached
  | AInvalid => isHLLObjectOrReply o = inr wrong_hll
  | AType => o = NotString
  end.

(** What a command finds at a key. *)
Lemma found o a : val_ok o a → match not_hll a with Some e => isHLLObjectOrReply o = inr e | None => ∃ s regs cached, a = AHLL regs cached ∧ o = StrRaw s ∧ hll_rep s regs ∧ cache_ok s regs cached ∧ isHLLObjectOrReply o = inl s end.
Proof.
  destruct a as [regs cached| |]; simpl; [|done|by intros ->]. intros (s & -> & Hs & Hc). exists s, regs, cached. split_and!; try done; [apply Hc..|]. by apply rep_recognised in Hs.
Qed.

(** What the commands that change the registers do in the end. *)
Definition commit (s : bserver) (k o : list Z) (r : reply) : option bserver :=
  o ← HLL_INVALIDATE_CACHE o;
  let s := log (log (set_key s k (StrRaw o)) (SignalModified k)) (NotifyString "pfadd" k) in
  Some (addReply (add_dirty s 1) r).

Lemma commit_changed s D k o regs r : keys_ok val_ok (keys s) D → hll_rep o regs → refines_by val_ok s (pf_changed D k regs r) (commit s k o r).
Proof.
  intros HK Ho. destruct (invalidated o regs Ho) as (o' & E & Ho' & Hv). unfold commit. rewrite E. cbn [mbind option_bind]. settle_server. apply keys_insert; [done|]. by exists o'.
Qed.

Lemma pfadd_ok s D k eles : keys_ok val_ok (keys s) D → refines_by val_ok s (hll_spec (PFADD k eles) D) (pfaddCommand junk max_bytes s k eles).
Proof.
  intros HK. unfold pfaddCommand. cbn [hll_spec]. destruct (keys_cases val_ok (keys s) D k HK) as [[-> ->]|(o & a & -> & E & Hv)].
  - destruct created as (o & -> & Ho). cbn [mbind option_bind]. destruct (pfadd_loop_ok junk max_bytes eles o no_regs 1 Ho ltac:(lia)) as (o' & u & -> & Ho' & Hu). cbn [mbind option_bind].
    assert (0 < u) as Hu1 by (destruct (decide (foldl add_ele no_regs eles = no_regs)); lia). rewrite (proj2 (Z.eqb_neq _ _)) by lia. by apply commit_changed.
  - rewrite E. apply found in Hv as Hf. destruct a as [regs cached| |]; simpl in Hf; cbn [mbind option_bind]; [|rewrite Hf; by apply answer_ok..].
    destruct Hf as (v & regs' & cached' & [= <- <-] & -> & Hs & Hc & ->). destruct (pfadd_loop_ok junk max_bytes eles v regs 0 Hs ltac:(lia)) as (v' & u & -> & Hs' & Hu). cbn [mbind option_bind].
    destruct (decide (foldl add_ele regs eles = regs)) as [Er|Er].
    + destruct Hu as [-> ->]. simpl. settle_server. eapply keys_same; [done|done|]. by exists v.
    + rewrite (proj2 (Z.eqb_neq _ _)) by lia. by apply commit_changed.
Qed.

(** The keys of PFCOUNT and PFMERGE. *)
Lemma merge_keys_ok s D ks : keys_ok val_ok (keys s) D → ∀ M d, full M →
  match merged D ks M with
  | inl M' => (∃ d', merge_keys s ks M d = Some (inl (M', d'))) ∧ full M' ∧ Forall2 Z.le M M'
  | inr e => merge_keys s ks M d = Some (inr e)
  end.
Proof.
  intros HK. induction ks as [|k ks IH]; intros M d HM; cbn [merged merge_keys].
  { split; [by exists d|]. split; [done|]. apply Forall_Forall2_diag, Forall_true. lia. }
  destruct (keys_cases val_ok (keys s) D k HK) as [[-> ->]|(o & a & -> & -> & Hv)]; [by apply IH|].
  apply found in Hv. destruct a as [regs cached| |]; simpl in Hv; [|by rewrite Hv..]. destruct Hv as (v & regs' & cached' & [= <- <-] & -> & Hs & Hc & ->).
  destruct (rep_encoding v regs Hs) as (e & -> & _). cbn [mbind option_bind]. rewrite (hllMerge_ok v regs M Hs HM). cbn [mbind option_bind]. pose proof Hs as [Hf _].
  specialize (IH (max_regs M regs) (d || (e =? HLL_DENSE)) (max_full M regs HM Hf)). destruct (merged D ks (max_regs M regs)) as [M'|]; [|done]. destruct IH as (Hd & HM' & Hle). split; [done|]. split; [done|].
  etrans; [|exact Hle]. apply max_le_l. destruct HM as [? _], Hf as [? _]. lia.
Qed.

(** An estimate that can be converted is replied as it is. *)
Lemma card_reply regs : is_Some (estimate (histogram regs)) → estimate (histogram regs) = Some (cardinality regs) ∧ 0 ≤ cardinality regs < 2 ^ 63 ∧ s64 (cardinality regs) = cardinality regs.
Proof.
  intros [v E]. unfold cardinality. rewrite E. change (default 0 (Some v)) with v. pose proof (estimate_range _ _ E) as Hv. split; [done|]. split; [done|]. apply swrap_small; [lia|]. unfold in_s. change (2 ^ (64 - 1)) with (2 ^ 63). lia.
Qed.

Lemma pfcount_ok s D ks : keys_ok val_ok (keys s) D → hll_fits (PFCOUNT ks) D = true → refines_by val_ok s (hll_spec (PFCOUNT ks) D) (pfcountCommand s ks).
Proof.
  intros HK Hfit. assert (∀ ks, match merged D ks no_regs with inl M => bool_decide (is_Some (estimate (histogram M))) | inr _ => true end = true →
    refines_by val_ok s (match merged D ks no_regs with inl M => answer D (RLong (cardinality M)) | inr e => answer D e end)
    (r ← merge_keys s ks (replicate (Z.to_nat HLL_REGISTERS) 0) false; match r with inr e => Some (addReply s e) | inl (registers, _) => card ← hllCountRaw registers; Some (addReply s (RLong (s64 card))) end)) as Hmany.
  { clear ks Hfit. intros ks Hfit. pose proof (merge_keys_ok s D ks HK no_regs false full_no_regs) as Hm. unfold no_regs in *. destruct (merged D ks _) as [M|e]; [|rewrite Hm; by apply answer_ok].
    destruct Hm as ([d ->] & HM & _). cbn [mbind option_bind]. rewrite (hllCountRaw_ok M HM). apply bool_decide_eq_true in Hfit. destruct (card_reply M Hfit) as (-> & _ & Er). cbn [mbind option_bind]. rewrite Er. by apply answer_ok. }
  destruct ks as [|k [|k' ks]]; [by apply (Hmany [])| |by apply (Hmany (k :: k' :: ks))]. clear Hmany. cbn [hll_spec hll_fits pfcountCommand] in *.
  destruct (keys_cases val_ok (keys s) D k HK) as [[-> ->]|(o & a & -> & E & Hv)]; [by apply answer_ok|]. rewrite E in *. apply found in Hv as Hf. destruct a as [regs cached| |]; simpl in Hf; [|rewrite Hf; by apply answer_ok..].
  destruct Hf as (v & regs' & cached' & [= <- <-] & -> & Hs & (Hval & Hget) & ->). rewrite Hval. cbn [mbind option_bind]. apply bool_decide_eq_true in Hfit. destruct (card_reply regs Hfit) as (Ee & Hr & Er). destruct cached.
  - rewrite Hget, Ee by done. cbn [mbind option_bind]. rewrite Er. settle_server. eapply keys_same; [done|done|]. by exists v.
  - rewrite (hllCount_ok v regs Hs), Ee. cbn [mbind option_bind]. destruct (stored v regs _ Hs Hr) as (v' & -> & Hs' & Hval' & Hget'). cbn [mbind option_bind]. rewrite Er.
    settle_server. apply keys_insert; [done|]. exists v'. split; [done|]. split; [done|]. split; [done|]. intros _. by rewrite Ee.
Qed.

(** A register in the middle. *)
Lemma raise_middle P r R c : raise (P ++ r :: R) (length P) c = P ++ Z.max r c :: R.
Proof.
  unfold raise. rewrite list_lookup_middle by done. destruct (Z.ltb_spec r c).
  - rewrite insert_app_r_alt, Nat.sub_diag by lia. simpl. do 2 f_equal. lia.
  - do 2 f_equal. lia.
Qed.

Lemma write_registers_ok Ms : ∀ s P R, hll_rep s (P ++ R) → length R = length Ms → Forall reg_ok Ms →
  ∃ s', write_registers junk max_bytes Ms (Z.of_nat (length P)) s = Some s' ∧ hll_rep s' (P ++ max_regs R Ms).
Proof.
  induction Ms as [|v Ms IH]; intros s P R Hs Hl HMs; destruct R as [|r R]; try done; cbn [write_registers]; [by exists s|]. apply Forall_cons in HMs as [Hv HMs].
  assert (∃ s1, (if v =? 0 then Some s else e ← encoding s; if e =? HLL_DENSE then '(s, _) ← hllDenseSet s (Z.of_nat (length P)) v; Some s
    else if e =? HLL_SPARSE then '(s, _) ← hllSparseSet junk max_bytes s (Z.of_nat (length P)) v; Some s else Some s) = Some s1 ∧ hll_rep s1 ((P ++ [Z.max r v]) ++ R)) as (s1 & -> & Hs1).
  { rewrite <- app_assoc. cbn [app]. pose proof Hs as [Hf _]. destruct (Z.eqb_spec v 0) as [-> |].
    - exists s. split; [done|]. destruct Hf as [_ Hf]. apply Forall_app in Hf as [_ Hf]. apply Forall_cons in Hf as [Hr _]. unfold reg_ok in Hr. by rewrite Z.max_l by lia.
    - destruct (set_either_ok junk max_bytes s (P ++ r :: R) (Z.of_nat (length P)) v Hs) as (s1 & rc & E & Hs1 & _); [destruct Hf as [Hf _]; rewrite length_app in Hf; simpl in Hf; lia|unfold reg_ok in Hv; lia|].
      rewrite Nat2Z.id, raise_middle in Hs1. exists s1. split; [|done]. unfold set_either in E. destruct (encoding s) as [e|]; [|done]. cbn [mbind option_bind] in *. destruct (e =? HLL_DENSE); [by rewrite E|]. destruct (e =? HLL_SPARSE); [by rewrite E|]. by injection E as <-. }
  cbn [mbind option_bind]. destruct (IH s1 (P ++ [Z.max r v]) R Hs1 ltac:(simpl in Hl; lia) HMs) as (s2 & E & Hs2). exists s2.
  replace (Z.of_nat (length P) + 1) with (Z.of_nat (length (P ++ [Z.max r v]))) by (rewrite length_app; simpl; lia). split; [done|]. by rewrite <- app_assoc in Hs2.
Qed.

Lemma no_regs_le M : full M → Forall2 Z.le no_regs M.
Proof.
  intros [Hl HM]. unfold no_regs. rewrite <- Hl, Nat2Z.id. clear Hl. induction HM as [|x M Hx _ IH]; simpl; constructor; [unfold reg_ok in Hx; lia|exact IH].
Qed.

Lemma pfmerge_ok s D k ks : keys_ok val_ok (keys s) D → refines_by val_ok s (hll_spec (PFMERGE k ks) D) (pfmergeCommand junk max_bytes s k ks).
Proof.
  intros HK. unfold pfmergeCommand. cbn [hll_spec]. change (replicate (Z.to_nat HLL_REGISTERS) 0) with no_regs. pose proof (merge_keys_ok s D (k :: ks) HK no_regs false full_no_regs) as Hm.
  destruct (merged D (k :: ks) no_regs) as [M|e] eqn:EM; [|rewrite Hm; by apply answer_ok]. destruct Hm as ([d ->] & HM & _). cbn [mbind option_bind].
  assert (∃ o regs, match keys s !! k with None => createHLLObject | Some (StrRaw v) => Some v | Some _ => None end = Some o ∧ hll_rep o regs ∧ Forall2 Z.le regs M) as (o & regs & -> & Ho & Hle).
  { cbn [merged] in EM. destruct (keys_cases val_ok (keys s) D k HK) as [[-> E]|(o & a & -> & E & Hv)]; rewrite E in EM.
    - destruct created as (o & Ec & Ho). exists o, no_regs. split_and!; [done|done|]. by apply no_regs_le.
    - apply found in Hv. destruct a as [regs cached| |]; [|done|done]. simpl in Hv. destruct Hv as (v & regs' & cached' & [= <- <-] & -> & Hs & _). exists v, regs. split_and!; [done|done|]. pose proof Hs as [Hf _].
      pose proof (merge_keys_ok s D ks HK (max_regs no_regs regs) false (max_full _ _ full_no_regs Hf)) as Hm. rewrite EM in Hm. destruct Hm as (_ & _ & Hle). etrans; [|exact Hle]. apply max_le_r.
      destruct full_no_regs as [? _], Hf as [? _]. lia. }
  cbn [mbind option_bind]. assert (∃ o1, (if d then hllSparseToDense o else Some (Some o)) = Some (Some o1) ∧ hll_rep o1 regs) as (o1 & -> & Ho1).
  { destruct d; [|by exists o]. destruct (hllSparseToDense_ok o regs Ho) as (o1 & E & Ho1 & _). by exists o1. }
  cbn [mbind option_bind]. destruct (write_registers_ok M o1 [] regs Ho1) as (o2 & E & Ho2); [by eapply Forall2_length|apply HM|]. cbn [length app] in E, Ho2. change (Z.of_nat 0) with 0 in E. rewrite E. cbn [mbind option_bind].
  rewrite (max_of_le regs M Hle) in Ho2. by apply commit_changed.
Qed.

Definition hll_exec (c : hllcommand) (s : bserver) : option bserver :=
  match c with
  | PFADD k eles => pfaddCommand junk max_bytes s k eles
  | PFCOUNT ks => pfcountCommand s ks
  | PFMERGE k ks => pfmergeCommand junk max_bytes s k ks
  end.

Lemma hll_exec_ok c s D : keys_ok val_ok (keys s) D → hll_fits c D = true → refines_by val_ok s (hll_spec c D) (hll_exec c s).
Proof. intros HK Hfit. destruct c; [by apply pfadd_ok|by apply pfcount_ok|by apply pfmerge_ok]. Qed.
End commands.

(** The registers with one value. *)
Lemma histogram_nth regs j : full regs → 0 ≤ nth j (histogram regs) 0 ≤ 16384.
Proof.
  intros [Hl Hr]. change HLL_REGISTERS with 16384 in Hl. destruct (histo_all_ok regs _ 0 hist_zero Hr ltac:(rewrite Hl; done)) as [_ [_ Hh]]. rewrite Hl in Hh. change (histogram_from (replicate 64 0) regs) with (histogram regs) in Hh.
  destruct (nth_in_or_default j (histogram regs) 0) as [Hin| ->]; [|lia]. rewrite Forall_forall in Hh. apply Hh. by apply list_elem_of_In.
Qed.

(** Registers that are all the same: the harmonic mean is that value, and the
    estimate is alpha * m * 2^v for the double alpha, rounded to the nearest
    integer, as long as it is less than 2^63. *)
Definition uniform_estimate (v : Z) : option Z :=
  if v =? 0 then Some 0 else if v <=? 49 then Some ((6497320848556798 * 2 ^ (v + 15) + 2 ^ 53) / 2 ^ 54) else None.

Definition is_estimate (h : list Z) (r : option Z) : bool :=
  match estimate h, r with Some a, Some b => a =? b | None, None => true | _, _ => false end.

Lemma estimates_checked (h : Z → list Z) (r : Z → option Z) n v : 0 ≤ v < n →
  forallb (λ v, is_estimate (h v) (r v)) (seqZ 0 n) = true → estimate (h v) = r v.
Proof.
  intros Hv HF. rewrite forallb_forall in HF. specialize (HF v). unfold is_estimate in HF.
  assert (In v (seqZ 0 n)) as Hin by (apply list_elem_of_In, elem_of_seqZ; lia). specialize (HF Hin).
  destruct (estimate (h v)), (r v); try done. apply Z.eqb_eq in HF. by subst.
Qed.

Lemma estimate_uniform v : 0 ≤ v ≤ HLL_REGISTER_MAX → estimate (histogram (replicate (Z.to_nat HLL_REGISTERS) v)) = uniform_estimate v.
Proof.
  intros Hv. change HLL_REGISTER_MAX with 63 in Hv. unfold histogram. rewrite bump_run, Z2Nat.id by (rewrite ?length_replicate; (done || lia)).
  apply (estimates_checked (λ v, bump (replicate 64 0) v HLL_REGISTERS) uniform_estimate 64); [lia|]. vm_compute. reflexivity.
Qed.

(** Up to 127 registers at 1 are as many elements. *)
Definition few (n : Z) : list Z := replicate (Z.to_nat n) 1 ++ replicate (Z.to_nat (HLL_REGISTERS - n)) 0.

Lemma estimate_few_exact n : 0 ≤ n ≤ 127 → estimate (histogram (few n)) = Some n.
Proof.
  intros Hn. assert (n ≤ HLL_REGISTERS) as Hr by (change HLL_REGISTERS with 16384; lia).
  unfold histogram, few. rewrite histogram_app, (bump_run (replicate 64 0)), bump_run by (unfold bump; rewrite ?length_alter, ?length_replicate; lia).
  rewrite !Z2Nat.id by lia.
  apply (estimates_checked (λ n, bump (bump (replicate 64 0) 1 n) 0 (HLL_REGISTERS - n)) Some 128); [lia|]. vm_compute. reflexivity.
Qed.

(** C36. A HyperLogLog behaves like 16384 registers: any sequence of PFADD,
    PFCOUNT and PFMERGE, on missing keys, strings that are no HyperLogLog, other
    types and HyperLogLogs of both representations, whatever the bound of sparse
    strings and the contents of fresh memory, never accesses memory out of
    bounds, raises exactly the registers of the added elements, merges by
    maximum, replies whether a register changed and the estimate from the
    histogram of the registers, computed in doubles, and sends the specified
    errors, events and changes. Splits, merges of opcodes, promotion to the
    dense representation and the cached cardinality are not visible but for the
    change counted when the cache is filled. The loops of the estimate end for
    all registers; the estimate is exact for up to 127 registers at 1 and the
    others at 0, and for registers that are all the same it is the integer nearest
    to alpha * 16384 * 2^v. Excluded is only a PFCOUNT of registers whose estimate
    [llroundl] cannot convert, 2^63 or more or infinite, for instance when all
    registers have the same value and this is 50 or more ([uniform_estimate]). *)
Theorem hll_commands_refine junk max_bytes cs s D : keys_ok val_ok (keys s) D → runs_fit hll_spec hll_fits cs D = true →
  refines_by val_ok s (run_specs hll_spec cs D) (execs (hll_exec junk max_bytes) cs s) ∧
  (∀ regs, full regs → ∃ q, raw_estimate (histogram regs) = Some q ∧ estimate (histogram regs) = (v ← llroundl q; to_uint64 v)) ∧
  (∀ n, 0 ≤ n ≤ 127 → estimate (histogram (few n)) = Some n) ∧
  (∀ v, 0 ≤ v ≤ HLL_REGISTER_MAX → estimate (histogram (replicate (Z.to_nat HLL_REGISTERS) v)) = uniform_estimate v).
Proof.
  intros HK Hfit. split; [|split; [|split; [exact estimate_few_exact|exact estimate_uniform]]].
  - apply (runs_refine val_ok hll_spec hll_fits); [|done..]. intros c s' D' HK' Hf. by apply hll_exec_ok.
  - intros regs Hf. apply estimate_ends; by apply histogram_nth.
Qed.

Definition hll_example : list hllcommand :=
  [PFADD [107] [[97]; [98]; [97]]; PFADD [107] [[98]]; PFADD [109] []; PFCOUNT [[107]]; PFCOUNT [[107]]; PFMERGE [109] [[107]]; PFADD [110] [[99]]; PFCOUNT [[107]; [109]; [110]]].

Lemma hll_commands_refine_witness : runs_fit hll_spec hll_fits hll_example ∅ = true ∧
  (refines_by val_ok (Server ∅ 0 [] []) (run_specs hll_spec hll_example ∅) (execs (hll_exec 0 3000) hll_example (Server ∅ 0 [] [])) ∧
   (∀ regs, full regs → ∃ q, raw_estimate (histogram regs) = Some q ∧ estimate (histogram regs) = (v ← llroundl q; to_uint64 v)) ∧
   (∀ n, 0 ≤ n ≤ 127 → estimate (histogram (few n)) = Some n) ∧
   (∀ v, 0 ≤ v ≤ HLL_REGISTER_MAX → estimate (histogram (replicate (Z.to_nat HLL_REGISTERS) v)) = uniform_estimate v)).
Proof.
  assert (runs_fit hll_spec hll_fits hll_example ∅ = true) as Hfit by (vm_compute; reflexivity). split; [exact Hfit|].
  apply (hll_commands_refine 0 3000 hll_example (Server ∅ 0 [] []) ∅); [|exact Hfit]. intros k. rewrite !lookup_empty. constructor.
Defined.

(** Two elements, and three in the union. *)
Example hll_replies : (replies <$> execs (hll_exec 0 3000) hll_example (Server ∅ 0 [] [])) = Some [RLong 1; RLong 0; RLong 1; RLong 2; RLong 2; ROk; RLong 1; RLong 3].
Proof. vm_compute. reflexivity. Qed.

(** On a string that is too short for its register (here it covers 1 of them)
    [hllSparseSet] takes the terminator for an opcode: it reports an update
    instead of the error -1, and PFCOUNT finds the string corrupted. *)
Example sparse_set_short :
  let s := [72; 89; 76; 76; 1] ++ replicate 11 0 ++ [0] in
  hllSparseSet 0 3000 s 5 1 = Some (<[15%nat := 128]> s, 1) ∧ snd <$> hllCount (<[15%nat := 128]> s) = Some true.
Proof. vm_compute. split; reflexivity. Qed.
