(* ===== verification/Crc.v ===== *)
(** * crc64.c, crc16.c: checksums, hash slots and the payload of DUMP

    The checksums by table are the remainders of polynomials over GF(2): a
    polynomial is a number whose bits are its coefficients. A checksum finds
    every change of consecutive bytes that are not more than its width, and the
    payload of DUMP (cluster.c) is protected that way. [keyHashSlot] hashes the
    part of a key between braces. *)

From S2P Require Import Prelude Ziplist Bitops.

Definition crc64_tab : list Z := [
  0x0000000000000000; 0x7ad870c830358979; 0xf5b0e190606b12f2; 0x8f689158505e9b8b;
  0xc038e5739841b68f; 0xbae095bba8743ff6; 0x358804e3f82aa47d; 0x4f50742bc81f2d04;
  0xab28ecb46814fe75; 0xd1f09c7c5821770c; 0x5e980d24087fec87; 0x24407dec384a65fe;
  0x6b1009c7f05548fa; 0x11c8790fc060c183; 0x9ea0e857903e5a08; 0xe478989fa00bd371;
  0x7d08ff3b88be6f81; 0x07d08ff3b88be6f8; 0x88b81eabe8d57d73; 0xf2606e63d8e0f40a;
  0xbd301a4810ffd90e; 0xc7e86a8020ca5077; 0x4880fbd87094cbfc; 0x32588b1040a14285;
  0xd620138fe0aa91f4; 0xacf86347d09f188d; 0x2390f21f80c18306; 0x594882d7b0f40a7f;
  0x1618f6fc78eb277b; 0x6cc0863448deae02; 0xe3a8176c18803589; 0x997067a428b5bcf0;
  0xfa11fe77117cdf02; 0x80c98ebf2149567b; 0x0fa11fe77117cdf0; 0x75796f2f41224489;
  0x3a291b04893d698d; 0x40f16bccb908e0f4; 0xcf99fa94e9567b7f; 0xb5418a5cd963f206;
  0x513912c379682177; 0x2be1620b495da80e; 0xa489f35319033385; 0xde51839b2936bafc;
  0x9101f7b0e12997f8; 0xebd98778d11c1e81; 0x64b116208142850a; 0x1e6966e8b1770c73;
  0x8719014c99c2b083; 0xfdc17184a9f739fa; 0x72a9e0dcf9a9a271; 0x08719014c99c2b08;
  0x4721e43f0183060c; 0x3df994f731b68f75; 0xb29105af61e814fe; 0xc849756751dd9d87;
  0x2c31edf8f1d64ef6; 0x56e99d30c1e3c78f; 0xd9810c6891bd5c04; 0xa3597ca0a188d57d;
  0xec09088b6997f879; 0x96d1784359a27100; 0x19b9e91b09fcea8b; 0x636199d339c963f2;
  0xdf7adabd7a6e2d6f; 0xa5a2aa754a5ba416; 0x2aca3b2d1a053f9d; 0x50124be52a30b6e4;
  0x1f423fcee22f9be0; 0x659a4f06d21a1299; 0xeaf2de5e82448912; 0x902aae96b271006b;
  0x74523609127ad31a; 0x0e8a46c1224f5a63; 0x81e2d7997211c1e8; 0xfb3aa75142244891;
  0xb46ad37a8a3b6595; 0xceb2a3b2ba0eecec; 0x41da32eaea507767; 0x3b024222da65fe1e;
  0xa2722586f2d042ee; 0xd8aa554ec2e5cb97; 0x57c2c41692bb501c; 0x2d1ab4dea28ed965;
  0x624ac0f56a91f461; 0x1892b03d5aa47d18; 0x97fa21650afae693; 0xed2251ad3acf6fea;
  0x095ac9329ac4bc9b; 0x7382b9faaaf135e2; 0xfcea28a2faafae69; 0x8632586aca9a2710;
  0xc9622c4102850a14; 0xb3ba5c8932b0836d; 0x3cd2cdd162ee18e6; 0x460abd1952db919f;
  0x256b24ca6b12f26d; 0x5fb354025b277b14; 0xd0dbc55a0b79e09f; 0xaa03b5923b4c69e6;
  0xe553c1b9f35344e2; 0x9f8bb171c366cd9b; 0x10e3202993385610; 0x6a3b50e1a30ddf69;
  0x8e43c87e03060c18; 0xf49bb8b633338561; 0x7bf329ee636d1eea; 0x012b592653589793;
  0x4e7b2d0d9b47ba97; 0x34a35dc5ab7233ee; 0xbbcbcc9dfb2ca865; 0xc113bc55cb19211c;
  0x5863dbf1e3ac9dec; 0x22bbab39d3991495; 0xadd33a6183c78f1e; 0xd70b4aa9b3f20667;
  0x985b3e827bed2b63; 0xe2834e4a4bd8a21a; 0x6debdf121b863991; 0x1733afda2bb3b0e8;
  0xf34b37458bb86399; 0x8993478dbb8deae0; 0x06fbd6d5ebd3716b; 0x7c23a61ddbe6f812;
  0x3373d23613f9d516; 0x49aba2fe23cc5c6f; 0xc6c333a67392c7e4; 0xbc1b436e43a74e9d;
  0x95ac9329ac4bc9b5; 0xef74e3e19c7e40cc; 0x601c72b9cc20db47; 0x1ac40271fc15523e;
  0x5594765a340a7f3a; 0x2f4c0692043ff643; 0xa02497ca54616dc8; 0xdafce7026454e4b1;
  0x3e847f9dc45f37c0; 0x445c0f55f46abeb9; 0xcb349e0da4342532; 0xb1eceec59401ac4b;
  0xfebc9aee5c1e814f; 0x8464ea266c2b0836; 0x0b0c7b7e3c7593bd; 0x71d40bb60c401ac4;
  0xe8a46c1224f5a634; 0x927c1cda14c02f4d; 0x1d148d82449eb4c6; 0x67ccfd4a74ab3dbf;
  0x289c8961bcb410bb; 0x5244f9a98c8199c2; 0xdd2c68f1dcdf0249; 0xa7f41839ecea8b30;
  0x438c80a64ce15841; 0x3954f06e7cd4d138; 0xb63c61362c8a4ab3; 0xcce411fe1cbfc3ca;
  0x83b465d5d4a0eece; 0xf96c151de49567b7; 0x76048445b4cbfc3c; 0x0cdcf48d84fe7545;
  0x6fbd6d5ebd3716b7; 0x15651d968d029fce; 0x9a0d8ccedd5c0445; 0xe0d5fc06ed698d3c;
  0xaf85882d2576a038; 0xd55df8e515432941; 0x5a3569bd451db2ca; 0x20ed197575283bb3;
  0xc49581ead523e8c2; 0xbe4df122e51661bb; 0x3125607ab548fa30; 0x4bfd10b2857d7349;
  0x04ad64994d625e4d; 0x7e7514517d57d734; 0xf11d85092d094cbf; 0x8bc5f5c11d3cc5c6;
  0x12b5926535897936; 0x686de2ad05bcf04f; 0xe70573f555e26bc4; 0x9ddd033d65d7e2bd;
  0xd28d7716adc8cfb9; 0xa85507de9dfd46c0; 0x273d9686cda3dd4b; 0x5de5e64efd965432;
  0xb99d7ed15d9d8743; 0xc3450e196da80e3a; 0x4c2d9f413df695b1; 0x36f5ef890dc31cc8;
  0x79a59ba2c5dc31cc; 0x037deb6af5e9b8b5; 0x8c157a32a5b7233e; 0xf6cd0afa9582aa47;
  0x4ad64994d625e4da; 0x300e395ce6106da3; 0xbf66a804b64ef628; 0xc5bed8cc867b7f51;
  0x8aeeace74e645255; 0xf036dc2f7e51db2c; 0x7f5e4d772e0f40a7; 0x05863dbf1e3ac9de;
  0xe1fea520be311aaf; 0x9b26d5e88e0493d6; 0x144e44b0de5a085d; 0x6e963478ee6f8124;
  0x21c640532670ac20; 0x5b1e309b16452559; 0xd476a1c3461bbed2; 0xaeaed10b762e37ab;
  0x37deb6af5e9b8b5b; 0x4d06c6676eae0222; 0xc26e573f3ef099a9; 0xb8b627f70ec510d0;
  0xf7e653dcc6da3dd4; 0x8d3e2314f6efb4ad; 0x0256b24ca6b12f26; 0x788ec2849684a65f;
  0x9cf65a1b368f752e; 0xe62e2ad306bafc57; 0x6946bb8b56e467dc; 0x139ecb4366d1eea5;
  0x5ccebf68aecec3a1; 0x2616cfa09efb4ad8; 0xa97e5ef8cea5d153; 0xd3a62e30fe90582a;
  0xb0c7b7e3c7593bd8; 0xca1fc72bf76cb2a1; 0x45775673a732292a; 0x3faf26bb9707a053;
  0x70ff52905f188d57; 0x0a2722586f2d042e; 0x854fb3003f739fa5; 0xff97c3c80f4616dc;
  0x1bef5b57af4dc5ad; 0x61372b9f9f784cd4; 0xee5fbac7cf26d75f; 0x9487ca0fff135e26;
  0xdbd7be24370c7322; 0xa10fceec0739fa5b; 0x2e675fb4576761d0; 0x54bf2f7c6752e8a9;
  0xcdcf48d84fe75459; 0xb71738107fd2dd20; 0x387fa9482f8c46ab; 0x42a7d9801fb9cfd2;
  0x0df7adabd7a6e2d6; 0x772fdd63e7936baf; 0xf8474c3bb7cdf024; 0x829f3cf387f8795d;
  0x66e7a46c27f3aa2c; 0x1c3fd4a417c62355; 0x935745fc4798b8de; 0xe98f353477ad31a7;
  0xa6df411fbfb21ca3; 0xdc0731d78f8795da; 0x536fa08fdfd90e51; 0x29b7d047efec8728].

(** [None] is an access behind the end of the table. *)
Definition crc64_byte (crc byte : Z) : option Z :=
  t ← crc64_tab !! Z.to_nat (Z.lxor (u8 crc) byte); Some (Z.lxor t (Z.shiftr crc 8)).

Fixpoint crc64 (crc : Z) (s : list Z) : option Z :=
  match s with [] => Some crc | byte :: s => crc ← crc64_byte crc byte; crc64 crc s end.

Definition crc16tab : list Z := [
  0x0000; 0x1021; 0x2042; 0x3063; 0x4084; 0x50a5; 0x60c6; 0x70e7;
  0x8108; 0x9129; 0xa14a; 0xb16b; 0xc18c; 0xd1ad; 0xe1ce; 0xf1ef;
  0x1231; 0x0210; 0x3273; 0x2252; 0x52b5; 0x4294; 0x72f7; 0x62d6;
  0x9339; 0x8318; 0xb37b; 0xa35a; 0xd3bd; 0xc39c; 0xf3ff; 0xe3de;
  0x2462; 0x3443; 0x0420; 0x1401; 0x64e6; 0x74c7; 0x44a4; 0x5485;
  0xa56a; 0xb54b; 0x8528; 0x9509; 0xe5ee; 0xf5cf; 0xc5ac; 0xd58d;
  0x3653; 0x2672; 0x1611; 0x0630; 0x76d7; 0x66f6; 0x5695; 0x46b4;
  0xb75b; 0xa77a; 0x9719; 0x8738; 0xf7df; 0xe7fe; 0xd79d; 0xc7bc;
  0x48c4; 0x58e5; 0x6886; 0x78a7; 0x0840; 0x1861; 0x2802; 0x3823;
  0xc9cc; 0xd9ed; 0xe98e; 0xf9af; 0x8948; 0x9969; 0xa90a; 0xb92b;
  0x5af5; 0x4ad4; 0x7ab7; 0x6a96; 0x1a71; 0x0a50; 0x3a33; 0x2a12;
  0xdbfd; 0xcbdc; 0xfbbf; 0xeb9e; 0x9b79; 0x8b58; 0xbb3b; 0xab1a;
  0x6ca6; 0x7c87; 0x4ce4; 0x5cc5; 0x2c22; 0x3c03; 0x0c60; 0x1c41;
  0xedae; 0xfd8f; 0xcdec; 0xddcd; 0xad2a; 0xbd0b; 0x8d68; 0x9d49;
  0x7e97; 0x6eb6; 0x5ed5; 0x4ef4; 0x3e13; 0x2e32; 0x1e51; 0x0e70;
  0xff9f; 0xefbe; 0xdfdd; 0xcffc; 0xbf1b; 0xaf3a; 0x9f59; 0x8f78;
  0x9188; 0x81a9; 0xb1ca; 0xa1eb; 0xd10c; 0xc12d; 0xf14e; 0xe16f;
  0x1080; 0x00a1; 0x30c2; 0x20e3; 0x5004; 0x4025; 0x7046; 0x6067;
  0x83b9; 0x9398; 0xa3fb; 0xb3da; 0xc33d; 0xd31c; 0xe37f; 0xf35e;
  0x02b1; 0x1290; 0x22f3; 0x32d2; 0x4235; 0x5214; 0x6277; 0x7256;
  0xb5ea; 0xa5cb; 0x95a8; 0x8589; 0xf56e; 0xe54f; 0xd52c; 0xc50d;
  0x34e2; 0x24c3; 0x14a0; 0x0481; 0x7466; 0x6447; 0x5424; 0x4405;
  0xa7db; 0xb7fa; 0x8799; 0x97b8; 0xe75f; 0xf77e; 0xc71d; 0xd73c;
  0x26d3; 0x36f2; 0x0691; 0x16b0; 0x6657; 0x7676; 0x4615; 0x5634;
  0xd94c; 0xc96d; 0xf90e; 0xe92f; 0x99c8; 0x89e9; 0xb98a; 0xa9ab;
  0x5844; 0x4865; 0x7806; 0x6827; 0x18c0; 0x08e1; 0x3882; 0x28a3;
  0xcb7d; 0xdb5c; 0xeb3f; 0xfb1e; 0x8bf9; 0x9bd8; 0xabbb; 0xbb9a;
  0x4a75; 0x5a54; 0x6a37; 0x7a16; 0x0af1; 0x1ad0; 0x2ab3; 0x3a92;
  0xfd2e; 0xed0f; 0xdd6c; 0xcd4d; 0xbdaa; 0xad8b; 0x9de8; 0x8dc9;
  0x7c26; 0x6c07; 0x5c64; 0x4c45; 0x3ca2; 0x2c83; 0x1ce0; 0x0cc1;
  0xef1f; 0xff3e; 0xcf5d; 0xdf7c; 0xaf9b; 0xbfba; 0x8fd9; 0x9ff8;
  0x6e17; 0x7e36; 0x4e55; 0x5e74; 0x2e93; 0x3eb2; 0x0ed1; 0x1ef0].

Definition crc16_byte (crc byte : Z) : option Z :=
  t ← crc16tab !! Z.to_nat (Z.land (Z.lxor (Z.shiftr crc 8) byte) 255); Some (u16 (Z.lxor (Z.shiftl crc 8) t)).

Fixpoint crc16_loop (crc : Z) (buf : list Z) : option Z :=
  match buf with [] => Some crc | byte :: buf => crc ← crc16_byte crc byte; crc16_loop crc buf end.

Definition crc16 (buf : list Z) : option Z := crc16_loop 0 buf.

(** ** Hash slots *)

(** [for (s = ...; s < keylen; s++) if (key[s] == c) break;] *)
Fixpoint scan_for (c : Z) (key : list Z) (s : nat) : nat :=
  match key with [] => s | x :: key => if x =? c then s else scan_for c key (S s) end.

Definition keyHashSlot (key : list Z) : option Z :=
  let keylen := length key in
  let hash buf := crc ← crc16 buf; Some (Z.land crc 16383) in
  let s := scan_for 123 key 0 in
  if decide (s = keylen) then hash key else
  let e := scan_for 125 (drop (s + 1) key) (s + 1) in
  if decide (e = keylen ∨ e = (s + 1)%nat) then hash key else
  hash (take (e - s - 1) (drop (s + 1) key)).

(** ** The payload of DUMP

    [payload] is the type and the serialized object. *)

Definition RDB_VERSION : Z := 9.

Definition createDumpPayload (payload : list Z) : option (list Z) :=
  let payload := payload ++ [Z.land RDB_VERSION 255; Z.land (Z.shiftr RDB_VERSION 8) 255] in
  crc ← crc64 0 payload;
  Some (payload ++ le_bytes 8 crc).

(** Whether the result is [C_OK]. *)
Definition verifyDumpPayload (p : list Z) : option bool :=
  let len := Z.of_nat (length p) in
  if len <? 10 then Some false else
  let footer := len - 10 in
  f0 ← byte_at p footer;
  f1 ← byte_at p (footer + 1);
  let rdbver := u16 (Z.lor (Z.shiftl f1 8) f0) in
  if RDB_VERSION <? rdbver then Some false else
  data ← mread p 0 (len - 8);
  crc ← crc64 0 data;
  sum ← mread p (footer + 2) 8;
  Some (bool_decide (le_bytes 8 crc = sum)).

(** ** Bits and polynomials *)

(** The [n] low bits, lowest first. *)
Fixpoint low_first (n : nat) (v : Z) : list bool := match n with O => [] | S n => Z.odd v :: low_first n (v / 2) end.

(** The bits of bytes in the order of a checksum that is reflected, and of one
    that is not. *)
Definition bits_lsb (s : list Z) : list bool := concat (low_first 8 <$> s).
Definition bits_msb (s : list Z) : list bool := concat ((λ b, rev (low_first 8 b)) <$> s).

(** The polynomial whose coefficients are given, highest first. *)
Definition poly (bs : list bool) : Z := foldl (λ m b, 2 * m + Z.b2z b) 0 bs.

Fixpoint clmul_pos (q : positive) (p : Z) : Z :=
  match q with xH => p | xO q => 2 * clmul_pos q p | xI q => Z.lxor (2 * clmul_pos q p) p end.

(** The product of polynomials. *)
Definition clmul (q p : Z) : Z := match q with Zpos q => clmul_pos q p | _ => 0 end.

(** The [n] low bits in the other order. *)
Definition reflect (n : nat) (z : Z) : Z := poly (low_first n z).

(** Division bit by bit: the next bit of the message, the remainder by [p]. *)
Definition pstep (w p r : Z) (b : bool) : Z :=
  let x := Z.lxor (2 * r) (Z.shiftl (Z.b2z b) w) in if Z.testbit x w then Z.lxor x p else x.

Definition poly16 : Z := 2 ^ 16 + 0x1021.
Definition poly64 : Z := 2 ^ 64 + 0xad93d23594c935a9.

Lemma b2z_bit (b : bool) i : 0 ≤ i → Z.testbit (Z.b2z b) i = b && (i =? 0).
Proof. intros Hi. destruct b; simpl; [|by rewrite Z.bits_0]. destruct (Z.eqb_spec i 0) as [-> |]; [done|]. change 1 with (2 ^ 0). apply Z.pow2_bits_false. lia. Qed.

Lemma two_bit m b i : 0 ≤ i → Z.testbit (2 * m + Z.b2z b) i = if i =? 0 then b else Z.testbit m (i - 1).
Proof.
  intros Hi. destruct (Z.eqb_spec i 0) as [-> |]; [apply Z.testbit_0_r|]. replace i with (Z.succ (i - 1)) at 1 by lia. apply Z.testbit_succ_r. lia.
Qed.

Lemma double_bit m i : 0 ≤ i → Z.testbit (2 * m) i = if i =? 0 then false else Z.testbit m (i - 1).
Proof. intros Hi. rewrite <- (two_bit m false i Hi). by rewrite Z.add_0_r. Qed.

Lemma double_xor a b : 2 * Z.lxor a b = Z.lxor (2 * a) (2 * b).
Proof. rewrite !(Z.mul_comm 2), <- !Z.shiftl_mul_pow2 with (n := 1) by done. apply Z.shiftl_lxor. Qed.

Lemma clmul_step q b p : 0 ≤ q → clmul (2 * q + Z.b2z b) p = Z.lxor (2 * clmul q p) (if b then p else 0).
Proof.
  intros Hq. destruct q as [|q|q]; [| |done]; destruct b; simpl; rewrite ?Z.lxor_0_l, ?Z.lxor_0_r; done.
Qed.

Lemma small_bits w r : 0 ≤ w → (0 ≤ r < 2 ^ w ↔ 0 ≤ r ∧ ∀ i, w ≤ i → Z.testbit r i = false).
Proof.
  intros Hw. split.
  - intros Hr. split; [lia|]. intros i Hi. rewrite <- (Z.mod_small r (2 ^ w)) by lia. apply Z.mod_pow2_bits_high. lia.
  - intros [Hr Hb]. split; [done|]. assert (r = r mod 2 ^ w) as ->; [|apply Z.mod_pos_bound; lia]. apply Z.bits_inj'. intros i Hi. destruct (decide (i < w)); [by rewrite Z.mod_pow2_bits_low by lia|].
    rewrite Z.mod_pow2_bits_high by lia. apply Hb. lia.
Qed.

(** ** Remainders *)

Definition divisor (w p : Z) : Prop := 0 ≤ w ∧ 0 ≤ p ∧ Z.testbit p w = true ∧ ∀ i, w < i → Z.testbit p i = false.

Lemma pstep_range w p r b : divisor w p → 0 ≤ r < 2 ^ w → 0 ≤ pstep w p r b < 2 ^ w.
Proof.
  intros (Hw & Hp & Hpw & Hph) Hr. unfold pstep. set (x := Z.lxor _ _). apply (small_bits w r Hw) in Hr as [Hr0 Hr].
  assert (0 ≤ x) as Hx by (apply Z.lxor_nonneg; split; intros _; [apply Z.shiftl_nonneg; destruct b; done|lia]).
  assert (∀ i, w < i → Z.testbit x i = false) as Hxh.
  { intros i Hi. unfold x. rewrite Z.lxor_spec, Z.shiftl_spec, b2z_bit by lia. rewrite double_bit by lia. rewrite !(proj2 (Z.eqb_neq _ _)) by lia. rewrite Hr by lia. by rewrite andb_false_r. }
  destruct (Z.testbit x w) eqn:E; apply (small_bits w); try done; (split; [first [done | by apply Z.lxor_nonneg]|]); intros i Hi; destruct (decide (i = w)) as [-> |]; rewrite ?Z.lxor_spec, ?E, ?Hpw, ?Hxh, ?Hph by lia; done.
Qed.

Lemma psteps_remainder w p bs : divisor w p → ∃ q, 0 ≤ q ∧ Z.shiftl (poly bs) w = Z.lxor (clmul q p) (foldl (pstep w p) 0 bs) ∧ 0 ≤ foldl (pstep w p) 0 bs < 2 ^ w.
Proof.
  intros Hd. pose proof Hd as (Hw & _). induction bs as [|b bs (q & Hq & E & Hr)] using rev_ind.
  { exists 0. simpl. rewrite Z.shiftl_0_l. split_and!; try done. apply Z.pow_pos_nonneg; lia. }
  unfold poly in *. rewrite !foldl_app. cbn [foldl]. set (r := foldl (pstep w p) 0 bs) in *. set (m := foldl (λ m b, 2 * m + Z.b2z b) 0 bs) in *.
  set (x := Z.lxor (2 * r) (Z.shiftl (Z.b2z b) w)). exists (2 * q + Z.b2z (Z.testbit x w)). split; [destruct (Z.testbit x w); simpl; lia|]. split; [|by apply pstep_range].
  assert (Z.shiftl (2 * m + Z.b2z b) w = Z.lxor (2 * Z.shiftl m w) (Z.shiftl (Z.b2z b) w)) as ->.
  { assert (2 * m + Z.b2z b = Z.lxor (2 * m) (Z.b2z b)) as ->.
    { apply Z.bits_inj'. intros i Hi. rewrite two_bit, Z.lxor_spec, b2z_bit by done. rewrite double_bit by done. by destruct (i =? 0), b, (Z.testbit m (i - 1)). }
    rewrite Z.shiftl_lxor. f_equal. rewrite !Z.shiftl_mul_pow2 by done. by rewrite Z.mul_assoc. }
  rewrite E, double_xor, clmul_step by done. change (pstep w p r b) with (if Z.testbit x w then Z.lxor x p else x). rewrite Z.lxor_assoc. fold x. rewrite Z.lxor_assoc. f_equal.
  destruct (Z.testbit x w); [|by rewrite Z.lxor_0_l]. by rewrite (Z.lxor_comm x), <- Z.lxor_assoc, Z.lxor_nilpotent, Z.lxor_0_l.
Qed.

(** ** Reflection *)

Lemma poly_bit bs : ∀ i, 0 ≤ i → Z.testbit (poly bs) i = default false (reverse bs !! Z.to_nat i).
Proof.
  unfold poly. induction bs as [|b bs IH] using rev_ind; intros i Hi; [by rewrite Z.bits_0|]. rewrite foldl_app, reverse_snoc. cbn [foldl]. rewrite two_bit by done.
  destruct (Z.eqb_spec i 0) as [-> |]; [done|]. rewrite IH by lia. replace (Z.to_nat i) with (S (Z.to_nat (i - 1))) by lia. done.
Qed.

Lemma poly_nonneg bs : 0 ≤ poly bs.
Proof. unfold poly. induction bs as [|b bs IH] using rev_ind; [done|]. rewrite foldl_app. cbn [foldl]. destruct b; simpl; lia. Qed.

Lemma low_first_length n v : length (low_first n v) = n.
Proof. revert v. induction n as [|n IH]; intros v; simpl; [done|]. by rewrite IH. Qed.

Lemma low_first_lookup n : ∀ v j, (j < n)%nat → low_first n v !! j = Some (Z.testbit v (Z.of_nat j)).
Proof.
  induction n as [|n IH]; intros v j Hj; [lia|]. destruct j as [|j]; [simpl; by rewrite <- Z.bit0_odd|]. change (low_first (S n) v !! S j) with (low_first n (v / 2) !! j). rewrite IH by lia. f_equal.
  rewrite <- Z.div2_div, Z.div2_spec, Z.shiftr_spec by lia. f_equal. lia.
Qed.

Lemma reflect_bit n v i : 0 ≤ i → Z.testbit (reflect n v) i = if i <? Z.of_nat n then Z.testbit v (Z.of_nat n - 1 - i) else false.
Proof.
  intros Hi. unfold reflect. rewrite poly_bit by done. destruct (Z.ltb_spec i (Z.of_nat n)).
  - rewrite reverse_lookup by (rewrite low_first_length; lia). rewrite low_first_length, low_first_lookup by lia. simpl. f_equal. lia.
  - rewrite lookup_ge_None_2; [done|]. rewrite length_reverse, low_first_length. lia.
Qed.

Lemma reflect_range n v : 0 ≤ reflect n v < 2 ^ Z.of_nat n.
Proof.
  apply small_bits; [lia|]. split; [apply poly_nonneg|]. intros i Hi. rewrite reflect_bit by lia. by rewrite (proj2 (Z.ltb_ge _ _)).
Qed.

(** ** crc64 *)

(** The division on the reflected remainder. *)
Definition rstep (r : Z) (b : bool) : Z := Z.lxor (Z.shiftr r 1) (if xorb (Z.odd r) b then reflect 64 poly64 else 0).

Lemma divisor_small w l : 0 ≤ w → 0 ≤ l < 2 ^ w → divisor w (2 ^ w + l).
Proof.
  intros Hw Hl. pose proof Hl as [_ Hb]%(small_bits w l Hw). assert (2 ^ w + l = Z.lxor (2 ^ w) l) as E.
  { apply Z.add_nocarry_lxor. apply Z.bits_inj'. intros i Hi. rewrite Z.land_spec, Z.bits_0, Z.pow2_bits_eqb by done. destruct (Z.eqb_spec w i) as [-> |]; [rewrite Hb by lia; done|done]. }
  split_and!; [done|lia| |]; rewrite E; [|intros i Hi]; rewrite Z.lxor_spec, Z.pow2_bits_eqb by done; rewrite Hb by lia; [by rewrite Z.eqb_refl|]. by rewrite (proj2 (Z.eqb_neq _ _)) by lia.
Qed.

Lemma divisor64 : divisor 64 poly64.
Proof. apply divisor_small; done. Qed.

Lemma divisor16 : divisor 16 poly16.
Proof. apply divisor_small; done. Qed.

Lemma rstep_reflect r b : 0 ≤ r < 2 ^ 64 → rstep (reflect 64 r) b = reflect 64 (pstep 64 poly64 r b).
Proof.
  intros Hr. apply Z.bits_inj'. intros i Hi. unfold rstep, pstep. set (x := Z.lxor (2 * r) (Z.shiftl (Z.b2z b) 64)).
  assert (∀ j, 0 ≤ j → Z.testbit x j = xorb (if j =? 0 then false else Z.testbit r (j - 1)) (b && (j =? 64))) as Hx.
  { intros j Hj. unfold x. rewrite Z.lxor_spec, double_bit, Z.shiftl_spec by done. f_equal. destruct (Z.ltb_spec j 64).
    - rewrite Z.testbit_neg_r by lia. rewrite (proj2 (Z.eqb_neq j 64)) by lia. by rewrite andb_false_r.
    - rewrite b2z_bit by lia. f_equal. destruct (Z.eqb_spec j 64), (Z.eqb_spec (j - 64) 0); (done || lia). }
  assert (xorb (Z.odd (reflect 64 r)) b = Z.testbit x 64) as ->.
  { rewrite Hx by lia. rewrite <- Z.bit0_odd, reflect_bit by lia. simpl. by rewrite andb_true_r. }
  rewrite Z.lxor_spec, Z.shiftr_spec by done. rewrite !reflect_bit by lia. change (Z.of_nat 64) with 64. destruct (Z.ltb_spec i 64).
  - assert (∀ (c : bool), Z.testbit (if c then reflect 64 poly64 else 0) i = c && Z.testbit poly64 (64 - 1 - i)) as ->.
    { intros []; [|by rewrite Z.bits_0]. rewrite reflect_bit by lia. change (Z.of_nat 64) with 64. by rewrite (proj2 (Z.ltb_lt i 64)). }
    assert (∀ (c : bool), Z.testbit (if c then Z.lxor x poly64 else x) (64 - 1 - i) = xorb (Z.testbit x (64 - 1 - i)) (c && Z.testbit poly64 (64 - 1 - i))) as ->.
    { intros []; [by rewrite Z.lxor_spec|by rewrite xorb_false_r]. }
    f_equal. rewrite Hx by lia. rewrite (proj2 (Z.eqb_neq (64 - 1 - i) 64)) by lia. rewrite andb_false_r, xorb_false_r. destruct (Z.ltb_spec (i + 1) 64), (Z.eqb_spec (64 - 1 - i) 0); (lia || done || idtac). f_equal. lia.
  - rewrite (proj2 (Z.ltb_ge _ _)) by lia. destruct (Z.testbit x 64); [|by rewrite Z.bits_0]. rewrite reflect_bit by lia. by rewrite (proj2 (Z.ltb_ge _ _)).
Qed.

Lemma rsteps_reflect bs : ∀ r, 0 ≤ r < 2 ^ 64 → foldl rstep (reflect 64 r) bs = reflect 64 (foldl (pstep 64 poly64) r bs).
Proof. induction bs as [|b bs IH]; intros r Hr; cbn [foldl]; [done|]. rewrite rstep_reflect by done. apply IH. apply pstep_range; [|done]. apply divisor64. Qed.

Definition F (r : Z) : Z := rstep r false.

Lemma rstep_F r b : rstep r b = F (Z.lxor r (Z.b2z b)).
Proof.
  unfold F, rstep. assert (Z.shiftr (Z.b2z b) 1 = 0) as E by (by destruct b). rewrite Z.shiftr_lxor, E, Z.lxor_0_r. do 2 f_equal. rewrite xorb_false_r, <- !Z.bit0_odd, Z.lxor_spec. by destruct b.
Qed.

Lemma F_xor a c : F (Z.lxor a c) = Z.lxor (F a) (F c).
Proof.
  unfold F, rstep. rewrite !xorb_false_r, Z.shiftr_lxor. assert (Z.odd (Z.lxor a c) = xorb (Z.odd a) (Z.odd c)) as -> by (by rewrite <- !Z.bit0_odd, Z.lxor_spec).
  set (p := reflect 64 poly64). rewrite !Z.lxor_assoc. f_equal. rewrite <- !Z.lxor_assoc, (Z.lxor_comm _ (Z.shiftr c 1)), Z.lxor_assoc. f_equal.
  destruct (Z.odd a), (Z.odd c); simpl; by rewrite ?Z.lxor_0_l, ?Z.lxor_0_r, ?Z.lxor_nilpotent.
Qed.

Lemma F_double y : F (2 * y) = y.
Proof.
  unfold F, rstep. rewrite xorb_false_r, Z.odd_mul. simpl. rewrite Z.lxor_0_r, Z.shiftr_div_pow2 by done. change (2 ^ 1) with 2. rewrite Z.mul_comm. apply Z.div_mul. done.
Qed.

Lemma F_iter n : ∀ x y, Nat.iter n F (Z.lxor x (2 ^ Z.of_nat n * y)) = Z.lxor (Nat.iter n F x) y.
Proof.
  induction n as [|n IH]; intros x y; [simpl; by rewrite Z.mul_1_l|]. rewrite !Nat.iter_succ_r. rewrite Nat2Z.inj_succ, Z.pow_succ_r, <- Z.mul_assoc, F_xor, F_double by lia. apply IH.
Qed.

(** The message bits can be added to the remainder in advance. *)
Lemma rsteps_iter n : ∀ r v, 0 ≤ v < 2 ^ Z.of_nat n → foldl rstep r (low_first n v) = Nat.iter n F (Z.lxor r v).
Proof.
  induction n as [|n IH]; intros r v Hv; [simpl in *; assert (v = 0) as -> by lia; by rewrite Z.lxor_0_r|]. cbn [low_first foldl].
  rewrite Nat2Z.inj_succ, Z.pow_succ_r in Hv by lia. pose proof (Z.div_mod v 2 ltac:(lia)) as Ev. rewrite Zmod_odd in Ev.
  assert (v = Z.lxor (Z.b2z (Z.odd v)) (2 * (v / 2))) as E2.
  { apply Z.bits_inj'. intros i Hi. rewrite Z.lxor_spec, b2z_bit, double_bit by done. rewrite Ev at 1. change (if Z.odd v then 1 else 0) with (Z.b2z (Z.odd v)). rewrite two_bit by done. destruct (i =? 0); [by rewrite andb_true_r, xorb_false_r|by rewrite andb_false_r, xorb_false_l]. }
  rewrite IH by (split; [apply Z.div_pos|apply Z.div_lt_upper_bound]; lia). rewrite Nat.iter_succ_r. rewrite E2 at 3. rewrite <- Z.lxor_assoc, F_xor, F_double, <- rstep_F. done.
Qed.

Lemma tab64 i : (i < 256)%nat → crc64_tab !! i = Some (Nat.iter 8 F (Z.of_nat i)).
Proof.
  intros Hi. assert (crc64_tab = (λ i, Nat.iter 8 F (Z.of_nat i)) <$> seq 0 256) as -> by (vm_compute; reflexivity). rewrite list_lookup_fmap, lookup_seq_lt by done. done.
Qed.

Lemma low_byte_split c : c = Z.lxor (u8 c) (2 ^ 8 * Z.shiftr c 8).
Proof.
  apply Z.bits_inj'. intros i Hi. rewrite Z.lxor_spec, Z.mul_comm, <- Z.shiftl_mul_pow2 by done. unfold u8, uwrap. destruct (Z.ltb_spec i 8).
  - rewrite Z.mod_pow2_bits_low, Z.shiftl_spec_low by lia. by rewrite xorb_false_r.
  - rewrite Z.mod_pow2_bits_high, Z.shiftl_spec, Z.shiftr_spec by lia. rewrite xorb_false_l. f_equal. lia.
Qed.

Lemma xor_byte a b : byte_ok a → byte_ok b → byte_ok (Z.lxor a b).
Proof.
  intros [Ha1 Ha2]%(small_bits 8 a ltac:(lia)) [Hb1 Hb2]%(small_bits 8 b ltac:(lia)). apply (small_bits 8); [lia|]. split; [by apply Z.lxor_nonneg|]. intros i Hi. by rewrite Z.lxor_spec, Ha2, Hb2 by lia.
Qed.

Lemma crc64_byte_ok c b : byte_ok b → crc64_byte c b = Some (foldl rstep c (low_first 8 b)).
Proof.
  intros Hb. assert (byte_ok (Z.lxor (u8 c) b)) as Hi by (apply xor_byte; [apply uwrap_range; lia|done]). unfold crc64_byte. rewrite tab64 by (destruct Hi as [? Hi]; change (2 ^ 8) with 256 in Hi; lia). cbn [mbind option_bind]. f_equal.
  rewrite Z2Nat.id by apply Hi. rewrite rsteps_iter by exact Hb. pose proof (F_iter 8 (Z.lxor (u8 c) b) (Z.shiftr c 8)) as E. change (Z.of_nat 8) with 8 in E. rewrite <- E. clear E. f_equal.
  rewrite (low_byte_split c) at 3. rewrite !Z.lxor_assoc. f_equal. apply Z.lxor_comm.
Qed.

Lemma crc64_ok s : Forall byte_ok s → ∀ c, crc64 c s = Some (foldl rstep c (bits_lsb s)).
Proof.
  induction 1 as [|b s Hb _ IH]; intros c; [done|]. cbn [crc64]. rewrite crc64_byte_ok by done. cbn [mbind option_bind]. rewrite IH. unfold bits_lsb. rewrite fmap_cons. cbn [concat]. by rewrite foldl_app.
Qed.

(** ** Bursts *)

Lemma F_range x : 0 ≤ x < 2 ^ 64 → 0 ≤ F x < 2 ^ 64.
Proof.
  intros [Hx Hb]%(small_bits 64 x ltac:(lia)). pose proof (reflect_range 64 poly64) as [Hp Hpb]%(small_bits 64 _ ltac:(lia)). apply (small_bits 64); [lia|]. unfold F, rstep.
  assert (0 ≤ Z.shiftr x 1) as Hs by (by apply Z.shiftr_nonneg). destruct (xorb _ _); split; try (by apply Z.lxor_nonneg); intros i Hi; rewrite Z.lxor_spec, Z.shiftr_spec, Hb by lia; rewrite ?Hpb, ?Z.bits_0 by lia; done.
Qed.

Lemma F_zero x : 0 ≤ x < 2 ^ 64 → F x = 0 → x = 0.
Proof.
  intros Hx E. pose proof Hx as [_ Hb]%(small_bits 64 x ltac:(lia)). destruct (Z.odd x) eqn:Eo.
  - apply (f_equal (λ z, Z.testbit z 63)) in E. unfold F, rstep in E. rewrite Eo, Z.lxor_spec, Z.shiftr_spec, Hb, Z.bits_0 in E by lia. vm_compute in E. done.
  - unfold F, rstep in E. rewrite Eo in E. simpl in E. rewrite Z.lxor_0_r, Z.shiftr_div_pow2 in E by done. change (2 ^ 1) with 2 in E. pose proof (Z.div_mod x 2 ltac:(lia)) as Ed. rewrite Zmod_odd, Eo, E in Ed. lia.
Qed.

Lemma xor_range w a b : 0 ≤ w → 0 ≤ a < 2 ^ w → 0 ≤ b < 2 ^ w → 0 ≤ Z.lxor a b < 2 ^ w.
Proof.
  intros Hw [Ha1 Ha2]%(small_bits w a Hw) [Hb1 Hb2]%(small_bits w b Hw). apply (small_bits w); [done|]. split; [by apply Z.lxor_nonneg|]. intros i Hi. by rewrite Z.lxor_spec, Ha2, Hb2 by lia.
Qed.

Lemma F_inj a b : 0 ≤ a < 2 ^ 64 → 0 ≤ b < 2 ^ 64 → F a = F b → a = b.
Proof.
  intros Ha Hb E. apply Z.lxor_eq_0_iff, F_zero; [by apply xor_range|]. by rewrite F_xor, E, Z.lxor_nilpotent.
Qed.

Lemma iter_inj n : ∀ a b, 0 ≤ a < 2 ^ 64 → 0 ≤ b < 2 ^ 64 → Nat.iter n F a = Nat.iter n F b → a = b.
Proof. induction n as [|n IH]; intros a b Ha Hb E; [done|]. rewrite !Nat.iter_succ_r in E. apply F_inj; try done. by apply IH; try apply F_range. Qed.

Lemma rstep_range r b : 0 ≤ r < 2 ^ 64 → 0 ≤ rstep r b < 2 ^ 64.
Proof. intros Hr. rewrite rstep_F. apply F_range, xor_range; try done. by destruct b. Qed.

Lemma rsteps_range bs : ∀ r, 0 ≤ r < 2 ^ 64 → 0 ≤ foldl rstep r bs < 2 ^ 64.
Proof. induction bs as [|b bs IH]; intros r Hr; [done|]. apply IH. by apply rstep_range. Qed.

Lemma rsteps_inj bs : ∀ r r', 0 ≤ r < 2 ^ 64 → 0 ≤ r' < 2 ^ 64 → foldl rstep r bs = foldl rstep r' bs → r = r'.
Proof.
  induction bs as [|b bs IH]; intros r r' Hr Hr' E; [done|]. apply IH in E; [|by apply rstep_range..]. rewrite !rstep_F in E.
  apply F_inj in E; [|apply xor_range; try done; by destruct b..]. apply (f_equal (λ z, Z.lxor z (Z.b2z b))) in E. by rewrite !Z.lxor_assoc, Z.lxor_nilpotent, !Z.lxor_0_r in E.
Qed.

Lemma low_first_add n m k : ∀ b, 0 ≤ b < 2 ^ Z.of_nat n → low_first (n + m) (b + 2 ^ Z.of_nat n * k) = low_first n b ++ low_first m k.
Proof.
  induction n as [|n IH]; intros b Hb; [simpl in *; f_equal; lia|]. rewrite Nat2Z.inj_succ, Z.pow_succ_r in * by lia. cbn [Nat.add low_first app]. f_equal.
  - rewrite <- Z.mul_assoc, Z.odd_add_mul_2. done.
  - rewrite <- IH by (split; [apply Z.div_pos|apply Z.div_lt_upper_bound]; lia). f_equal. rewrite <- Z.mul_assoc, Z.mul_comm. apply Z.div_add. done.
Qed.

Lemma bits_lsb_val s : Forall byte_ok s → bits_lsb s = low_first (8 * length s) (le_val s).
Proof.
  induction 1 as [|b s Hb _ IH]; [done|]. unfold bits_lsb in *. rewrite fmap_cons. cbn [concat le_val length]. rewrite IH. replace (8 * S (length s))%nat with (8 + 8 * length s)%nat by lia. symmetry. apply (low_first_add 8). exact Hb.
Qed.

(** Other bytes at the same place, at most eight, have another checksum. *)
Lemma crc64_burst c p s t x : 0 ≤ c < 2 ^ 64 → Forall byte_ok (p ++ s ++ x) → Forall byte_ok t → length t = length s → (length s ≤ 8)%nat →
  crc64 c (p ++ s ++ x) = crc64 c (p ++ t ++ x) → s = t.
Proof.
  intros Hc Hs Ht Hl H8 E. rewrite !Forall_app in Hs. destruct Hs as (Hp & Hs & Hx). rewrite !crc64_ok in E by (rewrite !Forall_app; done). injection E as E. unfold bits_lsb in E. rewrite !fmap_app, !concat_app, !foldl_app in E.
  set (c1 := foldl rstep c _) in E. assert (0 ≤ c1 < 2 ^ 64) as Hc1 by (by apply rsteps_range). apply rsteps_inj in E; [|by apply rsteps_range..]. fold (bits_lsb s) (bits_lsb t) in E. rewrite !bits_lsb_val, Hl in E by done.
  assert (∀ u, Forall byte_ok u → length u = length s → 0 ≤ le_val u < 2 ^ Z.of_nat (8 * length s)) as Hr.
  { intros u Hu Hlu. pose proof (le_val_range u Hu) as Hv. rewrite Hlu in Hv. rewrite Nat2Z.inj_mul, Z.pow_mul_r by lia. exact Hv. }
  assert (2 ^ Z.of_nat (8 * length s) ≤ 2 ^ 64) as H64 by (apply Z.pow_le_mono_r; lia). pose proof (Hr s Hs eq_refl) as Hrs. pose proof (Hr t Ht Hl) as Hrt. rewrite !rsteps_iter in E by done.
  apply iter_inj in E; [|apply xor_range; lia..]. apply (f_equal (λ z, Z.lxor c1 z)) in E. rewrite <- !Z.lxor_assoc, Z.lxor_nilpotent, !Z.lxor_0_l in E. by apply le_val_eq.
Qed.

(** ** crc16 *)

Definition G (r : Z) : Z := pstep 16 poly16 r false.

Lemma G_unfold r : G r = Z.lxor (2 * r) (if Z.testbit r 15 then poly16 else 0).
Proof. unfold G, pstep. change (Z.shiftl (Z.b2z false) 16) with 0. rewrite Z.lxor_0_r, double_bit by lia. change (if 16 =? 0 then false else Z.testbit r (16 - 1)) with (Z.testbit r 15). destruct (Z.testbit r 15); [done|]. by rewrite Z.lxor_0_r. Qed.

Lemma pstep_G r b : pstep 16 poly16 r b = G (Z.lxor r (Z.shiftl (Z.b2z b) 15)).
Proof. unfold G, pstep. change (Z.shiftl (Z.b2z false) 16) with 0. rewrite Z.lxor_0_r, double_xor. assert (2 * Z.shiftl (Z.b2z b) 15 = Z.shiftl (Z.b2z b) 16) as -> by (by destruct b). done. Qed.

Lemma G_xor a c : G (Z.lxor a c) = Z.lxor (G a) (G c).
Proof.
  rewrite !G_unfold, double_xor, Z.lxor_spec. generalize poly16. intros p. rewrite !Z.lxor_assoc. f_equal. rewrite <- !Z.lxor_assoc, (Z.lxor_comm _ (2 * c)), Z.lxor_assoc. f_equal.
  destruct (Z.testbit a 15), (Z.testbit c 15); simpl; by rewrite ?Z.lxor_0_l, ?Z.lxor_0_r, ?Z.lxor_nilpotent.
Qed.

Lemma G_iter_xor n : ∀ a c, Nat.iter n G (Z.lxor a c) = Z.lxor (Nat.iter n G a) (Nat.iter n G c).
Proof. induction n as [|n IH]; intros a c; [done|]. by rewrite !Nat.iter_succ_r, G_xor, IH. Qed.

(** Below the highest bit there is nothing to divide. *)
Lemma G_shift n : ∀ k y, 0 ≤ k → 0 ≤ y < 2 ^ k → k + Z.of_nat n ≤ 16 → Nat.iter n G y = Z.shiftl y (Z.of_nat n).
Proof.
  induction n as [|n IH]; intros k y Hk Hy Hn; [by rewrite Z.shiftl_0_r|]. rewrite Nat.iter_succ_r. pose proof Hy as [_ Hb]%(small_bits k y Hk). rewrite G_unfold, Hb, Z.lxor_0_r by lia.
  rewrite (IH (k + 1)) by (rewrite ?Z.pow_add_r; lia). rewrite !Z.shiftl_mul_pow2, Nat2Z.inj_succ, Z.pow_succ_r by lia. lia.
Qed.

Lemma psteps_iter n : ∀ r v, Z.of_nat n ≤ 8 → 0 ≤ v < 2 ^ Z.of_nat n → foldl (pstep 16 poly16) r (rev (low_first n v)) = Nat.iter n G (Z.lxor r (Z.shiftl v (16 - Z.of_nat n))).
Proof.
  induction n as [|n IH]; intros r v Hn Hv; [simpl in *; assert (v = 0) as -> by lia; by rewrite Z.lxor_0_r|]. cbn [low_first rev]. rewrite foldl_app. cbn [foldl].
  rewrite Nat2Z.inj_succ, Z.pow_succ_r in * by lia. rewrite IH; [|lia|split; [apply Z.div_pos|apply Z.div_lt_upper_bound]; lia]. rewrite pstep_G. set (b := Z.b2z (Z.odd v)). rewrite Nat.iter_succ. f_equal.
  assert (0 ≤ b < 2 ^ 1) as Hb by (unfold b; destruct (Z.odd v); simpl; lia). assert (0 ≤ Z.shiftl b (15 - Z.of_nat n) < 2 ^ (1 + (15 - Z.of_nat n))) as Hsb.
  { rewrite Z.shiftl_mul_pow2 by lia. rewrite Z.pow_add_r by lia. assert (0 < 2 ^ (15 - Z.of_nat n)) by (apply Z.pow_pos_nonneg; lia). nia. }
  assert (Z.shiftl b 15 = Nat.iter n G (Z.shiftl b (15 - Z.of_nat n))) as ->.
  { rewrite (G_shift n (1 + (15 - Z.of_nat n))) by (done || lia). rewrite Z.shiftl_shiftl by lia. f_equal. lia. }
  rewrite <- G_iter_xor, Z.lxor_assoc. do 2 f_equal. replace (16 - Z.succ (Z.of_nat n)) with (15 - Z.of_nat n) by lia.
  pose proof (Z.div_mod v 2 ltac:(lia)) as Ev. rewrite Zmod_odd in Ev. change (if Z.odd v then 1 else 0) with (Z.b2z (Z.odd v)) in Ev.
  assert (v = Z.lxor (2 * (v / 2)) b) as E2.
  { apply Z.bits_inj'. intros i Hi. rewrite Z.lxor_spec. unfold b. rewrite b2z_bit, double_bit by done. rewrite Ev at 1. rewrite two_bit by done. destruct (i =? 0); [by rewrite andb_true_r, xorb_false_l|by rewrite andb_false_r, xorb_false_r]. }
  rewrite E2 at 2. rewrite Z.shiftl_lxor. f_equal. rewrite !Z.shiftl_mul_pow2 by lia. replace (16 - Z.of_nat n) with (Z.succ (15 - Z.of_nat n)) by lia. rewrite Z.pow_succ_r by lia. ring.
Qed.

Lemma tab16 i : (i < 256)%nat → crc16tab !! i = Some (Nat.iter 8 G (Z.shiftl (Z.of_nat i) 8)).
Proof.
  intros Hi. assert (crc16tab = (λ i, Nat.iter 8 G (Z.shiftl (Z.of_nat i) 8)) <$> seq 0 256) as -> by (vm_compute; reflexivity). rewrite list_lookup_fmap, lookup_seq_lt by done. done.
Qed.

Lemma G_range x : 0 ≤ x < 2 ^ 16 → 0 ≤ G x < 2 ^ 16.
Proof. apply pstep_range, divisor16. Qed.

Lemma G_iter_range n : ∀ x, 0 ≤ x < 2 ^ 16 → 0 ≤ Nat.iter n G x < 2 ^ 16.
Proof. induction n as [|n IH]; intros x Hx; [done|]. by apply G_range, IH. Qed.

Lemma crc16_byte_ok c b : 0 ≤ c < 2 ^ 16 → byte_ok b → crc16_byte c b = Some (foldl (pstep 16 poly16) c (rev (low_first 8 b))).
Proof.
  intros Hc Hb. unfold crc16_byte. set (h := Z.shiftr c 8). assert (byte_ok h) as Hh by (unfold h; rewrite Z.shiftr_div_pow2 by done; split; [apply Z.div_pos; lia|apply Z.div_lt_upper_bound; lia]).
  assert (byte_ok (Z.lxor h b)) as Hi by (by apply xor_byte). assert (Z.land (Z.lxor h b) 255 = Z.lxor h b) as -> by (change 255 with (Z.ones 8); rewrite Z.land_ones by done; by apply Z.mod_small).
  rewrite tab16 by (destruct Hi as [? Hi]; change (2 ^ 8) with 256 in Hi; lia). cbn [mbind option_bind]. f_equal. rewrite Z2Nat.id by apply Hi. rewrite (psteps_iter 8) by (done || apply Hb). change (16 - Z.of_nat 8) with 8.
  set (l := u8 c). assert (byte_ok l) as Hl by (apply uwrap_range; lia).
  assert (Z.lxor c (Z.shiftl b 8) = Z.lxor l (Z.shiftl (Z.lxor h b) 8)) as ->. { rewrite (low_byte_split c) at 1. fold l h. rewrite Z.shiftl_lxor, Z.lxor_assoc. f_equal. f_equal. rewrite Z.shiftl_mul_pow2 by done. apply Z.mul_comm. }
  rewrite G_iter_xor. rewrite (G_shift 8 8 l) by (done || apply Hl). change (Z.of_nat 8) with 8. set (t := Nat.iter 8 G _).
  assert (0 ≤ t < 2 ^ 16) as Ht. { apply G_iter_range. rewrite Z.shiftl_mul_pow2 by done. destruct Hi as [? Hi]. change (2 ^ 8) with 256 in *. change (2 ^ 16) with 65536. lia. }
  pose proof Ht as [_ Htb]%(small_bits 16 t ltac:(lia)). apply Z.bits_inj'. intros i Hi0. unfold u16, uwrap. rewrite Z.lxor_spec. unfold l, u8, uwrap. destruct (Z.ltb_spec i 16).
  - rewrite Z.mod_pow2_bits_low, Z.lxor_spec by lia. f_equal. rewrite !Z.shiftl_spec by lia. destruct (Z.ltb_spec i 8); [by rewrite !Z.testbit_neg_r by lia|]. by rewrite Z.mod_pow2_bits_low by lia.
  - rewrite Z.mod_pow2_bits_high, Htb, Z.shiftl_spec, Z.mod_pow2_bits_high by lia. done.
Qed.

Lemma crc16_loop_ok s : Forall byte_ok s → ∀ c, 0 ≤ c < 2 ^ 16 → crc16_loop c s = Some (foldl (pstep 16 poly16) c (bits_msb s)).
Proof.
  induction 1 as [|b s Hb _ IH]; intros c Hc; [done|]. cbn [crc16_loop]. rewrite crc16_byte_ok by done. cbn [mbind option_bind]. unfold bits_msb. rewrite fmap_cons. cbn [concat]. rewrite foldl_app. apply IH.
  generalize (rev (low_first 8 b)). intros bs. revert c Hc. induction bs as [|x bs IHb]; intros c Hc; [done|]. apply IHb. apply pstep_range; [apply divisor16|done].
Qed.

(** ** Theorems *)

(** [r] is a remainder of the division of [m x^w] by [p]. *)
Definition remainder (w p m r : Z) : Prop := 0 ≤ r < 2 ^ w ∧ ∃ q, 0 ≤ q ∧ Z.shiftl m w = Z.lxor (clmul q p) r.

(** C38. The checksums by table are remainders of polynomials: [crc16] of a
    string is the remainder of the division by x^16 + x^12 + x^5 + 1 of its bits,
    highest bit of a byte first; [crc64] of the whole string at once, or of its
    parts one after another, is the remainder by the polynomial of the
    documentation, lowest bit first and with the bits of the remainder in the
    opposite order. No access is behind the end of a table. *)
Theorem crc_remainders s t : Forall byte_ok (s ++ t) →
  (∃ r, crc16 (s ++ t) = Some r ∧ remainder 16 poly16 (poly (bits_msb (s ++ t))) r) ∧
  (∃ c r, crc64 0 s = Some c ∧ crc64 c t = Some (reflect 64 r) ∧ remainder 64 poly64 (poly (bits_lsb (s ++ t))) r).
Proof.
  intros Hb. split.
  - destruct (psteps_remainder 16 poly16 (bits_msb (s ++ t)) divisor16) as (q & Hq & E & Hr). eexists. split; [apply crc16_loop_ok; done|]. split; [done|]. by exists q.
  - pose proof Hb as [Hs Ht]%Forall_app. destruct (psteps_remainder 64 poly64 (bits_lsb (s ++ t)) divisor64) as (q & Hq & E & Hr). set (r := foldl (pstep 64 poly64) 0 (bits_lsb (s ++ t))) in *.
    exists (foldl rstep 0 (bits_lsb s)), r. split; [by apply crc64_ok|]. split; [|split; [done|by exists q]]. rewrite crc64_ok by done. f_equal. unfold r. rewrite <- rsteps_reflect by done.
    change (reflect 64 0) with 0. unfold bits_lsb. by rewrite fmap_app, concat_app, foldl_app.
Qed.

(** The checks that the comments of both files give. *)
Example crc_checks : crc64 0 [49; 50; 51; 52; 53; 54; 55; 56; 57] = Some 0xe9c6d914c4b8d9ca ∧ crc16 [49; 50; 51; 52; 53; 54; 55; 56; 57] = Some 0x31C3 ∧
  crc64 (2 ^ 64 - 1) [49; 50; 51; 52; 53; 54; 55; 56; 57] ≠ Some 0xe9c6d914c4b8d9ca.
Proof. vm_compute. done. Qed.

Lemma footer_reads d v0 v1 sum : length sum = 8%nat → let p := (d ++ [v0; v1]) ++ sum in let len := Z.of_nat (length p) in
  (len <? 10) = false ∧ byte_at p (len - 10) = Some v0 ∧ byte_at p (len - 10 + 1) = Some v1 ∧ mread p 0 (len - 8) = Some (d ++ [v0; v1]) ∧ mread p (len - 10 + 2) 8 = Some sum.
Proof.
  intros Hs p len. assert (len = Z.of_nat (length d) + 10) as El by (unfold len, p; rewrite !length_app, Hs; simpl; lia). rewrite El. split_and!.
  - apply Z.ltb_ge. lia.
  - unfold p. rewrite <- !app_assoc. replace (Z.of_nat (length d) + 10 - 10) with (Z.of_nat (length d)) by lia. unfold byte_at. by rewrite (mread_app d [v0] (v1 :: sum)).
  - unfold p. replace (d ++ [v0; v1]) with ((d ++ [v0]) ++ [v1]) by (by rewrite <- app_assoc). rewrite <- (app_assoc (d ++ [v0])). unfold byte_at. by rewrite (mread_app (d ++ [v0]) [v1] sum) by (rewrite ?length_app; simpl; lia).
  - unfold p. apply (mread_app []); [done|]. rewrite length_app. simpl. lia.
  - unfold p. rewrite <- (app_nil_r sum) at 1. apply mread_app; [rewrite length_app; simpl; lia|by rewrite Hs].
Qed.

Lemma verify_ok d v0 v1 sum c : Forall byte_ok (d ++ [v0; v1]) → length sum = 8%nat → crc64 0 (d ++ [v0; v1]) = Some c →
  verifyDumpPayload ((d ++ [v0; v1]) ++ sum) = Some (negb (RDB_VERSION <? u16 (Z.lor (Z.shiftl v1 8) v0)) && bool_decide (le_bytes 8 c = sum)).
Proof.
  intros Hd Hs Hc. unfold verifyDumpPayload. destruct (footer_reads d v0 v1 sum Hs) as (-> & -> & -> & -> & ->). cbn [mbind option_bind]. destruct (RDB_VERSION <? _); [done|]. rewrite Hc. done.
Qed.

Lemma F_iter_0 n : Nat.iter n F 0 = 0.
Proof. induction n as [|n IH]; [done|]. rewrite Nat.iter_succ, IH. done. Qed.

Lemma iter_zero n x : 0 ≤ x < 2 ^ 64 → Nat.iter n F x = 0 → x = 0.
Proof. intros Hx E. apply (iter_inj n); [done|done|]. by rewrite E, F_iter_0. Qed.

(** A string with its checksum has the checksum 0. *)
Lemma crc64_closed d c sum : crc64 0 d = Some c → Forall byte_ok d → Forall byte_ok sum → length sum = 8%nat → le_bytes 8 c = sum ↔ crc64 0 (d ++ sum) = Some 0.
Proof.
  intros Hc Hd Hs Hl. rewrite crc64_ok in Hc |- * by (rewrite ?Forall_app; done). injection Hc as Hc. unfold bits_lsb in *. rewrite fmap_app, concat_app, foldl_app, Hc. fold (bits_lsb sum).
  assert (0 ≤ c < 2 ^ 64) as Hcr by (rewrite <- Hc; by apply rsteps_range). pose proof (le_val_range sum Hs) as Hv. rewrite bits_lsb_val by done. rewrite Hl in *. change (256 ^ Z.of_nat 8) with (2 ^ 64) in Hv. rewrite rsteps_iter by exact Hv.
  assert (le_val (le_bytes 8 c) = c) as Ev by (rewrite le_val_bytes; by apply Z.mod_small). split.
  - intros E. rewrite E in Ev. rewrite Ev, Z.lxor_nilpotent. by rewrite F_iter_0.
  - intros E. apply (inj Some) in E. apply iter_zero in E; [|by apply xor_range]. apply Z.lxor_eq_0_iff in E as ->. rewrite <- Hl. by apply le_bytes_val.
Qed.

Lemma split_payload (p : list Z) : (10 ≤ length p)%nat → ∃ d v0 v1 sum, p = (d ++ [v0; v1]) ++ sum ∧ length sum = 8%nat.
Proof.
  intros Hl. set (k := (length p - 10)%nat). pose proof (length_drop p k) as Hd. destruct (drop k p) as [|v0 [|v1 sum]] eqn:E; simpl in Hd; [lia|lia|]. exists (take k p), v0, v1, sum. split; [|lia].
  rewrite <- (take_drop k p) at 1. rewrite E, <- app_assoc. done.
Qed.

(** C39. RESTORE accepts what DUMP makes, whatever the serialized object, and
    refuses it after any change of up to eight consecutive bytes, in the object,
    in the version or in the checksum. *)
Theorem dump_payload_checked payload : Forall byte_ok payload →
  ∃ p, createDumpPayload payload = Some p ∧ length p = (length payload + 10)%nat ∧ verifyDumpPayload p = Some true ∧
    ∀ a s t b, p = a ++ s ++ b → t ≠ s → Forall byte_ok t → length t = length s → (length s ≤ 8)%nat → verifyDumpPayload (a ++ t ++ b) = Some false.
Proof.
  intros Hp. unfold createDumpPayload. set (d := payload ++ _). assert (Forall byte_ok d) as Hd by (apply Forall_app; split; [done|]; repeat constructor; done).
  rewrite crc64_ok by done. cbn [mbind option_bind]. set (c := foldl rstep 0 (bits_lsb d)). assert (crc64 0 d = Some c) as Hc by (by apply crc64_ok).
  assert (Forall byte_ok (le_bytes 8 c)) as Hs by apply le_bytes_ok. exists (d ++ le_bytes 8 c). split; [done|]. split; [unfold d; rewrite !length_app; simpl; lia|]. split.
  { unfold d in *. rewrite (verify_ok _ _ _ _ c) by done. by rewrite bool_decide_true. }
  intros a s t b E Hne Ht Hlt Hls. pose proof (proj1 (crc64_closed d c (le_bytes 8 c) Hc Hd Hs eq_refl) eq_refl) as E0. rewrite E in E0.
  assert (Forall byte_ok (a ++ s ++ b)) as Hab by (rewrite <- E; by apply Forall_app). assert (Forall byte_ok (a ++ t ++ b)) as Hab' by (rewrite !Forall_app in *; tauto).
  assert (length (a ++ t ++ b) = (length payload + 10)%nat) as Hlen. { transitivity (length (d ++ le_bytes 8 c)); [rewrite E, !length_app; lia|unfold d; rewrite !length_app; simpl; lia]. }
  destruct (split_payload (a ++ t ++ b)) as (d' & v0 & v1 & sum & E' & Hsum); [lia|]. rewrite E' in *. apply Forall_app in Hab' as [Hd' Hs']. rewrite (verify_ok d' v0 v1 sum _ Hd' Hsum (crc64_ok _ Hd' 0)). f_equal. apply andb_false_intro2, bool_decide_false.
  intros E1. apply (crc64_closed _ _ _ (crc64_ok _ Hd' 0) Hd' Hs' Hsum) in E1. rewrite <- E' in E1. destruct Hne. symmetry. apply (crc64_burst 0 a s t b); try done. by rewrite E0, E1.
Qed.

Lemma crc_remainders_witness : (∃ r, crc16 [102; 111; 111] = Some r ∧ remainder 16 poly16 (poly (bits_msb [102; 111; 111])) r) ∧
  ∃ c r, crc64 0 [102] = Some c ∧ crc64 c [111; 111] = Some (reflect 64 r) ∧ remainder 64 poly64 (poly (bits_lsb [102; 111; 111])) r.
Proof. apply (crc_remainders [102] [111; 111]). repeat constructor; done. Defined.

Lemma dump_payload_checked_witness : ∃ p, createDumpPayload [0; 1; 97] = Some p ∧ verifyDumpPayload p = Some true ∧
  ∀ b, p = [0; 1] ++ [97; 9] ++ b → verifyDumpPayload ([0; 1] ++ [98; 8] ++ b) = Some false.
Proof.
  destruct (dump_payload_checked [0; 1; 97]) as (p & E & _ & Hv & Hbad); [repeat constructor; done|]. exists p. split; [exact E|]. split; [exact Hv|].
  intros b Hp. apply (Hbad [0; 1] [97; 9] [98; 8] b Hp); [done|repeat constructor; done|done|simpl; lia].
Defined.

(** ** Hash slots *)

Lemma scan_for_app c a k s : c ∉ a → scan_for c (a ++ k) s = scan_for c k (s + length a).
Proof.
  revert s. induction a as [|x a IH]; intros s Hc; simpl; [by rewrite Nat.add_0_r|]. apply not_elem_of_cons in Hc as [Hx Hc]. destruct (Z.eqb_spec x c) as [-> |]; [done|]. rewrite IH by done. f_equal. lia.
Qed.

Lemma scan_for_none c k s : c ∉ k → scan_for c k s = (s + length k)%nat.
Proof. intros Hc. rewrite <- (app_nil_r k) at 1. by rewrite scan_for_app. Qed.

Lemma scan_for_here c k s : scan_for c (c :: k) s = s.
Proof. simpl. by rewrite Z.eqb_refl. Qed.

(** The slot of the bytes that are hashed. *)
Definition slot (s : list Z) : Z := foldl (pstep 16 poly16) 0 (bits_msb s) `mod` 2 ^ 14.

(** The slot of a key is one of 16384. It is the slot of the text between the
    first opening brace and the first closing brace behind it when both exist and
    there is text between them, whatever surrounds it, and of the whole key
    otherwise. *)
Theorem keyHashSlot_correct key : Forall byte_ok key → (∃ n, keyHashSlot key = Some n ∧ 0 ≤ n < 16384) ∧
  (123 ∉ key → keyHashSlot key = Some (slot key)) ∧
  (∀ a t, key = a ++ 123 :: t → 123 ∉ a → 125 ∉ t → keyHashSlot key = Some (slot key)) ∧
  (∀ a b, key = a ++ 123 :: 125 :: b → 123 ∉ a → keyHashSlot key = Some (slot key)) ∧
  (∀ a x t b, key = a ++ 123 :: (x :: t) ++ 125 :: b → 123 ∉ a → 125 ∉ x :: t → keyHashSlot key = Some (slot (x :: t))).
Proof.
  intros Hk. set (hash := λ buf, crc ← crc16 buf; Some (Z.land crc 16383)).
  assert (∀ buf, Forall byte_ok buf → hash buf = Some (slot buf) ∧ 0 ≤ slot buf < 16384) as Hh.
  { intros buf Hb. unfold hash, crc16. rewrite crc16_loop_ok by done. cbn [mbind option_bind]. unfold slot. split; [|by apply Z.mod_pos_bound]. f_equal. change 16383 with (Z.ones 14). by apply Z.land_ones. }
  split_and!.
  - unfold keyHashSlot. fold hash. destruct (decide _); [eexists; by apply Hh|]. destruct (decide _); [eexists; by apply Hh|]. eexists. apply Hh. by apply Forall_take, Forall_drop.
  - intros H. unfold keyHashSlot. fold hash. rewrite scan_for_none, decide_True by done. by apply Hh.
  - intros a t -> Ha Ht. unfold keyHashSlot. fold hash. rewrite scan_for_app, scan_for_here by done. rewrite decide_False by (rewrite length_app; simpl; lia). rewrite decide_True; [by apply Hh|]. left.
    replace (drop (0 + length a + 1) (a ++ 123 :: t)) with t by (rewrite drop_app_ge by lia; by replace (0 + length a + 1 - length a)%nat with 1%nat by lia). rewrite scan_for_none by done. rewrite length_app. simpl. lia.
  - intros a b -> Ha. unfold keyHashSlot. fold hash. rewrite scan_for_app, scan_for_here by done. rewrite decide_False by (rewrite length_app; simpl; lia). rewrite decide_True; [by apply Hh|]. right.
    replace (drop (0 + length a + 1) (a ++ 123 :: 125 :: b)) with (125 :: b) by (rewrite drop_app_ge by lia; by replace (0 + length a + 1 - length a)%nat with 1%nat by lia). apply scan_for_here.
  - intros a x t b E Ha Ht. subst key. unfold keyHashSlot. fold hash. rewrite scan_for_app, scan_for_here by done. set (s := (0 + length a)%nat). rewrite decide_False by (rewrite !length_app; simpl; rewrite length_app; simpl; lia).
    assert (drop (s + 1) (a ++ 123 :: (x :: t) ++ 125 :: b) = (x :: t) ++ 125 :: b) as -> by (unfold s; rewrite drop_app_ge by lia; by replace (0 + length a + 1 - length a)%nat with 1%nat by lia).
    rewrite scan_for_app, scan_for_here by done. rewrite decide_False by (unfold s; rewrite !length_app; simpl; rewrite length_app; simpl; lia).
    rewrite take_app_length' by (simpl; lia). apply Hh. rewrite !Forall_app, Forall_cons, Forall_app in Hk. tauto.
Qed.
